(* ===== verification/_CoqProject ===== *)
-Q . S2P
Prelude.v
Programs.v
RustStr.v
RustSlice.v
Json.v
Seam.v
Config.v
Classification.v
Ceiling.v
PathGlob.v
AuthzPolicy.v
Decide.v
Graph.v
GraphFormat.v
Identity.v
Bindings.v
BindingsSync.v
PolicySource.v
Snapshot.v
Composition.v
Wire.v
Operands.v
Texts.v
SyncText.v
Envelope.v
Anchor.v
Store.v
StoreWorld.v
StoreTheorems.v
MutationExchange.v
RustNet.v
Providers.v
Breaker.v
Handler.v
Session.v
Egress.v
Workers.v
AuditRecords.v
AuditScan.v
AuditLine.v
AuditGuard.v
AuditMirror.v
AuditSink.v
AuditTrail.v
Effects.v
Containment.v
Baseline.v
ErrorTexts.v
LiveState.v
Reload.v
LiveEdit.v
LiveWorld.v
LiveInvariant.v
LiveTheorems.v
Accept.v
AcceptTheorems.v
Mutation.v
Agent.v
AgentDrive.v
AgentInvariant.v
AgentTheorems.v
Page.v
HeldIo.v
HeldTheorems.v
AuditOpen.v
AuditTheorems.v
Client.v
ClientPaths.v
ClientTheorems.v
Loop.v
LoopTheorems.v
Serve.v
ServePolicy.v
MutateTheorems.v
ServeTheorems.v
ServeGuarantees.v
