(* ===== verification/Prelude.v ===== *)
(** * Maknae's policy decision and enforcement: a verification library

    ** The program

    Maknae is an agent runtime whose privileged daemon, [maknaed], decides every
    request of an untrusted client. This library models the part that decides,
    the part that enforces what was decided, and the client's agent with what it
    does to the file system under a grant:

    - [crates/maknae-security] is the seam: a [Request] of attribute maps, a
      four-valued [Verdict], the N-ary conjunction of operands and the
      fail-closed [finalize] to a [Decision].
    - [crates/maknae-config] parses the files: [core.handling] (the
      classification ceiling), [authz.yaml] (grants, destinations, per-subject
      limits) and [bindings.yaml] (who holds which role).
    - [crates/maknae-graph] is the typed graph the identity layer is stored in:
      a schema-checked builder, sorted indices, a canonical binary codec, and the
      identity layer with its carry-forward of containment.
    - [crates/maknae-authz-basic] is the baseline operand: the resolution of
      subjects, the compiled snapshot, and the role-based decision with the rule
      it cites.
    - [crates/maknae-kernel] composes the baseline with the ceiling operand,
      serializes decisions against live installs, and serves a connection: it
      records, reads one frame, re-decides the session, gates the operands, puts
      the request to the decision point and dispatches what it permits.
    - [crates/maknae-state] keeps the identity graph at rest: a sealed file, replaced as
      a whole, whose revision and digest the audit trail anchors.
    - [crates/maknae-audit-append] is the trail all of this is recorded in: one append
      is synchronized before it is acknowledged, and mirrored to the system's log.
    - [crates/maknae-proto] is the client protocol; [crates/maknae-deputy] is the
      Egress Daemon's decision on the prompts the kernel hands it.
    - [crates/maknae-agent] is the agent's loop, without I/O: the budget, the
      transcript, the routing of tool calls, the drive. [crates/maknae-loop] is its
      plane over the wire and the client's side of a granted attempt;
      [crates/maknae-io] the file operations that attempt is made of.

    A decision goes: [Composition] folds the operands with [Seam]; the baseline
    operand is [Decide] over the [LoadedPolicy] of an installed [Snapshot], whose
    roles are hops in a [Graph] ([Bindings]) and whose path rules are
    [AuthzPolicy] over [PathGlob]; the ceiling operand is [Ceiling] over a system
    of [Classification]. A snapshot is compiled from a [PolicySource] (the files,
    validated against the account database) and the persisted identity graph
    ([Identity], stored by [GraphFormat]).

    A request goes: [Serve] is the handler as a program over its effects, in the
    vocabulary of [Wire] and [Operands]; [Handler] turns its verb into the request
    the decision point sees; [Session] re-decides the peer through [Breaker];
    [Providers] admits the provider choice of a prompt; [Egress] gates the prompt,
    frames it, judges the reply, and is the other side's decision too. A filesystem
    verb goes to [Mutation]: its descriptor is verified, every path decided in one
    batch, the intent recorded and the attempt granted, and what the client then
    did is reported through [MutationExchange]. The
    bindings a reload or a live edit installs are merged by [BindingsSync].

    The graph at rest goes: [Store] boots from the file, refuses one the trail's last
    checkpoint does not vouch for ([Anchor]), migrates it to the binary's vocabulary,
    brings it to what the files say, and commits the transitions that follow; each step
    is on record before the file is replaced and anchored after it. The file is an
    [Envelope] around the [GraphFormat] encoding; the bindings in it are read and merged
    by [SyncText].

    A record goes: [AuditLine] makes it a line of canonical JSON; the caller of [AuditSink]
    is admitted ([AuditGuard]), hands the line to a worker and waits for it; the worker
    writes and synchronizes under the writer's mutex; the outcome goes to the mirror
    ([AuditMirror]). The file is opened by [AuditOpen], which refuses one that ends in a
    torn line, and read backwards by [AuditScan] for the last checkpoint.

    The live state goes: the kernel's [Reloader] keeps the persisted graph, its revision,
    the source and the snapshot that decides ([LiveState]). A reload ([Reload]) reads the
    files again, merges them with the store, commits and installs; an operator's or the
    kernel's own containment ([LiveEdit], with the checks of [Containment]) edits the
    stored bindings, commits and installs. Each runs under one turn.

    The agent goes: a session ([AgentDrive]) prompts the model through the plane, routes
    each tool call of the reply ([Agent]) and renders its outcome into the transcript; a
    write carries the version the session last saw of the file. The plane ([Loop]) sends
    one verb per connection; for a filesystem verb it opens the evidence, and on a grant
    the [Client] carries the attempt out on held descriptors ([HeldIo], [Page]), one effect
    at a time, each reported to the exchange of the kernel and acknowledged.

    ** The files

    - [Prelude]: results, the [?] operator, the machine-width constants, the
      tactics and the shared lemmas.
    - [Programs]: programs over an effect family, their traces and complete runs, the
      weakest preconditions the proofs use, and runs against a world.
    - [Json]: the values of the JSON parser.
    - [RustStr], [RustSlice]: the operations of Rust's [str], slices and [BTreeMap]
      that the sources call, with their laws.
    - [Seam]: [maknae-security/src/{value,request,obligation,verdict,authorizer,compose}.rs].
    - [Config]: [maknae-config/src/{value,error}.rs] and the helpers its section
      parsers share ([reject_unknown_keys], [name_fault], the provider charset).
    - [Classification]: [maknae-security/src/classification.rs],
      [maknae-config/src/policy.rs] (Module [US]), [maknae-classification-aus]
      (Module [AUS]) and [maknae-kernel/src/classification.rs] (the registry). The class
      [PolicyLaws] is what a system promises; both systems have an instance.
    - [Ceiling]: [maknae-config/src/ceiling.rs], [declared_handling] of
      [maknae-kernel/src/boot.rs], and [maknae-kernel/src/ceiling_authz.rs].
    - [PathGlob], [AuthzPolicy]: [maknae-config/src/authz.rs].
    - [Decide]: [maknae-authz-basic/src/{role,decide}.rs]. The class [RoleSource] is
      the interface to whatever resolves a role; [Bindings] has its instance.
    - [Graph]: [maknae-graph/src/{record,schema,kernel,graph}.rs].
    - [GraphFormat]: [maknae-graph/src/{bytes,format}.rs].
    - [Identity]: [maknae-graph/src/{identity,baseline,sync}.rs].
    - [Bindings]: [maknae-config/src/bindings.rs], [maknae-authz-basic/src/binding.rs].
    - [PolicySource]: [maknae-authz-basic/src/lib.rs] (lookups, validation, the
      declared identity layer).
    - [Snapshot]: [maknae-authz-basic/src/{snapshot,vocabulary}.rs].
    - [Composition]: [BasicAuthorizer] and [Candidate] of
      [maknae-authz-basic/src/lib.rs], [maknae-kernel/src/{composition,live}.rs].
    - [BindingsSync]: [maknae-config/src/bindings_sync.rs].
    - [Wire], [Operands]: [maknae-proto/src/{wire,frame,mutation,egress_frame,sealed,error}.rs],
      and [normalise_operands] of [maknae-kernel/src/containment.rs].
    - [MutationExchange]: [maknae-kernel/src/mutation_exchange.rs].
    - [RustNet]: the address parsers of [std::net].
    - [Providers]: [maknae-config/src/{providers,bounds,egress_cfg}.rs],
      [maknae-kernel/src/provider_choice.rs], the bounds gate of [boot_gate.rs], and the
      username and address rules of [maknae-vault].
    - [Breaker]: [maknae-kernel/src/blocking_guard.rs].
    - [Handler]: [maknae-kernel/src/handler.rs], [denial] and [permits] of
      [containment.rs].
    - [Session]: [maknae-kernel/src/{authz,session,groupres}.rs] and the userdb side of
      [session_facts/].
    - [Egress]: the pure part of [maknae-kernel/src/egress.rs], [frame_of] of
      [egress_socket.rs], [maknae-deputy/src/{handle,unseal}.rs].
    - [Workers]: [maknae-kernel/src/uid_gate.rs] and the home resolver of [authz.rs].
    - [AuditRecords], [AuditLine]: the records of [maknae-audit-append/src/record.rs], their
      values and canonical text, and [session.rs]. [AuditScan]: [scan.rs]; [AuditGuard]:
      [blocking_guard.rs]; [AuditMirror]: [journal.rs], [journal_io.rs], [syslog_fmt.rs],
      [syslog_io.rs]; [AuditSink]: [sink.rs], [error.rs], and the interleaving of appends.
      [AuditTrail] is the invariant of the file under it. [AuditOpen]:
      [maknae-io/src/audit_append.rs] and the opening in [sink.rs]. [AuditTheorems] states
      what the trail promises.
    - [Texts]: the [Display] texts of the identity problems and of the graph's, the
      codec's and the identity layer's errors.
    - [SyncText]: [maknae-config/src/baseline_doc.rs] (the reader), the readers of
      [bindings_sync.rs], [maknae-kernel/src/sync.rs].
    - [Envelope], [Anchor], [Store]: [maknae-state/src/{envelope,anchor,vocabulary,store}.rs],
      and the records of [GraphBootAudit] in [maknae-kernel/src/run.rs]. [StoreWorld] is the
      world its effects act on: the file, root's marker, the trail and the floor;
      [StoreTheorems] states what boots and commits promise on it.
    - [Effects]: the effects the kernel's handlers perform.
    - [Containment]: [maknae-kernel/src/containment.rs] and its reply of [wire.rs];
      [Baseline]: the pending set and the acceptance decision of
      [maknae-kernel/src/baseline.rs]; [ErrorTexts]: the [Display] texts of the errors a
      reload or an edit reports.
    - [LiveState]: the cells of [Reloader] ([maknae-kernel/src/run.rs]) and the effects on
      them, [identity_report.rs], [vocabulary.rs], the publication of the mirror
      ([sync.rs]). [Reload]: [reload.rs] and what [run.rs] plugs into it. [LiveEdit]: the
      live edit, containment and release of [run.rs]. [LiveWorld] is the world they act on,
      [LiveInvariant] what each does to it, [LiveTheorems] what that comes to. [Accept]:
      [show] and [accept_named] of [run.rs], with the drain; [AcceptTheorems] what an accept
      does, and what all that takes the turn keeps.
    - [Mutation]: [maknae-kernel/src/mutation.rs].
    - [Agent]: [maknae-agent/src/{budget,transcript,plane,wire,route,render}.rs];
      [AgentDrive]: [drive.rs] and [session.rs]. [AgentInvariant] is what the conversation
      keeps, [AgentTheorems] what the loop sends.
    - [Page]: [maknae-io/src/page.rs] and [stream_pages] of
      [maknae-loop/src/mutation.rs]. [HeldIo]: [maknae-io/src/{mutation,checks,error}.rs],
      [verify_delegated] of [delegated.rs], [classify_entry] of [dir.rs]. [HeldTheorems]:
      what a replacement and a creation do to the file.
    - [Client]: [maknae-loop/src/mutation.rs]. [ClientPaths]: absolute paths as
      components; [ClientTheorems]: the client against the kernel's exchange.
    - [Loop]: [maknae-loop/src/{send,plane,outcome}.rs]; [LoopTheorems]: an agent's write
      from end to end.
    - [Serve]: [handle_with_attempt_caps] of [maknae-kernel/src/run.rs] with the helpers
      it calls. [ServePolicy] says when each effect is allowed; [MutateTheorems] and
      [ServeTheorems] show that the handler keeps to it; [ServeGuarantees] states
      what that comes to.

    ** What the theorems show

    - The decision point ([Composition]): a permit is exactly a permit of the
      baseline on content the ceiling lets flow, always audited; a contained uid
      is denied whatever the policy; the rehearsal of a reload is the reload; a
      decision is atomic against live installs, over every reachable interleaving
      of the turn's steps.
    - From files to roles ([Snapshot], [PolicySource], [Bindings], [Identity]): the
      roles of a compiled snapshot are those the files bind, containment first
      and carried across reloads; the graph lookup refines the layer; a citation
      names a rule of the compiled graph and every citing decision has one.
    - The baseline ([Decide], [AuthzPolicy], [PathGlob]): the decision against a
      declarative reference; deny-overrides with subject floors; matchers against
      wildcard relations; the subtree tests against the point matcher.
    - The ceiling ([Ceiling], [Classification]): exactly the content at or below the
      declared level flows; boot accepts only levels of the selected system.
    - The graph ([Graph], [GraphFormat]): the builder accepts exactly the
      well-formed graphs within the expansion limit of their encoding; the indices return exactly the records; encoding and
      decoding are inverse, and one graph has one encoding.
    - The seam ([Seam]): the fold permits exactly on a conflict-free, undenied,
      determinate permit; panics of an operand never permit.
    - Serving ([ServeGuarantees]): on every trace, whatever the audit sink, the
      decision point, the Egress Daemon, the peer and the clock answer: audit
      before response; nothing served, run or sent without a permit for exactly
      that request on the generation it was admitted on; the intent of a prompt on
      record before it leaves; a filesystem attempt granted only on the paths the
      verification of its descriptor gives, when every one was permitted and the intent
      names them, its reports
      on record before they are acknowledged and within the grant; the session
      re-decided before anything is decided; one close, at most one response or
      grant; the request, and what became of every intent, on record unless each append
      of it that was made failed; and, composed with the decision point, a contained peer is never served.
    - Synchronisation ([BindingsSync]): the merge against a per-entry reference,
      its fail-closed direction, its invariant over reloads and edits, and what an
      install may loosen.
    - Egress ([Providers], [Egress]): the registry against a declarative reading,
      endpoints and key paths confined, the kernel's gates implying the daemon's,
      the released reply within its frame.
    - The protocol ([Wire], [Operands], [MutationExchange], [Handler]): framing exact
      on bytes, operands normalised once, acknowledged effects within the grant,
      dispatch and policy vocabulary in step.
    - The state store ([StoreTheorems]): whatever fails and wherever a boot or a commit
      stops, the next boot accepts the kernel's own store; a store put back from
      before, one of the same revision or none is refused and nothing is written; what
      a transition does is on record before the file is replaced; a commit leaves the
      graph it committed, or the store it found.
    - The audit trail ([AuditTheorems], [AuditScan], [AuditGuard], [AuditMirror]): whatever
      the interleaving of appends, the file is whole lines, each once, every acknowledged
      one durable, then at most one torn line, and after a failure it never changes; a
      crash loses no acknowledged line; the backward scan finds the newest checkpoint,
      which is the one the store's theorems speak of; an append that nothing hinders
      completes, and is mirrored once; the workers of a wedged disk are bounded; a mirror's
      reader recovers the fields that were sent, of a full or a degraded line, whatever the
      client put in them.
    - The live state ([LiveTheorems], [AcceptTheorems]): a containment that is answered as done is on disk
      and in force, was permitted under the turn, and leaves somebody who can release; a
      live containment survives a reload; an accept commits the change set that was named
      and nothing else, or leaves all as it was; whatever is called, the store, the revision
      and the installed snapshot agree, and the revision never goes back.
    - Sessions and breakers ([Session], [Breaker]): when a session continues, and how
      many workers a wedged backend can hold.
    - The agent ([AgentInvariant], [AgentTheorems]): the kernel's gate on the
      turns takes every prompt it sends in which no user turn is blank, if the replies
      passed the reply gate; its reads and writes pass the gates on paths and pages; the router takes exactly the paths the write gate takes; a write's
      basis is what the session last saw; the stop flag is read before every request; a
      run is within its budget.
    - The client ([ClientTheorems], [LoopTheorems], [HeldTheorems], [Page]): the kernel
      refuses no report of an honest client, whatever the file system answers; an agent's
      write changes a file that was there only in the version the agent read, and what it
      is told is what happened; a replacement leaves exactly its bytes or says what it
      left; a file read in pages is the file.

    ** How the code is rendered

    A Rust [Result] is [result], a panic is a value ([Panicked] of an operand,
    [Panic] of a builder), a [HashMap] or [BTreeMap] is a [gmap] (iterated in key order
    where the code iterates a [BTreeMap]), a string is its bytes. A [u32] index is
    a [nat] checked by [index_u32], the attribute counter of the graph writer wraps
    at its width, identifiers and uids are [Z] in their ranges. Loops that are not
    structural carry fuel: [split] has the length plus one, [trim] the length,
    bisection the length of the slice, the report loop of a mutation one more than
    the effects left to report, the page stream one more than the bytes, the walk of a
    recursive deletion twice the depth limit and four, an attempt one more step than the
    effects granted, a positioned read the bytes it lacks, the lines of a scan's window the
    length of the window, the clipping of a token its length, the reading of a datagram its
    length; the lemmas beside each show the fuel is never the reason a result is
    returned. The loop of a file write retries an interrupted call for ever: its fuel is
    any number, [Stalled] is its exhaustion, and it is exhausted only by as many
    interruptions as there is fuel beyond one per byte.

    Parameters stand for what is outside the sources: the text of an [f64], the
    account database ([lookup]), SHA-256, the AEAD of the sealed file
    (with the class [AeadLaws]: opening a sealing gives back what was sealed), the JSON
    parser and the JSON text of a string and of a number (with the class [JsonText]: it has
    no control character, and a plain string is quoted as it is), Unicode's tables, the
    platform's text of a path. The YAML scanner is a third-party crate, so parsers start from
    its [Value]. Errors of the snapshot compiler carry their cause and not its text.

    An effectful handler is a [prog]: a finite tree of effects and continuations.
    Nothing is assumed of an answer; where a theorem needs the decision point or
    the registry to be the daemon's own, a hypothesis on the trace says so
    ([decided_by], [booted_with]). A prefix of a run is a [does], a complete one a
    [runs]; a program is finite, so every run ends.

    ** What is not modelled

    The accept loop, the boot sequence, sockets and TLS, the Vault
    client, cryptography and the command line are outside the library, as are the document
    rewriter ([document.rs], [mirror.rs]; the document mirror's text is an answer of the world), the
    validator of a baseline ([baseline_check.rs]; the validated proposal is an answer of the
    world), the anchored file operations of the daemon's own files (the rest of [maknae-io])
    and most section parsers of [maknae-config]. The stop of a running reload at shutdown is
    an answer of [StopSignalled], before the load. The store's file protocol is one effect
    per operation on the directory: a publish replaces the file or does not, and may report
    that it is not yet durable; what a power loss undoes after that is not modelled, a
    crash is a stopped program. Of the audit file a crash may lose any part that was not
    synchronized, from the end; the handlers' own appends ([Serve], [Store]) are effects that
    answer whether the record was acknowledged. The verification of a delegated descriptor is [HeldIo]'s for
    the client and an effect of [Mutation] for the kernel; a worker is taken to have finished
    by the time its bound is checked. Of a held file the theorems assume that nobody else
    writes it, and of the kernel's path of a descriptor that an absolute one is written as
    its components. CBOR, Unicode tables, URL parsing and digests are third-party and
    parameters. *)
From stdpp Require Import base list strings gmap sorting.
From Stdlib Require Import ZArith Lia.

(** ** Results *)

(** Rust's [Result<A, E>]. *)
Inductive result (A E : Type) : Type :=
| Ok (a : A)
| Err (e : E).
Arguments Ok {A E} a.
Arguments Err {A E} e.

Declare Scope rust_scope.
Delimit Scope rust_scope with rust.
Open Scope rust_scope.

(** The [?] operator: return the error, or bind the value. *)
Notation "'let?' x ':=' e 'in' k" :=
  (match e with Ok x => k | Err err => Err err end)
  (at level 10, x pattern, k at level 200) : rust_scope.

(** [Option]'s [?]. *)
Notation "'let!' x ':=' e 'in' k" :=
  (match e with Some x => k | None => None end)
  (at level 10, x pattern, k at level 200) : rust_scope.

Definition map_err {A E F} (f : E -> F) (r : result A E) : result A F :=
  match r with Ok a => Ok a | Err e => Err (f e) end.

Definition is_ok {A E} (r : result A E) : bool := match r with Ok _ => true | Err _ => false end.

Definition ok_or {A E} (o : option A) (e : E) : result A E :=
  match o with Some a => Ok a | None => Err e end.

(** A call that refuses with an error, or panics. *)
Inductive fault (E : Type) : Type :=
| Panic
| Refused (e : E).
Arguments Panic {E}.
Arguments Refused {E} e.

(** [iter().map(f).collect::<Result<Vec<_>, _>>()]: the first error wins. *)
Fixpoint try_map {A B E} (f : A -> result B E) (l : list A) : result (list B) E :=
  match l with
  | [] => Ok []
  | x :: xs => let? y := f x in let? ys := try_map f xs in Ok (y :: ys)
  end.

(** [Option<Result<T, E>>::transpose] after a [map]. *)
Definition try_opt {A B E} (f : A -> result B E) (o : option A) : result (option B) E :=
  match o with
  | None => Ok None
  | Some a => let? b := f a in Ok (Some b)
  end.

Definition is_some {A} (o : option A) : bool :=
  match o with Some _ => true | None => false end.
Definition is_none {A} (o : option A) : bool := negb (is_some o).

(** [iter().find_map(f)]. *)
Fixpoint find_map {A B} (f : A -> option B) (l : list A) : option B :=
  match l with
  | [] => None
  | x :: xs => match f x with Some b => Some b | None => find_map f xs end
  end.

(** [iter().position(f)]. *)
Fixpoint position {A} (f : A -> bool) (l : list A) : option nat :=
  match l with
  | [] => None
  | x :: xs => if f x then Some O else S <$> position f xs
  end.

(** [sort_by] with a total order [leb]: a stable sort. *)
Section Sort.
Context {A : Type} (leb : A -> A -> bool).
Fixpoint sort_insert (x : A) (l : list A) : list A :=
  match l with
  | [] => [x]
  | y :: l' => if leb x y then x :: y :: l' else y :: sort_insert x l'
  end.
Fixpoint sort_by (l : list A) : list A :=
  match l with
  | [] => []
  | x :: l' => sort_insert x (sort_by l')
  end.
End Sort.

(** Machine widths: [uN::try_from] of a wider integer. *)
Definition u16_max : Z := 2 ^ 16.
Definition u32_max : Z := 2 ^ 32.
Definition u64_max : Z := 2 ^ 64.
Definition try_u32 (i : Z) : option Z :=
  if ((0 <=? i) && (i <? u32_max))%Z then Some i else None.

(** ** Tactics *)

(** Case on the scrutinee of the first [match] or [if] of the goal or of [H]. *)
Tactic Notation "case_goal" "as" ident(E) :=
  match goal with |- context [match ?x with _ => _ end] => destruct x eqn:E end.
Tactic Notation "case_hyp" hyp(H) "as" ident(E) :=
  match type of H with context [match ?x with _ => _ end] => destruct x eqn:E end.

(** Peel the [let?] / [let!] binds off a hypothesis that an [Ok] came out. *)
Ltac unbind H :=
  repeat match type of H with
  | (match ?x with Ok _ => _ | Err _ => _ end) = Ok _ =>
      let E := fresh "E" in destruct x eqn:E; [|discriminate H]
  | (match ?x with Some _ => _ | None => _ end) = Some _ =>
      let E := fresh "E" in destruct x eqn:E; [|discriminate H]
  end.

Create HintDb maknae.
Create Rewrite HintDb maknae_bool.

(** [injection] that does not reduce the payload. *)
Lemma Ok_inj {A E} (a b : A) : @Ok A E a = Ok b -> a = b.
Proof. congruence. Qed.

(** ** Booleans *)

Lemma existsb_false {A} (f : A -> bool) l :
  existsb f l = false <-> (forall x, x ∈ l -> f x = false).
Proof.
  induction l as [|a l IH]; simpl.
  - split; [intros _ x Hx; inversion Hx|done].
  - rewrite orb_false_iff, IH. split.
    + intros [Ha Hl] x [->|Hx]%elem_of_cons; auto.
    + intros H. split; [apply H; left|intros x Hx; apply H; by right].
Qed.

Lemma existsb_true {A} (f : A -> bool) l :
  existsb f l = true <-> (exists x, x ∈ l /\ f x = true).
Proof.
  rewrite existsb_exists. split; intros (x & Hx & Hf); exists x;
    by rewrite ?list_elem_of_In in *.
Qed.

Lemma forallb_true {A} (f : A -> bool) l :
  forallb f l = true <-> (forall x, x ∈ l -> f x = true).
Proof.
  rewrite forallb_forall. split; intros H x Hx; apply H; by apply list_elem_of_In.
Qed.

Lemma find_some_iff {A} (f : A -> bool) l x :
  List.find f l = Some x -> x ∈ l /\ f x = true.
Proof. intros H%find_some. by rewrite list_elem_of_In. Qed.

Lemma find_none_iff {A} (f : A -> bool) l :
  List.find f l = None <-> existsb f l = false.
Proof.
  induction l as [|a l IH]; simpl; [done|].
  destruct (f a); simpl; [by split|done].
Qed.

Lemma elem_of_map {A B} (f : A -> B) l y :
  y ∈ map f l <-> exists x, y = f x /\ x ∈ l.
Proof.
  rewrite list_elem_of_In, in_map_iff.
  split; intros (x & H1 & H2); exists x; (split; [done|by apply list_elem_of_In]).
Qed.

Lemma elem_of_map_2 {A B} (f : A -> B) l x : x ∈ l -> f x ∈ map f l.
Proof. intros H. apply elem_of_map. eauto. Qed.

Lemma elem_of_concat_map {A B} (f : A -> list B) l y :
  y ∈ concat (map f l) <-> exists x, x ∈ l /\ y ∈ f x.
Proof.
  induction l as [|a l IH]; simpl.
  - rewrite elem_of_nil. split; [done|]. intros (x & Hx & _). by apply elem_of_nil in Hx.
  - rewrite elem_of_app, IH. setoid_rewrite elem_of_cons. naive_solver.
Qed.

Lemma elem_of_bfilter {A} (f : A -> bool) l x :
  x ∈ List.filter f l <-> x ∈ l /\ f x = true.
Proof. by rewrite !list_elem_of_In, filter_In. Qed.

(** ** [find_map], [position], [try_map] *)

Lemma find_map_app {A B} (f : A -> option B) l1 l2 :
  find_map f (l1 ++ l2) =
    match find_map f l1 with Some b => Some b | None => find_map f l2 end.
Proof. induction l1 as [|a l1 IH]; simpl; [done|]. by destruct (f a). Qed.

Lemma find_map_Some {A B} (f : A -> option B) l b :
  find_map f l = Some b -> exists a, a ∈ l /\ f a = Some b.
Proof.
  induction l as [|a l IH]; simpl; [done|].
  destruct (f a) eqn:E; intros H; [|destruct (IH H) as (x & ? & ?)]; eexists;
    split; [left| |right|]; try done; congruence.
Qed.

Lemma find_map_None {A B} (f : A -> option B) l :
  find_map f l = None <-> (forall a, a ∈ l -> f a = None).
Proof.
  induction l as [|a l IH]; simpl.
  - split; [intros _ x Hx; inversion Hx|done].
  - destruct (f a) eqn:E.
    + split; [done|intros H]. rewrite <-E. apply H. left.
    + rewrite IH. split; [intros H x [->|Hx]%elem_of_cons; auto|].
      intros H x Hx. apply H. by right.
Qed.

Lemma position_Some {A} (f : A -> bool) l i :
  position f l = Some i -> exists x, l !! i = Some x /\ f x = true.
Proof.
  revert i. induction l as [|a l IH]; simpl; intros i H; [done|].
  destruct (f a) eqn:E; [simplify_eq; by exists a|].
  destruct (position f l) as [j|]; simplify_eq/=. by apply IH.
Qed.

Lemma position_lt {A} (f : A -> bool) l i : position f l = Some i -> i < length l.
Proof. intros (x & H & _)%position_Some. by apply lookup_lt_Some in H. Qed.

Lemma position_None {A} (f : A -> bool) l :
  position f l = None <-> (forall x, x ∈ l -> f x = false).
Proof.
  induction l as [|a l IH]; simpl.
  - split; [intros _ x Hx; inversion Hx|done].
  - destruct (f a) eqn:E.
    + split; [done|]. intros H. rewrite (H a) in E; [done|left].
    + rewrite fmap_None, IH. split; [intros H x [->|Hx]%elem_of_cons; auto|].
      intros H x Hx. apply H. by right.
Qed.

Lemma try_map_Ok {A B E} (f : A -> result B E) l ys :
  try_map f l = Ok ys <-> Forall2 (fun x y => f x = Ok y) l ys.
Proof.
  revert ys. induction l as [|x l IH]; simpl; intros ys.
  - split; [intros [= <-]; constructor|by inversion 1].
  - split.
    + intros H. unbind H. simplify_eq. constructor; [done|by apply IH].
    + intros H. inv H. rewrite H2. apply IH in H4. by rewrite H4.
Qed.

Lemma try_map_length {A B E} (f : A -> result B E) l ys :
  try_map f l = Ok ys -> length ys = length l.
Proof. intros H%try_map_Ok. symmetry. by eapply Forall2_length. Qed.

Lemma try_u32_Some i u : try_u32 i = Some u <-> u = i /\ (0 <= i < u32_max)%Z.
Proof.
  unfold try_u32. destruct (_ && _)%bool eqn:E.
  - apply andb_true_iff in E as [H1%Z.leb_le H2%Z.ltb_lt].
    split; [intros [= <-]; auto|by intros [-> _]].
  - split; [done|]. intros [_ [H1 H2]].
    apply andb_false_iff in E as [E%Z.leb_gt|E%Z.ltb_ge]; lia.
Qed.

(** ** Sorting *)

Section SortLemmas.
Context {A : Type} (leb : A -> A -> bool).
Context (leb_total : forall x y, leb x y = true \/ leb y x = true).
Context (leb_trans : forall x y z, leb x y = true -> leb y z = true -> leb x z = true).

Lemma sort_insert_perm x l : sort_insert leb x l ≡ₚ x :: l.
Proof.
  induction l as [|y l IH]; simpl; [done|]. destruct (leb x y); [done|].
  rewrite IH. apply Permutation_swap.
Qed.

Lemma sort_by_perm l : sort_by leb l ≡ₚ l.
Proof. induction l as [|x l IH]; simpl; [done|]. by rewrite sort_insert_perm, IH. Qed.

Lemma sort_insert_sorted x l :
  StronglySorted (fun a b => leb a b = true) l ->
  StronglySorted (fun a b => leb a b = true) (sort_insert leb x l).
Proof using leb_total leb_trans.
  induction 1 as [|y l Hs IH Hy]; simpl; [repeat constructor|].
  destruct (leb x y) eqn:E.
  - constructor; [by constructor|]. constructor; [done|].
    eapply Forall_impl; [exact Hy|]. intros z Hz. by eapply leb_trans.
  - constructor; [done|]. rewrite sort_insert_perm. constructor; [|done].
    destruct (leb_total x y); congruence.
Qed.

Lemma sort_by_sorted l : StronglySorted (fun a b => leb a b = true) (sort_by leb l).
Proof using leb_total leb_trans.
  induction l as [|x l IH]; simpl; [constructor|]. by apply sort_insert_sorted.
Qed.

Lemma sort_insert_head x l :
  Forall (fun y => leb x y = true) l -> sort_insert leb x l = x :: l.
Proof. destruct 1 as [|y l Hy _]; simpl; [done|]. by rewrite Hy. Qed.

(** Sorting a sorted list changes nothing. *)
Lemma sort_by_id l :
  StronglySorted (fun a b => leb a b = true) l -> sort_by leb l = l.
Proof.
  induction 1 as [|x l _ IH Hx]; simpl; [done|]. rewrite IH. by apply sort_insert_head.
Qed.
End SortLemmas.

#[export] Hint Rewrite @existsb_false @existsb_true @forallb_true : maknae_bool.
