(* ===== verification/Programs.v ===== *)
(** * Effectful programs and their traces

    A program over a family of effects: a tree that performs an effect and goes on
    with its answer. What it does under arbitrary answers: its prefixes ([does]),
    its complete runs ([runs]), the run an answering function gives ([trace]), and a
    weakest precondition over histories ([wp]) that says every effect is allowed
    when it is performed. *)
From stdpp Require Import base list strings gmap.
From S2P Require Import Prelude.
Open Scope nat_scope.

Section Programs.
Context {effect : Type -> Type}.

Inductive prog (A : Type) : Type :=
| Ret (a : A)
| Vis {X : Type} (e : effect X) (k : X -> prog A).
Arguments Ret {A} a.
Arguments Vis {A X} e k.

Fixpoint bind {A B} (p : prog A) (f : A -> prog B) : prog B :=
  match p with Ret a => f a | Vis e k => Vis e (fun x => bind (k x) f) end.

(** ** Traces *)

(** An effect and its answer. *)
Record event := Ev { ev_type : Type; ev_effect : effect ev_type; ev_answer : ev_type }.

(** The traces of a program's prefixes: it may be stopped anywhere. *)
Inductive does {A} : prog A -> list event -> Prop :=
| does_nil p : does p []
| does_vis X (e : effect X) k x tr : does (k x) tr -> does (Vis e k) (Ev X e x :: tr).

(** The traces of a program run to its end. *)
Inductive runs {A} : prog A -> list event -> A -> Prop :=
| runs_ret a : runs (Ret a) [] a
| runs_vis X (e : effect X) k x tr a : runs (k x) tr a -> runs (Vis e k) (Ev X e x :: tr) a.

(** ** Weakest preconditions *)

(** Histories hold the latest event first. *)
Section Allowed.
Context (allowed : list event -> event -> Prop).

(** Every effect the program performs from history [h] on is allowed when it
    is performed, and [Q] holds of what it returns. *)
Fixpoint wp {A} (p : prog A) (Q : A -> list event -> Prop) (h : list event) : Prop :=
  match p with
  | Ret a => Q a h
  | Vis e k => forall x, allowed h (Ev _ e x) /\ wp (k x) Q (Ev _ e x :: h)
  end.

Lemma wp_mono {A} (p : prog A) (Q Q' : A -> list event -> Prop) h :
  (forall a h', Q a h' -> Q' a h') -> wp p Q h -> wp p Q' h.
Proof.
  intros HQ. revert h. induction p as [a|X e k IH]; intros h H; simpl in *; [auto|].
  intros x. destruct (H x) as [Ha Hk]. split; [done|]. by apply IH.
Qed.

Lemma wp_bind {A B} (p : prog A) (f : A -> prog B) Q h :
  wp p (fun a => wp (f a) Q) h -> wp (bind p f) Q h.
Proof.
  revert h. induction p as [a|X e k IH]; intros h H; simpl in *; [auto|].
  intros x. destruct (H x) as [Ha Hk]. split; [done|]. by apply IH.
Qed.

Lemma wp_does {A} (p : prog A) Q h tr :
  wp p Q h -> does p tr ->
  forall pre ev post, tr = pre ++ ev :: post -> allowed (rev pre ++ h) ev.
Proof.
  intros Hw Hd. revert h Hw. induction Hd as [p|X e k x tr Hd IH]; intros h Hw pre ev post E.
  { by destruct pre. }
  simpl in Hw. destruct (Hw x) as [Ha Hk]. destruct pre as [|ev' pre].
  - injection E as <- _. done.
  - injection E as <- E. simpl. rewrite <-app_assoc. simpl. by eapply IH.
Qed.

(** Every complete run's trace is allowed, and its result as promised. *)
Lemma wp_runs {A} (p : prog A) Q h tr a : wp p Q h -> runs p tr a -> Q a (rev tr ++ h).
Proof.
  intros Hw Hr. revert h Hw. induction Hr as [a|X e k x tr a Hr IH]; intros h Hw; simpl in *; [done|].
  rewrite <-app_assoc. apply IH, Hw.
Qed.
End Allowed.


(** ** Answered runs *)

(** The trace of a run whose effects [answer] answers. *)
Fixpoint trace {A} (answer : forall X, effect X -> X) (p : prog A) : list event :=
  match p with
  | Ret _ => []
  | Vis e k => Ev _ e (answer _ e) :: trace answer (k (answer _ e))
  end.
Fixpoint outcome_of {A} (answer : forall X, effect X -> X) (p : prog A) : A :=
  match p with Ret a => a | Vis e k => outcome_of answer (k (answer _ e)) end.

Lemma trace_runs {A} answer (p : prog A) : runs p (trace answer p) (outcome_of answer p).
Proof. induction p as [a|X e k IH]; simpl; constructor. apply IH. Qed.

Lemma runs_inv {A} (p : prog A) tr a : runs p tr a ->
  match p with
  | Ret b => tr = [] /\ a = b
  | Vis e k => exists x tr', tr = Ev _ e x :: tr' /\ runs (k x) tr' a
  end.
Proof. destruct 1; eauto. Qed.

Lemma runs_bind {A B} (p : prog A) (f : A -> prog B) tr b : runs (bind p f) tr b ->
  exists tr1 tr2 a, tr = tr1 ++ tr2 /\ runs p tr1 a /\ runs (f a) tr2 b.
Proof.
  revert tr. induction p as [a|X e k IH]; intros tr H; [exists [], tr, a; split_and!; [done|constructor|done]|].
  apply runs_inv in H as (x & tr' & -> & H). destruct (IH x tr' H) as (tr1 & tr2 & a & -> & H1 & H2).
  exists (Ev X e x :: tr1), tr2, a. split_and!; [done|by constructor|done].
Qed.

Lemma runs_does {A} (p : prog A) tr a : runs p tr a -> does p tr.
Proof. induction 1; constructor; done. Qed.

Lemma trace_does {A} answer (p : prog A) : does p (trace answer p).
Proof. eapply runs_does, trace_runs. Qed.

Lemma trace_answered {A} (answer : forall X, effect X -> X) (p : prog A) :
  Forall (fun ev => ev_answer ev = answer _ (ev_effect ev)) (trace answer p).
Proof. induction p as [a|X e k IH]; simpl; constructor; auto. Qed.

Lemma does_take {A} (p : prog A) tr n : does p tr -> does p (take n tr).
Proof. intros H. revert n. induction H; intros [|n]; constructor. auto. Qed.

Lemma does_extends {A} (answer : forall X, effect X -> X) (p : prog A) tr :
  does p tr -> exists tr' a, runs p (tr ++ tr') a.
Proof.
  induction 1 as [p|X e k x tr _ (tr' & a & IH)].
  - exists (trace answer p), (outcome_of answer p). apply trace_runs.
  - exists tr', a. by constructor.
Qed.

(** ** Fallible programs *)

(** [?] after an effectful call. *)
Definition try_bind {A B E} (p : prog (result A E)) (f : A -> prog (result B E))
  : prog (result B E) :=
  bind p (fun r => match r with Ok a => f a | Err e => Ret (Err e) end).

(** Every result the program can return satisfies [Q], whatever it is answered. *)
Fixpoint returns {A} (Q : A -> Prop) (p : prog A) : Prop :=
  match p with Ret a => Q a | Vis e k => forall x, returns Q (k x) end.

Lemma returns_bind {A B} (p : prog A) (f : A -> prog B) P Q :
  returns P p -> (forall a, P a -> returns Q (f a)) -> returns Q (bind p f).
Proof. induction p as [a|X e k IH]; simpl; intros Hp Hf; [auto|]. intros x. by apply IH. Qed.

(** What a fallible program's errors satisfy. *)
Definition fails {A E} (P : E -> Prop) : prog (result A E) -> Prop :=
  returns (fun r => match r with Ok _ => True | Err e => P e end).

Lemma fails_try {A B E} P (p : prog (result A E)) (f : A -> prog (result B E)) :
  fails P p -> (forall a, fails P (f a)) -> fails P (try_bind p f).
Proof. intros Hp Hf. eapply returns_bind; [exact Hp|]. intros [a|e] He; [apply Hf|exact He]. Qed.

Lemma returns_runs {A} (Q : A -> Prop) (p : prog A) tr a : returns Q p -> runs p tr a -> Q a.
Proof. intros Hp Hr. induction Hr as [a|X e k x tr a _ IH]; simpl in Hp; auto. Qed.

Lemma wp_try {A B E} allowed (p : prog (result A E)) (f : A -> prog (result B E)) Q h :
  wp allowed p (fun r h' => match r with Ok a => wp allowed (f a) Q h' | Err e => Q (Err e) h' end) h ->
  wp allowed (try_bind p f) Q h.
Proof. intros H. apply wp_bind. revert H. apply wp_mono. by intros [a|e] h'. Qed.

(** ** Worlds *)

(** What an effect answered so does to the world it acts on. *)
Section Worlds.
Context {W : Type} (step : W -> event -> W -> Prop).

Inductive reaches : W -> list event -> W -> Prop :=
| reaches_nil w : reaches w [] w
| reaches_cons w ev w' tr w'' : step w ev w' -> reaches w' tr w'' -> reaches w (ev :: tr) w''.

(** Every world the program comes through satisfies [I], and [Q] holds of what
    it returns and where. *)
Fixpoint keeps {A} (I : W -> Prop) (p : prog A) (Q : A -> W -> Prop) (w : W) : Prop :=
  match p with
  | Ret a => Q a w
  | Vis e k => forall x w', step w (Ev _ e x) w' -> I w' /\ keeps I (k x) Q w'
  end.

Lemma keeps_mono {A} (I I' : W -> Prop) (p : prog A) (Q Q' : A -> W -> Prop) w :
  (forall w, I w -> I' w) -> (forall a w, Q a w -> Q' a w) -> keeps I p Q w -> keeps I' p Q' w.
Proof.
  intros HI HQ. revert w. induction p as [a|X e k IH]; intros w H; simpl in *; [auto|].
  intros x w' Hs. destruct (H x w' Hs). auto.
Qed.

Lemma keeps_bind {A B} I (p : prog A) (f : A -> prog B) Q w :
  keeps I p (fun a => keeps I (f a) Q) w -> keeps I (bind p f) Q w.
Proof.
  revert w. induction p as [a|X e k IH]; intros w H; simpl in *; [done|].
  intros x w' Hs. destruct (H x w' Hs). auto.
Qed.

Lemma keeps_try {A B E} I (p : prog (result A E)) (f : A -> prog (result B E)) Q w :
  keeps I p (fun r w => match r with Ok a => keeps I (f a) Q w | Err e => Q (Err e) w end) w ->
  keeps I (try_bind p f) Q w.
Proof.
  intros H. apply keeps_bind. revert H. apply keeps_mono; [done|]. intros [a|e] w' H; exact H.
Qed.

(** A world that answers: a program run against it. *)
Section Simulated.
Context (respond : forall X, W -> effect X -> X * W).
Fixpoint simulate {A} (p : prog A) (w : W) : A * list event * W :=
  match p with
  | Ret a => (a, [], w)
  | Vis e k =>
      let '(x, w') := respond _ w e in
      let '(a, tr, w'') := simulate (k x) w' in
      (a, Ev _ e x :: tr, w'')
  end.

Lemma simulate_runs (Hr : forall X w (e : effect X) x w', respond X w e = (x, w') -> step w (Ev _ e x) w')
    {A} (p : prog A) w a tr w' :
  simulate p w = (a, tr, w') -> runs p tr a /\ reaches w tr w'.
Proof.
  revert w a tr w'. induction p as [a0|X e k IH]; intros w a tr w' H; simpl in H.
  - injection H as <- <- <-. split; constructor.
  - destruct (respond X w e) as [x w1] eqn:E1. destruct (simulate (k x) w1) as [[a' tr'] w2] eqn:E2.
    injection H as <- <- <-. apply IH in E2 as [H1 H2]. split; [by constructor|].
    econstructor; [by apply Hr|done].
Qed.
End Simulated.

Lemma returns_keeps {A} (Q : A -> Prop) (p : prog A) w :
  returns Q p -> keeps (fun _ => True) p (fun a _ => Q a) w.
Proof. revert w. induction p as [a|X e k IH]; simpl; intros w H; [done|]. intros x w' _. auto. Qed.

Lemma keeps_does {A} I (p : prog A) Q w tr w' :
  I w -> keeps I p Q w -> does p tr -> reaches w tr w' -> I w'.
Proof.
  intros HI Hk Hd. revert w HI Hk w'. induction Hd as [p|X e k x tr Hd IH]; intros w HI Hk w' Hr.
  { by inversion Hr; subst. }
  inversion Hr; subst. simpl in Hk. destruct (Hk x _ ltac:(done)). eauto.
Qed.

Lemma keeps_runs {A} I (p : prog A) Q w tr a w' :
  keeps I p Q w -> runs p tr a -> reaches w tr w' -> Q a w'.
Proof.
  intros Hk Hd. revert w Hk w'. induction Hd as [a|X e k x tr a Hd IH]; intros w Hk w' Hr.
  { by inversion Hr; subst. }
  inversion Hr; subst. simpl in Hk. destruct (Hk x _ ltac:(done)). eauto.
Qed.
End Worlds.
End Programs.

(** A program over one family of effects, as one over a larger. *)
Fixpoint lift {E F : Type -> Type} {A} (f : forall X, E X -> F X) (p : @prog E A) : @prog F A :=
  match p with Ret _ a => Ret _ a | Vis _ e k => Vis _ (f _ e) (fun x => lift f (k x)) end.

Lemma runs_lift {E F : Type -> Type} {A} (f : forall X, E X -> F X) (p : @prog E A) tr a :
  runs (lift f p) tr a ->
  exists tr', runs p tr' a /\ tr = map (fun ev => Ev _ (f _ (ev_effect ev)) (ev_answer ev)) tr'.
Proof.
  revert tr. induction p as [b|X e k IH]; intros tr H; apply runs_inv in H.
  - destruct H as [-> ->]. exists []. split; [constructor|done].
  - destruct H as (x & tr1 & -> & H). destruct (IH x tr1 H) as (tr' & Hr & ->).
    exists (Ev X e x :: tr'). split; [by constructor|done].
Qed.

Arguments prog : clear implicits.
Arguments event : clear implicits.
Arguments Ret {effect A} a.
Arguments Vis {effect A X} e k.
Arguments Ev {effect} ev_type ev_effect ev_answer.

Notation "'let*?' x ':=' p 'in' k" := (try_bind p (fun x => k))
  (at level 200, x strict pattern, p at level 100, k at level 200).
Notation "'let#' x ':=' e 'in' k" := (Vis e (fun x => k))
  (at level 200, x name, e at level 100, k at level 200).
Notation "'let*' x ':=' p 'in' k" := (bind p (fun x => k))
  (at level 200, x name, p at level 100, k at level 200).
