(* ===== verification/RustStr.v ===== *)
(** * Rust strings

    A Rust [&str] or [String] is a sequence of bytes that is valid UTF-8; it is
    modelled as a [string] of the Standard Library, whose characters are those
    bytes. The operations below are the ones the sources call: the byte-wise
    ones ([strip_prefix], [starts_with], [ends_with], [split], [find],
    [eq_ignore_ascii_case]) act on the bytes, and the character-wise ones
    ([trim], [char::is_control]) recognise the UTF-8 encodings of the
    characters they test. *)
From S2P Require Import Prelude.
From stdpp Require Import base list strings gmap pretty.
From Stdlib Require Import ZArith Lia Ascii.
Open Scope nat_scope.
#[global] Arguments String.append : simpl nomatch.

(** ** Prefixes and suffixes *)

Fixpoint strip_prefix (p s : string) : option string :=
  match p with
  | EmptyString => Some s
  | String a p' =>
      match s with
      | EmptyString => None
      | String b s' => if Ascii.eqb a b then strip_prefix p' s' else None
      end
  end.

Definition starts_with (p s : string) : bool := is_some (strip_prefix p s).

Fixpoint ends_with (suf s : string) : bool :=
  String.eqb suf s ||
  match s with EmptyString => false | String _ s' => ends_with suf s' end.

(** The text before [suf], when [s] ends with it. *)
Fixpoint strip_suffix (suf s : string) : option string :=
  if String.eqb suf s then Some EmptyString else
  match s with
  | EmptyString => None
  | String a s' => String a <$> strip_suffix suf s'
  end.

(** ** Searching and splitting *)

Fixpoint contains_char (c : ascii) (s : string) : bool :=
  match s with
  | EmptyString => false
  | String a s' => Ascii.eqb a c || contains_char c s'
  end.

(** [s.split_once(sep)]: the text before and after the first occurrence. *)
Fixpoint split_once (sep s : string) : option (string * string) :=
  match strip_prefix sep s with
  | Some r => Some (EmptyString, r)
  | None =>
      match s with
      | EmptyString => None
      | String a s' =>
          match split_once sep s' with
          | Some (l, r) => Some (String a l, r)
          | None => None
          end
      end
  end.

(** [s.find(frag)], returning the text after the first occurrence. *)
Definition find_after (frag s : string) : option string := snd <$> split_once frag s.

(** [s.split(c)] for a character: one piece more than separators. *)
Fixpoint split_char (c : ascii) (s : string) : list string :=
  match s with
  | EmptyString => [EmptyString]
  | String a s' =>
      if Ascii.eqb a c then EmptyString :: split_char c s'
      else match split_char c s' with
           | h :: t => String a h :: t
           | [] => [String a EmptyString]
           end
  end.

(** [s.split(sep)] for a non-empty [sep]; the fuel is the length of [s]. *)
Fixpoint split_str_fuel (n : nat) (sep s : string) : list string :=
  match n with
  | O => [s]
  | S n' =>
      match split_once sep s with
      | Some (l, r) => l :: split_str_fuel n' sep r
      | None => [s]
      end
  end.
Definition split_str (sep s : string) : list string :=
  split_str_fuel (S (String.length s)) sep s.

(** [pieces.join(sep)]. *)
Fixpoint str_join (sep : string) (l : list string) : string :=
  match l with
  | [] => EmptyString
  | [x] => x
  | x :: xs => x +:+ sep +:+ str_join sep xs
  end.

Fixpoint all_bytes (f : ascii -> bool) (s : string) : bool :=
  match s with EmptyString => true | String a s' => f a && all_bytes f s' end.

Fixpoint filter_bytes (f : ascii -> bool) (s : string) : string :=
  match s with
  | EmptyString => EmptyString
  | String a s' => if f a then String a (filter_bytes f s') else filter_bytes f s'
  end.

Fixpoint take_bytes (n : nat) (s : string) : string :=
  match n, s with
  | S n', String a s' => String a (take_bytes n' s')
  | _, _ => EmptyString
  end.

Definition is_empty (s : string) : bool :=
  match s with EmptyString => true | _ => false end.

(** ** Byte classes *)

Definition byte_in (lo hi : nat) (a : ascii) : bool :=
  (lo <=? nat_of_ascii a) && (nat_of_ascii a <=? hi).
Definition is_ascii_lowercase : ascii -> bool := byte_in 97 122.
Definition is_ascii_uppercase : ascii -> bool := byte_in 65 90.
Definition is_ascii_digit : ascii -> bool := byte_in 48 57.
Definition is_ascii_alphanumeric (a : ascii) : bool :=
  is_ascii_lowercase a || is_ascii_uppercase a || is_ascii_digit a.
Definition is_ascii_graphic : ascii -> bool := byte_in 33 126.

Definition ascii_upper (a : ascii) : ascii :=
  if is_ascii_lowercase a then ascii_of_nat (nat_of_ascii a - 32) else a.
Fixpoint to_ascii_uppercase (s : string) : string :=
  match s with
  | EmptyString => EmptyString
  | String a s' => String (ascii_upper a) (to_ascii_uppercase s')
  end.

Definition ascii_lower (a : ascii) : ascii :=
  if is_ascii_uppercase a then ascii_of_nat (nat_of_ascii a + 32) else a.
Fixpoint to_ascii_lowercase (s : string) : string :=
  match s with
  | EmptyString => EmptyString
  | String a s' => String (ascii_lower a) (to_ascii_lowercase s')
  end.

(** [eq_ignore_ascii_case]: equal after folding ASCII letters. *)
Definition eq_ignore_ascii_case (s t : string) : bool :=
  String.eqb (to_ascii_uppercase s) (to_ascii_uppercase t).

(** ** White space and control characters *)

(** The UTF-8 encodings of the characters of Unicode's [White_Space]. *)
Definition bytes_of (l : list nat) : string :=
  fold_right (fun n s => String (ascii_of_nat n) s) EmptyString l.
Definition white_space : list string :=
  map bytes_of
    ([[9]; [10]; [11]; [12]; [13]; [32]; [194; 133]; [194; 160]; [225; 154; 128];
      [226; 128; 168]; [226; 128; 169]; [226; 128; 175]; [226; 129; 159]; [227; 128; 128]]
     ++ map (fun k => [226; 128; 128 + k]) (seq 0 11)).

Fixpoint trim_start_fuel (n : nat) (s : string) : string :=
  match n with
  | O => s
  | S n' =>
      match find_map (fun w => strip_prefix w s) white_space with
      | Some r => trim_start_fuel n' r
      | None => s
      end
  end.
Definition trim_start (s : string) : string := trim_start_fuel (String.length s) s.

Fixpoint trim_end_fuel (n : nat) (s : string) : string :=
  match n with
  | O => s
  | S n' =>
      match find_map (fun w => strip_suffix w s) white_space with
      | Some r => trim_end_fuel n' r
      | None => s
      end
  end.
Definition trim_end (s : string) : string := trim_end_fuel (String.length s) s.
Definition trim (s : string) : string := trim_end (trim_start s).

(** [s.chars().any(char::is_whitespace)]. *)
Fixpoint has_white_space (s : string) : bool :=
  existsb (fun w => starts_with w s) white_space ||
  match s with EmptyString => false | String _ s' => has_white_space s' end.

(** [char::is_control]: C0, DEL, and C1 (two bytes, [0xC2 0x80..0x9F]). *)
Definition is_c0_or_del (a : ascii) : bool := byte_in 0 31 a || byte_in 127 127 a.
Definition is_c1_lead (a : ascii) : bool := byte_in 194 194 a.
Definition is_c1_tail : ascii -> bool := byte_in 128 159.

Fixpoint has_control (s : string) : bool :=
  match s with
  | EmptyString => false
  | String a s' =>
      is_c0_or_del a ||
      match s' with
      | EmptyString => false
      | String b _ => is_c1_lead a && is_c1_tail b
      end || has_control s'
  end.

(** [s.chars().filter(|c| !c.is_control())]. *)
Fixpoint strip_control (s : string) : string :=
  match s with
  | EmptyString => EmptyString
  | String a s' =>
      if is_c0_or_del a then strip_control s'
      else match s' with
           | EmptyString => String a EmptyString
           | String b s'' =>
               if is_c1_lead a && is_c1_tail b then strip_control s''
               else String a (strip_control s')
           end
  end.

(** [std::str::from_utf8] accepts: the well-formed byte sequences of Unicode's
    table 3-7. *)
Definition is_cont : ascii -> bool := byte_in 128 191.

Fixpoint utf8_valid (s : string) : bool :=
  match s with
  | EmptyString => true
  | String a s1 =>
      if byte_in 0 127 a then utf8_valid s1
      else match s1 with
      | EmptyString => false
      | String b s2 =>
          if byte_in 194 223 a then is_cont b && utf8_valid s2
          else match s2 with
          | EmptyString => false
          | String c s3 =>
              if byte_in 224 239 a then
                (if byte_in 224 224 a then byte_in 160 191 b
                 else if byte_in 237 237 a then byte_in 128 159 b
                 else is_cont b) && is_cont c && utf8_valid s3
              else match s3 with
              | EmptyString => false
              | String d s4 =>
                  byte_in 240 244 a &&
                  (if byte_in 240 240 a then byte_in 144 191 b
                   else if byte_in 244 244 a then byte_in 128 143 b
                   else is_cont b) && is_cont c && is_cont d && utf8_valid s4
              end
          end
      end
  end.

(** [format!] of an unsigned integer. *)
Definition dec (n : Z) : string := pretty (Z.to_N n).

(** [a == c], or [c] then a dot at its length: [a] starts with [c] and the byte
    of [a] at [c]'s length is a dot. *)
Definition in_class (action class : string) : bool :=
  String.eqb action class ||
  match strip_prefix class action with
  | Some (String b _) => Ascii.eqb b "."
  | _ => false
  end.

(** ** Path components: [split('/').filter(|c| !c.is_empty())] *)
Definition slash : ascii := "/"%char.
Definition star : ascii := "*"%char.
Definition comps (s : string) : list string :=
  List.filter (fun c => negb (is_empty c)) (split_char slash s).

(** ** Lemmas *)

Lemma str_app_assoc (a b c : string) : (a +:+ b) +:+ c = a +:+ (b +:+ c).
Proof. induction a; simpl; congruence. Qed.

Lemma str_app_nil_r (a : string) : a +:+ "" = a.
Proof. induction a; simpl; congruence. Qed.

Lemma str_length_app (a b : string) :
  String.length (a +:+ b) = String.length a + String.length b.
Proof. induction a; simpl; congruence. Qed.

Lemma str_app_inj_l (a b c : string) : a +:+ b = a +:+ c -> b = c.
Proof. induction a; simpl; [done|]. intros [= ?]. auto. Qed.

Lemma str_app_inj_r (a b c : string) : a +:+ c = b +:+ c -> a = b.
Proof.
  revert b. induction a as [|x a IH]; intros [|y b]; simpl; try done.
  - intros H%(f_equal String.length). simpl in H. rewrite str_length_app in H. lia.
  - intros H%(f_equal String.length). simpl in H. rewrite str_length_app in H. lia.
  - intros [= -> H]. f_equal. auto.
Qed.

(** Of two suffixes of one string, the shorter ends the longer. *)
Lemma str_suffix_le (p q r r0 : string) :
  p +:+ r0 = q +:+ r -> String.length r <= String.length r0 -> exists m, r0 = m +:+ r.
Proof.
  revert q. induction p as [|a p IH]; intros q E Hle; simpl in E; [by exists q|].
  destruct q as [|b q]; simpl in E.
  - apply (f_equal String.length) in E. simpl in E. rewrite str_length_app in E. lia.
  - injection E as -> E. eauto.
Qed.

Lemma is_empty_true s : is_empty s = true <-> s = "".
Proof. by destruct s. Qed.

Lemma strip_prefix_spec p s r : strip_prefix p s = Some r <-> s = p +:+ r.
Proof.
  revert s. induction p as [|a p IH]; intros s; simpl.
  - split; congruence.
  - destruct s as [|b s]; [done|]. destruct (Ascii.eqb_spec a b) as [->|Hne].
    + rewrite IH. split; congruence.
    + split; [done|]. intros [= ? ?]. congruence.
Qed.

Lemma strip_prefix_app p r : strip_prefix p (p +:+ r) = Some r.
Proof. by apply strip_prefix_spec. Qed.

Lemma starts_with_spec p s : starts_with p s = true <-> exists r, s = p +:+ r.
Proof.
  unfold starts_with. destruct (strip_prefix p s) eqn:E; simpl.
  - apply strip_prefix_spec in E. split; eauto.
  - split; [done|]. intros [r ->]. by rewrite strip_prefix_app in E.
Qed.

Lemma ends_with_spec suf s : ends_with suf s = true <-> exists r, s = r +:+ suf.
Proof.
  induction s as [|a s IH]; simpl; rewrite orb_true_iff, String.eqb_eq.
  - split; [intros [<-|?]; [by exists ""|done]|].
    intros [[|? ?] Hr]; simpl in *; [by left|done].
  - rewrite IH. split.
    + intros [->|[r ->]]; [by exists ""|by exists (String a r)].
    + intros [[|b r] Hr]; simpl in *; [by left|]. injection Hr as -> ->. right. eauto.
Qed.

(** The first occurrence: what precedes it holds no earlier one. *)
Lemma strip_suffix_spec suf s r : strip_suffix suf s = Some r <-> s = r +:+ suf.
Proof.
  split.
  - revert r. induction s as [|a s IH]; simpl; intros r; case_match eqn:E; try done;
      try (apply String.eqb_eq in E; subst).
    + by intros [= <-].
    + by intros [= <-].
    + intros (r' & ->%IH & ->)%fmap_Some. done.
  - intros ->. induction r as [|a r IH]; simpl.
    + destruct suf; simpl; by rewrite ?String.eqb_refl, ?Ascii.eqb_refl.
    + destruct (String.eqb_spec suf (String a (r +:+ suf))) as [E|E].
      * apply (f_equal String.length) in E. simpl in E. rewrite str_length_app in E. lia.
      * by rewrite IH.
Qed.

Lemma split_once_Some sep s l r : split_once sep s = Some (l, r) -> s = l +:+ sep +:+ r.
Proof.
  revert l r. induction s as [|a s IH]; intros l r; simpl.
  - destruct (strip_prefix sep "") eqn:E; [|done]. intros [= <- <-].
    by apply strip_prefix_spec in E.
  - destruct (strip_prefix sep (String a s)) eqn:E.
    + intros [= <- <-]. by apply strip_prefix_spec in E.
    + destruct (split_once sep s) as [[l' r']|]; [|done].
      intros [= <- <-]. simpl. f_equal. by apply IH.
Qed.

(** Any occurrence is found no later: the remainder after it is a suffix of
    the remainder after the first. *)
Lemma split_once_first sep s l r :
  s = l +:+ sep +:+ r ->
  exists l' r' m, split_once sep s = Some (l', r') /\ r' = m +:+ r.
Proof.
  revert s. induction l as [|a l IH]; intros s ->; simpl.
  - exists "", r, "". split; [|done].
    destruct sep as [|b sep]; simpl.
    + by destruct r.
    + by rewrite Ascii.eqb_refl, strip_prefix_app.
  - destruct (strip_prefix sep (String a (l +:+ sep +:+ r))) as [r0|] eqn:E.
    + apply strip_prefix_spec in E.
      destruct (decide (String.length r <= String.length r0)) as [Hle|Hgt].
      * change (String a (l +:+ sep +:+ r)) with ((String a l) +:+ sep +:+ r) in E.
        rewrite <-str_app_assoc in E.
        destruct (str_suffix_le _ _ _ _ (eq_sym E) Hle) as [m ->]. by eauto 10.
      * exfalso. apply (f_equal String.length) in E. simpl in E.
        rewrite !str_length_app in E. lia.
    + destruct (IH _ eq_refl) as (l' & r' & m & -> & ->). by eauto 10.
Qed.

Lemma find_after_Some frag s r : find_after frag s = Some r -> exists l, s = l +:+ frag +:+ r.
Proof.
  unfold find_after. intros ([l r'] & H & ->)%fmap_Some. exists l. by apply split_once_Some.
Qed.

Lemma find_after_first frag s l r :
  s = l +:+ frag +:+ r -> exists m, find_after frag s = Some (m +:+ r).
Proof.
  intros H. unfold find_after. destruct (split_once_first _ _ _ _ H) as (l' & r' & m & -> & ->).
  by exists m.
Qed.

Lemma split_char_nonempty c s : split_char c s <> [].
Proof. destruct s as [|a s]; simpl; [done|]. destruct (Ascii.eqb a c); [done|]. by case_match. Qed.

Lemma split_char_no_sep c s : contains_char c s = false -> split_char c s = [s].
Proof.
  induction s as [|a s IH]; simpl; [done|].
  intros [Ha Hs]%orb_false_iff. rewrite Ha, IH by done. done.
Qed.

Lemma split_char_app c s t :
  contains_char c s = false ->
  split_char c (s +:+ String c t) = s :: split_char c t.
Proof.
  induction s as [|a s IH]; simpl.
  - by rewrite Ascii.eqb_refl.
  - intros [Ha Hs]%orb_false_iff. by rewrite Ha, IH.
Qed.

Lemma split_char_app2 c s t : split_char c (s +:+ String c t) = split_char c s ++ split_char c t.
Proof.
  induction s as [|a s IH]; simpl; [by rewrite Ascii.eqb_refl|]. rewrite IH.
  destruct (Ascii.eqb a c); [done|].
  destruct (split_char c s) as [|h l] eqn:E; [by destruct (split_char_nonempty c s)|done].
Qed.

Lemma split_char_pieces c s x : x ∈ split_char c s -> contains_char c x = false.
Proof.
  revert x. induction s as [|a s IH]; simpl; intros x.
  - by intros ->%list_elem_of_singleton.
  - destruct (Ascii.eqb a c) eqn:E.
    + intros [->|Hx]%elem_of_cons; [done|auto].
    + destruct (split_char c s) as [|h t] eqn:Es; [by destruct (split_char_nonempty c s)|].
      intros [->|Hx]%elem_of_cons.
      * simpl. rewrite E. apply IH. left.
      * apply IH. by right.
Qed.

(** [str_join] inverts [split_char] on pieces that hold no separator. *)
Lemma split_char_join c l :
  l <> [] -> (forall x, x ∈ l -> contains_char c x = false) ->
  split_char c (str_join (String c "") l) = l.
Proof.
  induction l as [|x l IH]; [done|]. intros _ H. destruct l as [|y l].
  - simpl. apply split_char_no_sep, H. left.
  - change (str_join _ _) with (x +:+ String c (str_join (String c "") (y :: l))).
    rewrite split_char_app by (apply H; left). f_equal.
    apply IH; [done|]. intros z Hz. apply H. by right.
Qed.

(** ... and [split_char] loses nothing. *)
Lemma join_split_char c s : str_join (String c "") (split_char c s) = s.
Proof.
  induction s as [|a s IH]; simpl; [done|]. destruct (Ascii.eqb_spec a c) as [->|Hne].
  - destruct (split_char c s) eqn:E; [by destruct (split_char_nonempty c s)|].
    change (str_join _ ("" :: ?l)) with (String c (str_join (String c "") l)). by rewrite IH.
  - destruct (split_char c s) as [|h t] eqn:E; [by destruct (split_char_nonempty c s)|].
    destruct t; simpl in *; by rewrite <-IH.
Qed.

Lemma comps_pieces s x : x ∈ comps s -> contains_char slash x = false /\ x <> "".
Proof.
  unfold comps. rewrite list_elem_of_In, filter_In, <-list_elem_of_In. intros [H1 H2].
  split; [by eapply split_char_pieces|]. by intros ->.
Qed.

Lemma dec_inj a b : (0 <= a)%Z -> (0 <= b)%Z -> dec a = dec b -> a = b.
Proof. unfold dec. intros Ha Hb H%(inj pretty). lia. Qed.

Lemma byte_in_spec lo hi a : byte_in lo hi a = true <-> lo <= nat_of_ascii a <= hi.
Proof. unfold byte_in. by rewrite andb_true_iff, !Nat.leb_le. Qed.

Lemma byte_in_false lo hi a : byte_in lo hi a = false <-> nat_of_ascii a < lo \/ hi < nat_of_ascii a.
Proof. unfold byte_in. by rewrite andb_false_iff, !Nat.leb_gt. Qed.

Ltac bytes :=
  unfold is_c0_or_del, is_c1_lead, is_c1_tail, is_cont in *;
  repeat match goal with
  | H : context [_ && _ = true] |- _ => rewrite andb_true_iff in H
  | H : context [_ && _ = false] |- _ => rewrite andb_false_iff in H
  | H : context [_ || _ = true] |- _ => rewrite orb_true_iff in H
  | H : context [_ || _ = false] |- _ => rewrite orb_false_iff in H
  | H : context [byte_in _ _ _ = true] |- _ => rewrite byte_in_spec in H
  | H : context [byte_in _ _ _ = false] |- _ => rewrite byte_in_false in H
  | |- context [_ && _ = true] => rewrite andb_true_iff
  | |- context [_ && _ = false] => rewrite andb_false_iff
  | |- context [_ || _ = true] => rewrite orb_true_iff
  | |- context [_ || _ = false] => rewrite orb_false_iff
  | |- context [byte_in _ _ _ = true] => rewrite byte_in_spec
  | |- context [byte_in _ _ _ = false] => rewrite byte_in_false
  end.

(** In well-formed UTF-8 the byte [0xC2] is a lead byte: a continuation follows. *)
Fixpoint lead_followed (s : string) : bool :=
  match s with
  | EmptyString => true
  | String a s' =>
      (negb (is_c1_lead a) || match s' with EmptyString => false | String b _ => is_cont b end)
      && lead_followed s'
  end.

Lemma lead_followed_cons a s :
  nat_of_ascii a <> 194 -> lead_followed s = true -> lead_followed (String a s) = true.
Proof.
  intros Ha Hs. simpl. rewrite Hs, andb_true_r. apply orb_true_iff. left.
  apply negb_true_iff. bytes. lia.
Qed.

Lemma lead_followed_pair a b s :
  is_cont b = true -> lead_followed (String b s) = true ->
  lead_followed (String a (String b s)) = true.
Proof. intros Hb Hs. simpl in *. by rewrite Hb, orb_true_r, Hs. Qed.

Lemma is_cont_not_lead b : is_cont b = true -> nat_of_ascii b <> 194.
Proof. intros H. bytes. lia. Qed.

Lemma utf8_lead_followed s : utf8_valid s = true -> lead_followed s = true.
Proof.
  remember (String.length s) as n eqn:Hn. revert s Hn.
  induction n as [n IH] using lt_wf_ind. intros [|a s1] Hn H; [done|].
  simpl in H. destruct (byte_in 0 127 a) eqn:Ea.
  { apply lead_followed_cons; [bytes; lia|]. eapply IH; [|done|done]. simpl in Hn; lia. }
  destruct s1 as [|b s2]; [done|]. destruct (byte_in 194 223 a) eqn:Ea2.
  { apply andb_true_iff in H as [Hb H]. apply lead_followed_pair; [done|].
    apply lead_followed_cons; [by apply is_cont_not_lead|].
    eapply IH; [|done|done]. simpl in Hn; lia. }
  assert (nat_of_ascii a <> 194) as Ha by (bytes; lia).
  destruct s2 as [|c s3]; [done|]. destruct (byte_in 224 239 a) eqn:Ea3.
  - rewrite !andb_true_iff in H. destruct H as [[Hb Hc] H].
    apply lead_followed_cons; [done|]. apply lead_followed_cons.
    { repeat case_match; bytes; lia. }
    apply lead_followed_cons; [by apply is_cont_not_lead|].
    eapply IH; [|done|done]. simpl in Hn; lia.
  - destruct s3 as [|d s4]; [done|]. rewrite !andb_true_iff in H.
    destruct H as [[[[Ha4 Hb] Hc] Hd] H].
    apply lead_followed_cons; [done|]. apply lead_followed_cons.
    { repeat case_match; bytes; lia. }
    apply lead_followed_cons; [by apply is_cont_not_lead|].
    apply lead_followed_cons; [by apply is_cont_not_lead|].
    eapply IH; [|done|done]. simpl in Hn; lia.
Qed.

(** A continuation byte outside C1 survives [strip_control] at the head. *)
Lemma strip_control_head b s :
  is_cont b = true -> is_c1_tail b = false ->
  exists t, strip_control (String b s) = String b t.
Proof.
  intros Hb Ht. simpl.
  destruct (is_c0_or_del b) eqn:E; [bytes; lia|].
  destruct s as [|c s]; [by eexists|].
  destruct (is_c1_lead b && is_c1_tail c) eqn:E2; [bytes; lia|by eexists].
Qed.

Lemma strip_control_clean s :
  lead_followed s = true -> has_control (strip_control s) = false.
Proof.
  remember (String.length s) as n eqn:Hn. revert s Hn.
  induction n as [n IH] using lt_wf_ind. intros [|a s] Hn H; [done|].
  simpl in H. apply andb_true_iff in H as [Hlead H].
  assert (has_control (strip_control s) = false) as IHs.
  { eapply IH; [|done|done]. simpl in Hn; lia. }
  simpl. destruct (is_c0_or_del a) eqn:Ea; [done|].
  destruct s as [|b s].
  { simpl. by rewrite Ea. }
  destruct (is_c1_lead a && is_c1_tail b) eqn:Eab.
  { simpl in H. apply andb_true_iff in H as [_ H].
    eapply IH; [|done|done]. simpl in Hn; lia. }
  cbn [has_control]. rewrite Ea, IHs, orb_false_r, orb_false_l.
  destruct (is_c1_lead a) eqn:Ela; [|by destruct (strip_control (String b s))].
  destruct (strip_control_head b s) as [t ->]; done.
Qed.

Lemma in_class_spec a c :
  in_class a c = true <-> a = c \/ exists r, a = c +:+ "." +:+ r.
Proof.
  unfold in_class. rewrite orb_true_iff, String.eqb_eq.
  destruct (strip_prefix c a) as [[|b r]|] eqn:E.
  - apply strip_prefix_spec in E. rewrite str_app_nil_r in E. subst.
    split; [tauto|]. intros [?|(r & H)]; [by left|]. exfalso.
    apply (f_equal String.length) in H. rewrite !str_length_app in H. simpl in H. lia.
  - apply strip_prefix_spec in E as ->. rewrite Ascii.eqb_eq. split.
    + intros [?| ->]; [by left|]. right. by exists r.
    + intros [?|(r' & H)]; [by left|]. right. apply str_app_inj_l in H. by inv H.
  - split; [intros [?|?]; [by left|done]|].
    intros [?|(r & ->)]; [by left|]. by rewrite strip_prefix_app in E.
Qed.

Lemma contains_char_app c s t : contains_char c (s +:+ t) = contains_char c s || contains_char c t.
Proof. induction s as [|a s IH]; [done|]. cbn. rewrite IH. by destruct (Ascii.eqb a c). Qed.

Lemma find_map_elem {A B} (f : A -> option B) l b : find_map f l = Some b -> exists a, a ∈ l /\ f a = Some b.
Proof.
  induction l as [|a l IH]; simpl; [done|]. destruct (f a) as [b'|] eqn:E.
  - intros [= ->]. exists a. split; [left|done].
  - intros (a' & Ha & Hf)%IH. exists a'. split; [by right|done].
Qed.

(** A character of no white space survives [trim]. *)
Lemma trim_keeps c s :
  forallb (fun w => negb (contains_char c w)) white_space = true ->
  contains_char c s = true -> contains_char c (trim s) = true.
Proof.
  intros Hw Hs. rewrite forallb_forall in Hw.
  assert (forall w, w ∈ white_space -> contains_char c w = false) as Hn.
  { intros w Hin. apply negb_true_iff, Hw. by apply list_elem_of_In. }
  assert (forall n t, contains_char c t = true -> contains_char c (trim_start_fuel n t) = true) as Hstart.
  { induction n as [|n IH]; intros t Ht; [done|]. cbn [trim_start_fuel].
    destruct (find_map (fun w => strip_prefix w t) white_space) as [r|] eqn:E; [|done].
    apply find_map_elem in E as (w & Hin & Hr%strip_prefix_spec). subst t. apply IH.
    by rewrite contains_char_app, (Hn w Hin) in Ht. }
  assert (forall n t, contains_char c t = true -> contains_char c (trim_end_fuel n t) = true) as Hend.
  { induction n as [|n IH]; intros t Ht; [done|]. cbn [trim_end_fuel].
    destruct (find_map (fun w => strip_suffix w t) white_space) as [r|] eqn:E; [|done].
    apply find_map_elem in E as (w & Hin & Hr%strip_suffix_spec). subst t. apply IH.
    by rewrite contains_char_app, (Hn w Hin), orb_false_r in Ht. }
  by apply Hend, Hstart.
Qed.

Lemma trim_nil : trim "" = "".
Proof. reflexivity. Qed.

Example trim_ex : trim ("  " +:+ bytes_of [226; 128; 131] +:+ "SECRET  ") = "SECRET".
Proof. reflexivity. Qed.
Example split_ex : split_str "//" "SECRET//NOFORN//" = ["SECRET"; "NOFORN"; ""].
Proof. reflexivity. Qed.
Example comps_ex : comps "/home//op/.ssh/" = ["home"; "op"; ".ssh"].
Proof. reflexivity. Qed.
