(* ===== verification/RustSlice.v ===== *)
(** * Slices and ordered maps of the Rust standard library

    [Ord] keys, [sort_by_key], the adjacent-pair scan of [windows(2)],
    [binary_search_by] and [partition_point] by bisection, [dedup], and the key
    order in which a [BTreeMap] is iterated. *)
From stdpp Require Import base list strings gmap sorting.
From Stdlib Require Import ZArith Lia Ascii.
From S2P Require Import Prelude RustStr.
Open Scope nat_scope.

(** ** Ordered keys *)

Class Ord (K : Type) := {
  cmp : K -> K -> comparison;
  cmp_eq : forall x y, cmp x y = Eq <-> x = y;
  cmp_opp : forall x y, cmp y x = CompOpp (cmp x y);
  cmp_trans : forall x y z, cmp x y = Lt -> cmp y z = Lt -> cmp x z = Lt }.

Arguments cmp : simpl never.

#[export] Program Instance Ord_nat : Ord nat := {| cmp := Nat.compare |}.
Next Obligation. apply Nat.compare_eq_iff. Qed.
Next Obligation. intros. apply Nat.compare_antisym. Qed.
Next Obligation. intros x y z. rewrite !Nat.compare_lt_iff. lia. Qed.

#[export] Program Instance Ord_Z : Ord Z := {| cmp := Z.compare |}.
Next Obligation. apply Z.compare_eq_iff. Qed.
Next Obligation. intros. apply Z.compare_antisym. Qed.
Next Obligation. intros x y z. rewrite !Z.compare_lt_iff. lia. Qed.

(** [str]'s order: by bytes. *)
Fixpoint str_cmp (s t : string) : comparison :=
  match s, t with
  | EmptyString, EmptyString => Eq
  | EmptyString, String _ _ => Lt
  | String _ _, EmptyString => Gt
  | String a s', String b t' =>
      match Nat.compare (nat_of_ascii a) (nat_of_ascii b) with
      | Eq => str_cmp s' t'
      | c => c
      end
  end.

Lemma nat_of_ascii_inj a b : nat_of_ascii a = nat_of_ascii b -> a = b.
Proof. intros H. by rewrite <-(ascii_nat_embedding a), H, ascii_nat_embedding. Qed.

#[export] Program Instance Ord_string : Ord string := {| cmp := str_cmp |}.
Next Obligation.
  intros x. induction x as [|a x IH]; intros [|b y]; simpl; try done.
  destruct (Nat.compare_spec (nat_of_ascii a) (nat_of_ascii b)) as [E|E|E].
  - apply nat_of_ascii_inj in E as ->. rewrite IH. naive_solver.
  - split; [done|]. intros [= -> ->]. lia.
  - split; [done|]. intros [= -> ->]. lia.
Qed.
Next Obligation.
  intros x. induction x as [|a x IH]; intros [|b y]; simpl; try done.
  rewrite (Nat.compare_antisym (nat_of_ascii a)).
  destruct (Nat.compare _ _); simpl; auto.
Qed.
Next Obligation.
  intros x. induction x as [|a x IH]; intros [|b y] [|c z]; simpl; try done.
  destruct (Nat.compare_spec (nat_of_ascii a) (nat_of_ascii b)),
    (Nat.compare_spec (nat_of_ascii b) (nat_of_ascii c)),
    (Nat.compare_spec (nat_of_ascii a) (nat_of_ascii c)); try done; try lia. apply IH.
Qed.

#[export] Program Instance Ord_option {K} `{Ord K} : Ord (option K) := {|
  cmp a b :=
    match a, b with
    | None, None => Eq
    | None, Some _ => Lt
    | Some _, None => Gt
    | Some x, Some y => cmp x y
    end |}.
Next Obligation. intros K HK [x|] [y|]; simpl; try done. rewrite cmp_eq. naive_solver. Qed.
Next Obligation. intros K HK [x|] [y|]; simpl; try done. apply cmp_opp. Qed.
Next Obligation. intros K HK [x|] [y|] [z|]; simpl; try done. apply cmp_trans. Qed.

(** [Vec<K>] and [bool] compare as Rust derives it: element by element, the
    shorter prefix first; [false] before [true]. *)
Fixpoint list_cmp {K} `{Ord K} (a b : list K) : comparison :=
  match a, b with
  | [], [] => Eq
  | [], _ :: _ => Lt
  | _ :: _, [] => Gt
  | x :: a', y :: b' => match cmp x y with Eq => list_cmp a' b' | c => c end
  end.

#[export] Program Instance Ord_list {K} `{Ord K} : Ord (list K) := {| cmp := list_cmp |}.
Next Obligation.
  intros K HK a. induction a as [|x a IH]; intros [|y b]; simpl; try done.
  destruct (cmp x y) eqn:E.
  - apply cmp_eq in E as ->. rewrite IH. naive_solver.
  - split; [done|]. intros [= -> ->]. by rewrite (proj2 (cmp_eq y y)) in E.
  - split; [done|]. intros [= -> ->]. by rewrite (proj2 (cmp_eq y y)) in E.
Qed.
Next Obligation.
  intros K HK a. induction a as [|x a IH]; intros [|y b]; simpl; try done.
  rewrite (cmp_opp x y). destruct (cmp x y); simpl; auto.
Qed.
Next Obligation.
  intros K HK a. induction a as [|x a IH]; intros [|y b] [|z c]; simpl; try done.
  destruct (cmp x y) eqn:E1, (cmp y z) eqn:E2; try done.
  - apply cmp_eq in E1 as ->. rewrite E2. by apply IH.
  - apply cmp_eq in E1 as ->. by rewrite E2.
  - apply cmp_eq in E2 as ->. by rewrite E1.
  - by rewrite (cmp_trans _ _ _ E1 E2).
Qed.

#[export] Program Instance Ord_bool : Ord bool := {| cmp := Bool.compare |}.
Next Obligation. by intros [] []. Qed.
Next Obligation. by intros [] []. Qed.
Next Obligation. by intros [] [] []. Qed.

Definition prod_cmp {K L} `{Ord K, Ord L} (a b : K * L) : comparison :=
  match cmp (fst a) (fst b) with Eq => cmp (snd a) (snd b) | c => c end.

#[export] Program Instance Ord_prod {K L} `{Ord K, Ord L} : Ord (K * L) := {| cmp := prod_cmp |}.
Next Obligation.
  intros K L HK HL [a b] [c d]; unfold prod_cmp; simpl. destruct (cmp a c) eqn:E.
  - apply cmp_eq in E as ->. rewrite (cmp_eq b d). naive_solver.
  - split; [done|]. intros [= -> ->]. by rewrite (proj2 (cmp_eq c c)) in E.
  - split; [done|]. intros [= -> ->]. by rewrite (proj2 (cmp_eq c c)) in E.
Qed.
Next Obligation.
  intros K L HK HL [a b] [c d]; unfold prod_cmp; simpl. rewrite (cmp_opp a c).
  destruct (cmp a c); simpl; auto using cmp_opp.
Qed.
Next Obligation.
  intros K L HK HL [a b] [c d] [e f]; unfold prod_cmp; simpl.
  destruct (cmp a c) eqn:E1, (cmp c e) eqn:E2; try done.
  - apply cmp_eq in E1 as ->. rewrite E2. by apply cmp_trans.
  - apply cmp_eq in E1 as ->. by rewrite E2.
  - apply cmp_eq in E2 as ->. by rewrite E1.
  - by rewrite (cmp_trans _ _ _ E1 E2).
Qed.

Definition key_leb {K} `{Ord K} (x y : K) : bool := match cmp x y with Gt => false | _ => true end.

Section Order.
Context {K : Type} `{Ord K}.
Implicit Types x y z : K.

Lemma cmp_refl x : cmp x x = Eq.
Proof. by apply cmp_eq. Qed.
Lemma cmp_gt x y : cmp x y = Gt <-> cmp y x = Lt.
Proof. rewrite (cmp_opp x y). by destruct (cmp x y). Qed.
Lemma key_leb_total x y : key_leb x y = true \/ key_leb y x = true.
Proof. unfold key_leb. rewrite (cmp_opp x y). destruct (cmp x y); simpl; auto. Qed.
Lemma key_leb_spec x y : key_leb x y = true <-> x = y \/ cmp x y = Lt.
Proof.
  unfold key_leb. rewrite <-(cmp_eq x y). destruct (cmp x y); split; try done; auto.
  by intros [?|?].
Qed.
Lemma key_leb_trans x y z : key_leb x y = true -> key_leb y z = true -> key_leb x z = true.
Proof.
  rewrite !key_leb_spec. intros [->|H1] [->|H2]; auto. right. by eapply cmp_trans.
Qed.
End Order.

(** ** Slice operations *)

Definition sort_by_key {A K} `{Ord K} (key : A -> K) : list A -> list A :=
  sort_by (fun a b => key_leb (key a) (key b)).

(** [windows(2).find(|w| key(w[0]) == key(w[1]))], its [w[0]]. *)
Fixpoint adjacent_dup {A K} `{Ord K} (key : A -> K) (l : list A) : option A :=
  match l with
  | x :: ((y :: _) as l') =>
      match cmp (key x) (key y) with Eq => Some x | _ => adjacent_dup key l' end
  | _ => None
  end.

Fixpoint dedup {A K} `{Ord K} (key : A -> K) (l : list A) : list A :=
  match l with
  | x :: ((y :: _) as l') =>
      match cmp (key x) (key y) with Eq => dedup key l' | _ => x :: dedup key l' end
  | _ => l
  end.

(** The bisection loop of [binary_search_by]: [size] halves to one. *)
Fixpoint bisect {A} (f : A -> comparison) (l : list A) (fuel base size : nat) : nat :=
  match fuel with
  | O => base
  | S fuel' =>
      if size <=? 1 then base
      else
        let half := size / 2 in
        let mid := base + half in
        let base' := match f <$> l !! mid with Some Gt | None => base | Some _ => mid end in
        bisect f l fuel' base' (size - half)
  end.

Definition binary_search_by {A} (f : A -> comparison) (l : list A) : option nat :=
  let base := bisect f l (length l) 0 (length l) in
  match f <$> l !! base with Some Eq => Some base | _ => None end.

Definition binary_search_by_key {A K} `{Ord K} (k : K) (key : A -> K) : list A -> option nat :=
  binary_search_by (fun x => cmp (key x) k).

Definition partition_point {A} (pred : A -> bool) (l : list A) : nat :=
  let f x := if pred x then Lt else Gt in
  let base := bisect f l (length l) 0 (length l) in
  match f <$> l !! base with Some Lt => S base | _ => base end.

(** [l[a..b]]. *)
Definition slice {A} (a b : nat) (l : list A) : list A := take (b - a) (drop a l).

(** The order in which a [BTreeMap] is iterated. *)
Definition btree_iter {K A} `{Ord K, Countable K} (m : gmap K A) : list (K * A) :=
  sort_by_key fst (map_to_list m).

Lemma strongly_sorted_impl {A} (R S : A -> A -> Prop) l :
  (forall x y, x ∈ l -> y ∈ l -> R x y -> S x y) -> StronglySorted R l -> StronglySorted S l.
Proof.
  intros HRS Hs. induction Hs as [|x l Hs IH Hx]; constructor.
  - apply IH. intros y z Hy Hz. apply HRS; by right.
  - rewrite Forall_forall in *. intros y Hy. apply HRS; [left|by right|auto].
Qed.

(** ** Lemmas: sorting by key *)

Section SortKey.
Context {A K : Type} `{Ord K} (key : A -> K).

Definition key_sorted (l : list A) : Prop :=
  StronglySorted (fun a b => key_leb (key a) (key b) = true) l.
Definition key_strict (l : list A) : Prop :=
  StronglySorted (fun a b => cmp (key a) (key b) = Lt) l.

Lemma sort_by_key_perm l : sort_by_key key l ≡ₚ l.
Proof. apply sort_by_perm. Qed.

Lemma sort_by_key_elem l x : x ∈ sort_by_key key l <-> x ∈ l.
Proof. by rewrite sort_by_key_perm. Qed.

Lemma sort_by_key_length l : length (sort_by_key key l) = length l.
Proof. by rewrite sort_by_key_perm. Qed.

Lemma sort_by_key_sorted l : key_sorted (sort_by_key key l).
Proof.
  apply sort_by_sorted; intros; [apply key_leb_total|by eapply key_leb_trans].
Qed.

Lemma key_strict_sorted l : key_strict l -> key_sorted l.
Proof.
  induction 1 as [|x l _ IH Hx]; constructor; [done|].
  eapply Forall_impl; [exact Hx|]. intros y Hy. apply key_leb_spec. by right.
Qed.

Lemma sort_by_key_id l : key_sorted l -> sort_by_key key l = l.
Proof. apply sort_by_id. Qed.

Lemma key_strict_NoDup l : key_strict l -> NoDup (key <$> l).
Proof.
  induction 1 as [|x l _ IH Hx]; simpl; constructor; [|done].
  rewrite list_elem_of_fmap. intros (y & Hy & Hin). rewrite Forall_forall in Hx.
  specialize (Hx y Hin). rewrite Hy, cmp_refl in Hx. done.
Qed.

Lemma key_sorted_strict l : key_sorted l -> NoDup (key <$> l) -> key_strict l.
Proof.
  induction 1 as [|x l _ IH Hx]; simpl; intros Hn; constructor; inv Hn; [by apply IH|].
  rewrite Forall_forall in *. intros y Hy. specialize (Hx y Hy).
  apply key_leb_spec in Hx as [Hx|Hx]; [|done]. exfalso.
  match goal with Hnot : key x ∉ _ |- _ => apply Hnot end. rewrite Hx.
  apply list_elem_of_fmap. by exists y.
Qed.

(** On a sorted slice the adjacent scan finds every duplicate. *)
Lemma adjacent_dup_None l : key_sorted l -> adjacent_dup key l = None <-> NoDup (key <$> l).
Proof.
  intros Hs. split.
  - intros Hd. apply key_strict_NoDup. revert Hd.
    induction Hs as [|x l Hs IH Hx]; [constructor|]. destruct l as [|y l].
    { intros _. repeat constructor. }
    simpl. destruct (cmp (key x) (key y)) eqn:E; [done| |].
    + intros Hd. specialize (IH Hd). constructor; [done|].
      inv IH. constructor; [done|]. eapply Forall_impl; [done|].
      intros z Hz. by eapply cmp_trans.
    + inv Hx. unfold key_leb in *. by rewrite E in *.
  - clear Hs. induction l as [|x l IH]; [done|]. destruct l as [|y l]; [done|].
    intros Hn. simpl. destruct (cmp (key x) (key y)) eqn:E.
    + apply cmp_eq in E. simpl in Hn. rewrite E in Hn. inv Hn. set_solver.
    + apply IH. by inv Hn.
    + apply IH. by inv Hn.
Qed.

Lemma sort_by_key_strict l :
  adjacent_dup key (sort_by_key key l) = None -> key_strict (sort_by_key key l).
Proof.
  intros Hd. apply key_sorted_strict; [apply sort_by_key_sorted|].
  apply adjacent_dup_None; [apply sort_by_key_sorted|done].
Qed.

Lemma key_strict_inj l x y : key_strict l -> x ∈ l -> y ∈ l -> key x = key y -> x = y.
Proof.
  induction 1 as [|z l _ IH Hz]; intros Hx Hy Hk; [by inversion Hx|].
  rewrite Forall_forall in Hz. rewrite elem_of_cons in Hx, Hy.
  destruct Hx as [->|Hx], Hy as [->|Hy]; auto; exfalso.
  - specialize (Hz y Hy). by rewrite Hk, cmp_refl in Hz.
  - specialize (Hz x Hx). by rewrite Hk, cmp_refl in Hz.
Qed.
End SortKey.

(** ** Lemmas: bisection *)

Section Bisect.
Context {A : Type} (f : A -> comparison) (l : list A).

(** Past an element that is not below the target, everything is above it. *)
Definition bisects : Prop :=
  forall i j x y, i < j -> l !! i = Some x -> l !! j = Some y -> f x <> Lt -> f y = Gt.

Context (Hb : bisects).

Lemma bisect_spec fuel base size :
  size <= fuel -> 1 <= size -> base + size <= length l ->
  (base = 0 \/ exists x, l !! base = Some x /\ f x <> Gt) ->
  (forall j y, base + size <= j -> l !! j = Some y -> f y = Gt) ->
  let b := bisect f l fuel base size in
  b < length l /\ (b = 0 \/ exists x, l !! b = Some x /\ f x <> Gt) /\
  (forall j y, b < j -> l !! j = Some y -> f y = Gt).
Proof using Hb.
  revert base size. induction fuel as [|fuel IH]; intros base size Hf H1 Hl Hlo Hhi; [lia|].
  cbn [bisect]. destruct (Nat.leb_spec size 1) as [Hs|Hs].
  - assert (size = 1) as -> by lia. split_and!; [lia|done|].
    intros j y Hj. apply Hhi. lia.
  - assert (1 <= size / 2 /\ size / 2 <= size - size / 2) as Hh.
    { pose proof (Nat.div_mod_eq size 2). pose proof (Nat.mod_upper_bound size 2). lia. }
    destruct (l !! (base + size / 2)) as [x|] eqn:Ex.
    2:{ apply lookup_ge_None in Ex. lia. }
    assert (f x <> Gt -> base + size / 2 = 0 \/
              exists x', l !! (base + size / 2) = Some x' /\ f x' <> Gt) as Hx by eauto.
    assert (forall j y, base + size / 2 + (size - size / 2) <= j -> l !! j = Some y -> f y = Gt)
      as Hhi' by (intros j y Hj; apply Hhi; lia).
    cbn [fmap option_fmap option_map]. destruct (f x) eqn:Efx;
      [apply IH; try lia; try done; by apply Hx|apply IH; try lia; try done; by apply Hx|].
    apply IH; try lia; [done|]. intros j y Hj Hy.
    destruct (decide (j = base + size / 2)) as [->|Hne]; [congruence|].
    apply (Hb (base + size / 2) j x y); [lia|done..|congruence].
Qed.

Lemma bisect_whole :
  l <> [] ->
  let b := bisect f l (length l) 0 (length l) in
  b < length l /\ (b = 0 \/ exists x, l !! b = Some x /\ f x <> Gt) /\
  (forall j y, b < j -> l !! j = Some y -> f y = Gt).
Proof using Hb.
  intros Hne. assert (0 < length l) by (destruct l; simpl; [done|lia]).
  apply bisect_spec; try lia. intros j y Hj Hy. apply lookup_lt_Some in Hy. lia.
Qed.

(** The bisection finds the one element equal to the target, and only it. *)
Lemma binary_search_by_Some i :
  binary_search_by f l = Some i <-> exists x, l !! i = Some x /\ f x = Eq.
Proof using Hb.
  unfold binary_search_by. destruct (decide (l = [])) as [->|Hne].
  { split; [done|]. by intros (x & Hx & _). }
  destruct (bisect_whole Hne) as (Hlt & Hlo & Hhi).
  set (b := bisect f l (length l) 0 (length l)) in *.
  destruct (lookup_lt_is_Some_2 l b Hlt) as [x Hx]. rewrite Hx. simpl. split.
  - destruct (f x) eqn:E; try done. intros [= <-]. by exists x.
  - intros (z & Hz & Ez). destruct (Nat.lt_trichotomy i b) as [Hi|[->|Hi]].
    + destruct Hlo as [Hb0|(x' & Hx' & Hgt)]; [lia|]. rewrite Hx in Hx'. injection Hx' as <-.
      exfalso. apply Hgt. apply (Hb i b z x); [lia|done..|congruence].
    + rewrite Hx in Hz. injection Hz as ->. by rewrite Ez.
    + specialize (Hhi i z Hi Hz). congruence.
Qed.
End Bisect.

Lemma sorted_lookup {A} (R : A -> A -> Prop) l i j x y :
  StronglySorted R l -> i < j -> l !! i = Some x -> l !! j = Some y -> R x y.
Proof.
  intros Hs. revert i j. induction Hs as [|z l _ IH Hz]; intros i j Hij Hx Hy; [done|].
  destruct i as [|i], j as [|j]; simpl in *; [lia| |lia|].
  - injection Hx as ->. rewrite Forall_forall in Hz. by eapply Hz, list_elem_of_lookup_2.
  - apply (IH i j); [lia|done..].
Qed.

Lemma binary_search_by_key_Some {A K} `{Ord K} (key : A -> K) (k : K) l i :
  key_strict key l ->
  binary_search_by_key k key l = Some i <-> exists x, l !! i = Some x /\ key x = k.
Proof.
  intros Hs. unfold binary_search_by_key. rewrite binary_search_by_Some.
  - by setoid_rewrite cmp_eq.
  - intros a b x y Hab Hx Hy Hn.
    assert (cmp (key x) (key y) = Lt) as Hxy by exact (sorted_lookup _ _ _ _ _ _ Hs Hab Hx Hy).
    apply cmp_gt. rewrite cmp_opp in Hn. destruct (cmp k (key x)) eqn:E; simpl in Hn; try done.
    + apply cmp_eq in E as ->. done.
    + by eapply cmp_trans.
Qed.

Lemma binary_search_by_key_None {A K} `{Ord K} (key : A -> K) (k : K) l :
  key_strict key l ->
  binary_search_by_key k key l = None <-> (forall x, x ∈ l -> key x <> k).
Proof.
  intros Hs. split.
  - intros Hn x [i Hi]%list_elem_of_lookup Hk.
    assert (binary_search_by_key k key l = Some i) by (apply binary_search_by_key_Some; eauto).
    congruence.
  - intros Hn. destruct (binary_search_by_key k key l) as [i|] eqn:E; [|done].
    apply binary_search_by_key_Some in E as (x & Hx & Hk); [|done].
    destruct (Hn x); [by eapply list_elem_of_lookup_2|done].
Qed.

(** [partition_point] of a partitioned slice splits it. *)
Lemma partition_point_spec {A} (pred : A -> bool) l1 l2 :
  (forall x, x ∈ l1 -> pred x = true) -> (forall x, x ∈ l2 -> pred x = false) ->
  partition_point pred (l1 ++ l2) = length l1.
Proof.
  intros H1 H2. set (l := l1 ++ l2). unfold partition_point.
  set (f := fun x => if pred x then Lt else Gt).
  assert (forall i x, l !! i = Some x -> i < length l1 <-> pred x = true) as Hi.
  { intros i x Hx. apply lookup_app_Some in Hx as [Hx|[Hge Hx]].
    - split; [|intros _; by eapply lookup_lt_Some]. intros _. by eapply H1, list_elem_of_lookup_2.
    - split; [lia|]. rewrite (H2 x); [done|by eapply list_elem_of_lookup_2]. }
  destruct (decide (l = [])) as [Hl|Hne].
  { rewrite Hl. unfold l in Hl. apply app_nil in Hl as [-> _]. done. }
  assert (bisects f l) as Hb.
  { intros a b x y Hab Hx Hy Hn. unfold f in *. destruct (pred y) eqn:Ey; [|done].
    apply (Hi b y Hy) in Ey. assert (pred x = true) as Ex by (apply (Hi a x Hx); lia).
    by rewrite Ex in Hn. }
  destruct (bisect_whole f l Hb Hne) as (Hlt & Hlo & Hhi).
  set (b := bisect f l (length l) 0 (length l)) in *.
  destruct (lookup_lt_is_Some_2 l b Hlt) as [x Hx]. rewrite Hx. simpl. unfold f.
  assert (length l1 <= S b) as Hle.
  { destruct (decide (S b < length l1)) as [Hd|]; [|lia].
    destruct (lookup_lt_is_Some_2 l (S b)) as [y Hy]; [unfold l; rewrite length_app; lia|].
    specialize (Hhi (S b) y). unfold f in Hhi.
    rewrite (proj1 (Hi (S b) y Hy)) in Hhi by lia. specialize (Hhi ltac:(lia) Hy). done. }
  destruct (pred x) eqn:Ex.
  - apply (Hi b x Hx) in Ex. lia.
  - destruct (decide (b < length l1)) as [Hd|Hd]; [apply (Hi b x Hx) in Hd; congruence|].
    destruct Hlo as [->|(x' & Hx' & Hgt)]; [lia|]. rewrite Hx in Hx'. injection Hx' as <-.
    unfold f in Hgt. by rewrite Ex in Hgt.
Qed.

(** ** Lemmas: [dedup] and [BTreeMap] iteration *)

Lemma dedup_elem {A K} `{Ord K} (key : A -> K) (Hinj : forall x y, key x = key y -> x = y) l x :
  x ∈ dedup key l <-> x ∈ l.
Proof.
  induction l as [|a l IH]; [done|]. destruct l as [|b l]; [done|].
  change (dedup key (a :: b :: l)) with
    (match cmp (key a) (key b) with Eq => dedup key (b :: l) | _ => a :: dedup key (b :: l) end).
  destruct (cmp (key a) (key b)) eqn:E; rewrite ?elem_of_cons, IH; [|set_solver..].
  apply cmp_eq, Hinj in E as ->. set_solver.
Qed.

Lemma dedup_strict {A K} `{Ord K} (key : A -> K) (Hinj : forall x y, key x = key y -> x = y) l :
  key_sorted key l -> key_strict key (dedup key l).
Proof.
  induction 1 as [|a l Hs IH Ha]; [constructor|]. destruct l as [|b l]; [repeat constructor|].
  change (dedup key (a :: b :: l)) with
    (match cmp (key a) (key b) with Eq => dedup key (b :: l) | _ => a :: dedup key (b :: l) end).
  assert (cmp (key a) (key b) = Lt -> key_strict key (a :: dedup key (b :: l))) as Hlt.
  { intros E. constructor; [done|]. rewrite Forall_forall. intros y Hy.
    apply dedup_elem in Hy; [|done]. apply elem_of_cons in Hy as [->|Hy]; [done|].
    apply StronglySorted_cons in Hs as [Hf _]. rewrite Forall_forall in Hf.
    specialize (Hf y Hy). apply key_leb_spec in Hf as [Hf|Hf]; [by rewrite <-Hf|].
    by eapply cmp_trans. }
  destruct (cmp (key a) (key b)) eqn:E; auto. inv Ha. unfold key_leb in *. by rewrite E in *.
Qed.

Section BTree.
Context {K A : Type} `{Ord K, Countable K}.
Implicit Types m : gmap K A.

Lemma btree_iter_elem m k a : (k, a) ∈ btree_iter m <-> m !! k = Some a.
Proof. unfold btree_iter. by rewrite sort_by_key_elem, elem_of_map_to_list. Qed.

Lemma btree_iter_strict m : key_strict fst (btree_iter m).
Proof.
  apply key_sorted_strict; [apply sort_by_key_sorted|].
  unfold btree_iter. rewrite sort_by_key_perm. apply NoDup_fst_map_to_list.
Qed.

Lemma btree_iter_NoDup m : NoDup (btree_iter m).*1.
Proof. apply key_strict_NoDup, btree_iter_strict. Qed.

Lemma btree_iter_length m : length (btree_iter m) = size m.
Proof.
  unfold btree_iter. rewrite sort_by_key_length. by rewrite length_map_to_list.
Qed.
End BTree.

(** ** Lemmas: runs of equal keys *)

Section Runs.
Context {A K : Type} `{Ord K} (key : A -> K) (k : K).

Definition side (c : comparison) (x : A) : bool := bool_decide (cmp (key x) k = c).

Lemma filter_none (f : A -> bool) l : (forall x, x ∈ l -> f x = false) -> List.filter f l = [].
Proof.
  induction l as [|a l IH]; simpl; [done|]. intros Hf. rewrite (Hf a) by left.
  apply IH. intros x Hx. apply Hf. by right.
Qed.

(** A sorted slice is what lies below the key, the run at it, and what lies
    above it. *)
Lemma sorted_split l :
  key_sorted key l ->
  l = List.filter (side Lt) l ++ List.filter (side Eq) l ++ List.filter (side Gt) l.
Proof.
  induction 1 as [|a l _ IH Ha]; [done|]. rewrite Forall_forall in Ha.
  assert (forall x, x ∈ l -> cmp (key a) k <> Lt -> cmp (key x) k <> Lt) as Hlt.
  { intros x Hx Hn Hc. apply Hn. specialize (Ha x Hx). apply key_leb_spec in Ha as [->|Ha]; [done|].
    by eapply cmp_trans. }
  assert (forall x, x ∈ l -> cmp (key a) k = Gt -> cmp (key x) k = Gt) as Hgt.
  { intros x Hx Hc. specialize (Ha x Hx). apply key_leb_spec in Ha as [<-|Ha]; [done|].
    apply cmp_gt. apply cmp_gt in Hc. by eapply cmp_trans. }
  assert (forall c, side c a = bool_decide (cmp (key a) k = c)) as Hsa by reflexivity.
  simpl. rewrite !Hsa. destruct (cmp (key a) k) eqn:E;
    rewrite ?bool_decide_eq_true_2, ?bool_decide_eq_false_2 by done.
  - assert (List.filter (side Lt) l = []) as HL.
    { apply filter_none. intros x Hx. apply bool_decide_eq_false_2. by apply Hlt. }
    rewrite HL in IH |- *. simpl in *. by f_equal.
  - simpl. by f_equal.
  - assert (List.filter (side Lt) l = []) as HL.
    { apply filter_none. intros x Hx. apply bool_decide_eq_false_2. by apply Hlt. }
    assert (List.filter (side Eq) l = []) as HE.
    { apply filter_none. intros x Hx. apply bool_decide_eq_false_2. by rewrite Hgt. }
    rewrite HL, HE in IH |- *. simpl in *. by f_equal.
Qed.

Lemma slice_middle (l1 l2 l3 : list A) :
  slice (length l1) (length l1 + length l2) (l1 ++ l2 ++ l3) = l2.
Proof.
  unfold slice. rewrite drop_app_length.
  replace (length l1 + length l2 - length l1) with (length l2) by lia. apply take_app_length.
Qed.

(** The two partition points around a key cut out its run. *)
Lemma partition_run (lt le : A -> bool) l :
  key_sorted key l ->
  (forall x, lt x = true <-> cmp (key x) k = Lt) ->
  (forall x, le x = true <-> cmp (key x) k <> Gt) ->
  slice (partition_point lt l) (partition_point le l) l = List.filter (side Eq) l.
Proof.
  intros Hs Hlt Hle. pose proof (sorted_split l Hs) as Hl.
  set (l1 := List.filter (side Lt) l) in *. set (l2 := List.filter (side Eq) l) in *.
  set (l3 := List.filter (side Gt) l) in *.
  assert (forall c x, x ∈ List.filter (side c) l -> cmp (key x) k = c) as Hside.
  { intros c x [_ Hx]%elem_of_bfilter. by apply bool_decide_eq_true in Hx. }
  assert (partition_point lt l = length l1) as ->.
  { rewrite Hl. apply partition_point_spec.
    - intros x Hx. apply Hlt, Hside, Hx.
    - intros x Hx. apply not_true_iff_false. rewrite Hlt.
      apply elem_of_app in Hx as [Hx|Hx]; apply Hside in Hx; congruence. }
  assert (partition_point le l = length l1 + length l2) as ->.
  { rewrite Hl, app_assoc, <-length_app. apply partition_point_spec.
    - intros x Hx. apply Hle. apply elem_of_app in Hx as [Hx|Hx]; apply Hside in Hx; congruence.
    - intros x Hx. apply not_true_iff_false. rewrite Hle. intros Hn. by apply Hn, Hside. }
  rewrite Hl at 1. apply slice_middle.
Qed.
End Runs.

(** ** Lemmas: sorted order is unique *)

Lemma key_strict_unique {A K} `{Ord K} (key : A -> K) l1 l2 :
  key_strict key l1 -> key_strict key l2 -> l1 ≡ₚ l2 -> l1 = l2.
Proof.
  unfold key_strict. intros Hs1. revert l2.
  induction Hs1 as [|x l1 Hs1 IH Hx]; intros l2 Hs2 Hp.
  - apply Permutation_nil_l in Hp. by subst.
  - destruct Hs2 as [|y l2 Hs2 Hy]; [by apply Permutation_nil_r in Hp|].
    assert (x = y) as <-.
    { assert (x ∈ y :: l2) as Hxi by (rewrite <-Hp; left).
      assert (y ∈ x :: l1) as Hyi by (rewrite Hp; left).
      apply elem_of_cons in Hxi as [->|Hxi]; [done|].
      apply elem_of_cons in Hyi as [->|Hyi]; [done|].
      rewrite Forall_forall in Hx, Hy. pose proof (cmp_trans _ _ _ (Hx y Hyi) (Hy x Hxi)) as Hc.
      by rewrite cmp_refl in Hc. }
    f_equal. apply IH; [done|]. by apply Permutation_cons_inv in Hp.
Qed.

Lemma sort_by_key_unique {A K} `{Ord K} (key : A -> K) l1 l2 :
  l1 ≡ₚ l2 -> NoDup (key <$> l1) -> sort_by_key key l1 = sort_by_key key l2.
Proof.
  intros Hp Hn. apply (key_strict_unique key).
  - apply key_sorted_strict; [apply sort_by_key_sorted|]. by rewrite sort_by_key_perm.
  - apply key_sorted_strict; [apply sort_by_key_sorted|]. by rewrite sort_by_key_perm, <-Hp.
  - by rewrite !sort_by_key_perm.
Qed.

(** ** [BTreeSet]: iterated in order *)

Definition btree_set_iter {K} `{Ord K, Countable K} (s : gset K) : list K :=
  sort_by_key (fun k => k) (elements s).

Lemma btree_set_iter_elem {K} `{Ord K, Countable K} (s : gset K) k :
  k ∈ btree_set_iter s <-> k ∈ s.
Proof. unfold btree_set_iter. by rewrite sort_by_key_elem, elem_of_elements. Qed.

Lemma btree_set_iter_NoDup {K} `{Ord K, Countable K} (s : gset K) : NoDup (btree_set_iter s).
Proof. unfold btree_set_iter. rewrite sort_by_key_perm. apply NoDup_elements. Qed.
