(* ===== verification/Json.v ===== *)
(** * [serde_json::Value]

    The values the kernel reads out of JSON documents; the parser and the printer
    are third-party and parameters of what uses them. *)
From stdpp Require Import base list strings gmap.
From Stdlib Require Import ZArith.
From S2P Require Import Prelude.

(** [serde_json::Value]; a number is a [u64], a negative [i64] or a float. *)
Inductive Json :=
| JNull | JBool (b : bool) | JPos (n : Z) | JNeg (n : Z) | JFloat (bits : Z) | JStr (s : string)
| JArr (items : list Json) | JObj (members : list (string * Json)).

Definition json_get (j : Json) (key : string) : option Json :=
  match j with
  | JObj m => snd <$> List.find (fun kv => String.eqb (fst kv) key) m
  | _ => None
  end.
Definition json_as_u64 (j : Json) : option Z := match j with JPos n => Some n | _ => None end.
Definition json_as_object (j : Json) : option Json := match j with JObj _ => Some j | _ => None end.
Definition json_as_str (j : Json) : option string := match j with JStr s => Some s | _ => None end.
