(* ===== verification/Seam.v ===== *)
(** * The authorization seam: [crates/maknae-security]

    The request, verdict and obligation types, the N-ary composition
    ([combine], [compose_*]) with its panic boundary ([guarded_*]), and the
    fail-closed [finalize]. A panic of an operand is a value of [outcome]. *)
From stdpp Require Import base list strings gmap.
From Stdlib Require Import ZArith Lia Ascii.
From S2P Require Import Prelude RustStr.
Open Scope nat_scope.

(** ** Attribute values and bags ([value.rs]) *)

Inductive AttrValue :=
| AStr (s : string)
| AInt (i : Z)
| ABool (b : bool)
| ASet (s : gset string).

#[export] Instance AttrValue_eq_dec : EqDecision AttrValue.
Proof. solve_decision. Defined.

Abbreviation Attributes := (gmap string AttrValue).

Definition attr_str (a : Attributes) (k : string) : option string :=
  match a !! k with Some (AStr s) => Some s | _ => None end.
Definition set_of (a : Attributes) (k : string) : option (gset string) :=
  match a !! k with Some (ASet s) => Some s | _ => None end.

(** ** Requests ([request.rs]) *)

Definition CONTEXT_DAC_LANE := "dac_lane".
Definition SUBJECT_HOME := "home".
Definition SUBJECT_INITIATOR := "initiator".
Definition INITIATOR_KERNEL := "kernel".
Definition RESOURCE_OS_ACCESSIBLE := "os_accessible".
Definition CONTEXT_FS_OPERATION := "fs_operation".
Definition RESOURCE_CLASSIFICATION := "classification".

Inductive FsOperation :=
| WriteExisting | WriteCreate | DeleteEntry | DeleteTree | Mkdir | FsRead.

Definition fs_as_str (o : FsOperation) : string :=
  match o with
  | WriteExisting => "write-existing"
  | WriteCreate => "write-create"
  | DeleteEntry => "delete-entry"
  | DeleteTree => "delete-tree"
  | Mkdir => "mkdir"
  | FsRead => "read"
  end.

Definition fs_parse (value : string) : option FsOperation :=
  if String.eqb value "write-existing" then Some WriteExisting
  else if String.eqb value "write-create" then Some WriteCreate
  else if String.eqb value "delete-entry" then Some DeleteEntry
  else if String.eqb value "delete-tree" then Some DeleteTree
  else if String.eqb value "mkdir" then Some Mkdir
  else if String.eqb value "read" then Some FsRead
  else None.

Inductive Lane := LaneLocal | LaneRemote.
Definition lane_as_str (l : Lane) : string :=
  match l with LaneLocal => "local" | LaneRemote => "remote" end.

Record Request := mkRequest {
  subject : Attributes;
  resource : Attributes;
  action : string;
  context : Attributes }.

(** ** Obligations ([obligation.rs]) *)

Record Obligation := mkObligation { ob_id : string; ob_params : Attributes }.

#[export] Instance Obligation_eq_dec : EqDecision Obligation.
Proof. solve_decision. Defined.

Inductive ObligationConflict := obligation_conflict.

Definition ob_same (o e : Obligation) : bool :=
  String.eqb (ob_id e) (ob_id o) && bool_decide (ob_params e = ob_params o).
Definition ob_clash (o e : Obligation) : bool :=
  String.eqb (ob_id e) (ob_id o) && negb (bool_decide (ob_params e = ob_params o)).

(** The loop of [merge_obligations] over [a.into_iter().chain(b)]. *)
Fixpoint merge_loop (out l : list Obligation) : result (list Obligation) ObligationConflict :=
  match l with
  | [] => Ok out
  | o :: l' =>
      if existsb (ob_same o) out then merge_loop out l'
      else if existsb (ob_clash o) out then Err obligation_conflict
      else merge_loop (out ++ [o]) l'
  end.
Definition merge_obligations (a b : list Obligation) := merge_loop [] (a ++ b).

(** ** Verdicts and decisions ([verdict.rs]) *)

Inductive Verdict :=
| Permit (obligations : list Obligation)
| Deny (reason : string)
| NotApplicable (note : option string)
| Indeterminate.

#[export] Instance Verdict_eq_dec : EqDecision Verdict.
Proof. solve_decision. Defined.

Definition verdict_default : Verdict := NotApplicable None.

Inductive Decision :=
| DPermit (obligations : list Obligation)
| DDeny (reason : string).

Definition decision_default : Decision := DDeny "default (fail-closed)".

Definition finalize (v : Verdict) : Decision :=
  match v with
  | Permit obligations => DPermit obligations
  | Deny reason => DDeny reason
  | NotApplicable note =>
      DDeny (default "no applicable authorizer (fail-closed)" note)
  | Indeterminate => DDeny "indeterminate (fail-closed)"
  end.

(** ** [combine] ([compose.rs]) *)

Definition note_of (v : Verdict) : option string :=
  match v with NotApplicable (Some n) => Some n | _ => None end.
Definition reason_of (v : Verdict) : option string :=
  match v with Deny r => Some r | _ => None end.
Definition is_indeterminate (v : Verdict) : bool :=
  match v with Indeterminate => true | _ => false end.

(** Step 3's consuming loop: [None] is the conflicting-obligations return. *)
Fixpoint permit_loop (any_permit : bool) (acc : list Obligation) (vs : list Verdict)
  : option (bool * list Obligation) :=
  match vs with
  | [] => Some (any_permit, acc)
  | Permit obligations :: vs' =>
      match merge_obligations acc obligations with
      | Ok m => permit_loop true m vs'
      | Err _ => None
      end
  | _ :: vs' => permit_loop any_permit acc vs'
  end.

Definition combine (verdicts : list Verdict) : Verdict :=
  let first_note := find_map note_of verdicts in
  match find_map reason_of verdicts with
  | Some reason => Deny reason
  | None =>
      if existsb is_indeterminate verdicts then
        Deny "indeterminate operand blocks (fail-closed)"
      else
        match permit_loop false [] verdicts with
        | None => Deny "conflicting obligations (fail-closed)"
        | Some (true, acc) => Permit acc
        | Some (false, _) => NotApplicable first_note
        end
  end.

(** ** The [Authorizer] trait ([authorizer.rs]) *)

Record SubjectBinding := mkBinding { sb_role : string; sb_members : list string }.
Record RuleCitation := mkCitation { rc_node : Z; rc_key : string; rc_section : string }.
Record Decided := mkDecided {
  d_verdict : Verdict;
  d_role : option string;
  d_rule : option RuleCitation }.

#[export] Instance RuleCitation_eq_dec : EqDecision RuleCitation.
Proof. solve_decision. Defined.
#[export] Instance Decided_eq_dec : EqDecision Decided.
Proof. solve_decision. Defined.

Definition decided_pair (d : Decided) : Verdict * option string := (d_verdict d, d_role d).

(** A call of operand code: it returns, or it panics and unwinds. *)
Inductive outcome (A : Type) := Returned (a : A) | Panicked.
Arguments Returned {A} a.
Arguments Panicked {A}.

Definition outcome_map {A B} (f : A -> B) (o : outcome A) : outcome B :=
  match o with Returned a => Returned (f a) | Panicked => Panicked end.

Fixpoint outcome_all {A} (l : list (outcome A)) : outcome (list A) :=
  match l with
  | [] => Returned []
  | Returned a :: l' => outcome_map (cons a) (outcome_all l')
  | Panicked :: _ => Panicked
  end.

(** An operand, as the composition sees it: its methods at the time of the call. *)
Record Authorizer := mkAuthorizer {
  az_decide_cited : Request -> outcome Decided;
  az_decide_cited_all : list Request -> outcome (list Decided);
  az_subjects : outcome (option (list SubjectBinding));
  az_backend_name : outcome string }.

(** The trait's provided methods over a required [decide]. *)
Definition default_reporting_role (decide : Request -> outcome Verdict) (req : Request)
  : outcome (Verdict * option string) := outcome_map (fun v => (v, None)) (decide req).
Definition default_decide_cited
    (reporting : Request -> outcome (Verdict * option string)) (req : Request)
  : outcome Decided :=
  outcome_map (fun '(verdict, role) => mkDecided verdict role None) (reporting req).
Definition decide_each_cited (cited : Request -> outcome Decided) (reqs : list Request)
  : outcome (list Decided) := outcome_all (map cited reqs).
Definition default_subjects : outcome (option (list SubjectBinding)) := Returned None.
Definition default_backend_name : outcome string := Returned "unknown".

(** ** The panic boundary *)

Definition catch_unwind {A} (o : outcome A) (fallback : A) : A :=
  match o with Returned a => a | Panicked => fallback end.

Definition undecided : Decided := mkDecided Indeterminate None None.

Definition guarded_decide_cited (a : Authorizer) (req : Request) : Decided :=
  catch_unwind (az_decide_cited a req) undecided.
Definition guarded_decide_reporting_role (a : Authorizer) (req : Request) :=
  decided_pair (guarded_decide_cited a req).
Definition guarded_decide (a : Authorizer) (req : Request) : Verdict :=
  fst (guarded_decide_reporting_role a req).

Definition guarded_decide_cited_all (a : Authorizer) (reqs : list Request) : list Decided :=
  match az_decide_cited_all a reqs with
  | Returned all => if length all =? length reqs then all else map (fun _ => undecided) reqs
  | Panicked => map (fun _ => undecided) reqs
  end.

Definition BACKEND_NAME_MAX : nat := 128.

Definition name_char (c : ascii) : bool :=
  is_ascii_alphanumeric c || Ascii.eqb c "-" || Ascii.eqb c "_" || Ascii.eqb c "."
  || Ascii.eqb c "+".

Definition sanitize_backend_name (raw : string) : string :=
  let kept := filter_bytes name_char raw in
  let cleaned :=
    if BACKEND_NAME_MAX <? String.length kept
    then take_bytes BACKEND_NAME_MAX kept +:+ "~"
    else kept in
  if is_empty cleaned then "unknown" else cleaned.

Definition guarded_backend_name (a : Authorizer) : string :=
  sanitize_backend_name (catch_unwind (az_backend_name a) "unknown").

Definition guarded_subjects (a : Authorizer) : option (list SubjectBinding) :=
  map (fun b => mkBinding (strip_control (sb_role b)) (map strip_control (sb_members b)))
    <$> catch_unwind (az_subjects a) None.

(** ** The composition *)

Definition fold_cited (decided : list Decided) : Decided :=
  let role := find_map d_role decided in
  let verdict := combine (map d_verdict decided) in
  let cites d := is_some (d_rule d) && bool_decide (d_verdict d = verdict) in
  let rule := d ← List.find cites decided; d_rule d in
  mkDecided verdict role rule.

Definition compose_decide_cited (operands : list Authorizer) (req : Request) : Decided :=
  fold_cited (map (fun a => guarded_decide_cited a req) operands).
Definition compose_decide_reporting_role (operands : list Authorizer) (req : Request) :=
  decided_pair (compose_decide_cited operands req).
Definition compose_decide (operands : list Authorizer) (req : Request) : Verdict :=
  fst (compose_decide_reporting_role operands req).

(** [a[i]] panics out of range; [None] is that panic. *)
Definition compose_decide_cited_all (operands : list Authorizer) (reqs : list Request)
  : option (list Decided) :=
  let answers := map (fun a => guarded_decide_cited_all a reqs) operands in
  mapM (fun i => fold_cited <$> mapM (fun a : list Decided => a !! i) answers)
    (seq 0 (length reqs)).

Definition compose_backend_name (operands : list Authorizer) : string :=
  str_join "+"
    (map (fun a =>
            let raw := catch_unwind (az_backend_name a) "unknown" in
            if String.eqb (sanitize_backend_name raw) "unknown" then "unknown" else raw)
         operands).

(** The loop of [compose_subjects]: [None] once an operand has panicked. *)
Fixpoint subjects_loop (answers : list (list SubjectBinding)) (operands : list Authorizer)
  : option (list (list SubjectBinding)) :=
  match operands with
  | [] => Some answers
  | a :: operands' =>
      match az_subjects a with
      | Panicked => None
      | Returned (Some l) => subjects_loop (answers ++ [l]) operands'
      | Returned None => subjects_loop answers operands'
      end
  end.
Definition compose_subjects (operands : list Authorizer) : option (list SubjectBinding) :=
  match subjects_loop [] operands with
  | Some [l] => Some l
  | _ => None
  end.

(** [ConjunctionAuthorizer] is itself an operand. An index panic of
    [compose_decide_cited_all] unwinds out of the method. *)
Definition ConjunctionAuthorizer (operands : list Authorizer) : Authorizer :=
  mkAuthorizer
    (fun req => Returned (compose_decide_cited operands req))
    (fun reqs => match compose_decide_cited_all operands reqs with
                 | Some l => Returned l | None => Panicked end)
    (Returned (compose_subjects operands))
    (Returned (compose_backend_name operands)).

(** ** Obligation merging: lemmas *)

(** No two obligations share an id and differ in parameters. *)
Definition compatible (l : list Obligation) : Prop :=
  forall o1 o2, o1 ∈ l -> o2 ∈ l -> ob_id o1 = ob_id o2 -> ob_params o1 = ob_params o2.

Lemma ob_same_spec o e : ob_same o e = true <-> e = o.
Proof.
  unfold ob_same. rewrite andb_true_iff, String.eqb_eq, bool_decide_eq_true.
  destruct o, e; simpl. split; [by intros [-> ->]|by intros [= -> ->]].
Qed.

Lemma ob_clash_spec o e :
  ob_clash o e = true <-> ob_id e = ob_id o /\ ob_params e <> ob_params o.
Proof.
  unfold ob_clash. by rewrite andb_true_iff, String.eqb_eq, negb_true_iff, bool_decide_eq_false.
Qed.

Lemma existsb_same o out : existsb (ob_same o) out = true <-> o ∈ out.
Proof.
  rewrite existsb_true. split.
  - by intros (e & He & ->%ob_same_spec).
  - intros H. exists o. split; [done|by apply ob_same_spec].
Qed.

Lemma compatible_subset l1 l2 : l1 ⊆ l2 -> compatible l2 -> compatible l1.
Proof. intros Hsub Hc o1 o2 H1 H2. apply Hc; by apply Hsub. Qed.

Lemma merge_loop_Ok out l m :
  merge_loop out l = Ok m -> forall o, o ∈ m <-> o ∈ out \/ o ∈ l.
Proof.
  revert out. induction l as [|x l IH]; simpl; intros out H o.
  - inv H. set_solver.
  - destruct (existsb (ob_same x) out) eqn:Es.
    + apply existsb_same in Es. rewrite (IH _ H). set_solver.
    + destruct (existsb (ob_clash x) out); [done|]. rewrite (IH _ H). set_solver.
Qed.

Lemma merge_loop_compatible out l m :
  compatible out -> merge_loop out l = Ok m -> compatible (out ++ l).
Proof.
  revert out. induction l as [|x l IH]; simpl; intros out Hc H.
  - by rewrite app_nil_r.
  - destruct (existsb (ob_same x) out) eqn:Es.
    + apply existsb_same in Es. specialize (IH _ Hc H).
      eapply compatible_subset; [|exact IH]. set_solver.
    + destruct (existsb (ob_clash x) out) eqn:Ec; [done|].
      assert (compatible (out ++ [x])) as Hc'.
      { rewrite existsb_false in Ec.
        assert (forall e, e ∈ out -> ob_id e = ob_id x -> ob_params e = ob_params x) as Hx.
        { intros e He Hid. destruct (decide (ob_params e = ob_params x)) as [|Hne]; [done|].
          specialize (Ec e He). apply not_true_iff_false in Ec. destruct Ec.
          by apply ob_clash_spec. }
        intros o1 o2. rewrite !elem_of_app, !list_elem_of_singleton.
        intros [H1| ->] [H2| ->] Hid; auto. symmetry. by apply Hx. }
      specialize (IH _ Hc' H). by rewrite <-app_assoc in IH.
Qed.

Lemma merge_loop_Err out l e : merge_loop out l = Err e -> ~ compatible (out ++ l).
Proof.
  revert out. induction l as [|x l IH]; simpl; intros out H Hc; [done|].
  destruct (existsb (ob_same x) out) eqn:Es.
  - apply (IH _ H). eapply compatible_subset; [|exact Hc]. set_solver.
  - destruct (existsb (ob_clash x) out) eqn:Ec.
    + apply existsb_true in Ec as (y & Hy & [Hid Hne]%ob_clash_spec).
      apply Hne, (Hc y x); [set_solver..|done].
    + apply (IH _ H). by rewrite <-app_assoc.
Qed.

Lemma merge_loop_NoDup out l m : NoDup out -> merge_loop out l = Ok m -> NoDup m.
Proof.
  revert out. induction l as [|x l IH]; simpl; intros out Hn H.
  - by inv H.
  - destruct (existsb (ob_same x) out) eqn:Es; [eauto|].
    destruct (existsb (ob_clash x) out); [done|].
    eapply IH; [|done]. apply NoDup_app. split_and!; [done| |apply NoDup_singleton].
    intros y Hy ->%list_elem_of_singleton.
    apply not_true_iff_false in Es. destruct Es. by apply existsb_same.
Qed.

(** ** [combine]: lemmas *)

Definition obligations_of (v : Verdict) : list Obligation :=
  match v with Permit os => os | _ => [] end.
Definition all_obligations (vs : list Verdict) : list Obligation :=
  concat (map obligations_of vs).
Definition is_permit (v : Verdict) : bool := match v with Permit _ => true | _ => false end.
Definition is_deny (v : Verdict) : bool := match v with Deny _ => true | _ => false end.

Lemma permit_loop_Some b acc vs b' acc' :
  compatible acc -> NoDup acc -> permit_loop b acc vs = Some (b', acc') ->
  b' = (b || existsb is_permit vs) /\ NoDup acc' /\
  compatible (acc ++ all_obligations vs) /\
  forall o, o ∈ acc' <-> o ∈ acc \/ o ∈ all_obligations vs.
Proof.
  unfold all_obligations. revert b acc. induction vs as [|v vs IH]; simpl; intros b acc Hc Hn H.
  - inv H. rewrite orb_false_r, app_nil_r. split_and!; [done..|set_solver].
  - destruct v as [os|r|n|]; simpl; try (by apply IH).
    destruct (merge_obligations acc os) as [m|] eqn:Em; [|done].
    unfold merge_obligations in Em.
    assert (compatible []) as Hc0 by (intros ? ? Hx; inversion Hx).
    pose proof (merge_loop_compatible [] _ _ Hc0 Em) as Hcm. simpl in Hcm.
    pose proof (merge_loop_Ok [] _ _ Em) as Hm.
    pose proof (merge_loop_NoDup [] _ _ (NoDup_nil_2) Em) as Hnm.
    destruct (IH true m) as (-> & Hn' & Hc' & Hin); [|done|done|].
    { eapply compatible_subset; [|exact Hcm]. intros o Ho. apply Hm in Ho. set_solver. }
    rewrite orb_true_r. split_and!; [done|done| |].
    + eapply compatible_subset; [|exact Hc']. intros o. rewrite !elem_of_app.
      specialize (Hm o). rewrite elem_of_app in Hm. set_solver.
    + intros o. rewrite Hin, (Hm o). set_solver.
Qed.

Lemma permit_loop_None b acc vs :
  permit_loop b acc vs = None -> ~ compatible (acc ++ all_obligations vs).
Proof.
  unfold all_obligations. revert b acc. induction vs as [|v vs IH]; simpl; intros b acc H Hc.
  - done.
  - destruct v as [os|r|n|]; simpl in *; try (by eapply IH).
    destruct (merge_obligations acc os) as [m|] eqn:Em; unfold merge_obligations in Em.
    + apply (IH _ _ H). eapply compatible_subset; [|exact Hc].
      pose proof (merge_loop_Ok [] _ _ Em) as Hm. intros o. rewrite !elem_of_app.
      specialize (Hm o). set_solver.
    + apply merge_loop_Err in Em. apply Em. eapply compatible_subset; [|exact Hc]. set_solver.
Qed.

Lemma no_reason vs : find_map reason_of vs = None <-> existsb is_deny vs = false.
Proof.
  rewrite find_map_None, existsb_false.
  split; intros H v Hv; specialize (H v Hv); by destruct v.
Qed.

Lemma no_permit_no_obligations vs : existsb is_permit vs = false -> all_obligations vs = [].
Proof.
  induction vs as [|v vs IH]; simpl; [done|]. intros [Hv Hvs]%orb_false_iff.
  unfold all_obligations in *. simpl. rewrite IH by done. by destruct v.
Qed.

(** The cases of [combine], exhaustive and disjoint. *)
Inductive combined (vs : list Verdict) : Verdict -> Prop :=
| combined_deny r : r ∈ omap reason_of vs -> combined vs (Deny r)
| combined_blocked :
    existsb is_deny vs = false -> existsb is_indeterminate vs = true ->
    combined vs (Deny "indeterminate operand blocks (fail-closed)")
| combined_conflict :
    existsb is_deny vs = false -> existsb is_indeterminate vs = false ->
    existsb is_permit vs = true -> ~ compatible (all_obligations vs) ->
    combined vs (Deny "conflicting obligations (fail-closed)")
| combined_permit os :
    existsb is_deny vs = false -> existsb is_indeterminate vs = false ->
    existsb is_permit vs = true -> compatible (all_obligations vs) ->
    NoDup os -> (forall o, o ∈ os <-> o ∈ all_obligations vs) ->
    combined vs (Permit os)
| combined_absent :
    existsb is_deny vs = false -> existsb is_indeterminate vs = false ->
    existsb is_permit vs = false ->
    combined vs (NotApplicable (find_map note_of vs)).

Lemma combine_combined vs : combined vs (combine vs).
Proof.
  unfold combine. destruct (find_map reason_of vs) as [r|] eqn:Er.
  - apply find_map_Some in Er as (v & Hv & Hr). apply combined_deny.
    apply list_elem_of_omap. eauto.
  - apply no_reason in Er. destruct (existsb is_indeterminate vs) eqn:Ei.
    + by apply combined_blocked.
    + destruct (permit_loop false [] vs) as [[b acc]|] eqn:Ep.
      * apply permit_loop_Some in Ep as (-> & Hn & Hc & Hin);
          [|intros ? ? Hx; inversion Hx|by apply NoDup_nil].
        simpl in *. destruct (existsb is_permit vs) eqn:Epm.
        -- apply combined_permit; try done. intros o. rewrite Hin. set_solver.
        -- by apply combined_absent.
      * apply permit_loop_None in Ep. apply combined_conflict; [done..| |done].
        destruct (existsb is_permit vs) eqn:Epm; [done|].
        destruct Ep. simpl. rewrite no_permit_no_obligations by done. intros ? ? Hx. inversion Hx.
Qed.

Lemma existsb_perm {A} (f : A -> bool) l1 l2 :
  Permutation l1 l2 -> existsb f l1 = existsb f l2.
Proof.
  intros H. apply eq_true_iff_eq. rewrite !existsb_true.
  split; intros (x & Hx & Hf); exists x; (split; [|done]); [by rewrite <-H|by rewrite H].
Qed.

Lemma all_obligations_elem o vs :
  o ∈ all_obligations vs <-> exists v, v ∈ vs /\ o ∈ obligations_of v.
Proof.
  unfold all_obligations. rewrite list_elem_of_In, in_concat. split.
  - intros (l & Hl & Ho). apply in_map_iff in Hl as (v & <- & Hv).
    exists v. by rewrite !list_elem_of_In.
  - intros (v & Hv & Ho). exists (obligations_of v). split; [|by apply list_elem_of_In].
    apply in_map_iff. exists v. split; [done|by apply list_elem_of_In].
Qed.

Lemma all_obligations_perm vs1 vs2 :
  Permutation vs1 vs2 -> forall o, o ∈ all_obligations vs1 <-> o ∈ all_obligations vs2.
Proof.
  intros H o. rewrite !all_obligations_elem.
  split; intros (v & Hv & Ho); exists v; (split; [|done]); [by rewrite <-H|by rewrite H].
Qed.

Lemma compatible_perm vs1 vs2 :
  Permutation vs1 vs2 -> compatible (all_obligations vs1) -> compatible (all_obligations vs2).
Proof.
  intros H. apply compatible_subset. intros o Ho. by eapply all_obligations_perm.
Qed.

(** Two verdicts of one class; permits agree on their obligations as sets. *)
Definition same_class (v w : Verdict) : Prop :=
  match v, w with
  | Permit os1, Permit os2 => Permutation os1 os2
  | Deny _, Deny _ | NotApplicable _, NotApplicable _ | Indeterminate, Indeterminate => True
  | _, _ => False
  end.

Lemma deny_in r vs : r ∈ omap reason_of vs -> existsb is_deny vs = true.
Proof.
  intros (v & Hv & Hr)%list_elem_of_omap. apply existsb_true. exists v. split; [done|].
  by destruct v.
Qed.

Lemma combine_no_deny vs os : combine vs = Permit os ->
  existsb is_deny vs = false /\ existsb is_indeterminate vs = false /\
  existsb is_permit vs = true /\ compatible (all_obligations vs) /\
  NoDup os /\ (forall o, o ∈ os <-> o ∈ all_obligations vs).
Proof. intros H. pose proof (combine_combined vs) as Hc. rewrite H in Hc. by inv Hc. Qed.

Lemma combine_permit_intro vs :
  existsb is_deny vs = false -> existsb is_indeterminate vs = false ->
  existsb is_permit vs = true -> compatible (all_obligations vs) ->
  exists os, combine vs = Permit os.
Proof.
  intros Hd Hi Hp Hc. pose proof (combine_combined vs) as H.
  inversion H as [r Hr Hv|? ? Hv|? ? ? ? Hv|os ? ? ? ? ? ? Hv|? ? ? Hv]; try congruence; eauto.
  by rewrite (deny_in _ _ Hr) in Hd.
Qed.

(** An operand that denies or abstains, and never permits. *)
Definition never_permits (a : Authorizer) : Prop :=
  forall req, is_permit (guarded_decide a req) = false.

Lemma compose_decide_combine ops req :
  compose_decide ops req = combine (map (fun a => guarded_decide a req) ops).
Proof.
  unfold compose_decide, compose_decide_reporting_role, compose_decide_cited, fold_cited.
  simpl. by rewrite map_map.
Qed.

Lemma guarded_decide_spec a req :
  guarded_decide a req = Indeterminate \/
  exists d, az_decide_cited a req = Returned d /\ guarded_decide a req = d_verdict d.
Proof.
  unfold guarded_decide, guarded_decide_reporting_role, guarded_decide_cited.
  destruct (az_decide_cited a req) as [d|]; simpl; [right; eauto|by left].
Qed.

Lemma finalize_permit v os : finalize v = DPermit os <-> v = Permit os.
Proof. destruct v; simpl; split; congruence. Qed.

Lemma mapM_lookup_total {A} (ls : list (list A)) i :
  Forall (fun l => i < length l) ls -> exists xs, mapM (fun l => l !! i) ls = Some xs.
Proof.
  induction 1 as [|l ls Hl _ [xs IH]]; simpl; [by exists []|].
  destruct (lookup_lt_is_Some_2 l i Hl) as [x ->]. simpl. rewrite IH. by exists (x :: xs).
Qed.

Lemma guarded_decide_cited_all_length a reqs :
  length (guarded_decide_cited_all a reqs) = length reqs.
Proof.
  unfold guarded_decide_cited_all. destruct (az_decide_cited_all a reqs) as [all|].
  - destruct (Nat.eqb_spec (length all) (length reqs)); [done|]. by rewrite length_map.
  - by rewrite length_map.
Qed.

(** An operand whose batch answers are its single answers, one per request. *)
Definition pointwise (a : Authorizer) : Prop :=
  forall reqs, guarded_decide_cited_all a reqs = map (guarded_decide_cited a) reqs.

Lemma mapM_lookup_pointwise ops reqs i req :
  Forall pointwise ops -> reqs !! i = Some req ->
  mapM (fun a : list Decided => a !! i) (map (fun a => guarded_decide_cited_all a reqs) ops)
  = Some (map (fun a => guarded_decide_cited a req) ops).
Proof.
  intros Hops Hreq. induction Hops as [|a ops Ha _ IH]; [done|].
  rewrite !map_cons. simpl. rewrite (Ha reqs), list_lookup_fmap, Hreq. simpl.
  by rewrite IH.
Qed.

Lemma mapM_seq_map {A B} (f : nat -> option B) (g : A -> B) (l : list A) n :
  (forall i x, l !! i = Some x -> f (n + i) = Some (g x)) ->
  mapM f (seq n (length l)) = Some (map g l).
Proof.
  revert n. induction l as [|x l IH]; intros n H; simpl; [done|].
  rewrite <-(Nat.add_0_r n) at 1. rewrite (H 0 x) by done. simpl.
  rewrite IH; [done|]. intros i y Hy. rewrite <-(H (S i) y) by done. f_equal. lia.
Qed.

Lemma compose_all_pointwise ops reqs :
  Forall pointwise ops ->
  compose_decide_cited_all ops reqs = Some (map (compose_decide_cited ops) reqs).
Proof.
  intros Hops. unfold compose_decide_cited_all. apply mapM_seq_map. intros i req Hreq. simpl.
  by rewrite (mapM_lookup_pointwise ops reqs i req).
Qed.

Lemma filter_bytes_all f s : all_bytes f (filter_bytes f s) = true.
Proof. induction s as [|a s IH]; simpl; [done|]. destruct (f a) eqn:E; simpl; [by rewrite E|done]. Qed.

Lemma all_bytes_take f n s : all_bytes f s = true -> all_bytes f (take_bytes n s) = true.
Proof.
  revert s. induction n as [|n IH]; intros [|a s]; simpl; try done.
  intros [-> Hs]%andb_true_iff. by rewrite IH.
Qed.

Lemma take_bytes_length n s : n <= String.length s -> String.length (take_bytes n s) = n.
Proof. revert s. induction n as [|n IH]; intros [|a s]; simpl; try lia. intros. rewrite IH; lia. Qed.

Lemma all_bytes_app f s t : all_bytes f (s +:+ t) = all_bytes f s && all_bytes f t.
Proof. induction s as [|a s IH]; simpl; [done|]. by rewrite IH, andb_assoc. Qed.

Lemma filter_bytes_id f s : all_bytes f s = true -> filter_bytes f s = s.
Proof. induction s as [|a s IH]; simpl; [done|]. intros [-> H]%andb_true_iff. by rewrite IH. Qed.

Lemma subjects_loop_spec ops answers :
  subjects_loop answers ops =
    if forallb (fun a => match az_subjects a with Panicked => false | _ => true end) ops
    then Some (answers ++ omap (fun a => match az_subjects a with Returned o => o | _ => None end) ops)
    else None.
Proof.
  revert answers. induction ops as [|a ops IH]; intros answers; simpl; [by rewrite app_nil_r|].
  destruct (az_subjects a) as [[l|]|]; simpl; [|by rewrite IH|done].
  rewrite IH. by rewrite <-app_assoc.
Qed.

Lemma permit_loop_skip b acc vs1 v vs2 :
  is_permit v = false -> permit_loop b acc (vs1 ++ v :: vs2) = permit_loop b acc (vs1 ++ vs2).
Proof.
  intros Hv. revert b acc. induction vs1 as [|w vs1 IH]; intros b acc; simpl.
  - by destruct v.
  - destruct w; [|auto..]. by destruct (merge_obligations acc obligations).
Qed.

Lemma combine_skip vs1 v vs2 os :
  is_permit v = false -> combine (vs1 ++ v :: vs2) = Permit os ->
  combine (vs1 ++ vs2) = Permit os.
Proof.
  intros Hv H. pose proof (combine_no_deny _ _ H) as (Hd & Hi & _).
  rewrite existsb_app in Hd, Hi. simpl in Hd, Hi. rewrite !orb_false_iff in Hd, Hi.
  destruct Hd as (Hd1 & _ & Hd2), Hi as (Hi1 & _ & Hi2).
  unfold combine in *. rewrite permit_loop_skip in H by done.
  assert (find_map reason_of (vs1 ++ vs2) = None) as ->.
  { apply no_reason. by rewrite existsb_app, Hd1, Hd2. }
  rewrite existsb_app, Hi1, Hi2. simpl. repeat case_match; congruence.
Qed.

(** ** Theorems *)

(** the composed verdict is a permit exactly when no operand denies, none
    is indeterminate, at least one permits, and the obligations of the
    permitting operands hold no same-id conflict. *)
Theorem combine_permit_iff (vs : list Verdict) :
  (exists os, combine vs = Permit os) <->
  existsb is_deny vs = false /\ existsb is_indeterminate vs = false /\
  existsb is_permit vs = true /\ compatible (all_obligations vs).
Proof.
  split.
  - intros [os H]. apply combine_no_deny in H. tauto.
  - intros (Hd & Hi & Hp & Hc). by apply combine_permit_intro.
Qed.

(** the class of a composed verdict does not depend on operand order: any
    permutation of the operand verdicts gives a verdict of the same class, and
    a permit carries the same obligations. *)
Theorem combine_order_independent (vs ws : list Verdict) (H : Permutation vs ws) :
  same_class (combine vs) (combine ws).
Proof.
  pose proof (existsb_perm is_deny _ _ H) as Hd.
  pose proof (existsb_perm is_indeterminate _ _ H) as Hi.
  pose proof (existsb_perm is_permit _ _ H) as Hp.
  pose proof (compatible_perm _ _ H) as Hc.
  pose proof (compatible_perm _ _ (Permutation_sym H)) as Hc'.
  pose proof (combine_combined vs) as Hv. pose proof (combine_combined ws) as Hw.
  destruct Hv, Hw; simpl; try done; try congruence; try tauto;
    repeat match goal with Hr : _ ∈ omap reason_of _ |- _ => apply deny_in in Hr end;
    try congruence.
  apply NoDup_Permutation; [done..|]. intros o.
  match goal with
  | H1 : forall o, o ∈ os <-> _, H2 : forall o, o ∈ os0 <-> _ |- _ => rewrite H1, H2
  end.
  by apply all_obligations_perm.
Qed.

Lemma combine_order_independent_witness :
  Permutation [Deny "x"; Permit []] [Permit []; Deny "x"] /\
  same_class (combine [Deny "x"; Permit []]) (combine [Permit []; Deny "x"]).
Proof.
  split; [apply perm_swap|].
  apply (combine_order_independent [Deny "x"; Permit []] [Permit []; Deny "x"]), perm_swap.
Defined.

(** a final permit is sound against every operand: each operand returned
    (none panicked) and either permitted or abstained, at least one permitted,
    and the obligations handed to the enforcement point are exactly the union
    of the permitting operands' obligations. *)
Theorem compose_permit_sound (ops : list Authorizer) (req : Request) (os : list Obligation)
    (H : finalize (compose_decide ops req) = DPermit os) :
  Forall (fun a => exists d, az_decide_cited a req = Returned d /\
            (is_permit (d_verdict d) = true \/ exists n, d_verdict d = NotApplicable n)) ops /\
  (exists a d, a ∈ ops /\ az_decide_cited a req = Returned d /\ is_permit (d_verdict d) = true) /\
  (forall o, o ∈ os <->
     exists a d, a ∈ ops /\ az_decide_cited a req = Returned d /\ o ∈ obligations_of (d_verdict d)).
Proof.
  rewrite finalize_permit, compose_decide_combine in H.
  apply combine_no_deny in H as (Hd & Hi & Hp & _ & _ & Hos).
  rewrite existsb_false in Hd, Hi.
  assert (forall a, a ∈ ops -> guarded_decide a req ∈ map (fun a => guarded_decide a req) ops) as Hin.
  { intros a Ha. by apply (elem_of_map_2 (fun a => guarded_decide a req)). }
  assert (forall a, a ∈ ops -> exists d, az_decide_cited a req = Returned d /\
            guarded_decide a req = d_verdict d) as Hret.
  { intros a Ha. destruct (guarded_decide_spec a req) as [E|(d & ? & ?)]; [|by eauto].
    specialize (Hi _ (Hin a Ha)). by rewrite E in Hi. }
  split_and!.
  - apply Forall_forall. intros a Ha. destruct (Hret a Ha) as (d & Hd' & Hv).
    exists d. split; [done|]. specialize (Hi _ (Hin a Ha)). specialize (Hd _ (Hin a Ha)).
    rewrite Hv in Hi, Hd. destruct (d_verdict d); simpl in *; try done; [by left|right; eauto].
  - apply existsb_true in Hp as (v & (a & -> & Ha)%elem_of_map & Hp).
    destruct (Hret a Ha) as (d & Hd' & Hv). exists a, d. by rewrite <-Hv.
  - intros o. rewrite Hos, all_obligations_elem. split.
    + intros (v & (a & -> & Ha)%elem_of_map & Ho).
      destruct (Hret a Ha) as (d & Hd' & Hv). exists a, d. by rewrite <-Hv.
    + intros (a & d & Ha & Hd' & Ho). exists (guarded_decide a req). split; [by apply Hin|].
      destruct (Hret a Ha) as (d2 & Hd2 & ->). congruence.
Qed.

(** Concrete operands for the witnesses. *)
Definition const_authorizer (d : Decided) : Authorizer :=
  mkAuthorizer (fun _ => Returned d) (fun reqs => Returned (map (fun _ => d) reqs))
    default_subjects default_backend_name.
Definition empty_request : Request := mkRequest ∅ ∅ "liveness.ping" ∅.
Definition permit_authorizer : Authorizer :=
  const_authorizer (mkDecided (Permit [mkObligation "audit" ∅]) (Some "admin") None).
Definition absent_authorizer : Authorizer :=
  const_authorizer (mkDecided (NotApplicable None) None None).

Lemma compose_permit_sound_witness :
  exists os, os <> [] /\
    forall o, o ∈ os -> exists a d, a ∈ [permit_authorizer; absent_authorizer] /\
      az_decide_cited a empty_request = Returned d /\ o ∈ obligations_of (d_verdict d).
Proof.
  exists [mkObligation "audit" ∅]. split; [done|]. intros o.
  apply (compose_permit_sound [permit_authorizer; absent_authorizer] empty_request
           [mkObligation "audit" ∅]).
  vm_compute. reflexivity.
Defined.

(** an operand that never permits can only restrict: removing it from any
    position of a composition that permits leaves a permit with the same
    obligations, so it never turns a refusal into a permit. *)
Theorem compose_restrictor (ops1 ops2 : list Authorizer) (a : Authorizer) (req : Request)
    (os : list Obligation) (Hn : never_permits a)
    (H : finalize (compose_decide (ops1 ++ a :: ops2) req) = DPermit os) :
  finalize (compose_decide (ops1 ++ ops2) req) = DPermit os.
Proof.
  rewrite finalize_permit, compose_decide_combine in *.
  rewrite map_app, map_cons in H. rewrite map_app.
  by eapply combine_skip; [apply Hn|].
Qed.

Lemma compose_restrictor_witness :
  never_permits absent_authorizer /\
  finalize (compose_decide ([permit_authorizer] ++ []) empty_request)
  = DPermit [mkObligation "audit" ∅].
Proof.
  assert (never_permits absent_authorizer) as Hn by (intros req; reflexivity).
  split; [exact Hn|].
  apply (compose_restrictor [permit_authorizer] [] absent_authorizer); [exact Hn|].
  vm_compute. reflexivity.
Defined.

(** the citation of a composed decision comes from an operand that decided
    the composed verdict itself, and the reported role is the first one an
    operand reports, so neither is taken from an operand that was overruled. *)
Theorem compose_citation_sound (ops : list Authorizer) (req : Request) :
  (forall c, d_rule (compose_decide_cited ops req) = Some c ->
     exists a, a ∈ ops /\ d_rule (guarded_decide_cited a req) = Some c /\
       d_verdict (guarded_decide_cited a req) = d_verdict (compose_decide_cited ops req)) /\
  d_role (compose_decide_cited ops req) =
    find_map (fun a => d_role (guarded_decide_cited a req)) ops.
Proof.
  unfold compose_decide_cited, fold_cited. simpl. split.
  - intros c H. apply bind_Some in H as (d & Hf & Hr).
    apply find_some_iff in Hf as [Hin Hc].
    apply andb_true_iff in Hc as [_ Hv%bool_decide_eq_true].
    apply elem_of_map in Hin as (a & -> & Ha). eauto.
  - induction ops as [|a ops IH]; simpl; [done|]. by destruct (d_role _).
Qed.

(** batch decisions never panic on an index and answer once per request,
    and where every operand answers its batches pointwise the batch is the
    single composed decision of each request, in order. *)
Theorem compose_all_total (ops : list Authorizer) (reqs : list Request) :
  (exists l, compose_decide_cited_all ops reqs = Some l /\ length l = length reqs) /\
  (Forall pointwise ops ->
   compose_decide_cited_all ops reqs = Some (map (compose_decide_cited ops) reqs)).
Proof.
  unfold compose_decide_cited_all. split.
  - match goal with |- context [mapM ?f (seq _ _)] =>
      assert (is_Some (mapM f (seq 0 (length reqs)))) as [l Hl] end.
    { apply mapM_is_Some_2, Forall_forall. intros i Hi%elem_of_seq. simpl.
      destruct (mapM_lookup_total (map (fun a => guarded_decide_cited_all a reqs) ops) i)
        as [xs ->]; [|by eexists].
      apply Forall_forall. intros l (a & -> & _)%elem_of_map.
      rewrite guarded_decide_cited_all_length. lia. }
    exists l. split; [done|]. apply length_mapM in Hl. rewrite length_seq in Hl. done.
  - apply compose_all_pointwise.
Qed.

(** a backend name that reaches the status reply is never empty, is at most
    129 bytes, and is drawn from the identifier charset; the truncation mark
    [~] appears only at the end of a name that was cut. *)
Theorem sanitize_backend_name_bounded (raw : string) :
  let name := sanitize_backend_name raw in
  name <> "" /\ String.length name <= S BACKEND_NAME_MAX /\
  (all_bytes name_char name = true \/
   exists kept, name = kept +:+ "~" /\ all_bytes name_char kept = true /\
     String.length kept = BACKEND_NAME_MAX).
Proof.
  simpl. unfold sanitize_backend_name.
  pose proof (filter_bytes_all name_char raw) as Hk.
  set (kept := filter_bytes name_char raw) in *.
  destruct (Nat.ltb_spec BACKEND_NAME_MAX (String.length kept)) as [Hlt|Hge].
  - assert (String.length (take_bytes BACKEND_NAME_MAX kept) = BACKEND_NAME_MAX) as Hlen
      by (apply take_bytes_length; lia).
    assert (is_empty (take_bytes BACKEND_NAME_MAX kept +:+ "~") = false) as ->
      by (by destruct (take_bytes BACKEND_NAME_MAX kept)).
    split_and!.
    + by destruct (take_bytes BACKEND_NAME_MAX kept).
    + rewrite str_length_app, Hlen. unfold BACKEND_NAME_MAX. simpl. lia.
    + right. exists (take_bytes BACKEND_NAME_MAX kept). split_and!; [done| |done].
      by apply all_bytes_take.
  - destruct kept as [|c s]; simpl; (split_and!; [done| |by left]);
      unfold BACKEND_NAME_MAX in *; simpl in *; lia.
Qed.

(** binding strings that reach the operator's terminal hold no C0, C1 or
    DEL character, whatever UTF-8 text the backend supplied. *)
Theorem guarded_subjects_clean (a : Authorizer) (bs : list SubjectBinding)
    (Hutf8 : forall l b, az_subjects a = Returned (Some l) -> b ∈ l ->
       utf8_valid (sb_role b) = true /\ Forall (fun m => utf8_valid m = true) (sb_members b))
    (H : guarded_subjects a = Some bs) :
  Forall (fun b => has_control (sb_role b) = false /\
                   Forall (fun m => has_control m = false) (sb_members b)) bs.
Proof.
  unfold guarded_subjects in H. destruct (az_subjects a) as [[l|]|] eqn:E; simpl in H; try done.
  inv H. apply Forall_fmap, Forall_forall. intros b Hb. simpl.
  destruct (Hutf8 l b eq_refl Hb) as [Hr Hm]. split.
  - by apply strip_control_clean, utf8_lead_followed.
  - apply Forall_fmap. eapply Forall_impl; [exact Hm|]. intros m Hm'. simpl.
    by apply strip_control_clean, utf8_lead_followed.
Qed.

Definition noisy_authorizer : Authorizer :=
  mkAuthorizer (fun _ => Panicked) (fun _ => Panicked)
    (Returned (Some [mkBinding ("ad" +:+ bytes_of [27; 194; 133] +:+ "min") ["uid:7"]]))
    Panicked.

Lemma guarded_subjects_clean_witness :
  guarded_subjects noisy_authorizer = Some [mkBinding "admin" ["uid:7"]] /\
  Forall (fun b => has_control (sb_role b) = false /\
                   Forall (fun m => has_control m = false) (sb_members b))
    [mkBinding "admin" ["uid:7"]].
Proof.
  split; [reflexivity|].
  apply (guarded_subjects_clean noisy_authorizer); [|reflexivity].
  intros l b Hl Hb. injection Hl as <-. apply list_elem_of_singleton in Hb as ->.
  split; [reflexivity|]. repeat constructor.
Defined.

(** a composed enumeration is disclosed exactly when no operand panicked
    and one operand alone enumerates; the disclosed list is that operand's. *)
Theorem compose_subjects_iff (ops : list Authorizer) (l : list SubjectBinding) :
  compose_subjects ops = Some l <->
  Forall (fun a => az_subjects a <> Panicked) ops /\
  omap (fun a => match az_subjects a with Returned o => o | Panicked => None end) ops = [l].
Proof.
  unfold compose_subjects. rewrite subjects_loop_spec. simpl.
  destruct (forallb _ ops) eqn:E.
  - rewrite forallb_true in E. split.
    + intros H. split.
      * apply Forall_forall. intros a Ha. specialize (E a Ha). by destruct (az_subjects a).
      * by destruct (omap _ ops) as [|x [|]]; inv H.
    + intros [_ ->]. done.
  - split; [done|]. intros [Hp _]. apply not_true_iff_false in E. destruct E.
    apply forallb_true. intros a Ha. rewrite Forall_forall in Hp. specialize (Hp a Ha).
    by destruct (az_subjects a).
Qed.
