(* ===== verification/Config.v ===== *)
(** * Configuration values and errors: [crates/maknae-config]

    The owned YAML value tree ([value.rs]), the error type ([error.rs]) and the
    closed-vocabulary gate every section parser shares ([lib.rs]). The YAML
    scanner is a third-party crate: parsers below start from a [Value]. *)
From stdpp Require Import base list strings gmap.
From Stdlib Require Import ZArith Lia Ascii.
From S2P Require Import Prelude RustStr.
Open Scope nat_scope.

(** A float is carried as its 64 bits; no parser here reads one. *)
Inductive Value :=
| VNull
| VBool (b : bool)
| VInt (n : Z)
| VFloat (bits : Z)
| VStr (s : string)
| VSeq (items : list Value)
| VMap (entries : list (string * Value)).

Inductive ConfigError :=
| CEIo (m : string)
| CENotFound (path : string)
| CEParse (message : string) (line col : nat)
| CEDuplicateKey (key : string) (line col : nat)
| CEInsecurePermissions (path : string) (mode : Z)
| CESymlink (path : string)
| CEPermissionsUnsupported
| CENotAMap (source_path : string)
| CEUnknownKey (section key : string)
| CEUnknownSection (section source_path : string)
| CEDuplicateSection (section : string)
| CEMissingSection (section : string)
| CECoreOverride
| CEReservedSection (section : string)
| CEDuplicateSpec (section : string)
| CEInvalidCeiling (reason : string)
| CEUnknownClassificationPolicy (name : string)
| CEInvalidProvider (m : string)
| CEInvalidEgressBounds (m : string)
| CEInvalidEgress (m : string)
| CEProviderPlaintextKey (field : string)
| CESourceNotRootOwned (path : string)
| CEInvalidTransport (m : string)
| CEInvalidAudit (m : string)
| CEInvalidPrincipal (m : string)
| CEInvalidDeployment (m : string)
| CEUserProviders (m : string)
| CEBaselineValue (m : string).

Definition as_map (v : Value) : option (list (string * Value)) :=
  match v with VMap m => Some m | _ => None end.
Definition as_bool (v : Value) : option bool :=
  match v with VBool b => Some b | _ => None end.
Definition as_str (v : Value) : option string :=
  match v with VStr s => Some s | _ => None end.
Definition as_str_vec (v : Value) : option (list string) :=
  match v with VSeq items => mapM as_str items | _ => None end.

(** The first entry under [key], as every section parser's [get] finds it. *)
Definition get (m : list (string * Value)) (key : string) : option Value :=
  snd <$> List.find (fun kv => String.eqb (fst kv) key) m.

Fixpoint reject_unknown_keys (section : string) (map : list (string * Value))
    (allowed : list string) : result unit ConfigError :=
  match map with
  | [] => Ok tt
  | (key, _) :: map' =>
      if existsb (String.eqb key) allowed then reject_unknown_keys section map' allowed
      else Err (CEUnknownKey section key)
  end.

(** ** Canonical JSON ([value.rs]) *)

Definition quote : string := String (ascii_of_nat 34) "".
Definition hex_digit (n : nat) : ascii :=
  ascii_of_nat (if n <? 10 then 48 + n else 87 + n).

Definition json_char (c : ascii) : string :=
  let n := nat_of_ascii c in
  if n =? 34 then "\" +:+ quote
  else if n =? 92 then "\\"
  else if n =? 10 then "\n"
  else if n =? 13 then "\r"
  else if n =? 9 then "\t"
  else if n <? 32 then "\u00" +:+ String (hex_digit (n / 16)) (String (hex_digit (n mod 16)) "")
  else String c "".

Fixpoint json_chars (s : string) : string :=
  match s with EmptyString => "" | String c s' => json_char c +:+ json_chars s' end.
Definition write_json_string (s : string) : string := quote +:+ json_chars s +:+ quote.

Definition int_to_string (n : Z) : string := if (n <? 0)%Z then "-" +:+ dec (- n) else dec n.

(** The text of a float is the standard library's [f64::to_string]. *)
Section Canonical.
Context (f64_to_string : Z -> string).

Definition write_float (bits : Z) : string :=
  let text := f64_to_string bits in
  let int_shaped :=
    negb (contains_char "." text || contains_char "e" text || contains_char "E" text) in
  if int_shaped then text +:+ ".0" else text.

(** Members are written, then ordered by key; the sort is on keys alone. *)
Fixpoint canonical_json (v : Value) : string :=
  match v with
  | VNull => "null"
  | VBool b => if b then "true" else "false"
  | VInt n => int_to_string n
  | VFloat f => write_float f
  | VStr s => write_json_string s
  | VSeq items => "[" +:+ str_join "," (map canonical_json items) +:+ "]"
  | VMap entries =>
      let members := map (fun '(k, x) => (k, write_json_string k +:+ ":" +:+ canonical_json x))
                       entries in
      "{" +:+ str_join "," (map snd (sort_by (fun a b => String.leb (fst a) (fst b)) members))
      +:+ "}"
  end.
End Canonical.

(** ** Account names ([bindings.rs]) *)

Inductive NameFault := NFEmpty | NFColon | NFComma | NFControl.

Definition name_fault (s : string) : option NameFault :=
  if is_empty s then Some NFEmpty
  else if contains_char ":" s then Some NFColon
  else if contains_char "," s then Some NFComma
  else if has_control s then Some NFControl
  else None.

(** ** Provider and model names ([providers.rs]) *)

Definition MAX_PROVIDER_NAME_BYTES : nat := 32.
Definition MAX_MODEL_BYTES : nat := 128.

Definition safe_token_byte (b : ascii) : bool :=
  is_ascii_alphanumeric b || Ascii.eqb b "." || Ascii.eqb b "_" || Ascii.eqb b "-".
Definition provider_name_is_acceptable (s : string) : bool :=
  negb (is_empty s) && (String.length s <=? MAX_PROVIDER_NAME_BYTES) && all_bytes safe_token_byte s.
Definition model_is_acceptable (s : string) : bool :=
  negb (is_empty s) && (String.length s <=? MAX_MODEL_BYTES) && all_bytes is_ascii_graphic s.

(** ** Lemmas *)

Lemma get_Some m key v : get m key = Some v -> (key, v) ∈ m.
Proof.
  unfold get. intros ([k v'] & H & ->)%fmap_Some. apply find_some_iff in H as [H E].
  simpl in E. apply String.eqb_eq in E as ->. done.
Qed.

Lemma reject_unknown_keys_Ok section m allowed :
  reject_unknown_keys section m allowed = Ok tt <->
  forall k v, (k, v) ∈ m -> k ∈ allowed.
Proof.
  induction m as [|[k v] m IH]; simpl.
  - split; [intros _ k v Hx; inversion Hx|done].
  - destruct (existsb (String.eqb k) allowed) eqn:E.
    + apply existsb_true in E as (x & Hx & <-%String.eqb_eq). rewrite IH. split.
      * intros H k' v' [[= -> ->]|Hin]%elem_of_cons; eauto.
      * intros H k' v' Hin. eapply H. by right.
    + split; [done|]. intros H. rewrite existsb_false in E.
      specialize (E k (H k v ltac:(left))). by rewrite String.eqb_refl in E.
Qed.

Example canonical_ex :
  canonical_json (fun _ => "0")
    (VMap [("b", VInt (-2)); ("a", VSeq [VBool true; VNull])]) =
  "{" +:+ quote +:+ "a" +:+ quote +:+ ":[true,null]," +:+ quote +:+ "b" +:+ quote +:+ ":-2}".
Proof. reflexivity. Qed.
