(* ===== verification/Classification.v ===== *)
(** * Classification systems

    The seam contract ([maknae-security/src/classification.rs]), the US system
    ([maknae-config/src/policy.rs]), the Australian PSPF system
    ([maknae-classification-aus]), and the kernel's compiled-in registry
    ([maknae-kernel/src/classification.rs]). [PolicyLaws] is what a system
    promises to the ceiling operand; both systems discharge it. *)
From stdpp Require Import base list strings gmap.
From Stdlib Require Import ZArith Lia Ascii.
From S2P Require Import Prelude RustStr Config.
Open Scope nat_scope.

(** ** The contract *)

Record Level := mkLevel { l_policy : string; l_name : string; l_rank : nat }.

#[export] Instance Level_eq_dec : EqDecision Level.
Proof. solve_decision. Defined.

Definition first_token (marking : string) : string :=
  trim (default "" (head (split_str "//" marking))).

Record ClassificationPolicy := mkPolicy {
  cp_name : string;
  cp_level_of : string -> option Level;
  cp_unmarked : Level;
  cp_dominates : Level -> Level -> option bool;
  cp_non_public : string -> bool }.

(** What a system promises: its levels carry its name, unmarked content is the
    lowest of them, markings resolve to them, and [dominates] compares ranks of
    two of its levels and answers nothing else. *)
Class PolicyLaws (p : ClassificationPolicy) (is_level : Level -> Prop) := {
  level_tag l : is_level l -> l_policy l = cp_name p;
  unmarked_level : is_level (cp_unmarked p);
  unmarked_lowest : l_rank (cp_unmarked p) = 0;
  level_of_level m l : cp_level_of p m = Some l -> is_level l;
  dominates_spec c x b :
    cp_dominates p c x = Some b <->
    is_level c /\ is_level x /\ b = (l_rank x <=? l_rank c) }.

(** ** Ladders: the part both systems write the same way *)

Section Ladder.
Context (name : string) (levels : list string).

Definition ladder_is_level (l : Level) : bool :=
  String.eqb (l_policy l) name &&
  match levels !! l_rank l with
  | Some n => eq_ignore_ascii_case n (l_name l)
  | None => false
  end.

(** [LEVELS[rank]]; every caller passes an index of the ladder. *)
Definition ladder_level (rank : nat) : Level :=
  mkLevel name (default "" (levels !! rank)) rank.

Definition ladder_dominates (ceiling content : Level) : option bool :=
  if negb (ladder_is_level ceiling) || negb (ladder_is_level content) then None
  else Some (l_rank content <=? l_rank ceiling).

Definition ladder_position (token : string) : option nat :=
  position (fun l => eq_ignore_ascii_case l token) levels.
End Ladder.

(** ** The US system *)

Module US.
Definition NAME : string := "US".
Definition LEVELS : list string := ["UNCLASSIFIED"; "CONFIDENTIAL"; "SECRET"; "TOP SECRET"].

Definition is_level : Level -> bool := ladder_is_level NAME LEVELS.
Definition level : nat -> Level := ladder_level NAME LEVELS.

Definition level_of (marking : string) : option Level :=
  let token := first_token marking in
  if eq_ignore_ascii_case token "CUI" then Some (level 0)
  else level <$> ladder_position LEVELS token.

Definition unmarked : Level := level 0.
Definition dominates : Level -> Level -> option bool := ladder_dominates NAME LEVELS.

Definition caveat_non_public (seg : string) : bool :=
  let s := trim seg in String.eqb s "FOUO" || String.eqb s "SBU" || String.eqb s "CUI".
Definition statement_non_public (rest : string) : bool :=
  match rest with EmptyString => false | String c _ => byte_in 66 70 c end.

Definition non_public (marking : string) : bool :=
  if eq_ignore_ascii_case (first_token marking) "CUI" then true
  else
    let upper := to_ascii_uppercase marking in
    if existsb caveat_non_public (drop 1 (split_str "//" upper)) then true
    else existsb statement_non_public (drop 1 (split_str "DISTRIBUTION STATEMENT " upper)).

Definition BasicPolicy : ClassificationPolicy :=
  mkPolicy NAME level_of unmarked dominates non_public.
End US.

(** ** The Australian PSPF system *)

Module AUS.
Definition NAME : string := "AUS".
Definition LEVELS : list string :=
  ["UNOFFICIAL"; "OFFICIAL"; "OFFICIAL: SENSITIVE"; "PROTECTED"; "SECRET"; "TOP SECRET"].

Definition is_level : Level -> bool := ladder_is_level NAME LEVELS.
Definition level : nat -> Level := ladder_level NAME LEVELS.

Definition level_of (marking : string) : option Level :=
  let token := first_token marking in level <$> ladder_position LEVELS token.
Definition unmarked : Level := level 0.
Definition dominates : Level -> Level -> option bool := ladder_dominates NAME LEVELS.
Definition non_public (marking : string) : bool :=
  eq_ignore_ascii_case (first_token marking) "OFFICIAL: SENSITIVE".

Definition AusPspf : ClassificationPolicy :=
  mkPolicy NAME level_of unmarked dominates non_public.
End AUS.

(** ** The kernel's registry *)

Definition SYSTEMS : list ClassificationPolicy := [US.BasicPolicy; AUS.AusPspf].

Definition select (name : string) : option ClassificationPolicy :=
  let wanted := trim name in
  List.find (fun p => eq_ignore_ascii_case (cp_name p) wanted) SYSTEMS.

Definition names : list string := map cp_name SYSTEMS.

Definition recognizing (marking : string) : list string :=
  let token := first_token marking in
  map cp_name (List.filter (fun p => is_some (cp_level_of p token)) SYSTEMS).

(** ** Ladders satisfy the laws *)

Lemma eq_ignore_ascii_case_refl s : eq_ignore_ascii_case s s = true.
Proof. apply String.eqb_refl. Qed.

Lemma ladder_level_ok name levels rank :
  rank < length levels -> ladder_is_level name levels (ladder_level name levels rank) = true.
Proof.
  intros [n Hn]%lookup_lt_is_Some_2. unfold ladder_is_level, ladder_level. simpl.
  rewrite String.eqb_refl, Hn. simpl. apply eq_ignore_ascii_case_refl.
Qed.

Lemma ladder_dominates_spec name levels c x b :
  ladder_dominates name levels c x = Some b <->
  ladder_is_level name levels c = true /\ ladder_is_level name levels x = true /\
  b = (l_rank x <=? l_rank c).
Proof.
  unfold ladder_dominates.
  destruct (ladder_is_level name levels c), (ladder_is_level name levels x); simpl;
    split; try done; try (intros (? & ? & ?); done).
  - by intros [= <-].
  - by intros (_ & _ & ->).
Qed.

Lemma ladder_tag name levels l : ladder_is_level name levels l = true -> l_policy l = name.
Proof. unfold ladder_is_level. by intros [H%String.eqb_eq _]%andb_true_iff. Qed.

#[export] Instance us_laws : PolicyLaws US.BasicPolicy (fun l => US.is_level l = true).
Proof.
  split; simpl.
  - apply ladder_tag.
  - reflexivity.
  - reflexivity.
  - intros m l. unfold US.level_of. destruct (eq_ignore_ascii_case (first_token m) "CUI").
    + by intros [= <-].
    + intros (i & Hi%position_lt & ->)%fmap_Some. by apply ladder_level_ok.
  - intros c x b. apply ladder_dominates_spec.
Qed.

#[export] Instance aus_laws : PolicyLaws AUS.AusPspf (fun l => AUS.is_level l = true).
Proof.
  split; simpl.
  - apply ladder_tag.
  - reflexivity.
  - reflexivity.
  - intros m l. unfold AUS.level_of.
    intros (i & Hi%position_lt & ->)%fmap_Some. by apply ladder_level_ok.
  - intros c x b. apply ladder_dominates_spec.
Qed.

(** The levels of a registered system, by name. *)
Definition system_level (p : ClassificationPolicy) (l : Level) : Prop :=
  (p = US.BasicPolicy /\ US.is_level l = true) \/ (p = AUS.AusPspf /\ AUS.is_level l = true).

Lemma us_not_aus : US.BasicPolicy <> AUS.AusPspf.
Proof. intros H%(f_equal cp_name). discriminate H. Qed.

Lemma registered_laws p : p ∈ SYSTEMS -> PolicyLaws p (system_level p).
Proof.
  unfold SYSTEMS. rewrite !elem_of_cons. intros [->|[->|H]]; [..|inversion H].
  - assert (forall l, system_level US.BasicPolicy l <-> US.is_level l = true) as Hs.
    { intros l. unfold system_level. pose proof us_not_aus. naive_solver. }
    split.
    + intros l Hl%Hs. by apply (level_tag (PolicyLaws := us_laws)).
    + apply Hs, (unmarked_level (PolicyLaws := us_laws)).
    + apply (unmarked_lowest (PolicyLaws := us_laws)).
    + intros m l H. apply Hs. by apply (level_of_level (PolicyLaws := us_laws) m).
    + intros c x b. rewrite !Hs. apply (dominates_spec (PolicyLaws := us_laws)).
  - assert (forall l, system_level AUS.AusPspf l <-> AUS.is_level l = true) as Hs.
    { intros l. unfold system_level. pose proof us_not_aus. naive_solver. }
    split.
    + intros l Hl%Hs. by apply (level_tag (PolicyLaws := aus_laws)).
    + apply Hs, (unmarked_level (PolicyLaws := aus_laws)).
    + apply (unmarked_lowest (PolicyLaws := aus_laws)).
    + intros m l H. apply Hs. by apply (level_of_level (PolicyLaws := aus_laws) m).
    + intros c x b. rewrite !Hs. apply (dominates_spec (PolicyLaws := aus_laws)).
Qed.

Lemma select_registered name p : select name = Some p -> p ∈ SYSTEMS.
Proof. by intros [? _]%find_some_iff. Qed.

Example level_of_ex1 : US.level_of "secret//NOFORN" = Some (mkLevel "US" "SECRET" 2).
Proof. reflexivity. Qed.
Example level_of_ex2 : AUS.level_of "OFFICIAL:Sensitive" = None.
Proof. reflexivity. Qed.
Example recognizing_ex : recognizing "PROTECTED//AUSTEO" = ["AUS"].
Proof. reflexivity. Qed.
Example non_public_ex : US.non_public "UNCLASSIFIED//Distribution Statement D" = true.
Proof. reflexivity. Qed.

(** two compiled-in systems never compare across: a level of one system
    against a level of another is no answer in either direction, even where
    both spell the level the same. *)
Theorem cross_system_unranked (p q : ClassificationPolicy) (lp lq : Level)
    (Hp : p ∈ SYSTEMS) (Hq : q ∈ SYSTEMS) (Hpq : cp_name p <> cp_name q)
    (Hlp : system_level p lp) (Hlq : system_level q lq) :
  cp_dominates p lp lq = None /\ cp_dominates p lq lp = None.
Proof.
  pose proof (registered_laws p Hp) as Lp. pose proof (registered_laws q Hq) as Lq.
  assert (~ system_level p lq) as Hno.
  { intros H%(level_tag (PolicyLaws := Lp)).
    pose proof (level_tag (PolicyLaws := Lq) _ Hlq) as H'. congruence. }
  split.
  - destruct (cp_dominates p lp lq) eqn:E; [|done].
    apply (dominates_spec (PolicyLaws := Lp)) in E. tauto.
  - destruct (cp_dominates p lq lp) eqn:E; [|done].
    apply (dominates_spec (PolicyLaws := Lp)) in E. tauto.
Qed.

Lemma cross_system_unranked_witness :
  cp_dominates US.BasicPolicy (US.level 2) (AUS.level 4) = None.
Proof.
  apply (cross_system_unranked US.BasicPolicy AUS.AusPspf (US.level 2) (AUS.level 4)).
  - left.
  - right. left.
  - discriminate.
  - left. split; reflexivity.
  - right. split; reflexivity.
Defined.
