(* ===== verification/Ceiling.v ===== *)
(** * The classification ceiling

    The [core.handling] declaration and its parser ([maknae-config/src/ceiling.rs]),
    the declaration step of boot ([maknae-kernel/src/boot.rs]) and the per-request
    operand ([maknae-kernel/src/ceiling_authz.rs]). *)
From stdpp Require Import base list strings gmap.
From Stdlib Require Import ZArith Lia Ascii.
From S2P Require Import Prelude RustStr Config Classification Seam.
Open Scope nat_scope.

(** ** The declaration *)

Record Ceiling := mkCeiling {
  c_classification : Level;
  c_sci : bool;
  c_releasable_to : list string;
  c_cui_permitted : bool;
  c_cui_categories_permitted : list string;
  c_dissemination_permitted : list string;
  c_accreditation_ref : option string }.

#[export] Instance Ceiling_eq_dec : EqDecision Ceiling.
Proof. solve_decision. Defined.

Inductive IngestPosture := Public | Gated.

Definition baseline_for (policy : ClassificationPolicy) : Ceiling :=
  mkCeiling (cp_unmarked policy) false [] false [] ["Distribution Statement A"] None.

Definition ingest_posture (c : Ceiling) (policy : ClassificationPolicy) : IngestPosture :=
  if bool_decide (c = baseline_for policy) then Public else Gated.

Definition ceiling_err (reason : string) : ConfigError := CEInvalidCeiling reason.

Definition field (m : list (string * Value)) (key : string) : result Value ConfigError :=
  ok_or (get m key) (ceiling_err ("handling.ceiling: missing '" +:+ key +:+ "'")).

Definition policy_name_from_core (core : option Value) : result string ConfigError :=
  match core ≫= as_map with
  | None => Ok US.NAME
  | Some core_map =>
      match get core_map "handling" ≫= as_map with
      | None => Ok US.NAME
      | Some handling =>
          let bad := Err (ceiling_err
            "handling.policy must be a non-empty string naming a classification system") in
          match get handling "policy" with
          | None => Ok US.NAME
          | Some (VStr s) =>
              if is_empty (trim s) then bad else Ok (to_ascii_uppercase (trim s))
          | Some _ => bad
          end
      end
  end.

Definition CEILING_KEYS : list string :=
  ["classification"; "sci"; "releasable_to"; "cui_permitted"; "cui_categories_permitted";
   "dissemination_permitted"].

(** A ceiling names a level: no caveat, no alias. *)
Definition ceiling_level (policy : ClassificationPolicy) (raw : string) : option Level :=
  match cp_level_of policy raw with
  | Some l =>
      if String.eqb (first_token raw) (trim raw) && eq_ignore_ascii_case (l_name l) (trim raw)
      then Some l else None
  | None => None
  end.

Definition parse_ceiling (ceiling : Value) (accreditation_ref : option string)
    (policy : ClassificationPolicy) : result Ceiling ConfigError :=
  let? m := ok_or (as_map ceiling) (ceiling_err "handling.ceiling is not a map") in
  let? _ := reject_unknown_keys "core.handling.ceiling" m CEILING_KEYS in
  let? raw_v := field m "classification" in
  let? raw := ok_or (as_str raw_v) (ceiling_err "classification must be a string") in
  let? classification :=
    ok_or (ceiling_level policy raw)
      (ceiling_err ("classification: '" +:+ raw +:+ "' is not a level of the "
                    +:+ cp_name policy +:+ " system")) in
  let? sci_v := field m "sci" in
  let? sci := ok_or (as_bool sci_v) (ceiling_err "sci must be a boolean") in
  let? cui_v := field m "cui_permitted" in
  let? cui_permitted := ok_or (as_bool cui_v) (ceiling_err "cui_permitted must be a boolean") in
  let? rel_v := field m "releasable_to" in
  let? releasable_to :=
    ok_or (as_str_vec rel_v) (ceiling_err "releasable_to must be an array of strings") in
  let? cat_v := field m "cui_categories_permitted" in
  let? cui_categories_permitted :=
    ok_or (as_str_vec cat_v)
      (ceiling_err "cui_categories_permitted must be an array of strings") in
  let? dis_v := field m "dissemination_permitted" in
  let? dissemination_permitted :=
    ok_or (as_str_vec dis_v)
      (ceiling_err "dissemination_permitted must be an array of strings") in
  Ok (mkCeiling classification sci releasable_to cui_permitted cui_categories_permitted
        dissemination_permitted accreditation_ref).

Definition parse_handling (handling : Value) (policy : ClassificationPolicy)
  : result Ceiling ConfigError :=
  let? hmap := ok_or (as_map handling) (ceiling_err "handling is not a map") in
  let? _ := reject_unknown_keys "core.handling" hmap ["ceiling"; "accreditation_ref"; "policy"] in
  let? accreditation_ref :=
    match get hmap "accreditation_ref" with
    | None => Err (ceiling_err "handling: missing 'accreditation_ref'")
    | Some VNull => Ok None
    | Some (VStr s) => Ok (Some s)
    | Some _ => Err (ceiling_err "handling.accreditation_ref must be a string or null")
    end in
  let? ceiling := ok_or (get hmap "ceiling") (ceiling_err "handling: missing 'ceiling'") in
  parse_ceiling ceiling accreditation_ref policy.

Definition ceiling_from_core (core : option Value) (policy : ClassificationPolicy)
  : result Ceiling ConfigError :=
  match core ≫= as_map with
  | None => Ok (baseline_for policy)
  | Some core_map =>
      match get core_map "handling" with
      | None => Ok (baseline_for policy)
      | Some handling => parse_handling handling policy
      end
  end.

(** The [core] half of boot's [declared]: the key gate, the system, the ceiling. *)
Definition declared_handling (core : option Value)
  : result (Ceiling * ClassificationPolicy) ConfigError :=
  let? _ :=
    match core with
    | Some (VMap entries) =>
        reject_unknown_keys "core" entries
          ["deployment_id"; "schema_version"; "identity"; "handling"]
    | _ => Ok tt
    end in
  let? name := policy_name_from_core core in
  let? policy := ok_or (select name) (CEUnknownClassificationPolicy name) in
  let? ceiling := ceiling_from_core core policy in
  Ok (ceiling, policy).

(** ** The operand *)

Definition CONTROL_PLANE_CLASSES : list string := ["liveness"; "admin"; "kernel"].
Definition CEILING_BACKEND_NAME : string := "maknae-ceiling".

Definition is_control_plane (action : string) : bool :=
  existsb (in_class action) CONTROL_PLANE_CLASSES.

Inductive Label := Absent | Marking (s : string) | NotAString.

Definition label_of (req : Request) : Label :=
  match resource req !! RESOURCE_CLASSIFICATION with
  | None => Absent
  | Some (AStr s) => Marking s
  | Some _ => NotAString
  end.

Definition resolve_level (policy : ClassificationPolicy) (label : Label) : result Level string :=
  match label with
  | NotAString => Err "ceiling: classification attribute is not a string"
  | Absent => Ok (cp_unmarked policy)
  | Marking raw =>
      ok_or (cp_level_of policy raw)
        (let others := List.filter (fun n => negb (String.eqb n (cp_name policy)))
                         (recognizing raw) in
         match others with
         | [] => "ceiling: unrecognized classification marking"
         | _ => "ceiling: marking is a level of the " +:+ str_join "/" others
                +:+ " system, not " +:+ cp_name policy
         end)
  end.

Definition decide_ceiling (policy : ClassificationPolicy) (ceiling : Ceiling)
    (action : string) (label : Label) : Verdict :=
  if is_control_plane action then NotApplicable None
  else
    match resolve_level policy label with
    | Err reason => Deny reason
    | Ok level =>
        match cp_dominates policy (c_classification ceiling) level with
        | Some true => NotApplicable None
        | Some false =>
            Deny ("ceiling: content marked " +:+ l_name level
                  +:+ " exceeds the declared ceiling " +:+ l_name (c_classification ceiling))
        | None =>
            Deny ("ceiling: the declared ceiling is not a level of the "
                  +:+ cp_name policy +:+ " system")
        end
    end.

Definition ceiling_decide (policy : ClassificationPolicy) (ceiling : Ceiling) (req : Request)
  : outcome Verdict :=
  Returned (decide_ceiling policy ceiling (action req) (label_of req)).

Definition CeilingAuthorizer (ceiling : Ceiling) (policy : ClassificationPolicy) : Authorizer :=
  let cited := default_decide_cited (default_reporting_role (ceiling_decide policy ceiling)) in
  mkAuthorizer cited (decide_each_cited cited) default_subjects
    (Returned CEILING_BACKEND_NAME).

(** ** Lemmas *)

Lemma ceiling_guarded c p req :
  guarded_decide_cited (CeilingAuthorizer c p) req =
  mkDecided (decide_ceiling p c (action req) (label_of req)) None None.
Proof. reflexivity. Qed.

Lemma decide_ceiling_not_permit p c a l : is_permit (decide_ceiling p c a l) = false.
Proof. unfold decide_ceiling. repeat case_match; reflexivity. Qed.

Lemma ceiling_never_permits c p : never_permits (CeilingAuthorizer c p).
Proof. intros req. apply decide_ceiling_not_permit. Qed.

Lemma outcome_all_returned {A B} (f : A -> B) l :
  outcome_all (map (fun x => Returned (f x)) l) = Returned (map f l).
Proof. induction l as [|x l IH]; simpl; [done|]. by rewrite IH. Qed.

(** An operand that answers its batches with [decide_each_cited] and never
    panics is pointwise. *)
Lemma each_cited_pointwise (f : Request -> Decided) s n :
  pointwise (mkAuthorizer (fun r => Returned (f r))
               (decide_each_cited (fun r => Returned (f r))) s n).
Proof.
  intros reqs. unfold guarded_decide_cited_all, guarded_decide_cited, decide_each_cited. simpl.
  rewrite (outcome_all_returned f), length_map, Nat.eqb_refl. reflexivity.
Qed.

Lemma ceiling_level_of p raw l : ceiling_level p raw = Some l -> cp_level_of p raw = Some l.
Proof. unfold ceiling_level. repeat case_match; congruence. Qed.

Lemma parse_ceiling_level v a p c :
  parse_ceiling v a p = Ok c -> exists raw, cp_level_of p raw = Some (c_classification c).
Proof.
  unfold parse_ceiling. intros H. unbind H. inv H. simpl.
  match goal with
  | E : ok_or (ceiling_level _ ?raw) _ = Ok _ |- _ =>
      destruct (ceiling_level p raw) eqn:El; inv E; exists raw
  end. by apply ceiling_level_of.
Qed.

Lemma ceiling_from_core_level core p is_level `{PolicyLaws p is_level} c :
  ceiling_from_core core p = Ok c -> is_level (c_classification c).
Proof.
  unfold ceiling_from_core. intros Hc.
  destruct (core ≫= as_map) as [m|]; [destruct (get m "handling") as [h|]|];
    try (inv Hc; simpl; apply unmarked_level).
  unfold parse_handling in Hc. unbind Hc. apply parse_ceiling_level in Hc as [raw Hraw].
  by eapply level_of_level.
Qed.

Lemma declared_handling_Ok core c p :
  declared_handling core = Ok (c, p) ->
  p ∈ SYSTEMS /\ system_level p (c_classification c) /\ ceiling_from_core core p = Ok c.
Proof.
  unfold declared_handling. intros H. unbind H. inv H.
  match goal with E : ok_or (select ?n) _ = Ok p |- _ =>
    destruct (select n) eqn:Es; inv E; apply select_registered in Es as Hin end.
  split_and!; [done| |done].
  eapply ceiling_from_core_level; [by apply registered_laws|done].
Qed.

(** A decision on content under lawful ranking: the resolved level decides. *)
Lemma decide_ceiling_resolved p is_level `{PolicyLaws p is_level} c a label l :
  is_control_plane a = false -> is_level (c_classification c) ->
  resolve_level p label = Ok l ->
  decide_ceiling p c a label =
    if l_rank l <=? l_rank (c_classification c) then NotApplicable None
    else Deny ("ceiling: content marked " +:+ l_name l
               +:+ " exceeds the declared ceiling " +:+ l_name (c_classification c)).
Proof.
  intros Ha Hc Hl. unfold decide_ceiling. rewrite Ha, Hl.
  assert (is_level l) as Hlev.
  { unfold resolve_level in Hl. destruct label as [|m|]; [inv Hl; apply unmarked_level| |done].
    destruct (cp_level_of p m) eqn:E; [|done]. inv Hl. by eapply level_of_level. }
  assert (cp_dominates p (c_classification c) l
          = Some (l_rank l <=? l_rank (c_classification c))) as ->.
  { apply dominates_spec. auto. }
  by destruct (l_rank l <=? l_rank (c_classification c)).
Qed.

Lemma ceiling_flows_spec (p : ClassificationPolicy) (is_level : Level -> Prop)
    (L : PolicyLaws p is_level) (c : Ceiling) (a : string) (label : Label)
    (Hc : is_level (c_classification c)) (Ha : is_control_plane a = false) :
  let flows := label = Absent \/
    exists m l, label = Marking m /\ cp_level_of p m = Some l /\
      l_rank l <= l_rank (c_classification c) in
  (decide_ceiling p c a label = NotApplicable None <-> flows) /\
  (~ flows -> exists reason, decide_ceiling p c a label = Deny reason).
Proof.
  simpl. destruct (resolve_level p label) as [l|e] eqn:El.
  - rewrite (decide_ceiling_resolved p is_level c a label l Ha Hc El).
    assert ((label = Absent \/ exists m l, label = Marking m /\ cp_level_of p m = Some l /\
              l_rank l <= l_rank (c_classification c)) <->
            l_rank l <= l_rank (c_classification c)) as ->.
    { unfold resolve_level in El. destruct label as [|m|]; [| |done].
      - inv El. rewrite (unmarked_lowest (PolicyLaws := L)). split; [lia|by left].
      - destruct (cp_level_of p m) eqn:E; inv El. split; [|eauto 10].
        intros [?|(m' & l' & [= <-] & ? & ?)]; [done|]. by simplify_eq. }
    destruct (Nat.leb_spec (l_rank l) (l_rank (c_classification c))); split; try done.
    + split; [done|lia].
    + eauto.
  - unfold decide_ceiling. rewrite Ha, El. split; [|eauto].
    split; [done|]. unfold resolve_level in El.
    intros [->|(m & l & -> & E & _)]; [done|]. by rewrite E in El.
Qed.

(** ** Theorems *)

(** the per-request ceiling operand abstains on content exactly when the
    content is unmarked or its first token ranks at or below the declared
    ceiling, and denies otherwise: a marking above the ceiling, a marking of no
    level of the system, and a non-string marking are all refused. *)
Theorem ceiling_flows_iff (p : ClassificationPolicy) (is_level : Level -> Prop)
    (L : PolicyLaws p is_level) (c : Ceiling) (a : string) (label : Label)
    (Hc : is_level (c_classification c)) (Ha : is_control_plane a = false) :
  let flows := label = Absent \/
    exists m l, label = Marking m /\ cp_level_of p m = Some l /\
      l_rank l <= l_rank (c_classification c) in
  (decide_ceiling p c a label = NotApplicable None <-> flows) /\
  (~ flows -> exists reason, decide_ceiling p c a label = Deny reason).
Proof. by apply (ceiling_flows_spec p is_level L). Qed.

Lemma ceiling_flows_iff_witness :
  decide_ceiling US.BasicPolicy (baseline_for US.BasicPolicy) "fs.read" (Marking "CUI//SP-PRVCY")
  = NotApplicable None.
Proof.
  apply (ceiling_flows_iff US.BasicPolicy _ us_laws (baseline_for US.BasicPolicy) "fs.read"
           (Marking "CUI//SP-PRVCY")); [reflexivity|reflexivity|].
  right. exists "CUI//SP-PRVCY", (US.level 0). split_and!; [reflexivity|reflexivity|].
  simpl. lia.
Defined.

(** a ceiling that boot accepts is a level of the system boot selected, so
    unmarked content flows on every action and the operand's construction-error
    arm is unreachable. *)
Theorem declared_handling_sound (core : option Value) (c : Ceiling) (p : ClassificationPolicy)
    (H : declared_handling core = Ok (c, p)) :
  p ∈ SYSTEMS /\ system_level p (c_classification c) /\
  (forall a, decide_ceiling p c a Absent = NotApplicable None) /\
  (forall a label, decide_ceiling p c a label <>
     Deny ("ceiling: the declared ceiling is not a level of the " +:+ cp_name p +:+ " system")).
Proof.
  apply declared_handling_Ok in H as (Hp & Hl & _). pose proof (registered_laws p Hp) as L.
  split_and!; [done|done| |].
  - intros a. destruct (is_control_plane a) eqn:Ha.
    + unfold decide_ceiling. by rewrite Ha.
    + rewrite (decide_ceiling_resolved p (system_level p) c a Absent (cp_unmarked p) Ha Hl eq_refl).
      by rewrite (unmarked_lowest (PolicyLaws := L)).
  - intros a label. destruct (is_control_plane a) eqn:Ha.
    + unfold decide_ceiling. by rewrite Ha.
    + destruct (resolve_level p label) as [l|e] eqn:El.
      * rewrite (decide_ceiling_resolved p (system_level p) c a label l Ha Hl El).
        by destruct (_ <=? _).
      * unfold decide_ceiling. rewrite Ha, El. unfold resolve_level in El.
        destruct label as [|m|]; [done| |by inv El].
        destruct (cp_level_of p m); [done|]. cbn [ok_or] in El. revert El.
        generalize (List.filter (fun n => negb (String.eqb n (cp_name p))) (recognizing m)).
        intros [|o os] [= <-] Heq; discriminate Heq.
Qed.

Definition core_aus : Value :=
  VMap [("handling", VMap
    [("policy", VStr "aus"); ("accreditation_ref", VNull);
     ("ceiling", VMap
       [("classification", VStr "Protected"); ("sci", VBool false);
        ("releasable_to", VSeq []); ("cui_permitted", VBool false);
        ("cui_categories_permitted", VSeq []);
        ("dissemination_permitted", VSeq [VStr "Distribution Statement A"])])])].

Definition ceiling_aus : Ceiling :=
  mkCeiling (AUS.level 3) false [] false [] ["Distribution Statement A"] None.

Lemma declared_handling_sound_witness :
  exists c p, declared_handling (Some core_aus) = Ok (c, p) /\
    c_classification c = AUS.level 3 /\
    (forall a, decide_ceiling p c a Absent = NotApplicable None).
Proof.
  exists ceiling_aus, AUS.AusPspf.
  split; [reflexivity|]. split; [reflexivity|].
  apply (declared_handling_sound (Some core_aus) ceiling_aus AUS.AusPspf).
  reflexivity.
Defined.

(** the handling declaration is a closed vocabulary: boot accepts a [core]
    section only if every key of [core], of [core.handling] and of
    [core.handling.ceiling] is known, so a misspelt key refuses boot instead
    of silently running at the baseline. *)
Theorem declared_handling_closed (entries : list (string * Value)) (c : Ceiling)
    (p : ClassificationPolicy) (H : declared_handling (Some (VMap entries)) = Ok (c, p)) :
  (forall k v, (k, v) ∈ entries ->
     k ∈ ["deployment_id"; "schema_version"; "identity"; "handling"]) /\
  (forall h, get entries "handling" = Some h ->
     exists hmap ceiling cmap, h = VMap hmap /\
       (forall k v, (k, v) ∈ hmap -> k ∈ ["ceiling"; "accreditation_ref"; "policy"]) /\
       get hmap "ceiling" = Some ceiling /\ ceiling = VMap cmap /\
       (forall k v, (k, v) ∈ cmap -> k ∈ CEILING_KEYS)).
Proof.
  pose proof (declared_handling_Ok _ _ _ H) as (_ & _ & Hc). split.
  - unfold declared_handling in H. unbind H. clear H.
    match goal with E : reject_unknown_keys "core" _ _ = Ok ?u |- _ => destruct u end.
    by eapply reject_unknown_keys_Ok.
  - intros h Hh. unfold ceiling_from_core in Hc. simpl in Hc. rewrite Hh in Hc.
    unfold parse_handling in Hc. unbind Hc.
    destruct h as [| | | | | |hmap]; try discriminate. simplify_eq/=.
    match goal with E : reject_unknown_keys "core.handling" _ _ = Ok ?u |- _ => destruct u end.
    match goal with E : ok_or (get ?m "ceiling") _ = Ok _ |- _ =>
      destruct (get m "ceiling") as [cv|] eqn:Ecv; [|discriminate] end. simplify_eq/=.
    unfold parse_ceiling in Hc. unbind Hc.
    match goal with E : ok_or (as_map ?v) _ = Ok _ |- _ => destruct v; try discriminate end.
    simplify_eq/=.
    match goal with E : reject_unknown_keys "core.handling.ceiling" _ _ = Ok ?u |- _ => destruct u end.
    eexists _, _, _. split_and!; try done; by eapply reject_unknown_keys_Ok.
Qed.

Lemma declared_handling_closed_witness :
  exists entries c p, declared_handling (Some (VMap entries)) = Ok (c, p) /\
    forall k v, (k, v) ∈ entries ->
      k ∈ ["deployment_id"; "schema_version"; "identity"; "handling"].
Proof.
  exists (match core_aus with VMap m => m | _ => [] end), ceiling_aus, AUS.AusPspf.
  split; [reflexivity|].
  apply (declared_handling_closed _ ceiling_aus AUS.AusPspf). reflexivity.
Defined.

(** a mandatory refusal is specific to its system: a ceiling ranked by one
    registered system asked about through the other is [Gated] for ingest. *)
Theorem foreign_posture_gated (p q : ClassificationPolicy) (c : Ceiling)
    (Hp : p ∈ SYSTEMS) (Hq : q ∈ SYSTEMS) (Hpq : cp_name p <> cp_name q)
    (Hc : system_level p (c_classification c)) :
  ingest_posture c q = Gated.
Proof.
  unfold ingest_posture. destruct (bool_decide (c = baseline_for q)) eqn:E; [|done].
  apply bool_decide_eq_true in E. subst c. simpl in Hc.
  pose proof (level_tag (PolicyLaws := registered_laws p Hp) _ Hc) as H1.
  pose proof (level_tag (PolicyLaws := registered_laws q Hq) _
                (unmarked_level (PolicyLaws := registered_laws q Hq))) as H2.
  congruence.
Qed.

Lemma foreign_posture_gated_witness :
  ingest_posture (baseline_for US.BasicPolicy) AUS.AusPspf = Gated.
Proof.
  apply (foreign_posture_gated US.BasicPolicy AUS.AusPspf (baseline_for US.BasicPolicy)).
  - left.
  - right. left.
  - discriminate.
  - left. split; reflexivity.
Defined.
