(* ===== verification/PathGlob.v ===== *)
(** * The path-glob matcher: [PathGlob] of [crates/maknae-config/src/authz.rs]

    The compiled filesystem specifier, its parser, the point matcher
    ([match_segs], [component_matches]) and the two subtree tests recursive
    deletion relies on. The matchers are proved against declarative relations
    ([wild], [segs_match]), and the subtree tests against the point matcher. *)
From stdpp Require Import base list strings gmap.
From Stdlib Require Import ZArith Lia Ascii.
From S2P Require Import Prelude RustStr.
Open Scope nat_scope.

(** ** Data *)

Inductive Anchor := Root | Home.
Inductive GlobSeg := DoubleStar | Comp (c : string).
Record PathGlob := mkGlob { anchor : Anchor; segments : list GlobSeg }.

#[export] Instance Anchor_eq_dec : EqDecision Anchor.
Proof. solve_decision. Defined.
#[export] Instance GlobSeg_eq_dec : EqDecision GlobSeg.
Proof. solve_decision. Defined.
#[export] Instance PathGlob_eq_dec : EqDecision PathGlob.
Proof. solve_decision. Defined.

Inductive HomeUnbound := home_unbound.

(** A [Path] is its bytes; [to_str] is [None] off UTF-8. *)
Abbreviation Path := string.
Definition to_str (p : Path) : option string := if utf8_valid p then Some p else None.

Definition is_dot (c : string) : bool := String.eqb c "." || String.eqb c "..".

Definition home_ok (s : string) : bool :=
  starts_with "/" s && negb (Nat.eqb (length (comps s)) 0) && negb (existsb is_dot (comps s)).

Definition valid_home (home : option Path) : option Path :=
  match home with
  | None => None
  | Some h =>
      match to_str h with
      | Some s => if home_ok s then Some h else None
      | None => None
      end
  end.

(** ** Parsing *)

Definition glob_seg (c : string) : GlobSeg :=
  if String.eqb c "**" then DoubleStar else Comp c.

(** [None] is [BadPattern(spec)]. *)
Definition glob_parse (spec : string) : option PathGlob :=
  match strip_prefix "~" spec with
  | Some rest =>
      if negb (is_empty rest) && negb (starts_with "/" rest) then None
      else Some (mkGlob Home (map glob_seg (comps rest)))
  | None =>
      if starts_with "/" spec then Some (mkGlob Root (map glob_seg (comps spec))) else None
  end.

(** ** Matching one component *)

Fixpoint comp_loop (i last : nat) (anchored_start anchored_end : bool)
    (fragments : list string) (rest : string) : bool :=
  match fragments with
  | [] => true
  | frag :: fragments' =>
      let continue := comp_loop (S i) last anchored_start anchored_end fragments' in
      if is_empty frag then continue rest
      else
        let is_first := i =? 0 in
        let is_last := i =? last in
        if is_first && anchored_start then
          match strip_prefix frag rest with
          | None => false
          | Some rest' => if is_last && anchored_end then is_empty rest' else continue rest'
          end
        else if is_last && anchored_end then
          if ends_with frag rest then continue rest else false
        else
          match find_after frag rest with
          | Some rest' => continue rest'
          | None => false
          end
  end.

(** [rest] is [text[pos..]]; [pos == text.len()] is [is_empty rest]. *)
Definition component_matches (pattern text : string) : bool :=
  let fragments := split_char star pattern in
  let last := length fragments - 1 in
  comp_loop 0 last (negb (starts_with "*" pattern)) (negb (ends_with "*" pattern))
    fragments text.

(** ** Matching a path *)

Fixpoint match_segs (pat : list GlobSeg) (cs : list string) {struct pat} : bool :=
  match pat with
  | [] => match cs with [] => true | _ => false end
  | DoubleStar :: rest =>
      (fix dstar (cs : list string) : bool :=
         if match_segs rest cs then true
         else match cs with [] => false | _ :: tail => dstar tail end) cs
  | Comp p :: rest =>
      match cs with
      | c :: tail => if component_matches p c then match_segs rest tail else false
      | [] => false
      end
  end.

Definition is_home (g : PathGlob) : bool := bool_decide (anchor g = Home).

Definition base (g : PathGlob) (home : option Path) : result (list string) HomeUnbound :=
  match anchor g with
  | Root => Ok []
  | Home =>
      match valid_home home ≫= to_str with
      | Some h => Ok (comps h)
      | None => Err home_unbound
      end
  end.

(** [comps.starts_with(&base)], with the remainder. *)
Fixpoint strip_base (b cs : list string) : option (list string) :=
  match b, cs with
  | [], _ => Some cs
  | x :: b', c :: cs' => if String.eqb x c then strip_base b' cs' else None
  | _ :: _, [] => None
  end.

Definition matches (g : PathGlob) (path : Path) (home : option Path) : result bool HomeUnbound :=
  let? b := base g home in
  match to_str path with
  | None => Ok false
  | Some s =>
      Ok (match strip_base b (comps s) with
          | Some rest => match_segs (segments g) rest
          | None => false
          end)
  end.

(** ** Subtrees *)

(** [prefix.iter().all(...)] against the remaining components. *)
Fixpoint literal_prefix (prefix : list GlobSeg) (cs : list string) : bool :=
  match prefix with
  | [] => true
  | Comp literal :: prefix' =>
      match cs with
      | c :: cs' => if String.eqb c literal then literal_prefix prefix' cs' else false
      | [] => false
      end
  | DoubleStar :: _ => false
  end.

Definition covers_subtree (g : PathGlob) (root : string) (home : option Path)
  : result bool HomeUnbound :=
  let? b := base g home in
  match last (segments g) with
  | Some DoubleStar =>
      Ok (match strip_base b (comps root) with
          | Some cs => literal_prefix (removelast (segments g)) cs
          | None => false
          end)
  | _ => Ok false
  end.

(** The leading literal components ([map_while]). *)
Fixpoint fixed_prefix (segs : list GlobSeg) : list string :=
  match segs with
  | Comp literal :: segs' =>
      if contains_char star literal then [] else literal :: fixed_prefix segs'
  | _ => []
  end.

Definition zip_agree (xs ys : list string) : bool :=
  forallb (fun '(a, b) => String.eqb a b) (combine xs ys).

Definition may_intersect_subtree (g : PathGlob) (root : string) (home : option Path)
  : result bool HomeUnbound :=
  let? b := base g home in
  Ok (zip_agree (b ++ fixed_prefix (segments g)) (comps root)).

(** ** Reference relations *)

(** Wildcard matching of one component, character by character. *)
Inductive wild : string -> string -> Prop :=
| wild_nil : wild "" ""
| wild_lit a p t : a <> star -> wild p t -> wild (String a p) (String a t)
| wild_star p t1 t2 : wild p t2 -> wild (String star p) (t1 +:+ t2).

(** Matching of a component list: [**] spans any number of components. *)
Inductive segs_match : list GlobSeg -> list string -> Prop :=
| segs_nil : segs_match [] []
| segs_comp p c segs cs :
    wild p c -> segs_match segs cs -> segs_match (Comp p :: segs) (c :: cs)
| segs_dstar segs cs1 cs2 : segs_match segs cs2 -> segs_match (DoubleStar :: segs) (cs1 ++ cs2).

#[export] Hint Constructors wild segs_match : maknae.

(** ** [component_matches]: proof *)

Fixpoint tail_match (frags : list string) (t : string) : Prop :=
  match frags with
  | [] => True
  | [f] => exists l, t = l +:+ f
  | f :: fs => exists l r, t = l +:+ f +:+ r /\ tail_match fs r
  end.
Definition frag_match (frags : list string) (t : string) : Prop :=
  match frags with
  | [] => True
  | [f] => t = f
  | f :: fs => exists r, t = f +:+ r /\ tail_match fs r
  end.

Lemma tail_match_mono fs m r : tail_match fs r -> tail_match fs (m +:+ r).
Proof.
  destruct fs as [|f [|g fs]]; simpl; [done| |].
  - intros [l ->]. exists (m +:+ l). by rewrite str_app_assoc.
  - intros (l & r' & -> & H). exists (m +:+ l), r'. by rewrite str_app_assoc.
Qed.

Lemma tail_match_skip fs r : fs <> [] -> tail_match ("" :: fs) r <-> tail_match fs r.
Proof.
  destruct fs as [|g fs]; [done|]. intros _. split.
  - intros (l & r' & -> & H). by apply (tail_match_mono (g :: fs)).
  - intros H. by exists "", r.
Qed.

(** [tail_match] on the fragments of a pattern after a star. *)
Lemma tail_match_split p t :
  tail_match (split_char star p) t <-> exists t1 t2, t = t1 +:+ t2 /\ frag_match (split_char star p) t2.
Proof.
  destruct (split_char star p) as [|f [|g fs]] eqn:E; [by destruct (split_char_nonempty star p)|..].
  - simpl. split; [intros [l ->]; eauto|intros (l & ? & -> & ->); eauto].
  - simpl. split.
    + intros (l & r & -> & H). exists l, (f +:+ r). eauto.
    + intros (l & ? & -> & r & -> & H). eauto.
Qed.

Lemma frag_match_cons_lit a p t :
  a <> star ->
  frag_match (split_char star (String a p)) t <->
  exists t', t = String a t' /\ frag_match (split_char star p) t'.
Proof.
  intros Ha. simpl. destruct (Ascii.eqb_spec a star); [done|].
  destruct (split_char star p) as [|f [|g fs]] eqn:E; [by destruct (split_char_nonempty star p)|..];
    simpl.
  - split; [intros ->; eauto|intros (? & -> & ->); done].
  - split.
    + intros (r & -> & H). exists (f +:+ r). eauto.
    + intros (? & -> & r & -> & H). eauto.
Qed.

Lemma wild_frag p t : wild p t <-> frag_match (split_char star p) t.
Proof.
  revert t. induction p as [|a p IH]; intros t.
  - simpl. split; [by inversion 1|intros ->; constructor].
  - destruct (decide (a = star)) as [->|Ha].
    + assert (frag_match (split_char star (String star p)) t <->
              tail_match (split_char star p) t) as ->.
      { simpl. destruct (split_char star p) eqn:E; [by destruct (split_char_nonempty star p)|].
        split; [by intros (r & -> & H)|intros H; by exists t]. }
      rewrite tail_match_split. split.
      * inversion 1; subst; [congruence|]. eexists _, _. split; [done|]. by apply IH.
      * intros (t1 & t2 & -> & H). constructor. by apply IH.
    + rewrite frag_match_cons_lit by done. split.
      * inversion 1; subst; [|congruence]. eexists. split; [done|]. by apply IH.
      * intros (t' & -> & H). constructor; [done|]. by apply IH.
Qed.

(** The loop past the first fragment decides [tail_match]. [ae] is the end
    anchor: it holds exactly when the last fragment is non-empty. *)
Lemma comp_loop_tail i n as_ ae fs t :
  i <> 0 -> fs <> [] -> n = i + (length fs - 1) ->
  ae = negb (is_empty (default "" (last fs))) ->
  comp_loop i n as_ ae fs t = true <-> tail_match fs t.
Proof.
  revert i t. induction fs as [|f fs IH]; intros i t Hi Hne Hn Hae; [done|].
  assert (i =? 0 = false) as Hi0 by (by apply Nat.eqb_neq).
  destruct fs as [|g fs].
  - simpl in *. subst ae. replace n with i by lia. rewrite Hi0, Nat.eqb_refl. simpl.
    destruct (is_empty f) eqn:Ef.
    + apply is_empty_true in Ef as ->. split; [|done]. intros _. exists t. by rewrite str_app_nil_r.
    + simpl. destruct (ends_with f t) eqn:E.
      * apply ends_with_spec in E. done.
      * split; [done|]. intros H. apply ends_with_spec in H. congruence.
  - assert (i =? n = false) as Hin by (apply Nat.eqb_neq; simpl in Hn; lia).
    change (last (f :: g :: fs)) with (last (g :: fs)) in Hae.
    cbn [comp_loop]. rewrite Hi0, Hin. cbn [andb].
    destruct (is_empty f) eqn:Ef.
    + apply is_empty_true in Ef as ->. rewrite tail_match_skip by done.
      apply IH; [done|done|simpl in *; lia|done].
    + destruct (find_after f t) as [r|] eqn:Er.
      * etransitivity; [apply (IH (S i) r); [done|done|simpl in *; lia|done]|]. split.
        -- intros H. apply find_after_Some in Er as [l ->]. exists l, r. done.
        -- intros (l & r' & Ht & H). destruct (find_after_first _ _ _ _ Ht) as [m Hm].
           rewrite Er in Hm. injection Hm as ->. by apply tail_match_mono.
      * split; [done|]. intros (l & r & Ht & H).
        destruct (find_after_first _ _ _ _ Ht) as [m Hm]. congruence.
Qed.

Lemma starts_with_star p : starts_with "*" p = true <-> exists q, p = String star q.
Proof. rewrite starts_with_spec. split; intros [q ->]; by exists q. Qed.

Lemma split_first_empty p f fs :
  p <> "" -> split_char star p = f :: fs -> starts_with "*" p = is_empty f.
Proof.
  destruct p as [|a p]; [done|]. intros _ H. apply eq_true_iff_eq.
  rewrite starts_with_star, is_empty_true. cbn [split_char] in H. split.
  - intros [q [= -> ->]]. rewrite Ascii.eqb_refl in H. congruence.
  - intros ->. destruct (Ascii.eqb_spec a star) as [->|Ha]; [by exists p|].
    by destruct (split_char star p).
Qed.

Lemma split_last_empty p :
  p <> "" -> ends_with "*" p = is_empty (default "" (last (split_char star p))).
Proof.
  induction p as [|a p IH]; [done|]. intros _.
  destruct p as [|b p].
  - cbn [split_char ends_with]. destruct (Ascii.eqb_spec a star) as [->|Ha]; [done|].
    cbn [last default from_option is_empty]. rewrite orb_false_r. apply String.eqb_neq. by intros [= <-].
  - assert (ends_with "*" (String a (String b p)) = ends_with "*" (String b p)) as ->.
    { change (ends_with "*" (String a (String b p))) with
        (String.eqb "*" (String a (String b p)) || ends_with "*" (String b p)).
      assert (String.eqb "*" (String a (String b p)) = false) as ->; [|done].
      apply String.eqb_neq. intros H%(f_equal String.length). simpl in H. lia. }
    rewrite IH by done.
    change (split_char star (String a (String b p))) with
      (if Ascii.eqb a star then "" :: split_char star (String b p)
       else match split_char star (String b p) with
            | h :: t => String a h :: t | [] => [String a ""] end).
    destruct (split_char star (String b p)) as [|h t] eqn:E;
      [by destruct (split_char_nonempty star (String b p))|].
    destruct (Ascii.eqb a star); [done|]. destruct t; [|done].
    destruct h; [|done]. exfalso. simpl in E. pose proof (split_char_nonempty star p).
    repeat case_match; by simplify_eq.
Qed.

(** The matcher of one component decides [wild]. *)
Lemma component_matches_wild p t : p <> "" -> component_matches p t = true <-> wild p t.
Proof.
  intros Hp. rewrite wild_frag. unfold component_matches.
  rewrite (split_last_empty p Hp).
  destruct (split_char star p) as [|f fs] eqn:E; [by destruct (split_char_nonempty star p)|].
  rewrite (split_first_empty p f fs Hp E). destruct fs as [|g fs].
  - simpl. destruct (is_empty f) eqn:Ef.
    + apply is_empty_true in Ef as ->. exfalso.
      destruct p as [|a p]; [done|]. cbn [split_char] in E. pose proof (split_char_nonempty star p).
      repeat case_match; by simplify_eq.
    + simpl. destruct (strip_prefix f t) as [r|] eqn:Er.
      * apply strip_prefix_spec in Er as ->. rewrite is_empty_true. split.
        -- intros ->. by rewrite str_app_nil_r.
        -- intros H. rewrite <-(str_app_nil_r f) in H at 2. by apply str_app_inj_l in H.
      * split; [done|]. intros ->. rewrite <-(str_app_nil_r f) in Er at 2.
        by rewrite strip_prefix_app in Er.
  - assert (forall r, comp_loop 1 (length (f :: g :: fs) - 1) (negb (is_empty f))
              (negb (is_empty (default "" (last (f :: g :: fs))))) (g :: fs) r = true <->
            tail_match (g :: fs) r) as Htail.
    { intros r. apply comp_loop_tail; [done|done|simpl; lia|done]. }
    set (n := length (f :: g :: fs) - 1) in *.
    set (ae := negb (is_empty (default "" (last (f :: g :: fs))))) in *.
    assert (0 =? n = false) as Hn by done.
    change (comp_loop 0 n (negb (is_empty f)) ae (f :: g :: fs) t) with
      (if is_empty f then comp_loop 1 n (negb (is_empty f)) ae (g :: fs) t
       else if (0 =? 0) && negb (is_empty f) then
         match strip_prefix f t with
         | None => false
         | Some r => if (0 =? n) && ae then is_empty r
                     else comp_loop 1 n (negb (is_empty f)) ae (g :: fs) r end
       else if (0 =? n) && ae then
         if ends_with f t then comp_loop 1 n (negb (is_empty f)) ae (g :: fs) t else false
       else match find_after f t with
            | Some r => comp_loop 1 n (negb (is_empty f)) ae (g :: fs) r
            | None => false end).
    cbn [frag_match]. destruct (is_empty f) eqn:Ef.
    + apply is_empty_true in Ef as ->. etransitivity; [apply Htail|].
      split; [intros H; by exists t|by intros (r & -> & H)].
    + rewrite Hn. cbn [negb andb]. rewrite Nat.eqb_refl. cbn [andb].
      destruct (strip_prefix f t) as [r|] eqn:Er.
      * etransitivity; [apply Htail|]. apply strip_prefix_spec in Er as ->. split; [eauto|].
        intros (r' & H & Hm). by apply str_app_inj_l in H as ->.
      * split; [done|]. intros (r & -> & _). by rewrite strip_prefix_app in Er.
Qed.

(** Every pattern the parser produces has non-empty components. *)
Definition wf_segs (segs : list GlobSeg) : Prop :=
  Forall (fun s => match s with Comp c => c <> "" | DoubleStar => True end) segs.
Definition wf_glob (g : PathGlob) : Prop := wf_segs (segments g).

Lemma glob_parse_wf spec g : glob_parse spec = Some g -> wf_glob g.
Proof.
  assert (forall s, wf_segs (map glob_seg (comps s))) as Hc.
  { intros s. apply Forall_forall. intros x (c & -> & [_ Hc]%comps_pieces)%elem_of_map.
    unfold glob_seg. by destruct (String.eqb c "**"). }
  unfold glob_parse. repeat case_match; intros; simplify_eq; apply Hc.
Qed.

Lemma match_segs_dstar rest cs :
  match_segs (DoubleStar :: rest) cs = true <->
  exists cs1 cs2, cs = cs1 ++ cs2 /\ match_segs rest cs2 = true.
Proof.
  induction cs as [|c cs IH].
  - simpl. destruct (match_segs rest []) eqn:E.
    + split; [intros _; by exists [], []|done].
    + split; [done|]. intros ([|? ?] & [|? ?] & H & H2); simpl in *; congruence.
  - change (match_segs (DoubleStar :: rest) (c :: cs)) with
      (if match_segs rest (c :: cs) then true else match_segs (DoubleStar :: rest) cs).
    destruct (match_segs rest (c :: cs)) eqn:E.
    + split; [intros _; by exists [], (c :: cs)|done].
    + rewrite IH. split.
      * intros (cs1 & cs2 & -> & H). by exists (c :: cs1), cs2.
      * intros ([|x cs1] & cs2 & H & H2); simpl in *; subst; [congruence|].
        injection H as -> ->. eauto.
Qed.

Lemma match_segs_iff segs cs : wf_segs segs -> match_segs segs cs = true <-> segs_match segs cs.
Proof.
  intros Hwf. revert cs. induction Hwf as [|[|p] segs Hp Hwf IH]; intros cs.
  - simpl. destruct cs; split; try done; [constructor|by inversion 1].
  - rewrite match_segs_dstar. split.
    + intros (cs1 & cs2 & -> & H). constructor. by apply IH.
    + inversion 1; subst. eexists _, _. split; [done|]. by apply IH.
  - simpl. destruct cs as [|c cs]; [split; [done|by inversion 1]|].
    destruct (component_matches p c) eqn:E.
    + rewrite IH. split.
      * intros H. constructor; [|done]. by apply component_matches_wild.
      * by inversion 1.
    + split; [done|]. inversion 1; subst.
      apply not_true_iff_false in E. destruct E. by apply component_matches_wild.
Qed.

Lemma strip_base_Some b cs r : strip_base b cs = Some r <-> cs = b ++ r.
Proof.
  revert cs. induction b as [|x b IH]; intros cs; simpl; [split; congruence|].
  destruct cs as [|c cs]; [done|]. destruct (String.eqb_spec x c) as [->|Hne].
  - rewrite IH. split; [by intros ->|by intros [= ->]].
  - split; [done|]. by intros [= ->].
Qed.

Lemma strip_base_app b cs suf r :
  strip_base b cs = Some r -> strip_base b (cs ++ suf) = Some (r ++ suf).
Proof. rewrite !strip_base_Some. intros ->. by rewrite app_assoc. Qed.

(** What a glob denotes once the home is bound: the base, then the segments. *)
Lemma matches_iff g path home :
  wf_glob g ->
  matches g path home = Ok true <->
  exists b s rest, base g home = Ok b /\ to_str path = Some s /\ comps s = b ++ rest /\
    segs_match (segments g) rest.
Proof.
  intros Hwf. unfold matches. destruct (base g home) as [b|e]; [|split; [done|naive_solver]].
  destruct (to_str path) as [s|]; [|split; [done|naive_solver]].
  destruct (strip_base b (comps s)) as [rest|] eqn:E.
  - apply strip_base_Some in E. split.
    + intros [= H]. exists b, s, rest. split_and!; [done..|]. by apply match_segs_iff.
    + intros (b' & s' & rest' & [= <-] & [= <-] & H & Hm). f_equal.
      rewrite E in H. apply app_inv_head in H as ->. by apply match_segs_iff.
  - split; [done|]. intros (b' & s' & rest' & [= <-] & [= <-] & H & Hm).
    apply strip_base_Some in H. congruence.
Qed.

Lemma wild_self p : wild p p.
Proof.
  induction p as [|a p IH]; [constructor|]. destruct (decide (a = star)) as [->|Ha].
  - apply (wild_star p (String star "") p). done.
  - by constructor.
Qed.

Lemma wild_literal p t : contains_char star p = false -> wild p t -> t = p.
Proof.
  intros H W. induction W; simpl in H; [done| |discriminate H].
  apply orb_false_iff in H as [_ H]. by rewrite IHW.
Qed.

Lemma literal_prefix_match prefix cs suf :
  literal_prefix prefix cs = true -> segs_match (prefix ++ [DoubleStar]) (cs ++ suf).
Proof.
  revert cs. induction prefix as [|[|p] prefix IH]; intros cs; simpl; [|done|].
  - intros _. rewrite <-(app_nil_r (cs ++ suf)). repeat constructor.
  - destruct cs as [|c cs]; [done|]. destruct (String.eqb_spec c p) as [->|]; [|done].
    intros H. simpl. constructor; [apply wild_self|auto].
Qed.

Lemma fixed_prefix_match segs cs : segs_match segs cs ->
  exists r, cs = fixed_prefix segs ++ r.
Proof.
  induction 1 as [|p c segs cs W _ [r IH]|segs cs1 cs2 _ _]; simpl.
  - by exists [].
  - destruct (contains_char star p) eqn:E; [by eexists|].
    apply wild_literal in W as ->; [|done]. exists r. simpl. by rewrite <-IH.
  - by eexists.
Qed.

Lemma zip_agree_prefix xs ys r suf : xs ++ r = ys ++ suf -> zip_agree xs ys = true.
Proof.
  unfold zip_agree. revert ys. induction xs as [|x xs IH]; intros [|y ys]; simpl; try done.
  intros [= -> H]. rewrite String.eqb_refl. by apply IH.
Qed.

Lemma last_removelast {A} (l : list A) x : last l = Some x -> l = removelast l ++ [x].
Proof.
  induction l as [|a l IH]; [done|]. destruct l as [|b l]; simpl in *; [congruence|].
  intros H. f_equal. by apply IH.
Qed.

Lemma covers_matches g root home path s suf :
  wf_glob g -> covers_subtree g root home = Ok true ->
  to_str path = Some s -> comps s = comps root ++ suf ->
  matches g path home = Ok true.
Proof.
  intros Hwf H Hs Hc. apply matches_iff; [done|]. unfold covers_subtree in H.
  destruct (base g home) as [b|]; [|done].
  destruct (last (segments g)) as [[|]|] eqn:El; try done.
  destruct (strip_base b (comps root)) as [cs|] eqn:Eb; [|done].
  apply strip_base_Some in Eb. exists b, s, (cs ++ suf). split_and!; [done..| |].
  - by rewrite Hc, Eb, app_assoc.
  - rewrite (last_removelast _ _ El). apply literal_prefix_match. congruence.
Qed.

Lemma matches_intersects g root home path s suf :
  wf_glob g -> to_str path = Some s -> comps s = comps root ++ suf ->
  matches g path home = Ok true -> may_intersect_subtree g root home = Ok true.
Proof.
  intros Hwf Hs Hc H. apply matches_iff in H as (b & s' & rest & Hb & Hs' & Hcs & Hm); [|done].
  unfold may_intersect_subtree. rewrite Hb. f_equal.
  destruct (fixed_prefix_match _ _ Hm) as [r ->]. rewrite Hs in Hs'. injection Hs' as <-.
  eapply (zip_agree_prefix _ _ r suf). by rewrite <-Hc, Hcs, app_assoc.
Qed.

(** ** Theorems *)

(** the hand-rolled component matcher is wildcard matching: on every
    non-empty pattern it accepts exactly the texts in which each [*] stands for
    some run of characters and every other character stands for itself; in
    particular a pattern without [*] accepts only itself. *)
Theorem component_matches_iff_wild (p t : string) (Hp : p <> "") :
  component_matches p t = true <-> wild p t.
Proof. by apply component_matches_wild. Qed.

Lemma component_matches_iff_wild_witness : wild "*.js*n" "a.b.json".
Proof. apply (component_matches_iff_wild "*.js*n" "a.b.json"); [discriminate|reflexivity]. Defined.

(** a parsed glob matches exactly the paths whose components are the
    anchor's components followed by a run the segments denote, [**] spanning
    any number of components (none included) and [*] never crossing a slash. *)
Theorem parsed_glob_matches_iff (spec : string) (g : PathGlob) (path : Path)
    (home : option Path) (Hg : glob_parse spec = Some g) :
  matches g path home = Ok true <->
  exists b s rest, base g home = Ok b /\ to_str path = Some s /\ comps s = b ++ rest /\
    segs_match (segments g) rest.
Proof. apply matches_iff. by eapply glob_parse_wf. Qed.

Lemma parsed_glob_matches_iff_witness :
  exists b s rest, base (mkGlob Home [Comp ".ssh"; DoubleStar]) (Some "/home/op") = Ok b /\
    to_str "/home/op/.ssh" = Some s /\ comps s = b ++ rest /\
    segs_match [Comp ".ssh"; DoubleStar] rest.
Proof.
  apply (parsed_glob_matches_iff "~/.ssh/**" (mkGlob Home [Comp ".ssh"; DoubleStar])
           "/home/op/.ssh" (Some "/home/op")); reflexivity.
Defined.

(** the covering test used for recursive deletion is sound: a glob that
    covers a root matches every path at or below that root. *)
Theorem covers_subtree_sound (spec : string) (g : PathGlob) (root : string)
    (home : option Path) (path : Path) (s : string) (suf : list string)
    (Hg : glob_parse spec = Some g) (Hc : covers_subtree g root home = Ok true)
    (Hs : to_str path = Some s) (Hsub : comps s = comps root ++ suf) :
  matches g path home = Ok true.
Proof. eapply covers_matches; [by eapply glob_parse_wf|done..]. Qed.

Lemma covers_subtree_sound_witness :
  matches (mkGlob Root [Comp "srv"; DoubleStar]) "/srv/a/b" None = Ok true.
Proof.
  apply (covers_subtree_sound "/srv/**" (mkGlob Root [Comp "srv"; DoubleStar]) "/srv/a" None
           "/srv/a/b" "/srv/a/b" ["b"]); reflexivity.
Defined.

(** the intersection test used for denies is conservative: if any path at
    or below the root matches the glob, the test says so, so a deny entry can
    never be skipped for a subtree that contains a denied path. *)
Theorem may_intersect_subtree_complete (spec : string) (g : PathGlob) (root : string)
    (home : option Path) (path : Path) (s : string) (suf : list string)
    (Hg : glob_parse spec = Some g) (Hs : to_str path = Some s)
    (Hsub : comps s = comps root ++ suf) (Hm : matches g path home = Ok true) :
  may_intersect_subtree g root home = Ok true.
Proof. eapply matches_intersects; [by eapply glob_parse_wf|done..]. Qed.

Lemma may_intersect_subtree_complete_witness :
  may_intersect_subtree (mkGlob Root [DoubleStar; Comp ".git"]) "/srv" None = Ok true.
Proof.
  apply (may_intersect_subtree_complete "/**/.git" (mkGlob Root [DoubleStar; Comp ".git"])
           "/srv" None "/srv/x/.git" "/srv/x/.git" ["x"; ".git"]); reflexivity.
Defined.
