(* ===== verification/AuthzPolicy.v ===== *)
(** * The capability-grant policy: [crates/maknae-config/src/authz.rs]

    The parsed [authz.yaml] (path grants, role action grants, destination
    allowlists, per-subject restrictions), its fail-closed parser, and the
    three-valued evaluation of a filesystem request, point-wise and over a
    subtree. *)
From stdpp Require Import base list strings gmap.
From Stdlib Require Import ZArith Lia Ascii.
From S2P Require Import Prelude RustStr Config PathGlob.
Open Scope nat_scope.

(** ** Errors *)

Inductive AuthzError :=
| UnknownSchemaVersion (v : Z)
| AEConfig (e : ConfigError)
| BadPattern (p : string)
| AEInsecurePermissions
| AESymlink
| AENotRootOwned
| AEInsecureDirectory (d : string)
| AEIo (m : string)
| AEYaml (m : string)
| BindingsMoved.

(** ** Action entries and model references *)

Inductive ActionPattern := Exact (t : string) | Family (f : string).

#[export] Instance ActionPattern_eq_dec : EqDecision ActionPattern.
Proof. solve_decision. Defined.

Definition segment_ok (seg : string) : bool :=
  negb (is_empty seg) &&
  all_bytes (fun b => is_ascii_lowercase b || is_ascii_digit b || Ascii.eqb b "_") seg.

Definition action_parse (s : string) : result ActionPattern AuthzError :=
  match strip_suffix ".*" s with
  | Some family => if segment_ok family then Ok (Family family) else Err (BadPattern s)
  | None =>
      if contains_char "." s && forallb segment_ok (split_char "." s)
      then Ok (Exact s) else Err (BadPattern s)
  end.

Definition action_source (p : ActionPattern) : string :=
  match p with Exact t => t | Family f => f +:+ ".*" end.

Record ModelRef := mkModelRef { mr_provider : string; mr_model : string }.

Definition model_parse (s : string) : result ModelRef AuthzError :=
  let bad := Err (AEYaml ("subjects: model `" +:+ s +:+ "` is not `<provider>/<model>`")) in
  match split_once "/" s with
  | Some (provider, model) =>
      if provider_name_is_acceptable provider && model_is_acceptable model
      then Ok (mkModelRef provider model) else bad
  | None => bad
  end.

Definition as_resource (m : ModelRef) : string := mr_provider m +:+ "/" +:+ mr_model m.

Definition destination_entry_is_acceptable (entry : string) : bool :=
  match strip_prefix "provider:" entry with
  | Some name => provider_name_is_acceptable name
  | None => false
  end.

(** ** Patterns and policies *)

Inductive Pattern := PRead (g : PathGlob) | PWrite (g : PathGlob).

Record RawActionGrants := mkRawGrants { rg_allow : list ActionPattern; rg_deny : list ActionPattern }.
Record RawDestinations := mkRawDestinations { rd_allow : list string }.
Record SubjectPermissions := mkSubjectPermissions {
  sp_allow : list Pattern;
  sp_deny : list Pattern;
  sp_allow_sources : list string;
  sp_deny_sources : list string }.
Record SubjectActions := mkSubjectActions { sa_allow : list ActionPattern; sa_deny : list ActionPattern }.
Record SubjectPolicy := mkSubjectPolicy {
  su_permissions : option SubjectPermissions;
  su_actions : option SubjectActions;
  su_models : option (list ModelRef) }.

Record AuthzPolicy := mkAuthzPolicy {
  p_allow : list Pattern;
  p_deny : list Pattern;
  p_action_grants : gmap string RawActionGrants;
  p_destinations : gmap string RawDestinations;
  p_subjects : gmap string SubjectPolicy;
  p_allow_sources : list string;
  p_deny_sources : list string;
  p_sections : gmap string string }.

Inductive Match3 :=
| AllowMatch (source : string)
| DenyMatch (source : string)
| NoMatch.

Inductive FsRequest := RRead (p : Path) | RWrite (p : Path).

(** ** Evaluation *)

Definition glob_for (p : Pattern) (req : FsRequest) : option (PathGlob * Path) :=
  match p, req with
  | PRead g, RRead path | PWrite g, RWrite path => Some (g, path)
  | _, _ => None
  end.

Definition matches_req (req : FsRequest) (home : option Path) (p : Pattern)
  : result bool HomeUnbound :=
  match glob_for p req with
  | Some (g, path) => matches g path home
  | None => Ok false
  end.

Record SourcedList := mkSourced { sl_patterns : list Pattern; sl_sources : list string }.

Definition sl_source (l : SourcedList) (i : nat) (kind : string) : string :=
  default ("<unknown " +:+ kind +:+ " entry>") (sl_sources l !! i).

(** The loops of [evaluate3_floored] over one list, from index [i]. *)
Fixpoint scan (test : Pattern -> result bool HomeUnbound) (l : SourcedList) (kind : string)
    (i : nat) (ps : list Pattern) : result (option string) HomeUnbound :=
  match ps with
  | [] => Ok None
  | p :: ps' =>
      let? hit := test p in
      if hit : bool then Ok (Some (sl_source l i kind)) else scan test l kind (S i) ps'
  end.

Definition scan_list test (kind : string) (l : SourcedList) :=
  scan test l kind 0 (sl_patterns l).

Fixpoint scan_lists test (kind : string) (ls : list SourcedList)
  : result (option string) HomeUnbound :=
  match ls with
  | [] => Ok None
  | l :: ls' =>
      let? hit := scan_list test kind l in
      match hit with Some s => Ok (Some s) | None => scan_lists test kind ls' end
  end.

(** The deny lists in order, and the allow list: a subject's own set replaces
    the site allow and joins the site deny. *)
Definition lists (pol : AuthzPolicy) (subject : option SubjectPermissions)
  : list SourcedList * SourcedList :=
  let site_deny := mkSourced (p_deny pol) (p_deny_sources pol) in
  match subject with
  | None => ([site_deny], mkSourced (p_allow pol) (p_allow_sources pol))
  | Some s => ([site_deny; mkSourced (sp_deny s) (sp_deny_sources s)],
               mkSourced (sp_allow s) (sp_allow_sources s))
  end.

Definition unbound_home (home : option Path) (deny : list SourcedList) (allow : SourcedList)
    (wants : Pattern -> bool) : bool :=
  is_none home && existsb wants (concat (map sl_patterns (deny ++ [allow]))).

Definition eval_lists (test_deny test_allow : Pattern -> result bool HomeUnbound)
    (deny : list SourcedList) (allow : SourcedList) : result Match3 HomeUnbound :=
  let? denied := scan_lists test_deny "deny" deny in
  match denied with
  | Some source => Ok (DenyMatch source)
  | None =>
      let? allowed := scan_list test_allow "allow" allow in
      match allowed with
      | Some source => Ok (AllowMatch source)
      | None => Ok NoMatch
      end
  end.

Definition wants_home (req : FsRequest) (p : Pattern) : bool :=
  match glob_for p req with Some (g, _) => is_home g | None => false end.

Definition evaluate3_floored (pol : AuthzPolicy) (subject : option SubjectPermissions)
    (req : FsRequest) (home : option Path) : result Match3 HomeUnbound :=
  let home := valid_home home in
  let '(deny, allow) := lists pol subject in
  if unbound_home home deny allow (wants_home req) then Err home_unbound
  else eval_lists (matches_req req home) (matches_req req home) deny allow.

Definition evaluate3 (pol : AuthzPolicy) (req : FsRequest) (home : option Path) :=
  evaluate3_floored pol None req home.

Definition nul : ascii := ascii_of_nat 0.

(** The canonical-root gate of the subtree evaluation. *)
Definition subtree_root_ok (text : string) : bool :=
  starts_with "/" text && negb (contains_char nul text) &&
  (String.eqb text "/" ||
   negb (existsb (fun c => is_empty c || is_dot c)
           (split_char slash (default "" (strip_prefix "/" text))))).

Definition write_home (p : Pattern) : bool :=
  match p with PWrite g => is_home g | PRead _ => false end.

Definition write_test (f : PathGlob -> result bool HomeUnbound) (p : Pattern)
  : result bool HomeUnbound :=
  match p with PWrite g => f g | PRead _ => Ok false end.

Definition evaluate_write_subtree_floored (pol : AuthzPolicy)
    (subject : option SubjectPermissions) (root : Path) (home : option Path)
  : result Match3 HomeUnbound :=
  match to_str root with
  | None => Ok NoMatch
  | Some text =>
      if negb (subtree_root_ok text) then Ok NoMatch
      else
        let home := valid_home home in
        let '(deny, allow) := lists pol subject in
        if unbound_home home deny allow write_home then Err home_unbound
        else
          eval_lists (write_test (fun g => may_intersect_subtree g text home))
            (write_test (fun g => covers_subtree g text home)) deny allow
  end.

Definition evaluate_write_subtree (pol : AuthzPolicy) (root : Path) (home : option Path) :=
  evaluate_write_subtree_floored pol None root home.

(** ** Parsing *)

Definition check_known_keys (level : string) (m : list (string * Value)) (allowed : list string)
  : result unit AuthzError := map_err AEConfig (reject_unknown_keys level m allowed).

(** The four list readers differ in their messages alone. *)
Definition seq_of (not_str not_seq : string) (v : Value) : result (list string) AuthzError :=
  match v with
  | VSeq items =>
      try_map (fun item => match item with VStr s => Ok s | _ => Err (AEYaml not_str) end) items
  | _ => Err (AEYaml not_seq)
  end.

Definition str_seq : Value -> result (list string) AuthzError :=
  seq_of "permissions list entries must be strings" "permissions list must be a sequence".

Definition destination_list : Value -> result (list string) AuthzError :=
  seq_of "destinations allow entries must be strings (quote every entry; #172)"
    "destinations allow list must be a sequence (write `allow: []` for empty)".

Definition subject_list (what : string) : Value -> result (list string) AuthzError :=
  seq_of ("subjects: " +:+ what +:+ " entries must be strings (quote every entry; #608)")
    ("subjects: " +:+ what +:+ " must be a sequence (write `[]` for empty)").

Definition roles_term_list (v : Value) : result (list ActionPattern) AuthzError :=
  match v with
  | VSeq items =>
      try_map (fun item =>
        match item with
        | VStr s => action_parse s
        | _ => Err (AEYaml "roles action entries must be strings (quote every term; #162)")
        end) items
  | _ => Err (AEYaml "roles action list must be a sequence (write `allow: []` for empty)")
  end.

Definition parse_pattern (spec : string) : result Pattern AuthzError :=
  match split_once "(" spec with
  | None => Err (BadPattern spec)
  | Some (capability, after) =>
      match strip_suffix ")" after with
      | None => Err (BadPattern spec)
      | Some inner =>
          if String.eqb capability "Read" then
            ok_or (PRead <$> glob_parse inner) (BadPattern inner)
          else if String.eqb capability "Write" then
            ok_or (PWrite <$> glob_parse inner) (BadPattern inner)
          else Err (BadPattern spec)
      end
  end.

Definition opt_list {A} (f : Value -> result (list A) AuthzError) (o : option Value)
  : result (list A) AuthzError :=
  let? l := try_opt f o in Ok (default [] l).

Definition subject_section (name : string) (body : list (string * Value)) (key : string)
    (allowed : list string) : result (option (list (string * Value))) AuthzError :=
  match get body key with
  | None => Ok None
  | Some (VMap m) =>
      let? _ := check_known_keys ("authz.subjects." +:+ name +:+ "." +:+ key) m allowed in
      Ok (Some m)
  | Some _ => Err (AEYaml ("subjects: `" +:+ key +:+ "` for `" +:+ name +:+ "` must be a map"))
  end.

Definition subject_name_fault (fault : NameFault) : string :=
  "subjects: " +:+
  match fault with
  | NFEmpty => "an empty account name restricts nobody; remove it"
  | NFColon => "an account name cannot contain ':'"
  | NFComma => "an account name cannot contain ','"
  | NFControl => "an account name cannot contain a control character"
  end.

Definition parse_subject_permissions (pm : list (string * Value))
  : result SubjectPermissions AuthzError :=
  let? allow_sources := opt_list (subject_list "permissions") (get pm "allow") in
  let? deny_sources := opt_list (subject_list "permissions") (get pm "deny") in
  let? allow := try_map parse_pattern allow_sources in
  let? deny := try_map parse_pattern deny_sources in
  Ok (mkSubjectPermissions allow deny allow_sources deny_sources).

Definition parse_subject_actions (am : list (string * Value)) : result SubjectActions AuthzError :=
  let list key :=
    let? l := opt_list (subject_list "actions") (get am key) in try_map action_parse l in
  let? allow := list "allow" in
  let? deny := list "deny" in
  Ok (mkSubjectActions allow deny).

Definition parse_subject_models (mm : list (string * Value)) : result (list ModelRef) AuthzError :=
  let? l := opt_list (subject_list "models") (get mm "allow") in try_map model_parse l.

Definition parse_subject (name : string) (body : Value) : result SubjectPolicy AuthzError :=
  match body with
  | VMap body =>
      let? _ := check_known_keys ("authz.subjects." +:+ name) body
                  ["permissions"; "actions"; "models"] in
      let? pm := subject_section name body "permissions" ["allow"; "deny"] in
      let? permissions := try_opt parse_subject_permissions pm in
      let? am := subject_section name body "actions" ["allow"; "deny"] in
      let? actions := try_opt parse_subject_actions am in
      let? mm := subject_section name body "models" ["allow"] in
      let? models := try_opt parse_subject_models mm in
      Ok (mkSubjectPolicy permissions actions models)
  | _ => Err (AEYaml ("subjects: entry `" +:+ name +:+ "` must be a map"))
  end.

(** A loop over a map section that inserts one parsed entry per key. *)
Fixpoint section_loop {A} (f : string -> Value -> result A AuthzError)
    (out : gmap string A) (m : list (string * Value)) : result (gmap string A) AuthzError :=
  match m with
  | [] => Ok out
  | (k, body) :: m' => let? a := f k body in section_loop f (<[k:=a]> out) m'
  end.

Definition section_map {A} (f : string -> Value -> result A AuthzError) (not_map : string)
    (o : option Value) : result (gmap string A) AuthzError :=
  match o with
  | None => Ok ∅
  | Some (VMap m) => section_loop f ∅ m
  | Some _ => Err (AEYaml not_map)
  end.

Definition parse_role_grants (role : string) (body : Value) : result RawActionGrants AuthzError :=
  match body with
  | VMap rb =>
      let? _ := check_known_keys ("authz.roles." +:+ role) rb ["allow"; "deny"] in
      let? allow := opt_list roles_term_list (get rb "allow") in
      let? deny := opt_list roles_term_list (get rb "deny") in
      Ok (mkRawGrants allow deny)
  | _ => Err (AEYaml "roles entries must be a map of allow/deny")
  end.

Definition parse_destinations (role : string) (body : Value) : result RawDestinations AuthzError :=
  match body with
  | VMap rb =>
      let? _ := check_known_keys ("authz.destinations." +:+ role) rb ["allow"] in
      let? allow := opt_list destination_list (get rb "allow") in
      match List.find (fun e => negb (destination_entry_is_acceptable e)) allow with
      | Some e =>
          Err (AEYaml ("destinations: entry `" +:+ e +:+ "` for role `" +:+ role
                       +:+ "` is not `provider:<name>`"))
      | None => Ok (mkRawDestinations allow)
      end
  | _ => Err (AEYaml ("destinations: role `" +:+ role +:+ "` must be a map with `allow`"))
  end.

Definition parse_subject_entry (name : string) (body : Value) : result SubjectPolicy AuthzError :=
  match name_fault name with
  | Some fault => Err (AEYaml (subject_name_fault fault))
  | None => parse_subject name body
  end.

Definition parse_permissions (o : option Value)
  : result (list string * list string) AuthzError :=
  match o with
  | None => Ok ([], [])
  | Some (VMap pm) =>
      let? _ := check_known_keys "authz.permissions" pm ["allow"; "deny"] in
      let? allow := opt_list str_seq (get pm "allow") in
      let? deny := opt_list str_seq (get pm "deny") in
      Ok (allow, deny)
  | Some _ => Err (AEYaml "permissions section must be a map")
  end.

(** [parse_policy], from the loaded root value. *)
Definition parse_policy (f64_to_string : Z -> string) (root : Value)
  : result AuthzPolicy AuthzError :=
  match root with
  | VMap m =>
      if is_some (get m "bindings") then Err BindingsMoved
      else
        let? _ := check_known_keys "authz" m
                    ["schema_version"; "permissions"; "roles"; "destinations"; "subjects"] in
        let sections := foldl (fun acc '(k, v) => <[k:=canonical_json f64_to_string v]> acc) ∅ m in
        let schema_version := match get m "schema_version" with Some (VInt n) => n | _ => 0%Z end in
        if negb (schema_version =? 1)%Z then Err (UnknownSchemaVersion schema_version)
        else
          let? (allow_raw, deny_raw) := parse_permissions (get m "permissions") in
          let? allow := try_map parse_pattern allow_raw in
          let? deny := try_map parse_pattern deny_raw in
          let? action_grants :=
            section_map parse_role_grants "roles section must be a map of role to action grants"
              (get m "roles") in
          let? destinations :=
            section_map parse_destinations
              "destinations section must be a map of role to allowlist" (get m "destinations") in
          let? subjects :=
            section_map parse_subject_entry
              "subjects section must be a map of account name to restrictions"
              (get m "subjects") in
          Ok (mkAuthzPolicy allow deny action_grants destinations subjects allow_raw deny_raw
                sections)
  | _ => Err (AEYaml "authz root must be a mapping")
  end.

(** ** Lemmas: action entries and model references *)

(** Nothing of a written entry is lost by parsing it. *)
Lemma action_parse_source s p : action_parse s = Ok p -> action_source p = s.
Proof.
  unfold action_parse. destruct (strip_suffix ".*" s) as [f|] eqn:E.
  - apply strip_suffix_spec in E as ->. case_match; by intros [= <-].
  - case_match; by intros [= <-].
Qed.

Lemma segment_ok_no_dot s : segment_ok s = true -> contains_char "." s = false.
Proof.
  unfold segment_ok. intros [_ H]%andb_true_iff.
  induction s as [|a s IH]; simpl in *; [done|]. apply andb_true_iff in H as [Ha Hs].
  rewrite (IH Hs), orb_false_r. destruct (Ascii.eqb_spec a ".") as [->|]; [discriminate Ha|done].
Qed.

Lemma action_parse_cases s p :
  action_parse s = Ok p ->
  (p = Exact s /\ forall f, s <> f +:+ ".*") \/
  (exists f, p = Family f /\ s = f +:+ ".*" /\ contains_char "." f = false).
Proof.
  unfold action_parse. destruct (strip_suffix ".*" s) as [f|] eqn:E.
  - apply strip_suffix_spec in E as ->. case_match; intros [= <-]. right. exists f.
    split_and!; [done..|by apply segment_ok_no_dot].
  - case_match; intros [= <-]. left. split; [done|]. intros f ->.
    by rewrite (proj2 (strip_suffix_spec _ _ f)) in E.
Qed.

Lemma model_parse_resource s m : model_parse s = Ok m -> as_resource m = s.
Proof.
  unfold model_parse. destruct (split_once "/" s) as [[pr mo]|] eqn:E; [|done].
  apply split_once_Some in E as ->. case_match; by intros [= <-].
Qed.

(** ** Lemmas: homes *)

Lemma valid_home_idem h : valid_home (valid_home h) = valid_home h.
Proof.
  destruct h as [h|]; [|done]. simpl. destruct (to_str h) as [s|] eqn:E; [|done].
  destruct (home_ok s) eqn:E2; [|done]. simpl. by rewrite E, E2.
Qed.

Lemma base_total g home :
  is_home g = false \/ is_Some (valid_home home) -> exists b, base g home = Ok b.
Proof.
  unfold base, is_home. destruct (anchor g); [by eexists|].
  intros [H|[h Hh]]; [discriminate H|]. rewrite Hh. simpl.
  destruct home as [h0|]; [|done]. simpl in Hh. destruct (to_str h0) eqn:E; [|done].
  destruct (home_ok s); [|done]. injection Hh as <-. rewrite E. by eexists.
Qed.

Lemma matches_total g path home :
  is_home g = false \/ is_Some (valid_home home) -> exists b, matches g path home = Ok b.
Proof.
  intros [b Hb]%base_total. unfold matches. rewrite Hb. case_match; by eexists.
Qed.

(** ** Lemmas: scanning *)

Definition hits (test : Pattern -> result bool HomeUnbound) (ps : list Pattern) : Prop :=
  exists p, p ∈ ps /\ test p = Ok true.
Definition total_on (test : Pattern -> result bool HomeUnbound) (ps : list Pattern) : Prop :=
  forall p, p ∈ ps -> exists b, test p = Ok b.

Lemma scan_spec test l kind i ps :
  total_on test ps ->
  (scan test l kind i ps = Ok None /\ ~ hits test ps) \/
  (exists j p, ps !! j = Some p /\ test p = Ok true /\
     scan test l kind i ps = Ok (Some (sl_source l (i + j) kind))).
Proof.
  revert i. induction ps as [|p ps IH]; intros i Ht; simpl.
  - left. split; [done|]. intros (p & Hp & _). inversion Hp.
  - destruct (Ht p) as [b Hb]; [left|]. rewrite Hb. destruct b.
    + right. exists 0, p. by rewrite Nat.add_0_r.
    + destruct (IH (S i)) as [[-> Hn]|(j & q & Hj & Hq & ->)].
      * intros q Hq. apply Ht. by right.
      * left. split; [done|]. intros (q & [->|Hq]%elem_of_cons & Hq'); [congruence|].
        apply Hn. by exists q.
      * right. exists (S j), q. by rewrite Nat.add_succ_r.
Qed.

Definition patterns_of (ls : list SourcedList) : list Pattern := concat (map sl_patterns ls).

Lemma patterns_of_cons l ls : patterns_of (l :: ls) = sl_patterns l ++ patterns_of ls.
Proof. reflexivity. Qed.

Lemma scan_lists_spec test kind ls :
  total_on test (patterns_of ls) ->
  (scan_lists test kind ls = Ok None /\ ~ hits test (patterns_of ls)) \/
  (exists l j p, l ∈ ls /\ sl_patterns l !! j = Some p /\ test p = Ok true /\
     scan_lists test kind ls = Ok (Some (sl_source l j kind))).
Proof.
  induction ls as [|l ls IH]; intros Ht.
  - left. split; [done|]. intros (p & Hp & _). inversion Hp.
  - rewrite patterns_of_cons in *. simpl. unfold scan_list.
    destruct (scan_spec test l kind 0 (sl_patterns l)) as [[-> Hn]|(j & p & Hj & Hp & ->)].
    + intros p Hp. apply Ht, elem_of_app. by left.
    + destruct IH as [[-> Hn2]|(l' & j & p & Hl & Hj & Hp & ->)].
      * intros p Hp. apply Ht, elem_of_app. by right.
      * left. split; [done|]. intros (p & [Hp|Hp]%elem_of_app & H); [apply Hn|apply Hn2]; by exists p.
      * right. exists l', j, p. split_and!; try done. by right.
    + right. exists l, j, p. split_and!; try done. left.
Qed.

(** The three outcomes of [eval_lists], when no test is unbound. *)
Inductive evaluated td ta (deny : list SourcedList) (allow : SourcedList) : Match3 -> Prop :=
| evaluated_deny l j p :
    l ∈ deny -> sl_patterns l !! j = Some p -> td p = Ok true ->
    evaluated td ta deny allow (DenyMatch (sl_source l j "deny"))
| evaluated_allow j p :
    ~ hits td (patterns_of deny) -> sl_patterns allow !! j = Some p -> ta p = Ok true ->
    evaluated td ta deny allow (AllowMatch (sl_source allow j "allow"))
| evaluated_none :
    ~ hits td (patterns_of deny) -> ~ hits ta (sl_patterns allow) ->
    evaluated td ta deny allow NoMatch.

Lemma eval_lists_spec td ta deny allow :
  total_on td (patterns_of deny) -> total_on ta (sl_patterns allow) ->
  exists m, eval_lists td ta deny allow = Ok m /\ evaluated td ta deny allow m.
Proof.
  intros Hd Ha. unfold eval_lists, scan_list.
  destruct (scan_lists_spec td "deny" deny Hd) as [[-> Hn]|(l & j & p & Hl & Hj & Hp & ->)].
  - destruct (scan_spec ta allow "allow" 0 _ Ha) as [[-> Hn2]|(j & p & Hj & Hp & ->)];
      eexists; (split; [done|]).
    + by constructor.
    + by eapply evaluated_allow.
  - eexists. split; [done|]. by eapply evaluated_deny.
Qed.

Lemma hits_in_lists td deny l j p :
  l ∈ deny -> sl_patterns l !! j = Some p -> td p = Ok true -> hits td (patterns_of deny).
Proof.
  intros Hl Hj Hp. exists p. split; [|done]. unfold patterns_of.
  rewrite list_elem_of_In, in_concat. exists (sl_patterns l).
  rewrite <-!list_elem_of_In. split; [by apply elem_of_map_2|by eapply list_elem_of_lookup_2].
Qed.

Definition deny_patterns pol subject := patterns_of (fst (lists pol subject)).
Definition allow_patterns pol subject := sl_patterns (snd (lists pol subject)).

Lemma unbound_home_false home pol subject wants :
  unbound_home home (fst (lists pol subject)) (snd (lists pol subject)) wants = false ->
  forall p, p ∈ deny_patterns pol subject \/ p ∈ allow_patterns pol subject ->
  wants p = false \/ is_Some home.
Proof.
  unfold unbound_home, is_none. intros H p Hp. destruct home as [h|]; [right; eauto|].
  left. simpl in H. rewrite existsb_false in H. apply H.
  rewrite map_app, concat_app. simpl. rewrite app_nil_r. by apply elem_of_app.
Qed.

Lemma matches_req_total req home p :
  wants_home req p = false \/ is_Some (valid_home home) ->
  exists b, matches_req req home p = Ok b.
Proof.
  unfold wants_home, matches_req. destruct (glob_for p req) as [[g path]|]; [|by eexists].
  apply matches_total.
Qed.

Lemma evaluate3_cases pol subject req home :
  let un := is_none (valid_home home) &&
            existsb (wants_home req) (deny_patterns pol subject ++ allow_patterns pol subject) in
  if un then evaluate3_floored pol subject req home = Err home_unbound
  else exists m, evaluate3_floored pol subject req home = Ok m /\
    evaluated (matches_req req (valid_home home)) (matches_req req (valid_home home))
      (fst (lists pol subject)) (snd (lists pol subject)) m.
Proof.
  simpl. unfold evaluate3_floored, deny_patterns, allow_patterns.
  destruct (lists pol subject) as [deny allow] eqn:El. simpl.
  assert (unbound_home (valid_home home) deny allow (wants_home req) =
          is_none (valid_home home) &&
          existsb (wants_home req) (patterns_of deny ++ sl_patterns allow)) as Hu.
  { unfold unbound_home, patterns_of. rewrite map_app, concat_app. simpl. by rewrite app_nil_r. }
  rewrite <-Hu. destruct (unbound_home _ _ _ _) eqn:E; [done|].
  apply eval_lists_spec; intros p Hp; apply matches_req_total; rewrite valid_home_idem;
    apply (unbound_home_false _ pol subject); rewrite ?El; try done;
    unfold deny_patterns, allow_patterns; rewrite El; simpl; auto.
Qed.

(** ** Lemmas: parsed policies *)

Definition pattern_glob (p : Pattern) : PathGlob := match p with PRead g | PWrite g => g end.
Definition wf_patterns (ps : list Pattern) : Prop := Forall (fun p => wf_glob (pattern_glob p)) ps.
Definition wf_policy (pol : AuthzPolicy) : Prop := wf_patterns (p_allow pol) /\ wf_patterns (p_deny pol).
Definition wf_subject (s : option SubjectPermissions) : Prop :=
  match s with Some s => wf_patterns (sp_allow s) /\ wf_patterns (sp_deny s) | None => True end.
(** The text of entry [i] parses to pattern [i]. *)
Definition aligned (srcs : list string) (ps : list Pattern) : Prop :=
  Forall2 (fun s p => parse_pattern s = Ok p) srcs ps.

Lemma parse_pattern_wf s p : parse_pattern s = Ok p -> wf_glob (pattern_glob p).
Proof.
  unfold parse_pattern. destruct (split_once "(" s) as [[cap after]|]; [|done].
  destruct (strip_suffix ")" after) as [inner|]; [|done].
  destruct (glob_parse inner) as [g|] eqn:Eg; simpl;
    repeat case_match; intros; simplify_eq/=; by eapply glob_parse_wf.
Qed.

Lemma aligned_wf srcs ps : aligned srcs ps -> wf_patterns ps.
Proof. induction 1; constructor; [by eapply parse_pattern_wf|done]. Qed.

Lemma parse_policy_shape f root pol :
  parse_policy f root = Ok pol ->
  aligned (p_allow_sources pol) (p_allow pol) /\ aligned (p_deny_sources pol) (p_deny pol) /\
  exists subjects_value, section_map parse_subject_entry
    "subjects section must be a map of account name to restrictions" subjects_value
    = Ok (p_subjects pol).
Proof.
  unfold parse_policy. destruct root as [| | | | | |m]; try done.
  destruct (is_some (get m "bindings")); [done|]. intros H.
  destruct (check_known_keys _ _ _); [|done].
  destruct (negb _); [done|].
  destruct (parse_permissions _) as [[ar dr]|]; [|done]. unbind H. inv H. simpl.
  split_and!; [by apply try_map_Ok..|eauto].
Qed.

Lemma section_loop_lookup {A} (f : string -> Value -> result A AuthzError) out m r k a :
  section_loop f out m = Ok r -> r !! k = Some a ->
  out !! k = Some a \/ exists v, f k v = Ok a.
Proof.
  revert out. induction m as [|[k' v] m IH]; simpl; intros out H Hk; [inv H; by left|].
  unbind H. destruct (IH _ H Hk) as [Hl|?]; [|by right].
  rewrite lookup_insert in Hl. case_decide; simplify_eq; [right; eauto|by left].
Qed.

Lemma section_map_lookup {A} (f : string -> Value -> result A AuthzError) e o r k a :
  section_map f e o = Ok r -> r !! k = Some a -> exists v, f k v = Ok a.
Proof.
  unfold section_map. intros H Hk. destruct o as [[]|]; try done.
  - destruct (section_loop_lookup _ _ _ _ _ _ H Hk) as [Hl|?]; [|done].
    by rewrite lookup_empty in Hl.
  - injection H as <-. by rewrite lookup_empty in Hk.
Qed.

Lemma parse_subject_permissions_aligned m s :
  parse_subject_permissions m = Ok s ->
  aligned (sp_allow_sources s) (sp_allow s) /\ aligned (sp_deny_sources s) (sp_deny s).
Proof.
  unfold parse_subject_permissions. intros H. unbind H. inv H. simpl.
  split; by apply try_map_Ok.
Qed.

Lemma parse_subject_aligned name v s sp :
  parse_subject_entry name v = Ok s -> su_permissions s = Some sp ->
  aligned (sp_allow_sources sp) (sp_allow sp) /\ aligned (sp_deny_sources sp) (sp_deny sp).
Proof.
  unfold parse_subject_entry. destruct (name_fault name); [done|].
  unfold parse_subject. destruct v as [| | | | | |m]; try done. intros H Hs. unbind H.
  inv H. simpl in Hs. subst.
  match goal with E : try_opt parse_subject_permissions ?o = Ok _ |- _ =>
    destruct o as [pm|]; simpl in E; unbind E; inv E end.
  by eapply parse_subject_permissions_aligned.
Qed.

Lemma lists_wf pol subject :
  wf_policy pol -> wf_subject subject ->
  wf_patterns (deny_patterns pol subject) /\ wf_patterns (allow_patterns pol subject).
Proof.
  intros [Ha Hd] Hs. unfold deny_patterns, allow_patterns, patterns_of.
  destruct subject as [s|]; simpl in *.
  - destruct Hs as [Hsa Hsd]. split; [|done]. rewrite app_nil_r. by apply Forall_app.
  - by rewrite app_nil_r.
Qed.

Lemma write_test_total (f : PathGlob -> result bool HomeUnbound) home p :
  (forall g, is_home g = false \/ is_Some (valid_home home) -> exists b, f g = Ok b) ->
  write_home p = false \/ is_Some (valid_home home) -> exists b, write_test f p = Ok b.
Proof. intros Hf. destruct p as [g|g]; simpl; [by eexists|apply Hf]. Qed.

Lemma intersect_total g root home :
  is_home g = false \/ is_Some (valid_home home) ->
  exists b, may_intersect_subtree g root home = Ok b.
Proof. intros [b Hb]%base_total. unfold may_intersect_subtree. rewrite Hb. by eexists. Qed.

Lemma covers_total g root home :
  is_home g = false \/ is_Some (valid_home home) ->
  exists b, covers_subtree g root home = Ok b.
Proof.
  intros [b Hb]%base_total. unfold covers_subtree. rewrite Hb. repeat case_match; by eexists.
Qed.

(** A subtree allow, unfolded: the root is text, no write deny may reach the
    subtree, and a write allow covers it. *)
Lemma subtree_allow_inv pol subject root home s :
  evaluate_write_subtree_floored pol subject root home = Ok (AllowMatch s) ->
  exists text, to_str root = Some text /\
    unbound_home (valid_home home) (fst (lists pol subject)) (snd (lists pol subject)) write_home
      = false /\
    ~ hits (write_test (fun g => may_intersect_subtree g text (valid_home home)))
        (deny_patterns pol subject) /\
    exists p, p ∈ allow_patterns pol subject /\
      write_test (fun g => covers_subtree g text (valid_home home)) p = Ok true.
Proof.
  unfold evaluate_write_subtree_floored. destruct (to_str root) as [text|]; [|done].
  destruct (negb _); [done|]. destruct (lists pol subject) as [deny allow] eqn:El.
  destruct (unbound_home _ _ _ _) eqn:Eu; [done|]. intros H.
  exists text. split; [done|]. simpl. split; [done|].
  assert (forall p, p ∈ deny_patterns pol subject \/ p ∈ allow_patterns pol subject ->
            write_home p = false \/ is_Some (valid_home (valid_home home))) as Hw.
  { intros p Hp. rewrite valid_home_idem. apply (unbound_home_false _ pol subject); [by rewrite El|done]. }
  unfold deny_patterns, allow_patterns in *. rewrite El in *. simpl in *.
  destruct (eval_lists_spec (write_test (fun g => may_intersect_subtree g text (valid_home home)))
              (write_test (fun g => covers_subtree g text (valid_home home))) deny allow)
    as (m & Hm & He).
  - intros p Hp. eapply write_test_total; [intros g; apply intersect_total|]. auto.
  - intros p Hp. eapply write_test_total; [intros g; apply covers_total|]. auto.
  - rewrite H in Hm. injection Hm as <-. inv He. split; [done|].
    eexists. split; [by eapply list_elem_of_lookup_2|done].
Qed.

Lemma wants_write_home path p : wants_home (RWrite path) p = write_home p.
Proof. by destruct p. Qed.

Lemma evaluate3_allow_hits pol subject req home s :
  evaluate3_floored pol subject req home = Ok (AllowMatch s) ->
  ~ hits (matches_req req (valid_home home)) (deny_patterns pol subject) /\
  hits (matches_req req (valid_home home)) (allow_patterns pol subject).
Proof.
  intros H. pose proof (evaluate3_cases pol subject req home) as Hc. simpl in Hc.
  destruct (is_none (valid_home home) && _); [congruence|].
  destruct Hc as (m & Hm & He). rewrite H in Hm. injection Hm as <-. inv He.
  split; [done|]. eexists. split; [by eapply list_elem_of_lookup_2|done].
Qed.

(** A subtree allow holds of each path at or below the root, point by point. *)
Lemma subtree_allow_hits pol subject root home s path text t suf :
  wf_policy pol -> wf_subject subject ->
  evaluate_write_subtree_floored pol subject root home = Ok (AllowMatch s) ->
  to_str root = Some text -> to_str path = Some t -> comps t = comps text ++ suf ->
  ~ hits (matches_req (RWrite path) (valid_home home)) (deny_patterns pol subject) /\
  hits (matches_req (RWrite path) (valid_home home)) (allow_patterns pol subject).
Proof.
  intros Hpol Hsub H Hroot Hpath Hunder.
  destruct (lists_wf pol subject Hpol Hsub) as [Hwd Hwa].
  apply subtree_allow_inv in H as (text' & Ht & Hu & Hnd & p & Hpa & Hcov).
  rewrite Hroot in Ht. injection Ht as <-. split.
  - intros (q & Hq & Hm). apply Hnd. exists q. split; [done|].
    unfold wf_patterns in Hwd. rewrite Forall_forall in Hwd. specialize (Hwd q Hq).
    destruct q as [g|g]; unfold matches_req in Hm; simpl in Hm; [done|].
    simpl. by eapply matches_intersects.
  - exists p. split; [done|]. unfold wf_patterns in Hwa. rewrite Forall_forall in Hwa.
    specialize (Hwa p Hpa). destruct p as [g|g]; simpl in Hcov; [done|].
    unfold matches_req. simpl. by eapply covers_matches.
Qed.

(** ** Theorems *)

(** evaluation of a filesystem request is deny-overrides, default none, and
    refuses to guess a home. An error is exactly an unbound [~] pattern of the
    request's capability in any list; a deny means some deny entry in force
    (site, or the subject's) matches; an allow means no deny entry in force
    matches and an allow entry in force does; otherwise nothing matches. *)
Theorem evaluate3_characterised (pol : AuthzPolicy) (subject : option SubjectPermissions)
    (req : FsRequest) (home : option Path) :
  let deny := deny_patterns pol subject in
  let allow := allow_patterns pol subject in
  let test := matches_req req (valid_home home) in
  match evaluate3_floored pol subject req home with
  | Err _ => valid_home home = None /\ exists p, p ∈ deny ++ allow /\ wants_home req p = true
  | Ok (DenyMatch _) => hits test deny
  | Ok (AllowMatch _) => ~ hits test deny /\ hits test allow
  | Ok NoMatch => ~ hits test deny /\ ~ hits test allow
  end.
Proof.
  simpl. pose proof (evaluate3_cases pol subject req home) as H. simpl in H.
  destruct (is_none (valid_home home) && _) eqn:E.
  - rewrite H. apply andb_true_iff in E as [E1 E2]. split.
    + by destruct (valid_home home).
    + by apply existsb_true in E2.
  - destruct H as (m & -> & He). inv He.
    + by eapply hits_in_lists.
    + split; [done|]. eexists. split; [by eapply list_elem_of_lookup_2|done].
    + done.
Qed.

(** a subject's own permission set is a floor, never a waiver: whatever the
    site policy denies stays denied, by the same entry, under any subject set
    (or the evaluation errors on an unbound home, which is refused too). *)
Theorem site_deny_not_waived (pol : AuthzPolicy) (sp : SubjectPermissions) (req : FsRequest)
    (home : option Path) (s : string)
    (H : evaluate3_floored pol None req home = Ok (DenyMatch s)) :
  evaluate3_floored pol (Some sp) req home = Ok (DenyMatch s) \/
  evaluate3_floored pol (Some sp) req home = Err home_unbound.
Proof.
  unfold evaluate3_floored in *. simpl in *.
  destruct (unbound_home _ [_] _ _); [done|].
  destruct (unbound_home _ _ _ _); [by right|]. left.
  unfold eval_lists in *. cbn [scan_lists] in *.
  destruct (scan_list _ _ _) as [[x|]|] eqn:E; simplify_eq; [done|].
  simpl in H. by destruct (scan_list _ "allow" _) as [[]|].
Qed.

(** the entry a decision cites is the text of the entry that decided. For a
    parsed policy, the source reported with a deny (or an allow) parses to a
    pattern of the lists in force, and that pattern matches the request. *)
Theorem cited_source_matches (f64 : Z -> string) (root : Value) (pol : AuthzPolicy)
    (req : FsRequest) (home : option Path) (m : Match3)
    (Hp : parse_policy f64 root = Ok pol)
    (H : evaluate3_floored pol None req home = Ok m) :
  match m with
  | DenyMatch s => exists p, parse_pattern s = Ok p /\ s ∈ p_deny_sources pol /\
                     matches_req req (valid_home home) p = Ok true
  | AllowMatch s => exists p, parse_pattern s = Ok p /\ s ∈ p_allow_sources pol /\
                     matches_req req (valid_home home) p = Ok true
  | NoMatch => True
  end.
Proof.
  apply parse_policy_shape in Hp as (Ha & Hd & _).
  pose proof (evaluate3_cases pol None req home) as Hc. simpl in Hc.
  destruct (is_none (valid_home home) && _); [congruence|].
  destruct Hc as (m' & Hm & He). rewrite H in Hm. injection Hm as <-.
  assert (forall srcs ps i p kind, aligned srcs ps -> ps !! i = Some p ->
            let s := sl_source (mkSourced ps srcs) i kind in
            s ∈ srcs /\ parse_pattern s = Ok p) as Hal.
  { intros srcs ps i p kind Hal Hi. destruct (Forall2_lookup_r _ _ _ _ _ Hal Hi) as (s & Hs & Hps).
    unfold sl_source. simpl. rewrite Hs. simpl. split; [by eapply list_elem_of_lookup_2|done]. }
  inv He; [| |done].
  - match goal with Hl : _ ∈ [_] |- _ => apply list_elem_of_singleton in Hl as -> end.
    exists p. destruct (Hal _ _ j p "deny" Hd) as [? ?]; done.
  - exists p. destruct (Hal _ _ j p "allow" Ha) as [? ?]; done.
Qed.

(** recursive deletion is never granted past the point policy: for a parsed
    policy (and a parsed subject set), a subtree allow implies that every path
    at or below the root would be allowed as a single write, so no descendant
    is deleted that a deny entry protects or no allow entry reaches. *)
Theorem subtree_allow_pointwise (pol : AuthzPolicy) (subject : option SubjectPermissions)
    (root : Path) (home : option Path) (s : string) (path : Path) (text t : string)
    (suf : list string)
    (Hpol : wf_policy pol) (Hsub : wf_subject subject)
    (H : evaluate_write_subtree_floored pol subject root home = Ok (AllowMatch s))
    (Hroot : to_str root = Some text) (Hpath : to_str path = Some t)
    (Hunder : comps t = comps text ++ suf) :
  exists s', evaluate3_floored pol subject (RWrite path) home = Ok (AllowMatch s').
Proof.
  destruct (subtree_allow_hits _ _ _ _ _ _ _ _ _ Hpol Hsub H Hroot Hpath Hunder) as [Hnd' Hal].
  apply subtree_allow_inv in H as (_ & _ & Hu & _).
  pose proof (evaluate3_cases pol subject (RWrite path) home) as Hc. simpl in Hc.
  destruct (is_none (valid_home home) && _) eqn:E.
  - exfalso. apply andb_true_iff in E as [E1 (q & Hq & Hw)%existsb_true].
    rewrite wants_write_home in Hw. apply elem_of_app in Hq.
    destruct (unbound_home_false _ _ _ _ Hu q Hq) as [|[h Hh]]; [congruence|].
    by rewrite Hh in E1.
  - destruct Hc as (m & -> & He). inv He; [|by eexists|done].
    destruct Hnd'. by eapply hits_in_lists.
Qed.

Definition demo_policy : AuthzPolicy :=
  mkAuthzPolicy [PWrite (mkGlob Home [Comp "projects"; DoubleStar])]
    [PWrite (mkGlob Home [Comp ".ssh"; DoubleStar])] ∅ ∅ ∅
    ["Write(~/projects/**)"] ["Write(~/.ssh/**)"] ∅.

Definition demo_root : Value :=
  VMap [("schema_version", VInt 1);
        ("permissions", VMap [("allow", VSeq [VStr "Write(~/projects/**)"]);
                              ("deny", VSeq [VStr "Write(~/.ssh/**)"])])].

Lemma site_deny_not_waived_witness :
  evaluate3_floored demo_policy (Some (mkSubjectPermissions [] [] [] []))
    (RWrite "/home/op/.ssh/id") (Some "/home/op") = Ok (DenyMatch "Write(~/.ssh/**)").
Proof.
  destruct (site_deny_not_waived demo_policy (mkSubjectPermissions [] [] [] [])
              (RWrite "/home/op/.ssh/id") (Some "/home/op") "Write(~/.ssh/**)") as [H|H];
    [reflexivity|exact H|discriminate H].
Defined.

Lemma cited_source_matches_witness :
  exists pol p, parse_policy (fun _ => "") demo_root = Ok pol /\
    parse_pattern "Write(~/.ssh/**)" = Ok p /\
    matches_req (RWrite "/home/op/.ssh") (Some "/home/op") p = Ok true.
Proof.
  destruct (parse_policy (fun _ => "") demo_root) as [pol|] eqn:E; [|discriminate E].
  destruct (cited_source_matches (fun _ => "") demo_root pol (RWrite "/home/op/.ssh")
              (Some "/home/op") (DenyMatch "Write(~/.ssh/**)") E) as (p & Hp & _ & Hm).
  - injection E as <-. reflexivity.
  - exists pol, p. split; [reflexivity|]. split; [exact Hp|exact Hm].
Defined.

Lemma subtree_allow_pointwise_witness :
  exists s', evaluate3_floored demo_policy None (RWrite "/home/op/projects/a/b") (Some "/home/op")
    = Ok (AllowMatch s').
Proof.
  apply (subtree_allow_pointwise demo_policy None "/home/op/projects/a" (Some "/home/op")
           "Write(~/projects/**)" "/home/op/projects/a/b" "/home/op/projects/a"
           "/home/op/projects/a/b" ["b"]);
    try reflexivity; try exact I.
  split; repeat constructor; discriminate.
Defined.
