(* ===== verification/Decide.v ===== *)
(** * The role-based decision core: [crates/maknae-authz-basic]

    [role.rs] and [decide.rs]: the four roles, the action vocabulary, the
    validated grants, and the pure decision [decide_loaded_cited] of the
    baseline operand. Where a subject's role comes from is the interface
    [RoleSource], which the compiled identity graph implements. *)
From stdpp Require Import base list strings gmap.
From Stdlib Require Import ZArith Lia Ascii.
From S2P Require Import Prelude RustStr Config PathGlob AuthzPolicy Seam.
Open Scope nat_scope.

(** ** Roles ([role.rs]) *)

Inductive Role := Admin | User | Guest | Adversary.

#[export] Instance Role_eq_dec : EqDecision Role.
Proof. solve_decision. Defined.

Definition role_key (r : Role) : string :=
  match r with
  | Admin => "admin"
  | User => "user"
  | Guest => "guest"
  | Adversary => "adversary"
  end.

Definition role_from_key (k : string) : option Role :=
  if String.eqb k "admin" then Some Admin
  else if String.eqb k "user" then Some User
  else if String.eqb k "guest" then Some Guest
  else if String.eqb k "adversary" then Some Adversary
  else None.

(** The outcome of subject resolution ([binding.rs]). *)
Inductive Resolution := RRole (r : Role) | NoRole.

(** What the decision core asks of [Roles]: the role of a uid, given the
    enrolled principal's. *)
Class RoleSource (R : Type) := role_for : R -> Z -> Z -> Resolution.

(** ** Loaded policy *)

Definition SUBJECT_UID := "uid".
Definition RESOURCE_PATH := "path".
Definition RESOURCE_DESTINATION := "destination".
Definition RESOURCE_MODEL := "model".

Record SubjectActionSet := mkActionSet {
  as_allow : gmap string string;
  as_deny : gmap string string }.

Record SubjectEntry := mkSubjectEntry {
  se_name : string;
  se_permissions : option SubjectPermissions;
  se_actions : option SubjectActionSet;
  se_models : option (list ModelRef) }.

Abbreviation SubjectGrants := (gmap Z SubjectEntry).
Abbreviation DestinationGrants := (gmap string (list string)).
Abbreviation Grant := (string * string)%type.
Abbreviation ActionGrants := (gmap string (list Grant * list Grant)).

Inductive Effect := EAllow | EDeny.
#[export] Instance Effect_eq_dec : EqDecision Effect.
Proof. solve_decision. Defined.

Inductive Cited :=
| CPath (effect : Effect) (source : string)
| CGrant (role term : string) (effect : Effect)
| CDestination (role destination : string)
| CSubjectPath (subject : string) (effect : Effect) (source : string).
#[export] Instance Cited_eq_dec : EqDecision Cited.
Proof. solve_decision. Defined.

Record LoadedPolicy (R : Type) := mkLoaded {
  lp_policy : AuthzPolicy;
  lp_roles : R;
  lp_action_grants : ActionGrants;
  lp_destinations : DestinationGrants;
  lp_subjects : SubjectGrants }.
Arguments mkLoaded {R}.
Arguments lp_policy {R}.
Arguments lp_roles {R}.
Arguments lp_action_grants {R}.
Arguments lp_destinations {R}.
Arguments lp_subjects {R}.

Record BasicDecided := mkBasicDecided {
  bd_verdict : Verdict;
  bd_role : option string;
  bd_cited : option Cited }.

Definition destination_allows (g : DestinationGrants) (key destination : string) : bool :=
  match g !! key with
  | Some l => existsb (fun e => String.eqb e destination) l
  | None => false
  end.

(** ** Action vocabulary *)

Definition GRANTABLE_ACTIONS : list string :=
  ["admin.status"; "admin.config.show"; "admin.subject.list"; "admin.baseline.show";
   "admin.baseline.accept"; "admin.contain"; "admin.release"; "session.prompt"].

Definition ACTION_VOCABULARY : list string :=
  ["admin.status"; "admin.config.show"; "admin.subject.list"; "admin.baseline.show";
   "admin.baseline.accept"; "admin.contain"; "admin.release"; "session.prompt";
   "fs.read"; "fs.write"; "fs.delete"; "fs.mkdir"].

Inductive Class_ := CLiveness | CAdmin | CSession | CFs | CTerminal | CMcp | CKernel.
#[export] Instance Class_eq_dec : EqDecision Class_.
Proof. solve_decision. Defined.

Definition class_of (action : string) : option Class_ :=
  if in_class action "liveness" then Some CLiveness
  else if in_class action "admin" then Some CAdmin
  else if in_class action "session" then Some CSession
  else if in_class action "fs" then Some CFs
  else if in_class action "terminal" then Some CTerminal
  else if in_class action "mcp" then Some CMcp
  else if in_class action "kernel" then Some CKernel
  else None.

(** [AuthzBasicError], less the refusal of the snapshot compiler, which the
    compiler's callers wrap. *)
Inductive AuthzBasicError :=
| ABLoad (m : string)
| ABBindings (m : string)
| ABUnknownRole (k : string)
| ABRoleNotSupportedYet (k : string)
| ABUnknownActionTerm (t : string)
| ABTermNotGrantableForRole (role term : string)
| ABUnknownAction (a : string)
| ABUngrantableAction (a : string)
| ABSubjectLookup (m : string)
| ABDuplicateSubjectUid (uid : Z) (a b : string).

Definition pattern_name (p : ActionPattern) : string :=
  match p with Exact n | Family n => n end.

Definition expand (p : ActionPattern) : result (list Grant) AuthzBasicError :=
  let source := action_source p in
  match class_of (pattern_name p) with
  | Some CKernel | Some CLiveness => Err (ABUngrantableAction source)
  | None => Err (ABUnknownAction source)
  | Some class =>
      let keep t :=
        match p with
        | Exact e => String.eqb t e
        | Family _ => bool_decide (class_of t = Some class)
        end in
      let terms := map (fun t => (t, source)) (List.filter keep ACTION_VOCABULARY) in
      match p, terms with
      | Exact _, [] => Err (ABUnknownAction source)
      | _, _ => Ok terms
      end
  end.

Definition evaluate3_action (g : ActionGrants) (key action : string) : Match3 :=
  match g !! key with
  | None => NoMatch
  | Some (allow, deny) =>
      match List.find (fun t => String.eqb (fst t) action) deny with
      | Some (_, source) => DenyMatch source
      | None =>
          match List.find (fun t => String.eqb (fst t) action) allow with
          | Some (_, source) => AllowMatch source
          | None => NoMatch
          end
      end
  end.

(** ** The arms *)

Definition audit_obligation : Obligation := mkObligation "audit" ∅.
Definition permit_with_audit : Verdict := Permit [audit_obligation].

(** The loop of [canonical_violation] over the segments after the root. *)
Fixpoint segment_violation (segs : list string) : option string :=
  match segs with
  | [] => None
  | seg :: segs' =>
      if is_empty seg then Some "empty segment ('//' or trailing '/')"
      else if String.eqb seg "." then Some "'.' component"
      else if String.eqb seg ".." then Some "'..' component"
      else segment_violation segs'
  end.

Definition canonical_violation (path : string) : option string :=
  if contains_char nul path then Some "NUL byte"
  else
    match strip_prefix "/" path with
    | None => Some "not absolute"
    | Some rest =>
        if String.eqb path "/" then None else segment_violation (split_char slash rest)
    end.

Definition no_rule_note (key action : string) : string :=
  "role " +:+ key +:+ ": no rule for " +:+ action.

Definition is_kernel_initiator (req : Request) : bool :=
  match subject req !! SUBJECT_INITIATOR with
  | Some (AStr s) => String.eqb s INITIATOR_KERNEL
  | _ => false
  end.

Definition kernel_decided (req : Request) : Verdict :=
  let a := action req in
  if is_kernel_initiator req then
    if String.eqb a "kernel.contain" then permit_with_audit
    else NotApplicable (Some ("term enumerated, not implemented: " +:+ a))
  else
    NotApplicable
      (Some ("kernel action requested by a subject that is not the kernel: " +:+ a)).

Definition action_limit (entry : option SubjectEntry) (action : string) : option Verdict :=
  let! entry := entry in
  let! set := se_actions entry in
  let name := se_name entry in
  let limited :=
    match as_deny set !! action with
    | Some source =>
        Some (Deny ("subject " +:+ name +:+ ": " +:+ action +:+ " denied by subjects." +:+ name
                    +:+ ".actions entry " +:+ source))
    | None =>
        if is_some (as_allow set !! action) then None
        else Some (Deny ("subject " +:+ name +:+ ": " +:+ action +:+ " is not in subjects."
                         +:+ name +:+ ".actions allow"))
    end in
  match class_of action with
  | Some CLiveness | Some CKernel | None => None
  | Some CAdmin => if String.eqb action "admin.whoami" then None else limited
  | Some _ => limited
  end.

Inductive FsScope := ScopeRead | ScopeWrite | ScopeWriteSubtree.

Definition scope_of (action : string) (operation : FsOperation) : option FsScope :=
  match operation with
  | FsRead => if String.eqb action "fs.read" then Some ScopeRead else None
  | WriteExisting | WriteCreate => if String.eqb action "fs.write" then Some ScopeWrite else None
  | DeleteEntry => if String.eqb action "fs.delete" then Some ScopeWrite else None
  | Mkdir => if String.eqb action "fs.mkdir" then Some ScopeWrite else None
  | DeleteTree => if String.eqb action "fs.delete" then Some ScopeWriteSubtree else None
  end.

Definition attempt_scope (req : Request) : result FsScope Verdict :=
  if negb (bool_decide (attr_str (context req) CONTEXT_DAC_LANE = Some "local")) then
    Err (Deny "filesystem attempt requires a local subject")
  else
    let? operation :=
      ok_or (s ← attr_str (context req) CONTEXT_FS_OPERATION; fs_parse s)
        (Deny "filesystem attempt preparation absent or invalid") in
    let? scope :=
      ok_or (scope_of (action req) operation)
        (Deny "filesystem attempt preparation does not match action") in
    if is_some (resource req !! RESOURCE_OS_ACCESSIBLE) then
      Err (Deny "filesystem attempt cannot carry an OS preapproval")
    else Ok scope.

Section Core.
Context {R : Type} `{RoleSource R}.
Implicit Types (lp : LoadedPolicy R) (req : Request).

Definition decide_prompt lp req (key : string) (subject : option SubjectEntry)
  : Verdict * option Cited :=
  match evaluate3_action (lp_action_grants lp) key "session.prompt" with
  | DenyMatch source =>
      (Deny ("denied by role grant " +:+ source), Some (CGrant key source EDeny))
  | NoMatch => (NotApplicable (Some (no_rule_note key "session.prompt")), None)
  | AllowMatch _ =>
      match resource req !! RESOURCE_DESTINATION with
      | Some (AStr destination) =>
          if negb (destination_allows (lp_destinations lp) key destination) then
            (Deny ("destination not allowlisted for role " +:+ key +:+ ": " +:+ destination),
             None)
          else
            let permit := (permit_with_audit, Some (CDestination key destination)) in
            match (s ← subject; listed ← se_models s; Some (se_name s, listed)) with
            | None => permit
            | Some (name, listed) =>
                match resource req !! RESOURCE_MODEL with
                | Some (AStr model) =>
                    if existsb (fun m => String.eqb (as_resource m) model) listed then permit
                    else
                      (Deny ("subject " +:+ name +:+ ": model " +:+ model
                             +:+ " is not in subjects." +:+ name +:+ ".models allow"), None)
                | _ => (Indeterminate, None)
                end
            end
      | Some _ => (Indeterminate, None)
      | None => (Deny "no destination on session.prompt", None)
      end
  end.

(** The path policy's answer in one scope. *)
Definition evaluate_scope (pol : AuthzPolicy) (set : option SubjectPermissions)
    (scope : FsScope) (path : Path) (home : option Path) : result Match3 HomeUnbound :=
  match scope with
  | ScopeRead => evaluate3_floored pol set (RRead path) home
  | ScopeWrite => evaluate3_floored pol set (RWrite path) home
  | ScopeWriteSubtree => evaluate_write_subtree_floored pol set path home
  end.

Definition decide_fs_matched lp req (key : string) (named : option string) (matched : Match3)
  : Verdict * option Cited :=
  match matched, named with
  | DenyMatch source, Some name =>
      if bool_decide (source ∈ p_deny_sources (lp_policy lp)) then
        (Deny ("denied by policy entry " +:+ source), Some (CPath EDeny source))
      else
        (Deny ("denied by subjects." +:+ name +:+ ".permissions entry " +:+ source),
         Some (CSubjectPath name EDeny source))
  | DenyMatch source, None =>
      (Deny ("denied by policy entry " +:+ source), Some (CPath EDeny source))
  | AllowMatch source, Some name => (permit_with_audit, Some (CSubjectPath name EAllow source))
  | AllowMatch source, None => (permit_with_audit, Some (CPath EAllow source))
  | NoMatch, _ =>
      (NotApplicable (Some ("role " +:+ key +:+ ": no capability entry for " +:+ action req)),
       None)
  end.

Definition home_of req : result (option Path) unit :=
  match Seam.subject req !! SUBJECT_HOME with
  | None => Ok None
  | Some (AStr h) => Ok (Some h)
  | Some _ => Err tt
  end.

Definition decide_fs lp req (key : string) (scope : FsScope) (entry : option SubjectEntry)
  : Verdict * option Cited :=
  match resource req !! RESOURCE_PATH with
  | Some (AStr path) =>
      match canonical_violation path with
      | Some offense => (Deny ("non-canonical resource path (" +:+ offense +:+ ")"), None)
      | None =>
          match home_of req with
          | Err _ => (Indeterminate, None)
          | Ok home =>
              let subject := e ← entry; p ← se_permissions e; Some (se_name e, p) in
              match evaluate_scope (lp_policy lp) (snd <$> subject) scope path home with
              | Err _ => (Indeterminate, None)
              | Ok matched => decide_fs_matched lp req key (fst <$> subject) matched
              end
          end
      end
  | _ => (Indeterminate, None)
  end.

Definition is_fs_term (a : string) : bool :=
  existsb (String.eqb a) ["fs.read"; "fs.write"; "fs.delete"; "fs.mkdir"].

(** The [Role::Admin] arm's [match class]. *)
Definition decide_admin lp (a : string) : Verdict * option Cited :=
  let unbuilt := (NotApplicable (Some ("term enumerated, not implemented: " +:+ a)), None) in
  match class_of a with
  | Some CLiveness => (permit_with_audit, None)
  | Some CAdmin =>
      if String.eqb a "admin.whoami" then (permit_with_audit, None)
      else if existsb (String.eqb a) GRANTABLE_ACTIONS then
        match evaluate3_action (lp_action_grants lp) "admin" a with
        | AllowMatch source => (permit_with_audit, Some (CGrant "admin" source EAllow))
        | DenyMatch source =>
            (Deny ("denied by role grant " +:+ source), Some (CGrant "admin" source EDeny))
        | NoMatch => (NotApplicable (Some (no_rule_note "admin" a)), None)
        end
      else unbuilt
  | _ => unbuilt
  end.

Definition decide_class (key a : string) : Verdict * option Cited :=
  match class_of a with
  | Some CLiveness => (permit_with_audit, None)
  | _ => (NotApplicable (Some (no_rule_note key a)), None)
  end.

(** The role gates of [decide_loaded_cited], in the order of its arms. *)
Definition decide_role lp req (uid : Z) (role : Role) : Verdict * option Cited :=
  let entry := lp_subjects lp !! uid in
  let a := action req in
  let key := role_key role in
  match role with
  | Adversary => (Deny "subject contained: role=adversary", None)
  | Admin | User | Guest =>
      match action_limit entry a with
      | Some v => (v, None)
      | None =>
          match role with
          | Guest => decide_class key a
          | _ =>
              if is_fs_term a then
                match attempt_scope req with
                | Ok scope => decide_fs lp req key scope entry
                | Err v => (v, None)
                end
              else if String.eqb a "session.prompt" then decide_prompt lp req key entry
              else
                match role with
                | Admin => decide_admin lp a
                | _ => decide_class key a
                end
          end
      end
  end.

(** [Ok None] is an absent uid, [Err] a present one that does not evaluate. *)
Definition uid_of req : result (option Z) unit :=
  match Seam.subject req !! SUBJECT_UID with
  | None => Ok None
  | Some (AInt i) => match try_u32 i with Some u => Ok (Some u) | None => Err tt end
  | Some _ => Err tt
  end.

Definition no_role_decided (v : Verdict) : BasicDecided := mkBasicDecided v None None.

Definition decide_loaded_cited lp (principal_uid : Z) req : BasicDecided :=
  match uid_of req with
  | Err _ | Ok None => no_role_decided Indeterminate
  | Ok (Some uid) =>
      if bool_decide (class_of (action req) = Some CKernel) then
        no_role_decided (kernel_decided req)
      else
        match role_for (lp_roles lp) uid principal_uid with
        | NoRole => no_role_decided (NotApplicable (Some "subject resolves to no role"))
        | RRole role =>
            let '(verdict, cited) := decide_role lp req uid role in
            mkBasicDecided verdict (Some (role_key role)) cited
        end
  end.

Definition decide_loaded_with_role lp principal_uid req : Verdict * option string :=
  let d := decide_loaded_cited lp principal_uid req in (bd_verdict d, bd_role d).
End Core.

(** ** Lemmas: roles and classes *)

Lemma role_from_key_key r : role_from_key (role_key r) = Some r.
Proof. by destruct r. Qed.

Lemma role_from_key_Some k r : role_from_key k = Some r <-> k = role_key r.
Proof.
  split; [|intros ->; apply role_from_key_key].
  unfold role_from_key. repeat (case_match; [intros [= <-]; by apply String.eqb_eq|]). done.
Qed.

Definition class_key (c : Class_) : string :=
  match c with
  | CLiveness => "liveness" | CAdmin => "admin" | CSession => "session" | CFs => "fs"
  | CTerminal => "terminal" | CMcp => "mcp" | CKernel => "kernel"
  end.

Lemma in_class_inj c d a :
  in_class a (class_key c) = true -> in_class a (class_key d) = true -> c = d.
Proof.
  rewrite !in_class_spec. intros [->|(r & ->)] [H|(r' & H)];
    destruct c, d; try reflexivity; discriminate H.
Qed.

Lemma class_of_spec a c : class_of a = Some c <-> in_class a (class_key c) = true.
Proof.
  split.
  - unfold class_of. repeat (case_match; [intros [= <-]; done|]). done.
  - intros Hc. destruct (class_of a) as [d|] eqn:E.
    + f_equal. revert E. unfold class_of.
      repeat (case_match; [intros [= <-]; by eapply in_class_inj|]). done.
    + revert E. unfold class_of. repeat (case_match; [done|]). by destruct c; simpl in *; congruence.
Qed.

(** ** Lemmas: canonical paths *)

Definition segment_canonical (s : string) : Prop := s <> "" /\ s <> "." /\ s <> "..".

Lemma segment_violation_None segs :
  segment_violation segs = None <-> Forall segment_canonical segs.
Proof.
  induction segs as [|s segs IH]; simpl; [done|]. rewrite Forall_cons, <-IH.
  unfold segment_canonical. destruct (is_empty s) eqn:E1.
  { apply is_empty_true in E1. naive_solver. }
  destruct (String.eqb_spec s "."); [naive_solver|].
  destruct (String.eqb_spec s ".."); [naive_solver|].
  split; [|tauto]. intros Hs. split_and!; try done. intros ->. discriminate E1.
Qed.

Lemma filter_nonempty segs :
  Forall segment_canonical segs -> List.filter (fun c => negb (is_empty c)) segs = segs.
Proof.
  induction 1 as [|s segs [Hs _] _ IH]; [done|]. simpl.
  destruct (is_empty s) eqn:E; [by apply is_empty_true in E|]. simpl. by rewrite IH.
Qed.

(** A canonical path is the root, or its components under it, in order. *)
Lemma canonical_comps path :
  canonical_violation path = None ->
  Forall segment_canonical (comps path) /\ contains_char nul path = false /\
  path = "/" +:+ str_join "/" (comps path).
Proof.
  unfold canonical_violation. destruct (contains_char nul path) eqn:En; [done|].
  destruct (strip_prefix "/" path) as [rest|] eqn:Er; [|done].
  apply strip_prefix_spec in Er. subst path.
  destruct (String.eqb_spec ("/" +:+ rest) "/") as [E|E].
  - simpl in E. injection E as ->. intros _. split; [constructor|done].
  - intros Hs%segment_violation_None.
    assert (comps ("/" +:+ rest) = split_char slash rest) as ->.
    { unfold comps. simpl. by apply filter_nonempty. }
    split_and!; [done..|]. f_equal. symmetry. apply (join_split_char slash).
Qed.

(** ** What a permit requires: the reference *)

Section Reference.
Context {R : Type} `{RoleSource R}.
Implicit Types (lp : LoadedPolicy R) (req : Request).

(** The subject's own action list lets [a] through. *)
Definition action_unlimited (entry : option SubjectEntry) (a : string) : Prop :=
  forall e set, entry = Some e -> se_actions e = Some set ->
    class_of a <> None -> class_of a <> Some CLiveness -> class_of a <> Some CKernel ->
    a <> "admin.whoami" ->
    as_deny set !! a = None /\ is_Some (as_allow set !! a).

(** A prepared local attempt, on a canonical path, that the path policy
    allows in the scope of the operation. *)
Definition fs_granted lp req (entry : option SubjectEntry) : Prop :=
  exists op scope path home s,
    attr_str (context req) CONTEXT_DAC_LANE = Some (lane_as_str LaneLocal) /\
    (attr_str (context req) CONTEXT_FS_OPERATION ≫= fs_parse) = Some op /\
    scope_of (action req) op = Some scope /\
    resource req !! RESOURCE_OS_ACCESSIBLE = None /\
    attr_str (resource req) RESOURCE_PATH = Some path /\
    canonical_violation path = None /\
    home_of req = Ok home /\
    evaluate_scope (lp_policy lp) (entry ≫= se_permissions) scope path home
      = Ok (AllowMatch s).

(** A prompt to a destination on the role's list, with a model on the
    subject's list when there is one. *)
Definition prompt_granted lp req (key : string) (entry : option SubjectEntry) : Prop :=
  exists s d l,
    evaluate3_action (lp_action_grants lp) key "session.prompt" = AllowMatch s /\
    attr_str (resource req) RESOURCE_DESTINATION = Some d /\
    lp_destinations lp !! key = Some l /\ d ∈ l /\
    forall e models, entry = Some e -> se_models e = Some models ->
      exists m, m ∈ models /\ attr_str (resource req) RESOURCE_MODEL = Some (as_resource m).

(** Every way a role reaches a permit. *)
Inductive role_permits lp req (uid : Z) : Role -> Prop :=
| permits_liveness r :
    class_of (action req) = Some CLiveness -> role_permits lp req uid r
| permits_whoami :
    action req = "admin.whoami" -> role_permits lp req uid Admin
| permits_grant s :
    class_of (action req) = Some CAdmin -> action req ∈ GRANTABLE_ACTIONS ->
    evaluate3_action (lp_action_grants lp) "admin" (action req) = AllowMatch s ->
    role_permits lp req uid Admin
| permits_fs r :
    r = Admin \/ r = User -> fs_granted lp req (lp_subjects lp !! uid) ->
    role_permits lp req uid r
| permits_prompt r :
    r = Admin \/ r = User -> action req = "session.prompt" ->
    prompt_granted lp req (role_key r) (lp_subjects lp !! uid) ->
    role_permits lp req uid r.

(** Every way a request reaches a permit. *)
Definition permitted lp (principal_uid : Z) req : Prop :=
  exists uid, uid_of req = Ok (Some uid) /\
  ((action req = "kernel.contain" /\
    attr_str (Seam.subject req) SUBJECT_INITIATOR = Some INITIATOR_KERNEL) \/
   (exists r, role_for (lp_roles lp) uid principal_uid = RRole r /\ r <> Adversary /\
      class_of (action req) <> Some CKernel /\
      action_unlimited (lp_subjects lp !! uid) (action req) /\
      role_permits lp req uid r)).

(** *** Each arm against the reference *)

Lemma attr_str_Some a k s : attr_str a k = Some s <-> a !! k = Some (AStr s).
Proof. unfold attr_str. destruct (a !! k) as [[]|]; naive_solver. Qed.

Lemma action_limit_None entry a : action_limit entry a = None <-> action_unlimited entry a.
Proof.
  unfold action_limit, action_unlimited. destruct entry as [e|]; [|naive_solver].
  destruct (se_actions e) as [set|] eqn:Es; [|naive_solver].
  split.
  - intros Hl e' set' [= <-] Hs Hn Hl1 Hk Hw. rewrite Es in Hs. injection Hs as <-.
    apply String.eqb_neq in Hw. rewrite Hw in Hl.
    destruct (as_deny set !! a); [by repeat case_match|]. split; [done|].
    destruct (as_allow set !! a); [by eexists|]. by repeat case_match.
  - intros Hu. specialize (Hu e set eq_refl Es).
    destruct (String.eqb_spec a "admin.whoami") as [->|Hne]; [done|].
    destruct (class_of a) as [c|]; [|done].
    destruct c; try done; (destruct Hu as [-> [? ->]]; done).
Qed.

Lemma action_limit_deny entry a v : action_limit entry a = Some v -> exists r, v = Deny r.
Proof.
  unfold action_limit. intros Hl. repeat (case_match; try done); simplify_eq; by eexists.
Qed.

Lemma attempt_scope_Ok req scope :
  attempt_scope req = Ok scope <->
  exists op, attr_str (context req) CONTEXT_DAC_LANE = Some "local" /\
    (attr_str (context req) CONTEXT_FS_OPERATION ≫= fs_parse) = Some op /\
    scope_of (action req) op = Some scope /\ resource req !! RESOURCE_OS_ACCESSIBLE = None.
Proof.
  unfold attempt_scope. case_bool_decide as Hl; simpl; [|naive_solver].
  destruct (attr_str (context req) CONTEXT_FS_OPERATION ≫= fs_parse) as [op|]; simpl;
    [|naive_solver].
  destruct (scope_of (action req) op) as [sc|] eqn:Es; simpl; [|naive_solver].
  destruct (resource req !! RESOURCE_OS_ACCESSIBLE); simpl; naive_solver.
Qed.

Lemma attempt_scope_Err req v : attempt_scope req = Err v -> exists r, v = Deny r.
Proof.
  unfold attempt_scope. intros Hs. repeat (case_match; try done); simplify_eq; try by eexists.
  all: unfold ok_or in *; repeat case_match; simplify_eq; by eexists.
Qed.

Lemma decide_fs_permit lp req key scope entry :
  is_permit (decide_fs lp req key scope entry).1 = true <->
  exists path home s,
    attr_str (resource req) RESOURCE_PATH = Some path /\ canonical_violation path = None /\
    home_of req = Ok home /\
    evaluate_scope (lp_policy lp) (entry ≫= se_permissions) scope path home
      = Ok (AllowMatch s).
Proof.
  unfold decide_fs, attr_str.
  destruct (resource req !! RESOURCE_PATH) as [[path| | |]|]; try naive_solver.
  destruct (canonical_violation path) as [o|] eqn:Ec; [naive_solver|].
  destruct (home_of req) as [home|] eqn:Eh; [|naive_solver].
  assert (snd <$> (e ← entry; p ← se_permissions e; Some (se_name e, p))
          = (entry ≫= se_permissions)) as ->.
  { destruct entry as [e|]; [|done]. simpl. by destruct (se_permissions e). }
  destruct (evaluate_scope _ _ _ _ _) as [m|] eqn:Em.
  2:{ split; [done|]. intros (p & h & s & ? & _ & ? & ?). simplify_eq. congruence. }
  unfold decide_fs_matched. destruct m as [s|s|]; simpl.
  - destruct (fst <$> _); simpl; (split; [intros _; by exists path, home, s|done]).
  - split; [by repeat case_match|]. intros (p & h & s' & ? & _ & ? & ?). simplify_eq. congruence.
  - split; [done|]. intros (p & h & s' & ? & _ & ? & ?). simplify_eq. congruence.
Qed.

Lemma destination_allows_spec (g : DestinationGrants) key d :
  destination_allows g key d = true <-> exists l, g !! key = Some l /\ d ∈ l.
Proof.
  unfold destination_allows. destruct (g !! key) as [l|]; [|naive_solver].
  rewrite existsb_true. setoid_rewrite String.eqb_eq. naive_solver.
Qed.

Lemma model_listed (models : list ModelRef) m :
  existsb (fun r => String.eqb (as_resource r) m) models = true <->
  exists r, r ∈ models /\ m = as_resource r.
Proof. rewrite existsb_true. setoid_rewrite String.eqb_eq. naive_solver. Qed.

Lemma decide_prompt_permit lp req key entry :
  is_permit (decide_prompt lp req key entry).1 = true <-> prompt_granted lp req key entry.
Proof.
  unfold decide_prompt, prompt_granted.
  destruct (evaluate3_action _ _ _) as [s|s|]; [|naive_solver..].
  unfold attr_str at 1.
  destruct (resource req !! RESOURCE_DESTINATION) as [[d| | |]|]; try naive_solver.
  destruct (destination_allows (lp_destinations lp) key d) eqn:Ed; simpl.
  2:{ split; [done|]. intros (s' & d' & l & _ & [= <-] & Hl & Hd & _).
      apply not_true_iff_false in Ed. destruct Ed. apply destination_allows_spec. by exists l. }
  apply destination_allows_spec in Ed as (l & Hl & Hd).
  destruct (s' ← entry; listed ← se_models s'; Some (se_name s', listed)) as [[name models]|] eqn:Em.
  - assert (exists e, entry = Some e /\ se_models e = Some models) as (e & -> & Hms).
    { destruct entry as [e|]; [|done]. simpl in Em. destruct (se_models e) eqn:E; [|done].
      simpl in Em. simplify_eq. by eexists. }
    split.
    + intros Hp. exists s, d, l. split_and!; try done. intros e' ms [= <-] Hms'.
      rewrite Hms in Hms'. injection Hms' as <-. unfold attr_str.
      destruct (resource req !! RESOURCE_MODEL) as [[m| | |]|]; try done.
      case_match; [|done]. apply model_listed in H0 as (r & Hr & ->). by exists r.
    + intros (s' & d' & l' & _ & _ & _ & _ & Hm).
      destruct (Hm e models eq_refl Hms) as (r & Hr & Ha%attr_str_Some). rewrite Ha.
      assert (existsb (fun m => String.eqb (as_resource m) (as_resource r)) models = true) as ->;
        [|done]. apply model_listed. by exists r.
  - split; [|done]. intros _. exists s, d, l. split_and!; try done.
    intros e ms -> Hms. simpl in Em. rewrite Hms in Em. done.
Qed.

Lemma is_fs_term_spec a : is_fs_term a = true <-> exists op scope, scope_of a op = Some scope.
Proof.
  unfold is_fs_term. rewrite existsb_true. setoid_rewrite String.eqb_eq. split.
  - intros (x & Hx & ->). rewrite !elem_of_cons in Hx.
    destruct Hx as [->|[->|[->|[->|Hx]]]]; [..|inversion Hx];
      [exists FsRead|exists WriteCreate|exists DeleteTree|exists Mkdir]; by eexists.
  - intros (op & scope & Hs). exists a. split; [|done].
    destruct op; simpl in Hs; case_match eqn:E; try done; apply String.eqb_eq in E as ->;
      set_solver.
Qed.

Lemma decide_admin_permit lp req :
  is_permit (decide_admin lp (action req)).1 = true ->
  class_of (action req) = Some CLiveness \/ action req = "admin.whoami" \/
  class_of (action req) = Some CAdmin /\ action req ∈ GRANTABLE_ACTIONS /\
    exists s, evaluate3_action (lp_action_grants lp) "admin" (action req) = AllowMatch s.
Proof.
  unfold decide_admin. destruct (class_of (action req)) as [[]|]; try done; [by left|].
  destruct (String.eqb_spec (action req) "admin.whoami"); [by right; left|].
  destruct (existsb _ GRANTABLE_ACTIONS) eqn:Eg; [|done].
  apply existsb_true in Eg as (t & Ht & ->%String.eqb_eq).
  destruct (evaluate3_action _ _ _) as [s| |]; try done. intros _. right. right. eauto.
Qed.

Lemma fs_term_class a : is_fs_term a = true -> class_of a = Some CFs.
Proof.
  unfold is_fs_term. rewrite existsb_true. intros (x & Hx & ->%String.eqb_eq).
  rewrite !elem_of_cons in Hx.
  destruct Hx as [->|[->|[->|[->|Hx]]]]; [reflexivity..|inversion Hx].
Qed.

Lemma fs_arm_permit lp req key entry :
  is_permit (match attempt_scope req with
             | Ok scope => decide_fs lp req key scope entry
             | Err v => (v, None)
             end).1 = true <-> fs_granted lp req entry.
Proof.
  unfold fs_granted. split.
  - destruct (attempt_scope req) as [scope|v] eqn:Es.
    + intros (path & home & s & ? & ? & ? & ?)%decide_fs_permit.
      apply attempt_scope_Ok in Es as (op & ? & ? & ? & ?). by exists op, scope, path, home, s.
    + apply attempt_scope_Err in Es as (r & ->). done.
  - intros (op & scope & path & home & s & ? & ? & ? & ? & ? & ? & ? & ?).
    assert (attempt_scope req = Ok scope) as -> by (apply attempt_scope_Ok; by exists op).
    apply decide_fs_permit. by exists path, home, s.
Qed.

Lemma fs_granted_term lp req entry : fs_granted lp req entry -> is_fs_term (action req) = true.
Proof. intros (op & scope & ? & ? & ? & ? & ? & ? & _). apply is_fs_term_spec. eauto. Qed.

Lemma decide_class_permit key a :
  is_permit (decide_class key a).1 = true <-> class_of a = Some CLiveness.
Proof. unfold decide_class. by destruct (class_of a) as [[]|]. Qed.

Lemma role_permits_arm lp req uid r :
  r <> Adversary -> role_permits lp req uid r ->
  is_permit (match r with
    | Guest => decide_class (role_key r) (action req)
    | _ =>
        if is_fs_term (action req) then
          match attempt_scope req with
          | Ok scope => decide_fs lp req (role_key r) scope (lp_subjects lp !! uid)
          | Err v => (v, None)
          end
        else if String.eqb (action req) "session.prompt" then
          decide_prompt lp req (role_key r) (lp_subjects lp !! uid)
        else match r with
             | Admin => decide_admin lp (action req)
             | _ => decide_class (role_key r) (action req)
             end
    end).1 = true.
Proof.
  intros Hr Hp.
  assert (class_of (action req) <> Some CFs -> is_fs_term (action req) = false) as Hfs.
  { intros Hc. apply not_true_iff_false. intros ?%fs_term_class. done. }
  assert (class_of (action req) <> Some CSession ->
          String.eqb (action req) "session.prompt" = false) as Hse.
  { intros Hc. apply String.eqb_neq. intros E. by rewrite E in Hc. }
  destruct Hp as [r Hc|Ha|s Hc Hg He|r Hor Hf|r Hor Ha Hpr].
  - rewrite Hfs, Hse by congruence. unfold decide_admin, decide_class. rewrite Hc. by destruct r.
  - rewrite Ha in *. reflexivity.
  - rewrite Hfs, Hse by congruence. unfold decide_admin. rewrite Hc, He.
    assert (existsb (String.eqb (action req)) GRANTABLE_ACTIONS = true) as ->.
    { apply existsb_true. exists (action req). by rewrite String.eqb_refl. }
    by case_match.
  - rewrite (fs_granted_term _ _ _ Hf).
    apply (fs_arm_permit _ _ (role_key r)) in Hf. by destruct Hor as [->| ->].
  - rewrite Hfs by (rewrite Ha; vm_compute; congruence).
    rewrite Ha. apply decide_prompt_permit in Hpr. by destruct Hor as [->| ->].
Qed.

Lemma decide_role_permit lp req uid r :
  is_permit (decide_role lp req uid r).1 = true <->
  r <> Adversary /\ action_unlimited (lp_subjects lp !! uid) (action req) /\
  role_permits lp req uid r.
Proof.
  unfold decide_role. split.
  - intros Hp. assert (r <> Adversary) as Hr by (by intros ->). split; [done|].
    destruct (action_limit _ _) as [v|] eqn:El.
    { apply action_limit_deny in El as (s & ->). by destruct r. }
    split; [by apply action_limit_None|].
    assert (r = Guest \/ r = Admin \/ r = User) as [->|Hor]
      by (destruct r; [auto..|done]).
    { by apply permits_liveness, (decide_class_permit (role_key Guest)). }
    assert (r = Admin \/ r = User) as Hor' by done.
    destruct (is_fs_term (action req)).
    { apply permits_fs; [done|]. apply (fs_arm_permit _ _ (role_key r)).
      by destruct Hor as [->| ->]. }
    destruct (String.eqb_spec (action req) "session.prompt").
    { apply permits_prompt; [done..|]. apply decide_prompt_permit. by destruct Hor as [->| ->]. }
    destruct Hor as [->| ->].
    + apply decide_admin_permit in Hp as [?|[?|(? & ? & s & ?)]].
      * by apply permits_liveness.
      * by apply permits_whoami.
      * by eapply permits_grant.
    + by apply permits_liveness, (decide_class_permit (role_key User)).
  - intros (Hr & Hu & Hp). apply action_limit_None in Hu. rewrite Hu.
    pose proof (role_permits_arm lp req uid r Hr Hp). by destruct r.
Qed.
End Reference.

(** ** Lemmas: the audit obligation *)

Definition audited (v : Verdict) : Prop := forall os, v = Permit os -> os = [audit_obligation].

Lemma audited_permit : audited permit_with_audit.
Proof. intros os [= <-]. done. Qed.
Lemma audited_other v : is_permit v = false -> audited v.
Proof. intros H os ->. done. Qed.

Ltac solve_audited :=
  repeat case_match; simplify_eq/=; first [apply audited_permit | by apply audited_other].

Lemma decide_fs_audited {R} (lp : LoadedPolicy R) req key scope entry :
  audited (decide_fs lp req key scope entry).1.
Proof. unfold decide_fs, decide_fs_matched. solve_audited. Qed.

Lemma decide_prompt_audited {R} (lp : LoadedPolicy R) req key entry :
  audited (decide_prompt lp req key entry).1.
Proof. unfold decide_prompt. solve_audited. Qed.

Lemma decide_role_audited {R} (lp : LoadedPolicy R) req uid r :
  audited (decide_role lp req uid r).1.
Proof.
  unfold decide_role. destruct (action_limit _ _) as [v|] eqn:El.
  { apply action_limit_deny in El as (s & ->). destruct r; by apply audited_other. }
  assert (forall key a, audited (decide_class key a).1) as Hc.
  { intros. unfold decide_class. solve_audited. }
  assert (audited (decide_admin lp (action req)).1) as Ha.
  { unfold decide_admin. solve_audited. }
  assert (forall key, audited (match attempt_scope req with
            | Ok scope => decide_fs lp req key scope (lp_subjects lp !! uid)
            | Err v => (v, None)
            end).1) as Hf.
  { intros key. destruct (attempt_scope req) eqn:Es; [apply decide_fs_audited|].
    apply attempt_scope_Err in Es as (s & ->). by apply audited_other. }
  destruct r; [| |auto|by apply audited_other];
    (destruct (is_fs_term _); [apply Hf|]); (destruct (String.eqb _ "session.prompt");
      [apply decide_prompt_audited|auto]).
Qed.

Lemma decided_role {R} `{RoleSource R} (lp : LoadedPolicy R) p req uid r :
  uid_of req = Ok (Some uid) -> class_of (action req) <> Some CKernel ->
  role_for (lp_roles lp) uid p = RRole r ->
  decide_loaded_cited lp p req =
  mkBasicDecided (decide_role lp req uid r).1 (Some (role_key r)) (decide_role lp req uid r).2.
Proof.
  intros Hu Hk Hr. unfold decide_loaded_cited. rewrite Hu, Hr.
  rewrite bool_decide_eq_false_2 by done. by destruct (decide_role lp req uid r).
Qed.

Lemma decide_loaded_permitted {R} `{RoleSource R} (lp : LoadedPolicy R) principal_uid req :
  is_permit (bd_verdict (decide_loaded_cited lp principal_uid req)) = true <->
  permitted lp principal_uid req.
Proof.
  unfold permitted, decide_loaded_cited.
  destruct (uid_of req) as [[uid|]|]; [|naive_solver..].
  case_bool_decide as Hk.
  - simpl. unfold kernel_decided, is_kernel_initiator. split.
    + unfold attr_str. destruct (Seam.subject req !! SUBJECT_INITIATOR) as [[s| | |]|]; try done.
      destruct (String.eqb_spec s INITIATOR_KERNEL) as [->|]; [|done].
      destruct (String.eqb_spec (action req) "kernel.contain"); [|done]. intros _.
      exists uid. split; [done|]. by left.
    + intros (u & [= <-] & [[Ha Hi%attr_str_Some]|(r & _ & _ & Hn & _)]); [|done].
      by rewrite Hi, Ha.
  - destruct (role_for (lp_roles lp) uid principal_uid) as [r|] eqn:Er; simpl.
    + pose proof (decide_role_permit lp req uid r) as Hd.
      destruct (decide_role lp req uid r) as [v c]. simpl in *. rewrite Hd. split.
      * intros (? & ? & ?). exists uid. split; [done|]. right. by exists r.
      * intros (u & [= <-] & [[Ha _]|(r' & Hr' & ? & _ & ? & ?)]).
        { by rewrite Ha in Hk. }
        rewrite Er in Hr'. injection Hr' as <-. done.
    + split; [done|]. intros (u & [= <-] & [[Ha _]|(r & Hr & _)]); [by rewrite Ha in Hk|congruence].
Qed.

Lemma decide_loaded_audited {R} `{RoleSource R} (lp : LoadedPolicy R) principal_uid req :
  audited (bd_verdict (decide_loaded_cited lp principal_uid req)).
Proof.
  unfold decide_loaded_cited. intros os Hp. destruct (uid_of req) as [[uid|]|]; try done.
  case_bool_decide; simpl in Hp.
  - revert Hp. unfold kernel_decided, permit_with_audit. repeat case_match; congruence.
  - destruct (role_for _ _ _) as [r|]; [|done].
    pose proof (decide_role_audited lp req uid r) as Ha.
    destruct (decide_role lp req uid r). by apply Ha.
Qed.

(** ** Theorems *)

Section Theorems.
Context {R : Type} `{RoleSource R}.

(** C23: the baseline permits exactly what the reference permits: the kernel's
    own containment action, or a request of a resolved, uncontained role whose
    subject limits let the action through and whose role reaches it (liveness,
    [admin.whoami], an admin grant, the path policy, a prompt to a listed
    destination). *)
Theorem basic_permit_iff (lp : LoadedPolicy R) (principal_uid : Z) (req : Request) :
  is_permit (bd_verdict (decide_loaded_cited lp principal_uid req)) = true <->
  permitted lp principal_uid req.
Proof. apply decide_loaded_permitted. Qed.

(** every permit of the baseline carries the audit obligation and nothing
    else, so a permit can never be taken unaudited. *)
Theorem basic_permit_audited (lp : LoadedPolicy R) (principal_uid : Z) (req : Request)
    (os : list Obligation)
    (Hp : bd_verdict (decide_loaded_cited lp principal_uid req) = Permit os) :
  os = [audit_obligation].
Proof. by apply (decide_loaded_audited lp principal_uid req). Qed.

(** containment is absolute: whatever the policy, the limits and the
    request, a subject whose role is [adversary] is denied, with the role
    reported, unless the action is the kernel's own class. *)
Theorem adversary_denied (lp : LoadedPolicy R) (principal_uid uid : Z) (req : Request)
    (Hu : uid_of req = Ok (Some uid))
    (Hr : role_for (lp_roles lp) uid principal_uid = RRole Adversary)
    (Hk : class_of (action req) <> Some CKernel) :
  decide_loaded_cited lp principal_uid req =
  mkBasicDecided (Deny "subject contained: role=adversary") (Some "adversary") None.
Proof. by rewrite (decided_role _ _ _ _ _ Hu Hk Hr). Qed.

(** The request an operation makes of the path policy at one path, and the
    paths it touches when it is attempted at [path]. *)
Definition request_at (op : FsOperation) (target : Path) : FsRequest :=
  match op with FsRead => RRead target | _ => RWrite target end.
Definition touches (op : FsOperation) (path target : Path) : Prop :=
  match op with
  | DeleteTree => utf8_valid target = true /\ exists suf, comps target = comps path ++ suf
  | _ => target = path
  end.

(** a permitted filesystem action was prepared for this operation by a
    local subject on a canonical path, and for every path the operation touches
    (the whole subtree for a recursive delete) no deny entry in force matches
    and an allow entry in force does. *)
Theorem fs_permit_sound (lp : LoadedPolicy R) (principal_uid uid : Z) (req : Request)
    (Hpol : wf_policy (lp_policy lp))
    (Hsub : wf_subject (lp_subjects lp !! uid ≫= se_permissions))
    (Hu : uid_of req = Ok (Some uid))
    (Hf : class_of (action req) = Some CFs)
    (Hp : is_permit (bd_verdict (decide_loaded_cited lp principal_uid req)) = true) :
  exists op path home,
    (attr_str (context req) CONTEXT_FS_OPERATION ≫= fs_parse) = Some op /\
    attr_str (context req) CONTEXT_DAC_LANE = Some (lane_as_str LaneLocal) /\
    attr_str (resource req) RESOURCE_PATH = Some path /\ canonical_violation path = None /\
    home_of req = Ok home /\
    let set := lp_subjects lp !! uid ≫= se_permissions in
    forall target, touches op path target ->
      ~ hits (matches_req (request_at op target) (valid_home home))
          (deny_patterns (lp_policy lp) set) /\
      hits (matches_req (request_at op target) (valid_home home))
        (allow_patterns (lp_policy lp) set).
Proof.
  apply decide_loaded_permitted in Hp as (u & Hu' & [[Ha _]|(r & _ & _ & _ & _ & Hp)]).
  { by rewrite Ha in Hf. }
  rewrite Hu in Hu'. injection Hu' as <-.
  destruct Hp as [r Hc|Ha|s Hc _ _|r _ Hg|r _ Ha _]; try congruence;
    try (by rewrite Ha in Hf).
  destruct Hg as (op & scope & path & home & s & Hl & Ho & Hs & _ & Hpa & Hcan & Hh & He).
  exists op, path, home. split_and!; try done. simpl. intros target Ht.
  destruct op; simpl in Hs, Ht; case_match; simplify_eq; simpl in He |- *;
    try (by eapply evaluate3_allow_hits).
  destruct Ht as [Hv [suf Hsuf]].
  destruct (subtree_allow_inv _ _ _ _ _ He) as (text & Htext & _).
  assert (to_str target = Some target) as Htt by (unfold to_str; by rewrite Hv).
  unfold to_str in Htext. destruct (utf8_valid path) eqn:Ev; [|done]. simplify_eq.
  eapply subtree_allow_hits; try done. unfold to_str. by rewrite Ev.
Qed.

(** admin is management authority, not filesystem privilege: with the same
    path policy and limits an admin and a user get the same permits, the same
    denies and the same citation on every filesystem term. *)
Theorem admin_user_share_fs (lp lp' : LoadedPolicy R) (principal_uid uid : Z) (req : Request)
    (Hpol : lp_policy lp = lp_policy lp') (Hsub : lp_subjects lp = lp_subjects lp')
    (Hu : uid_of req = Ok (Some uid)) (Hf : is_fs_term (action req) = true)
    (Hr : role_for (lp_roles lp) uid principal_uid = RRole Admin)
    (Hr' : role_for (lp_roles lp') uid principal_uid = RRole User) :
  let d := decide_loaded_cited lp principal_uid req in
  let d' := decide_loaded_cited lp' principal_uid req in
  is_permit (bd_verdict d) = is_permit (bd_verdict d') /\
  is_deny (bd_verdict d) = is_deny (bd_verdict d') /\
  bd_cited d = bd_cited d'.
Proof.
  assert (class_of (action req) <> Some CKernel) as Hk by (by rewrite fs_term_class).
  rewrite (decided_role _ _ _ _ _ Hu Hk Hr), (decided_role _ _ _ _ _ Hu Hk Hr'). simpl.
  unfold decide_role. rewrite Hf, <-Hsub.
  destruct (action_limit _ _); [done|]. destruct (attempt_scope req); [|done].
  unfold decide_fs, decide_fs_matched. rewrite <-Hpol. by repeat case_match.
Qed.

(** The policy with every subject's action and model limits removed. *)
Definition without_limits (lp : LoadedPolicy R) : LoadedPolicy R :=
  mkLoaded (lp_policy lp) (lp_roles lp) (lp_action_grants lp) (lp_destinations lp)
    ((fun e => mkSubjectEntry (se_name e) (se_permissions e) None None) <$> lp_subjects lp).

(** a subject's action and model limits only narrow: whatever is permitted
    under them is permitted without them. *)
Theorem limits_only_narrow (lp : LoadedPolicy R) (principal_uid : Z) (req : Request)
    (Hp : is_permit (bd_verdict (decide_loaded_cited lp principal_uid req)) = true) :
  is_permit (bd_verdict (decide_loaded_cited (without_limits lp) principal_uid req)) = true.
Proof.
  apply decide_loaded_permitted. apply decide_loaded_permitted in Hp as (uid & Hu & Hp).
  exists uid. split; [done|]. destruct Hp as [?|(r & Hr & Hne & Hk & _ & Hp)]; [by left|right].
  exists r. split_and!; try done.
  - intros e set He Hs. simpl in He. rewrite lookup_fmap in He.
    destruct (lp_subjects lp !! uid); simpl in He; by simplify_eq.
  - assert (lp_subjects (without_limits lp) !! uid ≫= se_permissions
            = lp_subjects lp !! uid ≫= se_permissions) as Hse.
    { simpl. rewrite lookup_fmap. by destruct (lp_subjects lp !! uid). }
    destruct Hp as [r Hc|Ha|s Hc Hg He|r Hor Hf|r Hor Ha Hpr].
    + by apply permits_liveness.
    + by apply permits_whoami.
    + by eapply permits_grant.
    + apply permits_fs; [done|]. unfold fs_granted in *. by rewrite Hse.
    + apply permits_prompt; [done..|].
      destruct Hpr as (s & d & l & Hs & Hd & Hl & Hin & _). exists s, d, l. split_and!; try done.
      intros e models He Hm. simpl in He. rewrite lookup_fmap in He.
      destruct (lp_subjects lp !! uid); simpl in He; by simplify_eq.
Qed.
End Theorems.

(** ** The action vocabulary *)

Lemma vocabulary_dotted t : t ∈ ACTION_VOCABULARY -> contains_char "." t = true.
Proof.
  intros Ht. assert (forallb (contains_char ".") ACTION_VOCABULARY = true) as Hf by reflexivity.
  rewrite forallb_true in Hf. auto.
Qed.

Lemma dotless_class f c : contains_char "." f = false -> class_of f = Some c -> f = class_key c.
Proof.
  intros Hd Hc%class_of_spec. apply in_class_spec in Hc as [?|(r & ->)]; [done|].
  exfalso. by destruct c.
Qed.

(** The terms an entry [s] stands for: itself, or the family before [.*]. *)
Definition entry_names (s t : string) : Prop :=
  t = s \/ exists f r, s = f +:+ ".*" /\ t = f +:+ "." +:+ r.

Lemma expand_family f c t :
  contains_char "." f = false -> class_of f = Some c -> t ∈ ACTION_VOCABULARY ->
  class_of t = Some c <-> entry_names (f +:+ ".*") t.
Proof.
  intros Hd Hc Ht. pose proof (dotless_class f c Hd Hc) as ->. unfold entry_names.
  rewrite class_of_spec, in_class_spec. split.
  - intros [->|(r & ->)]; right.
    + apply vocabulary_dotted in Ht. congruence.
    + by exists (class_key c), r.
  - intros [->|(f & r & Hf & ->)]; right.
    + by exists "*".
    + apply str_app_inj_r in Hf as <-. by exists r.
Qed.

(** a written action entry expands to exactly the vocabulary terms it
    names: a term is in the expansion, carrying the entry as written, when it is
    in the closed vocabulary and equals the entry or belongs to the entry's
    family. No kernel or liveness term is ever named. *)
Theorem expand_exact (s : string) (p : ActionPattern) (ts : list Grant)
    (Hs : action_parse s = Ok p) (He : expand p = Ok ts) :
  (forall t src, (t, src) ∈ ts <-> src = s /\ t ∈ ACTION_VOCABULARY /\ entry_names s t) /\
  (forall t src, (t, src) ∈ ts -> class_of t <> Some CKernel /\ class_of t <> Some CLiveness).
Proof.
  assert (forall t src, (t, src) ∈ ts <-> src = s /\ t ∈ ACTION_VOCABULARY /\ entry_names s t)
    as Hts; [|split; [done|]].
  - pose proof (action_parse_source s p Hs) as Hsrc. unfold expand in He. rewrite Hsrc in He.
    assert (exists c keep, class_of (pattern_name p) = Some c /\
      keep = (fun t => match p with
                       | Exact e => String.eqb t e
                       | Family _ => bool_decide (class_of t = Some c) end) /\
      ts = map (fun t => (t, s)) (List.filter keep ACTION_VOCABULARY)) as (c & keep & Hc & Hk & ->).
    { destruct (class_of (pattern_name p)) as [c|]; [|done].
      exists c; eexists. split_and!; [done..|]. destruct c; try done; repeat case_match; congruence. }
    intros t src. rewrite elem_of_map. setoid_rewrite elem_of_bfilter. subst keep.
    apply action_parse_cases in Hs as [(-> & Hn)|(f & -> & -> & Hd)]; simpl in Hc.
    + setoid_rewrite String.eqb_eq. unfold entry_names. split.
      * intros (x & [= -> ->] & Hx & ->). auto.
      * intros (-> & Ht & [->|(f & r & Hf & _)]); [|by destruct (Hn f)].
        by exists s.
    + setoid_rewrite bool_decide_eq_true. split.
      * intros (x & [= -> ->] & Hx & Hcx). split_and!; try done. by eapply expand_family.
      * intros (-> & Ht & Hen). exists t. split_and!; try done. by eapply expand_family.
  - intros t src (_ & Ht & _)%Hts.
    assert (forallb (fun t => negb (bool_decide (class_of t = Some CKernel)) &&
              negb (bool_decide (class_of t = Some CLiveness))) ACTION_VOCABULARY = true) as Hv
      by reflexivity.
    rewrite forallb_true in Hv. specialize (Hv t Ht). apply andb_true_iff in Hv as [H1 H2].
    by rewrite !negb_true_iff, !bool_decide_eq_false in *.
Qed.

(** a path that passes the canonical-form gate is determined by its
    components, so two spellings of one path cannot both reach the matcher. *)
Theorem canonical_paths_inj (p q : Path) (Hp : canonical_violation p = None)
    (Hq : canonical_violation q = None) (Hc : comps p = comps q) : p = q.
Proof.
  apply canonical_comps in Hp as (_ & _ & ->). apply canonical_comps in Hq as (_ & _ & ->).
  by rewrite Hc.
Qed.

(** ** Witnesses *)

#[export] Instance fixed_role : RoleSource Resolution := fun r _ _ => r.

Definition demo_loaded (r : Role) : LoadedPolicy Resolution :=
  mkLoaded demo_policy (RRole r) ∅ ∅ {[1000%Z := mkSubjectEntry "op" None None None]}.

Definition demo_request (act op path : string) : Request :=
  mkRequest {[SUBJECT_UID := AInt 1000; SUBJECT_HOME := AStr "/home/op"]}
    {[RESOURCE_PATH := AStr path]} act
    {[CONTEXT_DAC_LANE := AStr "local"; CONTEXT_FS_OPERATION := AStr op]}.

Definition demo_write : Request := demo_request "fs.write" "write-create" "/home/op/projects/a".
Definition demo_rmtree : Request := demo_request "fs.delete" "delete-tree" "/home/op/projects/a".

Lemma basic_permit_audited_witness :
  exists os, bd_verdict (decide_loaded_cited (demo_loaded User) 0 demo_write) = Permit os /\
    os = [audit_obligation].
Proof.
  exists [audit_obligation]. split; [reflexivity|].
  apply (basic_permit_audited (demo_loaded User) 0 demo_write). reflexivity.
Defined.

Lemma adversary_denied_witness :
  bd_verdict (decide_loaded_cited (demo_loaded Adversary) 0 demo_write)
  = Deny "subject contained: role=adversary".
Proof.
  rewrite (adversary_denied (demo_loaded Adversary) 0 1000 demo_write);
    [reflexivity..|discriminate].
Defined.

Lemma fs_permit_sound_witness :
  exists op path home,
    attr_str (resource demo_rmtree) RESOURCE_PATH = Some path /\ home_of demo_rmtree = Ok home /\
    forall target, touches op path target ->
      ~ hits (matches_req (request_at op target) (valid_home home))
          (deny_patterns demo_policy None).
Proof.
  destruct (fs_permit_sound (demo_loaded Admin) 0 1000 demo_rmtree)
    as (op & path & home & _ & _ & Hp & _ & Hh & Hall); try reflexivity; try exact I.
  - split; repeat constructor; discriminate.
  - exists op, path, home. split; [exact Hp|]. split; [exact Hh|].
    intros target Ht. apply (Hall target Ht).
Defined.

Lemma admin_user_share_fs_witness :
  is_permit (bd_verdict (decide_loaded_cited (demo_loaded User) 0 demo_rmtree)) = true.
Proof.
  destruct (admin_user_share_fs (demo_loaded Admin) (demo_loaded User) 0 1000 demo_rmtree)
    as [H _]; try reflexivity.
Defined.

Lemma limits_only_narrow_witness :
  is_permit (bd_verdict (decide_loaded_cited
    (without_limits (mkLoaded demo_policy (RRole User) ∅ ∅
       {[1000%Z := mkSubjectEntry "op" None (Some (mkActionSet {["fs.write" := "fs.write"]} ∅))
          None]})) 0 demo_write)) = true.
Proof.
  apply (limits_only_narrow (mkLoaded demo_policy (RRole User) ∅ ∅
    {[1000%Z := mkSubjectEntry "op" None (Some (mkActionSet {["fs.write" := "fs.write"]} ∅)) None]})).
  reflexivity.
Defined.

Lemma expand_exact_witness :
  exists ts, expand (Family "fs") = Ok ts /\ ("fs.mkdir", "fs.*") ∈ ts.
Proof.
  destruct (expand (Family "fs")) as [ts|] eqn:E; [|discriminate E].
  exists ts. split; [reflexivity|].
  apply (proj1 (expand_exact "fs.*" (Family "fs") ts eq_refl E) "fs.mkdir" "fs.*").
  split; [reflexivity|]. split; [set_solver|]. right. exists "fs", "mkdir". split; reflexivity.
Defined.

Lemma canonical_paths_inj_witness : comps "/etc/maknae" = ["etc"; "maknae"] /\ "/etc/maknae" = "/etc/maknae".
Proof. split; [reflexivity|]. apply (canonical_paths_inj "/etc/maknae" "/etc/maknae"); reflexivity. Defined.
