(* ===== verification/Graph.v ===== *)
(** * The typed graph: [crates/maknae-graph]

    [record.rs], [schema.rs], [kernel.rs] and [graph.rs]: records, the kernel
    schema, the builder's checks, the sorted indices of a built graph and its
    lookups. The binary codec is in GraphFormat.

    A [u32] index is a [nat]; [index_u32] panics above the width, and every
    value the indices hold has been through it. *)
From stdpp Require Import base list strings gmap sorting.
From Stdlib Require Import ZArith Lia Ascii.
From S2P Require Import Prelude RustStr RustSlice.
Open Scope nat_scope.

(** ** Records ([record.rs]) *)

Inductive GraphSpace := Shared | UserSpace (subject : Z) | KernelSpace.
#[export] Instance GraphSpace_eq_dec : EqDecision GraphSpace.
Proof. solve_decision. Defined.

Inductive ProvenanceKind := PCompiled | PSeed | PRootFile | POperator | PKernel.
#[export] Instance ProvenanceKind_eq_dec : EqDecision ProvenanceKind.
Proof. solve_decision. Defined.

Definition prov_code (p : ProvenanceKind) : Z :=
  match p with PCompiled => 1 | PSeed => 2 | PRootFile => 3 | POperator => 4 | PKernel => 5 end.
Definition prov_from_code (code : Z) : option ProvenanceKind :=
  match code with
  | 1 => Some PCompiled | 2 => Some PSeed | 3 => Some PRootFile | 4 => Some POperator
  | 5 => Some PKernel | _ => None
  end%Z.

Record Provenance := mkProv { pv_kind : ProvenanceKind; pv_transition : Z }.

Inductive GAttr := GStr (s : string) | GU64 (n : Z).
#[export] Instance GAttr_eq_dec : EqDecision GAttr.
Proof. solve_decision. Defined.
Abbreviation Attrs := (gmap string GAttr).

Record NodeRecord := mkNode {
  n_id : Z;
  n_space : GraphSpace;
  n_kind : Z;
  n_key : string;
  n_label : string;
  n_prov : Provenance;
  n_revision : Z;
  n_attrs : Attrs }.

Record EdgeRecord := mkEdge {
  e_id : Z;
  e_space : GraphSpace;
  e_from : Z;
  e_to : Z;
  e_kind : Z;
  e_label : string;
  e_prov : Provenance;
  e_revision : Z;
  e_attrs : Attrs }.

#[export] Instance Provenance_eq_dec : EqDecision Provenance.
Proof. solve_decision. Defined.
#[export] Instance NodeRecord_eq_dec : EqDecision NodeRecord.
Proof. solve_decision. Defined.
#[export] Instance EdgeRecord_eq_dec : EqDecision EdgeRecord.
Proof. solve_decision. Defined.

(** ** Schemas ([schema.rs]) *)

Record Schema := mkSchema {
  sc_version : Z;
  sc_node_kinds : list (Z * string);
  sc_edge_kinds : list (Z * string);
  sc_triples : list (Z * Z * Z);
  sc_compiled_kinds : list Z;
  sc_forbidden_targets : list (Z * Z * string) }.

Definition node_kind_name (s : Schema) (kind : Z) : option string :=
  snd <$> List.find (fun p => Z.eqb (fst p) kind) (sc_node_kinds s).
Definition edge_kind_name (s : Schema) (kind : Z) : option string :=
  snd <$> List.find (fun p => Z.eqb (fst p) kind) (sc_edge_kinds s).
Definition allows (s : Schema) (from edge to : Z) : bool :=
  bool_decide ((from, edge, to) ∈ sc_triples s).
Definition is_compiled (s : Schema) (kind : Z) : bool :=
  bool_decide (kind ∈ sc_compiled_kinds s).
Definition forbids_target (s : Schema) (edge to : Z) (key : string) : bool :=
  existsb (fun '(e, n, k) => Z.eqb e edge && Z.eqb n to && String.eqb k key)
    (sc_forbidden_targets s).

Record CompiledNode := mkCompiled {
  c_kind : Z;
  c_key : string;
  c_label : string;
  c_attrs : Attrs }.
Abbreviation CompiledSet := (list CompiledNode).

Definition compiled_get (s : CompiledSet) (kind : Z) (key : string) : option CompiledNode :=
  List.find (fun c => Z.eqb (c_kind c) kind && String.eqb (c_key c) key) s.

(** ** The kernel schema ([kernel.rs]) *)

Definition SCHEMA_VERSION : Z := 1.

Definition CONFIG_SOURCE : Z := 1.
Definition SECTION : Z := 2.
Definition SUBJECT : Z := 3.
Definition ROLE : Z := 4.
Definition RULE : Z := 5.
Definition TERM : Z := 6.
Definition CLASS : Z := 7.
Definition CLASSIFICATION_SYSTEM : Z := 8.
Definition LEVEL : Z := 9.
Definition CONTAINMENT : Z := 10.
Definition PENDING_CHANGE : Z := 11.
Definition SYNC_BASE : Z := 12.
Definition INSTANCE : Z := 13.

Definition BINDS : Z := 1.
Definition CONTAINED : Z := 2.
Definition PERMITS : Z := 3.
Definition DENIES : Z := 4.
Definition MATCHES : Z := 5.
Definition MEMBER_OF : Z := 6.
Definition DOMINATES : Z := 7.
Definition DECLARES : Z := 8.
Definition DECLARED_BY : Z := 9.
Definition PART_OF : Z := 10.
Definition PENDING_FOR : Z := 11.
Definition LEVEL_OF : Z := 12.

Definition ADVERSARY := "adversary".
Definition ROLES : list string := ["admin"; "user"; "guest"; ADVERSARY].
Definition VOCABULARY_SOURCE_KEY := "binary:vocabulary".
Definition ATTR_SHA256 := "sha256".
Definition ATTR_NAME := "name".
Definition ATTR_UID := "uid".
Definition ATTR_ALIASES := "aliases".
Definition ATTR_VALUE := "value".
Definition ATTR_BASE := "base".
Definition ATTR_LIVE := "live".
Definition ATTR_CONFLICTS := "conflicts".

Definition persisted_compiled_set (label : string) : CompiledSet :=
  map (fun r => mkCompiled ROLE r label ∅) ROLES.

Definition SCHEMA : Schema :=
  mkSchema SCHEMA_VERSION
    [(CONFIG_SOURCE, "ConfigSource"); (SECTION, "Section"); (SUBJECT, "Subject");
     (ROLE, "Role"); (RULE, "Rule"); (TERM, "Term"); (CLASS, "Class");
     (CLASSIFICATION_SYSTEM, "ClassificationSystem"); (LEVEL, "Level");
     (CONTAINMENT, "Containment"); (PENDING_CHANGE, "PendingChange");
     (SYNC_BASE, "SyncBase"); (INSTANCE, "Instance")]
    [(BINDS, "binds"); (CONTAINED, "contained"); (PERMITS, "permits"); (DENIES, "denies");
     (MATCHES, "matches"); (MEMBER_OF, "member_of"); (DOMINATES, "dominates");
     (DECLARES, "declares"); (DECLARED_BY, "declared_by"); (PART_OF, "part_of");
     (PENDING_FOR, "pending_for"); (LEVEL_OF, "level_of")]
    [(SUBJECT, BINDS, ROLE); (SUBJECT, CONTAINED, CONTAINMENT); (ROLE, PERMITS, RULE);
     (ROLE, DENIES, RULE); (RULE, MATCHES, TERM); (TERM, MEMBER_OF, CLASS);
     (LEVEL, DOMINATES, LEVEL); (LEVEL, LEVEL_OF, CLASSIFICATION_SYSTEM);
     (INSTANCE, DECLARES, CLASSIFICATION_SYSTEM); (SECTION, PART_OF, CONFIG_SOURCE);
     (PENDING_CHANGE, PENDING_FOR, SECTION); (SUBJECT, DECLARED_BY, SECTION);
     (RULE, DECLARED_BY, SECTION); (CLASSIFICATION_SYSTEM, DECLARED_BY, SECTION);
     (LEVEL, DECLARED_BY, SECTION); (INSTANCE, DECLARED_BY, SECTION);
     (CONTAINMENT, DECLARED_BY, SECTION); (SYNC_BASE, PART_OF, CONFIG_SOURCE)]
    [ROLE; TERM; CLASS]
    [(BINDS, ROLE, ADVERSARY)].

(** ** Builder and graph ([graph.rs]) *)

Inductive GraphError :=
| UnknownNodeKind (k : Z)
| UnknownEdgeKind (k : Z)
| DuplicateNodeId (id : Z)
| DuplicateEdgeId (id : Z)
| DuplicateKey (kind : Z) (key : string)
| EmptyKey (id : Z)
| EmptyLabel
| SpaceMismatch
| DanglingEdge (id : Z)
| ForbiddenTriple (from edge to : Z)
| ForbiddenTarget (id : Z)
| CompiledProvenance (id : Z)
| CompiledEdgeProvenance (id : Z)
| CompiledMismatch (kind : Z) (key : string)
| CompiledMissing (kind : Z) (key : string)
| ExpansionLimit.

Record GraphBuilder := mkBuilder {
  b_space : GraphSpace;
  b_revision : Z;
  b_nodes : list NodeRecord;
  b_edges : list EdgeRecord }.

Definition builder_new (space : GraphSpace) (revision : Z) : GraphBuilder :=
  mkBuilder space revision [] [].
Definition b_node (b : GraphBuilder) (n : NodeRecord) : GraphBuilder :=
  mkBuilder (b_space b) (b_revision b) (b_nodes b ++ [n]) (b_edges b).
Definition b_edge (b : GraphBuilder) (e : EdgeRecord) : GraphBuilder :=
  mkBuilder (b_space b) (b_revision b) (b_nodes b) (b_edges b ++ [e]).

Record Graph := mkGraph {
  g_space : GraphSpace;
  g_revision : Z;
  g_schema_version : Z;
  g_nodes : list NodeRecord;
  g_edges : list EdgeRecord;
  g_out_offsets : list nat;
  g_in_offsets : list nat;
  g_in_edges : list nat;
  g_keys : list (Z * string * nat) }.

(** [u32::try_from(i).expect(..)]. *)
Definition index_u32 {E} (i : nat) : result nat (fault E) :=
  if (Z.of_nat i <? u32_max)%Z then Ok i else Err Panic.

Definition check_node (n : NodeRecord) (space : GraphSpace) (schema : Schema)
    (compiled : CompiledSet) : result unit GraphError :=
  if is_none (node_kind_name schema (n_kind n)) then Err (UnknownNodeKind (n_kind n))
  else if negb (bool_decide (n_space n = space)) then Err SpaceMismatch
  else if is_empty (n_key n) then Err (EmptyKey (n_id n))
  else if is_empty (n_label n) then Err EmptyLabel
  else
    let compiled_provenance := bool_decide (pv_kind (n_prov n) = PCompiled) in
    if is_compiled schema (n_kind n) then
      if negb compiled_provenance then Err (CompiledProvenance (n_id n))
      else
        match compiled_get compiled (n_kind n) (n_key n) with
        | Some c =>
            if bool_decide (c_attrs c = n_attrs n) && String.eqb (c_label c) (n_label n)
               && Z.eqb (n_revision n) 0 && Z.eqb (pv_transition (n_prov n)) 0
            then Ok tt
            else Err (CompiledMismatch (n_kind n) (n_key n))
        | None => Err (CompiledMismatch (n_kind n) (n_key n))
        end
    else if compiled_provenance then Err (CompiledProvenance (n_id n))
    else Ok tt.

Definition position_in (nodes : list NodeRecord) (id : Z) : option nat :=
  binary_search_by_key id n_id nodes.

Definition check_edge (nodes : list NodeRecord) (space : GraphSpace) (schema : Schema)
    (e : EdgeRecord) : result unit GraphError :=
  if is_none (edge_kind_name schema (e_kind e)) then Err (UnknownEdgeKind (e_kind e))
  else if negb (bool_decide (e_space e = space)) then Err SpaceMismatch
  else if is_empty (e_label e) then Err EmptyLabel
  else if bool_decide (pv_kind (e_prov e) = PCompiled) then Err (CompiledEdgeProvenance (e_id e))
  else
    match position_in nodes (e_from e) ≫= (nodes !!.), position_in nodes (e_to e) ≫= (nodes !!.) with
    | Some from, Some to =>
        if negb (allows schema (n_kind from) (e_kind e) (n_kind to)) then
          Err (ForbiddenTriple (n_kind from) (e_kind e) (n_kind to))
        else if forbids_target schema (e_kind e) (n_kind to) (n_key to) then
          Err (ForbiddenTarget (e_id e))
        else Ok tt
    | _, _ => Err (DanglingEdge (e_id e))
    end.

Definition kind_key (k : Z * string * nat) : Z * string := fst k.

Definition check_compiled (schema : Schema) (keys : list (Z * string * nat)) (c : CompiledNode)
  : result unit GraphError :=
  if negb (is_compiled schema (c_kind c)) then Err (CompiledMismatch (c_kind c) (c_key c))
  else if is_some (binary_search_by_key (c_kind c, c_key c) kind_key keys) then Ok tt
  else Err (CompiledMissing (c_kind c) (c_key c)).

(** [for x in l { f(x)?; }] *)
Fixpoint try_each {A E} (f : A -> result unit E) (l : list A) : result unit E :=
  match l with
  | [] => Ok tt
  | x :: l' => let? _ := f x in try_each f l'
  end.

(** The running sum [out[i + 1] += out[i]]. *)
Fixpoint running (acc : nat) (l : list nat) : list nat :=
  match l with
  | [] => []
  | x :: l' => (acc + x) :: running (acc + x) l'
  end.

Definition offsets (nodes : nat) (owners : list (option nat)) : list nat :=
  running 0
    (fold_left (fun out owner =>
       match owner with Some o => alter S (S o) out | None => out end)
       owners (replicate (S nodes) 0)).

Definition out_key (nodes : list NodeRecord) (e : EdgeRecord) : option nat * (Z * (Z * Z)) :=
  (position_in nodes (e_from e), (e_kind e, (e_to e, e_id e))).
Definition in_key (nodes : list NodeRecord) (e : EdgeRecord) : option nat * (Z * (Z * Z)) :=
  (position_in nodes (e_to e), (e_kind e, (e_from e, e_id e))).

Definition key_entry (p : nat * NodeRecord) : result (Z * string * nat) (fault GraphError) :=
  let? i := index_u32 (fst p) in Ok (n_kind (snd p), n_key (snd p), i).

Definition enumerate {A} (l : list A) : list (nat * A) := zip (seq 0 (length l)) l.

(** [build_encoded] up to the assembled graph; the encoding and its expansion
    limit follow in GraphFormat. *)
Definition assemble (b : GraphBuilder) (schema : Schema) (compiled : CompiledSet)
  : result Graph (fault GraphError) :=
  let space := b_space b in
  let nodes := sort_by_key n_id (b_nodes b) in
  match adjacent_dup n_id nodes with
  | Some n => Err (Refused (DuplicateNodeId (n_id n)))
  | None =>
  let? _ := map_err Refused (try_each (fun n => check_node n space schema compiled) nodes) in
  let? entries := try_map key_entry (enumerate nodes) in
  let keys := sort_by_key (fun k => k) entries in
  match adjacent_dup kind_key keys with
  | Some k => Err (Refused (DuplicateKey (fst (fst k)) (snd (fst k))))
  | None =>
  let? _ := map_err Refused (try_each (check_compiled schema keys) compiled) in
  let edges := sort_by_key e_id (b_edges b) in
  match adjacent_dup e_id edges with
  | Some e => Err (Refused (DuplicateEdgeId (e_id e)))
  | None =>
  let? _ := map_err Refused (try_each (check_edge nodes space schema) edges) in
  let edges := sort_by_key (out_key nodes) edges in
  let out_offsets :=
    offsets (length nodes) (map (fun e => position_in nodes (e_from e)) edges) in
  let? indices := try_map index_u32 (seq 0 (length edges)) in
  let in_edges := sort_by_key (fun i => in_key nodes <$> edges !! i) indices in
  let in_offsets :=
    offsets (length nodes)
      (map (fun i => e ← edges !! i; position_in nodes (e_to e)) in_edges) in
  Ok (mkGraph space (b_revision b) (sc_version schema) nodes edges out_offsets in_offsets
        in_edges keys)
  end end end.

(** ** Lookups *)

Definition g_position (g : Graph) (id : Z) : option nat := position_in (g_nodes g) id.

Definition g_node (g : Graph) (id : Z) : option NodeRecord :=
  i ← g_position g id; g_nodes g !! i.

Definition g_lookup (g : Graph) (kind : Z) (key : string) : option NodeRecord :=
  i ← binary_search_by_key (kind, key) kind_key (g_keys g);
  k ← g_keys g !! i;
  g_nodes g !! snd k.

(** The row of a node in one index, and the run of one kind in it. *)
Definition row {A} (offs : list nat) (all : list A) (i : option nat) : list A :=
  match i with
  | Some i => slice (default 0 (offs !! i)) (default 0 (offs !! S i)) all
  | None => []
  end.
Definition run {A} (kind_of : A -> Z) (kind : Z) (r : list A) : list A :=
  slice (partition_point (fun e => kind_of e <? kind)%Z r)
    (partition_point (fun e => kind_of e <=? kind)%Z r) r.

Definition out_edges (g : Graph) (id kind : Z) : list EdgeRecord :=
  run e_kind kind (row (g_out_offsets g) (g_edges g) (g_position g id)).

Definition in_edges (g : Graph) (id kind : Z) : list EdgeRecord :=
  let kind_at j := default 0%Z (e_kind <$> g_edges g !! j) in
  omap (fun j => g_edges g !! j)
    (run kind_at kind (row (g_in_offsets g) (g_in_edges g) (g_position g id))).

Definition attr_bytes (a : Attrs) : nat :=
  sum_list_with (fun kv => String.length (fst kv) +
    match snd kv with GStr s => String.length s | GU64 _ => 0 end) (btree_iter a).

Definition reference_bytes (g : Graph) : nat :=
  sum_list_with (fun n => String.length (n_key n) + String.length (n_label n)
                          + attr_bytes (n_attrs n)) (g_nodes g) +
  sum_list_with (fun e => String.length (e_label e) + attr_bytes (e_attrs e)) (g_edges g).

(** ** Lemmas: loops *)

Lemma try_each_Ok {A E} (f : A -> result unit E) l :
  try_each f l = Ok tt <-> Forall (fun x => f x = Ok tt) l.
Proof.
  induction l as [|x l IH]; simpl; [done|]. rewrite Forall_cons.
  destruct (f x) as [[]|]; [rewrite IH; naive_solver|naive_solver].
Qed.

Lemma map_err_Ok {A E F} (f : E -> F) (r : result A E) a : map_err f r = Ok a <-> r = Ok a.
Proof. destruct r; simpl; naive_solver. Qed.

Lemma index_u32_Ok {E} i j : @index_u32 E i = Ok j <-> j = i /\ (Z.of_nat i < u32_max)%Z.
Proof. unfold index_u32. destruct (Z.ltb_spec (Z.of_nat i) u32_max); naive_solver lia. Qed.

Lemma try_map_index {E} l js :
  try_map (@index_u32 E) l = Ok js <-> js = l /\ Forall (fun i => (Z.of_nat i < u32_max)%Z) l.
Proof.
  rewrite try_map_Ok. revert js. induction l as [|i l IH]; intros js.
  - split; [by inversion 1|]. intros [-> _]. constructor.
  - split.
    + intros H. inv H. apply index_u32_Ok in H2 as [-> Hi]. apply IH in H4 as [-> Hl]. auto.
    + intros [-> [Hi Hl]%Forall_cons]. constructor; [by apply index_u32_Ok|]. by apply IH.
Qed.

Lemma enumerate_lookup {A} (l : list A) i p :
  enumerate l !! i = Some p <-> fst p = i /\ l !! i = Some (snd p).
Proof.
  unfold enumerate. destruct p as [j x]. rewrite lookup_zip_Some, lookup_seq. simpl.
  split; [intros [[-> _] ?]; auto|]. intros [-> Hx]. split; [|done].
  split; [done|]. by apply lookup_lt_Some in Hx.
Qed.

Lemma try_map_key_entry nodes entries :
  try_map key_entry (enumerate nodes) = Ok entries ->
  forall i k, entries !! i = Some k <-> exists n, nodes !! i = Some n /\ k = (n_kind n, n_key n, i).
Proof.
  intros H%try_map_Ok i k. split.
  - intros Hk. destruct (Forall2_lookup_r _ _ _ _ _ H Hk) as ([j n] & Hp & He).
    apply enumerate_lookup in Hp as [Hj Hn]. simpl in *. subst j. exists n. split; [done|].
    unfold key_entry in He. simpl in He. unbind He. apply index_u32_Ok in E as [-> _]. by inv He.
  - intros (n & Hn & ->).
    assert (enumerate nodes !! i = Some (i, n)) as Hp by (by apply enumerate_lookup).
    destruct (Forall2_lookup_l _ _ _ _ _ H Hp) as (k & Hk & He). rewrite Hk. f_equal.
    unfold key_entry in He. simpl in He. unbind He. apply index_u32_Ok in E as [-> _]. by inv He.
Qed.

(** ** Lemmas: offsets *)

Lemma running_lookup acc l i :
  i < length l -> running acc l !! i = Some (acc + sum_list (take (S i) l)).
Proof.
  revert acc i. induction l as [|x l IH]; intros acc i Hi; simpl in *; [lia|].
  destruct i as [|i]; simpl; [f_equal; lia|]. rewrite IH by lia. simpl. f_equal.
  destruct l; simpl in *; lia.
Qed.

Lemma sum_alter (out : list nat) j m :
  j < length out ->
  sum_list (take m (alter S j out)) = sum_list (take m out) + (if j <? m then 1 else 0).
Proof.
  revert j m. induction out as [|x out IH]; intros j m Hj; simpl in Hj; [lia|].
  destruct m as [|m]; [by destruct j|].
  destruct j as [|j]; [simpl; lia|].
  change (take (S m) (alter S (S j) (x :: out))) with (x :: take m (alter S j out)).
  simpl. rewrite IH by lia. change (S j <? S m) with (j <? m). lia.
Qed.

Definition below (i : nat) (o : option nat) : bool :=
  match o with Some o => o <? i | None => false end.

Lemma count_owners owners out i :
  (forall o, Some o ∈ owners -> S o < length out) ->
  sum_list (take (S i) (fold_left (fun out owner =>
    match owner with Some o => alter S (S o) out | None => out end) owners out))
  = sum_list (take (S i) out) + length (List.filter (below i) owners).
Proof.
  revert out. induction owners as [|[o|] owners IH]; intros out Hlen; simpl; [lia| |].
  - rewrite IH.
    + rewrite sum_alter by (apply Hlen; left). change (S o <? S i) with (o <? i).
      destruct (o <? i); simpl; lia.
    + intros o' Ho'. rewrite length_alter. apply Hlen. by right.
  - apply IH. intros o' Ho'. apply Hlen. by right.
Qed.

Lemma sum_zeros m n : sum_list (take m (replicate n 0)) = 0.
Proof. revert m. induction n as [|n IH]; intros [|m]; simpl; auto. Qed.

(** Offset [i] counts the owners before [i]. *)
Lemma offsets_lookup n owners i :
  (forall o, Some o ∈ owners -> o < n) -> i <= n ->
  offsets n owners !! i = Some (length (List.filter (below i) owners)).
Proof.
  intros Ho Hi. unfold offsets.
  set (out := fold_left _ owners _).
  assert (length out = S n) as Hl.
  { unfold out. generalize (replicate (S n) 0) (length_replicate (S n) 0). clear.
    induction owners as [|[o|] owners IH]; intros l Hl; simpl; auto.
    apply IH. by rewrite length_alter. }
  rewrite running_lookup by lia. f_equal. unfold out. rewrite count_owners, sum_zeros; [done|].
  intros o Hin. rewrite length_replicate. apply Ho in Hin. lia.
Qed.

(** ** The invariant of a built graph *)

Definition node_key (n : NodeRecord) : Z * string := (n_kind n, n_key n).

Definition keys_index (nodes : list NodeRecord) (keys : list (Z * string * nat)) : Prop :=
  forall kind key i, (kind, key, i) ∈ keys <->
    exists n, nodes !! i = Some n /\ n_kind n = kind /\ n_key n = key.

Record graph_ok (schema : Schema) (compiled : CompiledSet) (g : Graph) : Prop := {
  ok_nodes : key_strict n_id (g_nodes g);
  ok_node : Forall (fun n => check_node n (g_space g) schema compiled = Ok tt) (g_nodes g);
  ok_keys : key_strict kind_key (g_keys g);
  ok_index : keys_index (g_nodes g) (g_keys g);
  ok_compiled : Forall (fun c => check_compiled schema (g_keys g) c = Ok tt) compiled;
  ok_edge_ids : NoDup (e_id <$> g_edges g);
  ok_edge : Forall (fun e => check_edge (g_nodes g) (g_space g) schema e = Ok tt) (g_edges g);
  ok_sorted : key_sorted (out_key (g_nodes g)) (g_edges g);
  ok_out : g_out_offsets g =
    offsets (length (g_nodes g)) (map (fun e => position_in (g_nodes g) (e_from e)) (g_edges g));
  ok_in_edges : g_in_edges g =
    sort_by_key (fun i => in_key (g_nodes g) <$> g_edges g !! i) (seq 0 (length (g_edges g)));
  ok_in : g_in_offsets g =
    offsets (length (g_nodes g))
      (map (fun i => e ← g_edges g !! i; position_in (g_nodes g) (e_to e)) (g_in_edges g));
  ok_version : g_schema_version g = sc_version schema }.

Lemma sorted_keys_strict (entries : list (Z * string * nat)) :
  adjacent_dup kind_key (sort_by_key (fun k => k) entries) = None ->
  key_strict kind_key (sort_by_key (fun k => k) entries).
Proof.
  intros Hd. assert (key_sorted kind_key (sort_by_key (fun k => k) entries)) as Hs.
  { pose proof (sort_by_key_sorted (fun k : Z * string * nat => k) entries) as Hs.
    unfold key_sorted in *. eapply strongly_sorted_impl; [|exact Hs].
    intros [a i] [b j] _ _ Hab. unfold kind_key. simpl. apply key_leb_spec. apply key_leb_spec in Hab.
    destruct Hab as [[= -> ->]|Hab]; [by left|]. unfold cmp in Hab. simpl in Hab.
    unfold prod_cmp in Hab. simpl in Hab.
    destruct (cmp a b) eqn:E; [left; by apply cmp_eq|by right|done]. }
  apply key_sorted_strict; [done|]. by apply adjacent_dup_None.
Qed.

Lemma assemble_inv b schema compiled g :
  assemble b schema compiled = Ok g ->
  graph_ok schema compiled g /\ g_nodes g ≡ₚ b_nodes b /\ g_edges g ≡ₚ b_edges b /\
  g_space g = b_space b /\ g_revision g = b_revision b.
Proof.
  unfold assemble. intros H.
  destruct (adjacent_dup n_id _) eqn:Hn; [done|]. unbind H.
  destruct (adjacent_dup kind_key _) eqn:Hk; [done|]. unbind H.
  destruct (adjacent_dup e_id _) eqn:He; [done|]. unbind H. injection H as <-.
  repeat match goal with E : map_err _ _ = Ok ?u |- _ =>
    destruct u; apply map_err_Ok, try_each_Ok in E end.
  match goal with E : try_map index_u32 _ = Ok _ |- _ => apply try_map_index in E as [-> Hseq] end.
  assert (key_strict e_id (sort_by_key e_id (b_edges b))) as Hes by (by apply sort_by_key_strict).
  assert (key_strict n_id (sort_by_key n_id (b_nodes b))) as Hns by (by apply sort_by_key_strict).
  split_and!; simpl; [|by rewrite sort_by_key_perm|by rewrite !sort_by_key_perm|done..].
  constructor; simpl; try done.
  - by apply sorted_keys_strict.
  - intros kind key i. rewrite sort_by_key_elem.
    match goal with E : try_map key_entry _ = Ok _ |- _ =>
      pose proof (try_map_key_entry _ _ E) as Hent end.
    rewrite list_elem_of_lookup. split.
    + intros (j & Hj). apply Hent in Hj as (n & Hn' & [= -> -> ->]). by exists n.
    + intros (n & Hn' & <- & <-). exists i. apply Hent. by exists n.
  - rewrite sort_by_key_perm. by apply key_strict_NoDup.
  - rewrite Forall_forall in *. intros e Hin. rewrite sort_by_key_elem in Hin. auto.
  - apply sort_by_key_sorted.
Qed.

Section Built.
Context {schema : Schema} {compiled : CompiledSet} {g : Graph}.
Context (Hg : graph_ok schema compiled g).

Lemma position_Some_iff id i :
  g_position g id = Some i <-> exists n, g_nodes g !! i = Some n /\ n_id n = id.
Proof using Hg. apply binary_search_by_key_Some, Hg. Qed.

Lemma g_node_iff id n : g_node g id = Some n <-> n ∈ g_nodes g /\ n_id n = id.
Proof using Hg.
  unfold g_node. rewrite bind_Some. setoid_rewrite position_Some_iff. split.
  - intros (i & (m & Hm & Hid) & Hn). rewrite Hm in Hn. injection Hn as <-.
    split; [by eapply list_elem_of_lookup_2|done].
  - intros [[i Hi]%list_elem_of_lookup Hid]. exists i. split; [by exists n|done].
Qed.

Lemma g_lookup_iff kind key n :
  g_lookup g kind key = Some n <-> n ∈ g_nodes g /\ n_kind n = kind /\ n_key n = key.
Proof using Hg.
  unfold g_lookup. split.
  - intros H. destruct (binary_search_by_key _ _ _) as [i|] eqn:E; [|done]. simpl in H.
    apply binary_search_by_key_Some in E as ([[k s] j] & Hk & Heq); [|apply Hg].
    rewrite Hk in H. simpl in H, Heq. injection Heq as -> ->.
    assert ((kind, key, j) ∈ g_keys g) as Hin by (by eapply list_elem_of_lookup_2).
    apply (ok_index _ _ _ Hg) in Hin as (m & Hm & Hmk & Hms). rewrite Hm in H. injection H as <-.
    split; [by eapply list_elem_of_lookup_2|done].
  - intros [[j Hj]%list_elem_of_lookup [Hk Hs]].
    assert ((kind, key, j) ∈ g_keys g) as [i Hi]%list_elem_of_lookup
      by (apply (ok_index _ _ _ Hg); eauto).
    assert (binary_search_by_key (kind, key) kind_key (g_keys g) = Some i) as ->.
    { apply binary_search_by_key_Some; [apply Hg|]. eauto. }
    simpl. rewrite Hi. simpl. done.
Qed.

(** The endpoints of an edge, and what the checks say of them. *)
Lemma edge_endpoints e :
  e ∈ g_edges g ->
  exists from to, g_node g (e_from e) = Some from /\ g_node g (e_to e) = Some to /\
    allows schema (n_kind from) (e_kind e) (n_kind to) = true /\
    forbids_target schema (e_kind e) (n_kind to) (n_key to) = false /\
    e_space e = g_space g /\ pv_kind (e_prov e) <> PCompiled /\ e_label e <> "".
Proof using Hg.
  intros He. pose proof (ok_edge _ _ _ Hg) as Hc. rewrite Forall_forall in Hc.
  specialize (Hc e He). unfold check_edge in Hc.
  destruct (is_none _); [done|]. destruct (bool_decide (e_space e = _)) eqn:Es; [|done].
  simpl in Hc. destruct (is_empty _) eqn:El; [done|].
  destruct (bool_decide (pv_kind _ = _)) eqn:Ep; [done|].
  unfold g_node, g_position.
  destruct (position_in (g_nodes g) (e_from e) ≫= _) as [from|]; [|done].
  destruct (position_in (g_nodes g) (e_to e) ≫= _) as [to|]; [|done].
  destruct (allows _ _ _ _) eqn:Ea; [|done]. simpl in Hc.
  destruct (forbids_target _ _ _ _) eqn:Ef; [done|].
  exists from, to. apply bool_decide_eq_true in Es. apply bool_decide_eq_false in Ep.
  split_and!; try done. intros E. rewrite E in El. done.
Qed.

Lemma endpoint_position e : e ∈ g_edges g -> exists i j,
  g_position g (e_from e) = Some i /\ g_position g (e_to e) = Some j /\
  i < length (g_nodes g) /\ j < length (g_nodes g).
Proof using Hg.
  intros (from & to & Hf & Ht & _)%edge_endpoints. unfold g_node in *.
  destruct (g_position g (e_from e)) as [i|]; [|done].
  destruct (g_position g (e_to e)) as [j|]; [|done]. simpl in *.
  exists i, j. apply lookup_lt_Some in Hf, Ht. auto.
Qed.
End Built.

(** ** Lemmas: rows and runs *)

Lemma filter_map_length {A B} (f : B -> bool) (h : A -> B) l :
  length (List.filter f (map h l)) = length (List.filter (fun x => f (h x)) l).
Proof. induction l as [|a l IH]; simpl; [done|]. destruct (f (h a)); simpl; by rewrite IH. Qed.

Lemma filter_ext_in' {A} (f h : A -> bool) l :
  (forall x, x ∈ l -> f x = h x) -> List.filter f l = List.filter h l.
Proof. intros H. apply filter_ext_in. intros x Hx. apply H. by apply list_elem_of_In. Qed.

Lemma filter_all {A} (f : A -> bool) l :
  (forall x, x ∈ l -> f x = true) -> List.filter f l = l.
Proof.
  induction l as [|a l IH]; simpl; [done|]. intros Hf. rewrite (Hf a) by left.
  f_equal. apply IH. intros x Hx. apply Hf. by right.
Qed.

Lemma filter_perm' {A} (f : A -> bool) l1 l2 :
  l1 ≡ₚ l2 -> List.filter f l1 ≡ₚ List.filter f l2.
Proof.
  induction 1 as [|x l1 l2 _ IH|x y l|l1 l2 l3 _ IH1 _ IH2]; simpl.
  - done.
  - destruct (f x); by rewrite IH.
  - destruct (f x), (f y); try done. constructor.
  - by rewrite IH1.
Qed.

Lemma filter_filter_and {A} (f h : A -> bool) l :
  List.filter f (List.filter h l) = List.filter (fun x => h x && f x) l.
Proof.
  induction l as [|a l IH]; simpl; [done|]. destruct (h a); simpl; [|done].
  destruct (f a); by rewrite IH.
Qed.

Lemma strongly_sorted_filter {A} (R : A -> A -> Prop) (f : A -> bool) l :
  StronglySorted R l -> StronglySorted R (List.filter f l).
Proof.
  induction 1 as [|x l _ IH Hx]; simpl; [constructor|]. destruct (f x); [|done].
  constructor; [done|]. rewrite Forall_forall in *. intros y [Hy _]%elem_of_bfilter. auto.
Qed.

Section RowRun.
Context {A : Type} (own : A -> option nat) (kind_of : A -> Z) (n : nat) (l : list A).
Context (Hown : forall x, x ∈ l -> exists o, own x = Some o /\ o < n).
Context (Hs : key_sorted (fun x => (own x, kind_of x)) l).

Lemma row_filter i :
  i < n -> row (offsets n (map own l)) l (Some i) = List.filter (side own (Some i) Eq) l.
Proof using Hown Hs.
  intros Hi. simpl.
  assert (forall o, Some o ∈ map own l -> o < n) as Ho.
  { intros o (x & Hx & Hin)%elem_of_map. destruct (Hown x Hin) as (o' & Hx' & ?). congruence. }
  rewrite !offsets_lookup by (done || lia). simpl. rewrite !filter_map_length.
  assert (key_sorted own l) as Hso.
  { eapply strongly_sorted_impl; [|exact Hs]. simpl. intros a b _ _ Hab.
    apply key_leb_spec. apply key_leb_spec in Hab as [Hab|Hab]; [left; congruence|].
    unfold cmp in Hab. simpl in Hab. unfold prod_cmp in Hab. simpl in Hab.
    destruct (cmp (own a) (own b)) eqn:E; [left; by apply cmp_eq|by right|done]. }
  pose proof (sorted_split own (Some i) l Hso) as Hl.
  assert (List.filter (fun x => below i (own x)) l = List.filter (side own (Some i) Lt) l) as ->.
  { apply filter_ext_in'. intros x Hx. destruct (Hown x Hx) as (o & Ho' & _).
    unfold side. rewrite Ho'. unfold cmp; simpl. unfold cmp; simpl.
    destruct (Nat.ltb_spec o i), (Nat.compare_spec o i); try lia; reflexivity. }
  assert (length (List.filter (fun x => below (S i) (own x)) l) =
          length (List.filter (side own (Some i) Lt) l) +
          length (List.filter (side own (Some i) Eq) l)) as ->.
  { rewrite <-length_app. rewrite Hl at 1. rewrite app_assoc, List.filter_app.
    rewrite (filter_none _ (List.filter (side own (Some i) Gt) l)), app_nil_r.
    - f_equal. apply filter_all.
      intros x [Hx|Hx]%elem_of_app; apply elem_of_bfilter in Hx as [Hx Hc];
        apply bool_decide_eq_true in Hc; destruct (Hown x Hx) as (o & Ho' & _);
        rewrite Ho' in *; unfold cmp in Hc; simpl in Hc; unfold cmp in Hc; simpl in Hc;
        destruct (Nat.compare_spec o i); try done; simpl; apply Nat.ltb_lt; lia.
    - intros x [Hx Hc]%elem_of_bfilter. apply bool_decide_eq_true in Hc.
      destruct (Hown x Hx) as (o & Ho' & _). rewrite Ho' in *. unfold cmp in Hc; simpl in Hc.
      unfold cmp in Hc; simpl in Hc. destruct (Nat.compare_spec o i); try done.
      simpl. apply Nat.ltb_ge. lia. }
  rewrite Hl at 4. apply slice_middle.
Qed.

Lemma row_run i k :
  i < n ->
  run kind_of k (row (offsets n (map own l)) l (Some i)) =
  List.filter (fun x => bool_decide (own x = Some i) && Z.eqb (kind_of x) k) l.
Proof using Hown Hs.
  intros Hi. rewrite row_filter by done. unfold run. rewrite (partition_run kind_of k).
  - rewrite filter_filter_and. apply filter_ext_in'. intros x _. unfold side. f_equal.
    + apply bool_decide_ext. apply cmp_eq.
    + destruct (Z.eqb_spec (kind_of x) k) as [->|Hne]; case_bool_decide as Hc; try done.
      * by rewrite cmp_refl in Hc.
      * by apply cmp_eq in Hc.
  - unfold key_sorted. eapply strongly_sorted_impl; [|apply strongly_sorted_filter, Hs].
    simpl. intros a b [_ Ha]%elem_of_bfilter [_ Hb]%elem_of_bfilter Hab.
    apply bool_decide_eq_true, cmp_eq in Ha, Hb.
    apply key_leb_spec. apply key_leb_spec in Hab as [Hab|Hab]; [left; congruence|right].
    unfold cmp in Hab. simpl in Hab. unfold prod_cmp in Hab. simpl in Hab.
    by rewrite Ha, Hb, cmp_refl in Hab.
  - intros x. rewrite Z.ltb_lt. unfold cmp. simpl. by rewrite Z.compare_lt_iff.
  - intros x. rewrite Z.leb_le. unfold cmp. simpl. done.
Qed.
End RowRun.

Definition edge_at (id kind : Z) (e : EdgeRecord) : bool :=
  Z.eqb (e_from e) id && Z.eqb (e_kind e) kind.
Definition edge_into (id kind : Z) (e : EdgeRecord) : bool :=
  Z.eqb (e_to e) id && Z.eqb (e_kind e) kind.

Section Queries.
Context {schema : Schema} {compiled : CompiledSet} {g : Graph}.
Context (Hg : graph_ok schema compiled g).

(** A node's position names the node. *)
Lemma position_at id i id' :
  g_position g id = Some i -> bool_decide (g_position g id' = Some i) = Z.eqb id' id.
Proof using Hg.
  intros Hi. destruct (Z.eqb_spec id' id) as [->|Hne].
  - by rewrite bool_decide_eq_true_2.
  - apply bool_decide_eq_false_2. intros Hi'.
    apply (position_Some_iff Hg) in Hi as (n & Hn & <-).
    apply (position_Some_iff Hg) in Hi' as (n' & Hn' & <-). congruence.
Qed.

Lemma position_bound id i : g_position g id = Some i -> i < length (g_nodes g).
Proof using Hg. intros (n & Hn & _)%(position_Some_iff Hg). by apply lookup_lt_Some in Hn. Qed.

Lemma lex_prefix {A K L M} `{Ord K, Ord L, Ord M} (f : A -> K) (h : A -> L) (m : A -> M) l :
  key_sorted (fun x => (f x, (h x, m x))) l -> key_sorted (fun x => (f x, h x)) l.
Proof.
  intros Hs. eapply strongly_sorted_impl; [|exact Hs]. simpl. intros a b _ _ Hab.
  apply key_leb_spec. apply key_leb_spec in Hab as [Hab|Hab]; [left; congruence|].
  unfold cmp in Hab |- *. simpl in Hab |- *. unfold prod_cmp in Hab |- *. simpl in Hab |- *.
  destruct (cmp (f a) (f b)) eqn:E; [|by right|done].
  apply cmp_eq in E. unfold cmp in Hab. simpl in Hab. unfold prod_cmp in Hab. simpl in Hab.
  destruct (cmp (h a) (h b)) eqn:E2; [|by right|done].
  apply cmp_eq in E2. left. congruence.
Qed.

Lemma out_edges_eq id kind : out_edges g id kind = List.filter (edge_at id kind) (g_edges g).
Proof using Hg.
  unfold out_edges. destruct (g_position g id) as [i|] eqn:Ei.
  - rewrite (ok_out _ _ _ Hg).
    rewrite (row_run (fun e => position_in (g_nodes g) (e_from e)) e_kind).
    + apply filter_ext_in'. intros e _. unfold edge_at. f_equal. by apply position_at.
    + intros e He. destruct (endpoint_position Hg e He) as (a & _ & Ha & _ & Hlt & _). eauto.
    + apply (lex_prefix _ _ (fun e => (e_to e, e_id e))), (ok_sorted _ _ _ Hg).
    + by eapply position_bound.
  - symmetry. apply filter_none. intros e He. unfold edge_at.
    destruct (Z.eqb_spec (e_from e) id) as [<-|]; [|done].
    destruct (endpoint_position Hg e He) as (a & _ & Ha & _). congruence.
Qed.

Lemma in_rows : forall j, j ∈ g_in_edges g <-> j < length (g_edges g).
Proof using Hg.
  intros j. rewrite (ok_in_edges _ _ _ Hg), sort_by_key_elem, elem_of_seq. lia.
Qed.

Lemma omap_filter_index (f : EdgeRecord -> bool) (l : list nat) :
  omap (fun j => g_edges g !! j)
    (List.filter (fun j => match g_edges g !! j with Some e => f e | None => false end) l)
  = List.filter f (omap (fun j => g_edges g !! j) l).
Proof.
  assert (forall j l', omap (fun j => g_edges g !! j) (j :: l') =
    match g_edges g !! j with
    | Some e => e :: omap (fun j => g_edges g !! j) l'
    | None => omap (fun j => g_edges g !! j) l'
    end) as Hcons by reflexivity.
  induction l as [|j l IH]; [done|]. rewrite Hcons. cbn [List.filter].
  destruct (g_edges g !! j) as [e|] eqn:E; [|done]. cbn [List.filter].
  destruct (f e); [|done]. by rewrite Hcons, E, IH.
Qed.

Lemma omap_seq_id {A} (l : list A) : omap (fun j => l !! j) (seq 0 (length l)) = l.
Proof.
  apply list_eq. intros i.
  assert (forall k (l' : list A) l0, l0 ++ l' = l -> k = length l0 ->
    omap (fun j => l !! j) (seq k (length l')) = l') as Hgen.
  { intros k l'. revert k. induction l' as [|a l' IH]; intros k l0 Hl ->; simpl; [done|].
    rewrite <-Hl at 1. rewrite list_lookup_middle by done. f_equal.
    apply (IH (S (length l0)) (l0 ++ [a])); [by rewrite <-app_assoc|].
    rewrite length_app. simpl. lia. }
  by rewrite (Hgen 0 l []).
Qed.

Lemma in_edges_perm id kind :
  in_edges g id kind ≡ₚ List.filter (edge_into id kind) (g_edges g).
Proof using Hg.
  unfold in_edges. set (all := fun j => g_edges g !! j).
  assert (omap all (g_in_edges g) ≡ₚ g_edges g) as Hperm.
  { transitivity (omap all (seq 0 (length (g_edges g)))); [|by unfold all; rewrite omap_seq_id].
    apply omap_Permutation.
    rewrite (ok_in_edges _ _ _ Hg). apply sort_by_key_perm. }
  destruct (g_position g id) as [i|] eqn:Ei.
  - rewrite (ok_in _ _ _ Hg).
    rewrite (row_run (fun j => e ← g_edges g !! j; position_in (g_nodes g) (e_to e))
               (fun j => default 0%Z (e_kind <$> g_edges g !! j))).
    + transitivity (List.filter (edge_into id kind) (omap all (g_in_edges g))).
      2:{ by apply filter_perm'. }
      rewrite <-omap_filter_index. f_equiv.
      erewrite filter_ext_in'; [done|]. intros j Hj. simpl.
      apply in_rows in Hj as [e He]%lookup_lt_is_Some. rewrite He. simpl. unfold edge_into.
      f_equal. by apply position_at.
    + intros j Hj. apply in_rows in Hj as [e He]%lookup_lt_is_Some. rewrite He. simpl.
      destruct (endpoint_position Hg e) as (_ & b & _ & Hb & _ & Hlt); [|eauto].
      by eapply list_elem_of_lookup_2.
    + apply (lex_prefix _ _ (fun j => from_option (fun e => (e_from e, e_id e)) (0, 0)%Z
                               (g_edges g !! j))).
      pose proof (sort_by_key_sorted (fun i => in_key (g_nodes g) <$> g_edges g !! i)
                    (seq 0 (length (g_edges g)))) as Hs.
      rewrite <-(ok_in_edges _ _ _ Hg) in Hs. eapply strongly_sorted_impl; [|exact Hs].
      simpl. intros a b Ha Hb Hab.
      apply in_rows in Ha as [ea Hea]%lookup_lt_is_Some.
      apply in_rows in Hb as [eb Heb]%lookup_lt_is_Some. by rewrite Hea, Heb in *.
    + by eapply position_bound.
  - simpl. rewrite filter_none; [done|]. intros e He. unfold edge_into.
    destruct (Z.eqb_spec (e_to e) id) as [<-|]; [|done].
    destruct (endpoint_position Hg e He) as (_ & b & _ & Hb & _). congruence.
Qed.
End Queries.

(** ** When a builder is accepted *)

(** One edge against the nodes, declaratively. *)
Definition valid_edge (nodes : list NodeRecord) (space : GraphSpace) (schema : Schema)
    (e : EdgeRecord) : Prop :=
  is_Some (edge_kind_name schema (e_kind e)) /\ e_space e = space /\ e_label e <> "" /\
  pv_kind (e_prov e) <> PCompiled /\
  exists from to, from ∈ nodes /\ to ∈ nodes /\ n_id from = e_from e /\ n_id to = e_to e /\
    allows schema (n_kind from) (e_kind e) (n_kind to) = true /\
    forbids_target schema (e_kind e) (n_kind to) (n_key to) = false.

(** One node against the schema and the vocabulary, declaratively: of a known kind, in the
    graph's space, with a key and a label; of a compiled kind exactly when its provenance is
    compiled, and then as the vocabulary has it and never revised. *)
Record valid_node (space : GraphSpace) (schema : Schema) (compiled : CompiledSet) (n : NodeRecord) : Prop := {
  vn_kind : is_Some (node_kind_name schema (n_kind n));
  vn_space : n_space n = space;
  vn_key : n_key n <> "";
  vn_label : n_label n <> "";
  vn_provenance : pv_kind (n_prov n) = PCompiled <-> is_compiled schema (n_kind n) = true;
  vn_compiled : is_compiled schema (n_kind n) = true ->
    (exists c, compiled_get compiled (n_kind n) (n_key n) = Some c /\
       c_attrs c = n_attrs n /\ c_label c = n_label n) /\
    n_revision n = 0%Z /\ pv_transition (n_prov n) = 0%Z }.

Record valid_builder (b : GraphBuilder) (schema : Schema) (compiled : CompiledSet) : Prop := {
  vb_ids : NoDup (n_id <$> b_nodes b);
  vb_nodes : Forall (valid_node (b_space b) schema compiled) (b_nodes b);
  vb_keys : NoDup (node_key <$> b_nodes b);
  vb_compiled : forall c, c ∈ compiled -> is_compiled schema (c_kind c) = true /\
    exists n, n ∈ b_nodes b /\ node_key n = (c_kind c, c_key c);
  vb_edge_ids : NoDup (e_id <$> b_edges b);
  vb_edges : Forall (valid_edge (b_nodes b) (b_space b) schema) (b_edges b) }.

Lemma check_node_valid n space schema compiled :
  check_node n space schema compiled = Ok tt <-> valid_node space schema compiled n.
Proof.
  unfold check_node, is_none. destruct (node_kind_name schema (n_kind n)) as [k|] eqn:Ek; simpl.
  2:{ split; [done|]. intros [[? Hk]]. congruence. }
  case_bool_decide as Hsp; simpl; [|split; [done|by intros []]].
  destruct (is_empty (n_key n)) eqn:Ekey.
  { apply is_empty_true in Ekey. split; [done|by intros []]. }
  destruct (is_empty (n_label n)) eqn:El.
  { apply is_empty_true in El. split; [done|by intros []]. }
  assert (n_key n <> "") as Hkey by (intros E; by rewrite E in Ekey).
  assert (n_label n <> "") as Hlab by (intros E; by rewrite E in El).
  destruct (is_compiled schema (n_kind n)) eqn:Ec; case_bool_decide as Hp; simpl.
  - destruct (compiled_get compiled (n_kind n) (n_key n)) as [c|] eqn:Eg.
    2:{ split; [done|]. intros Hv. destruct (vn_compiled _ _ _ _ Hv Ec) as [(c & Hc & _) _]. congruence. }
    case_bool_decide as Ha; simpl; [destruct (String.eqb_spec (c_label c) (n_label n)) as [Hl|Hl];
      [destruct (Z.eqb_spec (n_revision n) 0) as [Hr|Hr];
       [destruct (Z.eqb_spec (pv_transition (n_prov n)) 0) as [Ht|Ht]|]|]|]; simpl.
    1:{ split; [intros _|done]. constructor; [by rewrite Ek|done..|intros _; split; [by exists c|done]]. }
    all: split; [done|]; intros Hv; destruct (vn_compiled _ _ _ _ Hv Ec) as [(c' & Hc & Hca & Hcl) [Hcr Hct]];
      rewrite Eg in Hc; injection Hc as <-; congruence.
  - split; [done|]. intros Hv. by apply (vn_provenance _ _ _ _ Hv) in Ec.
  - split; [done|]. intros Hv. apply (vn_provenance _ _ _ _ Hv) in Hp. congruence.
  - split; [intros _|done]. constructor; [by rewrite Ek|done..|split; [done|congruence]|congruence].
Qed.

Lemma check_nodes_valid nodes space schema compiled :
  Forall (fun n => check_node n space schema compiled = Ok tt) nodes <->
  Forall (valid_node space schema compiled) nodes.
Proof. rewrite !Forall_forall. by setoid_rewrite check_node_valid. Qed.

Lemma position_node nodes id n :
  key_strict n_id nodes ->
  (position_in nodes id ≫= (nodes !!.)) = Some n <-> n ∈ nodes /\ n_id n = id.
Proof.
  intros Hs. rewrite bind_Some. unfold position_in.
  setoid_rewrite (binary_search_by_key_Some n_id id nodes); [|done]. split.
  - intros (i & (m & Hm & Hid) & Hn). rewrite Hm in Hn. injection Hn as <-.
    split; [by eapply list_elem_of_lookup_2|done].
  - intros [[i Hi]%list_elem_of_lookup Hid]. exists i. split; [by exists n|done].
Qed.

Lemma check_edge_valid nodes space schema e :
  key_strict n_id nodes ->
  check_edge nodes space schema e = Ok tt <-> valid_edge nodes space schema e.
Proof.
  intros Hs. unfold check_edge, valid_edge, is_none.
  destruct (edge_kind_name schema (e_kind e)) as [k|]; simpl.
  2:{ split; [done|]. by intros [[? ?] _]. }
  case_bool_decide as Hsp; simpl; [|naive_solver].
  destruct (is_empty (e_label e)) eqn:El.
  { apply is_empty_true in El. naive_solver. }
  assert (e_label e <> "") as Hl by (intros E; by rewrite E in El).
  case_bool_decide as Hp; [naive_solver|]. split.
  - destruct (position_in nodes (e_from e) ≫= _) as [from|] eqn:Ef; [|done].
    destruct (position_in nodes (e_to e) ≫= _) as [to|] eqn:Et; [|done].
    apply position_node in Ef as [Hf1 Hf2]; [|done]. apply position_node in Et as [Ht1 Ht2]; [|done].
    destruct (allows _ _ _ _) eqn:Ea; [|done]. simpl.
    destruct (forbids_target _ _ _ _) eqn:Eb; [done|]. intros _.
    split_and!; eauto. exists from, to. by split_and!.
  - intros (_ & _ & _ & _ & from & to & Hf & Ht & Hfi & Hti & Ha & Hb).
    rewrite (proj2 (position_node nodes (e_from e) from Hs)) by done.
    rewrite (proj2 (position_node nodes (e_to e) to Hs)) by done.
    by rewrite Ha, Hb.
Qed.

Lemma key_entries_Ok nodes :
  (Z.of_nat (length nodes) <= u32_max)%Z ->
  exists entries, try_map key_entry (enumerate nodes) = Ok entries /\ entries.*1 = node_key <$> nodes.
Proof.
  intros Hlen. exists (zip_with (fun i n => (n_kind n, n_key n, i)) (seq 0 (length nodes)) nodes).
  split.
  - apply try_map_Ok. apply Forall2_same_length_lookup. split.
    + unfold enumerate. rewrite !length_zip_with. done.
    + intros i [j n] k Hp Hk. apply enumerate_lookup in Hp as [Hj Hn]. simpl in *. subst j.
      apply lookup_zip_with_Some in Hk as (j & n' & -> & [-> _]%lookup_seq & Hn').
      rewrite Hn in Hn'. injection Hn' as <-. unfold key_entry. simpl.
      rewrite (proj2 (index_u32_Ok i i)); [done|]. split; [done|].
      apply lookup_lt_Some in Hn. lia.
  - apply list_eq. intros i. rewrite !list_lookup_fmap.
    destruct (nodes !! i) as [n|] eqn:Hn; simpl.
    + assert (zip_with (fun i n => (n_kind n, n_key n, i)) (seq 0 (length nodes)) nodes !! i
              = Some (n_kind n, n_key n, i)) as ->; [|done].
      apply lookup_zip_with_Some. exists i, n. split_and!; [done| |done].
      apply lookup_seq. split; [done|]. by eapply lookup_lt_Some.
    + rewrite fmap_None. apply lookup_ge_None. rewrite length_zip_with.
      apply lookup_ge_None in Hn. lia.
Qed.

Lemma check_compiled_Ok schema keys c :
  key_strict kind_key keys ->
  check_compiled schema keys c = Ok tt <->
  is_compiled schema (c_kind c) = true /\ (c_kind c, c_key c) ∈ keys.*1.
Proof.
  intros Hs. unfold check_compiled. destruct (is_compiled schema (c_kind c)); simpl; [|naive_solver].
  assert (is_Some (binary_search_by_key (c_kind c, c_key c) kind_key keys) <->
          (c_kind c, c_key c) ∈ keys.*1) as Hiff.
  { rewrite list_elem_of_fmap. split.
    - intros [i Hi]. apply binary_search_by_key_Some in Hi as (k & Hk & Hkk); [|done].
      exists k. split; [done|by eapply list_elem_of_lookup_2].
    - intros (k & Hk & [i Hi]%list_elem_of_lookup). exists i.
      apply binary_search_by_key_Some; [done|]. by exists k. }
  rewrite <-Hiff. destruct (binary_search_by_key _ _ _); simpl; [naive_solver|].
  split; [done|]. by intros [_ [? ?]].
Qed.

Lemma NoDup_fmap_perm {A K} (f : A -> K) l1 l2 : l1 ≡ₚ l2 -> NoDup (f <$> l1) <-> NoDup (f <$> l2).
Proof. intros ->. done. Qed.

Lemma sort_strict {A K} `{Ord K} (key : A -> K) l :
  NoDup (key <$> l) -> key_strict key (sort_by_key key l) /\ adjacent_dup key (sort_by_key key l) = None.
Proof.
  intros Hn. assert (NoDup (key <$> sort_by_key key l)) as Hn' by (by rewrite sort_by_key_perm).
  split; [apply key_sorted_strict; [apply sort_by_key_sorted|done]|].
  apply adjacent_dup_None; [apply sort_by_key_sorted|done].
Qed.

Lemma keys_adjacent entries :
  NoDup entries.*1 ->
  adjacent_dup kind_key (sort_by_key (fun k : Z * string * nat => k) entries) = None.
Proof.
  intros Hn. set (keys := sort_by_key _ _).
  assert (NoDup (kind_key <$> keys)) as Hk.
  { unfold keys. by rewrite sort_by_key_perm. }
  clearbody keys. clear Hn entries. induction keys as [|x l IH]; [done|].
  destruct l as [|y l]; [done|]. cbn [adjacent_dup]. destruct (cmp (kind_key x) (kind_key y)) eqn:E.
  - apply cmp_eq in E. inv Hk. exfalso. set_solver.
  - apply IH. by inv Hk.
  - apply IH. by inv Hk.
Qed.

Lemma valid_edge_perm nodes nodes' space schema e :
  nodes ≡ₚ nodes' -> valid_edge nodes space schema e -> valid_edge nodes' space schema e.
Proof.
  intros Hp (? & ? & ? & ? & from & to & Hf & Ht & ?). split_and!; try done.
  exists from, to. by rewrite <-Hp.
Qed.

Lemma assemble_valid b schema compiled g :
  assemble b schema compiled = Ok g -> valid_builder b schema compiled.
Proof.
  intros (Hg & Hn & He & Hsp & _)%assemble_inv. constructor.
  - rewrite <-Hn. apply key_strict_NoDup, Hg.
  - rewrite <-Hn, <-Hsp. apply check_nodes_valid, Hg.
  - rewrite <-Hn. apply NoDup_fmap_2_strong; 
      [|by eapply NoDup_fmap_1, (key_strict_NoDup n_id), ok_nodes].
    intros x y [i Hx]%list_elem_of_lookup [j Hy]%list_elem_of_lookup Hxy.
    injection Hxy as Hk Hs.
    assert ((n_kind x, n_key x, i) ∈ g_keys g) as H1 by (apply (ok_index _ _ _ Hg); eauto).
    assert ((n_kind x, n_key x, j) ∈ g_keys g) as H2 by (apply (ok_index _ _ _ Hg); eauto).
    pose proof (key_strict_inj kind_key _ _ _ (ok_keys _ _ _ Hg) H1 H2 eq_refl). congruence.
  - intros c Hc. pose proof (ok_compiled _ _ _ Hg) as Hcc. rewrite Forall_forall in Hcc.
    apply Hcc, check_compiled_Ok in Hc as [Hc1 Hc2]; [|apply Hg]. split; [done|].
    apply list_elem_of_fmap in Hc2 as ([[k s] i] & [= <- <-] & Hi).
    apply (ok_index _ _ _ Hg) in Hi as (n & Hni & Hk & Hs). exists n. rewrite <-Hn.
    split; [by eapply list_elem_of_lookup_2|]. unfold node_key. congruence.
  - rewrite <-He. apply Hg.
  - rewrite <-He. pose proof (ok_edge _ _ _ Hg) as Hee. eapply Forall_impl; [exact Hee|].
    intros e Hc. rewrite <-Hsp. apply check_edge_valid in Hc; [|apply Hg].
    by eapply valid_edge_perm.
Qed.

Lemma assemble_complete b schema compiled :
  valid_builder b schema compiled ->
  (Z.of_nat (length (b_nodes b)) <= u32_max)%Z -> (Z.of_nat (length (b_edges b)) <= u32_max)%Z ->
  exists g, assemble b schema compiled = Ok g.
Proof.
  intros [Hids Hnodes Hkeys Hcomp Heids Hedges] Hln Hle. unfold assemble.
  destruct (sort_strict n_id (b_nodes b) Hids) as [Hns ->].
  pose proof (sort_by_key_perm n_id (b_nodes b)) as Hperm.
  set (nodes := sort_by_key n_id (b_nodes b)) in *.
  assert (try_each (fun n => check_node n (b_space b) schema compiled) nodes = Ok tt) as ->.
  { apply try_each_Ok, check_nodes_valid. by rewrite Hperm. }
  destruct (key_entries_Ok nodes) as (entries & -> & Hent); [by rewrite Hperm|]. simpl.
  assert (NoDup entries.*1) as Hne by (rewrite Hent, Hperm; done).
  pose proof (keys_adjacent entries Hne) as Hadj. rewrite Hadj.
  assert (try_each (check_compiled schema (sort_by_key (fun k => k) entries)) compiled = Ok tt) as ->.
  { apply try_each_Ok, Forall_forall. intros c Hc.
    apply check_compiled_Ok; [by apply sorted_keys_strict|].
    destruct (Hcomp c Hc) as [Hc1 (n & Hn & Hkn)]. split; [done|].
    rewrite sort_by_key_perm, Hent, <-Hkn, Hperm. by apply list_elem_of_fmap_2. }
  simpl. destruct (sort_strict e_id (b_edges b) Heids) as [Hes ->].
  assert (try_each (check_edge nodes (b_space b) schema) (sort_by_key e_id (b_edges b)) = Ok tt) as ->.
  { apply try_each_Ok, Forall_forall. intros e He. rewrite sort_by_key_elem in He.
    rewrite Forall_forall in Hedges. apply check_edge_valid; [done|].
    eapply valid_edge_perm; [|by apply Hedges]. by rewrite Hperm. }
  simpl. rewrite !sort_by_key_length.
  rewrite (proj2 (try_map_index _ (seq 0 (length (b_edges b))))); [by eexists|].
  split; [done|]. apply Forall_forall. intros i [_ Hi]%elem_of_seq. lia.
Qed.

(** What the tables of a built graph hold. *)
Lemma offsets_length n owners : length (offsets n owners) = S n.
Proof.
  unfold offsets. assert (forall acc l, length (running acc l) = length l) as Hr.
  { intros acc l. revert acc. induction l as [|x l IH]; intros acc; simpl; [done|]. by rewrite IH. }
  rewrite Hr. assert (forall l, length (fold_left (fun out owner =>
    match owner with Some o => alter S (S o) out | None => out end) owners l) = length l) as Hf.
  { induction owners as [|[o|] owners IH]; intros l; simpl; [done| |apply IH]. by rewrite IH, length_alter. }
  by rewrite Hf, length_replicate.
Qed.

Lemma keys_length schema compiled g : graph_ok schema compiled g -> length (g_keys g) = length (g_nodes g).
Proof.
  intros Hg. rewrite <-(length_fmap snd (g_keys g)), <-(length_seq (length (g_nodes g)) 0).
  apply Permutation_length. apply NoDup_Permutation; [|apply NoDup_seq|].
  - apply NoDup_fmap_2_strong; [|by eapply NoDup_fmap_1, (key_strict_NoDup kind_key), Hg].
    intros [[k s] i] [[k' s'] i'] Hx Hy Hi. simpl in Hi. subst i'.
    apply (ok_index _ _ _ Hg) in Hx as (n & Hn & <- & <-), Hy as (n' & Hn' & <- & <-). congruence.
  - intros i. rewrite list_elem_of_fmap, elem_of_seq. split.
    + intros ([[k s] j] & -> & (n & Hn & _)%(ok_index _ _ _ Hg)). simpl. apply lookup_lt_Some in Hn. lia.
    + intros [_ Hi]. destruct (lookup_lt_is_Some_2 (g_nodes g) i Hi) as [n Hn].
      exists (n_kind n, n_key n, i). split; [done|]. apply (ok_index _ _ _ Hg). by exists n.
Qed.

(** The builder's record order does not matter. *)
Lemma assemble_perm b b' schema compiled g :
  assemble b schema compiled = Ok g ->
  b_space b' = b_space b -> b_revision b' = b_revision b ->
  b_nodes b' ≡ₚ b_nodes b -> b_edges b' ≡ₚ b_edges b -> assemble b' schema compiled = Ok g.
Proof.
  intros H Hsp Hrev Hn He. pose proof (assemble_valid _ _ _ _ H) as Hv. rewrite <-H.
  unfold assemble. rewrite Hsp, Hrev.
  rewrite (sort_by_key_unique n_id (b_nodes b') (b_nodes b)) by (done || (rewrite Hn; apply Hv)).
  rewrite (sort_by_key_unique e_id (b_edges b') (b_edges b)) by (done || (rewrite He; apply Hv)).
  done.
Qed.

(** ** Theorems *)

(** lookups by key and by id agree with the records the builder was given:
    the bisected indices return a record exactly when the builder holds it. *)
Theorem graph_lookup_iff (b : GraphBuilder) (schema : Schema) (compiled : CompiledSet) (g : Graph)
    (H : assemble b schema compiled = Ok g) :
  (forall kind key n, g_lookup g kind key = Some n <->
     n ∈ b_nodes b /\ n_kind n = kind /\ n_key n = key) /\
  (forall id n, g_node g id = Some n <-> n ∈ b_nodes b /\ n_id n = id).
Proof.
  apply assemble_inv in H as (Hg & Hn & _). split; intros.
  - by rewrite (g_lookup_iff Hg), Hn.
  - by rewrite (g_node_iff Hg), Hn.
Qed.

(** the offset tables are exact: the outgoing (incoming) edges of a node by
    kind are the edges the builder was given with that source (target) and kind,
    each once, whether or not the node exists. *)
Theorem adjacency_exact (b : GraphBuilder) (schema : Schema) (compiled : CompiledSet) (g : Graph)
    (H : assemble b schema compiled = Ok g) (id kind : Z) :
  out_edges g id kind ≡ₚ List.filter (edge_at id kind) (b_edges b) /\
  in_edges g id kind ≡ₚ List.filter (edge_into id kind) (b_edges b).
Proof.
  apply assemble_inv in H as (Hg & _ & He & _). split.
  - rewrite (out_edges_eq Hg). by apply filter_perm'.
  - rewrite (in_edges_perm Hg). by apply filter_perm'.
Qed.

(** containment is an edge of its own, never a role binding: in any graph
    built under the kernel schema a [binds] edge leads from a subject to a role
    other than [adversary]. *)
Theorem binds_never_adversary (b : GraphBuilder) (compiled : CompiledSet) (g : Graph)
    (e : EdgeRecord) (H : assemble b SCHEMA compiled = Ok g) (He : e ∈ g_edges g)
    (Hk : e_kind e = BINDS) :
  exists from to, g_node g (e_from e) = Some from /\ n_kind from = SUBJECT /\
    g_node g (e_to e) = Some to /\ n_kind to = ROLE /\ n_key to <> ADVERSARY.
Proof.
  apply assemble_inv in H as (Hg & _).
  destruct (edge_endpoints Hg e He) as (from & to & Hf & Ht & Ha & Hb & _).
  rewrite Hk in Ha, Hb. exists from, to. apply bool_decide_eq_true in Ha.
  assert (n_kind from = SUBJECT /\ n_kind to = ROLE) as [Hfk Htk].
  { unfold SCHEMA in Ha. simpl in Ha. rewrite !elem_of_cons, elem_of_nil in Ha.
    repeat destruct Ha as [Ha|Ha]; try done;
      first [by injection Ha as ? ?|injection Ha as _ Hd _; vm_compute in Hd; discriminate Hd]. }
  split_and!; try done. intros Hadv. by rewrite Htk, Hadv in Hb.
Qed.

(** ** Witnesses *)

Definition demo_compiled : CompiledSet := persisted_compiled_set "U".

Definition demo_role (id : Z) (key : string) : NodeRecord :=
  mkNode id KernelSpace ROLE key "U" (mkProv PCompiled 0) 0 ∅.

(** The four roles, one subject and its binding to [admin]. *)
Definition demo_builder : GraphBuilder :=
  mkBuilder KernelSpace 7
    [demo_role 4 ADVERSARY; demo_role 1 "admin"; demo_role 2 "user"; demo_role 3 "guest";
     mkNode 9 KernelSpace SUBJECT "uid:1000" "U" (mkProv PSeed 7) 7 ∅]
    [mkEdge 1 KernelSpace 9 1 BINDS "U" (mkProv PSeed 7) 7 ∅].

Definition demo_graph : Graph :=
  match assemble demo_builder SCHEMA demo_compiled with
  | Ok g => g
  | Err _ => mkGraph KernelSpace 0 0 [] [] [] [] [] []
  end.

Lemma demo_built : assemble demo_builder SCHEMA demo_compiled = Ok demo_graph.
Proof. vm_compute. reflexivity. Qed.

Lemma graph_lookup_iff_witness :
  exists n, g_lookup demo_graph SUBJECT "uid:1000" = Some n /\ n_id n = 9%Z.
Proof.
  exists (mkNode 9 KernelSpace SUBJECT "uid:1000" "U" (mkProv PSeed 7) 7 ∅).
  split; [|reflexivity].
  apply (proj1 (graph_lookup_iff demo_builder SCHEMA demo_compiled demo_graph demo_built)).
  split; [do 4 right; left|split; reflexivity].
Defined.

Lemma adjacency_exact_witness :
  out_edges demo_graph 9 BINDS ≡ₚ [mkEdge 1 KernelSpace 9 1 BINDS "U" (mkProv PSeed 7) 7 ∅].
Proof.
  exact (proj1 (adjacency_exact demo_builder SCHEMA demo_compiled demo_graph demo_built 9 BINDS)).
Defined.

Lemma binds_never_adversary_witness :
  exists from to, g_node demo_graph 9 = Some from /\ n_kind from = SUBJECT /\
    g_node demo_graph 1 = Some to /\ n_kind to = ROLE /\ n_key to <> ADVERSARY.
Proof.
  apply (binds_never_adversary demo_builder demo_compiled demo_graph
           (mkEdge 1 KernelSpace 9 1 BINDS "U" (mkProv PSeed 7) 7 ∅) demo_built).
  - vm_compute. left.
  - reflexivity.
Defined.
