(* ===== verification/GraphFormat.v ===== *)
(** * The binary codec of the typed graph: [format.rs], [bytes.rs]

    Format v1: the writer, the canonical encoding of a graph, the bounds-checked
    reader, and [decode], which accepts only the canonical bytes of a graph the
    builder accepts. A byte is an [ascii]; an [N]-bit field is written and read
    little-endian at its width. *)
From stdpp Require Import base list strings gmap sorting.
From Stdlib Require Import ZArith Lia Ascii.
From S2P Require Import Prelude RustStr RustSlice Graph.
Open Scope nat_scope.

Abbreviation bytes := (list ascii).

(** ** Writers and readers ([bytes.rs]) *)

Definition byte_of (v : Z) : ascii := ascii_of_nat (Z.to_nat (v mod 256)).
Definition byte_val (b : ascii) : Z := Z.of_nat (nat_of_ascii b).

(** [to_le_bytes] and [from_le_bytes] at [k] bytes. *)
Fixpoint le_bytes (k : nat) (v : Z) : bytes :=
  match k with
  | O => []
  | S k' => byte_of v :: le_bytes k' (v / 256)
  end.
Definition from_le (l : bytes) : Z := foldr (fun b acc => byte_val b + 256 * acc)%Z 0%Z l.

Definition u8 (v : Z) : bytes := le_bytes 1 v.
Definition u16 (v : Z) : bytes := le_bytes 2 v.
Definition u32 (v : Z) : bytes := le_bytes 4 v.
Definition u64 (v : Z) : bytes := le_bytes 8 v.
Definition u32n (n : nat) : bytes := u32 (Z.of_nat n).
Definition str_bytes (s : string) : bytes := String.list_ascii_of_string s.

Inductive FormatError :=
| Truncated
| BadMagic
| UnsupportedFormatVersion (v : Z)
| UnsupportedSchemaVersion (found expected : Z)
| NonZeroReserved
| UnknownFlags (v : Z)
| UnknownSpaceTag (t : Z)
| WrongSpace
| BadSectionCount (n : Z)
| BadSectionLayout
| TrailingBytes
| BadUtf8
| BadStrRef (i : Z)
| UnknownProvenance (c : Z)
| UnknownAttrTag (t : Z)
| BadAttrRange
| FExpansionLimit
| NonCanonical
| FGraph (e : GraphError).

(** A read consumes a prefix of the remaining bytes. *)
Definition take_n (n : nat) (r : bytes) : result (bytes * bytes) FormatError :=
  if n <=? length r then Ok (take n r, drop n r) else Err Truncated.

Definition read_le (k : nat) (r : bytes) : result (Z * bytes) FormatError :=
  let? (b, r) := take_n k r in Ok (from_le b, r).
Definition r_u8 := read_le 1.
Definition r_u16 := read_le 2.
Definition r_u32 := read_le 4.
Definition r_u64 := read_le 8.

(** ** Layout constants *)

Definition MAGIC : bytes := str_bytes "MKNG".
Definition FORMAT_VERSION : Z := 1.
Definition HEADER_LEN : nat := 40.
Definition SECTION_COUNT : nat := 7.
Definition SECTIONS_START : nat := HEADER_LEN + SECTION_COUNT * 16.
Definition EXPANSION_LIMIT : nat := 4.
Definition ATTR_STR : Z := 1.
Definition ATTR_U64 : Z := 2.

Definition within_expansion_limit (charged encoded_len : nat) : bool :=
  charged <=? EXPANSION_LIMIT * encoded_len.

(** ** Encoding *)

Definition attr_strings (a : Attrs) : list string :=
  concat (map (fun kv => fst kv :: match snd kv with GStr s => [s] | GU64 _ => [] end)
            (btree_iter a)).

Definition string_table (g : Graph) : list string :=
  dedup (fun s => s) (sort_by_key (fun s => s)
    (concat (map (fun n => n_key n :: n_label n :: attr_strings (n_attrs n)) (g_nodes g)) ++
     concat (map (fun e => e_label e :: attr_strings (e_attrs e)) (g_edges g)))).

Definition space_parts (s : GraphSpace) : Z * Z :=
  match s with Shared => (0, 0) | UserSpace s => (1, s) | KernelSpace => (2, 0) end%Z.

Section Encode.
Context {E : Type} (strings : list string).

Definition sref (s : string) : result nat (fault E) :=
  match binary_search_by_key s (fun x => x) strings with
  | Some i => index_u32 i
  | None => Err Panic
  end.

Definition attr_record (kv : string * GAttr) : result bytes (fault E) :=
  let? k := sref (fst kv) in
  match snd kv with
  | GStr s =>
      let? i := sref s in
      Ok (u32n k ++ u8 ATTR_STR ++ le_bytes 3 0 ++ u64 (Z.of_nat i))
  | GU64 x => Ok (u32n k ++ u8 ATTR_U64 ++ le_bytes 3 0 ++ u64 x)
  end.

(** [push_attrs]: the records, and the [u32] counter, which wraps. *)
Definition push_attrs (count : Z) (a : Attrs) : result (bytes * Z * nat) (fault E) :=
  let? recs := try_map attr_record (btree_iter a) in
  let? len := index_u32 (length (btree_iter a)) in
  Ok (concat recs, ((count + Z.of_nat (length recs)) mod u32_max)%Z, len).

Definition node_record (n : NodeRecord) (start : Z) (count : nat) : result bytes (fault E) :=
  let '(tag, subject) := space_parts (n_space n) in
  let? key := sref (n_key n) in
  let? label := sref (n_label n) in
  Ok (u64 (n_id n) ++ u16 (n_kind n) ++ u16 (prov_code (pv_kind (n_prov n))) ++ u8 tag
      ++ le_bytes 3 0 ++ u64 subject ++ u32n key ++ u32n label ++ u64 (n_revision n)
      ++ u64 (pv_transition (n_prov n)) ++ u32 start ++ u32n count).

Definition edge_record (e : EdgeRecord) (start : Z) (count : nat) : result bytes (fault E) :=
  let '(tag, subject) := space_parts (e_space e) in
  let? label := sref (e_label e) in
  Ok (u64 (e_id e) ++ u64 (e_from e) ++ u64 (e_to e) ++ u16 (e_kind e)
      ++ u16 (prov_code (pv_kind (e_prov e))) ++ u8 tag ++ le_bytes 3 0 ++ u64 subject
      ++ u32n label ++ u32 0 ++ u64 (e_revision e) ++ u64 (pv_transition (e_prov e))
      ++ u32 start ++ u32n count).

(** One pass over the records of a table: the table's bytes, the attribute
    bytes it pushed, and the attribute counter after it. *)
Fixpoint write_records {A} (attrs : A -> Attrs) (record : A -> Z -> nat -> result bytes (fault E))
    (count : Z) (l : list A) : result (bytes * bytes * Z) (fault E) :=
  match l with
  | [] => Ok ([], [], count)
  | x :: l' =>
      let? (body, count', n) := push_attrs count (attrs x) in
      let? rec := record x count n in
      let? (recs, bodies, count'') := write_records attrs record count' l' in
      Ok (rec ++ recs, body ++ bodies, count'')
  end.

Definition key_record (k : Z * string * nat) : result bytes (fault E) :=
  let '(kind, key, node) := k in
  let? s := sref key in Ok (u16 kind ++ u16 0 ++ u32n s ++ u32n node).

Definition string_record (s : string) : result bytes (fault E) :=
  let? len := index_u32 (String.length s) in Ok (u32n len ++ str_bytes s).
End Encode.

(** The header's section table: each section's offset and length. *)
Fixpoint section_table (offset : nat) (sections : list bytes) : bytes :=
  match sections with
  | [] => []
  | s :: ss =>
      u64 (Z.of_nat offset) ++ u64 (Z.of_nat (length s)) ++ section_table (offset + length s) ss
  end.

Definition header (g : Graph) : bytes :=
  let '(tag, subject) := space_parts (g_space g) in
  MAGIC ++ u16 FORMAT_VERSION ++ u16 (g_schema_version g) ++ u8 tag ++ u8 0 ++ u16 0
  ++ u64 subject ++ u64 (g_revision g) ++ u32n SECTION_COUNT ++ u64 0.

Definition encode {E} (g : Graph) : result bytes (fault E) :=
  let strings := string_table g in
  let? node_count := index_u32 (length (g_nodes g)) in
  let? (nodes, attrs1, count1) :=
    write_records strings n_attrs (node_record strings) 0 (g_nodes g) in
  let? edge_count := index_u32 (length (g_edges g)) in
  let? (edges, attrs2, count2) :=
    write_records strings e_attrs (edge_record strings) count1 (g_edges g) in
  let? keys := try_map (key_record strings) (g_keys g) in
  let? string_count := index_u32 (length strings) in
  let? string_records := try_map string_record strings in
  let sections :=
    [u32n string_count ++ concat string_records;
     u32n node_count ++ nodes;
     u32n edge_count ++ edges;
     concat (map u32n (g_out_offsets g));
     concat (map u32n (g_in_offsets g)) ++ concat (map u32n (g_in_edges g));
     concat keys;
     u32 count2 ++ attrs1 ++ attrs2] in
  Ok (header g ++ section_table SECTIONS_START sections ++ concat sections).

(** [GraphBuilder::build_encoded] and [build] ([graph.rs]). *)
Definition build_encoded (b : GraphBuilder) (schema : Schema) (compiled : CompiledSet)
  : result (Graph * bytes) (fault GraphError) :=
  let? g := assemble b schema compiled in
  let? encoded := encode g in
  if negb (within_expansion_limit (reference_bytes g) (length encoded)) then
    Err (Refused ExpansionLimit)
  else Ok (g, encoded).

Definition build_graph (b : GraphBuilder) (schema : Schema) (compiled : CompiledSet)
  : result Graph (fault GraphError) :=
  let? (g, _) := build_encoded b schema compiled in Ok g.

(** ** Decoding *)

Definition decode_space (tag subject : Z) : result GraphSpace FormatError :=
  match tag with
  | 0 => Ok Shared
  | 1 => Ok (UserSpace subject)
  | 2 => Ok KernelSpace
  | t => Err (UnknownSpaceTag t)
  end%Z.

Definition provenance (code transition : Z) : result Provenance FormatError :=
  let? kind := ok_or (prov_from_code code) (UnknownProvenance code) in
  Ok (mkProv kind transition).

Definition reserved (n : nat) (r : bytes) : result bytes FormatError :=
  let? (b, r) := take_n n r in
  if existsb (fun b => negb (Ascii.eqb b (ascii_of_nat 0))) b then Err NonZeroReserved else Ok r.

Definition done_ (r : bytes) : result unit FormatError :=
  match r with [] => Ok tt | _ => Err TrailingBytes end.

(** The string table and what is left of the expansion budget. *)
Record Strings := mkStrings { st_table : list string; st_budget : nat }.

Definition strings_get (st : Strings) (i : Z) : result (string * Strings) FormatError :=
  match st_table st !! Z.to_nat i with
  | None => Err (BadStrRef i)
  | Some s =>
      if String.length s <=? st_budget st
      then Ok (s, mkStrings (st_table st) (st_budget st - String.length s))
      else Err FExpansionLimit
  end.

(** [for _ in 0..n { out.push(read(..)?) }], threading a reader state. *)
Fixpoint read_many {S A} (read : S -> result (A * S) FormatError) (n : nat) (s : S)
  : result (list A * S) FormatError :=
  match n with
  | O => Ok ([], s)
  | S n' =>
      let? (a, s) := read s in
      let? (l, s) := read_many read n' s in
      Ok (a :: l, s)
  end.

Definition read_string (r : bytes) : result (string * bytes) FormatError :=
  let? (len, r) := r_u32 r in
  let? (b, r) := take_n (Z.to_nat len) r in
  let s := String.string_of_list_ascii b in
  if utf8_valid s then Ok (s, r) else Err BadUtf8.

Definition read_strings (section : bytes) : result (list string) FormatError :=
  let? (n, r) := r_u32 section in
  let? (out, r) := read_many read_string (Z.to_nat n) r in
  let? _ := done_ r in
  Ok out.

Abbreviation reader := (bytes * Strings)%type.

Definition read_node (s : reader) : result (NodeRecord * Z * Z * reader) FormatError :=
  let '(r, st) := s in
  let? (id, r) := r_u64 r in
  let? (kind, r) := r_u16 r in
  let? (code, r) := r_u16 r in
  let? (tag, r) := r_u8 r in
  let? r := reserved 3 r in
  let? (subject, r) := r_u64 r in
  let? (ki, r) := r_u32 r in
  let? (key, st) := strings_get st ki in
  let? (li, r) := r_u32 r in
  let? (label, st) := strings_get st li in
  let? (revision, r) := r_u64 r in
  let? (transition, r) := r_u64 r in
  let? (start, r) := r_u32 r in
  let? (count, r) := r_u32 r in
  let? space := decode_space tag subject in
  let? prov := provenance code transition in
  Ok (mkNode id space kind key label prov revision ∅, start, count, (r, st)).

Definition read_edge (s : reader) : result (EdgeRecord * Z * Z * reader) FormatError :=
  let '(r, st) := s in
  let? (id, r) := r_u64 r in
  let? (from, r) := r_u64 r in
  let? (to, r) := r_u64 r in
  let? (kind, r) := r_u16 r in
  let? (code, r) := r_u16 r in
  let? (tag, r) := r_u8 r in
  let? r := reserved 3 r in
  let? (subject, r) := r_u64 r in
  let? (li, r) := r_u32 r in
  let? (label, st) := strings_get st li in
  let? r := reserved 4 r in
  let? (revision, r) := r_u64 r in
  let? (transition, r) := r_u64 r in
  let? (start, r) := r_u32 r in
  let? (count, r) := r_u32 r in
  let? space := decode_space tag subject in
  let? prov := provenance code transition in
  Ok (mkEdge id space from to kind label prov revision ∅, start, count, (r, st)).

Definition read_attr (s : reader) : result (string * GAttr * reader) FormatError :=
  let '(r, st) := s in
  let? (ki, r) := r_u32 r in
  let? (key, st) := strings_get st ki in
  let? (tag, r) := r_u8 r in
  let? r := reserved 3 r in
  let? (raw, r) := r_u64 r in
  if (tag =? ATTR_STR)%Z then
    let? (s, st) := strings_get st raw in Ok (key, GStr s, (r, st))
  else if (tag =? ATTR_U64)%Z then Ok (key, GU64 raw, (r, st))
  else Err (UnknownAttrTag tag).

(** A table: its count, its records, and nothing after them. *)
Definition read_table {A} (read : reader -> result (A * reader) FormatError) (section : bytes)
    (st : Strings) : result (list A * Strings) FormatError :=
  let? (n, r) := r_u32 section in
  let? (out, (r, st)) := read_many read (Z.to_nat n) (r, st) in
  let? _ := done_ r in
  Ok (out, st).

(** [take_attrs]: a record's attributes are the next [count] of the table. *)
Definition take_attrs (rest : list (string * GAttr)) (cursor : nat) (start count : Z)
  : result (Attrs * list (string * GAttr) * nat) FormatError :=
  let n := Z.to_nat count in
  if negb (Z.to_nat start =? cursor) || (length rest <? n) then Err BadAttrRange
  else Ok (foldl (fun m kv => <[fst kv:=snd kv]> m) ∅ (take n rest), drop n rest, cursor + n).

Fixpoint attach {A} (set : A -> Attrs -> A) (records : list (A * Z * Z))
    (rest : list (string * GAttr)) (cursor : nat)
  : result (list A * list (string * GAttr) * nat) FormatError :=
  match records with
  | [] => Ok ([], rest, cursor)
  | (x, start, count) :: records' =>
      let? (a, rest, cursor) := take_attrs rest cursor start count in
      let? (xs, rest, cursor) := attach set records' rest cursor in
      Ok (set x a :: xs, rest, cursor)
  end.

Definition node_with (n : NodeRecord) (a : Attrs) : NodeRecord :=
  mkNode (n_id n) (n_space n) (n_kind n) (n_key n) (n_label n) (n_prov n) (n_revision n) a.
Definition edge_with (e : EdgeRecord) (a : Attrs) : EdgeRecord :=
  mkEdge (e_id e) (e_space e) (e_from e) (e_to e) (e_kind e) (e_label e) (e_prov e)
    (e_revision e) a.

(** The section loop: contiguous, in bounds. *)
Fixpoint read_sections (all : bytes) (n : nat) (next : Z) (r : bytes)
  : result (list bytes * Z) FormatError :=
  match n with
  | O => Ok ([], next)
  | S n' =>
      let? (offset, r) := r_u64 r in
      let? (len, r) := r_u64 r in
      if negb (offset =? next)%Z then Err BadSectionLayout
      else
        let e := (offset + len)%Z in
        if negb ((e <? u64_max) && (e <=? Z.of_nat (length all)))%Z then Err BadSectionLayout
        else
          let? (ss, next) := read_sections all n' e r in
          Ok (slice (Z.to_nat offset) (Z.to_nat e) all :: ss, next)
  end.

Definition read_header (all : bytes) (expected : GraphSpace) (schema : Schema)
  : result (GraphSpace * Z * bytes) FormatError :=
  let? (magic, r) := take_n 4 all in
  if negb (bool_decide (magic = MAGIC)) then Err BadMagic else
  let? (format, r) := r_u16 r in
  if negb (format =? FORMAT_VERSION)%Z then Err (UnsupportedFormatVersion format) else
  let? (version, r) := r_u16 r in
  if negb (version =? sc_version schema)%Z then
    Err (UnsupportedSchemaVersion version (sc_version schema)) else
  let? (tag, r) := r_u8 r in
  let? (reserved, r) := r_u8 r in
  let? (flags, r) := r_u16 r in
  let? (subject, r) := r_u64 r in
  let? (revision, r) := r_u64 r in
  let? (count, r) := r_u32 r in
  let? (tail, r) := r_u64 r in
  if negb (flags =? 0)%Z then Err (UnknownFlags flags) else
  if negb (reserved =? 0)%Z || negb (tail =? 0)%Z then Err NonZeroReserved else
  if negb (count =? Z.of_nat SECTION_COUNT)%Z then Err (BadSectionCount count) else
  let? space := decode_space tag subject in
  if negb (bool_decide (space = expected)) then Err WrongSpace else
  Ok (space, revision, r).

Definition parse_sections (all : bytes) (space : GraphSpace) (revision : Z)
    (sections : list bytes) : result GraphBuilder FormatError :=
  let sec i := default [] (sections !! i) in
  let? table := read_strings (sec 0) in
  let st := mkStrings table (EXPANSION_LIMIT * length all) in
  let? (nodes, st) := read_table read_node (sec 1) st in
  let? (edges, st) := read_table read_edge (sec 2) st in
  let? (attrs, st) := read_table read_attr (sec 6) st in
  let? (ns, attrs, cursor) := attach node_with nodes attrs 0 in
  let? (es, attrs, _) := attach edge_with edges attrs cursor in
  match attrs with
  | [] => Ok (mkBuilder space revision ns es)
  | _ => Err BadAttrRange
  end.

Definition parse (all : bytes) (expected : GraphSpace) (schema : Schema)
  : result GraphBuilder FormatError :=
  let? (space, revision, r) := read_header all expected schema in
  let? (sections, next) := read_sections all SECTION_COUNT (Z.of_nat SECTIONS_START) r in
  if negb (next =? Z.of_nat (length all))%Z then Err TrailingBytes
  else parse_sections all space revision sections.

Definition lift_graph (e : fault GraphError) : fault FormatError :=
  match e with Panic => Panic | Refused e => Refused (FGraph e) end.

Definition rebuild_canonical (b : GraphBuilder) (all : bytes) (schema : Schema)
    (compiled : CompiledSet) : result Graph (fault FormatError) :=
  let? (g, encoded) := map_err lift_graph (build_encoded b schema compiled) in
  if negb (bool_decide (encoded = all)) then Err (Refused NonCanonical) else Ok g.

Definition decode (all : bytes) (expected : GraphSpace) (schema : Schema)
    (compiled : CompiledSet) : result Graph (fault FormatError) :=
  let? b := map_err Refused (parse all expected schema) in
  rebuild_canonical b all schema compiled.

Definition stored_compiled (b : GraphBuilder) : CompiledSet :=
  map (fun n => mkCompiled (n_kind n) (n_key n) (n_label n) (n_attrs n))
    (List.filter (fun n => bool_decide (pv_kind (n_prov n) = PCompiled)) (b_nodes b)).

Definition decode_stored_compiled (all : bytes) (expected : GraphSpace) (schema : Schema)
  : result (Graph * CompiledSet) (fault FormatError) :=
  let? b := map_err Refused (parse all expected schema) in
  let stored := stored_compiled b in
  let? g := rebuild_canonical b all schema stored in
  Ok (g, stored).

(** ** Lemmas: fields *)

Definition fits (k : nat) (v : Z) : Prop := (0 <= v < 256 ^ Z.of_nat k)%Z.

Lemma byte_val_of v : byte_val (byte_of v) = (v mod 256)%Z.
Proof.
  unfold byte_val, byte_of. pose proof (Z.mod_pos_bound v 256 ltac:(lia)).
  rewrite nat_ascii_embedding by lia. lia.
Qed.

Lemma le_bytes_length k v : length (le_bytes k v) = k.
Proof. revert v. induction k as [|k IH]; intros v; simpl; [done|]. by rewrite IH. Qed.

Lemma from_le_bytes k v : fits k v -> from_le (le_bytes k v) = v.
Proof.
  revert v. induction k as [|k IH]; intros v Hv; unfold fits in *.
  - change (256 ^ Z.of_nat 0)%Z with 1%Z in Hv. simpl. lia.
  - cbn [le_bytes from_le foldr]. fold (from_le (le_bytes k (v / 256))). rewrite IH, byte_val_of.
    + pose proof (Z.div_mod v 256). lia.
    + rewrite Nat2Z.inj_succ, Z.pow_succ_r in Hv by lia.
      split; [apply Z.div_pos; lia|apply Z.div_lt_upper_bound; lia].
Qed.

Lemma take_n_app b r : take_n (length b) (b ++ r) = Ok (b, r).
Proof.
  unfold take_n. rewrite length_app. destruct (Nat.leb_spec (length b) (length b + length r)); [|lia].
  by rewrite take_app_length, drop_app_length.
Qed.

(** What was written at a width is read back at it. *)
Lemma read_le_app k v r : fits k v -> read_le k (le_bytes k v ++ r) = Ok (v, r).
Proof.
  intros Hv. unfold read_le. rewrite <-(le_bytes_length k v) at 1. rewrite take_n_app.
  by rewrite from_le_bytes.
Qed.

Lemma r_u8_app v r : fits 1 v -> r_u8 (u8 v ++ r) = Ok (v, r).
Proof. apply read_le_app. Qed.
Lemma r_u16_app v r : fits 2 v -> r_u16 (u16 v ++ r) = Ok (v, r).
Proof. apply read_le_app. Qed.
Lemma r_u32_app v r : fits 4 v -> r_u32 (u32 v ++ r) = Ok (v, r).
Proof. apply read_le_app. Qed.
Lemma r_u64_app v r : fits 8 v -> r_u64 (u64 v ++ r) = Ok (v, r).
Proof. apply read_le_app. Qed.
Lemma r_u32n_app n r : (Z.of_nat n < u32_max)%Z -> r_u32 (u32n n ++ r) = Ok (Z.of_nat n, r).
Proof. intros Hn. apply r_u32_app. unfold fits, u32_max in *. simpl in *. lia. Qed.

Lemma reserved3 r : reserved 3 (le_bytes 3 0 ++ r) = Ok r.
Proof. reflexivity. Qed.
Lemma reserved4 r : reserved 4 (u32 0 ++ r) = Ok r.
Proof. reflexivity. Qed.

Lemma prov_code_fits p : fits 2 (prov_code p).
Proof. destruct p; unfold fits; simpl; lia. Qed.
Lemma prov_roundtrip p : prov_from_code (prov_code p) = Some p.
Proof. by destruct p. Qed.

Definition wf_space (s : GraphSpace) : Prop :=
  match s with UserSpace u => fits 8 u | _ => True end.

Lemma space_roundtrip s : decode_space (fst (space_parts s)) (snd (space_parts s)) = Ok s.
Proof. by destruct s. Qed.
Lemma space_fits s : wf_space s -> fits 1 (fst (space_parts s)) /\ fits 8 (snd (space_parts s)).
Proof. destruct s; simpl; intros; split; try done; unfold fits; simpl; lia. Qed.

(** ** Lemmas: the string table *)

Lemma sref_Ok {E} T s i :
  key_strict (fun x => x) T -> @sref E T s = Ok i -> T !! i = Some s /\ (Z.of_nat i < u32_max)%Z.
Proof.
  intros Hs. unfold sref. destruct (binary_search_by_key _ _ _) as [j|] eqn:Ej; [|done].
  intros [-> Hlt]%index_u32_Ok. apply binary_search_by_key_Some in Ej as (x & Hx & ->); done.
Qed.

Lemma strings_get_ref {E} T budget s i :
  key_strict (fun x => x) T -> @sref E T s = Ok i -> String.length s <= budget ->
  strings_get (mkStrings T budget) (Z.of_nat i) = Ok (s, mkStrings T (budget - String.length s)).
Proof.
  intros Hs Hi Hb. destruct (sref_Ok T s i Hs Hi) as [Hl _]. unfold strings_get. simpl.
  rewrite Nat2Z.id, Hl. by destruct (Nat.leb_spec (String.length s) budget); [|lia].
Qed.

Lemma string_table_strict g : key_strict (fun x => x) (string_table g).
Proof. apply dedup_strict; [done|]. apply sort_by_key_sorted. Qed.

Arguments le_bytes : simpl never.
Arguments u8 : simpl never.
Arguments u16 : simpl never.
Arguments u32 : simpl never.
Arguments u64 : simpl never.
Arguments u32n : simpl never.

(** ** Lemmas: records *)

Definition wf_attrs (a : Attrs) : Prop :=
  forall k v, a !! k = Some v -> match v with GU64 n => fits 8 n | GStr _ => True end.

Record wf_node (n : NodeRecord) : Prop := {
  wn_id : fits 8 (n_id n);
  wn_space : wf_space (n_space n);
  wn_kind : fits 2 (n_kind n);
  wn_transition : fits 8 (pv_transition (n_prov n));
  wn_revision : fits 8 (n_revision n);
  wn_attrs : wf_attrs (n_attrs n) }.

Record wf_edge (e : EdgeRecord) : Prop := {
  we_id : fits 8 (e_id e);
  we_space : wf_space (e_space e);
  we_from : fits 8 (e_from e);
  we_to : fits 8 (e_to e);
  we_kind : fits 2 (e_kind e);
  we_transition : fits 8 (pv_transition (e_prov e));
  we_revision : fits 8 (e_revision e);
  we_attrs : wf_attrs (e_attrs e) }.

Section Records.
Context {E : Type} (T : list string) (HT : key_strict (fun x => x) T).

Lemma sref_u32 s i r : @sref E T s = Ok i -> r_u32 (u32n i ++ r) = Ok (Z.of_nat i, r).
Proof using HT. intros [_ Hi]%sref_Ok; [|done]. by apply r_u32n_app. Qed.

Lemma node_roundtrip n start count b budget r :
  wf_node n -> fits 4 start -> (Z.of_nat count < u32_max)%Z ->
  @node_record E T n start count = Ok b ->
  String.length (n_key n) + String.length (n_label n) <= budget ->
  read_node (b ++ r, mkStrings T budget) =
  Ok (node_with n ∅, start, Z.of_nat count,
      (r, mkStrings T (budget - (String.length (n_key n) + String.length (n_label n))))).
Proof using HT.
  intros [] Hst Hct Hb Hbud. unfold node_record in Hb.
  destruct (space_parts (n_space n)) as [tag subject] eqn:Esp.
  pose proof (space_fits (n_space n) wn_space0) as [Htag Hsub]. rewrite Esp in Htag, Hsub.
  pose proof (space_roundtrip (n_space n)) as Hspace. rewrite Esp in Hspace. simpl in Htag, Hsub, Hspace.
  unbind Hb. apply Ok_inj in Hb as <-. unfold read_node. rewrite <-!app_assoc.
  rewrite r_u64_app by done. rewrite r_u16_app by done.
  rewrite r_u16_app by apply prov_code_fits. rewrite r_u8_app by done. rewrite reserved3.
  rewrite r_u64_app by done. rewrite (sref_u32 _ _ _ E0).
  rewrite (strings_get_ref T budget _ _ HT E0) by lia. rewrite (sref_u32 _ _ _ E1).
  rewrite (strings_get_ref T _ _ _ HT E1) by lia.
  rewrite r_u64_app by done. rewrite r_u64_app by done. rewrite r_u32_app by done.
  rewrite r_u32n_app by done. rewrite Hspace. unfold provenance. rewrite prov_roundtrip. simpl.
  unfold node_with. rewrite Nat.sub_add_distr. by destruct (n_prov n).
Qed.

Lemma edge_roundtrip e start count b budget r :
  wf_edge e -> fits 4 start -> (Z.of_nat count < u32_max)%Z ->
  @edge_record E T e start count = Ok b -> String.length (e_label e) <= budget ->
  read_edge (b ++ r, mkStrings T budget) =
  Ok (edge_with e ∅, start, Z.of_nat count,
      (r, mkStrings T (budget - String.length (e_label e)))).
Proof using HT.
  intros [] Hst Hct Hb Hbud. unfold edge_record in Hb.
  destruct (space_parts (e_space e)) as [tag subject] eqn:Esp.
  pose proof (space_fits (e_space e) we_space0) as [Htag Hsub]. rewrite Esp in Htag, Hsub.
  pose proof (space_roundtrip (e_space e)) as Hspace. rewrite Esp in Hspace. simpl in Htag, Hsub, Hspace.
  unbind Hb. apply Ok_inj in Hb as <-. unfold read_edge. rewrite <-!app_assoc.
  rewrite !r_u64_app by done. rewrite r_u16_app by done.
  rewrite r_u16_app by apply prov_code_fits. rewrite r_u8_app by done. rewrite reserved3.
  rewrite r_u64_app by done. rewrite (sref_u32 _ _ _ E0).
  rewrite (strings_get_ref T budget _ _ HT E0) by lia. rewrite reserved4.
  rewrite r_u64_app by done. rewrite r_u64_app by done. rewrite r_u32_app by done.
  rewrite r_u32n_app by done. rewrite Hspace. unfold provenance. rewrite prov_roundtrip. simpl.
  unfold edge_with. by destruct (e_prov e).
Qed.

Definition attr_cost (kv : string * GAttr) : nat :=
  String.length (fst kv) + match snd kv with GStr s => String.length s | GU64 _ => 0 end.

Lemma attr_roundtrip kv b budget r :
  match snd kv with GU64 n => fits 8 n | GStr _ => True end ->
  @attr_record E T kv = Ok b -> attr_cost kv <= budget ->
  read_attr (b ++ r, mkStrings T budget) = Ok (kv, (r, mkStrings T (budget - attr_cost kv))).
Proof using HT.
  destruct kv as [k v]. unfold attr_record, attr_cost. cbn [fst snd]. intros Hv Hb Hbud. unbind Hb.
  unfold read_attr. destruct v as [s|x].
  - unbind Hb. apply Ok_inj in Hb as <-. rewrite <-!app_assoc. rewrite (sref_u32 _ _ _ E0).
    rewrite (strings_get_ref T budget _ _ HT E0) by lia.
    rewrite r_u8_app by (unfold fits, ATTR_STR, ATTR_U64; simpl; lia). rewrite reserved3.
    destruct (sref_Ok T s a0 HT E1) as [_ Hi].
    rewrite r_u64_app by (unfold fits, u32_max in *; simpl in *; lia). simpl.
    rewrite (strings_get_ref T _ _ _ HT E1) by lia. by rewrite Nat.sub_add_distr.
  - apply Ok_inj in Hb as <-. rewrite <-!app_assoc. rewrite (sref_u32 _ _ _ E0).
    rewrite (strings_get_ref T budget _ _ HT E0) by lia.
    rewrite r_u8_app by (unfold fits, ATTR_STR, ATTR_U64; simpl; lia). rewrite reserved3.
    rewrite r_u64_app by done. simpl. by rewrite Nat.add_0_r.
Qed.
End Records.

(** ** Lemmas: tables *)

Definition attr_entries {A} (attrs : A -> Attrs) (l : list A) : list (string * GAttr) :=
  concat (map (fun x => btree_iter (attrs x)) l).

(** Each record with the start and length of its attribute range. *)
Fixpoint layout {A} (attrs : A -> Attrs) (c : nat) (l : list A) : list (A * nat * nat) :=
  match l with
  | [] => []
  | x :: l' =>
      let n := length (btree_iter (attrs x)) in (x, c, n) :: layout attrs (c + n) l'
  end.

Lemma attr_entries_cons {A} (attrs : A -> Attrs) x l :
  attr_entries attrs (x :: l) = btree_iter (attrs x) ++ attr_entries attrs l.
Proof. reflexivity. Qed.

Lemma foldl_insert_map (l : list (string * GAttr)) (m : Attrs) :
  NoDup l.*1 -> (forall k, k ∈ l.*1 -> m !! k = None) ->
  foldl (fun m kv => <[fst kv:=snd kv]> m) m l = list_to_map l ∪ m.
Proof.
  revert m. induction l as [|[k v] l IH]; intros m Hn Hm; cbn [foldl].
  - by rewrite list_to_map_nil, (left_id_L ∅ (∪)).
  - inv Hn. cbn [fst snd]. rewrite IH; [|done|].
    + rewrite list_to_map_cons, <-insert_union_r, insert_union_l; [done|].
      by apply not_elem_of_list_to_map_1.
    + intros k' Hk'. rewrite lookup_insert_ne; [apply Hm; by right|]. intros ->. done.
Qed.

Lemma foldl_btree (a : Attrs) :
  foldl (fun m kv => <[fst kv:=snd kv]> m) ∅ (btree_iter a) = a.
Proof.
  rewrite foldl_insert_map; [|apply btree_iter_NoDup|by intros; apply lookup_empty].
  rewrite (right_id_L ∅ (∪)). apply map_eq. intros k. apply option_eq. intros v.
  rewrite <-elem_of_list_to_map by apply btree_iter_NoDup. apply btree_iter_elem.
Qed.

Lemma attach_layout {A} (set : A -> Attrs -> A) (attrs : A -> Attrs) l c rest :
  (forall x, set (set x ∅) (attrs x) = x) ->
  attach set (map (fun it => (set (fst (fst it)) ∅, Z.of_nat (snd (fst it)), Z.of_nat (snd it)))
                (layout attrs c l)) (attr_entries attrs l ++ rest) c
  = Ok (l, rest, c + length (attr_entries attrs l)).
Proof.
  intros Hset. revert c. induction l as [|x l IH]; intros c.
  - simpl. by rewrite Nat.add_0_r.
  - cbn [layout map attach fst snd]. unfold take_attrs. rewrite !Nat2Z.id, Nat.eqb_refl.
    rewrite attr_entries_cons, <-app_assoc. cbn [negb orb].
    destruct (Nat.ltb_spec (length (btree_iter (attrs x) ++ attr_entries attrs l ++ rest))
                (length (btree_iter (attrs x)))) as [Hlt|_].
    { rewrite length_app in Hlt. lia. }
    rewrite take_app_length, drop_app_length, IH, foldl_btree, Hset, length_app.
    by rewrite Nat.add_assoc.
Qed.

Lemma write_records_spec {E A} T (attrs : A -> Attrs)
    (record : A -> Z -> nat -> result bytes (fault E)) l c recs bodies count :
  (Z.of_nat (c + length (attr_entries attrs l)) < u32_max)%Z ->
  write_records T attrs record (Z.of_nat c) l = Ok (recs, bodies, count) ->
  count = Z.of_nat (c + length (attr_entries attrs l)) /\
  exists rl al, recs = concat rl /\ bodies = concat al /\
    Forall2 (fun it b => record (fst (fst it)) (Z.of_nat (snd (fst it))) (snd it) = Ok b)
      (layout attrs c l) rl /\
    Forall2 (fun kv b => @attr_record E T kv = Ok b) (attr_entries attrs l) al.
Proof.
  revert c recs bodies. induction l as [|x l IH]; intros c recs bodies Hc H; cbn in H.
  - injection H as <- <- <-. simpl. rewrite Nat.add_0_r. split; [done|].
    exists [], []. split_and!; done || constructor.
  - rewrite attr_entries_cons, length_app in *. unfold push_attrs in H.
    destruct (try_map (attr_record T) (btree_iter (attrs x))) as [al1|] eqn:Ea; [|done].
    pose proof (try_map_length _ _ _ Ea) as Hlen. apply try_map_Ok in Ea.
    destruct (index_u32 (length (btree_iter (attrs x)))) as [n|] eqn:En; [|done].
    apply index_u32_Ok in En as [-> _]. simpl in H.
    rewrite Hlen, <-Nat2Z.inj_add, Z.mod_small in H by lia.
    destruct (record x (Z.of_nat c) _) as [b|] eqn:Er; [|done].
    destruct (write_records T attrs record _ l) as [[[recs' bodies'] count']|] eqn:Ew; [|done].
    apply Ok_inj in H. injection H as <- <- <-.
    apply IH in Ew as (-> & rl & al & -> & -> & Hrl & Hal); [|lia].
    split; [f_equal; lia|]. exists (b :: rl), (al1 ++ al).
    split_and!; [done|by rewrite concat_app|by constructor|by apply Forall2_app].
Qed.

Lemma read_many_records {B} (read : reader -> result (B * reader) FormatError) T
    (cost : B -> nat) (items : list B) (recs : list bytes) budget rest :
  Forall2 (fun x b => forall budget r, cost x <= budget ->
    read (b ++ r, mkStrings T budget) = Ok (x, (r, mkStrings T (budget - cost x)))) items recs ->
  sum_list_with cost items <= budget ->
  read_many read (length items) (concat recs ++ rest, mkStrings T budget) =
  Ok (items, (rest, mkStrings T (budget - sum_list_with cost items))).
Proof.
  intros H. revert budget. induction H as [|x b items recs Hx _ IH]; intros budget Hb; simpl in *.
  - by rewrite Nat.sub_0_r.
  - rewrite <-app_assoc, Hx by lia. rewrite IH by lia. by rewrite Nat.sub_add_distr.
Qed.

Lemma read_table_records {B} (read : reader -> result (B * reader) FormatError) T
    (cost : B -> nat) (items : list B) (recs : list bytes) budget :
  (Z.of_nat (length items) < u32_max)%Z ->
  Forall2 (fun x b => forall budget r, cost x <= budget ->
    read (b ++ r, mkStrings T budget) = Ok (x, (r, mkStrings T (budget - cost x)))) items recs ->
  sum_list_with cost items <= budget ->
  read_table read (u32n (length items) ++ concat recs) (mkStrings T budget) =
  Ok (items, mkStrings T (budget - sum_list_with cost items)).
Proof.
  intros Hlen H Hb. unfold read_table. rewrite r_u32n_app by done. rewrite Nat2Z.id.
  rewrite <-(app_nil_r (concat recs)), (read_many_records read T cost items recs) by done.
  done.
Qed.

(** ** Lemmas: strings, sections, header *)

Lemma str_bytes_length s : length (str_bytes s) = String.length s.
Proof. unfold str_bytes. induction s as [|a s IH]; simpl; [done|]. by rewrite IH. Qed.

Lemma string_roundtrip {E} s b r :
  utf8_valid s = true -> @string_record E s = Ok b -> read_string (b ++ r) = Ok (s, r).
Proof.
  intros Hu H. unfold string_record in H. unbind H. apply Ok_inj in H as <-.
  apply index_u32_Ok in E0 as [-> Hlen]. unfold read_string. rewrite <-app_assoc.
  rewrite r_u32n_app, Nat2Z.id by done. rewrite <-str_bytes_length, take_n_app.
  unfold str_bytes. by rewrite String.string_of_list_ascii_of_string, Hu.
Qed.

Lemma read_strings_table {E} T recs :
  (forall s, s ∈ T -> utf8_valid s = true) -> (Z.of_nat (length T) < u32_max)%Z ->
  try_map (@string_record E) T = Ok recs -> read_strings (u32n (length T) ++ concat recs) = Ok T.
Proof.
  intros Hu Hlen H%try_map_Ok. unfold read_strings. rewrite r_u32n_app, Nat2Z.id by done.
  assert (forall r, read_many read_string (length T) (concat recs ++ r) = Ok (T, r)) as Hmany.
  { clear Hlen. induction H as [|s b T recs Hs _ IH]; intros r; [done|]. cbn [length read_many concat].
    rewrite <-app_assoc, (string_roundtrip s b) by (done || (apply Hu; left)).
    rewrite IH; [done|]. intros s' Hs'. apply Hu. by right. }
  rewrite <-(app_nil_r (concat recs)), Hmany. done.
Qed.

Lemma slice_at {A} (l1 l2 l3 : list A) : slice (length l1) (length l1 + length l2) (l1 ++ l2 ++ l3) = l2.
Proof. apply slice_middle. Qed.

Lemma read_sections_table pre ss r :
  (Z.of_nat (length (pre ++ concat ss)) < u64_max)%Z ->
  read_sections (pre ++ concat ss) (length ss) (Z.of_nat (length pre))
    (section_table (length pre) ss ++ r)
  = Ok (ss, Z.of_nat (length (pre ++ concat ss))).
Proof.
  revert pre. induction ss as [|s ss IH]; intros pre Hlen.
  - simpl. by rewrite app_nil_r.
  - cbn [length read_sections section_table concat] in *. rewrite <-!app_assoc.
    rewrite !length_app in Hlen. unfold u64_max in *.
    rewrite r_u64_app by (unfold fits; simpl; lia). rewrite r_u64_app by (unfold fits; simpl; lia).
    rewrite Z.eqb_refl. cbn [negb].
    destruct (Z.ltb_spec (Z.of_nat (length pre) + Z.of_nat (length s)) (2 ^ 64)) as [_|]; [|lia].
    destruct (Z.leb_spec (Z.of_nat (length pre) + Z.of_nat (length s))
                (Z.of_nat (length (pre ++ s ++ concat ss)))) as [_|Hgt].
    2:{ rewrite !length_app in Hgt. lia. }
    cbn [andb negb]. rewrite <-Nat2Z.inj_add, <-length_app, !app_assoc.
    rewrite IH by (rewrite <-app_assoc, !length_app; lia).
    rewrite !Nat2Z.id, <-app_assoc, (length_app pre s). by rewrite slice_at.
Qed.

Record wf_graph (schema : Schema) (g : Graph) : Prop := {
  wg_version : g_schema_version g = sc_version schema;
  wg_version_fits : fits 2 (sc_version schema);
  wg_space : wf_space (g_space g);
  wg_revision : fits 8 (g_revision g);
  wg_nodes : Forall wf_node (g_nodes g);
  wg_edges : Forall wf_edge (g_edges g);
  wg_utf8 : forall s, s ∈ string_table g -> utf8_valid s = true;
  wg_attrs : (Z.of_nat (length (attr_entries n_attrs (g_nodes g)) +
                        length (attr_entries e_attrs (g_edges g))) < u32_max)%Z }.

Lemma header_length g : length (header g) = HEADER_LEN.
Proof.
  unfold header. destruct (space_parts (g_space g)) as [tag subject].
  rewrite !length_app. unfold u8, u16, u64, u32n, u32. by rewrite !le_bytes_length.
Qed.

Lemma section_table_length o ss : length (section_table o ss) = length ss * 16.
Proof.
  revert o. induction ss as [|s ss IH]; intros o; cbn [section_table length]; [done|].
  rewrite !length_app, IH. unfold u64. rewrite !le_bytes_length. lia.
Qed.

Lemma read_header_ok schema g r :
  wf_graph schema g ->
  read_header (header g ++ r) (g_space g) schema = Ok (g_space g, g_revision g, r).
Proof.
  intros Hg. unfold read_header, header.
  destruct (space_parts (g_space g)) as [tag subject] eqn:Esp.
  pose proof (space_fits (g_space g) (wg_space _ _ Hg)) as [Htag Hsub].
  pose proof (space_roundtrip (g_space g)) as Hspace. rewrite Esp in Htag, Hsub, Hspace.
  cbn [fst snd] in *. rewrite <-!app_assoc.
  rewrite (take_n_app MAGIC). rewrite bool_decide_eq_true_2 by done. cbn [negb].
  rewrite r_u16_app by (unfold fits, FORMAT_VERSION; simpl; lia). rewrite Z.eqb_refl. cbn [negb].
  rewrite (wg_version _ _ Hg). rewrite r_u16_app by apply Hg. rewrite Z.eqb_refl. cbn [negb].
  rewrite r_u8_app by done. rewrite r_u8_app by (unfold fits; simpl; lia).
  rewrite r_u16_app by (unfold fits; simpl; lia). rewrite r_u64_app by done.
  rewrite r_u64_app by apply Hg.
  rewrite r_u32n_app by (unfold u32_max, SECTION_COUNT; simpl; lia). rewrite r_u64_app by (unfold fits; simpl; lia).
  rewrite !Z.eqb_refl. cbn [negb orb]. rewrite Hspace, bool_decide_eq_true_2 by done. done.
Qed.

(** ** Lemmas: what is encoded is parsed back *)

Definition node_cost (n : NodeRecord) : nat := String.length (n_key n) + String.length (n_label n).

Lemma layout_length {A} (attrs : A -> Attrs) c l : length (layout attrs c l) = length l.
Proof. revert c. induction l as [|x l IH]; intros c; simpl; auto. Qed.

Lemma layout_elem {A} (attrs : A -> Attrs) c l x s n :
  (x, s, n) ∈ layout attrs c l ->
  x ∈ l /\ n = length (btree_iter (attrs x)) /\ s + n <= c + length (attr_entries attrs l).
Proof.
  revert c. induction l as [|y l IH]; intros c; cbn [layout]; [by intros ?%elem_of_nil|].
  rewrite elem_of_cons, attr_entries_cons, length_app. intros [[= -> -> ->]|Hin].
  - split_and!; [left|done|lia].
  - apply IH in Hin as (? & ? & ?). split_and!; [by right|done|lia].
Qed.

Lemma layout_cost {A} (attrs : A -> Attrs) (cost : A -> nat) c l :
  sum_list_with (fun it => cost (fst (fst it))) (layout attrs c l) = sum_list_with cost l.
Proof. revert c. induction l as [|x l IH]; intros c; simpl; [done|]. by rewrite IH. Qed.

Lemma sum_list_with_map {A B} (f : B -> nat) (h : A -> B) l :
  sum_list_with f (map h l) = sum_list_with (fun x => f (h x)) l.
Proof. induction l as [|x l IH]; simpl; [done|]. by rewrite IH. Qed.

Lemma sum_attr_entries {A} (attrs : A -> Attrs) l :
  sum_list_with attr_cost (attr_entries attrs l) = sum_list_with (fun x => attr_bytes (attrs x)) l.
Proof.
  induction l as [|x l IH]; [done|]. rewrite attr_entries_cons, sum_list_with_app, IH. done.
Qed.

Lemma sum_list_with_add {A} (f h : A -> nat) l :
  sum_list_with (fun x => f x + h x) l = sum_list_with f l + sum_list_with h l.
Proof. induction l as [|x l IH]; simpl; lia. Qed.

(** The references charged while decoding are the ones counted at encoding. *)
Lemma reference_bytes_split g :
  reference_bytes g =
  sum_list_with node_cost (g_nodes g) + sum_list_with (fun e => String.length (e_label e)) (g_edges g)
  + (sum_list_with attr_cost (attr_entries n_attrs (g_nodes g))
     + sum_list_with attr_cost (attr_entries e_attrs (g_edges g))).
Proof.
  unfold reference_bytes. rewrite !sum_attr_entries, !sum_list_with_add. unfold node_cost. rewrite sum_list_with_add. lia.
Qed.

Lemma Forall2_map_l {A B C} (P : B -> C -> Prop) (h : A -> B) l l' :
  Forall2 P (map h l) l' <-> Forall2 (fun x y => P (h x) y) l l'.
Proof. apply Forall2_fmap_l. Qed.

Lemma Forall2_impl' {A B} (P Q : A -> B -> Prop) l l' :
  Forall2 P l l' -> (forall x y, x ∈ l -> P x y -> Q x y) -> Forall2 Q l l'.
Proof.
  induction 1 as [|x y l l' Hxy _ IH]; intros HPQ; constructor.
  - apply HPQ; [left|done].
  - apply IH. intros a b Ha. apply HPQ. by right.
Qed.

Lemma sum_list_with_ext {A} (f h : A -> nat) l :
  (forall x, f x = h x) -> sum_list_with f l = sum_list_with h l.
Proof. intros Hfh. induction l as [|x l IH]; simpl; [done|]. by rewrite Hfh, IH. Qed.

Section ParseEncode.
Context {E : Type} (T : list string) (HT : key_strict (fun x => x) T).

(** A table of records, written with its attribute ranges, reads back. *)
Lemma table_roundtrip {A} (attrs : A -> Attrs) (set : A -> Attrs -> A) (cost : A -> nat)
    (record : A -> Z -> nat -> result bytes (fault E))
    (read : reader -> result (A * Z * Z * reader) FormatError) (wf : A -> Prop) c l rl budget :
  (forall x start count b budget r, wf x -> fits 4 start -> (Z.of_nat count < u32_max)%Z ->
     record x start count = Ok b -> cost x <= budget ->
     read (b ++ r, mkStrings T budget) =
     Ok (set x ∅, start, Z.of_nat count, (r, mkStrings T (budget - cost x)))) ->
  (forall x a, cost (set x a) = cost x) ->
  Forall wf l -> (Z.of_nat (length l) < u32_max)%Z ->
  (Z.of_nat (c + length (attr_entries attrs l)) < u32_max)%Z ->
  Forall2 (fun it b => record (fst (fst it)) (Z.of_nat (snd (fst it))) (snd it) = Ok b)
    (layout attrs c l) rl ->
  sum_list_with cost l <= budget ->
  read_table read (u32n (length l) ++ concat rl) (mkStrings T budget) =
  Ok (map (fun it => (set (fst (fst it)) ∅, Z.of_nat (snd (fst it)), Z.of_nat (snd it)))
        (layout attrs c l), mkStrings T (budget - sum_list_with cost l)).
Proof using HT.
  intros Hread Hcost Hwf Hlen Hatt Hrl Hbud.
  set (items := map _ (layout attrs c l)).
  assert (length items = length l) as Hil by (unfold items; by rewrite length_map, layout_length).
  assert (sum_list_with (fun it => cost (fst (fst it))) items = sum_list_with cost l) as Hsum.
  { unfold items. rewrite sum_list_with_map. cbn [fst snd]. rewrite <-(layout_cost attrs cost c l).
    apply sum_list_with_ext. intros it. apply Hcost. }
  rewrite <-Hil, <-Hsum.
  apply (read_table_records read T (fun it => cost (fst (fst it)))); [by rewrite Hil| |by rewrite Hsum].
  unfold items. apply Forall2_map_l. eapply Forall2_impl'; [exact Hrl|].
  intros [[x s] n] b Hin Hb budget' r Hbud'. cbn [fst snd] in *.
  apply layout_elem in Hin as (Hx & -> & Hle). rewrite Hcost in *.
  rewrite Forall_forall in Hwf. unfold u32_max in *.
  apply Hread; [auto|unfold fits; simpl; lia|lia|done|done].
Qed.
End ParseEncode.

Lemma attrs_fit {A} (attrs : A -> Attrs) l kv :
  Forall (fun x => wf_attrs (attrs x)) l -> kv ∈ attr_entries attrs l ->
  match snd kv with GU64 n => fits 8 n | GStr _ => True end.
Proof.
  intros Hwf Hin. unfold attr_entries in Hin.
  apply elem_of_concat_map in Hin as (x & Hx & Hkv).
  destruct kv as [k v]. apply btree_iter_elem in Hkv. rewrite Forall_forall in Hwf.
  exact (Hwf x Hx k v Hkv).
Qed.

Lemma encode_inv {E} g all :
  @encode E g = Ok all ->
  let T := string_table g in
  exists recs nodes edges attrs1 attrs2 count1 count2 outs ins keys,
    (Z.of_nat (length T) < u32_max)%Z /\ (Z.of_nat (length (g_nodes g)) < u32_max)%Z /\
    (Z.of_nat (length (g_edges g)) < u32_max)%Z /\
    try_map (@string_record E) T = Ok recs /\
    write_records T n_attrs (@node_record E T) 0 (g_nodes g) = Ok (nodes, attrs1, count1) /\
    write_records T e_attrs (@edge_record E T) count1 (g_edges g) = Ok (edges, attrs2, count2) /\
    let ss := [u32n (length T) ++ concat recs; u32n (length (g_nodes g)) ++ nodes;
               u32n (length (g_edges g)) ++ edges; outs; ins; keys;
               u32 count2 ++ attrs1 ++ attrs2] in
    all = header g ++ section_table SECTIONS_START ss ++ concat ss.
Proof.
  unfold encode. intros H.
  destruct (index_u32 (length (g_nodes g))) as [nn|] eqn:E1; [|done].
  destruct (write_records _ n_attrs _ 0 _) as [[[nodes attrs1] count1]|] eqn:E2; [|done].
  destruct (index_u32 (length (g_edges g))) as [ne|] eqn:E3; [|done].
  destruct (write_records _ e_attrs _ _ _) as [[[edges attrs2] count2]|] eqn:E4; [|done].
  destruct (try_map (key_record _) _) as [keys|] eqn:E5; [|done].
  destruct (index_u32 (length (string_table g))) as [nt|] eqn:E6; [|done].
  destruct (try_map string_record _) as [recs|] eqn:E7; [|done].
  apply index_u32_Ok in E1 as [-> ?], E3 as [-> ?], E6 as [-> ?].
  apply Ok_inj in H as <-.
  exists recs, nodes, edges, attrs1, attrs2, count1, count2. do 3 eexists. by split_and!.
Qed.

Lemma parse_encode {E} schema g all :
  wf_graph schema g -> @encode E g = Ok all ->
  reference_bytes g <= EXPANSION_LIMIT * length all -> (Z.of_nat (length all) < u64_max)%Z ->
  parse all (g_space g) schema = Ok (mkBuilder (g_space g) (g_revision g) (g_nodes g) (g_edges g)).
Proof.
  intros Hg Henc Href Hlen. pose proof (string_table_strict g) as HT.
  apply encode_inv in Henc as (recs & nodes & edges & attrs1 & attrs2 & count1 & count2 & outs
    & ins & keys & HTl & Hnl & Hel & Hrecs & Hnodes & Hedges & Hall).
  cbv zeta in Hall. set (ss := [_; _; _; outs; ins; keys; _]) in Hall.
  pose proof (wg_attrs _ _ Hg) as Hatt.
  apply (write_records_spec _ _ _ _ 0) in Hnodes as (-> & nl & al1 & -> & -> & Hnl2 & Hal1); [|lia].
  rewrite Nat.add_0_l in *.
  apply (write_records_spec _ _ _ _ (length (attr_entries n_attrs (g_nodes g))))
    in Hedges as (-> & el & al2 & -> & -> & Hel2 & Hal2); [|lia].
  unfold parse. rewrite Hall at 1. rewrite (read_header_ok schema g) by done.
  assert (read_sections all SECTION_COUNT (Z.of_nat SECTIONS_START)
    (section_table SECTIONS_START ss ++ concat ss) = Ok (ss, Z.of_nat (length all))) as ->.
  { set (pre := header g ++ section_table SECTIONS_START ss).
    assert (length pre = SECTIONS_START) as Hpre.
    { unfold pre. rewrite length_app, header_length, section_table_length. reflexivity. }
    assert (all = pre ++ concat ss) as Hall' by (unfold pre; by rewrite <-app_assoc).
    rewrite Hall', <-Hpre. change SECTION_COUNT with (length ss).
    apply read_sections_table. by rewrite <-Hall'. }
  rewrite Z.eqb_refl. cbn [negb]. unfold parse_sections.
  change (default [] (ss !! 0)) with (u32n (length (string_table g)) ++ concat recs).
  change (default [] (ss !! 1)) with (u32n (length (g_nodes g)) ++ concat nl).
  change (default [] (ss !! 2)) with (u32n (length (g_edges g)) ++ concat el).
  change (default [] (ss !! 6)) with
    (u32n (length (attr_entries n_attrs (g_nodes g)) + length (attr_entries e_attrs (g_edges g)))
     ++ concat al1 ++ concat al2).
  rewrite (read_strings_table (E := E)) by (done || apply Hg).
  rewrite reference_bytes_split in Href. set (budget := EXPANSION_LIMIT * length all) in *.
  rewrite (table_roundtrip (E := E) _ HT n_attrs node_with node_cost (node_record (string_table g))
             read_node wf_node 0
             (g_nodes g)); try done; try lia; [|by apply node_roundtrip|apply Hg].
  rewrite (table_roundtrip (E := E) _ HT e_attrs edge_with (fun e => String.length (e_label e))
             (edge_record (string_table g)) read_edge wf_edge (length (attr_entries n_attrs (g_nodes g))) (g_edges g));
    try done; try lia; [|by apply edge_roundtrip|apply Hg].
  set (entries := attr_entries n_attrs (g_nodes g) ++ attr_entries e_attrs (g_edges g)).
  rewrite <-concat_app, <-length_app. fold entries.
  rewrite (read_table_records read_attr _ attr_cost entries (al1 ++ al2)).
  - unfold entries. rewrite attach_layout by (intros []; done).
    rewrite <-(app_nil_r (attr_entries e_attrs (g_edges g))) at 1.
    rewrite Nat.add_0_l, attach_layout by (intros []; done). done.
  - unfold entries. rewrite length_app. lia.
  - eapply Forall2_impl'; [apply Forall2_app; [exact Hal1|exact Hal2]|].
    intros kv b Hin Hb budget' r Hbud'. eapply (attr_roundtrip (E := E)); try done.
    apply elem_of_app in Hin as [Hin|Hin].
    + eapply (attrs_fit n_attrs (g_nodes g)); [|done].
      eapply Forall_impl; [apply (wg_nodes _ _ Hg)|]. by intros ? [].
    + eapply (attrs_fit e_attrs (g_edges g)); [|done].
      eapply Forall_impl; [apply (wg_edges _ _ Hg)|]. by intros ? [].
  - unfold entries. rewrite sum_list_with_app. lia.
Qed.

(** ** Lemmas: encoding is total *)

(** The counts an encoding writes fit their 32-bit fields. *)
Record sized (g : Graph) : Prop := {
  sz_nodes : (Z.of_nat (length (g_nodes g)) < u32_max)%Z;
  sz_edges : (Z.of_nat (length (g_edges g)) < u32_max)%Z;
  sz_strings : (Z.of_nat (length (string_table g)) < u32_max)%Z;
  sz_string : forall s, s ∈ string_table g -> (Z.of_nat (String.length s) < u32_max)%Z;
  sz_nattrs : forall n, n ∈ g_nodes g -> (Z.of_nat (size (n_attrs n)) < u32_max)%Z;
  sz_eattrs : forall e, e ∈ g_edges g -> (Z.of_nat (size (e_attrs e)) < u32_max)%Z }.

Lemma index_total {E} i : (Z.of_nat i < u32_max)%Z -> @index_u32 E i = Ok i.
Proof. intros. by apply index_u32_Ok. Qed.

Lemma try_map_total {A B E} (f : A -> result B E) l :
  (forall x, x ∈ l -> exists y, f x = Ok y) -> exists ys, try_map f l = Ok ys.
Proof.
  induction l as [|x l IH]; intros Hf; simpl; [by eexists|].
  destruct (Hf x) as [y ->]; [left|]. destruct IH as [ys ->]; [|by eexists].
  intros z Hz. apply Hf. by right.
Qed.

Lemma table_elem g s :
  s ∈ string_table g <->
  (exists n, n ∈ g_nodes g /\ s ∈ n_key n :: n_label n :: attr_strings (n_attrs n)) \/
  (exists e, e ∈ g_edges g /\ s ∈ e_label e :: attr_strings (e_attrs e)).
Proof.
  unfold string_table. rewrite dedup_elem by done. rewrite sort_by_key_elem, elem_of_app.
  by rewrite !elem_of_concat_map.
Qed.

Lemma attr_strings_elem a k v : a !! k = Some v ->
  k ∈ attr_strings a /\ forall s, v = GStr s -> s ∈ attr_strings a.
Proof.
  intros Hk%btree_iter_elem. unfold attr_strings.
  assert (forall s, s ∈ k :: match v with GStr s => [s] | GU64 _ => [] end ->
            s ∈ concat (map (fun kv => fst kv :: match snd kv with GStr s => [s] | GU64 _ => [] end)
                          (btree_iter a))) as Hin.
  { intros s Hs. apply elem_of_concat_map. by exists (k, v). }
  split; [apply Hin; left|]. intros s ->. apply Hin. right. left.
Qed.

Lemma sref_total {E} g s :
  (Z.of_nat (length (string_table g)) < u32_max)%Z -> s ∈ string_table g ->
  exists i, @sref E (string_table g) s = Ok i.
Proof.
  intros Hlen [i Hi]%list_elem_of_lookup. exists i. unfold sref.
  assert (binary_search_by_key s (fun x => x) (string_table g) = Some i) as ->.
  { apply binary_search_by_key_Some; [apply string_table_strict|]. by exists s. }
  apply index_total. apply lookup_lt_Some in Hi. lia.
Qed.

Section EncodeTotal.
Context {E : Type} (g : Graph) (Hg : sized g).
Abbreviation T := (string_table g).

Lemma push_attrs_total a count :
  (Z.of_nat (size a) < u32_max)%Z -> (forall s, s ∈ attr_strings a -> s ∈ T) ->
  exists r, @push_attrs E T count a = Ok r.
Proof using Hg.
  intros Hs Hin. unfold push_attrs.
  destruct (try_map_total (@attr_record E T) (btree_iter a)) as [recs ->].
  - intros [k v] Hkv%btree_iter_elem. destruct (attr_strings_elem a k v Hkv) as [Hk Hv].
    unfold attr_record. cbn [fst snd].
    destruct (sref_total (E := E) g k) as [i ->]; [apply Hg|auto|]. destruct v as [s|x]; [|by eexists].
    destruct (sref_total (E := E) g s) as [j ->]; [apply Hg|auto|by eexists].
  - rewrite btree_iter_length, index_total by done. by eexists.
Qed.

Lemma write_records_total {A} (attrs : A -> Attrs) (record : A -> Z -> nat -> result bytes (fault E))
    count l :
  (forall x, x ∈ l -> (Z.of_nat (size (attrs x)) < u32_max)%Z /\
     (forall s, s ∈ attr_strings (attrs x) -> s ∈ T) /\
     forall start n, exists b, record x start n = Ok b) ->
  exists r, write_records T attrs record count l = Ok r.
Proof using Hg.
  revert count. induction l as [|x l IH]; intros count Hl; simpl; [by eexists|].
  destruct (Hl x) as (Hs & Hin & Hrec); [left|].
  destruct (push_attrs_total (attrs x) count Hs Hin) as [[[body c'] n] ->].
  destruct (Hrec count n) as [b ->].
  destruct (IH c') as [[[recs bodies] c''] ->]; [|by eexists].
  intros y Hy. apply Hl. by right.
Qed.

Lemma encode_total schema compiled : graph_ok schema compiled g -> exists all, @encode E g = Ok all.
Proof using Hg.
  intros Hok. unfold encode. rewrite index_total by apply Hg.
  assert (forall s, s ∈ T -> exists i, @sref E T s = Ok i) as Href.
  { intros s. apply sref_total, Hg. }
  destruct (write_records_total n_attrs (node_record T) 0 (g_nodes g)) as [[[nodes a1] c1] ->].
  { intros n Hn. split_and!; [by apply Hg| |].
    - intros s Hs. apply table_elem. left. exists n. set_solver.
    - intros start k. unfold node_record. destruct (space_parts _).
      destruct (Href (n_key n)) as [i ->]; [apply table_elem; left; exists n; set_solver|].
      destruct (Href (n_label n)) as [j ->]; [apply table_elem; left; exists n; set_solver|].
      by eexists. }
  rewrite index_total by apply Hg.
  destruct (write_records_total e_attrs (edge_record T) c1 (g_edges g)) as [[[edges a2] c2] ->].
  { intros e He. split_and!; [by apply Hg| |].
    - intros s Hs. apply table_elem. right. exists e. set_solver.
    - intros start k. unfold edge_record. destruct (space_parts _).
      destruct (Href (e_label e)) as [i ->]; [apply table_elem; right; exists e; set_solver|].
      by eexists. }
  destruct (try_map_total (@key_record E T) (g_keys g)) as [keys ->].
  { intros [[kind key] i] (n & Hn & _ & <-)%(ok_index _ _ _ Hok). unfold key_record.
    destruct (Href (n_key n)) as [j ->]; [|by eexists].
    apply table_elem. left. exists n. split; [by eapply list_elem_of_lookup_2|left]. }
  rewrite index_total by apply Hg.
  destruct (try_map_total (@string_record E) T) as [recs ->]; [|by eexists].
  intros s Hs. unfold string_record. rewrite index_total by (by apply Hg). by eexists.
Qed.
End EncodeTotal.

(** ** Lemmas: the length of an encoding *)

(** The strings the records of a builder refer to, with repetitions, and each once. *)
Definition builder_strings (b : GraphBuilder) : list string :=
  concat (map (fun n => n_key n :: n_label n :: attr_strings (n_attrs n)) (b_nodes b)) ++
  concat (map (fun e => e_label e :: attr_strings (e_attrs e)) (b_edges b)).
Definition distinct_strings (b : GraphBuilder) : gset string := list_to_set (builder_strings b).

(** The bytes a builder's records take: a fixed part, each distinct string once with its
    length, 56 and 72 bytes for a record, 12 for a key, 4 for each entry of an index, and 16
    for an attribute. *)
Definition encoded_size (b : GraphBuilder) : nat :=
  176 + sum_list_with (fun s => 4 + String.length s) (elements (distinct_strings b))
  + 76 * length (b_nodes b) + 76 * length (b_edges b)
  + 16 * (sum_list_with (fun n => size (n_attrs n)) (b_nodes b)
          + sum_list_with (fun e => size (e_attrs e)) (b_edges b)).

(** Its counts fit their 32-bit fields. *)
Record sized_builder (b : GraphBuilder) : Prop := {
  sb_nodes : (Z.of_nat (length (b_nodes b)) < u32_max)%Z;
  sb_edges : (Z.of_nat (length (b_edges b)) < u32_max)%Z;
  sb_strings : (Z.of_nat (size (distinct_strings b)) < u32_max)%Z;
  sb_string : forall s, s ∈ distinct_strings b -> (Z.of_nat (String.length s) < u32_max)%Z;
  sb_nattrs : forall n, n ∈ b_nodes b -> (Z.of_nat (size (n_attrs n)) < u32_max)%Z;
  sb_eattrs : forall e, e ∈ b_edges b -> (Z.of_nat (size (e_attrs e)) < u32_max)%Z }.

Lemma length_concat {A} (l : list (list A)) : length (concat l) = sum_list_with length l.
Proof. induction l as [|x l IH]; simpl; [done|]. by rewrite length_app, IH. Qed.

Lemma sum_list_with_const {A} k (l : list A) f :
  (forall x, x ∈ l -> f x = k) -> sum_list_with f l = k * length l.
Proof.
  induction l as [|x l IH]; intros Hf; simpl; [lia|]. rewrite (Hf x) by left. rewrite IH; [lia|].
  intros y Hy. apply Hf. by right.
Qed.

Lemma sum_list_with_perm {A} (f : A -> nat) l l' : l ≡ₚ l' -> sum_list_with f l = sum_list_with f l'.
Proof. induction 1; simpl; lia. Qed.

Lemma try_map_lengths {A B E} (f : A -> result (list B) E) (len : A -> nat) l ys :
  (forall x y, f x = Ok y -> length y = len x) -> try_map f l = Ok ys ->
  length (concat ys) = sum_list_with len l.
Proof.
  intros Hf. revert ys. induction l as [|x l IH]; intros ys H; simpl in H; [by injection H as <-|].
  unbind H. unbind H. injection H as <-. simpl. by rewrite length_app, (Hf _ _ E0), (IH _ eq_refl).
Qed.

Section Lengths.
Context {E : Type} (T : list string).

Lemma attr_record_length kv b : @attr_record E T kv = Ok b -> length b = 16.
Proof.
  unfold attr_record. intros H. unbind H. destruct (snd kv); [unbind H|]; apply Ok_inj in H as <-;
    rewrite !length_app; unfold u8, u64, u32n, u32; by rewrite !le_bytes_length.
Qed.
Lemma node_record_length n start count b : @node_record E T n start count = Ok b -> length b = 56.
Proof.
  unfold node_record. destruct (space_parts _). intros H. unbind H. unbind H. apply Ok_inj in H as <-.
  rewrite !length_app. unfold u8, u16, u64, u32n, u32. by rewrite !le_bytes_length.
Qed.
Lemma edge_record_length e start count b : @edge_record E T e start count = Ok b -> length b = 72.
Proof.
  unfold edge_record. destruct (space_parts _). intros H. unbind H. apply Ok_inj in H as <-.
  rewrite !length_app. unfold u8, u16, u64, u32n, u32. by rewrite !le_bytes_length.
Qed.
Lemma key_record_length k b : @key_record E T k = Ok b -> length b = 12.
Proof.
  unfold key_record. destruct k as [[kind key] node]. intros H. unbind H. apply Ok_inj in H as <-.
  rewrite !length_app. unfold u16, u32n, u32. by rewrite !le_bytes_length.
Qed.
Lemma string_record_length s b : @string_record E s = Ok b -> length b = 4 + String.length s.
Proof.
  unfold string_record. intros H. unbind H. apply Ok_inj in H as <-. rewrite length_app. unfold u32n, u32.
  by rewrite le_bytes_length, str_bytes_length.
Qed.

Lemma write_records_length {A} (attrs : A -> Attrs) (record : A -> Z -> nat -> result bytes (fault E)) k l :
  (forall x start count b, record x start count = Ok b -> length b = k) ->
  forall count recs bodies count', write_records T attrs record count l = Ok (recs, bodies, count') ->
  length recs = k * length l /\ length bodies = 16 * sum_list_with (fun x => size (attrs x)) l.
Proof.
  intros Hk. induction l as [|x l IH]; intros count recs bodies count' H; cbn in H.
  { injection H as <- <- <-. simpl. lia. }
  unfold push_attrs in H. destruct (try_map (attr_record T) (btree_iter (attrs x))) as [al|] eqn:Ea; [|done].
  destruct (index_u32 (length (btree_iter (attrs x)))) as [n|]; [|done]. simpl in H.
  destruct (record x count n) as [b|] eqn:Er; [|done].
  destruct (write_records T attrs record _ l) as [[[recs' bodies'] c']|] eqn:Ew; [|done].
  apply Ok_inj in H. injection H as <- <- <-. destruct (IH _ _ _ _ Ew) as [Hr Hb].
  rewrite !length_app, Hr, Hb, (Hk _ _ _ _ Er). split; [simpl; lia|].
  rewrite (try_map_lengths _ (fun _ => 16) _ _ (attr_record_length) Ea).
  rewrite (sum_list_with_const 16) by done. rewrite btree_iter_length. simpl. lia.
Qed.
End Lengths.

Lemma distinct_table g b :
  g_nodes g ≡ₚ b_nodes b -> g_edges g ≡ₚ b_edges b -> string_table g ≡ₚ elements (distinct_strings b).
Proof.
  intros Hn He. apply NoDup_Permutation; [|apply NoDup_elements|].
  - rewrite <-(list_fmap_id (string_table g)). apply (key_strict_NoDup (fun x => x)), string_table_strict.
  - intros s. rewrite elem_of_elements, table_elem. unfold distinct_strings, builder_strings.
    rewrite elem_of_list_to_set, elem_of_app, !elem_of_concat_map. by setoid_rewrite Hn; setoid_rewrite He.
Qed.

Lemma table_lengths l : length (concat (map u32n l)) = 4 * length l.
Proof. induction l as [|x l IH]; [done|]. cbn [map concat]. rewrite length_app, IH. unfold u32n, u32. rewrite le_bytes_length. simpl. lia. Qed.

Lemma encode_length {E} schema compiled b g all :
  graph_ok schema compiled g -> g_nodes g ≡ₚ b_nodes b -> g_edges g ≡ₚ b_edges b ->
  @encode E g = Ok all -> length all = encoded_size b.
Proof.
  intros Hg Hn He H. unfold encode in H. unbind H. unbind H. destruct a0 as [[nodes attrs1] count1].
  unbind H. unbind H. destruct a1 as [[edges attrs2] count2]. unbind H. unbind H. unbind H. apply Ok_inj in H as <-.
  apply (write_records_length _ _ _ 56) in E1 as [Hl1 Ha1]; [|apply node_record_length].
  apply (write_records_length _ _ _ 72) in E3 as [Hl2 Ha2]; [|apply edge_record_length].
  pose proof (try_map_lengths _ (fun _ => 12) _ _ (key_record_length _) E4) as Hkeys.
  rewrite (sum_list_with_const 12), (keys_length _ _ _ Hg) in Hkeys by done.
  pose proof (try_map_lengths _ (fun s => 4 + String.length s) _ _ (string_record_length) E6) as Hstr.
  rewrite (sum_list_with_perm _ _ _ (distinct_table g b Hn He)) in Hstr.
  rewrite !length_app, header_length, section_table_length. cbn [concat length app].
  rewrite !length_app, !table_lengths, Hl1, Ha1, Hl2, Ha2, Hkeys, Hstr. unfold u32n, u32. rewrite !le_bytes_length.
  rewrite (ok_out _ _ _ Hg), (ok_in _ _ _ Hg), !offsets_length.
  rewrite (ok_in_edges _ _ _ Hg), sort_by_key_length, length_seq.
  rewrite (sum_list_with_perm _ _ _ Hn), (sum_list_with_perm _ _ _ He), Hn, He.
  unfold encoded_size, HEADER_LEN. simpl length. lia.
Qed.

Lemma reference_bytes_strings b g :
  g_nodes g ≡ₚ b_nodes b -> g_edges g ≡ₚ b_edges b ->
  reference_bytes g = sum_list_with String.length (builder_strings b).
Proof.
  intros Hn He. unfold reference_bytes. rewrite (sum_list_with_perm _ _ _ Hn), (sum_list_with_perm _ _ _ He).
  unfold builder_strings. rewrite sum_list_with_app.
  assert (forall a, sum_list_with String.length (attr_strings a) = attr_bytes a) as Ha.
  { intros a. unfold attr_strings, attr_bytes. induction (btree_iter a) as [|[k v] l IH]; [done|].
    cbn [map concat sum_list_with fst snd app]. rewrite sum_list_with_app, IH. destruct v; simpl; lia. }
  clear Hn He. apply (f_equal2 Nat.add).
  - induction (b_nodes b) as [|n l IH]; [done|]. cbn [map concat sum_list_with app].
    rewrite sum_list_with_app, <-IH, Ha. lia.
  - induction (b_edges b) as [|e l IH]; [done|]. cbn [map concat sum_list_with app].
    rewrite sum_list_with_app, <-IH, Ha. lia.
Qed.

Lemma sized_built b g : g_nodes g ≡ₚ b_nodes b -> g_edges g ≡ₚ b_edges b -> sized_builder b -> sized g.
Proof.
  intros Hn He [H1 H2 H3 H4 H5 H6]. pose proof (distinct_table g b Hn He) as Ht. constructor.
  - by rewrite Hn.
  - by rewrite He.
  - by rewrite Ht.
  - intros s Hs. apply H4. apply elem_of_elements. by rewrite <-Ht.
  - intros n Hin. apply H5. by rewrite <-Hn.
  - intros e Hin. apply H6. by rewrite <-He.
Qed.

(** ** Theorems *)

(** C34: the builder accepts exactly the well-formed graphs whose encoding it could also
    read back: unique node ids, unique (kind, key) pairs, unique edge ids, every node of a
    known kind, in the graph's space, with a key and a label, and in agreement with the
    compiled vocabulary, every compiled node present, every edge of a known kind, in the
    space, labelled, not compiled itself and an allowed triple between two nodes of the
    graph, to a target its kind may reach; and the strings its records refer to, each as
    often as it is referred to, within [EXPANSION_LIMIT] times the bytes the records encode
    to. The builder's counts fit their 32-bit fields. *)
Theorem builder_accepts_iff (b : GraphBuilder) (schema : Schema) (compiled : CompiledSet)
    (Hs : sized_builder b) :
  (exists g all, build_encoded b schema compiled = Ok (g, all)) <->
  valid_builder b schema compiled /\
  sum_list_with String.length (builder_strings b) <= EXPANSION_LIMIT * encoded_size b.
Proof.
  split.
  - intros (g & all & H). unfold build_encoded in H. destruct (assemble b schema compiled) as [g'|] eqn:Ea; [|done].
    destruct (encode g') as [all'|] eqn:Ee; [|done]. destruct (within_expansion_limit _ _) eqn:Ew; [|done].
    split; [by eapply assemble_valid|]. destruct (assemble_inv _ _ _ _ Ea) as (Hok & Hn & He & _).
    apply Nat.leb_le in Ew. by rewrite (encode_length _ _ _ _ _ Hok Hn He Ee), (reference_bytes_strings _ _ Hn He) in Ew.
  - intros [Hv Hw]. destruct (assemble_complete b schema compiled Hv) as [g Ha]; [apply Z.lt_le_incl, Hs..|].
    destruct (assemble_inv _ _ _ _ Ha) as (Hok & Hn & He & _).
    destruct (encode_total (E := GraphError) g (sized_built _ _ Hn He Hs) schema compiled Hok) as [all Hall].
    exists g, all. unfold build_encoded. rewrite Ha, Hall. unfold within_expansion_limit.
    rewrite (encode_length _ _ _ _ _ Hok Hn He Hall), (reference_bytes_strings _ _ Hn He).
    by destruct (Nat.leb_spec (sum_list_with String.length (builder_strings b)) (EXPANSION_LIMIT * encoded_size b)); [|lia].
Qed.

(** C31: what is stored is what is read: a graph the builder accepts and encodes
    decodes, under the same schema and compiled vocabulary, to the same graph,
    indices included. *)
Theorem decode_encoded (b : GraphBuilder) (schema : Schema) (compiled : CompiledSet) (g : Graph)
    (all : bytes) (H : build_encoded b schema compiled = Ok (g, all)) (Hg : wf_graph schema g)
    (Hlen : (Z.of_nat (length all) < u64_max)%Z) :
  decode all (b_space b) schema compiled = Ok g.
Proof.
  unfold build_encoded in H. destruct (assemble b schema compiled) as [g'|] eqn:Ea; [|done].
  destruct (encode g') as [all'|] eqn:Ee; [|done].
  destruct (within_expansion_limit _ _) eqn:Ew; [|done]. cbn [negb] in H.
  apply Ok_inj in H. assert (g' = g) as -> by congruence. assert (all' = all) as -> by congruence.
  destruct (assemble_inv _ _ _ _ Ea) as (_ & Hn & He & Hsp & Hrev).
  pose proof Ew as Ew'. apply Nat.leb_le in Ew'.
  unfold decode. rewrite <-Hsp, (parse_encode schema g all Hg Ee Ew' Hlen). simpl.
  unfold rebuild_canonical, build_encoded.
  rewrite (assemble_perm b _ schema compiled g Ea) by done.
  rewrite Ee, Ew. cbn [negb map_err]. by rewrite bool_decide_eq_true_2.
Qed.

(** [decode] accepts one spelling per graph: bytes that decode are the
    canonical encoding of the graph they decode to, that graph satisfies every
    check of the builder in the expected space, and so no two byte strings
    decode to one graph. *)
Theorem decode_canonical (all : bytes) (space : GraphSpace) (schema : Schema)
    (compiled : CompiledSet) (g : Graph) (H : decode all space schema compiled = Ok g) :
  @encode GraphError g = Ok all /\ graph_ok schema compiled g /\
  (forall all', decode all' space schema compiled = Ok g -> all' = all).
Proof.
  assert (forall a, decode a space schema compiled = Ok g ->
            @encode GraphError g = Ok a /\ graph_ok schema compiled g) as Hd.
  { intros a Ha. unfold decode, rebuild_canonical, build_encoded in Ha.
    destruct (parse a space schema) as [b|]; [|done]. simpl in Ha.
    destruct (assemble b schema compiled) as [g'|] eqn:Ea; [|done].
    destruct (encode g') as [a'|] eqn:Ee; [|done].
    destruct (within_expansion_limit _ _); [|done]. simpl in Ha.
    case_bool_decide; [|done]. simpl in Ha. apply Ok_inj in Ha. subst.
    split; [done|]. by apply assemble_inv in Ea as (? & _). }
  destruct (Hd all H) as [He Hok]. split_and!; [done..|].
  intros all' Ha'. apply Hd in Ha' as [He' _]. congruence.
Qed.

(** no panic and no refusal is left in the encoder: an accepted graph whose
    counts fit their 32-bit fields and whose strings are referenced within the
    expansion limit is built and encoded. *)
Theorem build_encoded_total (b : GraphBuilder) (schema : Schema) (compiled : CompiledSet)
    (g : Graph) (Ha : assemble b schema compiled = Ok g) (Hs : sized g) :
  exists all, @encode GraphError g = Ok all /\
    (build_encoded b schema compiled = Ok (g, all) \/
     build_encoded b schema compiled = Err (Refused ExpansionLimit) /\
     EXPANSION_LIMIT * length all < reference_bytes g).
Proof.
  destruct (assemble_inv _ _ _ _ Ha) as (Hok & _).
  destruct (encode_total (E := GraphError) g Hs schema compiled Hok) as [all Hall].
  exists all. split; [done|]. unfold build_encoded. rewrite Ha, Hall.
  unfold within_expansion_limit. destruct (Nat.leb_spec (reference_bytes g)
    (EXPANSION_LIMIT * length all)); simpl; [by left|by right].
Qed.

(** ** Witnesses *)

Definition demo_bytes : bytes :=
  match encode (E := GraphError) demo_graph with Ok b => b | Err _ => [] end.

Lemma demo_encoded : build_encoded demo_builder SCHEMA demo_compiled = Ok (demo_graph, demo_bytes).
Proof. vm_compute. reflexivity. Qed.

Lemma sized_demo : sized_builder demo_builder.
Proof.
  assert (forallb (fun s => Z.of_nat (String.length s) <? u32_max)%Z (builder_strings demo_builder) = true) as Hs
    by (vm_compute; reflexivity).
  assert (forallb (fun n => Z.of_nat (size (n_attrs n)) <? u32_max)%Z (b_nodes demo_builder) = true) as Hn
    by (vm_compute; reflexivity).
  assert (forallb (fun e => Z.of_nat (size (e_attrs e)) <? u32_max)%Z (b_edges demo_builder) = true) as He
    by (vm_compute; reflexivity).
  rewrite forallb_true in Hs. rewrite forallb_true in Hn. rewrite forallb_true in He.
  constructor; [apply Z.ltb_lt; vm_compute; reflexivity..| | |].
  - intros s Hin. apply Z.ltb_lt, Hs. by apply elem_of_list_to_set in Hin.
  - intros n Hin. by apply Z.ltb_lt, Hn.
  - intros e Hin. by apply Z.ltb_lt, He.
Qed.

Lemma builder_accepts_iff_witness :
  valid_builder demo_builder SCHEMA demo_compiled /\ encoded_size demo_builder = length demo_bytes.
Proof.
  split; [|vm_compute; reflexivity]. apply (builder_accepts_iff demo_builder SCHEMA demo_compiled sized_demo).
  exists demo_graph, demo_bytes. exact demo_encoded.
Defined.

Lemma fits_dec k v :
  ((0 <=? v)%Z && (v <? 256 ^ Z.of_nat k)%Z = true)%bool -> fits k v.
Proof. intros [H1%Z.leb_le H2%Z.ltb_lt]%andb_true_iff. by split. Qed.

Lemma wf_attrs_empty : wf_attrs ∅.
Proof. intros k v Hk. by rewrite lookup_empty in Hk. Qed.

Lemma wf_demo_graph : wf_graph SCHEMA demo_graph.
Proof.
  constructor; [vm_compute; reflexivity|by apply fits_dec|exact I|apply fits_dec; vm_compute; reflexivity
    | | | |apply Z.ltb_lt; vm_compute; reflexivity].
  - vm_compute g_nodes. repeat (constructor; [by constructor; (apply fits_dec || apply wf_attrs_empty || done)|]).
    constructor.
  - vm_compute g_edges. repeat (constructor; [by constructor; (apply fits_dec || apply wf_attrs_empty || done)|]).
    constructor.
  - intros s Hs. assert (forallb utf8_valid (string_table demo_graph) = true) as Hu
      by (vm_compute; reflexivity). rewrite forallb_true in Hu. auto.
Qed.

Lemma decode_encoded_witness : decode demo_bytes KernelSpace SCHEMA demo_compiled = Ok demo_graph.
Proof.
  apply (decode_encoded demo_builder SCHEMA demo_compiled demo_graph demo_bytes demo_encoded
           wf_demo_graph). vm_compute. reflexivity.
Defined.

Lemma decode_canonical_witness : @encode GraphError demo_graph = Ok demo_bytes.
Proof.
  apply (decode_canonical demo_bytes KernelSpace SCHEMA demo_compiled demo_graph).
  vm_compute. reflexivity.
Defined.

Lemma build_encoded_total_witness : exists all, @encode GraphError demo_graph = Ok all.
Proof.
  destruct (build_encoded_total demo_builder SCHEMA demo_compiled demo_graph demo_built)
    as (all & Hall & _).
  - assert (forallb (fun s => Z.of_nat (String.length s) <? u32_max)%Z (string_table demo_graph)
            = true) as Hs by (vm_compute; reflexivity).
    assert (forallb (fun n => Z.of_nat (size (n_attrs n)) <? u32_max)%Z (g_nodes demo_graph)
            = true) as Hn by (vm_compute; reflexivity).
    assert (forallb (fun e => Z.of_nat (size (e_attrs e)) <? u32_max)%Z (g_edges demo_graph)
            = true) as He by (vm_compute; reflexivity).
    rewrite forallb_true in Hs. rewrite forallb_true in Hn. rewrite forallb_true in He.
    constructor; [apply Z.ltb_lt; vm_compute; reflexivity..| | |];
      intros x Hx; apply Z.ltb_lt; [apply Hs|apply Hn|apply He]; exact Hx.
  - exists all. exact Hall.
Defined.
