(* ===== verification/Identity.v ===== *)
(** * The persisted identity layer: [crates/maknae-graph/src/identity.rs]

    Who is bound to which role and who is contained, as a layer, as the graph
    [build] makes of it and as [extract] reads it back; the carry-forward of
    containment across a reload, and the report of what a reload releases. With
    the two layers that ride the same graph: [baseline.rs] and [sync.rs]. *)
From stdpp Require Import base list strings gmap sorting.
From Stdlib Require Import ZArith Lia Ascii.
From S2P Require Import Prelude RustStr RustSlice Config Graph GraphFormat.
Open Scope nat_scope.

(** A SHA-256 digest: 32 bytes. *)
Abbreviation digest := (list ascii).

Record SubjectEntry := mkSubject { s_uid : Z; s_name : string; s_role : string }.
#[export] Instance SubjectEntry_eq_dec : EqDecision SubjectEntry.
Proof. solve_decision. Defined.

Record IdentityLayer := mkLayer {
  l_source : string;
  l_label : string;
  l_bindings_sha256 : option digest;
  l_subjects : list SubjectEntry;
  l_aliases : gmap string Z }.
#[export] Instance IdentityLayer_eq_dec : EqDecision IdentityLayer.
Proof. solve_decision. Defined.

Definition layer_default : IdentityLayer := mkLayer "" "" None [] ∅.

(** ** Keys and digests *)

Definition subject_key (uid : Z) : string := "uid:" +:+ dec uid.
Definition bindings_section_key (source : string) : string := source +:+ "#bindings".
Definition containment_key (source : string) : string := source +:+ "#bindings." +:+ ADVERSARY.

Definition hex_byte (b : ascii) : string :=
  String (hex_digit (nat_of_ascii b / 16)) (String (hex_digit (nat_of_ascii b mod 16)) "").
Fixpoint hex (d : digest) : string :=
  match d with [] => "" | b :: d' => hex_byte b +:+ hex d' end.

Definition is_hex (b : ascii) : bool := byte_in 48 57 b || byte_in 97 102 b.
Definition nibble (b : ascii) : nat :=
  if byte_in 97 102 b then nat_of_ascii b - 97 + 10 else nat_of_ascii b - 48.
(** [(nibble(hi) << 4) + nibble(lo)] over the pairs of characters. *)
Fixpoint unhex_pairs (s : string) : digest :=
  match s with
  | String hi (String lo s') => ascii_of_nat (nibble hi * 16 + nibble lo) :: unhex_pairs s'
  | _ => []
  end.
Definition unhex (s : string) : option digest :=
  if negb (String.length s =? 64) || negb (all_bytes is_hex s) then None
  else Some (unhex_pairs s).

(** ** Claims *)

Definition contained_in (subjects : list SubjectEntry) (uid : Z) : bool :=
  existsb (fun e => Z.eqb (s_uid e) uid && String.eqb (s_role e) ADVERSARY) subjects.

(** [claims]: an own name joins unless an alias already has it. *)
Definition claim_step (out : gmap string Z) (s : SubjectEntry) : gmap string Z :=
  if String.eqb (s_role s) ADVERSARY && negb (String.eqb (s_name s) (subject_key (s_uid s)))
  then if is_some (out !! s_name s) then out else <[s_name s := s_uid s]> out
  else out.
Definition claims (l : IdentityLayer) : gmap string Z :=
  foldl claim_step (l_aliases l) (l_subjects l).

Definition own_claim (subjects : list SubjectEntry) (n : string) (u : Z) : bool :=
  existsb (fun s => Z.eqb (s_uid s) u && String.eqb (s_role s) ADVERSARY
                    && String.eqb (s_name s) n) subjects.

Definition with_claims (l : IdentityLayer) (c : gmap string Z) : IdentityLayer :=
  mkLayer (l_source l) (l_label l) (l_bindings_sha256 l) (l_subjects l)
    (filter (fun p => own_claim (l_subjects l) (fst p) (snd p) = false) c).

Definition claim_names (n : NodeRecord) : list string :=
  let own := match n_attrs n !! ATTR_NAME with
             | Some (GStr s) => if String.eqb s (n_key n) then [] else [s]
             | _ => []
             end in
  let aliases := match n_attrs n !! ATTR_ALIASES with
                 | Some (GStr s) => split_char "," s
                 | _ => []
                 end in
  own ++ aliases.

(** ** The layers beside identity *)

Definition BASELINE_SOURCE_KEY := "baseline:maknae.yaml".
Definition INSTANCE_KEY := "instance".
Definition ATTR_MOVED_FROM := "moved_from".

Record BaselineLayer := mkBaseline {
  bl_sections : gmap string string;
  bl_system : string;
  bl_ceiling : string;
  bl_sha256 : digest;
  bl_moved_from : option string }.
#[export] Instance BaselineLayer_eq_dec : EqDecision BaselineLayer.
Proof. solve_decision. Defined.

Definition section_key (name : string) : string := BASELINE_SOURCE_KEY +:+ "#" +:+ name.
Definition level_key (system level : string) : string := system +:+ ":" +:+ level.

Record SyncBase := mkSync { sy_base : string; sy_live : string; sy_conflicts : string }.
#[export] Instance SyncBase_eq_dec : EqDecision SyncBase.
Proof. solve_decision. Defined.
Definition sync_key (source : string) : string := source +:+ "#sync".

Inductive IdentityError :=
| IdGraph (e : GraphError)
| BadAttr (node : Z) (attr : string)
| UnknownRole (r : string)
| Ambiguous (node : Z) (what : string)
| BaselineAttr (node : Z) (attr : string)
| BaselineAmbiguous (node : Z) (what : string)
| LabelMismatch (key : string)
| AliasError (name : string)
| SyncAttr (node : Z) (attr : string)
| SyncAmbiguous (node : Z) (what : string).

(** ** Building the graph *)

(** [Alloc] and the builder it fills. *)
Record Building := mkBuilding {
  bg_node : Z;
  bg_edge : Z;
  bg_builder : GraphBuilder }.

Section Build.
Context (revision : Z) (initiator : ProvenanceKind) (label : string).

Definition prov : Provenance := mkProv initiator revision.

(** [b = b.node(a.node(kind, key, attrs))], with the id it took. *)
Definition push_record (st : Building) (f : Z -> NodeRecord) : Z * Building :=
  let id := (bg_node st + 1)%Z in
  (id, mkBuilding id (bg_edge st) (b_node (bg_builder st) (f id))).
Definition push_node (st : Building) (kind : Z) (key : string) (attrs : Attrs)
  : Z * Building :=
  push_record st (fun id => mkNode id KernelSpace kind key label prov revision attrs).
(** [b = b.edge(a.edge(from, kind, to))]. *)
Definition push_edge (st : Building) (from kind to : Z) : Building :=
  let id := (bg_edge st + 1)%Z in
  mkBuilding (bg_node st) id
    (b_edge (bg_builder st) (mkEdge id KernelSpace from to kind label prov revision ∅)).

(** The compiled nodes, and the ids of the roles among them. *)
Fixpoint push_compiled (st : Building) (roles : gmap string Z) (cs : CompiledSet)
  : gmap string Z * Building :=
  match cs with
  | [] => (roles, st)
  | c :: cs' =>
      let '(id, st) := push_record st (fun id =>
        mkNode id KernelSpace (c_kind c) (c_key c) (c_label c) (mkProv PCompiled 0) 0
          (c_attrs c)) in
      let roles := if Z.eqb (c_kind c) ROLE then <[c_key c := id]> roles else roles in
      push_compiled st roles cs'
  end.

(** The aliases by uid, in name order; each names one contained subject and
    is no subject's own name. *)
Fixpoint group_aliases (subjects : list SubjectEntry) (out : gmap Z (list string))
    (l : list (string * Z)) : result (gmap Z (list string)) IdentityError :=
  match l with
  | [] => Ok out
  | (name, uid) :: l' =>
      let own := existsb (fun s => String.eqb (s_role s) ADVERSARY
                                   && String.eqb (s_name s) name) subjects in
      if negb (contained_in subjects uid) || own || is_empty name || contains_char "," name
      then Err (AliasError name)
      else group_aliases subjects (<[uid := default [] (out !! uid) ++ [name]]> out) l'
  end.

Definition subject_attrs (aliases : gmap Z (list string)) (s : SubjectEntry) : Attrs :=
  let attrs := <[ATTR_UID := GU64 (s_uid s)]> (<[ATTR_NAME := GStr (s_name s)]> ∅) in
  match aliases !! s_uid s with
  | Some a =>
      if String.eqb (s_role s) ADVERSARY
      then <[ATTR_ALIASES := GStr (str_join "," a)]> attrs else attrs
  | None => attrs
  end.

Definition declared_by (st : Building) (section : option Z) (from : Z) : Building :=
  match section with Some sec => push_edge st from DECLARED_BY sec | None => st end.

(** The one containment node, made when the first contained subject needs it. *)
Definition containment (source : string) (section : option Z) (cid : option Z) (st : Building)
  : Z * Building :=
  match cid with
  | Some id => (id, st)
  | None =>
      let '(id, st) := push_node st CONTAINMENT (containment_key source) ∅ in
      (id, declared_by st section id)
  end.

Fixpoint push_subjects (source : string) (section : option Z) (roles : gmap string Z)
    (aliases : gmap Z (list string)) (cid : option Z) (st : Building)
    (subjects : list SubjectEntry) : result Building IdentityError :=
  match subjects with
  | [] => Ok st
  | s :: subjects' =>
      let? role_id := ok_or (roles !! s_role s) (UnknownRole (s_role s)) in
      let '(sid, st) := push_node st SUBJECT (subject_key (s_uid s)) (subject_attrs aliases s) in
      let '(cid, st) :=
        if String.eqb (s_role s) ADVERSARY then
          let '(id, st) := containment source section cid st in
          (Some id, push_edge st sid CONTAINED id)
        else (cid, push_edge st sid BINDS role_id) in
      push_subjects source section roles aliases cid (declared_by st section sid) subjects'
  end.

Definition push_sync (source : string) (source_id : Z) (st : Building) (s : SyncBase)
  : result Building IdentityError :=
  if is_empty (sy_base s) then Err (SyncAttr source_id ATTR_BASE)
  else if is_empty (sy_live s) then Err (SyncAttr source_id ATTR_LIVE)
  else if is_empty (sy_conflicts s) then Err (SyncAttr source_id ATTR_CONFLICTS)
  else
    let attrs : Attrs :=
      <[ATTR_CONFLICTS := GStr (sy_conflicts s)]>
        (<[ATTR_LIVE := GStr (sy_live s)]> (<[ATTR_BASE := GStr (sy_base s)]> ∅)) in
    let '(id, st) := push_node st SYNC_BASE (sync_key source) attrs in
    Ok (push_edge st id PART_OF source_id).

Fixpoint push_sections (src : Z) (core : option Z) (st : Building) (l : list (string * string))
  : result (option Z * Building) IdentityError :=
  match l with
  | [] => Ok (core, st)
  | (name, value) :: l' =>
      let '(id, st) := push_node st SECTION (section_key name) {[ATTR_VALUE := GStr value]} in
      if is_empty name then Err (BaselineAmbiguous id "baseline section without a name")
      else
        let st := push_edge st id PART_OF src in
        push_sections src (if String.eqb name "core" then Some id else core) st l'
  end.

Definition build_baseline (st : Building) (bl : BaselineLayer) : result Building IdentityError :=
  let attrs : Attrs := {[ATTR_SHA256 := GStr (hex (bl_sha256 bl))]} in
  let attrs := match bl_moved_from bl with
               | Some from => <[ATTR_MOVED_FROM := GStr from]> attrs
               | None => attrs
               end in
  let '(src, st) := push_node st CONFIG_SOURCE BASELINE_SOURCE_KEY attrs in
  if bool_decide (bl_sections bl = ∅) then
    Err (BaselineAmbiguous src "baseline without a section")
  else
    let? (core, st) := push_sections src None st (btree_iter (bl_sections bl)) in
    let '(inst, st) := push_node st INSTANCE INSTANCE_KEY ∅ in
    let '(sys, st) := push_node st CLASSIFICATION_SYSTEM (bl_system bl) ∅ in
    let '(lvl, st) := push_node st LEVEL (level_key (bl_system bl) (bl_ceiling bl)) ∅ in
    let st := push_edge st inst DECLARES sys in
    let st := push_edge st lvl LEVEL_OF sys in
    Ok (declared_by (declared_by (declared_by st core inst) core sys) core lvl).
End Build.

Definition lift_identity (e : fault GraphError) : fault IdentityError :=
  match e with Panic => Panic | Refused e => Refused (IdGraph e) end.

(** The records of the whole layer, before the builder checks them. *)
Definition assemble_layer (layer : IdentityLayer) (baseline : option BaselineLayer)
    (sync : option SyncBase) (compiled : CompiledSet) (vocabulary_sha256 : digest)
    (revision : Z) (initiator : ProvenanceKind) : result GraphBuilder IdentityError :=
  let label := l_label layer in
  let node := push_node revision initiator label in
  let edge := push_edge revision initiator label in
  let st := mkBuilding 0 0 (builder_new KernelSpace revision) in
  let '(source_id, st) := node st CONFIG_SOURCE (l_source layer) ∅ in
  let '(_, st) := node st CONFIG_SOURCE VOCABULARY_SOURCE_KEY
                    {[ATTR_SHA256 := GStr (hex vocabulary_sha256)]} in
  let '(roles, st) := push_compiled st ∅ compiled in
  let '(section, st) :=
    match l_bindings_sha256 layer with
    | Some d =>
        let '(id, st) := node st SECTION (bindings_section_key (l_source layer))
                           {[ATTR_SHA256 := GStr (hex d)]} in
        (Some id, edge st id PART_OF source_id)
    | None => (None, st)
    end in
  let? aliases := group_aliases (l_subjects layer) ∅ (btree_iter (l_aliases layer)) in
  let? st := push_subjects revision initiator label (l_source layer) section roles aliases None st
               (sort_by_key s_uid (l_subjects layer)) in
  let? st := match sync with
             | Some s => push_sync revision initiator label (l_source layer) source_id st s
             | None => Ok st
             end in
  let? st := match baseline with
             | Some bl => build_baseline revision initiator label st bl
             | None => Ok st
             end in
  Ok (bg_builder st).

Definition build (layer : IdentityLayer) (baseline : option BaselineLayer)
    (sync : option SyncBase) (compiled : CompiledSet) (vocabulary_sha256 : digest)
    (revision : Z) (initiator : ProvenanceKind) : result Graph (fault IdentityError) :=
  let? b := map_err Refused
    (assemble_layer layer baseline sync compiled vocabulary_sha256 revision initiator) in
  let? g := map_err lift_identity (build_graph b SCHEMA compiled) in
  match List.find (fun c => negb (String.eqb (c_label c) (l_label layer))) compiled with
  | Some c => Err (Refused (LabelMismatch (c_key c)))
  | None => Ok g
  end.

(** ** Reading a graph back *)

Record Extracted := mkExtracted {
  x_layer : IdentityLayer;
  x_vocabulary : option digest;
  x_unbound : list Z;
  x_baseline : option BaselineLayer;
  x_sync : option SyncBase }.

Definition str_attr (n : NodeRecord) (attr : string) : result string IdentityError :=
  match n_attrs n !! attr with Some (GStr s) => Ok s | _ => Err (BadAttr (n_id n) attr) end.

Definition digest_attr (n : NodeRecord) : result digest IdentityError :=
  let? s := str_attr n ATTR_SHA256 in ok_or (unhex s) (BadAttr (n_id n) ATTR_SHA256).

Definition of_kind (g : Graph) (kind : Z) : list NodeRecord :=
  List.filter (fun n => Z.eqb (n_kind n) kind) (g_nodes g).

(** The loop over the config sources: the vocabulary digest and the source. *)
Fixpoint scan_sources (vocabulary : option digest) (source : option NodeRecord)
    (l : list NodeRecord) : result (option digest * option NodeRecord) IdentityError :=
  match l with
  | [] => Ok (vocabulary, source)
  | n :: l' =>
      if String.eqb (n_key n) VOCABULARY_SOURCE_KEY then
        let? d := digest_attr n in scan_sources (Some d) source l'
      else if String.eqb (n_key n) BASELINE_SOURCE_KEY then scan_sources vocabulary source l'
      else
        match source with
        | Some _ => Err (Ambiguous (n_id n) "more than one policy source")
        | None => scan_sources vocabulary (Some n) l'
        end
  end.

Fixpoint scan_aliases (name : string) (uid : Z) (aliases : gmap string Z) (l : list string)
  : result (gmap string Z) IdentityError :=
  match l with
  | [] => Ok aliases
  | alias :: l' =>
      if is_empty alias || String.eqb alias name || is_some (aliases !! alias)
      then Err (AliasError alias)
      else scan_aliases name uid (<[alias := uid]> aliases) l'
  end.

(** The first out edge's target key. *)
Definition bound_key (g : Graph) (id : Z) : option string :=
  e ← head (out_edges g id BINDS); n_key <$> g_node g (e_to e).
Definition is_contained (g : Graph) (id : Z) : bool :=
  match out_edges g id CONTAINED with [] => false | _ => true end.

Record SubjectScan := mkScan {
  ss_subjects : list SubjectEntry;
  ss_aliases : gmap string Z;
  ss_unbound : list Z }.

Definition scan_subject (g : Graph) (source : option NodeRecord) (sc : SubjectScan)
    (n : NodeRecord) : result SubjectScan IdentityError :=
  let? uid :=
    ok_or (u ← match n_attrs n !! ATTR_UID with Some (GU64 u) => try_u32 u | _ => None end;
           if String.eqb (n_key n) (subject_key u) then Some u else None)
      (BadAttr (n_id n) ATTR_UID) in
  if is_none source then Err (Ambiguous (n_id n) "subject without a policy source")
  else if 2 <=? length (out_edges g (n_id n) BINDS) then
    Err (Ambiguous (n_id n) "more than one binds edge")
  else
    let? name := str_attr n ATTR_NAME in
    let contained := is_contained g (n_id n) in
    let? aliases :=
      if is_some (n_attrs n !! ATTR_ALIASES) then
        let? names := str_attr n ATTR_ALIASES in
        if negb contained then
          Err (Ambiguous (n_id n) "aliases on a subject that is not contained")
        else scan_aliases name uid (ss_aliases sc) (split_char "," names)
      else Ok (ss_aliases sc) in
    let role := if contained then Some ADVERSARY else bound_key g (n_id n) in
    match role with
    | Some role => Ok (mkScan (ss_subjects sc ++ [mkSubject uid name role]) aliases (ss_unbound sc))
    | None => Ok (mkScan (ss_subjects sc) aliases (ss_unbound sc ++ [uid]))
    end.

Fixpoint scan_subjects (g : Graph) (source : option NodeRecord) (sc : SubjectScan)
    (l : list NodeRecord) : result SubjectScan IdentityError :=
  match l with
  | [] => Ok sc
  | n :: l' => let? sc := scan_subject g source sc n in scan_subjects g source sc l'
  end.

(** *** [baseline::extract] *)

Definition bl_str_attr (n : NodeRecord) (attr : string) : result string IdentityError :=
  match n_attrs n !! attr with Some (GStr s) => Ok s | _ => Err (BaselineAttr (n_id n) attr) end.

Definition section_name (n : NodeRecord) : option string :=
  k ← strip_prefix BASELINE_SOURCE_KEY (n_key n); strip_prefix "#" k.

Definition only (g : Graph) (kind : Z) (many : string)
  : result (option NodeRecord) IdentityError :=
  match of_kind g kind with
  | _ :: second :: _ => Err (BaselineAmbiguous (n_id second) many)
  | l => Ok (head l)
  end.

(** The one [PART_OF] edge of a node leads to [to]. *)
Definition part_of_only (g : Graph) (id to : Z) : bool :=
  match out_edges g id PART_OF with [e] => Z.eqb (e_to e) to | _ => false end.

Fixpoint scan_sections (g : Graph) (src : Z) (out : gmap string string) (l : list NodeRecord)
  : result (gmap string string) IdentityError :=
  match l with
  | [] => Ok out
  | n :: l' =>
      match section_name n with
      | None => scan_sections g src out l'
      | Some name =>
          if is_empty name then Err (BaselineAmbiguous (n_id n) "baseline section without a name")
          else if negb (part_of_only g (n_id n) src) then
            Err (BaselineAmbiguous (n_id n) "baseline section outside the baseline source")
          else
            let? v := bl_str_attr n ATTR_VALUE in scan_sections g src (<[name := v]> out) l'
      end
  end.

Definition baseline_node (n : NodeRecord) : bool :=
  bool_decide (n_kind n ∈ [INSTANCE; CLASSIFICATION_SYSTEM; LEVEL]) ||
  (Z.eqb (n_kind n) SECTION && is_some (section_name n)).

Definition baseline_extract (g : Graph) : result (option BaselineLayer) IdentityError :=
  match g_lookup g CONFIG_SOURCE BASELINE_SOURCE_KEY with
  | None =>
      match List.find baseline_node (g_nodes g) with
      | Some n => Err (BaselineAmbiguous (n_id n) "baseline node without a baseline source")
      | None => Ok None
      end
  | Some src =>
      let? hexed := bl_str_attr src ATTR_SHA256 in
      let? sha256 := ok_or (unhex hexed) (BaselineAttr (n_id src) ATTR_SHA256) in
      let? moved_from :=
        match n_attrs src !! ATTR_MOVED_FROM with
        | None => Ok None
        | Some (GStr s) => Ok (Some s)
        | Some _ => Err (BaselineAttr (n_id src) ATTR_MOVED_FROM)
        end in
      let? sections := scan_sections g (n_id src) ∅ (of_kind g SECTION) in
      if bool_decide (sections = ∅) then
        Err (BaselineAmbiguous (n_id src) "baseline without a section")
      else
        let? found := only g INSTANCE "more than one instance" in
        let? inst :=
          match found with
          | Some n => if String.eqb (n_key n) INSTANCE_KEY then Ok n
                      else Err (BaselineAmbiguous (n_id n) "no instance")
          | None => Err (BaselineAmbiguous (n_id src) "no instance")
          end in
        let? found := only g CLASSIFICATION_SYSTEM "more than one classification system" in
        let? sys := ok_or found (BaselineAmbiguous (n_id inst) "no classification system") in
        if negb (length (out_edges g (n_id inst) DECLARES) =? 1) then
          Err (BaselineAmbiguous (n_id inst) "instance declares no single system")
        else
          let? found := only g LEVEL "more than one level" in
          let? lvl := ok_or found (BaselineAmbiguous (n_id sys) "no level") in
          let? ceiling :=
            ok_or (k ← strip_prefix (n_key sys) (n_key lvl);
                   c ← strip_prefix ":" k;
                   if negb (is_empty c) && (length (out_edges g (n_id lvl) LEVEL_OF) =? 1)
                   then Some c else None)
              (BaselineAmbiguous (n_id lvl) "level outside the declared system") in
          Ok (Some (mkBaseline sections (n_key sys) ceiling sha256 moved_from))
  end.

(** *** [sync::extract] *)

Definition explicit (token : string) : bool :=
  negb (String.eqb token "null") && negb (String.eqb token "missing").

Definition sync_attr (n : NodeRecord) (attr : string) : result string IdentityError :=
  match n_attrs n !! attr with
  | Some (GStr s) => if is_empty s then Err (SyncAttr (n_id n) attr) else Ok s
  | _ => Err (SyncAttr (n_id n) attr)
  end.

Definition sync_extract (g : Graph) (source : option NodeRecord)
  : result (option SyncBase) IdentityError :=
  match of_kind g SYNC_BASE with
  | [] => Ok None
  | _ :: second :: _ => Err (SyncAmbiguous (n_id second) "more than one sync base")
  | [n] =>
      match source with
      | None => Err (SyncAmbiguous (n_id n) "sync base without a policy source")
      | Some src =>
          if negb (String.eqb (n_key n) (sync_key (n_key src))) then
            Err (SyncAmbiguous (n_id n) "sync base keyed for another source")
          else if negb (part_of_only g (n_id n) (n_id src)) then
            Err (SyncAmbiguous (n_id n) "sync base outside the policy source")
          else
            let? base := sync_attr n ATTR_BASE in
            let? live := sync_attr n ATTR_LIVE in
            let? conflicts := sync_attr n ATTR_CONFLICTS in
            if negb (Bool.eqb (explicit base) (explicit live)) then
              Err (SyncAmbiguous (n_id n) "sync base live and base disagree on explicit bindings")
            else if negb (Bool.eqb (explicit live)
                      (is_some (g_lookup g SECTION (bindings_section_key (n_key src))))) then
              Err (SyncAmbiguous (n_id n)
                "sync base and bindings section disagree on explicit bindings")
            else Ok (Some (mkSync base live conflicts))
      end
  end.

Definition extract (g : Graph) : result Extracted IdentityError :=
  let? (vocabulary, source) := scan_sources None None (of_kind g CONFIG_SOURCE) in
  let src := from_option n_key "" source in
  let label := from_option n_label "" source in
  let? bindings := try_opt digest_attr (g_lookup g SECTION (bindings_section_key src)) in
  let? sc := scan_subjects g source (mkScan [] ∅ []) (of_kind g SUBJECT) in
  let subjects := sort_by_key s_uid (ss_subjects sc) in
  match List.find (fun s => String.eqb (s_role s) ADVERSARY && is_some (ss_aliases sc !! s_name s)
                            && negb (String.eqb (s_name s) (subject_key (s_uid s)))) subjects with
  | Some s => Err (AliasError (s_name s))
  | None =>
      let? baseline := baseline_extract g in
      let? sync := sync_extract g source in
      Ok (mkExtracted (mkLayer src label bindings subjects (ss_aliases sc)) vocabulary
            (sort_by_key (fun u => u) (ss_unbound sc)) baseline sync)
  end.

(** ** Across a reload *)

Record Carried := mkCarried { ca_uid : Z; ca_name : string; ca_overrides : list SubjectEntry }.

(** One persisted claim on an unresolved name. *)
Definition carry_one (subjects : list SubjectEntry) (name : string) (uid : Z)
  : list SubjectEntry * list SubjectEntry :=
  if contained_in subjects uid then (subjects, [])
  else
    (List.filter (fun e => negb (Z.eqb (s_uid e) uid)) subjects ++ [mkSubject uid name ADVERSARY],
     List.filter (fun e => Z.eqb (s_uid e) uid) subjects).

Fixpoint carry_loop (subjects : list SubjectEntry) (cl : gmap string Z) (l : list (string * Z))
  : list SubjectEntry * gmap string Z * list Carried :=
  match l with
  | [] => (subjects, cl, [])
  | (name, uid) :: l' =>
      let '(subjects, overrides) := carry_one subjects name uid in
      let '(subjects, cl, carried) := carry_loop subjects (<[name := uid]> cl) l' in
      (subjects, cl, mkCarried uid name overrides :: carried)
  end.

Definition carried_claims (unresolved : list string) (persisted : IdentityLayer)
  : list (string * Z) :=
  List.filter (fun p => bool_decide (fst p ∈ unresolved)) (btree_iter (claims persisted)).

Definition carry_forward (file : IdentityLayer) (unresolved : list string)
    (persisted : IdentityLayer) : IdentityLayer * list Carried :=
  let '(subjects, cl, carried) :=
    carry_loop (l_subjects file) (claims file) (carried_claims unresolved persisted) in
  (with_claims (mkLayer (l_source file) (l_label file) (l_bindings_sha256 file)
                  (sort_by_key s_uid subjects) (l_aliases file)) cl, carried).

Inductive ReleaseCause :=
| NotListed
| NameNowResolvesTo (uid : Z)
| BoundAs (role : string)
| BindingsEmpty
| LiveRelease (by_ : ProvenanceKind).

Record Released := mkReleased { re_uid : Z; re_name : string; re_cause : ReleaseCause }.

Definition release_of (was now : gmap string Z) (next : list SubjectEntry)
    (file_lists_nobody : bool) (s : SubjectEntry) : Released :=
  let moved := find_map (fun '(n, u) => if Z.eqb u (s_uid s) then (fun u' => (n, u')) <$> now !! n
                                        else None) (btree_iter was) in
  if file_lists_nobody then mkReleased (s_uid s) (s_name s) BindingsEmpty
  else
    match moved with
    | Some (n, uid) => mkReleased (s_uid s) n (NameNowResolvesTo uid)
    | None =>
        match List.find (fun e => Z.eqb (s_uid e) (s_uid s)) next with
        | Some bound => mkReleased (s_uid s) (s_name s) (BoundAs (s_role bound))
        | None => mkReleased (s_uid s) (s_name s) NotListed
        end
    end.

Definition released (persisted next : IdentityLayer) (file_lists_nobody : bool)
  : list Released :=
  sort_by_key re_uid
    (map (release_of (claims persisted) (claims next) (l_subjects next) file_lists_nobody)
       (List.filter (fun s => String.eqb (s_role s) ADVERSARY
                              && negb (contained_in (l_subjects next) (s_uid s)))
          (l_subjects persisted))).

Definition BINDINGS_MISSING := "bindings.yaml is missing but the store holds explicit bindings; restore it, or run sudo maknae reseed to return to principal-as-admin".
Definition BINDINGS_KEY_DROPPED := "bindings.yaml has no bindings: key but the store holds explicit bindings; restore the bindings: block, or run sudo maknae reseed to return to principal-as-admin".
Definition BINDINGS_NOT_MOVED := "the store holds explicit bindings from authz.yaml; paste the bindings: block into /etc/maknae/bindings.yaml".

(** [Path::file_name]: the last normal component. *)
Definition file_name (path : string) : option string :=
  match last (List.filter (fun c => negb (String.eqb c ".")) (comps path)) with
  | Some c => if String.eqb c ".." then None else Some c
  | None => None
  end.

Definition drops_explicit_bindings (persisted file : IdentityLayer) (file_missing : bool)
  : option string :=
  let! _ := l_bindings_sha256 persisted in
  let from_bindings_yaml := bool_decide (file_name (l_source persisted) = Some "bindings.yaml") in
  if negb from_bindings_yaml && is_none (l_bindings_sha256 file) then Some BINDINGS_NOT_MOVED
  else if file_missing then Some BINDINGS_MISSING
  else if is_none (l_bindings_sha256 file) then Some BINDINGS_KEY_DROPPED
  else None.

(** ** Lemmas: keys and digests *)

Lemma subject_key_inj a b : (0 <= a)%Z -> (0 <= b)%Z -> subject_key a = subject_key b -> a = b.
Proof. intros Ha Hb H. unfold subject_key in H. apply str_app_inj_l in H. by apply dec_inj. Qed.

Lemma hex_byte_back b :
  exists hi lo, hex_byte b = String hi (String lo "") /\ is_hex hi = true /\ is_hex lo = true /\
    ascii_of_nat (nibble hi * 16 + nibble lo) = b.
Proof. destruct b as [[] [] [] [] [] [] [] []]; do 2 eexists; split_and!; reflexivity. Qed.

Lemma hex_back d :
  String.length (hex d) = 2 * length d /\ all_bytes is_hex (hex d) = true /\ unhex_pairs (hex d) = d.
Proof.
  induction d as [|b d (Hl & Ha & Hu)]; [done|]. cbn [hex].
  destruct (hex_byte_back b) as (hi & lo & -> & Hhi & Hlo & Hb). cbn [String.app].
  split_and!; [simpl; lia|simpl; by rewrite Hhi, Hlo|]. cbn [unhex_pairs]. by rewrite Hb, Hu.
Qed.

(** ** Lemmas: containment across a reload *)

Lemma contained_in_spec l u :
  contained_in l u = true <-> exists e, e ∈ l /\ s_uid e = u /\ s_role e = ADVERSARY.
Proof.
  unfold contained_in. rewrite existsb_true.
  setoid_rewrite andb_true_iff. setoid_rewrite Z.eqb_eq. by setoid_rewrite String.eqb_eq.
Qed.

Lemma contained_in_elems l l' u :
  (forall e, e ∈ l <-> e ∈ l') -> contained_in l u = contained_in l' u.
Proof.
  intros H. apply eq_true_iff_eq. rewrite !contained_in_spec. by setoid_rewrite H.
Qed.

Lemma carry_one_spec subjects name uid subjects' overrides :
  carry_one subjects name uid = (subjects', overrides) ->
  contained_in subjects' uid = true /\
  (forall u, u <> uid -> contained_in subjects' u = contained_in subjects u) /\
  (forall e, s_uid e <> uid -> e ∈ subjects' <-> e ∈ subjects).
Proof.
  unfold carry_one. destruct (contained_in subjects uid) eqn:Ec; intros [= <- <-]; [done|].
  assert (forall e, s_uid e <> uid ->
    e ∈ List.filter (fun e => negb (Z.eqb (s_uid e) uid)) subjects ++ [mkSubject uid name ADVERSARY]
    <-> e ∈ subjects) as Hel.
  { intros e He. rewrite elem_of_app, elem_of_bfilter, list_elem_of_singleton, negb_true_iff, Z.eqb_neq.
    naive_solver. }
  split_and!; [|intros u Hu|done].
  - apply contained_in_spec. exists (mkSubject uid name ADVERSARY). set_solver.
  - apply eq_true_iff_eq. rewrite !contained_in_spec.
    split; intros (e & He & <- & Hr); exists e; (split; [by apply Hel|done]).
Qed.

Lemma carry_loop_spec subjects cl l subjects' cl' carried :
  carry_loop subjects cl l = (subjects', cl', carried) ->
  (forall u, contained_in subjects' u = true <->
     contained_in subjects u = true \/ exists name, (name, u) ∈ l) /\
  (forall e, (forall name, (name, s_uid e) ∉ l) -> e ∈ subjects' <-> e ∈ subjects).
Proof.
  revert subjects cl subjects' cl' carried.
  induction l as [|[name uid] l IH]; intros subjects cl subjects' cl' carried H; cbn in H.
  - injection H as <- <- <-. split; [|done]. intros u. split; [by left|].
    intros [?|(n & Hn)]; [done|by apply elem_of_nil in Hn].
  - destruct (carry_one subjects name uid) as [s1 ov] eqn:E1.
    destruct (carry_loop s1 _ l) as [[s2 c2] ca] eqn:E2. injection H as <- <- <-.
    apply carry_one_spec in E1 as (Hc & Hu & He). apply IH in E2 as (Hc2 & He2). split.
    + intros u. rewrite Hc2. setoid_rewrite elem_of_cons.
      destruct (decide (u = uid)) as [->|Hne].
      * split; [intros _; right; exists name; by left|by left].
      * rewrite (Hu u Hne). split; [intros [?|(n & Hn)]|intros [?|(n & [[= <- <-]|Hn])]]; naive_solver.
    + intros e Hnot. rewrite He2; [|intros n Hn; apply (Hnot n); by right].
      apply He. intros Heq. apply (Hnot name). rewrite Heq. left.
Qed.

Lemma carried_claims_elem unresolved persisted name uid :
  (name, uid) ∈ carried_claims unresolved persisted <->
  claims persisted !! name = Some uid /\ name ∈ unresolved.
Proof.
  unfold carried_claims. rewrite elem_of_bfilter, btree_iter_elem, bool_decide_eq_true. done.
Qed.

Lemma carry_forward_spec file unresolved persisted :
  let out := fst (carry_forward file unresolved persisted) in
  (forall u, contained_in (l_subjects out) u = true <->
     contained_in (l_subjects file) u = true \/
     exists name, claims persisted !! name = Some u /\ name ∈ unresolved) /\
  (forall e, (forall name, claims persisted !! name = Some (s_uid e) -> name ∉ unresolved) ->
     e ∈ l_subjects out <-> e ∈ l_subjects file).
Proof.
  unfold carry_forward.
  destruct (carry_loop (l_subjects file) (claims file) (carried_claims unresolved persisted))
    as [[subjects cl] carried] eqn:E. simpl.
  apply carry_loop_spec in E as [Hc He]. split.
  - intros u. rewrite (contained_in_elems _ subjects), Hc by (intros; apply sort_by_key_elem).
    by setoid_rewrite carried_claims_elem.
  - intros e Hnot. rewrite sort_by_key_elem. apply He.
    intros name [H1 H2]%carried_claims_elem. by apply (Hnot name).
Qed.

Lemma released_uids persisted next b u :
  u ∈ re_uid <$> released persisted next b <->
  contained_in (l_subjects persisted) u = true /\ contained_in (l_subjects next) u = false.
Proof.
  unfold released. rewrite list_elem_of_fmap. setoid_rewrite sort_by_key_elem.
  setoid_rewrite elem_of_map. setoid_rewrite elem_of_bfilter.
  assert (forall s, re_uid (release_of (claims persisted) (claims next) (l_subjects next) b s) = s_uid s)
    as Hre by (intros s; unfold release_of; repeat case_match; done).
  rewrite contained_in_spec. split.
  - intros (r & -> & s & -> & Hs & Hf). rewrite Hre.
    apply andb_true_iff in Hf as [Hr%String.eqb_eq Hn%negb_true_iff]. split; [by exists s|done].
  - intros [(s & Hs & <- & Hr) Hn]. eexists. rewrite <-Hre. split; [done|]. exists s.
    split_and!; [done..|]. by rewrite Hr, Hn.
Qed.

(** ** Lemmas: the records [build] makes *)

(** The binding edges of a subject's node are the ones its entry asks for. *)
Record edges_of (roles : gmap string Z) (edges : list EdgeRecord) (id : Z) (s : SubjectEntry)
  : Prop := {
  eo_binds : forall e, e ∈ edges -> e_from e = id -> e_kind e = BINDS ->
    s_role s <> ADVERSARY /\ roles !! s_role s = Some (e_to e);
  eo_contained : forall e, e ∈ edges -> e_from e = id -> e_kind e = CONTAINED ->
    s_role s = ADVERSARY;
  eo_has : exists e, e ∈ edges /\ e_from e = id /\
    e_kind e = (if String.eqb (s_role s) ADVERSARY then CONTAINED else BINDS) }.

Section Records.
Context (revision : Z) (initiator : ProvenanceKind) (label : string).
Context (roles : gmap string Z) (sections : string -> Prop) (must : option string).
Abbreviation node := (push_node revision initiator label).
Abbreviation edge := (push_edge revision initiator label).

(** What holds of the records pushed so far, [done] being the subjects among
    them. *)
Record layered (seen : list SubjectEntry) (st : Building) : Prop := {
  ly_ids : forall n, n ∈ b_nodes (bg_builder st) -> (n_id n <= bg_node st)%Z;
  ly_from : forall e, e ∈ b_edges (bg_builder st) -> (e_from e <= bg_node st)%Z;
  ly_sections : forall n, n ∈ b_nodes (bg_builder st) -> n_kind n = SECTION -> sections (n_key n);
  ly_subjects : forall n, n ∈ b_nodes (bg_builder st) -> n_kind n = SUBJECT ->
    exists s, s ∈ seen /\ n_key n = subject_key (s_uid s);
  ly_bound : forall s, s ∈ seen -> exists n, n ∈ b_nodes (bg_builder st) /\
    n_kind n = SUBJECT /\ n_key n = subject_key (s_uid s) /\
    edges_of roles (b_edges (bg_builder st)) (n_id n) s;
  ly_roles : forall k id, roles !! k = Some id -> exists n, n ∈ b_nodes (bg_builder st) /\
    n_id n = id /\ n_kind n = ROLE /\ n_key n = k;
  ly_must : forall k, must = Some k -> exists n, n ∈ b_nodes (bg_builder st) /\
    n_kind n = SECTION /\ n_key n = k }.

Lemma layered_record seen st f id st' :
  push_record st f = (id, st') -> n_id (f id) = id -> n_kind (f id) <> SUBJECT ->
  (n_kind (f id) = SECTION -> sections (n_key (f id))) ->
  layered seen st -> layered seen st' /\ (id <= bg_node st')%Z.
Proof.
  intros [= <- <-] Hid Hk Hsec []. split; [|simpl; lia]. constructor; simpl.
  - intros n [Hn|Hn]%elem_of_app; [specialize (ly_ids0 n Hn); lia|].
    apply list_elem_of_singleton in Hn as ->. lia.
  - intros e He. specialize (ly_from0 e He). lia.
  - intros n [Hn|Hn]%elem_of_app; [auto|]. apply list_elem_of_singleton in Hn as ->. auto.
  - intros n [Hn|Hn]%elem_of_app; [auto|]. apply list_elem_of_singleton in Hn as ->. done.
  - intros s Hs. destruct (ly_bound0 s Hs) as (n & Hn & ?). exists n. set_solver.
  - intros k i Hi. destruct (ly_roles0 k i Hi) as (n & Hn & ?). exists n. set_solver.
  - intros k Hm. destruct (ly_must0 k Hm) as (n & Hn & ?). exists n. set_solver.
Qed.

Lemma layered_node seen st kind key attrs id st' :
  node st kind key attrs = (id, st') -> kind <> SUBJECT -> (kind = SECTION -> sections key) ->
  layered seen st -> layered seen st' /\ (id <= bg_node st')%Z.
Proof. intros H Hk Hs. by apply (layered_record _ _ _ _ _ H). Qed.

Lemma layered_edge seen st from kind to :
  kind <> BINDS -> kind <> CONTAINED -> (from <= bg_node st)%Z ->
  layered seen st -> layered seen (edge st from kind to).
Proof.
  intros Hb Hc Hf []. constructor; simpl; try done.
  - intros e [He|He]%elem_of_app; [auto|]. apply list_elem_of_singleton in He as ->. done.
  - intros s Hs. destruct (ly_bound0 s Hs) as (n & Hn & Hk & Hkey & []). exists n.
    split_and!; [done..|]. constructor.
    + intros e [He|He]%elem_of_app; [eauto|]. apply list_elem_of_singleton in He as ->. done.
    + intros e [He|He]%elem_of_app; [eauto|]. apply list_elem_of_singleton in He as ->. done.
    + destruct eo_has0 as (e & He & ?). exists e. set_solver.
Qed.

Lemma layered_declared seen st section from :
  (from <= bg_node st)%Z -> layered seen st ->
  layered seen (declared_by revision initiator label st section from) /\
  bg_node (declared_by revision initiator label st section from) = bg_node st.
Proof. intros Hf Hl. destruct section; [|done]. split; [|done]. by apply layered_edge. Qed.

(** A subject's step: its node, its binding edge, and besides them only
    containment nodes and declaration edges. *)
Lemma layered_subject seen st st' s ns eb xs ys :
  layered seen st -> b_nodes (bg_builder st') = b_nodes (bg_builder st) ++ ns :: xs ->
  b_edges (bg_builder st') ≡ₚ eb :: ys ++ b_edges (bg_builder st) ->
  n_id ns = (bg_node st + 1)%Z -> n_kind ns = SUBJECT -> n_key ns = subject_key (s_uid s) ->
  (forall n, n ∈ xs -> n_kind n = CONTAINMENT /\ (n_id n <= bg_node st')%Z) ->
  (forall e, e ∈ ys -> e_kind e = DECLARED_BY /\ (e_from e <= bg_node st')%Z) ->
  e_from eb = n_id ns ->
  e_kind eb = (if String.eqb (s_role s) ADVERSARY then CONTAINED else BINDS) ->
  (s_role s <> ADVERSARY -> roles !! s_role s = Some (e_to eb)) ->
  (bg_node st + 1 <= bg_node st')%Z -> layered (seen ++ [s]) st'.
Proof.
  intros [] Hn He Hid Hk Hkey Hxs Hys Hfrom Hkind Hrole Hle.
  assert (forall n, n ∈ b_nodes (bg_builder st') <->
    n ∈ b_nodes (bg_builder st) \/ n = ns \/ n ∈ xs) as Hnode by (intros; rewrite Hn; set_solver).
  assert (forall e, e ∈ b_edges (bg_builder st') <->
    e = eb \/ e ∈ ys \/ e ∈ b_edges (bg_builder st)) as Hedge by (intros; rewrite He; set_solver).
  constructor.
  - intros n [H|[->|H]]%Hnode; [apply ly_ids0 in H; lia|lia|by apply Hxs].
  - intros e [->|[H|H]]%Hedge; [lia|by apply Hys|apply ly_from0 in H; lia].
  - intros n [H|[->|[H _]%Hxs]]%Hnode Hs; [auto|by rewrite Hk in Hs|by rewrite Hs in H].
  - intros n [H|[->|[H _]%Hxs]]%Hnode Hs; [|exists s; set_solver|rewrite Hs in H; done].
    destruct (ly_subjects0 n H Hs) as (s' & ? & ?). exists s'. set_solver.
  - intros s' [Hs'| ->%list_elem_of_singleton]%elem_of_app.
    + destruct (ly_bound0 s' Hs') as (n & Hin & Hnk & Hnkey & []). exists n.
      split_and!; [by apply Hnode; left|done..|].
      assert (n_id n <> n_id ns) as Hne by (apply ly_ids0 in Hin; lia).
      constructor.
      * intros e [->|[[H _]%Hys|H]]%Hedge Hf Hek; [congruence|rewrite Hek in H; done|eauto].
      * intros e [->|[[H _]%Hys|H]]%Hedge Hf Hek; [congruence|rewrite Hek in H; done|eauto].
      * destruct eo_has0 as (e & Hin' & ?). exists e. split; [|done]. apply Hedge. auto.
    + exists ns. split_and!; [apply Hnode; auto|done..|]. constructor.
      * intros e [->|[[H _]%Hys|H]]%Hedge Hf Hek.
        -- rewrite Hkind in Hek. destruct (String.eqb_spec (s_role s) ADVERSARY); [done|auto].
        -- rewrite Hek in H. done.
        -- apply ly_from0 in H. lia.
      * intros e [->|[[H _]%Hys|H]]%Hedge Hf Hek.
        -- rewrite Hkind in Hek. by destruct (String.eqb_spec (s_role s) ADVERSARY).
        -- rewrite Hek in H. done.
        -- apply ly_from0 in H. lia.
      * exists eb. split; [apply Hedge; auto|done].
  - intros k i Hi. destruct (ly_roles0 k i Hi) as (n & H & ?). exists n.
    split; [apply Hnode; auto|done].
  - intros k Hm. destruct (ly_must0 k Hm) as (n & H & ?). exists n.
    split; [apply Hnode; auto|done].
Qed.

(** Declaration edges, and nothing else. *)
Definition declarations (bound : Z) (ys : list EdgeRecord) : Prop :=
  forall e, e ∈ ys -> e_kind e = DECLARED_BY /\ (e_from e <= bound)%Z.

Lemma declared_by_spec st section from :
  (from <= bg_node st)%Z ->
  let st' := declared_by revision initiator label st section from in
  exists ys, b_edges (bg_builder st') = b_edges (bg_builder st) ++ ys /\
    declarations (bg_node st) ys /\ b_nodes (bg_builder st') = b_nodes (bg_builder st) /\
    bg_node st' = bg_node st.
Proof.
  intros Hf. destruct section as [sec|]; simpl.
  - eexists. split_and!; try done. by intros e ->%list_elem_of_singleton.
  - exists []. rewrite app_nil_r. split_and!; try done. by intros e ?%elem_of_nil.
Qed.

Lemma containment_spec source section cid st id st' :
  containment revision initiator label source section cid st = (id, st') ->
  exists xs ys, b_nodes (bg_builder st') = b_nodes (bg_builder st) ++ xs /\
    b_edges (bg_builder st') = b_edges (bg_builder st) ++ ys /\
    (forall n, n ∈ xs -> n_kind n = CONTAINMENT /\ (n_id n <= bg_node st')%Z) /\
    declarations (bg_node st') ys /\ (bg_node st <= bg_node st')%Z.
Proof.
  unfold containment. destruct cid as [c|].
  { intros [= <- <-]. exists [], []. rewrite !app_nil_r. split_and!; try done; try lia;
      by intros ? ?%elem_of_nil. }
  unfold push_node, push_record. intros [= <- <-].
  match goal with |- context [declared_by _ _ _ ?st1 _ ?i] =>
    destruct (declared_by_spec st1 section i) as (ys & Hy & Hd & Hn & Hb); [simpl; lia|] end.
  rewrite Hy, Hn, Hb. simpl. eexists [_], ys. split_and!; try done; try lia.
  intros n ->%list_elem_of_singleton. simpl. split; [done|lia].
Qed.

Lemma declarations_mono a b ys : (a <= b)%Z -> declarations a ys -> declarations b ys.
Proof. intros Hab Hd e He. destruct (Hd e He). split; [done|lia]. Qed.

Lemma layered_subjects source section aliases l : forall seen cid st st',
  layered seen st ->
  push_subjects revision initiator label source section roles aliases cid st l = Ok st' ->
  layered (seen ++ l) st' /\ (bg_node st <= bg_node st')%Z.
Proof.
  induction l as [|s l IH]; intros seen cid st st' Hl H.
  { injection H as <-. rewrite app_nil_r. split; [done|lia]. }
  cbn [push_subjects] in H. destruct (roles !! s_role s) as [rid|] eqn:Er; [|done].
  cbn [ok_or] in H.
  destruct (push_node revision initiator label st SUBJECT _ _) as [sid st1] eqn:En.
  unfold push_node, push_record in En. injection En as <- <-.
  match type of H with context [b_node (bg_builder st) ?n] => set (ns := n) in H end.
  match type of H with context [mkBuilding ?a ?b ?c] => set (st1 := mkBuilding a b c) in H end.
  set (cs := if String.eqb (s_role s) ADVERSARY then _ else _) in H.
  assert (exists cid2 st2 xs ys to, cs = (cid2, push_edge revision initiator label st2
      (bg_node st + 1) (if String.eqb (s_role s) ADVERSARY then CONTAINED else BINDS) to) /\
    b_nodes (bg_builder st2) = b_nodes (bg_builder st1) ++ xs /\
    b_edges (bg_builder st2) = b_edges (bg_builder st1) ++ ys /\
    (forall n, n ∈ xs -> n_kind n = CONTAINMENT /\ (n_id n <= bg_node st2)%Z) /\
    declarations (bg_node st2) ys /\ (bg_node st1 <= bg_node st2)%Z /\
    (s_role s <> ADVERSARY -> roles !! s_role s = Some to))
    as (cid2 & st2 & xs & ys & to & Hcs & Hn2 & He2 & Hxs & Hys & Hb2 & Hto).
  { unfold cs. destruct (String.eqb_spec (s_role s) ADVERSARY) as [Ha|Ha].
    - destruct (containment revision initiator label source section cid st1) as [id st2] eqn:Ec.
      apply containment_spec in Ec as (xs & ys & ? & ? & ? & ? & ?).
      exists (Some id), st2, xs, ys, id. by split_and!.
    - exists cid, st1, [], [], rid. rewrite !app_nil_r. split_and!; try done; try lia;
        by intros ? ?%elem_of_nil. }
  rewrite Hcs in H. clear cs Hcs.
  set (st3 := push_edge _ _ _ st2 _ _ to) in H.
  destruct (declared_by_spec st3 section (bg_node st + 1)) as (ys3 & Hy3 & Hd3 & Hn3 & Hb3).
  { simpl in *. lia. }
  set (st4 := declared_by _ _ _ st3 _ _) in *. apply (IH (seen ++ [s])) in H as [Hl' Hle].
  - rewrite <-app_assoc in Hl'. split; [done|]. simpl in *. lia.
  - assert (bg_node st4 = bg_node st2) as Hb4 by done.
    set (eb := mkEdge (bg_edge st2 + 1) KernelSpace (bg_node st + 1) to
      (if String.eqb (s_role s) ADVERSARY then CONTAINED else BINDS) label
      (prov revision initiator) revision ∅).
    apply (layered_subject seen st st4 s ns eb xs (ys ++ ys3)); try done.
    + rewrite Hn3. change (b_nodes (bg_builder st3)) with (b_nodes (bg_builder st2)).
      rewrite Hn2. unfold st1. simpl. by rewrite <-app_assoc.
    + rewrite Hy3. unfold st3. simpl. rewrite He2. simpl.
      fold eb. rewrite (Permutation_app_comm (ys ++ ys3)), <-!app_assoc. simpl.
      rewrite (app_assoc _ ys (eb :: ys3)), <-Permutation_middle. by rewrite <-app_assoc.
    + intros n Hn. rewrite Hb4. auto.
    + intros e [He|He]%elem_of_app; [rewrite Hb4; auto|]. rewrite Hb3. auto.
    + rewrite Hb4. simpl in Hb2. lia.
Qed.
End Records.

Arguments layered_record {roles sections must}.

Section Layer.
Context (revision : Z) (initiator : ProvenanceKind) (label source : string).
Abbreviation node := (push_node revision initiator label).
Abbreviation edge := (push_edge revision initiator label).

Lemma push_compiled_layered sections must cs : forall roles st roles' st',
  layered roles sections must [] st ->
  (forall c, c ∈ cs -> c_kind c <> SUBJECT /\ c_kind c <> SECTION) ->
  push_compiled st roles cs = (roles', st') -> layered roles' sections must [] st'.
Proof.
  induction cs as [|c cs IH]; intros roles st roles' st' Hl Hc H; cbn [push_compiled] in H.
  { by injection H as <- <-. }
  destruct (push_record st _) as [id st1] eqn:Er.
  destruct (Hc c) as [Hk1 Hk2]; [left|].
  assert (exists n, n ∈ b_nodes (bg_builder st1) /\ n_id n = id /\ n_kind n = c_kind c /\
            n_key n = c_key c) as Hn.
  { injection Er as <- <-. simpl. eexists. split; [apply elem_of_app; right; left|done]. }
  apply (layered_record (roles := roles) (sections := sections) (must := must) []) in Er
    as [Hl1 _]; [|done..].
  eapply IH; [|intros c' Hc'; apply Hc; by right|exact H].
  destruct (Z.eqb_spec (c_kind c) ROLE) as [Hr|Hr]; [|done].
  destruct Hl1. constructor; try done.
  - intros s Hs. by apply elem_of_nil in Hs.
  - intros k i. rewrite lookup_insert_Some. intros [[<- <-]|[_ Hi]]; [|auto].
    destruct Hn as (n & ? & ? & ? & ?). exists n. split_and!; congruence.
Qed.

Lemma push_sync_layered roles sections must seen source_id st s st' :
  layered roles sections must seen st ->
  push_sync revision initiator label source source_id st s = Ok st' ->
  layered roles sections must seen st'.
Proof.
  unfold push_sync. intros Hl H. repeat (case_match; [done|]).
  match type of H with context [let '(_, _) := ?p in _] => destruct p as [id st1] eqn:En end.
  injection H as <-.
  destruct (layered_node _ _ _ _ _ _ _ _ _ _ _ _ _ En ltac:(done) ltac:(done) Hl) as [Hl1 Hid].
  by apply layered_edge.
Qed.

Lemma push_sections_layered roles (sections : string -> Prop) must seen src l : forall core st core' st',
  (forall name, sections (section_key name)) ->
  layered roles sections must seen st -> (forall c, core = Some c -> (c <= bg_node st)%Z) ->
  push_sections revision initiator label src core st l = Ok (core', st') ->
  layered roles sections must seen st' /\ (forall c, core' = Some c -> (c <= bg_node st')%Z).
Proof.
  induction l as [|[name value] l IH]; intros core st core' st' Hs Hl Hc H; cbn [push_sections] in H.
  { by injection H as <- <-. }
  destruct (node st SECTION _ _) as [id st1] eqn:En. destruct (is_empty name); [done|].
  destruct (layered_node _ _ _ _ _ _ _ _ _ _ _ _ _ En ltac:(done)
              (fun _ => Hs name) Hl) as [Hl1 Hid].
  assert (bg_node st <= bg_node st1)%Z as Hle by (injection En as <- <-; simpl; lia).
  eapply IH; [done| | |exact H].
  - by apply layered_edge.
  - intros c. simpl. destruct (String.eqb name "core"); [by intros [= <-]|].
    intros ?%Hc. lia.
Qed.

Lemma build_baseline_layered roles (sections : string -> Prop) must seen st bl st' :
  (forall name, sections (section_key name)) ->
  layered roles sections must seen st ->
  build_baseline revision initiator label st bl = Ok st' -> layered roles sections must seen st'.
Proof.
  unfold build_baseline. intros Hs Hl H.
  destruct (node st CONFIG_SOURCE _ _) as [src st1] eqn:E1.
  destruct (layered_node _ _ _ _ _ _ _ _ _ _ _ _ _ E1 ltac:(done) ltac:(done) Hl) as [Hl1 _].
  case_bool_decide; [done|].
  destruct (push_sections _ _ _ src None st1 _) as [[core st2]|] eqn:E2; [|done].
  apply (push_sections_layered _ _ _ _ _ _ _ _ _ _ Hs Hl1) in E2 as [Hl2 _]; [|done].
  destruct (node st2 INSTANCE _ _) as [inst st3] eqn:E3.
  destruct (layered_node _ _ _ _ _ _ _ _ _ _ _ _ _ E3 ltac:(done) ltac:(done) Hl2) as [Hl3 Hi3].
  destruct (node st3 CLASSIFICATION_SYSTEM _ _) as [sys st4] eqn:E4.
  destruct (layered_node _ _ _ _ _ _ _ _ _ _ _ _ _ E4 ltac:(done) ltac:(done) Hl3) as [Hl4 Hi4].
  destruct (node st4 LEVEL _ _) as [lvl st5] eqn:E5.
  destruct (layered_node _ _ _ _ _ _ _ _ _ _ _ _ _ E5 ltac:(done) ltac:(done) Hl4) as [Hl5 Hi5].
  assert (bg_node st3 <= bg_node st4)%Z by (injection E4 as <- <-; simpl; lia).
  assert (bg_node st4 <= bg_node st5)%Z by (injection E5 as <- <-; simpl; lia).
  injection H as <-.
  repeat (apply layered_declared; [destruct core; simpl; lia|]).
  apply layered_edge; [done..|simpl; lia|]. apply layered_edge; [done..|simpl; lia|]. done.
Qed.
End Layer.

Definition layer_sections (layer : IdentityLayer) (k : string) : Prop :=
  (is_Some (l_bindings_sha256 layer) /\ k = bindings_section_key (l_source layer)) \/
  exists name, k = section_key name.
Definition layer_must (layer : IdentityLayer) : option string :=
  (fun _ => bindings_section_key (l_source layer)) <$> l_bindings_sha256 layer.

Lemma layered_nil sections r :
  layered ∅ sections None [] (mkBuilding 0 0 (builder_new KernelSpace r)).
Proof.
  constructor; simpl; try (by intros ? ?%elem_of_nil); try done.
Qed.

Lemma assemble_layer_layered layer baseline sync compiled vocabulary revision initiator b :
  assemble_layer layer baseline sync compiled vocabulary revision initiator = Ok b ->
  (forall c, c ∈ compiled -> c_kind c <> SUBJECT /\ c_kind c <> SECTION) ->
  exists roles st, bg_builder st = b /\
    layered roles (layer_sections layer) (layer_must layer)
      (sort_by_key s_uid (l_subjects layer)) st.
Proof.
  unfold assemble_layer. intros H Hc.
  destruct (push_node _ _ _ (mkBuilding 0 0 _) _ _ _) as [source_id st1] eqn:E1.
  destruct (layered_node _ _ _ _ (layer_sections layer) _ _ _ _ _ _ _ _ E1 ltac:(done) ltac:(done)
              (layered_nil _ _)) as [Hl1 Hi1].
  destruct (push_node _ _ _ st1 _ _ _) as [i2 st2] eqn:E2.
  destruct (layered_node _ _ _ _ _ _ _ _ _ _ _ _ _ E2 ltac:(done) ltac:(done) Hl1) as [Hl2 _].
  destruct (push_compiled st2 ∅ compiled) as [roles st3] eqn:E3.
  pose proof (push_compiled_layered _ _ _ _ _ _ _ Hl2 Hc E3) as Hl3.
  destruct (match l_bindings_sha256 layer with Some _ => _ | None => _ end) as [section st4] eqn:E4.
  assert (layered roles (layer_sections layer) (layer_must layer) [] st4) as Hl4.
  { unfold layer_must. destruct (l_bindings_sha256 layer) as [d|] eqn:Ed.
    - destruct (push_node _ _ _ st3 SECTION _ _) as [id st4'] eqn:E5. injection E4 as <- <-.
      assert (exists n, n ∈ b_nodes (bg_builder st4') /\ n_kind n = SECTION /\
                n_key n = bindings_section_key (l_source layer)) as Hsec.
      { injection E5 as <- <-. simpl. eexists. split; [apply elem_of_app; right; left|done]. }
      destruct (layered_node _ _ _ _ (layer_sections layer) _ _ _ _ _ _ _ _ E5 ltac:(done)
                  (fun _ => or_introl (conj (ex_intro _ d Ed) eq_refl)) Hl3) as [Hl4 Hid].
      apply layered_edge; [done..|]. destruct Hl4. constructor; try done.
      simpl. intros k [= <-]. done.
    - by injection E4 as <- <-. }
  destruct (group_aliases _ _ _) as [aliases|]; [|done].
  destruct (push_subjects _ _ _ _ _ _ _ _ _ _) as [st5|] eqn:E5; [|done].
  apply (layered_subjects _ _ _ _ _ _ _ _ _ _ [] _ _ _ Hl4) in E5 as [Hl5 _]. simpl in Hl5.
  destruct (match sync with Some _ => _ | None => _ end) as [st6|] eqn:E6; [|done].
  assert (layered roles (layer_sections layer) (layer_must layer)
            (sort_by_key s_uid (l_subjects layer)) st6) as Hl6.
  { destruct sync; [by eapply push_sync_layered|by injection E6 as <-]. }
  destruct (match baseline with Some _ => _ | None => _ end) as [st7|] eqn:E7; [|done].
  injection H as <-. exists roles, st7. split; [done|].
  destruct baseline; [|by injection E7 as <-].
  eapply build_baseline_layered; [|done|done]. intros name. right. by exists name.
Qed.

Lemma build_inv layer baseline sync compiled vocabulary revision initiator g :
  build layer baseline sync compiled vocabulary revision initiator = Ok g ->
  exists b, assemble_layer layer baseline sync compiled vocabulary revision initiator = Ok b /\
    assemble b SCHEMA compiled = Ok g.
Proof.
  unfold build, build_graph. intros H. unbind H. unbind H.
  destruct (assemble_layer _ _ _ _ _ _ _) as [b'|] eqn:Eb; [|done].
  destruct (build_encoded _ SCHEMA compiled) as [[g' e]|] eqn:Ee; [|simpl in *; congruence].
  exists b'. split; [done|]. simpl in *. destruct (List.find _ compiled); [done|].
  unfold build_encoded in Ee. simplify_eq/=. unbind Ee.
  destruct (negb _); [done|]. by simplify_eq.
Qed.

(** ** Lemmas: the revision and the space a build gives *)

Section Revision.
Context (revision : Z) (initiator : ProvenanceKind) (label : string).
Local Notation rev st := (b_revision (bg_builder st), b_space (bg_builder st)).

Lemma declared_by_revision st section from :
  rev (declared_by revision initiator label st section from) = rev st.
Proof. by destruct section. Qed.

Lemma push_compiled_revision cs : forall roles st roles' st',
  push_compiled st roles cs = (roles', st') -> rev st' = rev st.
Proof.
  induction cs as [|c cs IH]; intros roles st roles' st' H; simpl in H; [by simplify_eq|].
  by apply IH in H.
Qed.

Lemma push_subjects_revision source section roles aliases l : forall cid st st',
  push_subjects revision initiator label source section roles aliases cid st l = Ok st' ->
  rev st' = rev st.
Proof.
  induction l as [|s l IH]; intros cid st st' H; cbn [push_subjects] in H; [by simplify_eq|].
  destruct (roles !! s_role s) as [role|]; [|done]. cbn [ok_or push_node push_record] in H.
  destruct (String.eqb (s_role s) ADVERSARY); [destruct cid|]; cbn [containment push_node push_record] in H;
    apply IH in H; rewrite H, ?declared_by_revision; cbn [push_edge bg_builder b_edge b_revision b_space];
    rewrite ?declared_by_revision; done.
Qed.

Lemma push_sections_revision src l : forall core st core' st',
  push_sections revision initiator label src core st l = Ok (core', st') -> rev st' = rev st.
Proof.
  induction l as [|[name value] l IH]; intros core st core' st' H; simpl in H; [by simplify_eq|].
  destruct (is_empty name); [done|]. by apply IH in H.
Qed.

Lemma build_baseline_revision st bl st' :
  build_baseline revision initiator label st bl = Ok st' -> rev st' = rev st.
Proof.
  unfold build_baseline. cbn [push_node push_record]. destruct (bool_decide _); [done|].
  destruct (push_sections _ _ _ _ _ _ _) as [[core st1]|] eqn:E; [|done].
  apply push_sections_revision in E. intros H. apply Ok_inj in H as <-.
  rewrite !declared_by_revision. exact E.
Qed.

Lemma push_sync_revision source source_id st s st' :
  push_sync revision initiator label source source_id st s = Ok st' -> rev st' = rev st.
Proof.
  unfold push_sync. destruct (is_empty _); [done|]. destruct (is_empty _); [done|].
  destruct (is_empty _); [done|]. intros H. by simplify_eq/=.
Qed.
End Revision.

Lemma assemble_layer_revision layer baseline sync compiled vocabulary revision initiator b :
  assemble_layer layer baseline sync compiled vocabulary revision initiator = Ok b ->
  (b_revision b, b_space b) = (revision, KernelSpace).
Proof.
  unfold assemble_layer. cbn [push_node push_record].
  destruct (push_compiled _ _ compiled) as [roles st1] eqn:E1. apply push_compiled_revision in E1.
  match goal with |- context [match ?m with (a, b) => _ end] => destruct m as [section st2] eqn:E2 end.
  assert ((b_revision (bg_builder st2), b_space (bg_builder st2)) = (revision, KernelSpace)) as H2.
  { destruct (l_bindings_sha256 layer); injection E2 as <- <-; exact E1. }
  destruct (group_aliases _ _ _) as [aliases|]; [|done].
  destruct (push_subjects _ _ _ _ _ _ _ _ _ _) as [st3|] eqn:E3; [|done].
  apply push_subjects_revision in E3.
  match goal with |- context [match ?m with Ok _ => _ | Err _ => _ end] => destruct m as [st4|] eqn:E4 end; [|done].
  assert ((b_revision (bg_builder st4), b_space (bg_builder st4)) = (revision, KernelSpace)) as H4.
  { destruct sync; [apply push_sync_revision in E4|apply Ok_inj in E4]; congruence. }
  match goal with |- context [match ?m with Ok _ => _ | Err _ => _ end] => destruct m as [st5|] eqn:E5 end; [|done].
  intros H. apply Ok_inj in H as <-.
  destruct baseline; [apply build_baseline_revision in E5|apply Ok_inj in E5]; congruence.
Qed.

Lemma build_revision layer baseline sync compiled vocabulary revision initiator g :
  build layer baseline sync compiled vocabulary revision initiator = Ok g -> g_revision g = revision.
Proof.
  intros (b & Hb & Ha)%build_inv. apply assemble_inv in Ha as (_ & _ & _ & _ & ->).
  apply assemble_layer_revision in Hb. congruence.
Qed.

(** A compiled node is a role or another compiled kind, never a subject or a
    section. *)
Lemma compiled_kinds b compiled g :
  assemble b SCHEMA compiled = Ok g ->
  forall c, c ∈ compiled -> c_kind c <> SUBJECT /\ c_kind c <> SECTION.
Proof.
  intros H c Hc. apply assemble_valid in H. destruct (vb_compiled _ _ _ H c Hc) as [Hk _].
  by split; intros E; rewrite E in Hk.
Qed.

Lemma build_layered layer baseline sync compiled vocabulary revision initiator g :
  build layer baseline sync compiled vocabulary revision initiator = Ok g ->
  graph_ok SCHEMA compiled g /\
  exists roles st, layered roles (layer_sections layer) (layer_must layer)
      (sort_by_key s_uid (l_subjects layer)) st /\
    g_nodes g ≡ₚ b_nodes (bg_builder st) /\ g_edges g ≡ₚ b_edges (bg_builder st).
Proof.
  intros (b & Hb & Ha)%build_inv. pose proof (compiled_kinds _ _ _ Ha) as Hk.
  apply assemble_inv in Ha as (Hg & Hn & He & _).
  apply assemble_layer_layered in Hb as (roles & st & <- & Hl); [|done].
  split; [done|]. by exists roles, st.
Qed.

(** The graph's answer for a subject entry: its node, and the hop from it. *)
Record resolves (g : Graph) (s : SubjectEntry) : Prop := {
  rs_node : exists n, g_lookup g SUBJECT (subject_key (s_uid s)) = Some n /\
    is_contained g (n_id n) = String.eqb (s_role s) ADVERSARY /\
    (s_role s <> ADVERSARY -> bound_key g (n_id n) = Some (s_role s)) }.

Lemma edge_at_spec id kind e : edge_at id kind e = true <-> e_from e = id /\ e_kind e = kind.
Proof. unfold edge_at. by rewrite andb_true_iff, !Z.eqb_eq. Qed.

Lemma is_contained_iff schema compiled g id :
  graph_ok schema compiled g ->
  is_contained g id = true <-> exists e, e ∈ g_edges g /\ e_from e = id /\ e_kind e = CONTAINED.
Proof.
  intros Hg. unfold is_contained. rewrite (out_edges_eq Hg).
  destruct (List.filter _ _) as [|e l] eqn:E.
  - split; [done|]. intros (e & He & Hk%edge_at_spec).
    assert (e ∈ []) as Hin%elem_of_nil by (rewrite <-E; by apply elem_of_bfilter). done.
  - split; [intros _|done]. exists e. assert (e ∈ e :: l) as Hin by left.
    rewrite <-E in Hin. apply elem_of_bfilter in Hin as [Hin Hk]. by apply edge_at_spec in Hk.
Qed.

Lemma edges_of_resolves compiled g roles n s :
  graph_ok SCHEMA compiled g -> n ∈ g_nodes g -> n_kind n = SUBJECT ->
  n_key n = subject_key (s_uid s) -> edges_of roles (g_edges g) (n_id n) s ->
  (forall k id, roles !! k = Some id ->
     exists m, m ∈ g_nodes g /\ n_id m = id /\ n_kind m = ROLE /\ n_key m = k) ->
  resolves g s.
Proof.
  intros Hg Hn Hk Hkey [Hb Hc (e & He & Hfrom & Hkind)] Hroles. constructor. exists n.
  split; [by apply (g_lookup_iff Hg)|]. split.
  - destruct (String.eqb_spec (s_role s) ADVERSARY) as [Ha|Ha].
    + apply (is_contained_iff _ _ _ _ Hg). eauto.
    + apply not_true_iff_false. intros (e' & ? & ? & ?)%(is_contained_iff _ _ _ _ Hg). eauto.
  - intros Ha. destruct (String.eqb_spec (s_role s) ADVERSARY) as [?|_]; [done|].
    unfold bound_key. rewrite (out_edges_eq Hg).
    destruct (List.filter _ _) as [|e' l] eqn:E.
    + assert (e ∈ []) as []%elem_of_nil.
      rewrite <-E. apply elem_of_bfilter. split; [done|]. by apply edge_at_spec.
    + assert (e' ∈ e' :: l) as Hin by left. rewrite <-E in Hin.
      apply elem_of_bfilter in Hin as [He' [Hf' Hk']%edge_at_spec]. simpl.
      destruct (Hb e' He' Hf' Hk') as [_ (m & Hm & Hid & _ & <-)%Hroles].
      by rewrite (proj2 (g_node_iff Hg _ m) (conj Hm Hid)).
Qed.

Lemma build_resolves layer baseline sync compiled vocabulary revision initiator g s :
  build layer baseline sync compiled vocabulary revision initiator = Ok g ->
  s ∈ l_subjects layer -> resolves g s.
Proof.
  intros (Hg & roles & st & [] & Hn & He)%build_layered Hs.
  destruct (ly_bound0 s) as (n & Hin & Hk & Hkey & Heo).
  { by rewrite sort_by_key_perm. }
  apply (edges_of_resolves compiled g roles n s); try done.
  - by rewrite Hn.
  - destruct Heo as [Hb Hc Hh]. constructor; setoid_rewrite He; done.
  - intros k id Hid. setoid_rewrite Hn. auto.
Qed.

Lemma build_unlisted layer baseline sync compiled vocabulary revision initiator g uid :
  build layer baseline sync compiled vocabulary revision initiator = Ok g ->
  (0 <= uid)%Z -> (forall s, s ∈ l_subjects layer -> (0 <= s_uid s)%Z /\ s_uid s <> uid) ->
  g_lookup g SUBJECT (subject_key uid) = None.
Proof.
  intros (Hg & roles & st & [] & Hn & He)%build_layered Hu Hs.
  destruct (g_lookup g _ _) as [n|] eqn:E; [|done].
  apply (g_lookup_iff Hg) in E as (Hin & Hk & Hkey). rewrite Hn in Hin.
  destruct (ly_subjects0 n Hin Hk) as (s & Hs' & Hkey'). rewrite sort_by_key_perm in Hs'.
  destruct (Hs s Hs') as [Hpos Hne]. destruct Hne. apply subject_key_inj; congruence.
Qed.

(** The bindings section is in the graph when the layer's file had one; a
    source that is an absolute path shares no section key with the baseline. *)
Lemma build_explicit layer baseline sync compiled vocabulary revision initiator g :
  build layer baseline sync compiled vocabulary revision initiator = Ok g ->
  starts_with "/" (l_source layer) = true ->
  is_some (g_lookup g SECTION (bindings_section_key (l_source layer))) =
  is_some (l_bindings_sha256 layer).
Proof.
  intros (Hg & roles & st & [] & Hn & He)%build_layered Habs.
  unfold layer_must in *. destruct (l_bindings_sha256 layer) as [d|] eqn:Ed.
  - destruct (ly_must0 _ eq_refl) as (n & Hin & Hk & Hkey). rewrite <-Hn in Hin.
    by rewrite (proj2 (g_lookup_iff Hg _ _ n) (conj Hin (conj Hk Hkey))).
  - destruct (g_lookup g _ _) as [n|] eqn:E; [|done]. exfalso.
    apply (g_lookup_iff Hg) in E as (Hin & Hk & Hkey). rewrite Hn in Hin.
    destruct (ly_sections0 n Hin Hk) as [[[? ?] _]|[name Hname]]; [congruence|].
    rewrite Hkey in Hname. destruct (l_source layer) as [|c src]; [done|].
    unfold bindings_section_key, section_key in Hname. injection Hname as -> _. done.
Qed.

(** ** Theorems *)

(** containment survives a reload: after [carry_forward] the contained uids
    are those the file contains and those a persisted adversary name claims that
    no longer resolves; every other uid keeps exactly the file's entries. *)
Theorem carry_forward_contains (file : IdentityLayer) (unresolved : list string)
    (persisted : IdentityLayer) :
  let out := fst (carry_forward file unresolved persisted) in
  (forall u, contained_in (l_subjects out) u = true <->
     contained_in (l_subjects file) u = true \/
     exists name, claims persisted !! name = Some u /\ name ∈ unresolved) /\
  (forall e, (forall name, claims persisted !! name = Some (s_uid e) -> name ∉ unresolved) ->
     e ∈ l_subjects out <-> e ∈ l_subjects file).
Proof. apply carry_forward_spec. Qed.

(** an account that vanished from the host is never a release: when a
    contained uid is claimed by a persisted adversary name that no longer
    resolves, the reload does not report it released, and it is not released. *)
Theorem vanished_name_not_released (file : IdentityLayer) (unresolved : list string)
    (persisted : IdentityLayer) (name : string) (u : Z) (nobody : bool)
    (Hc : claims persisted !! name = Some u) (Hu : name ∈ unresolved) :
  let next := fst (carry_forward file unresolved persisted) in
  contained_in (l_subjects next) u = true /\ u ∉ re_uid <$> released persisted next nobody.
Proof.
  simpl. destruct (carry_forward_spec file unresolved persisted) as [Hspec _].
  assert (contained_in (l_subjects (fst (carry_forward file unresolved persisted))) u = true)
    as Hin by (apply Hspec; right; eauto).
  split; [done|]. rewrite released_uids, Hin. by intros [_ ?].
Qed.

(** the release report is exact: it names the uids contained before and not
    contained after, and no other. *)
Theorem released_exact (persisted next : IdentityLayer) (nobody : bool) (u : Z) :
  u ∈ re_uid <$> released persisted next nobody <->
  contained_in (l_subjects persisted) u = true /\ contained_in (l_subjects next) u = false.
Proof. apply released_uids. Qed.

(** explicit bindings are never dropped by accident: with explicit bindings
    persisted, a reload is refused whenever the file is missing or has no
    [bindings:] key, and never otherwise. *)
Theorem explicit_bindings_kept (persisted file : IdentityLayer) (missing : bool)
    (Hmiss : missing = true -> l_bindings_sha256 file = None) :
  is_some (drops_explicit_bindings persisted file missing) =
  is_some (l_bindings_sha256 persisted) && is_none (l_bindings_sha256 file).
Proof.
  unfold drops_explicit_bindings. destruct (l_bindings_sha256 persisted); [|done]. simpl.
  destruct (l_bindings_sha256 file) as [d|] eqn:Ef.
  - simpl. rewrite andb_false_r. destruct missing; [|done]. by specialize (Hmiss eq_refl).
  - simpl. rewrite andb_true_r. destruct (negb _); [done|]. by destruct missing.
Qed.

(** a digest survives its hexadecimal spelling. *)
Theorem unhex_hex (d : digest) (Hd : length d = 32) : unhex (hex d) = Some d.
Proof.
  destruct (hex_back d) as (Hl & Ha & Hu). unfold unhex. rewrite Hl, Hd, Ha. simpl. by rewrite Hu.
Qed.

(** ** Witnesses *)

Definition demo_digest : digest := repeat (Ascii.ascii_of_nat 171) 32.

(** [mallory] was contained as uid 1002, and [op] is bound to [user]. *)
Definition demo_persisted : IdentityLayer :=
  mkLayer "/etc/maknae/bindings.yaml" "U" (Some demo_digest)
    [mkSubject 1001 "op" "user"; mkSubject 1002 "mallory" ADVERSARY] ∅.

(** The new file still names [mallory], who no longer has an account. *)
Definition demo_file : IdentityLayer :=
  mkLayer "/etc/maknae/bindings.yaml" "U" (Some demo_digest) [mkSubject 1001 "op" "user"] ∅.

Lemma vanished_name_not_released_witness :
  claims demo_persisted !! "mallory" = Some 1002%Z /\
  contained_in (l_subjects demo_file) 1002 = false /\
  let next := fst (carry_forward demo_file ["mallory"] demo_persisted) in
  contained_in (l_subjects next) 1002 = true /\
  1002%Z ∉ re_uid <$> released demo_persisted next false.
Proof.
  split; [vm_compute; reflexivity|]. split; [vm_compute; reflexivity|].
  apply (vanished_name_not_released demo_file ["mallory"] demo_persisted "mallory" 1002 false).
  - vm_compute. reflexivity.
  - left.
Defined.

Lemma explicit_bindings_kept_witness :
  is_some (drops_explicit_bindings demo_persisted layer_default true) =
  is_some (l_bindings_sha256 demo_persisted) && is_none (l_bindings_sha256 layer_default).
Proof.
  apply (explicit_bindings_kept demo_persisted layer_default true). reflexivity.
Defined.

Lemma unhex_hex_witness : length demo_digest = 32 /\ unhex (hex demo_digest) = Some demo_digest.
Proof.
  split; [vm_compute; reflexivity|]. apply (unhex_hex demo_digest). vm_compute. reflexivity.
Defined.
