(* ===== verification/Bindings.v ===== *)
(** * Subject bindings: [crates/maknae-config/src/bindings.rs] and
    [crates/maknae-authz-basic/src/binding.rs]

    The [bindings.yaml] grammar, the per-role rules, the resolution of listed
    names to uids with its problem reports, and the role lookup by graph hops.
    The theorems follow a uid from the file to the decision core: what the file
    lists is what the resolved subjects say, and what the identity layer says is
    what the lookup over the built graph answers. *)
From stdpp Require Import base list strings gmap sorting.
From Stdlib Require Import ZArith Lia Ascii.
From S2P Require Import Prelude RustStr RustSlice Seam Config Decide Graph GraphFormat Identity.
Open Scope nat_scope.

(** ** The file *)

Definition BINDINGS_FILE := "bindings.yaml".
Definition BINDING_ROLES : list string := ["admin"; "user"; "guest"; "adversary"].

Inductive BindingEntry :=
| EName (n : string)
| EUid (u : Z).

#[export] Instance BindingEntry_eq_dec : EqDecision BindingEntry.
Proof. solve_decision. Defined.

Definition render (e : BindingEntry) : string :=
  match e with EName n => n | EUid u => "uid:" +:+ dec u end.

Record Bindings := mkBindings {
  bi_roles : option (gmap string (list BindingEntry));
  bi_section : option string;
  bi_missing : bool }.

Definition bindings_absent : Bindings := mkBindings None None false.
Definition bindings_missing : Bindings := mkBindings None None true.

(** The [bindings:] key is present and lists no entry under any role. *)
Definition lists_nobody (b : Bindings) : bool :=
  match bi_roles b with
  | Some m => forallb (fun kv => match snd kv with [] => true | _ => false end) (btree_iter m)
  | None => false
  end.

Inductive BindingsError :=
| BEUnknownSchemaVersion (v : Z)
| BEConfig (e : ConfigError)
| BEInsecurePermissions
| BESymlink
| BENotRootOwned
| BEInsecureDirectory (d : string)
| BEIo (m : string)
| BEYaml (m : string).

Definition entry_int (n : Z) : result BindingEntry BindingsError :=
  match u ← try_u32 n; if Z.eqb u (u32_max - 1) then None else Some u with
  | Some u => Ok (EUid u)
  | None => Err (BEYaml "a `uid:` entry is a whole number from 0 to 4294967294")
  end.

Definition entry (v : Value) : result BindingEntry BindingsError :=
  match v with
  | VStr s =>
      match name_fault s with
      | None => Ok (EName s)
      | Some NFEmpty => Err (BEYaml "an empty name binds nobody; remove it")
      | Some NFColon =>
          Err (BEYaml "a name cannot contain ':'; write `uid: 7` for a numeric uid")
      | Some NFComma => Err (BEYaml "a name cannot contain ','")
      | Some NFControl => Err (BEYaml "a name cannot contain a control character")
      end
  | VMap [(k, VInt n)] =>
      if String.eqb k "uid" then entry_int n
      else Err (BEYaml "a map entry is exactly `uid: <0..4294967294>`")
  | VMap _ => Err (BEYaml "a map entry is exactly `uid: <0..4294967294>`")
  | VInt _ => Err (BEYaml "quote every name; write `uid: <n>` for a numeric uid")
  | _ => Err (BEYaml "bindings entries are quoted names or `uid: <n>`")
  end.

Fixpoint section_loop (roles : gmap string (list BindingEntry)) (l : list (string * Value))
  : result (gmap string (list BindingEntry)) BindingsError :=
  match l with
  | [] => Ok roles
  | (role, VSeq items) :: l' =>
      let? entries := try_map entry items in section_loop (<[role := entries]> roles) l'
  | _ :: _ =>
      Err (BEYaml "a bindings member list must be a sequence (write `role: []` for empty)")
  end.

Definition section_roles (section : Value)
  : result (gmap string (list BindingEntry)) BindingsError :=
  match section with
  | VMap by_role => section_loop ∅ by_role
  | _ => Err (BEYaml "the bindings section must be a map of role to member list")
  end.

(** [parse_bindings] from the loaded root value on. *)
Definition parse_bindings (f64_to_string : Z -> string) (root : Value)
  : result Bindings BindingsError :=
  match root with
  | VMap map =>
      let? _ := map_err BEConfig
        (reject_unknown_keys "bindings.yaml" map ["schema_version"; "bindings"]) in
      match get map "schema_version" with
      | Some (VInt 1) =>
          match get map "bindings" with
          | None => Ok bindings_absent
          | Some section =>
              let? roles := section_roles section in
              Ok (mkBindings (Some roles) (Some (canonical_json f64_to_string section)) false)
          end
      | Some (VInt n) => Err (BEUnknownSchemaVersion n)
      | _ => Err (BEUnknownSchemaVersion 0)
      end
  | _ => Err (BEYaml "the bindings.yaml root must be a mapping")
  end.

(** ** The rules *)

Inductive RoleRuleError :=
| RRUnknownRole (k : string)
| RRDuplicate (n : string)
| RRUidOutsideAdversary (k : string).

Definition is_uid (e : BindingEntry) : bool :=
  match e with EUid _ => true | EName _ => false end.

(** [BINDING_ROLES.len() - 1]. *)
Definition adversary_idx : nat := length BINDING_ROLES - 1.

Fixpoint check_entries (key : string) (idx : nat) (seen : gset string) (l : list BindingEntry)
  : result unit RoleRuleError :=
  match l with
  | [] => Ok tt
  | e :: l' =>
      if bool_decide (render e ∈ seen) then Err (RRDuplicate (render e))
      else if is_uid e && negb (idx =? adversary_idx) then Err (RRUidOutsideAdversary key)
      else check_entries key idx ({[render e]} ∪ seen) l'
  end.

Fixpoint checked_loop (l : list (string * list BindingEntry))
  : result (list (nat * list BindingEntry)) RoleRuleError :=
  match l with
  | [] => Ok []
  | (key, entries) :: l' =>
      let? idx := ok_or (position (String.eqb key) BINDING_ROLES) (RRUnknownRole key) in
      let? _ := check_entries key idx ∅ entries in
      let? out := checked_loop l' in
      Ok ((idx, entries) :: out)
  end.

Definition checked_roles (b : Bindings) : result (list (nat * list BindingEntry)) RoleRuleError :=
  match bi_roles b with
  | None => Ok []
  | Some map => checked_loop (btree_iter map)
  end.

Definition check_roles (b : Bindings) : result unit RoleRuleError :=
  let? _ := checked_roles b in Ok tt.

Inductive Effective := EBound (idx : nat) | EContained | EUnbound.

Definition effective (roles : list nat) : option Effective :=
  let! first := head roles in
  Some (if existsb (Nat.eqb adversary_idx) roles then EContained
        else if forallb (Nat.eqb first) roles then EBound first
        else EUnbound).

(** ** Subjects by uid *)

Abbreviation Listed := (nat * BindingEntry)%type.
Abbreviation HeldBy := (gmap Z (list Listed)).

Section ByUid.
Context (uid_of : BindingEntry -> option Z).

Definition hold_one (idx : nat) (st : HeldBy * list Listed) (e : BindingEntry)
  : HeldBy * list Listed :=
  match uid_of e with
  | Some u => (<[u := default [] (fst st !! u) ++ [(idx, e)]]> (fst st), snd st)
  | None => (fst st, snd st ++ [(idx, e)])
  end.

Definition subjects_by_uid (roles : list (nat * list BindingEntry)) : HeldBy * list Listed :=
  fold_left (fun st '(idx, entries) => fold_left (hold_one idx) entries st) roles (∅, []).
End ByUid.

(** ** Resolution ([binding.rs]) *)

Abbreviation UidMap := (gmap string Z).

Definition ROLE_ORDER : list Role := [Admin; User; Guest; Adversary].

Inductive IdentityProblem :=
| PUnresolved (role name : string)
| PUnresolvedAdversary (name : string)
| PContained (uid : Z) (names roles : list string)
| PUnbound (uid : Z) (names roles : list string)
| PCarriedForward (uid : Z) (name : string) (overrides : list (string * string))
| PReleased (uid : Z) (name cause : string)
| PPrincipalAdmin (uid : Z).

Definition problem_kind (p : IdentityProblem) : string :=
  match p with
  | PUnresolved _ _ => "unresolved"
  | PUnresolvedAdversary _ => "unresolved_adversary"
  | PContained _ _ _ => "contained"
  | PUnbound _ _ _ => "unbound_conflict"
  | PCarriedForward _ _ _ => "carried_forward"
  | PReleased _ _ _ => "released"
  | PPrincipalAdmin _ => "principal_admin"
  end.

Definition problem_uid (p : IdentityProblem) : option Z :=
  match p with
  | PUnresolved _ _ | PUnresolvedAdversary _ => None
  | PContained uid _ _ | PUnbound uid _ _ | PCarriedForward uid _ _ | PReleased uid _ _
  | PPrincipalAdmin uid => Some uid
  end.

Definition problem_names (p : IdentityProblem) : list string :=
  match p with
  | PUnresolved _ name | PUnresolvedAdversary name => [name]
  | PContained _ names _ | PUnbound _ names _ => names
  | PCarriedForward _ name overrides => name :: map fst overrides
  | PReleased _ name _ => [name]
  | PPrincipalAdmin _ => []
  end.

Definition problem_roles (p : IdentityProblem) : list string :=
  match p with
  | PUnresolved role _ => [role]
  | PUnresolvedAdversary _ => [ADVERSARY]
  | PContained _ _ roles | PUnbound _ _ roles => roles
  | PCarriedForward _ _ overrides => ADVERSARY :: map snd overrides
  | PReleased _ _ _ => [ADVERSARY]
  | PPrincipalAdmin _ => [role_key Admin]
  end.

Record Resolved := mkResolved {
  rv_subjects : list (Z * Role * string);
  rv_problems : list IdentityProblem;
  rv_adversary_names : gmap string Z }.

Definition lookup_uid (lookup : UidMap) (e : BindingEntry) : option Z :=
  match e with EUid u => Some u | EName n => lookup !! n end.

(** [ROLE_ORDER[idx]]: an index a checked list carries is in range. *)
Definition role_at (idx : nat) : result Role (fault RoleRuleError) :=
  ok_or (ROLE_ORDER !! idx) Panic.

Definition unresolved_problem (l : Listed) : result IdentityProblem (fault RoleRuleError) :=
  let '(idx, e) := l in
  let name := render e in
  let? role := role_at idx in
  Ok match role with
     | Adversary => PUnresolvedAdversary name
     | role => PUnresolved (role_key role) name
     end.

Definition held_one (l : Listed) : result (Role * string) (fault RoleRuleError) :=
  let? role := role_at (fst l) in Ok (role, render (snd l)).

(** The names in order, each once. *)
Definition names_once (held : list (Role * string)) : list string :=
  fold_left (fun names '(_, n) => if existsb (String.eqb n) names then names else names ++ [n])
    held [].

Definition role_eqb (a b : Role) : bool := bool_decide (a = b).

Definition adversary_claims (uid : Z) (names : gmap string Z)
    (l : list ((Role * string) * Listed)) : gmap string Z :=
  fold_left (fun out '((role, name), (_, e)) =>
               if role_eqb role Adversary && negb (is_uid e) then <[name := uid]> out else out)
    l names.

Definition resolve_one (out : Resolved) (subject : Z * list Listed)
  : result Resolved (fault RoleRuleError) :=
  let '(uid, entries) := subject in
  let? held := try_map held_one entries in
  let adversary_names := adversary_claims uid (rv_adversary_names out) (zip held entries) in
  let roles := dedup (fun k => k) (sort_by_key (fun k => k) (map (fun h => role_key (fst h)) held)) in
  let names := names_once held in
  let adversary := List.find (fun h => role_eqb (fst h) Adversary) held in
  match effective (map fst entries), adversary with
  | Some EContained, Some (_, first) =>
      Ok (mkResolved (rv_subjects out ++ [(uid, Adversary, first)])
           (if 1 <? length roles then rv_problems out ++ [PContained uid names roles]
            else rv_problems out)
           adversary_names)
  | Some (EBound _), _ =>
      let? (role, name) := ok_or (head held) Panic in
      Ok (mkResolved (rv_subjects out ++ [(uid, role, name)]) (rv_problems out) adversary_names)
  | _, _ =>
      Ok (mkResolved (rv_subjects out) (rv_problems out ++ [PUnbound uid names roles])
           adversary_names)
  end.

Fixpoint resolve_loop (out : Resolved) (l : list (Z * list Listed))
  : result Resolved (fault RoleRuleError) :=
  match l with
  | [] => Ok out
  | s :: l' => let? out := resolve_one out s in resolve_loop out l'
  end.

Definition resolve_subjects (bindings : Bindings) (lookup : UidMap)
  : result Resolved (fault RoleRuleError) :=
  let? roles := map_err Refused (checked_roles bindings) in
  let '(by_uid, unresolved) := subjects_by_uid (lookup_uid lookup) roles in
  let? problems := try_map unresolved_problem unresolved in
  resolve_loop (mkResolved [] problems ∅) (btree_iter by_uid).

(** ** The graph's bindings *)

Record GraphBindings := mkGraphBindings { gb_graph : Graph; gb_explicit : bool }.

Definition graph_bindings_new (g : Graph) (source : string) : GraphBindings :=
  mkGraphBindings g (is_some (g_lookup g SECTION (bindings_section_key source))).

(** The role of the first [BINDS] edge's target. *)
Definition bound_role (g : Graph) (id : Z) : option Role :=
  e ← head (out_edges g id BINDS); r ← g_node g (e_to e); role_from_key (n_key r).

(** [GraphBindings::role_for]: containment outranks any binding. *)
Definition graph_role_for (gb : GraphBindings) (uid principal_uid : Z) : Resolution :=
  if negb (gb_explicit gb) then
    if Z.eqb uid principal_uid then RRole Admin else NoRole
  else
    match g_lookup (gb_graph gb) SUBJECT (subject_key uid) with
    | None => NoRole
    | Some subject =>
        if is_contained (gb_graph gb) (n_id subject) then RRole Adversary
        else match bound_role (gb_graph gb) (n_id subject) with
             | Some r => RRole r
             | None => NoRole
             end
    end.

(** [Roles::role_for], which the decision core calls. *)
#[export] Instance graph_roles : RoleSource GraphBindings := graph_role_for.

Definition listed_role (g : Graph) (s : NodeRecord) : option string :=
  if is_contained g (n_id s) then Some ADVERSARY else role_key <$> bound_role g (n_id s).

Definition members_by_role (g : Graph) : gmap string (list string) :=
  fold_left (fun out s =>
      match listed_role g s with
      | Some role => <[role := default [] (out !! role) ++ [n_key s]]> out
      | None => out
      end) (of_kind g SUBJECT) ∅.

Definition as_subject_bindings (gb : GraphBindings) : option (list SubjectBinding) :=
  if negb (gb_explicit gb) then None
  else Some (map (fun '(role, members) => mkBinding role (sort_by_key (fun k => k) members))
               (btree_iter (members_by_role (gb_graph gb)))).

Inductive SubjectState :=
| SBound (role : string)
| SContained
| SCarriedForward
| SUnbound (roles : list string)
| SUnresolved (role : string).

Record ListedSubject := mkListed {
  ls_uid : option Z;
  ls_names : list string;
  ls_state : SubjectState }.

Definition carried_for (uid : Z) (p : IdentityProblem) : bool :=
  match p with PCarriedForward u _ _ => Z.eqb u uid | _ => false end.

Definition add_names (names more : list string) : list string :=
  fold_left (fun names n => if existsb (String.eqb n) names then names else names ++ [n])
    more names.

(** One subject node's row, when it has a uid and a state. *)
Definition listed_node (g : Graph) (problems : list IdentityProblem) (s : NodeRecord)
  : option ListedSubject :=
  let! uid := (match n_attrs s !! ATTR_UID with Some (GU64 u) => try_u32 u | _ => None end) in
  let name := match n_attrs s !! ATTR_NAME with
              | Some (GStr n) => if String.eqb n (subject_key uid) then [] else [n]
              | _ => []
              end in
  let claimed := sort_by_key (fun k => k) (claim_names s) in
  match List.filter (carried_for uid) problems with
  | (_ :: _) as carried =>
      Some (mkListed (Some uid) (add_names claimed (concat (map problem_names carried)))
              SCarriedForward)
  | [] =>
      if is_contained g (n_id s) then Some (mkListed (Some uid) claimed SContained)
      else let! role := bound_role g (n_id s) in
           Some (mkListed (Some uid) name (SBound (role_key role)))
  end.

Definition listed_problem (p : IdentityProblem) : option ListedSubject :=
  match p with
  | PUnresolved role name => Some (mkListed None [name] (SUnresolved role))
  | PUnresolvedAdversary name => Some (mkListed None [name] (SUnresolved ADVERSARY))
  | PUnbound uid names roles => Some (mkListed (Some uid) names (SUnbound roles))
  | PContained _ _ _ | PCarriedForward _ _ _ | PReleased _ _ _ | PPrincipalAdmin _ => None
  end.

(** Every subject the load named, bound or not. *)
Definition entries (gb : GraphBindings) (problems : list IdentityProblem)
  : option (list ListedSubject) :=
  if negb (gb_explicit gb) then None
  else
    let out := omap (listed_node (gb_graph gb) problems) (of_kind (gb_graph gb) SUBJECT)
               ++ omap listed_problem problems in
    Some (sort_by_key (fun l => (is_none (ls_uid l), (ls_uid l, ls_names l))) out).

(** ** Lemmas: the rules *)

Lemma position_lookup {A} (f : A -> bool) l i :
  position f l = Some i -> exists x, l !! i = Some x /\ f x = true.
Proof.
  revert i. induction l as [|x l IH]; intros i H; [done|]. simpl in H.
  destruct (f x) eqn:E; [injection H as <-; by exists x|].
  destruct (position f l) as [j|]; [|done]. injection H as <-. by apply IH.
Qed.

Lemma position_total {A} (f : A -> bool) l x :
  x ∈ l -> f x = true -> exists i, position f l = Some i.
Proof.
  intros Hx Hf. induction l as [|y l IH]; [by apply elem_of_nil in Hx|]. simpl.
  apply elem_of_cons in Hx as [<-|Hx]; [rewrite Hf; by exists 0|].
  destruct (f y); [by exists 0|]. destruct (IH Hx) as [i ->]. by exists (S i).
Qed.

Lemma role_position key idx :
  position (String.eqb key) BINDING_ROLES = Some idx -> BINDING_ROLES !! idx = Some key.
Proof. by intros (k & Hk & ->%String.eqb_eq)%position_lookup. Qed.

Lemma check_entries_iff key idx seen l :
  check_entries key idx seen l = Ok tt <->
  NoDup (render <$> l) /\ (forall e, e ∈ l -> render e ∉ seen) /\
  (idx <> adversary_idx -> forall e, e ∈ l -> is_uid e = false).
Proof.
  revert seen. induction l as [|e l IH]; intros seen; simpl.
  { split; [intros _|done]. split_and!; [constructor|..]; set_solver. }
  rewrite NoDup_cons, list_elem_of_fmap. setoid_rewrite elem_of_cons.
  assert ((forall x, x ∈ l -> render x ∉ {[render e]} ∪ seen) <->
    (forall x, x ∈ l -> render x ∉ seen) /\ ~ exists y, render e = render y /\ y ∈ l) as Hsplit
    by set_solver.
  case_bool_decide as Hd; [naive_solver|].
  destruct (is_uid e && negb (idx =? adversary_idx)) eqn:Eu.
  - apply andb_true_iff in Eu as [Eu Hi%negb_true_iff%Nat.eqb_neq].
    split; [done|]. intros (_ & _ & H). by rewrite (H Hi e (or_introl eq_refl)) in Eu.
  - rewrite IH, Hsplit. apply andb_false_iff in Eu as [Eu|Hi%negb_false_iff%Nat.eqb_eq];
      naive_solver.
Qed.

(** What [checked_roles] demands of one role's list. *)
Definition role_rules (key : string) (l : list BindingEntry) : Prop :=
  key ∈ BINDING_ROLES /\ NoDup (render <$> l) /\ (forall u, EUid u ∈ l -> key = "adversary").

Lemma adversary_position key idx :
  BINDING_ROLES !! idx = Some key -> idx = adversary_idx <-> key = "adversary".
Proof.
  do 4 (destruct idx as [|idx]; [simpl; intros [= <-]; by unfold adversary_idx|]).
  simpl. by rewrite lookup_nil.
Qed.

Lemma check_entries_rules key idx l :
  position (String.eqb key) BINDING_ROLES = Some idx ->
  check_entries key idx ∅ l = Ok tt <-> role_rules key l.
Proof.
  intros Hp%role_position. pose proof (adversary_position _ _ Hp) as Ha.
  rewrite check_entries_iff. unfold role_rules. split.
  - intros (Hn & _ & Hu). split; [by eapply list_elem_of_lookup_2|]. split; [done|].
    intros u Hin. destruct (decide (idx = adversary_idx)) as [?|Hne]; [tauto|].
    by specialize (Hu Hne _ Hin).
  - intros (_ & Hn & Hu). split; [done|]. split; [set_solver|].
    intros Hne [n|u] Hin; [done|]. destruct Hne. apply Ha. by eapply Hu.
Qed.

Definition role_row (kv : string * list BindingEntry) (io : nat * list BindingEntry) : Prop :=
  BINDING_ROLES !! fst io = Some (fst kv) /\ snd io = snd kv.

Lemma checked_loop_rows l out : checked_loop l = Ok out -> Forall2 role_row l out.
Proof.
  revert out. induction l as [|[key es] l IH]; intros out H; cbn [checked_loop] in H.
  { injection H as <-. constructor. }
  destruct (position _ _) as [idx|] eqn:Ep; [|done]. simpl in H. unbind H. injection H as <-.
  constructor; [|by apply IH]. split; [by apply role_position|done].
Qed.

Lemma checked_loop_iff l :
  (exists out, checked_loop l = Ok out) <-> Forall (fun '(k, es) => role_rules k es) l.
Proof.
  induction l as [|[key es] l IH]; cbn [checked_loop]; [split; eauto|]. rewrite Forall_cons, <-IH.
  destruct (position _ _) as [idx|] eqn:Ep; cbn [ok_or].
  - rewrite <-(check_entries_rules _ _ es Ep). destruct (check_entries _ _ _ es) as [[]|]; [|naive_solver].
    destruct (checked_loop l) as [out|]; naive_solver.
  - split; [naive_solver|]. intros [[Hk _] _].
    destruct (position_total (String.eqb key) _ _ Hk) as [i Hi]; [apply String.eqb_refl|congruence].
Qed.

(** ** Lemmas: subjects by uid *)

(** Every listed entry, in the order the loops meet them. *)
Definition flat (roles : list (nat * list BindingEntry)) : list Listed :=
  concat (map (fun '(idx, es) => map (pair idx) es) roles).

Definition of_uid (uid_of : BindingEntry -> option Z) (u : option Z) (l : Listed) : bool :=
  bool_decide (uid_of (snd l) = u).

Lemma flat_elem roles idx e : (idx, e) ∈ flat roles <-> exists es, (idx, es) ∈ roles /\ e ∈ es.
Proof.
  unfold flat. rewrite elem_of_concat_map. split.
  - intros ([i es] & Hin & He). apply elem_of_map in He as (e' & He & Heq). simplify_eq. eauto.
  - intros (es & Hin & He). exists (idx, es). split; [done|]. by apply elem_of_map_2.
Qed.

Section ByUidLemmas.
Context (uid_of : BindingEntry -> option Z).

(** [l] is what [st] has met. *)
Record met (l : list Listed) (st : HeldBy * list Listed) : Prop := {
  met_held : forall u, default [] (fst st !! u) = List.filter (of_uid uid_of (Some u)) l;
  met_some : forall u, fst st !! u <> Some [];
  met_none : snd st = List.filter (of_uid uid_of None) l }.

Lemma met_one l st idx e : met l st -> met (l ++ [(idx, e)]) (hold_one uid_of idx st e).
Proof.
  intros [Hh Hs Hn]. unfold hold_one. destruct (uid_of e) as [v|] eqn:Ev; constructor; simpl.
  - intros u. rewrite List.filter_app, <-Hh. simpl. unfold of_uid at 1. simpl. rewrite Ev.
    destruct (decide (v = u)) as [->|Hne].
    + rewrite lookup_insert_eq, bool_decide_true by done. done.
    + rewrite lookup_insert_ne, bool_decide_false by congruence. by rewrite app_nil_r.
  - intros u. rewrite lookup_insert_Some. intros [[_ H]|[_ H]]; [|by eapply Hs].
    by destruct (default [] _).
  - rewrite List.filter_app, <-Hn. simpl. unfold of_uid. simpl. rewrite Ev.
    rewrite bool_decide_false by done. by rewrite app_nil_r.
  - intros u. rewrite List.filter_app, <-Hh. simpl. unfold of_uid at 1. simpl. rewrite Ev.
    rewrite bool_decide_false by done. by rewrite app_nil_r.
  - done.
  - rewrite List.filter_app, <-Hn. simpl. unfold of_uid. simpl. rewrite Ev.
    by rewrite bool_decide_true by done.
Qed.

Lemma met_many idx es : forall l st,
  met l st -> met (l ++ map (pair idx) es) (fold_left (hold_one uid_of idx) es st).
Proof.
  induction es as [|e es IH]; intros l st Hm; simpl; [by rewrite app_nil_r|].
  change ((idx, e) :: ?x) with ([(idx, e)] ++ x). rewrite app_assoc. by apply IH, met_one.
Qed.

Lemma subjects_by_uid_met roles : met (flat roles) (subjects_by_uid uid_of roles).
Proof.
  assert (forall l st, met l st -> met (l ++ flat roles)
    (fold_left (fun st '(idx, entries) => fold_left (hold_one uid_of idx) entries st) roles st))
    as Hgen.
  { unfold flat. induction roles as [|[idx es] roles IH]; intros l st Hm; simpl.
    - by rewrite app_nil_r.
    - rewrite app_assoc. by apply IH, met_many. }
  apply (Hgen []). by constructor.
Qed.

Lemma held_iff roles u l :
  fst (subjects_by_uid uid_of roles) !! u = Some l <->
  l = List.filter (of_uid uid_of (Some u)) (flat roles) /\ l <> [].
Proof.
  destruct (subjects_by_uid_met roles) as [Hh Hs _]. specialize (Hh u). specialize (Hs u).
  destruct (fst _ !! u) as [l'|]; simpl in Hh.
  - split; [intros [= <-]; split; [done|congruence]|intros [-> _]; congruence].
  - split; [done|]. intros [-> Hne]. by destruct Hne.
Qed.
End ByUidLemmas.

(** ** Lemmas: resolution *)

(** The subject and the problem one uid's entries come to. *)
Definition held_of (entries : list Listed) : list (Role * string) :=
  omap (fun '(idx, e) => (fun r => (r, render e)) <$> ROLE_ORDER !! idx) entries.

Definition subject_of (s : Z * list Listed) : option (Z * Role * string) :=
  let held := held_of (snd s) in
  match effective (map fst (snd s)) with
  | Some EContained =>
      (fun h => (fst s, Adversary, snd h)) <$> List.find (fun h => role_eqb (fst h) Adversary) held
  | Some (EBound _) => (fun h => (fst s, fst h, snd h)) <$> head held
  | _ => None
  end.

Definition in_order (l : Listed) : Prop := fst l < 4.

Lemma held_of_map entries : Forall in_order entries ->
  try_map held_one entries = Ok (held_of entries) /\
  Forall2 (fun l h => ROLE_ORDER !! fst l = Some (fst h) /\ snd h = render (snd l))
    entries (held_of entries).
Proof.
  induction 1 as [|[idx e] entries Hi Hes [IH1 IH2]]; [by split; constructor|].
  unfold held_of in *. cbn [omap list_omap try_map]. unfold held_one at 1, role_at. simpl fst.
  destruct (lookup_lt_is_Some_2 ROLE_ORDER idx Hi) as [r Hr]. rewrite Hr. simpl.
  rewrite IH1. simpl. split; [done|]. constructor; [done|exact IH2].
Qed.

Lemma role_order_adversary idx r :
  ROLE_ORDER !! idx = Some r -> role_eqb r Adversary = (adversary_idx =? idx).
Proof.
  do 4 (destruct idx as [|idx]; [simpl; by intros [= <-]|]). simpl. by rewrite lookup_nil.
Qed.

(** The first adversary entry of a contained uid. *)
Lemma contained_found entries held :
  Forall2 (fun l h => ROLE_ORDER !! fst l = Some (fst h) /\ snd h = render (snd l)) entries held ->
  existsb (Nat.eqb adversary_idx) (map fst entries) =
  is_some (List.find (fun h => role_eqb (fst h) Adversary) held).
Proof.
  induction 1 as [|[idx e] [r n] entries held [Hr _] _ IH]; [done|].
  cbn [map existsb List.find fst] in *. rewrite (role_order_adversary _ _ Hr), IH.
  cbn [fst]. by destruct (adversary_idx =? idx).
Qed.

Lemma resolve_one_spec out uid entries :
  Forall in_order entries ->
  exists problems claims, resolve_one out (uid, entries) =
    Ok (mkResolved (rv_subjects out ++ option_list (subject_of (uid, entries)))
         (rv_problems out ++ problems) claims) /\
    (forall u, (exists names roles, PUnbound u names roles ∈ problems) <->
       u = uid /\ subject_of (uid, entries) = None).
Proof.
  intros Hin. destruct (held_of_map entries Hin) as [Hh Hall].
  unfold resolve_one, subject_of. rewrite Hh. cbn [fst snd].
  pose proof (contained_found _ _ Hall) as Hc.
  unfold effective. destruct entries as [|[idx e] entries]; simpl head.
  { exists [PUnbound uid [] []]. eexists. rewrite app_nil_r. split; [done|].
    intros u. split; [intros (? & ? & Hp); set_solver|]. intros [-> _]. exists [], []. left. }
  rewrite Hc. change (head (map fst ((idx, e) :: entries))) with (Some idx). cbn beta iota.
  clear Hh Hc. destruct (held_of ((idx, e) :: entries)) as [|[r n] held] eqn:Eh; [inversion Hall|].
  destruct (List.find _ _) as [[r' first]|] eqn:Ef; simpl is_some; cbn iota.
  - destruct (1 <? _); [eexists [_], _|exists []; eexists; rewrite app_nil_r];
      (split; [done|]); intros u; split; try (by intros [_ ?]); intros (? & ? & Hp); set_solver.
  - destruct (forallb _ _) eqn:Ea; cbn iota.
    + exists []. eexists. rewrite app_nil_r. split; [done|]. intros u. split; [|by intros [_ ?]].
      intros (? & ? & Hp). set_solver.
    + eexists [PUnbound uid _ _], _. rewrite app_nil_r. split; [done|]. intros u.
      split; [intros (? & ? & Hp); set_solver|]. intros [-> _]. eexists _, _. left.
Qed.

Lemma resolve_loop_spec l : forall out,
  Forall (fun s => Forall in_order (snd s)) l ->
  exists r, resolve_loop out l = Ok r /\ rv_subjects r = rv_subjects out ++ omap subject_of l /\
    (forall u, (exists names roles, PUnbound u names roles ∈ rv_problems r) <->
       (exists names roles, PUnbound u names roles ∈ rv_problems out) \/
       exists es, (u, es) ∈ l /\ subject_of (u, es) = None).
Proof.
  induction l as [|[uid es] l IH]; intros out Hl.
  { exists out. simpl. rewrite app_nil_r. split_and!; [done..|]. intros u.
    split; [auto|]. intros [?|(es & Hes & _)]; [done|]. by apply elem_of_nil in Hes. }
  apply Forall_cons in Hl as [Hes Hl]. cbn [resolve_loop].
  destruct (resolve_one_spec out uid es Hes) as (ps & cl & -> & Hps).
  destruct (IH (mkResolved (rv_subjects out ++ option_list (subject_of (uid, es)))
                  (rv_problems out ++ ps) cl) Hl) as (r & Hr & Hsub & Hp).
  exists r. split; [exact Hr|]. split.
  - rewrite Hsub. cbn [rv_subjects omap list_omap]. rewrite <-app_assoc. f_equal.
    by destruct (subject_of (uid, es)).
  - intros u. rewrite Hp. cbn [rv_problems]. setoid_rewrite elem_of_app.
    setoid_rewrite elem_of_cons. specialize (Hps u). split.
    + intros [(n & ro & [Hin|Hin])|(es' & Hin & Hn)]; [left; eauto| |eauto 10].
      destruct (proj1 Hps) as [-> Hn]; [eauto|]. right. eauto.
    + intros [(n & ro & Hin)|(es' & [[= -> ->]|Hin] & Hn)]; [left; eauto| |eauto].
      destruct (proj2 Hps (conj eq_refl Hn)) as (n & ro & Hin). left. eauto.
Qed.

Lemma role_order_inj i j r : ROLE_ORDER !! i = Some r -> ROLE_ORDER !! j = Some r -> i = j.
Proof.
  intros Hi Hj. apply (NoDup_lookup ROLE_ORDER _ _ r); [|done..].
  apply (bool_decide_unpack (NoDup ROLE_ORDER)). by vm_compute.
Qed.

(** What the entries of one uid bind it to. *)
Lemma subject_of_role uid entries r :
  entries <> [] -> Forall in_order entries ->
  (exists n, subject_of (uid, entries) = Some (uid, r, n)) <->
  if decide (r = Adversary) then exists e, (adversary_idx, e) ∈ entries
  else forall i e, (i, e) ∈ entries -> ROLE_ORDER !! i = Some r.
Proof.
  intros Hne Hin. destruct (held_of_map entries Hin) as [_ Hall].
  pose proof (contained_found _ _ Hall) as Hc. unfold subject_of. cbn [fst snd].
  destruct entries as [|[i0 e0] entries]; [done|]. clear Hne Hin.
  destruct (held_of ((i0, e0) :: entries)) as [|[r0 n0] held] eqn:Eh; [inversion Hall|].
  apply Forall2_cons_1 in Hall as [[Hr0 _] _]. cbn [fst] in Hr0.
  unfold effective. change (head (map fst ((i0, e0) :: entries))) with (Some i0). cbn iota.
  rewrite Hc. destruct (List.find _ _) as [[r' first]|] eqn:Ef; cbn [is_some] in *; cbn iota.
  - apply existsb_true in Hc as (i & ([j e] & -> & Hie)%elem_of_map & Hi%Nat.eqb_eq).
    cbn [fst] in Hi. subst j. destruct (decide _) as [->|Hr].
    + split; [intros _; eauto|]. intros _. by exists first.
    + split; [intros [n Hn]; simpl in Hn; congruence|]. intros H. specialize (H _ _ Hie). by injection H as <-.
  - assert (forall e, (adversary_idx, e) ∉ (i0, e0) :: entries) as Hno.
    { intros e He. apply (elem_of_map_2 fst) in He. cbn [fst] in He.
      rewrite existsb_false in Hc. specialize (Hc _ He). by rewrite Nat.eqb_refl in Hc. }
    destruct (forallb _ _) eqn:Ea; cbn iota.
    + rewrite forallb_true in Ea.
      assert (forall i e, (i, e) ∈ (i0, e0) :: entries -> i = i0) as Hsame.
      { intros i e He. symmetry. apply Nat.eqb_eq, Ea. by apply (elem_of_map_2 fst) in He. }
      destruct (decide _) as [->|Hr].
      * split; [|intros [e He]; by destruct (Hno e)]. intros [n [= -> _]].
        destruct (Hno e0). rewrite (role_order_inj i0 adversary_idx Adversary); [left|done..].
      * split; [intros [n [= <- _]] i e ->%Hsame; done|]. intros H.
        exists n0. assert (ROLE_ORDER !! i0 = Some r) as E by (eapply H; left). simpl. congruence.
    + split; [by intros [n ?]|]. destruct (decide _) as [->|Hr]; [intros [e He]; by destruct (Hno e)|].
      intros H. exfalso. apply not_true_iff_false in Ea. apply Ea, forallb_true.
      intros i ([i' e] & -> & Hie)%elem_of_map. apply Nat.eqb_eq. cbn [fst].
      eapply role_order_inj; [eapply H; left|by eapply H].
Qed.

(** [bindings.yaml] lists [e] under [role]. *)
Definition listed_under (b : Bindings) (role : Role) (e : BindingEntry) : Prop :=
  exists m l, bi_roles b = Some m /\ m !! role_key role = Some l /\ e ∈ l.

(** What the file makes of a uid: containment wins, and any other role needs
    every entry that resolves to the uid to agree. *)
Definition bound_to (b : Bindings) (lookup : UidMap) (u : Z) (role : Role) : Prop :=
  if decide (role = Adversary)
  then exists e, listed_under b Adversary e /\ lookup_uid lookup e = Some u
  else (exists e, listed_under b role e /\ lookup_uid lookup e = Some u) /\
       forall role' e, listed_under b role' e -> lookup_uid lookup e = Some u -> role' = role.

Lemma role_row_iff i role key :
  BINDING_ROLES !! i = Some key -> ROLE_ORDER !! i = Some role -> role_key role = key.
Proof.
  do 4 (destruct i as [|i]; [simpl; by intros [= <-] [= <-]|]). simpl. by rewrite lookup_nil.
Qed.

Lemma role_order_total role : exists i, ROLE_ORDER !! i = Some role /\ BINDING_ROLES !! i = Some (role_key role).
Proof. destruct role; [by exists 0|by exists 1|by exists 2|by exists 3]. Qed.

Lemma Forall2_elem_l {A B} (P : A -> B -> Prop) l k x :
  Forall2 P l k -> x ∈ l -> exists y, y ∈ k /\ P x y.
Proof.
  intros HF [i Hi]%list_elem_of_lookup. destruct (Forall2_lookup_l _ _ _ _ _ HF Hi) as (y & Hy & HP).
  exists y. split; [by eapply list_elem_of_lookup_2|done].
Qed.

Lemma Forall2_elem_r {A B} (P : A -> B -> Prop) l k y :
  Forall2 P l k -> y ∈ k -> exists x, x ∈ l /\ P x y.
Proof.
  intros HF [i Hi]%list_elem_of_lookup. destruct (Forall2_lookup_r _ _ _ _ _ HF Hi) as (x & Hx & HP).
  exists x. split; [by eapply list_elem_of_lookup_2|done].
Qed.

Lemma flat_listed b roles i e :
  checked_roles b = Ok roles ->
  (i, e) ∈ flat roles <-> exists role, ROLE_ORDER !! i = Some role /\ listed_under b role e.
Proof.
  unfold checked_roles, listed_under. rewrite flat_elem. destruct (bi_roles b) as [m|].
  - intros H%checked_loop_rows. split.
    + intros (es & [[k l] [Hkl [Hk Hl]]]%(Forall2_elem_r _ _ _ _ H) & He). simpl in *. subst es.
      destruct (lookup_lt_is_Some_2 ROLE_ORDER i) as [role Hrole].
      { by apply lookup_lt_Some in Hk. }
      exists role. split; [done|]. exists m, l. rewrite (role_row_iff i role k) by done.
      by apply btree_iter_elem in Hkl.
    + intros (role & Hi & m' & l & [= <-] & Hl & He). apply btree_iter_elem in Hl.
      destruct (Forall2_elem_l _ _ _ _ H Hl) as ([j es] & Hin & Hj & Hes). simpl in *. subst es.
      exists l. split; [|done]. destruct (role_order_total role) as (k & Hk & Hk').
      by rewrite (role_order_inj _ _ _ Hi Hk), <-(NoDup_lookup BINDING_ROLES j k (role_key role))
        by (done || apply (bool_decide_unpack (NoDup BINDING_ROLES)); by vm_compute).
  - intros [= <-]. split; [intros (es & Hes & _); by apply elem_of_nil in Hes|naive_solver].
Qed.

Lemma flat_in_order b roles l : checked_roles b = Ok roles -> l ∈ flat roles -> in_order l.
Proof.
  destruct l as [i e]. intros H (role & Hi & _)%(flat_listed _ _ _ _ H).
  by apply lookup_lt_Some in Hi.
Qed.

Lemma unresolved_total l : Forall in_order l ->
  exists ps, try_map unresolved_problem l = Ok ps /\
    forall u names roles, PUnbound u names roles ∉ ps.
Proof.
  induction 1 as [|[i e] l Hi Hl (ps & IH & Hps)]; [exists []; split; [done|set_solver]|].
  cbn [try_map]. unfold unresolved_problem at 1, role_at.
  destruct (lookup_lt_is_Some_2 ROLE_ORDER i Hi) as [r ->]. cbn [ok_or]. rewrite IH.
  eexists (_ :: ps). split; [done|]. intros u names roles [Hp|?]%elem_of_cons; [by destruct r|set_solver].
Qed.

Lemma resolve_subjects_inv b lookup roles :
  checked_roles b = Ok roles ->
  let by_uid := fst (subjects_by_uid (lookup_uid lookup) roles) in
  exists r, resolve_subjects b lookup = Ok r /\
    rv_subjects r = omap subject_of (btree_iter by_uid) /\
    (forall u, (exists names roles, PUnbound u names roles ∈ rv_problems r) <->
       exists es, by_uid !! u = Some es /\ subject_of (u, es) = None).
Proof.
  intros Hc. simpl. unfold resolve_subjects. rewrite Hc. cbn [map_err].
  pose proof (subjects_by_uid_met (lookup_uid lookup) roles) as Hmet.
  pose proof (fun u l => held_iff (lookup_uid lookup) roles u l) as Hheld.
  destruct (subjects_by_uid _ roles) as [by_uid unresolved]. cbn [fst snd] in *.
  destruct (unresolved_total unresolved) as (ps & -> & Hps).
  { pose proof (met_none _ _ _ Hmet) as Hn. cbn [snd] in Hn. rewrite Hn, Forall_forall.
    intros l [Hl _]%elem_of_bfilter. by eapply flat_in_order. }
  destruct (resolve_loop_spec (btree_iter by_uid) (mkResolved [] ps ∅)) as (r & Hr & Hs & Hp).
  { rewrite Forall_forall. intros [u es] [-> _]%btree_iter_elem%Hheld. rewrite Forall_forall.
    intros l [Hl _]%elem_of_bfilter. by eapply flat_in_order. }
  exists r. split; [exact Hr|]. split; [exact Hs|]. intros u. rewrite Hp. cbn [rv_problems]. split.
  - intros [(n & ro & Hin)|(es & Hes%btree_iter_elem & Hn)]; [by destruct (Hps u n ro)|eauto].
  - intros (es & Hes%btree_iter_elem & Hn). eauto.
Qed.

Lemma held_entries b lookup roles u es :
  checked_roles b = Ok roles ->
  fst (subjects_by_uid (lookup_uid lookup) roles) !! u = Some es ->
  es <> [] /\ Forall in_order es /\
  forall i e, (i, e) ∈ es <-> lookup_uid lookup e = Some u /\
    exists role, ROLE_ORDER !! i = Some role /\ listed_under b role e.
Proof.
  intros Hc [-> Hne]%held_iff. split; [done|].
  assert (forall i e, (i, e) ∈ List.filter (of_uid (lookup_uid lookup) (Some u)) (flat roles) <->
    lookup_uid lookup e = Some u /\
    exists role, ROLE_ORDER !! i = Some role /\ listed_under b role e) as Hin.
  { intros i e. rewrite elem_of_bfilter, (flat_listed _ _ _ _ Hc). unfold of_uid. cbn [snd].
    rewrite bool_decide_eq_true. tauto. }
  split; [|done]. rewrite Forall_forall. intros [i e] (_ & role & Hi & _)%Hin.
  by apply lookup_lt_Some in Hi.
Qed.

Lemma held_exists b lookup roles u role e :
  checked_roles b = Ok roles -> listed_under b role e -> lookup_uid lookup e = Some u ->
  is_Some (fst (subjects_by_uid (lookup_uid lookup) roles) !! u).
Proof.
  intros Hc Hl Hu. destruct (role_order_total role) as (i & Hi & _).
  exists (List.filter (of_uid (lookup_uid lookup) (Some u)) (flat roles)).
  apply held_iff. split; [done|]. intros Hnil.
  assert ((i, e) ∈ []) as []%elem_of_nil. rewrite <-Hnil, elem_of_bfilter. split.
  - apply (flat_listed _ _ _ _ Hc). eauto.
  - by apply bool_decide_eq_true.
Qed.

(** One uid's entries bind it as the file says. *)
Lemma subject_of_bound b lookup roles u es role :
  checked_roles b = Ok roles ->
  fst (subjects_by_uid (lookup_uid lookup) roles) !! u = Some es ->
  (exists n, subject_of (u, es) = Some (u, role, n)) <-> bound_to b lookup u role.
Proof.
  intros Hc Hes. destruct (held_entries _ _ _ _ _ Hc Hes) as (Hne & Hord & Hin).
  rewrite (subject_of_role u es role Hne Hord). unfold bound_to.
  destruct (decide (role = Adversary)) as [->|Hr].
  - setoid_rewrite Hin. split.
    + intros (e & He & r & Hr & Hl). injection Hr as <-. eauto.
    + intros (e & Hl & He). exists e. split; [done|]. by exists Adversary.
  - split.
    + intros H. destruct es as [|[i e] es]; [done|]. split.
      * exists e. destruct (proj1 (Hin i e)) as (He & r & Hi & Hl); [left|].
        assert (ROLE_ORDER !! i = Some role) as Hi' by (eapply H; left).
        split; [congruence|done].
      * intros role' e' Hl He. destruct (role_order_total role') as (j & Hj & _).
        assert (ROLE_ORDER !! j = Some role) as Hj' by (apply (H j e'), Hin; eauto). congruence.
    + intros [_ H] i e (He & r & Hi & Hl)%Hin. by rewrite <-(H r e Hl He).
Qed.

Lemma subject_of_uid u es u' r n : subject_of (u, es) = Some (u', r, n) -> u' = u.
Proof.
  unfold subject_of. destruct (effective _) as [[]|]; try done; cbn [fst snd].
  - destruct (head _) as [h|]; [|done]. by intros [= <- _ _].
  - destruct (List.find _ _) as [h|]; [|done]. by intros [= <- _ _].
Qed.

Lemma omap_uids (l : list (Z * list Listed)) :
  NoDup l.*1 -> NoDup (map (fun s => fst (fst s)) (omap subject_of l)).
Proof.
  assert (forall l x, x ∈ map (fun s => fst (fst s)) (omap subject_of l) -> x ∈ l.*1) as Hsub.
  { clear l. intros l x ([[u r] n] & -> & ([v es] & Hin & Hs)%list_elem_of_omap)%elem_of_map.
    apply subject_of_uid in Hs as ->. apply list_elem_of_fmap. by exists (v, es). }
  induction l as [|[u es] l IH]; [done|]. rewrite fmap_cons, NoDup_cons. intros [Hn Hl].
  cbn [omap list_omap]. destruct (subject_of (u, es)) as [[[v r] n]|] eqn:E; [|by apply IH].
  apply subject_of_uid in E as ->. cbn [map fst]. apply NoDup_cons. split; [|by apply IH].
  by intros ?%Hsub.
Qed.

Lemma resolve_subjects_spec b lookup r :
  resolve_subjects b lookup = Ok r ->
  NoDup (map (fun s => fst (fst s)) (rv_subjects r)) /\
  (forall u role, (exists n, (u, role, n) ∈ rv_subjects r) <-> bound_to b lookup u role) /\
  (forall u, (exists names roles, PUnbound u names roles ∈ rv_problems r) <->
     (exists role e, listed_under b role e /\ lookup_uid lookup e = Some u) /\
     forall role, ~ bound_to b lookup u role).
Proof.
  intros H. destruct (checked_roles b) as [roles|] eqn:Hc.
  2: { unfold resolve_subjects in H. by rewrite Hc in H. }
  destruct (resolve_subjects_inv b lookup roles Hc) as (r' & Hr & Hs & Hp).
  rewrite H in Hr. injection Hr as <-. split_and!.
  - rewrite Hs. apply omap_uids, btree_iter_NoDup.
  - intros u role. rewrite Hs. setoid_rewrite list_elem_of_omap. split.
    + intros (n & [v es] & Hes%btree_iter_elem & Hn). pose proof Hn as ->%subject_of_uid.
      apply (subject_of_bound _ _ _ _ es role Hc Hes). eauto.
    + intros Hb. assert (exists role e, listed_under b role e /\ lookup_uid lookup e = Some u)
        as (r0 & e & Hl & He) by (unfold bound_to in Hb; destruct (decide _); naive_solver).
      destruct (held_exists _ _ _ _ _ _ Hc Hl He) as [es Hes].
      apply (subject_of_bound _ _ _ _ es role Hc Hes) in Hb as [n Hn]. exists n, (u, es).
      split; [by apply btree_iter_elem|done].
  - intros u. rewrite Hp. split.
    + intros (es & Hes & Hn). split.
      * destruct (held_entries _ _ _ _ _ Hc Hes) as (Hne & _ & Hin).
        destruct es as [|[i e] es]; [done|]. destruct (proj1 (Hin i e)) as (He & ro & _ & Hl); [left|].
        eauto.
      * intros role Hb. apply (subject_of_bound _ _ _ _ es role Hc Hes) in Hb as [n ?]. congruence.
    + intros [(role & e & Hl & He) Hb]. destruct (held_exists _ _ _ _ _ _ Hc Hl He) as [es Hes].
      exists es. split; [done|]. destruct (subject_of (u, es)) as [[[v ro] n]|] eqn:E; [|done].
      destruct (Hb ro). apply (subject_of_bound _ _ _ _ es ro Hc Hes). exists n.
      pose proof E as ->%subject_of_uid. done.
Qed.

(** ** The layer's answer *)

(** What an identity layer says a uid's role is: with no [bindings:] key the
    principal is admin; with one, the uid's entry, or nothing. *)
Definition layer_role (layer : IdentityLayer) (uid principal_uid : Z) : Resolution :=
  match l_bindings_sha256 layer with
  | None => if Z.eqb uid principal_uid then RRole Admin else NoRole
  | Some _ =>
      match s ← List.find (fun s => Z.eqb (s_uid s) uid) (l_subjects layer);
            role_from_key (s_role s) with
      | Some r => RRole r
      | None => NoRole
      end
  end.

Lemma bound_role_key g id : bound_role g id = bound_key g id ≫= role_from_key.
Proof.
  unfold bound_role, bound_key. destruct (head _) as [e|]; [|done]. simpl.
  by destruct (g_node g (e_to e)).
Qed.

Lemma resolves_role_for gb s p :
  gb_explicit gb = true -> resolves (gb_graph gb) s ->
  graph_role_for gb (s_uid s) p =
  match role_from_key (s_role s) with Some r => RRole r | None => NoRole end.
Proof.
  intros He [(n & Hn & Hc & Hb)]. unfold graph_role_for. rewrite He, Hn, Hc. simpl.
  destruct (String.eqb_spec (s_role s) ADVERSARY) as [->|Hne]; [done|].
  by rewrite bound_role_key, (Hb Hne).
Qed.

(** ** Theorems *)

(** [checked_roles] accepts exactly the well-formed sections: known roles,
    no entry twice in one list, uid entries under [adversary] only. *)
Theorem checked_roles_iff (b : Bindings) :
  (exists out, checked_roles b = Ok out) <->
  forall m key l, bi_roles b = Some m -> m !! key = Some l -> role_rules key l.
Proof.
  unfold checked_roles. destruct (bi_roles b) as [m|]; [|split; [done|eauto]].
  rewrite checked_loop_iff, Forall_forall. split.
  - intros H m' key l [= <-] Hl%btree_iter_elem. by apply (H (key, l)).
  - intros H [key l] Hl%btree_iter_elem. by apply (H m).
Qed.

(** C33: a file's subjects are resolved as it says: a uid is contained exactly
    when an entry under [adversary] resolves to it; it holds another role exactly
    when every entry that resolves to it is under that role; every other listed
    uid is reported unbound and holds none; each uid is bound at most once; and
    resolution refuses only what the rules refuse. *)
Theorem resolve_subjects_exact (b : Bindings) (lookup : UidMap)
    (Hok : exists out, checked_roles b = Ok out) :
  exists r, resolve_subjects b lookup = Ok r /\
  NoDup (map (fun s => fst (fst s)) (rv_subjects r)) /\
  (forall u role, (exists n, (u, role, n) ∈ rv_subjects r) <-> bound_to b lookup u role) /\
  (forall u, (exists names roles, PUnbound u names roles ∈ rv_problems r) <->
     (exists role e, listed_under b role e /\ lookup_uid lookup e = Some u) /\
     forall role, ~ bound_to b lookup u role).
Proof.
  destruct Hok as [out Hout]. destruct (resolve_subjects_inv b lookup out Hout) as (r & Hr & _).
  exists r. split; [done|]. by apply resolve_subjects_spec.
Qed.

(** the graph implements the identity layer: over the graph built from a
    layer, the role lookup by hops answers what the layer says, for every uid. *)
Theorem graph_role_refines (layer : IdentityLayer) (baseline : option BaselineLayer)
    (sync : option SyncBase) (compiled : CompiledSet) (vocabulary : digest) (revision : Z)
    (initiator : ProvenanceKind) (g : Graph) (uid principal_uid : Z)
    (Hb : build layer baseline sync compiled vocabulary revision initiator = Ok g)
    (Habs : starts_with "/" (l_source layer) = true) (Hu : (0 <= uid)%Z)
    (Hs : Forall (fun s => 0 <= s_uid s)%Z (l_subjects layer)) :
  role_for (graph_bindings_new g (l_source layer)) uid principal_uid =
  layer_role layer uid principal_uid.
Proof.
  pose proof (build_explicit _ _ _ _ _ _ _ _ Hb Habs) as He.
  unfold role_for, graph_roles, layer_role.
  destruct (l_bindings_sha256 layer) as [d|]; cbn [is_some] in He.
  - rewrite Forall_forall in Hs. destruct (List.find _ _) as [s|] eqn:Ef.
    + apply List.find_some in Ef as [Hin%list_elem_of_In <-%Z.eqb_eq]. simpl.
      apply resolves_role_for; [exact He|]. by eapply build_resolves.
    + unfold graph_role_for, graph_bindings_new. cbn [gb_explicit gb_graph]. rewrite He. simpl.
      erewrite build_unlisted; [done|done..|]. intros s Hin. split; [by apply Hs|].
      apply list_elem_of_In in Hin. apply (List.find_none _ _ Ef) in Hin. by apply Z.eqb_neq.
  - unfold graph_role_for, graph_bindings_new. cbn [gb_explicit]. by rewrite He.
Qed.

(** ** Witnesses *)

Definition demo_bindings : Bindings :=
  mkBindings (Some {["admin" := [EName "op"]; "user" := [EName "ursula"; EName "op2"];
                     "adversary" := [EName "mallory"; EUid 1001]]}) None false.
Definition demo_lookup : UidMap :=
  {["op" := 1000%Z; "op2" := 1000%Z; "ursula" := 1001%Z; "mallory" := 1002%Z]}.

Lemma resolve_subjects_exact_witness :
  exists r, resolve_subjects demo_bindings demo_lookup = Ok r /\
  NoDup (map (fun s => fst (fst s)) (rv_subjects r)) /\
  (forall u role, (exists n, (u, role, n) ∈ rv_subjects r) <->
     bound_to demo_bindings demo_lookup u role) /\
  (forall u, (exists names roles, PUnbound u names roles ∈ rv_problems r) <->
     (exists role e, listed_under demo_bindings role e /\ lookup_uid demo_lookup e = Some u) /\
     forall role, ~ bound_to demo_bindings demo_lookup u role).
Proof.
  apply (resolve_subjects_exact demo_bindings demo_lookup).
  eexists. vm_compute. reflexivity.
Defined.

Definition demo_identity : Graph :=
  match build demo_persisted None None demo_compiled demo_digest 7 PSeed with
  | Ok g => g
  | Err _ => demo_graph
  end.

Lemma graph_role_refines_witness :
  role_for (graph_bindings_new demo_identity (l_source demo_persisted)) 1002 1000 =
    layer_role demo_persisted 1002 1000 /\
  layer_role demo_persisted 1002 1000 = RRole Adversary.
Proof.
  split; [|vm_compute; reflexivity].
  apply (graph_role_refines demo_persisted None None demo_compiled demo_digest 7 PSeed
           demo_identity 1002 1000).
  - vm_compute. reflexivity.
  - vm_compute. reflexivity.
  - lia.
  - repeat constructor; simpl; lia.
Defined.
