(* ===== verification/BindingsSync.v ===== *)
(** * Bindings synchronisation: [crates/maknae-config/src/bindings_sync.rs]

    The bindings exist three times: the file root owns, the live section the
    kernel serves, and the base both last agreed on. This file holds the
    three-way merge a reload runs, the live edits, the tests that decide whether
    an unprivileged mirror may be installed over the file, and enrolment. The
    theorems are stated entry by entry on [roles_of], the roles an entry is
    listed under. *)
From stdpp Require Import base list strings gmap sorting.
From Stdlib Require Import ZArith Lia Ascii.
From S2P Require Import Prelude RustStr RustSlice Config Decide Graph Identity Bindings.
Open Scope nat_scope.

(** ** Ordered entries *)

(** The derived order: every name before every uid. *)
Definition entry_cmp (a b : BindingEntry) : comparison :=
  match a, b with
  | EName n, EName n' => cmp n n'
  | EName _, EUid _ => Lt
  | EUid _, EName _ => Gt
  | EUid u, EUid u' => cmp u u'
  end.

#[export] Program Instance Ord_entry : Ord BindingEntry := {| cmp := entry_cmp |}.
Next Obligation. intros [|] [|]; simpl; try done; rewrite cmp_eq; naive_solver. Qed.
Next Obligation. intros [|] [|]; simpl; try done; apply cmp_opp. Qed.
Next Obligation. intros [|] [|] [|]; simpl; try done; apply cmp_trans. Qed.

#[export] Instance BindingEntry_countable : Countable BindingEntry.
Proof.
  refine (inj_countable' (fun e => match e with EName n => inl n | EUid u => inr u end)
            (fun s => match s with inl n => EName n | inr u => EUid u end) _).
  by intros [].
Defined.

Abbreviation EntrySet := (gset BindingEntry).
Abbreviation Roles := (gset string).

(** ** Sections *)

Inductive Section_ :=
| SMissing
| SAbsent
| SPresent (m : gmap string (list BindingEntry)).

#[export] Instance Section_eq_dec : EqDecision Section_.
Proof. solve_decision. Defined.

Definition is_present (s : Section_) : bool :=
  match s with SPresent _ => true | _ => false end.

Definition entry_value (e : BindingEntry) : Value :=
  match e with
  | EName n => VStr n
  | EUid u => VMap [("uid", VInt u)]
  end.

Definition section_of (b : Bindings) : Section_ :=
  if bi_missing b then SMissing
  else match bi_roles b with None => SAbsent | Some m => SPresent m end.

Definition roles_of (s : Section_) (e : BindingEntry) : Roles :=
  match s with
  | SPresent m => list_to_set (map fst (List.filter (fun kv => bool_decide (e ∈ snd kv)) (btree_iter m)))
  | _ => ∅
  end.

(** [if !out.contains(&e) { out.push(e) }]. *)
Definition push_new {A} `{EqDecision A} (out : list A) (x : A) : list A :=
  if bool_decide (x ∈ out) then out else out ++ [x].

Definition section_entries (s : Section_) : list BindingEntry :=
  match s with
  | SPresent m => fold_left push_new (concat (map snd (btree_iter m))) []
  | _ => []
  end.

Section Text.
(** The standard library's text of an [f64]; a section holds none. *)
Context (f64_to_string : Z -> string).

Definition section_canonical (s : Section_) : string :=
  match s with
  | SMissing => "missing"
  | SAbsent => "null"
  | SPresent m =>
      canonical_json f64_to_string
        (VMap (map (fun kv => (fst kv, VSeq (map entry_value (snd kv)))) (btree_iter m)))
  end.

Definition from_section (s : Section_) : Bindings :=
  match s with
  | SMissing => bindings_missing
  | SAbsent => bindings_absent
  | SPresent m => mkBindings (Some m) (Some (section_canonical s)) false
  end.

Definition conflicts_canonical (c : EntrySet) : string :=
  canonical_json f64_to_string (VSeq (map entry_value (btree_set_iter c))).
End Text.

(** ** The merge *)

Inductive SyncKind := Created | Unchanged | Adopted | RootFile | Lost.
Inductive ResolvedBy := RootEdit | BySync | ByLiveEdit.

Inductive MergeEvent :=
| MConflict (e : BindingEntry) (contained : bool)
| MResolved (e : BindingEntry) (by_ : ResolvedBy)
| MLost (missing : bool).

Record Stored := mkStored { st_base : Section_; st_live : Section_; st_conflicts : EntrySet }.

Record Merged := mkMerged {
  mg_base : Section_; mg_live : Section_; mg_conflicts : EntrySet;
  mg_kind : SyncKind; mg_events : list MergeEvent }.

Abbreviation Values := (list (BindingEntry * Roles)).
Abbreviation RoleLists := (gmap string (list BindingEntry)).

(** [values.iter().collect()]: a later value of an entry wins. *)
Definition value_map (values : Values) : gmap BindingEntry Roles :=
  fold_left (fun m '(e, r) => <[e := r]> m) values ∅.

(** The closure [add]: list the entry under the role when its value has it. *)
Definition add_to (value : gmap BindingEntry Roles) (out : RoleLists) (role : string)
    (e : BindingEntry) : RoleLists :=
  match value !! e with
  | Some r => if bool_decide (role ∈ r) then <[role := push_new (default [] (out !! role)) e]> out
              else out
  | None => out
  end.

(** The calls of [add], in order: the file's lists, the live ones, then whatever
    role neither has listed yet. *)
Definition add_calls (file live : RoleLists) (values : Values) : list (string * BindingEntry) :=
  concat (map (fun kv => map (pair (fst kv)) (snd kv)) (btree_iter file ++ btree_iter live))
  ++ concat (map (fun '(e, roles) => map (fun r => (r, e)) (btree_set_iter roles)) values).

Definition merged_section (shape live : Section_) (values : Values) : Section_ :=
  match shape with
  | SPresent file =>
      let live := match live with SPresent m => m | _ => ∅ end in
      SPresent (fold_left (fun out '(role, e) => add_to (value_map values) out role e)
                  (add_calls file live values) ((fun _ => []) <$> file))
  | _ => shape
  end.

(** What the loop over the universe accumulates. *)
Record MergeLoop := mkLoop {
  lp_values : Values; lp_conflicts : EntrySet; lp_events : list MergeEvent;
  lp_root : bool; lp_agreed : bool }.

Definition merge_entry (st : Stored) (file : Section_) (s : MergeLoop) (e : BindingEntry)
  : MergeLoop :=
  let b := roles_of (st_base st) e in
  let l := roles_of (st_live st) e in
  let f := roles_of file e in
  let '(mkLoop values conflicts events root agreed) := s in
  if bool_decide (e ∈ st_conflicts st) then
    if negb (bool_decide (f = b)) || bool_decide (f = l) then
      if bool_decide (f = l)
      then mkLoop (values ++ [(e, f)]) conflicts (events ++ [MResolved e BySync]) root true
      else mkLoop (values ++ [(e, f)]) conflicts (events ++ [MResolved e RootEdit]) true agreed
    else mkLoop (values ++ [(e, l)]) ({[e]} ∪ conflicts) events root agreed
  else if bool_decide (f = b) then mkLoop (values ++ [(e, l)]) conflicts events root agreed
  else if bool_decide (l = b) then mkLoop (values ++ [(e, f)]) conflicts events true agreed
  else if bool_decide (f = l) then mkLoop (values ++ [(e, f)]) conflicts events root true
  else
    let safe : Roles := if bool_decide (ADVERSARY ∈ f) || bool_decide (ADVERSARY ∈ l)
                        then {[ADVERSARY]} else ∅ in
    if bool_decide (safe = f) then mkLoop (values ++ [(e, safe)]) conflicts events true agreed
    else mkLoop (values ++ [(e, safe)]) ({[e]} ∪ conflicts)
           (events ++ [MConflict e (negb (bool_decide (safe = ∅)))]) true agreed.

Definition universe (st : Stored) (file : Section_) : list BindingEntry :=
  fold_left push_new
    (section_entries (st_live st) ++ section_entries (st_base st) ++ btree_set_iter (st_conflicts st))
    (section_entries file).

Definition merge_loop_of (st : Stored) (file : Section_) : MergeLoop :=
  fold_left (merge_entry st file) (universe st file) (mkLoop [] ∅ [] false false).

Definition merge_kind (f64_to_string : Z -> string) (st : Stored) (file : Section_)
    (s : MergeLoop) : SyncKind :=
  let text := section_canonical f64_to_string in
  let text_changed := negb (String.eqb (text file) (text (st_base st))) in
  if lp_root s then RootFile
  else if lp_agreed s || (text_changed && String.eqb (text file) (text (st_live st))) then Adopted
  else if text_changed then RootFile
  else Unchanged.

Definition merge (f64_to_string : Z -> string) (stored : option Stored) (file : Section_) : Merged :=
  match stored with
  | None => mkMerged file file ∅ Created []
  | Some st =>
      if is_present (st_base st) && negb (is_present file) then
        mkMerged (st_base st) (st_live st) (st_conflicts st) Lost
          [MLost (bool_decide (file = SMissing))]
      else
        let s := merge_loop_of st file in
        mkMerged file (merged_section file (st_live st) (lp_values s)) (lp_conflicts s)
          (merge_kind f64_to_string st file s) (lp_events s)
  end.

(** ** Comparisons *)

Definition differs (a b : Section_) (e : BindingEntry) : bool :=
  negb (bool_decide (roles_of a e = roles_of b e)).

(** [seen.insert(e) && differs(..)]: an entry counts once. *)
Definition unsynced (base live : Section_) : nat :=
  snd (fold_left (fun '(seen, n) e =>
         if bool_decide (e ∈ (seen : EntrySet)) then (seen, n)
         else ({[e]} ∪ seen, if differs base live e then S n else n))
       (section_entries base ++ section_entries live) (∅, 0)).

Definition equivalent (a b : Section_) : bool :=
  Bool.eqb (is_present a) (is_present b) &&
  negb (existsb (differs a b) (section_entries a ++ section_entries b)).

Definition loosens (file mirror : Section_) (e : BindingEntry) : bool :=
  let was := roles_of file e in
  let now := roles_of mirror e in
  existsb (fun r => negb (String.eqb r ADVERSARY) && negb (bool_decide (r ∈ was)))
    (btree_set_iter now)
  || (bool_decide (ADVERSARY ∈ was) && negb (bool_decide (ADVERSARY ∈ now))).

Definition loosenings (file mirror : Section_) : list BindingEntry :=
  let keyless := is_present file && negb (is_present mirror) in
  List.filter (fun e => keyless || loosens file mirror e)
    (btree_set_iter (list_to_set (section_entries file ++ section_entries mirror) : EntrySet)).

Definition indexed (s : Section_) : list (nat * list BindingEntry) :=
  match s with
  | SPresent m =>
      omap (fun kv => (fun i => (i, snd kv)) <$> position (fun r => String.eqb r (fst kv)) BINDING_ROLES)
        (btree_iter m)
  | _ => []
  end.

#[export] Instance Effective_eq_dec : EqDecision Effective.
Proof. solve_decision. Defined.

Definition may_install (file mirror : option Effective) : bool :=
  let held := match file with Some (EBound _ | EUnbound) => true | _ => false end in
  bool_decide (mirror = Some EContained)
  || bool_decide (mirror = file)
  || (bool_decide (mirror = Some EUnbound) && match file with Some (EBound _) => true | _ => false end)
  || (is_none mirror && held).

Definition outcome (h : option (list Listed)) : option Effective :=
  l ← h; effective (map fst l).

(** [by_name]: the unresolved entries' role indices. *)
Definition by_name (held : list Listed) : gmap BindingEntry (list nat) :=
  fold_left (fun m '(i, e) => <[e := default [] (m !! e) ++ [i]]> m) held ∅.

Definition effective_loosenings (file mirror : Section_) (uids : UidMap) : list BindingEntry :=
  let '(was, was_unresolved) := subjects_by_uid (lookup_uid uids) (indexed file) in
  let '(now, now_unresolved) := subjects_by_uid (lookup_uid uids) (indexed mirror) in
  let of_uids : EntrySet :=
    fold_left (fun out uid =>
        let w := was !! uid in
        let n := now !! uid in
        if may_install (outcome w) (outcome n) then out
        else out ∪ list_to_set (map snd (default [] w ++ default [] n)))
      (map fst (btree_iter was) ++ map fst (btree_iter now)) ∅ in
  let w := by_name was_unresolved in
  let n := by_name now_unresolved in
  let out :=
    fold_left (fun out e =>
        let own m := r ← m !! e; effective r in
        if may_install (own w) (own n) then out else {[e]} ∪ out)
      (map fst (btree_iter w) ++ map fst (btree_iter n)) of_uids in
  btree_set_iter out.

(** ** Live edits *)

Inductive BoundRole := BAdmin | BUser | BGuest.

Inductive LiveEdit :=
| Contain (e : BindingEntry)
| ReleaseUid (uid : Z) (names : gset string)
| Bind (name : string) (role : BoundRole)
| Unbind (name : string).

Inductive EditError :=
| NoExplicitBindings
| Rules (e : RoleRuleError).

Definition BOUND : list string := ["admin"; "user"; "guest"].

Definition bound_key_of (r : BoundRole) : string :=
  match r with BAdmin => "admin" | BUser => "user" | BGuest => "guest" end.

Definition targets (edit : LiveEdit) : list BindingEntry :=
  match edit with
  | Contain e => [e]
  | ReleaseUid uid names => EUid uid :: map EName (btree_set_iter names)
  | Bind name _ | Unbind name => [EName name]
  end.

(** [new.retain(|r| !BOUND.contains(r))]. *)
Definition unbound_roles (old : Roles) : Roles := filter (fun r => r ∉ BOUND) old.

Definition edited_roles (edit : LiveEdit) (old : Roles) : Roles :=
  match edit with
  | Contain _ => {[ADVERSARY]} ∪ old
  | ReleaseUid _ _ => old ∖ {[ADVERSARY]}
  | Bind _ role => {[bound_key_of role]} ∪ unbound_roles old
  | Unbind _ => unbound_roles old
  end.

Definition changed_targets (live : Section_) (edit : LiveEdit) : Values :=
  omap (fun target =>
          let old := roles_of live target in
          let new := edited_roles edit old in
          if bool_decide (new = old) then None else Some (target, new))
    (targets edit).

Definition edit_section (f64_to_string : Z -> string) (base live : Section_) (edit : LiveEdit)
  : result (option (Section_ * EntrySet)) EditError :=
  if negb (is_present base) || negb (is_present live) then Err NoExplicitBindings
  else
    match changed_targets live edit with
    | [] => Ok None
    | changed =>
        let touched : EntrySet := list_to_set (map fst changed) in
        let values :=
          map (fun e => (e, roles_of live e))
            (List.filter (fun e => negb (bool_decide (e ∈ touched))) (section_entries live))
          ++ changed in
        let next := merged_section base live values in
        let? _ := map_err Rules (check_roles (from_section f64_to_string next)) in
        Ok (Some (next, touched))
    end.

Record Edited := mkEdited {
  ed_live : Section_; ed_conflicts : EntrySet; ed_events : list MergeEvent }.

(** [changed.filter(|e| conflicts.remove(e)).map(Resolved)], in order. *)
Definition settle (conflicts : EntrySet) (changed : list BindingEntry)
  : EntrySet * list MergeEvent :=
  fold_left (fun '(cs, events) e =>
      if bool_decide (e ∈ cs) then (cs ∖ {[e]}, events ++ [MResolved e ByLiveEdit])
      else (cs, events))
    changed (conflicts, []).

Definition apply_edit (f64_to_string : Z -> string) (base live : Section_) (conflicts : EntrySet)
    (edit : LiveEdit) : result (option Edited) EditError :=
  let? r := edit_section f64_to_string base live edit in
  Ok ('(next, changed) ← r;
      let '(cs, events) := settle conflicts (btree_set_iter changed) in
      Some (mkEdited next cs events)).

(** ** Enrolment *)

Inductive EnrollBindings :=
| EBLost
| EBOtherRole (r : string)
| EBContained.

Definition enroll_section (file : Section_) (mirror : option Section_) (user : string) (uid : Z)
    (resolve : string -> option Z) : result (option Section_) EnrollBindings :=
  let me := EName user in
  match file with
  | SPresent roles =>
      let is_me e :=
        match e with
        | EUid u => Z.eqb u uid
        | EName n => String.eqb n user || bool_decide (resolve n = Some uid)
        end in
      let held := map fst (List.filter (fun kv => existsb is_me (snd kv)) (btree_iter roles)) in
      if existsb (fun r => String.eqb r ADVERSARY) held then Err EBContained
      else match List.find (fun r => negb (String.eqb r "admin")) held with
           | Some r => Err (EBOtherRole r)
           | None =>
               match held with
               | [] => Ok (Some (SPresent (<["admin" := default [] (roles !! "admin") ++ [me]]> roles)))
               | _ => Ok None
               end
           end
  | SMissing | SAbsent =>
      match mirror with
      | Some (SPresent _) => Err EBLost
      | _ => Ok (Some (SPresent {["admin" := [me]]}))
      end
  end.

(** ** Lemmas: sections *)

Lemma roles_of_elem s e role :
  role ∈ roles_of s e <-> exists m l, s = SPresent m /\ m !! role = Some l /\ e ∈ l.
Proof.
  destruct s as [| |m]; simpl; [set_solver..|].
  rewrite elem_of_list_to_set, elem_of_map. split.
  - intros ([k l] & -> & [Hkl Hd]%elem_of_bfilter). apply btree_iter_elem in Hkl.
    apply bool_decide_eq_true in Hd. eauto.
  - intros (m' & l & [= <-] & Hl & He). exists (role, l). split; [done|].
    apply elem_of_bfilter. split; [by apply btree_iter_elem|by apply bool_decide_eq_true].
Qed.

Lemma push_new_elem {A} `{EqDecision A} (out : list A) x y :
  y ∈ push_new out x <-> y ∈ out \/ y = x.
Proof. unfold push_new. case_bool_decide; set_solver. Qed.

Lemma push_all_elem {A} `{EqDecision A} (l : list A) : forall out y,
  y ∈ fold_left push_new l out <-> y ∈ out \/ y ∈ l.
Proof.
  induction l as [|x l IH]; intros out y; simpl; [set_solver|].
  rewrite IH, push_new_elem, elem_of_cons. tauto.
Qed.

Lemma push_all_NoDup {A} `{EqDecision A} (l : list A) : forall out,
  NoDup out -> NoDup (fold_left push_new l out).
Proof.
  induction l as [|x l IH]; intros out Hn; simpl; [done|]. apply IH. unfold push_new.
  case_bool_decide; [done|]. apply NoDup_app. split; [done|]. split; [set_solver|apply NoDup_singleton].
Qed.

Lemma section_entries_elem s e : e ∈ section_entries s <-> roles_of s e <> ∅.
Proof.
  destruct s as [| |m]; cbn [section_entries]; [set_solver..|].
  rewrite push_all_elem, elem_of_concat_map. split.
  - intros [H|([k l] & Hkl & He)]; [by apply elem_of_nil in H|].
    assert (k ∈ roles_of (SPresent m) e); [|set_solver].
    apply roles_of_elem. exists m, l. split_and!; [done|by apply btree_iter_elem|done].
  - intros (k & (m' & l & [= <-] & Hl & He)%roles_of_elem)%set_choose_L. right.
    exists (k, l). split; [by apply btree_iter_elem|done].
Qed.

Lemma roles_of_off s e : e ∉ section_entries s -> roles_of s e = ∅.
Proof. rewrite section_entries_elem. destruct (decide (roles_of s e = ∅)); tauto. Qed.

(** ** Lemmas: [merged_section] *)

Lemma value_map_snoc values e r : value_map (values ++ [(e, r)]) = <[e := r]> (value_map values).
Proof. unfold value_map. by rewrite fold_left_app. Qed.

Lemma value_map_elem values e r : value_map values !! e = Some r -> (e, r) ∈ values.
Proof.
  induction values as [|[e' r'] values IH] using rev_ind; [done|].
  rewrite value_map_snoc, lookup_insert_Some. intros [[-> ->]|[_ H]]; [set_solver|].
  apply elem_of_app. auto.
Qed.

(** Distinct entries: the map is the graph of the function. *)
Lemma value_map_fun (g : BindingEntry -> Roles) l e :
  value_map (map (fun e => (e, g e)) l) !! e = if decide (e ∈ l) then Some (g e) else None.
Proof.
  induction l as [|x l IH] using rev_ind; [by rewrite decide_False by set_solver|].
  rewrite map_app. simpl. rewrite value_map_snoc. destruct (decide (x = e)) as [->|Hne].
  - rewrite lookup_insert_eq, decide_True; [done|set_solver].
  - rewrite lookup_insert_ne, IH by done.
    destruct (decide (e ∈ l)), (decide (e ∈ l ++ [x])); set_solver.
Qed.

Definition lists (out : RoleLists) (role : string) (e : BindingEntry) : Prop :=
  exists l, out !! role = Some l /\ e ∈ l.

Lemma add_to_lists value out role e role' e' :
  lists (add_to value out role e) role' e' <->
  lists out role' e' \/ role' = role /\ e' = e /\ exists r, value !! e = Some r /\ role ∈ r.
Proof.
  unfold add_to, lists. destruct (value !! e) as [r|] eqn:E; [|naive_solver].
  case_bool_decide as Hr; [|naive_solver]. destruct (decide (role = role')) as [<-|Hne].
  - setoid_rewrite lookup_insert_eq. split.
    + intros (l & [= <-] & [He|He]%push_new_elem); [|naive_solver].
      destruct (out !! role) as [l|]; simpl in He; [eauto|by apply elem_of_nil in He].
    + intros H. eexists. split; [done|]. apply push_new_elem.
      destruct H as [(l & -> & He)|(_ & -> & _)]; auto.
  - setoid_rewrite lookup_insert_ne; [|done]. naive_solver.
Qed.

Lemma add_calls_lists value calls : forall out role e,
  lists (fold_left (fun out '(role, e) => add_to value out role e) calls out) role e <->
  lists out role e \/ (role, e) ∈ calls /\ exists r, value !! e = Some r /\ role ∈ r.
Proof.
  induction calls as [|[role' e'] calls IH]; intros out role e; simpl; [set_solver|].
  rewrite IH, add_to_lists, elem_of_cons. naive_solver.
Qed.

(** Whatever the lists it is built from, a merged section gives an entry the
    roles of its value and no other. *)
Lemma merged_section_roles file live values e :
  roles_of (merged_section (SPresent file) live values) e = default ∅ (value_map values !! e).
Proof.
  apply set_eq. intros role. rewrite roles_of_elem. cbn [merged_section].
  match goal with |- context [SPresent (fold_left ?f ?c ?o)] => set (out := fold_left f c o) end.
  transitivity (lists out role e); [unfold lists; naive_solver|].
  unfold out. rewrite add_calls_lists. split.
  - intros [(l & Hl & He)|(_ & r & -> & Hr)]; [|done].
    rewrite lookup_fmap in Hl. destruct (file !! role); simplify_eq/=. by apply elem_of_nil in He.
  - destruct (value_map values !! e) as [r|] eqn:Ev; [|set_solver]. simpl. intros Hr. right.
    split; [|eauto]. unfold add_calls. apply elem_of_app. right. apply elem_of_concat_map.
    exists (e, r). split; [by apply value_map_elem|]. apply elem_of_map. exists role.
    split; [done|by apply btree_set_iter_elem].
Qed.

(** ** The reference merge *)

(** The roles of one entry: with a conflict pending the live value holds until
    the file's changes; otherwise the side that moved wins, and where both moved
    apart only containment survives. *)
Definition safe_roles (l f : Roles) : Roles :=
  if decide (ADVERSARY ∈ f \/ ADVERSARY ∈ l) then {[ADVERSARY]} else ∅.

Definition three_way (pending : bool) (b l f : Roles) : Roles :=
  if pending then (if decide (f = b) then l else f)
  else if decide (f = b) then l
  else if decide (l = b) then f
  else if decide (f = l) then f
  else safe_roles l f.

(** The entry is in conflict after the merge. *)
Definition clashes (pending : bool) (b l f : Roles) : Prop :=
  if pending then f = b /\ f <> l
  else f <> b /\ l <> b /\ f <> l /\ f <> safe_roles l f.

#[export] Instance clashes_dec pending b l f : Decision (clashes pending b l f).
Proof. unfold clashes. destruct pending; apply _. Defined.

Definition at_entry {A} (k : bool -> Roles -> Roles -> Roles -> A) (st : Stored) (file : Section_)
    (e : BindingEntry) : A :=
  k (bool_decide (e ∈ st_conflicts st)) (roles_of (st_base st) e) (roles_of (st_live st) e)
    (roles_of file e).

Definition entry_events (e : BindingEntry) (pending : bool) (b l f : Roles) : list MergeEvent :=
  if pending then
    if decide (f = l) then [MResolved e BySync]
    else if decide (f = b) then [] else [MResolved e RootEdit]
  else if decide (clashes false b l f)
  then [MConflict e (negb (bool_decide (safe_roles l f = ∅)))] else [].

(** The root moved, or both sides came to agree. *)
Definition root_moved (pending : bool) (b l f : Roles) : bool :=
  if pending then bool_decide (f <> b /\ f <> l)
  else bool_decide (f <> b /\ (l = b \/ f <> l)).
Definition both_agree (pending : bool) (b l f : Roles) : bool :=
  if pending then bool_decide (f = l) else bool_decide (f <> b /\ l <> b /\ f = l).

Lemma merge_entry_spec st file s e :
  merge_entry st file s e =
  mkLoop (lp_values s ++ [(e, at_entry three_way st file e)])
    (if decide (at_entry clashes st file e) then {[e]} ∪ lp_conflicts s else lp_conflicts s)
    (lp_events s ++ at_entry (entry_events e) st file e)
    (lp_root s || at_entry root_moved st file e) (lp_agreed s || at_entry both_agree st file e).
Proof.
  destruct s as [values conflicts events root agreed]. unfold merge_entry, at_entry.
  set (b := roles_of (st_base st) e). set (l := roles_of (st_live st) e). set (f := roles_of file e).
  unfold three_way, entry_events, root_moved, both_agree. cbn [lp_values lp_conflicts lp_events lp_root lp_agreed].
  assert ((if bool_decide (ADVERSARY ∈ f) || bool_decide (ADVERSARY ∈ l)
           then {[ADVERSARY]} else ∅) = safe_roles l f) as ->.
  { unfold safe_roles. repeat case_bool_decide; destruct (decide _); naive_solver. }
  generalize dependent f. generalize dependent l. generalize dependent b. intros b l f.
  unfold clashes.
  destruct (decide (f = b)), (decide (l = b)), (decide (f = l)), (decide (f = safe_roles l f));
    repeat case_bool_decide; repeat case_decide; simpl in *; rewrite ?app_nil_r, ?orb_true_r, ?orb_false_r;
    try congruence; exfalso; naive_solver congruence.
Qed.

(** What the loop has accumulated after the entries [l]. *)
Record looped (st : Stored) (file : Section_) (l : list BindingEntry) (s : MergeLoop) : Prop := {
  ld_values : lp_values s = map (fun e => (e, at_entry three_way st file e)) l;
  ld_conflicts : forall e, e ∈ lp_conflicts s <-> e ∈ l /\ at_entry clashes st file e;
  ld_events : lp_events s = concat (map (fun e => at_entry (entry_events e) st file e) l);
  ld_root : lp_root s = existsb (at_entry root_moved st file) l;
  ld_agreed : lp_agreed s = existsb (at_entry both_agree st file) l }.

Lemma merge_looped st file : looped st file (universe st file) (merge_loop_of st file).
Proof.
  unfold merge_loop_of. generalize (universe st file) as l. intros l.
  induction l as [|e l IH] using rev_ind; [by constructor; set_solver|].
  rewrite fold_left_app. cbn [fold_left]. rewrite merge_entry_spec.
  destruct IH as [Hv Hc He Hr Ha]. constructor; cbn [lp_values lp_conflicts lp_events lp_root lp_agreed].
  - by rewrite Hv, map_app.
  - intros x. rewrite elem_of_app, list_elem_of_singleton.
    destruct (decide (at_entry clashes st file e)); [rewrite elem_of_union, elem_of_singleton|];
      rewrite Hc; naive_solver.
  - rewrite He, map_app, concat_app. simpl. by rewrite app_nil_r.
  - rewrite Hr, existsb_app. simpl. by rewrite orb_false_r.
  - rewrite Ha, existsb_app. simpl. by rewrite orb_false_r.
Qed.

Lemma universe_elem st file e :
  e ∈ universe st file <->
  roles_of file e <> ∅ \/ roles_of (st_live st) e <> ∅ \/ roles_of (st_base st) e <> ∅ \/
  e ∈ st_conflicts st.
Proof.
  unfold universe. by rewrite push_all_elem, !elem_of_app, btree_set_iter_elem, !section_entries_elem.
Qed.

Lemma universe_off st file e :
  e ∉ universe st file ->
  e ∉ st_conflicts st /\ roles_of (st_base st) e = ∅ /\ roles_of (st_live st) e = ∅ /\
  roles_of file e = ∅.
Proof.
  rewrite universe_elem. intros H. split; [tauto|].
  destruct (decide (roles_of (st_base st) e = ∅)), (decide (roles_of (st_live st) e = ∅)),
    (decide (roles_of file e = ∅)); tauto.
Qed.

(** The merge, where it does not find the file lost. *)
Definition syncable (st : Stored) (file : Section_) : Prop :=
  is_present (st_base st) && negb (is_present file) = false.

Lemma merge_conflicts_iff f64 st file e : syncable st file ->
  e ∈ mg_conflicts (merge f64 (Some st) file) <-> at_entry clashes st file e.
Proof.
  intros Hs. unfold merge. rewrite Hs. cbn [mg_conflicts].
  rewrite (ld_conflicts _ _ _ _ (merge_looped st file)). split; [tauto|].
  intros Hc. split; [|done]. destruct (decide (e ∈ universe st file)) as [?|Hn]; [done|].
  apply universe_off in Hn as (Hn & Hb & Hl & Hf). unfold at_entry, clashes in Hc.
  rewrite bool_decide_false, Hb, Hl, Hf in Hc by done. naive_solver.
Qed.

Lemma merge_live_roles f64 st file e : is_present file = true ->
  roles_of (mg_live (merge f64 (Some st) file)) e = at_entry three_way st file e.
Proof.
  intros Hp. unfold merge. rewrite Hp, andb_false_r. cbn [mg_live].
  destruct file as [| |m]; [done..|]. rewrite merged_section_roles.
  rewrite (ld_values _ _ _ _ (merge_looped st _)), value_map_fun.
  destruct (decide _) as [?|Hn]; [done|]. simpl.
  apply universe_off in Hn as (Hn & Hb & Hl & Hf). unfold at_entry, three_way.
  rewrite bool_decide_false, Hb, Hl, Hf by done. by destruct (decide _).
Qed.

(** ** Lemmas: the reference merge *)

Lemma three_way_subset p b l f : three_way p b l f ⊆ f ∪ l.
Proof. unfold three_way, safe_roles. repeat case_decide; destruct p; set_solver. Qed.

Lemma three_way_clash p b l f : clashes p b l f -> three_way p b l f <> f.
Proof.
  unfold clashes, three_way. destruct p.
  - intros [-> Hl]. rewrite decide_True; auto.
  - intros (H1 & H2 & H3 & H4). rewrite !decide_False by done. auto.
Qed.

(** A live containment is released only by a file that moved off the base. *)
Lemma three_way_contained p b l f : ADVERSARY ∈ l -> f = b \/ ADVERSARY ∈ f -> ADVERSARY ∈ three_way p b l f.
Proof. unfold three_way, safe_roles. repeat case_decide; destruct p; set_solver. Qed.

(** Merging the file once more changes nothing. *)
Lemma three_way_again p b l f :
  let l' := three_way p b l f in
  let p' := bool_decide (clashes p b l f) in
  three_way p' f l' f = l' /\ (clashes p' f l' f <-> clashes p b l f) /\
  (forall e, entry_events e p' f l' f = []) /\ root_moved p' f l' f = false /\
  both_agree p' f l' f = false.
Proof.
  intros l' p'. pose proof (three_way_clash p b l f) as Hc. fold l' in Hc.
  assert (three_way p' f l' f = l') as Hv.
  { unfold three_way at 1. rewrite !decide_True by done. by destruct p'. }
  split; [done|]. subst p'. unfold entry_events, root_moved, both_agree.
  destruct (bool_decide_reflect (clashes p b l f)) as [H|H].
  - split; [split; [done|intros _; split; [done|naive_solver]]|].
    split; [intros e; rewrite decide_False, decide_True by naive_solver; done|].
    split; apply bool_decide_false; naive_solver.
  - split; [split; [intros (? & _); done|done]|].
    split; [intros e; rewrite decide_False; [done|intros (? & _); done]|].
    split; apply bool_decide_false; naive_solver.
Qed.

(** ** Theorems *)

(** The stored state a merge leaves. *)
Definition stored_after (m : Merged) : Stored := mkStored (mg_base m) (mg_live m) (mg_conflicts m).

(** C24: the three-way merge is exact, entry by entry: with a file that has
    bindings, the live section gives each entry the reference merge of the base's,
    the live and the file's roles; the pending conflicts are exactly the entries
    both sides moved apart and the fail-closed value is not the file's; and the
    file becomes the base. *)
Theorem merge_exact (f64 : Z -> string) (st : Stored) (file : Section_)
    (Hf : is_present file = true) :
  let m := merge f64 (Some st) file in
  mg_base m = file /\
  (forall e, roles_of (mg_live m) e = at_entry three_way st file e) /\
  (forall e, e ∈ mg_conflicts m <-> at_entry clashes st file e).
Proof.
  intros m. split_and!.
  - unfold m, merge. by rewrite Hf, andb_false_r.
  - intros e. by apply merge_live_roles.
  - intros e. apply merge_conflicts_iff. unfold syncable. by rewrite Hf, andb_false_r.
Qed.

(** a merge releases and grants only on an explicit edit: the live section
    never gives a role neither side gives; an entry contained live is released
    only if the file's roles for it moved off the base and no longer contain it;
    an entry the file contains is released only if the file did not move and the
    live section released it; a file without bindings where the base has them
    changes nothing at all. *)
Theorem merge_fails_closed (f64 : Z -> string) (st : Stored) (file : Section_) (e : BindingEntry) :
  let m := merge f64 (Some st) file in
  let b := roles_of (st_base st) e in
  let l := roles_of (st_live st) e in
  let f := roles_of file e in
  (is_present file = true ->
     roles_of (mg_live m) e ⊆ f ∪ l /\
     (ADVERSARY ∈ l -> ADVERSARY ∉ roles_of (mg_live m) e -> f <> b /\ ADVERSARY ∉ f) /\
     (ADVERSARY ∈ f -> ADVERSARY ∉ roles_of (mg_live m) e -> f = b /\ ADVERSARY ∉ l) /\
     (forall r, r <> ADVERSARY -> r ∈ roles_of (mg_live m) e -> r ∈ f \/ r ∈ l /\ f = b)) /\
  (is_present file = false -> is_present (st_base st) = true ->
     stored_after m = st /\ mg_kind m = Lost).
Proof.
  intros m b l f. split.
  - intros Hf. unfold m. rewrite merge_live_roles by done. unfold at_entry. fold b l f.
    generalize (bool_decide (e ∈ st_conflicts st)) as p. intros p.
    split; [apply three_way_subset|]. unfold three_way, safe_roles.
    split_and!; [..|intros r Hr]; repeat case_decide; destruct p; set_solver.
  - intros Hf Hb. unfold m, merge. rewrite Hb, Hf. by destruct st.
Qed.

(** a merge settles: merging the same file again over what the merge stored
    keeps every entry's roles and every pending conflict, reports nothing and is
    [Unchanged]. *)
Theorem merge_settles (f64 : Z -> string) (st : Stored) (file : Section_)
    (Hf : is_present file = true) :
  let m := merge f64 (Some st) file in
  let m' := merge f64 (Some (stored_after m)) file in
  (forall e, roles_of (mg_live m') e = roles_of (mg_live m) e) /\
  mg_conflicts m' = mg_conflicts m /\ mg_events m' = [] /\ mg_kind m' = Unchanged.
Proof.
  intros m m'. assert (mg_base m = file) as Hb by (unfold m, merge; by rewrite Hf, andb_false_r).
  assert (forall e A (k : bool -> Roles -> Roles -> Roles -> A), at_entry k (stored_after m) file e =
    let p := bool_decide (at_entry clashes st file e) in
    let f := roles_of file e in k p f (at_entry three_way st file e) f) as Hat.
  { intros e A k. unfold at_entry at 1. cbn [stored_after st_base st_live st_conflicts].
    rewrite Hb. unfold m. rewrite merge_live_roles by done.
    rewrite (bool_decide_ext _ (at_entry clashes st file e)); [done|].
    apply merge_conflicts_iff. unfold syncable. by rewrite Hf, andb_false_r. }
  assert (syncable (stored_after m) file) as Hs by (unfold syncable; by rewrite Hf, andb_false_r).
  pose proof (merge_looped (stored_after m) file) as Hl.
  pose proof (fun e => three_way_again (bool_decide (e ∈ st_conflicts st)) (roles_of (st_base st) e)
    (roles_of (st_live st) e) (roles_of file e)) as Hag.
  split_and!.
  - intros e. unfold m'. rewrite merge_live_roles, Hat by done. unfold m.
    rewrite merge_live_roles by done. apply Hag.
  - apply set_eq. intros e. unfold m'. rewrite merge_conflicts_iff, Hat by done.
    unfold m. rewrite merge_conflicts_iff by (unfold syncable; by rewrite Hf, andb_false_r). apply Hag.
  - unfold m', merge. rewrite Hs. cbn [mg_events]. rewrite (ld_events _ _ _ _ Hl).
    clear Hl. induction (universe _ _) as [|e u IH]; simpl; [done|]. rewrite IH, Hat, app_nil_r. apply Hag.
  - unfold m', merge, merge_kind. rewrite Hs. cbn [mg_kind].
    rewrite (ld_root _ _ _ _ Hl), (ld_agreed _ _ _ _ Hl).
    rewrite !(proj2 (existsb_false _ _)) by (intros e _; rewrite Hat; apply Hag).
    cbn [stored_after st_base]. by rewrite Hb, String.eqb_refl.
Qed.

Lemma conflict_reported e e' p b l f :
  (exists c, MConflict e c ∈ entry_events e' p b l f) <-> e' = e /\ p = false /\ clashes p b l f.
Proof.
  unfold entry_events. destruct p; repeat case_decide; set_unfold;
    naive_solver.
Qed.

Lemma resolved_reported e e' p b l f :
  (exists by_, MResolved e by_ ∈ entry_events e' p b l f) <-> e' = e /\ p = true /\ ~ clashes p b l f.
Proof.
  unfold entry_events, clashes. destruct p; repeat case_decide; set_unfold;
    naive_solver.
Qed.

Lemma merge_events_elem f64 st file x : syncable st file ->
  x ∈ mg_events (merge f64 (Some st) file) <->
  exists e, e ∈ universe st file /\ x ∈ at_entry (entry_events e) st file e.
Proof.
  intros Hs. unfold merge. rewrite Hs. cbn [mg_events].
  rewrite (ld_events _ _ _ _ (merge_looped st file)). apply elem_of_concat_map.
Qed.

Lemma clashes_in_universe st file e :
  e ∈ st_conflicts st \/ at_entry clashes st file e -> e ∈ universe st file.
Proof.
  intros H. destruct (decide (e ∈ universe st file)) as [?|Hn]; [done|].
  apply universe_off in Hn as (Hn & Hb & Hl & Hf). destruct H as [H|H]; [done|].
  unfold at_entry, clashes in H. rewrite bool_decide_false, Hb, Hl, Hf in H by done. naive_solver.
Qed.

(** no conflict comes or goes unreported: a merge reports a conflict for
    exactly the entries that become pending and a resolution for exactly the
    pending entries that no longer are. *)
Theorem merge_reports (f64 : Z -> string) (st : Stored) (file : Section_) (e : BindingEntry)
    (Hs : syncable st file) :
  let m := merge f64 (Some st) file in
  ((exists c, MConflict e c ∈ mg_events m) <-> e ∈ mg_conflicts m /\ e ∉ st_conflicts st) /\
  ((exists by_, MResolved e by_ ∈ mg_events m) <-> e ∈ st_conflicts st /\ e ∉ mg_conflicts m).
Proof.
  intros m. unfold m. rewrite merge_conflicts_iff by done.
  setoid_rewrite merge_events_elem; [|done..].
  pose proof (clashes_in_universe st file e) as Hin. split; split.
  - intros (c & e' & _ & Hx). destruct (proj1 (conflict_reported e e' _ _ _ _) (ex_intro _ c Hx))
      as (-> & Hp & Hc). split; [done|]. by apply bool_decide_eq_false in Hp.
  - intros [Hc Hp]. destruct (proj2 (conflict_reported e e (bool_decide (e ∈ st_conflicts st)) _ _ _)
      (conj eq_refl (conj (bool_decide_eq_false_2 _ Hp) Hc))) as [c Hx]. exists c, e. auto.
  - intros (by_ & e' & _ & Hx). destruct (proj1 (resolved_reported e e' _ _ _ _) (ex_intro _ by_ Hx))
      as (-> & Hp & Hc). split; [|done]. by apply bool_decide_eq_true in Hp.
  - intros [Hp Hc]. destruct (proj2 (resolved_reported e e (bool_decide (e ∈ st_conflicts st)) _ _ _)
      (conj eq_refl (conj (bool_decide_eq_true_2 _ Hp) Hc))) as [by_ Hx]. exists by_, e. auto.
Qed.

(** ** Lemmas: live edits *)

Definition edits (live : Section_) (edit : LiveEdit) (e : BindingEntry) : bool :=
  negb (bool_decide (edited_roles edit (roles_of live e) = roles_of live e)).

Lemma changed_targets_filter live edit :
  changed_targets live edit =
  map (fun e => (e, edited_roles edit (roles_of live e))) (List.filter (edits live edit) (targets edit)).
Proof.
  unfold changed_targets, edits. induction (targets edit) as [|e l IH]; [done|].
  cbn [omap list_omap List.filter]. case_bool_decide; simpl; [exact IH|]. by rewrite IH.
Qed.

(** The roles after the edit. *)
Definition roles_after (live : Section_) (edit : LiveEdit) (e : BindingEntry) : Roles :=
  if decide (e ∈ targets edit) then edited_roles edit (roles_of live e) else roles_of live e.

(** What [edit_section] builds before the rules are checked. *)
Definition next_section (base live : Section_) (edit : LiveEdit) : Section_ :=
  let touched : EntrySet := list_to_set (map fst (changed_targets live edit)) in
  merged_section base live
    (map (fun e => (e, roles_of live e))
       (List.filter (fun e => negb (bool_decide (e ∈ touched))) (section_entries live))
     ++ changed_targets live edit).

Lemma touched_elem live edit e :
  e ∈ (list_to_set (map fst (changed_targets live edit)) : EntrySet) <->
  e ∈ targets edit /\ edits live edit e = true.
Proof.
  rewrite elem_of_list_to_set, changed_targets_filter, map_map. simpl. rewrite map_id.
  apply elem_of_bfilter.
Qed.

Lemma next_section_roles base live edit e : is_present base = true ->
  roles_of (next_section base live edit) e = roles_after live edit e.
Proof.
  intros Hb. destruct base as [| |m]; [done..|]. unfold next_section. rewrite merged_section_roles.
  set (touched := list_to_set _ : EntrySet).
  assert (forall e, e ∈ touched <-> e ∈ targets edit /\ edits live edit e = true) as Ht
    by apply touched_elem.
  set (kept := List.filter _ (section_entries live)).
  assert (map (fun e => (e, roles_of live e)) kept ++ changed_targets live edit =
    map (fun e => (e, roles_after live edit e)) (kept ++ List.filter (edits live edit) (targets edit)))
    as ->.
  { rewrite changed_targets_filter, map_app. f_equal; apply map_ext_in; intros x Hx%list_elem_of_In;
      apply elem_of_bfilter in Hx as [Hx Hd]; unfold roles_after.
    - apply negb_true_iff, bool_decide_eq_false in Hd. rewrite Ht in Hd.
      destruct (decide _); [|done]. unfold edits in Hd.
      destruct (bool_decide_reflect (edited_roles edit (roles_of live x) = roles_of live x)); [congruence|].
      by destruct Hd.
    - by rewrite decide_True by done. }
  rewrite value_map_fun. destruct (decide _) as [?|Hn]; [done|]. simpl.
  rewrite elem_of_app in Hn. unfold kept in Hn. rewrite !elem_of_bfilter, section_entries_elem in Hn.
  unfold roles_after. destruct (decide (e ∈ targets edit)) as [He|He].
  - unfold edits in Hn. destruct (bool_decide_reflect
      (edited_roles edit (roles_of live e) = roles_of live e)) as [E|E]; [|naive_solver].
    rewrite E. destruct (decide (roles_of live e = ∅)) as [->|Hne]; [done|]. exfalso.
    apply Hn. left. split; [done|]. apply negb_true_iff, bool_decide_eq_false. rewrite Ht.
    unfold edits. rewrite bool_decide_true by done. naive_solver.
  - destruct (decide (roles_of live e = ∅)) as [->|Hne]; [done|]. exfalso.
    apply Hn. left. split; [done|]. apply negb_true_iff, bool_decide_eq_false. rewrite Ht. tauto.
Qed.

Lemma settle_spec l : forall cs events, NoDup l ->
  let r := fold_left (fun '(cs, events) e =>
      if bool_decide (e ∈ cs) then (cs ∖ {[e]}, events ++ [MResolved e ByLiveEdit])
      else (cs, events)) l ((cs : EntrySet), events) in
  fst r = cs ∖ list_to_set l /\
  forall x, x ∈ snd r <-> x ∈ events \/ exists e, x = MResolved e ByLiveEdit /\ e ∈ l /\ e ∈ cs.
Proof.
  induction l as [|e l IH]; intros cs events Hn; [simpl; set_solver|].
  apply NoDup_cons in Hn as [He Hn]. cbn [fold_left]. case_bool_decide as Hc.
  - destruct (IH (cs ∖ {[e]}) (events ++ [MResolved e ByLiveEdit]) Hn) as [H1 H2]. split.
    + rewrite H1. set_solver.
    + intros x. rewrite H2. set_unfold. split; [naive_solver|].
      intros [?|(e' & -> & [->|Hl] & ?)]; [tauto..|]. right. exists e'. naive_solver.
  - destruct (IH cs events Hn) as [H1 H2]. split; [rewrite H1; set_solver|].
    intros x. rewrite H2. set_unfold. naive_solver.
Qed.

Lemma edit_moves live edit e :
  roles_after live edit e <> roles_of live e <-> e ∈ targets edit /\ edits live edit e = true.
Proof.
  unfold roles_after, edits. rewrite negb_true_iff, bool_decide_eq_false.
  destruct (decide _); naive_solver.
Qed.

Lemma edit_section_cases f64 base live edit :
  is_present base = true -> is_present live = true ->
  let next := next_section base live edit in
  let touched : EntrySet := list_to_set (map fst (changed_targets live edit)) in
  edit_section f64 base live edit =
  if bool_decide (changed_targets live edit = []) then Ok None
  else match check_roles (from_section f64 next) with
       | Ok _ => Ok (Some (next, touched))
       | Err err => Err (Rules err)
       end.
Proof.
  intros Hb Hl next touched. unfold edit_section. rewrite Hb, Hl. cbn [negb orb].
  subst next touched. unfold next_section. destruct (changed_targets live edit) as [|c cs].
  - by rewrite bool_decide_true.
  - rewrite bool_decide_false by done. by destruct (check_roles _).
Qed.

Lemma changed_some live edit :
  changed_targets live edit <> [] -> exists e, roles_after live edit e <> roles_of live e.
Proof.
  destruct (changed_targets live edit) as [|c cs] eqn:Ec; [done|]. intros _. exists (fst c).
  apply edit_moves, touched_elem. rewrite Ec. set_solver.
Qed.

Lemma changed_none live edit :
  changed_targets live edit = [] <-> forall e, roles_after live edit e = roles_of live e.
Proof.
  split.
  - intros Hc e. destruct (decide (roles_after live edit e = roles_of live e)) as [?|Hne]; [done|].
    apply edit_moves, touched_elem in Hne. rewrite Hc in Hne. set_solver.
  - intros H. apply dec_stable. intros [e He]%changed_some. by destruct He.
Qed.

Lemma apply_edit_Some f64 base live conflicts edit ed :
  apply_edit f64 base live conflicts edit = Ok (Some ed) ->
  is_present base && is_present live = true /\
  ed_live ed = next_section base live edit /\
  check_roles (from_section f64 (ed_live ed)) = Ok tt /\
  changed_targets live edit <> [] /\
  (forall e, e ∈ ed_conflicts ed <-> e ∈ conflicts /\ roles_after live edit e = roles_of live e) /\
  (forall x, x ∈ ed_events ed <->
     exists e, x = MResolved e ByLiveEdit /\ e ∈ conflicts /\
       roles_after live edit e <> roles_of live e).
Proof.
  unfold apply_edit. destruct (is_present base) eqn:Hb, (is_present live) eqn:Hl;
    try (unfold edit_section; rewrite Hb, Hl; done).
  rewrite edit_section_cases by done. case_bool_decide as Hc; [done|].
  destruct (check_roles _) as [[]|] eqn:Er; [|done]. simpl. unfold settle.
  set (touched := list_to_set _ : EntrySet).
  assert (forall e, e ∈ touched <-> roles_after live edit e <> roles_of live e) as Ht
    by (intros e; unfold touched; by rewrite touched_elem, edit_moves).
  destruct (settle_spec (btree_set_iter touched) conflicts [] (btree_set_iter_NoDup _)) as [H1 H2].
  destruct (fold_left _ _ _) as [cs events]. simpl in *. subst cs. intros H. injection H as <-.
  cbn [ed_live ed_conflicts ed_events]. split_and!; [done..| |].
  - intros e. rewrite elem_of_difference, elem_of_list_to_set, btree_set_iter_elem, Ht.
    destruct (decide (roles_after live edit e = roles_of live e)); tauto.
  - intros x. rewrite H2. setoid_rewrite btree_set_iter_elem. setoid_rewrite Ht. set_unfold. naive_solver.
Qed.

(** a live edit does what it says or nothing: without explicit bindings on
    both sides it is refused; it is [None] exactly when no target's roles move;
    it is refused under the role rules only when the edited section breaks them;
    and otherwise exactly its targets' roles are edited, the new section satisfies
    the rules, and exactly the pending conflicts whose roles moved are settled and
    reported. *)
Theorem edit_exact (f64 : Z -> string) (base live : Section_) (conflicts : EntrySet)
    (edit : LiveEdit) :
  let both := is_present base && is_present live in
  match apply_edit f64 base live conflicts edit with
  | Err NoExplicitBindings => both = false
  | Err (Rules err) =>
      both = true /\ exists next, (forall e, roles_of next e = roles_after live edit e) /\
        check_roles (from_section f64 next) = Err err
  | Ok None => both = true /\ forall e, roles_after live edit e = roles_of live e
  | Ok (Some ed) =>
      both = true /\ (forall e, roles_of (ed_live ed) e = roles_after live edit e) /\
      (exists e, roles_after live edit e <> roles_of live e) /\
      check_roles (from_section f64 (ed_live ed)) = Ok tt /\
      (forall e, e ∈ ed_conflicts ed <-> e ∈ conflicts /\ roles_after live edit e = roles_of live e) /\
      (forall x, x ∈ ed_events ed <->
         exists e, x = MResolved e ByLiveEdit /\ e ∈ conflicts /\
           roles_after live edit e <> roles_of live e)
  end.
Proof.
  intros both. destruct (apply_edit f64 base live conflicts edit) as [[ed|]|err] eqn:E.
  - apply apply_edit_Some in E as (H & Hn & Hr & Hc & H1 & H2). split; [done|].
    apply andb_true_iff in H as [Hb Hl]. rewrite Hn in *. split_and!; [|..|done|done|done].
    + intros e. by apply next_section_roles.
    + by apply changed_some.
  - unfold apply_edit in E. destruct (is_present base) eqn:Hb, (is_present live) eqn:Hl;
      try (unfold edit_section in E; rewrite Hb, Hl in E; done).
    rewrite edit_section_cases in E by done. case_bool_decide as Hc; [by rewrite changed_none in Hc|].
    destruct (check_roles _); [|done]. simpl in E. by destruct (settle _ _).
  - unfold apply_edit in E. subst both. destruct (is_present base) eqn:Hb, (is_present live) eqn:Hl;
      try (unfold edit_section in E; rewrite Hb, Hl in E; simpl in E; by simplify_eq).
    rewrite edit_section_cases in E by done. case_bool_decide as Hc; [done|].
    destruct (check_roles _) as [|r] eqn:Er; [done|]. simpl in E. injection E as <-.
    split; [done|]. eexists. split; [|exact Er]. intros e. by apply next_section_roles.
Qed.

(** ** The synchronised state over time *)

Section Steps.
Context (f64_to_string : Z -> string).

(** A reload merges the file; an accepted live edit moves the live section. *)
Inductive sync_step : Stored -> Stored -> Prop :=
| sync_reload st file : sync_step st (stored_after (merge f64_to_string (Some st) file))
| sync_edit st edit ed :
    apply_edit f64_to_string (st_base st) (st_live st) (st_conflicts st) edit = Ok (Some ed) ->
    sync_step st (mkStored (st_base st) (ed_live ed) (ed_conflicts ed)).

(** The store starts from a file, or from nothing and a first merge. *)
Inductive sync_reachable : Stored -> Prop :=
| sync_first file : sync_reachable (stored_after (merge f64_to_string None file))
| sync_next st st' : sync_reachable st -> sync_step st st' -> sync_reachable st'.

Definition sync_ok (st : Stored) : Prop :=
  is_present (st_base st) = is_present (st_live st) /\
  forall e, e ∈ st_conflicts st -> differs (st_base st) (st_live st) e = true.

Lemma roles_of_unlisted s e : is_present s = false -> roles_of s e = ∅.
Proof. by destruct s. Qed.

Lemma merge_sync_ok st file :
  sync_ok st -> sync_ok (stored_after (merge f64_to_string (Some st) file)).
Proof.
  intros [Hp Hd]. destruct (is_present file) eqn:Hf.
  - assert (syncable st file) as Hs by (unfold syncable; by rewrite Hf, andb_false_r). split.
    + unfold merge. rewrite Hs. by destruct file.
    + intros e He. cbn [stored_after st_conflicts] in He. apply merge_conflicts_iff in He; [|done].
      unfold differs. apply negb_true_iff, bool_decide_eq_false. cbn [stored_after st_base st_live].
      rewrite merge_live_roles by done. unfold merge. rewrite Hs. cbn [mg_base].
      apply not_eq_sym. by apply three_way_clash.
  - destruct (is_present (st_base st)) eqn:Hb.
    { unfold merge. rewrite Hf, Hb. simpl. split; simpl; [congruence|done]. }
    assert (syncable st file) as Hs by (unfold syncable; by rewrite Hb).
    split; [unfold merge; rewrite Hs; by destruct file|].
    intros e He. cbn [stored_after st_conflicts] in He. apply merge_conflicts_iff in He; [|done].
    exfalso. unfold at_entry, clashes in He. rewrite !roles_of_unlisted in He by done.
    case_bool_decide; naive_solver.
Qed.

Lemma sync_step_ok st st' : sync_step st st' -> sync_ok st -> sync_ok st'.
Proof.
  destruct 1 as [st file|st edit ed H]; [apply merge_sync_ok|]. intros [Hp Hd].
  apply apply_edit_Some in H as ([Hb Hl]%andb_true_iff & Hn & _ & _ & Hc & _).
  split; cbn [st_base st_live st_conflicts].
  - rewrite Hn, Hb. unfold next_section. by destruct (st_base st).
  - intros e [He Hr]%Hc. specialize (Hd e He). unfold differs in *.
    by rewrite Hn, next_section_roles, Hr.
Qed.

Lemma sync_reachable_ok st : sync_reachable st -> sync_ok st.
Proof. induction 1; [by split|by eapply sync_step_ok]. Qed.

(** a pending conflict is always a real difference: in every state reached
    by reloads and live edits, in any order, the live section has bindings
    exactly when the base does, and every pending conflict is an entry whose
    roles in the base and in the live section differ. *)
Theorem sync_invariant (st : Stored) (Hr : sync_reachable st) :
  is_present (st_base st) = is_present (st_live st) /\
  forall e, e ∈ st_conflicts st -> roles_of (st_base st) e <> roles_of (st_live st) e.
Proof.
  destruct (sync_reachable_ok st Hr) as [Hp Hd]. split; [done|]. intros e He.
  specialize (Hd e He). by apply negb_true_iff, bool_decide_eq_false in Hd.
Qed.
End Steps.

(** ** Lemmas: effective roles *)

Lemma flat_indexed f64 s i e :
  (i, e) ∈ flat (indexed s) <->
  exists role, ROLE_ORDER !! i = Some role /\ listed_under (from_section f64 s) role e.
Proof.
  rewrite flat_elem. destruct s as [| |m]; cbn [indexed].
  1,2: split; [intros (es & H & _); by apply elem_of_nil in H|intros (r & _ & m & l & H & _); done].
  unfold listed_under. cbn [from_section bi_roles]. setoid_rewrite list_elem_of_omap. split.
  - intros (es & ([k l] & Hkl & (j & Hj & [= -> ->])%fmap_Some) & He). cbn [fst snd] in *.
    apply position_lookup in Hj as (k' & Hk & ->%String.eqb_eq). apply btree_iter_elem in Hkl.
    destruct (lookup_lt_is_Some_2 ROLE_ORDER j) as [role Hrole]; [by apply lookup_lt_Some in Hk|].
    exists role. split; [done|]. exists m, l. by rewrite (role_row_iff j role k).
  - intros (role & Hi & m' & l & [= <-] & Hl & He). exists l. split; [|done].
    exists (role_key role, l). split; [by apply btree_iter_elem|]. cbn [fst snd].
    destruct (role_order_total role) as (j & Hj & Hk).
    rewrite (role_order_inj _ _ _ Hi Hj). apply fmap_Some. exists j. split; [|done].
    clear -Hk. do 4 (destruct j as [|j]; [simpl in Hk; injection Hk as <-; reflexivity|]).
    by rewrite lookup_ge_None_2 in Hk by (simpl; lia).
Qed.

(** The listed entries that resolve to a uid, with their role indices. *)
Definition held_by (uids : UidMap) (s : Section_) (u : Z) : list Listed :=
  List.filter (of_uid (lookup_uid uids) (Some u)) (flat (indexed s)).

Lemma outcome_held uids s u :
  outcome (fst (subjects_by_uid (lookup_uid uids) (indexed s)) !! u) =
  effective (map fst (held_by uids s u)).
Proof.
  pose proof (fun l => held_iff (lookup_uid uids) (indexed s) u l) as H. unfold held_by.
  destruct (fst _ !! u) as [l|]; simpl.
  - by destruct (proj1 (H l) eq_refl) as [-> _].
  - destruct (List.filter _ _) as [|x l] eqn:E; [done|]. assert (None = Some (x :: l)) by (by apply H). done.
Qed.

Lemma effective_cons i l :
  effective (i :: l) =
  Some (if existsb (Nat.eqb adversary_idx) (i :: l) then EContained
        else if forallb (Nat.eqb i) (i :: l) then EBound i else EUnbound).
Proof. reflexivity. Qed.

Lemma effective_contained l : effective l = Some EContained <-> adversary_idx ∈ l.
Proof.
  destruct l as [|i l]; [split; [done|set_solver]|]. rewrite effective_cons.
  destruct (existsb (Nat.eqb adversary_idx) (i :: l)) eqn:E.
  - apply existsb_true in E as (j & Hj & <-%Nat.eqb_eq). done.
  - split; [by destruct (forallb (Nat.eqb i) (i :: l))|]. intros H. rewrite existsb_false in E.
    specialize (E _ H). by rewrite Nat.eqb_refl in E.
Qed.

Lemma effective_bound l i :
  effective l = Some (EBound i) <-> i <> adversary_idx /\ l <> [] /\ forall j, j ∈ l -> j = i.
Proof.
  destruct l as [|k l]; [naive_solver|]. rewrite effective_cons.
  destruct (existsb (Nat.eqb adversary_idx) (k :: l)) eqn:E.
  - apply existsb_true in E as (j & Hj & <-%Nat.eqb_eq). split; [done|].
    intros (Hi & _ & H). by rewrite <-(H _ Hj) in Hi.
  - rewrite existsb_false in E. destruct (forallb (Nat.eqb k) (k :: l)) eqn:F.
    + rewrite forallb_true in F. split.
      * intros [= <-]. split; [|split; [done|intros j Hj; symmetry; by apply Nat.eqb_eq, F]].
        intros Hk. specialize (E k ltac:(left)). by rewrite Hk, Nat.eqb_refl in E.
      * intros (_ & _ & H). by rewrite (H k ltac:(left)).
    + split; [done|]. intros (_ & _ & H). apply not_true_iff_false in F. destruct F.
      apply forallb_true. intros j Hj. rewrite (H j Hj), (H k ltac:(left)). apply Nat.eqb_refl.
Qed.

(** What a section makes of a uid is what its entries' indices come to. *)
Lemma bound_to_outcome f64 uids s u role :
  bound_to (from_section f64 s) uids u role <->
  effective (map fst (held_by uids s u)) =
    Some (if decide (role = Adversary) then EContained
          else EBound (default 0 (position (role_eqb role) ROLE_ORDER))).
Proof.
  assert (forall i, i ∈ map fst (held_by uids s u) <-> exists r e, ROLE_ORDER !! i = Some r /\
    listed_under (from_section f64 s) r e /\ lookup_uid uids e = Some u) as Hin.
  { intros i. rewrite elem_of_map. unfold held_by. setoid_rewrite elem_of_bfilter. split.
    - intros ([j e] & -> & Hje & Hu). apply (flat_indexed f64) in Hje as (r & Hr & Hl).
      apply bool_decide_eq_true in Hu. cbn in *. eauto.
    - intros (r & e & Hr & Hl & Hu). exists (i, e). split_and!; [done| |].
      + apply (flat_indexed f64). eauto.
      + by apply bool_decide_eq_true. }
  unfold bound_to. destruct (decide (role = Adversary)) as [->|Hne].
  - rewrite effective_contained, Hin. split.
    + intros (e & Hl & Hu). exists Adversary, e. done.
    + intros (r & e & [= <-] & Hl & Hu). eauto.
  - assert (ROLE_ORDER !! default 0 (position (role_eqb role) ROLE_ORDER) = Some role /\
      default 0 (position (role_eqb role) ROLE_ORDER) <> adversary_idx) as [Hi Hia]
      by (destruct role; [..|done]; by vm_compute).
    set (i := default 0 _) in *. rewrite effective_bound. split.
    + intros [(e & Hl & Hu) Hall]. split; [done|]. split.
      * intros H. assert (i ∈ map fst (held_by uids s u)) as Hx by (apply Hin; eauto).
        rewrite H in Hx. by apply elem_of_nil in Hx.
      * intros j (r & e' & Hr & Hl' & Hu')%Hin. rewrite (Hall _ _ Hl' Hu') in Hr.
        by eapply role_order_inj.
    + intros (_ & Hn & Hall). split.
      * destruct (map fst (held_by uids s u)) as [|j l] eqn:E; [done|].
        assert (j = i) as -> by (apply Hall; left).
        destruct (proj1 (Hin i)) as (r & e & Hr & Hl & Hu); [left|]. assert (r = role) as -> by congruence.
        eauto.
      * intros r e Hl Hu. destruct (role_order_total r) as (j & Hj & _).
        rewrite (Hall j) in Hj; [congruence|]. apply Hin. eauto.
Qed.

Lemma may_install_safe w n :
  may_install w n = true ->
  (forall i, n = Some (EBound i) -> w = Some (EBound i)) /\
  (w = Some EContained -> n = Some EContained).
Proof.
  unfold may_install. rewrite !orb_true_iff, !andb_true_iff, !bool_decide_eq_true.
  intros [[[->| ->]|[-> H]]|[Hn H]]; split; try done; try (intros; congruence).
  - intros ->. done.
  - intros i ->. done.
  - intros ->. done.
Qed.

(** Entries no [may_install] refuses leave no loosening behind. *)
Lemma union_fold_elem {A K} `{Countable K} (f : A -> bool) (g : A -> gset K) l : forall out x,
  x ∈ fold_left (fun out a => if f a then out else out ∪ g a) l out <->
  x ∈ out \/ exists a, a ∈ l /\ f a = false /\ x ∈ g a.
Proof.
  induction l as [|a l IH]; intros out x; simpl; [set_solver|]. rewrite IH.
  destruct (f a) eqn:E; rewrite ?elem_of_union; split.
  - intros [?|(b & Hb & Hf & Hg)]; [auto|]. right. exists b. set_solver.
  - intros [?|(b & [->|Hb]%elem_of_cons & Hf & Hg)]; [auto|congruence|]. right. exists b. auto.
  - intros [[?|?]|(b & Hb & Hf & Hg)]; [auto| |]; right; [exists a|exists b]; set_solver.
  - intros [?|(b & [->|Hb]%elem_of_cons & Hf & Hg)]; [auto..|]. right. exists b. auto.
Qed.

Lemma effective_loosenings_uid file mirror uids u :
  effective_loosenings file mirror uids = [] ->
  may_install (effective (map fst (held_by uids file u))) (effective (map fst (held_by uids mirror u)))
    = true.
Proof.
  unfold effective_loosenings. pose proof (outcome_held uids file u) as Hw.
  pose proof (outcome_held uids mirror u) as Hn.
  pose proof (met_some _ _ _ (subjects_by_uid_met (lookup_uid uids) (indexed file)) u) as Hsw.
  pose proof (met_some _ _ _ (subjects_by_uid_met (lookup_uid uids) (indexed mirror)) u) as Hsn.
  destruct (subjects_by_uid _ (indexed file)) as [was wu], (subjects_by_uid _ (indexed mirror)) as [now nu].
  cbn [fst] in *. rewrite <-Hw, <-Hn. intros H.
  apply dec_stable. intros Hf%not_true_iff_false.
  assert (exists x, x ∈ map snd (default [] (was !! u) ++ default [] (now !! u)) /\
    u ∈ map fst (btree_iter was) ++ map fst (btree_iter now)) as (x & Hx & Hu).
  { assert (forall (m : HeldBy) l, m !! u = Some l -> u ∈ map fst (btree_iter m)) as Hkey.
    { intros m l Hl. apply elem_of_map. exists (u, l). split; [done|by apply btree_iter_elem]. }
    destruct (was !! u) as [[|[i e] l]|] eqn:Ew; [done| |].
    { exists e. split; [left|]. apply elem_of_app. left. eauto. }
    destruct (now !! u) as [[|[i e] l]|] eqn:En; [done| |done].
    exists e. split; [left|]. apply elem_of_app. right. eauto. }
  match type of H with btree_set_iter ?s = [] => assert (x ∈ btree_set_iter s) as Hin end;
    [|rewrite H in Hin; by apply elem_of_nil in Hin].
  apply btree_set_iter_elem.
  match goal with |- x ∈ fold_left ?f ?l ?o => assert (forall s, x ∈ s -> x ∈ fold_left f l s) as Hmono end.
  { generalize (map fst (btree_iter (by_name wu)) ++ map fst (btree_iter (by_name nu))) as l.
    induction l as [|a l IH]; intros s Hs; simpl; [done|]. apply IH. case_match; set_solver. }
  apply Hmono. apply (union_fold_elem (fun uid => may_install (outcome (was !! uid)) (outcome (now !! uid)))
    (fun uid => list_to_set (map snd (default [] (was !! uid) ++ default [] (now !! uid))))).
  right. exists u. split_and!; [done..|by apply elem_of_list_to_set].
Qed.

(** an install that finds no effective loosening loosens nothing: whatever
    account database resolves the names, every uid the mirror binds to a role
    other than adversary is bound to that role by the file it replaces, and
    every uid the file contains is contained by the mirror. *)
Theorem install_never_loosens (f64 : Z -> string) (file mirror : Section_) (uids : UidMap)
    (He : effective_loosenings file mirror uids = []) :
  (forall u role, role <> Adversary -> bound_to (from_section f64 mirror) uids u role ->
     bound_to (from_section f64 file) uids u role) /\
  (forall u, bound_to (from_section f64 file) uids u Adversary ->
     bound_to (from_section f64 mirror) uids u Adversary).
Proof.
  split.
  - intros u role Hr. rewrite !bound_to_outcome, decide_False by done.
    by apply may_install_safe, effective_loosenings_uid.
  - intros u. rewrite !bound_to_outcome, decide_True by done.
    by apply may_install_safe, effective_loosenings_uid.
Qed.

(** ** Lemmas: comparisons *)

Lemma differs_false a b e : differs a b e = false <-> roles_of a e = roles_of b e.
Proof. unfold differs. by rewrite negb_false_iff, bool_decide_eq_true. Qed.

Lemma same_roles_iff a b :
  (forall e, e ∈ section_entries a ++ section_entries b -> differs a b e = false) <->
  forall e, roles_of a e = roles_of b e.
Proof.
  split.
  - intros H e. destruct (decide (e ∈ section_entries a ++ section_entries b)) as [Hin|Hn].
    + by apply differs_false, H.
    + rewrite elem_of_app in Hn. by rewrite !roles_of_off by tauto.
  - intros H e _. by apply differs_false.
Qed.

Lemma equivalent_iff a b :
  equivalent a b = true <->
  is_present a = is_present b /\ forall e, roles_of a e = roles_of b e.
Proof.
  unfold equivalent.
  by rewrite andb_true_iff, Bool.eqb_true_iff, negb_true_iff, existsb_false, same_roles_iff.
Qed.

Lemma unsynced_loop a b l : forall seen n,
  snd (fold_left (fun '(seen, n) e =>
         if bool_decide (e ∈ (seen : EntrySet)) then (seen, n)
         else ({[e]} ∪ seen, if differs a b e then S n else n)) l (seen, n)) = 0 <->
  n = 0 /\ forall e, e ∈ l -> e ∉ seen -> differs a b e = false.
Proof.
  induction l as [|e l IH]; intros seen n; cbn [fold_left].
  { split; [|by intros [-> _]]. intros Hn. split; [exact Hn|]. intros e He. by apply elem_of_nil in He. }
  setoid_rewrite elem_of_cons. case_bool_decide as Hs; rewrite IH; [naive_solver|].
  destruct (differs a b e) eqn:Ed.
  - split; [naive_solver|]. intros [_ H]. specialize (H e (or_introl eq_refl) Hs). congruence.
  - split; intros [Hn H]; (split; [done|]); intros e' He' Hs'.
    + destruct He' as [->|He']; [done|]. destruct (decide (e' = e)) as [->|]; [done|].
      apply H; set_solver.
    + apply H; set_solver.
Qed.

(** Nothing is reported unsynced exactly when no entry's roles differ. *)
Lemma unsynced_zero base live :
  unsynced base live = 0 <-> forall e, roles_of base e = roles_of live e.
Proof.
  unfold unsynced. rewrite unsynced_loop, <-same_roles_iff. set_solver.
Qed.

Lemma add_admin_roles m me e r :
  r ∈ roles_of (SPresent (<["admin" := default [] (m !! "admin") ++ [me]]> m)) e <->
  r ∈ roles_of (SPresent m) e \/ e = me /\ r = "admin".
Proof.
  rewrite !roles_of_elem. split.
  - intros (m' & l & [= <-] & Hl & He). destruct (decide (r = "admin")) as [->|Hne].
    + rewrite lookup_insert_eq in Hl. injection Hl as <-.
      apply elem_of_app in He as [He|He%list_elem_of_singleton]; [left|by right].
      destruct (m !! "admin") eqn:Em; simpl in He; [eauto|by apply elem_of_nil in He].
    + rewrite lookup_insert_ne in Hl by done. left. eauto.
  - intros [(m' & l & [= <-] & Hl & He)|[-> ->]].
    + destruct (decide (r = "admin")) as [->|Hne]; eexists _, _; (split; [done|]).
      * rewrite lookup_insert_eq, Hl. split; [done|]. simpl. apply elem_of_app. by left.
      * rewrite lookup_insert_ne by done. eauto.
    + eexists _, _. split; [done|]. rewrite lookup_insert_eq. split; [done|].
      apply elem_of_app. right. left.
Qed.

(** The entries that are the enrolling account, as the file may spell it. *)
Definition is_account (user : string) (uid : Z) (resolve : string -> option Z) (e : BindingEntry) : Prop :=
  match e with EUid u => u = uid | EName n => n = user \/ resolve n = Some uid end.

Lemma roles_held m user uid resolve r :
  r ∈ map fst (List.filter (fun kv : string * list BindingEntry => existsb (fun e =>
        match e with
        | EUid u => Z.eqb u uid
        | EName n => String.eqb n user || bool_decide (resolve n = Some uid)
        end) (snd kv)) (btree_iter m)) <->
  exists e, is_account user uid resolve e /\ r ∈ roles_of (SPresent m) e.
Proof.
  rewrite elem_of_map. setoid_rewrite elem_of_bfilter. setoid_rewrite existsb_true.
  assert (forall e, match e with
      | EUid u => Z.eqb u uid
      | EName n => String.eqb n user || bool_decide (resolve n = Some uid)
      end = true <-> is_account user uid resolve e) as Hme.
  { intros [n|u]; simpl; [|by rewrite Z.eqb_eq].
    by rewrite orb_true_iff, String.eqb_eq, bool_decide_eq_true. }
  setoid_rewrite Hme. setoid_rewrite roles_of_elem. split.
  - intros ([k l] & -> & Hkl%btree_iter_elem & e & He & Hm). exists e. eauto 10.
  - intros (e & Hm & m' & l & [= <-] & Hl & He). exists (r, l). split; [done|].
    split; [by apply btree_iter_elem|eauto].
Qed.

(** enrolment adds one admin and nothing else: a section it returns lists
    the user under admin, keeps every other role of every entry, and replaces no
    explicit bindings that the mirror still holds; it is refused for an account
    the file contains or lists under another role, by whatever name. *)
Theorem enroll_exact (file : Section_) (mirror : option Section_) (user : string) (uid : Z)
    (resolve : string -> option Z) :
  let holds r := exists e, is_account user uid resolve e /\ r ∈ roles_of file e in
  match enroll_section file mirror user uid resolve with
  | Err EBContained => holds ADVERSARY
  | Err (EBOtherRole r) => r <> "admin" /\ holds r
  | Err EBLost => is_present file = false /\ exists m, mirror = Some (SPresent m)
  | Ok None => holds "admin" /\ forall r, holds r -> r = "admin"
  | Ok (Some s) =>
      (forall r, ~ holds r) /\
      (is_present file = true \/ forall m, mirror <> Some (SPresent m)) /\
      forall e r, r ∈ roles_of s e <-> r ∈ roles_of file e \/ e = EName user /\ r = "admin"
  end.
Proof.
  intros holds. unfold enroll_section.
  assert (is_present file = false -> forall r, ~ holds r) as Hnone.
  { intros Hf r (e & _ & He). by rewrite roles_of_unlisted in He. }
  pose proof (add_admin_roles ∅ (EName user)) as Hnew.
  destruct file as [| |m]; [destruct mirror as [[| |mm]|];
    solve [split; eauto|split; [by apply Hnone|]; split; [by right|exact Hnew]]..|].
  pose proof (roles_held m user uid resolve) as Hheld.
  set (held := map fst _) in *. clearbody held.
  destruct (existsb _ held) eqn:Ea.
  { apply existsb_true in Ea as (r & Hr & ->%String.eqb_eq). by apply Hheld. }
  destruct (List.find _ held) as [r|] eqn:Ef.
  { apply find_some_iff in Ef as [Hr Hn%negb_true_iff%String.eqb_neq]. split; [done|by apply Hheld]. }
  apply find_none_iff in Ef. rewrite existsb_false in Ef.
  assert (forall r, holds r -> r = "admin") as Hadm.
  { intros r Hr%Hheld. specialize (Ef r Hr). by apply negb_false_iff, String.eqb_eq in Ef. }
  destruct held as [|r0 held].
  - split; [intros r Hr; apply Hheld in Hr; by apply elem_of_nil in Hr|]. split; [by left|].
    apply add_admin_roles.
  - split; [|done]. assert (holds r0) as Hr0 by (apply Hheld; left). by rewrite <-(Hadm _ Hr0).
Qed.

(** ** Witnesses *)

Definition demo_base : Section_ := SPresent {["admin" := [EName "alice"]; "user" := [EName "bob"]]}.
(** The kernel has contained bob; root has made him a guest. *)
Definition demo_live : Section_ :=
  SPresent {["admin" := [EName "alice"]; "user" := [EName "bob"]; "adversary" := [EName "bob"]]}.
Definition demo_file : Section_ := SPresent {["admin" := [EName "alice"]; "guest" := [EName "bob"]]}.
Definition demo_sync : Stored := mkStored demo_base demo_live ∅.
Definition demo_text (_ : Z) : string := "0".

Lemma merge_exact_witness :
  roles_of (mg_live (merge demo_text (Some demo_sync) demo_file)) (EName "bob") = {[ADVERSARY]} /\
  EName "bob" ∈ mg_conflicts (merge demo_text (Some demo_sync) demo_file).
Proof.
  destruct (merge_exact demo_text demo_sync demo_file eq_refl) as (_ & Hr & Hc). split.
  - rewrite Hr. refine (bool_decide_unpack _ _). by vm_compute.
  - apply Hc. refine (bool_decide_unpack _ _). by vm_compute.
Defined.

Lemma merge_fails_closed_witness :
  ADVERSARY ∈ roles_of (mg_live (merge demo_text (Some demo_sync) demo_file)) (EName "bob").
Proof.
  destruct (merge_fails_closed demo_text demo_sync demo_file (EName "bob")) as [H _].
  destruct (H eq_refl) as (_ & Hl & _). apply dec_stable. intros Hn.
  destruct (decide (ADVERSARY ∈ roles_of demo_live (EName "bob"))) as [Hin|Hin].
  - apply Hn. refine (bool_decide_unpack _ _). by vm_compute.
  - apply Hin. refine (bool_decide_unpack _ _). by vm_compute.
Defined.

Lemma merge_settles_witness :
  let m := merge demo_text (Some demo_sync) demo_file in
  mg_kind m = RootFile /\ mg_kind (merge demo_text (Some (stored_after m)) demo_file) = Unchanged.
Proof.
  intros m. split; [by vm_compute|].
  destruct (merge_settles demo_text demo_sync demo_file eq_refl) as (_ & _ & _ & Hk). exact Hk.
Defined.

Lemma merge_reports_witness :
  exists c, MConflict (EName "bob") c ∈ mg_events (merge demo_text (Some demo_sync) demo_file).
Proof.
  destruct (merge_reports demo_text demo_sync demo_file (EName "bob") eq_refl) as [H _].
  apply H. split; refine (bool_decide_unpack _ _); by vm_compute.
Defined.

Lemma sync_invariant_witness :
  let st := stored_after (merge demo_text (Some (stored_after (merge demo_text None demo_base))) demo_file) in
  is_present (st_base st) = is_present (st_live st).
Proof.
  intros st. refine (proj1 (sync_invariant demo_text st _)).
  eapply sync_next; [apply (sync_first _ demo_base)|apply sync_reload].
Defined.

Definition demo_contained_7 : Section_ := SPresent {["adversary" := [EUid 7]]}.
Definition demo_mirror : Section_ :=
  SPresent {["user" := [EName "bob"]; "adversary" := [EName "bob"]]}.

Lemma install_never_loosens_witness :
  effective_loosenings demo_contained_7 demo_mirror {["bob" := 7%Z]} = [] /\
  bound_to (from_section demo_text demo_mirror) {["bob" := 7%Z]} 7 Adversary.
Proof.
  assert (effective_loosenings demo_contained_7 demo_mirror {["bob" := 7%Z]} = []) as He by by vm_compute.
  split; [exact He|].
  apply (proj2 (install_never_loosens demo_text demo_contained_7 demo_mirror _ He)).
  exists (EUid 7). split; [|done]. exists {["adversary" := [EUid 7]]}, [EUid 7].
  split_and!; [done..|left].
Defined.
