(* ===== verification/PolicySource.v ===== *)
(** * The policy source: [crates/maknae-authz-basic/src/lib.rs]

    What a load of [authz.yaml] and [bindings.yaml] must satisfy before the
    snapshot compiler takes it: the account lookups, the grant, destination and
    subject vocabularies, the resolved subjects, and the identity layer the
    files declare. The account database is a parameter, [lookup]; so are the
    digest and the platform's path text. *)
From stdpp Require Import base list strings gmap sorting.
From Stdlib Require Import ZArith Lia Ascii.
From S2P Require Import Prelude RustStr RustSlice Seam Config AuthzPolicy.
From S2P Require Import Decide Graph GraphFormat Identity Bindings.
Open Scope nat_scope.

(** ** Account lookups *)

Inductive Lookup :=
| LFound (uid : Z)
| LAbsent
| LFailed (errno : Z).

Definition lookup_from (r : option Z) : Lookup :=
  match r with Some u => LFound u | None => LAbsent end.

(** [NssLookup]'s answer, as [classify] turns it into a [Lookup]. *)
Definition classify (lookup : string -> result (option Z) Z) (name : string) : Lookup :=
  match lookup name with Err errno => LFailed errno | Ok r => lookup_from r end.

Inductive Errno := ENOENT | ESRCH | EBADF | EPERM | EOther (code : Z).

(** The errno numbers are the platform's. *)
Definition classify_lookup (code : Errno -> Z) (r : result (option Z) Errno) : Lookup :=
  match r with
  | Ok (Some uid) => LFound uid
  | Ok None | Err ENOENT | Err ESRCH | Err EBADF | Err EPERM => LAbsent
  | Err e => LFailed (code e)
  end.

Abbreviation Lookups := (gmap string (option Z)).

Definition found (lookups : Lookups) : UidMap := omap (fun u => u) lookups.

(** The names [bindings.yaml] lists, in role order. *)
Definition bound_list (b : Bindings) : list string :=
  match bi_roles b with
  | None => []
  | Some m =>
      omap (fun e => match e with EName n => Some n | EUid _ => None end)
        (concat (map snd (btree_iter m)))
  end.

Definition lookup_refusal (bound : list string) (name : string) (errno : Z) : AuthzBasicError :=
  let m := "looking up '" +:+ name +:+ "' failed (errno " +:+ int_to_string errno
           +:+ "); nothing was changed" in
  if existsb (String.eqb name) bound then ABBindings m else ABSubjectLookup m.

Fixpoint lookup_loop (lookup : string -> Lookup) (bound : list string) (asked : gset string)
    (map : Lookups) (names : list string) : result Lookups AuthzBasicError :=
  match names with
  | [] => Ok map
  | name :: names' =>
      if bool_decide (name ∈ asked) then lookup_loop lookup bound asked map names'
      else
        match lookup name with
        | LFound uid =>
            lookup_loop lookup bound ({[name]} ∪ asked) (<[name := Some uid]> map) names'
        | LAbsent => lookup_loop lookup bound ({[name]} ∪ asked) (<[name := None]> map) names'
        | LFailed errno => Err (lookup_refusal bound name errno)
        end
  end.

(** One lookup per distinct bound or [subjects:] name. *)
Definition resolve_uid_map_with (policy : AuthzPolicy) (bindings : Bindings)
    (lookup : string -> Lookup) : result Lookups AuthzBasicError :=
  let bound := bound_list bindings in
  lookup_loop lookup bound ∅ ∅ (bound ++ map fst (btree_iter (p_subjects policy))).

(** ** Grants *)

Definition grant_role (key : string) : result Role AuthzBasicError :=
  match role_from_key key with
  | None => Err (ABUnknownRole key)
  | Some Admin => Ok Admin
  | Some User => Ok User
  | Some _ => Err (ABRoleNotSupportedYet key)
  end.

Fixpoint destinations_loop (out : DestinationGrants) (l : list (string * RawDestinations))
  : result DestinationGrants AuthzBasicError :=
  match l with
  | [] => Ok out
  | (key, d) :: l' =>
      let? _ := grant_role key in destinations_loop (<[key := rd_allow d]> out) l'
  end.

Definition validate_destinations (raw : gmap string RawDestinations)
  : result DestinationGrants AuthzBasicError := destinations_loop ∅ (btree_iter raw).

(** A [user] holds [session.prompt] alone. *)
Definition role_holds (role : Role) (t : string) : bool :=
  negb (role_eqb role User) || String.eqb t "session.prompt".

Definition role_terms (key : string) (role : Role) (p : ActionPattern)
  : result (list string) AuthzBasicError :=
  let unknown := ABUnknownActionTerm (action_source p) in
  let? expanded := map_err (fun _ => unknown) (expand p) in
  let terms := List.filter (fun t => existsb (String.eqb t) GRANTABLE_ACTIONS)
                 (map fst expanded) in
  match p with
  | Exact t =>
      match terms with
      | [] => Err unknown
      | term :: _ =>
          if negb (role_holds role term) then Err (ABTermNotGrantableForRole key t) else Ok terms
      end
  | Family _ =>
      match List.filter (role_holds role) terms with
      | [] => Err unknown
      | held => Ok held
      end
  end.

Definition check_entries_of (key : string) (role : Role) (entries : list ActionPattern)
  : result (list Grant) AuthzBasicError :=
  let? l := try_map (fun p => let? ts := role_terms key role p in
                              Ok (map (fun t => (t, action_source p)) ts)) entries in
  Ok (concat l).

Fixpoint grants_loop (out : ActionGrants) (l : list (string * RawActionGrants))
  : result ActionGrants AuthzBasicError :=
  match l with
  | [] => Ok out
  | (key, grants) :: l' =>
      let? role := grant_role key in
      let? allow := check_entries_of key role (rg_allow grants) in
      let? deny := check_entries_of key role (rg_deny grants) in
      grants_loop (<[key := (allow, deny)]> out) l'
  end.

Definition validate_grants (raw : gmap string RawActionGrants)
  : result ActionGrants AuthzBasicError := grants_loop ∅ (btree_iter raw).

(** ** Subjects *)

(** [entry(t).or_insert(source)]: the first entry naming a term keeps it. *)
Definition or_insert {A} (k : string) (a : A) (m : gmap string A) : gmap string A :=
  if is_some (m !! k) then m else <[k := a]> m.

Fixpoint expand_all (terms : gmap string string) (patterns : list ActionPattern)
  : result (gmap string string) AuthzBasicError :=
  match patterns with
  | [] => Ok terms
  | p :: patterns' =>
      let? expanded := expand p in
      expand_all (fold_left (fun m '(t, source) => or_insert t source m) expanded terms) patterns'
  end.

Definition action_set (lists : SubjectActions) : result SubjectActionSet AuthzBasicError :=
  let? allow := expand_all ∅ (sa_allow lists) in
  let? deny := expand_all ∅ (sa_deny lists) in
  Ok (mkActionSet allow deny).

Fixpoint subjects_loop (lookups : Lookups) (out : SubjectGrants) (l : list (string * SubjectPolicy))
  : result SubjectGrants AuthzBasicError :=
  match l with
  | [] => Ok out
  | (name, entry) :: l' =>
      let? actions := try_opt action_set (su_actions entry) in
      match lookups !! name with
      | Some (Some uid) =>
          match out !! uid with
          | Some first => Err (ABDuplicateSubjectUid uid (se_name first) name)
          | None =>
              subjects_loop lookups
                (<[uid := mkSubjectEntry name (su_permissions entry) actions (su_models entry)]> out)
                l'
          end
      | _ => subjects_loop lookups out l'
      end
  end.

Definition validate_subjects (policy : AuthzPolicy) (lookups : Lookups)
  : result SubjectGrants AuthzBasicError :=
  subjects_loop lookups ∅ (btree_iter (p_subjects policy)).

(** ** The source *)

(** A path: its UTF-8 text when it has one, and how it is displayed. *)
Record PathBuf := mkPathBuf { pb_str : option string; pb_display : string }.
Record PolicyPaths := mkPaths { pp_authz : PathBuf; pp_bindings : PathBuf }.

Definition utf8 (p : PathBuf) : result string AuthzBasicError :=
  ok_or (pb_str p) (ABLoad ("policy path " +:+ pb_display p +:+ " is not UTF-8")).

Definition rule_error_text (e : RoleRuleError) : string :=
  match e with
  | RRUnknownRole k => "bindings names unknown role '" +:+ k +:+ "'"
  | RRDuplicate n => "identity '" +:+ n +:+ "' listed twice in one role"
  | RRUidOutsideAdversary k =>
      "role '" +:+ k +:+ "' lists a uid entry; `uid:` entries are accepted under adversary only"
  end.

Record PolicySource := mkSource {
  ps_policy : AuthzPolicy;
  ps_bindings : Bindings;
  ps_lookups : Lookups;
  ps_lookup : string -> result (option Z) Z;
  ps_resolved : Resolved;
  ps_subjects : SubjectGrants;
  ps_principal : Z;
  ps_paths : PolicyPaths;
  ps_policy_source : string;
  ps_identity_source : string }.

Definition lift_bindings (e : fault RoleRuleError) : fault AuthzBasicError :=
  match e with Panic => Panic | Refused e => Refused (ABBindings (rule_error_text e)) end.

Definition from_lookups (policy : AuthzPolicy) (bindings : Bindings) (lookups : Lookups)
    (lookup : string -> result (option Z) Z) (principal : Z) (paths : PolicyPaths)
  : result PolicySource (fault AuthzBasicError) :=
  let? policy_source := map_err Refused (utf8 (pp_authz paths)) in
  let? identity_source := map_err Refused (utf8 (pp_bindings paths)) in
  let? resolved := map_err lift_bindings (resolve_subjects bindings (found lookups)) in
  let? _ := map_err Refused (validate_grants (p_action_grants policy)) in
  let? _ := map_err Refused (validate_destinations (p_destinations policy)) in
  let? subjects := map_err Refused (validate_subjects policy lookups) in
  Ok (mkSource policy bindings lookups lookup resolved subjects principal paths policy_source
        identity_source).

(** [load] once both files have loaded. *)
Definition load (policy : AuthzPolicy) (bindings : Bindings)
    (lookup_uid : string -> result (option Z) Z) (principal : Z) (paths : PolicyPaths)
  : result PolicySource (fault AuthzBasicError) :=
  let? lookups := map_err Refused (resolve_uid_map_with policy bindings (classify lookup_uid)) in
  from_lookups policy bindings lookups lookup_uid principal paths.

Definition from_parts (policy : AuthzPolicy) (bindings : Bindings) (uid_map : gmap string Z)
    (lookup_uid : string -> result (option Z) Z) (principal : Z) (paths : PolicyPaths)
  : result PolicySource (fault AuthzBasicError) :=
  from_lookups policy bindings (Some <$> uid_map) lookup_uid principal paths.

Definition with_bindings_resolved (src : PolicySource) (bindings : Bindings) (lookups : Lookups)
  : result PolicySource (fault AuthzBasicError) :=
  from_lookups (ps_policy src) bindings lookups (ps_lookup src) (ps_principal src) (ps_paths src).

Definition with_bindings (src : PolicySource) (bindings : Bindings)
  : result PolicySource (fault AuthzBasicError) :=
  let? lookups :=
    map_err Refused (resolve_uid_map_with (ps_policy src) bindings (classify (ps_lookup src))) in
  with_bindings_resolved src bindings lookups.

(** A name this load already asked for keeps its answer. *)
Definition with_live_bindings (src : PolicySource) (bindings : Bindings)
  : result PolicySource (fault AuthzBasicError) :=
  let? lookups :=
    map_err Refused (resolve_uid_map_with (ps_policy src) bindings (fun n =>
      match ps_lookups src !! n with
      | Some r => lookup_from r
      | None => classify (ps_lookup src) n
      end)) in
  with_bindings_resolved src bindings lookups.

Definition answered (src : PolicySource) (name : string) : bool :=
  is_some (ps_lookups src !! name).

Definition unresolved_adversaries (src : PolicySource) : list string :=
  omap (fun p => match p with PUnresolvedAdversary name => Some name | _ => None end)
    (rv_problems (ps_resolved src)).

Definition layer_entry (s : Z * Role * string) : Identity.SubjectEntry :=
  let '(uid, role, name) := s in mkSubject uid name (role_key role).

Definition identity_layer (src : PolicySource) (label : string) (bindings_sha256 : option digest)
  : IdentityLayer :=
  with_claims
    (mkLayer (ps_identity_source src) label bindings_sha256
       (map layer_entry (rv_subjects (ps_resolved src))) ∅)
    (rv_adversary_names (ps_resolved src)).

Definition section_digests (digest_of : string -> digest) (src : PolicySource)
  : gmap string digest :=
  let out := digest_of <$> p_sections (ps_policy src) in
  match bi_section (ps_bindings src) with
  | Some b => <["bindings" := digest_of b]> out
  | None => out
  end.

(** ** Lemmas: lookups *)

Lemma lookup_loop_spec lookup bound names : forall asked map out,
  lookup_loop lookup bound asked map names = Ok out ->
  (forall n, is_Some (map !! n) <-> n ∈ asked) ->
  forall n r, out !! n = Some r <->
    map !! n = Some r \/ (n ∈ names /\ n ∉ asked /\ lookup n = lookup_from r).
Proof.
  induction names as [|name names IH]; intros asked map out H Hm n r; simpl in H.
  { injection H as <-. split; [auto|]. intros [?|(?%elem_of_nil & _)]; done. }
  case_bool_decide as Ha.
  { rewrite (IH _ _ _ H Hm). rewrite elem_of_cons. naive_solver. }
  assert (exists r0, lookup name = lookup_from r0 /\
    lookup_loop lookup bound ({[name]} ∪ asked) (<[name := r0]> map) names = Ok out)
    as (r0 & Hr0 & H').
  { destruct (lookup name) as [uid| |e]; [by exists (Some uid)|by exists None|done]. }
  rewrite (IH _ _ _ H').
  2: { intros k. rewrite lookup_insert_is_Some, Hm, elem_of_union, elem_of_singleton.
       destruct (decide (name = k)); naive_solver. }
  assert (forall r1, lookup_from r0 = lookup_from r1 -> r1 = r0) as Hinj.
  { intros [u|]; destruct r0; simpl; congruence. }
  rewrite lookup_insert_Some, elem_of_cons, elem_of_union, elem_of_singleton.
  assert (n = name -> map !! n = None) as Hnone.
  { intros ->. apply eq_None_not_Some. by rewrite Hm. }
  split.
  - intros [[[-> ->]|[? ?]]|(? & ? & ?)]; [right; auto|auto|]. right. naive_solver.
  - intros [Hn|([->|Hn] & Hna & Hl)].
    + left. right. split; [|done]. intros <-. by rewrite Hnone in Hn.
    + left. left. split; [done|]. symmetry. apply Hinj. congruence.
    + destruct (decide (n = name)) as [->|Hne].
      * left. left. split; [done|]. symmetry. apply Hinj. congruence.
      * right. split_and!; [done| |done]. naive_solver.
Qed.

Lemma lookup_loop_total lookup bound names : forall asked map,
  (forall n e, n ∈ names -> n ∉ asked -> lookup n <> LFailed e) ->
  exists out, lookup_loop lookup bound asked map names = Ok out.
Proof.
  induction names as [|name names IH]; intros asked map H; simpl; [eauto|].
  setoid_rewrite elem_of_cons in H.
  case_bool_decide as Ha; [apply IH; naive_solver|].
  destruct (lookup name) as [uid| |e] eqn:E.
  - apply IH. set_solver.
  - apply IH. set_solver.
  - by destruct (H name e (or_introl eq_refl) Ha).
Qed.

(** ** Lemmas: grants *)

Definition names_term (p : ActionPattern) (t : string) : Prop :=
  match p with Exact e => t = e | Family f => class_of t = class_of f end.

(** The terms a written entry grants a role. *)
Definition grants (role : Role) (p : ActionPattern) (t : string) : Prop :=
  t ∈ GRANTABLE_ACTIONS /\ names_term p t /\ role_holds role t = true.

Lemma grantable_known t : t ∈ GRANTABLE_ACTIONS -> t ∈ ACTION_VOCABULARY.
Proof.
  intros Ht. assert (forallb (fun t => existsb (String.eqb t) ACTION_VOCABULARY) GRANTABLE_ACTIONS = true)
    as H by reflexivity.
  rewrite forallb_true in H. by apply H, existsb_true in Ht as (x & Hx & ->%String.eqb_eq).
Qed.

Lemma expand_terms p ts t :
  expand p = Ok ts -> t ∈ map fst ts <-> t ∈ ACTION_VOCABULARY /\ names_term p t.
Proof.
  intros H. assert (exists c, class_of (pattern_name p) = Some c /\
    ts = map (fun t => (t, action_source p)) (List.filter (fun t => match p with
           | Exact e => String.eqb t e
           | Family _ => bool_decide (class_of t = Some c) end) ACTION_VOCABULARY)) as (c & Hc & ->).
  { unfold expand in H. destruct (class_of (pattern_name p)) as [c|]; [|done].
    exists c. split; [done|]. destruct c; try done; repeat case_match; congruence. }
  rewrite List.map_map, elem_of_map. setoid_rewrite elem_of_bfilter.
  destruct p as [e|f]; simpl in *.
  - setoid_rewrite String.eqb_eq. naive_solver.
  - setoid_rewrite bool_decide_eq_true. rewrite Hc. naive_solver.
Qed.

Lemma role_terms_Ok key role p ts :
  role_terms key role p = Ok ts -> forall t, t ∈ ts <-> grants role p t.
Proof.
  unfold role_terms, grants. intros H t.
  destruct (expand p) as [ex|] eqn:Ex; [|done]. cbn [map_err] in H.
  assert (forall x, x ∈ List.filter (fun t => existsb (String.eqb t) GRANTABLE_ACTIONS) (map fst ex)
    <-> x ∈ GRANTABLE_ACTIONS /\ names_term p x) as Hterms.
  { intros x. rewrite elem_of_bfilter, (expand_terms _ _ _ Ex), existsb_true.
    setoid_rewrite String.eqb_eq. pose proof (grantable_known x). naive_solver. }
  destruct p as [e|f].
  - destruct (List.filter _ _) as [|term terms]; [done|].
    destruct (role_holds role term) eqn:Eh; [|done]. simpl in H. injection H as <-.
    rewrite Hterms. assert (names_term (Exact e) term) as Hterm by (apply Hterms; left).
    simpl in *. naive_solver.
  - assert (ts = List.filter (role_holds role) (List.filter
      (fun t => existsb (String.eqb t) GRANTABLE_ACTIONS) (map fst ex))) as ->.
    { destruct (List.filter (role_holds role) _); [done|]. by injection H. }
    rewrite elem_of_bfilter, Hterms. tauto.
Qed.

Lemma check_entries_of_Ok key role entries out :
  check_entries_of key role entries = Ok out ->
  forall t, t ∈ map fst out <-> exists p, p ∈ entries /\ grants role p t.
Proof.
  unfold check_entries_of. intros H. unbind H. injection H as <-. apply try_map_Ok in E. intros t.
  induction E as [|p l entries ls Hp _ IH]; simpl.
  { split; [intros ?%elem_of_nil; done|intros (? & ?%elem_of_nil & _); done]. }
  rewrite List.map_app, elem_of_app, IH.
  destruct (role_terms key role p) as [ts|] eqn:Et; [|done]. injection Hp as <-.
  rewrite List.map_map. simpl. rewrite List.map_id, (role_terms_Ok _ _ _ _ Et).
  setoid_rewrite elem_of_cons. naive_solver.
Qed.

Lemma grants_loop_spec l : forall out g,
  NoDup l.*1 -> (forall k, k ∈ l.*1 -> out !! k = None) -> grants_loop out l = Ok g ->
  forall k, (k ∉ l.*1 /\ g !! k = out !! k) \/
    exists rg role allow deny, (k, rg) ∈ l /\ grant_role k = Ok role /\
      check_entries_of k role (rg_allow rg) = Ok allow /\
      check_entries_of k role (rg_deny rg) = Ok deny /\ g !! k = Some (allow, deny).
Proof.
  induction l as [|[key rg] l IH]; intros out g Hnd Hout H k; simpl in H.
  { injection H as <-. left. split; [apply not_elem_of_nil|done]. }
  unbind H. rewrite fmap_cons, NoDup_cons in Hnd. destruct Hnd as [Hk Hnd]. simpl in Hk.
  assert (forall k', k' ∈ l.*1 -> <[key := (a0, a1)]> out !! k' = None) as Hout'.
  { intros k' Hk'. rewrite lookup_insert_ne by set_solver. apply Hout. simpl. by right. }
  rewrite fmap_cons. simpl.
  destruct (IH _ _ Hnd Hout' H k) as [[Hn Hg]|(rg' & ro & al & de & Hin & ?)].
  - destruct (decide (k = key)) as [->|Hne].
    + right. exists rg, a, a0, a1. rewrite Hg, lookup_insert_eq. split_and!; try done. left.
    + left. rewrite Hg, lookup_insert_ne by done. split; [|done]. set_solver.
  - right. exists rg', ro, al, de. split; [by right|done].
Qed.

Lemma validate_grants_spec raw g key :
  validate_grants raw = Ok g ->
  match raw !! key with
  | None => g !! key = None
  | Some rg => exists role allow deny, grant_role key = Ok role /\
      check_entries_of key role (rg_allow rg) = Ok allow /\
      check_entries_of key role (rg_deny rg) = Ok deny /\ g !! key = Some (allow, deny)
  end.
Proof.
  intros H. destruct (grants_loop_spec (btree_iter raw) ∅ g (btree_iter_NoDup _)
    ltac:(by intros; apply lookup_empty) H key)
    as [[Hn Hg]|(rg & role & al & de & Hin%btree_iter_elem & ?)].
  - destruct (raw !! key) as [rg|] eqn:E; [|by rewrite Hg, lookup_empty].
    apply btree_iter_elem in E. destruct Hn. apply list_elem_of_fmap. by exists (key, rg).
  - rewrite Hin. eauto 10.
Qed.

Lemma find_term (l : list Grant) a :
  (exists s, List.find (fun t => String.eqb (fst t) a) l = Some s) <-> a ∈ map fst l.
Proof.
  rewrite elem_of_map. split.
  - intros [[t s] [Hin Heq]%List.find_some]. apply list_elem_of_In in Hin. simpl in Heq.
    apply String.eqb_eq in Heq as ->. by exists (a, s).
  - intros ([t s] & -> & Hin). simpl.
    destruct (List.find _ l) as [x|] eqn:E; [eauto|].
    apply list_elem_of_In in Hin. apply (List.find_none _ _ E) in Hin. simpl in Hin.
    by rewrite String.eqb_refl in Hin.
Qed.

(** ** Lemmas: subjects *)

Definition subject_row (lookups : Lookups) (name : string) (entry : SubjectPolicy) (uid : Z)
    (e : Decide.SubjectEntry) : Prop :=
  lookups !! name = Some (Some uid) /\ se_name e = name /\
  se_permissions e = su_permissions entry /\ se_models e = su_models entry /\
  try_opt action_set (su_actions entry) = Ok (se_actions e).

Lemma limits_loop_spec lookups l : forall out g,
  PolicySource.subjects_loop lookups out l = Ok g ->
  (forall uid e, g !! uid = Some e <->
     out !! uid = Some e \/ exists name entry, (name, entry) ∈ l /\ subject_row lookups name entry uid e) /\
  (forall name entry uid, (name, entry) ∈ l -> lookups !! name = Some (Some uid) -> out !! uid = None).
Proof.
  induction l as [|[name entry] l IH]; intros out g H; simpl in H.
  { injection H as <-. split; [|by intros ? ? ? ?%elem_of_nil].
    intros uid e. split; [auto|]. intros [?|(? & ? & ?%elem_of_nil & _)]; done. }
  destruct (try_opt action_set (su_actions entry)) as [actions|] eqn:Ea; [|done].
  destruct (lookups !! name) as [[uid|]|] eqn:El.
  - destruct (out !! uid) as [first|] eqn:Eo; [done|]. apply IH in H as [Hg Hfresh]. split.
    + intros u e. rewrite Hg, lookup_insert_Some. setoid_rewrite elem_of_cons. split.
      * intros [[[<- <-]|[? ?]]|(n & en & Hin & Hr)]; [|auto|eauto 10].
        right. exists name, entry. split; [auto|]. by split_and!.
      * intros [Ho|(n & en & [[= -> ->]|Hin] & Hr)]; [|destruct Hr as (Hl & Hn & Hp & Hm & Hact)|eauto 10].
        -- left. right. split; [|done]. intros ->. congruence.
        -- left. left. rewrite El in Hl. injection Hl as <-. split; [done|]. rewrite Ea in Hact.
           injection Hact as ->. destruct e; simpl in *. by subst.
    + intros n en u [[= -> ->]|Hin]%elem_of_cons Hl; [congruence|].
      specialize (Hfresh _ _ _ Hin Hl). apply lookup_insert_None in Hfresh. tauto.
  - apply IH in H as [Hg Hfresh]. split.
    + intros u e. rewrite Hg. setoid_rewrite elem_of_cons. unfold subject_row. naive_solver.
    + intros n en u [[= -> ->]|Hin]%elem_of_cons Hl; [congruence|eauto].
  - apply IH in H as [Hg Hfresh]. split.
    + intros u e. rewrite Hg. setoid_rewrite elem_of_cons. unfold subject_row. naive_solver.
    + intros n en u [[= -> ->]|Hin]%elem_of_cons Hl; [congruence|eauto].
Qed.

(** ** Lemmas: the declared layer *)

Lemma layer_find (l : list (Z * Role * string)) uid :
  NoDup (map (fun s => fst (fst s)) l) ->
  forall r, ((s ← List.find (fun s => Z.eqb (s_uid s) uid) (map layer_entry l);
              role_from_key (s_role s)) = Some r) <-> exists n, (uid, r, n) ∈ l.
Proof.
  intros Hnd r. induction l as [|[[u ro] n] l IH]; simpl.
  { split; [done|]. by intros [n ?%elem_of_nil]. }
  simpl in Hnd. apply NoDup_cons in Hnd as [Hu Hnd]. setoid_rewrite elem_of_cons.
  destruct (Z.eqb_spec u uid) as [->|Hne].
  - simpl. rewrite role_from_key_key. split; [intros [= <-]; eauto|].
    intros [m [Heq|Hin]]; [congruence|]. destruct Hu. by apply (elem_of_map_2 (fun s => fst (fst s))) in Hin.
  - rewrite (IH Hnd). split; [naive_solver|]. intros [m [Heq|Hin]]; [congruence|eauto].
Qed.

Lemma from_lookups_inv policy bindings lookups lookup principal paths src :
  from_lookups policy bindings lookups lookup principal paths = Ok src ->
  resolve_subjects bindings (found lookups) = Ok (ps_resolved src) /\
  validate_subjects policy lookups = Ok (ps_subjects src) /\
  ps_policy src = policy /\ ps_bindings src = bindings /\ ps_lookups src = lookups /\
  (exists g, validate_grants (p_action_grants policy) = Ok g) /\
  pb_str (pp_bindings paths) = Some (ps_identity_source src).
Proof.
  unfold from_lookups. intros H. unbind H. injection H as <-. cbn.
  unfold utf8 in *. destruct (pb_str (pp_bindings paths)) as [s|]; [|done].
  destruct (resolve_subjects _ _) as [r|]; [|done].
  destruct (validate_subjects _ _) as [g|]; [|done].
  destruct (validate_grants _) as [gr|]; [|done].
  cbn in *. simplify_eq. split_and!; eauto.
Qed.

(** ** Theorems *)

(** the validated role grants allow exactly what is written: an action is
    allowed to a role when an [allow] entry grants it to that role and no [deny]
    entry does; only [admin] and [user] hold grants, and a [user] is only ever
    allowed [session.prompt]. *)
Theorem grants_allow_iff (raw : gmap string RawActionGrants) (g : ActionGrants) (key a : string)
    (Hv : validate_grants raw = Ok g) :
  ((exists s, evaluate3_action g key a = AllowMatch s) <->
   exists rg role, raw !! key = Some rg /\ role_from_key key = Some role /\
     (exists p, p ∈ rg_allow rg /\ grants role p a) /\
     ~ (exists p, p ∈ rg_deny rg /\ grants role p a)) /\
  (forall s, evaluate3_action g key a = AllowMatch s ->
     key = "admin" \/ (key = "user" /\ a = "session.prompt")).
Proof.
  pose proof (validate_grants_spec raw g key Hv) as Hspec. unfold evaluate3_action.
  destruct (raw !! key) as [rg|].
  2: { rewrite Hspec. split; [split; [by intros [? ?]|naive_solver]|done]. }
  destruct Hspec as (role & allow & deny & Hrole & Ha & Hd & ->).
  assert (role_from_key key = Some role /\ (role = Admin \/ role = User)) as [Hk Hau].
  { unfold grant_role in Hrole. destruct (role_from_key key) as [[]|]; naive_solver. }
  pose proof (check_entries_of_Ok _ _ _ _ Ha a) as Ha'.
  pose proof (check_entries_of_Ok _ _ _ _ Hd a) as Hd'. rewrite <-find_term in Ha', Hd'.
  split.
  - rewrite Hk. destruct (List.find _ deny) as [[t s]|]; [|destruct (List.find _ allow) as [[t s]|]];
      naive_solver.
  - intros s Hs. apply role_from_key_Some in Hk. destruct Hau as [->| ->]; [by left|right].
    split; [done|]. destruct (List.find _ deny) as [[t s']|]; [done|].
    destruct (List.find _ allow) as [[t s']|]; [|done].
    destruct (proj1 Ha') as (p & _ & _ & _ & Hh); [eauto|]. by apply String.eqb_eq.
Qed.

(** the per-subject limits are keyed by account: a uid's entry is the one
    [subjects:] writes for the only name that resolves to it, and a load in which
    two names resolve to one account is refused. *)
Theorem subject_limits_exact (policy : AuthzPolicy) (lookups : Lookups) (out : SubjectGrants)
    (Hv : validate_subjects policy lookups = Ok out) :
  (forall uid e, out !! uid = Some e <->
     exists name entry, p_subjects policy !! name = Some entry /\
       subject_row lookups name entry uid e) /\
  (forall uid e name entry, out !! uid = Some e -> p_subjects policy !! name = Some entry ->
     lookups !! name = Some (Some uid) -> name = se_name e).
Proof.
  destruct (limits_loop_spec lookups _ _ _ Hv) as [Hg _].
  assert (forall uid e, out !! uid = Some e <->
     exists name entry, p_subjects policy !! name = Some entry /\
       subject_row lookups name entry uid e) as Hiff.
  { intros uid e. rewrite Hg, lookup_empty. setoid_rewrite btree_iter_elem. naive_solver. }
  split; [done|]. intros uid e name entry He Hn Hl.
  assert (exists e', subject_row lookups name entry uid e') as [e' He'].
  { clear -Hv Hn Hl. unfold validate_subjects in Hv. apply btree_iter_elem in Hn.
    revert Hv. generalize (∅ : SubjectGrants). induction (btree_iter (p_subjects policy))
      as [|[n en] l IH]; intros o Hv; [by apply elem_of_nil in Hn|]. simpl in Hv.
    destruct (try_opt action_set (su_actions en)) as [acts|] eqn:Ea; [|done].
    apply elem_of_cons in Hn as [[= <- <-]|Hn].
    - by exists (mkSubjectEntry name (su_permissions entry) acts (su_models entry)).
    - destruct (lookups !! n) as [[u|]|]; [|by eapply IH..].
      destruct (o !! u); [done|]. by eapply IH. }
  assert (out !! uid = Some e') as Heq by (apply Hiff; eauto).
  rewrite He in Heq. injection Heq as ->. symmetry. apply He'.
Qed.

(** the identity layer a load declares says what [bindings.yaml] says: with a
    [bindings:] key, a uid holds a role in the layer exactly when the file binds
    it there (containment first), and without one only the principal holds a role,
    [admin]. *)
Theorem declared_role_iff (policy : AuthzPolicy) (bindings : Bindings) (lookups : Lookups)
    (lookup : string -> result (option Z) Z) (principal : Z) (paths : PolicyPaths)
    (src : PolicySource) (label : string) (sha : option digest) (uid : Z) (r : Role)
    (Hs : from_lookups policy bindings lookups lookup principal paths = Ok src) :
  layer_role (identity_layer src label sha) uid principal = RRole r <->
  match sha with
  | Some _ => bound_to bindings (found lookups) uid r
  | None => uid = principal /\ r = Admin
  end.
Proof.
  apply from_lookups_inv in Hs as (Hr & _).
  destruct (resolve_subjects_spec _ _ _ Hr) as (Hnd & Hb & _).
  unfold layer_role, identity_layer, with_claims. cbn [l_bindings_sha256 l_subjects].
  destruct sha as [d|].
  - rewrite <-Hb, <-(layer_find _ _ Hnd). destruct (_ ≫= _) as [r'|]; naive_solver.
  - destruct (Z.eqb_spec uid principal); naive_solver.
Qed.

(** ** Witnesses *)

Definition demo_raw : gmap string RawActionGrants :=
  {["admin" := mkRawGrants [Family "admin"] [Exact "admin.release"];
    "user" := mkRawGrants [Exact "session.prompt"] []]}.

Lemma grants_allow_iff_witness :
  exists g, validate_grants demo_raw = Ok g /\
    (exists s, evaluate3_action g "admin" "admin.status" = AllowMatch s) /\
    (exists rg role, demo_raw !! "admin" = Some rg /\ role_from_key "admin" = Some role /\
      (exists p, p ∈ rg_allow rg /\ grants role p "admin.status") /\
      ~ (exists p, p ∈ rg_deny rg /\ grants role p "admin.status")).
Proof.
  assert (match validate_grants demo_raw with
          | Ok g => evaluate3_action g "admin" "admin.status" = AllowMatch "admin.*"
          | Err _ => False
          end) as Hc by (vm_compute; reflexivity).
  destruct (validate_grants demo_raw) as [g|] eqn:E; [|destruct Hc].
  assert (exists s, evaluate3_action g "admin" "admin.status" = AllowMatch s) as Hs
    by (eexists; exact Hc).
  exists g. split; [reflexivity|]. split; [exact Hs|].
  apply (proj1 (grants_allow_iff demo_raw g "admin" "admin.status" E)). exact Hs.
Defined.

Definition demo_subjects : AuthzPolicy :=
  mkAuthzPolicy [] [] ∅ ∅ {["op" := mkSubjectPolicy None None None]} [] [] ∅.

Lemma subject_limits_exact_witness :
  exists out e, validate_subjects demo_subjects {["op" := Some 1000%Z]} = Ok out /\
    out !! 1000%Z = Some e /\
    exists name entry, p_subjects demo_subjects !! name = Some entry /\
      subject_row {["op" := Some 1000%Z]} name entry 1000 e.
Proof.
  assert (match validate_subjects demo_subjects {["op" := Some 1000%Z]} with
          | Ok out => out !! 1000%Z = Some (mkSubjectEntry "op" None None None)
          | Err _ => False
          end) as Ho by (vm_compute; reflexivity).
  destruct (validate_subjects demo_subjects {["op" := Some 1000%Z]}) as [out|] eqn:E;
    [|destruct Ho].
  exists out, (mkSubjectEntry "op" None None None). split; [reflexivity|]. split; [exact Ho|].
  apply (proj1 (subject_limits_exact demo_subjects {["op" := Some 1000%Z]} out E)). exact Ho.
Defined.

Definition demo_paths : PolicyPaths :=
  mkPaths (mkPathBuf (Some "/etc/maknae/authz.yaml") "/etc/maknae/authz.yaml")
    (mkPathBuf (Some "/etc/maknae/bindings.yaml") "/etc/maknae/bindings.yaml").

Definition demo_lookups : Lookups := Some <$> demo_lookup.

Definition demo_source_of (b : Bindings) : result PolicySource (fault AuthzBasicError) :=
  from_lookups demo_subjects b demo_lookups (fun _ => Ok None) 1000 demo_paths.

Lemma declared_role_iff_witness :
  exists src, demo_source_of demo_bindings = Ok src /\
    bound_to demo_bindings (found demo_lookups) 1002 Adversary.
Proof.
  assert (match demo_source_of demo_bindings with
          | Ok src => match layer_role (identity_layer src "U" (Some demo_digest)) 1002 1000 with
                      | RRole Adversary => true
                      | _ => false
                      end
          | Err _ => false
          end = true) as Hc by (vm_compute; reflexivity).
  destruct (demo_source_of demo_bindings) as [src|] eqn:E; [|exfalso; congruence].
  exists src. split; [reflexivity|].
  apply (declared_role_iff demo_subjects demo_bindings demo_lookups (fun _ => Ok None) 1000
           demo_paths src "U" (Some demo_digest) 1002 Adversary E).
  destruct (layer_role _ _ _) as [[]|]; congruence.
Defined.
