(* ===== verification/Snapshot.v ===== *)
(** * The compiled snapshot: [crates/maknae-authz-basic/src/snapshot.rs] and
    [vocabulary.rs]

    [compile] checks that the persisted identity graph is the one the loaded
    files declare (containment carried forward), extends it with the vocabulary
    and one rule node per written entry, indexes the rules for citation and
    builds the graph the decision core resolves roles over. The theorems relate
    that graph's roles to the files, and the index to the graph. Errors carry
    their cause, not its rendering. *)
From stdpp Require Import base list strings gmap sorting.
From Stdlib Require Import ZArith Lia Ascii.
From S2P Require Import Prelude RustStr RustSlice Seam Config PathGlob AuthzPolicy.
From S2P Require Import Decide Graph GraphFormat Identity Bindings PolicySource.
Open Scope nat_scope.

(** ** Vocabulary ([vocabulary.rs]) *)

Definition ACTION_TERMS : list string :=
  ["liveness.ping";
   "admin.whoami"; "admin.status"; "admin.config.show"; "admin.audit.tail"; "admin.policy.reload";
   "admin.subject.list"; "admin.subject.bind"; "admin.subject.unbind"; "admin.contain";
   "admin.release"; "admin.credential.rotate"; "admin.provider.list"; "admin.provider.set";
   "admin.provider.disable"; "admin.session.list"; "admin.session.terminate";
   "admin.baseline.show"; "admin.baseline.accept";
   "session.new"; "session.resume"; "session.close"; "session.delete"; "session.list";
   "session.fork"; "session.prompt"; "session.cancel"; "session.set_config_option";
   "session.set_mode"; "session.load"; "session.update"; "session.request_permission";
   "session.elicit.create"; "session.elicit.complete"; "session.compact";
   "fs.read"; "fs.write"; "fs.delete"; "fs.move"; "fs.list"; "fs.stat"; "fs.mkdir"; "fs.link";
   "fs.chmod"; "fs.chown";
   "terminal.create"; "terminal.output"; "terminal.wait_for_exit"; "terminal.kill";
   "terminal.release"; "terminal.input";
   "mcp.connect"; "mcp.disconnect"; "mcp.message"; "mcp.tool.call"; "mcp.resource.read";
   "mcp.prompt.get"; "mcp.sampling.create"].
Definition KERNEL_TERMS : list string := ["kernel.contain"; "kernel.session.terminate"].
Definition CLASSES : list string :=
  ["liveness"; "admin"; "session"; "fs"; "terminal"; "mcp"; "kernel"].
Definition ATTR_CLASS := "class".
Definition ATTR_ENTRY := "entry".
Definition ATTR_EFFECT := "effect".
Definition ATTR_TERM := "term".
Definition ATTR_DESTINATION := "destination".

Definition class_name (term : string) : option string :=
  let! c := class_of term in
  Some match c with
       | CLiveness => "liveness" | CAdmin => "admin" | CSession => "session" | CFs => "fs"
       | CTerminal => "terminal" | CMcp => "mcp" | CKernel => "kernel"
       end.

(** A term with no class panics. *)
Definition term_node {E} (label t : string) : result CompiledNode (fault E) :=
  let? class := ok_or (class_name t) Panic in
  Ok (mkCompiled TERM t label {[ATTR_CLASS := GStr class]}).

Definition compiled_set {E} (label : string) : result CompiledSet (fault E) :=
  let? terms := try_map (term_node label) (ACTION_TERMS ++ KERNEL_TERMS) in
  Ok (persisted_compiled_set label ++ terms ++ map (fun c => mkCompiled CLASS c label ∅) CLASSES).

(** ** Errors *)

Inductive CompileError :=
| SCIdentity (e : IdentityError)
| SCLayerDiffers (source : string)
| SCNoSourceNode
| SCGraph (e : GraphError)
| SCTermClass (term : string)
| SCPolicy (e : AuthzBasicError)
| SCNotCompiled (key : string)
| SCNoDigest (section : string)
| SCEntriesUndeclared (deny allow : nat)
| SCNotARole (key : string).

(** ** The compiler's state *)

#[export] Instance Effect_countable : Countable Effect.
Proof.
  apply (inj_countable' (fun e => match e with EAllow => true | EDeny => false end)
           (fun b : bool => if b then EAllow else EDeny)). by intros [].
Defined.

#[export] Instance Cited_countable : Countable Cited.
Proof.
  apply (inj_countable'
    (fun c => match c with
              | CPath e s => inl (inl (e, s))
              | CGrant r t e => inl (inr (r, t, e))
              | CDestination r d => inr (inl (r, d))
              | CSubjectPath n e s => inr (inr (n, e, s))
              end)
    (fun x => match x with
              | inl (inl (e, s)) => CPath e s
              | inl (inr (r, t, e)) => CGrant r t e
              | inr (inl (r, d)) => CDestination r d
              | inr (inr (n, e, s)) => CSubjectPath n e s
              end)). by intros [].
Defined.

Record Compiler := mkCompiler {
  co_nodes : list NodeRecord;
  co_edges : list EdgeRecord;
  co_node : Z;
  co_edge : Z;
  co_ids : gmap (Z * string) Z;
  co_index : gmap Cited RuleCitation }.

(** [u64]'s release-mode [+= 1]. *)
Definition next_id (n : Z) : Z := ((n + 1) mod u64_max)%Z.

Section Compile.
Context (label : string) (revision : Z) (source : string) (source_id : Z).
Context (digests : gmap string digest).
Abbreviation compiled A := (result A (fault CompileError)).

Definition refuse {A} (e : CompileError) : compiled A := Err (Refused e).

Definition seeded : Provenance := mkProv PSeed revision.

Definition add_node (kind : Z) (key : string) (attrs : Attrs) c : Z * Compiler :=
  let id := next_id (co_node c) in
  (id, mkCompiler
         (co_nodes c ++ [mkNode id KernelSpace kind key label seeded revision attrs])
         (co_edges c) id (co_edge c) (co_ids c) (co_index c)).

Definition add_edge (from kind to : Z) c : Compiler :=
  let id := next_id (co_edge c) in
  mkCompiler (co_nodes c)
    (co_edges c ++ [mkEdge id KernelSpace from to kind label seeded revision ∅])
    (co_node c) id (co_ids c) (co_index c).

Definition id_of c (kind : Z) (key : string) : compiled Z :=
  ok_or (co_ids c !! (kind, key)) (Refused (SCNotCompiled key)).

Definition add_section (name parent : string) c : compiled (Z * string * Compiler) :=
  let? d := ok_or (digests !! parent) (Refused (SCNoDigest parent)) in
  let key := source +:+ "#" +:+ name in
  let '(id, c) := add_node SECTION key {[ATTR_SHA256 := GStr (hex d)]} c in
  Ok (id, key, add_edge id PART_OF source_id c).

(** The first rule a citation names keeps it. *)
Definition index_rule (cited : Cited) (r : RuleCitation) c : Compiler :=
  mkCompiler (co_nodes c) (co_edges c) (co_node c) (co_edge c) (co_ids c)
    (if is_some (co_index c !! cited) then co_index c else <[cited := r]> (co_index c)).

Definition add_rule (key : string) (attrs : Attrs) (sec : Z * string) (cited : Cited) c
  : Z * Compiler :=
  let '(id, c) := add_node RULE key attrs c in
  let c := add_edge id DECLARED_BY (fst sec) c in
  (id, index_rule cited (mkCitation id key (snd sec)) c).

(** [effect_attrs]. *)
Definition effect_edge (e : Effect) : Z := match e with EAllow => PERMITS | EDeny => DENIES end.
Definition effect_word (e : Effect) : string := match e with EAllow => "allow" | EDeny => "deny" end.

Definition rule_attrs (attr text : string) (e : Effect) : Attrs :=
  <[ATTR_EFFECT := GStr (effect_word e)]> (<[attr := GStr text]> ∅).

(** [for (i, entry) in entries.iter().enumerate()]. *)
Fixpoint each_entry {A} (f : nat -> A -> Compiler -> compiled Compiler) (i : nat) (l : list A) c
  : compiled Compiler :=
  match l with
  | [] => Ok c
  | x :: l' => let? c := f i x c in each_entry f (S i) l' c
  end.

(** *** Vocabulary *)

Definition add_compiled (cn : CompiledNode) c : Compiler :=
  if is_some (co_ids c !! (c_kind cn, c_key cn)) then c
  else
    let id := next_id (co_node c) in
    mkCompiler
      (co_nodes c ++ [mkNode id KernelSpace (c_kind cn) (c_key cn) (c_label cn)
                        (mkProv PCompiled 0) 0 (c_attrs cn)])
      (co_edges c) id (co_edge c) (<[(c_kind cn, c_key cn) := id]> (co_ids c)) (co_index c).

Definition add_vocabulary (vocabulary : CompiledSet) c : Compiler :=
  fold_left (fun c cn => add_compiled cn c) vocabulary c.

Definition term_class (t : CompiledNode) : string :=
  match c_attrs t !! ATTR_CLASS with Some (GStr s) => s | _ => "" end.

Fixpoint member_edges (terms : list CompiledNode) c : compiled Compiler :=
  match terms with
  | [] => Ok c
  | t :: terms' =>
      let? from := id_of c TERM (c_key t) in
      let? to := map_err (fun _ => Refused (SCTermClass (c_key t)))
                   (id_of c CLASS (term_class t)) in
      member_edges terms' (add_edge from MEMBER_OF to c)
  end.

(** *** Rules *)

Definition permissions_declared (canonical : option string) (deny allow : list string)
  : compiled bool :=
  match canonical, deny, allow with
  | Some _, _, _ => Ok true
  | None, [], [] => Ok false
  | _, _, _ => refuse (SCEntriesUndeclared (length deny) (length allow))
  end.

Definition role_of (key : string) : compiled Role :=
  ok_or (role_from_key key) (Refused (SCNotARole key)).

Definition path_rule (sec : Z * string) (admin user : Z) (e : Effect) (i : nat) (text : string) c
  : compiled Compiler :=
  let '(id, c) := add_rule ("rule:permissions:" +:+ effect_word e +:+ ":" +:+ dec (Z.of_nat i))
                    (rule_attrs ATTR_ENTRY text e) sec (CPath e text) c in
  Ok (add_edge user (effect_edge e) id (add_edge admin (effect_edge e) id c)).

Definition permission_rules (policy : AuthzPolicy) (admin user : Z) c : compiled Compiler :=
  let? declared := permissions_declared (p_sections policy !! "permissions")
                     (p_deny_sources policy) (p_allow_sources policy) in
  if declared : bool then
    let? (sid, skey, c) := add_section "permissions" "permissions" c in
    let? c := each_entry (path_rule (sid, skey) admin user EDeny) 0 (p_deny_sources policy) c in
    each_entry (path_rule (sid, skey) admin user EAllow) 0 (p_allow_sources policy) c
  else Ok c.

Fixpoint match_edges (id : Z) (terms : list string) c : compiled Compiler :=
  match terms with
  | [] => Ok c
  | t :: terms' =>
      let? term_id := id_of c TERM t in match_edges id terms' (add_edge id MATCHES term_id c)
  end.

Definition grant_rule (sec : Z * string) (key rkey : string) (role_id : Z) (e : Effect) (i : nat)
    (p : ActionPattern) c : compiled Compiler :=
  let? role := role_of key in
  let? terms := map_err (fun e => Refused (SCPolicy e)) (role_terms key role p) in
  let written := action_source p in
  let '(id, c) :=
    add_rule ("rule:roles." +:+ key +:+ ":" +:+ effect_word e +:+ ":" +:+ dec (Z.of_nat i))
      (rule_attrs ATTR_TERM written e) sec (CGrant rkey written e) c in
  let? c := match_edges id terms c in
  Ok (add_edge role_id (effect_edge e) id c).

Fixpoint grant_rules (l : list (string * RawActionGrants)) c : compiled Compiler :=
  match l with
  | [] => Ok c
  | (key, rg) :: l' =>
      let? role := role_of key in
      let? role_id := id_of c ROLE (role_key role) in
      let? (sid, skey, c) := add_section ("roles." +:+ key) "roles" c in
      let? c := each_entry (grant_rule (sid, skey) key (role_key role) role_id EDeny) 0
                  (rg_deny rg) c in
      let? c := each_entry (grant_rule (sid, skey) key (role_key role) role_id EAllow) 0
                  (rg_allow rg) c in
      grant_rules l' c
  end.

Definition destination_rule (sec : Z * string) (key rkey : string) (role_id : Z) (i : nat)
    (d : string) c : compiled Compiler :=
  let '(id, c) :=
    add_rule ("rule:destinations." +:+ key +:+ ":allow:" +:+ dec (Z.of_nat i))
      {[ATTR_DESTINATION := GStr d]} sec (CDestination rkey d) c in
  Ok (add_edge role_id PERMITS id c).

Fixpoint destination_rules (l : list (string * list string)) c : compiled Compiler :=
  match l with
  | [] => Ok c
  | (key, allowed) :: l' =>
      let? role := role_of key in
      let? role_id := id_of c ROLE (role_key role) in
      let? (sid, skey, c) := add_section ("destinations." +:+ key) "destinations" c in
      let? c := each_entry (destination_rule (sid, skey) key (role_key role) role_id) 0 allowed c in
      destination_rules l' c
  end.

Definition subject_rule (sec : Z * string) (name : string) (e : Effect) (i : nat) (text : string) c
  : compiled Compiler :=
  Ok (snd (add_rule ("rule:subjects." +:+ name +:+ ".permissions:" +:+ effect_word e +:+ ":"
                     +:+ dec (Z.of_nat i))
             (rule_attrs ATTR_ENTRY text e) sec (CSubjectPath name e text) c)).

Fixpoint limited_rules (sec : Z * string) (l : list (string * SubjectPermissions)) c
  : compiled Compiler :=
  match l with
  | [] => Ok c
  | (name, p) :: l' =>
      let? c := each_entry (subject_rule sec name EDeny) 0 (sp_deny_sources p) c in
      let? c := each_entry (subject_rule sec name EAllow) 0 (sp_allow_sources p) c in
      limited_rules sec l' c
  end.

Definition subject_rules (policy : AuthzPolicy) c : compiled Compiler :=
  let limited := omap (fun '(name, entry) => (fun p => (name, p)) <$> su_permissions entry)
                   (btree_iter (p_subjects policy)) in
  match limited with
  | [] => Ok c
  | _ =>
      let? (sid, skey, c) := add_section "subjects" "subjects" c in
      limited_rules (sid, skey) limited c
  end.
End Compile.

(** ** The snapshot *)

#[export] Instance layer_entry_eq_dec : EqDecision Identity.SubjectEntry.
Proof. solve_decision. Defined.
#[export] Instance layer_eq_dec : EqDecision IdentityLayer.
Proof. solve_decision. Defined.

Record Snapshot := mkSnapshot {
  sn_graph : Graph;
  sn_persisted : Graph;
  sn_loaded : LoadedPolicy GraphBindings;
  sn_index : gmap Cited RuleCitation;
  sn_sections : gmap string digest;
  sn_problems : list IdentityProblem }.

Definition cite (s : Snapshot) (c : Cited) : option RuleCitation := sn_index s !! c.

Definition snapshot_subjects (s : Snapshot) : option (list SubjectBinding) :=
  as_subject_bindings (lp_roles (sn_loaded s)).

Definition subject_entries (s : Snapshot) : option (list ListedSubject) :=
  entries (lp_roles (sn_loaded s)) (sn_problems s).

Definition policy_sha256 (digest_of : string -> digest) (s : Snapshot) : string :=
  hex (digest_of (fold_left (fun out '(name, d) =>
                               out +:+ name +:+ "=" +:+ hex d +:+ String (ascii_of_nat 10) "")
                    (btree_iter (sn_sections s)) "")).

(** [carried_problems]. *)
Section Problems.
Context (problems : list IdentityProblem) (carried : list Carried) (bindings : Bindings).

Definition under_roles (name : string) : list (string * string) :=
  match bi_roles bindings with
  | None => []
  | Some m =>
      omap (fun '(role, _) => (fun r => (name, role_key r)) <$> role_from_key role)
        (List.filter (fun '(_, es) => existsb (fun e => String.eqb (render e) name) es)
           (btree_iter m))
  end.

Definition folded (uid : Z) : option (list (string * string)) :=
  find_map (fun p => match p with
                     | PUnbound u names _ =>
                         if Z.eqb u uid then Some (concat (map under_roles names)) else None
                     | _ => None
                     end) problems.

Definition carried_problem (p : IdentityProblem) : IdentityProblem :=
  match p with
  | PUnresolvedAdversary name =>
      match List.find (fun c => String.eqb (ca_name c) name) carried with
      | Some c =>
          let first := ca_name <$> List.find (fun f => Z.eqb (ca_uid f) (ca_uid c)) carried in
          let fold := if bool_decide (first = Some (ca_name c)) then folded (ca_uid c) else None in
          PCarriedForward (ca_uid c) (ca_name c)
            (omap (fun e => (fun r => (s_name e, role_key r)) <$> role_from_key (s_role e))
               (ca_overrides c) ++ default [] fold)
      | None => p
      end
  | _ => p
  end.

Definition folded_away (p : IdentityProblem) : bool :=
  match p with
  | PUnbound uid _ _ => existsb (fun c => Z.eqb (ca_uid c) uid) carried
  | _ => false
  end.

Definition carried_problems : list IdentityProblem :=
  map carried_problem (List.filter (fun p => negb (folded_away p)) problems).
End Problems.

(** ** [compile] *)

Definition lift_graph (e : fault GraphError) : fault CompileError :=
  match e with Panic => Panic | Refused e => Refused (SCGraph e) end.

Definition persisted_ids (g : Graph) : gmap (Z * string) Z :=
  fold_left (fun ids n => <[(n_kind n, n_key n) := n_id n]> ids) (g_nodes g) ∅.

(** The records, over the persisted graph's, before the builder checks them. *)
Definition compile_records (persisted : Graph) (label : string) (src : PolicySource)
    (destinations : DestinationGrants) (vocabulary : CompiledSet) (digests : gmap string digest)
  : result Compiler (fault CompileError) :=
  let revision := g_revision persisted in
  let source := ps_policy_source src in
  let policy := ps_policy src in
  let c := mkCompiler (g_nodes persisted) (g_edges persisted)
             (foldr Z.max 0%Z (n_id <$> g_nodes persisted))
             (foldr Z.max 0%Z (e_id <$> g_edges persisted))
             (persisted_ids persisted) ∅ in
  let '(source_id, c) := add_node label revision CONFIG_SOURCE source ∅ c in
  let c := add_vocabulary vocabulary c in
  let? c := member_edges label revision (List.filter (fun n => Z.eqb (c_kind n) TERM) vocabulary) c in
  let? admin := id_of c ROLE "admin" in
  let? user := id_of c ROLE "user" in
  let? c := permission_rules label revision source source_id digests policy admin user c in
  let? c := grant_rules label revision source source_id digests
              (btree_iter (p_action_grants policy)) c in
  let? c := destination_rules label revision source source_id digests (btree_iter destinations) c in
  subject_rules label revision source source_id digests policy c.

Definition compile (persisted : Graph) (src : PolicySource) (vocabulary : CompiledSet)
    (section_sha256 : gmap string digest) : result Snapshot (fault CompileError) :=
  let? stored := map_err (fun e => Refused (SCIdentity e)) (extract persisted) in
  let '(declared, carried) :=
    carry_forward (identity_layer src (l_label (x_layer stored)) (section_sha256 !! "bindings"))
      (unresolved_adversaries src) (x_layer stored) in
  if negb (bool_decide (x_layer stored = declared)) then
    Err (Refused (SCLayerDiffers (l_source declared)))
  else
    let? action_grants := map_err (fun e => Refused (SCPolicy e))
      (validate_grants (p_action_grants (ps_policy src))) in
    let? destinations := map_err (fun e => Refused (SCPolicy e))
      (validate_destinations (p_destinations (ps_policy src))) in
    if negb (is_some (persisted_ids persisted !! (CONFIG_SOURCE, l_source declared))) then
      Err (Refused SCNoSourceNode)
    else
      let? c := compile_records persisted (l_label (x_layer stored)) src destinations vocabulary
                  section_sha256 in
      let? g := map_err lift_graph
        (build_graph (mkBuilder KernelSpace (g_revision persisted) (co_nodes c) (co_edges c))
           SCHEMA vocabulary) in
      Ok (mkSnapshot g persisted
            (mkLoaded (ps_policy src) (graph_bindings_new g (l_source declared)) action_grants
               destinations (ps_subjects src))
            (co_index c) section_sha256
            (carried_problems (rv_problems (ps_resolved src)) carried (ps_bindings src))).

(** ** Lemmas: what a graph's layer says *)

Definition node_role (g : Graph) (n : NodeRecord) : option string :=
  if is_contained g (n_id n) then Some ADVERSARY else bound_key g (n_id n).

(** One subject node's contribution to the scan. *)
Lemma scan_subject_inv g source sc n sc' :
  scan_subject g source sc n = Ok sc' ->
  exists uid name, (0 <= uid)%Z /\ n_key n = subject_key uid /\
    length (out_edges g (n_id n) BINDS) < 2 /\
    ss_subjects sc' = ss_subjects sc ++
      match node_role g n with Some r => [mkSubject uid name r] | None => [] end.
Proof.
  unfold scan_subject, node_role. intros H. unbind H.
  match type of E with ok_or ?o _ = _ => destruct o as [u|] eqn:Eu; [|done] end.
  injection E as ->. apply bind_Some in Eu as (v & Hv & Hk).
  destruct (String.eqb_spec (n_key n) (subject_key v)) as [Hkey|]; [|done]. injection Hk as ->.
  destruct (n_attrs n !! ATTR_UID) as [[|w]|]; try done. apply try_u32_Some in Hv as [-> Hr].
  destruct (is_none source); [done|]. destruct (Nat.leb_spec 2 (length (out_edges g (n_id n) BINDS)));
    [done|]. unbind H.
  exists w, a. split; [lia|]. split; [done|]. split; [done|].
  destruct (is_contained g (n_id n)); [by injection H as <-|].
  destruct (bound_key g (n_id n)); injection H as <-; [done|by rewrite app_nil_r].
Qed.

Lemma scan_subjects_spec g source l : forall sc sc',
  scan_subjects g source sc l = Ok sc' ->
  (forall s, s ∈ ss_subjects sc' -> s ∈ ss_subjects sc \/
     exists n, n ∈ l /\ n_key n = subject_key (s_uid s) /\ (0 <= s_uid s)%Z /\
       node_role g n = Some (s_role s)) /\
  (forall n r, n ∈ l -> node_role g n = Some r -> exists s, s ∈ ss_subjects sc' /\
     n_key n = subject_key (s_uid s) /\ (0 <= s_uid s)%Z /\ s_role s = r) /\
  (forall s, s ∈ ss_subjects sc -> s ∈ ss_subjects sc') /\
  (forall n, n ∈ l -> length (out_edges g (n_id n) BINDS) < 2).
Proof.
  induction l as [|n l IH]; intros sc sc' H; simpl in H.
  { injection H as <-. split_and!; [auto|by intros ? ? ?%elem_of_nil|auto|by intros ? ?%elem_of_nil]. }
  destruct (scan_subject g source sc n) as [sc1|] eqn:E; [|done].
  apply scan_subject_inv in E as (uid & name & Hu & Hk & Hlen & Hs1).
  apply IH in H as (Ha & Hb & Hc & Hd). split_and!.
  - intros s [Hs|(m & Hm & ?)]%Ha; [|right; exists m; by rewrite elem_of_cons; auto].
    rewrite Hs1, elem_of_app in Hs. destruct Hs as [Hs|Hs]; [by left|]. right.
    destruct (node_role g n) as [r|] eqn:Er; [|by apply elem_of_nil in Hs].
    apply list_elem_of_singleton in Hs as ->. exists n. rewrite elem_of_cons. auto.
  - intros m r [->|Hm]%elem_of_cons Hr; [|by eapply Hb].
    exists (mkSubject uid name r). split_and!; try done. apply Hc.
    rewrite Hs1, Hr, elem_of_app, elem_of_cons. auto.
  - intros s Hs. apply Hc. rewrite Hs1, elem_of_app. auto.
  - intros m [->|Hm]%elem_of_cons; auto.
Qed.

Lemma extract_inv g x :
  extract g = Ok x ->
  is_some (g_lookup g SECTION (bindings_section_key (l_source (x_layer x)))) =
    is_some (l_bindings_sha256 (x_layer x)) /\
  exists source sc, scan_subjects g source (mkScan [] ∅ []) (of_kind g SUBJECT) = Ok sc /\
    l_subjects (x_layer x) = sort_by_key s_uid (ss_subjects sc).
Proof.
  unfold extract. intros H. unbind H. destruct a as [voc source]. unbind H.
  destruct (List.find _ _); [done|]. unbind H. injection H as <-. cbn.
  split; [|eauto]. unfold try_opt in E0. destruct (g_lookup g SECTION _); [|by injection E0 as <-].
  destruct (digest_attr _); [|done]. by injection E0 as <-.
Qed.

(** The layer read off a well-formed graph answers what the lookup over it
    answers. *)
Lemma extract_role compiled g x uid p :
  graph_ok SCHEMA compiled g -> extract g = Ok x -> (0 <= uid)%Z ->
  graph_role_for (graph_bindings_new g (l_source (x_layer x))) uid p = layer_role (x_layer x) uid p.
Proof.
  intros Hg (He & source & sc & Hsc & Hl)%extract_inv Hu.
  apply scan_subjects_spec in Hsc as (Ha & Hb & _ & _).
  unfold graph_role_for, graph_bindings_new, layer_role. cbn [gb_explicit gb_graph]. rewrite He.
  destruct (l_bindings_sha256 (x_layer x)) as [d|]; [simpl|done].
  assert (forall s, List.find (fun s => Z.eqb (s_uid s) uid) (l_subjects (x_layer x)) = Some s ->
    exists n, g_lookup g SUBJECT (subject_key uid) = Some n /\ node_role g n = Some (s_role s)) as Hfind.
  { intros s [Hin <-%Z.eqb_eq]%List.find_some. apply list_elem_of_In in Hin.
    rewrite Hl, sort_by_key_perm in Hin. apply Ha in Hin as [?%elem_of_nil|(n & Hn & Hk & _ & Hr)]; [done|].
    apply elem_of_bfilter in Hn as [Hn Hkind%Z.eqb_eq]. exists n. split; [|done].
    by apply (g_lookup_iff Hg). }
  destruct (List.find _ _) as [s|] eqn:Ef; simpl.
  - destruct (Hfind s eq_refl) as (n & -> & Hr). unfold node_role in Hr.
    destruct (is_contained g (n_id n)); [by injection Hr as <-|]. by rewrite bound_role_key, Hr.
  - destruct (g_lookup g SUBJECT (subject_key uid)) as [n|] eqn:En; [|done].
    apply (g_lookup_iff Hg) in En as (Hn & Hk & Hkey).
    assert (node_role g n = None) as Hnone.
    { destruct (node_role g n) as [r|] eqn:Er; [|done]. exfalso.
      destruct (Hb n r) as (s & Hs & Hks & Hpos & _); [by apply elem_of_bfilter; rewrite Z.eqb_eq|done|].
      assert (s ∈ l_subjects (x_layer x)) as Hin by (by rewrite Hl, sort_by_key_perm).
      apply list_elem_of_In in Hin. apply (List.find_none _ _ Ef) in Hin. apply Z.eqb_neq in Hin.
      destruct Hin. apply subject_key_inj; congruence. }
    unfold node_role in Hnone. destruct (is_contained g (n_id n)); [done|].
    by rewrite bound_role_key, Hnone.
Qed.

(** ** Lemmas: what compiling adds *)

Lemma ends_with_app suf a b :
  String.length suf <= String.length b -> ends_with suf (a +:+ b) = ends_with suf b.
Proof.
  intros Hle. apply eq_true_iff_eq. rewrite !ends_with_spec. split.
  - intros [r Hr]. revert r Hr. induction a as [|x a IH]; intros r Hr; [by exists r|].
    destruct r as [|y r]; simpl in Hr.
    + assert (String.length suf = S (String.length a + String.length b)) as Hl.
      { rewrite <-Hr. simpl. by rewrite str_length_app. }
      lia.
    + injection Hr as _ Hr. by apply (IH r).
  - intros [r ->]. exists (a +:+ r). by rewrite str_app_assoc.
Qed.

Definition BINDINGS_SUFFIX := "#bindings".

(** A compiled record is no subject, no binding and no bindings section. *)
Definition new_node (n : NodeRecord) : Prop :=
  n_kind n <> SUBJECT /\ (n_kind n = SECTION -> ends_with BINDINGS_SUFFIX (n_key n) = false).
Definition new_edge (e : EdgeRecord) : Prop := e_kind e <> BINDS /\ e_kind e <> CONTAINED.

(** A citation names a rule of the records, declared by the section it names. *)
Definition cited_rule (c : Compiler) (r : RuleCitation) : Prop :=
  exists n e s, n ∈ co_nodes c /\ n_id n = rc_node r /\ n_kind n = RULE /\ n_key n = rc_key r /\
    e ∈ co_edges c /\ e_from e = rc_node r /\ e_kind e = DECLARED_BY /\ e_to e = n_id s /\
    s ∈ co_nodes c /\ n_kind s = SECTION /\ n_key s = rc_section r.
Definition indexed (c : Compiler) : Prop :=
  forall k r, co_index c !! k = Some r -> cited_rule c r.

Definition has_section (c : Compiler) (sec : Z * string) : Prop :=
  exists s, s ∈ co_nodes c /\ n_id s = fst sec /\ n_kind s = SECTION /\ n_key s = snd sec.

Record grown (c c' : Compiler) : Prop := {
  gr_nodes : exists ns, co_nodes c' = co_nodes c ++ ns /\ Forall new_node ns;
  gr_edges : exists es, co_edges c' = co_edges c ++ es /\ Forall new_edge es;
  gr_index : forall k, is_Some (co_index c !! k) -> is_Some (co_index c' !! k);
  gr_cited : indexed c -> indexed c' }.

Lemma grown_refl c : grown c c.
Proof. constructor; auto; exists []; rewrite app_nil_r; auto. Qed.

Lemma grown_trans c1 c2 c3 : grown c1 c2 -> grown c2 c3 -> grown c1 c3.
Proof.
  intros [(n1 & Hn1 & Fn1) (e1 & He1 & Fe1) Hi1 Hc1] [(n2 & Hn2 & Fn2) (e2 & He2 & Fe2) Hi2 Hc2].
  constructor; [..|auto|auto].
  - exists (n1 ++ n2). rewrite Hn2, Hn1, app_assoc. split; [done|]. by apply Forall_app.
  - exists (e1 ++ e2). rewrite He2, He1, app_assoc. split; [done|]. by apply Forall_app.
Qed.

#[export] Instance grown_preorder : PreOrder grown.
Proof. split; [exact grown_refl|exact grown_trans]. Qed.

Lemma grown_section c c' sec : grown c c' -> has_section c sec -> has_section c' sec.
Proof.
  intros [(ns & Hn & _) _ _ _] (s & Hs & ?). exists s. rewrite Hn, elem_of_app. auto.
Qed.

(** More records and the same index keep every citation. *)
Lemma cited_more c c' ns es r :
  co_nodes c' = co_nodes c ++ ns -> co_edges c' = co_edges c ++ es ->
  cited_rule c r -> cited_rule c' r.
Proof.
  intros Hn He (n & e & s & ?). exists n, e, s. rewrite Hn, He, !elem_of_app. naive_solver.
Qed.

Section Grow.
Context (label : string) (revision : Z) (source : string) (source_id : Z).
Context (digests : gmap string digest).

Lemma add_node_grown kind key attrs c id c' :
  add_node label revision kind key attrs c = (id, c') ->
  kind <> SUBJECT -> (kind = SECTION -> ends_with BINDINGS_SUFFIX key = false) -> grown c c'.
Proof.
  intros [= <- <-] Hk Hs. constructor; simpl; [..|done|].
  - eexists. split; [done|]. by constructor; [|constructor].
  - exists []. rewrite app_nil_r. by split; [|constructor].
  - intros Hi k r Hk'. eapply (cited_more c _ _ []), Hi; try done. by rewrite app_nil_r.
Qed.

Lemma add_edge_grown from kind to c :
  kind <> BINDS -> kind <> CONTAINED -> grown c (add_edge label revision from kind to c).
Proof.
  intros Hb Hc. constructor; simpl; [..|done|].
  - exists []. rewrite app_nil_r. by split; [|constructor].
  - eexists. split; [done|]. by constructor; [|constructor].
  - intros Hi k r Hk'. eapply (cited_more c _ [] _), Hi; try done. by rewrite app_nil_r.
Qed.

Lemma add_section_grown name parent c id key c' :
  add_section label revision source source_id digests name parent c = Ok (id, key, c') ->
  ends_with BINDINGS_SUFFIX ("#" +:+ name) = false -> 8 <= String.length name ->
  grown c c' /\ has_section c' (id, key).
Proof.
  unfold add_section. intros H Hname Hlen. destruct (digests !! parent) as [d|]; [|done]. cbn [ok_or] in H.
  destruct (add_node _ _ _ _ _ c) as [id' c1] eqn:E. injection H as <- <- <-.
  split.
  - transitivity c1; [|by apply add_edge_grown].
    eapply add_node_grown; [exact E|done|]. intros _. rewrite ends_with_app; [done|]. simpl. lia.
  - injection E as <- <-. eexists. simpl. rewrite elem_of_app. split; [right; left|done].
Qed.

Lemma add_rule_grown key attrs sec cited c id c' :
  add_rule label revision key attrs sec cited c = (id, c') -> has_section c sec ->
  grown c c' /\ is_Some (co_index c' !! cited).
Proof.
  unfold add_rule. destruct (add_node _ _ RULE _ _ c) as [i c1] eqn:E.
  intros [= <- <-] (s & Hs & Hsid & Hsk & Hskey).
  set (c2 := add_edge label revision i DECLARED_BY (fst sec) c1).
  assert (grown c c2) as Hg.
  { transitivity c1; [by eapply add_node_grown|by apply add_edge_grown]. }
  assert (cited_rule c2 (mkCitation i key (snd sec))) as Hcit.
  { injection E as <- <-. eexists _, _, s. simpl.
    split_and!; [apply elem_of_app; right; left|done..|apply elem_of_app; right; left
                |done|done|done|apply elem_of_app; by left|done|done]. }
  split; [|unfold index_rule; simpl; destruct (co_index c1 !! cited) eqn:Ei; simpl;
           [by rewrite Ei|by rewrite lookup_insert_eq]].
  transitivity c2; [done|]. constructor; try (exists []; rewrite app_nil_r; auto; fail).
  - intros k Hk. unfold index_rule. cbn [co_index]. destruct (is_some _); [done|].
    apply lookup_insert_is_Some. destruct (decide (cited = k)); auto.
  - intros Hi k r. unfold index_rule. cbn [co_index].
    destruct (is_some _); [apply Hi|]. rewrite lookup_insert_Some.
    intros [[_ <-]|[_ Hk]]; [exact Hcit|by eapply Hi].
Qed.

(** A loop over entries that cite. *)
Lemma each_entry_grown {A} (f : nat -> A -> Compiler -> result Compiler (fault CompileError))
    (cited : A -> Cited) sec l : forall i c c',
  (forall i x c c', x ∈ l -> has_section c sec -> f i x c = Ok c' ->
     grown c c' /\ is_Some (co_index c' !! cited x)) ->
  each_entry f i l c = Ok c' -> has_section c sec ->
  grown c c' /\ forall x, x ∈ l -> is_Some (co_index c' !! cited x).
Proof.
  induction l as [|x l IH]; intros i c c' Hf H Hsec; simpl in H.
  { injection H as <-. split; [done|]. by intros x ?%elem_of_nil. }
  destruct (f i x c) as [c1|] eqn:E; [|done].
  destruct (Hf i x c c1) as [Hg Hx]; [by left|done|done|].
  destruct (IH (S i) c1 c') as [Hg' Hl]; [|done|by eapply grown_section|].
  { intros j y d d' Hy. apply Hf. by right. }
  split; [by transitivity c1|]. intros y [->|Hy]%elem_of_cons; [|by apply Hl].
  by apply (gr_index _ _ Hg').
Qed.
End Grow.

Section Rules.
Context (label : string) (revision : Z) (source : string) (source_id : Z).
Context (digests : gmap string digest).

Lemma add_vocabulary_grown vocabulary : forall c,
  (forall cn, cn ∈ vocabulary -> c_kind cn <> SUBJECT /\ c_kind cn <> SECTION) ->
  grown c (add_vocabulary vocabulary c).
Proof.
  unfold add_vocabulary. induction vocabulary as [|cn l IH]; intros c Hv; [done|]. simpl.
  transitivity (add_compiled cn c); [|apply IH; intros; apply Hv; by right].
  unfold add_compiled. destruct (is_some _); [done|].
  destruct (Hv cn) as [Hk Hs]; [by left|]. constructor; simpl; [..|done|].
  - eexists. split; [done|]. by constructor; [|constructor].
  - exists []. rewrite app_nil_r. by split; [|constructor].
  - intros Hi k r Hk'. eapply (cited_more c _ _ []), Hi; try done. by rewrite app_nil_r.
Qed.

Lemma member_edges_grown terms : forall c c',
  member_edges label revision terms c = Ok c' -> grown c c'.
Proof.
  induction terms as [|t terms IH]; intros c c' H; simpl in H; [by injection H as <-|].
  unbind H. transitivity (add_edge label revision a MEMBER_OF a0 c); [by apply add_edge_grown|].
  by apply IH.
Qed.

Lemma match_edges_grown id terms : forall c c',
  match_edges label revision id terms c = Ok c' -> grown c c'.
Proof.
  induction terms as [|t terms IH]; intros c c' H; simpl in H; [by injection H as <-|].
  unbind H. transitivity (add_edge label revision id MATCHES a c); [by apply add_edge_grown|].
  by apply IH.
Qed.

Lemma effect_edge_new e : effect_edge e <> BINDS /\ effect_edge e <> CONTAINED.
Proof. by destruct e. Qed.

Lemma role_of_inv key r : role_of key = Ok r -> role_from_key key = Some r.
Proof. unfold role_of. destruct (role_from_key key); [by intros [= ->]|done]. Qed.

Lemma permission_rules_grown policy admin user c c' :
  permission_rules label revision source source_id digests policy admin user c = Ok c' ->
  grown c c' /\
  (forall s, s ∈ p_deny_sources policy -> is_Some (co_index c' !! CPath EDeny s)) /\
  (forall s, s ∈ p_allow_sources policy -> is_Some (co_index c' !! CPath EAllow s)).
Proof.
  assert (forall sec e i x c c', has_section c sec ->
    path_rule label revision sec admin user e i x c = Ok c' ->
    grown c c' /\ is_Some (co_index c' !! CPath e x)) as Hrule.
  { intros sec e i x d d' Hsec. unfold path_rule. destruct (add_rule _ _ _ _ _ _ d) as [id d1] eqn:E.
    intros [= <-]. apply add_rule_grown in E as [Hg Hi]; [|done]. destruct (effect_edge_new e).
    split; [|exact Hi]. do 2 (etransitivity; [|by apply add_edge_grown]). done. }
  unfold permission_rules. intros H. unbind H. destruct a.
  - unbind H. destruct a as [[sid skey] c1]. unbind H.
    apply add_section_grown in E0 as [Hg0 Hsec]; [|done|simpl; lia].
    apply (each_entry_grown _ (CPath EDeny) (sid, skey)) in E1 as [Hg1 Hd]; [|eauto|done].
    apply (each_entry_grown _ (CPath EAllow) (sid, skey)) in H as [Hg2 Ha];
      [|eauto|by eapply grown_section].
    split; [by transitivity c1; [|transitivity a]|]. split; [|done].
    intros s Hs. by apply (gr_index _ _ Hg2), Hd.
  - injection H as <-. unfold permissions_declared in E.
    destruct (p_sections policy !! _), (p_deny_sources policy), (p_allow_sources policy); try done.
    split; [done|]. split; by intros s ?%elem_of_nil.
Qed.

Lemma grant_rule_grown sec key role role_id e i p c c' :
  role_from_key key = Some role -> has_section c sec ->
  grant_rule label revision sec key (role_key role) role_id e i p c = Ok c' ->
  grown c c' /\ is_Some (co_index c' !! CGrant (role_key role) (action_source p) e).
Proof.
  intros Hr Hsec. unfold grant_rule. intros H. unbind H.
  destruct (add_rule _ _ _ _ _ _ c) as [id c1] eqn:Er. unbind H. injection H as <-.
  apply add_rule_grown in Er as [Hg Hi]; [|done]. apply match_edges_grown in E1.
  destruct (effect_edge_new e). split.
  - etransitivity; [|by apply add_edge_grown]. by transitivity c1.
  - simpl. by apply (gr_index _ _ E1).
Qed.

Lemma role_section_name key role :
  role_from_key key = Some role ->
  (ends_with BINDINGS_SUFFIX ("#" +:+ "roles." +:+ key) = false /\
   8 <= String.length ("roles." +:+ key)) /\
  (ends_with BINDINGS_SUFFIX ("#" +:+ "destinations." +:+ key) = false /\
   8 <= String.length ("destinations." +:+ key)).
Proof. intros ->%role_from_key_Some. destruct role; vm_compute; repeat split; lia. Qed.

Lemma grant_rules_grown l : forall c c',
  grant_rules label revision source source_id digests l c = Ok c' ->
  grown c c' /\ forall key rg role p, (key, rg) ∈ l -> role_from_key key = Some role ->
    (p ∈ rg_deny rg -> is_Some (co_index c' !! CGrant (role_key role) (action_source p) EDeny)) /\
    (p ∈ rg_allow rg -> is_Some (co_index c' !! CGrant (role_key role) (action_source p) EAllow)).
Proof.
  induction l as [|[key rg] l IH]; intros c c' H; simpl in H.
  { injection H as <-. split; [done|]. by intros ? ? ? ? ?%elem_of_nil. }
  unbind H. destruct a1 as [[sid skey] c1]. unbind H. apply role_of_inv in E.
  destruct (role_section_name _ _ E) as [[Hn Hl] _].
  apply add_section_grown in E1 as [Hg1 Hsec]; [|exact Hn|exact Hl].
  apply (each_entry_grown _ (fun p => CGrant (role_key a) (action_source p) EDeny) (sid, skey))
    in E2 as [Hg2 Hd]; [|intros; by eapply grant_rule_grown|done].
  apply (each_entry_grown _ (fun p => CGrant (role_key a) (action_source p) EAllow) (sid, skey))
    in E3 as [Hg3 Ha]; [|intros; by eapply grant_rule_grown|by eapply grown_section].
  apply IH in H as [Hg4 Hrest]. split.
  { transitivity c1; [done|]. transitivity a1; [done|]. by transitivity a2. }
  intros key' rg' role p [[= -> ->]|Hin]%elem_of_cons Hr; [|by eapply Hrest].
  rewrite E in Hr. injection Hr as <-. split.
  - intros Hp. by apply (gr_index _ _ Hg4), (gr_index _ _ Hg3), Hd.
  - intros Hp. by apply (gr_index _ _ Hg4), Ha.
Qed.

Lemma destination_rules_grown l : forall c c',
  destination_rules label revision source source_id digests l c = Ok c' ->
  grown c c' /\ forall key allowed role d, (key, allowed) ∈ l -> role_from_key key = Some role ->
    d ∈ allowed -> is_Some (co_index c' !! CDestination (role_key role) d).
Proof.
  induction l as [|[key allowed] l IH]; intros c c' H; simpl in H.
  { injection H as <-. split; [done|]. by intros ? ? ? ? ?%elem_of_nil. }
  unbind H. destruct a1 as [[sid skey] c1]. unbind H. apply role_of_inv in E.
  destruct (role_section_name _ _ E) as [_ [Hn Hl]].
  apply add_section_grown in E1 as [Hg1 Hsec]; [|exact Hn|exact Hl].
  apply (each_entry_grown _ (CDestination (role_key a)) (sid, skey)) in E2 as [Hg2 Hd]; [| |done].
  2: { intros i x d d' _ Hs. unfold destination_rule.
       destruct (add_rule _ _ _ _ _ _ d) as [id d1] eqn:Er. intros [= <-].
       apply add_rule_grown in Er as [Hg Hi]; [|done].
       split; [|exact Hi]. etransitivity; [|by apply add_edge_grown]. done. }
  apply IH in H as [Hg3 Hrest]. split.
  { transitivity c1; [done|]. by transitivity a1. }
  intros key' al role d [[= -> ->]|Hin]%elem_of_cons Hr Hin'; [|by eapply Hrest].
  rewrite E in Hr. injection Hr as <-. by apply (gr_index _ _ Hg3), Hd.
Qed.

Lemma limited_rules_grown sec l : forall c c',
  limited_rules label revision sec l c = Ok c' -> has_section c sec ->
  grown c c' /\ forall name p s, (name, p) ∈ l ->
    (s ∈ sp_deny_sources p -> is_Some (co_index c' !! CSubjectPath name EDeny s)) /\
    (s ∈ sp_allow_sources p -> is_Some (co_index c' !! CSubjectPath name EAllow s)).
Proof.
  assert (forall name e i x c c', has_section c sec ->
    subject_rule label revision sec name e i x c = Ok c' ->
    grown c c' /\ is_Some (co_index c' !! CSubjectPath name e x)) as Hrule.
  { intros name e i x d d' Hs. unfold subject_rule.
    destruct (add_rule _ _ _ _ _ _ d) as [id d1] eqn:Er. intros [= <-].
    by apply add_rule_grown in Er. }
  induction l as [|[name p] l IH]; intros c c' H Hsec; simpl in H.
  { injection H as <-. split; [done|]. by intros ? ? ? ?%elem_of_nil. }
  unbind H. apply (each_entry_grown _ (CSubjectPath name EDeny) sec) in E as [Hg1 Hd]; [|eauto|done].
  apply (each_entry_grown _ (CSubjectPath name EAllow) sec) in E0 as [Hg2 Ha];
    [|eauto|by eapply grown_section].
  apply IH in H as [Hg3 Hrest]; [|eapply grown_section; [|exact Hsec]; by transitivity a].
  split; [by transitivity a; [|transitivity a0]|].
  intros name' p' s [[= -> ->]|Hin]%elem_of_cons; [|by apply Hrest]. split.
  - intros Hs. by apply (gr_index _ _ Hg3), (gr_index _ _ Hg2), Hd.
  - intros Hs. by apply (gr_index _ _ Hg3), Ha.
Qed.

Lemma subject_rules_grown policy c c' :
  subject_rules label revision source source_id digests policy c = Ok c' ->
  grown c c' /\ forall name entry p s,
    p_subjects policy !! name = Some entry -> su_permissions entry = Some p ->
    (s ∈ sp_deny_sources p -> is_Some (co_index c' !! CSubjectPath name EDeny s)) /\
    (s ∈ sp_allow_sources p -> is_Some (co_index c' !! CSubjectPath name EAllow s)).
Proof.
  unfold subject_rules. set (limited := omap _ _). intros H.
  assert (forall name entry p, p_subjects policy !! name = Some entry ->
    su_permissions entry = Some p -> (name, p) ∈ limited) as Hlim.
  { intros name entry p Hn Hp. unfold limited. apply list_elem_of_omap.
    exists (name, entry). split; [by apply btree_iter_elem|]. by rewrite Hp. }
  destruct limited as [|x limited].
  - injection H as <-. split; [done|]. intros name entry p s Hn Hp.
    by specialize (Hlim _ _ _ Hn Hp) as ?%elem_of_nil.
  - unbind H. destruct a as [[sid skey] c1].
    apply add_section_grown in E as [Hg1 Hsec]; [|done|simpl; lia].
    apply limited_rules_grown in H as [Hg2 Hrest]; [|done].
    split; [by transitivity c1|]. intros name entry p s Hn Hp.
    by apply Hrest, (Hlim name entry).
Qed.
End Rules.

(** ** Lemmas: the compiled graph's roles *)

(** Adding records that are no subjects, bindings or bindings sections leaves
    the role lookup as it was. *)
Lemma grown_role_for compiled compiled' g g' ns es source uid p :
  graph_ok SCHEMA compiled g -> graph_ok SCHEMA compiled' g' ->
  g_nodes g' ≡ₚ g_nodes g ++ ns -> g_edges g' ≡ₚ g_edges g ++ es ->
  Forall new_node ns -> Forall new_edge es ->
  (forall n, n ∈ of_kind g SUBJECT -> length (out_edges g (n_id n) BINDS) < 2) ->
  graph_role_for (graph_bindings_new g' source) uid p =
  graph_role_for (graph_bindings_new g source) uid p.
Proof.
  intros Hg Hg' Hn He Fn Fe Hone. rewrite Forall_forall in Fn. rewrite Forall_forall in Fe.
  assert (forall kind key n, (kind = SUBJECT \/ kind = SECTION /\ ends_with BINDINGS_SUFFIX key = true) ->
    g_lookup g' kind key = Some n <-> g_lookup g kind key = Some n) as Hlookup.
  { intros kind key n Hk. rewrite (g_lookup_iff Hg'), (g_lookup_iff Hg), Hn, elem_of_app.
    split; [|tauto]. intros ([Hin|Hin] & <- & <-); [done|]. destruct (Fn _ Hin) as [Hs1 Hs2].
    destruct Hk as [?|[Hk ?]]; [done|]. by rewrite (Hs2 Hk) in *. }
  assert (forall kind key, (kind = SUBJECT \/ kind = SECTION /\ ends_with BINDINGS_SUFFIX key = true) ->
    g_lookup g' kind key = g_lookup g kind key) as Hlook.
  { intros kind key Hk. apply option_eq. intros n. by apply Hlookup. }
  unfold graph_role_for, graph_bindings_new. cbn [gb_explicit gb_graph].
  rewrite !Hlook; [|by left|right; split; [done|apply ends_with_spec; by exists source]].
  destruct (negb _); [done|]. destruct (g_lookup g SUBJECT (subject_key uid)) as [n|] eqn:En; [|done].
  assert (is_contained g' (n_id n) = is_contained g (n_id n)) as ->.
  { apply eq_true_iff_eq. rewrite (is_contained_iff _ _ _ _ Hg'), (is_contained_iff _ _ _ _ Hg).
    setoid_rewrite He. setoid_rewrite elem_of_app. split; [|naive_solver].
    intros (e & [Hin|Hin] & ? & ?); [eauto|]. by destruct (Fe _ Hin). }
  destruct (is_contained g (n_id n)); [done|].
  assert (out_edges g' (n_id n) BINDS = out_edges g (n_id n) BINDS) as Hout.
  { assert (out_edges g' (n_id n) BINDS ≡ₚ out_edges g (n_id n) BINDS) as Hperm.
    { rewrite (out_edges_eq Hg'), (out_edges_eq Hg).
      assert (List.filter (edge_at (n_id n) BINDS) es = []) as Hnil.
      { clear -Fe. induction es as [|e es IH]; [done|]. simpl.
        destruct (Fe e) as [Hb _]; [by left|]. unfold edge_at at 1.
        rewrite (proj2 (Z.eqb_neq _ _) Hb), andb_false_r. apply IH. intros x Hx. apply Fe. by right. }
      rewrite <-(app_nil_r (List.filter _ (g_edges g))), <-Hnil, <-List.filter_app.
      by apply filter_perm'. }
    assert (length (out_edges g (n_id n) BINDS) < 2) as Hlen.
    { apply Hone. apply (g_lookup_iff Hg) in En as (Hin & Hk & _).
      apply elem_of_bfilter. by rewrite Z.eqb_eq. }
    destruct (out_edges g (n_id n) BINDS) as [|e [|e' l]]; simpl in Hlen; [| |lia].
    - by apply Permutation_nil_r in Hperm.
    - by apply Permutation_singleton_r in Hperm. }
  unfold bound_role. rewrite Hout. destruct (head _) as [e|] eqn:Eh; [|done]. simpl.
  assert (e ∈ g_edges g) as Hin.
  { destruct (out_edges g (n_id n) BINDS) as [|e' l] eqn:Eo; [done|]. injection Eh as ->.
    assert (e ∈ e :: l) as Hin by left. rewrite <-Eo, (out_edges_eq Hg) in Hin.
    by apply elem_of_bfilter in Hin as [? _]. }
  destruct (edge_endpoints Hg e Hin) as (_ & to & _ & Hto & _).
  assert (g_node g' (e_to e) = Some to) as ->; [|by rewrite Hto].
  apply (g_node_iff Hg') . apply (g_node_iff Hg) in Hto as [Hin' Hid]. split; [|done].
  rewrite Hn, elem_of_app. by left.
Qed.

(** What the index cites: every written entry. *)
Record cites_all (policy : AuthzPolicy) (destinations : DestinationGrants)
    (index : gmap Cited RuleCitation) : Prop := {
  ca_deny : forall s, s ∈ p_deny_sources policy -> is_Some (index !! CPath EDeny s);
  ca_allow : forall s, s ∈ p_allow_sources policy -> is_Some (index !! CPath EAllow s);
  ca_grants : forall key rg role p, p_action_grants policy !! key = Some rg ->
    role_from_key key = Some role ->
    (p ∈ rg_deny rg -> is_Some (index !! CGrant (role_key role) (action_source p) EDeny)) /\
    (p ∈ rg_allow rg -> is_Some (index !! CGrant (role_key role) (action_source p) EAllow));
  ca_destinations : forall key allowed role d, destinations !! key = Some allowed ->
    role_from_key key = Some role -> d ∈ allowed -> is_Some (index !! CDestination (role_key role) d);
  ca_subjects : forall name entry p s, p_subjects policy !! name = Some entry ->
    su_permissions entry = Some p ->
    (s ∈ sp_deny_sources p -> is_Some (index !! CSubjectPath name EDeny s)) /\
    (s ∈ sp_allow_sources p -> is_Some (index !! CSubjectPath name EAllow s)) }.

Lemma compile_records_grown persisted label src destinations vocabulary digests c :
  compile_records persisted label src destinations vocabulary digests = Ok c ->
  (forall cn, cn ∈ vocabulary -> c_kind cn <> SUBJECT /\ c_kind cn <> SECTION) ->
  (exists ns, co_nodes c = g_nodes persisted ++ ns /\ Forall new_node ns) /\
  (exists es, co_edges c = g_edges persisted ++ es /\ Forall new_edge es) /\
  indexed c /\ cites_all (ps_policy src) destinations (co_index c).
Proof.
  unfold compile_records. intros H Hv. set (c0 := mkCompiler _ _ _ _ _ _) in H.
  destruct (add_node _ _ CONFIG_SOURCE _ _ c0) as [sid c1] eqn:E1.
  apply add_node_grown in E1; [|done..].
  pose proof (add_vocabulary_grown vocabulary c1 Hv) as E2. set (c2 := add_vocabulary _ c1) in *.
  destruct (member_edges _ _ _ c2) as [c3|] eqn:E3; [|done]. apply member_edges_grown in E3.
  unbind H.
  match goal with E : permission_rules _ _ _ _ _ _ _ _ _ = Ok ?c4 |- _ =>
    apply permission_rules_grown in E as (E4 & Hd & Ha); set (d4 := c4) in * end.
  match goal with E : grant_rules _ _ _ _ _ _ _ = Ok ?c5 |- _ =>
    apply grant_rules_grown in E as (E5 & Hg); set (d5 := c5) in * end.
  match goal with E : destination_rules _ _ _ _ _ _ _ = Ok ?c6 |- _ =>
    apply destination_rules_grown in E as (E6 & Hds); set (d6 := c6) in * end.
  apply subject_rules_grown in H as (E7 & Hs).
  assert (grown c0 c) as [Hn He _ Hi].
  { transitivity c1; [done|]. transitivity c2; [done|]. transitivity c3; [done|].
    transitivity d4; [done|]. transitivity d5; [done|]. by transitivity d6. }
  assert (forall k, is_Some (co_index d5 !! k) -> is_Some (co_index c !! k)) as H57.
  { intros k Hk. by apply (gr_index _ _ E7), (gr_index _ _ E6). }
  split_and!; [exact Hn|exact He|apply Hi; intros k r; unfold c0; cbn; by rewrite lookup_empty|].
  constructor.
  - intros s Hin. by apply H57, (gr_index _ _ E5), Hd.
  - intros s Hin. by apply H57, (gr_index _ _ E5), Ha.
  - intros key rg role p Hk%btree_iter_elem Hr. destruct (Hg key rg role p Hk Hr). split; auto.
  - intros key al role d Hk%btree_iter_elem Hr Hin. by eapply (gr_index _ _ E7), Hds.
  - exact Hs.
Qed.

(** Everything [compile] established, in one place. *)
Record compiled_from (persisted : Graph) (src : PolicySource) (vocabulary : CompiledSet)
    (digests : gmap string digest) (snap : Snapshot) (x : Extracted) (c : Compiler) : Prop := {
  cf_extract : extract persisted = Ok x;
  cf_layer : x_layer x = fst (carry_forward
    (identity_layer src (l_label (x_layer x)) (digests !! "bindings"))
    (unresolved_adversaries src) (x_layer x));
  cf_grants : validate_grants (p_action_grants (ps_policy src)) =
    Ok (lp_action_grants (sn_loaded snap));
  cf_destinations : validate_destinations (p_destinations (ps_policy src)) =
    Ok (lp_destinations (sn_loaded snap));
  cf_records : compile_records persisted (l_label (x_layer x)) src
    (lp_destinations (sn_loaded snap)) vocabulary digests = Ok c;
  cf_graph : assemble (mkBuilder KernelSpace (g_revision persisted) (co_nodes c) (co_edges c))
    SCHEMA vocabulary = Ok (sn_graph snap);
  cf_roles : lp_roles (sn_loaded snap) = graph_bindings_new (sn_graph snap) (l_source (x_layer x));
  cf_policy : lp_policy (sn_loaded snap) = ps_policy src;
  cf_subjects : lp_subjects (sn_loaded snap) = ps_subjects src;
  cf_index : sn_index snap = co_index c }.

Lemma compile_inv persisted src vocabulary digests snap :
  compile persisted src vocabulary digests = Ok snap ->
  exists x c, compiled_from persisted src vocabulary digests snap x c.
Proof.
  unfold compile. intros H. destruct (extract persisted) as [x|] eqn:Ex; [|done]. cbn [map_err] in H.
  destruct (carry_forward _ _ _) as [declared carried] eqn:Ec.
  case_bool_decide as Heq; [|done]. cbn [negb] in H. subst declared.
  destruct (validate_grants _) as [ag|] eqn:Eg; [|done]. cbn [map_err] in H.
  destruct (validate_destinations _) as [ds|] eqn:Ed; [|done]. cbn [map_err] in H.
  destruct (negb _); [done|].
  destruct (compile_records _ _ _ _ _ _) as [c|] eqn:Er; [|done].
  unfold build_graph, build_encoded in H.
  destruct (assemble _ SCHEMA vocabulary) as [g|] eqn:Ea; [|done].
  destruct (encode g) as [bytes|]; [|done]. destruct (negb _); [done|].
  injection H as <-. exists x, c. constructor; try done. by rewrite Ec.
Qed.

(** ** Lemmas: what a decision cites *)

Definition sourced (l : SourcedList) : Prop := length (sl_patterns l) <= length (sl_sources l).

Lemma scan_source test l kind ps : forall i s,
  scan test l kind i ps = Ok (Some s) -> i + length ps <= length (sl_sources l) ->
  s ∈ sl_sources l.
Proof.
  induction ps as [|p ps IH]; intros i s H Hlen; [done|]. simpl in H, Hlen.
  destruct (test p) as [[]|]; [| |done].
  - injection H as <-. unfold sl_source.
    destruct (lookup_lt_is_Some_2 (sl_sources l) i) as [x Hx]; [lia|]. rewrite Hx. simpl.
    by eapply list_elem_of_lookup_2.
  - apply (IH (S i)); [done|lia].
Qed.

Lemma scan_lists_source test kind ls s :
  scan_lists test kind ls = Ok (Some s) -> Forall sourced ls ->
  exists l, l ∈ ls /\ s ∈ sl_sources l.
Proof.
  induction ls as [|l ls IH]; intros H Hs; [done|]. simpl in H.
  apply Forall_cons in Hs as [Hl Hs]. destruct (scan_list test kind l) as [[t|]|] eqn:E; [| |done].
  - injection H as <-. exists l. split; [left|]. by eapply scan_source.
  - destruct (IH H Hs) as (l' & Hl' & Hin). exists l'. split; [by right|done].
Qed.

Lemma eval_lists_source td ta deny allow m :
  eval_lists td ta deny allow = Ok m -> Forall sourced deny -> sourced allow ->
  match m with
  | DenyMatch s => exists l, l ∈ deny /\ s ∈ sl_sources l
  | AllowMatch s => s ∈ sl_sources allow
  | NoMatch => True
  end.
Proof.
  unfold eval_lists. intros H Hd Ha.
  destruct (scan_lists td "deny" deny) as [[s|]|] eqn:E; [| |done].
  - injection H as <-. by eapply scan_lists_source.
  - destruct (scan_list ta "allow" allow) as [[s|]|] eqn:E'; [| |done]; injection H as <-; [|done].
    by eapply scan_source.
Qed.

(** A policy and a subject's own set whose every pattern has its text. *)
Definition sourced_set (pol : AuthzPolicy) (set : option SubjectPermissions) : Prop :=
  Forall sourced (fst (lists pol set)) /\ sourced (snd (lists pol set)).

Lemma evaluate_scope_source pol set scope path home m :
  evaluate_scope pol set scope path home = Ok m -> sourced_set pol set ->
  match m with
  | DenyMatch s => s ∈ p_deny_sources pol \/ exists sp, set = Some sp /\ s ∈ sp_deny_sources sp
  | AllowMatch s => s ∈ match set with Some sp => sp_allow_sources sp | None => p_allow_sources pol end
  | NoMatch => True
  end.
Proof.
  intros H [Hd Ha].
  assert (exists td ta, eval_lists td ta (fst (lists pol set)) (snd (lists pol set)) = Ok m \/ m = NoMatch)
    as (td & ta & [He| ->]); [|apply (eval_lists_source td ta) in He as Hs; try done|done].
  { unfold evaluate_scope, evaluate3_floored, evaluate_write_subtree_floored in H.
    destruct (lists pol set) as [deny allow].
    destruct scope; [destruct (unbound_home _ _ _ _); [done|eauto]..|].
    destruct (to_str path); [|injection H as <-; by exists (fun _ => Ok false), (fun _ => Ok false); right].
    destruct (negb _); [injection H as <-; by exists (fun _ => Ok false), (fun _ => Ok false); right|].
    destruct (unbound_home _ _ _ _); [done|eauto]. }
  destruct m as [s|s|]; [by destruct set| |done].
  destruct Hs as (l & Hl & Hin). destruct set as [sp|]; simpl in Hl.
  - apply elem_of_cons in Hl as [->| ->%list_elem_of_singleton]; [by left|right; eauto].
  - apply list_elem_of_singleton in Hl as ->. by left.
Qed.

Lemma evaluate3_action_source g key a m :
  evaluate3_action g key a = m ->
  match m with
  | AllowMatch s => exists allow deny, g !! key = Some (allow, deny) /\ (a, s) ∈ allow
  | DenyMatch s => exists allow deny, g !! key = Some (allow, deny) /\ (a, s) ∈ deny
  | NoMatch => True
  end.
Proof.
  unfold evaluate3_action. destruct (g !! key) as [[allow deny]|]; [|by intros <-].
  assert (forall (l : list Grant) t s, List.find (fun t => String.eqb (fst t) a) l = Some (t, s) -> (a, s) ∈ l) as Hf.
  { intros l t s [Hin Heq]%List.find_some. simpl in Heq. apply String.eqb_eq in Heq as ->.
    by apply list_elem_of_In. }
  destruct (List.find _ deny) as [[t s]|] eqn:Ed; [intros <-; eauto|].
  destruct (List.find _ allow) as [[t s]|] eqn:Ea; intros <-; eauto.
Qed.

(** Where a decision's citation comes from. *)
Definition cite_origin {R} (lp : LoadedPolicy R) (c : Cited) : Prop :=
  match c with
  | CPath EDeny s => s ∈ p_deny_sources (lp_policy lp)
  | CPath EAllow s => s ∈ p_allow_sources (lp_policy lp)
  | CGrant key s e => exists role a allow deny, key = role_key role /\
      lp_action_grants lp !! key = Some (allow, deny) /\
      (a, s) ∈ (match e with EAllow => allow | EDeny => deny end)
  | CDestination key d => exists role allowed, key = role_key role /\
      lp_destinations lp !! key = Some allowed /\ d ∈ allowed
  | CSubjectPath name e s => exists uid entry sp, lp_subjects lp !! uid = Some entry /\
      se_name entry = name /\ se_permissions entry = Some sp /\
      s ∈ (match e with EAllow => sp_allow_sources sp | EDeny => sp_deny_sources sp end)
  end.

Section Origins.
Context {R : Type} `{RoleSource R} (lp : LoadedPolicy R).
Hypothesis Hsite : sourced_set (lp_policy lp) None.
Hypothesis Hsubj : forall uid entry sp, lp_subjects lp !! uid = Some entry ->
  se_permissions entry = Some sp -> sourced_set (lp_policy lp) (Some sp).

Lemma decide_fs_origin req key scope uid c :
  snd (decide_fs lp req key scope (lp_subjects lp !! uid)) = Some c -> cite_origin lp c.
Proof using Hsite Hsubj.
  unfold decide_fs. destruct (resource req !! RESOURCE_PATH) as [[path| | |]|]; try done.
  destruct (canonical_violation path); [done|]. destruct (home_of req) as [home|]; [|done].
  set (subject := e ← _; _). destruct (evaluate_scope _ _ _ _ _) as [m|] eqn:Em; [|done].
  assert (subject = None \/ exists entry sp, lp_subjects lp !! uid = Some entry /\
    se_permissions entry = Some sp /\ subject = Some (se_name entry, sp)) as Hs.
  { unfold subject. destruct (lp_subjects lp !! uid) as [entry|]; [|by left]. simpl.
    destruct (se_permissions entry) as [sp|] eqn:Esp; [|by left]. right. eauto. }
  destruct Hs as [Hs|(entry & sp & He & Hp & Hs)]; rewrite Hs in *; simpl in Em |- *.
  - apply evaluate_scope_source in Em; [|exact Hsite].
    destruct m as [s|s|]; simpl; try done; intros [= <-]; simpl; [done|]. naive_solver.
  - apply evaluate_scope_source in Em; [|by eapply Hsubj]. unfold decide_fs_matched.
    destruct m as [s|s|]; try done.
    + intros [= <-]. simpl. eauto 10.
    + case_bool_decide as Hd; intros [= <-]; simpl; [done|].
      destruct Em as [?|(sp' & [= <-] & Hin)]; [done|eauto 10].
Qed.

Lemma decide_prompt_origin req role entry c :
  snd (decide_prompt lp req (role_key role) entry) = Some c -> cite_origin lp c.
Proof.
  unfold decide_prompt.
  destruct (evaluate3_action _ _ _) as [s|s|] eqn:Ee; [| |done]; apply evaluate3_action_source in Ee.
  - destruct (resource req !! RESOURCE_DESTINATION) as [[d| | |]|]; try done.
    destruct (destination_allows _ _ d) eqn:Ed; [|done]. simpl.
    assert (cite_origin lp (CDestination (role_key role) d)) as Hd.
    { unfold destination_allows in Ed. simpl. destruct (lp_destinations lp !! _) as [al|]; [|done].
      apply existsb_true in Ed as (x & Hx & ->%String.eqb_eq). eauto. }
    destruct (_ ≫= _) as [[name listed]|]; [|by intros [= <-]].
    destruct (resource req !! RESOURCE_MODEL) as [[mo| | |]|]; try done.
    destruct (existsb _ listed); [by intros [= <-]|done].
  - intros [= <-]. destruct Ee as (al & de & ? & ?). simpl. eauto 10.
Qed.

Lemma decide_admin_origin a c : snd (decide_admin lp a) = Some c -> cite_origin lp c.
Proof.
  unfold decide_admin. destruct (class_of a) as [[]|]; try done.
  destruct (String.eqb a "admin.whoami"); [done|]. destruct (existsb _ _); [|done].
  destruct (evaluate3_action _ _ _) as [s|s|] eqn:Ee; [| |done]; intros [= <-];
    apply evaluate3_action_source in Ee as (al & de & ? & ?); exists Admin, a, al, de; auto.
Qed.

Lemma decision_origin p req c :
  bd_cited (decide_loaded_cited lp p req) = Some c -> cite_origin lp c.
Proof using Hsite Hsubj.
  unfold decide_loaded_cited. destruct (uid_of req) as [[uid|]|]; try done.
  case_bool_decide; [done|]. destruct (role_for _ _ _) as [role|]; [|done].
  destruct (decide_role lp req uid role) as [v cited] eqn:Ed. simpl. intros ->.
  apply (f_equal snd) in Ed. simpl in Ed. revert Ed. unfold decide_role.
  assert (forall key, snd (decide_class key (action req)) <> Some c) as Hclass.
  { intros key. unfold decide_class. by destruct (class_of (action req)) as [[]|]. }
  destruct role; try done; (destruct (action_limit _ _); [done|]);
    try (intros Hx; by destruct (Hclass _ Hx)); destruct (is_fs_term _);
    try (destruct (attempt_scope req); [apply decide_fs_origin|done]);
    destruct (String.eqb (action req) "session.prompt"); try apply (decide_prompt_origin req Admin);
    try apply (decide_prompt_origin req User); try apply decide_admin_origin;
    intros Hx; by destruct (Hclass _ Hx).
Qed.
End Origins.

(** ** Lemmas: from the file to the snapshot *)

(** A subject an [adversary:] name claimed before and no longer resolves. *)
Definition carried_over (src : PolicySource) (x : Extracted) (uid : Z) : Prop :=
  exists name, claims (x_layer x) !! name = Some uid /\ name ∈ unresolved_adversaries src.

Lemma compiled_role persisted src vocabulary digests snap x c compiled0 uid p :
  compiled_from persisted src vocabulary digests snap x c ->
  graph_ok SCHEMA compiled0 persisted -> (0 <= uid)%Z ->
  role_for (lp_roles (sn_loaded snap)) uid p = layer_role (x_layer x) uid p.
Proof.
  intros [] Hg Hu. rewrite cf_roles0. unfold role_for, graph_roles.
  rewrite <-(extract_role _ _ _ uid p Hg cf_extract0 Hu).
  pose proof (compiled_kinds _ _ _ cf_graph0) as Hk.
  apply compile_records_grown in cf_records0 as ((ns & Hns & Fn) & (es & Hes & Fe) & _); [|done].
  apply assemble_inv in cf_graph0 as (Hg' & Hn & He & _). simpl in Hn, He.
  rewrite Hns in Hn. rewrite Hes in He.
  eapply (grown_role_for compiled0 vocabulary persisted); try done.
  apply extract_inv in cf_extract0 as (_ & source & sc & Hsc & _).
  by apply scan_subjects_spec in Hsc as (_ & _ & _ & Hone).
Qed.

(** Two entries of one uid in a layer read off a graph agree. *)
Lemma extract_unique compiled g x s s' :
  graph_ok SCHEMA compiled g -> extract g = Ok x ->
  s ∈ l_subjects (x_layer x) -> s' ∈ l_subjects (x_layer x) -> s_uid s = s_uid s' ->
  s_role s = s_role s'.
Proof.
  intros Hg (_ & source & sc & Hsc & Hl)%extract_inv. rewrite Hl, !sort_by_key_perm.
  apply scan_subjects_spec in Hsc as (Ha & _).
  intros [?%elem_of_nil|(n & [Hn Hk]%elem_of_bfilter & Hkey & _ & Hr)]%Ha; [done|].
  intros [?%elem_of_nil|(n' & [Hn' Hk']%elem_of_bfilter & Hkey' & _ & Hr')]%Ha Hu; [done|].
  apply Z.eqb_eq in Hk, Hk'. rewrite <-Hu in Hkey'.
  pose proof (proj2 (g_lookup_iff Hg _ _ n) (conj Hn (conj Hk Hkey))) as E.
  pose proof (proj2 (g_lookup_iff Hg _ _ n') (conj Hn' (conj Hk' Hkey'))) as E'. congruence.
Qed.

Lemma layer_role_elem (layer : IdentityLayer) d uid p r :
  l_bindings_sha256 layer = Some d ->
  (forall s s', s ∈ l_subjects layer -> s' ∈ l_subjects layer -> s_uid s = s_uid s' ->
     s_role s = s_role s') ->
  layer_role layer uid p = RRole r <->
  exists s, s ∈ l_subjects layer /\ s_uid s = uid /\ s_role s = role_key r.
Proof.
  intros Hd Hun. unfold layer_role. rewrite Hd. destruct (List.find _ _) as [s|] eqn:Ef; simpl.
  - apply List.find_some in Ef as [Hin%list_elem_of_In Hu%Z.eqb_eq]. split.
    + destruct (role_from_key (s_role s)) as [r'|] eqn:Er; [|done]. intros [= ->].
      apply role_from_key_Some in Er. eauto.
    + intros (s' & Hin' & Hu' & Hr). rewrite (Hun s s') by congruence. by rewrite Hr, role_from_key_key.
  - split; [done|]. intros (s & Hin & Hu & _). apply list_elem_of_In in Hin.
    apply (List.find_none _ _ Ef) in Hin. by apply Z.eqb_neq in Hin.
Qed.

(** The entries a load declares, as the file binds them. *)
Lemma declared_entry src bindings lookups label sha uid r :
  resolve_subjects bindings (found lookups) = Ok (ps_resolved src) ->
  (exists s, s ∈ l_subjects (identity_layer src label sha) /\ s_uid s = uid /\ s_role s = role_key r)
  <-> bound_to bindings (found lookups) uid r.
Proof.
  intros Hr. destruct (resolve_subjects_spec _ _ _ Hr) as (_ & Hb & _). rewrite <-Hb.
  unfold identity_layer, with_claims. cbn [l_subjects]. split.
  - intros (s & ([[u ro] n] & -> & Hin)%elem_of_map & <- & Hro). simpl in *.
    exists n. apply (f_equal role_from_key) in Hro. rewrite !role_from_key_key in Hro.
    by injection Hro as <-.
  - intros [n Hin]. exists (layer_entry (uid, r, n)). split; [by apply elem_of_map_2|done].
Qed.

Lemma compiled_role_iff persisted src vocabulary digests snap x c compiled0 uid p r bindings lookups d :
  compiled_from persisted src vocabulary digests snap x c ->
  graph_ok SCHEMA compiled0 persisted -> (0 <= uid)%Z ->
  resolve_subjects bindings (found lookups) = Ok (ps_resolved src) ->
  digests !! "bindings" = Some d ->
  role_for (lp_roles (sn_loaded snap)) uid p = RRole r <->
  if decide (r = Adversary) then bound_to bindings (found lookups) uid Adversary \/ carried_over src x uid
  else bound_to bindings (found lookups) uid r /\ ~ carried_over src x uid.
Proof.
  intros Hc Hg Hu Hres Hd. rewrite (compiled_role _ _ _ _ _ _ _ _ _ p Hc Hg Hu).
  destruct Hc as [Hex Hlayer _ _ _ _ _ _ _ _].
  destruct (carry_forward_spec (identity_layer src (l_label (x_layer x)) (digests !! "bindings"))
              (unresolved_adversaries src) (x_layer x)) as [Hcont Hkeep].
  rewrite <-Hlayer in Hcont. rewrite <-Hlayer in Hkeep.
  assert (l_bindings_sha256 (x_layer x) = Some d) as Hsha.
  { rewrite Hlayer. unfold carry_forward. destruct (carry_loop _ _ _) as [[? ?] ?]. exact Hd. }
  pose proof (fun r => layer_role_elem _ _ uid p r Hsha
    (fun s s' => extract_unique _ _ _ s s' Hg Hex)) as Hrole.
  pose proof (fun r => declared_entry src bindings lookups (l_label (x_layer x))
    (digests !! "bindings") uid r Hres) as Hdecl.
  assert (layer_role (x_layer x) uid p = RRole Adversary <->
    bound_to bindings (found lookups) uid Adversary \/ carried_over src x uid) as Hadv.
  { rewrite Hrole, <-Hdecl. change (role_key Adversary) with ADVERSARY.
    rewrite <-!contained_in_spec. apply Hcont. }
  destruct (decide (r = Adversary)) as [->|Hr]; [exact Hadv|]. split.
  - intros Hro. assert (~ carried_over src x uid) as Hnc.
    { intros Hco. assert (layer_role (x_layer x) uid p = RRole Adversary) as E by (apply Hadv; by right).
      congruence. }
    split; [|done]. apply Hdecl. apply Hrole in Hro as (s & Hs & Hsu & Hsr). exists s.
    split; [|done]. apply Hkeep; [|done]. intros name Hn Hin. apply Hnc. exists name. by rewrite <-Hsu.
  - intros [(s & Hs & Hsu & Hsr)%Hdecl Hnc]. apply Hrole. exists s. split; [|done].
    apply Hkeep; [|done]. intros name Hn Hin. apply Hnc. exists name. by rewrite <-Hsu.
Qed.

Lemma compile_sourced f64 root persisted lookups lookup principal paths bindings src vocabulary
    digests snap x c :
  parse_policy f64 root = Ok (ps_policy src) ->
  from_lookups (ps_policy src) bindings lookups lookup principal paths = Ok src ->
  compiled_from persisted src vocabulary digests snap x c ->
  sourced_set (lp_policy (sn_loaded snap)) None /\
  (forall uid entry sp, lp_subjects (sn_loaded snap) !! uid = Some entry ->
     se_permissions entry = Some sp ->
     (exists name pol, p_subjects (ps_policy src) !! name = Some pol /\ se_name entry = name /\
        su_permissions pol = Some sp) /\
     sourced_set (lp_policy (sn_loaded snap)) (Some sp)).
Proof.
  intros Hp Hs Hc. rewrite (cf_policy _ _ _ _ _ _ _ Hc), (cf_subjects _ _ _ _ _ _ _ Hc).
  apply parse_policy_shape in Hp as (Ha & Hd & v & Hv).
  pose proof (Forall2_length _ _ _ Ha) as La. pose proof (Forall2_length _ _ _ Hd) as Ld.
  assert (forall srcs ps, length srcs = length ps -> sourced (mkSourced ps srcs)) as Hsrc
    by (unfold sourced; simpl; lia).
  split.
  - split; simpl; [constructor; [|constructor]|]; by apply Hsrc.
  - intros uid entry sp He Hsp. apply from_lookups_inv in Hs as (_ & Hval & _).
    apply limits_loop_spec in Hval as [Hg _]. apply Hg in He as [He|(name & pol & Hin & Hrow)].
    { by rewrite lookup_empty in He. }
    apply btree_iter_elem in Hin. destruct Hrow as (_ & Hn & Hpe & _). rewrite Hsp in Hpe.
    split; [by exists name, pol|]. destruct (section_map_lookup _ _ _ _ _ _ Hv Hin) as [w Hw].
    destruct (parse_subject_aligned _ _ _ _ Hw (eq_sym Hpe)) as [Hsa Hsd].
    apply Forall2_length in Hsa, Hsd.
    split; simpl; [constructor; [|constructor; [|constructor]]|]; by apply Hsrc.
Qed.

(** The origins of a citation are all indexed. *)
Lemma origin_indexed persisted src vocabulary digests snap x c k :
  compiled_from persisted src vocabulary digests snap x c ->
  (forall uid entry sp, lp_subjects (sn_loaded snap) !! uid = Some entry ->
     se_permissions entry = Some sp ->
     exists name pol, p_subjects (ps_policy src) !! name = Some pol /\ se_name entry = name /\
       su_permissions pol = Some sp) ->
  cite_origin (sn_loaded snap) k -> is_Some (cite snap k).
Proof.
  intros Hc Hsubj. unfold cite. rewrite (cf_index _ _ _ _ _ _ _ Hc).
  pose proof (compiled_kinds _ _ _ (cf_graph _ _ _ _ _ _ _ Hc)) as Hk.
  destruct (compile_records_grown _ _ _ _ _ _ _ (cf_records _ _ _ _ _ _ _ Hc) Hk)
    as (_ & _ & _ & [Hd Ha Hg Hds Hsu]).
  destruct k as [[] s|key s e|key d|name e s]; unfold cite_origin;
    rewrite ?(cf_policy _ _ _ _ _ _ _ Hc); [apply Ha|apply Hd|..].
  - intros (role & a & allow & deny & -> & Hl & Hin).
    pose proof (validate_grants_spec _ _ (role_key role) (cf_grants _ _ _ _ _ _ _ Hc)) as Hv.
    destruct (p_action_grants (ps_policy src) !! role_key role) as [rg|] eqn:Erg; [|congruence].
    destruct Hv as (ro & al & de & _ & Hal & Hde & Hl'). rewrite Hl in Hl'. injection Hl' as <- <-.
    assert (forall l out, check_entries_of (role_key role) ro l = Ok out -> (a, s) ∈ out ->
      exists p, p ∈ l /\ action_source p = s) as Hwr.
    { intros l out. unfold check_entries_of. intros Hch Hin'. unbind Hch. injection Hch as <-.
      apply try_map_Ok in E. apply list_elem_of_In, in_concat in Hin' as (ts & Hts & Hin').
      apply list_elem_of_In in Hts. destruct (Forall2_elem_r _ _ _ _ E Hts) as (p & Hp & Hpt).
      destruct (role_terms _ _ p); [|done]. injection Hpt as <-.
      apply in_map_iff in Hin' as (t & [= _ <-] & _). eauto. }
    destruct e.
    + destruct (Hwr _ _ Hal Hin) as (p & Hp & <-).
      by apply (Hg _ rg role p Erg (role_from_key_key role)).
    + destruct (Hwr _ _ Hde Hin) as (p & Hp & <-).
      by apply (Hg _ rg role p Erg (role_from_key_key role)).
  - intros (role & al & -> & Hl & Hin). eapply Hds; [exact Hl|apply role_from_key_key|done].
  - intros (uid & entry & sp & He & <- & Hsp & Hin).
    destruct (Hsubj _ _ _ He Hsp) as (name & pol & Hn & <- & Hpe).
    destruct (Hsu _ pol sp s Hn Hpe). destruct e; auto.
Qed.

(** ** Theorems *)

(** C22: a compiled snapshot's roles are the files': over any well-formed
    persisted graph and any valid load, when [compile] accepts them and the file
    has a [bindings:] section, a uid resolves to [adversary] exactly when an entry
    under [adversary] resolves to it or it was contained under a name that no
    longer resolves, and to another role exactly when the file binds it there and
    it was not; with no [bindings:] section the principal alone holds a role. *)
Theorem snapshot_role_iff (b : GraphBuilder) (compiled0 vocabulary : CompiledSet)
    (persisted : Graph) (policy : AuthzPolicy) (bindings : Bindings) (lookups : Lookups)
    (lookup : string -> result (option Z) Z) (principal : Z) (paths : PolicyPaths)
    (src : PolicySource) (digests : gmap string digest) (snap : Snapshot) (uid : Z) (r : Role)
    (Hp : assemble b SCHEMA compiled0 = Ok persisted)
    (Hs : from_lookups policy bindings lookups lookup principal paths = Ok src)
    (Hc : compile persisted src vocabulary digests = Ok snap) (Hu : (0 <= uid)%Z) :
  exists x, extract persisted = Ok x /\
  (role_for (lp_roles (sn_loaded snap)) uid principal = RRole r <->
   match digests !! "bindings" with
   | Some _ =>
       if decide (r = Adversary)
       then bound_to bindings (found lookups) uid Adversary \/ carried_over src x uid
       else bound_to bindings (found lookups) uid r /\ ~ carried_over src x uid
   | None => uid = principal /\ r = Admin
   end).
Proof.
  apply assemble_inv in Hp as [Hg _]. apply from_lookups_inv in Hs as (Hres & _).
  apply compile_inv in Hc as (x & c & Hc). exists x. split; [apply Hc|].
  destruct (digests !! "bindings") as [d|] eqn:Ed; [by eapply compiled_role_iff|].
  rewrite (compiled_role _ _ _ _ _ _ _ _ _ principal Hc Hg Hu).
  assert (l_bindings_sha256 (x_layer x) = None) as Hsha.
  { rewrite (cf_layer _ _ _ _ _ _ _ Hc), Ed. unfold carry_forward.
    by destruct (carry_loop _ _ _) as [[? ?] ?]. }
  unfold layer_role. rewrite Hsha. destruct (Z.eqb_spec uid principal); naive_solver.
Qed.

(** a citation is evidence: every rule the snapshot's index cites is a rule
    node of the compiled graph with the cited key, declared by the section node
    with the cited key. *)
Theorem citation_sound (persisted : Graph) (src : PolicySource) (vocabulary : CompiledSet)
    (digests : gmap string digest) (snap : Snapshot) (k : Cited) (r : RuleCitation)
    (Hc : compile persisted src vocabulary digests = Ok snap) (Hk : cite snap k = Some r) :
  exists n e s, g_node (sn_graph snap) (rc_node r) = Some n /\ n_kind n = RULE /\
    n_key n = rc_key r /\ e ∈ out_edges (sn_graph snap) (rc_node r) DECLARED_BY /\
    g_node (sn_graph snap) (e_to e) = Some s /\ n_kind s = SECTION /\ n_key s = rc_section r.
Proof.
  apply compile_inv in Hc as (x & c & Hc). unfold cite in Hk.
  rewrite (cf_index _ _ _ _ _ _ _ Hc) in Hk.
  pose proof (compiled_kinds _ _ _ (cf_graph _ _ _ _ _ _ _ Hc)) as Hv.
  destruct (compile_records_grown _ _ _ _ _ _ _ (cf_records _ _ _ _ _ _ _ Hc) Hv)
    as (_ & _ & Hi & _).
  destruct (Hi k r Hk) as (n & e & s & Hn & Hid & Hkn & Hkey & He & Hf & Hek & Hto & Hs & Hsk & Hskey).
  destruct (assemble_inv _ _ _ _ (cf_graph _ _ _ _ _ _ _ Hc)) as (Hg & Hnp & Hep & _).
  simpl in Hnp, Hep. exists n, e, s.
  split; [apply (g_node_iff Hg); by rewrite Hnp|]. split; [done|]. split; [done|]. split.
  - rewrite (out_edges_eq Hg). apply elem_of_bfilter. rewrite Hep, edge_at_spec. auto.
  - split; [apply (g_node_iff Hg); by rewrite Hnp|]. done.
Qed.

(** every citing decision is cited: over a parsed policy, whatever rule the
    decision core names for a request, the snapshot's index has its citation. *)
Theorem citation_complete (f64 : Z -> string) (root : Value) (bindings : Bindings)
    (lookups : Lookups) (lookup : string -> result (option Z) Z) (principal : Z)
    (paths : PolicyPaths) (src : PolicySource) (persisted : Graph) (vocabulary : CompiledSet)
    (digests : gmap string digest) (snap : Snapshot) (principal_uid : Z) (req : Request) (k : Cited)
    (Hp : parse_policy f64 root = Ok (ps_policy src))
    (Hs : from_lookups (ps_policy src) bindings lookups lookup principal paths = Ok src)
    (Hc : compile persisted src vocabulary digests = Ok snap)
    (Hk : bd_cited (decide_loaded_cited (sn_loaded snap) principal_uid req) = Some k) :
  is_Some (cite snap k).
Proof.
  apply compile_inv in Hc as (x & c & Hc).
  destruct (compile_sourced _ _ _ _ _ _ _ _ _ _ _ _ _ _ Hp Hs Hc) as [Hsite Hsubj].
  apply (origin_indexed _ _ _ _ _ _ _ _ Hc).
  - intros uid entry sp He Hsp. by apply (Hsubj uid entry sp He Hsp).
  - eapply decision_origin; [exact Hsite| |exact Hk]. intros uid entry sp He Hsp.
    by apply (Hsubj uid entry sp He Hsp).
Qed.

(** ** Witnesses *)

(** [op] is bound to [user]; [mallory]'s account and uid 1001 are contained. *)
Definition demo_file_bindings : Bindings :=
  mkBindings (Some {["user" := [EName "op"]; "adversary" := [EName "mallory"; EUid 1001]]})
    (Some "") false.

Definition demo_parsed : AuthzPolicy :=
  match parse_policy (fun _ => "") demo_root with Ok pol => pol | Err _ => demo_policy end.

Definition demo_src : PolicySource :=
  match from_lookups demo_parsed demo_file_bindings demo_lookups (fun _ => Ok None) 1000 demo_paths with
  | Ok src => src
  | Err _ => mkSource demo_policy bindings_absent ∅ (fun _ => Ok None) (mkResolved [] [] ∅) ∅ 0
               demo_paths "" ""
  end.

Definition demo_digests : gmap string digest :=
  {["bindings" := demo_digest; "permissions" := demo_digest]}.

Definition demo_stored : Graph :=
  match build (identity_layer demo_src "U" (Some demo_digest)) None None demo_compiled demo_digest 7
          PSeed with
  | Ok g => g
  | Err _ => demo_graph
  end.

Definition demo_vocabulary : CompiledSet :=
  match @compiled_set GraphError "U" with Ok v => v | Err _ => [] end.

Definition demo_snapshot : Snapshot :=
  match compile demo_stored demo_src demo_vocabulary demo_digests with
  | Ok s => s
  | Err _ => mkSnapshot demo_graph demo_graph
               (mkLoaded demo_policy (mkGraphBindings demo_graph false) ∅ ∅ ∅) ∅ ∅ []
  end.

Lemma demo_parsed_ok : parse_policy (fun _ => "") demo_root = Ok (ps_policy demo_src).
Proof. vm_compute. reflexivity. Qed.

Lemma demo_src_ok :
  from_lookups (ps_policy demo_src) demo_file_bindings demo_lookups (fun _ => Ok None) 1000
    demo_paths = Ok demo_src.
Proof. vm_compute. reflexivity. Qed.

Lemma demo_compiles : compile demo_stored demo_src demo_vocabulary demo_digests = Ok demo_snapshot.
Proof. vm_compute. reflexivity. Qed.

Lemma demo_stored_built :
  exists b, assemble b SCHEMA demo_compiled = Ok demo_stored.
Proof.
  destruct (build_inv (identity_layer demo_src "U" (Some demo_digest)) None None demo_compiled
              demo_digest 7 PSeed demo_stored) as (b & _ & Hb); [vm_compute; reflexivity|].
  by exists b.
Qed.

Lemma snapshot_role_iff_witness :
  role_for (lp_roles (sn_loaded demo_snapshot)) 1001 1000 = RRole Adversary /\
  exists x, extract demo_stored = Ok x /\
    (bound_to demo_file_bindings (found demo_lookups) 1001 Adversary \/ carried_over demo_src x 1001).
Proof.
  assert (role_for (lp_roles (sn_loaded demo_snapshot)) 1001 1000 = RRole Adversary) as Hr
    by (vm_compute; reflexivity).
  split; [exact Hr|]. destruct demo_stored_built as [b Hb].
  destruct (snapshot_role_iff b demo_compiled demo_vocabulary demo_stored (ps_policy demo_src)
    demo_file_bindings demo_lookups (fun _ => Ok None) 1000 demo_paths demo_src demo_digests
    demo_snapshot 1001 Adversary Hb demo_src_ok demo_compiles) as (x & Hx & Hiff); [lia|].
  exists x. split; [exact Hx|]. apply Hiff. exact Hr.
Defined.

Lemma citation_sound_witness :
  exists r n, cite demo_snapshot (CPath EAllow "Write(~/projects/**)") = Some r /\
    g_node (sn_graph demo_snapshot) (rc_node r) = Some n /\ n_key n = "rule:permissions:allow:0".
Proof.
  destruct (cite demo_snapshot (CPath EAllow "Write(~/projects/**)")) as [r|] eqn:E.
  - destruct (citation_sound demo_stored demo_src demo_vocabulary demo_digests demo_snapshot _ r
                demo_compiles E) as (n & e & s & Hn & _ & Hkey & _).
    exists r, n. split; [reflexivity|]. split; [exact Hn|]. rewrite Hkey.
    vm_compute in E. injection E as <-. reflexivity.
  - vm_compute in E. discriminate E.
Defined.

Lemma citation_complete_witness :
  is_Some (cite demo_snapshot (CPath EAllow "Write(~/projects/**)")).
Proof.
  apply (citation_complete (fun _ => "") demo_root demo_file_bindings demo_lookups (fun _ => Ok None)
           1000 demo_paths demo_src demo_stored demo_vocabulary demo_digests demo_snapshot 1000
           demo_write _ demo_parsed_ok demo_src_ok demo_compiles).
  vm_compute. reflexivity.
Defined.
