(* ===== verification/Composition.v ===== *)
(** * The composed decision point: [crates/maknae-kernel/src/composition.rs],
    [live.rs], and [BasicAuthorizer] of [crates/maknae-authz-basic/src/lib.rs]

    The daemon's PDP is the baseline and the ceiling under one fold. The first
    part models the operands and the composition; the second is the live turn as
    a step relation: decisions share it, an install takes it alone, a snapshot
    swap needs neither. *)
From stdpp Require Import base list strings gmap sorting.
From Stdlib Require Import ZArith Lia Ascii.
From S2P Require Import Prelude RustStr RustSlice Seam Config Classification Ceiling AuthzPolicy.
From S2P Require Import Decide Graph GraphFormat Identity Bindings PolicySource Snapshot.
Open Scope nat_scope.

(** ** The operands *)

Definition cited_on (snap : Snapshot) (d : BasicDecided) : Decided :=
  mkDecided (bd_verdict d) (bd_role d) (c ← bd_cited d; cite snap c).

Definition decide_on (snap : Snapshot) (principal : Z) (req : Request) : Decided :=
  cited_on snap (decide_loaded_cited (sn_loaded snap) principal req).

(** [BasicAuthorizer]'s methods on the snapshot and the principal it has read. *)
Definition BasicAuthorizer (snap : Snapshot) (principal : Z) : Authorizer :=
  let cited req := Returned (decide_on snap principal req) in
  mkAuthorizer cited (decide_each_cited cited) (Returned (snapshot_subjects snap))
    (Returned "maknae-authz-basic").

(** [Candidate] decides on a snapshot that need not be installed; it keeps the
    trait's own [subjects] and [backend_name]. *)
Definition Candidate (snap : Snapshot) (principal : Z) : Authorizer :=
  let cited req := Returned (decide_on snap principal req) in
  mkAuthorizer cited (decide_each_cited cited) default_subjects default_backend_name.

(** ** The composition *)

(** The baseline first. *)
Definition operands_with (base ceiling : Authorizer) : list Authorizer := [base; ceiling].

Definition composed_decide_cited (snap : Snapshot) (principal : Z) (ceiling : Authorizer)
    (req : Request) : Decided :=
  compose_decide_cited (operands_with (BasicAuthorizer snap principal) ceiling) req.

Definition composed_decide_cited_all (snap : Snapshot) (principal : Z) (ceiling : Authorizer)
    (reqs : list Request) : option (list Decided) :=
  compose_decide_cited_all (operands_with (BasicAuthorizer snap principal) ceiling) reqs.

Definition composed_subjects (snap : Snapshot) (principal : Z) (ceiling : Authorizer) :=
  compose_subjects (operands_with (BasicAuthorizer snap principal) ceiling).

Definition composed_backend_name (snap : Snapshot) (principal : Z) (ceiling : Authorizer) :=
  compose_backend_name (operands_with (BasicAuthorizer snap principal) ceiling).

Definition decide_candidate_all (candidate : Snapshot) (principal : Z) (ceiling : Authorizer)
    (reqs : list Request) : option (list Decided) :=
  compose_decide_cited_all (operands_with (Candidate candidate principal) ceiling) reqs.

(** ** The live turn *)

Section Live.
(** The served view and the provider authority, as the request path reads them. *)
Context {View Providers : Type}.
Context (ceiling : Authorizer).

Record LiveValues := mkLive { lv_principal : Z; lv_view : View; lv_providers : Providers }.

(** A decision in flight: what it has read, under its share of the turn. *)
Inductive Flight :=
| Shared (req : Request)
| ReadSnapshot (req : Request) (snap : Snapshot)
| ReadPrincipal (req : Request) (snap : Snapshot) (principal : Z).

(** The exclusive turn: free, taken, half installed, installed. *)
Inductive Turn :=
| Free
| Taken
| PrincipalInstalled (v : LiveValues)
| Installed.

Record World := mkWorld {
  w_snapshot : Snapshot;
  w_principal : Z;
  w_view : View;
  w_providers : Providers;
  w_generation : Z;
  w_turn : Turn;
  w_flights : gmap nat Flight;
  (** Every finished decision, with the principal and the generation that were
      installed when it took its share. *)
  w_started : gmap nat (Z * Z);
  w_done : list (Request * Z * Z * Decided);
  (** Every snapshot and every set of live values installed so far. *)
  w_snapshots : list Snapshot;
  w_values : list LiveValues }.

Definition with_flight (w : World) (id : nat) (f : Flight) : World :=
  mkWorld (w_snapshot w) (w_principal w) (w_view w) (w_providers w) (w_generation w) (w_turn w)
    (<[id := f]> (w_flights w)) (w_started w) (w_done w) (w_snapshots w) (w_values w).

Inductive step : World -> World -> Prop :=
(** [live_turn().share()]: blocks while the turn is taken. *)
| step_share w id req :
    w_turn w = Free -> w_flights w !! id = None ->
    step w (mkWorld (w_snapshot w) (w_principal w) (w_view w) (w_providers w) (w_generation w)
              (w_turn w) (<[id := Shared req]> (w_flights w))
              (<[id := (w_principal w, w_generation w)]> (w_started w)) (w_done w) (w_snapshots w)
              (w_values w))
(** [self.snapshot()], then [self.current_principal()]. *)
| step_snapshot w id req :
    w_flights w !! id = Some (Shared req) ->
    step w (with_flight w id (ReadSnapshot req (w_snapshot w)))
| step_principal w id req snap :
    w_flights w !! id = Some (ReadSnapshot req snap) ->
    step w (with_flight w id (ReadPrincipal req snap (w_principal w)))
(** The fold over both operands, and the share's release. *)
| step_decide w id req snap principal start :
    w_flights w !! id = Some (ReadPrincipal req snap principal) ->
    w_started w !! id = Some start ->
    step w (mkWorld (w_snapshot w) (w_principal w) (w_view w) (w_providers w) (w_generation w)
              (w_turn w) (delete id (w_flights w)) (delete id (w_started w))
              (w_done w ++
                 [(req, fst start, snd start, composed_decide_cited snap principal ceiling req)])
              (w_snapshots w) (w_values w))
(** [BasicAuthorizer::install]: needs no turn. *)
| step_install w snap :
    step w (mkWorld snap (w_principal w) (w_view w) (w_providers w) (w_generation w) (w_turn w)
              (w_flights w) (w_started w) (w_done w) (w_snapshots w ++ [snap]) (w_values w))
(** [try_take]: no decision and no other install holds the turn. *)
| step_take w :
    w_turn w = Free -> w_flights w = ∅ ->
    step w (mkWorld (w_snapshot w) (w_principal w) (w_view w) (w_providers w) (w_generation w)
              Taken (w_flights w) (w_started w) (w_done w) (w_snapshots w)
              (w_values w))
(** [install_in]: the principal, then the view and the providers. *)
| step_install_principal w v :
    w_turn w = Taken ->
    step w (mkWorld (w_snapshot w) (lv_principal v) (w_view w) (w_providers w) (w_generation w)
              (PrincipalInstalled v) (w_flights w) (w_started w) (w_done w) (w_snapshots w)
              (w_values w ++ [v]))
| step_install_live w v :
    w_turn w = PrincipalInstalled v ->
    step w (mkWorld (w_snapshot w) (w_principal w) (lv_view v) (lv_providers v)
              (next_id (w_generation w)) Installed (w_flights w) (w_started w) (w_done w)
              (w_snapshots w) (w_values w))
(** The turn's guard dropped, with or without an install. *)
| step_release w :
    w_turn w = Taken \/ w_turn w = Installed ->
    step w (mkWorld (w_snapshot w) (w_principal w) (w_view w) (w_providers w) (w_generation w)
              Free (w_flights w) (w_started w) (w_done w) (w_snapshots w)
              (w_values w)).

Definition boot_world (snap : Snapshot) (v : LiveValues) : World :=
  mkWorld snap (lv_principal v) (lv_view v) (lv_providers v) 0 Free ∅ ∅ [] [snap] [v].

Inductive reachable (snap : Snapshot) (v : LiveValues) : World -> Prop :=
| reach_boot : reachable snap v (boot_world snap v)
| reach_step w w' : reachable snap v w -> step w w' -> reachable snap v w'.
End Live.

(** ** Lemmas: the live turn *)

Section LiveLemmas.
Context {View Providers : Type} (ceiling : Authorizer).
Abbreviation World := (@World View Providers).

Definition flight_ok (w : World) (f : Flight) : Prop :=
  match f with
  | Shared _ => True
  | ReadSnapshot _ s => s ∈ w_snapshots w
  | ReadPrincipal _ s p => s ∈ w_snapshots w /\ p = w_principal w
  end.

(** The served values are one install's, except between an install's halves. *)
Definition served_ok (w : World) : Prop :=
  match w_turn w with
  | PrincipalInstalled v => v ∈ w_values w /\ w_principal w = lv_principal v
  | _ => mkLive (w_principal w) (w_view w) (w_providers w) ∈ w_values w
  end.

Record live_inv (w : World) : Prop := {
  li_alone : w_turn w <> Free -> w_flights w = ∅;
  li_started : forall id f, w_flights w !! id = Some f ->
    w_started w !! id = Some (w_principal w, w_generation w);
  li_flight : forall id f, w_flights w !! id = Some f -> flight_ok w f;
  li_snapshot : w_snapshot w ∈ w_snapshots w;
  li_served : served_ok w;
  li_done : forall req p gen d, (req, p, gen, d) ∈ w_done w ->
    exists s, s ∈ w_snapshots w /\ d = composed_decide_cited s p ceiling req }.

(** A flight's next phase keeps the invariant. *)
Lemma with_flight_inv w id f f' :
  live_inv w -> w_flights w !! id = Some f -> flight_ok w f' -> live_inv (with_flight w id f').
Proof.
  intros [] Hf Hok. constructor; simpl; try done.
  - intros Ht. specialize (li_alone0 Ht). rewrite li_alone0 in Hf. by rewrite lookup_empty in Hf.
  - intros id' g. rewrite lookup_insert_Some. intros [[<- <-]|[_ Hg]]; eauto.
  - intros id' g. rewrite lookup_insert_Some. intros [[<- <-]|[_ Hg]]; [done|by eapply li_flight0].
Qed.

(** A step that touches no flight keeps them, when the principal and the
    generation stay or none is in flight. *)
Lemma step_inv w w' : step ceiling w w' -> live_inv w -> live_inv w'.
Proof.
  intros Hs Hi. destruct Hs as [w id req Ht Hn|w id req Hf|w id req s Hf|w id req s p st Hf Hst
    |w s|w Ht Hn|w v Ht|w v Ht|w Ht].
  - destruct Hi. constructor; simpl; try done.
    + intros id' f. rewrite lookup_insert_Some. intros [[<- _]|[Hne Hf]].
      * by rewrite lookup_insert_eq.
      * rewrite lookup_insert_ne by done. eauto.
    + intros id' f. rewrite lookup_insert_Some. intros [[_ <-]|[_ Hf]]; [done|].
      by apply (li_flight0 id').
  - eapply with_flight_inv; [done..|]. apply Hi.
  - eapply with_flight_inv; [done..|]. split; [|done]. exact (li_flight _ Hi _ _ Hf).
  - destruct Hi. constructor; simpl; try done.
    + intros Ht. by rewrite li_alone0, delete_empty.
    + intros id' f [Hne Hf']%lookup_delete_Some. rewrite lookup_delete_ne by done. eauto.
    + intros id' f [Hne Hf']%lookup_delete_Some. by apply (li_flight0 id').
    + intros req' p' gen d [Hin|Hin]%elem_of_app; [by eapply li_done0|].
      apply list_elem_of_singleton in Hin. simplify_eq.
      pose proof (li_started0 _ _ Hf) as Hst'. rewrite Hst in Hst'. injection Hst' as ->.
      destruct (li_flight0 _ _ Hf) as [Hsn ->]. by exists s.
  - destruct Hi. constructor; simpl; try done.
    + intros id f Hf. specialize (li_flight0 _ _ Hf). destruct f; simpl in *;
        rewrite ?elem_of_app; naive_solver.
    + apply elem_of_app. right. left.
    + intros req p gen d Hin. destruct (li_done0 _ _ _ _ Hin) as (s' & Hs' & ->).
      exists s'. by rewrite elem_of_app; auto.
  - destruct Hi as [? ? ? ? Hsv ?]. unfold served_ok in Hsv. rewrite Ht in Hsv. by constructor.
  - destruct Hi as [Hal ? ? ? Hsv ?].
    assert (w_flights w = ∅) as Hem by (apply Hal; by rewrite Ht).
    constructor; simpl; try done; try (rewrite Hem; by intros id f; rewrite lookup_empty).
    unfold served_ok. simpl. split; [apply elem_of_app; right; left|done].
  - destruct Hi as [Hal ? ? ? Hsv ?]. unfold served_ok in Hsv. rewrite Ht in Hsv.
    assert (w_flights w = ∅) as Hem by (apply Hal; by rewrite Ht).
    constructor; simpl; try done; try (rewrite Hem; by intros id f; rewrite lookup_empty).
    unfold served_ok. simpl. destruct Hsv as [Hv ->]. by destruct v.
  - destruct Hi as [? ? ? ? Hsv ?]. constructor; simpl; try done.
    unfold served_ok in *. simpl. by destruct Ht as [Ht|Ht]; rewrite Ht in Hsv.
Qed.

Lemma reachable_inv snap v w : reachable ceiling snap v w -> live_inv w.
Proof.
  induction 1 as [|w w' _ IH Hs]; [|by eapply step_inv].
  constructor; simpl; try done; try (by intros id f; rewrite lookup_empty); try left.
  - unfold served_ok. simpl. destruct v. left.
  - by intros ? ? ? ? ?%elem_of_nil.
Qed.
End LiveLemmas.

(** ** Lemmas: the composed verdict *)

(** Content the ceiling lets through. *)
Definition flows (policy : ClassificationPolicy) (c : Ceiling) (req : Request) : Prop :=
  is_control_plane (action req) = true \/ label_of req = Absent \/
  exists m l, label_of req = Marking m /\ cp_level_of policy m = Some l /\
    l_rank l <= l_rank (c_classification c).

Lemma ceiling_abstains_iff policy is_level c req :
  PolicyLaws policy is_level -> is_level (c_classification c) ->
  (decide_ceiling policy c (action req) (label_of req) = NotApplicable None <-> flows policy c req) /\
  (~ flows policy c req ->
   exists reason, decide_ceiling policy c (action req) (label_of req) = Deny reason).
Proof.
  intros L Hc. unfold flows. destruct (is_control_plane (action req)) eqn:Ha.
  - unfold decide_ceiling. rewrite Ha. split; [split; auto|]. intros []. by left.
  - destruct (ceiling_flows_spec policy is_level L c (action req) (label_of req) Hc Ha) as [H1 H2].
    split; [rewrite H1; split; [by right|by intros [?|?]]|].
    intros Hn. apply H2. intros Hf. apply Hn. by right.
Qed.

Lemma composed_verdict snap p c policy req :
  d_verdict (composed_decide_cited snap p (CeilingAuthorizer c policy) req) =
  combine [bd_verdict (decide_loaded_cited (sn_loaded snap) p req);
           decide_ceiling policy c (action req) (label_of req)].
Proof. reflexivity. Qed.

Lemma basic_pointwise snap p : pointwise (BasicAuthorizer snap p) /\ pointwise (Candidate snap p).
Proof. split; apply each_cited_pointwise. Qed.

Lemma ceiling_pointwise c policy : pointwise (CeilingAuthorizer c policy).
Proof.
  apply (each_cited_pointwise
           (fun req => mkDecided (decide_ceiling policy c (action req) (label_of req)) None None)).
Qed.

Lemma combine_deny_first r vs : combine (Deny r :: vs) = Deny r.
Proof. reflexivity. Qed.

(** ** Theorems *)

(** C21: the daemon permits exactly when both floors let the request through: the
    baseline permits it on the installed snapshot and the ceiling does not refuse
    its content; every permit carries the audit obligation alone. *)
Theorem composed_permit_iff (snap : Snapshot) (principal : Z) (c : Ceiling)
    (policy : ClassificationPolicy) (is_level : Level -> Prop) (req : Request)
    (os : list Obligation) (L : PolicyLaws policy is_level) (Hc : is_level (c_classification c)) :
  finalize (d_verdict (composed_decide_cited snap principal (CeilingAuthorizer c policy) req))
    = DPermit os <->
  os = [audit_obligation] /\ permitted (sn_loaded snap) principal req /\ flows policy c req.
Proof.
  rewrite finalize_permit, composed_verdict.
  destruct (ceiling_abstains_iff policy is_level c req L Hc) as [Habs Hden].
  rewrite <-decide_loaded_permitted.
  pose proof (decide_loaded_audited (sn_loaded snap) principal req) as Haud.
  pose proof (decide_ceiling_not_permit policy c (action req) (label_of req)) as Hnp.
  destruct (bd_verdict _) as [os'|r|n|]; simpl.
  - rewrite (Haud os' eq_refl). destruct (decide_ceiling _ _ _ _) as [?|r|n|] eqn:Ed; try done.
    + split; [done|]. by intros (_ & _ & ?%Habs).
    + assert (n = None) as ->.
      { unfold decide_ceiling in Ed. repeat case_match; congruence. }
      split; [|intros (-> & _); reflexivity]. intros H. injection H as <-.
      split; [done|]. split; [done|]. by apply Habs.
    + exfalso. unfold decide_ceiling in Ed. repeat case_match; congruence.
  - split; [done|]. by intros (_ & ? & _).
  - split; [|by intros (_ & ? & _)]. by destruct (decide_ceiling _ _ _ _).
  - split; [|by intros (_ & ? & _)]. by destruct (decide_ceiling _ _ _ _).
Qed.

(** An adversary is denied. *)
Lemma composed_adversary_denied snap principal ceiling uid req :
  uid_of req = Ok (Some uid) -> class_of (action req) <> Some CKernel ->
  role_for (lp_roles (sn_loaded snap)) uid principal = RRole Adversary ->
  finalize (d_verdict (composed_decide_cited snap principal ceiling req)) =
  DDeny "subject contained: role=adversary".
Proof.
  intros Hu Ha Hr. unfold composed_decide_cited, compose_decide_cited, operands_with, fold_cited.
  cbn [map d_verdict]. unfold guarded_decide_cited at 1. cbn.
  unfold decide_loaded_cited. rewrite Hu, (bool_decide_false _ Ha), Hr. reflexivity.
Qed.

Lemma uid_of_range req uid : uid_of req = Ok (Some uid) -> (0 <= uid)%Z.
Proof.
  unfold uid_of. destruct (Seam.subject req !! SUBJECT_UID) as [[]|]; try done.
  destruct (try_u32 _) as [u|] eqn:E; [|done]. intros H. injection H as <-.
  apply try_u32_Some in E as [-> ?]. lia.
Qed.

(** Containment reaches the decision point: over any valid load and any
    well-formed persisted graph, a uid that [bindings.yaml] contains, or that was
    contained under a name that no longer resolves, is denied every action that is
    not the kernel's own, whatever the policy grants and whatever the ceiling. *)
Theorem contained_uid_denied (b : GraphBuilder) (compiled0 vocabulary : CompiledSet)
    (persisted : Graph) (policy : AuthzPolicy) (bindings : Bindings) (lookups : Lookups)
    (lookup : string -> result (option Z) Z) (principal : Z) (paths : PolicyPaths)
    (src : PolicySource) (digests : gmap string digest) (snap : Snapshot) (x : Extracted)
    (uid : Z) (req : Request) (ceiling : Authorizer) (d : digest)
    (Hp : assemble b SCHEMA compiled0 = Ok persisted)
    (Hs : from_lookups policy bindings lookups lookup principal paths = Ok src)
    (Hx : extract persisted = Ok x)
    (Hc : compile persisted src vocabulary digests = Ok snap)
    (Hd : digests !! "bindings" = Some d) (Hu : uid_of req = Ok (Some uid))
    (Ha : class_of (action req) <> Some CKernel)
    (Hb : bound_to bindings (found lookups) uid Adversary \/ carried_over src x uid) :
  finalize (d_verdict (composed_decide_cited snap principal ceiling req)) =
  DDeny "subject contained: role=adversary".
Proof.
  apply assemble_inv in Hp as [Hg _]. apply from_lookups_inv in Hs as (Hres & _).
  apply compile_inv in Hc as (x' & c & Hc).
  assert (x' = x) as -> by (pose proof (cf_extract _ _ _ _ _ _ _ Hc); congruence).
  pose proof (uid_of_range _ _ Hu) as Hpos. apply (composed_adversary_denied _ _ _ uid); [done..|].
  by apply (compiled_role_iff _ _ _ _ _ _ _ _ _ _ Adversary _ _ _ Hc Hg Hpos Hres Hd).
Qed.

(** A batch is decided request by request. *)
Lemma composed_all_pointwise snap principal c policy reqs :
  composed_decide_cited_all snap principal (CeilingAuthorizer c policy) reqs =
  Some (map (composed_decide_cited snap principal (CeilingAuthorizer c policy)) reqs).
Proof.
  apply compose_all_pointwise. constructor; [apply basic_pointwise|].
  constructor; [apply ceiling_pointwise|constructor].
Qed.

(** the reload's rehearsal is the reload: deciding a batch on a candidate
    snapshot gives, request by request, what the composition decides once that
    snapshot is installed. *)
Theorem candidate_agrees (snap : Snapshot) (principal : Z) (c : Ceiling)
    (policy : ClassificationPolicy) (reqs : list Request) :
  decide_candidate_all snap principal (CeilingAuthorizer c policy) reqs =
  Some (map (composed_decide_cited snap principal (CeilingAuthorizer c policy)) reqs).
Proof.
  unfold decide_candidate_all. rewrite compose_all_pointwise; [done|].
  constructor; [apply basic_pointwise|]. constructor; [apply ceiling_pointwise|constructor].
Qed.

(** C25: decisions are atomic against live installs: in every reachable state each
    finished decision is the composition's on one installed snapshot and on the
    principal installed when it took its share of the turn; while any decision is
    in flight the principal and the generation are the ones it started with; and
    outside an install the served principal, view and providers are one install's. *)
Theorem live_turn_atomic {View Providers : Type} (ceiling : Authorizer) (snap : Snapshot)
    (v : @LiveValues View Providers) (w : World) (Hr : reachable ceiling snap v w) :
  (forall req p gen d, (req, p, gen, d) ∈ w_done w ->
     exists s, s ∈ w_snapshots w /\ d = composed_decide_cited s p ceiling req) /\
  (forall id f, w_flights w !! id = Some f ->
     w_turn w = Free /\ w_started w !! id = Some (w_principal w, w_generation w)) /\
  (w_turn w = Free -> mkLive (w_principal w) (w_view w) (w_providers w) ∈ w_values w).
Proof.
  apply reachable_inv in Hr as [Hal Hst _ _ Hsv Hdone]. split; [done|]. split.
  - intros id f Hf. split; [|by eapply Hst].
    destruct (w_turn w) eqn:Et; [done|..]; rewrite Hal in Hf by done; by rewrite lookup_empty in Hf.
  - intros Ht. unfold served_ok in Hsv. by rewrite Ht in Hsv.
Qed.

(** ** Witnesses *)

Definition demo_ceiling : Ceiling := baseline_for US.BasicPolicy.
Definition demo_pdp : Authorizer := CeilingAuthorizer demo_ceiling US.BasicPolicy.

Lemma composed_permit_iff_witness :
  [audit_obligation] = [audit_obligation] /\ permitted (sn_loaded demo_snapshot) 1000 demo_write /\
  flows US.BasicPolicy demo_ceiling demo_write.
Proof.
  apply (composed_permit_iff demo_snapshot 1000 demo_ceiling US.BasicPolicy _ demo_write
           [audit_obligation] us_laws).
  - reflexivity.
  - vm_compute. reflexivity.
Defined.

Definition demo_contained : Request :=
  mkRequest {[SUBJECT_UID := AInt 1001]} ∅ "liveness.ping" ∅.

Definition demo_extracted : Extracted :=
  match extract demo_stored with
  | Ok x => x
  | Err _ => mkExtracted layer_default None [] None None
  end.

Lemma contained_uid_denied_witness :
  finalize (d_verdict (composed_decide_cited demo_snapshot 1000 demo_pdp demo_contained)) =
  DDeny "subject contained: role=adversary".
Proof.
  destruct demo_stored_built as [b Hb].
  apply (contained_uid_denied b demo_compiled demo_vocabulary demo_stored (ps_policy demo_src)
           demo_file_bindings demo_lookups (fun _ => Ok None) 1000 demo_paths demo_src demo_digests
           demo_snapshot demo_extracted 1001 demo_contained demo_pdp demo_digest Hb demo_src_ok).
  - vm_compute. reflexivity.
  - exact demo_compiles.
  - reflexivity.
  - reflexivity.
  - vm_compute. discriminate.
  - left. exists (EUid 1001). split; [|reflexivity].
    eexists _, [EName "mallory"; EUid 1001]. split; [reflexivity|]. split; [reflexivity|].
    right. left.
Defined.

Definition demo_live : @LiveValues unit unit := mkLive 1000 tt tt.

Lemma live_turn_atomic_witness :
  exists w : @World unit unit, reachable demo_pdp demo_snapshot demo_live w /\ length (w_done w) = 1 /\
    (forall req p gen d, (req, p, gen, d) ∈ w_done w ->
       exists s, s ∈ w_snapshots w /\ d = composed_decide_cited s p demo_pdp req).
Proof.
  assert (exists w : @World unit unit, reachable demo_pdp demo_snapshot demo_live w /\
            length (w_done w) = 1) as (w & Hr & Hl).
  { eexists. split.
    - eapply reach_step; [eapply reach_step; [eapply reach_step; [eapply reach_step;
        [apply reach_boot|]|]|]|].
      + apply (step_share _ _ 0 demo_write); reflexivity.
      + apply (step_snapshot _ _ 0 demo_write). reflexivity.
      + apply (step_principal _ _ 0 demo_write demo_snapshot). reflexivity.
      + apply (step_decide _ _ 0 demo_write demo_snapshot 1000 (1000%Z, 0%Z)); reflexivity.
    - reflexivity. }
  exists w. split; [exact Hr|]. split; [exact Hl|].
  apply (live_turn_atomic demo_pdp demo_snapshot demo_live w Hr).
Defined.
