(* ===== verification/Wire.v ===== *)
(** * The client protocol: [crates/maknae-proto]

    [wire.rs], [frame.rs], [mutation.rs], [egress_frame.rs], [sealed.rs]: the
    verbs, their operands and shape rules, the frame classes and their framing.
    CBOR is a third-party codec, so a decoder is a parameter; framing is
    modelled on the bytes of the stream. [SecretText] and [Bytes] are their text:
    redaction and zeroizing are not observable here. *)
From stdpp Require Import base list strings gmap.
From Stdlib Require Import ZArith Lia Ascii.
From S2P Require Import Prelude RustStr RustSlice Config Graph GraphFormat.
Open Scope nat_scope.

(** ** Bounds *)

Definition PROTOCOL_VERSION : Z := 1.
Definition MAX_CONVERSATION_ID_BYTES : nat := 32.
Definition MAX_CONTEXT_TOKENS : Z := 16777216.
Definition MAX_TOOL_CALL_ARGS_BYTES : Z := 61440.
Definition MAX_TOOL_CALL_NAME_BYTES : nat := 64.
Definition MAX_REASONING_BYTES : Z := MAX_TOOL_CALL_ARGS_BYTES.
Definition MAX_TOOL_CALL_ID_BYTES : nat := 64.
Definition SEALED_KEY_MIN_BYTES : Z := 127.
Definition SEALED_KEY_MAX_BYTES : Z := 1150.
Definition MAX_MUTATION_EFFECTS : Z := 4096.
Definition MAX_MUTATION_DEPTH : Z := 128.
Definition MAX_MUTATION_BATCH : nat := 32.
Definition MAX_MUTATION_PATH_BYTES : Z := 4096.

Definition str_len (s : string) : Z := Z.of_nat (String.length s).

Definition conversation_id_is_acceptable (id : string) : bool :=
  negb (is_empty id) && (String.length id <=? MAX_CONVERSATION_ID_BYTES)
  && all_bytes safe_token_byte id.

(** ** Turns *)

Record PageRequest := mkPage { pg_offset_line : Z; pg_limit_lines : Z; pg_column : Z }.
Definition WHOLE_FILE : PageRequest := mkPage 1 (u32_max - 1) 0.
Definition page_request_is_acceptable (p : PageRequest) : bool :=
  (1 <=? pg_offset_line p)%Z && (1 <=? pg_limit_lines p)%Z.

Definition output_tokens_is_acceptable (n : Z) : bool := ((1 <=? n) && (n <=? MAX_CONTEXT_TOKENS))%Z.

Inductive ContentBlock :=
| Text (text : string)
| Image (data mime_type : string)
| Audio (data mime_type : string)
| Resource (uri : string) (text : option string)
| ResourceLink (uri name : string).

Definition block_kind (b : ContentBlock) : string :=
  match b with
  | Text _ => "text"
  | Image _ _ => "image"
  | Audio _ _ => "audio"
  | Resource _ _ => "resource"
  | ResourceLink _ _ => "resource_link"
  end.

Definition reasoning_is_acceptable (r : option string) : bool :=
  match r with None => true | Some t => (str_len t <=? MAX_REASONING_BYTES)%Z end.

Inductive CallRefusal := ArgumentsOverBound (bytes_ : Z).

Record ProposedToolCall := mkCall {
  tc_name : string; tc_call_id : string; tc_arguments : string; tc_refused : option CallRefusal }.

Definition proposed_tool_call_is_acceptable (c : ProposedToolCall) : bool :=
  negb (is_empty (tc_name c)) && (String.length (tc_name c) <=? MAX_TOOL_CALL_NAME_BYTES)
  && negb (is_empty (tc_call_id c)) && (String.length (tc_call_id c) <=? MAX_TOOL_CALL_ID_BYTES)
  && match tc_refused c with
     | None => (str_len (tc_arguments c) <=? MAX_TOOL_CALL_ARGS_BYTES)%Z
     | Some (ArgumentsOverBound b) =>
         is_empty (tc_arguments c) && (MAX_TOOL_CALL_ARGS_BYTES <? b)%Z
     end.

Inductive TurnOf :=
| TUser (content : list ContentBlock)
| TAssistant (content : list ContentBlock) (tool_calls : list ProposedToolCall)
    (reasoning : option string)
| TTool (call_id : string) (content : list ContentBlock).

Definition no_blocks (l : list ContentBlock) : bool := match l with [] => true | _ => false end.

Definition turn_is_acceptable (t : TurnOf) : bool :=
  match t with
  | TUser content => negb (no_blocks content)
  | TAssistant content tool_calls reasoning =>
      (negb (no_blocks content) || match tool_calls with [] => false | _ => true end)
      && forallb proposed_tool_call_is_acceptable tool_calls
      && reasoning_is_acceptable reasoning
  | TTool call_id content =>
      negb (is_empty call_id) && (String.length call_id <=? MAX_TOOL_CALL_ID_BYTES)
      && negb (no_blocks content)
  end.

(** ** Replies *)

Inductive ReplyDefect :=
| Malformed | NoChoices | EmptyReply | ReasoningOnly | TokenLimit | UnknownTool | OverBound
| ProviderAuth | ProviderRateLimit | ProviderRejected | ProviderError.

Definition defect_name (d : ReplyDefect) : string :=
  match d with
  | Malformed => "malformed"
  | NoChoices => "no-choices"
  | EmptyReply => "empty"
  | ReasoningOnly => "reasoning-only"
  | TokenLimit => "token-limit"
  | UnknownTool => "unknown-tool"
  | OverBound => "over-bound"
  | ProviderAuth => "provider-auth"
  | ProviderRateLimit => "provider-rate-limit"
  | ProviderRejected => "provider-rejected"
  | ProviderError => "provider-error"
  end.

Definition from_status (code : Z) : ReplyDefect :=
  if ((code =? 401) || (code =? 403))%Z then ProviderAuth
  else if (code =? 429)%Z then ProviderRateLimit
  else if ((400 <=? code) && (code <=? 499))%Z then ProviderRejected
  else ProviderError.

Record Usage := mkUsage { us_prompt_tokens : Z; us_completion_tokens : option Z }.

Record PromptReply := mkReply {
  pr_blocks : list ContentBlock; pr_tool_calls : list ProposedToolCall;
  pr_usage : option Usage; pr_reasoning : option string }.

(** ** Mutations ([mutation.rs]) *)

Record MutationId := mkId { mi_session_id : Z; mi_intent_seq : Z }.
#[export] Instance MutationId_eq_dec : EqDecision MutationId.
Proof. solve_decision. Defined.

Inductive WriteMode := Existing | CreateExclusive.

Record MutationLimits := mkLimits {
  ml_max_effects : Z; ml_max_depth : Z; ml_deadline_ms : Z; ml_max_bytes : Z }.

Inductive ReportedEffect := CreatedFile | ReplacedFile | CreatedDirectory | DeletedEntry | ReadFile.
#[export] Instance ReportedEffect_eq_dec : EqDecision ReportedEffect.
Proof. solve_decision. Defined.

Inductive MutationScope :=
| Exact (path : string) (effect : ReportedEffect)
| RecursiveDelete (root : string)
| Directories (paths : list string).

Inductive ReportedFinish :=
| FSuccess | FOsRefused | FPartial | FLimitReached | FPathChanged | FUnsupportedName
| FDurabilityUnknown.
#[export] Instance ReportedFinish_eq_dec : EqDecision ReportedFinish.
Proof. solve_decision. Defined.

Record ByteRange := mkRange { br_start : Z; br_end : Z }.
Record LineSpan := mkSpan { ln_first : Z; ln_last : Z; ln_complete_last : bool }.

Record EffectEntry := mkEffect {
  ef_path : string; ef_effect : ReportedEffect; ef_length : option Z;
  ef_range : option ByteRange; ef_lines : option LineSpan }.

Inductive MutationReport :=
| Batch (id : MutationId) (first_index : Z) (effects : list EffectEntry)
| Finished (id : MutationId) (next_index : Z) (outcome : ReportedFinish)
    (stopped_at : option string).

Record MutationAck := mkAck { ak_id : MutationId; ak_next_index : Z }.

(** ** Verbs *)

(** A sealed key is its bytes, within [SealedKey::new]'s bounds. *)
Definition sealed_key_new (b : bytes) : option bytes :=
  let n := Z.of_nat (length b) in
  if ((SEALED_KEY_MIN_BYTES <=? n) && (n <=? SEALED_KEY_MAX_BYTES))%Z then Some b else None.

Record ProviderChoice := mkChoice {
  pc_provider : string; pc_model : string; pc_key_subpath : string; pc_key_field : string;
  pc_sealed_key : bytes }.

Inductive ContainTarget := TargetName (n : string) | TargetUid (u : Z).

Inductive Verb :=
| Ping | Whoami | AdminStatus | AdminConfigShow | AdminAuditTail | AdminPolicyReload
| AdminSubjectList | AdminBaselineShow | AdminBaselineAccept (hash : string)
| AdminSubjectBind | AdminSubjectUnbind
| AdminContain (target : ContainTarget) (reason : string)
| AdminRelease (target : ContainTarget)
| AdminCredentialRotate | AdminProviderList | AdminProviderSet | AdminProviderDisable
| AdminSessionList | AdminSessionTerminate
| SessionNew | SessionResume | SessionClose | SessionDelete | SessionList | SessionFork
| SessionPrompt (conversation : string) (turns : list TurnOf) (output_tokens : option Z)
    (choice : option ProviderChoice)
| SessionCancel | SessionSetconfigoption | SessionSetmode | SessionLoad | SessionUpdate
| SessionRequestpermission | SessionElicitCreate | SessionElicitComplete | SessionCompact
| Read (path : string) (conversation : option string) (page : option PageRequest)
| FsWrite (path : string) (content_length : Z) (mode : WriteMode) (conversation : option string)
| FsDelete (path : string) (recursive : bool)
| FsMove | FsList | FsStat
| FsMkdir (path : string) (parents : bool) (components : list string)
| FsLink | FsChmod | FsChown
| TerminalCreate | TerminalOutput | TerminalWaitforexit | TerminalKill | TerminalRelease
| TerminalInput
| McpConnect | McpDisconnect | McpMessage | McpToolCall | McpResourceRead | McpPromptGet
| McpSamplingCreate.

(** ** Frame classes *)

Inductive FrameClass := Control | Attempt | Prompt.
#[export] Instance FrameClass_eq_dec : EqDecision FrameClass.
Proof. solve_decision. Defined.

Definition class_byte (c : FrameClass) : Z := match c with Control => 1 | Attempt => 2 | Prompt => 3 end.

(** [wire::class_of]. *)
Definition frame_class_of (v : Verb) : FrameClass :=
  match v with
  | SessionPrompt _ _ _ _ => Prompt
  | Read _ _ _ | FsWrite _ _ _ _ | FsDelete _ _ | FsMove | FsList | FsStat | FsMkdir _ _ _
  | FsLink | FsChmod | FsChown => Attempt
  | _ => Control
  end.

Definition admits_class (declared : FrameClass) (v : Verb) : bool :=
  bool_decide (frame_class_of v = declared).

Inductive ProtoFrameError :=
| Oversize (declared max : Z)
| FrameTruncated
| UnknownClass (b : Z)
| UnexpectedClass (expected got : FrameClass).

Definition class_try_from (b : Z) : result FrameClass ProtoFrameError :=
  if (b =? 1)%Z then Ok Control
  else if (b =? 2)%Z then Ok Attempt
  else if (b =? 3)%Z then Ok Prompt
  else Err (UnknownClass b).

Record FrameCaps := mkCaps { fc_control : Z; fc_attempt : Z; fc_prompt : Z }.

Definition cap (c : FrameCaps) (class : FrameClass) : Z :=
  match class with Control => fc_control c | Attempt => fc_attempt c | Prompt => fc_prompt c end.

Definition CONTROL_REQUEST_MAX : Z := 1024.
Definition CONTROL_RESPONSE_MAX : Z := 65536.
Definition ATTEMPT_REQUEST_MAX : Z := 65536.
Definition ATTEMPT_RESPONSE_MAX : Z := MAX_MUTATION_DEPTH * MAX_MUTATION_PATH_BYTES.

Definition caps_responses (prompt : Z) : FrameCaps :=
  mkCaps CONTROL_RESPONSE_MAX ATTEMPT_RESPONSE_MAX prompt.

(** ** Framing ([frame.rs]) *)

(** [to_be_bytes] and [from_be_bytes] of a [u32]. *)
Definition be_bytes4 (v : Z) : bytes := rev (le_bytes 4 v).
Definition from_be (l : bytes) : Z := from_le (rev l).

Definition frame_len (body : bytes) : result Z ProtoFrameError :=
  let n := Z.of_nat (length body) in
  if (n <? u32_max)%Z then Ok n else Err (Oversize n (u32_max - 1)).

(** What [write_frame] puts on the stream. *)
Definition write_frame (class : FrameClass) (body : bytes) : result bytes ProtoFrameError :=
  let? n := frame_len body in
  Ok (be_bytes4 n ++ le_bytes 1 (class_byte class) ++ body).

(** [read_exact]: the bytes and the rest of the stream. *)
Definition read_exact (n : nat) (r : bytes) : result (bytes * bytes) ProtoFrameError :=
  if n <=? length r then Ok (take n r, drop n r) else Err FrameTruncated.

Definition read_frame (caps : FrameCaps) (r : bytes)
  : result (FrameClass * bytes * bytes) ProtoFrameError :=
  let? (header, r) := read_exact 5 r in
  let? class := class_try_from (from_le (drop 4 header)) in
  let declared := from_be (take 4 header) in
  let max := cap caps class in
  if (max <? declared)%Z then Err (Oversize declared max)
  else
    let? (body, r) := read_exact (Z.to_nat declared) r in
    Ok (class, body, r).

Definition read_frame_of_class (expected : FrameClass) (caps : FrameCaps) (r : bytes)
  : result (bytes * bytes) ProtoFrameError :=
  let? (got, body, r) := read_frame caps r in
  if bool_decide (got = expected) then Ok (body, r) else Err (UnexpectedClass expected got).

(** ** Requests *)

Record WireRequest := mkWireRequest { wr_protocol_version : Z; wr_verb : Verb }.

Inductive ProtoCodecError :=
| CodecEncode (m : string) | CodecDecode (m : string) | UnsupportedVersion (v : Z).

Definition codec_category (e : ProtoCodecError) : string :=
  match e with
  | CodecEncode _ => "encode"
  | CodecDecode _ => "decode"
  | UnsupportedVersion _ => "unsupported-version"
  end.

(** [from_reader] is the CBOR decoder. *)
Definition decode_request (from_reader : bytes -> result WireRequest string) (b : bytes)
  : result WireRequest ProtoCodecError :=
  let? r := map_err CodecDecode (from_reader b) in
  if negb (wr_protocol_version r =? PROTOCOL_VERSION)%Z
  then Err (UnsupportedVersion (wr_protocol_version r)) else Ok r.

(** ** Egress frames ([egress_frame.rs]) *)

Definition EGRESS_REQUEST_FRAME_MAX_BYTES : Z := 16842752.
Definition EGRESS_REPLY_FRAME_MAX_BYTES : Z := 1024 * 1024.
Definition EGRESS_REPLY_FRAME_ENCODE_BYTES : Z := 1052672.

Inductive OutputTokensField := MaxCompletionTokens | MaxTokens.

Record EgressFrameRequest := mkEgressRequest {
  er_destination : string; er_endpoint : string; er_model : string; er_key_vault_path : string;
  er_key_field : string; er_sealed_key : bytes; er_reasoning_effort : option string;
  er_deadline_ms : option Z; er_output_tokens : option Z;
  er_output_tokens_field : option OutputTokensField; er_conversation : string;
  er_turns : list TurnOf }.

Inductive EgressFrameReply :=
| ERReply (r : PromptReply)
| ERRefusedBeforeSend
| ERAtCapacity
| ERUnusable (defect : ReplyDefect) (usage : option Usage).

Definition egress_frame_request_is_acceptable (r : EgressFrameRequest) : bool :=
  conversation_id_is_acceptable (er_conversation r)
  && negb (is_empty (er_destination r)) && negb (is_empty (er_endpoint r))
  && negb (is_empty (er_model r)) && negb (is_empty (er_key_vault_path r))
  && negb (is_empty (er_key_field r))
  && match er_reasoning_effort r with None => true | Some e => negb (is_empty e) end
  && match er_output_tokens r with None => true | Some n => output_tokens_is_acceptable n end
  && (is_none (er_output_tokens_field r) || is_some (er_output_tokens r))
  && match er_turns r with [] => false | _ => true end
  && forallb turn_is_acceptable (er_turns r).

(** ** Lemmas: framing *)

Lemma byte_of_val b : byte_of (byte_val b) = b.
Proof.
  unfold byte_of, byte_val. pose proof (nat_ascii_bounded b).
  rewrite Z.mod_small by lia. by rewrite Nat2Z.id, ascii_nat_embedding.
Qed.

Lemma byte_val_range b : (0 <= byte_val b < 256)%Z.
Proof. unfold byte_val. pose proof (nat_ascii_bounded b). lia. Qed.

Lemma le_bytes_from_le l : le_bytes (length l) (from_le l) = l.
Proof.
  induction l as [|b l IH]; [done|]. pose proof (byte_val_range b).
  assert (from_le (b :: l) = byte_val b + 256 * from_le l)%Z as -> by reflexivity.
  change (le_bytes (length (b :: l)) ?v) with (byte_of v :: le_bytes (length l) (v / 256)).
  apply (f_equal2 cons).
  - transitivity (byte_of (byte_val b)); [|apply byte_of_val]. unfold byte_of.
    by rewrite (Z.mul_comm 256), Z.mod_add by lia.
  - etransitivity; [|exact IH]. apply (f_equal (le_bytes (length l))). symmetry.
    apply Z.div_unique with (byte_val b); lia.
Qed.

Lemma from_le_range l : (0 <= from_le l < 256 ^ Z.of_nat (length l))%Z.
Proof.
  induction l as [|b l IH]; [done|]. cbn [length from_le foldr]. fold (from_le l).
  pose proof (byte_val_range b). rewrite Nat2Z.inj_succ, Z.pow_succ_r; lia.
Qed.

Lemma from_be_range l : length l = 4 -> (0 <= from_be l < u32_max)%Z.
Proof.
  intros Hl. unfold from_be. pose proof (from_le_range (rev l)) as H.
  rewrite length_rev, Hl in H. exact H.
Qed.

Lemma be_bytes4_from_be l : length l = 4 -> be_bytes4 (from_be l) = l.
Proof.
  intros Hl. unfold be_bytes4, from_be.
  rewrite <-Hl, <-(length_rev l), le_bytes_from_le. apply rev_involutive.
Qed.

Lemma from_be_bytes4 v : (0 <= v < u32_max)%Z -> from_be (be_bytes4 v) = v.
Proof.
  intros Hv. unfold from_be, be_bytes4. rewrite rev_involutive. by apply from_le_bytes.
Qed.

Lemma be_bytes4_length v : length (be_bytes4 v) = 4.
Proof. reflexivity. Qed.

Lemma class_try_from_iff b c : class_try_from b = Ok c <-> b = class_byte c.
Proof.
  unfold class_try_from. split; [|intros ->; by destruct c].
  destruct (Z.eqb_spec b 1) as [->|]; [by intros [= <-]|].
  destruct (Z.eqb_spec b 2) as [->|]; [by intros [= <-]|].
  destruct (Z.eqb_spec b 3) as [->|]; [by intros [= <-]|done].
Qed.

Lemma read_exact_iff n r b r' : read_exact n r = Ok (b, r') <-> r = b ++ r' /\ length b = n.
Proof.
  unfold read_exact. destruct (Nat.leb_spec n (length r)) as [Hn|Hn].
  - split.
    + intros [= <- <-]. rewrite take_drop. split; [done|]. rewrite length_take. lia.
    + intros [-> <-]. by rewrite take_app_length, drop_app_length.
  - split; [done|]. intros [-> <-]. rewrite length_app in Hn. lia.
Qed.

(** framing is exact and bounded: a frame reader takes from the stream
    exactly the bytes the writer puts there for the class and body it returns,
    leaves the rest, and accepts a body exactly up to its class's cap. *)
Theorem frame_exact (caps : FrameCaps) (r : bytes) (class : FrameClass) (body rest : bytes) :
  read_frame caps r = Ok (class, body, rest) <->
  exists b, write_frame class body = Ok b /\ r = b ++ rest /\
    (Z.of_nat (length body) <= cap caps class)%Z.
Proof.
  unfold read_frame, write_frame, frame_len. split.
  - intros H. destruct (read_exact 5 r) as [[header r1]|] eqn:E; [|done].
    apply read_exact_iff in E as [-> Hh]. destruct (class_try_from _) as [c|] eqn:E0; [|done].
    apply class_try_from_iff in E0.
    destruct (Z.ltb_spec (cap caps c) (from_be (take 4 header))) as [|Hcap]; [done|].
    destruct (read_exact _ r1) as [[body' r2]|] eqn:E; [|done].
    injection H as -> -> ->. apply read_exact_iff in E as [-> Hb].
    pose proof (from_be_range (take 4 header) ltac:(rewrite length_take; lia)) as Hr.
    assert (Z.of_nat (length body) = from_be (take 4 header)) as Hlen by lia.
    rewrite Hlen. destruct (Z.ltb_spec (from_be (take 4 header)) u32_max); [|lia].
    eexists. split; [done|]. split; [|lia]. rewrite <-E0, be_bytes4_from_be by (rewrite length_take; lia).
    assert (length (drop 4 header) = 1) as Hd by (rewrite length_drop; lia).
    pose proof (le_bytes_from_le (drop 4 header)) as Hc. rewrite Hd in Hc. rewrite Hc.
    by rewrite !app_assoc, take_drop.
  - intros (b & H & -> & Hcap). destruct (Z.ltb_spec (Z.of_nat (length body)) u32_max); [|done].
    apply Ok_inj in H as <-. set (n := Z.of_nat (length body)) in *.
    assert (read_exact 5 ((be_bytes4 n ++ le_bytes 1 (class_byte class) ++ body) ++ rest) =
      Ok (be_bytes4 n ++ le_bytes 1 (class_byte class), body ++ rest)) as ->.
    { apply read_exact_iff. by rewrite <-!app_assoc. }
    rewrite drop_app_length' by exact (be_bytes4_length n).
    rewrite take_app_length' by exact (be_bytes4_length n).
    rewrite from_le_bytes by (unfold fits; by destruct class).
    rewrite (proj2 (class_try_from_iff _ class)), from_be_bytes4 by (done || lia).
    destruct (Z.ltb_spec (cap caps class) n); [lia|].
    rewrite (proj2 (read_exact_iff _ _ body rest)); [done|]. split; [done|lia].
Qed.
