(* ===== verification/Operands.v ===== *)
(** * The containment operands: [crates/maknae-proto/src/wire.rs]

    The rule the client and the kernel share for the free text of
    [admin.contain] and [admin.release], and the kernel's application of it to
    a verb ([crates/maknae-kernel/src/containment.rs]). Unicode normalisation
    and the general category of a character are a third-party crate's: they are
    parameters. *)
From stdpp Require Import base list strings gmap.
From Stdlib Require Import ZArith Lia Ascii.
From S2P Require Import Prelude RustStr RustSlice Config Graph GraphFormat Wire.
Open Scope nat_scope.

Definition CONTAIN_REASON_MAX_BYTES : nat := 384.
Definition CONTAIN_NAME_MAX_BYTES : nat := 256.
Definition CONTAIN_ALLOWED_FORMAT : list Z := [].

Inductive Operand := OReason | OName.
Definition noun (o : Operand) : string :=
  match o with OReason => "the reason" | OName => "the user name" end.
Definition operand_max (o : Operand) : nat :=
  match o with OReason => CONTAIN_REASON_MAX_BYTES | OName => CONTAIN_NAME_MAX_BYTES end.

Inductive OperandError :=
| OEmpty (o : Operand) | TooLong (o : Operand) | OControl (o : Operand) (c : Z)
| OFormat (o : Operand) (c : Z) | OSeparator (o : Operand) (c : Z) | OPrivateUse (o : Operand) (c : Z)
| EdgeWhitespace.

(** [{c:04X}]. *)
Definition hex_upper (n : Z) : string :=
  String (ascii_of_nat (Z.to_nat (if (n <? 10)%Z then 48 + n else 55 + n))) "".
Fixpoint hex_digits (fuel : nat) (n : Z) : string :=
  match fuel with
  | O => ""
  | S fuel' => (if (n <? 16)%Z then "" else hex_digits fuel' (n / 16)) +:+ hex_upper (n mod 16)
  end.
Definition hex04 (c : Z) : string :=
  let s := hex_digits 6 c in
  fold_right (fun _ s => String "0" s) s (seq 0 (4 - String.length s)).

Definition operand_error_text (e : OperandError) : string :=
  match e with
  | OEmpty w => noun w +:+ " must not be empty or whitespace only"
  | TooLong w =>
      let max := Z.of_nat (operand_max w) in
      noun w +:+ " must be 1 to " +:+ dec max +:+ " bytes of UTF-8 (about " +:+ dec (max / 3)
      +:+ " Hangul syllables or " +:+ dec max +:+ " Latin characters)"
  | OControl w c => noun w +:+ " contains a control character (U+" +:+ hex04 c +:+ ")"
  | OFormat w c => noun w +:+ " contains an invisible or formatting character (U+" +:+ hex04 c +:+ ")"
  | OSeparator w c => noun w +:+ " contains a line or paragraph separator (U+" +:+ hex04 c +:+ ")"
  | OPrivateUse w c => noun w +:+ " contains a private-use character (U+" +:+ hex04 c +:+ ")"
  | EdgeWhitespace => "the user name must not begin or end with whitespace"
  end.

(** [text.chars()], on the bytes of a valid UTF-8 string. *)
Definition byte_of (a : ascii) : Z := Z.of_nat (nat_of_ascii a).
Definition tail_bits (a : ascii) : Z := (byte_of a mod 64)%Z.
Fixpoint chars (s : string) : list Z :=
  match s with
  | EmptyString => []
  | String a s1 =>
      if byte_in 0 127 a then byte_of a :: chars s1
      else match s1 with
      | EmptyString => []
      | String b s2 =>
          if byte_in 0 223 a then (byte_of a mod 32 * 64 + tail_bits b)%Z :: chars s2
          else match s2 with
          | EmptyString => []
          | String c s3 =>
              if byte_in 0 239 a
              then ((byte_of a mod 16 * 64 + tail_bits b) * 64 + tail_bits c)%Z :: chars s3
              else match s3 with
              | EmptyString => []
              | String d s4 =>
                  (((byte_of a mod 8 * 64 + tail_bits b) * 64 + tail_bits c) * 64 + tail_bits d)%Z
                  :: chars s4
              end
          end
      end
  end.

(** The categories the rule looks at; every other one is [GOther]. *)
Inductive GeneralCategory := GControl | GFormat | GLineSeparator | GParagraphSeparator | GPrivateUse | GOther.

Definition is_bidi_override (c : Z) : bool :=
  ((8234 <=? c) && (c <=? 8238) || (8294 <=? c) && (c <=? 8297))%Z.
Definition format_allowed (c : Z) (allowed : list Z) : bool :=
  negb (is_bidi_override c) && existsb (Z.eqb c) allowed.

Section Rule.
Context (nfc : string -> string) (gc : Z -> GeneralCategory).

(** One character of the loop. *)
Definition char_fault (what : Operand) (allowed : list Z) (c : Z) : option OperandError :=
  match gc c with
  | GControl => Some (OControl what c)
  | GFormat => if format_allowed c allowed then None else Some (OFormat what c)
  | GLineSeparator | GParagraphSeparator => Some (OSeparator what c)
  | GPrivateUse => Some (OPrivateUse what c)
  | GOther => None
  end.

Definition checked_with (raw : string) (what : Operand) (max : nat) (allowed : list Z)
  : result string OperandError :=
  let text := nfc raw in
  match find_map (char_fault what allowed) (chars text) with
  | Some e => Err e
  | None =>
      if is_empty (trim text) then Err (OEmpty what)
      else if max <? String.length text then Err (TooLong what)
      else Ok text
  end.
Definition checked (raw : string) (what : Operand) (max : nat) : result string OperandError :=
  checked_with raw what max CONTAIN_ALLOWED_FORMAT.

Definition contain_reason (raw : string) : result string OperandError :=
  checked raw OReason CONTAIN_REASON_MAX_BYTES.
Definition contain_name (raw : string) : result string OperandError :=
  let? name := checked raw OName CONTAIN_NAME_MAX_BYTES in
  if negb (String.eqb (trim name) name) then Err EdgeWhitespace else Ok name.
Definition contain_target (t : ContainTarget) : result ContainTarget OperandError :=
  match t with
  | TargetName n => let? n := contain_name n in Ok (TargetName n)
  | TargetUid u => Ok (TargetUid u)
  end.

(** [containment.rs]: the rule applied to a containment verb, in place. *)
Definition normalise_operands (verb : Verb) : result Verb (string * OperandError) :=
  match verb with
  | AdminContain target reason =>
      let? target := map_err (fun e => ("contain", e)) (contain_target target) in
      let? reason := map_err (fun e => ("contain", e)) (contain_reason reason) in
      Ok (AdminContain target reason)
  | AdminRelease target =>
      let? target := map_err (fun e => ("release", e)) (contain_target target) in
      Ok (AdminRelease target)
  | verb => Ok verb
  end.

(** ** Lemmas *)

(** A text the rule admits: its own normal form, of characters that print, with
    more than white space in it, and within its bound. *)
Record plain_text (what : Operand) (text : string) : Prop := {
  pt_nfc : nfc text = text;
  pt_chars : Forall (fun c => gc c = GOther) (chars text);
  pt_content : trim text <> "";
  pt_bound : String.length text <= operand_max what }.

Definition plain_target (t : ContainTarget) : Prop :=
  match t with TargetName n => plain_text OName n /\ trim n = n | TargetUid _ => True end.

(** The containment operands of a verb are plain. *)
Definition plain_operands (verb : Verb) : Prop :=
  match verb with
  | AdminContain target reason => plain_target target /\ plain_text OReason reason
  | AdminRelease target => plain_target target
  | _ => True
  end.

Lemma char_fault_None what c : char_fault what CONTAIN_ALLOWED_FORMAT c = None <-> gc c = GOther.
Proof. unfold char_fault, format_allowed. simpl. rewrite andb_false_r. by destruct (gc c). Qed.

Lemma chars_clean what text :
  find_map (char_fault what CONTAIN_ALLOWED_FORMAT) (chars text) = None <->
  Forall (fun c => gc c = GOther) (chars text).
Proof.
  induction (chars text) as [|c l IH]; simpl; [split; [constructor|done]|].
  rewrite Forall_cons, <-IH, <-(char_fault_None what c). destruct (char_fault what _ c); naive_solver.
Qed.

Lemma is_empty_iff s : is_empty s = true <-> s = "".
Proof. by destruct s. Qed.

Lemma checked_Ok what raw text :
  checked raw what (operand_max what) = Ok text <->
  text = nfc raw /\ Forall (fun c => gc c = GOther) (chars text) /\ trim text <> "" /\
  String.length text <= operand_max what.
Proof.
  unfold checked, checked_with.
  destruct (find_map _ (chars (nfc raw))) eqn:Ef.
  { split; [done|]. intros (-> & Hc & _). apply (chars_clean what) in Hc. congruence. }
  apply chars_clean in Ef. destruct (is_empty (trim (nfc raw))) eqn:Ee.
  { split; [done|]. intros (-> & _ & Ht & _). by apply is_empty_iff in Ee. }
  assert (trim (nfc raw) <> "") as Ht by (intros E; rewrite E in Ee; done).
  destruct (Nat.ltb_spec (operand_max what) (String.length (nfc raw))).
  - split; [done|]. intros (-> & _ & _ & Hl). lia.
  - split; [|naive_solver]. intros [= <-]. done.
Qed.

Section Stable.
Context (nfc_idem : forall s, nfc (nfc s) = nfc s).

Lemma checked_plain what raw text :
  checked raw what (operand_max what) = Ok text <-> text = nfc raw /\ plain_text what text.
Proof.
  rewrite checked_Ok. split.
  - intros (-> & Hc & Ht & Hl). split; [done|]. by split.
  - intros (-> & [_ Hc Ht Hl]). done.
Qed.

Lemma contain_name_Ok raw n :
  contain_name raw = Ok n <-> n = nfc raw /\ plain_text OName n /\ trim n = n.
Proof.
  unfold contain_name. change CONTAIN_NAME_MAX_BYTES with (operand_max OName).
  destruct (checked raw OName (operand_max OName)) as [t|e] eqn:E; simpl.
  - apply checked_plain in E as [-> Hp]. destruct (String.eqb_spec (trim (nfc raw)) (nfc raw)); simpl; naive_solver.
  - split; [done|]. intros (-> & Hp & _).
    assert (checked raw OName (operand_max OName) = Ok (nfc raw)) by by apply checked_plain.
    congruence.
Qed.

Lemma contain_target_Ok t t' : contain_target t = Ok t' <->
  plain_target t' /\ match t, t' with
                     | TargetName n, TargetName n' => n' = nfc n
                     | TargetUid u, TargetUid u' => u' = u
                     | _, _ => False
                     end.
Proof.
  destruct t as [n|u]; simpl.
  - destruct (contain_name n) as [n'|e] eqn:E; simpl.
    + apply contain_name_Ok in E as (-> & Hp). destruct t'; simpl; naive_solver.
    + split; [done|]. destruct t' as [n'|]; [|naive_solver]. intros [Hp ->].
      assert (contain_name n = Ok (nfc n)) by by apply contain_name_Ok. congruence.
  - destruct t'; simpl; naive_solver.
Qed.

Lemma contain_reason_Ok raw r : contain_reason raw = Ok r <-> r = nfc raw /\ plain_text OReason r.
Proof. apply checked_plain. Qed.

(** ** Theorems *)

(** the containment operands the kernel acts on are plain: a verb it has
    normalised has operands in normal form, of printing characters only, not
    blank and within the bound, a name without edge white space; nothing else of
    the verb changes; and a verb that was already normalised is left as it was,
    so a client that applied the rule sends what the kernel keeps. *)
Theorem operands_normalised (verb verb' : Verb) (H : normalise_operands verb = Ok verb') :
  plain_operands verb' /\ normalise_operands verb' = Ok verb' /\
  match verb with
  | AdminContain t r => exists t', contain_target t = Ok t' /\ verb' = AdminContain t' (nfc r)
  | AdminRelease t => exists t', contain_target t = Ok t' /\ verb' = AdminRelease t'
  | _ => verb' = verb
  end.
Proof.
  assert (forall t, plain_target t -> contain_target t = Ok t) as Hself.
  { intros [n|u] Hp; apply contain_target_Ok; [|done]. split; [done|]. destruct Hp as [[Hn _ _ _] _]. done. }
  destruct verb; simpl in H; try (by injection H as <-).
  - destruct (contain_target target) as [t'|] eqn:Et; [|done]. simpl in H.
    destruct (contain_reason reason) as [r'|] eqn:Er; [|done]. simpl in H. injection H as <-.
    pose proof Et as [Hpt _]%contain_target_Ok. apply contain_reason_Ok in Er as [-> Hpr].
    split_and!; [done| |by exists t']. simpl. rewrite (Hself _ Hpt). simpl.
    by rewrite (proj2 (contain_reason_Ok (nfc reason) (nfc reason))).
  - destruct (contain_target target) as [t'|] eqn:Et; [|done]. simpl in H. injection H as <-.
    pose proof Et as [Hpt _]%contain_target_Ok.
    split_and!; [done| |by exists t']. simpl. by rewrite (Hself _ Hpt).
Qed.
End Stable.
End Rule.

(** ** Witnesses *)

Definition demo_gc (c : Z) : GeneralCategory := if (c <? 32)%Z then GControl else GOther.

Lemma operands_normalised_witness :
  normalise_operands (fun s => s) demo_gc (AdminContain (TargetName "mallory") "left the company")
  = Ok (AdminContain (TargetName "mallory") "left the company") /\
  plain_operands (fun s => s) demo_gc (AdminContain (TargetName "mallory") "left the company").
Proof.
  assert (normalise_operands (fun s => s) demo_gc (AdminContain (TargetName "mallory") "left the company")
          = Ok (AdminContain (TargetName "mallory") "left the company")) as H by (vm_compute; reflexivity).
  split; [exact H|].
  apply (operands_normalised (fun s => s) demo_gc (fun s => eq_refl) _ _ H).
Defined.
