(* ===== verification/Texts.v ===== *)
(** * The texts of errors and identity problems

    The [Display] of [GraphError] ([maknae-graph/src/graph.rs]), [FormatError]
    ([format.rs]), [IdentityError] and [ReleaseCause] ([identity.rs]), and of
    [IdentityProblem] ([maknae-authz-basic/src/binding.rs]): what refusals and audit
    records say. A quoted key goes through [str]'s [Debug], which consults Unicode's
    tables of printable characters and grapheme extenders: parameters here. *)
From stdpp Require Import base list strings gmap.
From Stdlib Require Import ZArith Lia Ascii.
From S2P Require Import Prelude RustStr RustSlice Graph GraphFormat Identity Bindings Operands.
Open Scope nat_scope.

(** ** Characters *)

Definition utf8_byte (v : Z) : ascii := ascii_of_nat (Z.to_nat v).

(** [char::encode_utf8]. *)
Definition encode_utf8 (c : Z) : string :=
  (if c <? 128 then String (utf8_byte c) ""
   else if c <? 2048 then
     String (utf8_byte (192 + c / 64)) (String (utf8_byte (128 + c mod 64)) "")
   else if c <? 65536 then
     String (utf8_byte (224 + c / 4096)) (String (utf8_byte (128 + c / 64 mod 64))
       (String (utf8_byte (128 + c mod 64)) ""))
   else
     String (utf8_byte (240 + c / 262144)) (String (utf8_byte (128 + c / 4096 mod 64))
       (String (utf8_byte (128 + c / 64 mod 64)) (String (utf8_byte (128 + c mod 64)) ""))))%Z.

Definition str_of_chars (l : list Z) : string := foldr (fun c s => encode_utf8 c +:+ s) "" l.

(** [{:x}] of a [char]; twice the width of a [u32] in nibbles is never needed. *)
Definition hex_lower (n : Z) : string := String (ascii_of_nat (Z.to_nat (if (n <? 10)%Z then 48 + n else 87 + n))) "".
Fixpoint hex_lower_digits (fuel : nat) (n : Z) : string :=
  match fuel with
  | O => ""
  | S k => (if (n <? 16)%Z then "" else hex_lower_digits k (n / 16)) +:+ hex_lower (n mod 16)
  end.
Definition unicode_escape (c : Z) : string := "\u{" +:+ hex_lower_digits 8 c +:+ "}".

Definition backslash : string := "\".
Definition quote : string := String (ascii_of_nat 34) "".

(** [char::escape_default]. *)
Definition escape_default_char (c : Z) : string :=
  (if c =? 9 then "\t" else if c =? 13 then "\r" else if c =? 10 then "\n"
   else if (c =? 39) || (c =? 34) || (c =? 92) then backslash +:+ encode_utf8 c
   else if (32 <=? c) && (c <=? 126) then encode_utf8 c
   else unicode_escape c)%Z.

(** [str::replace] of one character. *)
Definition replace_char (from : Z) (to : string) (l : list Z) : string :=
  foldr (fun c s => (if Z.eqb c from then to else encode_utf8 c) +:+ s) "" l.

(** [binding.rs]: [shown] and [joined]. *)
Definition shown (name : string) : string :=
  let escaped := foldr (fun c s => escape_default_char c +:+ s) "" (chars name) in
  replace_char 44 "\," (chars escaped).
Definition joined (names : list string) : string := str_join ", " (map shown names).

(** ** Identity problems *)

Definition release_cause_text (c : ReleaseCause) : string :=
  match c with
  | NotListed => "bindings.yaml no longer lists it under adversary"
  | NameNowResolvesTo uid => "its name now resolves to uid " +:+ dec uid
  | BoundAs role => "it is now listed under " +:+ role
  | BindingsEmpty => "bindings.yaml now binds nobody"
  | LiveRelease PKernel => "the kernel released it"
  | LiveRelease _ => "an operator released it over the wire"
  end.

Definition problem_of_released (r : Released) : IdentityProblem :=
  PReleased (re_uid r) (re_name r) (release_cause_text (re_cause r)).

Definition problem_text (p : IdentityProblem) : string :=
  match p with
  | PUnresolved role name =>
      "'" +:+ shown name +:+ "' under " +:+ role +:+ " has no account on this host; it holds no role"
  | PUnresolvedAdversary name =>
      "'" +:+ shown name +:+ "' under adversary has no account on this host, so the name contains nothing; a "
        +:+ quote +:+ "- uid: <n>" +:+ quote
        +:+ " entry contains an id whether or not it has an account"
  | PContained uid names roles =>
      "uid " +:+ dec uid +:+ " (" +:+ joined names +:+ ") is under " +:+ str_join ", " roles
        +:+ "; containment wins and it is contained"
  | PUnbound uid names roles =>
      "uid " +:+ dec uid +:+ " (" +:+ joined names +:+ ") is under " +:+ str_join ", " roles
        +:+ "; it holds no role"
  | PCarriedForward uid name overrides =>
      "'" +:+ shown name +:+ "' under adversary no longer resolves; uid " +:+ dec uid
        +:+ " stays contained (carried forward)"
        +:+ match overrides with
            | [] => ""
            | _ => "; this overrides "
                     +:+ str_join ", " (map (fun '(n, r) => shown n +:+ " (" +:+ r +:+ ")") overrides)
            end
  | PReleased uid name cause =>
      if String.eqb name ("uid:" +:+ dec uid) then "uid " +:+ dec uid +:+ " is no longer contained: " +:+ cause
      else "uid " +:+ dec uid +:+ " ('" +:+ shown name +:+ "') is no longer contained: " +:+ cause
  | PPrincipalAdmin uid =>
      "uid " +:+ dec uid +:+ ", the enrolled principal, now holds admin: bindings.yaml has no bindings: key"
  end.

(** ** Errors *)

Section Debug.
Context (grapheme_extended printable : Z -> bool).

Definition escape_debug_char (c : Z) : string :=
  (if c =? 0 then "\0" else if c =? 9 then "\t" else if c =? 13 then "\r" else if c =? 10 then "\n"
   else if (c =? 34) || (c =? 92) then backslash +:+ encode_utf8 c
   else if grapheme_extended c then unicode_escape c
   else if printable c then encode_utf8 c
   else unicode_escape c)%Z.

(** [{:?}] of a [str]. *)
Definition debug_str (s : string) : string :=
  quote +:+ foldr (fun c t => escape_debug_char c +:+ t) "" (chars s) +:+ quote.

(** [graph.rs]: at most 64 characters of a key. *)
Definition shown_key (s : string) : string := str_of_chars (take 64 (chars s)).

Definition graph_error_text (e : GraphError) : string :=
  match e with
  | UnknownNodeKind k => "unknown node kind " +:+ dec k
  | UnknownEdgeKind k => "unknown edge kind " +:+ dec k
  | DuplicateNodeId id => "duplicate node id " +:+ dec id
  | DuplicateEdgeId id => "duplicate edge id " +:+ dec id
  | DuplicateKey kind key =>
      "duplicate key " +:+ debug_str (shown_key key) +:+ " for node kind " +:+ dec kind
  | EmptyKey id => "node " +:+ dec id +:+ " has an empty key"
  | EmptyLabel => "record has an empty label"
  | SpaceMismatch => "record space differs from the graph space"
  | DanglingEdge id => "edge " +:+ dec id +:+ " names a node that does not exist"
  | ForbiddenTriple from edge to =>
      "edge kind " +:+ dec edge +:+ " is not permitted from node kind " +:+ dec from
        +:+ " to node kind " +:+ dec to
  | ForbiddenTarget id => "edge " +:+ dec id +:+ " targets a node no edge of its kind may reach"
  | CompiledProvenance id => "node " +:+ dec id +:+ " has a provenance its kind does not allow"
  | CompiledEdgeProvenance id => "edge " +:+ dec id +:+ " has a provenance edges do not allow"
  | CompiledMismatch kind key =>
      "compiled node " +:+ debug_str (shown_key key) +:+ " of kind " +:+ dec kind
        +:+ " disagrees with the binary"
  | CompiledMissing kind key =>
      "compiled node " +:+ debug_str (shown_key key) +:+ " of kind " +:+ dec kind +:+ " is missing"
  | ExpansionLimit => "graph string references expand past the decode limit"
  end.

(** [{:#06x}] of a [u16]: four digits after [0x]. *)
Definition hex_0x04 (v : Z) : string :=
  let d := hex_lower_digits 4 v in
  "0x" +:+ foldr (fun _ s => "0" +:+ s) d (repeat tt (4 - String.length d)).

Definition format_error_text (e : FormatError) : string :=
  match e with
  | Truncated => "store is truncated"
  | BadMagic => "store does not begin with the MKNG magic"
  | UnsupportedFormatVersion v => "unsupported store format version " +:+ dec v
  | UnsupportedSchemaVersion found expected =>
      "store schema version " +:+ dec found +:+ " differs from the binary's " +:+ dec expected
  | NonZeroReserved => "a reserved store field is not zero"
  | UnknownFlags v => "unknown store flags " +:+ hex_0x04 v
  | UnknownSpaceTag t => "unknown graph space tag " +:+ dec t
  | WrongSpace => "store holds a different graph space than requested"
  | BadSectionCount n =>
      "store declares " +:+ dec n +:+ " sections, expected " +:+ dec (Z.of_nat SECTION_COUNT)
  | BadSectionLayout => "store sections are not contiguous and in bounds"
  | TrailingBytes => "store has bytes past the end of a table"
  | BadUtf8 => "a stored string is not UTF-8"
  | BadStrRef i => "string reference " +:+ dec i +:+ " is out of range"
  | UnknownProvenance c => "unknown provenance code " +:+ dec c
  | UnknownAttrTag t => "unknown attribute tag " +:+ dec t
  | BadAttrRange => "attribute range is out of bounds"
  | FExpansionLimit => "store string references expand past the decode limit"
  | NonCanonical => "store bytes are not the canonical encoding of their graph"
  | FGraph e => "invalid graph: " +:+ graph_error_text e
  end.

Definition identity_error_text (e : IdentityError) : string :=
  match e with
  | IdGraph e => "identity layer: " +:+ graph_error_text e
  | BadAttr node attr => "identity layer: node " +:+ dec node +:+ " lacks a valid `" +:+ attr +:+ "` attribute"
  | BaselineAttr node attr => "baseline: node " +:+ dec node +:+ " lacks a valid `" +:+ attr +:+ "` attribute"
  | BaselineAmbiguous node what => "baseline: node " +:+ dec node +:+ " is ambiguous: " +:+ what
  | SyncAttr node attr => "sync base: node " +:+ dec node +:+ " lacks a valid `" +:+ attr +:+ "` attribute"
  | SyncAmbiguous node what => "sync base: node " +:+ dec node +:+ " is ambiguous: " +:+ what
  | UnknownRole r => "identity layer: role `" +:+ r +:+ "` is not compiled in"
  | Ambiguous node what => "identity layer: node " +:+ dec node +:+ " is ambiguous: " +:+ what
  | LabelMismatch key =>
      "identity layer: compiled node `" +:+ key +:+ "` is labelled differently from the layer"
  | AliasError name =>
      "identity layer: adversary name `" +:+ name +:+ "` does not name one contained subject"
  end.
End Debug.
