(* ===== verification/SyncText.v ===== *)
(** * The stored bindings sections as text

    [crates/maknae-config/src/baseline_doc.rs] (the strict decoding of canonical
    JSON), the readers of a stored section and of a stored conflict list
    ([bindings_sync.rs]), and [crates/maknae-kernel/src/sync.rs] (the merge of the
    files' source with the store's sync base, the reasons it records, and the status
    it keeps). The JSON parser is third-party, a parameter; the rendering of the
    mirror is [mirror.rs]'s, which is not modelled. *)
From stdpp Require Import base list strings gmap.
From Stdlib Require Import ZArith Lia Ascii.
From S2P Require Import Prelude RustStr RustSlice Json Config Decide Graph GraphFormat Identity.
From S2P Require Import Bindings BindingsSync PolicySource Operands Texts.
Open Scope nat_scope.

(** ** Canonical JSON read back ([baseline_doc.rs]) *)

(** [Number::as_i64]: an [i64]'s range. *)
Definition i64_max : Z := 2 ^ 63 - 1.

Fixpoint convert (j : Json) : result Value string :=
  match j with
  | JNull => Ok VNull
  | JBool b => Ok (VBool b)
  | JPos n => if (n <=? i64_max)%Z then Ok (VInt n) else Err "a number is out of range"
  | JNeg n => Ok (VInt n)
  | JFloat bits => Ok (VFloat bits)
  | JStr s => Ok (VStr s)
  | JArr items =>
      let? vs := (fix go (l : list Json) : result (list Value) string :=
        match l with
        | [] => Ok []
        | x :: l' => let? v := convert x in let? vs := go l' in Ok (v :: vs)
        end) items in
      Ok (VSeq vs)
  | JObj members =>
      let? vs := (fix go (l : list (string * Json)) : result (list (string * Value)) string :=
        match l with
        | [] => Ok []
        | (k, x) :: l' => let? v := convert x in let? vs := go l' in Ok ((k, v) :: vs)
        end) members in
      Ok (VMap vs)
  end.

Section Text.
Context (f64_to_string : Z -> string) (from_str : string -> result Json string).

Definition decode_text (s : string) : result Value string :=
  let? parsed := map_err (fun e => "not JSON: " +:+ e) (from_str s) in
  let? value := convert parsed in
  if negb (String.eqb (canonical_json f64_to_string value) s) then Err "not in canonical form"
  else Ok value.

Definition value_from_canonical_json (s : string) : result Value ConfigError :=
  map_err CEBaselineValue (decode_text s).

(** The text of the [ConfigError] that [value_from_canonical_json] gives. *)
Definition baseline_value_text (e : ConfigError) : string :=
  match e with
  | CEBaselineValue reason => "baseline value refused: " +:+ reason
  | _ => ""
  end.

(** ** Sections and conflict lists ([bindings_sync.rs]) *)

Definition section_from_canonical (s : string) : result Section_ BindingsError :=
  if String.eqb s "missing" then Ok SMissing
  else if String.eqb s "null" then Ok SAbsent
  else
    let? v := map_err (fun e => BEYaml (baseline_value_text e)) (value_from_canonical_json s) in
    let? roles := section_roles v in
    let section := SPresent roles in
    let? _ := map_err (fun e => BEYaml (rule_error_text e))
      (check_roles (from_section f64_to_string section)) in
    Ok section.

Definition conflicts_from_canonical (s : string) : result EntrySet BindingsError :=
  let? v := map_err (fun e => BEYaml (baseline_value_text e)) (value_from_canonical_json s) in
  match v with
  | VSeq items =>
      let? l := try_map entry items in
      let set : EntrySet := list_to_set l in
      if negb (String.eqb (conflicts_canonical f64_to_string set) s) then
        Err (BEYaml "a conflict list is sorted and unique")
      else Ok set
  | _ => Err (BEYaml "a conflict list is a sequence")
  end.

(** ** The kernel's merge ([sync.rs]) *)

Record SyncCounts := mkCounts { sc_unsynced : nat; sc_conflicts : nat }.

(** An error's cause stands for its text. *)
Inductive MergeError := MStored (e : BindingsError) | MPolicy (e : fault AuthzBasicError).

Record MergedSource := mkMergedSource {
  ms_source : PolicySource; ms_sync : SyncBase; ms_kind : SyncKind; ms_events : list string;
  ms_refuse_missing : bool; ms_counts : SyncCounts; ms_lost : option string }.

Definition CREATED : string := "sync base created from bindings.yaml (the store had none)".

Definition stored_sections (s : SyncBase) : result Stored BindingsError :=
  let? base := section_from_canonical (sy_base s) in
  let? live := section_from_canonical (sy_live s) in
  let? conflicts := conflicts_from_canonical (sy_conflicts s) in
  Ok (mkStored base live conflicts).

Definition counts (s : SyncBase) : result SyncCounts BindingsError :=
  let? st := stored_sections s in
  Ok (mkCounts (unsynced (st_base st) (st_live st)) (size (st_conflicts st))).

Section Reasons.
Context (grapheme_extended printable : Z -> bool).

(** [containment.rs]: a text in double quotes. *)
Definition quoted (r : string) : string := debug_str grapheme_extended printable r.

Definition shown_entry (e : BindingEntry) : string :=
  match e with EName n => quoted n | EUid _ => render e end.

Definition event_reason (e : MergeEvent) : string :=
  match e with
  | MConflict x contained =>
      "conflict: " +:+ shown_entry x
        +:+ " changed in bindings.yaml and by an unsynced live transition; failed closed: "
        +:+ (if contained then "contained" else "unbound")
  | MResolved x by_ =>
      "conflict resolved: " +:+ shown_entry x +:+ ": "
        +:+ match by_ with
            | RootEdit => "bindings.yaml changed it again"
            | BySync => "bindings.yaml holds the fail-closed value"
            | ByLiveEdit => "a live edit changed it"
            end
  | MLost missing =>
      "lost: bindings.yaml " +:+ (if missing then "is missing" else "has no bindings: key")
        +:+ "; the enforced bindings stand; restore them with sudo maknae policy sync, or run sudo maknae reseed to return to principal-as-admin"
  end.

(** The loop over the merge's events: the reasons, and the loss. *)
Definition event_step (acc : list string * option string) (e : MergeEvent)
  : list string * option string :=
  match e with
  | MLost _ => (fst acc, Some (event_reason e))
  | _ => (fst acc ++ [event_reason e], snd acc)
  end.

Definition merge_source_with (file : PolicySource) (stored : option SyncBase)
    (resolve : PolicySource -> Bindings -> result PolicySource (fault AuthzBasicError))
  : result MergedSource MergeError :=
  let file_section := section_of (ps_bindings file) in
  let? parsed := map_err MStored (try_opt stored_sections stored) in
  let merged := merge f64_to_string parsed file_section in
  let '(events, lost) := fold_left event_step (mg_events merged) ([], None) in
  let events :=
    match mg_kind merged with
    | Created => CREATED :: events
    | Adopted =>
        let n := from_option (fun st => unsynced (st_base st) (st_live st)) 0 parsed in
        ("adopted: bindings.yaml holds the live section (" +:+ dec (Z.of_nat n) +:+ " unsynced entries)")
          :: events
    | Unchanged | RootFile | Lost => events
    end in
  let refuse_missing := bi_missing (ps_bindings file) && is_none stored in
  let? source :=
    if bool_decide (mg_live merged = file_section) then Ok file
    else map_err MPolicy (resolve file (from_section f64_to_string (mg_live merged))) in
  Ok (mkMergedSource source
        (mkSync (section_canonical f64_to_string (mg_base merged))
           (section_canonical f64_to_string (mg_live merged))
           (conflicts_canonical f64_to_string (mg_conflicts merged)))
        (mg_kind merged) events refuse_missing
        (mkCounts (unsynced (mg_base merged) (mg_live merged)) (size (mg_conflicts merged))) lost).

Definition merge_source (file : PolicySource) (stored : option SyncBase)
  : result MergedSource MergeError := merge_source_with file stored with_bindings.

(** *** Live edits *)

Inductive LiveInitiator := LOperator | LKernel.

(** What the live record says beyond the edit: who asked in which session, and why. *)
Record LiveNote := mkNote { ln_requester : option (Z * Z); ln_reason : option string }.

Definition live_reason (edit : LiveEdit) (removed : list BindingEntry) (who : LiveInitiator)
    (note : LiveNote) : string :=
  let what :=
    match edit with
    | Contain e => "contain " +:+ shown_entry e
    | ReleaseUid uid _ =>
        let uid := EUid uid in
        if match removed with [] => true | _ => bool_decide (removed = [uid]) end then
          "release " +:+ shown_entry uid
        else "release " +:+ shown_entry uid +:+ " (" +:+ str_join ", " (map shown_entry removed) +:+ ")"
    | Bind name role => "bind " +:+ bound_key_of role +:+ " " +:+ quoted name
    | Unbind name => "unbind " +:+ quoted name
    end in
  let who := match who with LOperator => "operator" | LKernel => "kernel" end in
  "live (" +:+ who +:+ "): " +:+ what
    +:+ match ln_requester note with
        | Some (uid, session) => "; requested by uid " +:+ dec uid +:+ " in session " +:+ dec session
        | None => ""
        end
    +:+ match ln_reason note with Some r => "; reason " +:+ quoted r | None => "" end.
End Reasons.

(** The claimants a release removed, the uid first. *)
Definition removed (edit : LiveEdit) (before after : Section_) : list BindingEntry :=
  match edit with
  | ReleaseUid uid names =>
      let adversary := fun s e => bool_decide (ADVERSARY ∈ roles_of s e) in
      List.filter (fun e => adversary before e && negb (adversary after e))
        (EUid uid :: map EName (btree_set_iter names))
  | _ => []
  end.

Definition live_outcome (revision : Z) (durability checkpoint : option string) : string :=
  "live applied: revision " +:+ dec revision
    +:+ match durability with Some e => "; store not durable: " +:+ e | None => "" end
    +:+ match checkpoint with Some e => "; checkpoint append failed: " +:+ e | None => "" end.
End Text.

(** *** The status *)

(** [SyncStatus]: counts, the lost flag, the stale flag. *)
Record SyncStatus := mkSyncStatus { ss_counts : SyncCounts; ss_lost : bool; ss_stale : bool }.

Definition set_counts (s : SyncStatus) (c : SyncCounts) : SyncStatus :=
  mkSyncStatus c (ss_lost s) (ss_stale s).
Definition set_stale (s : SyncStatus) (stale : bool) : SyncStatus :=
  mkSyncStatus (ss_counts s) (ss_lost s) stale.
Definition became_lost (s : SyncStatus) (lost : bool) : bool * SyncStatus :=
  (lost && negb (ss_lost s), mkSyncStatus (ss_counts s) lost (ss_stale s)).
Definition status_lines (s : SyncStatus) : list string :=
  ["unsynced=" +:+ dec (Z.of_nat (sc_unsynced (ss_counts s)));
   "conflict=" +:+ dec (Z.of_nat (sc_conflicts (ss_counts s)))]
  ++ (if ss_lost s then ["file=lost"] else [])
  ++ (if ss_stale s then ["mirror=stale"] else []).

(** ** Round trips *)

(** What a section's text parses to. *)
Definition entry_json (e : BindingEntry) : Json :=
  match e with EName n => JStr n | EUid u => JObj [("uid", JPos u)] end.
Definition section_json (m : RoleLists) : Json :=
  JObj (map (fun kv => (fst kv, JArr (map entry_json (snd kv)))) (btree_iter m)).
Definition conflicts_json (c : EntrySet) : Json := JArr (map entry_json (btree_set_iter c)).

(** The entries a file can hold. *)
Definition entry_ok (e : BindingEntry) : Prop := entry (entry_value e) = Ok e.

Lemma entry_ok_range u : entry_ok (EUid u) -> (0 <= u < u32_max)%Z.
Proof.
  unfold entry_ok. simpl. unfold entry_int, try_u32.
  destruct ((0 <=? u) && (u <? u32_max))%Z eqn:E; simpl; [|done].
  intros _. apply andb_true_iff in E as [?%Z.leb_le ?%Z.ltb_lt]. lia.
Qed.

Lemma convert_entry e : entry_ok e -> convert (entry_json e) = Ok (entry_value e).
Proof.
  destruct e as [n|u]; intros H; [done|]. apply entry_ok_range in H. simpl.
  rewrite (proj2 (Z.leb_le _ _)); [done|]. unfold i64_max, u32_max in *. lia.
Qed.

Lemma convert_arr items vs :
  Forall2 (fun j v => convert j = Ok v) items vs -> convert (JArr items) = Ok (VSeq vs).
Proof.
  intros H. simpl.
  assert (((fix go (l : list Json) : result (list Value) string :=
        match l with
        | [] => Ok []
        | x :: l' => let? v := convert x in let? vs := go l' in Ok (v :: vs)
        end) items) = Ok vs) as ->; [|done].
  induction H as [|j v items vs Hj _ IH]; [done|]. by rewrite Hj, IH.
Qed.

Lemma convert_obj members vs :
  Forall2 (fun j v => fst j = fst v /\ convert (snd j) = Ok (snd v)) members vs ->
  convert (JObj members) = Ok (VMap vs).
Proof.
  intros H. simpl.
  assert (((fix go (l : list (string * Json)) : result (list (string * Value)) string :=
        match l with
        | [] => Ok []
        | (k, x) :: l' => let? v := convert x in let? vs := go l' in Ok ((k, v) :: vs)
        end) members) = Ok vs) as ->; [|done].
  induction H as [|[k j] [k' v] items vs [Hk Hj] _ IH]; [done|]. simpl in *. subst. by rewrite Hj, IH.
Qed.

Lemma convert_entries l : Forall entry_ok l -> convert (JArr (map entry_json l)) = Ok (VSeq (map entry_value l)).
Proof.
  intros H. apply convert_arr. induction H as [|e l He _ IH]; constructor; [|done].
  by apply convert_entry.
Qed.

Lemma try_map_entries l : Forall entry_ok l -> try_map entry (map entry_value l) = Ok l.
Proof. induction 1 as [|e l He _ IH]; [done|]. simpl. by rewrite He, IH. Qed.

Definition lists_ok (m : RoleLists) : Prop := forall k l, m !! k = Some l -> Forall entry_ok l.

Lemma section_loop_fold l : forall roles,
  Forall (fun kv => Forall entry_ok (snd kv)) l ->
  section_loop roles (map (fun kv => (fst kv, VSeq (map entry_value (snd kv)))) l)
  = Ok (fold_left (fun m kv => <[fst kv := snd kv]> m) l roles).
Proof.
  induction l as [|[k es] l IH]; intros roles H; [done|]. inversion H; subst. simpl.
  by rewrite try_map_entries, IH.
Qed.

Lemma fold_insert_lookup (l : list (string * list BindingEntry)) : forall (m : RoleLists) k, NoDup l.*1 ->
  fold_left (fun m kv => <[fst kv := snd kv]> m) l m !! k =
    match List.find (fun kv => String.eqb (fst kv) k) l with Some kv => Some (snd kv) | None => m !! k end.
Proof.
  induction l as [|[k' es] l IH]; intros m k Hnd; [done|]. inversion Hnd as [|? ? Hk Hl]; subst. simpl.
  rewrite (IH _ k Hl). simpl. destruct (String.eqb_spec k' k) as [->|Hne].
  - destruct (List.find _ l) as [[k2 es2]|] eqn:E; [|by rewrite lookup_insert_eq].
    apply find_some_iff in E as [Hin Heq%String.eqb_eq]. simpl in Heq. subst.
    destruct Hk. by apply list_elem_of_fmap_2 with (f := fst) in Hin.
  - destruct (List.find _ l); [done|]. by rewrite lookup_insert_ne.
Qed.

Lemma fold_btree (m : RoleLists) :
  fold_left (fun m kv => <[fst kv := snd kv]> m) (btree_iter m) ∅ = m.
Proof.
  apply map_eq. intros k. rewrite fold_insert_lookup by apply btree_iter_NoDup.
  destruct (List.find _ (btree_iter m)) as [[k' es]|] eqn:E.
  - apply find_some_iff in E as [Hin%btree_iter_elem Heq%String.eqb_eq]. simpl in *. by subst.
  - rewrite lookup_empty. destruct (m !! k) as [es|] eqn:Hk; [|done].
    apply btree_iter_elem in Hk. apply find_none_iff in E. rewrite existsb_false in E.
    apply E in Hk. simpl in Hk. by rewrite String.eqb_refl in Hk.
Qed.

(** Text of a present section starts with a brace: it is neither word. *)
Lemma section_text_brace f64 m : exists t, section_canonical f64 (SPresent m) = "{" +:+ t.
Proof. unfold section_canonical. simpl. eauto. Qed.

Section RoundTrip.
Context (f64_to_string : Z -> string) (from_str : string -> result Json string).

(** A section that the reader's rules accept: its entries are a file's, and the role
    rules hold. *)
Definition section_ok (s : Section_) : Prop :=
  match s with
  | SPresent m => lists_ok m /\ check_roles (from_section f64_to_string s) = Ok tt
  | _ => True
  end.

(** The parser reads the text of [s] as what it spells. *)
Definition parses (s : Section_) : Prop :=
  match s with
  | SPresent m => from_str (section_canonical f64_to_string s) = Ok (section_json m)
  | _ => True
  end.

Lemma lists_ok_iter m : lists_ok m -> Forall (fun kv => Forall entry_ok (snd kv)) (btree_iter m).
Proof. intros H. apply Forall_forall. intros [k l] Hin%btree_iter_elem. by eapply H. Qed.

Lemma convert_section m : lists_ok m ->
  convert (section_json m) = Ok (VMap (map (fun kv => (fst kv, VSeq (map entry_value (snd kv)))) (btree_iter m))).
Proof.
  intros H%lists_ok_iter. apply convert_obj. induction H as [|[k l] r Hl _ IH]; [constructor|].
  constructor; [|done]. simpl. split; [done|]. by apply convert_entries.
Qed.

Lemma section_reads_back s : section_ok s -> parses s ->
  section_from_canonical f64_to_string from_str (section_canonical f64_to_string s) = Ok s.
Proof.
  intros Hok Hp. destruct s as [| |m]; [done..|]. destruct Hok as [Hl Hr]. unfold parses in Hp.
  assert (decode_text f64_to_string from_str (section_canonical f64_to_string (SPresent m))
          = Ok (VMap (map (fun kv => (fst kv, VSeq (map entry_value (snd kv)))) (btree_iter m)))) as Hd.
  { unfold decode_text. rewrite Hp. cbn [map_err]. rewrite convert_section by done.
    change (canonical_json _ (VMap _)) with (section_canonical f64_to_string (SPresent m)).
    by rewrite String.eqb_refl. }
  unfold section_from_canonical, value_from_canonical_json.
  destruct (section_text_brace f64_to_string m) as [t Ht].
  replace (String.eqb _ "missing") with false by (rewrite Ht; done).
  replace (String.eqb _ "null") with false by (rewrite Ht; done).
  rewrite Hd. cbn [map_err]. unfold section_roles.
  rewrite section_loop_fold, fold_btree by by apply lists_ok_iter. by rewrite Hr.
Qed.

Lemma conflicts_read_back (c : EntrySet) : set_Forall entry_ok c ->
  from_str (conflicts_canonical f64_to_string c) = Ok (conflicts_json c) ->
  conflicts_from_canonical f64_to_string from_str (conflicts_canonical f64_to_string c) = Ok c.
Proof.
  intros Hc Hp. assert (Forall entry_ok (btree_set_iter c)) as Hl.
  { apply Forall_forall. intros e He%btree_set_iter_elem. by apply Hc. }
  unfold conflicts_from_canonical, value_from_canonical_json, decode_text. rewrite Hp. cbn [map_err].
  unfold conflicts_json. rewrite convert_entries by done.
  change (canonical_json _ (VSeq _)) with (conflicts_canonical f64_to_string c).
  rewrite String.eqb_refl. cbn [negb map_err]. rewrite try_map_entries by done.
  replace (list_to_set (btree_set_iter c) : EntrySet) with c.
  2:{ apply set_eq. intros e. by rewrite elem_of_list_to_set, btree_set_iter_elem. }
  by rewrite String.eqb_refl.
Qed.
End RoundTrip.
