(* ===== verification/Envelope.v ===== *)
(** * The store's envelope: [crates/maknae-state/src/envelope.rs]

    The graph at rest: a header in the clear, a data key wrapped under the store's
    key and bound to the header's prefix, and the payload sealed under the data
    key and bound to all that precedes it. The AEAD is third-party: a parameter,
    with what it promises as a class of laws; the randomness it draws is an
    argument. *)
From stdpp Require Import base list strings gmap.
From Stdlib Require Import ZArith Lia Ascii.
From S2P Require Import Prelude RustStr RustSlice GraphFormat.
Open Scope nat_scope.

Inductive CryptoError := AeadOpen | CryptoOther.

(** An AEAD: which keys it takes, sealing under a nonce (ciphertext and tag), and
    opening of ciphertext followed by tag. *)
Record Aead := mkAead {
  ae_key : bytes -> result unit CryptoError;
  ae_seal : bytes -> bytes -> bytes -> bytes -> result (bytes * bytes) CryptoError;
  ae_open : bytes -> bytes -> bytes -> bytes -> result bytes CryptoError }.

Definition NONCE_LEN : nat := 12.
Definition TAG_LEN : nat := 16.

(** What the code relies on: the lengths, and that what was sealed opens under the
    same key, nonce and associated data. *)
Class AeadLaws (a : Aead) : Prop := {
  al_length : forall key nonce aad plain ct tag,
    ae_seal a key nonce aad plain = Ok (ct, tag) -> length ct = length plain /\ length tag = TAG_LEN;
  al_open : forall key nonce aad plain ct tag,
    ae_seal a key nonce aad plain = Ok (ct, tag) -> ae_open a key nonce aad (ct ++ tag) = Ok plain }.

(** ** The layout *)

Definition ENVELOPE_MAGIC : bytes := str_bytes "MKNE".
Definition ENVELOPE_VERSION : Z := 1.
Definition AEAD_AES_256_GCM : Z := 1.
Definition WRAP_AES_256_GCM : Z := 1.
Definition KEY_LEN : nat := 32.
Definition PREFIX_LEN : nat := 12.
Definition WRAP_NONCE : nat := PREFIX_LEN.
Definition WRAPPED_DEK : nat := WRAP_NONCE + NONCE_LEN.
Definition WRAP_TAG : nat := WRAPPED_DEK + KEY_LEN.
Definition PAYLOAD_NONCE : nat := WRAP_TAG + TAG_LEN.
Definition ENVELOPE_HEADER_LEN : nat := PAYLOAD_NONCE + NONCE_LEN.

Inductive EnvelopeError :=
| ETruncated | EBadMagic | EUnsupportedVersion (v : Z) | EUnknownAead (v : Z) | EUnknownWrap (v : Z)
| ENonZeroReserved | EUnwrap | EDecrypt | ECrypto.

Definition envelope_error_text (e : EnvelopeError) : string :=
  match e with
  | ETruncated => "graph store is truncated"
  | EBadMagic => "graph store does not begin with the MKNE magic"
  | EUnsupportedVersion v => "unsupported graph store envelope version " +:+ dec v
  | EUnknownAead v => "unknown graph store cipher " +:+ dec v
  | EUnknownWrap v => "unknown graph store key wrap " +:+ dec v
  | ENonZeroReserved => "a reserved graph store field is not zero"
  | EUnwrap => "the graph store key does not unwrap: wrong key or tampered header"
  | EDecrypt => "the graph store does not decrypt: tampered or truncated"
  | ECrypto => "the cryptographic provider refused the operation"
  end.

(** [WrappingKey]: the key, or that the provider refused it. *)
Definition WrappingKey : Type := result bytes CryptoError.

Definition wrapping_key (a : Aead) (key : bytes) : WrappingKey :=
  let? _ := ae_key a key in Ok key.

(** What sealing draws: the data key, and two nonces. There is no data key when the
    source of randomness fails. *)
Record Entropy := mkEntropy {
  en_dek : option bytes; en_wrap_nonce : bytes; en_payload_nonce : bytes }.

Definition prefix : bytes :=
  ENVELOPE_MAGIC ++ u16 ENVELOPE_VERSION ++ u16 AEAD_AES_256_GCM ++ u16 WRAP_AES_256_GCM
  ++ [Ascii.zero; Ascii.zero].

Definition to_crypto {A} (r : result A CryptoError) : result A EnvelopeError :=
  map_err (fun _ => ECrypto) r.

Definition seal (a : Aead) (draw : Entropy) (plain : bytes) (kek : WrappingKey)
  : result bytes EnvelopeError :=
  let? dek := ok_or (en_dek draw) ECrypto in
  let? (wrapped, wrap_tag) :=
    to_crypto (let? k := kek in ae_seal a k (en_wrap_nonce draw) prefix dek) in
  let head := prefix ++ en_wrap_nonce draw ++ wrapped ++ wrap_tag in
  let? (body, tag) :=
    to_crypto (let? _ := ae_key a dek in ae_seal a dek (en_payload_nonce draw) head plain) in
  Ok (head ++ en_payload_nonce draw ++ body ++ tag).

Definition field (file : bytes) (at_ : nat) : Z := from_le (slice at_ (at_ + 2) file).

Definition open (a : Aead) (file : bytes) (kek : WrappingKey) : result bytes EnvelopeError :=
  if length file <? ENVELOPE_HEADER_LEN + TAG_LEN then Err ETruncated
  else if negb (bool_decide (take 4 file = ENVELOPE_MAGIC)) then Err EBadMagic
  else if negb (field file 4 =? ENVELOPE_VERSION)%Z then Err (EUnsupportedVersion (field file 4))
  else if negb (field file 6 =? AEAD_AES_256_GCM)%Z then Err (EUnknownAead (field file 6))
  else if negb (field file 8 =? WRAP_AES_256_GCM)%Z then Err (EUnknownWrap (field file 8))
  else if negb (field file 10 =? 0)%Z then Err ENonZeroReserved
  else
    let? k := to_crypto kek in
    let? dek := map_err (fun e => match e with AeadOpen => EUnwrap | _ => ECrypto end)
      (ae_open a k (slice WRAP_NONCE (WRAP_NONCE + NONCE_LEN) file) (take PREFIX_LEN file)
         (slice WRAPPED_DEK PAYLOAD_NONCE file)) in
    if negb (length dek =? KEY_LEN) then Err ECrypto
    else
      let? _ := to_crypto (ae_key a dek) in
      map_err (fun e => match e with AeadOpen => EDecrypt | _ => ECrypto end)
        (ae_open a dek (slice PAYLOAD_NONCE (PAYLOAD_NONCE + NONCE_LEN) file) (take PAYLOAD_NONCE file)
           (drop ENVELOPE_HEADER_LEN file)).

(** ** Lemmas *)

(** The parts of a file laid out in order. *)
Lemma slice_part (a b c : bytes) from to :
  from = length a -> to = length a + length b -> slice from to (a ++ b ++ c) = b.
Proof. intros -> ->. apply slice_at. Qed.

(** A draw of the source's lengths. *)
Record entropy_ok (draw : Entropy) : Prop := {
  eo_dek : forall dek, en_dek draw = Some dek -> length dek = KEY_LEN;
  eo_wrap : length (en_wrap_nonce draw) = NONCE_LEN;
  eo_payload : length (en_payload_nonce draw) = NONCE_LEN }.

Lemma open_seal a {L : AeadLaws a} draw plain kek file :
  entropy_ok draw -> seal a draw plain kek = Ok file -> open a file kek = Ok plain.
Proof.
  intros [Hdek Hwn Hpn] H. unfold seal in H.
  destruct (en_dek draw) as [dek|]; [|done]. cbn [ok_or] in H. specialize (Hdek dek eq_refl).
  destruct kek as [k|e]; [|done].
  destruct (ae_seal a k _ prefix dek) as [[wrapped wtag]|] eqn:Ew; [|done]. cbn [to_crypto map_err] in H.
  destruct (ae_key a dek) as [[]|] eqn:Ek; [|done].
  set (head := prefix ++ en_wrap_nonce draw ++ wrapped ++ wtag) in H.
  destruct (ae_seal a dek _ head plain) as [[body tag]|] eqn:Eb; [|done].
  apply Ok_inj in H. subst file.
  destruct (al_length _ _ _ _ _ _ Ew) as [Hlw Hlt]. destruct (al_length _ _ _ _ _ _ Eb) as [Hlb Hltag].
  rewrite Hdek in Hlw. set (pn := en_payload_nonce draw) in *. set (wn := en_wrap_nonce draw) in *.
  assert (length head = PAYLOAD_NONCE) as Hh.
  { unfold head. rewrite !length_app, Hwn, Hlw, Hlt. reflexivity. }
  assert (head ++ pn ++ body ++ tag = prefix ++ (wn ++ (wrapped ++ wtag) ++ pn ++ body ++ tag)) as Hfile.
  { unfold head. by rewrite <-!app_assoc. }
  unfold open. rewrite !length_app, Hh, Hpn, Hltag.
  replace (PAYLOAD_NONCE + (NONCE_LEN + (length body + TAG_LEN)) <? ENVELOPE_HEADER_LEN + TAG_LEN) with false
    by (symmetry; apply Nat.ltb_ge; unfold ENVELOPE_HEADER_LEN; lia).
  assert (take PREFIX_LEN (head ++ pn ++ body ++ tag) = prefix) as Hpre by (by rewrite Hfile).
  assert (forall n, n <= PREFIX_LEN -> take n (head ++ pn ++ body ++ tag) = take n prefix) as Htake.
  { intros n Hn. rewrite <-Hpre, take_take. by replace (n `min` PREFIX_LEN) with n by lia. }
  assert (forall i, i + 2 <= PREFIX_LEN -> field (head ++ pn ++ body ++ tag) i = field prefix i) as Hfield.
  { intros i Hi. unfold field, slice. rewrite !firstn_skipn_comm. replace (i + (i + 2 - i)) with (i + 2) by lia.
    by rewrite Htake. }
  rewrite (Htake 4), !Hfield by (unfold PREFIX_LEN; lia).
  change (bool_decide (take 4 prefix = ENVELOPE_MAGIC)) with true.
  change (field prefix 4) with 1%Z. change (field prefix 6) with 1%Z.
  change (field prefix 8) with 1%Z. change (field prefix 10) with 0%Z. cbn [negb Z.eqb Pos.eqb].
  cbv iota. cbn [to_crypto map_err].
  rewrite Hpre. rewrite Hfile.
  rewrite (slice_part prefix wn) by (rewrite ?Hwn; reflexivity).
  replace (slice WRAPPED_DEK PAYLOAD_NONCE (prefix ++ wn ++ (wrapped ++ wtag) ++ pn ++ body ++ tag))
    with (wrapped ++ wtag).
  2:{ rewrite (app_assoc prefix wn). symmetry. apply slice_part; rewrite !length_app, Hwn, ?Hlw, ?Hlt; reflexivity. }
  rewrite (al_open _ _ _ _ _ _ Ew). cbn [map_err]. rewrite Hdek, Nat.eqb_refl. cbn [negb]. rewrite Ek.
  cbn [map_err]. rewrite <-Hfile.
  rewrite (slice_part head pn (body ++ tag)) by (rewrite ?Hh, ?Hpn; reflexivity).
  replace (take PAYLOAD_NONCE (head ++ pn ++ body ++ tag)) with head by (rewrite <-Hh; by rewrite take_app_length).
  replace (drop ENVELOPE_HEADER_LEN (head ++ pn ++ body ++ tag)) with (body ++ tag).
  2:{ rewrite app_assoc. symmetry. apply drop_app_length'. rewrite length_app, Hh, Hpn. reflexivity. }
  by rewrite (al_open _ _ _ _ _ _ Eb).
Qed.
