(* ===== verification/Anchor.v ===== *)
(** * The rollback anchor: [crates/maknae-state/src/{anchor,vocabulary}.rs]

    What boot makes of the store it finds: the facts of the store against the last
    checkpoint of the audit trail, and the store's vocabulary against the binary's.
    A checkpoint is read out of a line of the trail; the JSON parser is a
    parameter. *)
From stdpp Require Import base list strings gmap.
From Stdlib Require Import ZArith Lia Ascii.
From S2P Require Import Prelude RustStr RustSlice Json Graph GraphFormat Identity.
Open Scope nat_scope.

(** ** Checkpoints *)

Definition CHECKPOINT_ACTION : string := "graph.checkpoint".

Record Checkpoint := mkCheckpoint { ck_revision : Z; ck_digest : digest }.

(** The checkpoint with the higher revision; on a tie, the second. *)
Definition newer (a b : option Checkpoint) : option Checkpoint :=
  match a, b with
  | Some x, Some y => if (ck_revision y <? ck_revision x)%Z then Some x else Some y
  | x, None => x
  | _, y => y
  end.

Definition CHECKPOINT_NEEDLE : string := String (ascii_of_nat 34) (CHECKPOINT_ACTION +:+ String (ascii_of_nat 34) "").

Definition may_be_checkpoint (line : string) : bool := is_some (split_once CHECKPOINT_NEEDLE line).

(** The checkpoint in a parsed line. *)
Definition checkpoint_of (v : Json) : option Checkpoint :=
  let! action := (let! a := json_get v "action" in json_as_str a) in
  if negb (String.eqb action CHECKPOINT_ACTION) then None
  else
    let! graph := json_get v "graph" in
    let! revision := (let! r := json_get graph "revision" in json_as_u64 r) in
    let! text := (let! h := json_get graph "ciphertext_sha256" in json_as_str h) in
    if negb (String.length text =? 64) || negb (all_bytes is_hex text) then None
    else Some (mkCheckpoint revision (unhex_pairs text)).

Section Parse.
Context (from_slice : string -> option Json).

Definition parse_checkpoint (line : string) : option Checkpoint :=
  let! v := from_slice line in checkpoint_of v.

Definition is_checkpoint (line : string) : bool :=
  may_be_checkpoint line && is_some (parse_checkpoint line).
End Parse.

(** ** The store against the anchor *)

Record StoreFacts := mkFacts { sf_revision : Z; sf_digest : digest }.

Inductive AnchorState := Verified | Advanced | Unavailable.
Definition anchor_state_str (s : AnchorState) : string :=
  match s with
  | Verified => "verified"
  | Advanced => "advanced"
  | Unavailable => "rollback-anchor-unavailable"
  end.

Inductive Refusal :=
| RolledBack (store checkpoint : Z)
| Substituted (revision : Z)
| Missing (checkpoint : Z)
| RevisionExhausted.

Definition refusal_text (r : Refusal) : string :=
  match r with
  | RolledBack store checkpoint =>
      "graph store revision " +:+ dec store +:+ " is older than the audited checkpoint "
        +:+ dec checkpoint +:+ ": rolled back"
  | Substituted revision =>
      "graph store at revision " +:+ dec revision +:+ " differs from the audited checkpoint: substituted"
  | RevisionExhausted => "graph store revision is exhausted; reseed cannot advance it"
  | Missing checkpoint =>
      "graph store is missing but the audit trail holds checkpoint " +:+ dec checkpoint
  end.

Inductive BootAction :=
| SeedFirstBoot
| SeedAuthorized (revision : Z)
| Load (s : AnchorState)
| Refuse (r : Refusal).

(** [u64::checked_add] of one. *)
Definition checked_succ (n : Z) : option Z := if (n + 1 <? u64_max)%Z then Some (n + 1)%Z else None.

Definition assess (store : option StoreFacts) (checkpoint : option Checkpoint)
    (reseed_authorized : bool) : BootAction :=
  if reseed_authorized then
    let floor := Z.max (from_option sf_revision 0%Z store) (from_option ck_revision 0%Z checkpoint) in
    match checked_succ floor with
    | Some revision => SeedAuthorized revision
    | None => Refuse RevisionExhausted
    end
  else
    match store, checkpoint with
    | None, None => SeedFirstBoot
    | None, Some c => Refuse (Missing (ck_revision c))
    | Some _, None => Load Unavailable
    | Some s, Some c =>
        if (sf_revision s <? ck_revision c)%Z then Refuse (RolledBack (sf_revision s) (ck_revision c))
        else if (sf_revision s =? ck_revision c)%Z && negb (bool_decide (sf_digest s = ck_digest c)) then
          Refuse (Substituted (sf_revision s))
        else if (sf_revision s =? ck_revision c)%Z then Load Verified
        else Load Advanced
    end.

(** ** The store's vocabulary ([vocabulary.rs]) *)

Inductive Assessment :=
| Current
| Upgrade (from : option digest)
| Forged (why : string).

Definition put_str (s : string) : result bytes (fault GraphError) :=
  let? n := index_u32 (String.length s) in Ok (u32n n ++ str_bytes s).

Definition put_attr (kv : string * GAttr) : result bytes (fault GraphError) :=
  let? k := put_str (fst kv) in
  match snd kv with
  | GStr s => let? v := put_str s in Ok (k ++ u8 1 ++ v)
  | GU64 n => Ok (k ++ u8 2 ++ u64 n)
  end.

Definition put_compiled (c : CompiledNode) : result bytes (fault GraphError) :=
  let? key := put_str (c_key c) in
  let? label := put_str (c_label c) in
  let? count := index_u32 (size (c_attrs c)) in
  let? attrs := try_map put_attr (btree_iter (c_attrs c)) in
  Ok (u16 (c_kind c) ++ key ++ label ++ u32n count ++ concat attrs).

(** [CompiledSet::canonical_bytes] ([schema.rs]). *)
Definition canonical_bytes (set : CompiledSet) : result bytes (fault GraphError) :=
  let order := fun c => (c_kind c, c_key c) in
  let sorted := sort_by_key order set in
  match adjacent_dup order sorted with
  | Some c => Err (Refused (DuplicateKey (c_kind c) (c_key c)))
  | None =>
      let? count := index_u32 (length sorted) in
      let? nodes := try_map put_compiled sorted in
      Ok (u32n count ++ concat nodes)
  end.

Section Vocabulary.
Context (sha256 : bytes -> digest).

Definition vocabulary_digest (set : CompiledSet) : result digest (fault GraphError) :=
  let? b := canonical_bytes set in Ok (sha256 b).

(** [vocabulary::assess]; [Err] is a panic. *)
Definition vocabulary_assess (stored_digest : option digest) (stored : CompiledSet)
    (binary_digest : digest) : result Assessment (fault Empty_set) :=
  match vocabulary_digest stored with
  | Err Panic => Err Panic
  | Err (Refused _) => Ok (Forged "the stored compiled nodes are not canonical")
  | Ok nodes => Ok
      match stored_digest with
      | None =>
          match stored with
          | [] => Upgrade None
          | _ => Forged "compiled nodes are stored without a vocabulary digest"
          end
      | Some claimed =>
          if negb (bool_decide (nodes = claimed)) && bool_decide (claimed = binary_digest) then
            Forged "compiled nodes differ from the digest they claim"
          else if negb (bool_decide (nodes = claimed)) then
            Forged "the stored digest does not cover the stored compiled nodes"
          else if bool_decide (claimed = binary_digest) then Current
          else Upgrade (Some claimed)
      end
  end.
End Vocabulary.

(** ** Lemmas *)

(** A checkpoint a store stands up to: not behind it, and not another store at
    its revision. *)
Definition stands_to (f : StoreFacts) (c : Checkpoint) : Prop :=
  (ck_revision c <= sf_revision f)%Z /\ (ck_revision c = sf_revision f -> ck_digest c = sf_digest f).

Lemma assess_load f c :
  (exists s, assess (Some f) (Some c) false = Load s) <-> stands_to f c.
Proof.
  unfold stands_to. simpl. destruct (Z.ltb_spec (sf_revision f) (ck_revision c)).
  { split; [intros (? & ?); done|lia]. }
  destruct (Z.eqb_spec (sf_revision f) (ck_revision c)) as [E|E]; simpl.
  - case_bool_decide as Hd; simpl.
    + split; [intros _; split; [lia|congruence]|eauto].
    + split; [intros (? & ?); done|]. intros [_ Hc]. rewrite Hc in Hd; congruence.
  - split; [intros _; split; [lia|congruence]|eauto].
Qed.

Lemma assess_refused f c :
  ~ stands_to f c -> exists r, assess (Some f) (Some c) false = Refuse r /\
    (r = RolledBack (sf_revision f) (ck_revision c) \/ r = Substituted (sf_revision f)).
Proof.
  intros H. assert (~ exists s, assess (Some f) (Some c) false = Load s) as Hl by by rewrite assess_load.
  simpl in *. destruct (sf_revision f <? ck_revision c)%Z; [eauto|].
  destruct (sf_revision f =? ck_revision c)%Z; simpl in *; [|exfalso; eauto].
  case_bool_decide; simpl in *; [exfalso|]; eauto.
Qed.

Lemma assess_authorized store checkpoint r :
  assess store checkpoint true = SeedAuthorized r ->
  (from_option sf_revision 0 store < r /\ from_option ck_revision 0 checkpoint < r < u64_max)%Z.
Proof.
  simpl. unfold checked_succ. case_goal as E; intros H; [|done]. destruct (_ <? _)%Z eqn:E' in E; [|done].
  apply Z.ltb_lt in E'. simplify_eq. lia.
Qed.
