(* ===== verification/Store.v ===== *)
(** * The state store: [crates/maknae-state/src/store.rs]

    The kernel's graph at rest: booting it (seed, load, migration, transition),
    committing to it, and the audit records written ahead of each step
    ([GraphBootAudit] of [crates/maknae-kernel/src/run.rs]). Programs over the
    effects on the state directory and the audit trail; the revision floor of the
    directory is one of them. An I/O error carries its text. The test seams of
    [StateDir] are not modelled. *)
From stdpp Require Import base list strings gmap.
From Stdlib Require Import ZArith Lia Ascii.
From S2P Require Import Prelude Programs RustStr RustSlice Json Config Decide Graph GraphFormat Identity.
From S2P Require Import Bindings BindingsSync PolicySource Operands Texts SyncText Envelope Anchor.
Open Scope nat_scope.

(** ** The directory's files and the anchor's I/O *)

Definition STORE_FILE : string := "kernel.graph".
Definition MIRROR_FILE : string := "bindings.mirror.yaml".
Definition MARKER_FILE : string := "reseed.authorized".
Definition MARKER_MAX_BYTES : Z := 4096.
Definition REJECTED_PREFIX : string := "kernel.graph.rejected.".
Definition MAX_STORE_BYTES : Z := 64 * 2 ^ 20.
Definition STORE_MODE : Z := 384.

Definition ANCHOR_SEEDING : string := "seeding".
Definition ANCHOR_SEEDED : string := "seeded".
Definition ANCHOR_RESEEDED : string := "reseeded".
Definition ANCHOR_MIGRATED : string := "migrated".
Definition ANCHOR_TRANSITIONED : string := "transitioned".
Definition INITIATOR_ROOT_FILE : string := "root-file".
Definition INITIATOR_SEED : string := "seed".
Definition INITIATOR_OPERATOR : string := "operator".
Definition INITIATOR_KERNEL : string := "kernel".

(** [IoError], as the store tells its values apart; each carries its text. *)
Inductive IoError :=
| IoNotFound (text : string)
| IoLocked (text : string)
| PublishedNotDurable (text : string)
| IoOther (text : string).
Definition io_text (e : IoError) : string :=
  match e with IoNotFound t | IoLocked t | PublishedNotDurable t | IoOther t => t end.

Record TargetRequired := mkTarget {
  tr_owner : option Z; tr_mode_mask : option Z; tr_nlink_exactly_one : bool;
  tr_regular_file : bool; tr_max_bytes : option Z }.

(** ** Records *)

Record GraphAudit := mkGraphAudit {
  ga_revision : Z; ga_ciphertext_sha256 : string; ga_anchor : string; ga_scanned_bytes : Z }.

(** A peer-less record: the fields [BootCtx::record] takes; the event, host, socket,
    session, sequence number and clock are the context's. *)
Record GraphRecord := mkGraphRecord {
  gr_action : string; gr_result : string; gr_reason : string; gr_posture : string;
  gr_graph : option GraphAudit }.

Definition GRAPH_SEED_ACTION : string := "graph.seed".
Definition GRAPH_MIGRATE_ACTION : string := "graph.migrate".
Definition GRAPH_TRANSITION_ACTION : string := "graph.transition".
Definition GRAPH_RELOAD_ACTION : string := "graph.reload".
Definition GRAPH_BASELINE_ACTION : string := "graph.baseline".
Definition GRAPH_SYNC_ACTION : string := "graph.sync".
Definition GRAPH_IDENTITY_ACTION : string := "graph.identity".

(** Where a restart-class accept stands. *)
Inductive DrainStep := DrainBegun | DrainApplied.

(** ** Effects *)

Inductive store_effect : Type -> Type :=
| OpenAnchor (owner : Z) : store_effect (result unit IoError)
| TryLock : store_effect (result unit IoError)
| ReadFile (name : string) (req : TargetRequired) : store_effect (result bytes IoError)
| PublishFile (name : string) (file : bytes) (mode : Z) : store_effect (result unit IoError)
| RemoveFile (name : string) : store_effect (result unit IoError)
| Floor : store_effect Z
| SetFloor (revision : Z) : store_effect unit
| DrawEntropy : store_effect Entropy
| Append (rec : GraphRecord) : store_effect (result unit string)
| SendDrain (d : DrainStep) : store_effect unit.

Local Notation prog := (Programs.prog store_effect).

(** ** Errors *)

Inductive StoreError :=
| SStateDir (cause : string)
| SInUse
| SStoreFileRefused (cause : string)
| SIo (cause : string)
| SEnvelope (e : EnvelopeError)
| SFormat (cause : string)
| SRefused (r : Refusal)
| SAudit (cause : string)
| SNewerStore (detail : string)
| SRejectedNameInUse (name cause : string)
| SVocabulary (cause : string)
| SIdentity (cause : string)
| SStaleRevision (store attempted : Z)
| SBindingsRefused (m : string)
| SBaselineUnseen (stored seen : option string)
| SBaselineUnrecorded
| SSyncUnseen
| SSyncBaseChanged
| SSyncAbsent
| SSyncUnrecorded
| SMirrorNotRemoved (cause : string).

Definition store_error_text (e : StoreError) : string :=
  match e with
  | SStateDir cause => "graph state directory refused: " +:+ cause
  | SInUse => "another maknaed holds the kernel graph state directory"
  | SStoreFileRefused cause => "graph store file " +:+ STORE_FILE +:+ " refused: " +:+ cause
  | SIo cause => "graph store I/O failed: " +:+ cause
  | SEnvelope e => envelope_error_text e
  | SFormat cause => "graph store does not decode: " +:+ cause
  | SRefused r => refusal_text r
  | SAudit cause => "graph store audit failed: " +:+ cause
  | SNewerStore detail => "the graph store was written by a newer maknaed: " +:+ detail
  | SRejectedNameInUse name cause =>
      "the rejected-copy name " +:+ name +:+ " is in use and does not hold this store (" +:+ cause
        +:+ "); move it aside, then restart"
  | SVocabulary cause => "graph store vocabulary refused: " +:+ cause
  | SIdentity cause => "the kernel identity layer does not build: " +:+ cause
  | SStaleRevision store attempted =>
      "graph store commit at revision " +:+ dec attempted
        +:+ " does not advance the store's revision " +:+ dec store
  | SBindingsRefused m => m
  | SBaselineUnseen stored seen =>
      "the store's accepted baseline (" +:+ default "none" stored
        +:+ ") is not the one this start read (" +:+ default "none" seen +:+ "); nothing was applied"
  | SBaselineUnrecorded => "the baseline would change with no recorded cause; nothing was applied"
  | SSyncUnseen => "the store's sync base is not the one this start merged against; nothing was applied"
  | SSyncBaseChanged => "a live identity edit would change the sync base; nothing was applied"
  | SSyncAbsent => "the store holds no sync base; nothing was applied"
  | SSyncUnrecorded => "a live identity edit was not recorded; nothing was applied"
  | SMirrorNotRemoved cause =>
      "the previous bindings mirror could not be removed before the commit: " +:+ cause
        +:+ "; nothing was applied"
  end.

Inductive Remedy :=
| Reinstall | Reseed | CheckStateDir | StopOtherInstance | CheckStoreFile | ClearRejectedName
| CheckAudit | Investigate.

Definition remedy (e : StoreError) : Remedy :=
  match e with
  | SNewerStore _ => Reinstall
  | SRefused RevisionExhausted => Investigate
  | SRefused _ | SEnvelope _ | SFormat _ | SVocabulary _ => Reseed
  | SStoreFileRefused _ => CheckStoreFile
  | SRejectedNameInUse _ _ => ClearRejectedName
  | SStateDir _ | SIo _ | SMirrorNotRemoved _ => CheckStateDir
  | SInUse => StopOtherInstance
  | SAudit _ => CheckAudit
  | SIdentity _ | SStaleRevision _ _ | SBindingsRefused _ | SBaselineUnseen _ _ | SBaselineUnrecorded
  | SSyncUnseen | SSyncBaseChanged | SSyncAbsent | SSyncUnrecorded => Investigate
  end.

Abbreviation store_result A := (result A (fault StoreError)).
Definition refused {A} (e : StoreError) : store_result A := Err (Refused e).

(** ** The state directory *)

Record StateDir := mkStateDir { sd_owner : Z; sd_marker_owner : Z }.

(** [StateDir::open_as]; the floor starts at zero. *)
Definition open_as (owner marker_owner : Z) : prog (store_result StateDir) :=
  let# r := OpenAnchor owner in
  match r with
  | Err e => Ret (refused (SStateDir (io_text e)))
  | Ok _ =>
      let# l := TryLock in
      match l with
      | Err (IoLocked _) => Ret (refused SInUse)
      | Err e => Ret (refused (SStateDir (io_text e)))
      | Ok _ => let# _ := SetFloor 0%Z in Ret (Ok (mkStateDir owner marker_owner))
      end
  end.

Definition publish (name : string) (file : bytes) : prog (result unit IoError) :=
  let# r := PublishFile name file STORE_MODE in Ret r.
Definition publish_mirror (file : bytes) : prog (result unit IoError) := publish MIRROR_FILE file.
Definition remove_mirror : prog (result unit IoError) := let# r := RemoveFile MIRROR_FILE in Ret r.

Definition kept_file (owner : Z) : TargetRequired :=
  mkTarget (Some owner) (Some 63%Z) true true (Some MAX_STORE_BYTES).

Definition reseed_marker (dir : StateDir) : prog (result bool IoError) :=
  let# r := ReadFile MARKER_FILE
    (mkTarget (Some (sd_marker_owner dir)) (Some 18%Z) true true (Some MARKER_MAX_BYTES)) in
  Ret match r with
      | Ok _ => Ok true
      | Err (IoNotFound _) => Ok false
      | Err e => Err e
      end.

Definition reseed_authorized (dir : StateDir) : prog bool :=
  let* r := reseed_marker dir in Ret match r with Ok true => true | _ => false end.

Definition read_store (dir : StateDir) : prog (result (option bytes) IoError) :=
  let# r := ReadFile STORE_FILE (kept_file (sd_owner dir)) in
  Ret match r with
      | Ok file => Ok (Some file)
      | Err (IoNotFound _) => Ok None
      | Err e => Err e
      end.

Definition preserve (dir : StateDir) (name : string) (file : bytes) : prog (store_result string) :=
  let# r := ReadFile name (kept_file (sd_owner dir)) in
  match r with
  | Err (IoNotFound _) =>
      let* p := publish name file in
      Ret match p with
          | Ok _ => Ok name
          | Err e => refused (SIo (io_text e))
          end
  | Ok existing =>
      Ret (if bool_decide (existing = file) then Ok (name +:+ " (already preserved)")
           else refused (SRejectedNameInUse name "it holds other bytes"))
  | Err e => Ret (refused (SRejectedNameInUse name (io_text e)))
  end.

Record Persisted := mkPersisted { pd_digest : digest; pd_durability_error : option string }.

#[export] Instance Graph_eq_dec : EqDecision Graph.
Proof. solve_decision. Defined.

Inductive BootOutcome :=
| Seeded (authorized : bool) (rejected : option string)
| Loaded (s : AnchorState).

Record Migration := mkMigration {
  mi_from : option digest; mi_to : digest; mi_unbound : list Z }.

Record BootReport := mkReport {
  br_revision : Z; br_digest : digest; br_outcome : BootOutcome; br_graph : Graph;
  br_marker_ignored : option string; br_migration : option Migration;
  br_identity_transition : bool; br_baseline_transition : bool; br_released : list Released;
  br_durability_error : option string }.

Record BootInputs := mkInputs {
  bi_compiled : CompiledSet; bi_vocabulary_sha256 : digest; bi_identity : IdentityLayer;
  bi_unresolved_adversaries : list string; bi_bindings_missing : bool;
  bi_bindings_lists_nobody : bool; bi_baseline : BaselineLayer; bi_accepted_seen : option digest;
  bi_baseline_events : list string; bi_sync : SyncBase; bi_sync_seen : option SyncBase;
  bi_sync_events : list string; bi_sync_kind : SyncKind }.

Record Committed := mkCommitted {
  co_revision : Z; co_digest : digest; co_durability_error : option string;
  co_checkpoint_error : option string }.

(** ** Who a transition is attributed to *)

Definition transition_initiator (kind : SyncKind) (identity_changed baseline_changed stale : bool)
  : ProvenanceKind :=
  let pure := negb (identity_changed || baseline_changed || stale) in
  if pure && match kind with Created | Adopted => true | _ => false end then PKernel else PRootFile.

Definition initiator_name (p : ProvenanceKind) : string :=
  match p with
  | PCompiled => "compiled"
  | PSeed => INITIATOR_SEED
  | PRootFile => INITIATOR_ROOT_FILE
  | POperator => INITIATOR_OPERATOR
  | PKernel => INITIATOR_KERNEL
  end.

Definition live_provenance (i : LiveInitiator) : ProvenanceKind :=
  match i with LOperator => POperator | LKernel => PKernel end.

(** ** Layers across a vocabulary change *)

Definition next_revision (revision : Z) : store_result Z :=
  ok_or (checked_succ revision) (Refused (SRefused RevisionExhausted)).

Definition sorted_layer (l : IdentityLayer) : IdentityLayer :=
  mkLayer (l_source l) (l_label l) (l_bindings_sha256 l) (sort_by_key s_uid (l_subjects l)) (l_aliases l).

Definition drop_vanished (layer : IdentityLayer) (compiled : CompiledSet) : IdentityLayer * list Z :=
  let known := fun s => is_some (compiled_get compiled ROLE (s_role s)) in
  let keep := List.filter known (l_subjects layer) in
  let gone := List.filter (fun s => negb (known s)) (l_subjects layer) in
  let aliases := filter (fun kv : string * Z =>
    existsb (fun s => Z.eqb (s_uid s) (snd kv) && String.eqb (s_role s) ADVERSARY) keep = true)
    (l_aliases layer) in
  (mkLayer (l_source layer) (l_label layer) (l_bindings_sha256 layer) keep aliases, map s_uid gone).

Definition migrated_layer (stored file : IdentityLayer) (compiled : CompiledSet)
  : IdentityLayer * list Z :=
  let layer :=
    if is_empty (l_source stored) then mkLayer (l_source file) "" None [] ∅ else stored in
  drop_vanished
    (mkLayer (l_source layer) (l_label file) (l_bindings_sha256 layer) (l_subjects layer) (l_aliases layer))
    compiled.

(** ** Opening a store *)

Definition newer_envelope (v : Z) : bool := (ENVELOPE_VERSION <? v)%Z.
Definition newer_format (v : Z) : bool := (FORMAT_VERSION <? v)%Z.
Definition newer_schema (found expected : Z) : bool := (expected <? found)%Z.
Definition newer_aead (id : Z) : bool := (AEAD_AES_256_GCM <? id)%Z.
Definition newer_wrap (id : Z) : bool := (WRAP_AES_256_GCM <? id)%Z.

Definition classify_envelope (e : EnvelopeError) : StoreError :=
  match e with
  | EUnsupportedVersion v =>
      if newer_envelope v then SNewerStore (envelope_error_text e) else SEnvelope e
  | EUnknownAead a => if newer_aead a then SNewerStore (envelope_error_text e) else SEnvelope e
  | EUnknownWrap w => if newer_wrap w then SNewerStore (envelope_error_text e) else SEnvelope e
  | e => SEnvelope e
  end.

Record Decoded := mkDecoded {
  de_graph : Graph; de_stored : CompiledSet; de_extracted : Extracted; de_facts : StoreFacts }.

(** ** The store, its parameters: the AEAD and SHA-256 are [maknae-crypto]'s, Unicode's
    tables and the JSON parser the libraries'. *)
Section Store.
Context (aead : Aead) (sha256 : bytes -> digest).
Context (grapheme_extended printable : Z -> bool).
Context (f64_to_string : Z -> string) (from_str : string -> result Json string).

Definition classify_format (e : FormatError) : StoreError :=
  let text := format_error_text grapheme_extended printable e in
  match e with
  | UnsupportedFormatVersion v => if newer_format v then SNewerStore text else SFormat text
  | UnsupportedSchemaVersion found expected =>
      if newer_schema found expected then SNewerStore text else SFormat text
  | _ => SFormat text
  end.

Definition map_fault {E F} (f : E -> F) (e : fault E) : fault F :=
  match e with Panic => Panic | Refused e => Refused (f e) end.

(** A call that can only panic. *)
Definition never {A E} (r : result A (fault Empty_set)) : result A (fault E) :=
  map_err (map_fault (fun e : Empty_set => match e with end)) r.

Definition decode_store (file : bytes) (key : WrappingKey) : store_result Decoded :=
  let? plain := map_err (fun e => Refused (classify_envelope e)) (open aead file key) in
  let? (graph, stored) :=
    map_err (map_fault classify_format) (decode_stored_compiled plain KernelSpace SCHEMA) in
  let? extracted :=
    map_err (fun e => Refused (SFormat (identity_error_text grapheme_extended printable e)))
      (extract graph) in
  Ok (mkDecoded graph stored extracted (mkFacts (g_revision graph) (sha256 file))).

Definition store_build (layer : IdentityLayer) (baseline : option BaselineLayer)
    (sync : option SyncBase) (inputs : BootInputs) (revision : Z) (initiator : ProvenanceKind)
  : store_result Graph :=
  map_err (map_fault (fun e => SIdentity (identity_error_text grapheme_extended printable e)))
    (build layer baseline sync (bi_compiled inputs) (bi_vocabulary_sha256 inputs) revision initiator).

(** ** The records of a boot or a commit ([GraphBootAudit]) *)

Record Auditor := mkAuditor { au_scanned_bytes : Z; au_drain : bool }.

Definition intent (au : Auditor) (action reason : string) (revision : Z) (anchor : string)
  : GraphRecord :=
  mkGraphRecord action "permit" reason "authorized"
    (Some (mkGraphAudit revision "" anchor (au_scanned_bytes au))).

Definition write_ahead (rec : GraphRecord) : prog (store_result unit) :=
  let# r := Append rec in Ret (map_err (fun e => Refused (SAudit e)) r).

Fixpoint write_each (recs : list GraphRecord) : prog (store_result unit) :=
  match recs with
  | [] => Ret (Ok tt)
  | r :: rs => let*? _ := write_ahead r in write_each rs
  end.

Definition intent_seed (au : Auditor) (revision : Z) (authorized : bool) : prog (store_result unit) :=
  write_ahead (intent au GRAPH_SEED_ACTION
    (if authorized then "intent recorded (reseed-authorized)" else "intent recorded (first-boot)")
    revision ANCHOR_SEEDING).

Definition checkpoint_record (au : Auditor) (revision : Z) (d : digest) (anchor : string)
  : GraphRecord :=
  mkGraphRecord CHECKPOINT_ACTION "permit" anchor "authorized"
    (Some (mkGraphAudit revision (hex d) anchor (au_scanned_bytes au))).

Definition checkpoint (au : Auditor) (revision : Z) (d : digest) (anchor : string)
  : prog (store_result unit) :=
  if au_drain au then
    let# _ := SendDrain DrainApplied in write_ahead (checkpoint_record au revision d anchor)
  else write_ahead (checkpoint_record au revision d anchor).

(** [{:?}] of a slice of [u32]. *)
Definition debug_u32s (l : list Z) : string := "[" +:+ str_join ", " (map dec l) +:+ "]".

Definition intent_migrate (au : Auditor) (revision : Z) (from : option digest) (to : digest)
    (unbound : list Z) : prog (store_result unit) :=
  write_ahead (intent au GRAPH_MIGRATE_ACTION
    ("intent recorded (vocabulary " +:+ from_option hex "none" from +:+ " -> " +:+ hex to
       +:+ "; unbound: " +:+ debug_u32s unbound +:+ ")") revision "migrating").

Definition transition_record (au : Auditor) (revision : Z) (initiator : string) : GraphRecord :=
  intent au GRAPH_TRANSITION_ACTION ("intent recorded (" +:+ initiator +:+ ")") revision "transitioning".

Definition intent_transition (au : Auditor) (revision : Z) (initiator : string)
  : prog (store_result unit) :=
  let*? _ := write_ahead (transition_record au revision initiator) in
  if au_drain au then let# _ := SendDrain DrainBegun in Ret (Ok tt) else Ret (Ok tt).

Definition released_record (au : Auditor) (revision : Z) (r : Released) : GraphRecord :=
  intent au GRAPH_IDENTITY_ACTION (problem_text (problem_of_released r)) revision "releasing".
Definition baseline_record (au : Auditor) (revision : Z) (e : string) : GraphRecord :=
  intent au GRAPH_BASELINE_ACTION e revision "baselining".
Definition sync_record (au : Auditor) (revision : Z) (e : string) : GraphRecord :=
  intent au GRAPH_SYNC_ACTION e revision "syncing".

Definition audit_released (au : Auditor) (revision : Z) (l : list Released) : prog (store_result unit) :=
  write_each (map (released_record au revision) l).
Definition audit_baseline (au : Auditor) (revision : Z) (l : list string) : prog (store_result unit) :=
  write_each (map (baseline_record au revision) l).
Definition audit_sync (au : Auditor) (revision : Z) (l : list string) : prog (store_result unit) :=
  write_each (map (sync_record au revision) l).

(** ** Persisting *)

(** [format::encode] returns its bytes or panics. *)
Definition encoded (graph : Graph) : store_result bytes :=
  map_err (fun _ : fault GraphError => Panic) (encode graph).

Definition persist (key : WrappingKey) (graph : Graph) : prog (store_result Persisted) :=
  let# floor := Floor in
  let attempted := g_revision graph in
  if (attempted <=? floor)%Z then Ret (refused (SStaleRevision floor attempted))
  else
    let* m := remove_mirror in
    match m with
    | Err e => Ret (refused (SMirrorNotRemoved (io_text e)))
    | Ok _ =>
        let# draw := DrawEntropy in
        let*? plain := Ret (encoded graph) in
        let*? file := Ret (map_err (fun e => Refused (SEnvelope e)) (seal aead draw plain key)) in
        let* p := publish STORE_FILE file in
        match p with
        | Ok _ =>
            let# _ := SetFloor attempted in Ret (Ok (mkPersisted (sha256 file) None))
        | Err (PublishedNotDurable text) =>
            let# _ := SetFloor attempted in Ret (Ok (mkPersisted (sha256 file) (Some text)))
        | Err e => Ret (refused (SIo (io_text e)))
        end
    end.

(** The accepted baseline, or the sync base, before anything is appended. *)
Definition peek (dir : StateDir) (key : WrappingKey) {A} (f : Extracted -> option A)
  : prog (store_result (option A)) :=
  let* r := read_store dir in
  Ret match r with
      | Ok None => Ok None
      | Ok (Some file) => let? d := decode_store file key in Ok (f (de_extracted d))
      | Err e => refused (SStoreFileRefused (io_text e))
      end.
Definition peek_baseline (dir : StateDir) (key : WrappingKey) := peek dir key x_baseline.
Definition peek_sync (dir : StateDir) (key : WrappingKey) := peek dir key x_sync.

Definition is_canonical (graph : Graph) (layer : IdentityLayer) (baseline : option BaselineLayer)
    (sync : option SyncBase) (inputs : BootInputs) : store_result bool :=
  match g_lookup graph CONFIG_SOURCE (l_source layer) with
  | None => Ok false
  | Some n =>
      match store_build layer baseline sync inputs (g_revision graph) (pv_kind (n_prov n)) with
      | Err Panic => Err Panic
      | Err (Refused _) => Ok false
      | Ok rebuilt => Ok (bool_decide (rebuilt = graph))
      end
  end.

(** ** Loading *)

(** What [load] decides before it writes anything. *)
Record LoadPlan := mkLoadPlan {
  lp_migration : option (Migration * Graph);
  lp_transition : option (Graph * list Released * ProvenanceKind);
  lp_identity_changed : bool; lp_baseline_changed : bool }.

Definition plan_migration (stored : CompiledSet) (x : Extracted) (facts : StoreFacts)
    (inputs : BootInputs) : store_result (option (Migration * Graph) * IdentityLayer * Z) :=
  let to := bi_vocabulary_sha256 inputs in
  let? a := never (vocabulary_assess sha256 (x_vocabulary x) stored to) in
  match a with
  | Forged why => refused (SVocabulary why)
  | Current => Ok (None, x_layer x, sf_revision facts)
  | Upgrade from =>
      let '(migrated, unbound) := migrated_layer (x_layer x) (bi_identity inputs) (bi_compiled inputs) in
      let unbound := sort_by_key (fun u => u) (unbound ++ x_unbound x) in
      let? revision := next_revision (sf_revision facts) in
      let? next := store_build migrated (x_baseline x) (x_sync x) inputs revision PKernel in
      Ok (Some (mkMigration from to unbound, next), migrated, revision)
  end.

Definition plan_load (d : Decoded) (inputs : BootInputs) : store_result LoadPlan :=
  let x := de_extracted d in
  let stored_sync := x_sync x in
  let stored_baseline := x_baseline x in
  match if is_none stored_sync
        then drops_explicit_bindings (x_layer x) (bi_identity inputs) (bi_bindings_missing inputs)
        else None with
  | Some m => refused (SBindingsRefused m)
  | None =>
      if negb (bool_decide ((bl_sha256 <$> stored_baseline) = bi_accepted_seen inputs)) then
        refused (SBaselineUnseen (hex ∘ bl_sha256 <$> stored_baseline) (hex <$> bi_accepted_seen inputs))
      else if negb (bool_decide (stored_sync = bi_sync_seen inputs)) then refused SSyncUnseen
      else
        let? (migration, layer, revision) := plan_migration (de_stored d) x (de_facts d) inputs in
        let file := fst (carry_forward (bi_identity inputs) (bi_unresolved_adversaries inputs) layer) in
        let? canonical :=
          if is_none migration then is_canonical (de_graph d) layer stored_baseline stored_sync inputs
          else Ok true in
        let stale := negb canonical in
        let identity_changed := stale || negb (bool_decide (sorted_layer layer = sorted_layer file)) in
        let baseline_changed := negb (bool_decide (stored_baseline = Some (bi_baseline inputs))) in
        if baseline_changed && bool_decide (bi_baseline_events inputs = []) then refused SBaselineUnrecorded
        else
          let sync_changed := negb (bool_decide (stored_sync = Some (bi_sync inputs))) in
          let initiator := transition_initiator (bi_sync_kind inputs) (identity_changed && negb stale)
                             baseline_changed stale in
          if identity_changed || baseline_changed || sync_changed then
            let? revision := next_revision revision in
            let? next := store_build file (Some (bi_baseline inputs)) (Some (bi_sync inputs)) inputs
                           revision initiator in
            Ok (mkLoadPlan migration
                  (Some (next, released layer file (bi_bindings_lists_nobody inputs), initiator))
                  identity_changed baseline_changed)
          else Ok (mkLoadPlan migration None identity_changed baseline_changed)
  end.

Definition run_migration (key : WrappingKey) (au : Auditor) (report : BootReport)
    (m : option (Migration * Graph)) : prog (store_result BootReport) :=
  match m with
  | None => Ret (Ok report)
  | Some (m, next) =>
      let*? _ := intent_migrate au (g_revision next) (mi_from m) (mi_to m) (mi_unbound m) in
      let*? persisted := persist key next in
      let*? _ := checkpoint au (g_revision next) (pd_digest persisted) ANCHOR_MIGRATED in
      Ret (Ok (mkReport (g_revision next) (pd_digest persisted) (br_outcome report) next None
                 (Some m) false false [] (pd_durability_error persisted)))
  end.

(** [if !list.is_empty() { audit.call(list).await? }]. *)
Definition unless_empty {A} (l : list A) (p : prog (store_result unit)) : prog (store_result unit) :=
  match l with [] => Ret (Ok tt) | _ => p end.

Definition run_transition (key : WrappingKey) (au : Auditor) (inputs : BootInputs)
    (identity_changed baseline_changed : bool) (report : BootReport)
    (t : option (Graph * list Released * ProvenanceKind)) : prog (store_result BootReport) :=
  match t with
  | None => Ret (Ok report)
  | Some (next, gone, initiator) =>
      let revision := g_revision next in
      let*? _ := unless_empty gone (audit_released au revision gone) in
      let*? _ := if baseline_changed then audit_baseline au revision (bi_baseline_events inputs)
                 else Ret (Ok tt) in
      let*? _ := unless_empty (bi_sync_events inputs) (audit_sync au revision (bi_sync_events inputs)) in
      let*? _ := intent_transition au revision (initiator_name initiator) in
      let*? persisted := persist key next in
      let*? _ := checkpoint au revision (pd_digest persisted) ANCHOR_TRANSITIONED in
      Ret (Ok (mkReport revision (pd_digest persisted) (br_outcome report) next None
                 (br_migration report) identity_changed baseline_changed gone
                 (pd_durability_error persisted)))
  end.

Definition load (key : WrappingKey) (au : Auditor) (state : AnchorState) (d : Decoded)
    (inputs : BootInputs) : prog (store_result BootReport) :=
  let facts := de_facts d in
  let*? plan := Ret (plan_load d inputs) in
  let# _ := SetFloor (sf_revision facts) in
  let*? _ := checkpoint au (sf_revision facts) (sf_digest facts) (anchor_state_str state) in
  let report := mkReport (sf_revision facts) (sf_digest facts) (Loaded state) (de_graph d) None None
                  false false [] None in
  let*? report := run_migration key au report (lp_migration plan) in
  run_transition key au inputs (lp_identity_changed plan) (lp_baseline_changed plan) report
    (lp_transition plan).

(** ** Seeding *)

Inductive Prior := PriorAbsent | PriorReadable (file : bytes) (now_unix : Z).

Definition rejected_name (file : bytes) (now_unix : Z) : string :=
  REJECTED_PREFIX +:+ dec now_unix +:+ "." +:+ hex (take 8 (sha256 file)).

Definition seed (dir : StateDir) (key : WrappingKey) (au : Auditor) (revision : Z)
    (authorized : bool) (prior : Prior) (inputs : BootInputs) : prog (store_result BootReport) :=
  if negb authorized && is_some (bi_accepted_seen inputs) then
    Ret (refused (SBaselineUnseen None (hex <$> bi_accepted_seen inputs)))
  else if bool_decide (bi_baseline_events inputs = []) then Ret (refused SBaselineUnrecorded)
  else
    let*? graph := Ret (store_build (bi_identity inputs) (Some (bi_baseline inputs))
                          (Some (bi_sync inputs)) inputs revision PSeed) in
    let*? _ := intent_seed au revision authorized in
    let*? _ := audit_baseline au revision (bi_baseline_events inputs) in
    let*? rejected :=
      match prior with
      | PriorAbsent => Ret (Ok None)
      | PriorReadable file now_unix =>
          let*? name := preserve dir (rejected_name file now_unix) file in Ret (Ok (Some name))
      end in
    let*? persisted := persist key graph in
    let*? _ :=
      if authorized then
        let# r := RemoveFile MARKER_FILE in Ret (map_err (fun e => Refused (SIo (io_text e))) r)
      else Ret (Ok tt) in
    let*? _ := checkpoint au revision (pd_digest persisted)
                 (if authorized then ANCHOR_RESEEDED else ANCHOR_SEEDED) in
    Ret (Ok (mkReport revision (pd_digest persisted) (Seeded authorized rejected) graph None None
               false false [] (pd_durability_error persisted))).

(** ** Booting *)

Definition with_marker (m : option string) (r : store_result BootReport) : store_result BootReport :=
  let? r := r in
  Ok (mkReport (br_revision r) (br_digest r) (br_outcome r) (br_graph r) m (br_migration r)
        (br_identity_transition r) (br_baseline_transition r) (br_released r) (br_durability_error r)).

(** The store as boot found it: what decoded, and what a reseed sets aside. *)
Definition found_store (key : WrappingKey) (authorized : bool) (now_unix : Z) (file : option bytes)
  : store_result (option Decoded * Prior) :=
  match file with
  | None => Ok (None, PriorAbsent)
  | Some file =>
      match decode_store file key with
      | Ok d => Ok (Some d, PriorReadable file now_unix)
      | Err Panic => Err Panic
      | Err (Refused e) =>
          if negb authorized then Err (Refused e) else Ok (None, PriorReadable file now_unix)
      end
  end.

Definition boot (dir : StateDir) (key : WrappingKey) (anchor : option Checkpoint) (au : Auditor)
    (now_unix : Z) (inputs : BootInputs) : prog (store_result BootReport) :=
  let* m := reseed_marker dir in
  let '(authorized, ignored) :=
    match m with Ok authorized => (authorized, None) | Err e => (false, Some (io_text e)) end in
  let* r := read_store dir in
  match r with
  | Err e => Ret (refused (SStoreFileRefused (io_text e)))
  | Ok file =>
      let*? (loaded, prior) := Ret (found_store key authorized now_unix file) in
      let* report :=
        match assess (de_facts <$> loaded) anchor authorized, loaded with
        | Refuse r, _ => Ret (refused (SRefused r))
        | Load state, Some d => load key au state d inputs
        | Load _, None => Ret (refused (SFormat "assessed a store that was never decoded"))
        | SeedFirstBoot, _ => seed dir key au 1 false PriorAbsent inputs
        | SeedAuthorized revision, _ => seed dir key au revision true prior inputs
        end in
      Ret (with_marker ignored report)
  end.

(** ** Committing *)

Inductive SyncRule := SFree | SUnchanged | SBaseKept.

Record Transition := mkTransition {
  t_released : list Released; t_baseline_events : list string; t_sync_events : list string;
  t_initiator : string; t_rule : SyncRule }.

Definition drops_only_edited_entries (stored proposed : SyncBase) : bool :=
  match conflicts_from_canonical f64_to_string from_str (sy_conflicts stored),
        conflicts_from_canonical f64_to_string from_str (sy_conflicts proposed),
        section_from_canonical f64_to_string from_str (sy_live stored),
        section_from_canonical f64_to_string from_str (sy_live proposed) with
  | Ok was, Ok now, Ok old, Ok new =>
      let dropped := was ∖ now in
      let changed : EntrySet := list_to_set
        (List.filter (fun e => negb (bool_decide (roles_of old e = roles_of new e)))
           (section_entries old ++ section_entries new)) in
      bool_decide (now ⊆ was) && negb (bool_decide (dropped = ∅))
        && bool_decide (dropped = changed ∩ was)
  | _, _, _, _ => false
  end.

Definition check_sync (t : Transition) (stored proposed : option SyncBase) : store_result unit :=
  match t_rule t with
  | SFree => Ok tt
  | SUnchanged => if bool_decide (proposed = stored) then Ok tt else refused SSyncBaseChanged
  | SBaseKept =>
      match t_sync_events t, stored, proposed with
      | [], _, _ => refused SSyncUnrecorded
      | _, Some s, Some p =>
          if String.eqb (sy_base s) (sy_base p) && String.eqb (sy_conflicts s) (sy_conflicts p) then Ok tt
          else if String.eqb (sy_base s) (sy_base p) && drops_only_edited_entries s p then Ok tt
          else refused SSyncBaseChanged
      | _, _, _ => refused SSyncAbsent
      end
  end.

(** The checks of [transition] against the store it read. *)
Definition check_transition (key : WrappingKey) (t : Transition) (proposed : Extracted)
    (file : option bytes) : store_result unit :=
  let? stored := try_opt (fun file => decode_store file key) file in
  let stored_baseline := (let! d := stored in x_baseline (de_extracted d)) in
  let stored_sync := (let! d := stored in x_sync (de_extracted d)) in
  let unrecorded :=
    match t_baseline_events t with
    | [] => negb (bool_decide (x_baseline proposed = stored_baseline))
    | _ => is_none (x_baseline proposed)
    end in
  if unrecorded then refused SBaselineUnrecorded
  else check_sync t stored_sync (x_sync proposed).

Definition transition (dir : StateDir) (key : WrappingKey) (next : Graph) (t : Transition)
    (au : Auditor) : prog (store_result Committed) :=
  let revision := g_revision next in
  let# store := Floor in
  if (revision <=? store)%Z then Ret (refused (SStaleRevision store revision))
  else
    let*? proposed := Ret (map_err (fun e =>
      Refused (SIdentity (identity_error_text grapheme_extended printable e))) (extract next)) in
    let* r := read_store dir in
    let*? file := Ret (map_err (fun e => Refused (SStoreFileRefused (io_text e))) r) in
    let*? _ := Ret (check_transition key t proposed file) in
    let*? _ := unless_empty (t_released t) (audit_released au revision (t_released t)) in
    let*? _ := unless_empty (t_baseline_events t) (audit_baseline au revision (t_baseline_events t)) in
    let*? _ := unless_empty (t_sync_events t) (audit_sync au revision (t_sync_events t)) in
    let*? _ := intent_transition au revision (t_initiator t) in
    let*? persisted := persist key next in
    let* c := checkpoint au revision (pd_digest persisted) ANCHOR_TRANSITIONED in
    Ret match c with
        | Err Panic => Err Panic
        | Ok _ => Ok (mkCommitted revision (pd_digest persisted) (pd_durability_error persisted) None)
        | Err (Refused e) =>
            Ok (mkCommitted revision (pd_digest persisted) (pd_durability_error persisted)
                  (Some (store_error_text e)))
        end.

Definition commit (dir : StateDir) (key : WrappingKey) (next : Graph) (gone : list Released)
    (sync_events : list string) (au : Auditor) (initiator : string) : prog (store_result Committed) :=
  transition dir key next (mkTransition gone [] sync_events initiator SFree) au.

Definition commit_accept (dir : StateDir) (key : WrappingKey) (next : Graph) (events : list string)
    (au : Auditor) : prog (store_result Committed) :=
  transition dir key next (mkTransition [] events [] INITIATOR_OPERATOR SUnchanged) au.

Definition commit_live (dir : StateDir) (key : WrappingKey) (next : Graph) (gone : list Released)
    (events : list string) (au : Auditor) (initiator : LiveInitiator)
  : prog (store_result Committed) :=
  transition dir key next
    (mkTransition gone [] events (initiator_name (live_provenance initiator)) SBaseKept) au.
End Store.
