(* ===== verification/StoreWorld.v ===== *)
(** * The state directory and the trail under the store's programs

    What each effect of [Store] does to the directory and to the audit trail,
    whatever it answers: an append that reports failure may have landed, a publish
    that reports a failed directory sync has renamed. A run stopped anywhere is a
    crash. [anchored] is what keeps the next boot from refusing the store as rolled
    back, substituted or missing; the lemmas here carry it through the store's
    programs. *)
From stdpp Require Import base list strings gmap.
From Stdlib Require Import ZArith Lia Ascii.
From S2P Require Import Prelude Programs RustStr RustSlice Json Config Decide Graph GraphFormat Identity.
From S2P Require Import Bindings BindingsSync PolicySource Texts SyncText Envelope Anchor Store.
Open Scope nat_scope.

(** ** Worlds *)

(** The store file, the reseed marker, the trail, and the process's floor. *)
Record world := mkWorld {
  w_store : option bytes; w_marker : bool; w_trail : list GraphRecord; w_floor : Z }.

Definition appended (w : world) (r : GraphRecord) : world :=
  mkWorld (w_store w) (w_marker w) (w_trail w ++ [r]) (w_floor w).
Definition stored (w : world) (f : bytes) : world :=
  mkWorld (Some f) (w_marker w) (w_trail w) (w_floor w).
Definition floored (w : world) (r : Z) : world := mkWorld (w_store w) (w_marker w) (w_trail w) r.
Definition unmarked (w : world) : world := mkWorld (w_store w) false (w_trail w) (w_floor w).

Definition acts (w : world) (ev : event store_effect) (w' : world) : Prop :=
  match ev_effect ev in store_effect X return X -> Prop with
  | OpenAnchor _ => fun _ => w' = w
  | TryLock => fun _ => w' = w
  | ReadFile name _ => fun r =>
      w' = w /\
      (name = STORE_FILE ->
       match r with
       | Ok f => w_store w = Some f
       | Err (IoNotFound _) => w_store w = None
       | Err _ => True
       end) /\
      (name = MARKER_FILE -> match r with Ok _ => w_marker w = true | Err _ => True end)
  | PublishFile name file _ => fun r =>
      if String.eqb name STORE_FILE then
        match r with
        | Ok _ | Err (PublishedNotDurable _) => w' = stored w file
        | Err _ => w' = w
        end
      else w' = w
  | RemoveFile name => fun r =>
      if String.eqb name STORE_FILE then
        match r with Ok _ => w' = mkWorld None (w_marker w) (w_trail w) (w_floor w) | Err _ => w' = w end
      else if String.eqb name MARKER_FILE then
        match r with Ok _ => w' = unmarked w | Err _ => w' = w \/ w' = unmarked w end
      else w' = w
  | Floor => fun r => w' = w /\ r = w_floor w
  | SetFloor r => fun _ => w' = floored w r
  | DrawEntropy => fun draw => w' = w /\ entropy_ok draw
  | Append rec => fun r =>
      match r with Ok _ => w' = appended w rec | Err _ => w' = w \/ w' = appended w rec end
  | SendDrain _ => fun _ => w' = w
  end (ev_answer ev).

(** A directory and a trail that do what is asked. *)
Definition zeroes (n : nat) : bytes := repeat Ascii.zero n.
Definition respond (X : Type) (w : world) (e : store_effect X) : X * world :=
  match e in store_effect X return X * world with
  | OpenAnchor _ => (Ok tt, w)
  | TryLock => (Ok tt, w)
  | ReadFile name _ =>
      if String.eqb name STORE_FILE then
        (match w_store w with Some f => Ok f | None => Err (IoNotFound "") end, w)
      else if String.eqb name MARKER_FILE && w_marker w then (Ok [], w)
      else (Err (IoNotFound ""), w)
  | PublishFile name file _ =>
      (Ok tt, if String.eqb name STORE_FILE then stored w file else w)
  | RemoveFile name =>
      if String.eqb name STORE_FILE then (Err (IoOther ""), w)
      else (Ok tt, if String.eqb name MARKER_FILE then unmarked w else w)
  | Floor => (w_floor w, w)
  | SetFloor r => (tt, floored w r)
  | DrawEntropy => (mkEntropy (Some (zeroes 32)) (zeroes 12) (zeroes 12), w)
  | Append rec => (Ok tt, appended w rec)
  | SendDrain _ => (tt, w)
  end.

Lemma zeroes_ok : entropy_ok (mkEntropy (Some (zeroes 32)) (zeroes 12) (zeroes 12)).
Proof. constructor; [by intros ? [= <-]|done..]. Qed.

Lemma respond_acts X w (e : store_effect X) x w' : respond X w e = (x, w') -> acts w (Ev _ e x) w'.
Proof.
  destruct e; cbn; intros H;
    repeat match type of H with context [if ?b then _ else _] => destruct b eqn:? end;
    injection H as <- <-; try done.
  - apply String.eqb_eq in Heqb. subst name. split_and!; [done| |done]. intros _. by destruct (w_store w).
  - apply String.eqb_neq in Heqb. apply andb_true_iff in Heqb0 as [_ Hm]. by split_and!.
  - apply String.eqb_neq in Heqb. by split_and!.
  - split; [done|apply zeroes_ok].
Qed.

(** What a reader of the trail finds of a record: the members of its line that
    [parse_checkpoint] looks at. *)
Definition graph_json (g : GraphAudit) : Json :=
  JObj [("revision", JPos (ga_revision g)); ("ciphertext_sha256", JStr (ga_ciphertext_sha256 g));
        ("anchor", JStr (ga_anchor g)); ("scanned_bytes", JPos (ga_scanned_bytes g))].
Definition record_json (r : GraphRecord) : Json :=
  JObj (("action", JStr (gr_action r)) :: ("result", JStr (gr_result r)) :: ("reason", JStr (gr_reason r))
        :: ("posture", JStr (gr_posture r))
        :: match gr_graph r with Some g => [("graph", graph_json g)] | None => [] end).
Definition record_checkpoint (r : GraphRecord) : option Checkpoint := checkpoint_of (record_json r).

(** The scan backwards from the end of the trail. *)
Definition last_checkpoint (trail : list GraphRecord) : option Checkpoint :=
  find_map record_checkpoint (rev trail).

Lemma last_checkpoint_snoc trail r :
  last_checkpoint (trail ++ [r]) =
    match record_checkpoint r with Some c => Some c | None => last_checkpoint trail end.
Proof. unfold last_checkpoint. by rewrite rev_app_distr. Qed.

(** A record that is not a checkpoint by its action. *)
Lemma not_checkpoint r : gr_action r <> CHECKPOINT_ACTION -> record_checkpoint r = None.
Proof.
  intros H. unfold record_checkpoint, record_json, checkpoint_of. cbn -[String.eqb json_get].
  change (json_get _ "action") with (Some (JStr (gr_action r))). cbn [json_as_str].
  by rewrite (proj2 (String.eqb_neq _ _) H).
Qed.

Lemma unhex_hex_pairs d : length d = 32 ->
  (String.length (hex d) =? 64) = true /\ all_bytes is_hex (hex d) = true /\ unhex_pairs (hex d) = d.
Proof. destruct (hex_back d) as (Hl & Ha & Hu). intros H. rewrite Hl, H. auto. Qed.

(** What a checkpoint record says is read back. *)
Lemma checkpoint_read_back au revision d anchor : length d = 32 ->
  record_checkpoint (checkpoint_record au revision d anchor) = Some (mkCheckpoint revision d).
Proof.
  intros Hd. destruct (unhex_hex_pairs d Hd) as (Hl & Ha & Hu).
  unfold record_checkpoint, checkpoint_of, checkpoint_record.
  cbn -[hex String.length all_bytes unhex_pairs Nat.eqb]. by rewrite Hl, Ha, Hu.
Qed.

(** ** The revision in a file *)

Lemma header_revision g r : slice 20 28 (header g ++ r) = u64 (g_revision g).
Proof.
  unfold header. destruct (space_parts (g_space g)) as [tag subject].
  set (a := MAGIC ++ u16 FORMAT_VERSION ++ u16 (g_schema_version g) ++ u8 tag ++ u8 0 ++ u16 0 ++ u64 subject).
  set (c := (u32n SECTION_COUNT ++ u64 0) ++ r).
  assert (length a = 20) as Ha.
  { unfold a, u8, u16, u64. by rewrite !length_app, !le_bytes_length. }
  replace (_ ++ r) with (a ++ u64 (g_revision g) ++ c) by (unfold a, c; by rewrite <-!app_assoc).
  replace 28 with (length a + length (u64 (g_revision g))) by (unfold u64; by rewrite Ha, le_bytes_length).
  rewrite <-Ha at 1. apply slice_at.
Qed.

Lemma encode_revision {E F} g g' all :
  fits 8 (g_revision g) -> fits 8 (g_revision g') ->
  @encode E g = Ok all -> @encode F g' = Ok all -> g_revision g = g_revision g'.
Proof.
  intros Hf Hf' H H'. assert (forall g E, @encode E g = Ok all -> exists r, all = header g ++ r) as Hh.
  { intros g0 E0 (?&?&?&?&?&?&?&?&?&?&?&?&?&?&?&?&Hall)%encode_inv. eexists. exact Hall. }
  destruct (Hh _ _ H) as [r ->]. destruct (Hh _ _ H') as [r' Hr].
  assert (u64 (g_revision g) = u64 (g_revision g')) as Hu.
  { rewrite <-(header_revision g r), Hr. apply header_revision. }
  rewrite <-(from_le_bytes 8 _ Hf), <-(from_le_bytes 8 _ Hf'). by f_equal.
Qed.

Lemma from_le_fits l : fits (length l) (from_le l).
Proof.
  unfold fits. induction l as [|b l IH]; [simpl; lia|].
  assert (0 <= byte_val b < 256)%Z as Hb.
  { unfold byte_val. pose proof (nat_ascii_bounded b). lia. }
  cbn [from_le foldr length]. change (foldr _ _ l) with (from_le l).
  rewrite Nat2Z.inj_succ, Z.pow_succ_r by lia. nia.
Qed.

Lemma read_le_fits k r v r' : read_le k r = Ok (v, r') -> fits k v.
Proof.
  unfold read_le, take_n. destruct (k <=? length r) eqn:Hl; [|done]. intros [= <- <-].
  apply Nat.leb_le in Hl. rewrite <-(firstn_length_le r Hl) at 1. apply from_le_fits.
Qed.

(** Case through every [match] of a hypothesis that something came out. *)
Ltac split_cases H :=
  repeat match type of H with context [match ?x with _ => _ end] =>
    let E := fresh "E" in destruct x eqn:E; try discriminate H end.

Lemma parse_revision all space schema b : parse all space schema = Ok b -> fits 8 (b_revision b).
Proof.
  unfold parse. destruct (read_header all space schema) as [[[sp rev] r]|] eqn:Eh; [|done].
  intros H. assert (b_revision b = rev) as ->.
  { destruct (read_sections _ _ _ _) as [[ss next]|]; [|done]. destruct (negb _); [done|].
    unfold parse_sections in H.
    split_cases H. by simplify_eq. }
  unfold read_header in Eh. split_cases Eh. simplify_eq.
  match goal with E : r_u64 _ = Ok (rev, _) |- _ => exact (read_le_fits _ _ _ _ E) end.
Qed.

(** Bytes a store decoded from are its graph's encoding, at its revision. *)
Lemma decode_stored_inv all space schema g cs :
  decode_stored_compiled all space schema = Ok (g, cs) ->
  @encode GraphError g = Ok all /\ fits 8 (g_revision g).
Proof.
  unfold decode_stored_compiled. destruct (parse all space schema) as [b|] eqn:Ep; [|done].
  cbn [map_err]. unfold rebuild_canonical, build_encoded. intros H.
  destruct (assemble b schema _) as [g'|] eqn:Ea; [|done].
  destruct (encode g') as [all'|] eqn:Ee; [|done].
  destruct (negb (within_expansion_limit _ _)); [done|]. cbn [map_err] in H.
  case_bool_decide; [|done]. cbn [negb] in H. simplify_eq. split; [done|].
  apply assemble_inv in Ea as (_ & _ & _ & _ & ->). by eapply parse_revision.
Qed.

(** ** The anchor *)

Section Anchored.
Context (aead : Aead) {L : AeadLaws aead} (sha256 : bytes -> digest).
Context (Hsha : forall b, length (sha256 b) = 32).
Context (grapheme_extended printable : Z -> bool).
Context (f64_to_string : Z -> string) (from_str : string -> result Json string).
Context (key : WrappingKey).

Local Notation decode_store f := (Store.decode_store aead sha256 grapheme_extended printable f key).
Local Notation persist := (Store.persist aead sha256 key).

(** The store, when it decodes, stands to the last checkpoint, and there is one
    when there is a checkpoint. *)
Definition holds_up (f : bytes) (c : Checkpoint) : Prop :=
  forall d, decode_store f = Ok d -> stands_to (de_facts d) c.

Definition anchored (w : world) : Prop :=
  forall c, last_checkpoint (w_trail w) = Some c -> exists f, w_store w = Some f /\ holds_up f c.

(** The store in place has this revision and this digest. *)
Definition at_rest (w : world) (r : Z) (d : digest) : Prop :=
  exists f, w_store w = Some f /\ sha256 f = d /\
    forall x, decode_store f = Ok x -> de_facts x = mkFacts r d.

(** The last checkpoint is one this revision and digest stand to. *)
Definition led (w : world) (r : Z) (d : digest) : Prop :=
  forall c, last_checkpoint (w_trail w) = Some c -> stands_to (mkFacts r d) c.

(** The last checkpoint is behind this revision. *)
Definition behind (w : world) (r : Z) : Prop :=
  forall c, last_checkpoint (w_trail w) = Some c -> (ck_revision c < r)%Z.

(** Nothing the anchor depends on has changed. *)
Definition same (w0 w : world) : Prop :=
  w_store w = w_store w0 /\ w_floor w = w_floor w0 /\
  last_checkpoint (w_trail w) = last_checkpoint (w_trail w0).

Lemma same_refl w : same w w.
Proof. done. Qed.
Lemma same_trans a b c : same a b -> same b c -> same a c.
Proof. unfold same. intuition congruence. Qed.
Lemma same_anchored a b : same a b -> anchored a -> anchored b.
Proof. intros (Hs & _ & Hc) H c. rewrite Hc, Hs. apply H. Qed.
Lemma same_behind a b r : same a b -> behind a r -> behind b r.
Proof. intros (_ & _ & Hc) H c. rewrite Hc. apply H. Qed.
Lemma same_at_rest a b r d : same a b -> at_rest a r d -> at_rest b r d.
Proof. intros (Hs & _ & _). unfold at_rest. by rewrite Hs. Qed.
Lemma at_rest_anchored w r d : at_rest w r d -> led w r d -> anchored w.
Proof.
  intros (f & Hf & _ & Hx) Hl c Hc. exists f. split; [done|]. intros x Hd.
  rewrite (Hx _ Hd). by apply Hl.
Qed.
Lemma behind_led w r d : behind w r -> led w r d.
Proof. intros H c Hc. specialize (H c Hc). split; simpl; lia. Qed.

(** *** Appends that are no checkpoint *)

Lemma appended_same w r : record_checkpoint r = None -> same w (appended w r).
Proof. intros H. split_and!; simpl; [done..|]. by rewrite last_checkpoint_snoc, H. Qed.

Lemma write_ahead_same w0 w rec : record_checkpoint rec = None -> same w0 w ->
  keeps acts (same w0) (write_ahead rec) (fun _ => same w0) w.
Proof.
  intros Hr Hw. pose proof (same_trans _ _ _ Hw (appended_same w rec Hr)) as Ha.
  intros [[]|e] w' Hs; cbn in Hs; [subst|destruct Hs as [->| ->]]; by split.
Qed.

Lemma write_each_same w0 recs : forall w, Forall (fun r => record_checkpoint r = None) recs ->
  same w0 w -> keeps acts (same w0) (write_each recs) (fun _ => same w0) w.
Proof.
  induction recs as [|r recs IH]; intros w H Hw; [done|]. inversion H; subst. cbn [write_each].
  apply keeps_try. eapply keeps_mono; [done| |by apply write_ahead_same].
  intros [[]|e] w' Hw'; [by apply IH|done].
Qed.

Lemma intent_not_checkpoint au action reason revision anchor :
  action <> CHECKPOINT_ACTION -> record_checkpoint (intent au action reason revision anchor) = None.
Proof. intros H. by apply not_checkpoint. Qed.

Lemma audited_same w0 w {A} (record : A -> GraphRecord) l :
  (forall a, record_checkpoint (record a) = None) -> same w0 w ->
  keeps acts (same w0) (write_each (map record l)) (fun _ => same w0) w.
Proof. intros H. apply write_each_same. apply Forall_forall. intros r (a & -> & _)%elem_of_map. done. Qed.

Lemma audited_unless_same w0 w {A} (record : A -> GraphRecord) l :
  (forall a, record_checkpoint (record a) = None) -> same w0 w ->
  keeps acts (same w0) (unless_empty l (write_each (map record l))) (fun _ => same w0) w.
Proof. intros H Hw. destruct l; [done|]. by apply audited_same. Qed.

Lemma intent_transition_same w0 w au revision initiator : same w0 w ->
  keeps acts (same w0) (intent_transition au revision initiator) (fun _ => same w0) w.
Proof.
  intros Hw. apply keeps_try. eapply keeps_mono; [done| |apply write_ahead_same; [|done]].
  - intros [[]|e] w' Hw'; [|done]. destruct (au_drain au); [|done].
    intros x w'' Hs. cbn in Hs. by subst.
  - by apply intent_not_checkpoint.
Qed.

Lemma preserve_same w0 w dir name file : name <> STORE_FILE -> same w0 w ->
  keeps acts (same w0) (preserve dir name file) (fun _ => same w0) w.
Proof.
  intros Hn Hw r w' [-> _]. split; [done|].
  destruct r as [existing|[]]; simpl; [done|..|done|done|done].
  intros x w'' Hs. cbn in Hs. rewrite (proj2 (String.eqb_neq _ _) Hn) in Hs. subst. by destruct x.
Qed.

(** *** Persisting *)

Lemma sealed_facts g plain draw file x :
  fits 8 (g_revision g) -> entropy_ok draw ->
  @encode GraphError g = Ok plain -> seal aead draw plain key = Ok file ->
  decode_store file = Ok x -> de_facts x = mkFacts (g_revision g) (sha256 file).
Proof.
  intros Hf Hd He Hs H. unfold Store.decode_store in H.
  rewrite (open_seal aead draw plain key file Hd Hs) in H. cbn [map_err] in H.
  destruct (decode_stored_compiled plain KernelSpace SCHEMA) as [[g' cs]|] eqn:Eg; [|done].
  cbn [map_err] in H. destruct (extract g'); [|done]. cbn [map_err] in H. apply Ok_inj in H as <-.
  apply decode_stored_inv in Eg as [He' Hf']. simpl. f_equal. symmetry. by eapply encode_revision.
Qed.

Lemma persist_keeps g w : fits 8 (g_revision g) -> anchored w -> behind w (g_revision g) ->
  keeps acts anchored (persist g)
    (fun res w' => match res with
     | Ok p => at_rest w' (g_revision g) (pd_digest p) /\ w_floor w' = g_revision g /\
               last_checkpoint (w_trail w') = last_checkpoint (w_trail w)
     | Err _ => same w w'
     end) w.
Proof.
  intros Hf Ha Hb floor w1 H1. cbn in H1. destruct H1 as [-> ->]. split; [done|]. cbn zeta beta.
  destruct (g_revision g <=? w_floor w)%Z; [apply same_refl|]. cbn [Programs.bind].
  intros m w2 Hm. cbn in Hm. subst w2. split; [done|]. destruct m as [[]|e]; [|apply same_refl].
  intros draw w3 H3. cbn in H3. destruct H3 as [-> Hdraw]. split; [done|].
  unfold encoded. destruct (encode g) as [plain|e] eqn:Ee; [|apply same_refl].
  cbn [map_err Programs.try_bind Programs.bind].
  destruct (seal aead draw plain key) as [file|e] eqn:Es; [|apply same_refl].
  cbn [Programs.try_bind Programs.bind map_err]. unfold publish. cbn [Programs.bind].
  assert (at_rest (stored w file) (g_revision g) (sha256 file)) as Hr.
  { exists file. split_and!; [done..|]. intros x Hx. by eapply sealed_facts. }
  assert (anchored (stored w file)) as Hs.
  { eapply at_rest_anchored; [done|]. by apply behind_led. }
  intros p w4 Hp. cbn in Hp.
  destruct p as [[]|[]]; subst w4;
    first [by (split; [done|apply same_refl])
          | split; [done|]; intros [] w5 H5; cbn in H5; subst w5; by split_and!].
Qed.

(** The store in place and the floor are at this revision, and no checkpoint is
    ahead of them. *)
Definition resting (w : world) (r : Z) (d : digest) : Prop :=
  at_rest w r d /\ led w r d /\ w_floor w = r.

(** And the last checkpoint is of this very store. *)
Definition settled (w : world) (r : Z) (d : digest) : Prop :=
  resting w r d /\ last_checkpoint (w_trail w) = Some (mkCheckpoint r d).

(** Where a commit may start: no checkpoint is ahead of the floor. *)
Definition ready (w : world) : Prop :=
  anchored w /\ forall c, last_checkpoint (w_trail w) = Some c -> (ck_revision c <= w_floor w)%Z.

Lemma resting_anchored w r d : resting w r d -> anchored w.
Proof. intros (Hr & Hl & _). by eapply at_rest_anchored. Qed.
Lemma resting_ready w r d : resting w r d -> ready w.
Proof.
  intros H. split; [by eapply resting_anchored|]. destruct H as (_ & Hl & ->). intros c Hc.
  by destruct (Hl c Hc).
Qed.
Lemma resting_behind w r d r' : resting w r d -> (r < r')%Z -> behind w r'.
Proof. intros (_ & Hl & _) Hr c Hc. destruct (Hl c Hc) as [H _]. simpl in H. lia. Qed.
Lemma resting_same w w' r d : same w w' -> resting w r d -> resting w' r d.
Proof.
  intros Hs (Hr & Hl & Hf). split_and!; [by eapply same_at_rest| |].
  - destruct Hs as (_ & _ & Hc). intros c. rewrite Hc. apply Hl.
  - destruct Hs as (_ & -> & _). done.
Qed.

Lemma checkpoint_appended au r d anchor w :
  resting w r d -> settled (appended w (checkpoint_record au r d anchor)) r d.
Proof.
  intros ((f & Hf & Hd & Hx) & _ & Hfl).
  assert (last_checkpoint (w_trail (appended w (checkpoint_record au r d anchor)))
          = Some (mkCheckpoint r d)) as Hc.
  { simpl. rewrite last_checkpoint_snoc, checkpoint_read_back; [done|]. by subst d. }
  split; [|done]. split_and!; [by exists f| |done]. intros c Hc'. rewrite Hc in Hc'. simplify_eq.
  by split; simpl.
Qed.

Lemma checkpoint_keeps au r d anchor w : resting w r d ->
  keeps acts anchored (checkpoint au r d anchor)
    (fun res w' => match res with Ok _ => settled w' r d | Err _ => resting w' r d end) w.
Proof.
  intros H. pose proof (checkpoint_appended au r d anchor w H) as Ha.
  pose proof (resting_anchored _ _ _ H) as Hw. pose proof (resting_anchored _ _ _ (proj1 Ha)) as Hw'.
  assert (keeps acts anchored (write_ahead (checkpoint_record au r d anchor))
    (fun res w' => match res with Ok _ => settled w' r d | Err _ => resting w' r d end) w) as Hk.
  { intros [[]|e] w' Hs; cbn in Hs; [subst; by split|].
    destruct Hs as [->| ->]; (split; [done|]); [done|apply Ha]. }
  unfold checkpoint. destruct (au_drain au); [|done]. intros x w' Hs. cbn in Hs. by subst.
Qed.

(** A program that only writes records ahead. *)
Definition records_only (p : Programs.prog store_effect (store_result unit)) : Prop :=
  forall w0 w, same w0 w -> keeps acts (same w0) p (fun _ => same w0) w.

(** Steps from a world [w0] whose anchor nothing has changed yet. *)
Lemma records_then {A} w0 (p : Programs.prog store_effect (store_result unit))
    (q : Programs.prog store_effect (store_result A)) Q w :
  records_only p -> anchored w0 -> same w0 w ->
  (forall e w', same w0 w' -> Q (Err e) w') ->
  (forall w', same w0 w' -> keeps acts anchored q Q w') ->
  keeps acts anchored (let*? _ := p in q) Q w.
Proof.
  intros Hp Ha Hw HQ Hq. apply keeps_try.
  eapply keeps_mono; [|intros r w' H'; exact H'|].
  { intros w' Hs. exact (same_anchored w0 w' Hs Ha). }
  eapply keeps_mono; [done| |exact (Hp w0 w Hw)].
  intros [[]|e] w' Hs; cbn; [by apply Hq|by apply HQ].
Qed.

Lemma records_ret : records_only (Ret (Ok tt)).
Proof. by intros w0 w. Qed.

(** Persist and then go on from the store at rest. *)
Lemma persist_then {A} w0 g (q : Persisted -> Programs.prog store_effect (store_result A)) Q w :
  fits 8 (g_revision g) -> anchored w0 -> behind w0 (g_revision g) -> same w0 w ->
  (forall e w', same w0 w' -> Q (Err e) w') ->
  (forall p w', resting w' (g_revision g) (pd_digest p) -> keeps acts anchored (q p) Q w') ->
  keeps acts anchored (let*? p := persist g in q p) Q w.
Proof.
  intros Hf Ha Hb Hw HQ Hq. apply keeps_try.
  eapply keeps_mono; [done| |apply persist_keeps; [done|by eapply same_anchored|by eapply same_behind]].
  intros [p|e] w' H; [|apply HQ; by eapply same_trans]. destruct H as (Hr & Hfl & Hc).
  apply Hq. split_and!; [done| |done]. apply behind_led. intros c. rewrite Hc.
  destruct Hw as (_ & _ & ->). apply Hb.
Qed.

(** Checkpoint and then return. *)
Lemma checkpoint_then {A} au r d anchor (a : A) Q w :
  resting w r d -> (forall w', settled w' r d -> Q (Ok a) w') ->
  (forall e w', resting w' r d -> Q (Err e) w') ->
  keeps acts anchored (let*? _ := checkpoint au r d anchor in Ret (Ok a)) Q w.
Proof.
  intros Hr Ha HQ. apply keeps_try. eapply keeps_mono; [done| |by apply checkpoint_keeps].
  intros [[]|e] w' H; [by apply Ha|by apply HQ].
Qed.

(** *** Revisions *)

Lemma fits_u64 v : (0 <= v < u64_max)%Z -> fits 8 v.
Proof. unfold fits, u64_max. change (256 ^ Z.of_nat 8)%Z with (2 ^ 64)%Z. done. Qed.

Lemma store_build_revision layer bl sy inputs r i g :
  store_build grapheme_extended printable layer bl sy inputs r i = Ok g -> g_revision g = r.
Proof. intros H%map_err_Ok. by apply build_revision in H. Qed.

Lemma next_revision_Ok r r' : next_revision r = Ok r' -> r' = (r + 1)%Z /\ (r' < u64_max)%Z.
Proof.
  unfold next_revision, checked_succ. destruct (Z.ltb_spec (r + 1) u64_max); [|done].
  cbn. intros [= <-]. done.
Qed.

(** The graphs of a load follow one another in revision. *)
Definition follows (r : Z) (g : Graph) : Prop := g_revision g = (r + 1)%Z /\ (r + 1 < u64_max)%Z.

Lemma plan_migration_follows cs x facts inputs m layer r :
  plan_migration sha256 grapheme_extended printable cs x facts inputs = Ok (m, layer, r) ->
  match m with
  | Some (_, g) => follows (sf_revision facts) g /\ r = g_revision g
  | None => r = sf_revision facts
  end.
Proof.
  unfold plan_migration. intros H. destruct (never (vocabulary_assess _ _ _ _)) as [a|]; [|done].
  destruct a as [|from|why]; [by simplify_eq| |done].
  destruct (migrated_layer _ _ _) as [migrated unbound]. cbn zeta in H.
  destruct (next_revision _) as [r'|] eqn:Er; [|done].
  destruct (store_build _ _ _ _ _ _ _ _) as [g|] eqn:Eg; [|done]. simplify_eq.
  apply store_build_revision in Eg. apply next_revision_Ok in Er as [-> Hr]. by rewrite Eg.
Qed.

Lemma plan_load_follows d inputs plan :
  plan_load sha256 grapheme_extended printable d inputs = Ok plan ->
  let r := sf_revision (de_facts d) in
  match lp_migration plan with
  | Some (_, g) => follows r g /\ forall t gone i, lp_transition plan = Some (t, gone, i) -> follows (r + 1) t
  | None => forall t gone i, lp_transition plan = Some (t, gone, i) -> follows r t
  end.
Proof.
  unfold plan_load. intros H. cbn zeta in *. case_hyp H as E0; [done|]. case_hyp H as E1; [done|].
  case_hyp H as E2; [done|].
  destruct (plan_migration _ _ _ _ _ _ _) as [[[m layer] r]|] eqn:Em; [|done].
  apply plan_migration_follows in Em.
  match type of H with context [match ?c with Ok _ => _ | Err _ => _ end] => destruct c as [canonical|] end; [|done].
  case_hyp H as E3; [done|].
  assert (lp_migration plan = m /\ forall t gone i, lp_transition plan = Some (t, gone, i) -> follows r t) as [-> Ht].
  { case_hyp H as E4; [|by simplify_eq].
    destruct (next_revision r) as [r'|] eqn:Er; [|done].
    destruct (store_build _ _ _ _ _ _ _ _) as [t|] eqn:Et; [|done]. simplify_eq. split; [done|].
    intros ? ? ? [= <- <- <-]. apply store_build_revision in Et. apply next_revision_Ok in Er as [-> Hr].
    by split. }
  destruct m as [[mi g]|]; [|by subst r]. destruct Em as [Hg ->]. split; [done|].
  intros t gone i H'. destruct Hg as [Hg _]. rewrite Hg in Ht. by eapply Ht.
Qed.

Lemma decoded_facts f d : decode_store f = Ok d ->
  sf_digest (de_facts d) = sha256 f /\ (0 <= sf_revision (de_facts d) < u64_max)%Z.
Proof.
  unfold Store.decode_store. destruct (open aead f key) as [plain|]; [|done]. cbn [map_err].
  destruct (decode_stored_compiled plain KernelSpace SCHEMA) as [[g cs]|] eqn:Eg; [|done].
  cbn [map_err]. destruct (extract g); [|done]. cbn [map_err]. intros H. apply Ok_inj in H as <-.
  apply decode_stored_inv in Eg as [_ Hf]. split; [done|]. exact Hf.
Qed.

(** ** Boot *)

(** How a boot or one of its parts ends: settled on what it reports, or anchored. *)
Definition booted (res : store_result BootReport) (w : world) : Prop :=
  match res with Ok rep => settled w (br_revision rep) (br_digest rep) | Err _ => anchored w end.

Lemma run_migration_keeps au report m w :
  settled w (br_revision report) (br_digest report) -> (0 <= br_revision report)%Z ->
  (forall mi g, m = Some (mi, g) -> follows (br_revision report) g) ->
  keeps acts anchored (run_migration aead sha256 key au report m)
    (fun res w' => booted res w' /\ forall rep, res = Ok rep ->
       br_revision rep = match m with Some _ => br_revision report + 1 | None => br_revision report end)%Z w.
Proof.
  intros Hw H0 Hm. destruct m as [[mi g]|]; [|split; [done|by intros ? [= <-]]].
  destruct (Hm mi g eq_refl) as [Hr Hlt]. pose proof (resting_anchored _ _ _ (proj1 Hw)) as Ha.
  cbn [run_migration].
  assert (forall e w', same w w' -> booted (Err e) w' /\
    forall rep, Err e = Ok rep -> br_revision rep = (br_revision report + 1)%Z) as HE.
  { intros e w' Hs. split; [by eapply same_anchored|done]. }
  apply (records_then w); [|done|done|done|].
  { intros w0 w1 Hs. apply write_ahead_same; [|done]. by apply intent_not_checkpoint. }
  intros w1 Hs1. apply (persist_then w); [|done|by eapply resting_behind; [apply Hw|lia]|done|done|].
  { apply fits_u64. lia. }
  intros p w2 Hr2. apply checkpoint_then; [done| |].
  - intros w3 Hw3. split; [done|]. intros rep [= <-]. done.
  - intros e w3 Hw3. split; [by eapply resting_anchored|done].
Qed.

Lemma run_transition_keeps au inputs ic bc report t w :
  settled w (br_revision report) (br_digest report) -> (0 <= br_revision report)%Z ->
  (forall g gone i, t = Some (g, gone, i) -> follows (br_revision report) g) ->
  keeps acts anchored (run_transition aead sha256 key au inputs ic bc report t) booted w.
Proof.
  intros Hw H0 Ht. destruct t as [[[g gone] i]|]; [|done]. destruct (Ht g gone i eq_refl) as [Hr Hlt].
  pose proof (resting_anchored _ _ _ (proj1 Hw)) as Ha. cbn [run_transition].
  assert (forall e w1, same w w1 -> booted (Err e) w1) as HE.
  { intros e w1 Hs. by eapply same_anchored. }
  apply (records_then w); [|done..|].
  { intros w0 w1. apply audited_unless_same. intros r. by apply intent_not_checkpoint. }
  intros w1 Hs1. apply (records_then w); [|done..|].
  { destruct bc; [|apply records_ret]. intros w0 w2. apply audited_same. intros r. by apply intent_not_checkpoint. }
  intros w2 Hs2. apply (records_then w); [|done..|].
  { intros w0 w3. apply audited_unless_same. intros r. by apply intent_not_checkpoint. }
  intros w3 Hs3. apply (records_then w); [|done..|].
  { intros w0 w4. apply intent_transition_same. }
  intros w4 Hs4. apply (persist_then w); [|done|by eapply resting_behind; [apply Hw|lia]|done|done|].
  { apply fits_u64. lia. }
  intros p w5 Hr5. apply checkpoint_then; [done|done|]. intros e w6. apply resting_anchored.
Qed.

Lemma load_keeps au state f d inputs w :
  anchored w -> w_store w = Some f -> decode_store f = Ok d ->
  keeps acts anchored (load aead sha256 grapheme_extended printable key au state d inputs) booted w.
Proof.
  intros Ha Hf Hd. unfold load. destruct (decoded_facts f d Hd) as [Hdig Hrev].
  destruct (plan_load _ _ _ d inputs) as [plan|e] eqn:Ep; [|done].
  apply plan_load_follows in Ep. cbn [Programs.try_bind Programs.bind]. cbn zeta in Ep.
  set (r := sf_revision (de_facts d)) in *. set (dg := sf_digest (de_facts d)) in *.
  intros [] w1 H1. cbn in H1. subst w1.
  assert (resting (floored w r) r dg) as Hr.
  { split_and!; [| |done].
    - exists f. split_and!; [done..|]. intros x Hx. assert (x = d) as -> by congruence.
      unfold r, dg. by destruct (de_facts d).
    - intros c Hc. destruct (Ha c Hc) as (f' & Hf' & Hh). assert (f' = f) as -> by congruence.
      specialize (Hh d Hd). unfold r, dg. by destruct (de_facts d). }
  split; [by eapply resting_anchored|]. apply keeps_try.
  eapply keeps_mono; [done| |by apply checkpoint_keeps].
  intros [[]|e] w2 H2; [|by eapply resting_anchored]. apply keeps_try.
  eapply keeps_mono; [done| |apply (run_migration_keeps au (mkReport r dg (Loaded state) (de_graph d) None None
                  false false [] None)); simpl; [done|lia|]].
  2:{ intros mi g Hm. rewrite Hm in Ep. apply Ep. }
  intros [rep|e] w3 [H3 Hrep]; [|done]. specialize (Hrep rep eq_refl). simpl in Hrep.
  apply run_transition_keeps; [done| |].
  - destruct (lp_migration plan); lia.
  - intros g gone i Ht. rewrite Hrep. destruct (lp_migration plan) as [[mi gm]|]; [destruct Ep as [_ Ep]|]; eauto.
Qed.

Lemma rejected_name_other file now : rejected_name sha256 file now <> STORE_FILE.
Proof. unfold rejected_name. done. Qed.

Lemma seed_keeps dir au revision authorized prior inputs w :
  anchored w -> behind w revision -> (0 <= revision < u64_max)%Z ->
  keeps acts anchored
    (seed aead sha256 grapheme_extended printable dir key au revision authorized prior inputs) booted w.
Proof.
  intros Ha Hb Hr. unfold seed. destruct (negb authorized && _); [done|]. destruct (bool_decide _); [done|].
  destruct (store_build _ _ _ _ _ _ _ _) as [g|e] eqn:Eg; [|done]. apply store_build_revision in Eg.
  cbn [Programs.try_bind Programs.bind].
  assert (forall e w1, same w w1 -> booted (Err e) w1) as HE by (intros; by eapply same_anchored).
  apply (records_then w); [|done..|].
  { intros w0 w1 Hs. apply write_ahead_same; [|done]. by apply intent_not_checkpoint. }
  intros w1 Hs1. apply (records_then w); [|done..|].
  { intros w0 w2. apply audited_same. intros r. by apply intent_not_checkpoint. }
  intros w2 Hs2. apply keeps_try. eapply keeps_mono with (I := same w)
    (Q := fun _ => same w); [intros w' Hs; by eapply same_anchored| |].
  2:{ destruct prior as [|file now]; [done|]. apply keeps_try.
      eapply keeps_mono; [done| |apply preserve_same; [apply rejected_name_other|done]].
      by intros [name|e] w3 Hs3. }
  intros [rejected|e] w3 Hs3; [|by apply HE].
  rewrite <-Eg in Hb. apply (persist_then w); [|done|done|done|done|].
  { apply fits_u64. by rewrite Eg. }
  intros p w4 H4. rewrite Eg in H4. apply keeps_try.
  eapply keeps_mono with (I := same w4) (Q := fun _ => same w4).
  { intros w' Hs. eapply same_anchored; [done|]. by eapply resting_anchored. }
  2:{ destruct authorized; [|apply same_refl]. intros [[]|e] w5 H5; cbn in H5; [subst|destruct H5; subst];
        by split. }
  intros [[]|e] w5 H5; [|eapply same_anchored; [done|]; by eapply resting_anchored].
  apply checkpoint_then; [by eapply resting_same|done|]. intros e w6. apply resting_anchored.
Qed.

Lemma booted_marker m res w : booted res w -> booted (with_marker m res) w.
Proof. by destruct res. Qed.

Lemma found_store_inv authorized now file loaded prior :
  found_store aead sha256 grapheme_extended printable key authorized now file = Ok (loaded, prior) ->
  match loaded with
  | Some d => exists f, file = Some f /\ decode_store f = Ok d
  | None => authorized = true \/ file = None
  end.
Proof.
  unfold found_store. destruct file as [f|]; [|intros [= <- <-]; by right].
  destruct (decode_store f) as [d|[|e]] eqn:Ed; [intros [= <- <-]; eauto|done|].
  destruct authorized; [|done]. intros [= <- <-]. by left.
Qed.

Lemma boot_keeps dir au now inputs w : anchored w ->
  keeps acts anchored (boot aead sha256 grapheme_extended printable dir key
    (last_checkpoint (w_trail w)) au now inputs) booted w.
Proof.
  intros Ha. unfold boot, reseed_marker. cbn [Programs.bind].
  intros m w1 H1. cbn in H1. destruct H1 as [-> _]. split; [done|].
  match goal with |- context [let '(_, _) := ?x in _] => destruct x as [authorized ignored] end.
  unfold read_store. cbn [Programs.bind]. intros r w2 H2. cbn in H2. destruct H2 as (-> & Hr & _).
  specialize (Hr eq_refl). split; [done|].
  assert (forall file, (match r with Ok f => Ok (Some f) | Err (IoNotFound _) => Ok None | Err e => Err e end
            : result (option bytes) IoError) = Ok file -> w_store w = file) as Hfile.
  { intros file. destruct r as [f|[]]; intros [= <-]; done. }
  match goal with |- context [match ?x with Ok _ => _ | Err _ => Ret (refused _) end] =>
    destruct x as [file|e] eqn:Er end; [|done]. specialize (Hfile file eq_refl).
  destruct (found_store _ _ _ _ _ _ _ _) as [[loaded prior]|e] eqn:Ef; [|done].
  cbn [Programs.try_bind Programs.bind]. apply found_store_inv in Ef.
  apply keeps_bind. eapply keeps_mono; [done|intros res w3 H3; by apply (booted_marker ignored)|].
  destruct (assess _ _ authorized) as [|revision|state|refusal] eqn:Eas; [..|done].
  - apply seed_keeps; [done| |unfold u64_max; lia]. intros c Hc. rewrite Hc in Eas. exfalso.
    unfold assess in Eas. split_cases Eas.
  - destruct authorized; [|exfalso; unfold assess in Eas; split_cases Eas].
    apply assess_authorized in Eas as [Hs Hc]. apply seed_keeps; [done| |].
    + intros c Hl. rewrite Hl in Hc. simpl in Hc. lia.
    + destruct loaded as [d|]; cbn in Hs; [|lia]. destruct Ef as (f & _ & Hd%decoded_facts). lia.
  - destruct loaded as [d|]; [|done]. destruct Ef as (f & -> & Hd). by eapply load_keeps.
Qed.

(** ** Commits *)

Lemma transition_keeps dir next t au w : ready w -> fits 8 (g_revision next) ->
  keeps acts anchored
    (transition aead sha256 grapheme_extended printable f64_to_string from_str dir key next t au)
    (fun res w' => ready w' /\
       forall c, res = Ok c -> resting w' (co_revision c) (co_digest c) /\ co_revision c = g_revision next /\
         (co_checkpoint_error c = None -> settled w' (co_revision c) (co_digest c))) w.
Proof.
  intros [Ha Hfl] Hmax. unfold transition. intros floor w1 H1. cbn in H1. destruct H1 as [-> ->].
  split; [done|]. cbn zeta beta.
  assert (forall (e : fault StoreError) w', same w w' -> ready w' /\
       forall c, (Err e : store_result Committed) = Ok c ->
         resting w' (co_revision c) (co_digest c) /\ co_revision c = g_revision next /\
         (co_checkpoint_error c = None -> settled w' (co_revision c) (co_digest c))) as HE.
  { intros e w' Hs. split; [|done]. split; [by eapply same_anchored|]. destruct Hs as (_ & -> & Hc). by rewrite Hc. }
  destruct (Z.leb_spec (g_revision next) (w_floor w)); [apply HE, same_refl|].
  assert (behind w (g_revision next)) as Hb by (intros c Hc; specialize (Hfl c Hc); lia).
  destruct (extract next) as [proposed|e]; [|apply HE, same_refl]. cbn [Programs.try_bind Programs.bind map_err].
  unfold read_store. cbn [Programs.bind]. intros r w1 H1. cbn in H1. destruct H1 as [-> _]. split; [done|].
  match goal with |- context [map_err _ ?x] => destruct x as [file|e]; [|apply HE, same_refl] end.
  cbn [Programs.try_bind Programs.bind map_err].
  destruct (check_transition _ _ _ _ _ _ _ _ _ _) as [[]|e]; [|apply HE, same_refl].
  cbn [Programs.try_bind Programs.bind].
  apply (records_then w); [|done|apply same_refl|done|].
  { intros w0 w1. apply audited_unless_same. intros x. by apply intent_not_checkpoint. }
  intros w1 Hs1. apply (records_then w); [|done..|].
  { intros w0 w2. apply audited_unless_same. intros x. by apply intent_not_checkpoint. }
  intros w2 Hs2. apply (records_then w); [|done..|].
  { intros w0 w3. apply audited_unless_same. intros x. by apply intent_not_checkpoint. }
  intros w3 Hs3. apply (records_then w); [|done..|].
  { intros w0 w4. apply intent_transition_same. }
  intros w4 Hs4. apply (persist_then w); [done..|].
  intros p w5 H5. apply keeps_bind. eapply keeps_mono; [done| |by apply checkpoint_keeps].
  intros [[]|[|e]] w6 H6; cbn; (split; [eapply resting_ready; first [exact H6|exact (proj1 H6)]|]);
    [| |]; intros c [= <-]; cbn; split_and!; try done; apply H6.
Qed.

(** ** A store the anchor refuses *)

(** What the anchor makes of a store that is not the one checkpointed. *)
Definition refusal_of (file : option bytes) (c : Checkpoint) (r : Refusal) : Prop :=
  match file with
  | Some f => exists d, decode_store f = Ok d /\ ~ stands_to (de_facts d) c /\
      (r = RolledBack (sf_revision (de_facts d)) (ck_revision c) \/ r = Substituted (sf_revision (de_facts d)))
  | None => r = Missing (ck_revision c)
  end.

(** A boot on such a store without the marker reads and refuses: it changes nothing. *)
Lemma boot_refuses dir au now inputs w c :
  last_checkpoint (w_trail w) = Some c -> w_marker w = false ->
  (exists r, refusal_of (w_store w) c r) ->
  keeps acts (eq w) (boot aead sha256 grapheme_extended printable dir key
      (last_checkpoint (w_trail w)) au now inputs)
    (fun res w' => w' = w /\ ((exists r, refusal_of (w_store w) c r /\ res = refused (SRefused r)) \/
                            exists e, res = refused (SStoreFileRefused (io_text e)))) w.
Proof.
  intros Hc Hm [r0 Hr0]. unfold boot, reseed_marker. cbn [Programs.bind]. rewrite Hc.
  intros m w1 H1. cbn in H1. destruct H1 as (-> & _ & Hmark). specialize (Hmark eq_refl). split; [done|].
  match goal with |- context [let '(_, _) := ?x in _] => destruct x as [authorized ignored] eqn:Eauth end.
  assert (authorized = false) as ->. { destruct m as [b|[]]; simplify_eq; congruence. }
  unfold read_store. cbn [Programs.bind]. intros r w2 H2. cbn in H2. destruct H2 as (-> & Hr & _).
  specialize (Hr eq_refl). split; [done|].
  destruct r as [f|e]; cbn.
  - rewrite Hr in Hr0 |- *. destruct Hr0 as (d & Hd & Hst & _). rewrite Hd. cbn.
    destruct (assess_refused _ _ Hst) as (r & Has & Hr0). cbn in Has. rewrite Has. cbn.
    split; [done|]. left. exists r. split; [|done]. by exists d.
  - destruct e as [t|t|t|t]; cbn; [|split; [done|]; right; by exists (IoOther t)..].
    rewrite Hr in Hr0 |- *. cbn. split; [done|]. left. by exists (Missing (ck_revision c)).
Qed.
End Anchored.
