(* ===== verification/StoreTheorems.v ===== *)
(** * What the state store guarantees

    That what was committed is what a boot reads back; that a kernel interrupted
    anywhere, any number of times, never finds its own store refused; that a store
    put back or swapped is; and that nothing is published before it is on record. *)
From stdpp Require Import base list strings gmap.
From Stdlib Require Import ZArith Lia Ascii.
From S2P Require Import Prelude Programs RustStr RustSlice Json Config Decide Graph GraphFormat Identity.
From S2P Require Import Bindings BindingsSync PolicySource Texts SyncText Envelope Anchor Store StoreWorld.
Open Scope nat_scope.

(** ** A graph's own compiled nodes *)

Lemma compiled_get_Some s kind key c :
  compiled_get s kind key = Some c -> c ∈ s /\ c_kind c = kind /\ c_key c = key.
Proof.
  unfold compiled_get. intros [Hin H]%find_some_iff. apply andb_true_iff in H as [?%Z.eqb_eq ?%String.eqb_eq].
  done.
Qed.

Lemma compiled_get_elem s c : c ∈ s -> is_Some (compiled_get s (c_kind c) (c_key c)).
Proof.
  intros Hc. unfold compiled_get. destruct (List.find _ s) eqn:E; [done|].
  apply find_none_iff in E. rewrite existsb_false in E. apply E in Hc.
  by rewrite Z.eqb_refl, String.eqb_refl in Hc.
Qed.

Lemma stored_compiled_elem b c :
  c ∈ stored_compiled b <-> exists n, n ∈ b_nodes b /\ pv_kind (n_prov n) = PCompiled /\
    c = mkCompiled (n_kind n) (n_key n) (n_label n) (n_attrs n).
Proof.
  unfold stored_compiled. rewrite elem_of_map. split.
  - intros (n & -> & [Hn Hp]%elem_of_bfilter). apply bool_decide_eq_true in Hp. eauto.
  - intros (n & Hn & Hp & ->). exists n. split; [done|]. apply elem_of_bfilter.
    by rewrite bool_decide_eq_true.
Qed.

Lemma check_node_compiled n space schema cs : check_node n space schema cs = Ok tt ->
  (pv_kind (n_prov n) = PCompiled <-> is_compiled schema (n_kind n) = true).
Proof.
  unfold check_node. destruct (is_none _); [done|]. destruct (negb _); [done|].
  destruct (is_empty _); [done|]. destruct (is_empty _); [done|]. cbn zeta.
  destruct (is_compiled schema (n_kind n)); case_bool_decide; simpl; done.
Qed.

Lemma NoDup_key_inj {A K} (f : A -> K) l x y : NoDup (f <$> l) -> x ∈ l -> y ∈ l -> f x = f y -> x = y.
Proof.
  induction l as [|z l IH]; [by intros _ ?%elem_of_nil|]. simpl. intros [Hz Hl]%NoDup_cons.
  intros [->|Hx]%elem_of_cons [->|Hy]%elem_of_cons Hf; [done| | |by apply IH].
  - destruct Hz. rewrite Hf. by apply list_elem_of_fmap_2.
  - destruct Hz. rewrite <-Hf. by apply list_elem_of_fmap_2.
Qed.

Lemma check_node_stored b n schema cs :
  valid_builder b schema cs -> n ∈ b_nodes b ->
  check_node n (b_space b) schema (stored_compiled b) = Ok tt.
Proof.
  intros Hv Hn. pose proof (vb_nodes _ _ _ Hv) as Hc. apply check_nodes_valid in Hc.
  rewrite Forall_forall in Hc. specialize (Hc n Hn).
  pose proof (check_node_compiled _ _ _ _ Hc) as Hp. revert Hc. unfold check_node.
  destruct (is_none _); [done|]. destruct (negb _); [done|]. destruct (is_empty _); [done|].
  destruct (is_empty _); [done|]. cbn zeta. destruct (is_compiled schema (n_kind n)); [|done].
  assert (pv_kind (n_prov n) = PCompiled) as Hpc by by apply Hp.
  rewrite bool_decide_eq_true_2 by done. cbn [negb].
  destruct (compiled_get cs (n_kind n) (n_key n)) as [c|]; [|done]. intros Hc.
  destruct (compiled_get_elem (stored_compiled b) (mkCompiled (n_kind n) (n_key n) (n_label n) (n_attrs n)))
    as [c' Hc'].
  { apply stored_compiled_elem. eauto. }
  cbn in Hc'. rewrite Hc'. apply compiled_get_Some in Hc' as (Hin & Hk & Hs).
  apply stored_compiled_elem in Hin as (n' & Hn' & _ & ->). cbn in *.
  assert (n' = n) as ->.
  { apply (NoDup_key_inj node_key (b_nodes b)); [apply Hv|done|done|]. unfold node_key. by rewrite Hk, Hs. }
  rewrite bool_decide_eq_true_2, String.eqb_refl by done. cbn [andb].
  destruct (bool_decide _ && _); [|done]. cbn [andb] in Hc.
  by destruct (Z.eqb (n_revision n) 0), (Z.eqb (pv_transition (n_prov n)) 0).
Qed.

Lemma valid_stored b schema cs : valid_builder b schema cs -> valid_builder b schema (stored_compiled b).
Proof.
  intros Hv. pose proof Hv as [H1 H2 H3 H4 H5 H6]. constructor; try done.
  - apply check_nodes_valid, Forall_forall. intros n Hn. by eapply check_node_stored.
  - intros c (n & Hn & Hp & ->)%stored_compiled_elem. cbn. split; [|by exists n].
    apply check_nodes_valid in H2. rewrite Forall_forall in H2. specialize (H2 n Hn). by apply (check_node_compiled _ _ _ _ H2).
Qed.

(** The vocabulary is checked against, never written into the graph. *)
Lemma assemble_vocabulary b schema cs cs' g g' :
  assemble b schema cs = Ok g -> assemble b schema cs' = Ok g' -> g' = g.
Proof.
  unfold assemble. destruct (adjacent_dup n_id _); [done|].
  destruct (try_each _ (sort_by_key n_id (b_nodes b))); [|done].
  destruct (try_each (fun n => check_node n (b_space b) schema cs') _); [|done]. cbn [map_err].
  destruct (try_map key_entry _) as [entries|]; [|done]. cbn zeta.
  destruct (adjacent_dup kind_key _); [done|].
  destruct (try_each _ cs); [|done]. destruct (try_each _ cs'); [|done]. cbn [map_err].
  destruct (adjacent_dup e_id _); [done|]. destruct (try_each _ (sort_by_key e_id _)); [|done]. cbn [map_err].
  destruct (try_map index_u32 _); [|done]. congruence.
Qed.

Lemma assemble_stored b schema cs g :
  assemble b schema cs = Ok g ->
  (Z.of_nat (length (b_nodes b)) <= u32_max)%Z -> (Z.of_nat (length (b_edges b)) <= u32_max)%Z ->
  assemble b schema (stored_compiled b) = Ok g.
Proof.
  intros H Hn He. destruct (assemble_complete b schema (stored_compiled b)) as [g' Hg']; [|done..|].
  { eapply valid_stored, assemble_valid, H. }
  rewrite Hg'. f_equal. by eapply assemble_vocabulary.
Qed.

(** A graph the identity layer built, its encoding read with no vocabulary but its own. *)
Lemma decode_stored_encoded b cs g all :
  build_encoded b SCHEMA cs = Ok (g, all) -> wf_graph SCHEMA g -> (Z.of_nat (length all) < u64_max)%Z ->
  exists cs', decode_stored_compiled all (b_space b) SCHEMA = Ok (g, cs').
Proof.
  intros H Hg Hlen. unfold build_encoded in H. destruct (assemble b SCHEMA cs) as [g'|] eqn:Ea; [|done].
  destruct (encode g') as [all'|] eqn:Ee; [|done].
  destruct (within_expansion_limit _ _) eqn:Ew; [|done]. cbn [negb] in H.
  apply Ok_inj in H. injection H as -> ->.
  destruct (assemble_inv _ _ _ _ Ea) as (_ & Hn & He & Hsp & Hrev).
  pose proof Ew as Ew'. apply Nat.leb_le in Ew'.
  unfold decode_stored_compiled. rewrite <-Hsp, (parse_encode SCHEMA g all Hg Ee Ew' Hlen).
  set (b' := mkBuilder _ _ _ _). cbn [map_err].
  pose proof (encode_inv _ _ Ee) as (?&?&?&?&?&?&?&?&?&?& _ & Hnl & Hel & _).
  assert (assemble b' SCHEMA cs = Ok g) as Ea' by (by apply (assemble_perm b b')).
  apply assemble_stored in Ea'; [|cbn; lia..].
  unfold rebuild_canonical, build_encoded. rewrite Ea', Ee, Ew. cbn [negb map_err].
  rewrite bool_decide_eq_true_2 by done. by eexists.
Qed.

Lemma build_encoded_of layer baseline sync cs vocabulary revision initiator g :
  build layer baseline sync cs vocabulary revision initiator = Ok g ->
  exists b all, build_encoded b SCHEMA cs = Ok (g, all) /\ b_space b = KernelSpace.
Proof.
  unfold build. destruct (assemble_layer _ _ _ _ _ _ _) as [b|] eqn:Eb; [|done]. cbn [map_err].
  unfold build_graph. destruct (build_encoded b SCHEMA cs) as [[g' all]|] eqn:Ee; [|done]. cbn [map_err].
  destruct (List.find _ cs); [done|]. intros H. apply Ok_inj in H as <-. exists b, all. split; [done|].
  apply assemble_layer_revision in Eb. congruence.
Qed.

(** ** Errors *)

(** Not a refusal of the anchor; a revision may be exhausted. *)
Definition not_refused (e : fault StoreError) : Prop :=
  forall r, e = Refused (SRefused r) -> r = RevisionExhausted.

Ltac plain_error := intros ? [=].

Section Errors.
Context (aead : Aead) (sha256 : bytes -> digest) (grapheme_extended printable : Z -> bool).
Context (key : WrappingKey).

Lemma write_ahead_fails rec : fails not_refused (write_ahead rec).
Proof. intros [[]|e]; [done|plain_error]. Qed.

Lemma write_each_fails recs : fails not_refused (write_each recs).
Proof. induction recs as [|r recs IH]; [done|]. apply fails_try; [apply write_ahead_fails|done]. Qed.

Lemma unless_empty_fails {A} (l : list A) p : fails not_refused p -> fails not_refused (unless_empty l p).
Proof. by destruct l. Qed.

Lemma intent_transition_fails au r i : fails not_refused (intent_transition au r i).
Proof. apply fails_try; [apply write_ahead_fails|]. intros []. by destruct (au_drain au). Qed.

Lemma checkpoint_fails au r d a : fails not_refused (checkpoint au r d a).
Proof. unfold checkpoint. destruct (au_drain au); [intros []|]; apply write_ahead_fails. Qed.

Lemma persist_fails g : fails not_refused (persist aead sha256 key g).
Proof.
  intros floor. cbn zeta. destruct (_ <=? _)%Z; [plain_error|]. intros [[]|e]; [|plain_error]. intros draw.
  unfold encoded. destruct (encode g) as [plain|[]]; [|plain_error..].
  cbn. destruct (seal aead draw plain key); [|plain_error]. intros [[]|[]]; try done; plain_error.
Qed.

Lemma store_build_fails layer bl sy inputs r i e :
  store_build grapheme_extended printable layer bl sy inputs r i = Err e -> not_refused e.
Proof.
  unfold store_build. destruct (build _ _ _ _ _ _ _) as [g|[|x]]; intros [= <-]; plain_error.
Qed.

Lemma plan_load_fails d inputs e :
  plan_load sha256 grapheme_extended printable d inputs = Err e -> not_refused e.
Proof.
  assert (forall r e, next_revision r = Err e -> not_refused e) as Hn.
  { intros r e'. unfold next_revision. destruct (checked_succ r); [done|]. intros [= <-] r' [= <-]. done. }
  unfold plan_load. cbn zeta. intros H. case_hyp H as E0; [injection H as <-; plain_error|].
  case_hyp H as E1; [injection H as <-; plain_error|]. case_hyp H as E2; [injection H as <-; plain_error|].
  destruct (plan_migration _ _ _ _ _ _ _) as [[[m layer] r]|e'] eqn:Em.
  2:{ injection H as <-. unfold plan_migration in Em. cbn zeta in Em.
      destruct (never (vocabulary_assess _ _ _ _)) as [a|e''] eqn:Ea.
      2:{ injection Em as <-. destruct (vocabulary_assess _ _ _ _) as [|[|[]]]; [done|]. injection Ea as <-. plain_error. }
      destruct a as [|from|why]; [done| |injection Em as <-; plain_error].
      destruct (migrated_layer _ _ _). destruct (next_revision _) eqn:Er; [|injection Em as <-; eauto].
      destruct (store_build _ _ _ _ _ _ _ _) eqn:Eb; [done|]. injection Em as <-. by eapply store_build_fails. }
  match type of H with context [match ?c with Ok _ => _ | Err _ => _ end] => destruct c as [canonical|e'] eqn:Ec end.
  2:{ injection H as <-. destruct (is_none m); [|done]. unfold is_canonical in Ec.
      destruct (g_lookup _ _ _); [|done]. destruct (store_build _ _ _ _ _ _ _ _) as [|[]]; try done.
      injection Ec as <-. plain_error. }
  case_hyp H as E3; [injection H as <-; plain_error|]. case_hyp H as E4; [|done].
  destruct (next_revision r) eqn:Er; [|injection H as <-; eauto].
  destruct (store_build _ _ _ _ _ _ _ _) eqn:Eb; [done|]. injection H as <-. by eapply store_build_fails.
Qed.

Lemma load_fails au state d inputs :
  fails not_refused (load aead sha256 grapheme_extended printable key au state d inputs).
Proof.
  unfold load. cbn zeta. apply fails_try.
  { destruct (plan_load _ _ _ d inputs) eqn:E; [done|]. by eapply plan_load_fails. }
  intros plan []. apply fails_try; [apply checkpoint_fails|]. intros _. apply fails_try.
  { destruct (lp_migration plan) as [[m g]|]; [|done]. apply fails_try; [apply write_ahead_fails|]. intros _.
    apply fails_try; [apply persist_fails|]. intros p. apply fails_try; [apply checkpoint_fails|done]. }
  intros report. destruct (lp_transition plan) as [[[g gone] i]|]; [|done].
  apply fails_try; [apply unless_empty_fails, write_each_fails|]. intros _.
  apply fails_try; [destruct (lp_baseline_changed plan); [apply write_each_fails|done]|]. intros _.
  apply fails_try; [apply unless_empty_fails, write_each_fails|]. intros _.
  apply fails_try; [apply intent_transition_fails|]. intros _.
  apply fails_try; [apply persist_fails|]. intros p. apply fails_try; [apply checkpoint_fails|done].
Qed.

Lemma preserve_fails dir name file : fails not_refused (preserve dir name file).
Proof.
  intros [existing|[]]; cbn; try plain_error; [destruct (bool_decide _); [done|plain_error]|].
  intros [[]|e]; [done|plain_error].
Qed.

Lemma seed_fails dir au r a prior inputs :
  fails not_refused (seed aead sha256 grapheme_extended printable dir key au r a prior inputs).
Proof.
  unfold seed. destruct (negb a && _); [plain_error|]. destruct (bool_decide _); [plain_error|].
  apply fails_try.
  { destruct (store_build _ _ _ _ _ _ _ _) eqn:E; [done|]. by eapply store_build_fails. }
  intros g. apply fails_try; [apply write_ahead_fails|]. intros _.
  apply fails_try; [apply write_each_fails|]. intros _.
  apply fails_try.
  { destruct prior; [done|]. apply fails_try; [apply preserve_fails|done]. }
  intros rejected. apply fails_try; [apply persist_fails|]. intros p.
  apply fails_try; [destruct a; [intros [[]|e]; [done|plain_error]|done]|]. intros _.
  apply fails_try; [apply checkpoint_fails|done].
Qed.

Lemma classify_envelope_plain e r : classify_envelope e <> SRefused r.
Proof.
  destruct e; try done; unfold classify_envelope;
    [destruct (newer_envelope v)|destruct (newer_aead v)|destruct (newer_wrap v)]; done.
Qed.

Lemma classify_format_plain e r : classify_format grapheme_extended printable e <> SRefused r.
Proof.
  destruct e; try done; unfold classify_format;
    [destruct (newer_format v)|destruct (newer_schema found expected)]; done.
Qed.

Lemma decode_store_fails file e :
  decode_store aead sha256 grapheme_extended printable file key = Err e -> not_refused e.
Proof.
  unfold decode_store. destruct (open aead file key) as [plain|ee]; cbn [map_err].
  2:{ intros [= <-] r [= H]. by destruct (classify_envelope_plain ee r). }
  destruct (decode_stored_compiled plain KernelSpace SCHEMA) as [[g cs]|[|fe]]; cbn [map_err map_fault].
  - destruct (extract g); [done|]. intros [= <-]. plain_error.
  - intros [= <-]. plain_error.
  - intros [= <-] r [= H]. by destruct (classify_format_plain fe r).
Qed.
End Errors.

(** ** Writing ahead *)

(** The records of a trace whose append was acknowledged. *)
Definition durable_of (ev : event store_effect) : option GraphRecord :=
  match ev_effect ev in store_effect X return X -> option GraphRecord with
  | Append rec => fun r => match r with Ok _ => Some rec | Err _ => None end
  | _ => fun _ => None
  end (ev_answer ev).
Definition durable (tr : list (event store_effect)) : list GraphRecord := omap durable_of tr.

(** The publish of the store. *)
Definition publishes (ev : event store_effect) : bool :=
  match ev_effect ev with PublishFile name _ _ => String.eqb name STORE_FILE | _ => false end.

(** What a transition puts on record before its store is published, in order. *)
Definition ahead (au : Auditor) (revision : Z) (gone : list Released)
    (baseline_events sync_events : list string) (initiator : string) : list GraphRecord :=
  map (released_record au revision) gone ++ map (baseline_record au revision) baseline_events
  ++ map (sync_record au revision) sync_events ++ [transition_record au revision initiator].

Section Ahead.
Context (recs : list GraphRecord).

(** The store is published only with exactly these records on the trail. *)
Definition recorded (h : list (event store_effect)) (ev : event store_effect) : Prop :=
  publishes ev = true -> durable (rev h) = recs.

Lemma durable_snoc h ev : durable (rev (ev :: h)) = durable (rev h) ++ omap durable_of [ev].
Proof. unfold durable. simpl. by rewrite omap_app. Qed.

Lemma wp_write_each l : forall h,
  wp recorded (write_each l) (fun r h' => r = Ok tt -> durable (rev h') = durable (rev h) ++ l) h.
Proof.
  induction l as [|r l IH]; intros h; [by rewrite app_nil_r|]. apply wp_try. intros x. split; [done|].
  destruct x as [[]|e]; cbn; [|done]. eapply wp_mono; [|apply IH]. intros a h' Ha Hr. rewrite (Ha Hr).
  change (rev h ++ [?x]) with (rev (x :: h)). rewrite durable_snoc. cbn. by rewrite <-app_assoc.
Qed.

Lemma wp_unless_empty {A} (f : A -> GraphRecord) l h :
  wp recorded (unless_empty l (write_each (map f l)))
    (fun r h' => r = Ok tt -> durable (rev h') = durable (rev h) ++ map f l) h.
Proof. destruct l; [by rewrite app_nil_r|]. apply wp_write_each. Qed.

Lemma wp_intent_transition au revision initiator h :
  wp recorded (intent_transition au revision initiator)
    (fun r h' => r = Ok tt -> durable (rev h') = durable (rev h) ++ [transition_record au revision initiator]) h.
Proof.
  apply wp_try. intros x. split; [done|]. destruct x as [[]|e]; cbn; [|done].
  destruct (au_drain au).
  - intros x. split; [done|]. intros _. rewrite !durable_snoc. cbn. by rewrite app_nil_r.
  - intros _. by rewrite durable_snoc.
Qed.

(** From here on the store may be published, and nothing else is. *)
Lemma wp_persist aead sha256 key g h : durable (rev h) = recs ->
  wp recorded (persist aead sha256 key g) (fun _ _ => True) h.
Proof.
  intros Hh floor. split; [done|]. cbn zeta. destruct (_ <=? _)%Z; [done|]. intros m. split; [done|].
  destruct m as [[]|e]; [|done]. intros draw. split; [done|].
  unfold encoded. destruct (encode g) as [plain|]; [|done]. cbn. destruct (seal aead draw plain key); [|done].
  intros p. split; [|by destruct p as [[]|[]]; try done; intros x].
  intros _. rewrite !durable_snoc. cbn. by rewrite !app_nil_r.
Qed.

Lemma wp_checkpoint {A} au r d a (k : store_result unit -> Programs.prog store_effect A) Q h :
  (forall x h', wp recorded (k x) Q h') -> wp recorded (let* c := checkpoint au r d a in k c) Q h.
Proof.
  intros Hk. unfold checkpoint. destruct (au_drain au); cbn.
  - intros []. split; [done|]. intros x. split; [done|]. apply Hk.
  - intros x. split; [done|]. apply Hk.
Qed.
End Ahead.

Lemma wp_recorded_step {A} recs (p : Programs.prog store_effect (store_result unit)) l
    (q : Programs.prog store_effect (store_result A)) h :
  (wp (recorded recs) p (fun r h' => r = Ok tt -> durable (rev h') = durable (rev h) ++ l) h) ->
  (forall h', durable (rev h') = durable (rev h) ++ l -> wp (recorded recs) q (fun _ _ => True) h') ->
  wp (recorded recs) (let*? _ := p in q) (fun _ _ => True) h.
Proof.
  intros Hp Hq. apply wp_try. eapply wp_mono; [|exact Hp]. intros [[]|e] h' H; [|done]. apply Hq. by apply H.
Qed.

Lemma wp_persist_step {A} recs aead sha256 key g (q : Persisted -> Programs.prog store_effect (store_result A)) h :
  durable (rev h) = recs -> (forall p h', wp (recorded recs) (q p) (fun _ _ => True) h') ->
  wp (recorded recs) (let*? p := persist aead sha256 key g in q p) (fun _ _ => True) h.
Proof.
  intros Hh Hq. apply wp_try. eapply wp_mono; [|by apply wp_persist]. intros [p|e] h' _; [apply Hq|done].
Qed.

(** ** Kernels one after another *)

Section Guarantees.
Context (aead : Aead) {L : AeadLaws aead} (sha256 : bytes -> digest).
Context (Hsha : forall b, length (sha256 b) = 32).
Context (grapheme_extended printable : Z -> bool).
Context (f64_to_string : Z -> string) (from_str : string -> result Json string).
Context (key : WrappingKey).

Local Notation boot := (Store.boot aead sha256 grapheme_extended printable).
Local Notation transition :=
  (Store.transition aead sha256 grapheme_extended printable f64_to_string from_str).
Local Notation anchored := (StoreWorld.anchored aead sha256 grapheme_extended printable key).
Local Notation ready := (StoreWorld.ready aead sha256 grapheme_extended printable key).
Local Notation decode_store f := (Store.decode_store aead sha256 grapheme_extended printable f key).

(** The worlds kernels come through that boot, commit and are stopped anywhere,
    over and over; the flag says whether one is running. The marker is root's. *)
Inductive kernel_reach : world -> bool -> Prop :=
| kr_fresh w : last_checkpoint (w_trail w) = None -> kernel_reach w false
| kr_marker w b m : kernel_reach w b -> kernel_reach (mkWorld (w_store w) m (w_trail w) (w_floor w)) b
| kr_boot w b dir au now inputs tr rep w' :
    kernel_reach w b ->
    runs (boot dir key (last_checkpoint (w_trail w)) au now inputs) tr (Ok rep) ->
    reaches acts (floored w 0) tr w' -> kernel_reach w' true
| kr_boot_stopped w b dir au now inputs tr w' :
    kernel_reach w b ->
    does (boot dir key (last_checkpoint (w_trail w)) au now inputs) tr ->
    reaches acts (floored w 0) tr w' -> kernel_reach w' false
| kr_commit w dir next t au tr res w' :
    kernel_reach w true -> fits 8 (g_revision next) ->
    runs (transition dir key next t au) tr res -> reaches acts w tr w' -> kernel_reach w' true
| kr_commit_stopped w dir next t au tr w' :
    kernel_reach w true -> fits 8 (g_revision next) ->
    does (transition dir key next t au) tr -> reaches acts w tr w' -> kernel_reach w' false.

Lemma anchored_trail w w' : w_store w' = w_store w -> w_trail w' = w_trail w -> anchored w -> anchored w'.
Proof. intros Hs Ht H c. rewrite Hs, Ht. apply H. Qed.

Lemma kernel_reach_anchored w b : kernel_reach w b -> anchored w /\ (b = true -> ready w).
Proof.
  induction 1 as [w Hw|w b m _ [Ha Hr]|w b dir au now inputs tr rep w' _ [Ha _] Hrun Hre
    |w b dir au now inputs tr w' _ [Ha _] Hd Hre|w dir next t au tr res w' _ [_ Hr] Hf Hrun Hre
    |w dir next t au tr w' _ [_ Hr] Hf Hd Hre].
  - split; [|done]. intros c Hc. congruence.
  - split; [by apply (anchored_trail w)|]. intros Hb. destruct (Hr Hb) as [_ Hc].
    split; [by apply (anchored_trail w)|done].
  - assert (anchored (floored w 0)) as Ha' by by apply (anchored_trail w).
    pose proof (boot_keeps aead sha256 Hsha grapheme_extended printable key dir au now inputs _ Ha') as Hk.
    pose proof (keeps_runs _ _ _ _ _ _ _ _ Hk Hrun Hre) as [Hb _].
    split; [by eapply resting_anchored|]. intros _. by eapply resting_ready.
  - split; [|done]. assert (anchored (floored w 0)) as Ha' by by apply (anchored_trail w).
    eapply keeps_does; [exact Ha'|by apply boot_keeps|done|done].
  - specialize (Hr eq_refl).
    pose proof (transition_keeps aead sha256 Hsha grapheme_extended printable f64_to_string from_str key
      dir next t au w Hr Hf) as Hk.
    pose proof (keeps_runs _ _ _ _ _ _ _ _ Hk Hrun Hre) as [Hb _]. split; [apply Hb|done].
  - split; [|done]. specialize (Hr eq_refl). eapply keeps_does; [apply Hr|by apply transition_keeps|done|done].
Qed.

Lemma boot_not_refused dir au now inputs w : anchored w ->
  keeps acts (fun _ => True) (boot dir key (last_checkpoint (w_trail w)) au now inputs)
    (fun res _ => match res with Ok _ => True | Err e => not_refused e end) w.
Proof.
  intros Ha. unfold Store.boot, reseed_marker. cbn [Programs.bind].
  intros m w1 H1. cbn in H1. destruct H1 as [-> _]. split; [done|].
  match goal with |- context [let '(_, _) := ?x in _] => destruct x as [authorized ignored] end.
  unfold read_store. cbn [Programs.bind]. intros r w2 H2. cbn in H2. destruct H2 as (-> & Hr & _).
  specialize (Hr eq_refl). split; [done|].
  assert (forall file, (match r with Ok f => Ok (Some f) | Err (IoNotFound _) => Ok None | Err e => Err e end
            : result (option bytes) IoError) = Ok file -> w_store w = file) as Hfile.
  { intros file. destruct r as [f|[]]; intros [= <-]; done. }
  match goal with |- context [match ?x with Ok _ => _ | Err _ => Ret (refused _) end] =>
    destruct x as [file|e] eqn:Er end; [|cbn; plain_error]. specialize (Hfile file eq_refl).
  destruct (found_store _ _ _ _ _ _ _ _) as [[loaded prior]|e] eqn:Ef; cbn [Programs.try_bind Programs.bind].
  2:{ unfold found_store in Ef. destruct file as [f|]; [|done].
      destruct (Store.decode_store _ _ _ _ f key) as [d|[|e']] eqn:Ed; [done|simplify_eq; cbn; plain_error|].
      destruct authorized; [done|]. injection Ef as <-. exact (decode_store_fails _ _ _ _ _ _ _ Ed). }
  apply found_store_inv in Ef. apply keeps_bind.
  eapply keeps_mono; [done| |apply (returns_keeps acts (fun res =>
    match res with Ok _ => True | Err e => not_refused e end))].
  { by intros [rep|e] w3 H3. }
  destruct (assess _ _ authorized) as [|revision|state|refusal] eqn:Eas.
  - apply seed_fails.
  - apply seed_fails.
  - destruct loaded; [apply load_fails|]. cbn. plain_error.
  - cbn. intros r' [= ->]. destruct authorized.
    { unfold assess in Eas. cbn zeta in Eas. destruct (checked_succ _); by simplify_eq. }
    destruct (last_checkpoint (w_trail w)) as [c|] eqn:Ec; [|by destruct loaded].
    destruct (Ha c Ec) as (f & Hf & Hh). destruct loaded as [d|].
    + destruct Ef as (f' & -> & Hd). assert (f' = f) as -> by congruence.
      apply Hh, assess_load in Hd as [s Hs]. cbn in *. congruence.
    + destruct Ef; [done|]. congruence.
Qed.

(** C17: a kernel never refuses its own store: over any number of boots and commits,
    each run to its end or stopped at any step, with any failure of the audit sink, of
    a publish or of a directory sync on the way, the next boot is not refused as rolled
    back, substituted or missing; the revision may only be exhausted. *)
Theorem restart_accepted (w : world) (b : bool) (Hw : kernel_reach w b)
    (dir : StateDir) (au : Auditor) (now : Z) (inputs : BootInputs) tr res w' r
    (Hrun : runs (boot dir key (last_checkpoint (w_trail w)) au now inputs) tr res)
    (Hre : reaches acts (floored w 0) tr w') (Hres : res = refused (SRefused r)) :
  r = RevisionExhausted.
Proof.
  destruct (kernel_reach_anchored w b Hw) as [Ha _].
  assert (anchored (floored w 0)) as Ha' by by apply (anchored_trail w).
  pose proof (keeps_runs _ _ _ _ _ _ _ _ (boot_not_refused dir au now inputs _ Ha') Hrun Hre) as H.
  subst res. by apply H.
Qed.

(** What the anchor has against a file put in the store's place once the trail ends
    with checkpoint [c]: an older revision, another store at the same one, or none. *)
Definition put_back (file : option bytes) (c : Checkpoint) : Prop :=
  match file with
  | None => True
  | Some f => exists d, decode_store f = Ok d /\
      ((sf_revision (de_facts d) < ck_revision c)%Z \/
       sf_revision (de_facts d) = ck_revision c /\ sha256 f <> ck_digest c)
  end.

(** C18: once a boot has returned, every older store, every other store of the same
    revision and an absent one is refused by the next boot without root's marker, and
    that boot writes nothing: not the store, not the trail. *)
Theorem rollback_refused (w : world) (b : bool) (Hw : kernel_reach w b)
    dir au now inputs tr rep w1
    (Hrun : runs (boot dir key (last_checkpoint (w_trail w)) au now inputs) tr (Ok rep))
    (Hre : reaches acts (floored w 0) tr w1)
    (file : option bytes) (Hput : put_back file (mkCheckpoint (br_revision rep) (br_digest rep)))
    dir' au' now' inputs' tr' res w2
    (Hrun' : runs (boot dir' key (last_checkpoint (w_trail w1)) au' now' inputs') tr' res)
    (Hre' : reaches acts (mkWorld file false (w_trail w1) 0) tr' w2) :
  w2 = mkWorld file false (w_trail w1) 0 /\
  ((exists r, r <> RevisionExhausted /\ res = refused (SRefused r)) \/
   exists e, res = refused (SStoreFileRefused e)).
Proof.
  destruct (kernel_reach_anchored w b Hw) as [Ha _].
  assert (anchored (floored w 0)) as Ha' by by apply (anchored_trail w).
  pose proof (boot_keeps aead sha256 Hsha grapheme_extended printable key dir au now inputs _ Ha') as Hk.
  pose proof (keeps_runs _ _ _ _ _ _ _ _ Hk Hrun Hre) as [_ Hc]. clear Hk.
  set (c := mkCheckpoint (br_revision rep) (br_digest rep)) in *.
  set (w1' := mkWorld file false (w_trail w1) 0) in *.
  assert (exists r, refusal_of aead sha256 grapheme_extended printable key (w_store w1') c r) as Hr.
  { destruct file as [f|]; [|by eexists]. destruct Hput as (d & Hd & Hlow).
    eexists (Substituted _), d. split_and!; [done| |by right]. intros [Hle Heq].
    destruct (decoded_facts _ _ _ _ _ _ _ Hd) as [Hdig _]. destruct Hlow as [Hlt|[He Hne]]; [lia|].
    rewrite Hdig in Heq. symmetry in He. apply Heq in He. congruence. }
  pose proof (boot_refuses aead sha256 grapheme_extended printable key dir' au' now' inputs' w1' c Hc
    eq_refl Hr) as Hk.
  destruct (keeps_runs _ _ _ _ _ _ _ _ Hk Hrun' Hre') as [-> [(r & Hrr & ->)|(e & ->)]]; split; [done| |done|];
    [left|right]; [exists r|by eexists].
  split; [|done]. destruct file as [f|]; [|by rewrite Hrr].
  destruct Hrr as (d & _ & _ & [->| ->]); done.
Qed.

(** C19: nothing is published before it is on record. When a commit publishes the store,
    the trail holds the release of every containment it ends, its baseline and sync
    events and its intent, acknowledged, in this order and nothing else of this
    commit; so does the transition of a boot. *)
Theorem write_ahead_complete (dir : StateDir) (next : Graph) (t : Transition) (au : Auditor)
    (inputs : BootInputs) (ic : bool) (report : BootReport) (gone : list Released) (i : ProvenanceKind) :
  (forall pre ev post, does (transition dir key next t au) (pre ++ ev :: post) -> publishes ev = true ->
     durable pre = ahead au (g_revision next) (t_released t) (t_baseline_events t) (t_sync_events t) (t_initiator t)) /\
  (forall bc pre ev post,
     does (run_transition aead sha256 key au inputs ic bc report (Some (next, gone, i))) (pre ++ ev :: post) ->
     publishes ev = true ->
     durable pre = ahead au (g_revision next) gone (if bc then bi_baseline_events inputs else [])
                     (bi_sync_events inputs) (initiator_name i)).
Proof.
  split.
  - intros pre ev post Hd Hp. set (recs := ahead _ _ _ _ _ _).
    assert (wp (recorded recs) (transition dir key next t au) (fun _ _ => True) []) as Hwp.
    { unfold Store.transition. intros floor. split; [done|]. cbn zeta. destruct (_ <=? _)%Z; [done|].
      destruct (extract next) as [proposed|e]; [|done]. unfold read_store.
      cbn [Programs.try_bind Programs.bind map_err]. intros r. split; [done|].
      match goal with |- context [map_err _ ?x] => destruct x as [file|e]; [|done] end.
      cbn [Programs.try_bind Programs.bind map_err].
      destruct (check_transition _ _ _ _ _ _ _ _ _ _) as [[]|e]; [|done]. cbn [Programs.try_bind Programs.bind].
      eapply wp_recorded_step; [apply wp_unless_empty|]. intros h1 E1.
      eapply wp_recorded_step; [apply wp_unless_empty|]. intros h2 E2.
      eapply wp_recorded_step; [apply wp_unless_empty|]. intros h3 E3.
      eapply wp_recorded_step; [apply wp_intent_transition|]. intros h4 E4.
      apply wp_persist_step; [|intros p h5; apply wp_checkpoint; by intros [] ?].
      rewrite E4, E3, E2, E1. cbn. by rewrite <-!app_assoc. }
    pose proof (wp_does _ _ _ _ _ Hwp Hd pre ev post eq_refl Hp) as H. by rewrite app_nil_r, rev_involutive in H.
  - intros bc pre ev post Hd Hp. set (recs := ahead _ _ _ _ _ _).
    assert (wp (recorded recs) (run_transition aead sha256 key au inputs ic bc report (Some (next, gone, i)))
      (fun _ _ => True) []) as Hwp.
    { unfold run_transition. eapply wp_recorded_step; [apply wp_unless_empty|]. intros h1 E1.
      eapply wp_recorded_step with
        (l := map (baseline_record au (g_revision next)) (if bc then bi_baseline_events inputs else [])).
      { destruct bc; [apply wp_write_each|by rewrite app_nil_r]. }
      intros h2 E2. eapply wp_recorded_step; [apply wp_unless_empty|]. intros h3 E3.
      eapply wp_recorded_step; [apply wp_intent_transition|]. intros h4 E4.
      apply wp_persist_step; [|intros p h5; apply wp_checkpoint; by intros [] ?].
      rewrite E4, E3, E2, E1. cbn. by rewrite <-!app_assoc. }
    pose proof (wp_does _ _ _ _ _ Hwp Hd pre ev post eq_refl Hp) as H. by rewrite app_nil_r, rev_involutive in H.
Qed.

(** *** All or nothing *)

(** The store holds [g], sealed. *)
Definition holds (w : world) (g : Graph) (d : digest) : Prop :=
  exists draw plain f, entropy_ok draw /\ @encode GraphError g = Ok plain /\
    seal aead draw plain key = Ok f /\ w_store w = Some f /\ sha256 f = d.

(** How a step of a commit that fails ends: the store and the floor as they were. *)
Definition undone (w0 w : world) : Prop := w_store w = w_store w0 /\ w_floor w = w_floor w0.

Lemma records_undone w0 (p : Programs.prog store_effect (store_result unit)) w :
  records_only p -> undone w0 w -> keeps acts (fun _ => True) p (fun _ => undone w0) w.
Proof.
  intros Hp Hw. eapply keeps_mono; [done| |exact (Hp w w (same_refl w))].
  intros r w' (Hs & Hf & _). unfold undone in *. intuition congruence.
Qed.

Lemma undone_then {A} w0 (p : Programs.prog store_effect (store_result unit))
    (q : Programs.prog store_effect (store_result A)) (Q : store_result A -> world -> Prop) w :
  records_only p -> undone w0 w -> (forall e w', undone w0 w' -> Q (Err e) w') ->
  (forall w', undone w0 w' -> keeps acts (fun _ => True) q Q w') ->
  keeps acts (fun _ => True) (let*? _ := p in q) Q w.
Proof.
  intros Hp Hw HE Hq. apply keeps_try. eapply keeps_mono; [done| |by apply (records_undone w0)].
  intros [[]|e] w' H; [by apply Hq|by apply HE].
Qed.

Lemma persist_holds g w :
  keeps acts (fun _ => True) (persist aead sha256 key g)
    (fun res w' => match res with
     | Ok p => holds w' g (pd_digest p) /\ w_floor w' = g_revision g
     | Err _ => undone w w' end) w.
Proof.
  intros floor w1 H1. cbn in H1. destruct H1 as [-> ->]. split; [done|]. cbn zeta beta.
  destruct (_ <=? _)%Z; [done|]. cbn [Programs.bind]. intros m w2 Hm. cbn in Hm. subst w2. split; [done|].
  destruct m as [[]|e]; [|done]. intros draw w3 H3. cbn in H3. destruct H3 as [-> Hdraw]. split; [done|].
  unfold encoded. destruct (encode g) as [plain|e] eqn:Ee; [|done]. cbn [map_err Programs.try_bind Programs.bind].
  destruct (seal aead draw plain key) as [file|e] eqn:Es; [|done].
  cbn [Programs.try_bind Programs.bind map_err]. unfold publish. cbn [Programs.bind].
  intros p w4 Hp. cbn in Hp.
  assert (forall r, holds (floored (stored w file) r) g (sha256 file)) as Hh.
  { intros r. exists draw, plain, file. by split_and!. }
  destruct p as [[]|[]]; subst w4; first [by split | split; [done|]; intros [] w5 H5; cbn in H5; subst w5; split; [done|split; [apply Hh|done]]].
Qed.

Lemma checkpoint_holds au r d a g dg w : holds w g dg ->
  keeps acts (fun _ => True) (checkpoint au r d a)
    (fun res w' => holds w' g dg /\ w_floor w' = w_floor w /\ res <> Err Panic) w.
Proof.
  intros Hw. assert (forall rec, keeps acts (fun _ => True) (write_ahead rec)
    (fun res w' => holds w' g dg /\ w_floor w' = w_floor w /\ res <> Err Panic) w) as H.
  { intros rec [[]|e] w' Hs; cbn in Hs; [subst|destruct Hs as [->| ->]]; by split. }
  unfold checkpoint. destruct (au_drain au); [|apply H]. intros [] w' Hs. cbn in Hs. subst. split; [done|apply H].
Qed.

Lemma transition_holds dir next t au w :
  keeps acts (fun _ => True) (transition dir key next t au)
    (fun res w' => match res with
     | Ok c => holds w' next (co_digest c) /\ co_revision c = g_revision next /\
               w_floor w' = g_revision next /\ (w_floor w < g_revision next)%Z
     | Err _ => undone w w'
     end) w.
Proof.
  unfold Store.transition. intros floor w1 H1. cbn in H1. destruct H1 as [-> ->]. split; [done|]. cbn zeta beta.
  destruct (Z.leb_spec (g_revision next) (w_floor w)) as [|Hlt]; [done|]. destruct (extract next) as [proposed|e]; [|done].
  cbn [Programs.try_bind Programs.bind map_err]. unfold read_store. cbn [Programs.bind].
  intros r w1 H1. cbn in H1. destruct H1 as [-> _]. split; [done|].
  match goal with |- context [map_err _ ?x] => destruct x as [file|e]; [|done] end.
  cbn [Programs.try_bind Programs.bind map_err].
  destruct (check_transition _ _ _ _ _ _ _ _ _ _) as [[]|e]; [|done].
  cbn [Programs.try_bind Programs.bind].
  apply (undone_then w); [|done|done|].
  { intros w0 w1. apply audited_unless_same. intros x. by apply intent_not_checkpoint. }
  intros w1 Hs1. apply (undone_then w); [|done|done|].
  { intros w0 w2. apply audited_unless_same. intros x. by apply intent_not_checkpoint. }
  intros w2 Hs2. apply (undone_then w); [|done|done|].
  { intros w0 w3. apply audited_unless_same. intros x. by apply intent_not_checkpoint. }
  intros w3 Hs3. apply (undone_then w); [|done|done|].
  { intros w0 w4. apply intent_transition_same. }
  intros w4 Hs4. apply keeps_try. eapply keeps_mono; [done| |apply persist_holds].
  intros [p|e] w5 H5; [|unfold undone in *; intuition congruence]. destruct H5 as [Hh Hf].
  apply keeps_bind. eapply keeps_mono; [done| |by apply checkpoint_holds].
  intros [[]|[|e]] w6 (H6 & Hf6 & Hp); [|done|]; cbn; split_and!; try done; congruence.
Qed.

Lemma holds_decodes layer baseline sync cs vocabulary revision initiator g x w d :
  build layer baseline sync cs vocabulary revision initiator = Ok g -> wf_graph SCHEMA g ->
  (forall plain, @encode GraphError g = Ok plain -> (Z.of_nat (length plain) < u64_max)%Z) ->
  extract g = Ok x -> holds w g d ->
  exists f dec, w_store w = Some f /\ decode_store f = Ok dec /\ de_graph dec = g /\
    de_extracted dec = x /\ de_facts dec = mkFacts revision d.
Proof.
  intros Hb Hg Hlen Hx (draw & plain & f & Hd & He & Hs & Hf & <-).
  destruct (build_encoded_of _ _ _ _ _ _ _ _ Hb) as (b & all & Hbe & Hsp).
  assert (all = plain) as ->.
  { unfold build_encoded in Hbe. destruct (assemble b SCHEMA cs) as [g'|]; [|done].
    destruct (encode g') as [all'|] eqn:Ee; [|done]. destruct (negb _); [done|]. apply Ok_inj in Hbe.
    injection Hbe as -> ->. congruence. }
  destruct (decode_stored_encoded b cs g plain Hbe Hg (Hlen _ He)) as [cs' Hcs]. rewrite Hsp in Hcs.
  eexists f, _. split; [done|]. unfold Store.decode_store. rewrite (open_seal aead draw plain key f Hd Hs).
  cbn [map_err]. rewrite Hcs. cbn [map_err]. rewrite Hx. cbn [map_err]. split; [done|]. cbn.
  by rewrite (build_revision _ _ _ _ _ _ _ _ Hb).
Qed.

(** C20: a commit is all or nothing. Of a graph the identity layer built, a commit that
    returns leaves a store that decodes to that graph, with its layers, at its revision
    and with the digest reported; a commit that fails leaves the store and the
    floor as they were. *)
Theorem commit_all_or_nothing layer baseline sync cs vocabulary revision initiator next x
    (Hb : build layer baseline sync cs vocabulary revision initiator = Ok next)
    (Hg : wf_graph SCHEMA next)
    (Hlen : forall plain, @encode GraphError next = Ok plain -> (Z.of_nat (length plain) < u64_max)%Z)
    (Hx : extract next = Ok x) dir t au tr res w w'
    (Hrun : runs (transition dir key next t au) tr res) (Hre : reaches acts w tr w') :
  match res with
  | Ok c => exists f dec, w_store w' = Some f /\ decode_store f = Ok dec /\ de_graph dec = next /\
      de_extracted dec = x /\ de_facts dec = mkFacts (co_revision c) (co_digest c)
  | Err _ => undone w w'
  end.
Proof.
  pose proof (keeps_runs _ _ _ _ _ _ _ _ (transition_holds dir next t au w) Hrun Hre) as H.
  destruct res as [c|e]; [|done]. destruct H as (Hh & -> & _).
  rewrite (build_revision _ _ _ _ _ _ _ _ Hb). by eapply holds_decodes.
Qed.
End Guarantees.

(** ** Witnesses *)

(** A provider that seals nothing, for running the store. *)
Definition demo_aead : Aead :=
  mkAead (fun k => if length k =? KEY_LEN then Ok tt else Err CryptoOther)
    (fun _ _ _ plain => Ok (plain, zeroes TAG_LEN))
    (fun _ _ _ ct => Ok (take (length ct - TAG_LEN) ct)).

#[export] Instance demo_aead_laws : AeadLaws demo_aead.
Proof.
  constructor; intros key nonce aad plain ct tag H; injection H as <- <-; [done|]. cbn [ae_open demo_aead]. f_equal.
  rewrite length_app. change (length (zeroes TAG_LEN)) with TAG_LEN.
  replace (length plain + TAG_LEN - TAG_LEN) with (length plain) by lia. by rewrite take_app_length.
Qed.

Definition demo_sha (b : bytes) : digest := le_bytes 32 (Z.of_nat (length b)).
Lemma demo_sha_length b : length (demo_sha b) = 32.
Proof. apply le_bytes_length. Qed.

Definition no_table (_ : Z) : bool := false.
Definition all_printable (_ : Z) : bool := true.
Definition demo_f64 (_ : Z) : string := "0".
Definition demo_parser (_ : string) : result Json string := Err "no document".
Definition demo_key : WrappingKey := Ok (zeroes 32).
Definition demo_dir : StateDir := mkStateDir 990 0.
Definition demo_auditor : Auditor := mkAuditor 0 false.

Definition ok_default {A E} (d : A) (r : result A E) : A := match r with Ok a => a | Err _ => d end.
Definition demo_vocabulary : digest := ok_default [] (vocabulary_digest demo_sha demo_compiled).
Definition demo_layer : IdentityLayer :=
  mkLayer "/etc/maknae/bindings.yaml" "U" (Some demo_digest) [mkSubject 0 "root" "admin"] ∅.
Definition demo_baseline : BaselineLayer :=
  mkBaseline {["core" := "{}"]} "US" "U" demo_digest None.
Definition demo_sync_base : SyncBase := mkSync "{}" "{}" "[]".
Definition demo_boot_inputs : BootInputs :=
  mkInputs demo_compiled demo_vocabulary demo_layer [] false false demo_baseline None ["baseline seeded"]
    demo_sync_base None [] Created.

Definition demo_boot (anchor : option Checkpoint) :=
  Store.boot demo_aead demo_sha no_table all_printable demo_dir demo_key anchor demo_auditor 0 demo_boot_inputs.
Definition fresh : world := mkWorld None false [] 0.

(** A graph's field ranges, checked. *)
Definition fits_b (k : nat) (v : Z) : bool := (0 <=? v)%Z && (v <? 256 ^ Z.of_nat k)%Z.
Definition wf_attrs_b (a : Attrs) : bool :=
  forallb (fun kv => match snd kv with GU64 n => fits_b 8 n | GStr _ => true end) (btree_iter a).
Definition in_kernel (s : GraphSpace) : bool := match s with KernelSpace => true | _ => false end.
Definition wf_node_b (n : NodeRecord) : bool :=
  fits_b 8 (n_id n) && in_kernel (n_space n) && fits_b 2 (n_kind n)
  && fits_b 8 (pv_transition (n_prov n)) && fits_b 8 (n_revision n) && wf_attrs_b (n_attrs n).
Definition wf_edge_b (e : EdgeRecord) : bool :=
  fits_b 8 (e_id e) && in_kernel (e_space e) && fits_b 8 (e_from e) && fits_b 8 (e_to e)
  && fits_b 2 (e_kind e) && fits_b 8 (pv_transition (e_prov e)) && fits_b 8 (e_revision e)
  && wf_attrs_b (e_attrs e).
Definition wf_graph_b (g : Graph) : bool :=
  (g_schema_version g =? sc_version SCHEMA)%Z && in_kernel (g_space g) && fits_b 8 (g_revision g)
  && forallb wf_node_b (g_nodes g) && forallb wf_edge_b (g_edges g)
  && forallb utf8_valid (string_table g)
  && (Z.of_nat (length (attr_entries n_attrs (g_nodes g)) + length (attr_entries e_attrs (g_edges g))) <? u32_max)%Z.

Lemma wf_attrs_b_ok a : wf_attrs_b a = true -> wf_attrs a.
Proof.
  intros H k v Hk. apply btree_iter_elem in Hk. unfold wf_attrs_b in H. rewrite forallb_true in H.
  apply H in Hk. destruct v; [done|]. by apply fits_dec.
Qed.

Lemma in_kernel_wf s : in_kernel s = true -> wf_space s.
Proof. by destruct s. Qed.

Lemma wf_graph_b_ok g : wf_graph_b g = true -> wf_graph SCHEMA g.
Proof.
  unfold wf_graph_b. rewrite !andb_true_iff. intros ((((((Hv & Hs) & Hr) & Hn) & He) & Hu) & Ha).
  constructor.
  - by apply Z.eqb_eq.
  - by apply fits_dec.
  - by apply in_kernel_wf.
  - by apply fits_dec.
  - rewrite forallb_true in Hn. apply Forall_forall. intros n Hin. apply Hn in Hin. unfold wf_node_b in Hin.
    rewrite !andb_true_iff in Hin. destruct_and!. by constructor; (apply fits_dec || apply in_kernel_wf || apply wf_attrs_b_ok).
  - rewrite forallb_true in He. apply Forall_forall. intros e Hin. apply He in Hin. unfold wf_edge_b in Hin.
    rewrite !andb_true_iff in Hin. destruct_and!. by constructor; (apply fits_dec || apply in_kernel_wf || apply wf_attrs_b_ok).
  - intros s Hin. rewrite forallb_true in Hu. auto.
  - by apply Z.ltb_lt.
Qed.

(** A first boot, and a second one whose bindings list one more subject. *)
Definition demo_first := simulate respond (demo_boot None) fresh.
Definition demo_first_world : world := snd demo_first.
Definition demo_next_layer : IdentityLayer :=
  mkLayer "/etc/maknae/bindings.yaml" "U" (Some demo_digest)
    [mkSubject 0 "root" "admin"; mkSubject 7 "eve" "adversary"] ∅.
Definition demo_next_inputs : BootInputs :=
  mkInputs demo_compiled demo_vocabulary demo_next_layer [] false false demo_baseline (Some demo_digest) []
    demo_sync_base (Some demo_sync_base) [] Unchanged.
Definition demo_reboot (w : world) :=
  Store.boot demo_aead demo_sha no_table all_printable demo_dir demo_key (last_checkpoint (w_trail w))
    demo_auditor 0 demo_next_inputs.
Definition demo_second := simulate respond (demo_reboot demo_first_world) (floored demo_first_world 0).
Definition demo_second_world : world := snd demo_second.

Lemma simulated {A} (p : Programs.prog store_effect A) w :
  runs p (snd (fst (simulate respond p w))) (fst (fst (simulate respond p w))) /\
  reaches acts w (snd (fst (simulate respond p w))) (snd (simulate respond p w)).
Proof.
  destruct (simulate respond p w) as [[a tr] w'] eqn:E.
  exact (simulate_runs acts respond respond_acts p w a tr w' E).
Qed.

(** A reseed of a store at the last revision, which the marker cannot advance. *)
Definition demo_last : Graph :=
  ok_default demo_graph (build demo_layer (Some demo_baseline) (Some demo_sync_base) demo_compiled demo_vocabulary
    (u64_max - 1) PSeed).
Definition demo_last_world : world :=
  mkWorld (Some (ok_default [] (seal demo_aead (mkEntropy (Some (zeroes 32)) (zeroes 12) (zeroes 12))
    (ok_default [] (@encode GraphError demo_last)) demo_key))) true [] 0.

Lemma restart_accepted_witness :
  fst (fst (simulate respond (demo_reboot demo_last_world) (floored demo_last_world 0)))
  = refused (SRefused RevisionExhausted) /\ RevisionExhausted = RevisionExhausted.
Proof.
  split; [vm_compute; reflexivity|].
  destruct (simulated (demo_reboot demo_last_world) (floored demo_last_world 0)) as [Hrun Hre].
  apply (restart_accepted demo_aead demo_sha demo_sha_length no_table all_printable demo_f64 demo_parser
    demo_key demo_last_world false (kr_fresh _ _ _ _ _ _ _ demo_last_world eq_refl) demo_dir demo_auditor 0
    demo_next_inputs _ _ _ _ Hrun Hre). vm_compute. reflexivity.
Defined.

Lemma demo_first_reach : kernel_reach demo_aead demo_sha no_table all_printable demo_f64 demo_parser demo_key
  demo_first_world true.
Proof.
  destruct (simulated (demo_boot None) fresh) as [Hrun Hre].
  assert (exists rep, fst (fst demo_first) = Ok rep) as [rep Hrep].
  { destruct (fst (fst demo_first)) as [rep|e] eqn:E; [by exists rep|]. exfalso.
    assert (is_ok (fst (fst demo_first)) = true) as H by (vm_compute; reflexivity). by rewrite E in H. }
  change (simulate respond (demo_boot None) fresh) with demo_first in *. rewrite Hrep in Hrun.
  eapply kr_boot; [apply (kr_fresh _ _ _ _ _ _ _ fresh eq_refl)|exact Hrun|exact Hre].
Qed.

(** The second boot moved to revision 2; the first store, put back, is refused. *)
Lemma rollback_refused_witness :
  exists rep, fst (fst demo_second) = Ok rep /\ br_revision rep = 2%Z /\
  let w := mkWorld (w_store demo_first_world) false (w_trail demo_second_world) 0 in
  let run := simulate respond (demo_reboot demo_second_world) w in
  snd run = w /\
  ((exists r, r <> RevisionExhausted /\ fst (fst run) = refused (SRefused r)) \/
   exists e, fst (fst run) = refused (SStoreFileRefused e)).
Proof.
  assert ((match fst (fst demo_second) with Ok r => br_revision r | Err _ => 0 end = 2)%Z) as H2
    by (vm_compute; reflexivity).
  destruct (fst (fst demo_second)) as [rep|] eqn:Hrep; [|done]. exists rep. split; [done|]. split; [done|].
  set (w := mkWorld _ _ _ _). cbn zeta.
  destruct (simulated (demo_reboot demo_first_world) (floored demo_first_world 0)) as [Hrun Hre].
  destruct (simulated (demo_reboot demo_second_world) w) as [Hrun' Hre'].
  change (simulate respond (demo_reboot demo_first_world) (floored demo_first_world 0)) with demo_second in *.
  rewrite Hrep in Hrun.
  eapply (rollback_refused demo_aead demo_sha demo_sha_length no_table all_printable demo_f64 demo_parser
    demo_key demo_first_world true demo_first_reach demo_dir demo_auditor 0 demo_next_inputs _ rep demo_second_world
    Hrun Hre (w_store demo_first_world)); [|exact Hrun'|exact Hre'].
  assert ((match w_store demo_first_world with
           | Some f => match Store.decode_store demo_aead demo_sha no_table all_printable f demo_key with
                       | Ok d => sf_revision (de_facts d)
                       | Err _ => 9
                       end
           | None => 9
           end = 1)%Z) as H1 by (vm_compute; reflexivity).
  unfold put_back. destruct (w_store demo_first_world) as [f|]; [|done].
  destruct (Store.decode_store demo_aead demo_sha no_table all_printable f demo_key) as [d|]; [|done].
  exists d. split; [done|]. left. cbn. lia.
Defined.

(** A commit on the first store. *)
Definition demo_next : Graph :=
  ok_default demo_graph (build demo_next_layer (Some demo_baseline) (Some demo_sync_base) demo_compiled
    demo_vocabulary 2 PRootFile).
Definition demo_commit :=
  Store.transition demo_aead demo_sha no_table all_printable demo_f64 demo_parser demo_dir demo_key demo_next
    (mkTransition [] [] [] INITIATOR_ROOT_FILE SFree) demo_auditor.
Definition demo_committed := simulate respond demo_commit demo_first_world.

Lemma demo_next_built : build demo_next_layer (Some demo_baseline) (Some demo_sync_base) demo_compiled
  demo_vocabulary 2 PRootFile = Ok demo_next.
Proof. vm_compute. reflexivity. Qed.

Lemma demo_next_extracts : exists x, extract demo_next = Ok x.
Proof.
  destruct (extract demo_next) as [x|e] eqn:E; [by exists x|]. exfalso.
  assert (is_ok (extract demo_next) = true) as H by (vm_compute; reflexivity). by rewrite E in H.
Qed.

Lemma commit_all_or_nothing_witness :
  exists c f dec, fst (fst demo_committed) = Ok c /\ w_store (snd demo_committed) = Some f /\
    Store.decode_store demo_aead demo_sha no_table all_printable f demo_key = Ok dec /\ de_graph dec = demo_next.
Proof.
  destruct demo_next_extracts as [x Hx].
  destruct (simulated demo_commit demo_first_world) as [Hrun Hre].
  assert (is_ok (fst (fst demo_committed)) = true) as Hok by (vm_compute; reflexivity).
  change (simulate respond demo_commit demo_first_world) with demo_committed in *.
  pose proof (commit_all_or_nothing demo_aead demo_sha no_table all_printable demo_f64 demo_parser demo_key
    demo_next_layer (Some demo_baseline) (Some demo_sync_base) demo_compiled demo_vocabulary 2 PRootFile demo_next x
    demo_next_built (wf_graph_b_ok demo_next ltac:(vm_compute; reflexivity))) as H.
  specialize (fun Hlen => H Hlen Hx demo_dir (mkTransition [] [] [] INITIATOR_ROOT_FILE SFree) demo_auditor
    (snd (fst demo_committed)) (fst (fst demo_committed)) demo_first_world (snd demo_committed) Hrun Hre).
  destruct (fst (fst demo_committed)) as [c|]; [|discriminate Hok].
  destruct H as (f & dec & Hf & Hd & Hg & _); [|exists c, f, dec; exact (conj eq_refl (conj Hf (conj Hd Hg)))].
  intros plain Hp. assert ((Z.of_nat (length (ok_default [] (@encode GraphError demo_next))) <? u64_max)%Z = true)
    as Hl by (vm_compute; reflexivity). rewrite Hp in Hl. by apply Z.ltb_lt.
Defined.
