(* ===== verification/MutationExchange.v ===== *)
(** * The mutation exchange: [crates/maknae-kernel/src/mutation_exchange.rs]

    A granted filesystem attempt is carried out by the client, which reports its
    effects in numbered batches; the kernel checks each report before it is
    audited and acknowledges it after. The exchange is a state machine; the
    theorems are about every state it can reach. The identity of an exchange, an
    [Arc] compared by pointer, is a number. *)
From stdpp Require Import base list strings gmap sorting.
From Stdlib Require Import ZArith Lia Ascii.
From S2P Require Import Prelude RustStr RustSlice Config PathGlob AuthzPolicy Seam Decide Wire.
Open Scope nat_scope.

Inductive ReportError :=
| WrongId | WrongIndex | OutOfScope | WrongEffect | RLimit | RTerminal | MalformedPath | Outstanding
| ForeignPending | InconsistentClaim.

Record PendingReport := mkPending {
  pp_owner : nat; pp_next_index : Z; pp_terminal : bool; pp_paths : list string }.

Record Exchange := mkExchange {
  x_id : MutationId; x_scope : MutationScope; x_limits : MutationLimits;
  x_read_page : option PageRequest; x_owner : nat; x_next_index : Z;
  x_outstanding : bool; x_terminal : bool; x_seen : gset string }.

(** ** Paths *)

Fixpoint plain_components (l : list string) : bool :=
  match l with
  | [] => true
  | c :: l' =>
      negb (is_empty c || String.eqb c "." || String.eqb c "..") && plain_components l'
  end.

(** [path[1..]], for a path that starts with a slash. *)
Definition after_slash (path : string) : string := default "" (strip_prefix "/" path).

Definition canonical_path (path : string) : result unit ReportError :=
  if (MAX_MUTATION_PATH_BYTES <? str_len path)%Z then Err RLimit
  else if negb (starts_with "/" path) || contains_char nul path then Err MalformedPath
  else if String.eqb path "/" then Ok tt
  else if plain_components (split_char slash (after_slash path)) then Ok tt
  else Err MalformedPath.

Definition is_read (scope : MutationScope) : bool :=
  match scope with Exact _ ReadFile => true | _ => false end.

(** The text of [path] below [root], for a path that is not the root. *)
Definition below (root path : string) : option string :=
  if String.eqb root "/" then Some (after_slash path)
  else s ← strip_prefix root path; strip_prefix "/" s.

(** ** Opening *)

(** [windows(2)]: each directory is a child of the one before it. *)
Fixpoint nested (paths : list string) : result unit ReportError :=
  match paths with
  | a :: (b :: _) as rest =>
      let? suffix := ok_or (below a b) OutOfScope in
      if is_empty suffix || contains_char slash suffix then Err OutOfScope else nested rest
  | _ => Ok tt
  end.

Definition open_exchange (owner : nat) (id : MutationId) (scope : MutationScope)
    (limits : MutationLimits) (read_page : option PageRequest) : result Exchange ReportError :=
  if ((ml_max_effects limits =? 0) || (MAX_MUTATION_EFFECTS <? ml_max_effects limits)
      || (MAX_MUTATION_DEPTH <? ml_max_depth limits) || (ml_deadline_ms limits =? 0))%Z
  then Err RLimit
  else if negb (ml_max_bytes limits =? 0)%Z && negb (is_read scope) then Err RLimit
  else
    let? _ := match scope with
              | Exact path _ => canonical_path path
              | RecursiveDelete root => canonical_path root
              | Directories paths =>
                  match paths with
                  | [] => Err OutOfScope
                  | _ =>
                      if (ml_max_depth limits <? Z.of_nat (length paths))%Z then Err RLimit
                      else
                        let? _ := try_map canonical_path paths in nested paths
                  end
              end in
    Ok (mkExchange id scope limits read_page owner 0 false false ∅).

Definition begin_exchange (owner : nat) (id : MutationId) (scope : MutationScope)
    (limits : MutationLimits) : result Exchange ReportError :=
  open_exchange owner id scope limits (if is_read scope then Some WHOLE_FILE else None).

Definition begin_paged (owner : nat) (id : MutationId) (scope : MutationScope)
    (limits : MutationLimits) (page : PageRequest) : result Exchange ReportError :=
  if negb (is_read scope) then Err RLimit
  else open_exchange owner id scope limits (Some page).

(** ** Reports *)

Definition validate_path (x : Exchange) (path : string) : result unit ReportError :=
  let? _ := canonical_path path in
  match x_scope x with
  | Exact expected _ => if String.eqb path expected then Ok tt else Err OutOfScope
  | RecursiveDelete root =>
      let? suffix := if String.eqb path root then Ok "" else ok_or (below root path) OutOfScope in
      let relative_depth := if is_empty suffix then 0 else length (split_char slash suffix) in
      if (ml_max_depth (x_limits x) <? Z.of_nat relative_depth)%Z then Err RLimit else Ok tt
  | Directories paths =>
      if existsb (String.eqb path) paths then Ok tt else Err OutOfScope
  end.

Definition read_claim_is_consistent (page : PageRequest) (length_ : Z) (range : option ByteRange)
    (lines : option LineSpan) : bool :=
  match range with
  | None => false
  | Some r =>
      (br_start r <=? br_end r)%Z && (br_end r - br_start r =? length_)%Z
      && (negb (pg_offset_line page =? 1)%Z || (br_start r <=? pg_column page)%Z)
      && ((length_ =? 0)%Z || (Z.max 0 (pg_offset_line page - 1) <=? br_start r)%Z)
      && ((length_ =? 0)%Z || is_some lines)
      && match lines with
         | None => true
         | Some l =>
             (0 <? length_)%Z && (ln_first l =? pg_offset_line page)%Z
             && (ln_first l <=? ln_last l)%Z
             && (ln_last l - ln_first l <? pg_limit_lines page)%Z
         end
  end.

Definition expected_effect (scope : MutationScope) : ReportedEffect :=
  match scope with
  | Exact _ effect => effect
  | RecursiveDelete _ => DeletedEntry
  | Directories _ => CreatedDirectory
  end.

Definition validate_entry (x : Exchange) (entry : EffectEntry) : result unit ReportError :=
  let? _ := validate_path x (ef_path entry) in
  if negb (bool_decide (ef_effect entry = expected_effect (x_scope x))) then Err WrongEffect
  else if bool_decide (ef_effect entry = ReadFile) then
    let? n := ok_or (ef_length entry) InconsistentClaim in
    if (ml_max_bytes (x_limits x) <? n)%Z then Err RLimit
    else
      let? page := ok_or (x_read_page x) InconsistentClaim in
      if read_claim_is_consistent page n (ef_range entry) (ef_lines entry) then Ok tt
      else Err InconsistentClaim
  else if is_some (ef_length entry) || is_some (ef_range entry) || is_some (ef_lines entry)
  then Err InconsistentClaim else Ok tt.

(** A recursive delete reports its root last, once. *)
Definition root_last (x : Exchange) (effects : list EffectEntry) : result unit ReportError :=
  match x_scope x with
  | RecursiveDelete root =>
      if bool_decide (root ∈ x_seen x) then Err InconsistentClaim
      else if existsb (fun e => String.eqb (ef_path e) root) (take (length effects - 1) effects)
      then Err InconsistentClaim else Ok tt
  | _ => Ok tt
  end.

Fixpoint fresh_paths (seen : gset string) (paths : list string) (effects : list EffectEntry)
  : result (list string) ReportError :=
  match effects with
  | [] => Ok paths
  | e :: effects' =>
      if bool_decide (ef_path e ∈ seen) || bool_decide (ef_path e ∈ paths)
      then Err InconsistentClaim
      else fresh_paths seen (paths ++ [ef_path e]) effects'
  end.

Definition validate_batch (x : Exchange) (effects : list EffectEntry)
  : result (Z * bool * list string) ReportError :=
  let n := length effects in
  if (n =? 0) || (MAX_MUTATION_BATCH <? n) then Err RLimit
  else
    let? next := let sum := (x_next_index x + Z.of_nat n)%Z in
                 if (sum <? u32_max)%Z then Ok sum else Err RLimit in
    if (ml_max_effects (x_limits x) <? next)%Z then Err RLimit
    else
      let? _ := try_map (validate_entry x) effects in
      let? _ := root_last x effects in
      let? paths := fresh_paths (x_seen x) [] effects in
      Ok (next, false, paths).

Definition validate_finished (x : Exchange) (outcome : ReportedFinish) (stopped_at : option string)
  : result (Z * bool * list string) ReportError :=
  let? _ := match stopped_at with Some path => validate_path x path | None => Ok tt end in
  let consistent :=
    match x_scope x with
    | Exact _ _ => (x_next_index x =? 1)%Z
    | RecursiveDelete root => bool_decide (root ∈ x_seen x)
    | Directories _ => true
    end in
  if bool_decide (outcome = FSuccess) && negb consistent then Err InconsistentClaim
  else Ok (x_next_index x, true, []).

Definition report_id (r : MutationReport) : MutationId :=
  match r with Batch id _ _ => id | Finished id _ _ _ => id end.
Definition report_index (r : MutationReport) : Z :=
  match r with Batch _ i _ => i | Finished _ i _ _ => i end.

Definition validate_report (x : Exchange) (report : MutationReport)
  : result (Exchange * PendingReport) ReportError :=
  if x_terminal x then Err RTerminal
  else if x_outstanding x then Err Outstanding
  else if negb (bool_decide (report_id report = x_id x)) then Err WrongId
  else if negb (report_index report =? x_next_index x)%Z then Err WrongIndex
  else
    let? (next_index, terminal, paths) :=
      match report with
      | Batch _ _ effects => validate_batch x effects
      | Finished _ _ outcome stopped_at => validate_finished x outcome stopped_at
      end in
    Ok (mkExchange (x_id x) (x_scope x) (x_limits x) (x_read_page x) (x_owner x) (x_next_index x)
          true (x_terminal x) (x_seen x),
        mkPending (x_owner x) next_index terminal paths).

Definition acknowledge (x : Exchange) (p : PendingReport)
  : result (Exchange * MutationAck) ReportError :=
  if negb (x_owner x =? pp_owner p) then Err ForeignPending
  else
    Ok (mkExchange (x_id x) (x_scope x) (x_limits x) (x_read_page x) (x_owner x) (pp_next_index p)
          false (pp_terminal p) (list_to_set (pp_paths p) ∪ x_seen x),
        mkAck (x_id x) (pp_next_index p)).

(** ** The life of an exchange *)

(** An exchange, the report it has validated and not acknowledged, the effects
    of the acknowledged reports in order, and the finish once one is. *)
Record Run := mkRun {
  rn_x : Exchange; rn_pending : option (PendingReport * MutationReport);
  rn_log : list EffectEntry; rn_finish : option ReportedFinish }.

Definition effects_of (r : MutationReport) : list EffectEntry :=
  match r with Batch _ _ effects => effects | Finished _ _ _ _ => [] end.
Definition finish_of (r : MutationReport) (finish : option ReportedFinish) : option ReportedFinish :=
  match r with Batch _ _ _ => finish | Finished _ _ outcome _ => Some outcome end.

Inductive exchange_step : Run -> Run -> Prop :=
| es_validate x log finish report x' p :
    validate_report x report = Ok (x', p) ->
    exchange_step (mkRun x None log finish) (mkRun x' (Some (p, report)) log finish)
(** The durable append has succeeded. *)
| es_acknowledge x p report log finish x' ack :
    acknowledge x p = Ok (x', ack) ->
    exchange_step (mkRun x (Some (p, report)) log finish)
      (mkRun x' None (log ++ effects_of report) (finish_of report finish))
(** It has failed: the pending transition is dropped. *)
| es_drop x p report log finish :
    exchange_step (mkRun x (Some (p, report)) log finish) (mkRun x None log finish).

Inductive exchange_reachable (x0 : Exchange) : Run -> Prop :=
| er_begin : exchange_reachable x0 (mkRun x0 None [] None)
| er_step r r' : exchange_reachable x0 r -> exchange_step r r' -> exchange_reachable x0 r'.

(** ** Lemmas: paths *)

Lemma plain_components_iff l : plain_components l = true <-> Forall segment_canonical l.
Proof.
  induction l as [|c l IH]; simpl; [done|]. rewrite Forall_cons, andb_true_iff, IH, negb_true_iff.
  rewrite !orb_false_iff, !String.eqb_neq. unfold segment_canonical.
  assert (is_empty c = false <-> c <> "") as -> by (by destruct c). tauto.
Qed.

Lemma canonical_path_violation path :
  canonical_path path = Ok tt -> canonical_violation path = None.
Proof.
  unfold canonical_path, canonical_violation, after_slash, starts_with.
  destruct (_ <? _)%Z; [done|]. destruct (strip_prefix "/" path) as [rest|]; [|done].
  cbn [is_some negb orb default]. destruct (contains_char nul path); [done|].
  destruct (String.eqb path "/"); [done|].
  destruct (plain_components _) eqn:E; [|done]. intros _. simpl in E.
  by apply segment_violation_None, plain_components_iff.
Qed.

Lemma split_char_cat c a b :
  split_char c (a +:+ String c b) = split_char c a ++ split_char c b.
Proof.
  induction a as [|x a IH]; simpl; [by rewrite Ascii.eqb_refl|].
  destruct (Ascii.eqb x c); [by rewrite IH|]. rewrite IH.
  destruct (split_char c a) as [|h t] eqn:E; [by destruct (split_char_nonempty c a)|done].
Qed.

Lemma comps_cat a b : comps (a +:+ "/" +:+ b) = comps a ++ comps b.
Proof.
  unfold comps. change ("/" +:+ b) with (String slash b). by rewrite split_char_cat, List.filter_app.
Qed.

Lemma comps_below root path suffix :
  starts_with "/" path = true -> below root path = Some suffix ->
  comps path = comps root ++ comps suffix.
Proof.
  unfold below, after_slash, starts_with. intros Hs. destruct (String.eqb_spec root "/") as [->|_].
  - destruct (strip_prefix "/" path) as [rest|] eqn:E; [|done]. intros [= <-].
    apply strip_prefix_spec in E as ->. apply (comps_cat "").
  - intros (s & H1%strip_prefix_spec & H2%strip_prefix_spec)%bind_Some. subst. apply comps_cat.
Qed.

Lemma comps_depth suffix :
  length (comps suffix) <= if is_empty suffix then 0 else length (split_char slash suffix).
Proof.
  destruct suffix as [|a s]; [simpl; lia|]. cbn [is_empty]. unfold comps.
  generalize (split_char slash (String a s)). intros l. induction l as [|c l IH]; simpl; [lia|].
  destruct (negb (is_empty c)); simpl; lia.
Qed.

(** What a scope covers. *)
Definition in_scope (x : Exchange) (path : string) : Prop :=
  match x_scope x with
  | Exact p _ => path = p
  | RecursiveDelete root =>
      exists suf, comps path = comps root ++ suf /\
        (Z.of_nat (length suf) <= ml_max_depth (x_limits x))%Z
  | Directories paths => path ∈ paths
  end.

Lemma canonical_starts path : canonical_path path = Ok tt -> starts_with "/" path = true.
Proof.
  unfold canonical_path. destruct (_ <? _)%Z; [done|]. by destruct (starts_with "/" path).
Qed.

Lemma validate_path_scope x path :
  validate_path x path = Ok tt -> canonical_violation path = None /\ in_scope x path.
Proof.
  unfold validate_path, in_scope. intros H. unbind H. destruct a.
  split; [by apply canonical_path_violation|]. apply canonical_starts in E.
  destruct (x_scope x) as [p eff|root|paths].
  - by destruct (String.eqb_spec path p).
  - unbind H. destruct (Z.ltb_spec (ml_max_depth (x_limits x))
      (Z.of_nat (if is_empty a then 0 else length (split_char slash a)))); [done|].
    pose proof (comps_depth a). exists (comps a). split; [|lia].
    destruct (String.eqb_spec path root) as [->|]; [injection E0 as <-; by rewrite app_nil_r|].
    destruct (below root path) as [s|] eqn:Eb; simplify_eq/=. by apply comps_below.
  - destruct (existsb _ _) eqn:Ex; [|done]. by apply existsb_true in Ex as (p & Hp & ->%String.eqb_eq).
Qed.

(** ** Lemmas: reports *)

(** What an accepted entry is worth. *)
Definition entry_ok (x : Exchange) (e : EffectEntry) : Prop :=
  canonical_violation (ef_path e) = None /\ in_scope x (ef_path e) /\
  ef_effect e = expected_effect (x_scope x) /\
  match ef_length e with
  | Some n => ef_effect e = ReadFile /\ (n <= ml_max_bytes (x_limits x))%Z
  | None => ef_effect e <> ReadFile
  end.

Lemma validate_entry_ok x e : validate_entry x e = Ok tt -> entry_ok x e.
Proof.
  unfold validate_entry, entry_ok. intros H. unbind H. destruct a.
  apply validate_path_scope in E as [Hc Hs]. case_bool_decide as He; [|done]. cbn [negb] in H.
  split_and!; [done..|]. case_bool_decide as Hr.
  - destruct (ef_length e) as [n|]; [|done]. cbn [ok_or] in H.
    destruct (Z.ltb_spec (ml_max_bytes (x_limits x)) n); [done|]. auto.
  - by destruct (ef_length e).
Qed.

Lemma fresh_paths_spec seen effects : forall paths out,
  fresh_paths seen paths effects = Ok out ->
  out = paths ++ map ef_path effects /\
  (NoDup paths -> NoDup out) /\ (forall p, p ∈ map ef_path effects -> p ∉ seen).
Proof.
  induction effects as [|e effects IH]; intros paths out H; simpl in H.
  { injection H as <-. rewrite app_nil_r. split_and!; [done..|]. intros p Hp. by apply elem_of_nil in Hp. }
  case_bool_decide as H1; [done|]. case_bool_decide as H2; [done|]. cbn [orb] in H.
  apply IH in H as (-> & Hn & Hs). simpl. rewrite <-app_assoc. split_and!; [done| |].
  - intros Hp. rewrite <-app_assoc in Hn. apply Hn.
    apply NoDup_app. split_and!; [done| |apply NoDup_singleton]. set_solver.
  - intros p [->|Hp]%elem_of_cons; auto.
Qed.

(** A batch, accepted over the entries [log]. *)
Lemma validate_batch_ok x effects next terminal paths :
  validate_batch x effects = Ok (next, terminal, paths) ->
  next = (x_next_index x + Z.of_nat (length effects))%Z /\ terminal = false /\
  paths = map ef_path effects /\ NoDup paths /\ (forall p, p ∈ paths -> p ∉ x_seen x) /\
  (next <= ml_max_effects (x_limits x))%Z /\ Forall (entry_ok x) effects /\ effects <> [] /\
  match x_scope x with
  | RecursiveDelete root =>
      root ∉ x_seen x /\ forall i e, effects !! i = Some e -> ef_path e = root -> S i = length effects
  | _ => True
  end.
Proof.
  unfold validate_batch. destruct (_ || _) eqn:E0; [done|].
  apply orb_false_iff in E0 as [Hn%Nat.eqb_neq _]. intros H.
  destruct (Z.ltb_spec (x_next_index x + Z.of_nat (length effects)) u32_max); [|done].
  destruct (Z.ltb_spec (ml_max_effects (x_limits x)) (x_next_index x + Z.of_nat (length effects)));
    [done|]. unbind H. injection H as <- <- <-. rename E1 into Ef, E0 into Er.
  apply try_map_Ok in E. apply fresh_paths_spec in Ef as (-> & Hnd & Hs). simpl.
  split_and!; [done..|apply Hnd; constructor|done|lia| |by destruct effects|].
  - clear -E. induction E as [|e u effects us He _ IH]; [constructor|]. constructor; [|done].
    destruct u. by apply validate_entry_ok.
  - unfold root_last in Er. destruct (x_scope x) as [| root |]; [done| |done].
    case_bool_decide as Hr; [done|]. destruct (existsb _ _) eqn:Ex; [done|]. split; [done|].
    rewrite existsb_false in Ex. intros i e Hi Hp. apply lookup_lt_Some in Hi as Hlt.
    destruct (decide (S i = length effects)) as [?|Hne]; [done|].
    assert (e ∈ take (length effects - 1) effects) as He.
    { apply (list_elem_of_lookup_2 _ i). rewrite lookup_take_lt by lia. done. }
    specialize (Ex e He). by rewrite Hp, String.eqb_refl in Ex.
Qed.

Lemma validate_finished_ok x outcome stopped next terminal paths :
  validate_finished x outcome stopped = Ok (next, terminal, paths) ->
  next = x_next_index x /\ terminal = true /\ paths = [] /\
  (outcome = FSuccess ->
     match x_scope x with
     | Exact _ _ => x_next_index x = 1%Z
     | RecursiveDelete root => root ∈ x_seen x
     | Directories _ => True
     end).
Proof.
  unfold validate_finished. intros H. unbind H.
  match type of H with (if ?b && negb ?c then _ else _) = _ => destruct b eqn:Eo, c eqn:Ec end;
    try done; injection H as <- <- <-; split_and!; try done; intros ->.
  - destruct (x_scope x); [by apply Z.eqb_eq|by apply bool_decide_eq_true in Ec|done].
  - by rewrite bool_decide_true in Eo.
  - by rewrite bool_decide_true in Eo.
Qed.

(** ** The invariant *)

Definition static (x : Exchange) : MutationId * MutationScope * MutationLimits * option PageRequest * nat :=
  (x_id x, x_scope x, x_limits x, x_read_page x, x_owner x).

(** The exchange as it was before it reserved the pending report. *)
Definition unreserved (x : Exchange) : Exchange :=
  mkExchange (x_id x) (x_scope x) (x_limits x) (x_read_page x) (x_owner x) (x_next_index x) false
    (x_terminal x) (x_seen x).

Record run_ok (x0 : Exchange) (r : Run) : Prop := {
  ro_static : static (rn_x r) = static x0;
  ro_index : x_next_index (rn_x r) = Z.of_nat (length (rn_log r));
  ro_seen : x_seen (rn_x r) = list_to_set (map ef_path (rn_log r));
  ro_nodup : NoDup (map ef_path (rn_log r));
  ro_bound : (Z.of_nat (length (rn_log r)) <= ml_max_effects (x_limits x0))%Z;
  ro_entries : Forall (entry_ok x0) (rn_log r);
  ro_root : match x_scope x0 with
            | RecursiveDelete root => forall i e, rn_log r !! i = Some e -> ef_path e = root ->
                S i = length (rn_log r)
            | _ => True
            end;
  ro_terminal : x_terminal (rn_x r) = is_some (rn_finish r);
  ro_success : rn_finish r = Some FSuccess ->
    match x_scope x0 with
    | Exact _ _ => length (rn_log r) = 1
    | RecursiveDelete root => root ∈ map ef_path (rn_log r)
    | Directories _ => True
    end;
  ro_pending : forall p report, rn_pending r = Some (p, report) ->
    validate_report (unreserved (rn_x r)) report = Ok (rn_x r, p) }.

Lemma static_entry_ok x x0 e : static x = static x0 -> entry_ok x e <-> entry_ok x0 e.
Proof. unfold static, entry_ok, in_scope. intros [= _ -> -> _ _]. done. Qed.

Lemma validate_report_inv x report x' p :
  validate_report x report = Ok (x', p) ->
  x_terminal x = false /\ x_outstanding x = false /\
  x' = mkExchange (x_id x) (x_scope x) (x_limits x) (x_read_page x) (x_owner x) (x_next_index x)
         true (x_terminal x) (x_seen x) /\
  pp_owner p = x_owner x /\
  match report with
  | Batch _ _ effects => validate_batch x effects
  | Finished _ _ outcome stopped_at => validate_finished x outcome stopped_at
  end = Ok (pp_next_index p, pp_terminal p, pp_paths p).
Proof.
  unfold validate_report. destruct (x_terminal x); [done|]. destruct (x_outstanding x); [done|].
  destruct (negb (bool_decide _)); [done|]. destruct (negb (_ =? _)%Z); [done|]. intros H.
  destruct (match report with Batch _ _ _ => _ | _ => _ end) as [[[n t] ps]|]; [|done].
  by injection H as <- <-.
Qed.

(** An accepted report extends the log it was validated over. *)
Lemma report_extends x0 x log finish report p :
  run_ok x0 (mkRun x None log finish) -> x_outstanding x = false ->
  validate_report x report = Ok (mkExchange (x_id x) (x_scope x) (x_limits x) (x_read_page x) (x_owner x)
    (x_next_index x) true (x_terminal x) (x_seen x), p) ->
  run_ok x0 (mkRun (mkExchange (x_id x) (x_scope x) (x_limits x) (x_read_page x) (x_owner x)
      (pp_next_index p) false (pp_terminal p) (list_to_set (pp_paths p) ∪ x_seen x))
    None (log ++ effects_of report) (finish_of report finish)).
Proof.
  intros [Hst Hix Hse Hnd Hbd Hen Hro Hte Hsu _] _ H. cbn [rn_x rn_log rn_finish rn_pending] in *.
  apply validate_report_inv in H as (Ht & _ & _ & _ & H).
  assert (finish = None) as -> by (rewrite Ht in Hte; by destruct finish). 
  assert (x_scope x = x_scope x0 /\ x_limits x = x_limits x0) as [Hsc Hli]
    by (unfold static in Hst; by simplify_eq).
  destruct report as [id i effects|id i outcome stopped]; cbn [effects_of finish_of].
  - apply validate_batch_ok in H as (Hne & Htm & Hps & Hpn & Hfr & Hmx & Hok & _ & Hrl).
    rewrite Hne, Htm, Hps in *. constructor; cbn [rn_x rn_log rn_finish rn_pending x_next_index
      x_seen x_terminal static x_id x_scope x_limits x_read_page x_owner]; try done.
    + rewrite Hix, length_app. lia.
    + rewrite map_app, list_to_set_app_L, Hse. set_solver.
    + rewrite map_app. apply NoDup_app. split_and!; [done| |done].
      intros q Hq Hq'. apply (Hfr q Hq'). rewrite Hse. by apply elem_of_list_to_set.
    + rewrite length_app, <-Hli. lia.
    + apply Forall_app. split; [done|]. eapply Forall_impl; [exact Hok|].
      intros e. by apply static_entry_ok.
    + rewrite <-Hsc in *. destruct (x_scope x) as [|root|]; [done| |done].
      destruct Hrl as [Hr Hl]. intros j e Hj He. rewrite length_app.
      apply lookup_app_Some in Hj as [Hj|[Hge Hj]].
      * destruct Hr. rewrite Hse. apply elem_of_list_to_set. rewrite <-He.
        by apply elem_of_map_2, (list_elem_of_lookup_2 _ j).
      * specialize (Hl _ _ Hj He). lia.
  - apply validate_finished_ok in H as (Hne & Htm & Hps & Hsuc). rewrite Hne, Htm, Hps, app_nil_r.
    constructor; cbn [rn_x rn_log rn_finish rn_pending x_next_index x_seen x_terminal static x_id
      x_scope x_limits x_read_page x_owner]; try done; [set_solver|].
    intros [= ->]. specialize (Hsuc eq_refl). rewrite <-Hsc. destruct (x_scope x) as [| root |]; [lia| |done].
    rewrite Hse in Hsuc. by apply elem_of_list_to_set in Hsuc.
Qed.

Lemma unreserved_id x : x_outstanding x = false -> unreserved x = x.
Proof. destruct x. simpl. by intros ->. Qed.

Lemma exchange_step_ok x0 r r' : exchange_step r r' -> run_ok x0 r -> run_ok x0 r'.
Proof.
  intros Hstep Hok. destruct Hstep as [x log finish report x' p H|x p report log finish x' ack H|].
  - pose proof (validate_report_inv _ _ _ _ H) as (_ & Hout & -> & _).
    destruct Hok as [Hst Hix Hse Hnd Hbd Hen Hro Hte Hsu Hpe]. constructor; try done.
    intros p' report' [= <- <-]. cbn [rn_x].
    rewrite <-(unreserved_id x Hout) in H at 1. exact H.
  - pose proof (ro_pending _ _ Hok p report eq_refl) as Hv. cbn [rn_x] in Hv.
    unfold acknowledge in H. destruct (negb _); [done|]. injection H as <- _.
    pose proof (validate_report_inv _ _ _ _ Hv) as (_ & _ & Hx & _ & _).
    assert (run_ok x0 (mkRun (unreserved x) None log finish)) as Hok'.
    { destruct Hok as [Hst Hix Hse Hnd Hbd Hen Hro Hte Hsu Hpe]. by constructor. }
    rewrite Hx in Hv at 2.
    exact (report_extends x0 (unreserved x) log finish report p Hok' eq_refl Hv).
  - destruct Hok as [Hst Hix Hse Hnd Hbd Hen Hro Hte Hsu Hpe]. by constructor.
Qed.

Lemma open_exchange_inv owner id scope limits page x :
  (0 <= ml_max_effects limits)%Z -> open_exchange owner id scope limits page = Ok x ->
  run_ok x (mkRun x None [] None) /\ x_limits x = limits /\ x_scope x = scope /\
  (ml_max_effects limits <= MAX_MUTATION_EFFECTS)%Z.
Proof.
  intros Hw. unfold open_exchange. destruct (_ || _) eqn:E; [done|].
  apply orb_false_iff in E as [[[E1%Z.eqb_neq E2%Z.ltb_ge]%orb_false_iff _]%orb_false_iff _].
  destruct (_ && _); [done|]. intros H. unbind H. injection H as <-. split; [|by split_and!].
  constructor; cbn; solve [done|by apply NoDup_nil|by apply Forall_nil|by destruct scope|lia].
Qed.

Lemma exchange_reachable_ok x0 r :
  run_ok x0 (mkRun x0 None [] None) -> exchange_reachable x0 r -> run_ok x0 r.
Proof. intros H0. induction 1; [done|]. by eapply exchange_step_ok. Qed.

(** ** Theorems *)

(** C30: whatever a client reports, in whatever order, the acknowledged effects
    stay within the grant: at most the granted number of effects, each on a
    canonical path of the granted scope, no path twice, of the granted kind, a
    read within its byte bound; a recursive delete reports its root last; a
    success is acknowledged only for a complete claim; and once a finish is
    acknowledged every further report is refused. *)
Theorem exchange_sound (owner : nat) (id : MutationId) (scope : MutationScope)
    (limits : MutationLimits) (page : option PageRequest) (x0 : Exchange) (r : Run)
    (Hw : (0 <= ml_max_effects limits)%Z)
    (Ho : open_exchange owner id scope limits page = Ok x0) (Hr : exchange_reachable x0 r) :
  (Z.of_nat (length (rn_log r)) <= ml_max_effects limits <= MAX_MUTATION_EFFECTS)%Z /\
  NoDup (map ef_path (rn_log r)) /\ Forall (entry_ok x0) (rn_log r) /\
  match scope with
  | Exact _ _ => rn_finish r = Some FSuccess -> length (rn_log r) = 1
  | RecursiveDelete root =>
      (forall i e, rn_log r !! i = Some e -> ef_path e = root -> S i = length (rn_log r)) /\
      (rn_finish r = Some FSuccess -> root ∈ map ef_path (rn_log r))
  | Directories _ => True
  end /\
  (rn_finish r <> None -> forall report, validate_report (rn_x r) report = Err RTerminal).
Proof.
  apply open_exchange_inv in Ho as (H0 & <- & <- & Hmax); [|done].
  destruct (exchange_reachable_ok x0 r H0 Hr) as [Hst Hix Hse Hnd Hbd Hen Hro Hte Hsu Hpe].
  split_and!; [done..| |].
  - by destruct (x_scope x0).
  - intros Hf report. unfold validate_report. rewrite Hte. by destruct (rn_finish r).
Qed.

(** ** Witnesses *)

Definition demo_id : MutationId := mkId 7 1.
Definition demo_limits : MutationLimits := mkLimits 16 4 1000 0.
Definition demo_delete (path : string) : EffectEntry := mkEffect path DeletedEntry None None None.
Definition demo_reports : list MutationReport :=
  [Batch demo_id 0 [demo_delete "/a/b/c"; demo_delete "/a/b"]; Batch demo_id 2 [demo_delete "/a"];
   Finished demo_id 3 FSuccess None].

(** Every report validated and acknowledged in turn. *)
Fixpoint drive (r : Run) (reports : list MutationReport) : option Run :=
  match reports with
  | [] => Some r
  | report :: reports' =>
      match validate_report (rn_x r) report with
      | Ok (x, p) =>
          match acknowledge x p with
          | Ok (x', _) =>
              drive (mkRun x' None (rn_log r ++ effects_of report) (finish_of report (rn_finish r)))
                reports'
          | Err _ => None
          end
      | Err _ => None
      end
  end.

Lemma drive_reachable x0 reports : forall r r',
  exchange_reachable x0 r -> rn_pending r = None -> drive r reports = Some r' ->
  exchange_reachable x0 r'.
Proof.
  induction reports as [|report reports IH]; intros [x pend log fin] r' Hr Hp H; cbn in Hp, H.
  { by injection H as <-. }
  subst pend. destruct (validate_report x report) as [[x1 p]|] eqn:Ev; [|done].
  destruct (acknowledge x1 p) as [[x2 ack]|] eqn:Ea; [|done].
  refine (IH _ _ _ _ H); [|reflexivity]. eapply er_step; [eapply er_step; [exact Hr|by apply es_validate]|].
  by eapply es_acknowledge.
Qed.

Definition demo_exchange : Exchange :=
  mkExchange demo_id (RecursiveDelete "/a") demo_limits None 0 0 false false ∅.

Lemma exchange_sound_witness :
  open_exchange 0 demo_id (RecursiveDelete "/a") demo_limits None = Ok demo_exchange /\
  match drive (mkRun demo_exchange None [] None) demo_reports with
  | Some r => length (rn_log r) = 3 /\ "/a" ∈ map ef_path (rn_log r)
  | None => False
  end.
Proof.
  split; [reflexivity|].
  assert (match drive (mkRun demo_exchange None [] None) demo_reports with
          | Some r => length (rn_log r) = 3 /\ rn_finish r = Some FSuccess
          | None => False end) as H by (vm_compute; split; reflexivity).
  destruct (drive _ demo_reports) as [r|] eqn:Ed; [|destruct H].
  destruct H as [Hl Hf]. split; [exact Hl|].
  destruct (exchange_sound 0 demo_id (RecursiveDelete "/a") demo_limits None demo_exchange r)
    as (_ & _ & _ & [_ Hs] & _).
  - discriminate.
  - reflexivity.
  - exact (drive_reachable _ demo_reports _ _ (er_begin _) eq_refl Ed).
  - exact (Hs Hf).
Defined.
