(* ===== verification/RustNet.v ===== *)
(** * Internet addresses: what the program uses of [std::net]

    [Ipv4Addr::from_str] and [Ipv6Addr::from_str] as the standard library's
    recursive-descent parser reads them: every step takes the rest of the text
    and either consumes a piece of it or leaves it where it was. *)
From stdpp Require Import base list strings.
From Stdlib Require Import ZArith Lia Ascii.
From S2P Require Import Prelude RustStr.
Open Scope nat_scope.

Definition digit_value (radix : Z) (c : ascii) : option Z :=
  let n := Z.of_nat (nat_of_ascii c) in
  let v := if is_ascii_digit c then Some (n - 48)%Z
           else if byte_in 97 122 c then Some (n - 87)%Z
           else if byte_in 65 90 c then Some (n - 55)%Z
           else None in
  match v with Some d => if (d <? radix)%Z then Some d else None | None => None end.

(** [read_number]: the digits in a row, at most [max_digits] of them and
    below [bound], the type's size. *)
Fixpoint read_digits (radix bound : Z) (max_digits count : nat) (acc : Z) (s : string)
  : option (Z * nat * string) :=
  match s with
  | EmptyString => Some (acc, count, s)
  | String c s' =>
      match digit_value radix c with
      | None => Some (acc, count, s)
      | Some d =>
          let acc' := (acc * radix + d)%Z in
          if (bound <=? acc')%Z then None
          else match max_digits with
               | O => None
               | S m => read_digits radix bound m (S count) acc' s'
               end
      end
  end.

Definition read_number (radix bound : Z) (max_digits : nat) (allow_zero_prefix : bool) (s : string)
  : option (Z * string) :=
  match read_digits radix bound max_digits 0 0 s with
  | None => None
  | Some (v, count, r) =>
      if count =? 0 then None
      else if negb allow_zero_prefix && starts_with "0" s && (1 <? count) then None
      else Some (v, r)
  end.

(** [read_separator]: the separator before every piece but the first. *)
Definition read_separator {A} (sep : string) (index : nat) (inner : string -> option (A * string))
    (s : string) : option (A * string) :=
  if index =? 0 then inner s else match strip_prefix sep s with Some r => inner r | None => None end.

Fixpoint read_octets (n index : nat) (s : string) : option (list Z * string) :=
  match n with
  | O => Some ([], s)
  | S n' =>
      match read_separator "." index (read_number 10 256 3 false) s with
      | None => None
      | Some (o, r) =>
          match read_octets n' (S index) r with
          | None => None
          | Some (os, r') => Some (o :: os, r')
          end
      end
  end.
Definition read_ipv4_addr (s : string) : option (list Z * string) := read_octets 4 0 s.

Definition MAX_IPV4_TEXT : nat := 15.
Definition ipv4_parse (s : string) : option (list Z) :=
  if MAX_IPV4_TEXT <? String.length s then None
  else match read_ipv4_addr s with Some (os, EmptyString) => Some os | _ => None end.
Definition ipv4_is_loopback (octets : list Z) : bool :=
  match octets with a :: _ => (a =? 127)%Z | [] => false end.

(** [read_groups]: the groups read and whether they end in a dotted quad,
    which needs two groups left. *)
Fixpoint read_groups (limit index : nat) (s : string) : list Z * bool * string :=
  match limit with
  | O => ([], false, s)
  | S limit' =>
      let v4 := if limit' =? 0 then None else read_separator ":" index read_ipv4_addr s in
      match v4 with
      | Some ([a; b; c; d], r) => ([a * 256 + b; c * 256 + d]%Z, true, r)
      | _ =>
          match read_separator ":" index (read_number 16 65536 4 true) s with
          | None => ([], false, s)
          | Some (g, r) => let '(gs, quad, r') := read_groups limit' (S index) r in (g :: gs, quad, r')
          end
      end
  end.

Definition read_ipv6_addr (s : string) : option (list Z * string) :=
  let '(head, head_quad, r) := read_groups 8 0 s in
  if length head =? 8 then Some (head, r)
  else if head_quad then None
  else match strip_prefix "::" r with
       | None => None
       | Some r' =>
           let '(tail, _, r'') := read_groups (8 - (length head + 1)) 0 r' in
           Some (head ++ repeat 0%Z (8 - length head - length tail) ++ tail, r'')
       end.

Definition ipv6_parse (s : string) : option (list Z) :=
  match read_ipv6_addr s with Some (gs, EmptyString) => Some gs | _ => None end.
Definition ipv6_is_loopback (groups : list Z) : bool := bool_decide (groups = repeat 0%Z 7 ++ [1%Z]).

(** [p.parse::<u16>()] of decimal digits. *)
Definition u16_of_digits (s : string) : option Z := fst <$> read_number 10 u16_max (String.length s) true s.

(** ** Lemmas *)

Lemma read_octets_length n : forall i s os r, read_octets n i s = Some (os, r) -> length os = n.
Proof.
  induction n as [|n IH]; intros i s os r H; simpl in H; [by injection H as <- <-|].
  destruct (read_separator _ _ _ _) as [[o r1]|]; [|done].
  destruct (read_octets n (S i) r1) as [[os1 r2]|] eqn:E; [|done].
  injection H as <- <-. simpl. f_equal. by eapply IH.
Qed.

Lemma read_groups_length limit : forall i s gs q r,
  read_groups limit i s = (gs, q, r) -> length gs <= limit.
Proof.
  induction limit as [|limit IH]; intros i s gs q r H; simpl in H; [by injection H as <- <- <-|].
  set (v4 := if limit =? 0 then None else _) in H.
  assert (v4 = None \/ 1 <= limit) as Hl.
  { subst v4. destruct limit; [by left|right; lia]. }
  clearbody v4.
  assert (forall g r', (let '(gs', quad, r'') := read_groups limit (S i) r' in (g :: gs', quad, r''))
                       = (gs, q, r) -> length gs <= S limit) as Hstep.
  { intros g r' H'. destruct (read_groups limit (S i) r') as [[gs' q'] r''] eqn:E.
    injection H' as <- <- <-. simpl. apply IH in E. lia. }
  assert (match read_separator ":" i (read_number 16 65536 4 true) s with
          | None => ([], false, s)
          | Some (g, r) => let '(gs, quad, r') := read_groups limit (S i) r in (g :: gs, quad, r')
          end = (gs, q, r) -> length gs <= S limit) as Hg.
  { destruct (read_separator _ _ _ _) as [[g r']|]; [apply Hstep|]. intros [= <- <- <-]. simpl. lia. }
  destruct Hl as [-> | Hl]; [auto|].
  destruct v4 as [[[|a [|b [|c [|d [|? ?]]]]] r']|]; auto. injection H as <- <- <-. simpl. lia.
Qed.

(** An address has eight groups, however it was abbreviated. *)
Lemma ipv6_parse_length s gs : ipv6_parse s = Some gs -> length gs = 8.
Proof.
  unfold ipv6_parse. destruct (read_ipv6_addr s) as [[l r]|] eqn:E; [|done].
  destruct r; [|done]. intros [= ->]. unfold read_ipv6_addr in E.
  destruct (read_groups 8 0 s) as [[head q] r] eqn:Eh. destruct (Nat.eqb_spec (length head) 8).
  { injection E as <- _. done. }
  destruct q; [done|]. destruct (strip_prefix "::" r) as [r'|]; [|done].
  destruct (read_groups _ 0 r') as [[tail q] r''] eqn:Et. injection E as <- _.
  apply read_groups_length in Eh, Et. rewrite !length_app, repeat_length. lia.
Qed.

Example net_ex :
  ipv4_parse "127.0.0.1" = Some [127; 0; 0; 1]%Z /\ ipv4_parse "127.0.0.01" = None /\
  ipv4_parse "1.2.3" = None /\ ipv4_parse "256.0.0.1" = None /\
  ipv6_is_loopback <$> ipv6_parse "::1" = Some true /\
  ipv6_parse "::ffff:127.0.0.1" = Some [0; 0; 0; 0; 0; 65535; 32512; 1]%Z /\
  ipv6_parse "1::2::3" = None /\ ipv6_parse "fe80::1" = Some [65152; 0; 0; 0; 0; 0; 0; 1]%Z /\
  ipv6_parse "1:2:3:4:5:6:7:8" = Some [1; 2; 3; 4; 5; 6; 7; 8]%Z /\ ipv6_parse ":1" = None.
Proof. vm_compute. repeat split. Qed.
