(* ===== verification/Providers.v ===== *)
(** * Authorized providers, user keys and egress bounds

    [crates/maknae-config/src/providers.rs], [bounds.rs] and [egress_cfg.rs]:
    the provider registry, the shape of a user's key path and the Egress
    Daemon's operating bounds; the username rule of
    [crates/maknae-vault/src/user_login.rs]; the kernel's admission of a
    request's provider choice ([crates/maknae-kernel/src/provider_choice.rs])
    and its boot gate over the bounds ([boot_gate.rs]). *)
From stdpp Require Import base list strings sets.
From Stdlib Require Import ZArith Lia Ascii.
From S2P Require Import Prelude RustStr RustSlice RustNet Config Graph GraphFormat Wire.
Open Scope nat_scope.

(** ** The provider registry ([providers.rs]) *)

Definition PROVIDERS_SECTION : string := "providers".
Definition PROVIDER_KEYS : list string :=
  ["name"; "endpoint"; "models"; "reasoning_effort"; "output_tokens_field"].
Definition OUTPUT_TOKENS_FIELDS : list string := ["max_completion_tokens"; "max_tokens"].
Definition MAX_KEY_FIELD_BYTES : nat := 64.
Definition MAX_REASONING_EFFORT_BYTES : nat := 16.
Definition MAX_PROVIDERS : nat := 32.
Definition MAX_MODELS_PER_PROVIDER : nat := 32.
Definition MAX_KEY_SUBPATH_BYTES : nat := 256.
Definition PLAINTEXT_KEY_KEYS : list string :=
  ["key"; "api_key"; "apikey"; "token"; "secret"; "secret_key"; "bearer"].

Record AuthorizedProvider := mkProvider {
  ap_name : string; ap_endpoint : string; ap_models : list string;
  ap_reasoning_effort : option string; ap_output_tokens_field : option string }.

Definition ProviderSet := list AuthorizedProvider.
Definition set_get (s : ProviderSet) (name : string) : option AuthorizedProvider :=
  List.find (fun p => String.eqb (ap_name p) name) s.
Definition set_is_empty (s : ProviderSet) : bool := match s with [] => true | _ => false end.

Definition key_field_is_acceptable (s : string) : bool :=
  negb (is_empty s) && (String.length s <=? MAX_KEY_FIELD_BYTES) && all_bytes is_ascii_graphic s.

(** The checks of one segment of a path; [i] counts the segments, [last] is
    the index of the last. *)
Definition empty_segment (i last : nat) : string :=
  if i =? 0 then "must not start with '/'"
  else if i =? last then "must not end with '/'"
  else "has an empty interior path segment".

Fixpoint subpath_segments (i last : nat) (segs : list string) : result unit string :=
  match segs with
  | [] => Ok tt
  | seg :: segs' =>
      if is_empty seg then Err (empty_segment i last)
      else if negb (all_bytes safe_token_byte seg) then Err "has a character outside [A-Za-z0-9._-]"
      else if String.eqb seg "." || String.eqb seg ".." then Err "has a '.' or '..' segment"
      else if String.eqb seg "data" then Err "has a 'data' segment"
      else subpath_segments (S i) last segs'
  end.

Definition key_subpath_is_acceptable (s : string) : result unit string :=
  if is_empty s then Err "is empty"
  else if MAX_KEY_SUBPATH_BYTES <? String.length s
  then Err ("exceeds " +:+ dec (Z.of_nat MAX_KEY_SUBPATH_BYTES) +:+ " bytes")
  else let segs := split_char slash s in subpath_segments 0 (length segs - 1) segs.

(** ** Path shapes ([bounds.rs]) *)

Definition EGRESS_BOUNDS_FILE : string := "egress-bounds.yaml".
Definition MAX_USER_PREFIX_BYTES : nat := 256.

Fixpoint kv_segments (i last : nat) (segs : list string) : result unit string :=
  match segs with
  | [] => Ok tt
  | seg :: segs' =>
      if is_empty seg then Err (empty_segment i last)
      else if String.eqb seg "." || String.eqb seg ".." then Err "has a '.' or '..' segment"
      else if String.eqb seg "data"
      then Err ("contains a 'data' segment — the mount and the KV v2 'data/' segment " +:+
                "are no longer written in configuration (#308); write the path as " +:+
                "your Vault CLI shows it")
      else kv_segments (S i) last segs'
  end.

Definition kv_fragment_is_acceptable (s : string) : result unit string :=
  if is_empty s then Err "is empty"
  else if has_white_space s then Err "contains whitespace"
  else let segs := split_char slash s in kv_segments 0 (length segs - 1) segs.

Definition vault_path_byte (b : ascii) : bool :=
  is_ascii_alphanumeric b || Ascii.eqb b "." || Ascii.eqb b "_" || Ascii.eqb b slash || Ascii.eqb b "-".
Definition vault_path_is_safe (s : string) : bool := negb (is_empty s) && all_bytes vault_path_byte s.

Definition path_is_within_prefix (path prefix : string) : bool :=
  if is_empty prefix || is_empty path then false
  else let p := default prefix (strip_suffix "/" prefix) in
       match strip_prefix p path with
       | Some rest => starts_with "/" rest && (1 <? String.length rest)
       | None => false
       end.

(** ** A user's key path ([providers.rs]) *)

Definition user_key_path (user_prefix username subpath : string) : result string string :=
  if MAX_USER_PREFIX_BYTES <? String.length user_prefix
  then Err ("the user prefix exceeds " +:+ dec (Z.of_nat MAX_USER_PREFIX_BYTES) +:+ " bytes")
  else
    let? _ := map_err (fun why => "the user prefix " +:+ why) (kv_fragment_is_acceptable user_prefix) in
    if negb (vault_path_is_safe user_prefix)
    then Err "the user prefix has a character outside [A-Za-z0-9._/-]"
    else if contains_char slash username then Err "the username is not one path segment"
    else if String.eqb username "data"
    then Err "the username 'data' is not a usable Vault path segment"
    else
      let? _ := map_err (fun why => "the username " +:+ why) (kv_fragment_is_acceptable username) in
      if negb (all_bytes safe_token_byte username)
      then Err "the username has a character outside [A-Za-z0-9._-]"
      else
        let? _ := map_err (fun why => "the key subpath " +:+ why) (key_subpath_is_acceptable subpath) in
        Ok (user_prefix +:+ "/" +:+ username +:+ "/" +:+ subpath).

(** ** Endpoints *)

Definition reasoning_effort_is_acceptable (s : string) : bool :=
  negb (is_empty s) && (String.length s <=? MAX_REASONING_EFFORT_BYTES)
  && all_bytes is_ascii_lowercase s.

Definition host_byte (c : ascii) : bool :=
  is_ascii_alphanumeric c || Ascii.eqb c "." || Ascii.eqb c "-".

(** The text holds [frag]. *)
Definition contains_str (frag s : string) : bool := is_some (split_once frag s).

(** The port after the last colon of an authority, when it carries one. *)
Definition port_is_acceptable (p : string) : bool :=
  negb (is_empty p) && all_bytes is_ascii_digit p
  && negb (starts_with "0" p) && is_some (u16_of_digits p).

(** Whether the authority names loopback, and its port text; [None]: refused. *)
Definition authority_host (authority : string) : option (bool * option string) :=
  match strip_prefix "[" authority with
  | Some v6 =>
      match split_once "]" v6 with
      | None => None
      | Some (h, rest) =>
          match ipv6_parse h with
          | None => None
          | Some addr =>
              match strip_prefix ":" rest with
              | Some p => Some (ipv6_is_loopback addr, Some p)
              | None => if is_empty rest then Some (ipv6_is_loopback addr, None) else None
              end
          end
      end
  | None =>
      let '(h, port) := match split_once ":" authority with
                        | Some (h, p) => (h, Some p)
                        | None => (authority, None)
                        end in
      if negb (is_empty h) && all_bytes host_byte h
         && negb (starts_with "-" h || starts_with "." h)
         && negb (ends_with "-" h || ends_with "." h) && negb (contains_str ".." h)
      then
        if all_bytes (fun b => is_ascii_digit b || Ascii.eqb b ".") h
        then match ipv4_parse h with
             | Some addr => Some (ipv4_is_loopback addr, port)
             | None => None
             end
        else Some (String.eqb h "localhost", port)
      else None
  end.

Definition authority_of (rest : string) : string := default "" (head (split_char slash rest)).

Definition endpoint_is_acceptable (url : string) : bool :=
  if has_white_space url then false
  else
    match (match strip_prefix "https://" url with
           | Some r => Some (true, r)
           | None => (fun r => (false, r)) <$> strip_prefix "http://" url
           end) with
    | None => false
    | Some (secure, rest) =>
        let authority := authority_of rest in
        if contains_char "@" authority then false
        else match authority_host authority with
             | None => false
             | Some (loopback, port) =>
                 match port with
                 | Some p => if port_is_acceptable p then secure || loopback else false
                 | None => secure || loopback
                 end
             end
    end.

(** ** Parsing the section *)

Definition is_plaintext_key (k : string) : bool :=
  existsb (String.eqb (to_ascii_lowercase k)) PLAINTEXT_KEY_KEYS.

Fixpoint refuse_plaintext_keys (v : Value) : result unit ConfigError :=
  match v with
  | VMap m =>
      match List.find (fun kv => is_plaintext_key (fst kv)) m with
      | Some (k, _) => Err (CEProviderPlaintextKey k)
      | None => Ok tt
      end
  | VSeq items =>
      (fix each (l : list Value) : result unit ConfigError :=
         match l with
         | [] => Ok tt
         | x :: l' => let? _ := refuse_plaintext_keys x in each l'
         end) items
  | _ => Ok tt
  end.

Definition required_str (m : list (string * Value)) (at_ key : string) : result string ConfigError :=
  match get m key with
  | None => Err (CEInvalidProvider (at_ +:+ ": missing '" +:+ key +:+ "'"))
  | Some (VStr s) => Ok s
  | Some _ => Err (CEInvalidProvider (at_ +:+ "." +:+ key +:+ " must be a string"))
  end.

Fixpoint models_loop (at_ : string) (models : list string) (items : list Value)
  : result (list string) ConfigError :=
  match items with
  | [] => Ok models
  | VStr model :: items' =>
      if negb (model_is_acceptable model)
      then Err (CEInvalidProvider (at_ +:+ ".models entries must be 1 to " +:+
                                   dec (Z.of_nat MAX_MODEL_BYTES) +:+
                                   " printable ASCII characters with no whitespace"))
      else if existsb (String.eqb model) models
      then Err (CEInvalidProvider (at_ +:+ ".models lists '" +:+ model +:+ "' more than once"))
      else models_loop at_ (models ++ [model]) items'
  | _ :: _ => Err (CEInvalidProvider (at_ +:+ ".models entries must be strings"))
  end.

Definition models_of (m : list (string * Value)) (at_ : string) : result (list string) ConfigError :=
  let shape := CEInvalidProvider (at_ +:+ ".models must be a list of 1 to " +:+
                 dec (Z.of_nat MAX_MODELS_PER_PROVIDER) +:+ " model identifiers") in
  match get m "models" with
  | Some (VSeq items) =>
      if match items with [] => true | _ => false end || (MAX_MODELS_PER_PROVIDER <? length items)
      then Err shape else models_loop at_ [] items
  | _ => Err shape
  end.

Definition optional_str (m : list (string * Value)) (key : string) (ok : string -> bool) (why : string)
  : result (option string) ConfigError :=
  match get m key with
  | None => Ok None
  | Some (VStr s) => if ok s then Ok (Some s) else Err (CEInvalidProvider why)
  | Some _ => Err (CEInvalidProvider why)
  end.

Definition provider_entry (i : nat) (item : Value) : result AuthorizedProvider ConfigError :=
  let at_ := "providers[" +:+ dec (Z.of_nat i) +:+ "]" in
  match item with
  | VMap m =>
      let? _ := reject_unknown_keys PROVIDERS_SECTION m PROVIDER_KEYS in
      let? name := required_str m at_ "name" in
      if negb (provider_name_is_acceptable name)
      then Err (CEInvalidProvider (at_ +:+ ".name must be 1 to " +:+
             dec (Z.of_nat MAX_PROVIDER_NAME_BYTES) +:+ " bytes of ASCII letters, digits, '-', '_' " +:+
             "and '.' (it is written into every egress audit record)"))
      else
        let? endpoint := required_str m at_ "endpoint" in
        if negb (endpoint_is_acceptable endpoint)
        then Err (CEInvalidProvider (at_ +:+ ".endpoint must be an https:// URL " +:+
                                     "(http:// is permitted to loopback only)"))
        else
          let? models := models_of m at_ in
          let? reasoning_effort :=
            optional_str m "reasoning_effort" reasoning_effort_is_acceptable
              (at_ +:+ ".reasoning_effort must be 1 to " +:+
               dec (Z.of_nat MAX_REASONING_EFFORT_BYTES) +:+ " lowercase ASCII letters") in
          let? output_tokens_field :=
            optional_str m "output_tokens_field"
              (fun s => existsb (String.eqb s) OUTPUT_TOKENS_FIELDS)
              (at_ +:+ ".output_tokens_field must be max_completion_tokens or max_tokens") in
          Ok (mkProvider name endpoint models reasoning_effort output_tokens_field)
  | _ => Err (CEInvalidProvider (at_ +:+ " must be a map"))
  end.

Fixpoint providers_loop (i : nat) (set : ProviderSet) (items : list Value)
  : result ProviderSet ConfigError :=
  match items with
  | [] => Ok set
  | item :: items' =>
      let? provider := provider_entry i item in
      if existsb (fun p => String.eqb (ap_name p) (ap_name provider)) set
      then Err (CEInvalidProvider ("providers[" +:+ dec (Z.of_nat i) +:+ "].name '" +:+
                                   ap_name provider +:+ "' is listed more than once"))
      else providers_loop (S i) (set ++ [provider]) items'
  end.

Definition providers_from_section (v : option Value) : result ProviderSet ConfigError :=
  match v with
  | None => Ok []
  | Some section =>
      let? _ := refuse_plaintext_keys section in
      match section with
      | VSeq items =>
          if MAX_PROVIDERS <? length items
          then Err (CEInvalidProvider ("providers may list at most " +:+
                                       dec (Z.of_nat MAX_PROVIDERS) +:+ " entries"))
          else providers_loop 0 [] items
      | _ => Err (CEInvalidProvider "providers must be a sequence of provider entries")
      end
  end.

(** ** Egress bounds ([bounds.rs]) and the [egress] section ([egress_cfg.rs]) *)

Definition DEADLINE_MARGIN_MS : Z := 100000.
Definition VAULT_CALLS_MS : Z := 60000.
Definition EGRESS_DEADLINE_MS_MAX : Z := 600000.
Definition CALL_TIMEOUT_MS_MAX : Z := EGRESS_DEADLINE_MS_MAX - VAULT_CALLS_MS - DEADLINE_MARGIN_MS.
Definition DEFAULT_CALL_TIMEOUT_MS : Z := 120000.
Definition DEFAULT_DEADLINE_MS : Z := 280000.
Definition DEFAULT_SOCKET_PATH : string := "/run/maknae-egress/egress.sock".
Definition in_call_timeout_range (n : Z) : bool := ((1000 <=? n) && (n <=? CALL_TIMEOUT_MS_MAX))%Z.
Definition in_deadline_range (n : Z) : bool := ((1000 <=? n) && (n <=? EGRESS_DEADLINE_MS_MAX))%Z.

Record EgressBounds := mkBounds {
  eb_kv_mount : string; eb_user_prefix : string; eb_vault_addr : string; eb_call_timeout_ms : Z }.

Definition bounds_err (reason : string) : ConfigError := CEInvalidEgressBounds reason.
Definition over_bytes (name : string) : ConfigError :=
  bounds_err ("'" +:+ name +:+ "' exceeds " +:+ dec (Z.of_nat MAX_USER_PREFIX_BYTES) +:+ " bytes").

(** The closure [required]: a string member that is a usable Vault path. *)
Definition required_path (m : list (string * Value)) (name : string) : result string ConfigError :=
  match get m name with
  | Some (VStr v) =>
      if MAX_USER_PREFIX_BYTES <? String.length v then Err (over_bytes name)
      else
        let? _ := map_err (fun why => bounds_err ("'" +:+ name +:+ "' " +:+ why))
                    (kv_fragment_is_acceptable v) in
        if negb (vault_path_is_safe v)
        then Err (bounds_err ("'" +:+ name +:+ "' has a character outside [A-Za-z0-9._/-]"))
        else Ok v
  | _ => Err (bounds_err ("'" +:+ name +:+ "' is required and must be a string"))
  end.

Definition vault_addr_of (m : list (string * Value)) : result string ConfigError :=
  match get m "vault" with
  | None => Err (bounds_err "'vault' is required (addr)")
  | Some (VMap vm) =>
      let? _ := reject_unknown_keys (EGRESS_BOUNDS_FILE +:+ "/vault") vm ["addr"] in
      match get vm "addr" with
      | Some (VStr addr) =>
          if is_empty addr || has_white_space addr
          then Err (bounds_err "'vault.addr' must be a non-empty URL without whitespace")
          else if MAX_USER_PREFIX_BYTES <? String.length addr then Err (over_bytes "vault.addr")
          else Ok addr
      | _ => Err (bounds_err "'vault.addr' is required and must be a string")
      end
  | Some _ => Err (bounds_err "'vault' must be a mapping")
  end.

Definition call_timeout_of (m : list (string * Value)) : result Z ConfigError :=
  match get m "call_timeout_ms" with
  | None => Ok DEFAULT_CALL_TIMEOUT_MS
  | Some (VInt n) =>
      if in_call_timeout_range n then Ok n
      else Err (bounds_err ("'call_timeout_ms' " +:+ int_to_string n +:+ " out of range 1000..=" +:+
                            dec CALL_TIMEOUT_MS_MAX))
  | Some _ => Err (bounds_err "'call_timeout_ms' must be an integer (milliseconds)")
  end.

Definition bounds_from_document (v : Value) : result EgressBounds ConfigError :=
  match v with
  | VMap m =>
      let? _ := reject_unknown_keys EGRESS_BOUNDS_FILE m
                  ["user_prefix"; "kv_mount"; "vault"; "call_timeout_ms"] in
      let? kv_mount := required_path m "kv_mount" in
      let? user_prefix := required_path m "user_prefix" in
      let? vault_addr := vault_addr_of m in
      let? call_timeout_ms := call_timeout_of m in
      Ok (mkBounds kv_mount user_prefix vault_addr call_timeout_ms)
  | _ => Err (bounds_err "expected a mapping at the top level")
  end.

Record EgressConfig := mkEgressConfig { ec_socket_path : string; ec_deadline_ms : Z }.
Definition egress_config_default : EgressConfig := mkEgressConfig DEFAULT_SOCKET_PATH DEFAULT_DEADLINE_MS.

Definition egress_err (field reason : string) : ConfigError :=
  CEInvalidEgress ("egress." +:+ field +:+ ": " +:+ reason).

Definition egress_from_section (v : option Value) : result EgressConfig ConfigError :=
  match v with
  | None => Ok egress_config_default
  | Some (VMap entries) =>
      let? _ := reject_unknown_keys "egress" entries ["socket_path"; "deadline_ms"] in
      let? socket_path :=
        match get entries "socket_path" with
        | None => Ok DEFAULT_SOCKET_PATH
        | Some (VStr s) =>
            if is_empty s then Err (egress_err "socket_path" "must not be empty") else Ok s
        | Some _ => Err (egress_err "socket_path" "must be a string")
        end in
      let? deadline_ms :=
        match get entries "deadline_ms" with
        | None => Ok DEFAULT_DEADLINE_MS
        | Some (VInt n) =>
            if in_deadline_range n then Ok n
            else Err (egress_err "deadline_ms" (int_to_string n +:+ " out of range 1000..=" +:+
                                                dec EGRESS_DEADLINE_MS_MAX))
        | Some _ => Err (egress_err "deadline_ms" "must be an integer")
        end in
      Ok (mkEgressConfig socket_path deadline_ms)
  | Some _ => Err (CEInvalidEgress "egress section must be a map")
  end.

(** ** Usernames ([user_login.rs]) *)

Definition MAX_USERNAME_BYTES : nat := 32.
Definition word_byte (b : ascii) : bool := is_ascii_alphanumeric b || Ascii.eqb b "_".
Definition username_byte (b : ascii) : bool :=
  is_ascii_lowercase b || is_ascii_digit b || Ascii.eqb b "." || Ascii.eqb b "_" || Ascii.eqb b "-".

Fixpoint last_byte (a : ascii) (s : string) : ascii :=
  match s with EmptyString => a | String b s' => last_byte b s' end.

Definition userpass_username_is_acceptable (name : string) : result unit string :=
  match name with
  | EmptyString => Err "is empty"
  | String first rest =>
      if MAX_USERNAME_BYTES <? String.length name
      then Err ("exceeds " +:+ dec (Z.of_nat MAX_USERNAME_BYTES) +:+ " bytes")
      else if negb (all_bytes (fun b => negb (is_ascii_uppercase b)) name)
      then Err "has an upper-case letter; userpass stores usernames lower-cased"
      else if negb (all_bytes username_byte name) then Err "has a character outside [a-z0-9._-]"
      else if negb (word_byte first) || negb (word_byte (last_byte first rest))
      then Err "must start and end with [a-z0-9_]"
      else Ok tt
  end.

(** ** Admitting a provider choice ([provider_choice.rs]) *)

Record ProviderAuthority := mkAuthority { pa_set : ProviderSet; pa_user_prefix : string }.

Definition provider_authority (set : ProviderSet) (bounds : option EgressBounds)
  : option ProviderAuthority :=
  match bounds with
  | Some b => if negb (set_is_empty set) then Some (mkAuthority set (eb_user_prefix b)) else None
  | None => None
  end.

Record AdmittedChoice := mkAdmitted {
  ac_provider : AuthorizedProvider; ac_model : string; ac_key_vault_path : string;
  ac_key_field : string; ac_sealed_key : bytes }.

Inductive ChoiceRefusal :=
| NoChoice | NoProviders | UnknownProvider | ModelNotListed | UnsafeUsername
| MalformedSubpath | MalformedField.

Definition username_usable (u : string) : bool :=
  is_ok (userpass_username_is_acceptable u) && is_ok (kv_fragment_is_acceptable u).

Definition admit_choice (set : ProviderSet) (choice : option ProviderChoice)
    (username : option string) (user_prefix : string) : result AdmittedChoice ChoiceRefusal :=
  let? choice := ok_or choice NoChoice in
  if set_is_empty set then Err NoProviders
  else
    let? provider := ok_or (set_get set (pc_provider choice)) UnknownProvider in
    if negb (existsb (String.eqb (pc_model choice)) (ap_models provider)) then Err ModelNotListed
    else
      let? username := ok_or (match username with
                              | Some u => if username_usable u then Some u else None
                              | None => None
                              end) UnsafeUsername in
      if negb (is_ok (key_subpath_is_acceptable (pc_key_subpath choice))) then Err MalformedSubpath
      else if negb (key_field_is_acceptable (pc_key_field choice)) then Err MalformedField
      else
        let? key_vault_path := map_err (fun _ => MalformedSubpath)
                                 (user_key_path user_prefix username (pc_key_subpath choice)) in
        Ok (mkAdmitted provider (pc_model choice) key_vault_path (pc_key_field choice)
              (pc_sealed_key choice)).

(** ** The boot gate over the bounds ([boot_gate.rs]) *)

Inductive EgressBoundsRefusal := Undeclared (e : string) | Refused (e : string).
Definition VAULT_API_TIMEOUT_MS : Z := 30000.

(** [url_scheme] is [url::Url::parse] followed by [scheme]; a refusal carries
    the address and the parser's error, or the scheme that is not [https]. *)
Inductive VaultAddrError :=
| AddrMalformed (addr why : string)
| AddrNotHttps (addr scheme : string).

Definition validate_vault_addr (url_scheme : string -> result string string) (addr : string)
  : result unit VaultAddrError :=
  let? scheme := map_err (AddrMalformed addr) (url_scheme addr) in
  if negb (String.eqb scheme "https") then Err (AddrNotHttps addr scheme) else Ok tt.

(** Only the texts of the refusals depend on how an address error prints. *)
Definition egress_bounds_boot_gate (url_scheme : string -> result string string)
    (display : VaultAddrError -> string) (providers : ProviderSet) (bounds : option EgressBounds) (deadline_ms : Z)
  : result unit EgressBoundsRefusal :=
  if set_is_empty providers then Ok tt
  else match bounds with
       | None => Err (Undeclared (EGRESS_BOUNDS_FILE +:+ " is absent or unreadable"))
       | Some b =>
           let? _ := map_err (fun why => Refused ("user_prefix " +:+ why))
                       (kv_fragment_is_acceptable (eb_user_prefix b)) in
           if negb (vault_path_is_safe (eb_user_prefix b))
           then Err (Refused "user_prefix has a character outside [A-Za-z0-9._/-]")
           else if MAX_USER_PREFIX_BYTES <? String.length (eb_user_prefix b)
           then Err (Refused ("user_prefix exceeds " +:+ dec (Z.of_nat MAX_USER_PREFIX_BYTES) +:+ " bytes"))
           else
             let? _ := map_err (fun e => Refused ("vault.addr: " +:+ display e))
                         (validate_vault_addr url_scheme (eb_vault_addr b)) in
             let needed := (2 * VAULT_API_TIMEOUT_MS + eb_call_timeout_ms b + DEADLINE_MARGIN_MS)%Z in
             if (deadline_ms <? needed)%Z
             then Err (Refused ("call_timeout_ms " +:+ dec (eb_call_timeout_ms b) +:+
                    " needs egress.deadline_ms of at least " +:+ dec needed +:+ " (two Vault calls of "
                    +:+ dec VAULT_API_TIMEOUT_MS +:+ " ms and a " +:+ dec DEADLINE_MARGIN_MS +:+
                    " ms margin), but deadline_ms " +:+ dec deadline_ms +:+ " is configured"))
             else Ok tt
       end.

(** ** Lemmas: segments and prefixes *)

Definition plain_segment (s : string) : Prop := s <> "" /\ s <> "." /\ s <> ".." /\ s <> "data".

Lemma kv_segments_Ok i last segs : kv_segments i last segs = Ok tt <-> Forall plain_segment segs.
Proof.
  revert i. induction segs as [|s segs IH]; intros i; simpl; [split; [constructor|done]|].
  rewrite Forall_cons. unfold plain_segment at 1.
  destruct (is_empty s) eqn:E0; [apply is_empty_true in E0 as ->; split; [done|intros ([? _] & _); done]|].
  assert (s <> "") by (intros ->; done).
  destruct (String.eqb_spec s "."); [split; [done|tauto]|].
  destruct (String.eqb_spec s ".."); [split; [done|tauto]|]. simpl.
  destruct (String.eqb_spec s "data"); [split; [done|tauto]|]. rewrite IH. tauto.
Qed.

Lemma subpath_segments_Ok i last segs :
  subpath_segments i last segs = Ok tt <->
  Forall (fun s => plain_segment s /\ all_bytes safe_token_byte s = true) segs.
Proof.
  revert i. induction segs as [|s segs IH]; intros i; simpl; [split; [constructor|done]|].
  rewrite Forall_cons. unfold plain_segment at 1.
  destruct (is_empty s) eqn:E0;
    [apply is_empty_true in E0 as ->; split; [done|intros ([[? _] _] & _); done]|].
  assert (s <> "") by (intros ->; done).
  destruct (all_bytes safe_token_byte s) eqn:Eb; simpl; [|split; [done|intros ([_ ?] & _); done]].
  destruct (String.eqb_spec s "."); [split; [done|tauto]|].
  destruct (String.eqb_spec s ".."); [split; [done|tauto]|]. simpl.
  destruct (String.eqb_spec s "data"); [split; [done|tauto]|]. rewrite IH. tauto.
Qed.

Lemma kv_fragment_Ok s :
  kv_fragment_is_acceptable s = Ok tt <->
  has_white_space s = false /\ Forall plain_segment (split_char slash s).
Proof.
  unfold kv_fragment_is_acceptable. destruct (is_empty s) eqn:E0.
  { apply is_empty_true in E0 as ->. split; [done|]. intros [_ H]. by apply Forall_cons in H as [[? _] _]. }
  destruct (has_white_space s); [split; [done|intros [? _]; done]|]. rewrite kv_segments_Ok. tauto.
Qed.

Lemma key_subpath_Ok s :
  key_subpath_is_acceptable s = Ok tt <->
  String.length s <= MAX_KEY_SUBPATH_BYTES /\
  Forall (fun s => plain_segment s /\ all_bytes safe_token_byte s = true) (split_char slash s).
Proof.
  unfold key_subpath_is_acceptable. destruct (is_empty s) eqn:E0.
  { apply is_empty_true in E0 as ->. split; [done|]. intros [_ H]. by apply Forall_cons in H as [[[? _] _] _]. }
  destruct (Nat.ltb_spec MAX_KEY_SUBPATH_BYTES (String.length s)); [split; [done|lia]|].
  rewrite subpath_segments_Ok. split; [|tauto]. intros H1. split; [lia|done].
Qed.

Lemma white_space_head w : w ∈ white_space -> exists b r, w = String b r /\ is_ascii_graphic b = false.
Proof.
  intros H. assert (forallb (fun w => match w with
                                      | String b _ => negb (is_ascii_graphic b)
                                      | EmptyString => false end) white_space = true) as Hall
    by (vm_compute; reflexivity).
  rewrite forallb_true in Hall. specialize (Hall w H). destruct w as [|b r]; [done|].
  exists b, r. split; [done|]. by apply negb_true_iff in Hall.
Qed.

Lemma graphic_no_white_space s : all_bytes is_ascii_graphic s = true -> has_white_space s = false.
Proof.
  induction s as [|a s IH]; intros H; [by vm_compute|]. simpl in H.
  cbn [has_white_space]. apply orb_false_iff. split.
  - apply existsb_false. intros w Hw. apply white_space_head in Hw as (b & r & -> & Hb).
    apply andb_true_iff in H as [Ha _]. unfold starts_with. simpl.
    destruct (Ascii.eqb_spec b a) as [->|]; [congruence|done].
  - apply andb_true_iff in H as [_ H]. auto.
Qed.

Lemma all_bytes_mono (f g : ascii -> bool) s :
  (forall b, f b = true -> g b = true) -> all_bytes f s = true -> all_bytes g s = true.
Proof. intros H. induction s; simpl; [done|]. rewrite !andb_true_iff. intros [? ?]. auto. Qed.

Lemma all_bytes_no_char (f : ascii -> bool) c s :
  f c = false -> all_bytes f s = true -> contains_char c s = false.
Proof.
  intros Hc. induction s as [|a s IH]; simpl; [done|]. intros [Ha Hs]%andb_true_iff.
  rewrite IH by done. destruct (Ascii.eqb_spec a c) as [->|]; [congruence|done].
Qed.

Lemma byte_cases (f : ascii -> bool) :
  forallb f (map ascii_of_nat (seq 0 256)) = true -> forall b, f b = true.
Proof.
  intros H b. rewrite forallb_true in H. apply H. rewrite <-(ascii_nat_embedding b).
  apply elem_of_map_2, elem_of_seq. pose proof (nat_ascii_bounded b). lia.
Qed.

Lemma byte_implies (f g : ascii -> bool) :
  forallb (fun b => negb (f b) || g b) (map ascii_of_nat (seq 0 256)) = true ->
  forall b, f b = true -> g b = true.
Proof. intros H b Hf. pose proof (byte_cases _ H b) as Hb. simpl in Hb. by rewrite Hf in Hb. Qed.

Lemma token_graphic b : safe_token_byte b = true -> is_ascii_graphic b = true.
Proof. revert b. apply byte_implies. by vm_compute. Qed.
Lemma vault_graphic b : vault_path_byte b = true -> is_ascii_graphic b = true.
Proof. revert b. apply byte_implies. by vm_compute. Qed.
Lemma token_vault b : safe_token_byte b = true -> vault_path_byte b = true.
Proof. revert b. apply byte_implies. by vm_compute. Qed.
Lemma username_token b : username_byte b = true -> safe_token_byte b = true.
Proof. revert b. apply byte_implies. by vm_compute. Qed.

(** A prefix that does not end in a slash admits exactly the paths one segment
    or more below it. *)
Lemma within_prefix_iff path prefix :
  prefix <> "" -> strip_suffix "/" prefix = None ->
  path_is_within_prefix path prefix = true <-> exists r, r <> "" /\ path = prefix +:+ "/" +:+ r.
Proof.
  intros Hne Hs. unfold path_is_within_prefix. rewrite Hs. simpl.
  destruct (is_empty prefix) eqn:E0; [by apply is_empty_true in E0|]. simpl.
  destruct (is_empty path) eqn:E1.
  { apply is_empty_true in E1 as ->. split; [done|]. intros (r & _ & H). by destruct prefix. }
  destruct (strip_prefix prefix path) as [rest|] eqn:E.
  - apply strip_prefix_spec in E as ->. rewrite andb_true_iff, Nat.ltb_lt, starts_with_spec. split.
    + intros [[r ->] Hl]. exists r. split; [|done]. intros ->. simpl in Hl. lia.
    + intros (r & Hr & H%str_app_inj_l). subst rest. split; [by exists r|].
      destruct r; [done|]. simpl. lia.
  - split; [done|]. intros (r & _ & ->). by rewrite strip_prefix_app in E.
Qed.

Lemma no_trailing_slash s t : t <> "" -> contains_char slash t = false -> strip_suffix "/" (s +:+ t) = None.
Proof.
  intros Hne Hc. destruct (strip_suffix "/" (s +:+ t)) as [r|] eqn:E; [|done].
  apply strip_suffix_spec in E. destruct (str_suffix_le s r "/" t E) as [q Hq].
  { destruct t; [done|]. simpl. lia. }
  apply (f_equal (contains_char slash)) in Hq. rewrite Hc in Hq. exfalso. clear -Hq.
  induction q as [|a q IH]; simpl in *; [done|].
  symmetry in Hq. apply orb_false_iff in Hq as [_ Hq]. by apply IH.
Qed.

(** ** Lemmas: key paths *)

Definition prefix_ok (p : string) : Prop :=
  String.length p <= MAX_USER_PREFIX_BYTES /\ vault_path_is_safe p = true /\
  Forall plain_segment (split_char slash p).

Definition user_segment (u : string) : Prop :=
  plain_segment u /\ all_bytes safe_token_byte u = true.

Lemma safe_no_white_space f s :
  (forall b, f b = true -> is_ascii_graphic b = true) -> all_bytes f s = true ->
  has_white_space s = false.
Proof. intros Hf H. apply graphic_no_white_space. by eapply all_bytes_mono. Qed.

Lemma user_key_path_Ok prefix u sub path :
  user_key_path prefix u sub = Ok path <->
  prefix_ok prefix /\ user_segment u /\ key_subpath_is_acceptable sub = Ok tt /\
  path = prefix +:+ "/" +:+ u +:+ "/" +:+ sub.
Proof.
  unfold user_key_path, prefix_ok, user_segment.
  destruct (Nat.ltb_spec MAX_USER_PREFIX_BYTES (String.length prefix)); [split; [done|lia]|].
  destruct (vault_path_is_safe prefix) eqn:Ev.
  2:{ split; [|intros ((_ & ? & _) & _); done]. intros Hx. unbind Hx. done. }
  pose proof Ev as Hsafe. unfold vault_path_is_safe in Hsafe.
  apply andb_true_iff in Hsafe as [_ Hsafe].
  pose proof (safe_no_white_space _ _ vault_graphic Hsafe) as Hw.
  destruct (kv_fragment_is_acceptable prefix) as [[]|e] eqn:Ep; simpl.
  2:{ split; [done|]. intros ((_ & _ & Hs) & _). rewrite (proj2 (kv_fragment_Ok prefix)) in Ep; done. }
  apply kv_fragment_Ok in Ep as [_ Hps].
  destruct (all_bytes safe_token_byte u) eqn:Eu.
  2:{ split; [|intros (_ & [_ ?] & _); done]. intros Hx.
      destruct (contains_char slash u); [done|]. destruct (String.eqb u "data"); [done|].
      destruct (kv_fragment_is_acceptable u); simpl in Hx; done. }
  pose proof (all_bytes_no_char safe_token_byte slash u eq_refl Eu) as Hslash. rewrite Hslash.
  destruct (String.eqb_spec u "data") as [->|Hd].
  { split; [done|]. intros (_ & [(_ & _ & _ & ?) _] & _). done. }
  assert (kv_fragment_is_acceptable u = Ok tt <-> plain_segment u) as Hu.
  { rewrite kv_fragment_Ok, split_char_no_sep by done. rewrite Forall_singleton.
    rewrite (safe_no_white_space _ _ token_graphic Eu). tauto. }
  destruct (kv_fragment_is_acceptable u) as [[]|e]; simpl.
  2:{ split; [done|]. intros (_ & [Hp _] & _). by apply Hu in Hp. }
  destruct (key_subpath_is_acceptable sub) as [[]|e]; simpl.
  - split; [intros [= <-]|intros (_ & _ & _ & ->); done].
    split_and!; try done; by apply Hu.
  - split; [done|]. intros (_ & _ & ? & _). done.
Qed.

Lemma username_usable_segment u : username_usable u = true -> user_segment u.
Proof.
  unfold username_usable, user_segment. intros [H1 H2]%andb_true_iff.
  assert (all_bytes username_byte u = true) as Hb.
  { unfold userpass_username_is_acceptable in H1. destruct u as [|a s]; [done|].
    destruct (MAX_USERNAME_BYTES <? _); [done|]. destruct (negb (all_bytes _ (String a s))); [done|].
    destruct (all_bytes username_byte (String a s)); [done|done]. }
  pose proof (all_bytes_mono _ _ _ username_token Hb) as Ht. split; [|done].
  destruct (kv_fragment_is_acceptable u) as [[]|] eqn:E; [|done]. apply kv_fragment_Ok in E as [_ Hs].
  rewrite split_char_no_sep in Hs by by apply (all_bytes_no_char safe_token_byte). by rewrite Forall_singleton in Hs.
Qed.

(** What an admission establishes, and all it needs. *)
Record admissible (set : ProviderSet) (c : ProviderChoice) (u prefix : string)
    (p : AuthorizedProvider) : Prop := {
  ad_provider : set_get set (pc_provider c) = Some p;
  ad_model : pc_model c ∈ ap_models p;
  ad_user : username_usable u = true;
  ad_subpath : key_subpath_is_acceptable (pc_key_subpath c) = Ok tt;
  ad_field : key_field_is_acceptable (pc_key_field c) = true;
  ad_prefix : prefix_ok prefix }.

Definition admitted_of (c : ProviderChoice) (u prefix : string) (p : AuthorizedProvider) : AdmittedChoice :=
  mkAdmitted p (pc_model c) (prefix +:+ "/" +:+ u +:+ "/" +:+ pc_key_subpath c) (pc_key_field c)
    (pc_sealed_key c).

Lemma existsb_eqb_elem s l : existsb (String.eqb s) l = true <-> s ∈ l.
Proof.
  rewrite existsb_true. split; [by intros (x & Hx & ->%String.eqb_eq)|].
  intros H. exists s. by rewrite String.eqb_refl.
Qed.

Lemma admit_choice_Ok set choice user prefix a :
  admit_choice set choice user prefix = Ok a <->
  exists c u p, choice = Some c /\ user = Some u /\ admissible set c u prefix p /\
                a = admitted_of c u prefix p.
Proof.
  unfold admit_choice. split.
  - intros H. destruct choice as [c|]; [|done]. simpl in H. destruct (set_is_empty set); [done|].
    destruct (set_get set (pc_provider c)) as [p|] eqn:Ep; [|done]. simpl in H.
    destruct (existsb (String.eqb (pc_model c)) (ap_models p)) eqn:Em; [|done]. simpl in H.
    destruct user as [u|]; [|done]. destruct (username_usable u) eqn:Eu; [|done]. simpl in H.
    destruct (key_subpath_is_acceptable (pc_key_subpath c)) as [[]|] eqn:Es; [|done]. simpl in H.
    destruct (key_field_is_acceptable (pc_key_field c)) eqn:Ef; [|done]. simpl in H.
    destruct (user_key_path prefix u (pc_key_subpath c)) as [path|] eqn:Ek; [|done].
    simpl in H. injection H as <-. apply user_key_path_Ok in Ek as (Hp & _ & _ & ->).
    exists c, u, p. split_and!; try done. constructor; try done. by apply existsb_eqb_elem.
  - intros (c & u & p & -> & -> & [Hp Hm Hu Hs Hf Hpre] & ->). simpl.
    destruct set as [|p0 set]; [done|]. cbn [set_is_empty]. rewrite Hp. simpl.
    rewrite (proj2 (existsb_eqb_elem _ _) Hm). simpl. rewrite Hu. simpl. rewrite Hs, Hf. simpl.
    rewrite (proj2 (user_key_path_Ok prefix u (pc_key_subpath c)
      (prefix +:+ "/" +:+ u +:+ "/" +:+ pc_key_subpath c))); [done|].
    split_and!; try done; by apply username_usable_segment.
Qed.

(** ** Lemmas: the registry *)

Definition optional_ok (m : list (string * Value)) (key : string) (ok : string -> bool)
    (o : option string) : Prop :=
  match o with
  | None => get m key = None
  | Some s => get m key = Some (VStr s) /\ ok s = true
  end.

(** What an entry of the [providers] section declares. *)
Record declares (m : list (string * Value)) (p : AuthorizedProvider) : Prop := {
  de_keys : forall k v, (k, v) ∈ m -> k ∈ PROVIDER_KEYS;
  de_name : get m "name" = Some (VStr (ap_name p));
  de_name_ok : provider_name_is_acceptable (ap_name p) = true;
  de_endpoint : get m "endpoint" = Some (VStr (ap_endpoint p));
  de_endpoint_ok : endpoint_is_acceptable (ap_endpoint p) = true;
  de_models : get m "models" = Some (VSeq (map VStr (ap_models p)));
  de_models_ok : 1 <= length (ap_models p) <= MAX_MODELS_PER_PROVIDER /\ NoDup (ap_models p) /\
                 Forall (fun x => model_is_acceptable x = true) (ap_models p);
  de_effort : optional_ok m "reasoning_effort" reasoning_effort_is_acceptable (ap_reasoning_effort p);
  de_tokens : optional_ok m "output_tokens_field"
                (fun s => existsb (String.eqb s) OUTPUT_TOKENS_FIELDS) (ap_output_tokens_field p) }.

Definition entry_declares (item : Value) (p : AuthorizedProvider) : Prop :=
  exists m, item = VMap m /\ declares m p.

Lemma optional_str_Ok m key ok why o : optional_str m key ok why = Ok o <-> optional_ok m key ok o.
Proof.
  unfold optional_str, optional_ok. destruct (get m key) as [[| | | |s| |]|]; try (destruct o; intuition congruence).
  destruct (ok s) eqn:E, o as [t|]; intuition congruence.
Qed.

Lemma models_loop_Ok at_ items acc models :
  models_loop at_ acc items = Ok models <->
  exists l, items = map VStr l /\ models = acc ++ l /\
            Forall (fun x => model_is_acceptable x = true) l /\
            NoDup l /\ (forall x, x ∈ l -> x ∉ acc).
Proof.
  revert acc. induction items as [|v items IH]; intros acc; simpl.
  { split; [intros [= <-]; exists []|].
    - split_and!; [done|by rewrite app_nil_r|by constructor|constructor|by intros x Hx%elem_of_nil].
    - intros ([|x l] & E & -> & _); [by rewrite app_nil_r|done]. }
  destruct v as [| | | |s| |]; try (split; [done|intros ([|? ?] & ? & _); done]).
  destruct (model_is_acceptable s) eqn:Em; simpl.
  2:{ split; [done|]. intros ([|? ?] & [= <- _] & _ & H & _). inversion H. congruence. }
  destruct (existsb (String.eqb s) acc) eqn:Ed.
  { apply existsb_eqb_elem in Ed. split; [done|].
    intros ([|x l] & E & _ & _ & _ & H); [done|]. injection E as <- ->. destruct (H s); [left|done]. }
  rewrite IH. split.
  - intros (l & -> & -> & Hf & Hnd & Hacc). exists (s :: l). split_and!; [done|by rewrite <-app_assoc|by constructor| |].
    + constructor; [|done]. intros Hs. apply (Hacc s Hs). set_solver.
    + intros x [->|Hx]%elem_of_cons; [|intros Hin; apply (Hacc x Hx); set_solver].
      rewrite <-existsb_eqb_elem. by rewrite Ed.
  - intros ([|x l] & E & -> & Hf & Hnd & Hacc); [done|]. injection E as <- ->.
    apply Forall_cons in Hf as [_ Hf]. apply NoDup_cons in Hnd as [Hs Hnd].
    exists l. split_and!; [done|by rewrite <-app_assoc|done|done|].
    intros x Hx [Ha | ->%list_elem_of_singleton]%elem_of_app; [|done]. apply (Hacc x); [by right|done].
Qed.

Lemma models_of_Ok m at_ models :
  models_of m at_ = Ok models <->
  get m "models" = Some (VSeq (map VStr models)) /\ 1 <= length models <= MAX_MODELS_PER_PROVIDER /\
  NoDup models /\ Forall (fun x => model_is_acceptable x = true) models.
Proof.
  unfold models_of. destruct (get m "models") as [[| | | | |items|]|] eqn:E; try (intuition congruence).
  destruct (_ || _) eqn:Eb.
  - split; [done|]. intros ([= ->] & Hl & _). apply orb_true_iff in Eb as [Eb|Eb%Nat.ltb_lt].
    + destruct models; [simpl in Hl; lia|done].
    + rewrite length_map in Eb. lia.
  - apply orb_false_iff in Eb as [Eb1 Eb2%Nat.ltb_ge]. rewrite models_loop_Ok. split.
    + intros (l & -> & -> & Hf & Hnd & _). rewrite app_nil_l. split_and!; [done| |by rewrite length_map in Eb2|done..].
      destruct l; [done|]. simpl. lia.
    + intros ([= ->] & _ & Hnd & Hf). exists models. split_and!; [done..|]. by intros x _ Hx%elem_of_nil.
Qed.

Lemma required_str_Ok m at_ key s : required_str m at_ key = Ok s <-> get m key = Some (VStr s).
Proof. unfold required_str. destruct (get m key) as [[]|]; intuition congruence. Qed.

Lemma provider_entry_Ok i item p : provider_entry i item = Ok p <-> entry_declares item p.
Proof.
  unfold provider_entry, entry_declares. destruct item as [| | | | | |m]; try (split; [done|intros (? & [=] & _)]).
  split.
  - intros H. exists m. split; [done|].
    destruct (reject_unknown_keys PROVIDERS_SECTION m PROVIDER_KEYS) as [[]|] eqn:Ek; [|done].
    destruct (required_str m _ "name") as [n|] eqn:En; [|done].
    destruct (provider_name_is_acceptable n) eqn:En'; [|done].
    cbn [negb] in H. destruct (required_str m _ "endpoint") as [e|] eqn:Ee; [|done].
    destruct (endpoint_is_acceptable e) eqn:Ee'; [|done]. cbn [negb] in H. unbind H. injection H as <-.
    rewrite reject_unknown_keys_Ok in Ek. rewrite required_str_Ok in En, Ee.
    apply models_of_Ok in E as (Hm & Hmo). rewrite optional_str_Ok in E0, E1. by constructor.
  - intros (m' & [= <-] & [Hk Hn Hno He Heo Hm Hmo Hf Ht]). destruct p as [n e ms f t]. simpl in *.
    rewrite (proj2 (reject_unknown_keys_Ok _ _ _) Hk).
    rewrite (proj2 (required_str_Ok m _ "name" n) Hn), Hno. simpl.
    rewrite (proj2 (required_str_Ok m _ "endpoint" e) He), Heo. simpl.
    rewrite (proj2 (models_of_Ok m _ ms)) by tauto.
    rewrite (proj2 (optional_str_Ok m _ _ _ f) Hf). by rewrite (proj2 (optional_str_Ok m _ _ _ t) Ht).
Qed.

Lemma providers_loop_Ok i acc items set :
  providers_loop i acc items = Ok set <->
  exists l, set = acc ++ l /\ Forall2 entry_declares items l /\ NoDup (map ap_name l) /\
            (forall x, x ∈ l -> ap_name x ∉ map ap_name acc).
Proof.
  revert i acc. induction items as [|v items IH]; intros i acc; simpl.
  { split; [intros [= <-]; exists []|].
    - split_and!; [by rewrite app_nil_r|by constructor|constructor|by intros x Hx%elem_of_nil].
    - intros (l & -> & H & _). inversion H. by rewrite app_nil_r. }
  destruct (provider_entry i v) as [p|e] eqn:Ep; simpl.
  2:{ split; [done|]. intros (l & _ & H & _). apply Forall2_cons_inv_l in H as (p & l' & Hp & _ & ->).
      apply (provider_entry_Ok i) in Hp. congruence. }
  apply provider_entry_Ok in Ep as Hp.
  assert (forall q, entry_declares v q -> q = p) as Huniq.
  { intros q Hq. apply (provider_entry_Ok i) in Hq. congruence. }
  destruct (existsb _ acc) eqn:Ed.
  { split; [done|]. intros (l & _ & H & _ & Hacc). apply Forall2_cons_inv_l in H as (q & l' & Hq & _ & ->).
    apply existsb_true in Ed as (x & Hx & E%String.eqb_eq). apply Huniq in Hq as ->.
    destruct (Hacc p); [left|]. rewrite <-E. by apply elem_of_map_2. }
  rewrite IH. rewrite existsb_false in Ed. split.
  - intros (l & -> & Hf & Hnd & Hacc). exists (p :: l).
    split_and!; [by rewrite <-app_assoc|by constructor| |].
    + simpl. constructor; [|done]. intros (x & E & Hx)%elem_of_map. apply (Hacc x Hx).
      rewrite map_app, <-E. set_solver.
    + intros x [->|Hx]%elem_of_cons.
      * intros (y & E & Hy)%elem_of_map. specialize (Ed y Hy). rewrite E in Ed. by rewrite String.eqb_refl in Ed.
      * intros Hin. apply (Hacc x Hx). rewrite map_app. set_solver.
  - intros (l & -> & H & Hnd & Hacc). apply Forall2_cons_inv_l in H as (q & l' & Hq & Hf & ->). apply Huniq in Hq as ->.
    simpl in Hnd. apply NoDup_cons in Hnd as [Hn Hnd]. exists l'.
    split_and!; [by rewrite <-app_assoc|done|done|].
    intros x Hx. rewrite map_app. intros [Ha|Ha]%elem_of_app; [apply (Hacc x); [by right|done]|].
    simpl in Ha. apply list_elem_of_singleton in Ha. apply Hn. rewrite <-Ha. by apply elem_of_map_2.
Qed.

(** No provider key is a plaintext key. *)
Lemma declares_no_plaintext v p : entry_declares v p -> refuse_plaintext_keys v = Ok tt.
Proof.
  intros (m & -> & [Hk _ _ _ _ _ _ _ _]). simpl.
  destruct (List.find _ m) as [[k x]|] eqn:E; [|done]. apply find_some_iff in E as [Hin E].
  specialize (Hk k x Hin). simpl in E. exfalso. revert E.
  repeat (apply elem_of_cons in Hk as [->|Hk]; [by vm_compute|]). inversion Hk.
Qed.

Lemma refuse_plaintext_seq items :
  Forall (fun x => refuse_plaintext_keys x = Ok tt) items -> refuse_plaintext_keys (VSeq items) = Ok tt.
Proof. intros H. simpl. induction H as [|x l Hx _ IH]; [done|]. by rewrite Hx. Qed.

Lemma set_get_elem set name p : set_get set name = Some p -> p ∈ set /\ ap_name p = name.
Proof. unfold set_get. by intros [? ->%String.eqb_eq]%find_some_iff. Qed.

Lemma declares_elem section set p :
  providers_from_section (Some section) = Ok set -> p ∈ set -> exists m, declares m p.
Proof.
  unfold providers_from_section. intros H Hp. unbind H. destruct section as [| | | | |items|]; try done.
  destruct (MAX_PROVIDERS <? length items); [done|].
  apply providers_loop_Ok in H as (l & -> & Hf & _). apply list_elem_of_lookup in Hp as [i Hi].
  destruct (Forall2_lookup_r _ _ _ _ _ Hf Hi) as (v & _ & m & _ & ?). by exists m.
Qed.

(** ** Theorems *)

(** the key path the kernel composes for an admitted choice is the peer's
    own: it lies beneath the peer's directory under the operator's prefix and
    beneath no other account's, whatever subpath the request named. *)
Theorem admitted_key_confined (set : ProviderSet) (choice : option ProviderChoice)
    (user : option string) (prefix : string) (a : AdmittedChoice)
    (H : admit_choice set choice user prefix = Ok a) :
  exists u, user = Some u /\
    forall u', u' <> "" -> contains_char slash u' = false ->
      (path_is_within_prefix (ac_key_vault_path a) (prefix +:+ "/" +:+ u') = true <-> u' = u).
Proof.
  apply admit_choice_Ok in H as (c & u & p & _ & -> & [_ _ Hu Hs _ _] & ->).
  exists u. split; [done|]. intros u' Hne Hc. apply username_usable_segment in Hu as [Hp Hb].
  apply key_subpath_Ok in Hs as [_ Hs]. cbn [admitted_of ac_key_vault_path].
  rewrite within_prefix_iff.
  2:{ by destruct prefix. }
  2:{ change ("/" +:+ u') with (("/" : string) +:+ u'). rewrite <-str_app_assoc. by apply no_trailing_slash. }
  split.
  - intros (r & _ & E). rewrite !str_app_assoc in E. apply str_app_inj_l in E.
    injection E as E. apply (f_equal (split_char slash)) in E.
    change ("/" +:+ r) with (String slash r) in E.
    change ("/" +:+ pc_key_subpath c) with (String slash (pc_key_subpath c)) in E.
    rewrite !split_char_app in E; [by injection E|done|by apply (all_bytes_no_char safe_token_byte)].
  - intros ->. exists (pc_key_subpath c). split; [|by rewrite !str_app_assoc].
    intros Hsub. rewrite Hsub in Hs. simpl in Hs. by rewrite Forall_singleton in Hs; destruct Hs as [[? _] _].
Qed.

(** the provider registry parses exactly the sections it should: a
    sequence of at most 32 maps, each with only the known keys and each field
    well formed, the names distinct; and the registry it returns holds, in
    order, what each entry declares. *)
Theorem providers_exact (section : Value) (set : ProviderSet) :
  providers_from_section (Some section) = Ok set <->
  exists items, section = VSeq items /\ length items <= MAX_PROVIDERS /\
    Forall2 entry_declares items set /\ NoDup (map ap_name set).
Proof.
  unfold providers_from_section. split.
  - intros H. unbind H. destruct section as [| | | | |items|]; try done.
    destruct (Nat.ltb_spec MAX_PROVIDERS (length items)); [done|].
    apply providers_loop_Ok in H as (l & -> & Hf & Hnd & _). exists items. split_and!; [done|lia|done..].
  - intros (items & -> & Hl & Hf & Hnd).
    rewrite refuse_plaintext_seq
      by (clear -Hf; induction Hf; constructor; [by eapply declares_no_plaintext|done]).
    destruct (Nat.ltb_spec MAX_PROVIDERS (length items)); [lia|].
    apply providers_loop_Ok. exists set. split_and!; [done..|]. by intros x _ Hx%elem_of_nil.
Qed.

(** An authority that names this host: a bracketed [::1], [localhost], or a
    dotted quad in 127.0.0.0/8; a port may follow. *)
Definition loopback_authority (authority : string) : Prop :=
  (exists h rest, authority = "[" +:+ h +:+ "]" +:+ rest /\ ipv6_parse h = Some (repeat 0%Z 7 ++ [1%Z])) \/
  (exists h, (authority = h \/ exists port, authority = h +:+ ":" +:+ port) /\
             (h = "localhost" \/ exists os, ipv4_parse h = Some (127%Z :: os))).

Lemma authority_host_loopback authority port :
  authority_host authority = Some (true, port) -> loopback_authority authority.
Proof.
  unfold authority_host, loopback_authority. destruct (strip_prefix "[" authority) as [v6|] eqn:Ev.
  - apply strip_prefix_spec in Ev as ->. destruct (split_once "]" v6) as [[h rest]|] eqn:Es; [|done].
    apply split_once_Some in Es as ->. destruct (ipv6_parse h) as [addr|] eqn:Ep; [|done]. intros H. left.
    exists h, rest. split; [done|].
    assert (ipv6_is_loopback addr = true) as Hl%bool_decide_eq_true
      by (destruct (strip_prefix ":" rest); [|destruct (is_empty rest)]; congruence).
    congruence.
  - intros H. right. set (hp := match split_once ":" authority with Some (h, p) => (h, Some p) | None => _ end) in H.
    assert (authority = fst hp \/ exists port, authority = fst hp +:+ ":" +:+ port) as Ha.
    { subst hp. destruct (split_once ":" authority) as [[h p]|] eqn:Es; [|by left].
      apply split_once_Some in Es. right. by exists p. }
    clearbody hp. destruct hp as [h p]. simpl in Ha, H. exists h. split; [done|].
    destruct (_ && _); [|done]. destruct (all_bytes _ h).
    + destruct (ipv4_parse h) as [[|a os]|]; try done. simpl in H.
      destruct (Z.eqb_spec a 127) as [->|]; [|done]. right. by exists os.
    + destruct (String.eqb_spec h "localhost"); [by left|done].
Qed.

(** a registered provider is spoken to in clear text only on this host:
    its endpoint is an [https] URL, or an [http] one whose authority is
    loopback, and it carries no user information. *)
Theorem plaintext_loopback_only (section : Value) (set : ProviderSet) (p : AuthorizedProvider)
    (H : providers_from_section (Some section) = Ok set) (Hp : p ∈ set) :
  (exists rest, ap_endpoint p = "https://" +:+ rest /\ contains_char "@" (authority_of rest) = false) \/
  (exists rest, ap_endpoint p = "http://" +:+ rest /\ contains_char "@" (authority_of rest) = false /\
                loopback_authority (authority_of rest)).
Proof.
  destruct (declares_elem _ _ _ H Hp) as (m & [_ _ _ _ He _ _ _ _]).
  clear -He. unfold endpoint_is_acceptable in He. destruct (has_white_space (ap_endpoint p)); [done|].
  destruct (strip_prefix "https://" (ap_endpoint p)) as [rest|] eqn:Es.
  - apply strip_prefix_spec in Es. left. exists rest. split; [done|].
    by destruct (contains_char "@" (authority_of rest)).
  - destruct (strip_prefix "http://" (ap_endpoint p)) as [rest|] eqn:Eh; [|done].
    apply strip_prefix_spec in Eh. simpl in He. right. exists rest. split; [done|].
    destruct (contains_char "@" (authority_of rest)); [done|]. split; [done|].
    destruct (authority_host (authority_of rest)) as [[[] port]|] eqn:Ea; [|by destruct port as [p'|]; [destruct (port_is_acceptable p')|]|done].
    by apply authority_host_loopback in Ea.
Qed.

(** ** Witnesses *)

Definition demo_section : Value :=
  VSeq [VMap [("name", VStr "openai"); ("endpoint", VStr "https://api.example.test/v1");
              ("models", VSeq [VStr "gpt-5.6"; VStr "gpt-5.6-luna"])];
        VMap [("name", VStr "local"); ("endpoint", VStr "http://[::1]:8080/v1");
              ("models", VSeq [VStr "llama-4"]); ("output_tokens_field", VStr "max_tokens")]].
Definition demo_providers : ProviderSet :=
  [mkProvider "openai" "https://api.example.test/v1" ["gpt-5.6"; "gpt-5.6-luna"] None None;
   mkProvider "local" "http://[::1]:8080/v1" ["llama-4"] None (Some "max_tokens")].
Definition demo_choice : ProviderChoice :=
  mkChoice "local" "llama-4" "openai/personal" "api_key" (repeat Ascii.zero 127).

Lemma admitted_key_confined_witness :
  match admit_choice demo_providers (Some demo_choice) (Some "alice") "maknae/users" with
  | Ok a => path_is_within_prefix (ac_key_vault_path a) "maknae/users/alice" = true /\
            ac_key_vault_path a = "maknae/users/alice/openai/personal"
  | Err _ => False
  end.
Proof.
  destruct (admit_choice demo_providers (Some demo_choice) (Some "alice") "maknae/users") as [a|] eqn:E;
    [|vm_compute in E; discriminate].
  split.
  - destruct (admitted_key_confined _ _ _ _ _ E) as (u & [= <-] & Hc). apply (Hc "alice"); reflexivity || discriminate.
  - vm_compute in E. injection E as <-. reflexivity.
Defined.

Lemma plaintext_loopback_only_witness :
  providers_from_section (Some demo_section) = Ok demo_providers /\
  forall p, p ∈ demo_providers ->
    (exists rest, ap_endpoint p = "https://" +:+ rest /\ contains_char "@" (authority_of rest) = false) \/
    (exists rest, ap_endpoint p = "http://" +:+ rest /\ contains_char "@" (authority_of rest) = false /\
                  loopback_authority (authority_of rest)).
Proof.
  split; [vm_compute; reflexivity|]. intros p Hp.
  apply (plaintext_loopback_only demo_section demo_providers p); [vm_compute; reflexivity|exact Hp].
Defined.
