(* ===== verification/Breaker.v ===== *)
(** * The blocking-work circuit breaker

    [crates/maknae-kernel/src/blocking_guard.rs]: when a non-cancellable
    blocking operation may be started, and what its end does. Instants and
    durations are integers in nanoseconds of the monotonic clock; the counters
    are [u8] with saturating arithmetic. *)
From stdpp Require Import base list numbers.
From Stdlib Require Import ZArith Lia.
From S2P Require Import Prelude.
Open Scope Z_scope.

Definition BLOCKING_BREAKER_TRIP_AFTER : Z := 3.
Definition BLOCKING_BREAKER_MAX_IN_FLIGHT : Z := 32.
Definition BLOCKING_BREAKER_RESET_AFTER : Z := 30000000000.
Definition BLOCKING_BREAKER_REFUSAL_LOG_EVERY : Z := 30000000000.

Definition u8_max : Z := 255.
Definition u8_saturating_add (a b : Z) : Z := Z.min u8_max (a + b).
Definition u8_saturating_sub (a b : Z) : Z := Z.max 0 (a - b).

(** [now.duration_since(then_)]: zero when [then_] is later. *)
Definition duration_since (now then_ : Z) : Z := Z.max 0 (now - then_).

Inductive BreakerAdmission := Admit | RefuseOpen | RefuseAtCapacity.
Inductive BreakerTransition := RemainsClosed | Tripped.

Record BlockingBreaker := mkBreaker {
  bb_consecutive_timeouts : Z; bb_in_flight : Z; bb_opened_at : option Z;
  bb_last_refusal_logged_at : option Z; bb_trip_after : Z; bb_max_in_flight : Z;
  bb_reset_after : Z; bb_refusal_log_every : Z }.

Definition breaker_new (trip_after : Z) : BlockingBreaker :=
  mkBreaker 0 0 None None trip_after BLOCKING_BREAKER_MAX_IN_FLIGHT BLOCKING_BREAKER_RESET_AFTER
    BLOCKING_BREAKER_REFUSAL_LOG_EVERY.
Definition breaker_default : BlockingBreaker := breaker_new BLOCKING_BREAKER_TRIP_AFTER.

Definition is_open_at (b : BlockingBreaker) (now : Z) : bool :=
  match bb_opened_at b with
  | Some opened_at => duration_since now opened_at <? bb_reset_after b
  | None => false
  end.

Definition with_counts (b : BlockingBreaker) (timeouts in_flight : Z) (opened : option Z)
  : BlockingBreaker :=
  mkBreaker timeouts in_flight opened (bb_last_refusal_logged_at b) (bb_trip_after b)
    (bb_max_in_flight b) (bb_reset_after b) (bb_refusal_log_every b).

Definition begin_attempt_at (b : BlockingBreaker) (now : Z) : BlockingBreaker * BreakerAdmission :=
  if bb_trip_after b =? 0 then (b, RefuseOpen)
  else if is_open_at b now then (b, RefuseOpen)
  else if is_some (bb_opened_at b) then
    if bb_in_flight b =? 0
    then (with_counts b (bb_consecutive_timeouts b) 1 (bb_opened_at b), Admit)
    else (b, RefuseOpen)
  else if bb_in_flight b <? bb_max_in_flight b
  then (with_counts b (bb_consecutive_timeouts b) (bb_in_flight b + 1) (bb_opened_at b), Admit)
  else (b, RefuseAtCapacity).

Definition should_log_refusal_at (b : BlockingBreaker) (now : Z) : BlockingBreaker * bool :=
  let should_log := match bb_last_refusal_logged_at b with
                    | None => true
                    | Some logged_at => bb_refusal_log_every b <=? duration_since now logged_at
                    end in
  if should_log
  then (mkBreaker (bb_consecutive_timeouts b) (bb_in_flight b) (bb_opened_at b) (Some now)
          (bb_trip_after b) (bb_max_in_flight b) (bb_reset_after b) (bb_refusal_log_every b), true)
  else (b, false).

Definition record_success (b : BlockingBreaker) : BlockingBreaker :=
  with_counts b 0 (u8_saturating_sub (bb_in_flight b) 1) None.

Definition record_timeout_at (b : BlockingBreaker) (now : Z) : BlockingBreaker * BreakerTransition :=
  let in_flight := u8_saturating_sub (bb_in_flight b) 1 in
  let timeouts := u8_saturating_add (bb_consecutive_timeouts b) 1 in
  if bb_trip_after b <=? timeouts
  then (with_counts b (bb_trip_after b) in_flight (Some now), Tripped)
  else (with_counts b timeouts in_flight (bb_opened_at b), RemainsClosed).

(** ** The guarded surface

    A breaker with the operations it guards: those started and not yet
    reported, those given up on after their timeout (their threads are never
    cancelled) and those ever started. *)
Record Guarded := mkGuarded {
  gd_breaker : BlockingBreaker; gd_now : Z; gd_running : Z; gd_orphaned : Z; gd_started : Z }.

Definition guarded_start (now : Z) : Guarded := mkGuarded breaker_default now 0 0 0.

Inductive guarded_step : Guarded -> Guarded -> Prop :=
| gs_tick b now now' r o s : now <= now' ->
    guarded_step (mkGuarded b now r o s) (mkGuarded b now' r o s)
| gs_admit b b' now r o s : begin_attempt_at b now = (b', Admit) ->
    guarded_step (mkGuarded b now r o s) (mkGuarded b' now (r + 1) o (s + 1))
| gs_refuse b b' now r o s a : begin_attempt_at b now = (b', a) -> a <> Admit ->
    guarded_step (mkGuarded b now r o s) (mkGuarded b' now r o s)
| gs_log b now r o s :
    guarded_step (mkGuarded b now r o s) (mkGuarded (should_log_refusal_at b now).1 now r o s)
| gs_success b now r o s : 0 < r ->
    guarded_step (mkGuarded b now r o s) (mkGuarded (record_success b) now (r - 1) o s)
| gs_timeout b now r o s : 0 < r ->
    guarded_step (mkGuarded b now r o s)
      (mkGuarded (record_timeout_at b now).1 now (r - 1) (o + 1) s).

(** A wedged backend: nothing it is asked ever returns. *)
Inductive wedged_step : Guarded -> Guarded -> Prop :=
| ws_step g g' : guarded_step g g' ->
    gd_running g' + gd_orphaned g' = gd_started g' -> wedged_step g g'.

Inductive steps (R : Guarded -> Guarded -> Prop) (g0 : Guarded) : Guarded -> Prop :=
| st_refl : steps R g0 g0
| st_step g g' : steps R g0 g -> R g g' -> steps R g0 g'.

(** ** Lemmas *)

Definition fixed (b : BlockingBreaker) : Prop :=
  bb_trip_after b = BLOCKING_BREAKER_TRIP_AFTER /\ bb_max_in_flight b = BLOCKING_BREAKER_MAX_IN_FLIGHT /\
  bb_reset_after b = BLOCKING_BREAKER_RESET_AFTER.

Record guarded_ok (g : Guarded) : Prop := {
  gk_fixed : fixed (gd_breaker g);
  gk_running : bb_in_flight (gd_breaker g) = gd_running g;
  gk_bound : 0 <= gd_running g <= BLOCKING_BREAKER_MAX_IN_FLIGHT;
  gk_timeouts : 0 <= bb_consecutive_timeouts (gd_breaker g) <= BLOCKING_BREAKER_TRIP_AFTER;
  gk_closed : bb_opened_at (gd_breaker g) = None ->
              bb_consecutive_timeouts (gd_breaker g) < BLOCKING_BREAKER_TRIP_AFTER;
  gk_opened : bb_opened_at (gd_breaker g) <> None ->
              bb_consecutive_timeouts (gd_breaker g) = BLOCKING_BREAKER_TRIP_AFTER }.

Ltac breaker_consts :=
  unfold BLOCKING_BREAKER_TRIP_AFTER, BLOCKING_BREAKER_MAX_IN_FLIGHT, BLOCKING_BREAKER_RESET_AFTER in *.

(** The only ways an attempt is admitted. *)
Lemma begin_attempt_Admit b now b' :
  fixed b -> begin_attempt_at b now = (b', Admit) ->
  b' = with_counts b (bb_consecutive_timeouts b) (bb_in_flight b + 1) (bb_opened_at b) /\
  ((bb_opened_at b = None /\ bb_in_flight b < BLOCKING_BREAKER_MAX_IN_FLIGHT) \/
   exists o, bb_opened_at b = Some o /\ bb_in_flight b = 0 /\ BLOCKING_BREAKER_RESET_AFTER <= Z.max 0 (now - o)).
Proof.
  intros (Ht & Hm & Hr) H. unfold begin_attempt_at in H. rewrite Ht in H. simpl in H.
  destruct (is_open_at b now) eqn:Eo; [done|]. unfold is_open_at in Eo.
  destruct (bb_opened_at b) as [o|]; simpl in H.
  - destruct (Z.eqb_spec (bb_in_flight b) 0) as [E|]; [|done]. injection H as <-. rewrite E. split; [done|].
    right. exists o. split_and!; [done..|]. apply Z.ltb_ge in Eo. unfold duration_since in Eo. lia.
  - destruct (Z.ltb_spec (bb_in_flight b) (bb_max_in_flight b)); [|done]. injection H as <-.
    split; [done|]. left. split; [done|]. lia.
Qed.

Lemma begin_attempt_refused b now b' a : begin_attempt_at b now = (b', a) -> a <> Admit -> b' = b.
Proof.
  unfold begin_attempt_at. intros H Ha.
  repeat (case_match; simplify_eq; try done).
Qed.

Lemma log_same b now :
  let b' := (should_log_refusal_at b now).1 in
  bb_consecutive_timeouts b' = bb_consecutive_timeouts b /\ bb_in_flight b' = bb_in_flight b /\
  bb_opened_at b' = bb_opened_at b /\ (fixed b -> fixed b').
Proof.
  unfold should_log_refusal_at. simpl.
  by destruct (match bb_last_refusal_logged_at b with None => true | Some _ => _ end).
Qed.

Lemma guarded_step_ok g g' : guarded_step g g' -> guarded_ok g -> guarded_ok g'.
Proof.
  intros H [Hf Hr Hb Ht Hc Hop]. destruct H; simpl in *.
  - by constructor.
  - destruct (begin_attempt_Admit _ _ _ Hf H) as (-> & Hcase).
    destruct Hf as (Hf1 & Hf2 & Hf3). constructor; simpl; [done|lia| |done..].
    breaker_consts. destruct Hcase as [[_ ?]|(? & _ & ? & _)]; lia.
  - apply begin_attempt_refused in H as ->; [|done]. by constructor.
  - destruct (log_same b now) as (E1 & E2 & E3 & E4). constructor; simpl; rewrite ?E1, ?E2, ?E3; auto.
  - constructor; simpl; [done| |lia|breaker_consts; lia|breaker_consts; lia|done].
    unfold u8_saturating_sub. lia.
  - destruct Hf as (Hf1 & Hf2 & Hf3). unfold record_timeout_at, u8_saturating_add, u8_saturating_sub, u8_max.
    rewrite Hf1. destruct (Z.leb_spec BLOCKING_BREAKER_TRIP_AFTER (Z.min 255 (bb_consecutive_timeouts b + 1)));
      constructor; simpl; try done; try lia; breaker_consts; try lia.
    intros Ho. specialize (Hop Ho). lia.
Qed.

Lemma guarded_ok_start now : guarded_ok (guarded_start now).
Proof. constructor; simpl; try done; breaker_consts; lia. Qed.

Lemma steps_ok now g : steps guarded_step (guarded_start now) g -> guarded_ok g.
Proof. induction 1; [apply guarded_ok_start|by eapply guarded_step_ok]. Qed.

Lemma wedged_steps now g : steps wedged_step (guarded_start now) g -> steps guarded_step (guarded_start now) g.
Proof. induction 1 as [|g g' _ IH Hw]; [constructor|]. destruct Hw. by econstructor. Qed.

(** The most operations started before the breaker first opens. *)
Definition burst : Z := BLOCKING_BREAKER_MAX_IN_FLIGHT + BLOCKING_BREAKER_TRIP_AFTER - 1.

(** What a wedged run keeps: until the breaker opens, every orphan has been
    counted; afterwards each operation past the burst is a probe, and the next
    one waits out the cooldown from the last timeout. *)
Record wedged_ok (start : Z) (g : Guarded) : Prop := {
  wk_time : start <= gd_now g;
  wk_sum : gd_running g + gd_orphaned g = gd_started g;
  wk_now : (gd_started g - burst) * BLOCKING_BREAKER_RESET_AFTER <= gd_now g - start;
  wk_open : match bb_opened_at (gd_breaker g) with
            | None => bb_consecutive_timeouts (gd_breaker g) = gd_orphaned g
            | Some o => start <= o <= gd_now g /\
                        (gd_running g = 0 ->
                         (gd_started g - burst) * BLOCKING_BREAKER_RESET_AFTER <= o - start)
            end }.

Lemma wedged_step_ok start g g' :
  guarded_ok g -> wedged_step g g' -> wedged_ok start g -> wedged_ok start g'.
Proof.
  intros [Hf Hr Hb Ht Hc Hop] Hw [Htm Hs Hn Ho]. destruct Hw as [g g' H Hsum]. destruct H; simpl in *.
  - constructor; simpl; [lia|done|lia|]. destruct (bb_opened_at b); [|done]. destruct Ho. split; [lia|done].
  - destruct (begin_attempt_Admit _ _ _ Hf H) as (-> & Hcase). unfold burst in *. breaker_consts.
    destruct Hcase as [[E Hin] | (o' & E & Hin & Hcool)].
    + rewrite E in Ho. specialize (Hc E). constructor; simpl; rewrite ?E; unfold burst; breaker_consts; lia.
    + rewrite E in Ho. destruct Ho as [Ho1 Ho2]. specialize (Ho2 ltac:(lia)).
      constructor; simpl; rewrite ?E; unfold burst; breaker_consts; [lia..|]. split; lia.
  - apply begin_attempt_refused in H as ->; [|done]. by constructor.
  - destruct (log_same b now) as (E1 & E2 & E3 & E4). constructor; simpl; rewrite ?E1, ?E3; done.
  - lia.
  - destruct Hf as (Hf1 & Hf2 & Hf3). unfold record_timeout_at, u8_saturating_add, u8_max.
    rewrite Hf1. destruct (Z.leb_spec BLOCKING_BREAKER_TRIP_AFTER (Z.min 255 (bb_consecutive_timeouts b + 1)));
      constructor; simpl; try lia.
    destruct (bb_opened_at b) as [o'|]; breaker_consts; [specialize (Hop ltac:(done))|]; lia.
Qed.

(** ** Theorems *)

(** the breaker counts what it guards: at every moment of every run its
    in-flight counter is the number of operations started and not yet
    reported, never above the fixed budget of 32. *)
Theorem breaker_bounded (now : Z) (g : Guarded) (H : steps guarded_step (guarded_start now) g) :
  bb_in_flight (gd_breaker g) = gd_running g /\
  0 <= gd_running g <= BLOCKING_BREAKER_MAX_IN_FLIGHT.
Proof. by destruct (steps_ok _ _ H). Qed.

(** C37: against a backend that never answers, started at [start], the breaker
    lets through at most 34 operations plus one for each full cooldown since:
    the 32 of the budget and the two admitted while the first two timeouts were
    still below the threshold. *)
Theorem wedged_bounded (start : Z) (g : Guarded) (H : steps wedged_step (guarded_start start) g) :
  gd_started g <= burst + (gd_now g - start) / BLOCKING_BREAKER_RESET_AFTER.
Proof.
  assert (wedged_ok start g) as [Ht _ Hn _].
  { induction H as [|g g' Hg IH Hstep].
    - constructor; simpl; unfold burst; breaker_consts; lia.
    - eapply wedged_step_ok; [|done|done]. by eapply steps_ok, wedged_steps. }
  assert (gd_started g - burst <= (gd_now g - start) / BLOCKING_BREAKER_RESET_AFTER); [|lia].
  apply Z.div_le_lower_bound; [by breaker_consts|]. lia.
Qed.

(** ** Witnesses *)

(** Runs as lists of what happens. *)
Inductive move := MAttempt | MTimeout.

Definition do_move (g : Guarded) (m : move) : option Guarded :=
  match m with
  | MAttempt =>
      match begin_attempt_at (gd_breaker g) (gd_now g) with
      | (b, Admit) => Some (mkGuarded b (gd_now g) (gd_running g + 1) (gd_orphaned g) (gd_started g + 1))
      | _ => None
      end
  | MTimeout =>
      if 0 <? gd_running g
      then Some (mkGuarded (record_timeout_at (gd_breaker g) (gd_now g)).1 (gd_now g)
                   (gd_running g - 1) (gd_orphaned g + 1) (gd_started g))
      else None
  end.

Definition do_moves (g : Guarded) (ms : list move) : option Guarded :=
  foldl (fun o m => match o with Some g => do_move g m | None => None end) (Some g) ms.

Lemma do_moves_wedged start g0 g ms :
  steps wedged_step (guarded_start start) g0 -> gd_running g0 + gd_orphaned g0 = gd_started g0 ->
  do_moves g0 ms = Some g -> steps wedged_step (guarded_start start) g.
Proof.
  unfold do_moves. revert g0. induction ms as [|m ms IH]; intros g0 H0 Hs H; simpl in H.
  { by injection H as <-. }
  destruct (do_move g0 m) as [g1|] eqn:E.
  2:{ exfalso. clear -H. induction ms; simpl in H; [done|auto]. }
  destruct g0 as [b now r o s].
  assert (wedged_step (mkGuarded b now r o s) g1 /\ gd_running g1 + gd_orphaned g1 = gd_started g1) as [H1 H2].
  { destruct m; simpl in E.
    - destruct (begin_attempt_at b now) as [b' []] eqn:Eb; try done. injection E as <-. simpl in *.
      split; [|lia]. split; [by apply gs_admit|simpl; lia].
    - destruct (Z.ltb_spec 0 r); [|done]. injection E as <-. simpl in *.
      split; [|lia]. split; [by apply gs_timeout|simpl; lia]. }
  eapply IH; [|done|done]. by econstructor.
Qed.

Definition demo_burst : list move :=
  repeat MAttempt 32 ++ [MTimeout; MAttempt; MTimeout; MAttempt] ++ repeat MTimeout 32.

(** 34 operations are started and abandoned at one instant. *)
Lemma wedged_bounded_witness :
  match do_moves (guarded_start 0) demo_burst with
  | Some g => gd_orphaned g = 34 /\ gd_now g = 0 /\
              gd_started g <= burst + (gd_now g - 0) / BLOCKING_BREAKER_RESET_AFTER
  | None => False
  end.
Proof.
  destruct (do_moves (guarded_start 0) demo_burst) as [g|] eqn:E; [|vm_compute in E; discriminate].
  split; [vm_compute in E; injection E as <-; reflexivity|].
  split; [vm_compute in E; injection E as <-; reflexivity|].
  apply (wedged_bounded 0 g). exact (do_moves_wedged 0 _ g demo_burst (st_refl _ _) eq_refl E).
Defined.

Lemma breaker_bounded_witness :
  match do_moves (guarded_start 0) (repeat MAttempt 32) with
  | Some g => bb_in_flight (gd_breaker g) = gd_running g /\
              0 <= gd_running g <= BLOCKING_BREAKER_MAX_IN_FLIGHT
  | None => False
  end.
Proof.
  destruct (do_moves (guarded_start 0) (repeat MAttempt 32)) as [g|] eqn:E; [|vm_compute in E; discriminate].
  apply (breaker_bounded 0 g). apply wedged_steps.
  exact (do_moves_wedged 0 _ g _ (st_refl _ _) eq_refl E).
Defined.

(** the module's note that a burst of abandoned workers is bounded by the
    in-flight budget is off by two: a run abandons more than 32 workers at one
    instant, before any cooldown has passed. *)
Theorem burst_exceeds_budget :
  exists g, steps wedged_step (guarded_start 0) g /\ gd_now g = 0 /\
            BLOCKING_BREAKER_MAX_IN_FLIGHT < gd_orphaned g.
Proof.
  destruct (do_moves (guarded_start 0) demo_burst) as [g|] eqn:E; [|vm_compute in E; discriminate].
  exists g. split; [exact (do_moves_wedged 0 _ g demo_burst (st_refl _ _) eq_refl E)|].
  vm_compute in E. injection E as <-. by split.
Qed.
