(* ===== verification/Handler.v ===== *)
(** * Verbs, dispatch and the decision request

    The pure decision points of [crates/maknae-kernel/src/handler.rs]: the
    action a verb is decided under, what it dispatches to, the request the
    policy decision point sees, the obligations the kernel can honour, the
    lexical gate over a client's path, and how the serve loop ends; with
    [containment.rs]'s reading of a decision. *)
From stdpp Require Import base list strings gmap.
From Stdlib Require Import ZArith Lia Ascii.
From S2P Require Import Prelude RustStr RustSlice Seam Config PathGlob AuthzPolicy Decide.
From S2P Require Import RustNet Graph GraphFormat Wire Providers.
Open Scope nat_scope.

Inductive Dispatch :=
| NoBehaviour | Pong | WhoamiRequested | MutationRequested | ConfigShowRequested | StatusRequested
| SubjectListRequested | PromptRequested | BaselineShowRequested | BaselineAcceptRequested
| ContainRequested | ReleaseRequested.
#[export] Instance Dispatch_eq_dec : EqDecision Dispatch.
Proof. solve_decision. Defined.

Definition dispatch_verb (verb : Verb) : Dispatch :=
  match verb with
  | Ping => Pong
  | Whoami => WhoamiRequested
  | Read _ _ _ | FsWrite _ _ _ _ | FsDelete _ _ | FsMkdir _ _ _ => MutationRequested
  | AdminConfigShow => ConfigShowRequested
  | AdminStatus => StatusRequested
  | AdminSubjectList => SubjectListRequested
  | AdminBaselineShow => BaselineShowRequested
  | AdminBaselineAccept _ => BaselineAcceptRequested
  | AdminContain _ _ => ContainRequested
  | AdminRelease _ => ReleaseRequested
  | SessionPrompt _ _ _ _ => PromptRequested
  | AdminAuditTail | AdminPolicyReload | AdminSubjectBind | AdminSubjectUnbind
  | AdminCredentialRotate | AdminProviderList | AdminProviderSet | AdminProviderDisable
  | AdminSessionList | AdminSessionTerminate
  | SessionNew | SessionResume | SessionClose | SessionDelete | SessionList | SessionFork
  | SessionCancel | SessionSetconfigoption | SessionSetmode | SessionLoad | SessionUpdate
  | SessionRequestpermission | SessionElicitCreate | SessionElicitComplete | SessionCompact
  | FsMove | FsList | FsStat | FsLink | FsChmod | FsChown
  | TerminalCreate | TerminalOutput | TerminalWaitforexit | TerminalKill | TerminalRelease
  | TerminalInput
  | McpConnect | McpDisconnect | McpMessage | McpToolCall | McpResourceRead | McpPromptGet
  | McpSamplingCreate => NoBehaviour
  end.

Definition is_filesystem_verb (verb : Verb) : bool :=
  bool_decide (dispatch_verb verb = MutationRequested).

Definition KERNEL_ACTIONS : list string := ["kernel.contain"; "kernel.session.terminate"].

Definition verb_to_action (verb : Verb) : string :=
  match verb with
  | Ping => "liveness.ping"
  | Whoami => "admin.whoami"
  | AdminStatus => "admin.status"
  | AdminConfigShow => "admin.config.show"
  | AdminAuditTail => "admin.audit.tail"
  | AdminPolicyReload => "admin.policy.reload"
  | AdminSubjectList => "admin.subject.list"
  | AdminBaselineShow => "admin.baseline.show"
  | AdminBaselineAccept _ => "admin.baseline.accept"
  | AdminSubjectBind => "admin.subject.bind"
  | AdminSubjectUnbind => "admin.subject.unbind"
  | AdminContain _ _ => "admin.contain"
  | AdminRelease _ => "admin.release"
  | AdminCredentialRotate => "admin.credential.rotate"
  | AdminProviderList => "admin.provider.list"
  | AdminProviderSet => "admin.provider.set"
  | AdminProviderDisable => "admin.provider.disable"
  | AdminSessionList => "admin.session.list"
  | AdminSessionTerminate => "admin.session.terminate"
  | SessionNew => "session.new"
  | SessionResume => "session.resume"
  | SessionClose => "session.close"
  | SessionDelete => "session.delete"
  | SessionList => "session.list"
  | SessionFork => "session.fork"
  | SessionPrompt _ _ _ _ => "session.prompt"
  | SessionCancel => "session.cancel"
  | SessionSetconfigoption => "session.set_config_option"
  | SessionSetmode => "session.set_mode"
  | SessionLoad => "session.load"
  | SessionUpdate => "session.update"
  | SessionRequestpermission => "session.request_permission"
  | SessionElicitCreate => "session.elicit.create"
  | SessionElicitComplete => "session.elicit.complete"
  | SessionCompact => "session.compact"
  | Read _ _ _ => "fs.read"
  | FsWrite _ _ _ _ => "fs.write"
  | FsDelete _ _ => "fs.delete"
  | FsMove => "fs.move"
  | FsList => "fs.list"
  | FsStat => "fs.stat"
  | FsMkdir _ _ _ => "fs.mkdir"
  | FsLink => "fs.link"
  | FsChmod => "fs.chmod"
  | FsChown => "fs.chown"
  | TerminalCreate => "terminal.create"
  | TerminalOutput => "terminal.output"
  | TerminalWaitforexit => "terminal.wait_for_exit"
  | TerminalKill => "terminal.kill"
  | TerminalRelease => "terminal.release"
  | TerminalInput => "terminal.input"
  | McpConnect => "mcp.connect"
  | McpDisconnect => "mcp.disconnect"
  | McpMessage => "mcp.message"
  | McpToolCall => "mcp.tool.call"
  | McpResourceRead => "mcp.resource.read"
  | McpPromptGet => "mcp.prompt.get"
  | McpSamplingCreate => "mcp.sampling.create"
  end.

Definition may_respond (audit_ok : bool) : bool := audit_ok.

(** ** How serving ends *)

(** The supervisor's error is carried, never inspected. *)
Inductive ServeOutcome :=
| GracefulShutdown | SupervisorExited (why : string) | ApplyByRestart | AcceptAbandoned
| ChannelMismatch.
Inductive Drain := Serving | Begun | Applied | Failed.
#[export] Instance Drain_eq_dec : EqDecision Drain.
Proof. solve_decision. Defined.

Definition APPLY_BY_RESTART_EXIT_CODE : Z := 6.
Definition serve_outcome_to_exit_code (outcome : ServeOutcome) : Z :=
  match outcome with
  | GracefulShutdown => 0
  | SupervisorExited _ | AcceptAbandoned | ChannelMismatch => 1
  | ApplyByRestart => APPLY_BY_RESTART_EXIT_CODE
  end.

Definition after_drain (outcome : ServeOutcome) (drain : Drain) : ServeOutcome :=
  match outcome, drain with
  | GracefulShutdown, Applied => ApplyByRestart
  | GracefulShutdown, (Begun | Failed) => AcceptAbandoned
  | outcome, _ => outcome
  end.
Definition admits (drain : Drain) : bool := bool_decide (drain = Serving).
Definition may_stop (drain : Drain) : bool :=
  match drain with Applied | Failed => true | Serving | Begun => false end.

(** ** The decision request *)

Definition build_authz_request (verb : Verb) (peer_uid : Z) (home : option Path) (lane : Lane)
    (admitted : option AdmittedChoice) : Request :=
  let subject := <["uid" := AInt peer_uid]> (∅ : Attributes) in
  let subject := match home with Some h => <[SUBJECT_HOME := AStr h]> subject | None => subject end in
  let resource := match verb with
                  | Read path _ _ => <["path" := AStr path]> (∅ : Attributes)
                  | _ => ∅
                  end in
  let resource :=
    match verb, admitted with
    | SessionPrompt _ _ _ _, Some a =>
        <["model" := AStr (ap_name (ac_provider a) +:+ "/" +:+ ac_model a)]>
          (<["destination" := AStr ("provider:" +:+ ap_name (ac_provider a))]> resource)
    | _, _ => resource
    end in
  mkRequest subject resource (verb_to_action verb)
    (<[CONTEXT_DAC_LANE := AStr (lane_as_str lane)]> (∅ : Attributes)).

Definition build_kernel_request (action_ : string) (kernel_uid : Z) : Request :=
  mkRequest
    (<[SUBJECT_INITIATOR := AStr INITIATOR_KERNEL]> (<["uid" := AInt kernel_uid]> (∅ : Attributes)))
    ∅ action_ (<[CONTEXT_DAC_LANE := AStr (lane_as_str LaneLocal)]> (∅ : Attributes)).

(** ** Obligations *)

Fixpoint discharge_plan (obligations : list Obligation) : result unit string :=
  match obligations with
  | [] => Ok tt
  | ob :: obs =>
      if negb (String.eqb (ob_id ob) "audit") || negb (bool_decide (ob_params ob = ∅))
      then Err (ob_id ob) else discharge_plan obs
  end.

(** [containment.rs]: why a decision does not permit. *)
Definition denial (d : Decided) : option string :=
  match finalize (combine [d_verdict d]) with
  | DPermit obligations =>
      match discharge_plan obligations with
      | Ok _ => None
      | Err u => Some ("unhonorable obligation: " +:+ u)
      end
  | DDeny reason => Some reason
  end.
Definition permits (d : Decided) : bool := is_none (denial d).

(** ** The lexical gate *)

Fixpoint pregate_segments (segs : list string) : result unit string :=
  match segs with
  | [] => Ok tt
  | seg :: segs' =>
      if is_empty seg then Err "empty segment"
      else if String.eqb seg "." || String.eqb seg ".." then Err "dot segment"
      else pregate_segments segs'
  end.

Definition lexical_pregate (path : string) : result unit string :=
  match strip_prefix "/" path with
  | None => Err "not absolute"
  | Some rest =>
      if String.eqb path "/" then Ok tt
      else if ends_with "/" path then Err "trailing slash"
      else pregate_segments (split_char slash rest)
  end.

(** ** Lemmas *)

Lemma pregate_segments_iff segs : pregate_segments segs = Ok tt <-> segment_violation segs = None.
Proof.
  induction segs as [|s segs IH]; simpl; [done|]. destruct (is_empty s); [done|].
  destruct (String.eqb s "."); simpl; [done|]. by destruct (String.eqb s "..").
Qed.

Lemma ends_with_slash_segment s : ends_with "/" (String slash s) = true -> "" ∈ split_char slash s.
Proof.
  rewrite ends_with_spec. intros [r E]. destruct r as [|a r].
  - injection E as ->. left.
  - injection E as _ ->. change "/" with (String slash ""). rewrite split_char_app2. set_solver.
Qed.

(** On a path with no NUL byte the two gates accept the same paths. *)
Lemma pregate_canonical path :
  contains_char nul path = false -> lexical_pregate path = Ok tt <-> canonical_violation path = None.
Proof.
  intros Hn. unfold lexical_pregate, canonical_violation. rewrite Hn.
  destruct (strip_prefix "/" path) as [rest|] eqn:Es; [|done].
  apply strip_prefix_spec in Es as ->. destruct (String.eqb ("/" +:+ rest) "/"); [done|].
  destruct (ends_with "/" ("/" +:+ rest)) eqn:Ee; [|apply pregate_segments_iff].
  split; [done|]. intros Hv%segment_violation_None. apply ends_with_slash_segment in Ee.
  rewrite Forall_forall in Hv. by destruct (Hv "" Ee).
Qed.

Lemma discharge_audit : discharge_plan [audit_obligation] = Ok tt.
Proof. reflexivity. Qed.

Lemma discharge_plan_Ok obs :
  discharge_plan obs = Ok tt <-> Forall (fun o => o = audit_obligation) obs.
Proof.
  induction obs as [|[id params] obs IH]; simpl; [split; [constructor|done]|].
  rewrite Forall_cons. destruct (String.eqb_spec id "audit") as [->|Hne]; simpl.
  - destruct (bool_decide_reflect (params = ∅)) as [->|Hp]; simpl; [rewrite IH; naive_solver|].
    split; [done|]. intros [[= ?] _]. done.
  - split; [done|]. intros [[= ? _] _]. done.
Qed.

Lemma request_uid verb uid home lane a :
  (0 <= uid < u32_max)%Z -> uid_of (build_authz_request verb uid home lane a) = Ok (Some uid).
Proof.
  intros Hu. unfold uid_of, build_authz_request. cbn [Seam.subject].
  assert ((match home with
           | Some h => <[SUBJECT_HOME:=AStr h]> (<["uid":=AInt uid]> (∅ : Attributes))
           | None => <["uid":=AInt uid]> ∅ end) !! SUBJECT_UID = Some (AInt uid)) as ->.
  { destruct home; [rewrite lookup_insert_ne by done|]; apply lookup_insert_eq. }
  by rewrite (proj2 (try_u32_Some uid uid)).
Qed.

Lemma client_not_kernel verb : class_of (verb_to_action verb) <> Some CKernel.
Proof. destruct verb; vm_compute; discriminate. Qed.

(** ** Theorems *)

(** the verbs with a behaviour are exactly the terms a policy can grant,
    with the liveness ping and [whoami]; an action names one dispatch; and no
    client verb names a kernel action or a term of the kernel's class. *)
Theorem built_terms_exact (verb verb' : Verb) (t : string) :
  ((exists v, verb_to_action v = t /\ dispatch_verb v <> NoBehaviour) <->
   t ∈ ["liveness.ping"; "admin.whoami"] ++ ACTION_VOCABULARY) /\
  (verb_to_action verb = verb_to_action verb' -> dispatch_verb verb = dispatch_verb verb') /\
  verb_to_action verb ∉ KERNEL_ACTIONS /\ class_of (verb_to_action verb) <> Some CKernel.
Proof.
  split_and!; [split| | |apply client_not_kernel].
  - intros (v & <- & Hd). apply list_elem_of_In.
    destruct v; try (by destruct Hd); vm_compute; tauto.
  - rewrite list_elem_of_In. intros H.
    destruct H as [<-|[<-|[<-|[<-|[<-|[<-|[<-|[<-|[<-|[<-|[<-|[<-|[<-|[<-|[]]]]]]]]]]]]]]].
    + by exists Ping.
    + by exists Whoami.
    + by exists AdminStatus.
    + by exists AdminConfigShow.
    + by exists AdminSubjectList.
    + by exists AdminBaselineShow.
    + by exists (AdminBaselineAccept "").
    + by exists (AdminContain (TargetUid 0) "").
    + by exists (AdminRelease (TargetUid 0)).
    + by exists (SessionPrompt "" [] None None).
    + by exists (Read "" None None).
    + by exists (FsWrite "" 0 Existing None).
    + by exists (FsDelete "" false).
    + by exists (FsMkdir "" false []).
  - destruct verb, verb'; done || (intros H; by vm_compute in H).
  - rewrite list_elem_of_In. destruct verb; intros H; vm_compute in H; naive_solver.
Qed.

(** the kernel's lexical gate over a path with no NUL byte accepts exactly
    the paths the decision core calls canonical; with a NUL byte it accepts
    paths the core refuses. *)
Theorem pregate_exact (path : string) :
  (contains_char nul path = false ->
   (lexical_pregate path = Ok tt <-> canonical_violation path = None)) /\
  (exists p, lexical_pregate p = Ok tt /\ canonical_violation p = Some "NUL byte").
Proof.
  split; [apply pregate_canonical|]. by exists ("/a" +:+ String nul "b").
Qed.
