(* ===== verification/Session.v ===== *)
(** * Sessions: the facts a request is re-decided on

    [crates/maknae-kernel/src/authz.rs] (causes, endings, the revalidation),
    [session.rs] (the bounded gather and the session's end),
    [groupres.rs] (membership of the maknae group) and [session_facts]
    (the account's state from the user database). Name-service and Varlink
    answers are arguments. *)
From stdpp Require Import base list strings.
From Stdlib Require Import ZArith Lia Ascii.
From S2P Require Import Prelude RustStr RustNet Breaker Json.
Open Scope nat_scope.

(** ** Account state ([session_facts]) *)

Inductive AccountState := Active | Disabled | Locked | Expired | Unknown (why : string).
Inductive NotCheckedWhy := DirectoryAccount | Platform | Configured.
Inductive AccountFact := Checked (s : AccountState) | NotChecked (why : NotCheckedWhy).
Inductive AccountSource := SourceNone | SourceUserdb.

Definition AGING_FIELDS : list string :=
  ["lastPasswordChangeUSec"; "passwordChangeMinUSec"; "passwordChangeMaxUSec"; "passwordChangeWarnUSec"].

Definition error_name (error : Json) : string :=
  match error with
  | JStr name =>
      if (String.length name <=? 128)
         && all_bytes (fun b => is_ascii_alphanumeric b || Ascii.eqb b ".") name
      then name else "(unprintable)"
  | _ => "(unprintable)"
  end.

(** The loop over the aging fields: a malformed one refuses, a number in any
    says the record carries shadow data. *)
Fixpoint aging (record : Json) (shadow : bool) (keys : list string) : result bool string :=
  match keys with
  | [] => Ok shadow
  | key :: keys' =>
      match json_get record key with
      | None | Some JNull => aging record shadow keys'
      | Some value =>
          match json_as_u64 value with
          | Some _ => aging record true keys'
          | None => Err ("userdb: malformed " +:+ key)
          end
      end
  end.

Definition account_of_record (record : Json) (uid now_usec : Z) : result unit AccountState :=
  let? _ := match json_as_u64 <$> json_get record "uid" with
            | Some (Some got) =>
                if (got =? uid)%Z then Ok tt else Err (Unknown "userdb: record is for another uid")
            | Some None | None => Err (Unknown "userdb: malformed uid")
            end in
  let? _ := match json_get record "locked" with
            | None | Some (JBool false) => Ok tt
            | Some (JBool true) => Err Locked
            | Some _ => Err (Unknown "userdb: malformed locked")
            end in
  let? _ := match json_get record "notAfterUSec" with
            | None => Ok tt
            | Some j =>
                match json_as_u64 j with
                | None => Err (Unknown "userdb: malformed notAfterUSec")
                | Some not_after => if (not_after <? now_usec)%Z then Err Expired else Ok tt
                end
            end in
  let? _ := match json_get record "notBeforeUSec" with
            | None => Ok tt
            | Some j =>
                match json_as_u64 j with
                | None => Err (Unknown "userdb: malformed notBeforeUSec")
                | Some not_before => if (now_usec <? not_before)%Z then Err Disabled else Ok tt
                end
            end in
  let? shadow := map_err Unknown (aging record false AGING_FIELDS) in
  if negb shadow then Err (Unknown "no shadow") else Ok tt.

Definition map_record (json : Json) (uid now_usec : Z) : AccountState :=
  match json_get json "error" with
  | Some error => Unknown ("userdb error " +:+ error_name error)
  | None =>
      match (let! p := json_get json "parameters" in
             let! r := json_get p "record" in json_as_object r) with
      | None => Unknown "userdb: no record"
      | Some record =>
          match account_of_record record uid now_usec with Ok _ => Active | Err s => s end
      end
  end.

(** The text's lines that are not comments or compat entries, by their third field. *)
Definition uid_line (uid : Z) (line : string) : bool :=
  if starts_with "#" line || starts_with "+" line || starts_with "-" line then false
  else match split_char ":" line !! 2 with
       | None => false
       | Some field =>
           all_bytes is_ascii_digit field
           && match fst <$> read_number 10 u32_max (String.length field) true field with
              | Some v => (v =? uid)%Z
              | None => false
              end
       end.
Definition strip_cr (line : string) : string := default line (strip_suffix (String (ascii_of_nat 13) "") line).
Definition uid_in_passwd (text : string) (uid : Z) : bool :=
  existsb (uid_line uid) (map strip_cr (split_char (ascii_of_nat 10) text)).

Definition account_from (source : AccountSource) (local : result bool string) (state : AccountState)
  : AccountFact :=
  match source with
  | SourceNone => NotChecked Configured
  | SourceUserdb =>
      match local with
      | Ok true => Checked state
      | Ok false => NotChecked DirectoryAccount
      | Err _ => Checked (Unknown "passwd unreadable")
      end
  end.

(** ** Membership ([groupres.rs]) *)

Inductive AuthzError := Resolve (why : string) | NoUser | Unanswered (user why : string).
Record Membership := mkMembership { me_in_group : bool; me_user : string; me_dir : string }.
Record Group := mkGroup { gr_mem : list string; gr_gid : Z }.
Record User := mkUser { us_name : string; us_gid : Z; us_dir : string }.

Definition membership_of (name : string) (gid : Z) (dir : string)
    (group : result (option Group) string) (supplementary : result (list Z) string)
  : result Membership AuthzError :=
  match group with
  | Ok None => Ok (mkMembership false name dir)
  | Err why => Err (Unanswered name why)
  | Ok (Some grp) =>
      if existsb (String.eqb name) (gr_mem grp) || (gid =? gr_gid grp)%Z
      then Ok (mkMembership true name dir)
      else match supplementary with
           | Ok groups => Ok (mkMembership (existsb (Z.eqb (gr_gid grp)) groups) name dir)
           | Err why => Err (Unanswered name why)
           end
  end.

Definition uid_in_maknae_group (user : result (option User) string)
    (group : result (option Group) string) (supplementary : result (list Z) string)
  : result Membership AuthzError :=
  let? user := map_err Resolve user in
  let? user := ok_or user NoUser in
  membership_of (us_name user) (us_gid user) (us_dir user) group supplementary.

(** ** The gather ([session.rs]) *)

Record Facts := mkFacts {
  fa_membership : result Membership AuthzError; fa_account : AccountFact; fa_answered : bool }.

Definition unanswered (why : string) : Facts :=
  mkFacts (Err (Resolve why)) (Checked (Unknown why)) false.

(** What the blocking lookup came to: it returned, its task was lost, or it
    was still running at [at_] when its bound elapsed. *)
Inductive LookedUp :=
| LookupJoined (membership : result Membership AuthzError) (account : AccountFact)
| LookupLost
| LookupElapsed (at_ : Z).

Definition gather (breaker : BlockingBreaker) (now : Z) (looked_up : LookedUp)
  : BlockingBreaker * Facts :=
  let '(breaker, admitted) := begin_attempt_at breaker now in
  match admitted with
  | RefuseOpen =>
      ((should_log_refusal_at breaker now).1, unanswered "session fact lookup circuit breaker open")
  | RefuseAtCapacity =>
      (breaker, unanswered "session fact lookup blocking worker budget exhausted")
  | Admit =>
      match looked_up with
      | LookupJoined m a => (record_success breaker, mkFacts m a true)
      | LookupLost => (record_success breaker, unanswered "session fact lookup failed")
      | LookupElapsed at_ =>
          ((record_timeout_at breaker at_).1, unanswered "session fact lookup timed out")
      end
  end.

(** ** Causes, endings and the revalidation ([authz.rs]) *)

Inductive FactSource := FGroup | FAccount | FSessionMap | FAudit | FSessionFacts.
Inductive DenyCause :=
| NotMember | DAccount (s : AccountState) | SenderMismatch | Infrastructure (source : FactSource).
Inductive Revalidation := Continue | RDeny (cause : DenyCause).
Inductive Ending := Disconnect | Idle | Lifetime | EDenied (cause : DenyCause).

Definition revalidate (bound_uid request_uid : Z) (f : Facts) : Revalidation :=
  if negb (bound_uid =? request_uid)%Z then RDeny (Infrastructure FSessionMap)
  else if negb (fa_answered f) then RDeny (Infrastructure FSessionFacts)
  else
    match fa_membership f with
    | Err (Resolve _) | Err (Unanswered _ _) => RDeny (Infrastructure FGroup)
    | Err NoUser => RDeny NotMember
    | Ok m =>
        if negb (me_in_group m) then RDeny NotMember
        else match fa_account f with
             | Checked Active | NotChecked _ => Continue
             | Checked (Unknown _) => RDeny (Infrastructure FAccount)
             | Checked state => RDeny (DAccount state)
             end
    end.

Definition cause_reason (c : DenyCause) : string :=
  match c with
  | NotMember => "not-member"
  | DAccount Locked => "account-locked"
  | DAccount Expired => "account-expired"
  | DAccount Disabled => "account-disabled"
  | DAccount Active => "account-active"
  | DAccount (Unknown _) => "account-unknown"
  | SenderMismatch => "sender-mismatch"
  | Infrastructure FGroup => "infrastructure:group"
  | Infrastructure FAccount => "infrastructure:account"
  | Infrastructure FSessionMap => "infrastructure:session-map"
  | Infrastructure FAudit => "infrastructure:audit"
  | Infrastructure FSessionFacts => "infrastructure:session-facts"
  end.
Definition cause_posture (c : DenyCause) : string :=
  match c with Infrastructure _ => "unavailable" | _ => "unauthorized" end.

Definition account_label (a : AccountFact) : string :=
  match a with
  | Checked Active => "active"
  | Checked Locked => "locked"
  | Checked Expired => "expired"
  | Checked Disabled => "disabled"
  | Checked (Unknown _) => "unknown"
  | NotChecked DirectoryAccount => "not-checked:directory"
  | NotChecked Platform => "not-checked:platform"
  | NotChecked Configured => "not-checked:configured"
  end.
Definition admission_reason (a : AccountFact) : string :=
  "admitted (account: " +:+ account_label a +:+ ")".

Definition ending_reason (e : Ending) : string :=
  match e with
  | Disconnect => "disconnect" | Idle => "idle" | Lifetime => "lifetime" | EDenied c => cause_reason c
  end.
Definition ending_result (e : Ending) : string :=
  match e with Disconnect => "permit" | Idle | Lifetime | EDenied _ => "deny" end.
Definition ending_posture (e : Ending) : string :=
  match e with Disconnect | Idle | Lifetime => "stopped" | EDenied c => cause_posture c end.

(** [SessionRecord::end]: the first ending other than a disconnect stands. *)
Definition session_end (ending : option Ending) (e : Ending) : option Ending :=
  match e with
  | Disconnect => ending
  | Idle | Lifetime | EDenied _ => match ending with Some _ => ending | None => Some e end
  end.
Definition session_ending (ending : option Ending) : Ending := default Disconnect ending.

Definition admission_facts (looked_up : result Membership AuthzError)
  : bool * option string * option string :=
  match looked_up with
  | Ok m => (me_in_group m, Some (me_user m), if me_in_group m then Some (me_dir m) else None)
  | Err (Unanswered user _) => (false, Some user, None)
  | Err (Resolve _) | Err NoUser => (false, None, None)
  end.

(** ** Lemmas *)

(** The peer is in the maknae group: named in it, by primary group, or by a
    supplementary one. *)
Definition is_member (u : User) (group : result (option Group) string)
    (supplementary : result (list Z) string) : Prop :=
  exists grp, group = Ok (Some grp) /\
    (us_name u ∈ gr_mem grp \/ us_gid u = gr_gid grp \/
     exists gs, supplementary = Ok gs /\ gr_gid grp ∈ gs).

Lemma uid_in_maknae_group_true user group supplementary m :
  uid_in_maknae_group user group supplementary = Ok m /\ me_in_group m = true <->
  exists u, user = Ok (Some u) /\ is_member u group supplementary /\
            m = mkMembership true (us_name u) (us_dir u).
Proof.
  unfold uid_in_maknae_group, is_member. destruct user as [[u|]|]; simpl.
  2:{ split; [intros [? _]; done|intros (? & ? & _); done]. }
  2:{ split; [intros [? _]; done|intros (? & ? & _); done]. }
  unfold membership_of. destruct group as [[grp|]|]; simpl.
  2:{ split; [by intros [[= <-] ?]|]. intros (? & _ & (? & ? & _) & _). done. }
  2:{ split; [by intros [? _]|]. intros (? & _ & (? & ? & _) & _). done. }
  destruct (existsb (String.eqb (us_name u)) (gr_mem grp)) eqn:En; simpl.
  { apply existsb_true in En as (x & Hx & <-%String.eqb_eq). split.
    - intros [[= <-] _]. exists u. split; [done|]. split; [|done]. exists grp. auto.
    - intros (u' & [= <-] & _ & ->). done. }
  destruct (Z.eqb_spec (us_gid u) (gr_gid grp)) as [Eg|Eg].
  { split.
    - intros [[= <-] _]. exists u. split; [done|]. split; [|done]. exists grp. auto.
    - intros (u' & [= <-] & _ & ->). done. }
  rewrite existsb_false in En. split.
  - destruct supplementary as [gs|]; [|intros [? _]; done]. intros [[= <-] Hm]. simpl in *.
    pose proof Hm as (g & Hg & <-%Z.eqb_eq)%existsb_true.
    exists u. split; [done|]. split; [|by f_equal]. exists grp. split; [done|]. right; right. by exists gs.
  - intros (u' & [= <-] & (grp' & [= <-] & Hc) & ->). destruct Hc as [Hc|[Hc|(gs & -> & Hg)]].
    + specialize (En _ Hc). by rewrite String.eqb_refl in En.
    + done.
    + assert (existsb (Z.eqb (gr_gid grp)) gs = true) as ->; [|done].
      apply existsb_true. exists (gr_gid grp). by rewrite Z.eqb_refl.
Qed.

(** An aging field is absent, null or a number. *)
Definition aging_field (record : Json) (k : string) : Prop :=
  json_get record k = None \/ json_get record k = Some JNull \/
  exists n, json_get record k = Some (JPos n).
Definition aged (record : Json) (k : string) : Prop := exists n, json_get record k = Some (JPos n).

Lemma aging_true record shadow keys :
  aging record shadow keys = Ok true <->
  Forall (aging_field record) keys /\ (shadow = true \/ Exists (aged record) keys).
Proof.
  revert shadow. induction keys as [|k keys IH]; intros shadow; simpl.
  { rewrite Exists_nil. split; [intros [= ->]; split; [constructor|auto]|]. by intros [_ [->|[]]]. }
  rewrite Forall_cons, Exists_cons. unfold aging_field at 1, aged at 1.
  destruct (json_get record k) as [j|] eqn:Ek.
  - destruct j; simpl;
      try (split; [done|]; intros [[[?|[?|(? & ?)]] _] _]; congruence).
    + rewrite IH. naive_solver.
    + rewrite IH. naive_solver.
  - rewrite IH. naive_solver.
Qed.

(** A record that says the account may act now. *)
Record record_active (record : Json) (uid now_usec : Z) : Prop := {
  ra_uid : json_get record "uid" = Some (JPos uid);
  ra_locked : json_get record "locked" = None \/ json_get record "locked" = Some (JBool false);
  ra_not_after : forall j, json_get record "notAfterUSec" = Some j -> exists n, j = JPos n /\ (now_usec <= n)%Z;
  ra_not_before : forall j, json_get record "notBeforeUSec" = Some j -> exists n, j = JPos n /\ (n <= now_usec)%Z;
  ra_fields : Forall (aging_field record) AGING_FIELDS;
  ra_shadow : Exists (aged record) AGING_FIELDS }.

Lemma account_of_record_Ok record uid now :
  account_of_record record uid now = Ok tt <-> record_active record uid now.
Proof.
  unfold account_of_record. split.
  - intros H. unbind H.
    assert (json_get record "uid" = Some (JPos uid)) as Hu.
    { clear -E. destruct (json_get record "uid") as [[| |n| | | | |]|]; try done. simpl in E.
      destruct (n =? uid)%Z eqn:En; [|done]. apply Z.eqb_eq in En. congruence. }
    assert (json_get record "locked" = None \/ json_get record "locked" = Some (JBool false)) as Hl.
    { clear -E0. destruct (json_get record "locked") as [[| [] | | | | | |]|]; auto; done. }
    destruct a3; [|done]. destruct (aging record false AGING_FIELDS) as [[]|] eqn:Ea; try done.
    apply aging_true in Ea as [Hf [?|Hs]]; [done|]. constructor; try done.
    + intros j Hj. rewrite Hj in E1. destruct j as [| |n| | | | |]; try done. simpl in E1.
      destruct (Z.ltb_spec n now); [done|]. by exists n.
    + intros j Hj. rewrite Hj in E2. destruct j as [| |n| | | | |]; try done. simpl in E2.
      destruct (Z.ltb_spec now n); [done|]. by exists n.
  - intros [Hu Hl Ha Hb Hf Hs]. rewrite Hu.
    change (json_as_u64 <$> Some (JPos uid)) with (Some (Some uid)). cbv iota. rewrite Z.eqb_refl.
    assert (match json_get record "locked" with
            | None | Some (JBool false) => Ok tt
            | Some (JBool true) => Err Locked
            | Some _ => Err (Unknown "userdb: malformed locked") end = Ok tt) as ->
      by (by destruct Hl as [->| ->]).
    assert (aging record false AGING_FIELDS = Ok true) as -> by (apply aging_true; auto).
    destruct (json_get record "notAfterUSec") as [j|].
    + destruct (Ha j eq_refl) as (n & -> & Hn). simpl. destruct (Z.ltb_spec n now); [lia|].
      destruct (json_get record "notBeforeUSec") as [j'|]; [|done].
      destruct (Hb j' eq_refl) as (n' & -> & Hn'). simpl. destruct (Z.ltb_spec now n'); [lia|done].
    + destruct (json_get record "notBeforeUSec") as [j'|]; [|done].
      destruct (Hb j' eq_refl) as (n' & -> & Hn'). simpl. destruct (Z.ltb_spec now n'); [lia|done].
Qed.

Lemma account_of_record_Err record uid now e : account_of_record record uid now = Err e -> e <> Active.
Proof.
  unfold account_of_record. intros H ->.
  repeat match type of H with
  | (match ?x with Ok _ => _ | Err _ => _ end) = Err Active =>
      let E := fresh "E" in destruct x eqn:E;
      [|injection H as ->; clear -E; repeat (case_match; try discriminate)]
  end.
  - by destruct a3.
  - by destruct (aging record false AGING_FIELDS).
Qed.

(** The user database's reply carries such a record for [uid]. *)
Definition reply_active (json : Json) (uid now_usec : Z) : Prop :=
  json_get json "error" = None /\
  exists p m, json_get json "parameters" = Some p /\ json_get p "record" = Some (JObj m) /\
              record_active (JObj m) uid now_usec.

Lemma map_record_Active json uid now : map_record json uid now = Active <-> reply_active json uid now.
Proof.
  unfold map_record, reply_active. destruct (json_get json "error"); [split; [done|by intros [? _]]|].
  destruct (json_get json "parameters") as [p|]; [|split; [done|intros (_ & ? & ? & ? & _); done]].
  destruct (json_get p "record") as [r|] eqn:Er; [|split; [done|intros (_ & ? & ? & [= <-] & ? & _); congruence]].
  destruct r as [| | | | | | |m]; simpl;
    try (split; [done|intros (_ & ? & ? & [= <-] & ? & _); congruence]).
  split.
  - destruct (account_of_record (JObj m) uid now) as [[]|e] eqn:Ea.
    + intros _. split; [done|]. exists p, m. split_and!; [done..|]. by apply account_of_record_Ok.
    + intros ->. by apply account_of_record_Err in Ea.
  - intros (_ & p' & m' & [= <-] & Hm & Ha). rewrite Hm in Er. injection Er as ->.
    by rewrite (proj2 (account_of_record_Ok _ _ _) Ha).
Qed.

(** ** Theorems *)

(** a session serves a request exactly when the facts gathered for that
    request say so: the uid is the one it was opened for, the lookup was
    admitted and answered, the account is in the maknae group, and it is
    active in the user database, unless no source is configured or the account
    is not a local one. *)
Theorem session_continues_iff (bound request : Z) (b : BlockingBreaker) (now : Z)
    (user : result (option User) string) (group : result (option Group) string)
    (supplementary : result (list Z) string) (source : AccountSource) (local : result bool string)
    (reply : Json) (now_usec : Z) :
  revalidate bound request
    (gather b now (LookupJoined (uid_in_maknae_group user group supplementary)
                     (account_from source local (map_record reply request now_usec)))).2 = Continue <->
  bound = request /\ (begin_attempt_at b now).2 = Admit /\
  (exists u, user = Ok (Some u) /\ is_member u group supplementary) /\
  (source = SourceUserdb ->
   local = Ok false \/ (local = Ok true /\ reply_active reply request now_usec)).
Proof.
  unfold revalidate, gather. destruct (begin_attempt_at b now) as [b' adm]. simpl.
  destruct (Z.eqb_spec bound request) as [->|Hne]; simpl; [|split; [done|by intros [? _]]].
  destruct adm; simpl; [|split; [done|by intros (_ & ? & _)]..].
  pose proof (uid_in_maknae_group_true user group supplementary) as Hm.
  destruct (uid_in_maknae_group user group supplementary) as [m|e] eqn:Em.
  2:{ split; [by destruct e|]. intros (_ & _ & (u & Hu & Hmem) & _).
      destruct (proj2 (Hm (mkMembership true (us_name u) (us_dir u)))) as [? _]; [by exists u|done]. }
  destruct (me_in_group m) eqn:Eg; simpl.
  2:{ split; [done|]. intros (_ & _ & (u & Hu & Hmem) & _).
      destruct (proj2 (Hm (mkMembership true (us_name u) (us_dir u)))) as [[= ->] _]; [by exists u|done]. }
  destruct (proj1 (Hm m) (conj eq_refl Eg)) as (u & Hu & Hmem & _).
  assert ((exists u, user = Ok (Some u) /\ is_member u group supplementary) <-> True) as -> by naive_solver.
  destruct source; simpl; [naive_solver|]. rewrite <-map_record_Active.
  destruct local as [[]|]; simpl; [|naive_solver|naive_solver].
  destruct (map_record reply request now_usec); naive_solver.
Qed.

(** a request is never served on facts that were not gathered: a lookup
    that the breaker refused, that was lost, or that outlived its bound denies,
    as an infrastructure denial. *)
Theorem ungathered_denied (bound : Z) (b : BlockingBreaker) (now : Z) (l : LookedUp) :
  (begin_attempt_at b now).2 <> Admit \/ (forall m a, l <> LookupJoined m a) ->
  revalidate bound bound (gather b now l).2 = RDeny (Infrastructure FSessionFacts).
Proof.
  intros H. unfold revalidate, gather. rewrite Z.eqb_refl. simpl.
  destruct (begin_attempt_at b now) as [b' []]; simpl in *; try done.
  destruct l; simpl; try done. exfalso. destruct H as [?|H]; [done|by eapply H].
Qed.

(** ** Witnesses *)

Lemma ungathered_denied_witness :
  revalidate 1000 1000 (gather breaker_default 0 (LookupElapsed 5)).2 =
  RDeny (Infrastructure FSessionFacts).
Proof. apply (ungathered_denied 1000 breaker_default 0 (LookupElapsed 5)). right. discriminate. Defined.
