(* ===== verification/Egress.v ===== *)
(** * Prompts on their way out: the kernel's admission and the Egress Daemon's

    [crates/maknae-kernel/src/egress.rs] (admission of a transcript and of a
    reply, failures and outcomes), the frame [egress_socket.rs] builds, and the
    Egress Daemon's own decision over it ([crates/maknae-deputy/src/handle.rs],
    [unseal.rs]). *)
From stdpp Require Import base list strings.
From Stdlib Require Import ZArith Lia Ascii.
From S2P Require Import Prelude RustStr RustSlice RustNet Config Graph GraphFormat Wire Providers.
Open Scope nat_scope.

(** ** What the kernel sends *)

Record EgressRequest := mkSend {
  es_destination : string; es_endpoint : string; es_model : string; es_key_vault_path : string;
  es_key_field : string; es_sealed_key : bytes; es_reasoning_effort : option string;
  es_output_tokens : option Z; es_output_tokens_field : option OutputTokensField;
  es_conversation : string; es_turns : list TurnOf }.

Definition for_choice (c : AdmittedChoice) (destination conversation : string) (turns : list TurnOf)
    (output_tokens : option Z) : EgressRequest :=
  let output_tokens_field :=
    (fun _ => match ap_output_tokens_field (ac_provider c) with
              | Some f => if String.eqb f "max_tokens" then MaxTokens else MaxCompletionTokens
              | None => MaxCompletionTokens
              end) <$> output_tokens in
  mkSend destination (ap_endpoint (ac_provider c)) (ac_model c) (ac_key_vault_path c) (ac_key_field c)
    (ac_sealed_key c) (ap_reasoning_effort (ac_provider c)) output_tokens output_tokens_field
    conversation turns.

(** [egress_socket.rs]: the frame carries the backend's whole deadline. *)
Definition frame_of (req : EgressRequest) (deadline_ms : Z) : EgressFrameRequest :=
  mkEgressRequest (es_destination req) (es_endpoint req) (es_model req) (es_key_vault_path req)
    (es_key_field req) (es_sealed_key req) (es_reasoning_effort req) (Some deadline_ms)
    (es_output_tokens req) (es_output_tokens_field req) (es_conversation req) (es_turns req).

Inductive EgressFailure :=
| NotConfigured | Transport (why : string) | DeadlineExpired | AfterSend (why : string)
| RefusedBeforeSend | DeputyAtCapacity | KernelAtCapacity | CircuitOpen
| DeputyUnreachable (why : string) | FReplyUnusable (defect : ReplyDefect) (usage : option Usage).

(** ** Admission of a transcript *)

Definition is_text (b : ContentBlock) : bool := match b with Text _ => true | _ => false end.
Definition blank_text (b : ContentBlock) : bool :=
  match b with Text text => is_empty (trim text) | _ => false end.
Definition not_admitted (b : ContentBlock) : string :=
  "content block type not admitted in this deployment: " +:+ block_kind b.

Definition admitted_blocks (content : list ContentBlock) : result unit string :=
  if no_blocks content then Err "prompt carries no content"
  else if forallb blank_text content then Err "prompt carries no text to send"
  else match List.find (fun b => negb (is_text b)) content with
       | None => Ok tt
       | Some b => Err (not_admitted b)
       end.

Definition admitted_later (t : TurnOf) : result unit string :=
  match t with
  | TUser content => admitted_blocks content
  | TAssistant content _ _ =>
      match List.find (fun b => negb (is_text b)) content with
      | Some b => Err (not_admitted b)
      | None => Ok tt
      end
  | TTool _ content =>
      map_err (fun e => if String.eqb e "prompt carries no text to send"
                        then "tool result carries no text" else e) (admitted_blocks content)
  end.

Fixpoint admitted_rest (turns : list TurnOf) : result unit string :=
  match turns with
  | [] => Ok tt
  | t :: turns' => let? _ := admitted_later t in admitted_rest turns'
  end.

Definition admitted_turns (turns : list TurnOf) : result unit string :=
  match turns with
  | [] => Err "prompt carries no turns"
  | first :: rest =>
      if negb (forallb turn_is_acceptable turns) then Err "turn fails shape admission"
      else
        let? _ := match first with
                  | TUser content => admitted_blocks content
                  | _ => Err "prompt must begin with a user turn"
                  end in
        admitted_rest rest
  end.

(** ** The content measure

    [sha256_hex32] is the digest of the bytes fed, in the order they are fed. *)
Definition turn_parts (t : TurnOf) : list string :=
  let texts content := omap (fun b => match b with Text text => Some text | _ => None end) content in
  match t with
  | TUser content | TTool _ content => texts content
  | TAssistant content tool_calls reasoning =>
      texts content ++ map tc_arguments tool_calls ++ option_list reasoning
  end.

Record ContentMeasure := mkMeasure { cm_length : Z; cm_digest32 : string }.
Definition content_measure (sha256_hex32 : string -> string) (turns : list TurnOf) : ContentMeasure :=
  let parts := concat (map turn_parts turns) in
  mkMeasure (fold_right (fun s n => (str_len s + n)%Z) 0%Z parts) (sha256_hex32 (str_join "" parts)).

(** ** Admission of a reply and what the send came to *)

Inductive ReplyRefusal :=
| Oversize | NonText | REmpty | ToolCallUnacceptable | ReasoningUnacceptable
| Unusable (defect : ReplyDefect).

Definition admitted_reply (reply : PromptReply) : result unit ReplyRefusal :=
  if no_blocks (pr_blocks reply) && match pr_tool_calls reply with [] => true | _ => false end
  then Err REmpty
  else if existsb (fun b => negb (is_text b)) (pr_blocks reply) then Err NonText
  else if negb (forallb proposed_tool_call_is_acceptable (pr_tool_calls reply))
  then Err ToolCallUnacceptable
  else if negb (reasoning_is_acceptable (pr_reasoning reply)) then Err ReasoningUnacceptable
  else Ok tt.

Inductive SendOutcome :=
| Sent (reply_length : Z) (usage : option Usage)
| SFailed | SDeadlineExpired | OutcomeUnknown
| LandedUndelivered (reply_length : option Z) (refusal : ReplyRefusal) (usage : option Usage).

Definition failure_counts_as_expiry (f : EgressFailure) : bool :=
  match f with DeadlineExpired => true | _ => false end.

Definition failure_is_unavailability (f : EgressFailure) : bool :=
  match f with
  | DeputyAtCapacity | KernelAtCapacity | CircuitOpen | DeputyUnreachable _ => true
  | NotConfigured | Transport _ | DeadlineExpired | AfterSend _ | RefusedBeforeSend
  | FReplyUnusable _ _ => false
  end.

Definition outcome_for_failure (f : EgressFailure) : SendOutcome :=
  match f with
  | DeadlineExpired => SDeadlineExpired
  | AfterSend _ => OutcomeUnknown
  | FReplyUnusable defect usage => LandedUndelivered None (Unusable defect) usage
  | NotConfigured | Transport _ | RefusedBeforeSend | DeputyAtCapacity | KernelAtCapacity
  | CircuitOpen | DeputyUnreachable _ => SFailed
  end.

Inductive ProtoErrCode :=
| UnknownVerb | Unauthorized | BadRequest | Internal | TooLarge | NotImplemented
| ReplyUnusable (d : ReplyDefect) | EgressUnavailable.

Definition REPLY_UNUSABLE_MESSAGE : string := "the provider's reply was unusable".
Definition EGRESS_UNAVAILABLE_MESSAGE : string :=
  "the model service is at capacity or restarting; nothing was sent".

Definition refusal_answer (r : ReplyRefusal) : ProtoErrCode * string :=
  match r with
  | Oversize => (TooLarge, "response exceeds the configured frame limit")
  | NonText => (Unauthorized, "not authorized")
  | REmpty => (ReplyUnusable EmptyReply, REPLY_UNUSABLE_MESSAGE)
  | ToolCallUnacceptable | ReasoningUnacceptable => (ReplyUnusable OverBound, REPLY_UNUSABLE_MESSAGE)
  | Unusable d => (ReplyUnusable d, REPLY_UNUSABLE_MESSAGE)
  end.

(** ** Sizes *)

Definition USAGE_ENVELOPE : Z := 64.
Definition REPLY_BLOCK_ENVELOPE : Z := 32.
Definition TOOL_CALL_ENVELOPE : Z := 64.
Definition CALL_REFUSAL_ENVELOPE : Z := 64.
Definition REASONING_ENVELOPE : Z := 32.
Definition FRAME_ENVELOPE_MARGIN : Z := 512.

Definition sum_of {A} (f : A -> Z) (l : list A) : Z := fold_right (fun a n => (f a + n)%Z) 0%Z l.

Definition reply_text_length (reply : PromptReply) : Z :=
  sum_of (fun b => match b with Text text => str_len text | _ => 0%Z end) (pr_blocks reply).

Definition call_capacity (c : ProposedToolCall) : Z :=
  (str_len (tc_name c) + str_len (tc_call_id c) + str_len (tc_arguments c) + TOOL_CALL_ENVELOPE
   + if is_some (tc_refused c) then CALL_REFUSAL_ENVELOPE else 0)%Z.

Definition reply_capacity (reply : PromptReply) : Z :=
  (reply_text_length reply + Z.of_nat (length (pr_blocks reply)) * REPLY_BLOCK_ENVELOPE
   + sum_of call_capacity (pr_tool_calls reply)
   + (if is_some (pr_usage reply) then USAGE_ENVELOPE else 0)
   + match pr_reasoning reply with Some r => str_len r + REASONING_ENVELOPE | None => 0 end
   + FRAME_ENVELOPE_MARGIN)%Z.

Definition drop_reasoning (reply : PromptReply) : PromptReply :=
  mkReply (pr_blocks reply) (pr_tool_calls reply) (pr_usage reply) None.

(** The reply as it is left, and whether it fits. *)
Definition shed_reasoning_to_fit (reply : PromptReply) (cap : Z) : PromptReply * bool :=
  if (reply_capacity reply <=? cap)%Z then (reply, true)
  else let reply := drop_reasoning reply in (reply, (reply_capacity reply <=? cap)%Z).

Record RefusedToolCall := mkRefusedCall { rt_index : Z; rt_name : string; rt_arguments_bytes : Z }.
Definition refused_tool_calls (reply : PromptReply) : list RefusedToolCall :=
  omap (fun '(i, c) => match tc_refused c with
                       | Some (ArgumentsOverBound b) => Some (mkRefusedCall (Z.of_nat i) (tc_name c) b)
                       | None => None
                       end) (imap (fun i c => (i, c)) (pr_tool_calls reply)).

(** ** The Egress Daemon's decision ([handle.rs], [unseal.rs]) *)

Inductive Refusal :=
| KeyPathOutsideBounds | KeyPathMalformed | MalformedFrame | CallTimeoutExceedsDeadline
| NonTextBlock | NoTextToSend | TranscriptShape.

Record OpenRequest := mkOpen {
  op_conversation : string; op_provider : string; op_model : string; op_kv_mount : string;
  op_key_vault_path : string; op_key_field : string }.

Definition open_request (req : EgressFrameRequest) (bounds : EgressBounds) : result OpenRequest Refusal :=
  match strip_prefix "provider:" (er_destination req) with
  | Some provider =>
      if provider_name_is_acceptable provider
      then Ok (mkOpen (er_conversation req) provider (er_model req) (eb_kv_mount bounds)
                 (er_key_vault_path req) (er_key_field req))
      else Err MalformedFrame
  | None => Err MalformedFrame
  end.

Definition content_of (t : TurnOf) : list ContentBlock :=
  match t with TUser content | TAssistant content _ _ | TTool _ content => content end.

Definition deputy_decide (req : EgressFrameRequest) (bounds : EgressBounds)
  : result (EgressFrameRequest * OpenRequest) Refusal :=
  if negb (egress_frame_request_is_acceptable req) then Err MalformedFrame
  else if match er_deadline_ms req with
          | Some deadline_ms =>
              (deadline_ms <? eb_call_timeout_ms bounds + VAULT_CALLS_MS + DEADLINE_MARGIN_MS)%Z
          | None => false
          end then Err CallTimeoutExceedsDeadline
  else if negb (is_ok (kv_fragment_is_acceptable (er_key_vault_path req))) then Err KeyPathMalformed
  else if has_white_space (er_key_field req) || (MAX_KEY_FIELD_BYTES <? String.length (er_key_field req))
  then Err MalformedFrame
  else if match er_reasoning_effort req with
          | Some e => negb (reasoning_effort_is_acceptable e)
          | None => false
          end then Err MalformedFrame
  else if negb (path_is_within_prefix (er_key_vault_path req) (eb_user_prefix bounds))
  then Err KeyPathOutsideBounds
  else if existsb (fun b => negb (is_text b)) (concat (map content_of (er_turns req)))
  then Err NonTextBlock
  else match er_turns req with
       | TUser _ :: _ =>
           if existsb (fun t => match t with
                                | TUser content | TTool _ content => forallb blank_text content
                                | TAssistant _ _ _ => false
                                end) (er_turns req)
           then Err NoTextToSend
           else let? open := open_request req bounds in Ok (req, open)
       | _ => Err TranscriptShape
       end.

(** ** Lemmas *)

Lemma forallb_false_exists {A} (f : A -> bool) l : forallb f l = false -> exists x, x ∈ l /\ f x = false.
Proof.
  induction l as [|a l IH]; simpl; [done|]. intros [H|H]%andb_false_iff.
  - exists a. split; [left|done].
  - destruct (IH H) as (x & ? & ?). exists x. split; [by right|done].
Qed.

Lemma admitted_blocks_Ok content :
  admitted_blocks content = Ok tt <->
  content <> [] /\ Forall (fun b => is_text b = true) content /\ forallb blank_text content = false.
Proof.
  unfold admitted_blocks. destruct content as [|b content]; [split; [done|intros [? _]; done]|].
  cbn [no_blocks]. destruct (forallb blank_text (b :: content)); [split; [done|intros (_ & _ & ?); done]|].
  destruct (List.find _ (b :: content)) as [x|] eqn:Ef.
  - apply find_some_iff in Ef as [Hx Ht]. split; [done|]. intros (_ & Hall & _).
    rewrite Forall_forall in Hall. specialize (Hall x Hx). rewrite Hall in Ht. done.
  - apply find_none_iff in Ef. rewrite existsb_false in Ef. split; [intros _|done]. split_and!; [done| |done].
    apply Forall_forall. intros x Hx. specialize (Ef x Hx). by apply negb_false_iff in Ef.
Qed.

(** What both sides ask of a turn's content. *)
Definition turn_text (t : TurnOf) : Prop :=
  Forall (fun b => is_text b = true) (content_of t) /\
  match t with
  | TUser content | TTool _ content => forallb blank_text content = false
  | TAssistant _ _ _ => True
  end.

Lemma admitted_later_text t : admitted_later t = Ok tt -> turn_text t.
Proof.
  destruct t as [content|content calls reasoning|id content]; cbn [admitted_later content_of]; unfold turn_text.
  - intros (_ & ? & ?)%admitted_blocks_Ok. done.
  - destruct (List.find _ content) as [x|] eqn:Ef; [done|]. intros _. split; [|done].
    apply find_none_iff in Ef. rewrite existsb_false in Ef. apply Forall_forall. intros x Hx. by apply negb_false_iff, Ef.
  - destruct (admitted_blocks content) as [[]|] eqn:E; [|done]. intros _.
    by apply admitted_blocks_Ok in E as (_ & ? & ?).
Qed.

Lemma admitted_turns_Ok turns :
  admitted_turns turns = Ok tt ->
  forallb turn_is_acceptable turns = true /\ Forall turn_text turns /\
  exists content rest, turns = TUser content :: rest.
Proof.
  unfold admitted_turns. destruct turns as [|first rest]; [done|].
  destruct (forallb turn_is_acceptable (first :: rest)); [|done]. cbn [negb].
  destruct first as [content| |]; [|done..]. intros H.
  destruct (admitted_blocks content) as [[]|] eqn:Eb; [|done].
  split_and!; [done| |by eexists _, _]. constructor; [by apply admitted_later_text|].
  clear Eb. induction rest as [|t rest IH]; [constructor|]. simpl in H.
  destruct (admitted_later t) as [[]|] eqn:Et; [|done]. constructor; [by apply admitted_later_text|auto].
Qed.

Lemma all_bytes_join (f : ascii -> bool) c s :
  Forall (fun x => all_bytes f x = true) (split_char c s) ->
  all_bytes (fun b => f b || Ascii.eqb b c) s = true.
Proof.
  induction s as [|a s IH]; simpl; [done|]. destruct (Ascii.eqb a c) eqn:E.
  - intros [_ H]%Forall_cons. rewrite orb_true_r. auto.
  - destruct (split_char c s) as [|h l] eqn:Es; [by destruct (split_char_nonempty c s)|].
    intros [H1 H2]%Forall_cons. simpl in H1. apply andb_true_iff in H1 as [Ha Hh].
    rewrite Ha. simpl. apply IH. by constructor.
Qed.

Lemma all_bytes_app2 f s t : all_bytes f (s +:+ t) = all_bytes f s && all_bytes f t.
Proof. induction s; simpl; [done|]. by rewrite IHs, andb_assoc. Qed.

Lemma plain_no_trailing s : Forall plain_segment (split_char slash s) -> strip_suffix "/" s = None.
Proof.
  intros H. destruct (strip_suffix "/" s) as [r|] eqn:E; [|done].
  apply strip_suffix_spec in E as ->. change "/" with (String slash "") in H.
  rewrite split_char_app2 in H. apply Forall_app in H as [_ H]. simpl in H.
  rewrite Forall_singleton in H. by destruct H.
Qed.

(** The key path an admission composes is a usable Vault path beneath the prefix. *)
Lemma admitted_path_ok prefix u sub :
  prefix_ok prefix -> user_segment u -> key_subpath_is_acceptable sub = Ok tt ->
  let path := prefix +:+ "/" +:+ u +:+ "/" +:+ sub in
  kv_fragment_is_acceptable path = Ok tt /\ path_is_within_prefix path prefix = true /\ path <> "".
Proof.
  intros (_ & Hsafe & Hps) [Hup Hub] [_ Hsub]%key_subpath_Ok path.
  assert (prefix <> "") as Hne by (intros ->; by inversion Hps as [|? ? [? _]]).
  split_and!.
  - apply kv_fragment_Ok. split.
    + apply (safe_no_white_space _ _ vault_graphic). unfold path.
      unfold vault_path_is_safe in Hsafe. apply andb_true_iff in Hsafe as [_ Hsafe].
      rewrite !all_bytes_app2, Hsafe, (all_bytes_mono _ _ _ token_vault Hub). simpl.
      eapply all_bytes_mono; [|apply (all_bytes_join safe_token_byte slash sub)].
      * intros b [Hb|Hb]%orb_true_iff; [by apply token_vault|].
        apply Ascii.eqb_eq in Hb as ->. reflexivity.
      * eapply Forall_impl; [exact Hsub|]. by intros x [_ ?].
    + unfold path. change ("/" +:+ u +:+ "/" +:+ sub) with (String slash (u +:+ String slash sub)).
      rewrite split_char_app2, split_char_app by by apply (all_bytes_no_char safe_token_byte).
      apply Forall_app. split; [done|]. constructor; [done|]. eapply Forall_impl; [exact Hsub|]. by intros x [? _].
  - apply within_prefix_iff; [done|by apply plain_no_trailing|].
    exists (u +:+ "/" +:+ sub). split; [|done]. destruct Hup as [Hu _]. by destruct u.
  - unfold path. by destruct prefix.
Qed.

Lemma boot_gate_Ok url_scheme display set b deadline :
  set <> [] -> egress_bounds_boot_gate url_scheme display set (Some b) deadline = Ok tt ->
  (eb_call_timeout_ms b + VAULT_CALLS_MS + DEADLINE_MARGIN_MS <= deadline)%Z.
Proof.
  intros Hne H. unfold egress_bounds_boot_gate in H. destruct set; [done|]. cbn [set_is_empty] in H.
  destruct (kv_fragment_is_acceptable _) as [[]|]; [|done]. simpl in H.
  destruct (vault_path_is_safe _); [|done]. cbn [negb] in H. destruct (_ <? _); [done|].
  destruct (validate_vault_addr _ _) as [[]|]; [|done]. cbn [map_err] in H.
  destruct (Z.ltb_spec deadline (2 * VAULT_API_TIMEOUT_MS + eb_call_timeout_ms b + DEADLINE_MARGIN_MS)); [done|].
  unfold VAULT_API_TIMEOUT_MS, VAULT_CALLS_MS in *. lia.
Qed.

Lemma existsb_concat {A B} (f : B -> bool) (g : A -> list B) l :
  existsb f (concat (map g l)) = false <-> Forall (fun a => Forall (fun b => f b = false) (g a)) l.
Proof.
  rewrite existsb_false. rewrite Forall_forall. setoid_rewrite Forall_forall. split.
  - intros H a Ha b Hb. apply H. apply elem_of_concat_map. eauto.
  - intros H b (a & Ha & Hb)%elem_of_concat_map. eauto.
Qed.

(** The fields of the frame an admitted choice is sent in. *)
Ltac frame_projections :=
  cbn [frame_of for_choice admitted_of er_destination er_endpoint er_model er_key_vault_path er_key_field
       er_sealed_key er_reasoning_effort er_deadline_ms er_output_tokens er_output_tokens_field
       er_conversation er_turns es_destination es_endpoint es_model es_key_vault_path es_key_field
       es_sealed_key es_reasoning_effort es_output_tokens es_output_tokens_field es_conversation es_turns
       ac_provider ac_model ac_key_vault_path ac_key_field ac_sealed_key].

(** ** Theorems *)

(** the Egress Daemon accepts every prompt the kernel admits: with the
    bounds the kernel booted on and a transcript, choice, cap and conversation
    its gates passed, the frame it sends is opened, for the admitted provider,
    model, mount, key path and field. A refusal therefore names a fault of the
    kernel, of the socket's peer or of a bounds file changed since. *)
Theorem deputy_accepts_admitted (section : Value) (set : ProviderSet) (b : EgressBounds)
    (url_scheme : string -> result string string) (display : VaultAddrError -> string) (deadline : Z)
    (choice : option ProviderChoice) (user : option string) (a : AdmittedChoice)
    (conversation : string) (turns : list TurnOf) (output_tokens : option Z)
    (Hset : providers_from_section (Some section) = Ok set)
    (Hboot : egress_bounds_boot_gate url_scheme display set (Some b) deadline = Ok tt)
    (Ha : admit_choice set choice user (eb_user_prefix b) = Ok a)
    (Hc : conversation_id_is_acceptable conversation = true)
    (Hn : forall n, output_tokens = Some n -> output_tokens_is_acceptable n = true)
    (Ht : admitted_turns turns = Ok tt) :
  let destination := "provider:" +:+ ap_name (ac_provider a) in
  let frame := frame_of (for_choice a destination conversation turns output_tokens) deadline in
  deputy_decide frame b =
  Ok (frame, mkOpen conversation (ap_name (ac_provider a)) (ac_model a) (eb_kv_mount b)
               (ac_key_vault_path a) (ac_key_field a)).
Proof.
  intros destination frame.
  apply admit_choice_Ok in Ha as (c & u & p & _ & _ & [Hp Hm Hu Hs Hf Hpre] & ->).
  apply set_get_elem in Hp as [Hin Hname].
  assert (set <> []) as Hne by (intros ->; by apply elem_of_nil in Hin).
  apply boot_gate_Ok in Hboot; [|done].
  destruct (declares_elem _ _ _ Hset Hin) as (m & [_ _ Hno _ Heo _ (_ & _ & Hmo) Hef _]).
  apply admitted_turns_Ok in Ht as (Hshape & Htext & content & rest & ->).
  apply username_usable_segment in Hu.
  destruct (admitted_path_ok _ _ _ Hpre Hu Hs) as (Hkv & Hwithin & Hpne).
  rewrite Forall_forall in Hmo. specialize (Hmo _ Hm).
  unfold key_field_is_acceptable in Hf. apply andb_true_iff in Hf as [[Hf1 Hf2]%andb_true_iff Hf3].
  unfold model_is_acceptable in Hmo. apply andb_true_iff in Hmo as [[Hmo _]%andb_true_iff _].
  assert (ap_endpoint p <> "") as Hend by (intros E; by rewrite E in Heo).
  assert (egress_frame_request_is_acceptable frame = true) as Hacc.
  { unfold egress_frame_request_is_acceptable.
    cbn -[forallb String.append output_tokens_is_acceptable is_empty]. rewrite Hc, Hmo, Hf1, Hshape.
    destruct (is_empty (ap_endpoint p)) eqn:E1; [by apply is_empty_true in E1|].
    destruct (is_empty (_ +:+ _)) eqn:E2 in |- *; [by apply is_empty_true in E2|].
    destruct (ap_reasoning_effort p) as [e|].
    - destruct Hef as [_ Hef]. unfold reasoning_effort_is_acceptable in Hef.
      apply andb_true_iff in Hef as [[-> _]%andb_true_iff _].
      destruct output_tokens as [n|]; cbn; [by rewrite (Hn n eq_refl)|done].
    - destruct output_tokens as [n|]; cbn; [by rewrite (Hn n eq_refl)|done]. }
  unfold deputy_decide. rewrite Hacc. unfold frame. frame_projections. cbn [negb].
  destruct (Z.ltb_spec deadline (eb_call_timeout_ms b + VAULT_CALLS_MS + DEADLINE_MARGIN_MS)); [lia|].
  rewrite Hkv, (graphic_no_white_space _ Hf3), Hwithin. cbn [is_ok negb orb].
  destruct (Nat.ltb_spec MAX_KEY_FIELD_BYTES (String.length (pc_key_field c))) as [Hl|_].
  { apply Nat.leb_le in Hf2. lia. }
  assert (match ap_reasoning_effort p with
          | Some e => negb (reasoning_effort_is_acceptable e) | None => false end = false) as ->.
  { destruct (ap_reasoning_effort p); [|done]. by destruct Hef as [_ ->]. }
  assert (existsb (fun b => negb (is_text b)) (concat (map content_of (TUser content :: rest))) = false) as Hnt.
  { apply existsb_concat. eapply Forall_impl; [exact Htext|]. intros t [Ht _].
    eapply Forall_impl; [exact Ht|]. by intros x ->. }
  rewrite Hnt.
  assert (existsb (fun t => match t with
                            | TUser content | TTool _ content => forallb blank_text content
                            | TAssistant _ _ _ => false end) (TUser content :: rest) = false) as Hbl.
  { apply existsb_false. intros t Hx. rewrite Forall_forall in Htext. destruct (Htext t Hx) as [_ Hb].
    by destruct t. }
  rewrite Hbl. unfold open_request. frame_projections.
  unfold destination. frame_projections. rewrite strip_prefix_app, Hno. done.
Qed.

(** whatever frame it is handed, the Egress Daemon opens a key only
    strictly beneath the user prefix, by a path with no dot, empty or [data]
    segment, for a registered-name provider, on a transcript that begins with
    the user, is text only, and whose user and tool turns each carry text. *)
Theorem deputy_confined (req req' : EgressFrameRequest) (b : EgressBounds) (o : OpenRequest)
    (Hb : kv_fragment_is_acceptable (eb_user_prefix b) = Ok tt)
    (H : deputy_decide req b = Ok (req', o)) :
  req' = req /\ op_key_vault_path o = er_key_vault_path req /\ op_kv_mount o = eb_kv_mount b /\
  (exists r, r <> "" /\ er_key_vault_path req = eb_user_prefix b +:+ "/" +:+ r) /\
  Forall plain_segment (split_char slash (er_key_vault_path req)) /\
  er_destination req = "provider:" +:+ op_provider o /\ provider_name_is_acceptable (op_provider o) = true /\
  Forall turn_text (er_turns req) /\ (exists content rest, er_turns req = TUser content :: rest) /\
  (forall deadline, er_deadline_ms req = Some deadline ->
     (eb_call_timeout_ms b + VAULT_CALLS_MS + DEADLINE_MARGIN_MS <= deadline)%Z).
Proof.
  apply kv_fragment_Ok in Hb as [_ Hps].
  unfold deputy_decide in H. destruct (egress_frame_request_is_acceptable req); [|done].
  cbn [negb] in H. destruct (match er_deadline_ms req with Some _ => _ | None => _ end) eqn:Ed; [done|].
  destruct (kv_fragment_is_acceptable (er_key_vault_path req)) as [[]|] eqn:Ek; [|done]. cbn [is_ok negb] in H.
  destruct (_ || _); [done|]. destruct (match er_reasoning_effort req with Some _ => _ | None => _ end); [done|].
  destruct (path_is_within_prefix _ _) eqn:Ew; [|done]. cbn [negb] in H.
  destruct (existsb _ (concat _)) eqn:Et; [done|].
  destruct (er_turns req) as [|[content| |] rest] eqn:Eturns; try done.
  destruct (existsb _ (TUser content :: rest)) eqn:Eb; [done|].
  destruct (open_request req b) as [o'|] eqn:Eo; [|done]. injection H as <- <-.
  unfold open_request in Eo. destruct (strip_prefix "provider:" (er_destination req)) as [pn|] eqn:Ep; [|done].
  destruct (provider_name_is_acceptable pn) eqn:En; [|done]. injection Eo as <-.
  apply strip_prefix_spec in Ep. apply kv_fragment_Ok in Ek as [_ Hseg].
  apply within_prefix_iff in Ew; [|intros E; rewrite E in Hps; by inversion Hps as [|? ? [? _]]|by apply plain_no_trailing].
  split_and!; try done; [|by eexists _, _|].
  - apply existsb_concat in Et. rewrite existsb_false in Eb. rewrite Forall_forall in Et |- *.
    intros t Ht. split.
    + eapply Forall_impl; [exact (Et t Ht)|]. intros x Hx. by apply negb_false_iff in Hx.
    + specialize (Eb t Ht). by destruct t.
  - intros deadline E. rewrite E in Ed. apply Z.ltb_ge in Ed. lia.
Qed.

Lemma sum_of_nonneg {A} (f : A -> Z) l : (forall a, 0 <= f a)%Z -> (0 <= sum_of f l)%Z.
Proof. intros H. induction l; simpl; [lia|]. specialize (H a). lia. Qed.

(** the bound the kernel checks before it encodes a reply covers every
    byte of content the reply carries: when a reply is released, its text, its
    tool calls and whatever reasoning was kept fit the frame limit with the
    envelope allowances left over, and only reasoning was ever dropped. *)
Theorem released_reply_fits (reply kept : PromptReply) (cap : Z)
    (H : shed_reasoning_to_fit reply cap = (kept, true)) :
  pr_blocks kept = pr_blocks reply /\ pr_tool_calls kept = pr_tool_calls reply /\
  pr_usage kept = pr_usage reply /\
  (pr_reasoning kept = pr_reasoning reply \/ pr_reasoning kept = None) /\
  (reply_text_length kept
   + sum_of (fun c => str_len (tc_name c) + str_len (tc_call_id c) + str_len (tc_arguments c)) (pr_tool_calls kept)
   + match pr_reasoning kept with Some r => str_len r | None => 0 end
   + 32 * Z.of_nat (length (pr_blocks kept)) + 64 * Z.of_nat (length (pr_tool_calls kept))
   + FRAME_ENVELOPE_MARGIN <= cap)%Z.
Proof.
  assert (forall r, (reply_capacity r <= cap)%Z ->
    (reply_text_length r
     + sum_of (fun c => str_len (tc_name c) + str_len (tc_call_id c) + str_len (tc_arguments c)) (pr_tool_calls r)
     + match pr_reasoning r with Some x => str_len x | None => 0 end
     + 32 * Z.of_nat (length (pr_blocks r)) + 64 * Z.of_nat (length (pr_tool_calls r))
     + FRAME_ENVELOPE_MARGIN <= cap)%Z) as Hfit.
  { intros r Hr. unfold reply_capacity in Hr.
    assert (sum_of (fun c => str_len (tc_name c) + str_len (tc_call_id c) + str_len (tc_arguments c)) (pr_tool_calls r)
            + 64 * Z.of_nat (length (pr_tool_calls r)) <= sum_of call_capacity (pr_tool_calls r))%Z as Hcalls.
    { clear. induction (pr_tool_calls r) as [|c l IH]; [done|]. cbn [sum_of fold_right length] in *.
      unfold sum_of in IH. unfold call_capacity at 1. unfold TOOL_CALL_ENVELOPE, CALL_REFUSAL_ENVELOPE.
      destruct (is_some (tc_refused c)); lia. }
    unfold REPLY_BLOCK_ENVELOPE, USAGE_ENVELOPE, REASONING_ENVELOPE in Hr.
    destruct (is_some (pr_usage r)), (pr_reasoning r); lia. }
  unfold shed_reasoning_to_fit in H. destruct (Z.leb_spec (reply_capacity reply) cap) as [Hl|_].
  - injection H as <-. split_and!; auto.
  - injection H as <- Hl%Z.leb_le. split_and!; auto.
Qed.

(** ** Witnesses *)

Definition demo_bounds : EgressBounds :=
  mkBounds "maknae-kv" "maknae/users" "https://vault.example:8200" DEFAULT_CALL_TIMEOUT_MS.
Definition demo_url_scheme (_ : string) : result string string := Ok "https".
Definition demo_display (_ : VaultAddrError) : string := "".
Definition demo_turns : list TurnOf :=
  [TUser [Text "hello"]; TAssistant [] [mkCall "fs_read" "c1" "{}" None] None; TTool "c1" [Text "r"]].

Lemma deputy_accepts_admitted_witness :
  match admit_choice demo_providers (Some demo_choice) (Some "alice") "maknae/users" with
  | Ok a =>
      is_ok (deputy_decide (frame_of (for_choice a ("provider:" +:+ ap_name (ac_provider a)) "c1" demo_turns
                                        (Some 512%Z)) DEFAULT_DEADLINE_MS) demo_bounds) = true
  | Err _ => False
  end.
Proof.
  destruct (admit_choice demo_providers (Some demo_choice) (Some "alice") "maknae/users") as [a|] eqn:E;
    [|vm_compute in E; discriminate].
  rewrite (deputy_accepts_admitted demo_section demo_providers demo_bounds demo_url_scheme demo_display
             DEFAULT_DEADLINE_MS (Some demo_choice) (Some "alice") a "c1" demo_turns (Some 512%Z)).
  - reflexivity.
  - vm_compute; reflexivity.
  - vm_compute; reflexivity.
  - exact E.
  - vm_compute; reflexivity.
  - intros n [= <-]. vm_compute; reflexivity.
  - vm_compute; reflexivity.
Defined.

Definition demo_frame : EgressFrameRequest :=
  mkEgressRequest "provider:openai" "https://api.example.test/v1" "m" "maknae/users/alice/openai/personal"
    "api_key" [] None None None None "conv1" [TUser [Text "hello"]].

Lemma deputy_confined_witness :
  exists o, deputy_decide demo_frame demo_bounds = Ok (demo_frame, o) /\
    Forall plain_segment (split_char slash (er_key_vault_path demo_frame)).
Proof.
  exists (mkOpen "conv1" "openai" "m" "maknae-kv" "maknae/users/alice/openai/personal" "api_key").
  split; [vm_compute; reflexivity|].
  apply (deputy_confined demo_frame demo_frame demo_bounds
           (mkOpen "conv1" "openai" "m" "maknae-kv" "maknae/users/alice/openai/personal" "api_key"));
    vm_compute; reflexivity.
Defined.

Definition demo_reply : PromptReply :=
  mkReply [Text "hello"] [mkCall "fs_read" "c1" "{}" None] (Some (mkUsage 3 None)) (Some "because").

Lemma released_reply_fits_witness :
  shed_reasoning_to_fit demo_reply 700 = (drop_reasoning demo_reply, true) /\
  pr_blocks (drop_reasoning demo_reply) = [Text "hello"].
Proof.
  assert (shed_reasoning_to_fit demo_reply 700 = (drop_reasoning demo_reply, true)) as H by (vm_compute; reflexivity).
  split; [exact H|]. destruct (released_reply_fits demo_reply (drop_reasoning demo_reply) 700 H) as [-> _].
  reflexivity.
Defined.
