(* ===== verification/Workers.v ===== *)
(** * Blocking workers: [crates/maknae-kernel/src/uid_gate.rs] and the home
    resolver of [authz.rs]

    Each blocking surface admits one worker per uid within a global capacity.
    The set of claims and the semaphore are explicit state; dropping a claim or
    a permit is an operation. *)
From stdpp Require Import base list strings gmap.
From Stdlib Require Import ZArith Lia.
From S2P Require Import Prelude RustStr.
Open Scope nat_scope.

Inductive Busy := BusyRequester | BusyGlobal.

(** The gate's set and the semaphore's free permits. *)
Record Slots := mkSlots { sl_claims : gset Z; sl_free : nat }.

Definition try_claim (claims : gset Z) (uid : Z) : option (gset Z) :=
  if bool_decide (uid ∈ claims) then None else Some ({[uid]} ∪ claims).

(** A refusal for capacity drops the claim it had just taken. *)
Definition try_admit (s : Slots) (uid : Z) : Slots * option Busy :=
  match try_claim (sl_claims s) uid with
  | None => (s, Some BusyRequester)
  | Some claims =>
      match sl_free s with
      | O => (mkSlots (claims ∖ {[uid]}) O, Some BusyGlobal)
      | S free => (mkSlots claims free, None)
      end
  end.

Definition drop_claim (s : Slots) (uid : Z) : Slots := mkSlots (sl_claims s ∖ {[uid]}) (sl_free s).
Definition drop_permit (s : Slots) : Slots := mkSlots (sl_claims s) (S (sl_free s)).

(** ** The home resolver *)

Inductive HomeUnavailable := Unresolvable | TimedOut | RequesterAtCapacity | AtCapacity.

Definition HOME_UNAVAILABLE : string := "requester home unavailable".
Definition home_cause (h : HomeUnavailable) : string :=
  match h with
  | Unresolvable => "unresolvable"
  | TimedOut => "timed out"
  | RequesterAtCapacity => "at capacity for this requester"
  | AtCapacity => "at capacity"
  end.
Definition home_reason (h : HomeUnavailable) : string := HOME_UNAVAILABLE +:+ ": " +:+ home_cause h.

(** What the worker came to: it returned a home or none, it was lost, or its
    bound elapsed. *)
Inductive HomeWorker := HomeJoined (home : option string) | HomeLost | HomeElapsed.

Definition home_attempt (s : Slots) (uid : Z) (dir : option string) (worker : HomeWorker)
  : Slots * result string HomeUnavailable :=
  match dir with
  | None => (s, Err Unresolvable)
  | Some _ =>
      let '(s', busy) := try_admit s uid in
      match busy with
      | Some BusyRequester => (s', Err RequesterAtCapacity)
      | Some BusyGlobal => (s', Err AtCapacity)
      | None =>
          (s', match worker with
               | HomeJoined (Some home) => Ok home
               | HomeJoined None | HomeLost => Err Unresolvable
               | HomeElapsed => Err TimedOut
               end)
      end
  end.

(** The health log: what it last said and when; instants in milliseconds. *)
Record HealthLog := mkHealthLog { hl_logged : option HomeUnavailable; hl_at : option Z }.

Definition HOME_HEALTH_LOG_INTERVAL : Z := 60000.

#[export] Instance HomeUnavailable_eq_dec : EqDecision HomeUnavailable.
Proof. solve_decision. Defined.

Definition since_log (now at_ : Z) : Z := Z.max 0 (now - at_).

Definition observe (log : HealthLog) (outcome_ : result string HomeUnavailable) (now : Z)
  : HealthLog * option string :=
  let noted (state : option HomeUnavailable) :=
    if bool_decide (hl_logged log = state)
       || match hl_at log with
          | Some at_ => (since_log now at_ <? HOME_HEALTH_LOG_INTERVAL)%Z
          | None => false
          end
    then (log, None)
    else (mkHealthLog state (Some now),
          Some (match state with
                | Some cause =>
                    "maknaed: requester home resolution " +:+ home_cause cause
                    +:+ " — filesystem verbs refuse with `" +:+ home_reason cause
                    +:+ "` until it recovers"
                | None => "maknaed: requester home resolution recovered"
                end)) in
  match outcome_ with
  | Ok _ => noted None
  | Err Unresolvable | Err RequesterAtCapacity => (log, None)
  | Err cause => noted (Some cause)
  end.

(** [HomeResolver::resolve]: the attempt, its outcome noted. *)
Definition home_resolve (s : Slots) (log : HealthLog) (uid : Z) (dir : option string)
    (worker : HomeWorker) (now : Z) : Slots * HealthLog * option string * result string HomeUnavailable :=
  let '(s', outcome_) := home_attempt s uid dir worker in
  let '(log', line) := observe log outcome_ now in
  (s', log', line, outcome_).

(** ** Workers over time *)

(** The slots, the uids whose worker is running, and the number of permits out.
    A worker that outlives its bound keeps both until it ends; a mutation's
    permit outlives its worker. *)
Record Pool := mkPool { po_slots : Slots; po_running : list Z; po_permits : nat }.

Inductive pool_step : Pool -> Pool -> Prop :=
| ps_admit p uid s : try_admit (po_slots p) uid = (s, None) ->
    pool_step p (mkPool s (uid :: po_running p) (S (po_permits p)))
| ps_refuse p uid s b : try_admit (po_slots p) uid = (s, Some b) ->
    pool_step p (mkPool s (po_running p) (po_permits p))
| ps_worker_ends p uid l1 l2 : po_running p = l1 ++ uid :: l2 ->
    pool_step p (mkPool (drop_claim (po_slots p) uid) (l1 ++ l2) (po_permits p))
| ps_permit_dropped p n : po_permits p = S n ->
    pool_step p (mkPool (drop_permit (po_slots p)) (po_running p) n).

Inductive pool_reachable (capacity : nat) : Pool -> Prop :=
| pr_start : pool_reachable capacity (mkPool (mkSlots ∅ capacity) [] 0)
| pr_step p p' : pool_reachable capacity p -> pool_step p p' -> pool_reachable capacity p'.

(** ** Lemmas *)

Lemma try_admit_None s uid s' :
  try_admit s uid = (s', None) <->
  uid ∉ sl_claims s /\ exists free, sl_free s = S free /\ s' = mkSlots ({[uid]} ∪ sl_claims s) free.
Proof.
  unfold try_admit, try_claim. case_bool_decide as Hc; [naive_solver|].
  destruct (sl_free s) as [|free]; [naive_solver|]. split; [intros [= <-]; eauto|].
  intros (_ & f & [= <-] & ->). done.
Qed.

Lemma try_admit_Some s uid s' b : try_admit s uid = (s', Some b) -> s' = s.
Proof.
  unfold try_admit, try_claim. case_bool_decide as Hc; [by intros [= <- _]|].
  destruct (sl_free s) as [|free] eqn:E; [|done]. intros [= <- _]. destruct s as [c f]. simpl in *. subst f.
  f_equal. set_solver.
Qed.

(** The claims are the running workers', each once, and no permit is lost. *)
Record pool_ok (capacity : nat) (p : Pool) : Prop := {
  pk_nodup : NoDup (po_running p);
  pk_claims : forall u, u ∈ sl_claims (po_slots p) <-> u ∈ po_running p;
  pk_permits : sl_free (po_slots p) + po_permits p = capacity }.

Lemma pool_step_ok capacity p p' : pool_ok capacity p -> pool_step p p' -> pool_ok capacity p'.
Proof.
  intros [Hn Hc Hp] Hs. destruct Hs as [p uid s Ha|p uid s b Ha|p uid l1 l2 E|p n E]; split; simpl; try done.
  - apply try_admit_None in Ha as (Hu & _). constructor; [by rewrite <-Hc|done].
  - intros u. apply try_admit_None in Ha as (_ & f & _ & ->). simpl. rewrite elem_of_cons, <-Hc. set_solver.
  - apply try_admit_None in Ha as (_ & f & Ef & ->). simpl. lia.
  - by apply try_admit_Some in Ha as ->.
  - by apply try_admit_Some in Ha as ->.
  - rewrite E in Hn. apply NoDup_app in Hn as (H1 & H2 & H3). apply NoDup_cons in H3 as [_ H3].
    apply NoDup_app. split_and!; [done| |done]. intros x Hx Hx2. apply (H2 x Hx). by right.
  - intros u. rewrite E in Hn, Hc. apply NoDup_app in Hn as (H1 & H2 & H3).
    apply NoDup_cons in H3 as [H3 _]. rewrite elem_of_difference, elem_of_singleton, Hc, !elem_of_app, elem_of_cons.
    split; [tauto|]. intros [Hu|Hu]; (split; [tauto|]); intros ->; [|done].
    apply (H2 uid Hu). by left.
  - lia.
Qed.

(** Lines are an interval apart. *)
Lemma observe_spaced log r now log' line :
  observe log r now = (log', Some line) ->
  hl_at log' = Some now /\ forall at_, hl_at log = Some at_ -> (HOME_HEALTH_LOG_INTERVAL <= now - at_)%Z.
Proof.
  assert (forall state text,
    (if bool_decide (hl_logged log = state)
       || match hl_at log with Some at_ => (since_log now at_ <? HOME_HEALTH_LOG_INTERVAL)%Z | None => false end
     then (log, None) else (mkHealthLog state (Some now), Some text)) = (log', Some line) ->
    hl_at log' = Some now /\ forall at_, hl_at log = Some at_ -> (HOME_HEALTH_LOG_INTERVAL <= now - at_)%Z) as H.
  { intros state text. case_bool_decide; [done|]. simpl. intros E. unfold since_log, HOME_HEALTH_LOG_INTERVAL in *.
    destruct (hl_at log) as [at_|]; [|by injection E as <- _].
    destruct (Z.ltb_spec (Z.max 0 (now - at_)) 60000); [done|]. injection E as <- _. split; [done|].
    intros ? [= <-]. lia. }
  unfold observe. destruct r as [home|[]]; try done; apply H.
Qed.

(** ** Theorems *)

(** C38: admission is fair and bounded: over any sequence of admissions, refusals,
    worker endings and permit returns, no uid runs two workers, no more permits
    are out than the capacity, and a uid with no running worker is admitted
    whenever a permit is free. *)
Theorem workers_bounded (capacity : nat) (p : Pool) (H : pool_reachable capacity p) :
  NoDup (po_running p) /\ po_permits p <= capacity /\
  (forall uid, (try_admit (po_slots p) uid).2 = None <-> uid ∉ po_running p /\ po_permits p < capacity).
Proof.
  assert (pool_ok capacity p) as [Hn Hc Hp].
  { induction H as [|p p' _ IH Hs]; [|by eapply pool_step_ok].
    split; simpl; [constructor|set_solver|lia]. }
  split_and!; [done|lia|]. intros uid. rewrite <-Hc.
  destruct (try_admit (po_slots p) uid) as [s [b|]] eqn:E; simpl.
  - split; [done|]. intros [Hu Hl]. exfalso.
    assert (try_admit (po_slots p) uid =
            (mkSlots ({[uid]} ∪ sl_claims (po_slots p)) (pred (sl_free (po_slots p))), None)) as E'.
    { apply try_admit_None. split; [done|]. exists (pred (sl_free (po_slots p))). split; [lia|done]. }
    congruence.
  - split; [|done]. intros _. apply try_admit_None in E as (Hu & f & Ef & _). split; [done|lia].
Qed.

(** ** Witnesses *)

Lemma workers_bounded_witness :
  pool_reachable 2 (mkPool (mkSlots {[7%Z]} 1) [7%Z] 1) /\
  (try_admit (mkSlots {[7%Z]} 1) 8).2 = None.
Proof.
  assert (pool_reachable 2 (mkPool (mkSlots {[7%Z]} 1) [7%Z] 1)) as H.
  { eapply pr_step; [apply pr_start|].
    apply (ps_admit (mkPool (mkSlots ∅ 2) [] 0) 7 (mkSlots {[7%Z]} 1)). vm_compute. reflexivity. }
  split; [exact H|].
  destruct (workers_bounded 2 _ H) as (_ & _ & Hf). apply (Hf 8%Z). split; [|simpl; lia].
  rewrite list_elem_of_In. simpl. lia.
Defined.
