(* ===== verification/AuditRecords.v ===== *)
(** * Audit records: [crates/maknae-audit-append/src/record.rs]

    Of a record, the fields the kernel's handlers choose are kept; the clock's,
    the host's and the integrity fields are not. With the derivation of a send's
    outcome record from its intent ([crates/maknae-kernel/src/egress.rs]). *)
From stdpp Require Import base list strings gmap.
From Stdlib Require Import ZArith Lia Ascii.
From S2P Require Import Prelude RustStr RustSlice RustNet Seam Config PathGlob AuthzPolicy Decide.
From S2P Require Import Graph GraphFormat Wire Providers Handler Egress.
Open Scope nat_scope.

(** ** The record *)

Inductive EgressStatus :=
| StIntentOnly | StSent | StFailed | StDeadlineExpired | StOutcomeUnknown | StLandedUndelivered
| StBackendUnavailable.

Record EgressAudit := mkEgressAudit {
  ea_status : EgressStatus; ea_content_length : Z; ea_content_digest : string;
  ea_conversation : string; ea_model : option string; ea_reply_length : option Z;
  ea_output_tokens : option Z; ea_prompt_tokens : option Z; ea_completion_tokens : option Z;
  ea_refused_tool_calls : list RefusedToolCall }.

Inductive MutationOrigin := KernelObserved | ClientReported.
Inductive MutationPhase := PhIntent | PhProgress | PhCompletion.
Inductive MutationStatus :=
| MsIntentOnly | MsApplied | MsNoEffect | MsPartial | MsDurabilityUnknown | MsIncomplete
| MsReportedProgress | MsReportedSuccess | MsReportedOsRefused | MsReportedPartial
| MsReportedLimitReached | MsReportedPathChanged | MsReportedUnsupportedName
| MsReportedDurabilityUnknown.

(** The protocol's effect entries, page and kinds are recorded field by field;
    they are kept as they are. A label's categories are always empty here. *)
Record MutationAudit := mkMutationAudit {
  mu_operation : option FsOperation; mu_authorized_paths : list string; mu_label : option string;
  mu_requested_page : option PageRequest; mu_intent_seq : Z; mu_phase : MutationPhase;
  mu_origin : MutationOrigin; mu_status : MutationStatus; mu_content_length : option Z;
  mu_first_index : option Z; mu_effects : list EffectEntry; mu_stopped_at : option string }.

Record AuditRecord := mkRecord {
  ar_event : string; ar_uid : Z; ar_peer_uri : option string; ar_user : option string;
  ar_role : option string; ar_action : string; ar_object : option string;
  ar_object_requested : option string; ar_mutation : option MutationAudit;
  ar_egress : option EgressAudit; ar_conversation : option string; ar_rule : option RuleCitation;
  ar_result : string; ar_reason : string; ar_posture : string; ar_session_id : Z; ar_seq : Z }.

Definition MAX_SUBJECT_USER_BYTES : nat := MAX_USERNAME_BYTES.
Definition admitted_user (user : option string) : option string :=
  match user with
  | Some u => if String.length u <=? MAX_SUBJECT_USER_BYTES then Some u else None
  | None => None
  end.

(** [egress.rs]: the outcome record, the intent's with a new number and what
    the send came to. *)
Definition outcome_fields (outcome : SendOutcome)
  : EgressStatus * option Z * string * string * string :=
  match outcome with
  | Sent reply_length _ => (StSent, Some reply_length, "permit", "sent", "authorized")
  | SFailed => (StFailed, None, "deny", "send failed", "unavailable")
  | SDeadlineExpired => (StDeadlineExpired, None, "deny", "send deadline expired", "unavailable")
  | OutcomeUnknown => (StOutcomeUnknown, None, "deny", "send outcome unknown", "unavailable")
  | LandedUndelivered n Oversize _ =>
      (StLandedUndelivered, n, "permit", "reply refused: oversize", "refused-oversize")
  | LandedUndelivered n NonText _ =>
      (StLandedUndelivered, n, "permit", "reply refused: non-text", "unauthorized")
  | LandedUndelivered n REmpty _ =>
      (StLandedUndelivered, n, "permit", "reply refused: empty", "unauthorized")
  | LandedUndelivered n ToolCallUnacceptable _ =>
      (StLandedUndelivered, n, "permit", "reply refused: tool call", "unauthorized")
  | LandedUndelivered n ReasoningUnacceptable _ =>
      (StLandedUndelivered, n, "permit", "reply refused: reasoning", "unauthorized")
  | LandedUndelivered n (Unusable d) _ =>
      (StLandedUndelivered, n, "permit", "reply unusable: " +:+ defect_name d, "unavailable")
  end.
Definition outcome_usage (outcome : SendOutcome) : option Usage :=
  match outcome with Sent _ u | LandedUndelivered _ _ u => u | _ => None end.

Definition outcome_for (intent : AuditRecord) (seq : Z) (outcome : SendOutcome) : AuditRecord :=
  let usage := outcome_usage outcome in
  let '(status, reply_length, result, reason, posture) := outcome_fields outcome in
  let egress := (fun e => mkEgressAudit status (ea_content_length e) (ea_content_digest e)
                   (ea_conversation e) (ea_model e) reply_length (ea_output_tokens e)
                   (us_prompt_tokens <$> usage) (let! u := usage in us_completion_tokens u)
                   (ea_refused_tool_calls e)) <$> ar_egress intent in
  mkRecord (ar_event intent) (ar_uid intent) (ar_peer_uri intent) (ar_user intent) (ar_role intent)
    (ar_action intent) (ar_object intent) (ar_object_requested intent) (ar_mutation intent) egress (ar_conversation intent) (ar_rule intent)
    result reason posture (ar_session_id intent) seq.

Definition record_refused_tool_calls (outcome : AuditRecord) (reply : option PromptReply) : AuditRecord :=
  match ar_egress outcome, reply with
  | Some e, Some r =>
      let e := mkEgressAudit (ea_status e) (ea_content_length e) (ea_content_digest e)
                 (ea_conversation e) (ea_model e) (ea_reply_length e) (ea_output_tokens e)
                 (ea_prompt_tokens e) (ea_completion_tokens e) (refused_tool_calls r) in
      mkRecord (ar_event outcome) (ar_uid outcome) (ar_peer_uri outcome) (ar_user outcome)
        (ar_role outcome) (ar_action outcome) (ar_object outcome) (ar_object_requested outcome)
        (ar_mutation outcome) (Some e) (ar_conversation outcome)
        (ar_rule outcome) (ar_result outcome) (ar_reason outcome) (ar_posture outcome)
        (ar_session_id outcome) (ar_seq outcome)
  | _, _ => outcome
  end.

(** ** Fields the handlers set *)

Definition with_identity (rec : AuditRecord) (user role : option string) (rule : option RuleCitation)
  : AuditRecord :=
  mkRecord (ar_event rec) (ar_uid rec) (ar_peer_uri rec) (admitted_user user) role (ar_action rec)
    (ar_object rec) (ar_object_requested rec) (ar_mutation rec) (ar_egress rec) (ar_conversation rec)
    rule (ar_result rec) (ar_reason rec) (ar_posture rec) (ar_session_id rec) (ar_seq rec).

Definition with_egress (rec : AuditRecord) (e : EgressAudit) : AuditRecord :=
  mkRecord (ar_event rec) (ar_uid rec) (ar_peer_uri rec) (ar_user rec) (ar_role rec) (ar_action rec)
    (ar_object rec) (ar_object_requested rec) (ar_mutation rec) (Some e) (ar_conversation rec)
    (ar_rule rec) (ar_result rec) (ar_reason rec) (ar_posture rec) (ar_session_id rec) (ar_seq rec).

Definition with_conversation (rec : AuditRecord) (c : option string) : AuditRecord :=
  mkRecord (ar_event rec) (ar_uid rec) (ar_peer_uri rec) (ar_user rec) (ar_role rec) (ar_action rec)
    (ar_object rec) (ar_object_requested rec) (ar_mutation rec) (ar_egress rec) c
    (ar_rule rec) (ar_result rec) (ar_reason rec) (ar_posture rec) (ar_session_id rec) (ar_seq rec).

Definition with_object (rec : AuditRecord) (object requested : option string) : AuditRecord :=
  mkRecord (ar_event rec) (ar_uid rec) (ar_peer_uri rec) (ar_user rec) (ar_role rec) (ar_action rec)
    object requested (ar_mutation rec) (ar_egress rec) (ar_conversation rec)
    (ar_rule rec) (ar_result rec) (ar_reason rec) (ar_posture rec) (ar_session_id rec) (ar_seq rec).

Definition with_decider (rec : AuditRecord) (role : option string) (rule : option RuleCitation)
  : AuditRecord :=
  mkRecord (ar_event rec) (ar_uid rec) (ar_peer_uri rec) (ar_user rec) role (ar_action rec)
    (ar_object rec) (ar_object_requested rec) (ar_mutation rec) (ar_egress rec) (ar_conversation rec)
    rule (ar_result rec) (ar_reason rec) (ar_posture rec) (ar_session_id rec) (ar_seq rec).

Definition with_outcome (rec : AuditRecord) (result_ reason posture : string) : AuditRecord :=
  mkRecord (ar_event rec) (ar_uid rec) (ar_peer_uri rec) (ar_user rec) (ar_role rec) (ar_action rec)
    (ar_object rec) (ar_object_requested rec) (ar_mutation rec) (ar_egress rec) (ar_conversation rec)
    (ar_rule rec) result_ reason posture (ar_session_id rec) (ar_seq rec).

Definition with_mutation (rec : AuditRecord) (seq : Z) (m : MutationAudit) : AuditRecord :=
  mkRecord (ar_event rec) (ar_uid rec) (ar_peer_uri rec) (ar_user rec) (ar_role rec) (ar_action rec)
    (ar_object rec) (ar_object_requested rec) (Some m) (ar_egress rec) (ar_conversation rec)
    (ar_rule rec) (ar_result rec) (ar_reason rec) (ar_posture rec) (ar_session_id rec) seq.
