(* ===== verification/AuditScan.v ===== *)
(** * The backward scan of the audit trail: [crates/maknae-audit-append/src/scan.rs]

    The lookup of the rollback anchor: the newest line of the trail a predicate
    accepts, read window by window from the end through a positioned reader. The
    reader is an effect: it may answer short, or fail. Offsets are natural numbers;
    they stay below the file's length, so none of them overflows. *)
From stdpp Require Import base list strings gmap.
From Stdlib Require Import ZArith Lia Ascii.
From S2P Require Import Prelude Programs RustSlice.
Open Scope nat_scope.

Definition SCAN_WINDOW : nat := 2 ^ 20.

Definition lf : ascii := ascii_of_nat 10.
Definition is_lf (b : ascii) : bool := Ascii.eqb b lf.

Record ScanResult := mkScan { sc_line : option (list ascii); sc_scanned_bytes : nat }.

(** What ends a scan early: the reader's error, the end of the file before its length,
    a reader that reports more than it was asked for (a slice out of range). *)
Inductive ScanError :=
| ScanIo (e : string)
| ScanEof
| ScanPanic
| ScanStuck.
Definition SCAN_EOF_TEXT : string := "audit file shorter than its length during backward scan".
Definition scan_error_text (e : ScanError) : string :=
  match e with ScanIo e => e | ScanEof => SCAN_EOF_TEXT | ScanPanic | ScanStuck => "" end.

(** [read_at(offset, buf)] of a buffer of [n] bytes: the bytes it filled. *)
Inductive scan_effect : Type -> Type :=
| ReadAt (offset n : nat) : scan_effect (result (list ascii) string).

Local Notation prog := (Programs.prog scan_effect).

(** [got] is what the buffer holds so far, [n] what is missing; every round that goes on
    fills at least a byte, so [n] rounds are enough. *)
Fixpoint read_exact_at (fuel offset n : nat) (got : list ascii)
  : prog (result (list ascii) ScanError) :=
  if n =? 0 then Ret (Ok got)
  else
    match fuel with
    | O => Ret (Err ScanStuck)
    | S fuel' =>
        let# answer := ReadAt offset n in
        match answer with
        | Err e => Ret (Err (ScanIo e))
        | Ok [] => Ret (Err ScanEof)
        | Ok b =>
            if n <? length b then Ret (Err ScanPanic)
            else read_exact_at fuel' (offset + length b) (n - length b) (got ++ b)
        end
    end.

(** [iter().rposition] of a newline. *)
Fixpoint rposition_lf (l : list ascii) : option nat :=
  match l with
  | [] => None
  | b :: l' =>
      match rposition_lf l' with
      | Some i => Some (S i)
      | None => if is_lf b then Some 0 else None
      end
  end.

Definition nonempty (l : list ascii) : bool := negb (length l =? 0).
Definition div_ceil (a b : nat) : nat := if a mod b =? 0 then a / b else S (a / b).

Section Scan.
Context (find : list ascii -> bool).

(** The lines of one window, newest first: the line found, or the carry. Each round
    shortens the buffer, so its length is fuel enough. *)
Fixpoint window_lines (fuel : nat) (buf : list ascii) : list ascii + list ascii :=
  match rposition_lf buf with
  | None => inr buf
  | Some nl =>
      let line := drop (S nl) buf in
      if nonempty line && find line then inl line
      else match fuel with O => inr buf | S fuel' => window_lines fuel' (take nl buf) end
  end.

Fixpoint scan_windows (window len todo k : nat) (carry : list ascii) (scanned : nat)
  : prog (result ScanResult ScanError) :=
  match todo with
  | O => Ret (Ok (mkScan (if nonempty carry && find carry then Some carry else None) scanned))
  | S todo' =>
      let end_ := len - k * window in
      let start := end_ - window in
      let* read := read_exact_at (end_ - start) start (end_ - start) [] in
      match read with
      | Err e => Ret (Err e)
      | Ok buf =>
          let scanned := scanned + (end_ - start) in
          match window_lines (length (buf ++ carry)) (buf ++ carry) with
          | inl line => Ret (Ok (mkScan (Some line) scanned))
          | inr carry => scan_windows window len todo' (S k) carry scanned
          end
      end
  end.

Definition scan_back_with_window (window len : nat) : prog (result ScanResult ScanError) :=
  scan_windows window len (div_ceil len window) 0 [] 0.

Definition scan_back (len : nat) : prog (result ScanResult ScanError) :=
  scan_back_with_window SCAN_WINDOW len.
End Scan.

(** ** The reference

    The lines of a file, cut at each newline; the newest one that is not empty and is
    accepted, with the bytes from the newline before it to the end of the file. *)
Fixpoint split_lf (l : list ascii) : list (list ascii) :=
  match l with
  | [] => [[]]
  | c :: l' =>
      if is_lf c then [] :: split_lf l'
      else match split_lf l' with [] => [[c]] | h :: t => (c :: h) :: t end
  end.

Section Newest.
Context (find : list ascii -> bool).

Fixpoint newest (lines : list (list ascii)) (seen : nat) : option (list ascii) * nat :=
  match lines with
  | [] => (None, seen)
  | [l] => (if nonempty l && find l then Some l else None, seen + length l)
  | l :: ls => if nonempty l && find l then (Some l, seen + S (length l)) else newest ls (seen + S (length l))
  end.

Definition newest_line (file : list ascii) : option (list ascii) * nat := newest (rev (split_lf file)) 0.
End Newest.

(** The whole windows a lookup reads to see the last [need] bytes of a file. *)
Definition windows_for (window len need : nat) : nat := Nat.min len (window * div_ceil need window).

(** A reader of [file]: a prefix of what was asked for, empty only at the end. *)
Definition reads (file : list ascii) (ev : Programs.event scan_effect) : Prop :=
  match ev_effect ev in scan_effect X return X -> Prop with
  | ReadAt offset n => fun answer =>
      forall b, answer = Ok b ->
        b `prefix_of` take n (drop offset file) /\ (b = [] -> take n (drop offset file) = [])
  end (ev_answer ev).
Definition failed_with (e : string) (ev : Programs.event scan_effect) : Prop :=
  match ev_effect ev in scan_effect X return X -> Prop with
  | ReadAt _ _ => fun answer => answer = Err e
  end (ev_answer ev).

(** ** Lines *)

Definition no_lf (l : list ascii) : Prop := lf ∉ l.

Lemma is_lf_spec b : is_lf b = true <-> b = lf.
Proof. apply Ascii.eqb_eq. Qed.

Lemma rposition_lf_None l : rposition_lf l = None -> no_lf l.
Proof.
  induction l as [|b l IH]; intros H; simpl in H; [by intros ?%elem_of_nil|].
  destruct (rposition_lf l); [done|]. destruct (is_lf b) eqn:Hb; [done|].
  intros [E|E]%elem_of_cons; [|by apply IH]. subst b. by rewrite (proj2 (is_lf_spec lf) eq_refl) in Hb.
Qed.

Lemma rposition_lf_Some l i : rposition_lf l = Some i ->
  l = take i l ++ lf :: drop (S i) l /\ no_lf (drop (S i) l).
Proof.
  revert i. induction l as [|b l IH]; intros i H; simpl in H; [done|].
  destruct (rposition_lf l) as [j|] eqn:E.
  - injection H as <-. destruct (IH j eq_refl) as [H1 H2]. split; [|exact H2].
    simpl. f_equal. exact H1.
  - destruct (is_lf b) eqn:Hb; [|done]. injection H as <-. apply is_lf_spec in Hb. subst b.
    simpl. rewrite drop_0. split; [done|by apply rposition_lf_None].
Qed.

Lemma split_lf_nonempty l : split_lf l <> [].
Proof. destruct l as [|c l]; simpl; [done|]. destruct (is_lf c); [done|]. by destruct (split_lf l). Qed.

Lemma split_lf_no_lf l : no_lf l -> split_lf l = [l].
Proof.
  induction l as [|c l IH]; intros H; [done|]. apply not_elem_of_cons in H as [Hc H]. simpl.
  rewrite (IH H). destruct (is_lf c) eqn:E; [|done]. by apply is_lf_spec in E as ->.
Qed.

Lemma split_lf_snoc a b : no_lf b -> split_lf (a ++ lf :: b) = split_lf a ++ [b].
Proof.
  intros Hb. induction a as [|c a IH]; simpl.
  - by rewrite (split_lf_no_lf b Hb).
  - rewrite IH. destruct (is_lf c); [done|]. destruct (split_lf a) eqn:E; [|done].
    by apply split_lf_nonempty in E.
Qed.

(** The lookup of the reference, past the last line of the file. *)
Section Step.
Context (find : list ascii -> bool).

Lemma newest_snoc a b seen : no_lf b ->
  newest find (rev (split_lf (a ++ lf :: b))) seen =
    if nonempty b && find b then (Some b, seen + S (length b))
    else newest find (rev (split_lf a)) (seen + S (length b)).
Proof.
  intros Hb. rewrite (split_lf_snoc _ _ Hb), rev_app_distr. simpl.
  destruct (rev (split_lf a)) as [|l ls] eqn:E; [|done].
  apply (f_equal (@length _)) in E. rewrite length_rev in E. simpl in E.
  destruct (split_lf a) eqn:E'; [by apply split_lf_nonempty in E'|done].
Qed.

(** One window: what was before it, its bytes and the carry. *)
Lemma window_lines_spec fuel before buf seen : length buf <= fuel ->
  match window_lines find fuel buf with
  | inl line => exists b r, buf = b ++ lf :: r /\ newest find (rev (split_lf (before ++ buf))) seen =
                                 (Some line, seen + length (lf :: r))
  | inr c => no_lf c /\ c `prefix_of` buf /\
      newest find (rev (split_lf (before ++ buf))) seen =
      newest find (rev (split_lf (before ++ c))) (seen + (length buf - length c))
  end.
Proof.
  revert buf seen. induction fuel as [|fuel IH]; intros buf seen Hf; simpl.
  - destruct buf as [|b buf]; [|simpl in Hf; lia]. simpl. rewrite Nat.add_0_r.
    split_and!; [by intros ?%elem_of_nil|done|done].
  - destruct (rposition_lf buf) as [nl|] eqn:E.
    2:{ rewrite Nat.sub_diag, Nat.add_0_r. split_and!; [by apply rposition_lf_None|done|done]. }
    apply rposition_lf_Some in E as [E Hno]. set (b := take nl buf) in *. set (r := drop (S nl) buf) in *.
    assert (Hs : newest find (rev (split_lf (before ++ buf))) seen =
                 if nonempty r && find r then (Some r, seen + S (length r))
                 else newest find (rev (split_lf (before ++ b))) (seen + S (length r))).
    { rewrite E, app_assoc. by apply newest_snoc. }
    destruct (nonempty r && find r); [by exists b, r|].
    assert (Hl : length buf = length b + S (length r)) by (rewrite E at 1; rewrite length_app; simpl; lia).
    specialize (IH b (seen + S (length r)) ltac:(lia)). rewrite Hs.
    destruct (window_lines find fuel b) as [line|c].
    + destruct IH as (b' & r' & -> & IH). exists b', (r' ++ lf :: r). split.
      { rewrite E, <-app_assoc. done. }
      rewrite IH. f_equal. simpl. rewrite length_app. simpl. lia.
    + destruct IH as (H1 & H2 & H3). split_and!; [done|rewrite E; by apply prefix_app_r|].
      rewrite H3. apply prefix_length in H2. f_equal. lia.
Qed.
End Step.

(** ** Windows *)

Lemma div_ceil_spec a w : 0 < w -> w * div_ceil a w < a + w /\ a <= w * div_ceil a w.
Proof.
  intros Hw. unfold div_ceil. pose proof (Nat.div_mod_eq a w). pose proof (Nat.mod_upper_bound a w).
  destruct (Nat.eqb_spec (a mod w) 0); nia.
Qed.

Lemma div_ceil_eq a w k : 0 < w -> k * w < a <= S k * w -> div_ceil a w = S k.
Proof. intros Hw H. destruct (div_ceil_spec a w Hw). nia. Qed.

Lemma windows_for_eq w len need k : 0 < w -> need <= len -> k * w < need <= S k * w ->
  windows_for w len need = Nat.min len (S k * w).
Proof. intros Hw Hn H. unfold windows_for. rewrite (div_ceil_eq need w k) by done. f_equal. lia. Qed.

(** ** The scan reads the reference's line *)

Section Exact.
Context (find : list ascii -> bool) (file : list ascii).
Local Notation len := (length file).

(** The history of a scan of [file], latest event first. *)
Definition scans (h : list (Programs.event scan_effect)) (ev : Programs.event scan_effect)
    (h' : list (Programs.event scan_effect)) : Prop := reads file ev /\ h' = ev :: h.
Local Notation keeps := (Programs.keeps scans (fun _ => True)).

(** What an error of the scan comes from. *)
Definition from_reader (e : ScanError) (h : list (Programs.event scan_effect)) : Prop :=
  exists text, e = ScanIo text /\ Exists (failed_with text) h.

Lemma scans_reaches tr h : Forall (reads file) tr -> reaches scans h tr (rev tr ++ h).
Proof.
  revert h. induction tr as [|ev tr IH]; intros h H; [constructor|].
  apply Forall_cons in H as [H1 H2]. econstructor; [by split|]. simpl. rewrite <-app_assoc. by apply IH.
Qed.

Lemma read_exact_at_spec fuel offset n got h : n <= fuel -> offset + n <= len ->
  keeps (read_exact_at fuel offset n got)
    (fun r h' => match r with
                 | Ok b => b = got ++ take n (drop offset file)
                 | Err e => from_reader e h'
                 end) h.
Proof.
  revert offset n got h. induction fuel as [|fuel IH]; intros offset n got h Hn Hl; simpl;
    destruct (Nat.eqb_spec n 0) as [->|Hz]; try (simpl; by rewrite take_0, app_nil_r); [lia|].
  intros answer h' [Hr ->]. split; [done|]. cbv [reads ev_effect ev_answer] in Hr.
  destruct answer as [b|e]; [|exists e; split; [done|by constructor]].
  destruct (Hr b eq_refl) as [[t Ht] Hnil]. assert (Hlen : length (take n (drop offset file)) = n).
  { rewrite length_take, length_drop. lia. }
  destruct b as [|c b]; [rewrite Hnil in Hlen by done; simpl in Hlen; lia|].
  assert (Hb : length (c :: b) + length t = n) by (rewrite <-Hlen, Ht, length_app; done).
  set (l := c :: b) in *. destruct (Nat.ltb_spec n (length l)); [lia|].
  eapply keeps_mono; [done| |apply IH; subst l; simpl in *; lia].
  intros [b'|e] h' H'; [|exact H']. rewrite H', <-app_assoc. f_equal. rewrite Ht. f_equal.
  rewrite <-drop_drop, take_drop_commute. replace (length l + (n - length l)) with n by lia.
  rewrite Ht. apply drop_app_length.
Qed.

(** A newline of a window with its carry is in the window. *)
Lemma lf_before_carry (buf carry b r : list ascii) :
  no_lf carry -> buf ++ carry = b ++ lf :: r -> length carry < length (lf :: r).
Proof.
  intros Hc H. destruct (decide (length carry < length (lf :: r))) as [|Hge]; [done|]. exfalso. apply Hc.
  pose proof (f_equal length H) as Hl. rewrite !length_app in Hl.
  apply (f_equal (drop (length buf))) in H. rewrite drop_app_length, drop_app_le in H by lia.
  rewrite H. apply elem_of_app. right. by constructor.
Qed.

(** From window [k] on: what is left to read, the carry, and what the reference finds
    in them is what it finds in the file. *)
Record at_window (w k : nat) (carry : list ascii) (scanned : nat) : Prop := {
  aw_carry : no_lf carry;
  aw_fits : length (take (len - k * w) file) + length carry <= len;
  aw_scanned : scanned = Nat.min len (k * w);
  aw_newest : newest_line find file =
    newest find (rev (split_lf (take (len - k * w) file ++ carry)))
      (len - (length (take (len - k * w) file) + length carry)) }.

Definition scanned_as (w : nat) (r : ScanResult) : Prop :=
  r = mkScan (fst (newest_line find file)) (windows_for w len (snd (newest_line find file))).

Lemma scan_windows_spec w todo k carry scanned h : 0 < w -> at_window w k carry scanned ->
  todo = div_ceil len w - k ->
  keeps (scan_windows find w len todo k carry scanned)
    (fun r h' => match r with Ok s => scanned_as w s | Err e => from_reader e h' end) h.
Proof.
  intros Hw. revert k carry scanned h. induction todo as [|todo IH]; intros k carry scanned h [Hc Hf -> Hn] Ht;
    destruct (div_ceil_spec len w Hw) as [Hd1 Hd2]; cbn [scan_windows].
  - assert (Hk : len <= k * w) by nia. replace (len - k * w) with 0 in * by lia. rewrite take_0 in *.
    cbn [Programs.keeps]. unfold scanned_as. cbn [length app] in *. rewrite (split_lf_no_lf _ Hc) in Hn.
    cbn [rev app newest] in Hn. rewrite Hn. cbn [fst snd]. f_equal.
    unfold windows_for. destruct (div_ceil_spec (len - (0 + length carry) + length carry) w Hw). lia.
  - assert (Hk : k * w < len) by nia. set (e := len - k * w) in *. set (s := e - w).
    apply keeps_bind. eapply keeps_mono; [done| |apply read_exact_at_spec; lia].
    intros [buf|err] h' Hb; [|exact Hb]. simpl in Hb.
    set (before := take s file). assert (Hsplit : take e file = before ++ buf).
    { subst buf before. rewrite <-(take_drop s (take e file)). f_equal; [rewrite take_take; f_equal; lia|].
      rewrite take_drop_commute. f_equal. f_equal. lia. }
    assert (Hlb : length before = s) by (subst before; rewrite length_take; lia).
    assert (Hlbuf : length buf = e - s) by (subst buf; rewrite length_take, length_drop; lia).
    assert (Hle : length (take e file) = e) by (rewrite length_take; lia).
    rewrite Hsplit, <-app_assoc, <-Hsplit, Hle in Hn. rewrite Hle in Hf.
    pose proof (window_lines_spec find (length (buf ++ carry)) before (buf ++ carry)
                  (len - (e + length carry)) ltac:(lia)) as Hwl.
    destruct (window_lines find (length (buf ++ carry)) (buf ++ carry)) as [line|c].
    + destruct Hwl as (b & r & Hbr & Hnew). cbn [Programs.keeps]. unfold scanned_as. rewrite Hn, Hnew.
      cbn [fst snd]. f_equal. assert (Hlast : length carry < length (lf :: r)).
      { by apply (lf_before_carry buf carry b). }
      apply (f_equal length) in Hbr. rewrite !length_app in Hbr.
      rewrite (windows_for_eq w len _ k) by (cbn [length] in *; lia). lia.
    + destruct Hwl as (H1 & H2 & H3). apply prefix_length in H2. rewrite length_app in H2, H3.
      apply IH; [|lia]. assert (Hs : len - S k * w = s) by lia. constructor; rewrite ?Hs; fold before.
      * done.
      * lia.
      * lia.
      * rewrite Hn, H3. f_equal. lia.
Qed.

Lemma scan_back_keeps w h : 0 < w ->
  keeps (scan_back_with_window find w len)
    (fun r h' => match r with Ok s => scanned_as w s | Err e => from_reader e h' end) h.
Proof.
  intros Hw. apply scan_windows_spec; [done| |lia].
  assert (H0 : take (len - 0 * w) file = file) by (rewrite Nat.sub_0_r; apply firstn_all).
  constructor; rewrite ?H0; cbn [length]; [by intros ?%elem_of_nil|lia|lia|].
  rewrite app_nil_r, Nat.add_0_r, Nat.sub_diag. done.
Qed.
End Exact.

(** The backward scan of a file, under a reader that may answer short: it
    returns the newest line the predicate accepts, empty lines apart, whatever the
    window and however the windows cut the lines, having read exactly the whole windows
    that hold that line and the newline before it, or the whole file; it fails only with an
    error of the reader. *)
Theorem scan_back_exact (find : list ascii -> bool) (window : nat) (file : list ascii) tr r :
  0 < window -> Forall (reads file) tr ->
  runs (scan_back_with_window find window (length file)) tr r ->
  (r = Ok (mkScan (fst (newest_line find file)) (windows_for window (length file) (snd (newest_line find file))))) \/
  (exists e, r = Err (ScanIo e) /\ Exists (failed_with e) tr).
Proof.
  intros Hw Hf Hr.
  pose proof (keeps_runs _ _ _ _ _ _ _ _ (scan_back_keeps find file window [] Hw) Hr (scans_reaches file tr [] Hf)) as H.
  destruct r as [s|e]; [left; by f_equal|right]. destruct H as (text & -> & H).
  exists text. split; [done|]. rewrite app_nil_r in H. rewrite <-(rev_involutive tr). by apply List.Exists_rev.
Qed.

(** The trail of two checkpoints and a torn line, read a byte at a time: the last whole
    line that starts as asked, over four windows of five bytes. *)
Definition scan_demo_file : list ascii := String.list_ascii_of_string (String.String "a" "") ++ lf ::
  String.list_ascii_of_string "axxxxxx" ++ lf :: String.list_ascii_of_string "byy" ++ [lf].
Definition scan_demo_answer (X : Type) (e : scan_effect X) : X :=
  match e with ReadAt offset n => Ok (take (Nat.min n 1) (drop offset scan_demo_file)) end.
Definition scan_demo_find (l : list ascii) : bool := match l with c :: _ => Ascii.eqb c "a" | [] => false end.

Lemma scan_back_exact_witness :
  exists r, runs (scan_back_with_window scan_demo_find 5 (length scan_demo_file))
              (trace scan_demo_answer (scan_back_with_window scan_demo_find 5 (length scan_demo_file))) r /\
  ((r = Ok (mkScan (Some (String.list_ascii_of_string "axxxxxx")) 14)) \/
   exists e, r = Err (ScanIo e) /\
     Exists (failed_with e) (trace scan_demo_answer (scan_back_with_window scan_demo_find 5 (length scan_demo_file)))).
Proof.
  eexists. split; [apply trace_runs|].
  apply (scan_back_exact scan_demo_find 5 scan_demo_file); [lia| |apply trace_runs].
  eapply Forall_impl; [apply (trace_answered scan_demo_answer)|].
  intros [X [offset n] x] H b Hb. simpl in *. subst x. injection Hb as <-. split.
  - exists (drop (Nat.min n 1) (take n (drop offset scan_demo_file))).
    rewrite <-(take_drop (Nat.min n 1) (take n (drop offset scan_demo_file))) at 1.
    rewrite take_take, (Nat.min_l (Nat.min n 1)) by lia. done.
  - intros E. apply (f_equal length) in E. rewrite length_take in E. destruct n as [|n]; [done|].
    apply nil_length_inv. rewrite length_take. rewrite length_drop in *.
    change (length (@nil ascii)) with 0 in E. lia.
Defined.
