(* ===== verification/AuditLine.v ===== *)
(** * The line of an audit record: [crates/maknae-audit-append/src/{record,session}.rs]

    A record with what its context adds, as the JSON value its derived [Serialize] gives,
    and the canonical text of that value: members sorted at every level, nothing between
    the tokens. The text of a string and of a float is [serde_json]'s and a parameter; what
    is used of it is a class. With the session and sequence numbers a record carries. *)
From stdpp Require Import base list strings gmap pretty.
From Stdlib Require Import ZArith Lia Ascii.
From S2P Require Import Prelude RustStr RustSlice Seam Config Json Anchor Store StoreWorld.
From S2P Require Import Wire Providers Egress AuditRecords.
Open Scope nat_scope.

(** ** Session and sequence numbers ([session.rs]) *)

Definition wrap32 (n : Z) : Z := (n mod u32_max)%Z.
Definition wrap64 (n : Z) : Z := (n mod u64_max)%Z.

Record SessionIds := mkSessionIds { si_boot_nonce : Z; si_conn_ctr : Z }.

(** [new]: seconds since the epoch truncated to 32 bits, zero for a clock before it. *)
Definition session_ids_new (now_secs : option Z) : SessionIds :=
  mkSessionIds (from_option wrap32 0%Z now_secs) 0.
Definition with_nonce (nonce : Z) : SessionIds := mkSessionIds nonce 0.

Definition next_session (s : SessionIds) : Z * SessionIds :=
  let ctr := wrap32 (si_conn_ctr s + 1) in
  ((Z.shiftl (si_boot_nonce s) 32 + ctr)%Z, mkSessionIds (si_boot_nonce s) ctr).

(** A per-connection counter, from zero. *)
Definition seq_next (seq : Z) : Z := wrap64 (seq + 1).

(** ** The record *)

(** What [make_record] takes from its surroundings; the component is the kernel's, the
    integrity fields are empty. *)
Record RecordContext := mkContext {
  cx_ts : string; cx_host : string; cx_socket : string; cx_gid : option Z; cx_pid : option Z;
  cx_au3_1 : Json }.
Definition COMPONENT : string := "kernel".

Record TrailRecord := mkTrailRecord {
  tl_context : RecordContext; tl_record : AuditRecord; tl_graph : option GraphAudit;
  tl_policy_sha256 : option string }.

(** [BootCtx::record]: a record with no peer. *)
Record BootCtx := mkBootCtx { bc_event : string; bc_euid : Z; bc_session_id : Z; bc_context : RecordContext }.
Definition boot_record (c : BootCtx) (seq : Z) (g : GraphRecord) : TrailRecord :=
  let cx := bc_context c in
  mkTrailRecord (mkContext (cx_ts cx) (cx_host cx) (cx_socket cx) None None (cx_au3_1 cx))
    (mkRecord (bc_event c) (bc_euid c) None None None (gr_action g) None None None None None None
       (gr_result g) (gr_reason g) (gr_posture g) (bc_session_id c) seq)
    (gr_graph g) None.

(** ** Its value *)

Definition jopt {A} (f : A -> Json) (o : option A) : Json := from_option f JNull o.
(** [skip_serializing_if]: a member that is left out. *)
Definition jskip {A} (name : string) (f : A -> Json) (o : option A) : list (string * Json) :=
  match o with Some a => [(name, f a)] | None => [] end.
Definition jskip_vec {A} (name : string) (f : A -> Json) (l : list A) : list (string * Json) :=
  match l with [] => [] | _ => [(name, JArr (map f l))] end.

Definition where_value (cx : RecordContext) : Json :=
  JObj [("host", JStr (cx_host cx)); ("component", JStr COMPONENT); ("socket", JStr (cx_socket cx))].
Definition source_value (cx : RecordContext) (r : AuditRecord) : Json :=
  JObj [("uid", JPos (ar_uid r)); ("gid", jopt JPos (cx_gid cx)); ("pid", jopt JPos (cx_pid cx));
        ("plane_uri_san", jopt JStr (ar_peer_uri r))].
Definition subject_value (r : AuditRecord) : Json :=
  JObj (jskip "user" JStr (ar_user r) ++ jskip "role" JStr (ar_role r)
        ++ [("plane_uri_san", jopt JStr (ar_peer_uri r))]).
Definition outcome_value (r : AuditRecord) : Json :=
  JObj [("result", JStr (ar_result r)); ("reason", JStr (ar_reason r)); ("posture", JStr (ar_posture r))].
Definition integrity_value : Json := JObj [("prev_hash", JNull); ("sig", JNull)].

Definition egress_status_name (s : EgressStatus) : string :=
  match s with
  | StIntentOnly => "IntentOnly" | StSent => "Sent" | StFailed => "Failed"
  | StDeadlineExpired => "DeadlineExpired" | StOutcomeUnknown => "OutcomeUnknown"
  | StLandedUndelivered => "LandedUndelivered" | StBackendUnavailable => "BackendUnavailable"
  end.
Definition refused_call_value (c : RefusedToolCall) : Json :=
  JObj [("index", JPos (rt_index c)); ("name", JStr (rt_name c)); ("arguments_bytes", JPos (rt_arguments_bytes c))].
Definition egress_value (e : EgressAudit) : Json :=
  JObj ([("status", JStr (egress_status_name (ea_status e))); ("content_length", JPos (ea_content_length e));
         ("content_digest", JStr (ea_content_digest e)); ("conversation", JStr (ea_conversation e))]
        ++ jskip "model" JStr (ea_model e) ++ jskip "reply_length" JPos (ea_reply_length e)
        ++ jskip "output_tokens" JPos (ea_output_tokens e) ++ jskip "prompt_tokens" JPos (ea_prompt_tokens e)
        ++ jskip "completion_tokens" JPos (ea_completion_tokens e)
        ++ jskip_vec "refused_tool_calls" refused_call_value (ea_refused_tool_calls e)).

Definition origin_name (o : MutationOrigin) : string :=
  match o with KernelObserved => "KernelObserved" | ClientReported => "ClientReported" end.
Definition phase_name (p : MutationPhase) : string :=
  match p with PhIntent => "Intent" | PhProgress => "Progress" | PhCompletion => "Completion" end.
Definition mutation_status_name (s : MutationStatus) : string :=
  match s with
  | MsIntentOnly => "IntentOnly" | MsApplied => "Applied" | MsNoEffect => "NoEffect" | MsPartial => "Partial"
  | MsDurabilityUnknown => "DurabilityUnknown" | MsIncomplete => "Incomplete"
  | MsReportedProgress => "ReportedProgress" | MsReportedSuccess => "ReportedSuccess"
  | MsReportedOsRefused => "ReportedOsRefused" | MsReportedPartial => "ReportedPartial"
  | MsReportedLimitReached => "ReportedLimitReached" | MsReportedPathChanged => "ReportedPathChanged"
  | MsReportedUnsupportedName => "ReportedUnsupportedName"
  | MsReportedDurabilityUnknown => "ReportedDurabilityUnknown"
  end.
Definition effect_kind_name (e : ReportedEffect) : string :=
  match e with
  | CreatedFile => "CreatedFile" | ReplacedFile => "ReplacedFile" | CreatedDirectory => "CreatedDirectory"
  | DeletedEntry => "DeletedEntry" | ReadFile => "ReadFile"
  end.
Definition operation_name (o : FsOperation) : string :=
  match o with
  | WriteExisting => "WriteExisting" | WriteCreate => "WriteCreate" | DeleteEntry => "DeleteEntry"
  | DeleteTree => "DeleteTree" | Mkdir => "Mkdir" | FsRead => "Read"
  end.
Definition range_value (r : ByteRange) : Json := JObj [("start", JPos (br_start r)); ("end", JPos (br_end r))].
Definition span_value (s : LineSpan) : Json :=
  JObj [("first", JPos (ln_first s)); ("last", JPos (ln_last s)); ("complete_last", JBool (ln_complete_last s))].
Definition effect_value (e : EffectEntry) : Json :=
  JObj ([("path", JStr (ef_path e)); ("effect", JStr (effect_kind_name (ef_effect e)))]
        ++ jskip "length" JPos (ef_length e) ++ jskip "range" range_value (ef_range e)
        ++ jskip "lines" span_value (ef_lines e)).
Definition page_value (p : PageRequest) : Json :=
  JObj [("offset_line", JPos (pg_offset_line p)); ("limit_lines", JPos (pg_limit_lines p));
        ("column", JPos (pg_column p))].
(** The kernel's labels have no categories. *)
Definition label_value (level : string) : Json := JObj [("level", JStr level); ("categories", JArr [])].
Definition mutation_value (m : MutationAudit) : Json :=
  JObj (jskip "operation" (fun o => JStr (operation_name o)) (mu_operation m)
        ++ jskip_vec "authorized_paths" JStr (mu_authorized_paths m)
        ++ jskip "label" label_value (mu_label m)
        ++ jskip "requested_page" page_value (mu_requested_page m)
        ++ [("intent_seq", JPos (mu_intent_seq m)); ("phase", JStr (phase_name (mu_phase m)));
            ("origin", JStr (origin_name (mu_origin m))); ("status", JStr (mutation_status_name (mu_status m)))]
        ++ jskip "content_length" JPos (mu_content_length m) ++ jskip "first_index" JPos (mu_first_index m)
        ++ jskip_vec "effects" effect_value (mu_effects m) ++ jskip "stopped_at" JStr (mu_stopped_at m)).

Definition graph_value (g : GraphAudit) : Json :=
  JObj [("revision", JPos (ga_revision g)); ("ciphertext_sha256", JStr (ga_ciphertext_sha256 g));
        ("anchor", JStr (ga_anchor g)); ("scanned_bytes", JPos (ga_scanned_bytes g))].
Definition rule_value (r : RuleCitation) : Json :=
  JObj [("node", JPos (rc_node r)); ("key", JStr (rc_key r)); ("section", JStr (rc_section r))].

Definition to_value (t : TrailRecord) : Json :=
  let r := tl_record t in
  let cx := tl_context t in
  JObj ([("ts", JStr (cx_ts cx)); ("event", JStr (ar_event r)); ("where", where_value cx);
         ("source", source_value cx r); ("subject", subject_value r); ("action", JStr (ar_action r))]
        ++ jskip "object" JStr (ar_object r) ++ jskip "object_requested" JStr (ar_object_requested r)
        ++ jskip "mutation" mutation_value (ar_mutation r) ++ jskip "egress" egress_value (ar_egress r)
        ++ jskip "conversation" JStr (ar_conversation r) ++ jskip "graph" graph_value (tl_graph t)
        ++ jskip "rule" rule_value (ar_rule r) ++ jskip "policy_sha256" JStr (tl_policy_sha256 t)
        ++ [("outcome", outcome_value r); ("session_id", JPos (ar_session_id r)); ("seq", JPos (ar_seq r));
            ("au3_1", cx_au3_1 cx); ("integrity", integrity_value)]).

(** ** Its canonical text *)

Section Canonical.
Context (json_string : string -> string) (json_float : Z -> string).

(** [write_canonical]; members are written, then ordered by key. *)
Fixpoint write_canonical (v : Json) : string :=
  match v with
  | JNull => "null"
  | JBool b => if b then "true" else "false"
  | JPos n => dec n
  | JNeg n => int_to_string n
  | JFloat bits => json_float bits
  | JStr s => json_string s
  | JArr items => "[" +:+ str_join "," (map write_canonical items) +:+ "]"
  | JObj members =>
      let written := map (fun '(k, x) => (k, json_string k +:+ ":" +:+ write_canonical x)) members in
      "{" +:+ str_join "," (map snd (sort_by_key fst written)) +:+ "}"
  end.

Definition record_text (t : TrailRecord) : string := write_canonical (to_value t).
End Canonical.

(** What is used of [serde_json]'s text: the control characters of a string are escaped
    (RFC 8259, section 7), printable ASCII that needs no escape is written as it is, and
    a number has no control characters. *)
Definition control_free (s : string) : Prop := all_bytes (byte_in 32 255) s = true.
Definition plain_byte (a : ascii) : bool := byte_in 32 126 a && negb (byte_in 34 34 a) && negb (byte_in 92 92 a).

Class JsonText (json_string : string -> string) (json_float : Z -> string) : Prop := {
  jt_string_clean : forall s, control_free (json_string s);
  jt_float_clean : forall bits, control_free (json_float bits);
  jt_plain : forall s, all_bytes plain_byte s = true -> json_string s = quote +:+ s +:+ quote }.

(** ** Lemmas *)

(** Induction on a value, its parts included. *)
Section JsonInd.
Context (P : Json -> Prop) (Hnull : P JNull) (Hbool : forall b, P (JBool b)) (Hpos : forall n, P (JPos n))
  (Hneg : forall n, P (JNeg n)) (Hfloat : forall b, P (JFloat b)) (Hstr : forall s, P (JStr s))
  (Harr : forall l, Forall P l -> P (JArr l))
  (Hobj : forall m, Forall (fun kx => P (snd kx)) m -> P (JObj m)).

Fixpoint json_ind (v : Json) : P v :=
  match v with
  | JNull => Hnull | JBool b => Hbool b | JPos n => Hpos n | JNeg n => Hneg n | JFloat b => Hfloat b
  | JStr s => Hstr s
  | JArr l =>
      Harr l ((fix all l : Forall P l :=
                 match l with [] => Forall_nil_2 _ | x :: l' => Forall_cons_2 _ _ _ (json_ind x) (all l') end) l)
  | JObj m =>
      Hobj m ((fix all m : Forall (fun kx => P (snd kx)) m :=
                 match m with
                 | [] => Forall_nil_2 _
                 | (k, x) :: m' => Forall_cons_2 (fun kx => P (snd kx)) (k, x) m' (json_ind x) (all m')
                 end) m)
  end.
End JsonInd.

Lemma control_free_app a b : control_free (a +:+ b) <-> control_free a /\ control_free b.
Proof. unfold control_free. rewrite all_bytes_app. apply andb_true_iff. Qed.

Lemma control_free_join sep l : control_free sep -> Forall control_free l -> control_free (str_join sep l).
Proof.
  intros Hs Hl. induction Hl as [|s l H Hl IH]; [done|]. simpl. destruct l; [done|].
  apply control_free_app. split; [done|]. by apply control_free_app.
Qed.

(** The digits of a number, and how many. *)
Lemma pretty_go_digits n k acc : (n < 10 ^ N.of_nat k)%N ->
  exists d, pretty_N_go n acc = d +:+ acc /\ all_bytes is_ascii_digit d = true /\ String.length d <= k /\
            ((0 < n)%N -> d <> "").
Proof.
  revert n acc. induction k as [|k IH]; intros n acc Hk.
  - assert (n = 0%N) as -> by (simpl in Hk; lia). exists "". rewrite pretty_N_go_0. by split_and!.
  - destruct (decide (0 < n)%N) as [Hn|Hn].
    2:{ assert (n = 0%N) as -> by lia. exists "". rewrite pretty_N_go_0. split_and!; [done..|simpl; lia|lia]. }
    rewrite pretty_N_go_step by done.
    destruct (IH (n `div` 10)%N (String (pretty_N_char (n `mod` 10)) acc)) as (d & -> & Hd & Hl & _).
    { apply N.Div0.div_lt_upper_bound. rewrite Nat2N.inj_succ, N.pow_succ_r' in Hk. lia. }
    exists (d +:+ String (pretty_N_char (n `mod` 10)) ""). split_and!.
    + by rewrite str_app_assoc.
    + rewrite all_bytes_app, Hd. unfold pretty_N_char. by repeat case_match.
    + rewrite str_length_app. simpl. lia.
    + intros _. by destruct d.
Qed.

Lemma dec_digits n k : (n < 10 ^ Z.of_nat k)%Z -> 0 < k ->
  all_bytes is_ascii_digit (dec n) = true /\ String.length (dec n) <= k /\ dec n <> "".
Proof.
  intros Hn Hk. unfold dec, pretty, pretty_N. case_decide as H0; [by simpl; split_and!; try done; lia|].
  destruct (pretty_go_digits (Z.to_N n) k "") as (d & -> & Hd & Hl & Hne).
  - apply N2Z.inj_lt. rewrite Z2N.id by lia. by rewrite N2Z.inj_pow, nat_N_Z.
  - rewrite str_app_nil_r. split_and!; [done..|]. apply Hne. lia.
Qed.

Lemma dec_all_digits n : all_bytes is_ascii_digit (dec n) = true /\ dec n <> "".
Proof.
  destruct (dec_digits n (S (Z.to_nat n))) as (H1 & _ & H2); [|lia|done].
  destruct (decide (0 <= n)%Z) as [H|H].
  - apply (Z.lt_trans _ (Z.of_nat (S (Z.to_nat n)))); [lia|]. apply Z.pow_gt_lin_r; lia.
  - pose proof (Z.pow_pos_nonneg 10 (Z.of_nat (S (Z.to_nat n)))). lia.
Qed.

Lemma control_free_digits s : all_bytes is_ascii_digit s = true -> control_free s.
Proof. apply all_bytes_mono. intros a [H1 H2]%byte_in_spec. apply byte_in_spec. lia. Qed.

(** A value's text is one line. *)
Section Clean.
Context {json_string : string -> string} {json_float : Z -> string} `{!JsonText json_string json_float}.

Lemma write_canonical_clean v : control_free (write_canonical json_string json_float v).
Proof.
  induction v as [|b|n|n|bits|s|items IH|members IH] using json_ind; cbn [write_canonical].
  - done.
  - by destruct b.
  - apply control_free_digits, dec_all_digits.
  - unfold int_to_string. destruct (n <? 0)%Z; [apply control_free_app; split; [done|]|];
      apply control_free_digits, dec_all_digits.
  - apply jt_float_clean.
  - apply jt_string_clean.
  - apply control_free_app. split; [done|]. apply control_free_app. split; [|done].
    apply control_free_join; [done|]. by apply Forall_map.
  - apply control_free_app. split; [done|]. apply control_free_app. split; [|done].
    apply control_free_join; [done|]. apply Forall_map. rewrite sort_by_key_perm. apply Forall_map.
    eapply Forall_impl; [exact IH|]. intros [k x] Hx. cbn [fst snd] in *.
    apply control_free_app. split; [apply jt_string_clean|]. by apply control_free_app.
Qed.
End Clean.

(** ** Reading a line back *)

(** What a parser that keeps its members in a [BTreeMap] gives for the text of a value. *)
Fixpoint sorted_json (v : Json) : Json :=
  match v with
  | JArr items => JArr (map sorted_json items)
  | JObj members => JObj (sort_by_key fst (map (fun '(k, x) => (k, sorted_json x)) members))
  | v => v
  end.

Lemma assoc_functional {A B} (m : list (A * B)) k x y : NoDup m.*1 -> (k, x) ∈ m -> (k, y) ∈ m -> x = y.
Proof.
  intros Hn (i & Hi)%list_elem_of_lookup (j & Hj)%list_elem_of_lookup.
  assert (i = j) as <-; [|congruence].
  apply (NoDup_lookup m.*1 i j k Hn); rewrite list_lookup_fmap; [by rewrite Hi|by rewrite Hj].
Qed.

Lemma json_get_Some m k x : NoDup m.*1 -> json_get (JObj m) k = Some x <-> (k, x) ∈ m.
Proof.
  intros Hn. cbn. split.
  - intros ([k' x'] & Hf & E)%fmap_Some. apply List.find_some in Hf as [Hin Hk]. cbn in *.
    apply String.eqb_eq in Hk as ->. subst x'. by apply list_elem_of_In.
  - intros Hin. destruct (List.find (fun kv => String.eqb (fst kv) k) m) as [[k' x']|] eqn:Hf; cbn.
    + apply List.find_some in Hf as [Hin' Hk]. apply String.eqb_eq in Hk. cbn in Hk. subst k'.
      apply list_elem_of_In in Hin'. f_equal. by apply (assoc_functional m k).
    + exfalso. apply list_elem_of_In in Hin. apply (List.find_none _ _ Hf) in Hin. cbn in Hin.
      by rewrite String.eqb_refl in Hin.
Qed.

Lemma json_get_sorted m k : NoDup m.*1 -> json_get (sorted_json (JObj m)) k = sorted_json <$> json_get (JObj m) k.
Proof.
  intros Hn. cbn [sorted_json]. apply option_eq. intros x.
  assert (Hn' : NoDup (sort_by_key fst (map (fun '(k, x) => (k, sorted_json x)) m)).*1).
  { rewrite sort_by_key_perm. replace (map _ m).*1 with m.*1; [done|].
    clear. induction m as [|[a b] m IH]; cbn; [done|by rewrite IH]. }
  rewrite json_get_Some by done. rewrite sort_by_key_elem, fmap_Some. split.
  - intros ([k' y] & E & Hin)%elem_of_map. injection E as -> ->. exists y. by rewrite json_get_Some.
  - intros (y & Hy & ->). apply json_get_Some in Hy; [|done]. by apply (elem_of_map_2 (fun '(k, x) => (k, sorted_json x)) m (k, y)).
Qed.

Lemma as_str_sorted v : json_as_str (sorted_json v) = json_as_str v.
Proof. by destruct v. Qed.
Lemma as_u64_sorted v : json_as_u64 (sorted_json v) = json_as_u64 v.
Proof. by destruct v. Qed.

(** Members that may be left out, in the order of the fields. *)
Definition RECORD_KEYS : list string :=
  ["ts"; "event"; "where"; "source"; "subject"; "action"; "object"; "object_requested"; "mutation"; "egress";
   "conversation"; "graph"; "rule"; "policy_sha256"; "outcome"; "session_id"; "seq"; "au3_1"; "integrity"].

Definition record_members (t : TrailRecord) : list (string * Json) :=
  match to_value t with JObj m => m | _ => [] end.

Lemma jskip_keys {A} name (f : A -> Json) o : (jskip name f o).*1 `sublist_of` [name].
Proof. destruct o; simpl; [done|]. by apply sublist_nil_l. Qed.

Lemma record_members_NoDup t : NoDup (record_members t).*1.
Proof.
  apply (sublist_NoDup _ RECORD_KEYS); [by apply (bool_decide_unpack _); vm_compute|].
  unfold record_members, to_value. rewrite !fmap_app.
  change RECORD_KEYS with (["ts"; "event"; "where"; "source"; "subject"; "action"] ++ ["object"] ++ ["object_requested"]
    ++ ["mutation"] ++ ["egress"] ++ ["conversation"] ++ ["graph"] ++ ["rule"] ++ ["policy_sha256"]
    ++ ["outcome"; "session_id"; "seq"; "au3_1"; "integrity"]).
  repeat (apply sublist_app; [first [apply jskip_keys|done]|]). done.
Qed.

(** ** Checkpoints in the trail *)

Definition trail_checkpoint (t : TrailRecord) : option Checkpoint := checkpoint_of (to_value t).

Lemma json_get_action t : json_get (to_value t) "action" = Some (JStr (ar_action (tl_record t))).
Proof. reflexivity. Qed.

Lemma find_app_skip {A} (f : A -> bool) l1 l2 : existsb f l1 = false -> List.find f (l1 ++ l2) = List.find f l2.
Proof. induction l1 as [|x l1 IH]; simpl; [done|]. intros [-> H]%orb_false_iff. auto. Qed.

Lemma jskip_other {A} name key (f : A -> Json) o : String.eqb name key = false ->
  existsb (fun kv => String.eqb (fst kv) key) (jskip name f o) = false.
Proof. intros H. destruct o; simpl; by rewrite ?H. Qed.

Lemma json_get_graph t : json_get (to_value t) "graph" = graph_value <$> tl_graph t.
Proof.
  unfold to_value. cbn [json_get].
  rewrite find_app_skip by done. do 5 (rewrite find_app_skip by by apply jskip_other).
  destruct (tl_graph t); [done|]. cbn [jskip app].
  do 2 (rewrite find_app_skip by by apply jskip_other). done.
Qed.

Lemma checkpoint_of_sorted t : checkpoint_of (sorted_json (to_value t)) = trail_checkpoint t.
Proof.
  unfold trail_checkpoint, checkpoint_of. change (to_value t) with (JObj (record_members t)).
  rewrite !json_get_sorted by apply record_members_NoDup. change (JObj (record_members t)) with (to_value t).
  rewrite json_get_action, json_get_graph. cbn [fmap option_fmap option_map]. rewrite as_str_sorted.
  cbn [json_as_str]. destruct (negb _); [done|]. destruct (tl_graph t) as [g|]; [|done]. cbn [fmap option_fmap option_map].
  change (graph_value g) with (JObj [("revision", JPos (ga_revision g));
    ("ciphertext_sha256", JStr (ga_ciphertext_sha256 g)); ("anchor", JStr (ga_anchor g));
    ("scanned_bytes", JPos (ga_scanned_bytes g))]).
  rewrite !json_get_sorted by by apply (bool_decide_unpack _); vm_compute. done.
Qed.

(** What a boot record says of its store is what its [GraphRecord] says. *)
Lemma boot_record_checkpoint c seq g : trail_checkpoint (boot_record c seq g) = record_checkpoint g.
Proof.
  unfold trail_checkpoint, record_checkpoint, checkpoint_of. rewrite json_get_action, json_get_graph.
  cbn [boot_record tl_record ar_action tl_graph json_as_str].
  change (json_get (record_json g) "action") with (Some (JStr (gr_action g))). cbn [json_as_str].
  destruct (negb _); [done|]. unfold record_json. by destruct (gr_graph g).
Qed.

(** A checkpoint's line holds the text its reader looks for first. *)
Lemma str_join_elem sep l x : x ∈ l -> exists a b, str_join sep l = a +:+ x +:+ b.
Proof.
  induction l as [|y l IH]; [by intros ?%elem_of_nil|]. intros [->|Hx]%elem_of_cons.
  - destruct l; [exists "", ""; cbn; by rewrite str_app_nil_r|]. exists "". by eexists.
  - destruct (IH Hx) as (a & b & E). destruct l as [|z l]; [by apply elem_of_nil in Hx|].
    exists (y +:+ sep +:+ a), b. cbn [str_join] in *. rewrite E, !str_app_assoc. done.
Qed.

Section Lines.
Context {json_string : string -> string} {json_float : Z -> string} `{!JsonText json_string json_float}.
Local Notation record_text := (record_text json_string json_float).

Lemma record_text_member t k x : (k, x) ∈ record_members t ->
  exists a b, record_text t = a +:+ (json_string k +:+ ":" +:+ write_canonical json_string json_float x) +:+ b.
Proof.
  intros Hin. unfold record_text. change (to_value t) with (JObj (record_members t)). cbn [write_canonical].
  set (written := map _ (record_members t)).
  destruct (str_join_elem "," (map snd (sort_by_key fst written))
              (json_string k +:+ ":" +:+ write_canonical json_string json_float x)) as (a & b & E).
  { apply (elem_of_map_2 snd _ (k, json_string k +:+ ":" +:+ write_canonical json_string json_float x)).
    apply sort_by_key_elem. unfold written.
    by apply (elem_of_map_2 (fun '(k, x) => (k, json_string k +:+ ":" +:+ write_canonical json_string json_float x)) _ (k, x)). }
  exists ("{" +:+ a), (b +:+ "}"). rewrite E, !str_app_assoc. done.
Qed.

Lemma checkpoint_line_found t c : trail_checkpoint t = Some c -> may_be_checkpoint (record_text t) = true.
Proof.
  intros H. unfold trail_checkpoint, checkpoint_of in H. rewrite json_get_action in H. cbn [json_as_str] in H.
  destruct (String.eqb (ar_action (tl_record t)) CHECKPOINT_ACTION) eqn:E; [|done]. clear H.
  apply String.eqb_eq in E. destruct (record_text_member t "action" (JStr CHECKPOINT_ACTION)) as (a & b & Ht).
  { apply json_get_Some; [apply record_members_NoDup|]. rewrite <-E. apply json_get_action. }
  cbn [write_canonical] in Ht. rewrite (jt_plain CHECKPOINT_ACTION) in Ht by done.
  unfold may_be_checkpoint.
  destruct (split_once_first CHECKPOINT_NEEDLE (record_text t) (a +:+ json_string "action" +:+ ":") b)
    as (l & r & m & Hs & _); [|by rewrite Hs].
  rewrite Ht, !str_app_assoc. done.
Qed.

Lemma record_text_nonempty t : record_text t <> "".
Proof. done. Qed.
End Lines.
