(* ===== verification/AuditGuard.v ===== *)
(** * The audit sink's admission: [crates/maknae-audit-append/src/blocking_guard.rs]

    How many blocking appends may be under way, which of them count as stale, and since
    when the writer is busy. Instants and durations are integers in nanoseconds of the
    monotonic clock. *)
From stdpp Require Import base list numbers.
From Stdlib Require Import ZArith Lia.
From S2P Require Import Prelude Breaker.
Open Scope Z_scope.

Definition AUDIT_APPEND_BREAKER_TRIP_AFTER : Z := 3.
Definition AUDIT_APPEND_BREAKER_MAX_IN_FLIGHT : Z := 32.
Definition AUDIT_APPEND_STALE_AFTER : Z := 30000000000.
Definition AUDIT_APPEND_MAX_STALE_RECLAIMS : Z := 3.
Definition AUDIT_APPEND_BREAKER_REFUSAL_LOG_EVERY : Z := 30000000000.
Definition AUDIT_WRITER_BUSY_REFUSE_AFTER : Z := 5000000000.

(** ** The busy writer *)

Record WriterBusy := mkBusy { wb_epoch : Z; wb_since : Z }.
Definition writer_busy_default (now : Z) : WriterBusy := mkBusy now 0.

(** [hold_from] and the drop of its guard. *)
Definition hold_from (b : WriterBusy) (now : Z) : WriterBusy :=
  let offset := duration_since now (wb_epoch b) in
  mkBusy (wb_epoch b) (Z.min (u64_max - 1) (Z.min (u64_max - 1) offset + 1)).
Definition busy_drop (b : WriterBusy) : WriterBusy := mkBusy (wb_epoch b) 0.

Definition busy_longer_than (b : WriterBusy) (limit now : Z) : bool :=
  if wb_since b =? 0 then false
  else limit <? duration_since now (wb_epoch b + (wb_since b - 1)).

(** ** The breaker *)

Definition AuditAttempt : Type := Z.
Inductive Admission := AdmitAttempt (a : AuditAttempt) | RefusedOpen | RefusedAtCapacity.

Record AuditBreaker := mkAuditBreaker {
  ab_in_flight : list (AuditAttempt * Z); ab_last_refusal_logged_at : option Z; ab_stale_reclaims : Z;
  ab_next_attempt_id : Z; ab_trip_after : Z; ab_max_in_flight : Z; ab_stale_after : Z;
  ab_max_stale_reclaims : Z; ab_refusal_log_every : Z }.

Definition new_with_limits (trip_after max_in_flight : Z) : AuditBreaker :=
  mkAuditBreaker [] None 0 0 trip_after max_in_flight AUDIT_APPEND_STALE_AFTER
    AUDIT_APPEND_MAX_STALE_RECLAIMS AUDIT_APPEND_BREAKER_REFUSAL_LOG_EVERY.
Definition audit_breaker_new (trip_after : Z) : AuditBreaker :=
  new_with_limits trip_after AUDIT_APPEND_BREAKER_MAX_IN_FLIGHT.
Definition audit_breaker_default : AuditBreaker := audit_breaker_new AUDIT_APPEND_BREAKER_TRIP_AFTER.

(** The stale attempts at the front, while reclaims are left. *)
Fixpoint reclaim_stale (now stale_after max_reclaims : Z) (in_flight : list (AuditAttempt * Z)) (reclaims : Z)
  : list (AuditAttempt * Z) * Z :=
  match in_flight with
  | (a, started_at) :: rest =>
      if (reclaims <? max_reclaims) && (stale_after <=? duration_since now started_at)
      then reclaim_stale now stale_after max_reclaims rest (reclaims + 1)
      else (in_flight, reclaims)
  | [] => ([], reclaims)
  end.

Definition with_flights (b : AuditBreaker) (in_flight : list (AuditAttempt * Z)) (reclaims next : Z)
  : AuditBreaker :=
  mkAuditBreaker in_flight (ab_last_refusal_logged_at b) reclaims next (ab_trip_after b) (ab_max_in_flight b)
    (ab_stale_after b) (ab_max_stale_reclaims b) (ab_refusal_log_every b).

Definition audit_begin_attempt_at (b : AuditBreaker) (now : Z) : AuditBreaker * Admission :=
  if ab_trip_after b =? 0 then (b, RefusedOpen)
  else
    let '(in_flight, reclaims) :=
      reclaim_stale now (ab_stale_after b) (ab_max_stale_reclaims b) (ab_in_flight b) (ab_stale_reclaims b) in
    if Z.of_nat (length in_flight) <? ab_max_in_flight b then
      let attempt := ab_next_attempt_id b in
      (with_flights b (in_flight ++ [(attempt, now)]) reclaims (Z.min (u64_max - 1) (attempt + 1)),
       AdmitAttempt attempt)
    else (with_flights b in_flight reclaims (ab_next_attempt_id b),
          if ab_max_stale_reclaims b <=? reclaims then RefusedOpen else RefusedAtCapacity).

Definition audit_should_log_refusal_at (b : AuditBreaker) (now : Z) : AuditBreaker * bool :=
  let should_log := match ab_last_refusal_logged_at b with
                    | None => true
                    | Some logged_at => ab_refusal_log_every b <=? duration_since now logged_at
                    end in
  (if should_log
   then mkAuditBreaker (ab_in_flight b) (Some now) (ab_stale_reclaims b) (ab_next_attempt_id b)
          (ab_trip_after b) (ab_max_in_flight b) (ab_stale_after b) (ab_max_stale_reclaims b)
          (ab_refusal_log_every b)
   else b, should_log).

(** [position], then [remove]: the first entry of the attempt. *)
Fixpoint remove_attempt (attempt : AuditAttempt) (in_flight : list (AuditAttempt * Z))
  : list (AuditAttempt * Z) :=
  match in_flight with
  | [] => []
  | (a, t) :: rest => if a =? attempt then rest else (a, t) :: remove_attempt attempt rest
  end.
Definition audit_record_success (b : AuditBreaker) (attempt : AuditAttempt) : AuditBreaker :=
  with_flights b (remove_attempt attempt (ab_in_flight b)) (ab_stale_reclaims b) (ab_next_attempt_id b).

(** ** The appends under way

    A breaker with the workers it let start and that have not ended. A worker is never
    cancelled; its slot is released when it ends, whoever still waits for it. *)
Record Appends := mkAppends { ap_breaker : AuditBreaker; ap_now : Z; ap_live : list AuditAttempt }.
Definition appends_start (now : Z) : Appends := mkAppends audit_breaker_default now [].

Inductive append_step : Appends -> Appends -> Prop :=
| as_tick b now now' live : now <= now' -> append_step (mkAppends b now live) (mkAppends b now' live)
| as_admit b b' now live a : audit_begin_attempt_at b now = (b', AdmitAttempt a) ->
    append_step (mkAppends b now live) (mkAppends b' now (live ++ [a]))
| as_refuse b b' now live r : audit_begin_attempt_at b now = (b', r) -> (forall a, r <> AdmitAttempt a) ->
    append_step (mkAppends b now live) (mkAppends b' now live)
| as_log b now live :
    append_step (mkAppends b now live) (mkAppends (audit_should_log_refusal_at b now).1 now live)
| as_end b now l1 a l2 :
    append_step (mkAppends b now (l1 ++ a :: l2)) (mkAppends (audit_record_success b a) now (l1 ++ l2)).

Inductive append_steps (s0 : Appends) : Appends -> Prop :=
| aps_refl : append_steps s0 s0
| aps_step s s' : append_steps s0 s -> append_step s s' -> append_steps s0 s'.

(** ** Lemmas *)

Definition limits (b : AuditBreaker) : Prop :=
  ab_trip_after b = AUDIT_APPEND_BREAKER_TRIP_AFTER /\ ab_max_in_flight b = AUDIT_APPEND_BREAKER_MAX_IN_FLIGHT /\
  ab_max_stale_reclaims b = AUDIT_APPEND_MAX_STALE_RECLAIMS.

(** Every live worker has its slot, or its slot was reclaimed. *)
Record appends_ok (s : Appends) : Prop := {
  ao_limits : limits (ap_breaker s);
  ao_flights : Z.of_nat (length (ab_in_flight (ap_breaker s))) <= AUDIT_APPEND_BREAKER_MAX_IN_FLIGHT;
  ao_reclaims : 0 <= ab_stale_reclaims (ap_breaker s) <= AUDIT_APPEND_MAX_STALE_RECLAIMS;
  ao_live : Z.of_nat (length (ap_live s)) <=
            Z.of_nat (length (ab_in_flight (ap_breaker s))) + ab_stale_reclaims (ap_breaker s) }.

Lemma reclaim_stale_spec now after most l r : r <= most ->
  let '(l', r') := reclaim_stale now after most l r in
  r <= r' <= most /\ Z.of_nat (length l') + r' = Z.of_nat (length l) + r.
Proof.
  revert r. induction l as [|[a t] l IH]; intros r Hr; simpl; [lia|].
  destruct (Z.ltb_spec r most); simpl; [|lia].
  destruct (after <=? duration_since now t); simpl; [|lia].
  specialize (IH (r + 1) ltac:(lia)). destruct (reclaim_stale now after most l (r + 1)). lia.
Qed.

Lemma remove_attempt_length a l :
  Z.of_nat (length l) - 1 <= Z.of_nat (length (remove_attempt a l)) <= Z.of_nat (length l).
Proof.
  induction l as [|[x t] l IH]; simpl; [lia|]. destruct (x =? a); simpl; lia.
Qed.

Lemma begin_attempt_ok b now live b' r :
  appends_ok (mkAppends b now live) -> audit_begin_attempt_at b now = (b', r) ->
  appends_ok (mkAppends b' now (live ++ match r with AdmitAttempt a => [a] | _ => [] end)).
Proof.
  intros [(Ht & Hm & Hr) Hf Hc Hl] H. simpl in *. unfold audit_begin_attempt_at in H. rewrite Ht in H. simpl in H.
  pose proof (reclaim_stale_spec now (ab_stale_after b) (ab_max_stale_reclaims b) (ab_in_flight b)
                (ab_stale_reclaims b) ltac:(lia)) as Hs.
  destruct (reclaim_stale _ _ _ _ _) as [l' r'].
  destruct (Z.ltb_spec (Z.of_nat (length l')) (ab_max_in_flight b)); injection H as <- <-.
  - constructor; simpl; [done|rewrite length_app; simpl; lia|lia|rewrite !length_app; simpl; lia].
  - assert (E : forall (c : bool), match (if c then RefusedOpen else RefusedAtCapacity) with
                      | AdmitAttempt a => [a] | _ => [] end = []) by by intros [].
    rewrite E, app_nil_r. constructor; simpl; [done|lia..].
Qed.

Lemma append_step_ok s s' : append_step s s' -> appends_ok s -> appends_ok s'.
Proof.
  intros Hs Hok. destruct Hs as [b now now' live _|b b' now live a H|b b' now live r H Hr|b now live|b now l1 a l2].
  - destruct Hok. by constructor.
  - exact (begin_attempt_ok _ _ _ _ _ Hok H).
  - pose proof (begin_attempt_ok _ _ _ _ _ Hok H) as H'.
    destruct r as [a| |]; [by destruct (Hr a)| |]; by rewrite app_nil_r in H'.
  - destruct Hok. unfold audit_should_log_refusal_at. simpl.
    destruct (ab_last_refusal_logged_at b) as [t|]; [destruct (ab_refusal_log_every b <=? duration_since now t)|];
      by constructor.
  - destruct Hok as [Hli Hf Hc Hl]. pose proof (remove_attempt_length a (ab_in_flight b)).
    cbn [ap_live] in Hl. rewrite length_app in Hl. constructor; simpl in *; [done|lia|lia|]. rewrite length_app. lia.
Qed.

(** However the clock moves, whoever gives up waiting and whatever never ends, at most
    thirty-two appends hold a slot and at most thirty-five workers are alive: a wedged file
    system costs a bounded number of threads. *)
Theorem append_workers_bounded (now : Z) (s : Appends) :
  append_steps (appends_start now) s ->
  Z.of_nat (length (ab_in_flight (ap_breaker s))) <= AUDIT_APPEND_BREAKER_MAX_IN_FLIGHT /\
  Z.of_nat (length (ap_live s)) <= AUDIT_APPEND_BREAKER_MAX_IN_FLIGHT + AUDIT_APPEND_MAX_STALE_RECLAIMS.
Proof.
  intros H. assert (Hok : appends_ok s); [|destruct Hok; lia].
  induction H as [|s s' _ IH Hs]; [|by eapply append_step_ok].
  constructor; simpl; try done; unfold AUDIT_APPEND_BREAKER_MAX_IN_FLIGHT, AUDIT_APPEND_MAX_STALE_RECLAIMS; lia.
Qed.

Definition guard_demo : Appends := mkAppends (audit_begin_attempt_at audit_breaker_default 0).1 0 [0].
Lemma append_workers_bounded_witness :
  Z.of_nat (length (ab_in_flight (ap_breaker guard_demo))) <= AUDIT_APPEND_BREAKER_MAX_IN_FLIGHT /\
  Z.of_nat (length (ap_live guard_demo)) <= AUDIT_APPEND_BREAKER_MAX_IN_FLIGHT + AUDIT_APPEND_MAX_STALE_RECLAIMS.
Proof.
  apply (append_workers_bounded 0 guard_demo). eapply aps_step; [apply aps_refl|]. by apply (as_admit _ _ 0 [] 0).
Defined.
