(* ===== verification/AuditMirror.v ===== *)
(** * The mirrors of the audit trail: [crates/maknae-audit-append/src/{journal,journal_io,syslog_fmt,syslog_io}.rs]

    The second copy of a record: a datagram of the native journal protocol on Linux, one
    line of the unified log on macOS, each with its degraded form for a record that is
    too large. The send is an effect, and what becomes of it is dropped. *)
From stdpp Require Import base list strings gmap.
From Stdlib Require Import ZArith Lia Ascii.
From S2P Require Import Prelude Programs RustStr RustSlice Seam Config Json GraphFormat Store Wire AuditRecords.
From S2P Require Import AuditScan AuditLine.
Open Scope nat_scope.

Definition SYSLOG_IDENTIFIER : string := "maknaed".

Inductive PrimaryOutcome := POk | PRefusedBreakerOpen | PRefusedAtCapacity | PWriteFailed | PWriteUnconfirmed.
#[export] Instance PrimaryOutcome_eq_dec : EqDecision PrimaryOutcome.
Proof. solve_decision. Defined.
Definition as_field (p : PrimaryOutcome) : string :=
  match p with
  | POk => "ok"
  | PRefusedBreakerOpen => "refused-breaker-open"
  | PRefusedAtCapacity => "refused-at-capacity"
  | PWriteFailed => "write-failed"
  | PWriteUnconfirmed => "write-unconfirmed"
  end.

(** ** The fields of a mirrored record *)

Record RecordFields := mkFields {
  rf_action : string; rf_outcome : string; rf_subject : string; rf_role : string; rf_object : string;
  rf_primary : string; rf_is_deny : bool; rf_session_id : Z; rf_seq : Z }.

Definition fields_of (t : TrailRecord) (primary : PrimaryOutcome) : RecordFields :=
  let r := tl_record t in
  mkFields (ar_action r) (ar_result r) (default "unknown" (ar_user r)) (default "none" (ar_role r))
    (default "-" (ar_object r)) (as_field primary) (String.eqb (ar_result r) "deny") (ar_session_id r) (ar_seq r).

(** ** The journal datagram *)

Definition is_valid_field_name (name : string) : bool :=
  match name with
  | EmptyString => false
  | String first _ =>
      if Ascii.eqb first "_" || is_ascii_digit first then false
      else all_bytes (fun c => is_ascii_uppercase c || is_ascii_digit c || Ascii.eqb c "_") name
  end.

Definition push_field (buf : bytes) (name : string) (value : bytes) : bytes :=
  if negb (is_valid_field_name name) then buf
  else if existsb is_lf value then
    buf ++ str_bytes name ++ [lf] ++ u64 (Z.of_nat (length value)) ++ value ++ [lf]
  else buf ++ str_bytes name ++ ["="%char] ++ value ++ [lf].

Definition summary_line (f : RecordFields) : string :=
  "maknae audit: " +:+ rf_action f +:+ " " +:+ rf_outcome f +:+ " subject=" +:+ rf_subject f +:+ " role="
    +:+ rf_role f +:+ " object=" +:+ rf_object f +:+ " session=" +:+ dec (rf_session_id f) +:+ " seq="
    +:+ dec (rf_seq f).

Definition degraded_message (primary : PrimaryOutcome) : string :=
  match primary with
  | POk => "maknae audit: DEGRADED - read the primary JSONL"
  | PWriteUnconfirmed => "maknae audit: DEGRADED - the primary write is unconfirmed; check the JSONL"
  | PWriteFailed =>
      "maknae audit: DEGRADED - the primary write failed; any bytes present are not confirmed durable"
  | PRefusedBreakerOpen | PRefusedAtCapacity =>
      "maknae audit: DEGRADED - the primary sink did not write this record"
  end.
Definition where_to_read (primary : PrimaryOutcome) : string :=
  match primary with
  | POk => "read-primary-jsonl"
  | PWriteUnconfirmed => "primary-unconfirmed"
  | PWriteFailed => "primary-write-failed"
  | PRefusedBreakerOpen | PRefusedAtCapacity => "primary-did-not-write"
  end.

Definition encode_degraded (t : TrailRecord) (primary : PrimaryOutcome) : bytes :=
  let f := fields_of t primary in
  let buf := [] in
  let buf := push_field buf "PRIORITY" (str_bytes "4") in
  let buf := push_field buf "SYSLOG_IDENTIFIER" (str_bytes SYSLOG_IDENTIFIER) in
  let buf := push_field buf "MESSAGE" (str_bytes (degraded_message primary)) in
  let buf := push_field buf "MAKNAE_SESSION" (str_bytes (dec (rf_session_id f))) in
  let buf := push_field buf "MAKNAE_SEQ" (str_bytes (dec (rf_seq f))) in
  let buf := push_field buf "MAKNAE_PRIMARY" (str_bytes (rf_primary f)) in
  push_field buf "MAKNAE_DEGRADED" (str_bytes (where_to_read primary)).

Section Mirrors.
Context (json_string : string -> string) (json_float : Z -> string).
Local Notation record_text := (record_text json_string json_float).

(** [encode]; its [canonical_json] fails only where [serde_json::to_value] does, which for a
    record, all strings, integers and maps with string keys, it does not: the record's text
    is taken as a value. *)
Definition encode (t : TrailRecord) (primary : PrimaryOutcome) : bytes :=
  let canonical := record_text t in
  let f := fields_of t primary in
  let priority := if rf_is_deny f then "4" else "6" in
  let message := summary_line f in
  let buf := [] in
  let buf := push_field buf "SYSLOG_IDENTIFIER" (str_bytes SYSLOG_IDENTIFIER) in
  let buf := push_field buf "MESSAGE" (str_bytes message) in
  let buf := push_field buf "PRIORITY" (str_bytes priority) in
  let buf := push_field buf "MAKNAE_ACTION" (str_bytes (rf_action f)) in
  let buf := push_field buf "MAKNAE_OUTCOME" (str_bytes (rf_outcome f)) in
  let buf := push_field buf "MAKNAE_SUBJECT" (str_bytes (rf_subject f)) in
  let buf := push_field buf "MAKNAE_ROLE" (str_bytes (rf_role f)) in
  let buf := push_field buf "MAKNAE_PRIMARY" (str_bytes (rf_primary f)) in
  push_field buf "MAKNAE_RECORD" (str_bytes canonical).

(** ** The macOS line ([syslog_fmt.rs]) *)

Definition MACOS_SYSLOG_MAX : nat := 1015.
Definition DEGRADED_TOKEN_MAX : nat := 48.
Definition MARKER : string := "MAKNAE_".
Definition nul_byte : ascii := ascii_of_nat 0.
Definition cr : ascii := ascii_of_nat 13.

(** [scrub]: a value with a structural token becomes [invalid]. *)
Definition scrub (v : string) : string :=
  if is_some (split_once MARKER v) || contains_char "=" v || contains_char lf v || contains_char cr v
     || contains_char nul_byte v
  then "invalid" else v.

Definition macos_summary (action outcome subject role : string) (session_id seq : Z) : string :=
  "maknae audit: " +:+ action +:+ " " +:+ outcome +:+ " subject=" +:+ subject +:+ " role=" +:+ role
    +:+ " session=" +:+ dec session_id +:+ " seq=" +:+ dec seq.

Definition format_line_unchecked (t : TrailRecord) (primary : PrimaryOutcome) : string :=
  let canonical := record_text t in
  let f := fields_of t primary in
  let action := scrub (rf_action f) in
  let outcome := scrub (rf_outcome f) in
  let subject := scrub (rf_subject f) in
  let role := scrub (rf_role f) in
  macos_summary action outcome subject role (rf_session_id f) (rf_seq f)
    +:+ " SYSLOG_IDENTIFIER=" +:+ SYSLOG_IDENTIFIER +:+ " MAKNAE_ACTION=" +:+ action
    +:+ " MAKNAE_OUTCOME=" +:+ outcome +:+ " MAKNAE_ROLE=" +:+ role +:+ " MAKNAE_SUBJECT=" +:+ subject
    +:+ " MAKNAE_PRIMARY=" +:+ rf_primary f +:+ " MAKNAE_RECORD=" +:+ canonical.

(** The bytes of the character a text starts with. *)
Definition len_utf8 (lead : ascii) : nat :=
  if byte_in 0 127 lead then 1 else if byte_in 128 223 lead then 2 else if byte_in 224 239 lead then 3 else 4.
Fixpoint drop_str (n : nat) (s : string) : string :=
  match n, s with S n', String _ s' => drop_str n' s' | _, _ => s end.

(** Whole characters while they fit; each round takes one, so the length is fuel enough. *)
Fixpoint clip_from (fuel : nat) (v : string) (max : nat) (out : string) : string :=
  match fuel, v with
  | S fuel', String c _ =>
      let n := len_utf8 c in
      if max <? String.length out + n then out else clip_from fuel' (drop_str n v) max (out +:+ take_bytes n v)
  | _, _ => out
  end.
Definition clip_at_boundary (v : string) (max : nat) : string := clip_from (String.length v) v max "".

Definition degraded_line (f : RecordFields) (primary : PrimaryOutcome) : string :=
  let action := clip_at_boundary (scrub (rf_action f)) DEGRADED_TOKEN_MAX in
  let outcome := clip_at_boundary (scrub (rf_outcome f)) DEGRADED_TOKEN_MAX in
  "maknae audit: DEGRADED " +:+ action +:+ " " +:+ outcome +:+ " session=" +:+ dec (rf_session_id f)
    +:+ " seq=" +:+ dec (rf_seq f) +:+ " SYSLOG_IDENTIFIER=" +:+ SYSLOG_IDENTIFIER +:+ " MAKNAE_SESSION="
    +:+ dec (rf_session_id f) +:+ " MAKNAE_SEQ=" +:+ dec (rf_seq f) +:+ " MAKNAE_PRIMARY=" +:+ rf_primary f
    +:+ " MAKNAE_DEGRADED=" +:+ where_to_read primary.

Inductive Mirrored := Full (line : string) | Degraded (line : string).
Definition mirrored_line (m : Mirrored) : string := match m with Full l | Degraded l => l end.

(** [format_record]; a degraded record is counted where it is made. *)
Definition format_record (t : TrailRecord) (primary : PrimaryOutcome) : Mirrored :=
  let line := format_line_unchecked t primary in
  if MACOS_SYSLOG_MAX <? String.length line then Degraded (degraded_line (fields_of t primary) primary)
  else Full line.

(** ** The sends *)

Inductive SendError := EMSGSIZE | SendOther.
Inductive mirror_effect : Type -> Type :=
| SendDatagram (b : bytes) : mirror_effect (result unit SendError)
| Syslog (line : string) : mirror_effect unit
| NoteDegraded : mirror_effect unit.
Local Notation prog := (Programs.prog mirror_effect).

(** [JournalMirror::mirror]: only a datagram that is too long is sent again, degraded. *)
Definition journal_mirror (t : TrailRecord) (primary : PrimaryOutcome) : prog unit :=
  let# sent := SendDatagram (encode t primary) in
  match sent with
  | Err EMSGSIZE =>
      let# _ := NoteDegraded in
      let# _ := SendDatagram (encode_degraded t primary) in
      Ret tt
  | _ => Ret tt
  end.

(** [SyslogMirror::mirror]. *)
Definition syslog_mirror (t : TrailRecord) (primary : PrimaryOutcome) : prog unit :=
  let mirrored := format_record t primary in
  let* _ := match mirrored with Degraded _ => let# _ := NoteDegraded in Ret tt | Full _ => Ret tt end in
  let# _ := Syslog (mirrored_line mirrored) in
  Ret tt.
End Mirrors.

(** ** The reference: a reader of the native journal protocol

    Each field is a line [NAME=value], or a line [NAME], eight bytes of little-endian
    length, the value and a newline. *)
Fixpoint cut (f : ascii -> bool) (l : bytes) : option (bytes * bytes) :=
  match l with
  | [] => None
  | b :: l' =>
      if f b then Some ([], l')
      else match cut f l' with Some (x, y) => Some (b :: x, y) | None => None end
  end.

Definition read_field (b : bytes) : option ((bytes * bytes) * bytes) :=
  let! lr := cut is_lf b in
  match cut (Ascii.eqb "=") (fst lr) with
  | Some nv => Some (nv, snd lr)
  | None =>
      let! nr := match r_u64 (snd lr) with Ok x => Some x | Err _ => None end in
      let n := Z.to_nat (fst nr) in
      let value := take n (snd nr) in
      match drop n (snd nr) with
      | c :: rest => if (length value =? n) && is_lf c then Some ((fst lr, value), rest) else None
      | [] => None
      end
  end.

Fixpoint read_datagram (fuel : nat) (b : bytes) : option (list (bytes * bytes)) :=
  match b with
  | [] => Some []
  | _ =>
      match fuel with
      | O => None
      | S fuel' =>
          let! fr := read_field b in
          let! rest := read_datagram fuel' (snd fr) in
          Some (fst fr :: rest)
      end
  end.
Definition decode_datagram (b : bytes) : option (list (bytes * bytes)) := read_datagram (length b) b.

(** What the two datagrams are to say. *)
Definition datagram_fields (json_string : string -> string) (json_float : Z -> string)
    (t : TrailRecord) (primary : PrimaryOutcome) : list (string * string) :=
  let f := fields_of t primary in
  [("SYSLOG_IDENTIFIER", SYSLOG_IDENTIFIER); ("MESSAGE", summary_line f);
   ("PRIORITY", if rf_is_deny f then "4" else "6"); ("MAKNAE_ACTION", rf_action f);
   ("MAKNAE_OUTCOME", rf_outcome f); ("MAKNAE_SUBJECT", rf_subject f); ("MAKNAE_ROLE", rf_role f);
   ("MAKNAE_PRIMARY", rf_primary f); ("MAKNAE_RECORD", record_text json_string json_float t)].
Definition degraded_fields (t : TrailRecord) (primary : PrimaryOutcome) : list (string * string) :=
  let f := fields_of t primary in
  [("PRIORITY", "4"); ("SYSLOG_IDENTIFIER", SYSLOG_IDENTIFIER); ("MESSAGE", degraded_message primary);
   ("MAKNAE_SESSION", dec (rf_session_id f)); ("MAKNAE_SEQ", dec (rf_seq f));
   ("MAKNAE_PRIMARY", rf_primary f); ("MAKNAE_DEGRADED", where_to_read primary)].
Definition field_as_bytes (nv : string * string) : bytes * bytes := (str_bytes (fst nv), str_bytes (snd nv)).

(** ** Datagrams are read back *)

Definition field_bytes (nv : string * string) : bytes := push_field [] (fst nv) (str_bytes (snd nv)).
Definition sendable (nv : string * string) : Prop :=
  is_valid_field_name (fst nv) = true /\ (str_len (snd nv) < u64_max)%Z.

Lemma push_field_app buf n v : push_field buf n (str_bytes v) = buf ++ field_bytes (n, v).
Proof.
  unfold field_bytes, push_field. cbn [fst snd].
  destruct (negb (is_valid_field_name n)); [by rewrite app_nil_r|]. by destruct (existsb is_lf (str_bytes v)).
Qed.

Lemma cut_here f a c b : existsb f a = false -> f c = true -> cut f (a ++ c :: b) = Some (a, b).
Proof.
  intros Ha Hc. induction a as [|x a IH]; simpl in *; [by rewrite Hc|].
  apply orb_false_iff in Ha as [-> Ha]. by rewrite (IH Ha).
Qed.
Lemma cut_none f a : existsb f a = false -> cut f a = None.
Proof. induction a as [|x a IH]; simpl; [done|]. intros [-> Ha]%orb_false_iff. by rewrite (IH Ha). Qed.

(** A field name holds neither of the protocol's separators. *)
Lemma field_name_clean n : is_valid_field_name n = true ->
  existsb is_lf (str_bytes n) = false /\ existsb (Ascii.eqb "=") (str_bytes n) = false.
Proof.
  intros H. assert (Ha : all_bytes (fun c => is_ascii_uppercase c || is_ascii_digit c || Ascii.eqb c "_") n = true).
  { destruct n as [|c n]; [done|]. cbn [is_valid_field_name] in H. by destruct (_ || _) in H. }
  clear H. unfold str_bytes. induction n as [|c n IH]; [done|].
  cbn [all_bytes] in Ha. apply andb_true_iff in Ha as [Hc Hn]. destruct (IH Hn) as [H1 H2].
  cbn [String.list_ascii_of_string existsb]. rewrite H1, H2, !orb_false_r.
  split; apply not_true_is_false; intros E; apply Ascii.eqb_eq in E; by subst c.
Qed.

Lemma read_field_back nv rest : sendable nv -> read_field (field_bytes nv ++ rest) = Some (field_as_bytes nv, rest).
Proof.
  intros [Hn Hl]. destruct nv as [n v]. cbn [fst snd] in *. destruct (field_name_clean n Hn) as [Hlf Heq].
  unfold field_bytes, push_field, field_as_bytes. cbn [fst snd]. rewrite Hn. cbn [negb].
  destruct (existsb is_lf (str_bytes v)) eqn:E; cbn [app]; unfold read_field.
  - rewrite <-app_assoc. cbn [app]. rewrite (cut_here is_lf) by done. cbn [fst snd].
    rewrite (cut_none _ _ Heq). unfold r_u64, u64. rewrite <-!app_assoc, read_le_app.
    + cbn [fst snd]. rewrite Nat2Z.id, drop_app_length, take_app_length. cbn [app]. by rewrite Nat.eqb_refl.
    + unfold str_len, fits in *. rewrite str_bytes_length. change (256 ^ Z.of_nat 8)%Z with u64_max. lia.
  - rewrite <-app_assoc. cbn [app]. rewrite <-app_assoc. cbn [app].
    replace (str_bytes n ++ "="%char :: str_bytes v ++ lf :: rest)
      with ((str_bytes n ++ "="%char :: str_bytes v) ++ lf :: rest) by by rewrite <-app_assoc.
    rewrite (cut_here is_lf); [|rewrite existsb_app; simpl; by rewrite Hlf, E|done]. cbn [fst snd].
    by rewrite (cut_here (Ascii.eqb "=")).
Qed.

Lemma field_bytes_nonempty nv : sendable nv -> 0 < length (field_bytes nv).
Proof.
  intros [Hn _]. destruct nv as [n v]. unfold field_bytes, push_field. cbn [fst snd] in *. rewrite Hn.
  destruct (existsb _ _); cbn [app negb]; rewrite !length_app; simpl; lia.
Qed.

Lemma read_datagram_back fields fuel : Forall sendable fields -> length fields <= fuel ->
  read_datagram fuel (concat (map field_bytes fields)) = Some (map field_as_bytes fields).
Proof.
  revert fuel. induction fields as [|nv fields IH]; intros fuel Hs Hf; [by destruct fuel|].
  apply Forall_cons in Hs as [Hnv Hs]. destruct fuel as [|fuel]; [simpl in Hf; lia|].
  cbn [map concat]. pose proof (field_bytes_nonempty nv Hnv) as Hne.
  destruct (field_bytes nv ++ concat (map field_bytes fields)) as [|b rest] eqn:E.
  { apply (f_equal length) in E. rewrite length_app in E. simpl in E. lia. }
  cbn [read_datagram]. rewrite <-E, read_field_back by done. cbn [fst snd].
  rewrite IH by (done || (simpl in Hf; lia)). done.
Qed.

Lemma concat_fields_length fields : Forall sendable fields ->
  length fields <= length (concat (map field_bytes fields)).
Proof.
  induction 1 as [|nv l Hnv _ IH]; [done|]. cbn [map concat length]. rewrite length_app.
  pose proof (field_bytes_nonempty nv Hnv). lia.
Qed.

Lemma decode_fields fields : Forall sendable fields ->
  decode_datagram (concat (map field_bytes fields)) = Some (map field_as_bytes fields).
Proof. intros H. apply read_datagram_back; [done|]. by apply concat_fields_length. Qed.

Section Datagrams.
Context (json_string : string -> string) (json_float : Z -> string) (t : TrailRecord) (primary : PrimaryOutcome).

Lemma encode_concat :
  encode json_string json_float t primary = concat (map field_bytes (datagram_fields json_string json_float t primary)).
Proof.
  unfold encode. rewrite !push_field_app. cbn [datagram_fields map concat]. rewrite app_nil_r, <-!app_assoc. done.
Qed.
Lemma encode_degraded_concat :
  encode_degraded t primary = concat (map field_bytes (degraded_fields t primary)).
Proof.
  unfold encode_degraded. rewrite !push_field_app. cbn [degraded_fields map concat].
  rewrite app_nil_r, <-!app_assoc. done.
Qed.

Lemma sendable_all fields :
  forallb (fun nv => is_valid_field_name (fst nv)) fields = true ->
  Forall (fun nv => (str_len (snd nv) < u64_max)%Z) fields -> Forall sendable fields.
Proof.
  intros Hn Hl. rewrite Forall_forall in *. intros nv Hin. split; [|by apply Hl].
  rewrite forallb_true in Hn. by apply Hn.
Qed.
End Datagrams.

(** C39: A reader of the journal protocol takes from the datagram of a record exactly
    the nine fields it was built from, the canonical record verbatim, and from the degraded
    one exactly its seven: no text of the record, whatever newlines, equals signs or field
    names it holds, adds, drops or changes a field. *)
Theorem datagram_decodes (json_string : string -> string) (json_float : Z -> string) (t : TrailRecord)
    (primary : PrimaryOutcome) :
  Forall (fun nv => (str_len (snd nv) < u64_max)%Z)
    (datagram_fields json_string json_float t primary ++ degraded_fields t primary) ->
  decode_datagram (encode json_string json_float t primary) =
    Some (map field_as_bytes (datagram_fields json_string json_float t primary)) /\
  decode_datagram (encode_degraded t primary) = Some (map field_as_bytes (degraded_fields t primary)).
Proof.
  intros [H1 H2]%Forall_app. rewrite encode_concat, encode_degraded_concat.
  split; apply decode_fields, sendable_all; done.
Qed.

(** ** The macOS line is read back

    A key of the line ends in two letters and an equals sign; [unanchored x y] says that no
    equals sign of a text follows the letters [x] and [y], [p] and [q] being before it. *)
Fixpoint unanchored (x y p q : ascii) (s : string) : bool :=
  match s with
  | EmptyString => true
  | String c s' => negb (Ascii.eqb c "=" && Ascii.eqb p x && Ascii.eqb q y) && unanchored x y q c s'
  end.
Definition inert (x y : ascii) (s : string) : Prop := forall p q, unanchored x y p q s = true.

Lemma inert_app x y a b : inert x y a -> inert x y b -> inert x y (a +:+ b).
Proof.
  intros Ha Hb p q. specialize (Ha p q). revert p q Ha. induction a as [|c a IH]; intros p q Ha; simpl in *; [apply Hb|].
  apply andb_true_iff in Ha as [-> Ha]. by apply IH.
Qed.



Lemma inert_token x y v : contains_char "=" v = false -> inert x y v.
Proof.
  intros H p q. revert p q. induction v as [|c v IH]; intros p q; simpl in *; [done|].
  apply orb_false_iff in H as [-> H]. simpl. by apply IH.
Qed.



Definition marker_free (v : string) : Prop := is_some (split_once MARKER v) = false.



(** A token of the line. *)
Definition token (v : string) : Prop := contains_char "=" v = false /\ marker_free v.

Lemma scrub_token v : token (scrub v).
Proof.
  unfold scrub. destruct (is_some (split_once MARKER v)) eqn:E1; [done|].
  destruct (contains_char "=" v) eqn:E2; [done|]. simpl.
  destruct (contains_char lf v || contains_char cr v || contains_char nul_byte v); [done|]. by split.
Qed.

Lemma contains_char_digits s : all_bytes is_ascii_digit s = true -> contains_char "=" s = false.
Proof.
  induction s as [|c s IH]; simpl; [done|]. intros [Hc Hs]%andb_true_iff. rewrite (IH Hs), orb_false_r.
  apply not_true_is_false. intros E%Ascii.eqb_eq. by subst c.
Qed.
Lemma inert_dec x y n : inert x y (dec n).
Proof. apply inert_token, contains_char_digits, dec_all_digits. Qed.

Lemma token_inert x y v : token v -> inert x y v.
Proof. intros [H _]. by apply inert_token. Qed.
Lemma scrub_inert x y v : inert x y (scrub v).
Proof. apply token_inert, scrub_token. Qed.

Ltac inert :=
  repeat apply inert_app; first [ apply inert_dec | apply token_inert; done | intros ? ?; reflexivity ].

(** The parts of a line, one key after the other. *)
Section Line.
Context (action outcome subject role primary canonical : string) (session seq : Z).
Context (Ha : token action) (Ho : token outcome) (Hs : token subject) (Hr : token role) (Hp : token primary).




End Line.

(** ** The degraded line *)






(** ** Lengths *)






(** ** A denied read of a file whose name holds a forged field *)

Definition mirror_demo_record : TrailRecord :=
  mkTrailRecord (mkContext "2026-08-11T00:00:00.000Z" "h" "/run/maknae/plane.sock" (Some 1000%Z) None (JObj []))
    (mkRecord "request" 1000 None (Some "alice") None "fs.read"
       (Some ("/tmp/x" +:+ String lf " MAKNAE_OUTCOME=permit")) None None None None None
       "deny" "no rule" "unauthorized" 42 7) None None.
Definition demo_float (_ : Z) : string := "0.0".

Lemma datagram_decodes_witness :
  decode_datagram (encode write_json_string demo_float mirror_demo_record POk) =
    Some (map field_as_bytes (datagram_fields write_json_string demo_float mirror_demo_record POk)) /\
  decode_datagram (encode_degraded mirror_demo_record POk) =
    Some (map field_as_bytes (degraded_fields mirror_demo_record POk)).
Proof.
  apply (datagram_decodes write_json_string demo_float mirror_demo_record POk).
  apply List.Forall_forall. intros nv Hin. apply Z.ltb_lt.
  revert nv Hin. apply (proj1 (List.forallb_forall _ _)). vm_compute. reflexivity.
Defined.


