(* ===== verification/AuditSink.v ===== *)
(** * The audit sink: [crates/maknae-audit-append/src/{sink,error}.rs]

    One append is two programs: the caller's, which is admitted, hands the line to a worker
    and waits for it, and the worker's, which writes and synchronizes under the writer's
    mutex. Their effects act on the sink they share; [sink_step] interleaves any number of
    them, lets callers give up, workers panic and writes stop anywhere. *)
From stdpp Require Import base list strings gmap functions.
From Stdlib Require Import ZArith Lia Ascii.
From S2P Require Import Prelude Programs RustStr RustSlice Seam Config Json GraphFormat Store AuditRecords.
From S2P Require Import AuditScan AuditLine AuditGuard AuditMirror.
Open Scope nat_scope.

(** ** Errors ([error.rs]) *)

Inductive AuditError :=
| OpenPrimary (path detail : string)
| WritePrimary (msg : string)
| ReadPrimary (msg : string)
| Serialize (msg : string)
| MissingTrail (path : string).

Definition audit_error_text (e : AuditError) : string :=
  match e with
  | OpenPrimary path detail =>
      "cannot open primary audit sink " +:+ path +:+ ": " +:+ detail +:+ " (failing closed)"
  | WritePrimary msg => "primary audit sink write failed: " +:+ msg +:+ " (failing closed)"
  | ReadPrimary msg => "primary audit sink read failed: " +:+ msg
  | Serialize msg => "audit record canonicalization failed: " +:+ msg
  | MissingTrail path => "the audit trail " +:+ path +:+ " is missing"
  end.

(** ** The worker *)

(** What a worker does to the sink; the lock answers whether it was not poisoned. *)
Inductive work_effect : Type -> Type :=
| LockPrimary : work_effect bool
| GetFailed : work_effect bool
| SetFailed (failed : bool) : work_effect unit
| HoldBusy : work_effect unit
| WriteAll (line : bytes) : work_effect (result unit string)
| SyncData : work_effect (result unit string)
| DropBusy : work_effect unit
| DropGuard : work_effect unit.

Abbreviation written := (result unit AuditError).

(** [write_line]; a return drops the busy mark, then the guard. *)
Definition write_line (line : bytes) : prog work_effect written :=
  let# locked := LockPrimary in
  if negb locked then
    Ret (Err (WritePrimary "audit writer panicked; primary sink requires recovery"))
  else
    let# failed := GetFailed in
    if failed : bool then
      let# _ := DropGuard in
      Ret (Err (WritePrimary "prior audit append failed; primary sink requires recovery"))
    else
      let# _ := SetFailed true in
      let# _ := HoldBusy in
      let# wrote := WriteAll line in
      match wrote with
      | Err e => let# _ := DropBusy in let# _ := DropGuard in Ret (Err (WritePrimary e))
      | Ok _ =>
          let# synced := SyncData in
          match synced with
          | Err e => let# _ := DropBusy in let# _ := DropGuard in Ret (Err (WritePrimary e))
          | Ok _ =>
              let# _ := SetFailed false in
              let# _ := DropBusy in
              let# _ := DropGuard in
              Ret (Ok tt)
          end
      end.

(** ** The caller *)

(** How the wait for a worker ends: its result, its panic, or the bound. *)
Inductive JoinAnswer := Joined (r : written) | JoinFailed (e : string) | Elapsed.

Inductive call_effect : Type -> Type :=
| InstantNow : call_effect Z
| BusyLongerThan (limit now : Z) : call_effect bool
| ShouldLogRefusal (now : Z) : call_effect bool
| Eprintln (text : string) : call_effect unit
| BeginAttempt (now : Z) : call_effect Admission
| MirrorRecord (primary : PrimaryOutcome) : call_effect unit
| SpawnWrite (attempt : AuditAttempt) (line : bytes) : call_effect unit
| AwaitWorker (bound : option Z) : call_effect JoinAnswer.

Definition as_millis (d : Z) : Z := (d / 1000000)%Z.
Definition unconfirmed (bound : Z) : AuditError :=
  WritePrimary ("audit append unconfirmed within " +:+ dec (as_millis bound) +:+ "ms; the record may still land").

Definition refusal_text (what : string) (t : TrailRecord) : string :=
  "maknaed: AUDIT " +:+ what +:+ " for event=" +:+ ar_event (tl_record t) +:+ " action="
    +:+ ar_action (tl_record t) +:+ " session_id=" +:+ dec (ar_session_id (tl_record t))
    +:+ " — refusing append before spawning blocking audit work".

Section Append.
Context (json_string : string -> string) (json_float : Z -> string).

(** The canonical record and its newline. The value of a record always serializes. *)
Definition line_bytes (t : TrailRecord) : bytes := str_bytes (record_text json_string json_float t) ++ [lf].

(** A refusal: said at most once in a while, mirrored, returned. *)
Definition refuse_append (t : TrailRecord) (now : Z) (what : string) (primary : PrimaryOutcome) (why : string)
  : prog call_effect written :=
  let# should_log := ShouldLogRefusal now in
  let* _ := if should_log : bool then let# _ := Eprintln (refusal_text what t) in Ret tt else Ret tt in
  let# _ := MirrorRecord primary in
  Ret (Err (WritePrimary why)).

(** Without a bound the wait does not elapse. *)
Definition append_inner (busy_limit : Z) (t : TrailRecord) (bound : option Z) : prog call_effect written :=
  let line := line_bytes t in
  let# now := InstantNow in
  let# busy := BusyLongerThan busy_limit now in
  if busy : bool then
    refuse_append t now "WRITER BUSY" PRefusedBreakerOpen
      ("audit writer busy for more than " +:+ dec (as_millis busy_limit) +:+ "ms")
  else
    let# admitted := BeginAttempt now in
    match admitted with
    | RefusedOpen =>
        refuse_append t now "WRITE BREAKER OPEN" PRefusedBreakerOpen "audit append circuit breaker open"
    | RefusedAtCapacity =>
        refuse_append t now "WRITE AT CAPACITY" PRefusedAtCapacity "audit append worker capacity exhausted"
    | AdmitAttempt attempt =>
        let# _ := SpawnWrite attempt line in
        let# joined := AwaitWorker bound in
        match joined, bound with
        | Elapsed, Some b =>
            let# _ := MirrorRecord PWriteUnconfirmed in
            Ret (Err (unconfirmed b))
        | _, _ =>
            let joined := match joined with
                          | Joined r => r
                          | JoinFailed e =>
                              Err (WritePrimary ("blocking write task panicked/was cancelled: " +:+ e))
                          | Elapsed => Err (WritePrimary "")
                          end in
            let# _ := MirrorRecord match joined with Ok _ => POk | Err _ => PWriteFailed end in
            Ret joined
        end
    end.

(** [append] and [append_within], which [AuditEmit] hands on as they are. *)
Definition append (t : TrailRecord) : prog call_effect written :=
  append_inner AUDIT_WRITER_BUSY_REFUSE_AFTER t None.
Definition append_within (t : TrailRecord) (bound : Z) : prog call_effect written :=
  append_inner AUDIT_WRITER_BUSY_REFUSE_AFTER t (Some bound).

(** ** The sink *)

Inductive WorkerRun := WRunning (p : prog work_effect written) | WEnded (r : option written).
Record AppendWorker := mkAppendWorker { aw_line : bytes; aw_attempt : AuditAttempt; aw_run : WorkerRun }.
Inductive CallRun := CRunning (p : prog call_effect written) | CReturned (r : written) | CDropped.
Record Call := mkCall { cl_record : TrailRecord; cl_bound : option Z; cl_run : CallRun }.

(** The file and how much of it is known to be durable, the mutex with the failure mark it
    guards, the shared admission state, the workers and calls by number. *)
Record SinkWorld := mkSink {
  sw_file : bytes; sw_synced : nat; sw_failed : bool; sw_poisoned : bool; sw_holder : option nat;
  sw_busy : WriterBusy; sw_breaker : AuditBreaker; sw_now : Z;
  sw_workers : nat -> option AppendWorker; sw_calls : nat -> option Call;
  sw_mirrored : list (nat * PrimaryOutcome) }.

(** A sink opened on a file. *)
Definition sink_opened (file : bytes) (now : Z) : SinkWorld :=
  mkSink file (length file) false false None (writer_busy_default now) audit_breaker_default now
    (fun _ => None) (fun _ => None) [].

Definition with_file (w : SinkWorld) (file : bytes) (synced : nat) : SinkWorld :=
  mkSink file synced (sw_failed w) (sw_poisoned w) (sw_holder w) (sw_busy w) (sw_breaker w) (sw_now w)
    (sw_workers w) (sw_calls w) (sw_mirrored w).
Definition with_lock (w : SinkWorld) (failed poisoned : bool) (holder : option nat) : SinkWorld :=
  mkSink (sw_file w) (sw_synced w) failed poisoned holder (sw_busy w) (sw_breaker w) (sw_now w)
    (sw_workers w) (sw_calls w) (sw_mirrored w).
Definition with_guard (w : SinkWorld) (busy : WriterBusy) (breaker : AuditBreaker) (now : Z) : SinkWorld :=
  mkSink (sw_file w) (sw_synced w) (sw_failed w) (sw_poisoned w) (sw_holder w) busy breaker now
    (sw_workers w) (sw_calls w) (sw_mirrored w).
Definition with_worker (w : SinkWorld) (i : nat) (wk : AppendWorker) : SinkWorld :=
  mkSink (sw_file w) (sw_synced w) (sw_failed w) (sw_poisoned w) (sw_holder w) (sw_busy w) (sw_breaker w)
    (sw_now w) (<[i := Some wk]> (sw_workers w)) (sw_calls w) (sw_mirrored w).
Definition with_call (w : SinkWorld) (i : nat) (c : Call) : SinkWorld :=
  mkSink (sw_file w) (sw_synced w) (sw_failed w) (sw_poisoned w) (sw_holder w) (sw_busy w) (sw_breaker w)
    (sw_now w) (sw_workers w) (<[i := Some c]> (sw_calls w)) (sw_mirrored w).
Definition with_mirrored (w : SinkWorld) (i : nat) (p : PrimaryOutcome) : SinkWorld :=
  mkSink (sw_file w) (sw_synced w) (sw_failed w) (sw_poisoned w) (sw_holder w) (sw_busy w) (sw_breaker w)
    (sw_now w) (sw_workers w) (sw_calls w) (sw_mirrored w ++ [(i, p)]).

(** A worker's effects. A write that fails has written some of its bytes; one that succeeds,
    all; a synchronization that fails may have made some durable. *)
Definition work_acts (i : nat) (X : Type) (w : SinkWorld) (e : work_effect X) : X -> SinkWorld -> Prop :=
  match e in work_effect X return X -> SinkWorld -> Prop with
  | LockPrimary => fun ok w' =>
      sw_holder w = None /\ ok = negb (sw_poisoned w) /\
      w' = if sw_poisoned w then w else with_lock w (sw_failed w) false (Some i)
  | GetFailed => fun failed w' => failed = sw_failed w /\ w' = w
  | SetFailed failed => fun _ w' => w' = with_lock w failed (sw_poisoned w) (sw_holder w)
  | HoldBusy => fun _ w' => w' = with_guard w (hold_from (sw_busy w) (sw_now w)) (sw_breaker w) (sw_now w)
  | WriteAll line => fun r w' =>
      exists part, part `prefix_of` line /\ (is_ok r = true -> part = line) /\
        w' = with_file w (sw_file w ++ part) (sw_synced w)
  | SyncData => fun r w' =>
      exists n, sw_synced w <= n <= length (sw_file w) /\ (is_ok r = true -> n = length (sw_file w)) /\
        w' = with_file w (sw_file w) n
  | DropBusy => fun _ w' => w' = with_guard w (busy_drop (sw_busy w)) (sw_breaker w) (sw_now w)
  | DropGuard => fun _ w' => w' = with_lock w (sw_failed w) (sw_poisoned w) None
  end.

(** A caller's effects; its worker has its number. *)
Definition call_acts (i : nat) (X : Type) (w : SinkWorld) (e : call_effect X) : X -> SinkWorld -> Prop :=
  match e in call_effect X return X -> SinkWorld -> Prop with
  | InstantNow => fun now w' => now = sw_now w /\ w' = w
  | BusyLongerThan limit now => fun b w' => b = busy_longer_than (sw_busy w) limit now /\ w' = w
  | ShouldLogRefusal now => fun b w' =>
      b = snd (audit_should_log_refusal_at (sw_breaker w) now) /\
      w' = with_guard w (sw_busy w) (fst (audit_should_log_refusal_at (sw_breaker w) now)) (sw_now w)
  | Eprintln _ => fun _ w' => w' = w
  | BeginAttempt now => fun a w' =>
      a = snd (audit_begin_attempt_at (sw_breaker w) now) /\
      w' = with_guard w (sw_busy w) (fst (audit_begin_attempt_at (sw_breaker w) now)) (sw_now w)
  | MirrorRecord p => fun _ w' => w' = with_mirrored w i p
  | SpawnWrite attempt line => fun _ w' =>
      sw_workers w i = None /\ w' = with_worker w i (mkAppendWorker line attempt (WRunning (write_line line)))
  | AwaitWorker bound => fun j w' =>
      w' = w /\
      match j with
      | Joined r => exists wk, sw_workers w i = Some wk /\ aw_run wk = WEnded (Some r)
      | JoinFailed _ => exists wk, sw_workers w i = Some wk /\ aw_run wk = WEnded None
      | Elapsed => bound <> None
      end
  end.

(** One effect of a program. *)
Definition prog_step {E : Type -> Type} {A W} (acts : forall X, W -> E X -> X -> W -> Prop)
    (p : prog E A) (w : W) (p' : prog E A) (w' : W) : Prop :=
  match p with
  | Ret _ => False
  | Vis e k => exists x, acts _ w e x w' /\ p' = k x
  end.

(** The drop of a worker's [SlotRelease]. *)
Definition released (w : SinkWorld) (wk : AppendWorker) : SinkWorld :=
  with_guard w (sw_busy w) (audit_record_success (sw_breaker w) (aw_attempt wk)) (sw_now w).

(** A panic unwinds the worker: the busy mark it holds is dropped, the mutex poisoned. *)
Definition unwound (w : SinkWorld) (i : nat) : SinkWorld :=
  if bool_decide (sw_holder w = Some i)
  then with_guard (with_lock w (sw_failed w) true None) (busy_drop (sw_busy w)) (sw_breaker w) (sw_now w)
  else w.

Inductive sink_step (busy_limit : Z) : SinkWorld -> SinkWorld -> Prop :=
| ss_tick w now : (sw_now w <= now)%Z -> sink_step busy_limit w (with_guard w (sw_busy w) (sw_breaker w) now)
| ss_begin w i t bound : sw_calls w i = None ->
    sink_step busy_limit w (with_call w i (mkCall t bound (CRunning (append_inner busy_limit t bound))))
| ss_call w i c p p' w' : sw_calls w i = Some c -> cl_run c = CRunning p ->
    prog_step (call_acts i) p w p' w' ->
    sink_step busy_limit w (with_call w' i (mkCall (cl_record c) (cl_bound c) (CRunning p')))
| ss_return w i c r : sw_calls w i = Some c -> cl_run c = CRunning (Ret r) ->
    sink_step busy_limit w (with_call w i (mkCall (cl_record c) (cl_bound c) (CReturned r)))
| ss_drop w i c p : sw_calls w i = Some c -> cl_run c = CRunning p ->
    sink_step busy_limit w (with_call w i (mkCall (cl_record c) (cl_bound c) CDropped))
| ss_work w i wk p p' w' : sw_workers w i = Some wk -> aw_run wk = WRunning p ->
    prog_step (work_acts i) p w p' w' ->
    sink_step busy_limit w (with_worker w' i (mkAppendWorker (aw_line wk) (aw_attempt wk) (WRunning p')))
| ss_end w i wk r : sw_workers w i = Some wk -> aw_run wk = WRunning (Ret r) ->
    sink_step busy_limit w
      (with_worker (released w wk) i (mkAppendWorker (aw_line wk) (aw_attempt wk) (WEnded (Some r))))
| ss_panic w i wk p : sw_workers w i = Some wk -> aw_run wk = WRunning p ->
    sink_step busy_limit w
      (with_worker (released (unwound w i) wk) i (mkAppendWorker (aw_line wk) (aw_attempt wk) (WEnded None))).

Inductive sink_steps (busy_limit : Z) (w0 : SinkWorld) : SinkWorld -> Prop :=
| sks_refl : sink_steps busy_limit w0 w0
| sks_step w w' : sink_steps busy_limit w0 w -> sink_step busy_limit w w' -> sink_steps busy_limit w0 w'.
End Append.

(** ** The scan of the trail *)

(** [AuditSink::scan_back]; the mutex is held throughout. *)
Inductive read_effect : Type -> Type :=
| LockForRead : read_effect bool
| MetadataLen : read_effect (result nat string)
| OnScan {X} (e : scan_effect X) : read_effect X.

Definition sink_scan_back (find : list ascii -> bool) : prog read_effect (result ScanResult AuditError) :=
  let# locked := LockForRead in
  if negb locked then Ret (Err (ReadPrimary "audit writer panicked; primary sink requires recovery"))
  else
    let# len := MetadataLen in
    match len with
    | Err e => Ret (Err (ReadPrimary e))
    | Ok len =>
        let* r := lift (fun X e => OnScan e) (scan_back find len) in
        Ret match r with Ok s => Ok s | Err e => Err (ReadPrimary (scan_error_text e)) end
    end.
