(* ===== verification/AuditTrail.v ===== *)
(** * What the audit sink keeps of its trail

    The invariant of [sink_step]: the file is what it was when the sink was opened, then the
    whole lines of the appends that are durable, then at most one torn line, after which
    nothing is written any more. *)
From stdpp Require Import base list strings gmap functions.
From Stdlib Require Import ZArith Lia Ascii.
From S2P Require Import Prelude Programs RustStr RustSlice Seam Config Json GraphFormat Store AuditRecords.
From S2P Require Import AuditScan AuditLine AuditGuard AuditMirror AuditSink.
Open Scope nat_scope.

(** ** Where a worker is *)

Inductive Stage :=
| SStart | SLocked | SFlag | SHold | SWrite | SSync | SClear
| SClose (r : written) | SUnlock (r : written) | SEnd (r : written).

(** What is left of [write_line] at a stage. *)
Definition residual (line : bytes) (s : Stage) : prog work_effect written :=
  let unlock r := let# _ := DropGuard in Ret r in
  let close r := let# _ := DropBusy in unlock r in
  let clear := let# _ := SetFailed false in close (Ok tt) in
  let sync := let# synced := SyncData in match synced with Err e => close (Err (WritePrimary e)) | Ok _ => clear end in
  let write := let# wrote := WriteAll line in match wrote with Err e => close (Err (WritePrimary e)) | Ok _ => sync end in
  let hold := let# _ := HoldBusy in write in
  let flag := let# _ := SetFailed true in hold in
  match s with
  | SStart => write_line line
  | SLocked =>
      let# failed := GetFailed in
      if failed : bool
      then unlock (Err (WritePrimary "prior audit append failed; primary sink requires recovery"))
      else flag
  | SFlag => flag
  | SHold => hold
  | SWrite => write
  | SSync => sync
  | SClear => clear
  | SClose r => close r
  | SUnlock r => unlock r
  | SEnd r => Ret r
  end.

(** ** The invariant *)

Definition worker_line (w : SinkWorld) (i : nat) : bytes := from_option aw_line [] (sw_workers w i).
Definition lines_of (w : SinkWorld) (ids : list nat) : bytes := concat (map (worker_line w) ids).

(** A torn line is a beginning of a line that is not durable. *)
Definition torn (w : SinkWorld) (durable : list nat) (tail : bytes) : Prop :=
  tail = [] \/ exists t, sw_workers w t <> None /\ t ∉ durable /\ tail `prefix_of` worker_line w t.

(** The state the mutex guards, while worker [i] holds it at a stage. *)
Definition held_ok (w : SinkWorld) (durable : list nat) (tail : bytes) (i : nat) (s : Stage) : Prop :=
  match s with
  | SStart | SEnd _ => False
  | SLocked => i ∉ durable /\ (sw_failed w = false -> tail = [])
  | SFlag => i ∉ durable /\ tail = []
  | SHold | SWrite => i ∉ durable /\ sw_failed w = true /\ tail = []
  | SSync => i ∉ durable /\ sw_failed w = true /\ tail = worker_line w i
  | SClear => i ∈ durable /\ tail = []
  | SClose (Ok _) | SUnlock (Ok _) => i ∈ durable /\ tail = []
  | SClose (Err _) | SUnlock (Err _) => sw_failed w = true
  end.

Definition worker_ok (w : SinkWorld) (durable : list nat) (tail : bytes) (i : nat) (wk : AppendWorker) : Prop :=
  match aw_run wk with
  | WEnded r => r = Some (Ok tt) -> i ∈ durable
  | WRunning p =>
      if bool_decide (sw_holder w = Some i)
      then exists s, p = residual (aw_line wk) s /\ held_ok w durable tail i s
      else (p = write_line (aw_line wk) /\ i ∉ durable) \/ (exists r, p = Ret r /\ (r = Ok tt -> i ∈ durable))
  end.

Record trail_inv (old : bytes) (w : SinkWorld) (durable : list nat) (tail : bytes) : Prop := {
  ti_file : sw_file w = old ++ lines_of w durable ++ tail;
  ti_synced : length (old ++ lines_of w durable) <= sw_synced w <= length (sw_file w);
  ti_once : NoDup durable;
  ti_known : forall i, i ∈ durable -> sw_workers w i <> None;
  ti_torn : torn w durable tail;
  ti_free : sw_holder w = None -> sw_failed w = false -> sw_poisoned w = false -> tail = [];
  ti_unpoisoned : sw_holder w <> None -> sw_poisoned w = false;
  ti_holder : forall i, sw_holder w = Some i -> exists wk p, sw_workers w i = Some wk /\ aw_run wk = WRunning p;
  ti_workers : forall i wk, sw_workers w i = Some wk -> worker_ok w durable tail i wk }.

(** ** Changes of the sink *)

(** The part of the sink the invariant is about. *)
Definition same_trail (w w' : SinkWorld) : Prop :=
  sw_file w' = sw_file w /\ sw_synced w' = sw_synced w /\ sw_failed w' = sw_failed w /\
  sw_poisoned w' = sw_poisoned w /\ sw_holder w' = sw_holder w /\ sw_workers w' = sw_workers w.

Lemma same_trail_refl w : same_trail w w.
Proof. by split_and!. Qed.

Lemma worker_line_with w i wk wk' j :
  sw_workers w i = Some wk -> aw_line wk' = aw_line wk -> worker_line (with_worker w i wk') j = worker_line w j.
Proof.
  intros H E. unfold worker_line. cbn. destruct (decide (j = i)) as [->|Hn].
  - rewrite fn_lookup_insert, H. by simpl.
  - by rewrite fn_lookup_insert_ne.
Qed.

Lemma worker_line_new w i wk j : sw_workers w i = None -> sw_workers w j <> None ->
  worker_line (with_worker w i wk) j = worker_line w j.
Proof. intros H Hj. unfold worker_line. cbn. rewrite fn_lookup_insert_ne; [done|]. by intros ->. Qed.

Lemma lines_of_ext w w' ids :
  (forall j, j ∈ ids -> worker_line w' j = worker_line w j) -> lines_of w' ids = lines_of w ids.
Proof.
  intros H. unfold lines_of. f_equal. apply map_ext_in. intros j Hj. apply H. by apply list_elem_of_In.
Qed.

Lemma with_worker_known w i wk j : sw_workers w j <> None -> sw_workers (with_worker w i wk) j <> None.
Proof. intros H. cbn. destruct (decide (j = i)) as [->|]; by rewrite ?fn_lookup_insert, ?fn_lookup_insert_ne. Qed.

Lemma with_worker_at w i wk : sw_workers (with_worker w i wk) i = Some wk.
Proof. apply fn_lookup_insert. Qed.
Lemma with_call_at w i c : sw_calls (with_call w i c) i = Some c.
Proof. apply fn_lookup_insert. Qed.

Lemma with_worker_lookup w i wk' j wk : sw_workers (with_worker w i wk') j = Some wk ->
  (j = i /\ wk = wk') \/ (j <> i /\ sw_workers w j = Some wk).
Proof.
  cbn. destruct (decide (j = i)) as [->|Hn].
  - rewrite fn_lookup_insert. intros [= <-]. by left.
  - rewrite fn_lookup_insert_ne by done. by right.
Qed.

Lemma held_ok_ext w w' d t i s : sw_failed w' = sw_failed w -> worker_line w' i = worker_line w i ->
  held_ok w d t i s -> held_ok w' d t i s.
Proof. intros Hf Hl. unfold held_ok. rewrite Hf, Hl. done. Qed.

(** Any world whose trail is as before. *)
Lemma worker_ok_ext w w' d t i wk :
  sw_failed w' = sw_failed w -> sw_holder w' = sw_holder w -> worker_line w' i = worker_line w i ->
  worker_ok w d t i wk -> worker_ok w' d t i wk.
Proof.
  intros Hf Hh Hl. unfold worker_ok. rewrite Hh. destruct (aw_run wk) as [p|]; [|done].
  destruct (bool_decide (sw_holder w = Some i)); [|done]. intros (s & -> & Hs). exists s. split; [done|].
  by apply (held_ok_ext w).
Qed.

(** A worker the mutex is not held by. *)
Lemma worker_ok_bystander w w' d t d' t' i wk :
  sw_holder w <> Some i -> sw_holder w' <> Some i -> (i ∈ d' <-> i ∈ d) ->
  worker_ok w d t i wk -> worker_ok w' d' t' i wk.
Proof.
  intros H1 H2 Hd. unfold worker_ok. rewrite !bool_decide_eq_false_2 by done.
  destruct (aw_run wk); naive_solver.
Qed.

Lemma torn_ext w w' d t :
  (forall j, sw_workers w j <> None -> sw_workers w' j <> None /\ worker_line w' j = worker_line w j) ->
  torn w d t -> torn w' d t.
Proof.
  intros H [->|(j & Hj & Hd & Hp)]; [by left|right]. destruct (H j Hj) as [H1 H2]. exists j. by rewrite H2.
Qed.

Lemma inv_same_trail old w w' d t : same_trail w w' -> trail_inv old w d t -> trail_inv old w' d t.
Proof.
  intros (Hf & Hs & Hx & Hp & Hh & Hw) [H1 H2 H3 H4 H5 H6 H7 H8 H9].
  assert (Hl : forall j, worker_line w' j = worker_line w j) by (intros j; unfold worker_line; by rewrite Hw).
  assert (HL : lines_of w' d = lines_of w d) by by apply lines_of_ext.
  constructor; rewrite ?HL, ?Hf, ?Hs, ?Hx, ?Hp, ?Hh, ?Hw; try done.
  - apply (torn_ext w); [|done]. intros j Hj. by rewrite Hw.
  - intros i wk Hi. apply (worker_ok_ext w w' d t); auto.
Qed.

(** A worker that does not hold the mutex and comes to [wk']. *)
Lemma inv_bystander old w d t i wk wk' :
  trail_inv old w d t -> sw_workers w i = Some wk -> aw_line wk' = aw_line wk -> sw_holder w <> Some i ->
  worker_ok w d t i wk' -> trail_inv old (with_worker w i wk') d t.
Proof.
  intros [H1 H2 H3 H4 H5 H6 H7 H8 H9] Hi Hline Hh Hok.
  assert (Hl : forall j, worker_line (with_worker w i wk') j = worker_line w j)
    by (intros j; by apply (worker_line_with w i wk)).
  assert (HL : lines_of (with_worker w i wk') d = lines_of w d) by by apply lines_of_ext.
  constructor; rewrite ?HL; try done.
  - intros j Hj. by apply with_worker_known, H4.
  - apply (torn_ext w); [|done]. intros j Hj. split; [by apply with_worker_known|done].
  - intros j Hj. destruct (H8 j Hj) as (wk0 & p & E1 & E2). cbn in Hj. exists wk0, p. split; [|done].
    cbn. rewrite fn_lookup_insert_ne; [done|]. intros ->. done.
  - intros j wk0 [[-> ->]|[Hn Hj]]%with_worker_lookup; apply (worker_ok_ext w _ d t); auto.
Qed.

(** A worker that is alone with what the mutex guards. *)
Lemma inv_update old w w1 d t d' t' i wk wk' :
  trail_inv old w d t -> sw_workers w i = Some wk -> sw_workers w1 = sw_workers w -> aw_line wk' = aw_line wk ->
  (sw_holder w = None \/ sw_holder w = Some i) ->
  (sw_holder w1 = None \/ (sw_holder w1 = Some i /\ exists p, aw_run wk' = WRunning p)) ->
  (forall j, j <> i -> (j ∈ d' <-> j ∈ d)) -> NoDup d' ->
  sw_file w1 = old ++ lines_of w d' ++ t' ->
  length (old ++ lines_of w d') <= sw_synced w1 <= length (sw_file w1) ->
  torn w d' t' ->
  (sw_holder w1 = None -> sw_failed w1 = false -> sw_poisoned w1 = false -> t' = []) ->
  (sw_holder w1 <> None -> sw_poisoned w1 = false) ->
  worker_ok (with_worker w1 i wk') d' t' i wk' ->
  trail_inv old (with_worker w1 i wk') d' t'.
Proof.
  intros [H1 H2 H3 H4 H5 H6 H7 H8 H9] Hi Hw Hline Hh Hh1 Hd Hnd Hf Hs Ht Hfree Hun Hok.
  assert (Hl : forall j, worker_line (with_worker w1 i wk') j = worker_line w j).
  { intros j. rewrite (worker_line_with w1 i wk) by (done || by rewrite Hw). unfold worker_line. by rewrite Hw. }
  assert (HL : lines_of (with_worker w1 i wk') d' = lines_of w d') by by apply lines_of_ext.
  constructor; rewrite ?HL; try done.
  - intros j Hj. apply with_worker_known. rewrite Hw. destruct (decide (j = i)) as [->|Hn]; [by rewrite Hi|].
    apply H4. by apply Hd.
  - apply (torn_ext w); [|done]. intros j Hj. split; [apply with_worker_known; by rewrite Hw|done].
  - intros j Hj. cbn in Hj. destruct Hh1 as [E|[E [p Hp]]]; rewrite E in Hj; [done|injection Hj as <-].
    exists wk', p. split; [|done]. cbn. apply fn_lookup_insert.
  - intros j wk0 [[-> ->]|[Hn Hj]]%with_worker_lookup; [done|].
    apply (worker_ok_bystander w _ d t); [destruct Hh; congruence| |by apply Hd|apply H9; by rewrite <-Hw].
    cbn. destruct Hh1 as [E|[E _]]; rewrite E; congruence.
Qed.

Lemma inv_spawn old w d t i wk :
  trail_inv old w d t -> sw_workers w i = None -> aw_run wk = WRunning (write_line (aw_line wk)) ->
  trail_inv old (with_worker w i wk) d t.
Proof.
  intros [H1 H2 H3 H4 H5 H6 H7 H8 H9] Hi Hrun.
  assert (Hl : forall j, sw_workers w j <> None -> worker_line (with_worker w i wk) j = worker_line w j)
    by (intros j Hj; by apply worker_line_new).
  assert (HL : lines_of (with_worker w i wk) d = lines_of w d) by (apply lines_of_ext; auto).
  assert (Hnh : sw_holder w <> Some i).
  { intros E. destruct (H8 i E) as (? & ? & E' & _). congruence. }
  constructor; rewrite ?HL; try done.
  - intros j Hj. by apply with_worker_known, H4.
  - apply (torn_ext w); [|done]. intros j Hj. split; [by apply with_worker_known|auto].
  - intros j Hj. destruct (H8 j Hj) as (wk0 & p & E1 & E2). exists wk0, p. split; [|done].
    cbn. rewrite fn_lookup_insert_ne; congruence.
  - intros j wk0 [[-> ->]|[Hn Hj]]%with_worker_lookup.
    + unfold worker_ok. rewrite Hrun, bool_decide_eq_false_2 by done. left. split; [done|].
      intros Hd. by apply (H4 i Hd).
    + apply (worker_ok_ext w _ d t); auto. apply Hl. congruence.
Qed.

(** ** Steps *)

Definition at_stage (wk : AppendWorker) (s : Stage) : AppendWorker :=
  mkAppendWorker (aw_line wk) (aw_attempt wk) (WRunning (residual (aw_line wk) s)).

Lemma worker_ok_held w d t i wk s : sw_holder w = Some i -> held_ok w d t i s -> worker_ok w d t i (at_stage wk s).
Proof. intros Hh Hs. unfold worker_ok. cbn. rewrite bool_decide_eq_true_2 by done. by exists s. Qed.

Lemma lines_of_snoc w d i : lines_of w (d ++ [i]) = lines_of w d ++ worker_line w i.
Proof. unfold lines_of. rewrite map_app, concat_app. simpl. by rewrite app_nil_r. Qed.

(** The holder goes on, and what the mutex guards may change. *)
Lemma inv_held old w w1 d t d' t' i wk s :
  trail_inv old w d t -> sw_workers w i = Some wk -> sw_workers w1 = sw_workers w ->
  (sw_holder w = None \/ sw_holder w = Some i) -> sw_holder w1 = Some i -> sw_poisoned w1 = false ->
  (d' = d \/ (i ∉ d /\ d' = d ++ [i])) ->
  sw_file w1 = old ++ lines_of w d' ++ t' ->
  length (old ++ lines_of w d') <= sw_synced w1 <= length (sw_file w1) ->
  torn w d' t' -> held_ok (with_worker w1 i (at_stage wk s)) d' t' i s ->
  trail_inv old (with_worker w1 i (at_stage wk s)) d' t'.
Proof.
  intros Hinv Hi Hw Hh Hh1 Hp Hd Hf Hs Ht Hok.
  apply (inv_update old w w1 d t d' t' i wk); try done.
  - right. split; [done|]. by eexists.
  - intros j Hn. destruct Hd as [->|[_ ->]]; [done|]. rewrite elem_of_app, list_elem_of_singleton. naive_solver.
  - destruct Hd as [->|[Hni ->]]; [apply Hinv|]. apply list.NoDup_app. split_and!; [apply Hinv| |apply NoDup_singleton].
    intros x Hx ->%list_elem_of_singleton. done.
  - congruence.
  - by apply worker_ok_held.
Qed.

(** The stages of the holder. *)
Lemma held_step_inv old w d t i wk s p' w1 :
  trail_inv old w d t -> sw_workers w i = Some wk -> sw_holder w = Some i -> held_ok w d t i s ->
  prog_step (work_acts i) (residual (aw_line wk) s) w p' w1 ->
  exists d' t', trail_inv old (with_worker w1 i (mkAppendWorker (aw_line wk) (aw_attempt wk) (WRunning p'))) d' t' /\
                d `prefix_of` d'.
Proof.
  intros Hinv Hi Hh Hs Hstep. pose proof (ti_unpoisoned _ _ _ _ Hinv ltac:(congruence)) as Hp.
  assert (Hline : worker_line w i = aw_line wk) by (unfold worker_line; by rewrite Hi).
  pose proof (ti_file _ _ _ _ Hinv) as Hf. pose proof (ti_synced _ _ _ _ Hinv) as Hsy.
  pose proof (ti_torn _ _ _ _ Hinv) as Ht.
  assert (Hgo : forall w2 s', sw_file w2 = sw_file w -> sw_synced w2 = sw_synced w -> sw_workers w2 = sw_workers w ->
            sw_holder w2 = Some i -> sw_poisoned w2 = false ->
            held_ok (with_worker w2 i (at_stage wk s')) d t i s' ->
            exists d' t', trail_inv old (with_worker w2 i (at_stage wk s')) d' t' /\ d `prefix_of` d').
  { intros w2 s' E1 E2 E3 E4 E5 E6. exists d, t. split; [|done].
    apply (inv_held old w w2 d t d t i wk s'); rewrite ?E1, ?E2; auto. }
  destruct s as [| | | | | | |r|r|r]; cbn in Hs, Hstep; try done.
  - destruct Hstep as (x & (-> & ->) & ->). destruct (sw_failed w) eqn:Ef.
    + by apply (Hgo w (SUnlock (Err _))).
    + apply (Hgo w SFlag); naive_solver.
  - destruct Hstep as (x & -> & ->). apply (Hgo _ SHold); naive_solver.
  - destruct Hstep as (x & -> & ->). by apply (Hgo _ SWrite).
  - destruct Hstep as (r & (part & Hpart & Hall & ->) & ->). destruct Hs as (Hni & Hfa & ->). exists d.
    rewrite app_nil_r in Hf.
    assert (Hlen : length (old ++ lines_of w d) <= sw_synced w <= length (sw_file w ++ part)) by (rewrite (length_app (sw_file w)); lia).
    assert (Htorn : torn w d part).
    { right. exists i. rewrite Hi, Hline. by split_and!. }
    exists part. split; [|done]. destruct r as [[]|e].
    + rewrite Hall in * by done. apply (inv_held old w _ d [] d _ i wk SSync); auto.
      * cbn. rewrite Hf. by rewrite <-app_assoc.
      * split_and!; [done..|]. unfold worker_line. cbn. by rewrite fn_lookup_insert.
    + apply (inv_held old w _ d [] d _ i wk (SClose (Err (WritePrimary e)))); auto. cbn. rewrite Hf. by rewrite <-app_assoc.
  - destruct Hstep as (r & (n & Hn & Hall & ->) & ->). destruct Hs as (Hni & Hfa & ->). destruct r as [[]|e].
    + rewrite Hall in * by done. exists (d ++ [i]), []. split; [|by apply prefix_app_r].
      apply (inv_held old w _ d (worker_line w i) (d ++ [i]) [] i wk SClear); auto; cbn.
      * by rewrite lines_of_snoc, app_nil_r.
      * rewrite lines_of_snoc, Hf. lia.
      * by left.
      * split; [|done]. apply elem_of_app. right. by apply list_elem_of_singleton.
    + exists d, (worker_line w i). split; [|done].
      apply (inv_held old w _ d (worker_line w i) d _ i wk (SClose (Err (WritePrimary e)))); auto. cbn. lia.
  - destruct Hstep as (x & -> & ->). by apply (Hgo _ (SClose (Ok tt))).
  - destruct Hstep as (x & -> & ->). by apply (Hgo _ (SUnlock r)).
  - destruct Hstep as (x & -> & ->). exists d, t. split; [|done].
    apply (inv_update old w _ d t d t i wk); auto; cbn; [apply Hinv| |].
    + intros _ Hff _. destruct r; [apply Hs|congruence].
    + unfold worker_ok. cbn. rewrite bool_decide_eq_false_2 by done. right. exists r. split; [done|].
      intros ->. apply Hs.
Qed.

Lemma work_step_inv old w d t i wk p p' w1 :
  trail_inv old w d t -> sw_workers w i = Some wk -> aw_run wk = WRunning p ->
  prog_step (work_acts i) p w p' w1 ->
  exists d' t', trail_inv old (with_worker w1 i (mkAppendWorker (aw_line wk) (aw_attempt wk) (WRunning p'))) d' t' /\
                d `prefix_of` d'.
Proof.
  intros Hinv Hi Hrun Hstep. pose proof (ti_workers _ _ _ _ Hinv i wk Hi) as Hok. unfold worker_ok in Hok.
  rewrite Hrun in Hok. case_bool_decide as Hh.
  - destruct Hok as (s & -> & Hs). by eapply held_step_inv.
  - destruct Hok as [[-> Hni]|(r & -> & _)]; [|done]. cbn in Hstep.
    destruct Hstep as (ok & (Hnone & -> & ->) & ->). exists d, t. split; [|done].
    destruct (sw_poisoned w) eqn:Hp; cbn.
    + apply (inv_bystander old w d t i wk); auto. unfold worker_ok. cbn. rewrite bool_decide_eq_false_2 by done.
      right. by eexists.
    + apply (inv_held old w _ d t d t i wk SLocked); auto; [apply Hinv..|]. cbn. split; [done|].
      intros Hff. by apply Hinv.
Qed.

(** ** Callers *)

Definition joined_ok {X} (e : call_effect X) : X -> bool :=
  match e in call_effect X return X -> bool with
  | AwaitWorker _ => fun j => match j with Joined (Ok _) => true | _ => false end
  | _ => fun _ => false
  end.
Definition spawns {X} (line : bytes) (e : call_effect X) : Prop :=
  match e with SpawnWrite _ l => l = line | _ => True end.

(** The program hands [line] to its worker and returns success only once it was joined so. *)
Fixpoint call_ok (line : bytes) (earned : bool) (p : prog call_effect written) : Prop :=
  match p with
  | Ret r => r = Ok tt -> earned = true
  | Vis e k => spawns line e /\ forall x, call_ok line (earned || joined_ok e x) (k x)
  end.

Section Sink.
Context (json_string : string -> string) (json_float : Z -> string) (busy_limit : Z) (old : bytes).
Local Notation line_bytes := (line_bytes json_string json_float).
Local Notation append_inner := (append_inner json_string json_float).
Local Notation sink_step := (sink_step json_string json_float busy_limit).
Local Notation sink_steps := (sink_steps json_string json_float busy_limit).

Lemma refuse_append_ok line b t now what primary why : call_ok line b (refuse_append t now what primary why).
Proof. split; [done|]. intros []; simpl; repeat split; intros; done. Qed.

Lemma append_inner_ok t bound : call_ok (line_bytes t) false (append_inner busy_limit t bound).
Proof.
  split; [done|]. intros now. split; [done|]. intros [|]; [apply refuse_append_ok|].
  split; [done|]. intros [a| |]; [|apply refuse_append_ok..].
  split; [done|]. intros []. split; [done|].
  intros [[[]|e]|e|]; destruct bound; cbn; repeat split; intros; done.
Qed.

Record calls_inv (w : SinkWorld) (d : list nat) : Prop := {
  ci_worker : forall i wk, sw_workers w i = Some wk ->
    exists c, sw_calls w i = Some c /\ aw_line wk = line_bytes (cl_record c);
  ci_call : forall i c, sw_calls w i = Some c ->
    match cl_run c with
    | CRunning p => exists b, call_ok (line_bytes (cl_record c)) b p /\ (b = true -> i ∈ d)
    | CReturned r => r = Ok tt -> i ∈ d
    | CDropped => True
    end }.

Lemma with_call_lookup w i c j c' : sw_calls (with_call w i c) j = Some c' ->
  (j = i /\ c' = c) \/ (j <> i /\ sw_calls w j = Some c').
Proof.
  cbn. destruct (decide (j = i)) as [->|Hn].
  - rewrite fn_lookup_insert. intros [= <-]. by left.
  - rewrite fn_lookup_insert_ne by done. by right.
Qed.

(** The run of one call changes; its record does not. *)
Lemma calls_with_call w d i c :
  calls_inv w d -> (forall c0, sw_calls w i = Some c0 -> cl_record c0 = cl_record c) ->
  match cl_run c with
  | CRunning p => exists b, call_ok (line_bytes (cl_record c)) b p /\ (b = true -> i ∈ d)
  | CReturned r => r = Ok tt -> i ∈ d
  | CDropped => True
  end -> calls_inv (with_call w i c) d.
Proof.
  intros [H1 H2] Hrec Hc. constructor.
  - intros j wk Hj. destruct (H1 j wk Hj) as (c0 & Hc0 & E). cbn. destruct (decide (j = i)) as [->|Hn].
    + exists c. rewrite fn_lookup_insert. split; [done|]. by rewrite <-(Hrec c0).
    + exists c0. by rewrite fn_lookup_insert_ne.
  - intros j c' [[-> ->]|[Hn Hj]]%with_call_lookup; [done|]. by apply H2.
Qed.

(** A worker changes its run, or starts with its call's line; what is durable grows. *)
Lemma calls_with_worker w w1 d d' i wk' :
  calls_inv w d -> sw_workers w1 = sw_workers w -> sw_calls w1 = sw_calls w -> d `prefix_of` d' ->
  (exists c, sw_calls w i = Some c /\ aw_line wk' = line_bytes (cl_record c)) ->
  calls_inv (with_worker w1 i wk') d'.
Proof.
  intros [H1 H2] Hw Hc [l ->] Hi. assert (Hsub : forall j, j ∈ d -> j ∈ d ++ l) by (intros j Hj; apply elem_of_app; by left).
  constructor.
  - intros j wk [[-> ->]|[Hn Hj]]%with_worker_lookup; cbn; rewrite Hc; [done|]. apply H1. by rewrite <-Hw.
  - intros j c Hj. cbn in Hj. rewrite Hc in Hj. specialize (H2 j c Hj). destruct (cl_run c); [|auto..].
    destruct H2 as (b & Hb & Hd). exists b. auto.
Qed.

Lemma calls_same w w' d : sw_workers w' = sw_workers w -> sw_calls w' = sw_calls w -> calls_inv w d -> calls_inv w' d.
Proof. intros Hw Hc [H1 H2]. constructor; rewrite ?Hw, ?Hc; done. Qed.

(** ** The invariant is kept *)

Definition sink_inv (w : SinkWorld) (d : list nat) (t : bytes) : Prop := trail_inv old w d t /\ calls_inv w d.

Lemma joined_durable w d t i wk : trail_inv old w d t -> sw_workers w i = Some wk ->
  aw_run wk = WEnded (Some (Ok tt)) -> i ∈ d.
Proof. intros Hinv Hi Hr. pose proof (ti_workers _ _ _ _ Hinv i wk Hi) as H. unfold worker_ok in H. rewrite Hr in H. auto. Qed.

Lemma call_step_inv w d t i c p p' w' :
  sink_inv w d t -> sw_calls w i = Some c -> cl_run c = CRunning p -> prog_step (call_acts i) p w p' w' ->
  sink_inv (with_call w' i (mkCall (cl_record c) (cl_bound c) (CRunning p'))) d t.
Proof.
  intros [Ht Hc] Hi Hrun Hstep. pose proof (ci_call _ _ Hc i c Hi) as Hok. rewrite Hrun in Hok.
  destruct Hok as (b & Hok & Hb). destruct p as [r|X e k]; [done|]. cbn in Hstep.
  destruct Hstep as (x & Hact & ->). cbn in Hok. destruct Hok as [Hsp Hok]. specialize (Hok x).
  assert (Hgo : trail_inv old w' d t -> calls_inv w' d -> sw_calls w' = sw_calls w ->
                (joined_ok e x = true -> i ∈ d) ->
                sink_inv (with_call w' i (mkCall (cl_record c) (cl_bound c) (CRunning (k x)))) d t).
  { intros Ht' Hc' Ecalls Hj. split; [by apply (inv_same_trail old w'); [repeat split|]|].
    apply calls_with_call; [done|rewrite Ecalls; intros c0 Hc0; cbn; congruence|]. cbn. eexists. split; [exact Hok|].
    intros [H|H]%orb_true_iff; auto. }
  destruct e; cbn in Hact, Hgo; [destruct Hact as [_ ->]|destruct Hact as [_ ->]|destruct Hact as [_ ->]|subst w'
    |destruct Hact as [_ ->]|subst w'| |].
  1-6: (apply Hgo; [by apply (inv_same_trail old w); [repeat split|]|by apply (calls_same w)|done|done]).
  - destruct Hact as [Hnone ->]. cbn in Hsp. subst line. apply Hgo; [by apply inv_spawn| |done|done].
    apply (calls_with_worker w w d d); auto. by exists c.
  - destruct Hact as [-> Hact]. apply Hgo; auto. intros Hj. destruct x as [[[]|]| |]; try done.
    destruct Hact as (wk & Hwk & Hr). by apply (joined_durable w d t i wk).
Qed.

Lemma work_acts_same i (p p' : prog work_effect written) w w' :
  prog_step (work_acts i) p w p' w' -> sw_workers w' = sw_workers w /\ sw_calls w' = sw_calls w.
Proof.
  destruct p as [r|X e k]; [done|]. intros (x & Hact & _). destruct e; cbn in Hact; try by (subst w' || destruct Hact as [_ ->]).
  - destruct Hact as (_ & _ & ->). by destruct (sw_poisoned w).
  - by destruct Hact as (? & ? & ? & ->).
  - by destruct Hact as (? & ? & ? & ->).
Qed.

Lemma residual_ret line s r : residual line s = Ret r -> s = SEnd r.
Proof. destruct s; cbn; intros H; try discriminate H. by injection H as ->. Qed.

Lemma ended_inv w d t i wk r : trail_inv old w d t -> sw_workers w i = Some wk -> aw_run wk = WRunning (Ret r) ->
  trail_inv old (with_worker (released w wk) i (mkAppendWorker (aw_line wk) (aw_attempt wk) (WEnded (Some r)))) d t.
Proof.
  intros Hinv Hi Hr. pose proof (ti_workers _ _ _ _ Hinv i wk Hi) as Hok. unfold worker_ok in Hok. rewrite Hr in Hok.
  case_bool_decide as Hh.
  { destruct Hok as (s & Hs & Hok). symmetry in Hs. by apply residual_ret in Hs as ->. }
  apply (inv_bystander old (released w wk) d t i wk); try done.
  - by apply (inv_same_trail old w); [repeat split|].
  - unfold worker_ok. cbn. destruct Hok as [[E _]|(r' & E & Hd)]; [done|]. injection E as <-. intros [= ->]. auto.
Qed.

Lemma panic_inv w d t i wk p : trail_inv old w d t -> sw_workers w i = Some wk -> aw_run wk = WRunning p ->
  trail_inv old (with_worker (released (unwound w i) wk) i (mkAppendWorker (aw_line wk) (aw_attempt wk) (WEnded None))) d t.
Proof.
  intros Hinv Hi Hr. unfold unwound. case_bool_decide as Hh.
  - apply (inv_update old w _ d t d t i wk); auto; try apply Hinv; done.
  - apply (inv_bystander old (released w wk) d t i wk); try done. by apply (inv_same_trail old w); [repeat split|].
Qed.

Lemma sink_step_inv w w' d t : sink_inv w d t -> sink_step w w' -> exists d' t', sink_inv w' d' t' /\ d `prefix_of` d'.
Proof.
  intros [Ht Hc] Hstep. destruct Hstep as [w now _|w i tr bound Hi|w i c p p' w' Hi Hr Hs|w i c r Hi Hr|w i c p Hi Hr
    |w i wk p p' w' Hi Hr Hs|w i wk r Hi Hr|w i wk p Hi Hr].
  - exists d, t. split; [|done]. split; [by apply (inv_same_trail old w); [repeat split|]|by apply (calls_same w)].
  - exists d, t. split; [|done]. split; [by apply (inv_same_trail old w); [repeat split|]|].
    apply calls_with_call; [done|congruence|]. exists false. split; [apply append_inner_ok|done].
  - exists d, t. split; [|done]. by eapply call_step_inv.
  - exists d, t. split; [|done]. split; [by apply (inv_same_trail old w); [repeat split|]|].
    apply calls_with_call; [done|intros c0 Hc0; cbn; congruence|]. cbn.
    pose proof (ci_call _ _ Hc i c Hi) as Hok. rewrite Hr in Hok. destruct Hok as (b & Hok & Hb). auto.
  - exists d, t. split; [|done]. split; [by apply (inv_same_trail old w); [repeat split|]|].
    apply calls_with_call; [done|intros c0 Hc0; cbn; congruence|done].
  - destruct (work_acts_same _ _ _ _ _ Hs) as [E1 E2].
    destruct (work_step_inv old w d t i wk p p' w' Ht Hi Hr Hs) as (d' & t' & Ht' & Hd). exists d', t'.
    split; [|done]. split; [done|]. apply (calls_with_worker w w' d); auto. cbn. by apply (ci_worker _ _ Hc).
  - exists d, t. split; [|done]. split; [by apply ended_inv|]. apply (calls_with_worker w _ d); auto.
    cbn. by apply (ci_worker _ _ Hc).
  - exists d, t. split; [|done]. split; [by eapply panic_inv|].
    apply (calls_with_worker w _ d); auto; try (cbn; unfold unwound; by case_bool_decide).
    cbn. by apply (ci_worker _ _ Hc).
Qed.

Lemma sink_steps_inv w w' d t : sink_inv w d t -> sink_steps w w' -> exists d' t', sink_inv w' d' t' /\ d `prefix_of` d'.
Proof.
  intros Hinv Hs. induction Hs as [|w1 w2 _ (d1 & t1 & H1 & Hp) Hstep]; [by exists d, t|].
  destruct (sink_step_inv w1 w2 d1 t1 H1 Hstep) as (d2 & t2 & H2 & Hp2). exists d2, t2. split; [done|by etrans].
Qed.

Lemma sink_opened_inv now : sink_inv (sink_opened old now) [] [].
Proof.
  split; constructor; cbn; try done; rewrite ?app_nil_r.
  - done.
  - by split.
  - constructor.
  - intros i Hi. by apply elem_of_nil in Hi.
  - by left.
Qed.

(** ** A sink that failed writes nothing more *)

(** The writers that still come by: one that has the mutex finds the mark. *)
Definition passing (w : SinkWorld) : Prop :=
  sw_holder w = None \/
  exists i wk s, sw_holder w = Some i /\ sw_workers w i = Some wk /\ aw_run wk = WRunning (residual (aw_line wk) s) /\
    (s = SLocked \/ exists e, s = SUnlock (Err e)).
Definition frozen (file : bytes) (w : SinkWorld) : Prop :=
  sw_file w = file /\ ((sw_poisoned w = true /\ sw_holder w = None) \/ (sw_failed w = true /\ passing w)).

Lemma frozen_same file w w' : same_trail w w' -> frozen file w -> frozen file w'.
Proof.
  intros (Hf & _ & Hx & Hp & Hh & Hw). unfold frozen, passing. by rewrite Hf, Hx, Hp, Hh, Hw.
Qed.

Lemma frozen_bystander file w i wk : sw_holder w <> Some i -> frozen file w -> frozen file (with_worker w i wk).
Proof.
  intros Hh [Hf [Hp|[Hx [Hn|(j & wk0 & s & Hj & Hwk & Hr & Hs)]]]]; (split; [done|]); [by left|right; split; [done|by left]|].
  right. split; [done|]. right. exists j, wk0, s. cbn. rewrite fn_lookup_insert_ne by congruence. by split_and!.
Qed.

Lemma frozen_work file w d t i wk p p' w1 :
  trail_inv old w d t -> frozen file w -> sw_workers w i = Some wk -> aw_run wk = WRunning p ->
  prog_step (work_acts i) p w p' w1 ->
  frozen file (with_worker w1 i (mkAppendWorker (aw_line wk) (aw_attempt wk) (WRunning p'))).
Proof.
  intros Hinv Hfr Hi Hrun Hstep. pose proof (ti_workers _ _ _ _ Hinv i wk Hi) as Hok. unfold worker_ok in Hok.
  rewrite Hrun in Hok. case_bool_decide as Hh.
  - destruct Hfr as [Hf [[_ E]|[Hx [E|(j & wk0 & s & Hj & Hwk & Hr & Hs)]]]]; [congruence..|].
    rewrite Hj in Hh. injection Hh as ->. rewrite Hi in Hwk. injection Hwk as <-.
    rewrite Hrun in Hr. injection Hr as ->. destruct Hs as [->|[e ->]]; cbn in Hstep.
    + destruct Hstep as (x & (-> & ->) & ->). rewrite Hx. split; [done|]. right. split; [done|]. right.
      set (s := SUnlock (Err (WritePrimary "prior audit append failed; primary sink requires recovery"))).
      exists i, (at_stage wk s), s. cbn. rewrite fn_lookup_insert. split_and!; [done..|]. right. by eexists.
    + destruct Hstep as (x & -> & ->). split; [done|]. right. split; [done|by left].
  - destruct Hok as [[-> Hni]|(r & -> & _)]; [|done]. cbn in Hstep.
    destruct Hstep as (ok & (Hnone & -> & ->) & ->). destruct (sw_poisoned w) eqn:Hp; cbn.
    + by apply frozen_bystander.
    + destruct Hfr as [Hf [[E _]|[Hx _]]]; [congruence|]. split; [done|]. right. split; [done|]. right.
      exists i, (at_stage wk SLocked), SLocked. cbn. rewrite fn_lookup_insert. split_and!; [done..|by left].
Qed.

(** A caller leaves the trail alone, or starts its worker. *)
Lemma call_acts_trail i (p p' : prog call_effect written) w w' :
  prog_step (call_acts i) p w p' w' ->
  same_trail w w' \/ (sw_workers w i = None /\ exists wk, w' = with_worker w i wk).
Proof.
  destruct p as [r|X e k]; [done|]. intros (x & Hact & _).
  destruct e; cbn in Hact; try (left; subst w'; by repeat split);
    try (left; destruct Hact as [_ ->]; by repeat split).
  - right. destruct Hact as [Hn ->]. split; [done|by eexists].
  - left. destruct Hact as [-> _]. apply same_trail_refl.
Qed.

Lemma frozen_step file w w' d t : sink_inv w d t -> frozen file w -> sink_step w w' -> frozen file w'.
Proof.
  intros [Ht Hc] Hfr Hstep. destruct Hstep as [w now _|w i tr bound Hi|w i c p p' w' Hi Hr Hs|w i c r Hi Hr|w i c p Hi Hr
    |w i wk p p' w' Hi Hr Hs|w i wk r Hi Hr|w i wk p Hi Hr].
  - by apply (frozen_same file w); [repeat split|].
  - by apply (frozen_same file w); [repeat split|].
  - apply (frozen_same file w'); [repeat split|].
    destruct (call_acts_trail _ _ _ _ _ Hs) as [Hsame|(Hnone & wk & ->)]; [by apply (frozen_same file w)|].
    apply frozen_bystander; [|done]. intros E'. destruct (ti_holder _ _ _ _ Ht i E') as (? & ? & ? & _). congruence.
  - by apply (frozen_same file w); [repeat split|].
  - by apply (frozen_same file w); [repeat split|].
  - by eapply frozen_work.
  - apply frozen_bystander; [|by apply (frozen_same file w); [repeat split|]]. cbn. intros Hh.
    pose proof (ti_workers _ _ _ _ Ht i wk Hi) as Hok. unfold worker_ok in Hok.
    rewrite Hr, bool_decide_eq_true_2 in Hok by done. destruct Hok as (s & Hs & Hok). symmetry in Hs.
    by apply residual_ret in Hs as ->.
  - unfold unwound. case_bool_decide as Hh.
    + destruct Hfr as [Hf _]. split; [done|]. by left.
    + apply frozen_bystander; [done|]. by apply (frozen_same file w); [repeat split|].
Qed.

Lemma frozen_steps file w w' d t : sink_inv w d t -> frozen file w -> sink_steps w w' -> frozen file w'.
Proof.
  intros Hinv Hfr Hs. induction Hs as [|w1 w2 Hs IH Hstep]; [done|].
  destruct (sink_steps_inv w w1 d t Hinv Hs) as (d1 & t1 & H1 & _). by eapply frozen_step.
Qed.
End Sink.
