(* ===== verification/Effects.v ===== *)
(** * The effects of serving a connection

    What the kernel's handlers do to the world, as the constructors of [effect]; the
    handlers are programs over it ([Programs.prog]). A bounded call ([timeout]) answers with how it ended. [Env]
    is what one connection is served with. *)
From stdpp Require Import base list strings gmap.
From Stdlib Require Import ZArith Lia Ascii.
From S2P Require Import Prelude Programs RustStr RustSlice RustNet Seam Config PathGlob AuthzPolicy Decide.
From S2P Require Import Graph GraphFormat Wire Operands Providers Handler Egress Breaker Session.
From S2P Require Import Workers AuditRecords.
Open Scope nat_scope.

Record MutationGrant := mkGrant {
  mg_id : MutationId; mg_scope : MutationScope; mg_limits : MutationLimits; mg_label : string }.

Section Effects.
Context {ConfigView StatusView SubjectsView BaselineView ContainmentView : Type}.

Inductive Payload :=
| PPong
| PWhoami (peer_plane_uri_san : option string) (peer_uid : Z)
| PConfigView (v : ConfigView)
| PStatus (v : StatusView)
| PSubjectList (v : SubjectsView)
| PPromptReply (r : PromptReply)
| PBaseline (v : BaselineView)
| PContainment (v : ContainmentView)
| PMutationAttempt (g : MutationGrant).

Inductive Response := ROk (p : Payload) | RErr (code : ProtoErrCode) (message : string).

Inductive FrameRead := ReadElapsed | ReadFailed (why : string) | ReadOk (class : FrameClass) (body : bytes).

(** A bounded blocking call: it returned, its task was lost, or its bound elapsed. *)
Inductive Joined (A : Type) := JOk (a : A) | JLost | JElapsed.
Arguments JOk {A} a.
Arguments JLost {A}.
Arguments JElapsed {A}.

Inductive AcceptAnswer :=
| AcceptView (view : BaselineView) (corrective : option string)
| AcceptUnavailable (reply why : string).

Record Corrective := mkCorrective { co_result : string; co_posture : string; co_reason : string }.
Inductive ContainAnswer :=
| ContainView (view : ContainmentView) (corrective : option Corrective)
| ContainUnavailable (reply why : string)
| ContainDenied (why : string).

(** The two breakers a request meets. *)
Inductive Guard := AuthzGuard | EgressGuard.

Inductive effect : Type -> Type :=
| NextSeq : effect Z
| Emit (rec : AuditRecord) : effect bool
| ReadFrame (caps : FrameCaps) : effect FrameRead
| SenderMismatched : effect bool
| IsExpired : effect bool
| GatherFacts (uid : Z) : effect Facts
| LiveAdmission : effect (ConfigView * option ProviderAuthority * Z)
| BeginAttempt (g : Guard) : effect BreakerAdmission
| RecordSuccess (g : Guard) : effect unit
| RecordTimeout (g : Guard) : effect BreakerTransition
| LogRefusal (g : Guard) : effect bool
| DecideCited (req : Request) : effect (Joined (Decided * Z))
| EnumerateSubjects : effect (Joined (option (list SubjectBinding)))
| OpsShow : effect (result BaselineView string)
| OpsAccept (hash : string) : effect AcceptAnswer
| OpsContain (target : ContainTarget) (reason : string) (permitted : Request) : effect ContainAnswer
| OpsRelease (target : ContainTarget) (permitted : Request) : effect ContainAnswer
(** The mutation path: the requester's home, a worker slot, the delegated
    descriptor and what its verification reports ([None]: the path is not
    UTF-8), the batch decision, whether the worker returned in its bound, the
    grant, the client's reports and their acknowledgments. *)
| AdmittedHome (uid : Z) (dir : option string) : effect (result string HomeUnavailable)
| TryAdmit (uid : Z) : effect (option Busy)
| TakeFd : effect bool
| VerifyObject (home : string) (uid : Z) : effect (result (option string) string)
| VerifyDirectory (home : string) (uid : Z) : effect (result (option string) string)
| DecideCitedAll (reqs : list Request) : effect (outcome (list Decided))
| WorkerJoined : effect bool
| WriteGrant (g : MutationGrant) : effect bool
| ReadReport (max : Z) : effect (option MutationReport)
| WriteAck (ack : MutationAck) : effect bool
| EgressReady : effect bool
| EgressSend (intent : AuditRecord) (req : EgressRequest)
  : effect (Joined (result PromptReply EgressFailure))
| WriteFrame (class : FrameClass) (r : Response) : effect unit
| EndSession (e : Ending) : effect unit
| CloseStream : effect unit.

(** The connection's session, as the accept loop opened it. *)
Record SessionFacts_ := mkSession {
  sf_uid : Z; sf_user : option string; sf_session_id : Z; sf_lane : Lane; sf_account : AccountFact }.

(** What a connection is served with: its session and peer, the frame limits,
    the views computed elsewhere, the codecs, Unicode's tables and the digest. *)
Record Env := mkEnv {
  en_session : SessionFacts_; en_peer_uri : option string; en_prompt_max_bytes : Z;
  en_attempt_request_max : Z; en_status_view : StatusView;
  en_subject_views : list SubjectBinding -> SubjectsView;
  en_encode_response : Response -> option Z;
  en_encode_response_zeroizing : Response -> Z -> option Z;
  en_from_reader : bytes -> result WireRequest string;
  en_read_timeout_ms : Z; en_attempt_response_max : Z; en_policy_name : string;
  en_encode_ack : MutationAck -> bool; en_nfc : string -> string; en_gc : Z -> GeneralCategory;
  en_sha256_hex32 : string -> string }.

End Effects.

Arguments JOk {A} a.
Arguments JLost {A}.
Arguments JElapsed {A}.
