(* ===== verification/Containment.v ===== *)
(** * Containment requests: the pure part of [crates/maknae-kernel/src/containment.rs]

    What a live edit may refuse and how a refusal is answered and recorded, the checks
    an operator's containment runs in the turn, and how a release finds its claimants;
    with the reply of [crates/maknae-proto/src/wire.rs]. *)
From stdpp Require Import base list strings gmap.
From Stdlib Require Import ZArith Lia Ascii.
From S2P Require Import Prelude RustStr RustSlice Seam Decide Graph GraphFormat Identity Bindings.
From S2P Require Import BindingsSync Wire Operands Texts SyncText Handler.
Open Scope nat_scope.

(** ** The reply ([wire.rs]) *)

Inductive ContainmentOutcome :=
| OContained | OReleased | OAlreadyContained | ONotContained | OLastReleaser
| OSelfContainWithoutRelease | OBusy | OStopping | ONoExplicitBindings | OUnknownAccount
| OLookupUnavailable.

#[export] Instance ContainmentOutcome_eq_dec : EqDecision ContainmentOutcome.
Proof. solve_decision. Defined.

Definition outcome_code (o : ContainmentOutcome) : string :=
  match o with
  | OContained => "contained"
  | OReleased => "released"
  | OAlreadyContained => "already-contained"
  | ONotContained => "not-contained"
  | OLastReleaser => "last-releaser"
  | OSelfContainWithoutRelease => "self-contain-without-release"
  | OBusy => "busy"
  | OStopping => "stopping"
  | ONoExplicitBindings => "no-explicit-bindings"
  | OUnknownAccount => "unknown-account"
  | OLookupUnavailable => "lookup-unavailable"
  end.

Definition outcome_text (o : ContainmentOutcome) : string :=
  match o with
  | OContained => "subject is contained"
  | OReleased => "subject is released"
  | OAlreadyContained => "subject is already contained"
  | ONotContained => "subject is not contained"
  | OLastReleaser => "refused: this would leave no subject able to release"
  | OSelfContainWithoutRelease => "refused: you may contain yourself only if you hold admin.release"
  | OBusy => "refused: the daemon is busy, try again"
  | OStopping => "refused: the daemon is stopping"
  | ONoExplicitBindings => "refused: this host has no explicit bindings; re-enroll first"
  | OUnknownAccount => "refused: no such account"
  | OLookupUnavailable => "refused: the account lookup is unavailable"
  end.

Definition is_success (o : ContainmentOutcome) : bool :=
  match o with OContained | OReleased | OAlreadyContained | ONotContained => true | _ => false end.

Record ContainmentView := mkContainmentView {
  cv_outcome : ContainmentOutcome; cv_target_uid : option Z; cv_revision : option Z }.

(** ** Refusals *)

Inductive LiveRefusal :=
| RBusy | RStopping | RNoExplicitBindings | RLastReleaser | RSelfContainWithoutRelease
| RAlreadyContained | RNotContained | RLookupUnavailable
| RUnauthorized (why : string)
| RFailed (why : string).

Inductive Kind := KContain | KRelease | KKernelContain.

Inductive LiveCheck :=
| CheckNone
| CheckContain (target requester : Z)
| CheckKernelContain (target : Z).

Inductive LiveOp :=
| OpEdit (e : LiveEdit)
| OpRelease (uid : Z) (named : option string).

(** [outcome]: the reply's code, or an internal failure's text. *)
Definition refusal_outcome (r : LiveRefusal) : result ContainmentOutcome string :=
  match r with
  | RBusy => Ok OBusy
  | RStopping => Ok OStopping
  | RNoExplicitBindings => Ok ONoExplicitBindings
  | RLastReleaser => Ok OLastReleaser
  | RSelfContainWithoutRelease => Ok OSelfContainWithoutRelease
  | RAlreadyContained => Ok OAlreadyContained
  | RNotContained => Ok ONotContained
  | RLookupUnavailable => Ok OLookupUnavailable
  | RFailed why | RUnauthorized why => Err why
  end.

Definition record_class (o : ContainmentOutcome) : string * string :=
  match o with
  | OLastReleaser | OSelfContainWithoutRelease | ONoExplicitBindings | OUnknownAccount =>
      ("deny", "refused")
  | OBusy | OStopping | OLookupUnavailable => ("deny", "unavailable")
  | OAlreadyContained | ONotContained => ("permit", "unchanged")
  | OContained | OReleased => ("permit", "authorized")
  end.

Section Corrective.
Context (grapheme_extended printable : Z -> bool).

Definition corrective (verb : Kind) (o : ContainmentOutcome) (uid : option Z) (detail : string)
    (reason : option string) : string :=
  let word := match verb with
              | KContain => "contain" | KRelease => "release" | KKernelContain => "kernel containment"
              end in
  let subject := from_option (fun u => "uid " +:+ dec u) "the subject" uid in
  let text :=
    match o with
    | OLastReleaser =>
        "containing " +:+ subject +:+ " would leave no uncontained subject holding admin.release"
    | OSelfContainWithoutRelease => subject +:+ " does not hold admin.release and cannot contain itself"
    | OAlreadyContained => subject +:+ " is already contained"
    | ONotContained => subject +:+ " is not contained"
    | ONoExplicitBindings =>
        "bindings.yaml has no bindings: key; a live identity edit needs explicit bindings"
    | OBusy | OStopping | OLookupUnavailable | OUnknownAccount | OContained | OReleased =>
        if is_empty detail then outcome_text o else detail
    end in
  let '(result_, posture) := record_class o in
  (if String.eqb result_ "deny" then word +:+ " refused: " +:+ outcome_code o +:+ ": " +:+ text
   else word +:+ " " +:+ posture +:+ ": " +:+ text)
  +:+ match reason with
      | Some r => "; reason " +:+ quoted grapheme_extended printable r
      | None => ""
      end.
End Corrective.

(** ** The stored layer *)

Definition is_contained (layer : IdentityLayer) (uid : Z) : bool :=
  existsb (fun s => Z.eqb (s_uid s) uid && String.eqb (s_role s) ADVERSARY) (l_subjects layer).

Definition nothing_released (layer : IdentityLayer) (uid : Z) : LiveRefusal :=
  if is_contained layer uid then RFailed "the release found no claimant for a contained uid"
  else RNotContained.

Definition release_target (uid : Z) (named : option string) (claims : gmap string Z) : Z :=
  default uid (let! n := named in claims !! n).

Definition release_names (uid : Z) (named : option string) (claims : gmap string Z) : gset string :=
  dom (filter (fun kv : string * Z => snd kv = uid) claims) ∪ from_option (fun n => {[ n ]}) ∅ named.

(** The first name bound in [live] that is not [answered], other than the edit's own. *)
Definition unanswered (live : Section_) (edit : LiveEdit) (answered : string -> bool)
  : option string :=
  let own := match edit with
             | Contain (EName n) | Bind n _ => Some n
             | _ => None
             end in
  find_map (fun e =>
    match e with
    | EName n => if negb (bool_decide (Some n = own)) && negb (answered n) then Some n else None
    | EUid _ => None
    end) (section_entries live).

Definition binds_target_by_uid (check : LiveCheck) (edit : LiveEdit) : bool :=
  match check with
  | CheckNone => true
  | CheckContain target _ | CheckKernelContain target =>
      match edit with Contain (EUid u) => Z.eqb u target | _ => false end
  end.

(** ** The probes *)

Record Probed := mkProbed { pr_self_holds : option bool; pr_releasers : option (list bool) }.

Inductive ProbeError := PBusy | PFailed (why : string).

Definition releaser_uids (entries : option (list ListedSubject)) : result (list Z) ProbeError :=
  match entries with
  | Some l => Ok (omap ls_uid l)
  | None => Err (PFailed "the candidate lists no subjects to probe")
  end.

Definition check_contain (target : Z) (requester : option Z) (probed : result Probed ProbeError)
  : result unit LiveRefusal :=
  match probed with
  | Err PBusy => Err RBusy
  | Err (PFailed why) => Err (RFailed why)
  | Ok p =>
      let? _ :=
        if bool_decide (requester = Some target) then
          match pr_self_holds p with
          | Some true => Ok tt
          | Some false => Err RSelfContainWithoutRelease
          | None => Err (RFailed "the self-contain probe gave no answer")
          end
        else Ok tt in
      match pr_releasers p with
      | Some v => if existsb (fun holds => holds) v then Ok tt else Err RLastReleaser
      | None => Err (RFailed "the releaser probe gave no answer")
      end
  end.

Definition check_for (kind : Kind) (target requester : Z) : LiveCheck :=
  match kind with
  | KRelease => CheckNone
  | KContain => CheckContain target requester
  | KKernelContain => CheckKernelContain target
  end.

Definition release_op (uid : Z) (named : option string) : LiveOp := OpRelease uid named.

Definition release_probe : Verb := AdminRelease (TargetUid 0).
