(* ===== verification/Baseline.v ===== *)
(** * The accepted baseline: [crates/maknae-kernel/src/baseline.rs]

    Which baseline a boot runs, the change set pending against it and its hash, when a
    change applies live, and what an accept decides. The sections are canonical JSON,
    read by [SyncText]'s strict reader. The views of a pending set's changes
    ([show_view]) go through the document rewriter, and the rule on moving the trail
    ([move_of]) through [std::path]; neither is modelled. *)
From stdpp Require Import base list strings gmap.
From Stdlib Require Import ZArith Lia Ascii.
From S2P Require Import Prelude RustStr RustSlice Json Config Graph GraphFormat Identity Texts SyncText.
Open Scope nat_scope.

(** [BaselineSections]: each section's canonical JSON. *)
Definition BaselineSections : Type := gmap string string.

Definition ROOT_FILE : string := "root-file".
Definition FOLLOWED_AT_BOOT : list string := ["audit"; "deployment"; "vault"].
Definition SEEDED_EVENT : string :=
  "baseline seeded from maknae.yaml and config.d (no accepted baseline yet)".
Definition SHORT_HEX : nat := 12.

(** [hash.get(..SHORT_HEX).unwrap_or(hash)]: the cut is at a character's edge. *)
Definition short (hash : string) : string :=
  if (SHORT_HEX <=? String.length hash)
     && match String.get SHORT_HEX hash with Some c => negb (is_cont c) | None => true end
  then take_bytes SHORT_HEX hash else hash.

Inductive Apply := ApplyLive | ApplyRestart.

Inductive PendingState :=
| PValid (proposed : BaselineSections) (apply : Apply) (sections : list string)
| PInvalid (cause : string) (proposed : option BaselineSections).

Record InvalidFile := mkInvalidFile { if_cause : string; if_proposed : option BaselineSections }.

Record PendingSet := mkPending { ps_source : string; ps_hash : string; ps_state : PendingState }.

Record Start := mkStart {
  st_run : BaselineSections; st_events : list string; st_pending : option PendingSet }.

Inductive AcceptRefusal := ANothingPending | AStale | AInvalid | AMalformed.

Record AcceptPlan := mkAcceptPlan {
  ap_proposed : BaselineSections; ap_apply : Apply; ap_sections : list string }.

Record BaselineState := mkBaselineState { bs_accepted : BaselineSections; bs_pending : option PendingSet }.

Definition sections_value (s : BaselineSections) : Value :=
  VMap (map (fun kv => (fst kv, VStr (snd kv))) (btree_iter s)).

Definition changed_sections (a b : BaselineSections) : list string :=
  List.filter (fun n => negb (bool_decide (a !! n = b !! n)))
    (btree_set_iter (dom a ∪ dom b)).

(** The key at [path] removed, with an intermediate map that this empties; whether a key
    was removed. *)
Fixpoint remove_path (v : Value) (path : list string) : Value * bool :=
  match v, path with
  | VMap entries, key :: rest =>
      match position (fun kv => String.eqb (fst kv) key) entries with
      | None => (v, false)
      | Some at_ =>
          match rest with
          | [] => (VMap (delete at_ entries), true)
          | _ =>
              match entries !! at_ with
              | None => (v, false)
              | Some (k, child) =>
                  let '(child', removed) := remove_path child rest in
                  if removed && match child' with VMap [] => true | _ => false end
                  then (VMap (delete at_ entries), removed)
                  else (VMap (<[at_ := (k, child')]> entries), removed)
              end
          end
      end
  | _, _ => (v, false)
  end.

Section Baseline.
Context (sha256 : bytes -> digest).
Context (f64_to_string : Z -> string) (from_str : string -> result Json string).

Local Notation canonical := (canonical_json f64_to_string).
Local Notation read := (value_from_canonical_json f64_to_string from_str).

Definition reseeded_event (replaced : digest) : string :=
  "baseline replaced by an authorized reseed from maknae.yaml and config.d; the accepted baseline sha256:"
    +:+ short (hex replaced) +:+ " is set aside".

Definition accepted_digest (s : BaselineSections) : digest :=
  sha256 (str_bytes (canonical (sections_value s))).

Definition change_set_hash (accepted : BaselineSections) (state : PendingState) : string :=
  let doc := [("accepted", VStr (hex (accepted_digest accepted))); ("source", VStr ROOT_FILE)] in
  let '(doc, proposed) :=
    match state with
    | PValid proposed _ _ => (doc, Some proposed)
    | PInvalid cause proposed => (doc ++ [("invalid", VStr cause)], proposed)
    end in
  let doc := match proposed with
             | Some p => doc ++ [("proposed", sections_value p)]
             | None => doc
             end in
  hex (sha256 (str_bytes (canonical (VMap doc)))).

Definition non_empty_seq (v : option string) : bool :=
  match read <$> v with Some (Ok (VSeq (_ :: _))) => true | _ => false end.

Definition equal_without (old new : option string) (path : list string) : bool :=
  let strip := fun s =>
    let! s := s in
    match read s with
    | Ok v => Some (canonical (fst (remove_path v path)))
    | Err _ => None
    end in
  match strip old, strip new with Some o, Some n => String.eqb o n | _, _ => false end.

Definition apply_of (a b : BaselineSections) : Apply :=
  let live := fun name =>
    let old := a !! name in let new := b !! name in
    if String.eqb name "principal" then true
    else if String.eqb name "providers" then non_empty_seq old && non_empty_seq new
    else if String.eqb name "audit" then equal_without old new ["readers"]
    else false in
  if forallb live (changed_sections a b) then ApplyLive else ApplyRestart.

Definition pending (accepted : BaselineSections) (file : result BaselineSections InvalidFile)
  : option PendingSet :=
  let set := fun state => Some (mkPending ROOT_FILE (change_set_hash accepted state) state) in
  match file with
  | Ok f =>
      if bool_decide (f = accepted) then None
      else set (PValid f (apply_of accepted f) (changed_sections accepted f))
  | Err invalid => set (PInvalid (if_cause invalid) (if_proposed invalid))
  end.

(** The file's [audit] section with the accepted [readers]. *)
Definition audit_followed (file accepted : option string) : option string :=
  let readers :=
    let! a := accepted in
    match read a with
    | Ok (VMap entries) => List.find (fun kv => String.eqb (fst kv) "readers") entries
    | _ => None
    end in
  let follow := fun audit =>
    match audit with
    | VMap entries =>
        let entries := List.filter (fun kv => negb (String.eqb (fst kv) "readers")) entries in
        Some (canonical (VMap (entries ++ option_list readers)))
    | _ => accepted
    end in
  match read <$> file with
  | Some (Ok v) => follow v
  | Some (Err _) => accepted
  | None => if is_none readers then None else follow (VMap [])
  end.

Definition follow_section (f acc mix : BaselineSections) (name : string) : BaselineSections :=
  let followed := if String.eqb name "audit" then audit_followed (f !! name) (acc !! name)
                  else f !! name in
  match followed with Some v => <[name := v]> mix | None => delete name mix end.

Definition at_boot (accepted : option BaselineSections) (file : result BaselineSections InvalidFile)
    (mix_valid : BaselineSections -> result unit string) : result Start string :=
  match accepted, file with
  | None, Ok f => Ok (mkStart f [SEEDED_EVENT] None)
  | None, Err invalid => Err (if_cause invalid)
  | Some acc, Err invalid => Ok (mkStart acc [] (pending acc (Err invalid)))
  | Some acc, Ok f =>
      let mix := fold_left (follow_section f acc) FOLLOWED_AT_BOOT acc in
      match mix_valid mix with
      | Err cause =>
          let cause :=
            (if bool_decide (mix = acc) then "the accepted baseline no longer validates: "
             else "the file's vault, audit and deployment sections cannot start: ") +:+ cause in
          Ok (mkStart acc [] (pending acc (Err (mkInvalidFile cause (Some f)))))
      | Ok _ =>
          let events :=
            map (fun n => n +:+ " follows maknae.yaml at start")
              (List.filter (fun n => negb (bool_decide (acc !! n = mix !! n))) FOLLOWED_AT_BOOT) in
          Ok (mkStart mix events (pending mix (Ok f)))
      end
  end.
End Baseline.

Definition lower_hex_byte (b : ascii) : bool := byte_in 48 57 b || byte_in 97 102 b.

Definition decide_accept (current : option PendingSet) (named : string)
  : result AcceptPlan AcceptRefusal :=
  if negb ((String.length named =? 64) && all_bytes lower_hex_byte named) then Err AMalformed
  else
    let? p := ok_or current ANothingPending in
    if negb (String.eqb named (ps_hash p)) then Err AStale
    else match ps_state p with
         | PInvalid _ _ => Err AInvalid
         | PValid proposed apply sections => Ok (mkAcceptPlan proposed apply sections)
         end.

Definition pending_class (p : PendingSet) : string :=
  match ps_state p with
  | PValid _ ApplyLive _ => "live"
  | PValid _ ApplyRestart _ => "restart"
  | PInvalid _ _ => "invalid"
  end.

Definition status_line (p : PendingSet) : string := "baseline: 1 pending (" +:+ pending_class p +:+ ")".

Definition INVALID_RECORDED : string := "baseline change refused: invalid (cause in the journal)".

Definition pending_record_fields (p : PendingSet) : string * string * string :=
  match ps_state p with
  | PValid _ _ sections =>
      ("deny",
       "baseline change pending acceptance: " +:+ ps_source p +:+ " sha256:" +:+ short (ps_hash p)
         +:+ " (apply: " +:+ pending_class p +:+ "; sections: " +:+ str_join "," sections +:+ ")",
       "unauthorized")
  | PInvalid _ _ => ("deny", INVALID_RECORDED, "unavailable")
  end.

(** [publish] of [BaselineStatus]: whether the pending set's hash changed. *)
Definition publish_baseline (slot state : BaselineState) : bool * BaselineState :=
  let hash := fun s => ps_hash <$> bs_pending s in
  (negb (bool_decide (hash slot = hash state)), state).

Definition baseline_lines (s : BaselineState) : list string :=
  map status_line (option_list (bs_pending s)).

(** ** Views ([BaselineView] of [crates/maknae-proto/src/wire.rs]) *)

Record BaselineView := mkBaselineView {
  bv_source : string; bv_hash : string; bv_state : string; bv_apply : string; bv_changes : list string }.

Definition INVALID_SHOWN : string := "the file does not validate; the cause is in the daemon's journal".

Definition apply_name (p : PendingSet) : string :=
  if String.eqb (pending_class p) "invalid" then "" else pending_class p.

Definition refused_view (r : AcceptRefusal) (current : option PendingSet) : BaselineView * string :=
  let source := from_option ps_source "" current in
  let '(state, why) :=
    match r with
    | AStale => ("stale", "the named change set is not the pending one; show it again")
    | AMalformed => ("stale", "the hash is not 64 lowercase hex characters")
    | ANothingPending => ("none", "nothing is pending")
    | AInvalid => ("invalid", "the pending change set does not validate")
    end in
  (mkBaselineView source "" state "" [], "baseline accept refused: " +:+ why).

Section Views.
(** The change lines of the two baselines' documents, or why one does not read. *)
Context (change_lines : BaselineSections -> BaselineSections -> result (list string) string).

Definition show_view (p : option PendingSet) (accepted : BaselineSections)
  : result BaselineView string :=
  match p with
  | None => Ok (mkBaselineView "" "" "none" "" [])
  | Some p =>
      match ps_state p with
      | PValid proposed _ _ =>
          let? changes := change_lines accepted proposed in
          Ok (mkBaselineView (ps_source p) (ps_hash p) "pending" (apply_name p) changes)
      | PInvalid _ _ => Ok (mkBaselineView (ps_source p) (ps_hash p) "invalid" "" [INVALID_SHOWN])
      end
  end.

Definition accepted_view (p : PendingSet) (accepted : BaselineSections) : BaselineView :=
  let changes := match show_view (Some p) accepted with Ok v => bv_changes v | Err _ => [] end in
  mkBaselineView (ps_source p) "" "accepted" (apply_name p) changes.
End Views.
