(* ===== verification/ErrorTexts.v ===== *)
(** * The texts of configuration and policy errors

    The [Display]s of [crates/maknae-config/src/{error,bindings,bindings_sync}.rs] and
    of [crates/maknae-authz-basic/src/{lib,snapshot}.rs], where the kernel puts an error's
    text into a refusal or a record. *)
From stdpp Require Import base list strings gmap.
From Stdlib Require Import ZArith Lia Ascii.
From S2P Require Import Prelude RustStr RustSlice Config PathGlob AuthzPolicy Decide Graph GraphFormat.
From S2P Require Import Identity Bindings BindingsSync PolicySource Snapshot Operands Texts.
Open Scope nat_scope.

(** [{:o}] of a [u32], at most eleven digits. *)
Fixpoint octal_digits (n : nat) (v : Z) : string :=
  match n with
  | 0 => ""
  | S n' =>
      let last := String (ascii_of_nat (48 + Z.to_nat (v mod 8))) "" in
      if (v <? 8)%Z then last else octal_digits n' (v / 8) +:+ last
  end.
Definition octal (v : Z) : string := octal_digits 11 v.

Definition config_error_text (e : ConfigError) : string :=
  match e with
  | CEIo m => "config i/o error: " +:+ m
  | CENotFound path => "config file not found: " +:+ path
  | CEParse message line col =>
      "config parse error at " +:+ dec (Z.of_nat line) +:+ ":" +:+ dec (Z.of_nat col) +:+ ": " +:+ message
  | CEDuplicateKey key line col =>
      "duplicate config key '" +:+ key +:+ "' at " +:+ dec (Z.of_nat line) +:+ ":" +:+ dec (Z.of_nat col)
  | CEInsecurePermissions path mode =>
      "insecure permissions on '" +:+ path +:+ "': mode " +:+ octal (Z.land mode 4095)
        +:+ " has world/other bits"
  | CESymlink path => "config path is a symlink (refused): '" +:+ path +:+ "'"
  | CEPermissionsUnsupported =>
      "config permission enforcement is unavailable on this platform; refusing to load"
  | CENotAMap source_path => "config root is not a mapping: '" +:+ source_path +:+ "'"
  | CEUnknownKey section key => "unknown key '" +:+ key +:+ "' in '" +:+ section +:+ "'"
  | CEUnknownSection section source_path =>
      "unknown config section '" +:+ section +:+ "' in '" +:+ source_path +:+ "' (no registered spec)"
  | CEDuplicateSection section =>
      "section '" +:+ section +:+ "' defined in more than one config.d file"
  | CEMissingSection section => "required config section '" +:+ section +:+ "' is missing"
  | CECoreOverride => "the 'core' section may only be defined in maknae.yaml, not config.d"
  | CEReservedSection section =>
      "section name '" +:+ section +:+ "' is reserved and cannot be registered"
  | CEDuplicateSpec section => "section '" +:+ section +:+ "' registered more than once"
  | CEInvalidCeiling reason => "invalid core classification ceiling: " +:+ reason
  | CEUnknownClassificationPolicy name =>
      "core.handling.policy names a classification system this build does not carry: '" +:+ name +:+ "'"
  | CEInvalidProvider reason => "invalid provider config: " +:+ reason
  | CEInvalidEgressBounds reason => "egress-bounds.yaml: " +:+ reason
  | CEInvalidEgress reason => "invalid egress config: " +:+ reason
  | CEProviderPlaintextKey field =>
      "provider config carries a plaintext credential under '" +:+ field
        +:+ "': each user's key lives in Vault under their own login, never in the config"
  | CESourceNotRootOwned path =>
      path +:+ " must be owned by root and not group- or world-writable, as must every maknae.yaml and config.d source and the directories that hold them"
  | CEInvalidTransport reason => "invalid transport config: " +:+ reason
  | CEInvalidAudit reason => "invalid audit config: " +:+ reason
  | CEInvalidPrincipal reason => "invalid principal config: " +:+ reason
  | CEInvalidDeployment reason => "invalid deployment config: " +:+ reason
  | CEUserProviders reason => "providers.yaml: " +:+ reason
  | CEBaselineValue reason => "baseline value refused: " +:+ reason
  end.

Definition insecure_directory (dir file : string) : string :=
  "the directory " +:+ dir +:+ " holding " +:+ file
    +:+ " must be owned by root (uid 0) and not group- or other-writable".

Definition bindings_error_text (e : BindingsError) : string :=
  match e with
  | BEUnknownSchemaVersion v => "unknown bindings.yaml schema_version: " +:+ int_to_string v
  | BEConfig e => "bindings.yaml: " +:+ config_error_text e
  | BEInsecurePermissions =>
      "bindings.yaml has insecure permissions: world/other-accessible or group/other-writable"
  | BESymlink => "bindings.yaml path is a symlink (refused)"
  | BENotRootOwned => "bindings.yaml is not owned by root (uid 0)"
  | BEInsecureDirectory d => insecure_directory d "bindings.yaml"
  | BEIo m => "bindings.yaml i/o error: " +:+ m
  | BEYaml m => "bindings.yaml yaml error: " +:+ m
  end.

Definition edit_error_text (e : EditError) : string :=
  match e with
  | NoExplicitBindings =>
      "bindings.yaml has no bindings: key; a live identity edit needs explicit bindings"
  | Rules e => rule_error_text e
  end.

(** [AuthzBasicError]'s text. *)
Definition authz_basic_error_text (e : AuthzBasicError) : string :=
  match e with
  | ABLoad m => "authz policy load refused: " +:+ m
  | ABBindings m => "authz bindings invalid: " +:+ m
  | ABSubjectLookup m => "authz subjects: " +:+ m
  | ABUnknownRole k => "authz roles: unknown role `" +:+ k +:+ "`"
  | ABRoleNotSupportedYet k =>
      "authz roles: role `" +:+ k +:+ "` takes no grants (guest and adversary are structural)"
  | ABUnknownActionTerm t =>
      "authz roles: `" +:+ t +:+ "` is not a grantable action term (grantable: "
        +:+ str_join ", " GRANTABLE_ACTIONS +:+ ")"
  | ABTermNotGrantableForRole role term =>
      "authz roles: `" +:+ term +:+ "` is not grantable to role `" +:+ role +:+ "` (admin: "
        +:+ str_join ", " GRANTABLE_ACTIONS +:+ "; user: session.prompt)"
  | ABUnknownAction a => "authz subjects: `" +:+ a +:+ "` names no action family or term"
  | ABUngrantableAction a =>
      "authz subjects: `" +:+ a +:+ "` is a kernel or liveness action and no list may name it"
  | ABDuplicateSubjectUid uid a b =>
      "authz subjects: `" +:+ a +:+ "` and `" +:+ b +:+ "` resolve to the same uid " +:+ dec uid
  end.

Section Texts.
Context (grapheme_extended printable : Z -> bool).

(** A snapshot compiler's error, with the message each site gives it. *)
Definition compile_error_text (e : CompileError) : string :=
  let identity := fun m => "snapshot identity refused: " +:+ m in
  let graph := fun m => "snapshot graph refused: " +:+ m in
  let policy := fun m => "snapshot policy refused: " +:+ m in
  match e with
  | SCIdentity e => identity (identity_error_text grapheme_extended printable e)
  | SCLayerDiffers source =>
      identity ("the persisted identity layer differs from the one " +:+ source +:+ " declares")
  | SCNoSourceNode => identity "no bindings source node"
  | SCGraph e => graph (graph_error_text grapheme_extended printable e)
  | SCTermClass term => graph ("term `" +:+ term +:+ "` names no compiled class")
  | SCPolicy e => policy (authz_basic_error_text e)
  | SCNotCompiled key => policy ("`" +:+ key +:+ "` is not in the compiled vocabulary")
  | SCNoDigest section => policy ("no digest for section `" +:+ section +:+ "`")
  | SCEntriesUndeclared deny allow =>
      policy (dec (Z.of_nat deny) +:+ " deny and " +:+ dec (Z.of_nat allow)
                +:+ " allow permissions entries without a permissions section")
  | SCNotARole key => policy ("`" +:+ key +:+ "` is not a role")
  end.
End Texts.
