(* ===== verification/LiveState.v ===== *)
(** * The kernel's live state and the effects on it

    What the [Reloader] of [crates/maknae-kernel/src/run.rs] keeps behind its locks, as
    cells that are read and replaced one at a time, with the effects of the store
    beneath it, the reload turn, the breakers of the containment probes, and the reads
    of the files; the reports of [identity_report.rs]; and the publication of the mirror
    ([sync.rs]). The mirror's text is an answer of [RenderMirror]: its renderer
    ([maknae-config/src/mirror.rs]) is not modelled. *)
From stdpp Require Import base list strings gmap.
From Stdlib Require Import ZArith Lia Ascii.
From S2P Require Import Prelude Programs RustStr RustSlice Json Seam Config Decide Graph GraphFormat.
From S2P Require Import Identity Bindings BindingsSync PolicySource Snapshot Composition Texts SyncText.
From S2P Require Import Envelope Anchor Store Breaker Baseline.
Open Scope nat_scope.

(** ** Identity reports ([identity_report.rs]) *)

#[export] Instance IdentityProblem_eq_dec : EqDecision IdentityProblem.
Proof. solve_decision. Defined.

Record Published := mkPublished { pu_problems : list IdentityProblem; pu_subjects : list ListedSubject }.

Definition published_of (snapshot : Snapshot) (released : list IdentityProblem) : Published :=
  mkPublished (sn_problems snapshot ++ released) (default [] (subject_entries snapshot)).

Definition identity_record_fields (p : IdentityProblem) : string * string * string :=
  match p with
  | PReleased _ _ _ | PPrincipalAdmin _ => ("permit", problem_text p, "authorized")
  | PUnresolvedAdversary _ => ("deny", problem_text p, "unavailable")
  | _ => ("deny", problem_text p, "unauthorized")
  end.

Definition recordable (p : IdentityProblem) : bool :=
  match p with PReleased _ _ _ | PPrincipalAdmin _ => false | _ => true end.

Definition transition_problems (released : list Released) : list IdentityProblem :=
  map problem_of_released released.

(** ** The binary's vocabulary ([vocabulary.rs]) *)

Record Vocabulary := mkVocabulary {
  vo_full : CompiledSet; vo_persisted : CompiledSet; vo_digest : digest }.

Definition vocabulary_assemble (sha256 : bytes -> digest) (full persisted : CompiledSet)
  : result Vocabulary (fault GraphError) :=
  let? digest := vocabulary_digest sha256 persisted in Ok (mkVocabulary full persisted digest).

Definition kernel_vocabulary (sha256 : bytes -> digest) (label : string)
  : result Vocabulary (fault GraphError) :=
  let? full := compiled_set label in
  vocabulary_assemble sha256 full (persisted_compiled_set label).

(** ** Effects *)

(** The breakers a live edit meets: the probes' and the account lookup's. *)
Inductive LiveGuard := ProbeGuard | LookupGuard.

(** A bounded blocking task: it returned, it was lost, or its bound elapsed. A task
    that panics is lost. *)
Inductive Fate := Completed | JoinFailed (join : string) | TooLate.

Inductive live_effect : Type -> Type :=
| OnStore X (e : store_effect X) : live_effect X
| TakeTurn : live_effect bool
| Stopping : live_effect bool
| StopSignalled : live_effect bool
| Begin (g : LiveGuard) : live_effect BreakerAdmission
| Succeeded (g : LiveGuard) : live_effect unit
| TimedOut (g : LiveGuard) : live_effect BreakerTransition
| Blocking : live_effect Fate
| GetPersisted : live_effect Graph
| SetPersisted (g : Graph) : live_effect unit
| GetRevision : live_effect Z
| SetRevision (r : Z) : live_effect unit
| GetSnapshot : live_effect Snapshot
| Install (s : Snapshot) : live_effect unit
| GetPrincipal : live_effect Z
| GetSource : live_effect PolicySource
| SetSource (s : PolicySource) : live_effect unit
| SetCounts (c : SyncCounts) : live_effect unit
| SetStale (b : bool) : live_effect unit
| BecameLost (lost : bool) : live_effect bool
| IsStale : live_effect bool
| GetIdentity : live_effect (list IdentityProblem)
| PublishIdentity (p : Published) : live_effect (list IdentityProblem)
| GetBaseline : live_effect BaselineState
| PublishBaseline (s : BaselineState) : live_effect unit
| CountKernelRefused : live_effect unit
| RenderMirror (g : Graph) : live_effect (result bytes string)
| LoadSource : live_effect (result PolicySource (fault AuthzBasicError))
| BaselineFile : live_effect (result BaselineSections InvalidFile)
| LookUp (name : string) : live_effect (result (option Z) string).

Local Notation prog := (Programs.prog live_effect).

(** The store's programs here. *)
Definition on_store {A} (p : Programs.prog store_effect A) : prog A := lift OnStore p.

Definition emit (rec : GraphRecord) : prog (result unit string) :=
  let# r := OnStore _ (Append rec) in Ret r.

(** What a [Reloader] is made with. *)
Record Reloader := mkReloader {
  rl_dir : StateDir; rl_key : WrappingKey; rl_label : string; rl_vocabulary : Vocabulary;
  rl_ceiling : Authorizer; rl_digest : string -> digest; rl_euid : Z; rl_lookup_bound_ms : Z }.

(** The auditor of a reload or a live edit. *)
Definition live_auditor : Auditor := mkAuditor 0 false.

(** ** The mirror ([sync.rs]) *)

Section Mirror.
Context (sha256 : bytes -> digest).

Definition publish_rendered (graph : Graph) : prog (result string string) :=
  let# text := RenderMirror graph in
  match text with
  | Err e => Ret (Err e)
  | Ok text =>
      let* p := on_store (publish_mirror text) in
      Ret match p with
          | Err e => Err ("publish: " +:+ io_text e)
          | Ok _ => Ok ("sha256:" +:+ hex (take 6 (sha256 text)))
          end
  end.

Definition publish_or_remove (graph : Graph) : prog (result string string) :=
  let* r := publish_rendered graph in
  match r with
  | Ok hash => let# _ := SetStale false in Ret (Ok hash)
  | Err cause =>
      let* m := on_store remove_mirror in
      let removal := match m with
                     | Ok _ => "the stale mirror was removed"
                     | Err e => "the stale mirror could not be removed: " +:+ io_text e
                     end in
      let# _ := SetStale true in
      Ret (Err ("mirror render failed: " +:+ cause +:+ "; the transition at revision "
                  +:+ dec (g_revision graph) +:+ " stands; " +:+ removal))
  end.

Definition record_sync_unavailable (reason : string) : prog unit :=
  let* _ := emit (mkGraphRecord GRAPH_SYNC_ACTION "deny" reason "unavailable" None) in Ret tt.

Definition publish_live_mirror (graph : Graph) : prog unit :=
  let* r := publish_or_remove graph in
  match r with Ok _ => Ret tt | Err reason => record_sync_unavailable reason end.
End Mirror.
