(* ===== verification/Reload.v ===== *)
(** * The policy reload: [crates/maknae-kernel/src/reload.rs]

    The order of a reload (intent, load and compile, persist, install, outcome) and
    what [run.rs] plugs into it ([Reloader::run], [load_candidate], [ReloadIo]), as
    programs over the live state's effects. The policy digest an outcome record
    carries is left out, as are the journal's lines. *)
From stdpp Require Import base list strings gmap.
From Stdlib Require Import ZArith Lia Ascii.
From S2P Require Import Prelude Programs RustStr RustSlice Json Seam Config Decide Graph GraphFormat.
From S2P Require Import Identity Bindings BindingsSync PolicySource Snapshot Composition Texts SyncText.
From S2P Require Import Envelope Anchor Store Breaker Baseline LiveState ErrorTexts.
Open Scope nat_scope.

Local Notation prog := (Programs.prog live_effect).

(** ** Planning *)

Inductive Plan := PlanUnchanged | PlanPersist (revision : Z).

Definition layers_differ (a b : IdentityLayer) : bool :=
  negb (bool_decide (sorted_layer a = sorted_layer b)).

(** [u64::saturating_add(1)]. *)
Definition saturating_succ (r : Z) : Z := if (r =? u64_max - 1)%Z then r else (r + 1)%Z.

Definition plan (persisted : IdentityLayer * option SyncBase) (next : IdentityLayer * SyncBase)
    (store_revision : Z) : Plan :=
  if negb (layers_differ (fst persisted) (fst next)) && bool_decide (snd persisted = Some (snd next))
  then PlanUnchanged
  else PlanPersist (saturating_succ store_revision).

Definition plan_candidate {G E} (persisted : IdentityLayer * option SyncBase)
    (next : IdentityLayer * SyncBase) (store_revision : Z) (current : G)
    (build : Z -> result G E) : result (Plan * G) E :=
  let p := plan persisted next store_revision in
  match p with
  | PlanUnchanged => Ok (p, current)
  | PlanPersist revision => let? g := build revision in Ok (p, g)
  end.

(** The layer a reload or a live edit persists, and the containments it ends. *)
Definition next_layer (file : IdentityLayer) (unresolved : list string) (persisted : IdentityLayer)
    (file_lists_nobody : bool) (live : option ProvenanceKind) : IdentityLayer * list Released :=
  let next := fst (carry_forward file unresolved persisted) in
  let gone := released persisted next file_lists_nobody in
  (next,
   match live with
   | Some by_ => map (fun r => mkReleased (re_uid r) (re_name r) (LiveRelease by_)) gone
   | None => gone
   end).

(** ** Outcomes *)

Inductive ReloadRefusal :=
| RlAudit (m : string)
| RlLoad (m : string)
| RlCompile (m : string)
| RlPersist (m : string)
| RlBaselineChanged
| RlShutdown.

Definition reload_refusal_text (r : ReloadRefusal) : string :=
  match r with
  | RlAudit m => "audit append failed: " +:+ m
  | RlLoad m => "policy load: " +:+ m
  | RlCompile m => "compile: " +:+ m
  | RlPersist m => "persist: " +:+ m
  | RlBaselineChanged =>
      "the stored baseline differs from the one this reload carries; only an accept changes the accepted baseline"
  | RlShutdown => "shutdown"
  end.

Record Applied := mkApplied {
  ra_revision : Z; ra_persisted : bool; ra_durability_error : option string;
  ra_checkpoint_error : option string }.

Definition reload_outcome (r : result Applied ReloadRefusal) : string * string * string :=
  match r with
  | Ok a =>
      ("permit",
       "reload applied: revision " +:+ dec (ra_revision a) +:+ "; identity "
         +:+ (if ra_persisted a then "persisted" else "unchanged")
         +:+ match ra_durability_error a with Some e => "; store not durable: " +:+ e | None => "" end
         +:+ match ra_checkpoint_error a with
             | Some e => "; checkpoint append failed: " +:+ e | None => "" end,
       "authorized")
  | Err refusal => ("deny", "reload refused: " +:+ reload_refusal_text refusal, "unavailable")
  end.

(** A panic unwinds the task the reload runs in. *)
Abbreviation reload_result A := (result A (fault ReloadRefusal)).

(** [turn]: the shared revision advances only when the reload applied. *)
Definition turn (stopping : bool) (reload : Z -> prog (reload_result Applied))
  : prog (reload_result Applied) :=
  if stopping then Ret (Err (Refused RlShutdown))
  else
    let# store_revision := GetRevision in
    let*? applied := reload store_revision in
    let# _ := SetRevision (ra_revision applied) in
    Ret (Ok applied).

(** ** The order ([run_reload]) *)

(** [N] is what an attempt notes on the way for its outcome. *)
Section Order.
Context {C N : Type} (nothing : N).
Context (load : Z -> prog (reload_result (Plan * C))).
Context (commit : C -> prog (reload_result (N * (Z * option string * option string)))).
Context (install : N -> C -> prog N).
Context (intent : Z -> prog (reload_result unit)).
Context (outcome : N -> result Applied ReloadRefusal -> prog unit).

(** The commit a plan calls for. *)
Definition commit_plan (store_revision : Z) (p : Plan) (candidate : C)
  : prog (reload_result (N * Applied)) :=
  match p with
  | PlanUnchanged => Ret (Ok (nothing, mkApplied store_revision false None None))
  | PlanPersist _ =>
      let*? c := commit candidate in
      let '(noted, (revision, durability, checkpoint)) := c in
      Ret (Ok (noted, mkApplied revision true durability checkpoint))
  end.

Definition apply (store_revision : Z) : prog (reload_result (N * Applied)) :=
  let# stopped := StopSignalled in
  if stopped : bool then Ret (Err (Refused RlShutdown))
  else
    let*? loaded := load store_revision in
    let*? applied := commit_plan store_revision (fst loaded) (snd loaded) in
    let* noted := install (fst applied) (snd loaded) in
    Ret (Ok (noted, snd applied)).

Definition run_reload (store_revision : Z) : prog (reload_result Applied) :=
  let*? _ := intent store_revision in
  let* applied := apply store_revision in
  match applied with
  | Err Panic => Ret (Err Panic)
  | Ok (noted, a) => let* _ := outcome noted (Ok a) in Ret (Ok a)
  | Err (Refused r) => let* _ := outcome nothing (Err r) in Ret (Err (Refused r))
  end.
End Order.

(** ** What a [Reloader] plugs in *)

Record ReloadCandidate := mkReloadCandidate {
  rd_graph : Graph; rd_snapshot : Snapshot; rd_released : list Released;
  rd_pending : option PendingSet; rd_source : PolicySource; rd_sync_events : list string;
  rd_initiator : string; rd_counts : SyncCounts; rd_lost : option string }.

(** What an attempt leaves for its outcome: the committed digest, the problems the
    install replaced, a newly pending set, a newly lost file. *)
Record Noted := mkNoted {
  no_committed : option digest; no_replaced : list IdentityProblem;
  no_pending : option PendingSet; no_lost : option string }.
Definition unnoted : Noted := mkNoted None [] None None.

Section Reload.
Context (aead : Aead) (sha256 : bytes -> digest).
Context (grapheme_extended printable : Z -> bool).
Context (f64_to_string : Z -> string) (from_str : string -> result Json string).
Context (rl : Reloader).

Local Notation identity_text := (identity_error_text grapheme_extended printable).
Local Notation compile_text := (compile_error_text grapheme_extended printable).

(** A pure step of the load, its error put into a refusal. *)
Definition refusing {A E F} (f : E -> F) (r : result A (fault E)) : result A (fault F) :=
  map_err (map_fault f) r.

Definition unparsed (e : BindingsError) : string :=
  "the store's sync base does not parse: " +:+ bindings_error_text e.

(** The candidate of a source: the part of [load_candidate] between the two reads. *)
Definition candidate_of (persisted_graph : Graph) (persisted : Extracted)
    (stored_baseline : BaselineLayer) (merged : MergedSource) (store_revision : Z)
  : reload_result (Plan * Graph * Snapshot * list Released * ProvenanceKind) :=
  let source := ms_source merged in
  let digests := section_digests (rl_digest rl) source in
  let '(next, gone) :=
    next_layer (identity_layer source (rl_label rl) (digests !! "bindings"))
      (unresolved_adversaries source) (x_layer persisted) (lists_nobody (ps_bindings source)) None in
  let provenance := transition_initiator (ms_kind merged) (layers_differ (x_layer persisted) next) false false in
  let? (p, graph) :=
    plan_candidate (x_layer persisted, x_sync persisted) (next, ms_sync merged) store_revision
      persisted_graph (fun revision =>
        refusing (fun e => RlCompile (identity_text e))
          (build next (Some stored_baseline) (Some (ms_sync merged)) (vo_persisted (rl_vocabulary rl))
             (vo_digest (rl_vocabulary rl)) revision provenance)) in
  let? snapshot := refusing (fun e => RlCompile (compile_text e))
    (compile graph source (vo_full (rl_vocabulary rl)) digests) in
  Ok (p, graph, snapshot, gone, provenance).

Definition load_candidate (persisted_graph : Graph) (store_revision : Z)
  : prog (reload_result (Plan * ReloadCandidate)) :=
  let*? persisted := Ret (map_err (fun e => Refused (RlCompile (identity_text e))) (extract persisted_graph)) in
  if is_none (x_sync persisted) then
    Ret (Err (Refused (RlCompile "the running graph carries no sync base")))
  else
    let*? stored_baseline :=
      Ret (ok_or (x_baseline persisted) (Refused (RlCompile "the running graph carries no baseline"))) in
    let# file := LoadSource in
    let*? file := Ret (refusing (fun e => RlLoad (authz_basic_error_text e)) file) in
    let*? merged := Ret match merge_source f64_to_string from_str grapheme_extended printable file
                                (x_sync persisted) with
                        | Ok m => Ok m
                        | Err (MStored e) => Err (Refused (RlCompile (unparsed e)))
                        | Err (MPolicy Panic) => Err Panic
                        | Err (MPolicy (Refused e)) => Err (Refused (RlLoad (authz_basic_error_text e)))
                        end in
    let*? (p, graph, snapshot, gone, provenance) :=
      Ret (candidate_of persisted_graph persisted stored_baseline merged store_revision) in
    let# accepted := GetBaseline in
    let# file := BaselineFile in
    let pending := pending sha256 f64_to_string from_str (bs_accepted accepted) file in
    Ret (Ok (p, mkReloadCandidate graph snapshot gone pending (ms_source merged) (ms_events merged)
                  (initiator_name provenance) (ms_counts merged) (ms_lost merged))).

(** [ReloadIo::load]: on the blocking pool, without a bound; a task that panicked is a
    refusal. *)
Definition reload_load (store_revision : Z) : prog (reload_result (Plan * ReloadCandidate)) :=
  let# persisted := GetPersisted in
  let* loaded := load_candidate persisted store_revision in
  let# fate := Blocking in
  Ret match fate, loaded with
      | JoinFailed join, _ => Err (Refused (RlLoad ("load task: " +:+ join)))
      | _, Err Panic => Err (Refused (RlLoad "load task: "))
      | _, _ => loaded
      end.

Definition reload_intent (store_revision : Z) : prog (reload_result unit) :=
  let* r := emit (mkGraphRecord GRAPH_RELOAD_ACTION "permit" "intent recorded (SIGHUP)" "authorized"
                    (Some (mkGraphAudit store_revision "" "reloading" 0))) in
  Ret (map_err (fun e => Refused (RlAudit e)) r).

(** [ReloadIo::commit]. *)
Definition reload_commit (c : ReloadCandidate)
  : prog (reload_result (Noted * (Z * option string * option string))) :=
  let* committed := on_store
    (Store.commit aead sha256 grapheme_extended printable f64_to_string from_str (rl_dir rl) (rl_key rl)
       (rd_graph c) (rd_released c) (rd_sync_events c) live_auditor (rd_initiator c)) in
  match committed with
  | Err Panic => Ret (Err Panic)
  | Err (Refused e) =>
      let# _ := SetStale true in
      Ret (Err (Refused match e with
                        | SBaselineUnrecorded => RlBaselineChanged
                        | e => RlPersist (store_error_text e)
                        end))
  | Ok committed =>
      let# _ := SetPersisted (rd_graph c) in
      let* _ := publish_live_mirror sha256 (rd_graph c) in
      Ret (Ok (mkNoted (Some (co_digest committed)) [] None None,
               (co_revision committed, co_durability_error committed, co_checkpoint_error committed)))
  end.

(** [ReloadIo::install]. *)
Definition reload_install (noted : Noted) (c : ReloadCandidate) : prog Noted :=
  let published := published_of (rd_snapshot c) (transition_problems (rd_released c)) in
  let# _ := Install (rd_snapshot c) in
  let# _ := SetSource (rd_source c) in
  let# _ := SetCounts (rd_counts c) in
  let# lost := BecameLost (is_some (rd_lost c)) in
  let# current := GetBaseline in
  let hash := fun p => ps_hash <$> p in
  let newly := is_some (rd_pending c) && negb (bool_decide (hash (rd_pending c) = hash (bs_pending current))) in
  let* _ := if newly then Ret tt
            else let# _ := PublishBaseline (mkBaselineState (bs_accepted current) (rd_pending c)) in Ret tt in
  let# replaced := PublishIdentity published in
  Ret (mkNoted (no_committed noted) replaced (if newly then rd_pending c else None) (if lost : bool then rd_lost c else None)).

(** One record per problem, until one does not append; whether all did. *)
Fixpoint record_problems (l : list IdentityProblem) : prog bool :=
  match l with
  | [] => Ret true
  | p :: l' =>
      let '(result_, reason, posture) := identity_record_fields p in
      let* r := emit (mkGraphRecord GRAPH_IDENTITY_ACTION result_ reason posture None) in
      match r with Ok _ => record_problems l' | Err _ => Ret false end
  end.

(** [recorded_after]. *)
Definition recorded_after (applied : bool) (previous current : list IdentityProblem)
  : list IdentityProblem :=
  if applied then
    List.filter (fun p => recordable p && negb (bool_decide (p ∈ previous))) current
  else [].

(** [ReloadIo::outcome]. *)
Definition reload_record_outcome (store_revision : Z) (noted : Noted) (r : result Applied ReloadRefusal)
  : prog unit :=
  let '(result_, reason, posture) := reload_outcome r in
  let '(revision, anchor) := match r with
                             | Ok a => (ra_revision a, "reloaded")
                             | Err _ => (store_revision, "reload-refused")
                             end in
  let# current := GetIdentity in
  let# stale := IsStale in
  let republish := match r with Ok a => negb (ra_persisted a) | Err _ => false end
                     && orb stale (is_some (no_lost noted)) in
  let* _ := emit (mkGraphRecord GRAPH_RELOAD_ACTION result_ reason posture
                    (Some (mkGraphAudit revision (from_option hex "" (no_committed noted)) anchor 0))) in
  let* appending := record_problems (recorded_after (is_ok r) (no_replaced noted) current) in
  let* _ :=
    match no_pending noted with
    | Some set =>
        if appending then
          let '(result_, reason, posture) := pending_record_fields set in
          let* a := emit (mkGraphRecord GRAPH_BASELINE_ACTION result_ reason posture None) in
          match a with
          | Ok _ =>
              let# status := GetBaseline in
              let# _ := PublishBaseline (mkBaselineState (bs_accepted status) (Some set)) in Ret tt
          | Err _ => Ret tt
          end
        else Ret tt
    | None => Ret tt
    end in
  let* _ := if republish then let# graph := GetPersisted in publish_live_mirror sha256 graph
            else Ret tt in
  match no_lost noted with Some reason => record_sync_unavailable reason | None => Ret tt end.

(** [Reloader::run]: under the turn, which it waits for. *)
Definition reload : prog (reload_result Applied) :=
  let# _ := TakeTurn in
  let# stopping := Stopping in
  turn stopping (fun store_revision =>
    run_reload unnoted reload_load reload_commit reload_install reload_intent
      (reload_record_outcome store_revision) store_revision).
End Reload.
