(* ===== verification/LiveEdit.v ===== *)
(** * Live identity edits: containment and release under the reload turn

    [live_edit_resolving] of [crates/maknae-kernel/src/run.rs] with its probes, the
    operator's requests that reach it ([contain_requested], [release_requested]) and the
    kernel's own ([kernel_contain]), as programs over the live state's effects. The
    policy digest an outcome record carries is left out, as are the journal's lines. *)
From stdpp Require Import base list strings gmap.
From Stdlib Require Import ZArith Lia Ascii.
From S2P Require Import Prelude Programs RustStr RustSlice Json Seam Config Decide Graph GraphFormat.
From S2P Require Import Identity Bindings BindingsSync PolicySource Snapshot Composition Wire Operands.
From S2P Require Import Texts SyncText Envelope Anchor Store Breaker Handler Containment Baseline.
From S2P Require Import Effects LiveState ErrorTexts Reload.
Open Scope nat_scope.

Local Notation prog := (Programs.prog live_effect).

(** [blocking_guard.rs]. *)
Definition BLOCKING_OPERATION_TIMEOUT_MS : Z := 5000.

(** [within_blocking]: a bounded blocking job that is a pure computation. *)
Definition within_blocking {A E} (bound_ms : Z) (job : result A (fault E))
  : prog (result (result A E) string) :=
  let# fate := Blocking in
  Ret match fate, job with
      | TooLate, _ => Err ("did not complete within " +:+ dec bound_ms +:+ "ms")
      | JoinFailed join, _ => Err ("blocking task failed: " +:+ join)
      | Completed, Err Panic => Err "blocking task failed: "
      | Completed, Err (Refused e) => Ok (Err e)
      | Completed, Ok a => Ok (Ok a)
      end.

Abbreviation live_result A := (result A (fault LiveRefusal)).
Definition live_refused {A} (r : LiveRefusal) : live_result A := Err (Refused r).
Definition live_failed {A} (why : string) : live_result A := live_refused (RFailed why).

Record LiveRequest := mkLiveRequest {
  lr_op : LiveOp; lr_who : LiveInitiator; lr_check : LiveCheck; lr_note : LiveNote;
  lr_authorized : option Request }.

(** What a live edit commits: the edit's sync base, its records, and the graph and
    snapshot compiled from it. *)
Record EditCandidate := mkEditCandidate {
  ec_graph : Graph; ec_snapshot : Snapshot; ec_source : PolicySource; ec_released : list Released;
  ec_events : list string; ec_counts : SyncCounts }.

Section LiveEdit.
Context (aead : Aead) (sha256 : bytes -> digest).
Context (grapheme_extended printable : Z -> bool).
Context (f64_to_string : Z -> string) (from_str : string -> result Json string).
Context (rl : Reloader).

Local Notation identity_text := (identity_error_text grapheme_extended printable).
Local Notation compile_text := (compile_error_text grapheme_extended printable).
Local Notation quoted := (SyncText.quoted grapheme_extended printable).

(** ** The probes *)

(** [probe_blocking]: admitted by the probe breaker, bounded. [None]: the job panicked. *)
Definition probe_blocking {T} (job : option T) : prog (result T ProbeError) :=
  let# admission := Begin ProbeGuard in
  match admission with
  | RefuseOpen | RefuseAtCapacity => Ret (Err PBusy)
  | Admit =>
      let# fate := Blocking in
      match fate, job with
      | Completed, Some p => let# _ := Succeeded ProbeGuard in Ret (Ok p)
      | Completed, None =>
          let# _ := Succeeded ProbeGuard in Ret (Err (PFailed "the containment check failed: "))
      | JoinFailed join, _ =>
          let# _ := Succeeded ProbeGuard in
          Ret (Err (PFailed ("the containment check failed: " +:+ join)))
      | TooLate, _ =>
          let# _ := TimedOut ProbeGuard in Ret (Err (PFailed "the containment check timed out"))
      end
  end.

Definition probe_request (uid : Z) : Request :=
  build_authz_request release_probe uid None LaneLocal None.

(** The two probes, in one job. *)
Definition probe_job (target requester principal : Z) (installed candidate : Snapshot)
  : option (result Probed ProbeError) :=
  let first_permits := fun l => from_option permits false (head l) in
  let! self_holds :=
    if (requester =? target)%Z then
      let! l := decide_candidate_all installed principal (rl_ceiling rl) [probe_request requester] in
      Some (Some (first_permits l))
    else Some None in
  if bool_decide (self_holds = Some false) then Some (Ok (mkProbed self_holds None))
  else
    match releaser_uids (subject_entries candidate) with
    | Err e => Some (Err e)
    | Ok uids =>
        let! l := decide_candidate_all candidate principal (rl_ceiling rl) (map probe_request uids) in
        Some (Ok (mkProbed self_holds (Some (map permits l))))
    end.

Definition probe_contain (target requester : Z) (candidate : Snapshot)
  : prog (result Probed ProbeError) :=
  let# installed := GetSnapshot in
  let# principal := GetPrincipal in
  let*? probed := probe_blocking (probe_job target requester principal installed candidate) in
  Ret probed.

(** The requester's permitted request, decided again on the installed snapshot. *)
Definition reauthorize (action : Request) : prog (live_result unit) :=
  let# installed := GetSnapshot in
  let# principal := GetPrincipal in
  let job :=
    let! l := decide_candidate_all installed principal (rl_ceiling rl) [action] in
    Some (match head l with Some d => denial d | None => Some "the decision gave no answer" end) in
  let* probed := probe_blocking job in
  Ret match probed with
      | Ok None => Ok tt
      | Ok (Some why) => live_refused (RUnauthorized why)
      | Err PBusy => live_refused RBusy
      | Err (PFailed why) => live_failed why
      end.

(** ** The edit *)

(** The edit a request comes to under the turn, and the uid a release acts on. *)
Definition resolve_op (layer : IdentityLayer) (op : LiveOp) : LiveEdit * option Z :=
  match op with
  | OpEdit e => (e, None)
  | OpRelease uid named =>
      let uid := release_target uid named (claims layer) in
      (ReleaseUid uid (release_names uid named (claims layer)), Some uid)
  end.

(** What an edit that changes nothing is refused as. *)
Definition unchanged_refusal (layer : IdentityLayer) (edit : LiveEdit) : LiveRefusal :=
  match edit with
  | Contain _ => RAlreadyContained
  | ReleaseUid uid _ => nothing_released layer uid
  | Bind _ _ | Unbind _ => RFailed "the live edit changes nothing"
  end.

(** The checks before the source is read, and the edited sections. *)
Definition plan_edit (stored : Extracted) (check : LiveCheck) (edit : LiveEdit)
  : live_result (SyncBase * Section_ * Edited) :=
  if negb (binds_target_by_uid check edit) then live_failed "a containment binds its target by uid"
  else
    let? _ :=
      match check with
      | CheckContain target _ | CheckKernelContain target =>
          if is_contained (x_layer stored) target then live_refused RAlreadyContained else Ok tt
      | CheckNone => Ok tt
      end in
    let? sync := ok_or (x_sync stored) (Refused (RFailed "the running graph carries no sync base")) in
    let? st := map_err (fun e => Refused (RFailed (unparsed e)))
      (stored_sections f64_to_string from_str sync) in
    match apply_edit f64_to_string (st_base st) (st_live st) (st_conflicts st) edit with
    | Err NoExplicitBindings => live_refused RNoExplicitBindings
    | Err e => live_failed (edit_error_text e)
    | Ok None => live_refused (unchanged_refusal (x_layer stored) edit)
    | Ok (Some e) => Ok (sync, st_live st, e)
    end.

(** The graph and the snapshot of an edit over its source. *)
Definition edit_candidate (stored : Extracted) (req : LiveRequest) (edit : LiveEdit)
    (sync : SyncBase) (live : Section_) (edited : Edited) (source : PolicySource) (revision : Z)
  : live_result EditCandidate :=
  let who := lr_who req in
  let digests := section_digests (rl_digest rl) source in
  let '(next, gone) :=
    next_layer (identity_layer source (rl_label rl) (digests !! "bindings"))
      (unresolved_adversaries source) (x_layer stored) (lists_nobody (ps_bindings source))
      (Some (live_provenance who)) in
  let next_sync := mkSync (sy_base sync) (section_canonical f64_to_string (ed_live edited))
                     (conflicts_canonical f64_to_string (ed_conflicts edited)) in
  let events :=
    live_reason grapheme_extended printable edit (removed edit live (ed_live edited)) who (lr_note req)
      :: map (event_reason grapheme_extended printable) (ed_events edited) in
  let? counts := map_err (fun e => Refused (RFailed (unparsed e)))
    (SyncText.counts f64_to_string from_str next_sync) in
  let? graph := refusing (fun e => RFailed (identity_text e))
    (build next (x_baseline stored) (Some next_sync) (vo_persisted (rl_vocabulary rl))
       (vo_digest (rl_vocabulary rl)) (saturating_succ revision) (live_provenance who)) in
  let? snapshot := refusing (fun e => RFailed (compile_text e))
    (compile graph source (vo_full (rl_vocabulary rl)) digests) in
  Ok (mkEditCandidate graph snapshot source gone events counts).

(** The commit, and what is replaced once it landed. *)
Definition commit_edit (req : LiveRequest) (c : EditCandidate) : prog (live_result Z) :=
  let* committed := on_store
    (commit_live aead sha256 grapheme_extended printable f64_to_string from_str (rl_dir rl) (rl_key rl)
       (ec_graph c) (ec_released c) (ec_events c) live_auditor (lr_who req)) in
  match committed with
  | Err Panic => Ret (Err Panic)
  | Err (Refused e) => let# _ := SetStale true in Ret (live_failed (store_error_text e))
  | Ok committed =>
      let# _ := SetPersisted (ec_graph c) in
      let# _ := SetRevision (co_revision committed) in
      let# _ := Install (ec_snapshot c) in
      let# _ := PublishIdentity (published_of (ec_snapshot c) (transition_problems (ec_released c))) in
      let# _ := SetSource (ec_source c) in
      let# _ := SetCounts (ec_counts c) in
      let* _ := publish_live_mirror sha256 (ec_graph c) in
      let* _ := emit (mkGraphRecord GRAPH_SYNC_ACTION "permit"
                        (live_outcome (co_revision committed) (co_durability_error committed)
                           (co_checkpoint_error committed)) "authorized"
                        (Some (mkGraphAudit (co_revision committed) (hex (co_digest committed))
                                 "live-applied" 0))) in
      Ret (Ok (co_revision committed))
  end.

(** The operator's containment runs the probes on its candidate. *)
Definition checked_candidate (check : LiveCheck) (c : EditCandidate) : prog (live_result unit) :=
  match check with
  | CheckContain target requester =>
      let* probed := probe_contain target requester (ec_snapshot c) in
      Ret (map_err Refused (check_contain target (Some requester) probed))
  | _ => Ret (Ok tt)
  end.

(** The edit from the stored graph on. *)
Definition edit_stored (req : LiveRequest) (stored : Extracted) (edit : LiveEdit)
  : prog (live_result Z) :=
  let*? planned := Ret (plan_edit stored (lr_check req) edit) in
  let '(sync, live, edited) := planned in
  let# applied := GetSource in
  if is_some (unanswered (ed_live edited) edit (answered applied)) then
    Ret (live_refused RLookupUnavailable)
  else
    let* joined := within_blocking BLOCKING_OPERATION_TIMEOUT_MS
      (with_live_bindings applied (from_section f64_to_string (ed_live edited))) in
    let*? resolved := Ret (map_err (fun e => Refused (RFailed e)) joined) in
    let*? source := Ret (map_err (fun e => Refused (RFailed (authz_basic_error_text e))) resolved) in
    let# revision := GetRevision in
    let*? c := Ret (edit_candidate stored req edit sync live edited source revision) in
    let*? _ := checked_candidate (lr_check req) c in
    commit_edit req c.

(** What precedes the edit: the turn, no shutdown, and the requester's permission now. *)
Definition admitted (req : LiveRequest) : prog (live_result unit) :=
  let# turn := TakeTurn in
  if negb turn then Ret (live_refused RBusy)
  else
    let# stopping := Stopping in
    if stopping : bool then Ret (live_refused RStopping)
    else match lr_authorized req with
         | Some action => reauthorize action
         | None => Ret (Ok tt)
         end.

(** [live_edit_resolving]: the result, and the uid a release acted on. *)
Definition live_edit_resolving (req : LiveRequest) : prog (live_result Z * option Z) :=
  let* a := admitted req in
  match a with
  | Err e => Ret (Err e, None)
  | Ok _ =>
      let# persisted := GetPersisted in
      match extract persisted with
      | Err e => Ret (live_failed (identity_text e), None)
      | Ok stored =>
          let '(edit, released) := resolve_op (x_layer stored) (lr_op req) in
          let* r := edit_stored req stored edit in
          Ret (r, released)
      end
  end.

Definition live_edit (req : LiveRequest) : prog (live_result Z) :=
  let* r := live_edit_resolving req in Ret (fst r).

(** ** An operator's requests *)

Record ContainRequest := mkContainRequest {
  cr_requester : Z; cr_session : Z; cr_target : ContainTarget; cr_reason : string; cr_action : Request }.
Record ReleaseRequest := mkReleaseRequest {
  rr_requester : Z; rr_session : Z; rr_target : ContainTarget; rr_action : Request }.

Local Notation Answer := (@ContainAnswer ContainmentView).

Definition CONTAINMENT_UNAVAILABLE : string := "containment unavailable".

Definition answer_refused (kind : Kind) (code : ContainmentOutcome) (uid : option Z) (detail : string)
    (reason : option string) : Answer :=
  let '(result_, posture) := record_class code in
  ContainView (mkContainmentView code uid None)
    (Some (mkCorrective result_ posture
             (corrective grapheme_extended printable kind code uid detail reason))).

Definition answer (kind : Kind) (uid : Z) (reason : option string) (applied : live_result Z)
  : result Answer (fault Empty_set) :=
  match applied with
  | Err Panic => Err Panic
  | Ok revision =>
      Ok (ContainView (mkContainmentView (match kind with KRelease => OReleased | _ => OContained end)
                        (Some uid) (Some revision)) None)
  | Err (Refused (RUnauthorized why)) => Ok (ContainDenied why)
  | Err (Refused r) =>
      match refusal_outcome r with
      | Ok code => Ok (answer_refused kind code (Some uid) "" reason)
      | Err why => Ok (ContainUnavailable CONTAINMENT_UNAVAILABLE why)
      end
  end.

(** [lookup_account]: admitted by the lookup breaker, bounded. *)
Definition lookup_account (name : string) : prog (result Z (ContainmentOutcome * string)) :=
  let shown := quoted name in
  let# admission := Begin LookupGuard in
  match admission with
  | RefuseOpen => Ret (Err (OLookupUnavailable, "the account lookup circuit breaker is open"))
  | RefuseAtCapacity => Ret (Err (OLookupUnavailable, "the account lookup worker budget is exhausted"))
  | Admit =>
      let# looked := LookUp name in
      let# fate := Blocking in
      match fate with
      | TooLate =>
          let# _ := TimedOut LookupGuard in
          Ret (Err (OLookupUnavailable,
                    "looking up " +:+ shown +:+ " did not finish within "
                      +:+ dec (rl_lookup_bound_ms rl) +:+ "ms"))
      | JoinFailed join =>
          let# _ := Succeeded LookupGuard in
          Ret (Err (OLookupUnavailable, "looking up " +:+ shown +:+ " failed: " +:+ join))
      | Completed =>
          let# _ := Succeeded LookupGuard in
          Ret match looked with
              | Ok (Some uid) => Ok uid
              | Ok None => Err (OUnknownAccount, "no account named " +:+ shown)
              | Err e => Err (OLookupUnavailable, "looking up " +:+ shown +:+ " failed: " +:+ e)
              end
      end
  end.

Definition resolve_contain_target (target : ContainTarget)
  : prog (result Z (ContainmentOutcome * string)) :=
  match target with TargetUid u => Ret (Ok u) | TargetName n => lookup_account n end.

(** The uid the stored layer's adversary claims give a name, read without the turn. *)
Definition claimed (name : string) : prog (option Z) :=
  let# persisted := GetPersisted in
  Ret match extract persisted with
      | Ok x => claims (x_layer x) !! name
      | Err _ => None
      end.

Definition contain_requested (r : ContainRequest) : prog (result Answer (fault Empty_set)) :=
  let* resolved := resolve_contain_target (cr_target r) in
  match resolved with
  | Err (code, detail) => Ret (Ok (answer_refused KContain code None detail (Some (cr_reason r))))
  | Ok target =>
      let* applied := live_edit
        (mkLiveRequest (OpEdit (Contain (EUid target))) LOperator
           (check_for KContain target (cr_requester r))
           (mkNote (Some (cr_requester r, cr_session r)) (Some (cr_reason r)))
           (Some (cr_action r))) in
      Ret (answer KContain target (Some (cr_reason r)) applied)
  end.

Definition resolve_release_target (target : ContainTarget)
  : prog (result (Z * option string) (ContainmentOutcome * string)) :=
  match target with
  | TargetUid u => Ret (Ok (u, None))
  | TargetName n =>
      let* c := claimed n in
      match c with
      | Some u => Ret (Ok (u, Some n))
      | None =>
          let* looked := lookup_account n in
          Ret match looked with Ok u => Ok (u, Some n) | Err e => Err e end
      end
  end.

Definition release_requested (r : ReleaseRequest) : prog (result Answer (fault Empty_set)) :=
  let* resolved := resolve_release_target (rr_target r) in
  match resolved with
  | Err (code, detail) => Ret (Ok (answer_refused KRelease code None detail None))
  | Ok (uid, named) =>
      let* applied := live_edit_resolving
        (mkLiveRequest (release_op uid named) LOperator (check_for KRelease uid (rr_requester r))
           (mkNote (Some (rr_requester r, rr_session r)) None) (Some (rr_action r))) in
      Ret (answer KRelease (default uid (snd applied)) None (fst applied))
  end.

(** ** The kernel's own containment *)

Inductive KernelContain :=
| KcContained (revision : Z)
| KcAlreadyContained
| KcRefused (code : ContainmentOutcome)
| KcFailed (why : string).

Definition KERNEL_CONTAIN_ACTION : string := "kernel.contain".

(** A [kernel.contain] record; whether it appended. *)
Definition kernel_record (result_ posture reason : string) : prog bool :=
  let* r := emit (mkGraphRecord KERNEL_CONTAIN_ACTION result_ reason posture None) in Ret (is_ok r).

Definition kernel_failed (target : Z) (why : string) : prog KernelContain :=
  let# _ := CountKernelRefused in
  let* _ := kernel_record "deny" "unavailable"
    ("kernel containment of uid " +:+ dec target +:+ " failed: " +:+ why) in
  Ret (KcFailed why).

(** The answer to a kernel containment the live edit refused. *)
Definition kernel_refused (target : Z) (reason : string) (code : ContainmentOutcome)
  : prog KernelContain :=
  let '(result_, posture) := record_class code in
  let* _ := kernel_record result_ posture
    (corrective grapheme_extended printable KKernelContain code (Some target) "" (Some reason)) in
  if bool_decide (code = OAlreadyContained) then Ret KcAlreadyContained
  else let# _ := CountKernelRefused in Ret (KcRefused code).

Definition kernel_contain_decided (target : Z) (reason : string) (decided : Decided)
  : prog (result KernelContain (fault Empty_set)) :=
  if negb (permits decided) then
    let why := match finalize (combine [d_verdict decided]) with
               | DDeny reason => reason
               | DPermit _ => "an obligation the kernel cannot discharge"
               end in
    let# _ := CountKernelRefused in
    let* _ := kernel_record "deny" "unauthorized"
      ("kernel containment of uid " +:+ dec target +:+ " denied: " +:+ why +:+ "; reason "
         +:+ quoted reason) in
    Ret (Ok (KcFailed ("kernel.contain denied: " +:+ why)))
  else
    let* recorded := kernel_record "permit" "authorized"
      ("kernel containment of uid " +:+ dec target +:+ " decided; reason " +:+ quoted reason) in
    if negb recorded then
      let* r := kernel_failed target "the decision record did not append" in Ret (Ok r)
    else
      let* applied := live_edit
        (mkLiveRequest (OpEdit (Contain (EUid target))) LKernel (CheckKernelContain target)
           (mkNote None (Some reason)) None) in
      match applied with
      | Err Panic => Ret (Err Panic)
      | Ok revision => Ret (Ok (KcContained revision))
      | Err (Refused refusal) =>
          match refusal_outcome refusal with
          | Err why => let* r := kernel_failed target why in Ret (Ok r)
          | Ok code => let* r := kernel_refused target reason code in Ret (Ok r)
          end
      end.

(** [kernel_contain]; [nfc] and [gc] are Unicode's, as in [Operands]. *)
Definition kernel_contain (nfc : string -> string) (gc : Z -> GeneralCategory) (target : Z)
    (reason : string) : prog (result KernelContain (fault Empty_set)) :=
  match contain_reason nfc gc reason with
  | Err e =>
      let* r := kernel_failed target ("the reason is refused: " +:+ operand_error_text e) in Ret (Ok r)
  | Ok reason =>
      let# installed := GetSnapshot in
      let# principal := GetPrincipal in
      let* joined := within_blocking (E := Empty_set) BLOCKING_OPERATION_TIMEOUT_MS
        (Ok (composed_decide_cited installed principal (rl_ceiling rl)
               (build_kernel_request KERNEL_CONTAIN_ACTION (rl_euid rl)))) in
      match joined with
      | Ok (Ok decided) => kernel_contain_decided target reason decided
      | Ok (Err e) => match e with end
      | Err e => let* r := kernel_failed target ("the decision failed: " +:+ e) in Ret (Ok r)
      end
  end.
End LiveEdit.
