(* ===== verification/LiveWorld.v ===== *)
(** * The world of reloads and live edits

    The disk of [StoreWorld] and the kernel's cells; what each effect does to them; and
    the invariant that ties them together between turns: the store holds the persisted
    graph, the revision is its own, and the installed snapshot is compiled from it. *)
From stdpp Require Import base list strings gmap.
From Stdlib Require Import ZArith Lia Ascii.
From S2P Require Import Prelude Programs RustStr RustSlice Json Seam Config Decide Graph GraphFormat.
From S2P Require Import Identity Bindings BindingsSync PolicySource Snapshot Composition Wire Operands.
From S2P Require Import Texts SyncText Envelope Anchor Store StoreWorld StoreTheorems Breaker Handler.
From S2P Require Import Containment Baseline Effects LiveState ErrorTexts Reload LiveEdit.
Open Scope nat_scope.

Local Notation prog := (Programs.prog live_effect).

(** ** Worlds *)

Record cells := mkCells {
  c_persisted : Graph; c_revision : Z; c_snapshot : Snapshot; c_principal : Z; c_source : PolicySource;
  c_sync : SyncStatus; c_identity : Published; c_baseline : BaselineState }.

Record live_world := mkLiveWorld { lw_disk : world; lw_cells : cells }.

Definition with_cells (w : live_world) (c : cells) : live_world := mkLiveWorld (lw_disk w) c.
Definition with_sync (c : cells) (s : SyncStatus) : cells :=
  mkCells (c_persisted c) (c_revision c) (c_snapshot c) (c_principal c) (c_source c) s (c_identity c)
    (c_baseline c).

(** A source some load resolved; its bindings have a canonical section exactly when they
    list roles. *)
Definition loaded (src : PolicySource) : Prop :=
  is_some (bi_section (ps_bindings src)) = is_some (bi_roles (ps_bindings src)) /\
  exists policy lookups lookup principal paths,
    from_lookups policy (ps_bindings src) lookups lookup principal paths = Ok src.

(** What an effect answered so does to the cells; a read answers what is there, and the
    policy files hold one of [files]. *)
Definition cell_acts (files : PolicySource -> Prop) (c : cells) (X : Type) (e : live_effect X) (c' : cells) : X -> Prop :=
  let '(mkCells g r s p src sy i b) := c in
  match e in live_effect X return X -> Prop with
  | GetPersisted => fun x => x = g /\ c' = c
  | SetPersisted g' => fun _ => c' = mkCells g' r s p src sy i b
  | GetRevision => fun x => x = r /\ c' = c
  | SetRevision r' => fun _ => c' = mkCells g r' s p src sy i b
  | GetSnapshot => fun x => x = s /\ c' = c
  | Install s' => fun _ => c' = mkCells g r s' p src sy i b
  | GetPrincipal => fun x => x = p /\ c' = c
  | GetSource => fun x => x = src /\ c' = c
  | SetSource src' => fun _ => c' = mkCells g r s p src' sy i b
  | SetCounts n => fun _ => c' = mkCells g r s p src (set_counts sy n) i b
  | SetStale v => fun _ => c' = mkCells g r s p src (set_stale sy v) i b
  | BecameLost v => fun x => x = fst (became_lost sy v) /\ c' = mkCells g r s p src (snd (became_lost sy v)) i b
  | IsStale => fun x => x = ss_stale sy /\ c' = c
  | GetIdentity => fun x => x = pu_problems i /\ c' = c
  | PublishIdentity i' => fun x => x = pu_problems i /\ c' = mkCells g r s p src sy i' b
  | GetBaseline => fun x => x = b /\ c' = c
  | PublishBaseline b' => fun _ => c' = mkCells g r s p src sy i b'
  | LoadSource => fun x => c' = c /\ forall src', x = Ok src' -> loaded src' /\ files src'
  | _ => fun _ => c' = c
  end.

Definition live_acts (files : PolicySource -> Prop) (w : live_world) (ev : event live_effect) (w' : live_world) : Prop :=
  match ev_effect ev in live_effect X return X -> Prop with
  | OnStore X e => fun x => acts (lw_disk w) (Ev X e x) (lw_disk w') /\ lw_cells w' = lw_cells w
  | e => fun x => cell_acts files (lw_cells w) _ e (lw_cells w') x /\ lw_disk w' = lw_disk w
  end (ev_answer ev).

Section Files.
Context (files : PolicySource -> Prop).
Local Notation live_acts := (live_acts files).

(** ** The store's programs in this world *)

Section Lifted.
Context {A : Type} (I : world -> Prop) (c : cells).

Lemma keeps_on_store (p : Programs.prog store_effect A) (Q : A -> world -> Prop) : forall d,
  keeps acts I p Q d ->
  keeps live_acts (fun w => I (lw_disk w) /\ lw_cells w = c) (on_store p)
    (fun a w => Q a (lw_disk w) /\ lw_cells w = c) (mkLiveWorld d c).
Proof.
  induction p as [a|X e k IH]; intros d H; [done|].
  intros x [d' c'] [Ha Hc]. cbn in Ha, Hc. subst c'. destruct (H x d' Ha) as [Hi Hk].
  split; [done|]. by apply IH.
Qed.
End Lifted.

(** ** Programs that read, and programs that leave the state alone *)

(** Answered as the cells are, [p] changes nothing and its result satisfies [P]. *)
Definition quiet {A} (p : prog A) (P : cells -> A -> Prop) : Prop :=
  forall w, keeps live_acts (eq w) p (fun a w' => w' = w /\ P (lw_cells w) a) w.

Lemma quiet_then {A B} (p : prog A) (P : cells -> A -> Prop) I (f : A -> prog B) Q w :
  quiet p P -> I w -> (forall a, P (lw_cells w) a -> keeps live_acts I (f a) Q w) ->
  keeps live_acts I (bind p f) Q w.
Proof.
  intros Hp Hi Hf. apply keeps_bind. eapply keeps_mono; [| |apply (Hp w)].
  - by intros ? <-.
  - intros a w' [-> Ha]. by apply Hf.
Qed.

Lemma quiet_try {A B E} (p : prog (result A E)) (P : cells -> result A E -> Prop) I
    (f : A -> prog (result B E)) Q w :
  quiet p P -> I w -> (forall e, Q (Err e) w) ->
  (forall a, P (lw_cells w) (Ok a) -> keeps live_acts I (f a) Q w) ->
  keeps live_acts I (try_bind p f) Q w.
Proof. intros Hp Hi HE Hf. eapply quiet_then; [done..|]. intros [a|e] Ha; [by apply Hf|apply HE]. Qed.

Lemma quiet_ret {A} (a : A) (P : cells -> A -> Prop) : (forall c, P c a) -> quiet (Ret a) P.
Proof. intros H w. split; [done|apply H]. Qed.

Lemma quiet_mono {A} (p : prog A) (P P' : cells -> A -> Prop) :
  quiet p P -> (forall c a, P c a -> P' c a) -> quiet p P'.
Proof. intros H HP w. eapply keeps_mono; [done| |apply H]. intros a w' [-> Ha]. eauto. Qed.

(** The world with the store and the floor of [w0] and its cells but for the sync status. *)
Definition still (w0 w : live_world) : Prop :=
  undone (lw_disk w0) (lw_disk w) /\ exists sy, lw_cells w = with_sync (lw_cells w0) sy.

Lemma still_refl w : still w w.
Proof. split; [done|]. exists (c_sync (lw_cells w)). by destruct w as [d []]. Qed.
Lemma still_trans a b c : still a b -> still b c -> still a c.
Proof.
  intros [[H1 H2] [s Hs]] [[H3 H4] [t Ht]]. split; [split; congruence|]. exists t. rewrite Ht, Hs.
  by destruct a as [d []].
Qed.


Lemma emit_still w0 w rec : still w0 w -> keeps live_acts (still w0) (emit rec) (fun _ => still w0) w.
Proof.
  intros Hw r w' [Ha Hc]. cbn in Ha, Hc. assert (still w w') as Hs.
  { split; [|exists (c_sync (lw_cells w)); rewrite Hc; by destruct w as [d []]].
    destruct r as [[]|e]; [|destruct Ha as [Ha|Ha]]; by rewrite Ha. }
  assert (still w0 w') by by eapply still_trans. by split.
Qed.

Lemma stale_still w0 w b w' :
  still w0 w -> live_acts w (Ev _ (SetStale b) tt) w' -> still w0 w'.
Proof.
  intros H [Ha Hd]. eapply still_trans; [done|]. split; [by rewrite Hd|].
  destruct w as [d []], w' as [d' c']. cbn in Ha, Hd. subst. by eexists.
Qed.

(** An operation on the directory that is not on the store. *)
Lemma disk_still w0 w X (e : store_effect X) x w' :
  still w0 w -> (forall d d', acts d (Ev _ e x) d' -> d' = d) ->
  live_acts w (Ev _ (OnStore _ e) x) w' -> still w0 w'.
Proof.
  intros H He [Ha Hc]. eapply still_trans; [done|]. apply He in Ha.
  destruct w as [d c], w' as [d' c']. cbn in *. subst. apply still_refl.
Qed.

Section Mirror.
Context (sha256 : bytes -> digest).

Lemma rendered_still g w0 w : still w0 w ->
  keeps live_acts (still w0) (publish_rendered sha256 g) (fun _ => still w0) w.
Proof.
  intros Hw text w1 [Ht Hd]. assert (still w0 w1) as H1.
  { eapply still_trans; [done|]. destruct w as [d []], w1 as [d1 c1]. cbn in *. subst. apply still_refl. }
  split; [done|]. destruct text as [text|e]; [|done]. intros p w2 H2.
  assert (still w0 w2) by (eapply (disk_still w0 w1); [done| |exact H2]; by destruct p as [[]|[]]). by split.
Qed.

Lemma mirror_still g w0 w : still w0 w ->
  keeps live_acts (still w0) (publish_live_mirror sha256 g) (fun _ => still w0) w.
Proof.
  intros Hw. unfold publish_live_mirror. apply keeps_bind.
  apply (keeps_mono _ (still w0) _ _ (fun _ => still w0)); [done| |].
  { intros [h|reason] w' H; [done|]. unfold record_sync_unavailable. apply keeps_bind.
    eapply keeps_mono; [done| |by apply emit_still]. done. }
  unfold publish_or_remove. apply keeps_bind. eapply keeps_mono; [done| |by apply rendered_still].
  intros [h|cause] w1 H1.
  - intros [] w2 H2. assert (still w0 w2) by by eapply stale_still. by split.
  - cbn [bind on_store remove_mirror lift]. intros m w2 H2.
    assert (still w0 w2) as H2' by (eapply (disk_still w0 w1); [done| |exact H2]; done).
    split; [done|]. intros [] w3 H3. assert (still w0 w3) by by eapply stale_still. by split.
Qed.
End Mirror.
End Files.

(** One effect, answered by the cells. *)
Ltac live_step :=
  let x := fresh "x" in let d := fresh "d" in let c := fresh "c" in
  let H := fresh "H" in let Hd := fresh "Hd" in
  intros x [d c] H; destruct H as [H Hd]; cbn in H, Hd; subst d;
  first [subst c | destruct H as [-> ->]].
