(* ===== verification/LiveInvariant.v ===== *)
(** * What reloads and live edits do to the world

    The invariant between turns ([live_ok]), and for each operation what its result says
    of the world it leaves. *)
From stdpp Require Import base list strings gmap.
From Stdlib Require Import ZArith Lia Ascii.
From S2P Require Import Prelude Programs RustStr RustSlice Json Seam Config Decide Graph GraphFormat.
From S2P Require Import Identity Bindings BindingsSync PolicySource Snapshot Composition Wire Operands.
From S2P Require Import Texts SyncText Envelope Anchor Store StoreWorld StoreTheorems Breaker Handler.
From S2P Require Import Containment Baseline Effects LiveState ErrorTexts Reload LiveEdit LiveWorld.
Open Scope nat_scope.

Local Notation prog := (Programs.prog live_effect).

Section Invariant.
Context (aead : Aead) (sha256 : bytes -> digest) `{!AeadLaws aead}.
Context (grapheme_extended printable : Z -> bool).
Context (f64_to_string : Z -> string) (from_str : string -> result Json string).
Context (rl : Reloader).
Context (files : PolicySource -> Prop).
Local Notation live_acts := (live_acts files).
Local Notation quiet := (quiet files).

Local Notation live_edit_resolving :=
  (live_edit_resolving aead sha256 grapheme_extended printable f64_to_string from_str rl).
Local Notation commit_edit := (commit_edit aead sha256 grapheme_extended printable f64_to_string from_str rl).
Local Notation edit_stored := (edit_stored aead sha256 grapheme_extended printable f64_to_string from_str rl).
Local Notation plan_edit := (plan_edit f64_to_string from_str).
Local Notation edit_candidate :=
  (edit_candidate grapheme_extended printable f64_to_string from_str rl).
Local Notation holds := (holds aead sha256 (rl_key rl)).
Local Notation digests := (section_digests (rl_digest rl)).
Local Notation full := (vo_full (rl_vocabulary rl)).

(** ** The invariant *)

(** The snapshot is the persisted graph's, compiled over the source. *)
Record serves (g : Graph) (src : PolicySource) (snap : Snapshot) : Prop := {
  sv_graph : exists compiled, graph_ok SCHEMA compiled g;
  sv_source : loaded src;
  sv_compiled : compile g src full (digests src) = Ok snap }.

(** The graph of [g0] with another baseline accepted, any number of times: its identity
    layer and sync base read out and built again. *)
Inductive rebuilt (g0 : Graph) : Graph -> Prop :=
| rebuilt_refl : rebuilt g0 g0
| rebuilt_accept g x baseline revision initiator g' :
    rebuilt g0 g -> extract g = Ok x ->
    build (x_layer x) baseline (x_sync x) (vo_persisted (rl_vocabulary rl)) (vo_digest (rl_vocabulary rl))
      revision initiator = Ok g' ->
    rebuilt g0 g'.

(** Between turns: the store holds the persisted graph, the revision and the floor are
    its, and the installed snapshot serves it, or the graph it was rebuilt from. *)
Record live_ok (w : live_world) : Prop := {
  lo_held : exists d, holds (lw_disk w) (c_persisted (lw_cells w)) d;
  lo_revision : c_revision (lw_cells w) = g_revision (c_persisted (lw_cells w));
  lo_floor : w_floor (lw_disk w) = c_revision (lw_cells w);
  lo_serves : exists g0, rebuilt g0 (c_persisted (lw_cells w)) /\
    serves g0 (c_source (lw_cells w)) (c_snapshot (lw_cells w)) }.

Lemma holds_same w w' g d : w_store w' = w_store w -> holds w g d -> holds w' g d.
Proof. intros E (draw & plain & f & H). exists draw, plain, f. by rewrite E. Qed.

Lemma still_ok w w' : still w w' -> live_ok w -> live_ok w'.
Proof.
  intros [[Hs Hf] [sy Hc]] [[d Hh] Hr Hfl Hv]. rewrite <-Hf in Hfl.
  destruct w as [dk c], w' as [dk' c']. cbn in *. subst c'. destruct c; cbn in *.
  constructor; cbn; [exists d; by eapply holds_same|done..].
Qed.

(** ** Quiet steps *)

Lemma quiet_vis {A X} (e : live_effect X) (R : cells -> X -> Prop) (f : X -> prog A) P :
  (forall w x w', live_acts w (Ev _ e x) w' -> w' = w /\ R (lw_cells w) x) ->
  (forall x, quiet (f x) (fun c a => R c x -> P c a)) -> quiet (Vis e f) P.
Proof.
  intros He Hf w x w' Hs. destruct (He _ _ _ Hs) as [-> Hx]. split; [done|].
  eapply keeps_mono; [done| |apply (Hf x)]. intros a w1 [-> Ha]. auto.
Qed.

Ltac idle := intros [? []] ? [? ?] H; cbn in H; destruct H as [H ->]; cbn in H;
  first [destruct H as [-> ->] | subst]; by split.

Lemma quiet_get_snapshot {A} (f : Snapshot -> prog A) P :
  (forall s, quiet (f s) (fun c a => s = c_snapshot c -> P c a)) -> quiet (Vis GetSnapshot f) P.
Proof. apply quiet_vis. idle. Qed.
Lemma quiet_get_principal {A} (f : Z -> prog A) P :
  (forall p, quiet (f p) (fun c a => p = c_principal c -> P c a)) -> quiet (Vis GetPrincipal f) P.
Proof. apply quiet_vis. idle. Qed.

(** An effect whose answer says nothing of the cells. *)
Definition outside {X} (e : live_effect X) : Prop :=
  forall w x w', live_acts w (Ev _ e x) w' -> w' = w.
Lemma quiet_outside {A X} (e : live_effect X) (f : X -> prog A) P :
  outside e -> (forall x, quiet (f x) P) -> quiet (Vis e f) P.
Proof.
  intros He Hf. apply (quiet_vis _ (fun _ _ => True)); [intros w x w' H; split; [by eapply He|done]|].
  intros x. eapply quiet_mono; [apply Hf|]. auto.
Qed.

Ltac outside := intros [? []] ? [? ?] H; cbn in H; destruct H as [H ->]; cbn in H; by subst.

Lemma outside_turn : outside TakeTurn. Proof. outside. Qed.
Lemma outside_stopping : outside Stopping. Proof. outside. Qed.
Lemma outside_stopped : outside StopSignalled. Proof. outside. Qed.
Lemma outside_begin g : outside (Begin g). Proof. outside. Qed.
Lemma outside_succeeded g : outside (Succeeded g). Proof. outside. Qed.
Lemma outside_timed_out g : outside (TimedOut g). Proof. outside. Qed.
Lemma outside_blocking : outside Blocking. Proof. outside. Qed.
Lemma outside_baseline_file : outside BaselineFile. Proof. outside. Qed.
Local Hint Resolve outside_turn outside_stopping outside_stopped outside_begin outside_succeeded
  outside_timed_out outside_blocking outside_baseline_file : outside.

Ltac step := apply quiet_outside; [by auto with outside|intros ?].
Ltac done_quiet := apply quiet_ret; cbn; naive_solver.

(** An answered job is the job's own answer. *)
Lemma probe_quiet {T} (job : option T) :
  quiet (probe_blocking job) (fun _ r => forall t, r = Ok t -> job = Some t).
Proof.
  unfold probe_blocking. step. destruct x; [|done_quiet..]. step.
  destruct x, job; step; done_quiet.
Qed.

Lemma within_quiet {A E} ms (job : result A (fault E)) :
  quiet (within_blocking ms job)
    (fun _ r => forall a, r = Ok a -> job = match a with Ok v => Ok v | Err e => Err (Refused e) end).
Proof. unfold within_blocking. step. destruct x, job as [|[]]; done_quiet. Qed.

Lemma quiet_bind {A B} (p : prog A) (P : cells -> A -> Prop) (f : A -> prog B) (Q : cells -> B -> Prop) :
  quiet p P -> (forall a, quiet (f a) (fun c b => P c a -> Q c b)) -> quiet (bind p f) Q.
Proof.
  intros Hp Hf w. eapply quiet_then; [done|done|]. intros a Ha.
  eapply keeps_mono; [done| |apply (Hf a)]. intros b w' [-> Hb]. auto.
Qed.

(** The request is permitted on the snapshot and by the principal installed. *)
Definition permitted_now (c : cells) (action : Request) : Prop :=
  exists l d, decide_candidate_all (c_snapshot c) (c_principal c) (rl_ceiling rl) [action] = Some l /\
    head l = Some d /\ denial d = None.

Lemma reauthorize_quiet action :
  quiet (reauthorize rl action) (fun c r => r = Ok tt -> permitted_now c action).
Proof.
  unfold reauthorize. apply quiet_get_snapshot. intros s. apply quiet_get_principal. intros p.
  eapply quiet_bind; [apply probe_quiet|]. intros r. apply quiet_ret. intros c Hr -> ->.
  destruct r as [[why|]|[]]; try done. intros _. specialize (Hr None eq_refl). unfold permitted_now.
  destruct (decide_candidate_all (c_snapshot c) (c_principal c) (rl_ceiling rl) [action]) as [l|]; [|done].
  injection Hr as Hr.
  destruct (head l) as [d|] eqn:Eh; [|done]. by exists l, d.
Qed.

Lemma admitted_quiet req :
  quiet (admitted rl req) (fun c r => r = Ok tt ->
    forall action, lr_authorized req = Some action -> permitted_now c action).
Proof.
  unfold admitted. step. destruct x; [|done_quiet]. step. destruct x; [done_quiet|].
  destruct (lr_authorized req) as [action|]; [|done_quiet].
  eapply quiet_mono; [apply reauthorize_quiet|]. naive_solver.
Qed.

(** What the operator's check found on the candidate. *)
Definition checked (check : LiveCheck) (c : cells) (candidate : Snapshot) : Prop :=
  forall target requester, check = CheckContain target requester ->
    exists p, probe_job rl target requester (c_principal c) (c_snapshot c) candidate = Some (Ok p) /\
      check_contain target (Some requester) (Ok p) = Ok tt.

Lemma checked_quiet check cand :
  quiet (checked_candidate rl check cand) (fun c r => r = Ok tt -> checked check c (ec_snapshot cand)).
Proof.
  unfold checked_candidate. destruct check as [|target requester|target];
    [apply quiet_ret; by intros c _ t q| |apply quiet_ret; by intros c _ t q].
  apply (quiet_bind _ (fun c r => forall p, r = Ok p ->
    probe_job rl target requester (c_principal c) (c_snapshot c) (ec_snapshot cand) = Some (Ok p))).
  - unfold probe_contain. apply quiet_get_snapshot. intros s. apply quiet_get_principal. intros p.
    eapply quiet_bind; [apply probe_quiet|]. intros [[pr|e]|e]; apply quiet_ret; try done.
    intros c Hr -> -> ? [= <-]. by apply Hr.
  - intros r. apply quiet_ret. intros c Hr H t q [= <- <-].
    destruct r as [pr|[]]; try done. exists pr. split; [by apply Hr|].
    destruct (check_contain target (Some requester) (Ok pr)) as [[]|]; done.
Qed.

(** ** The commit of an edit *)

(** The world after [g] was committed and its snapshot and source installed. *)
Record committed (w : live_world) (g : Graph) (snap : Snapshot) (src : PolicySource) (w' : live_world)
  : Prop := {
  cm_held : exists d, holds (lw_disk w') g d;
  cm_floor : w_floor (lw_disk w') = g_revision g;
  cm_later : (w_floor (lw_disk w) < g_revision g)%Z;
  cm_persisted : c_persisted (lw_cells w') = g;
  cm_revision : c_revision (lw_cells w') = g_revision g;
  cm_snapshot : c_snapshot (lw_cells w') = snap;
  cm_source : c_source (lw_cells w') = src;
  cm_principal : c_principal (lw_cells w') = c_principal (lw_cells w) }.

Lemma committed_still w g snap src w1 w2 :
  still w1 w2 -> committed w g snap src w1 -> committed w g snap src w2.
Proof.
  intros [[Hs Hf] [sy Hc]] [[d Hh] ? ? ? ? ? ? ?].
  destruct w1 as [d1 []], w2 as [d2 c2]. cbn in *. subst c2.
  constructor; cbn in *; try congruence. exists d. by eapply holds_same.
Qed.

Lemma committed_ok w g snap src w' : serves g src snap -> committed w g snap src w' -> live_ok w'.
Proof.
  intros Hs [? ? ? Hp Hr Hn Hc ?]. constructor; rewrite ?Hp, ?Hr, ?Hn, ?Hc; try done.
  exists g. split; [constructor|done].
Qed.

Lemma commit_edit_keeps req cand w :
  keeps live_acts (fun _ => True) (commit_edit req cand)
    (fun r w' => match r with
     | Ok rev => rev = g_revision (ec_graph cand) /\
         committed w (ec_graph cand) (ec_snapshot cand) (ec_source cand) w'
     | Err _ => still w w'
     end) w.
Proof.
  unfold LiveEdit.commit_edit. apply keeps_bind. destruct w as [dk c].
  eapply keeps_mono; [done| |eapply keeps_on_store; apply transition_holds].
  intros [co|[|e]] [dk' c'] [H Hc]; cbn in Hc; subst c'.
  2: { split; [done|]. exists (c_sync c). by destruct c. }
  2: { intros [] w2 H2. assert (still (mkLiveWorld dk c) w2) by (eapply stale_still; [|exact H2];
         split; [done|]; exists (c_sync c); by destruct c). by split. }
  destruct H as (Hh & Hrev & Hfl & Hlt). destruct c as [g0 r0 s0 p0 src0 sy0 i0 b0].
  do 6 (live_step; split; [done|]).
  assert (committed (mkLiveWorld dk (mkCells g0 r0 s0 p0 src0 sy0 i0 b0)) (ec_graph cand)
    (ec_snapshot cand) (ec_source cand)
    (mkLiveWorld dk' (mkCells (ec_graph cand) (co_revision co) (ec_snapshot cand) p0
      (ec_source cand) (set_counts sy0 (ec_counts cand))
      (published_of (ec_snapshot cand) (transition_problems (ec_released cand))) b0))) as Hcm.
  { by constructor; cbn; eauto. }
  match goal with |- keeps _ _ _ _ ?w0 => set (w1 := w0) in * end.
  apply keeps_bind. eapply keeps_mono; [done| |apply (mirror_still files sha256 _ w1), still_refl].
  intros [] w2 H2. apply keeps_bind. eapply keeps_mono; [done| |by apply (emit_still files w1)].
  intros r w3 H3. split; [done|]. exact (committed_still _ _ _ _ _ _ H3 Hcm).
Qed.

(** ** The edit *)

(** What a committed edit was planned from, and its candidate. *)
Record edit_facts (c : cells) (req : LiveRequest) (stored : Extracted) (edit : LiveEdit)
    (sync : SyncBase) (live : Section_) (edited : Edited) (cand : EditCandidate) : Prop := {
  ef_planned : plan_edit stored (lr_check req) edit = Ok (sync, live, edited);
  ef_source : with_live_bindings (c_source c) (from_section f64_to_string (ed_live edited))
    = Ok (ec_source cand);
  ef_candidate : edit_candidate stored req edit sync live edited (ec_source cand) (c_revision c) = Ok cand;
  ef_checked : checked (lr_check req) c (ec_snapshot cand) }.

Lemma edit_candidate_source stored req edit sync live edited source revision cand :
  edit_candidate stored req edit sync live edited source revision = Ok cand -> ec_source cand = source.
Proof.
  unfold LiveEdit.edit_candidate. intros H. destruct (next_layer _ _ _ _ _) as [next gone].
  unbind H. by injection H as <-.
Qed.

Lemma edit_stored_keeps req stored edit w :
  keeps live_acts (fun _ => True) (edit_stored req stored edit)
    (fun r w' => match r with
     | Ok rev => exists sync live edited cand, edit_facts (lw_cells w) req stored edit sync live edited cand /\
         rev = g_revision (ec_graph cand) /\
         committed w (ec_graph cand) (ec_snapshot cand) (ec_source cand) w'
     | Err _ => still w w'
     end) w.
Proof.
  pose proof (still_refl w) as Hst. unfold LiveEdit.edit_stored. destruct w as [d [g r s p src sy i b]].
  destruct (plan_edit stored (lr_check req) edit) as [[[sync live] edited]|e] eqn:Ep; [|done].
  cbn [try_bind bind]. live_step. split; [done|]. destruct (is_some _); [done|].
  eapply quiet_then; [apply within_quiet|done|]. intros [[source|e]|e] Hj; try done.
  specialize (Hj _ eq_refl). cbn [try_bind bind map_err].
  live_step. split; [done|].
  destruct (edit_candidate stored req edit sync live edited source r) as [cand|e] eqn:Ec; [|done].
  cbn [try_bind bind]. pose proof (edit_candidate_source _ _ _ _ _ _ _ _ _ Ec) as Hsrc.
  eapply quiet_try; [apply checked_quiet|done|done|]. intros [] Hck.
  eapply keeps_mono; [done| |apply commit_edit_keeps].
  intros [rev|e] w' H; [|done]. exists sync, live, edited, cand. destruct H as [Hr Hc].
  split; [|done]. constructor; cbn; rewrite ?Hsrc; try done. by apply Hck.
Qed.

(** A live edit that commits, from the stored graph to the world it leaves. *)
Record edited_to (w : live_world) (req : LiveRequest) (rel : option Z) (rev : Z) (stored : Extracted)
    (edit : LiveEdit) (sync : SyncBase) (live : Section_) (edited : Edited) (cand : EditCandidate)
    (w' : live_world) : Prop := {
  et_stored : extract (c_persisted (lw_cells w)) = Ok stored;
  et_resolved : resolve_op (x_layer stored) (lr_op req) = (edit, rel);
  et_permitted : forall action, lr_authorized req = Some action -> permitted_now (lw_cells w) action;
  et_facts : edit_facts (lw_cells w) req stored edit sync live edited cand;
  et_revision : rev = g_revision (ec_graph cand);
  et_committed : committed w (ec_graph cand) (ec_snapshot cand) (ec_source cand) w' }.

Lemma live_edit_keeps req w :
  keeps live_acts (fun _ => True) (live_edit_resolving req)
    (fun r w' => match fst r with
     | Ok rev => exists stored edit sync live edited cand,
         edited_to w req (snd r) rev stored edit sync live edited cand w'
     | Err _ => still w w'
     end) w.
Proof.
  pose proof (still_refl w) as Hst. unfold LiveEdit.live_edit_resolving.
  eapply quiet_then; [apply admitted_quiet|done|]. intros [[]|e] Ha; [|done]. specialize (Ha eq_refl).
  destruct w as [d [g r s p src sy i b]]. live_step. split; [done|].
  destruct (extract g) as [stored|e] eqn:Ex; [|done].
  destruct (resolve_op (x_layer stored) (lr_op req)) as [edit rel] eqn:Er.
  apply keeps_bind. eapply keeps_mono; [done| |apply edit_stored_keeps].
  intros [rev|e] w' H; [|done]. cbn. destruct H as (sync & live & edited & cand & Hf & Hr & Hc).
  by exists stored, edit, sync, live, edited, cand.
Qed.

(** ** Candidates *)

Lemma built_ok layer baseline sync cs vocabulary revision initiator g :
  build layer baseline sync cs vocabulary revision initiator = Ok g -> graph_ok SCHEMA cs g.
Proof.
  intros (b & all & H & _)%build_encoded_of. unfold build_encoded in H.
  destruct (assemble b SCHEMA cs) as [g'|] eqn:Ea; [|done]. destruct (encode g'); [|done].
  destruct (negb _); [done|]. apply Ok_inj in H. injection H as -> _. by apply assemble_inv in Ea as [Hg _].
Qed.

Lemma resolved_loaded policy b lookups lookup principal paths src :
  from_lookups policy b lookups lookup principal paths = Ok src ->
  is_some (bi_section b) = is_some (bi_roles b) -> loaded src /\ ps_bindings src = b.
Proof.
  intros H Hb. destruct (from_lookups_inv _ _ _ _ _ _ _ H) as (_ & _ & _ & Hbi & _).
  split; [|done]. unfold loaded. rewrite Hbi. split; [done|]. by eexists _, _, _, _, _.
Qed.

Lemma from_section_declares s :
  is_some (bi_section (from_section f64_to_string s)) = is_some (bi_roles (from_section f64_to_string s)).
Proof. by destruct s. Qed.

Lemma live_bindings_loaded src s src' :
  with_live_bindings src (from_section f64_to_string s) = Ok src' ->
  loaded src' /\ ps_bindings src' = from_section f64_to_string s.
Proof.
  unfold with_live_bindings. intros H. unbind H. unfold with_bindings_resolved in H.
  by apply resolved_loaded in H; [|apply from_section_declares].
Qed.

Lemma bindings_loaded src s src' :
  with_bindings src (from_section f64_to_string s) = Ok src' ->
  loaded src' /\ ps_bindings src' = from_section f64_to_string s.
Proof.
  unfold with_bindings. intros H. unbind H. unfold with_bindings_resolved in H.
  by apply resolved_loaded in H; [|apply from_section_declares].
Qed.

Lemma edit_candidate_inv stored req edit sync live edited source revision cand :
  edit_candidate stored req edit sync live edited source revision = Ok cand ->
  exists next baseline sync',
    build next baseline sync' (vo_persisted (rl_vocabulary rl)) (vo_digest (rl_vocabulary rl))
      (saturating_succ revision) (live_provenance (lr_who req)) = Ok (ec_graph cand) /\
    compile (ec_graph cand) source full (digests source) = Ok (ec_snapshot cand).
Proof.
  unfold LiveEdit.edit_candidate, refusing. intros H. destruct (next_layer _ _ _ _ _) as [next gone].
  unbind H. injection H as <-. cbn. eexists next, _, _. split; by eapply map_err_Ok.
Qed.

Lemma saturating_later r : (r < saturating_succ r)%Z -> saturating_succ r = (r + 1)%Z.
Proof. unfold saturating_succ. destruct (Z.eqb_spec r (u64_max - 1)); lia. Qed.

Lemma edited_ok w req rel rev stored edit sync live edited cand w' :
  live_ok w -> edited_to w req rel rev stored edit sync live edited cand w' ->
  live_ok w' /\ rev = (c_revision (lw_cells w) + 1)%Z /\
  serves (ec_graph cand) (ec_source cand) (ec_snapshot cand).
Proof.
  intros Hw [Hx Hr Hp [Hpl Hsrc Hc Hck] Hrev Hcm].
  destruct (edit_candidate_inv _ _ _ _ _ _ _ _ _ Hc) as (next & bl & sy & Hb & Hcomp).
  assert (serves (ec_graph cand) (ec_source cand) (ec_snapshot cand)) as Hs.
  { constructor; [|by apply live_bindings_loaded in Hsrc as [? _]|done]. eexists. by eapply built_ok. }
  split; [by eapply committed_ok|]. split; [|done].
  pose proof (cm_later _ _ _ _ _ Hcm) as Hl. rewrite (lo_floor _ Hw) in Hl.
  rewrite Hrev, (build_revision _ _ _ _ _ _ _ _ Hb) in *. by apply saturating_later.
Qed.

(** ** The reload *)

Local Notation reload := (reload aead sha256 grapheme_extended printable f64_to_string from_str rl).
Local Notation candidate_of := (candidate_of grapheme_extended printable rl).
Local Notation merge_source := (merge_source f64_to_string from_str grapheme_extended printable).

(** The world with the store, the floor and what decides of [w0]. *)
Record calm (w0 w : live_world) : Prop := {
  ca_disk : undone (lw_disk w0) (lw_disk w);
  ca_persisted : c_persisted (lw_cells w) = c_persisted (lw_cells w0);
  ca_revision : c_revision (lw_cells w) = c_revision (lw_cells w0);
  ca_snapshot : c_snapshot (lw_cells w) = c_snapshot (lw_cells w0);
  ca_principal : c_principal (lw_cells w) = c_principal (lw_cells w0);
  ca_source : c_source (lw_cells w) = c_source (lw_cells w0) }.

Lemma still_calm w0 w : still w0 w -> calm w0 w.
Proof. intros [Hd [sy Hc]]. destruct w0 as [d []], w as [d' c']. cbn in *. subst c'. by constructor. Qed.
Lemma calm_refl w : calm w w.
Proof. apply still_calm, still_refl. Qed.
Lemma calm_trans a b c : calm a b -> calm b c -> calm a c.
Proof. intros [[] ? ? ? ? ?] [[] ? ? ? ? ?]. constructor; [split|..]; congruence. Qed.

Lemma calm_ok w w' : calm w w' -> live_ok w -> live_ok w'.
Proof.
  intros [[Hs Hf] Hp Hr Hn _ Hc] [[d Hh] ? ? ?]. constructor; rewrite ?Hp, ?Hr, ?Hn, ?Hc; try congruence.
  exists d. by eapply holds_same.
Qed.

(** Effects that leave what decides alone. *)
Definition calming {A} (p : prog A) : Prop :=
  forall w0 w, calm w0 w -> keeps live_acts (calm w0) p (fun _ => calm w0) w.

Lemma calming_bind {A B} (p : prog A) (f : A -> prog B) :
  calming p -> (forall a, calming (f a)) -> calming (bind p f).
Proof.
  intros Hp Hf w0 w Hw. apply keeps_bind. eapply keeps_mono; [done| |by apply Hp].
  intros a w' H. by apply Hf.
Qed.
Lemma calming_ret {A} (a : A) : calming (Ret a).
Proof. by intros w0 w. Qed.
Lemma calming_vis {A X} (e : live_effect X) (f : X -> prog A) :
  (forall w x w', live_acts w (Ev _ e x) w' -> calm w w') -> (forall x, calming (f x)) -> calming (Vis e f).
Proof.
  intros He Hf w0 w Hw x w' H. assert (calm w0 w') by (eapply calm_trans; [done|by eapply He]).
  split; [done|]. by apply Hf.
Qed.
Lemma stilling_calming {A} (p : prog A) :
  (forall w, keeps live_acts (still w) p (fun _ => still w) w) -> calming p.
Proof.
  intros H w0 w Hw. eapply keeps_mono; [| |apply (H w)];
    intros; (eapply calm_trans; [done|by apply still_calm]).
Qed.
Lemma emit_calming rec : calming (emit rec).
Proof. apply stilling_calming. intros w. apply emit_still, still_refl. Qed.
Lemma mirror_calming g : calming (publish_live_mirror sha256 g).
Proof. apply stilling_calming. intros w. apply mirror_still, still_refl. Qed.
Lemma sync_unavailable_calming reason : calming (record_sync_unavailable reason).
Proof. apply calming_bind; [apply emit_calming|]. intros _. apply calming_ret. Qed.

Lemma record_problems_calming l : calming (record_problems l).
Proof.
  induction l as [|p l IH]; [apply calming_ret|]. cbn [record_problems].
  destruct (identity_record_fields p) as [[r reason] posture].
  apply calming_bind; [apply emit_calming|]. intros [[]|e]; [done|apply calming_ret].
Qed.

Ltac calm_step := intros [? []] ? [? ?] H; destruct H as [H Hd]; cbn in H, Hd;
  match type of H with _ /\ _ => destruct H as [? H] | _ => idtac end; subst; by constructor.

Lemma outcome_calming rev noted r : calming (reload_record_outcome sha256 rev noted r).
Proof.
  unfold reload_record_outcome. destruct (reload_outcome r) as [[res reason] posture].
  destruct (match r with Ok a => _ | Err _ => _ end) as [revision anchor].
  apply calming_vis; [calm_step|intros current]. apply calming_vis; [calm_step|intros stale].
  apply calming_bind; [apply emit_calming|intros _].
  apply calming_bind; [apply record_problems_calming|intros appending].
  apply calming_bind.
  { destruct (no_pending noted) as [set|]; [|apply calming_ret]. destruct appending; [|apply calming_ret].
    destruct (pending_record_fields set) as [[? ?] ?]. apply calming_bind; [apply emit_calming|].
    intros [[]|e]; [|apply calming_ret]. apply calming_vis; [calm_step|intros status].
    apply calming_vis; [calm_step|intros _]. apply calming_ret. }
  intros _. apply calming_bind.
  { destruct (_ && _); [|apply calming_ret]. apply calming_vis; [calm_step|]. intros g. apply mirror_calming. }
  intros _. destruct (no_lost noted); [apply sync_unavailable_calming|apply calming_ret].
Qed.

(** What a reload loaded, and the candidate it made of it. *)
Record reload_facts (c : cells) (rev : Z) (stored : Extracted) (file : PolicySource)
    (merged : MergedSource) (p : Plan) (cand : ReloadCandidate) : Prop := {
  rf_stored : extract (c_persisted c) = Ok stored;
  rf_sync : is_some (x_sync stored) = true;
  rf_file : loaded file;
  rf_read : files file;
  rf_merged : merge_source file (x_sync stored) = Ok merged;
  rf_candidate : exists bl prov, candidate_of (c_persisted c) stored bl merged rev =
    Ok (p, rd_graph cand, rd_snapshot cand, rd_released cand, prov);
  rf_source : rd_source cand = ms_source merged }.

Lemma quiet_get_persisted {A} (f : Graph -> prog A) P :
  (forall g, quiet (f g) (fun c a => g = c_persisted c -> P c a)) -> quiet (Vis GetPersisted f) P.
Proof. apply quiet_vis. idle. Qed.

Lemma load_quiet g rev :
  quiet (load_candidate sha256 grapheme_extended printable f64_to_string from_str rl g rev)
    (fun c r => g = c_persisted c -> forall p cand, r = Ok (p, cand) ->
       exists stored file merged, reload_facts c rev stored file merged p cand).
Proof.
  unfold load_candidate. destruct (extract g) as [stored|e] eqn:Ex; [|done_quiet]. cbn [try_bind bind map_err].
  destruct (is_none (x_sync stored)) eqn:Es; [done_quiet|].
  destruct (x_baseline stored) as [bl|]; [|done_quiet]. cbn [try_bind bind ok_or].
  apply (quiet_vis _ (fun _ x => forall src, x = Ok src -> loaded src /\ files src)).
  { intros [d []] x [d' c'] [[Hc Hl] Hd]. cbn in *. by subst. }
  intros [file|[|e]]; [|done_quiet..]. cbn [try_bind bind refusing map_err].
  destruct (merge_source file (x_sync stored)) as [merged|[e|[|e]]] eqn:Em; [|done_quiet..].
  cbn [try_bind bind].
  destruct (candidate_of g stored bl merged rev) as [[[[[p graph] snap] gone] prov]|e] eqn:Ec; [|done_quiet].
  cbn [try_bind bind]. apply (quiet_vis _ (fun _ _ => True)); [idle|]. intros accepted.
  step. apply quiet_ret. intros c _ Hl -> p' cand H. injection H as <- <-.
  exists stored, file, merged. constructor; cbn; try done; [|by apply Hl..|by exists bl, prov].
  by destruct (x_sync stored).
Qed.

Lemma reload_load_quiet rev :
  quiet (reload_load sha256 grapheme_extended printable f64_to_string from_str rl rev)
    (fun c r => forall p cand, r = Ok (p, cand) ->
       exists stored file merged, reload_facts c rev stored file merged p cand).
Proof.
  unfold reload_load. apply quiet_get_persisted. intros g.
  eapply quiet_bind; [apply load_quiet|]. intros r. step. apply quiet_ret. intros c Hr Hg p cand.
  destruct x, r as [|[]]; try done; auto.
Qed.

Lemma merge_source_inv file stored merged :
  loaded file -> merge_source file stored = Ok merged ->
  exists parsed, try_opt (stored_sections f64_to_string from_str) stored = Ok parsed /\
    let m := merge f64_to_string parsed (section_of (ps_bindings file)) in
    loaded (ms_source merged) /\ section_of (ps_bindings (ms_source merged)) = mg_live m.
Proof.
  intros Hl H. unfold SyncText.merge_source, merge_source_with in H.
  destruct (try_opt _ stored) as [parsed|] eqn:Ep; [|done]. cbn [map_err] in H. exists parsed. split; [done|].
  cbn zeta. set (m := merge f64_to_string parsed (section_of (ps_bindings file))) in *.
  destruct (fold_left _ _ _) as [events lost]. case_bool_decide as Hm.
  - injection H as <-. cbn. by rewrite Hm.
  - destruct (with_bindings file _) as [src|e] eqn:Ew; [|done]. cbn [map_err] in H. injection H as <-. cbn.
    apply bindings_loaded in Ew as [Hs ->]. split; [done|]. by destruct (mg_live m).
Qed.

Lemma candidate_inv g stored bl merged rev p graph snap gone prov :
  candidate_of g stored bl merged rev = Ok (p, graph, snap, gone, prov) ->
  compile graph (ms_source merged) full (digests (ms_source merged)) = Ok snap /\
  (p = PlanUnchanged /\ graph = g \/
   p = PlanPersist (saturating_succ rev) /\ g_revision graph = saturating_succ rev /\
   exists compiled, graph_ok SCHEMA compiled graph).
Proof.
  unfold Reload.candidate_of. intros H. destruct (next_layer _ _ _ _ _) as [next l].
  unfold plan_candidate, refusing in H. unfold plan in *. destruct (_ && _).
  - destruct (compile g _ _ _) as [s|e] eqn:Ec; [|done]. cbn [map_err] in H. injection H as <- <- <- <- <-.
    split; [done|]. by left.
  - destruct (build _ _ _ _ _ _ _) as [graph'|e] eqn:Eb; [|done]. cbn [map_err] in H.
    destruct (compile graph' _ _ _) as [s|e] eqn:Ec; [|done]. cbn [map_err] in H. injection H as <- <- <- <- <-.
    split; [done|]. right. split; [done|]. split; [by eapply build_revision|]. eexists. by eapply built_ok.
Qed.

(** The world once a reload's graph is committed and its snapshot not yet installed. *)
Record halfway (w : live_world) (g : Graph) (w' : live_world) : Prop := {
  hw_held : exists d, holds (lw_disk w') g d;
  hw_floor : w_floor (lw_disk w') = g_revision g;
  hw_later : (w_floor (lw_disk w) <= g_revision g)%Z;
  hw_persisted : c_persisted (lw_cells w') = g;
  hw_revision : c_revision (lw_cells w') = c_revision (lw_cells w);
  hw_principal : c_principal (lw_cells w') = c_principal (lw_cells w) }.

Lemma calm_halfway w g w1 w2 : calm w1 w2 -> halfway w g w1 -> halfway w g w2.
Proof.
  intros [[] ? ? ? ? ?] [[d Hh] ? ? ? ? ?]. constructor; try congruence. exists d. by eapply holds_same.
Qed.

Lemma reload_commit_keeps cand w :
  keeps live_acts (fun _ => True)
    (reload_commit aead sha256 grapheme_extended printable f64_to_string from_str rl cand)
    (fun r w' => match r with
     | Ok (_, (rev, _, _)) => rev = g_revision (rd_graph cand) /\
         (w_floor (lw_disk w) < rev)%Z /\ halfway w (rd_graph cand) w'
     | Err _ => calm w w'
     end) w.
Proof.
  unfold reload_commit. apply keeps_bind. destruct w as [dk c].
  eapply keeps_mono; [done| |eapply keeps_on_store; apply transition_holds].
  intros [co|[|e]] [dk' c'] [H Hc]; cbn in Hc; subst c'.
  2: by constructor.
  2: { intros [] w2 H2. split; [done|]. apply still_calm. eapply stale_still; [|exact H2].
       split; [done|]. exists (c_sync c). by destruct c. }
  destruct H as (Hh & Hrev & Hfl & Hlt). destruct c as [g0 r0 s0 p0 src0 sy0 i0 b0].
  live_step. split; [done|].
  assert (halfway (mkLiveWorld dk (mkCells g0 r0 s0 p0 src0 sy0 i0 b0)) (rd_graph cand)
    (mkLiveWorld dk' (mkCells (rd_graph cand) r0 s0 p0 src0 sy0 i0 b0))) as Hhw.
  { constructor; cbn in *; eauto; lia. }
  match goal with |- keeps _ _ _ _ ?w0 => set (w1 := w0) in * end.
  apply keeps_bind. eapply keeps_mono; [done| |apply (mirror_calming _ w1), calm_refl].
  intros [] w2 H2. split; [done|]. split; [cbn; lia|]. by eapply calm_halfway.
Qed.

(** The install of a candidate. *)
Lemma install_keeps noted cand g w w1 : halfway w g w1 ->
  keeps live_acts (fun _ => True) (reload_install noted cand)
    (fun _ w' => halfway w g w' /\ c_snapshot (lw_cells w') = rd_snapshot cand /\
       c_source (lw_cells w') = rd_source cand) w1.
Proof.
  intros Hw. unfold reload_install. destruct w1 as [d [g0 r0 s0 p0 src0 sy0 i0 b0]].
  destruct Hw as [? ? ? ? ? ?]. cbn in *.
  do 5 (live_step; split; [done|]).
  match goal with |- keeps _ _ (bind (if ?b then _ else _) _) _ _ => destruct b end;
    repeat (live_step; split; [done|]); by split_and!.
Qed.

(** A reload that applied, from what it loaded to the world it leaves. *)
Record reloaded_to (w : live_world) (a : Applied) (stored : Extracted) (file : PolicySource)
    (merged : MergedSource) (p : Plan) (cand : ReloadCandidate) (w' : live_world) : Prop := {
  rt_facts : reload_facts (lw_cells w) (c_revision (lw_cells w)) stored file merged p cand;
  rt_ok : live_ok w';
  rt_persisted : c_persisted (lw_cells w') = rd_graph cand;
  rt_snapshot : c_snapshot (lw_cells w') = rd_snapshot cand;
  rt_source : c_source (lw_cells w') = rd_source cand;
  rt_principal : c_principal (lw_cells w') = c_principal (lw_cells w);
  rt_revision : ra_revision a = c_revision (lw_cells w');
  rt_later : (c_revision (lw_cells w') = c_revision (lw_cells w) + if ra_persisted a then 1 else 0)%Z }.

(** The commit a plan calls for leaves the candidate's graph held. *)
Lemma commit_plan_keeps stored file merged p cand w : live_ok w ->
  reload_facts (lw_cells w) (c_revision (lw_cells w)) stored file merged p cand ->
  keeps live_acts (fun _ => True)
    (commit_plan unnoted (reload_commit aead sha256 grapheme_extended printable f64_to_string from_str rl)
       (c_revision (lw_cells w)) p cand)
    (fun r w' => match r with
     | Ok (_, a) => halfway w (rd_graph cand) w' /\ ra_revision a = g_revision (rd_graph cand) /\
         (g_revision (rd_graph cand) = c_revision (lw_cells w) + if ra_persisted a then 1 else 0)%Z
     | Err _ => calm w w'
     end) w.
Proof.
  intros Hw Hf. destruct (rf_candidate _ _ _ _ _ _ _ Hf) as (bl & prov & Hc). apply candidate_inv in Hc as [_ Hp].
  destruct Hw as [Hh Hr Hfl Hs]. destruct Hp as [[-> Hg]|(-> & Hg & _)]; cbn [commit_plan].
  - split; [|rewrite Hg, Hr; cbn; lia]. rewrite Hg. constructor; try done; lia.
  - apply keeps_try. eapply keeps_mono; [done| |apply reload_commit_keeps].
    intros [[noted [[rev dur] ck]]|e] w' H; [|done]. destruct H as (-> & Hl & Hhw). split; [done|].
    split; [done|]. cbn. rewrite Hg in *. apply saturating_later. lia.
Qed.

Lemma persisted_ok w : live_ok w -> exists compiled, graph_ok SCHEMA compiled (c_persisted (lw_cells w)).
Proof.
  intros Hw. destruct (lo_serves _ Hw) as (g0 & Hg & Hs). destruct Hg; [apply Hs|].
  eexists. by eapply built_ok.
Qed.

Lemma reload_serves stored file merged p cand w : live_ok w ->
  reload_facts (lw_cells w) (c_revision (lw_cells w)) stored file merged p cand ->
  serves (rd_graph cand) (rd_source cand) (rd_snapshot cand).
Proof.
  intros Hw [_ _ Hfile _ Hm (bl & prov & Hc) Hsrc]. apply candidate_inv in Hc as [Hc Hp].
  apply merge_source_inv in Hm as (parsed & _ & Hl & _); [|done]. rewrite Hsrc. constructor; [|done|done].
  destruct Hp as [[_ ->]|(_ & _ & Hg)]; [|done]. by eapply persisted_ok.
Qed.

(** What [apply] leaves when it applied. *)
Record applied_to (w : live_world) (a : Applied) (stored : Extracted) (file : PolicySource)
    (merged : MergedSource) (p : Plan) (cand : ReloadCandidate) (w' : live_world) : Prop := {
  ap_facts : reload_facts (lw_cells w) (c_revision (lw_cells w)) stored file merged p cand;
  ap_serves : serves (rd_graph cand) (rd_source cand) (rd_snapshot cand);
  ap_halfway : halfway w (rd_graph cand) w';
  ap_snapshot : c_snapshot (lw_cells w') = rd_snapshot cand;
  ap_source : c_source (lw_cells w') = rd_source cand;
  ap_revision : ra_revision a = g_revision (rd_graph cand);
  ap_later : (g_revision (rd_graph cand) = c_revision (lw_cells w) + if ra_persisted a then 1 else 0)%Z }.

Lemma apply_keeps w : live_ok w ->
  keeps live_acts (fun _ => True) (apply unnoted
      (reload_load sha256 grapheme_extended printable f64_to_string from_str rl)
      (reload_commit aead sha256 grapheme_extended printable f64_to_string from_str rl) reload_install
      (c_revision (lw_cells w)))
    (fun r w' => match r with
     | Ok (_, a) => exists stored file merged p cand, applied_to w a stored file merged p cand w'
     | Err _ => calm w w'
     end) w.
Proof.
  intros Hw. pose proof (calm_refl w) as Hcr. unfold apply.
  intros stopped w1 H1. apply outside_stopped in H1 as ->. split; [done|]. destruct stopped; [done|].
  eapply quiet_try; [apply reload_load_quiet|done|done|]. intros [p cand] Hl.
  destruct (Hl _ _ eq_refl) as (stored & file & merged & Hf). apply keeps_try.
  eapply keeps_mono; [done| |by eapply commit_plan_keeps].
  intros [[noted a]|e] w1 H1; [|done]. destruct H1 as (Hh & Hr & Hl'). apply keeps_bind.
  eapply keeps_mono; [done| |by apply install_keeps]. intros noted' w2 (Hh2 & Hs & Hsrc).
  exists stored, file, merged, p, cand. constructor; try done. by eapply reload_serves.
Qed.

Lemma calm_applied w0 w a stored file merged p cand w1 w2 : calm w0 w -> calm w1 w2 ->
  applied_to w a stored file merged p cand w1 -> applied_to w0 a stored file merged p cand w2.
Proof.
  intros H0 H12 [[] ? Hh ? ? ? ?]. apply (calm_halfway _ _ _ _ H12) in Hh as [].
  destruct H0 as [[] Hp Hr ? ? ?], H12 as [[] ? ? ? ? ?].
  constructor; try congruence; constructor; rewrite <-?Hp, <-?Hr; try congruence.
Qed.

Lemma applied_reloaded w a stored file merged p cand w1 w2 :
  applied_to w a stored file merged p cand w1 ->
  live_acts w1 (Ev _ (SetRevision (ra_revision a)) tt) w2 ->
  reloaded_to w a stored file merged p cand w2.
Proof.
  intros [Hf Hs [Hh Hfl Hl Hp Hr Hpr] Hsn Hsrc Hrev Hla] [Hc Hd].
  destruct w1 as [d1 []], w2 as [d2 c2]. cbn in *. subst.
  constructor; cbn; try done; [|lia]. constructor; cbn; try done; [congruence..|].
  eexists. split; [constructor|done].
Qed.

Lemma reload_keeps w : live_ok w ->
  keeps live_acts (fun _ => True) reload
    (fun r w' => match r with
     | Ok a => exists stored file merged p cand, reloaded_to w a stored file merged p cand w'
     | Err _ => calm w w'
     end) w.
Proof.
  intros Hw. pose proof (calm_refl w) as Hcr. unfold Reload.reload.
  intros x1 w1 H1. apply outside_turn in H1 as ->. split; [done|].
  intros stopping w1 H1. apply outside_stopping in H1 as ->. split; [done|].
  unfold turn. destruct stopping; [done|].
  intros rev w1 H1. assert (w1 = w /\ rev = c_revision (lw_cells w)) as [-> ->]
    by (destruct w as [? []], w1; destruct H1 as [H1 Hd]; cbn in H1, Hd; destruct H1 as [-> ->]; by subst).
  split; [done|]. apply keeps_try. unfold run_reload, reload_intent. apply keeps_try, keeps_bind.
  eapply keeps_mono; [done| |apply (emit_calming _ w), Hcr].
  intros [[]|e] w1 Hc1; [|done]. cbn [map_err]. apply keeps_bind.
  assert (live_ok w1) as Hw1 by by eapply calm_ok. rewrite <-(ca_revision _ _ Hc1).
  eapply keeps_mono; [done| |by apply apply_keeps].
  intros [[noted a]|[|r]] w2 H2; [|by eapply calm_trans|].
  - destruct H2 as (stored & file & merged & p & cand & Ha). apply keeps_bind.
    eapply keeps_mono; [done| |apply outcome_calming, calm_refl]. intros [] w3 H3.
    intros [] w4 H4. split; [done|]. exists stored, file, merged, p, cand.
    eapply applied_reloaded; [|done]. by eapply calm_applied.
  - apply keeps_bind. eapply keeps_mono; [done| |apply outcome_calming, calm_refl]. intros [] w3 H3.
    eapply calm_trans; [done|]. by eapply calm_trans.
Qed.
End Invariant.
