(* ===== verification/LiveTheorems.v ===== *)
(** * What reloads and live edits guarantee

    A containment that is answered as done is in force on the decision point at once, is
    decided under the turn, and leaves somebody who can release; a live containment
    survives a reload; and a call leaves the live state in order, however it ended. *)
From stdpp Require Import base list strings gmap.
From Stdlib Require Import ZArith Lia Ascii.
From S2P Require Import Prelude Programs RustStr RustSlice Json Seam Config Classification Ceiling Decide.
From S2P Require Import Graph GraphFormat Identity Bindings BindingsSync PolicySource Snapshot Composition.
From S2P Require Import Wire Operands Texts SyncText Envelope Anchor Store StoreWorld StoreTheorems Breaker.
From S2P Require Import Handler Containment Baseline Effects LiveState ErrorTexts Reload LiveEdit LiveWorld.
From S2P Require Import LiveInvariant.
Open Scope nat_scope.

Local Notation prog := (Programs.prog live_effect).

(** ** What is in force *)

(** Every request by the uid is denied by the installed snapshot, the kernel's own
    actions apart. *)
Definition denied_now (w : live_world) (u : Z) : Prop :=
  forall ceiling req, uid_of req = Ok (Some u) -> class_of (action req) <> Some CKernel ->
    finalize (d_verdict (composed_decide_cited (c_snapshot (lw_cells w)) (c_principal (lw_cells w)) ceiling req))
    = DDeny "subject contained: role=adversary".

(** The uid may release. *)
Definition may_release (rl : Reloader) (w : live_world) (u : Z) : Prop :=
  permits (composed_decide_cited (c_snapshot (lw_cells w)) (c_principal (lw_cells w)) (rl_ceiling rl)
             (probe_request u)) = true.

(** ** The calls *)

Section Calls.
Context (aead : Aead) (sha256 : bytes -> digest).
Context (grapheme_extended printable : Z -> bool).
Context (f64_to_string : Z -> string) (from_str : string -> result Json string).
Context (nfc : string -> string) (gc : Z -> GeneralCategory).
Context (rl : Reloader).

(** What may take the turn. *)
Inductive live_call :=
| CReload
| CContain (r : ContainRequest)
| CRelease (r : ReleaseRequest)
| CKernelContain (target : Z) (reason : string).

Definition call (c : live_call) : prog unit :=
  match c with
  | CReload => let* _ := reload aead sha256 grapheme_extended printable f64_to_string from_str rl in Ret tt
  | CContain r =>
      let* _ := contain_requested aead sha256 grapheme_extended printable f64_to_string from_str rl r in Ret tt
  | CRelease r =>
      let* _ := release_requested aead sha256 grapheme_extended printable f64_to_string from_str rl r in Ret tt
  | CKernelContain target reason =>
      let* _ := kernel_contain aead sha256 grapheme_extended printable f64_to_string from_str rl nfc gc target
                  reason in Ret tt
  end.

End Calls.

(** ** Lemmas *)

Lemma section_of_from f64 s : section_of (from_section f64 s) = s.
Proof. by destruct s. Qed.

Lemma denied_refused d r : finalize (d_verdict d) = DDeny r -> permits d = false.
Proof. unfold permits, denial. by destruct (d_verdict d). Qed.

Lemma existsb_id v : existsb (fun b => b) v = true -> true ∈ v.
Proof. intros (b & Hb & ->)%existsb_true. done. Qed.

Section Lemmas.
Context (aead : Aead) (sha256 : bytes -> digest) `{!AeadLaws aead}.
Context (grapheme_extended printable : Z -> bool).
Context (f64_to_string : Z -> string) (from_str : string -> result Json string).
Context (rl : Reloader).
Context (files : PolicySource -> Prop).
Local Notation live_acts := (live_acts files).
Local Notation outside := (outside files).
Local Notation calming := (calming files).

Local Notation live_edit_resolving :=
  (live_edit_resolving aead sha256 grapheme_extended printable f64_to_string from_str rl).
Local Notation live_edit := (live_edit aead sha256 grapheme_extended printable f64_to_string from_str rl).
Local Notation live_ok := (live_ok aead sha256 rl).
Local Notation serves := (serves rl).

(** An adversary of the source is one of the snapshot. *)
Lemma serves_contained g src snap u principal :
  serves g src snap -> (0 <= u)%Z -> ADVERSARY ∈ roles_of (section_of (ps_bindings src)) (EUid u) ->
  role_for (lp_roles (sn_loaded snap)) u principal = RRole Adversary.
Proof.
  intros [[compiled Hg] [Hs (policy & lookups & lookup & pr & paths & Hl)] Hc] Hu Ha.
  apply from_lookups_inv in Hl as (Hres & _). apply compile_inv in Hc as (x & c & Hc).
  unfold section_of in Ha. destruct (bi_missing _); [set_solver|].
  destruct (bi_roles (ps_bindings src)) as [m|] eqn:Em; [|set_solver].
  destruct (bi_section (ps_bindings src)) as [t|] eqn:Et; [|done].
  assert (section_digests (rl_digest rl) src !! "bindings" = Some (rl_digest rl t)) as Hd
    by (unfold section_digests; rewrite Et; apply lookup_insert_eq).
  apply (compiled_role_iff _ _ _ _ _ _ _ _ _ _ Adversary _ _ _ Hc Hg Hu Hres Hd).
  rewrite decide_True by done. left. exists (EUid u). split; [|done].
  apply roles_of_elem in Ha as (m' & l & [= <-] & Hm & He). by exists m, l.
Qed.

Lemma live_denied w u : live_ok w ->
  ADVERSARY ∈ roles_of (section_of (ps_bindings (c_source (lw_cells w)))) (EUid u) -> denied_now w u.
Proof.
  intros Hw Ha ceiling req Hu Hk. apply (composed_adversary_denied _ _ _ u); [done..|].
  destruct (lo_serves _ _ _ _ Hw) as (g0 & _ & Hs).
  eapply serves_contained; [exact Hs|by eapply uid_of_range|done].
Qed.

(** A planned containment contains. *)
Lemma planned_contains stored check t sync live edited :
  plan_edit f64_to_string from_str stored check (Contain (EUid t)) = Ok (sync, live, edited) ->
  ADVERSARY ∈ roles_of (ed_live edited) (EUid t).
Proof.
  unfold plan_edit. intros H. destruct (negb _); [done|].
  destruct (match check with CheckNone => _ | _ => _ end); [|done].
  destruct (ok_or _ _) as [s|]; [|done]. destruct (map_err _ _) as [st|]; [|done]. cbn in H.
  destruct (apply_edit _ _ _ _ _) as [[e|]|[]] eqn:E; try done. injection H as <- <- <-.
  apply apply_edit_Some in E as (Hp & -> & _). apply andb_true_iff in Hp as [Hb _].
  rewrite next_section_roles by done. unfold roles_after. rewrite decide_True by left. set_solver.
Qed.

(** Somebody on the candidate may release when the operator's check passed. *)
Lemma checked_releaser ceiling policy c check target requester snap : 
  rl_ceiling rl = CeilingAuthorizer ceiling policy -> check = CheckContain target requester ->
  checked rl check c snap ->
  exists u, permits (composed_decide_cited snap (c_principal c) (rl_ceiling rl) (probe_request u)) = true.
Proof.
  intros Hc -> Hk. destruct (Hk _ _ eq_refl) as (p & Hp & Hok). unfold check_contain in Hok.
  destruct (if bool_decide _ then _ else _); [|done]. cbn in Hok.
  destruct (pr_releasers p) as [v|] eqn:Ev; [|done]. destruct (existsb _ v) eqn:Ex; [|done].
  apply existsb_id in Ex. unfold probe_job in Hp.
  destruct (if (requester =? target)%Z then _ else _) as [self|]; [|done].
  destruct (bool_decide (self = Some false)); [by injection Hp as <-|].
  destruct (releaser_uids _) as [uids|]; [|done]. rewrite Hc, candidate_agrees in Hp. injection Hp as <-.
  cbn in Ev. injection Ev as <-. rewrite !map_map in Ex. apply elem_of_map in Ex as (u & Hu & _).
  exists u. by rewrite Hc.
Qed.

(** Whoever may release has a uid. *)
Lemma may_release_uid ceiling policy snap p u : rl_ceiling rl = CeilingAuthorizer ceiling policy ->
  permits (composed_decide_cited snap p (rl_ceiling rl) (probe_request u)) = true ->
  uid_of (probe_request u) = Ok (Some u).
Proof.
  intros ->. assert (uid_of (probe_request u) = match try_u32 u with Some v => Ok (Some v) | None => Err tt end)
    as Hu by done.
  destruct (try_u32 u) as [v|] eqn:E; [apply try_u32_Some in E as [-> _]; by rewrite Hu|].
  intros H. exfalso. unfold permits, denial in H. rewrite composed_verdict in H.
  unfold decide_loaded_cited in H. rewrite Hu in H. cbn [no_role_decided bd_verdict] in H.
  by destruct (decide_ceiling _ _ _ _).
Qed.

(** ** Calls that only advance *)

(** From a state in order to one in order, at no earlier a revision. *)
Definition advancing {A} (p : prog A) : Prop :=
  forall w, live_ok w -> keeps live_acts (fun _ => True) p
    (fun _ w' => live_ok w' /\ (c_revision (lw_cells w) <= c_revision (lw_cells w'))%Z) w.

Lemma advancing_ret {A} (a : A) : advancing (Ret a).
Proof. intros w Hw. split; [done|]. lia. Qed.

Lemma advancing_bind {A B} (p : prog A) (f : A -> prog B) :
  advancing p -> (forall a, advancing (f a)) -> advancing (bind p f).
Proof.
  intros Hp Hf w Hw. apply keeps_bind. eapply keeps_mono; [done| |by apply Hp].
  intros a w' [Hw' Hr]. eapply keeps_mono; [done| |by apply Hf]. intros b w2 [? ?]. split; [done|]. lia.
Qed.

Lemma calming_advancing {A} (p : prog A) : calming p -> advancing p.
Proof.
  intros Hp w Hw. eapply keeps_mono; [done| |apply Hp, calm_refl]. intros a w' H. cbn beta in H.
  split; [eapply calm_ok; eassumption|]. rewrite (ca_revision _ _ H). lia.
Qed.

Lemma outside_calming {A X} (e : live_effect X) (f : X -> prog A) :
  outside e -> (forall x, calming (f x)) -> calming (Vis e f).
Proof. intros He. apply calming_vis. intros w x w' ->%He. apply calm_refl. Qed.

Lemma outside_advancing {A X} (e : live_effect X) (f : X -> prog A) :
  outside e -> (forall x, advancing (f x)) -> advancing (Vis e f).
Proof. intros He Hf w Hw x w' ->%He. split; [done|]. by apply Hf. Qed.

Lemma live_edit_advances req : advancing (live_edit_resolving req).
Proof.
  intros w Hw. eapply keeps_mono; [done| |by apply live_edit_keeps]. intros [[rev|e] rel] w' H; cbn in H.
  - destruct H as (stored & edit & sync & live & edited & cand & He).
    pose proof (et_committed _ _ _ _ _ _ _ _ _ _ _ _ _ _ _ _ _ _ He) as Hcm.
    pose proof (et_revision _ _ _ _ _ _ _ _ _ _ _ _ _ _ _ _ _ _ He) as Hr.
    apply edited_ok in He as (Hw' & Hrev & _); [|done]. split; [done|].
    rewrite (cm_revision _ _ _ _ _ _ _ _ Hcm). lia.
  - apply still_calm in H. split; [eapply calm_ok; eassumption|]. rewrite (ca_revision _ _ H). lia.
Qed.

Lemma reload_advances :
  advancing (reload aead sha256 grapheme_extended printable f64_to_string from_str rl).
Proof.
  intros w Hw. eapply keeps_mono; [done| |by apply reload_keeps]. intros [a|e] w' H.
  - destruct H as (stored & file & merged & p & cand & [_ Hok _ _ _ _ _ Hl]). split; [done|].
    rewrite Hl. destruct (ra_persisted a); lia.
  - split; [eapply calm_ok; eassumption|]. rewrite (ca_revision _ _ H). lia.
Qed.

Ltac outside := intros [? []] ? [? ?] H; cbn in H; destruct H as [H ->]; cbn in H;
  first [destruct H as [-> ->] | subst]; done.
Lemma outside_get_persisted : outside GetPersisted. Proof. outside. Qed.
Lemma outside_get_snapshot : outside GetSnapshot. Proof. outside. Qed.
Lemma outside_get_principal : outside GetPrincipal. Proof. outside. Qed.
Lemma outside_look_up n : outside (LookUp n). Proof. outside. Qed.
Lemma outside_refused : outside CountKernelRefused. Proof. outside. Qed.
Local Hint Resolve outside_begin outside_succeeded outside_timed_out outside_blocking outside_get_persisted
  outside_get_snapshot outside_get_principal outside_look_up outside_refused : outside.

Ltac calms := repeat first
  [ apply calming_ret | apply emit_calming | apply outside_calming; [by auto with outside|intros ?]
  | apply calming_bind; [|intros ?]
  | match goal with |- calming (match ?x with _ => _ end) => destruct x end ].

Lemma lookup_calming name : calming (lookup_account grapheme_extended printable rl name).
Proof. unfold lookup_account. calms. Qed.
Lemma contain_target_calming t : calming (resolve_contain_target grapheme_extended printable rl t).
Proof. destruct t; [apply lookup_calming|apply calming_ret]. Qed.
Lemma release_target_calming t : calming (resolve_release_target grapheme_extended printable rl t).
Proof.
  destruct t as [n|u]; [|apply calming_ret]. unfold resolve_release_target, claimed. calms.
Qed.

Lemma kernel_failed_calming t why : calming (kernel_failed t why).
Proof. unfold kernel_failed, kernel_record. calms. Qed.
Lemma kernel_refused_calming t reason code :
  calming (kernel_refused grapheme_extended printable t reason code).
Proof. unfold kernel_refused, kernel_record. calms. Qed.

Lemma edit_advances req : advancing (live_edit req).
Proof. apply advancing_bind; [apply live_edit_advances|]. intros. apply advancing_ret. Qed.

Lemma decided_advances target reason d :
  advancing (kernel_contain_decided aead sha256 grapheme_extended printable f64_to_string from_str rl target
    reason d).
Proof.
  unfold kernel_contain_decided. destruct (negb (permits d)).
  { apply calming_advancing. unfold kernel_record. calms. }
  apply advancing_bind; [apply calming_advancing; unfold kernel_record; calms|intros recorded].
  destruct (negb recorded).
  { apply calming_advancing, calming_bind; [apply kernel_failed_calming|intros; apply calming_ret]. }
  apply advancing_bind; [apply edit_advances|]. intros [rev|[|r]]; [apply advancing_ret..|].
  apply calming_advancing. destruct (refusal_outcome r); (apply calming_bind; [|intros; apply calming_ret]).
  - apply kernel_refused_calming.
  - apply kernel_failed_calming.
Qed.

(** [nfc] and [gc] are Unicode's, as in [Operands]. *)
Context (nfc : string -> string) (gc : Z -> GeneralCategory).

Lemma call_advances c :
  advancing (call aead sha256 grapheme_extended printable f64_to_string from_str nfc gc rl c).
Proof.
  destruct c as [|r|r|target reason]; (apply advancing_bind; [|intros; apply advancing_ret]).
  - apply reload_advances.
  - apply advancing_bind; [apply calming_advancing, contain_target_calming|]. intros [t|[code detail]];
      [|apply advancing_ret]. apply advancing_bind; [apply edit_advances|]. intros. apply advancing_ret.
  - apply advancing_bind; [apply calming_advancing, release_target_calming|]. intros [[u named]|[code detail]];
      [|apply advancing_ret]. apply advancing_bind; [apply live_edit_advances|]. intros. apply advancing_ret.
  - unfold kernel_contain. destruct (contain_reason nfc gc reason) as [reason'|e].
    2: { apply calming_advancing, calming_bind; [apply kernel_failed_calming|intros; apply calming_ret]. }
    apply outside_advancing; [by auto with outside|intros snap].
    apply outside_advancing; [by auto with outside|intros p].
    apply (advancing_bind (within_blocking _ _)); [apply calming_advancing; unfold within_blocking; calms|].
    intros [[d|[]]|e]; [apply decided_advances|].
    apply calming_advancing, calming_bind; [apply kernel_failed_calming|intros; apply calming_ret].
Qed.

(** ** Containment *)

(** What a containment by [check] that was answered as done leaves. *)
Record contained_to (w : live_world) (t : Z) (check : LiveCheck) (authorized : option Request) (rev : Z)
    (w' : live_world) : Prop := {
  cn_ok : live_ok w';
  cn_revision : c_revision (lw_cells w') = rev;
  cn_later : rev = (c_revision (lw_cells w) + 1)%Z;
  cn_permitted : forall action, authorized = Some action -> permitted_now rl (lw_cells w) action;
  cn_denied : denied_now w' t;
  cn_checked : checked rl check (lw_cells w) (c_snapshot (lw_cells w'));
  cn_principal : c_principal (lw_cells w') = c_principal (lw_cells w) }.

Lemma contain_keeps t who check note authorized w : live_ok w ->
  keeps live_acts (fun _ => True)
    (live_edit (mkLiveRequest (OpEdit (Contain (EUid t))) who check note authorized))
    (fun r w' => match r with
     | Ok rev => contained_to w t check authorized rev w'
     | Err _ => still w w'
     end) w.
Proof.
  intros Hw. unfold LiveEdit.live_edit. apply keeps_bind. eapply keeps_mono; [done| |apply live_edit_keeps].
  intros [[rev|e] rel] w' H; [|done]. cbn in H.
  destruct H as (stored & edit & sync & live & edited & cand & He).
  destruct (edited_ok _ _ _ _ _ _ _ _ _ _ _ _ _ _ _ _ _ _ Hw He) as (Hw' & Hrev & Hs).
  destruct He as [_ Hr Hperm [Hpl Hsrc _ Hck] Hg [_ _ _ _ Hcr Hsn Hso Hpr]]. cbn in Hr. injection Hr as <- _.
  constructor; try done; [congruence| |by rewrite Hsn].
  apply live_denied; [done|]. rewrite Hso. apply live_bindings_loaded in Hsrc as [_ ->].
  rewrite section_of_from. by eapply planned_contains.
Qed.

Lemma calm_contained w w0 t check authorized rev w' :
  calm w w0 -> contained_to w0 t check authorized rev w' -> contained_to w t check authorized rev w'.
Proof.
  intros [_ _ Hr Hs Hp _] [? ? ? Hperm ? Hck ?]. unfold permitted_now, checked in *. rewrite Hs, Hp in *.
  constructor; try done; congruence.
Qed.

(** Somebody other than the contained uid may release. *)
Lemma contained_releaser w t requester authorized rev w' ceiling policy :
  rl_ceiling rl = CeilingAuthorizer ceiling policy ->
  contained_to w t (CheckContain t requester) authorized rev w' ->
  exists other, other <> t /\ may_release rl w' other.
Proof.
  intros Hc [_ _ _ _ Hd Hk Hp]. destruct (checked_releaser _ _ _ _ _ _ _ Hc eq_refl Hk) as [u Hu].
  rewrite <-Hp in Hu. exists u. split; [|done]. intros ->.
  pose proof (may_release_uid _ _ _ _ _ Hc Hu) as Huid.
  assert (permits (composed_decide_cited (c_snapshot (lw_cells w')) (c_principal (lw_cells w')) (rl_ceiling rl)
    (probe_request t)) = false); [|congruence]. by eapply denied_refused, Hd.
Qed.

Lemma contain_requested_keeps r w : live_ok w ->
  keeps live_acts (fun _ => True)
    (contain_requested aead sha256 grapheme_extended printable f64_to_string from_str rl r)
    (fun a w' => match a with
     | Ok (ContainView v None) => exists t rev, v = mkContainmentView OContained (Some t) (Some rev) /\
         (forall u, cr_target r = TargetUid u -> t = u) /\
         contained_to w t (CheckContain t (cr_requester r)) (Some (cr_action r)) rev w'
     | _ => calm w w'
     end) w.
Proof.
  intros Hw. apply keeps_bind.
  apply (keeps_mono _ (calm w) _ _ (fun t w' => calm w w' /\
    forall u, cr_target r = TargetUid u -> t = Ok u)); [done| |].
  2: { destruct (cr_target r) as [n|u]; [|by split; [apply calm_refl|intros ? [= <-]]].
       eapply keeps_mono; [done| |apply lookup_calming, calm_refl]. by intros a w' H. }
  intros [t|[code detail]] w1 [H1 Ht]; cbn [bind].
  2: { unfold answer_refused. by destruct (record_class code). }
  apply keeps_bind. eapply keeps_mono; [done| |apply contain_keeps; eapply calm_ok; eassumption].
  intros [rev|[|e]] w2 H2; cbn [answer bind].
  - exists t, rev. split; [done|]. split; [|by eapply calm_contained]. intros u Hu. apply Ht in Hu. congruence.
  - eapply calm_trans; [done|by apply still_calm].
  - assert (calm w w2) as Hc by (eapply calm_trans; [done|by apply still_calm]).
    destruct e; cbn; try done; unfold answer_refused; by destruct (record_class _).
Qed.

(** What the kernel's own containment leaves. *)
Definition kernel_left (w : live_world) (target : Z) (a : result KernelContain (fault Empty_set))
    (w' : live_world) : Prop :=
  match a with
  | Ok (KcContained rev) => contained_to w target (CheckKernelContain target) None rev w'
  | _ => calm w w'
  end.

Lemma kernel_failed_left w target why w1 : calm w w1 ->
  keeps live_acts (fun _ => True) (let* r := kernel_failed target why in Ret (Ok r)) (kernel_left w target) w1.
Proof.
  intros H1 [] w2 ->%outside_refused. split; [done|]. apply keeps_bind, keeps_bind, keeps_bind.
  eapply keeps_mono; [done| |by apply emit_calming]. by intros r w' H.
Qed.

Lemma kernel_refused_left w target reason code w1 : calm w w1 ->
  keeps live_acts (fun _ => True)
    (let* r := kernel_refused grapheme_extended printable target reason code in Ret (Ok r))
    (kernel_left w target) w1.
Proof.
  intros H1. unfold kernel_refused. destruct (record_class code) as [result_ posture].
  apply keeps_bind, keeps_bind, keeps_bind. eapply keeps_mono; [done| |by apply emit_calming]. intros r w2 H2.
  cbn [bind]. case_bool_decide; [done|]. intros [] w3 ->%outside_refused. by split.
Qed.

Lemma kernel_decided_left target reason d w : live_ok w ->
  keeps live_acts (fun _ => True)
    (kernel_contain_decided aead sha256 grapheme_extended printable f64_to_string from_str rl target reason d)
    (kernel_left w target) w.
Proof.
  intros Hw. pose proof (calm_refl w) as Hcr. unfold kernel_contain_decided. destruct (negb (permits d)).
  { intros [] w1 ->%outside_refused. split; [done|]. apply keeps_bind, keeps_bind.
    eapply keeps_mono; [done| |by apply emit_calming]. by intros r w' H. }
  apply keeps_bind, keeps_bind. eapply keeps_mono; [done| |by apply emit_calming]. intros rec w1 H1.
  cbn beta in H1. match goal with |- keeps _ _ (Ret ?b) ?Q ?x => change (Q b x) end. cbn beta.
  destruct (negb (is_ok rec)); [by apply kernel_failed_left|].
  apply keeps_bind. eapply keeps_mono; [done| |apply contain_keeps; eapply calm_ok; eassumption].
  intros [rev|[|r]] w2 H2; [by eapply calm_contained|by eapply calm_trans, still_calm|].
  assert (calm w w2) as Hc by (eapply calm_trans; [done|by apply still_calm]).
  destruct (refusal_outcome r); [by apply kernel_refused_left|by apply kernel_failed_left].
Qed.

Lemma kernel_contain_keeps target reason w : live_ok w ->
  keeps live_acts (fun _ => True)
    (kernel_contain aead sha256 grapheme_extended printable f64_to_string from_str rl nfc gc target reason)
    (kernel_left w target) w.
Proof.
  intros Hw. pose proof (calm_refl w) as Hcr. unfold kernel_contain.
  destruct (contain_reason nfc gc reason) as [reason'|e]; [|by apply kernel_failed_left].
  intros snap w1 ->%outside_get_snapshot. split; [done|].
  intros p w1 ->%outside_get_principal. split; [done|]. apply keeps_bind.
  intros fate w1 ->%outside_blocking. split; [done|].
  destruct fate; cbn; [by apply kernel_decided_left|by apply kernel_failed_left..].
Qed.

(** ** Containment across a reload *)

Lemma reload_contained w stored sync st a file merged p cand w' u :
  is_present (st_base st) = true ->
  extract (c_persisted (lw_cells w)) = Ok stored -> x_sync stored = Some sync ->
  stored_sections f64_to_string from_str sync = Ok st ->
  reloaded_to aead sha256 grapheme_extended printable f64_to_string from_str rl files w a stored file merged p cand w' ->
  let f := section_of (ps_bindings file) in
  ADVERSARY ∈ roles_of (st_live st) (EUid u) ->
  (is_present f = true -> roles_of f (EUid u) = roles_of (st_base st) (EUid u) \/ ADVERSARY ∈ roles_of f (EUid u)) ->
  denied_now w' u.
Proof.
  intros Hb Hx Hsy Hst [[_ _ Hl _ Hm _ Hsrc] Hok _ _ Hs _ _ _] f Ha Hf.
  apply live_denied; [done|]. rewrite Hs, Hsrc.
  apply merge_source_inv in Hm as (parsed & Hp & _ & ->); [|done].
  rewrite Hsy in Hp. cbn in Hp. rewrite Hst in Hp. injection Hp as <-. fold f.
  destruct (is_present f) eqn:Ef.
  - rewrite merge_live_roles by done. apply three_way_contained; auto.
  - unfold merge. by rewrite Hb, Ef.
Qed.
End Lemmas.

(** ** Theorems *)

(** C9: an operator's containment that is answered as done is in force: from a state in
    order, the answer names the uid (the requested one, when the request names a uid) and
    the new revision, one past the old, at which the store, the revision and the
    installed snapshot agree; the requester's request was permitted by the snapshot
    installed when the turn was held; every request by the contained uid is now denied,
    the kernel's own actions apart; and somebody else may still release. Any other answer
    leaves the store, the floor and everything that decides as they were. *)
Theorem containment_in_force (aead : Aead) (sha256 : bytes -> digest) (L : AeadLaws aead)
    (grapheme_extended printable : Z -> bool) (f64 : Z -> string)
    (from_str : string -> result Json string) (rl : Reloader) (ceiling : Ceiling)
    (policy : ClassificationPolicy) (r : ContainRequest) (files : PolicySource -> Prop) (w w' : live_world) (tr : list (event live_effect))
    (a : result (@ContainAnswer ContainmentView) (fault Empty_set))
    (Hc : rl_ceiling rl = CeilingAuthorizer ceiling policy) (Hw : live_ok aead sha256 rl w)
    (Hrun : runs (contain_requested aead sha256 grapheme_extended printable f64 from_str rl r) tr a)
    (Hre : reaches (live_acts files) w tr w') :
  match a with
  | Ok (ContainView v None) =>
      exists t rev, v = mkContainmentView OContained (Some t) (Some rev) /\
        (forall u, cr_target r = TargetUid u -> t = u) /\
        live_ok aead sha256 rl w' /\ c_revision (lw_cells w') = rev /\
        rev = (c_revision (lw_cells w) + 1)%Z /\ permitted_now rl (lw_cells w) (cr_action r) /\
        denied_now w' t /\ exists other, other <> t /\ may_release rl w' other
  | _ => calm w w'
  end.
Proof.
  pose proof (contain_requested_keeps aead sha256 grapheme_extended printable f64 from_str rl files r w Hw) as Hk.
  pose proof (keeps_runs _ _ _ _ _ _ _ _ Hk Hrun Hre) as H. cbn beta in H.
  destruct a as [[v [c|]| |]|[]]; try done. destruct H as (t & rev & -> & Ht & H). exists t, rev.
  split; [done|]. split; [done|]. pose proof (contained_releaser _ _ _ _ _ _ _ _ _ _ _ Hc H) as Ho.
  destruct H as [? ? ? Hp ? _ _]. split_and!; auto.
Qed.

(** the kernel's own containment, likewise: answered as contained, every request by the
    uid is denied by the snapshot installed at the new revision. *)
Theorem kernel_containment_in_force (aead : Aead) (sha256 : bytes -> digest) (L : AeadLaws aead)
    (grapheme_extended printable : Z -> bool) (f64 : Z -> string)
    (from_str : string -> result Json string) (rl : Reloader) (nfc : string -> string)
    (gc : Z -> GeneralCategory) (target : Z) (reason : string) (files : PolicySource -> Prop) (w w' : live_world)
    (tr : list (event live_effect)) (a : result KernelContain (fault Empty_set))
    (Hw : live_ok aead sha256 rl w)
    (Hrun : runs (kernel_contain aead sha256 grapheme_extended printable f64 from_str rl nfc gc target reason) tr a)
    (Hre : reaches (live_acts files) w tr w') :
  match a with
  | Ok (KcContained rev) =>
      live_ok aead sha256 rl w' /\ c_revision (lw_cells w') = rev /\
      rev = (c_revision (lw_cells w) + 1)%Z /\ denied_now w' target
  | _ => calm w w'
  end.
Proof.
  pose proof (kernel_contain_keeps aead sha256 grapheme_extended printable f64 from_str rl files nfc gc target reason
    w Hw) as Hk.
  pose proof (keeps_runs _ _ _ _ _ _ _ _ Hk Hrun Hre) as H.
  destruct a as [[rev| |code|why]|[]]; try done. by destruct H.
Qed.

(** C10: a containment survives reloads: when a reload of a state in order applies the
    policy file, every uid contained in the stored live section is denied by the snapshot the reload
    installed, unless the file has bindings whose roles for the uid's entry moved
    off the stored base and no longer contain it (a file that lost its bindings releases
    nobody). A reload that is refused leaves the store, the floor and everything that
    decides as they were. *)
Theorem containment_survives_reload (aead : Aead) (sha256 : bytes -> digest) (L : AeadLaws aead)
    (grapheme_extended printable : Z -> bool) (f64 : Z -> string)
    (from_str : string -> result Json string) (rl : Reloader) (file : PolicySource) (w w' : live_world)
    (tr : list (event live_effect)) (r : reload_result Applied) (stored : Extracted) (sync : SyncBase)
    (st : Stored) (Hw : live_ok aead sha256 rl w) (Hx : extract (c_persisted (lw_cells w)) = Ok stored)
    (Hs : x_sync stored = Some sync) (Hst : stored_sections f64 from_str sync = Ok st)
    (Hb : is_present (st_base st) = true)
    (Hrun : runs (reload aead sha256 grapheme_extended printable f64 from_str rl) tr r)
    (Hre : reaches (live_acts (eq file)) w tr w') :
  match r with
  | Ok _ =>
      live_ok aead sha256 rl w' /\
      let f := section_of (ps_bindings file) in
      forall u, ADVERSARY ∈ roles_of (st_live st) (EUid u) ->
        (is_present f = true ->
           roles_of f (EUid u) = roles_of (st_base st) (EUid u) \/ ADVERSARY ∈ roles_of f (EUid u)) ->
        denied_now w' u
  | Err _ => calm w w'
  end.
Proof.
  pose proof (reload_keeps aead sha256 grapheme_extended printable f64 from_str rl (eq file) w Hw) as Hk.
  pose proof (keeps_runs _ _ _ _ _ _ _ _ Hk Hrun Hre) as H. cbn beta in H.
  destruct r as [a|e]; [|done]. destruct H as (stored' & file' & merged & p & cand & H).
  split; [apply H|]. intros f u Ha Hf. pose proof (rt_facts _ _ _ _ _ _ _ _ _ _ _ _ _ _ _ _ H) as Hfa.
  pose proof (rf_stored _ _ _ _ _ _ _ _ _ _ _ _ _ Hfa). pose proof (rf_read _ _ _ _ _ _ _ _ _ _ _ _ _ Hfa).
  assert (stored' = stored) as -> by congruence. subst file'. by eapply reload_contained.
Qed.

(** ** Witnesses *)

(** [root] and [op] are administrators. *)
Definition live_demo_lookups : Lookups := {["root" := Some 0%Z; "op" := Some 1000%Z]}.
Definition live_demo_roles : RoleLists := {["admin" := [EName "root"; EName "op"]]}.
Definition live_demo_contained : RoleLists :=
  {["admin" := [EName "root"; EName "op"]; "adversary" := [EUid 7]]}.

(** A reader of the texts this world has. *)
Definition live_demo_read (s : string) : result Json string :=
  let text m := section_canonical demo_f64 (SPresent m) in
  if String.eqb s (text live_demo_roles) then Ok (section_json live_demo_roles)
  else if String.eqb s (text live_demo_contained) then Ok (section_json live_demo_contained)
  else if String.eqb s "[]" then Ok (JArr [])
  else Err "no document".

Definition live_demo_policy : AuthzPolicy.AuthzPolicy :=
  ok_default demo_parsed (AuthzPolicy.parse_policy demo_f64
    (VMap [("schema_version", VInt 1);
           ("roles", VMap [("admin", VMap [("allow", VSeq [VStr "admin.*"])])])])).
Definition live_demo_load (m : RoleLists) :=
  from_lookups live_demo_policy (from_section demo_f64 (SPresent m)) live_demo_lookups (fun _ => Ok None) 0
    demo_paths.
Definition live_demo_source (m : RoleLists) : PolicySource := ok_default demo_src (live_demo_load m).
Definition live_demo_reloader : Reloader :=
  mkReloader demo_dir demo_key "U" (ok_default (mkVocabulary [] [] []) (kernel_vocabulary demo_sha "U"))
    demo_pdp (fun _ => demo_digest) 990 1000.
Definition live_demo_sync (m : RoleLists) : SyncBase :=
  mkSync (section_canonical demo_f64 (SPresent live_demo_roles)) (section_canonical demo_f64 (SPresent m)) "[]".
Definition live_demo_build (m : RoleLists) :=
  build (identity_layer (live_demo_source m) "U" (Some demo_digest)) (Some demo_baseline)
    (Some (live_demo_sync m)) (vo_persisted (rl_vocabulary live_demo_reloader))
    (vo_digest (rl_vocabulary live_demo_reloader)) 1 PSeed.
Definition live_demo_graph (m : RoleLists) : Graph := ok_default demo_graph (live_demo_build m).
Definition live_demo_compile (m : RoleLists) :=
  compile (live_demo_graph m) (live_demo_source m) (vo_full (rl_vocabulary live_demo_reloader))
    (section_digests (rl_digest live_demo_reloader) (live_demo_source m)).
Definition live_demo_snapshot (m : RoleLists) : Snapshot := ok_default demo_snapshot (live_demo_compile m).
Definition live_demo_seal (m : RoleLists) :=
  seal demo_aead (mkEntropy (Some (zeroes 32)) (zeroes 12) (zeroes 12))
    (ok_default [] (@encode GraphError (live_demo_graph m))) demo_key.
Definition live_demo_world (m : RoleLists) : live_world :=
  mkLiveWorld
    (mkWorld (Some (ok_default [] (live_demo_seal m))) true [] 1)
    (mkCells (live_demo_graph m) 1 (live_demo_snapshot m) 0 (live_demo_source m)
       (mkSyncStatus (mkCounts 0 0) false false) (mkPublished [] [])
       (mkBaselineState (bl_sections demo_baseline) None)).

(** A world that answers, with [file] read at a reload. *)
Definition live_respond (file : PolicySource) (X : Type) (w : live_world) (e : live_effect X)
  : X * live_world :=
  let '(mkLiveWorld d c) := w in
  let '(mkCells g r s p src sy i b) := c in
  let cells c' := mkLiveWorld d c' in
  match e in live_effect X return X * live_world with
  | OnStore X e => let '(x, d') := respond X d e in (x, mkLiveWorld d' c)
  | TakeTurn => (true, w)
  | Stopping | StopSignalled => (false, w)
  | Begin _ => (Admit, w)
  | Succeeded _ => (tt, w)
  | TimedOut _ => (RemainsClosed, w)
  | Blocking => (Completed, w)
  | GetPersisted => (g, w)
  | SetPersisted g' => (tt, cells (mkCells g' r s p src sy i b))
  | GetRevision => (r, w)
  | SetRevision r' => (tt, cells (mkCells g r' s p src sy i b))
  | GetSnapshot => (s, w)
  | Install s' => (tt, cells (mkCells g r s' p src sy i b))
  | GetPrincipal => (p, w)
  | GetSource => (src, w)
  | SetSource src' => (tt, cells (mkCells g r s p src' sy i b))
  | SetCounts n => (tt, cells (mkCells g r s p src (set_counts sy n) i b))
  | SetStale v => (tt, cells (mkCells g r s p src (set_stale sy v) i b))
  | BecameLost v => (fst (became_lost sy v), cells (mkCells g r s p src (snd (became_lost sy v)) i b))
  | IsStale => (ss_stale sy, w)
  | GetIdentity => (pu_problems i, w)
  | PublishIdentity i' => (pu_problems i, cells (mkCells g r s p src sy i' b))
  | GetBaseline => (b, w)
  | PublishBaseline b' => (tt, cells (mkCells g r s p src sy i b'))
  | CountKernelRefused => (tt, w)
  | RenderMirror _ => (Ok [], w)
  | LoadSource => (Ok file, w)
  | BaselineFile => (Ok (bs_accepted b), w)
  | LookUp _ => (Ok None, w)
  end.

Lemma live_respond_acts file (Hf : loaded file) X w (e : live_effect X) x w' :
  live_respond file X w e = (x, w') -> live_acts (eq file) w (Ev _ e x) w'.
Proof.
  destruct w as [d [g r s p src sy i b]]. destruct e; cbn.
  1: { destruct (respond X d e) as [y d'] eqn:E. intros H. injection H as <- <-. split; [|done].
       by apply respond_acts. }
  all: intros H; injection H as <- <-; try done.
  split; [|done]. split; [done|]. by intros src' [= <-].
Qed.

Definition live_demo_request : ContainRequest :=
  mkContainRequest 0 1 (TargetUid 7) "test"
    (build_authz_request (AdminContain (TargetUid 7) "test") 0 None LaneLocal None).
Definition live_demo_run :=
  simulate (live_respond (live_demo_source live_demo_roles))
    (contain_requested demo_aead demo_sha no_table all_printable demo_f64 live_demo_read live_demo_reloader
       live_demo_request) (live_demo_world live_demo_roles).

Lemma live_simulated {A} (p : prog A) file w : loaded file ->
  let run := simulate (live_respond file) p w in
  runs p (snd (fst run)) (fst (fst run)) /\ reaches (live_acts (eq file)) w (snd (fst run)) (snd run).
Proof.
  intros Hf run. destruct run as [[a tr] w'] eqn:E.
  exact (simulate_runs (live_acts (eq file)) (live_respond file) (live_respond_acts file Hf) p w a tr w' E).
Qed.

Lemma ok_default_Ok {A E} (d : A) (r : result A E) : is_ok r = true -> r = Ok (ok_default d r).
Proof. by destruct r. Qed.

Lemma live_demo_loaded m : is_ok (live_demo_load m) = true -> loaded (live_demo_source m).
Proof.
  intros H. unfold live_demo_source. pose proof (ok_default_Ok demo_src _ H) as E.
  destruct (resolved_loaded _ _ _ _ _ _ _ E) as [Hl _]; done.
Qed.

Lemma live_demo_ok m :
  is_ok (live_demo_load m) && is_ok (live_demo_build m) && is_ok (live_demo_compile m) &&
  is_ok (@encode GraphError (live_demo_graph m)) && is_ok (live_demo_seal m) &&
  (g_revision (live_demo_graph m) =? 1)%Z = true ->
  live_ok demo_aead demo_sha live_demo_reloader (live_demo_world m).
Proof.
  rewrite !andb_true_iff. intros (((((Hl & Hb) & Hc) & He) & Hs) & Hr). apply Z.eqb_eq in Hr.
  constructor; cbn.
  - eexists. exists (mkEntropy (Some (zeroes 32)) (zeroes 12) (zeroes 12)). eexists _, _.
    split; [apply zeroes_ok|]. split; [by apply (ok_default_Ok [])|].
    split; [by apply (ok_default_Ok [])|]. by split.
  - by rewrite Hr.
  - done.
  - eexists. split; [constructor|]. constructor; [|by apply live_demo_loaded|by apply (ok_default_Ok demo_snapshot)].
    eexists. eapply built_ok. by apply (ok_default_Ok demo_graph).
Qed.

Lemma live_demo_before : live_ok demo_aead demo_sha live_demo_reloader (live_demo_world live_demo_roles).
Proof. apply live_demo_ok. vm_compute. reflexivity. Qed.
Lemma live_demo_after : live_ok demo_aead demo_sha live_demo_reloader (live_demo_world live_demo_contained).
Proof. apply live_demo_ok. vm_compute. reflexivity. Qed.
Lemma live_demo_file : loaded (live_demo_source live_demo_roles).
Proof. apply live_demo_loaded. vm_compute. reflexivity. Qed.

(** Uid 7 is contained at revision 2. *)
Lemma containment_in_force_witness :
  live_ok demo_aead demo_sha live_demo_reloader (snd live_demo_run) /\
  c_revision (lw_cells (snd live_demo_run)) = 2%Z /\ denied_now (snd live_demo_run) 7.
Proof.
  destruct (live_simulated (contain_requested demo_aead demo_sha no_table all_printable demo_f64 live_demo_read
    live_demo_reloader live_demo_request) _ (live_demo_world live_demo_roles) live_demo_file) as [Hrun Hre].
  assert (fst (fst live_demo_run) = Ok (ContainView (mkContainmentView OContained (Some 7%Z) (Some 2%Z)) None))
    as E by (vm_compute; reflexivity).
  pose proof (containment_in_force demo_aead demo_sha demo_aead_laws no_table all_printable demo_f64 live_demo_read
    live_demo_reloader demo_ceiling US.BasicPolicy live_demo_request _ _ _ _ _ eq_refl live_demo_before Hrun Hre) as H.
  change (simulate _ _ _) with live_demo_run in H. rewrite E in H.
  destruct H as (t & rev & [= <- <-] & _ & Hok & Hrev & _ & _ & Hd & _). split_and!; assumption.
Defined.

Definition live_demo_reload :=
  simulate (live_respond (live_demo_source live_demo_roles))
    (reload demo_aead demo_sha no_table all_printable demo_f64 live_demo_read live_demo_reloader)
    (live_demo_world live_demo_contained).

(** Uid 7, contained live and not in the file, stays so. *)
Lemma containment_survives_reload_witness :
  is_ok (fst (fst live_demo_reload)) = true /\ denied_now (snd live_demo_reload) 7.
Proof.
  assert (is_ok (fst (fst live_demo_reload)) = true) as E by (vm_compute; reflexivity). split; [exact E|].
  destruct (live_simulated (reload demo_aead demo_sha no_table all_printable demo_f64 live_demo_read
    live_demo_reloader) _ (live_demo_world live_demo_contained) live_demo_file) as [Hrun Hre].
  assert (exists x, extract (live_demo_graph live_demo_contained) = Ok x /\
    x_sync x = Some (live_demo_sync live_demo_contained)) as (x & Hx & Hs).
  { assert (match extract (live_demo_graph live_demo_contained) with
            | Ok x => bool_decide (x_sync x = Some (live_demo_sync live_demo_contained))
            | Err _ => false
            end = true) as Hb by (vm_compute; reflexivity).
    destruct (extract _) as [x|]; [|discriminate Hb]. exists x. split; [reflexivity|].
    exact (bool_decide_eq_true_1 _ Hb). }
  assert (stored_sections demo_f64 live_demo_read (live_demo_sync live_demo_contained) =
    Ok (mkStored (SPresent live_demo_roles) (SPresent live_demo_contained) ∅)) as Hst by (vm_compute; reflexivity).
  pose proof (containment_survives_reload demo_aead demo_sha demo_aead_laws no_table all_printable demo_f64
    live_demo_read live_demo_reloader (live_demo_source live_demo_roles) _ _ _ _ x _ _ live_demo_after Hx Hs Hst
    eq_refl Hrun Hre) as H.
  change (simulate _ _ _) with live_demo_reload in H.
  destruct (fst (fst live_demo_reload)) as [a|]; [|discriminate E]. destruct H as [_ H]. apply H.
  - apply (bool_decide_eq_true_1 (ADVERSARY ∈ roles_of (SPresent live_demo_contained) (EUid 7))).
    vm_compute. reflexivity.
  - intros _. left. vm_compute. reflexivity.
Defined.
