(* ===== verification/Accept.v ===== *)
(** * The acceptance of a baseline: [crates/maknae-kernel/src/run.rs]

    [Reloader::show] and [Reloader::accept_named]: the files are read against the accepted
    baseline, the named change set is validated and committed under the turn, and either
    installed live or applied by a restart. The drain, the live turn of the decision point
    and the baseline's breaker join the live state's effects. The validator
    ([baseline_check.rs]) and the two baselines' documents are not modelled: a validated
    proposal is an answer, of which the code here reads the classification, the trail's
    path and the principal. *)
From stdpp Require Import base list strings gmap.
From Stdlib Require Import ZArith Lia Ascii.
From S2P Require Import Prelude Programs RustStr RustSlice Json Seam Config Decide Graph GraphFormat.
From S2P Require Import Identity Bindings BindingsSync PolicySource Snapshot Composition Wire Texts SyncText.
From S2P Require Import Envelope Anchor Store Breaker Handler Effects Baseline LiveState Reload LiveEdit.
Open Scope nat_scope.

Definition is_restart (a : Apply) : bool := match a with ApplyRestart => true | ApplyLive => false end.

(** ** Effects *)

Inductive accept_effect {Validated : Type} : Type -> Type :=
| OnLive X (e : live_effect X) : accept_effect X
| GetDrain : accept_effect Drain
| SetDrain (d : Drain) : accept_effect unit
| BeginCheck : accept_effect BreakerAdmission
| CheckSucceeded : accept_effect unit
| CheckTimedOut : accept_effect BreakerTransition
| ReadBaseline (trail : option string) : accept_effect (result BaselineSections InvalidFile)
| CheckProposal (accepted proposed : BaselineSections) : accept_effect (result Validated string)
| TakeLiveTurn : accept_effect bool
| InstallLive (v : Validated) : accept_effect (result unit string).

Section Accept.
Context {Validated : Type}.
Context (classification_of : Validated -> string * string) (trail_of : Validated -> string).
Context (principal_of : Validated -> Z).
(** The trail of an accepted baseline's [audit] section, when that reads. *)
Context (accepted_trail : BaselineSections -> option string).
Context (change_lines : BaselineSections -> BaselineSections -> result (list string) string).
Context (aead : Aead) (sha256 : bytes -> digest).
Context (grapheme_extended printable : Z -> bool).
Context (f64_to_string : Z -> string) (from_str : string -> result Json string).
Context (rl : Reloader).

Local Notation prog := (Programs.prog (@accept_effect Validated)).
Local Notation Answer := (@AcceptAnswer BaselineView).
Local Notation identity_text := (identity_error_text grapheme_extended printable).

Definition on_live {A} (p : Programs.prog live_effect A) : prog A := lift OnLive p.

(** ** Answers *)

Definition ACCEPT_BUSY : string := "baseline accept refused: busy; a reload holds the turn".
Definition ACCEPT_DECIDING : string :=
  "baseline accept refused: busy; decisions in flight held the live turn".
Definition ACCEPT_STOPPING : string := "baseline accept refused: shutting down".
Definition ACCEPT_UNAVAILABLE : string := "baseline accept unavailable".
Definition ACCEPT_INVALID : string := "baseline accept refused: invalid (cause in the journal)".

Definition accept_unavailable (reply why : string) : Answer := AcceptUnavailable reply why.

(** An accept ends early with its answer, or unwinds. *)
Local Notation accept_result A := (result A (fault Answer)).
Definition accept_refused {A} (why : string) : accept_result A :=
  Err (Refused (accept_unavailable ACCEPT_UNAVAILABLE ("baseline accept refused: " +:+ why))).

(** ** The files *)

(** [baseline_blocking]: admitted by the baseline's breaker, bounded. *)
Definition baseline_blocking {T} (work : prog T) : prog (result T string) :=
  let# admission := BeginCheck in
  match admission with
  | RefuseOpen => Ret (Err "the baseline circuit breaker is open")
  | RefuseAtCapacity => Ret (Err "the baseline blocking worker budget is exhausted")
  | Admit =>
      let* done := work in
      let# fate := OnLive _ Blocking in
      match fate with
      | Completed => let# _ := CheckSucceeded in Ret (Ok done)
      | JoinFailed join =>
          let# _ := CheckSucceeded in Ret (Err ("the baseline check failed: " +:+ join))
      | TooLate =>
          let# _ := CheckTimedOut in
          Ret (Err ("the baseline check did not finish within "
                      +:+ dec (BLOCKING_OPERATION_TIMEOUT_MS / 1000)%Z +:+ "s"))
      end
  end.

Definition read_pending : prog (result (BaselineState * option PendingSet) string) :=
  let# state := OnLive _ GetBaseline in
  let* read := baseline_blocking
    (let# file := ReadBaseline (accepted_trail (bs_accepted state)) in Ret file) in
  Ret match read with
      | Err why => Err why
      | Ok file => Ok (state, pending sha256 f64_to_string from_str (bs_accepted state) file)
      end.

Definition show : prog (result BaselineView string) :=
  let* read := read_pending in
  Ret match read with
      | Err why => Err why
      | Ok (state, set) => show_view change_lines set (bs_accepted state)
      end.

(** ** The named change set *)

Definition named_set (hash : string) : prog (accept_result (BaselineState * PendingSet * AcceptPlan)) :=
  let* read := read_pending in
  Ret match read with
      | Err why => accept_refused why
      | Ok (state, current) =>
          match decide_accept current hash, current with
          | Ok plan, Some set => Ok (state, set, plan)
          | Err r, current =>
              let '(view, reason) := refused_view r current in
              Err (Refused (AcceptView view (Some reason)))
          | Ok _, None => accept_refused "nothing is pending"
          end
      end.

Definition checked_proposal (state : BaselineState) (set : PendingSet) (plan : AcceptPlan)
  : prog (accept_result Validated) :=
  let* checked := baseline_blocking
    (let# v := CheckProposal (bs_accepted state) (ap_proposed plan) in Ret v) in
  Ret match checked with
      | Err why => accept_refused why
      | Ok (Err cause) =>
          Err (Refused (AcceptView (fst (refused_view AInvalid (Some set))) (Some ACCEPT_INVALID)))
      | Ok (Ok v) => Ok v
      end.

(** The graph with the proposal as its baseline. *)
Definition accept_graph (state : BaselineState) (plan : AcceptPlan) (v : Validated) (stored : Extracted)
    (store_revision : Z) : accept_result Graph :=
  let '(system, ceiling) := classification_of v in
  let moved_from :=
    let! running := accepted_trail (bs_accepted state) in
    if String.eqb running (trail_of v) then None else Some running in
  let next_baseline :=
    mkBaseline (ap_proposed plan) system ceiling
      (accepted_digest sha256 f64_to_string (ap_proposed plan)) moved_from in
  match build (x_layer stored) (Some next_baseline) (x_sync stored) (vo_persisted (rl_vocabulary rl))
          (vo_digest (rl_vocabulary rl)) (saturating_succ store_revision) POperator with
  | Ok next => Ok next
  | Err Panic => Err Panic
  | Err (Refused e) => accept_refused (identity_text e)
  end.

(** ** The commit *)

(** [DrainGuard::drop]. *)
Definition drop_guard (live_unsettled : bool) : prog unit :=
  let# drain := GetDrain in
  if bool_decide (drain = Begun) then let# _ := SetDrain Failed in Ret tt
  else if live_unsettled && bool_decide (drain = Serving) then let# _ := SetDrain Handler.Applied in Ret tt
  else Ret tt.

(** What an accept whose commit failed is answered with. *)
Definition commit_failed (e : StoreError) : prog (accept_result Committed) :=
  let# _ := OnLive _ (SetStale true) in
  let# drain := GetDrain in
  if bool_decide (drain = Begun) then
    let# _ := SetDrain Failed in
    Ret (Err (Refused (accept_unavailable ACCEPT_UNAVAILABLE
      ("baseline accept failed: persist: " +:+ store_error_text e
         +:+ "; exiting on the unchanged baseline"))))
  else
    Ret (accept_refused match e with
                        | SAudit m => "the intent was not recorded: " +:+ m
                        | e => "persist: " +:+ store_error_text e
                        end).

Definition commit_accepted (set : PendingSet) (plan : AcceptPlan) (next : Graph)
  : prog (accept_result Committed) :=
  let restart := is_restart (ap_apply plan) in
  let intent := "accept intent recorded (operator): sha256:" +:+ short (ps_hash set) +:+ "; apply: "
    +:+ (if restart then "restart" else "live") +:+ "; sections: " +:+ str_join "," (ap_sections plan) in
  let* committed := on_live (on_store
    (commit_accept aead sha256 grapheme_extended printable f64_to_string from_str (rl_dir rl) (rl_key rl)
       next [intent] (mkAuditor 0 restart))) in
  match committed with
  | Err Panic => Ret (Err Panic)
  | Err (Refused e) => commit_failed e
  | Ok c => Ret (Ok c)
  end.

(** With no explicit bindings the principal holds admin. *)
Definition republish_principal_admin (uid : Z) : prog unit :=
  let# snapshot := OnLive _ GetSnapshot in
  if is_some (snapshot_subjects snapshot) then Ret tt
  else
    let promoted := PPrincipalAdmin uid in
    let# current := OnLive _ GetIdentity in
    let carried := List.filter (fun p => match p with PReleased _ _ _ => true | _ => false end) current
                     ++ [promoted] in
    let# _ := OnLive _ (PublishIdentity (published_of snapshot carried)) in
    let '(result_, reason, posture) := identity_record_fields promoted in
    let* _ := on_live (emit (mkGraphRecord GRAPH_IDENTITY_ACTION result_ reason posture None)) in
    Ret tt.

(** How a committed baseline is applied: [held] is the decision point's turn. *)
Definition apply_accepted (held : bool) (v : Validated) (c : Committed) : prog (result string string) :=
  if negb held then Ret (Ok "restarting to apply")
  else
    let# before := OnLive _ GetPrincipal in
    let* installed :=
      match co_durability_error c, co_checkpoint_error c with
      | Some e, _ => Ret (Err ("the store was not durable: " +:+ e))
      | None, Some e => Ret (Err ("the checkpoint was not recorded: " +:+ e))
      | None, None => let# r := InstallLive v in Ret r
      end in
    match installed with
    | Ok _ =>
        let* _ := if negb (principal_of v =? before)%Z then republish_principal_admin (principal_of v)
                  else Ret tt in
        Ret (Ok "applied live")
    | Err e => let# _ := SetDrain Handler.Applied in Ret (Err e)
    end.

(** A baseline committed and applied, or to be applied by the restart. *)
Record Settled := mkSettled {
  se_set : PendingSet; se_accepted : BaselineSections; se_revision : Z; se_applied : result string string }.

(** What runs under the guard. *)
Definition accept_held (hash : string) : prog (accept_result Settled) :=
  let*? (state, set, plan) := named_set hash in
  let*? v := checked_proposal state set plan in
  let# persisted := OnLive _ GetPersisted in
  let*? stored := Ret match extract persisted with
                      | Ok stored => Ok stored
                      | Err e => accept_refused (identity_text e)
                      end in
  let# store_revision := OnLive _ GetRevision in
  let*? next := Ret (accept_graph state plan v stored store_revision) in
  let restart := is_restart (ap_apply plan) in
  let* held := if restart then Ret true else let# t := TakeLiveTurn in Ret t in
  if negb held then Ret (Err (Refused (accept_unavailable ACCEPT_DECIDING ACCEPT_DECIDING)))
  else
    let*? c := commit_accepted set plan next in
    let# _ := OnLive _ (SetPersisted next) in
    let# _ := OnLive _ (SetRevision (co_revision c)) in
    let# _ := OnLive _ (PublishBaseline (mkBaselineState (ap_proposed plan) None)) in
    let* applied := apply_accepted (negb restart) v c in
    let* _ := on_live (publish_live_mirror sha256 next) in
    Ret (Ok (mkSettled set (bs_accepted state) (co_revision c) applied)).

(** The record and the reply, once the guard and the turn are dropped. *)
Definition settle (s : Settled) : prog Answer :=
  let head := "accepted sha256:" +:+ short (ps_hash (se_set s)) +:+ " at revision "
                +:+ dec (se_revision s) +:+ "; " in
  let '(result_, reason, posture) :=
    match se_applied s with
    | Ok how => ("permit", head +:+ how, "authorized")
    | Err e => ("deny", head +:+ "not installed live: " +:+ e +:+ "; restarting to apply", "unavailable")
    end in
  let* emitted := on_live (emit (mkGraphRecord GRAPH_BASELINE_ACTION result_ reason posture None)) in
  let* _ :=
    if is_ok emitted then Ret tt
    else
      let# drain := GetDrain in
      if bool_decide (drain = Serving) then let# _ := SetDrain Handler.Applied in Ret tt else Ret tt in
  let view := accepted_view change_lines (se_set s) (se_accepted s) in
  Ret (AcceptView
         (if negb (is_ok (se_applied s)) || negb (is_ok emitted)
          then mkBaselineView (bv_source view) (bv_hash view) (bv_state view) "restart" (bv_changes view)
          else view) None).

Definition accept_named (hash : string) : prog (result Answer (fault Empty_set)) :=
  let# turn := OnLive _ TakeTurn in
  if negb turn then Ret (Ok (accept_unavailable ACCEPT_BUSY ACCEPT_BUSY))
  else
    let# stopping := OnLive _ Stopping in
    if stopping : bool then Ret (Ok (accept_unavailable ACCEPT_STOPPING ACCEPT_STOPPING))
    else
      let* held := accept_held hash in
      let* _ := drop_guard false in
      match held with
      | Err Panic => Ret (Err Panic)
      | Err (Refused answer) => Ret (Ok answer)
      | Ok s => let* answer := settle s in Ret (Ok answer)
      end.
End Accept.
