(* ===== verification/AcceptTheorems.v ===== *)
(** * What the acceptance of a baseline guarantees

    The world of [LiveWorld] with the drain; what an accept leaves, answered as accepted or
    not; and, with the reloads and live edits, the live state in order after any sequence
    of calls. *)
From stdpp Require Import base list strings gmap.
From Stdlib Require Import ZArith Lia Ascii.
From S2P Require Import Prelude Programs RustStr RustSlice Json Seam Config Classification Ceiling Decide.
From S2P Require Import Graph GraphFormat Identity Bindings BindingsSync PolicySource Snapshot Composition.
From S2P Require Import Wire Operands Texts SyncText Envelope Anchor Store StoreWorld StoreTheorems Breaker.
From S2P Require Import Handler Containment Baseline Effects LiveState ErrorTexts Reload LiveEdit LiveWorld.
From S2P Require Import LiveInvariant LiveTheorems Accept.
Open Scope nat_scope.

(** ** The world *)

Record accept_world := mkAccept { aw_live : live_world; aw_drain : Drain }.

(** The drain a boot auditor's send leaves. *)
Definition sent (s : DrainStep) : Drain :=
  match s with DrainBegun => Begun | DrainApplied => Handler.Applied end.

Definition store_drained {X} (e : store_effect X) (d : Drain) : Drain :=
  match e with SendDrain s => sent s | _ => d end.

Definition drained {X} (e : live_effect X) (d : Drain) : Drain :=
  match e with OnStore _ e => store_drained e d | _ => d end.

(** A drain that has left [Serving] stops what follows. *)
Definition stops {X} (d : Drain) (e : live_effect X) : X -> Prop :=
  match e in live_effect X return X -> Prop with
  | Stopping => fun x => d <> Serving -> x = true
  | _ => fun _ => True
  end.

Definition with_principal (w : live_world) (p : Z) : live_world :=
  let c := lw_cells w in
  mkLiveWorld (lw_disk w) (mkCells (c_persisted c) (c_revision c) (c_snapshot c) p (c_source c) (c_sync c)
    (c_identity c) (c_baseline c)).

Section World.
Context {Validated : Type} (principal_of : Validated -> Z).
Context (files : PolicySource -> Prop) (baselines : result BaselineSections InvalidFile -> Prop).

(** An install that reports a failure may have replaced the principal. *)
Definition accept_acts (w : accept_world) (ev : event (@accept_effect Validated)) (w' : accept_world) : Prop :=
  match ev_effect ev in accept_effect X return X -> Prop with
  | OnLive X e => fun x =>
      live_acts files (aw_live w) (Ev X e x) (aw_live w') /\ aw_drain w' = drained e (aw_drain w) /\
      stops (aw_drain w) e x
  | GetDrain => fun x => x = aw_drain w /\ w' = w
  | SetDrain d => fun _ => w' = mkAccept (aw_live w) d
  | ReadBaseline _ => fun x => w' = w /\ baselines x
  | InstallLive v => fun x =>
      let installed := mkAccept (with_principal (aw_live w) (principal_of v)) (aw_drain w) in
      w' = installed \/ is_ok x = false /\ w' = w
  | _ => fun _ => w' = w
  end (ev_answer ev).

Local Notation prog := (Programs.prog (@accept_effect Validated)).

(** ** Programs of the store and of the live state here *)

(** What a store's program does to the drain. *)
Definition drain_acts (d : Drain) (ev : event store_effect) (d' : Drain) : Prop :=
  d' = store_drained (ev_effect ev) d.

Lemma keeps_stored {A} (p : Programs.prog store_effect A) (Q : A -> world -> Prop) (R : A -> Drain -> Prop) c :
  forall disk d, keeps acts (fun _ => True) p Q disk -> keeps drain_acts (fun _ => True) p R d ->
  keeps accept_acts (fun _ => True) (on_live (on_store p))
    (fun a w => Q a (lw_disk (aw_live w)) /\ lw_cells (aw_live w) = c /\ R a (aw_drain w))
    (mkAccept (mkLiveWorld disk c) d).
Proof.
  induction p as [a|X e k IH]; intros disk d HQ HR; [done|].
  intros x [[disk' c'] d'] ([Ha Hc] & Hd & _). cbn in Ha, Hc, Hd. subst c' d'.
  destruct (HQ x disk' Ha) as [_ HQ']. destruct (HR x _ eq_refl) as [_ HR']. split; [done|]. by apply IH.
Qed.

(** A program that sends nothing to the drain. *)
Fixpoint undraining {A} (p : Programs.prog live_effect A) : Prop :=
  match p with
  | Ret _ => True
  | Vis e k => (forall d, drained e d = d) /\ forall x, undraining (k x)
  end.

Lemma keeps_on_live {A} (p : Programs.prog live_effect A) I (Q : A -> live_world -> Prop) d : forall lw,
  undraining p -> keeps (live_acts files) I p Q lw ->
  keeps accept_acts (fun _ => True) (on_live p) (fun a w => Q a (aw_live w) /\ aw_drain w = d) (mkAccept lw d).
Proof.
  induction p as [a|X e k IH]; intros lw Hu Hk; [done|]. destruct Hu as [He Hu].
  intros x [lw' d'] (Ha & Hd & _). cbn in Ha, Hd. rewrite He in Hd. subst d'.
  split; [done|]. apply IH; [apply Hu|]. by apply Hk.
Qed.

Lemma keeps_live_call {A} (p : Programs.prog live_effect A) (Q : A -> live_world -> Prop) : forall w,
  keeps (live_acts files) (fun _ => True) p Q (aw_live w) ->
  keeps accept_acts (fun _ => True) (on_live p) (fun a w => Q a (aw_live w)) w.
Proof.
  induction p as [a|X e k IH]; intros w Hk; [done|]. intros x w' (Ha & _). split; [done|].
  apply IH. by apply Hk.
Qed.
End World.

(** ** What a commit does to the drain *)

Definition steady {A} (p : Programs.prog store_effect A) : Prop :=
  forall d, keeps drain_acts (fun _ => True) p (fun _ d' => d' = d) d.

Lemma steady_ret {A} (a : A) : steady (Ret a).
Proof. by intros d. Qed.
Lemma steady_vis {A X} (e : store_effect X) (k : X -> Programs.prog store_effect A) :
  (forall d, store_drained e d = d) -> (forall x, steady (k x)) -> steady (Vis e k).
Proof. intros He Hk d x d' Hd. unfold drain_acts in Hd. cbn [ev_effect] in Hd. rewrite He in Hd. subst d'. split; [done|apply Hk]. Qed.
Lemma steady_bind {A B} (p : Programs.prog store_effect A) (f : A -> Programs.prog store_effect B) :
  steady p -> (forall a, steady (f a)) -> steady (bind p f).
Proof.
  intros Hp Hf d. apply keeps_bind. eapply keeps_mono; [done| |apply Hp]. intros a d' ->. apply Hf.
Qed.
Lemma steady_try {A B E} (p : Programs.prog store_effect (result A E))
    (f : A -> Programs.prog store_effect (result B E)) :
  steady p -> (forall a, steady (f a)) -> steady (try_bind p f).
Proof. intros Hp Hf. apply steady_bind; [done|]. intros [a|e]; [apply Hf|apply steady_ret]. Qed.

Ltac steadies := repeat first
  [ apply steady_ret | apply steady_try; [|intros ?] | apply steady_bind; [|intros ?]
  | apply steady_vis; [done|intros ?]
  | match goal with |- steady (match ?x with _ => _ end) => destruct x end ].

Lemma write_ahead_steady rec : steady (write_ahead rec).
Proof. unfold write_ahead. steadies. Qed.
Lemma write_each_steady l : steady (write_each l).
Proof.
  induction l as [|r l IH]; [apply steady_ret|]. cbn [write_each]. apply steady_try; [apply write_ahead_steady|done].
Qed.
Lemma unless_empty_steady {A} (l : list A) recs : steady (unless_empty l (write_each recs)).
Proof. destruct l; [apply steady_ret|apply write_each_steady]. Qed.

(** A step that sends nothing, and may end the program. *)
Lemma steady_then {A B E} (p : Programs.prog store_effect (result A E))
    (f : A -> Programs.prog store_effect (result B E)) (Q : result B E -> Drain -> Prop) d :
  steady p -> (forall e, Q (Err e) d) -> (forall a, keeps drain_acts (fun _ => True) (f a) Q d) ->
  keeps drain_acts (fun _ => True) (try_bind p f) Q d.
Proof.
  intros Hp HE Hf. apply keeps_try. eapply keeps_mono; [done| |apply Hp]. intros [a|e] d' ->; auto.
Qed.

Lemma read_steady dir : steady (read_store dir).
Proof. unfold read_store. steadies. Qed.

Section Commit.
Context (aead : Aead) (sha256 : bytes -> digest).
Context (grapheme_extended printable : Z -> bool).
Context (f64_to_string : Z -> string) (from_str : string -> result Json string).

Lemma persist_steady key g : steady (persist aead sha256 key g).
Proof. unfold persist, remove_mirror, publish. steadies. Qed.

(** A restart accept's commit leaves the drain at [Begun] until the store is replaced and
    at [Applied] after. *)
Lemma transition_drains dir key next t au d :
  keeps drain_acts (fun _ => True)
    (Store.transition aead sha256 grapheme_extended printable f64_to_string from_str dir key next t au)
    (fun r d' => match r with
     | Ok _ => d' = if au_drain au then Handler.Applied else d
     | Err _ => d' = d \/ d' = Begun
     end) d.
Proof.
  unfold Store.transition. intros floor d1 ->. split; [done|]. cbn [store_drained ev_effect].
  destruct (_ <=? _)%Z; [by left|].
  apply steady_then; [steadies|by left|]. intros proposed.
  apply keeps_bind. eapply keeps_mono; [done| |apply read_steady]. intros r d1 ->.
  do 2 (apply steady_then; [steadies|by left|intros ?]).
  do 3 (apply steady_then; [apply unless_empty_steady|by left|intros _]).
  unfold intent_transition. apply keeps_try. apply steady_then; [apply write_ahead_steady|by left|]. intros _.
  assert (forall d0, (d0 = d \/ d0 = Begun) -> (au_drain au = false -> d0 = d) -> keeps drain_acts (fun _ => True)
    (let*? persisted := persist aead sha256 key next in
     let* c := checkpoint au (g_revision next) (pd_digest persisted) ANCHOR_TRANSITIONED in
     Ret match c with
        | Err Panic => Err Panic
        | Ok _ => Ok (mkCommitted (g_revision next) (pd_digest persisted) (pd_durability_error persisted) None)
        | Err (Refused e) =>
            Ok (mkCommitted (g_revision next) (pd_digest persisted) (pd_durability_error persisted)
                  (Some (store_error_text e)))
        end)
    (fun r d' => match r with
     | Ok _ => d' = if au_drain au then Handler.Applied else d
     | Err _ => d' = d \/ d' = Begun
     end) d0) as Hend.
  { intros d0 H0 Hf. apply steady_then; [apply persist_steady|done|]. intros p. apply keeps_bind.
    unfold checkpoint. destruct (au_drain au).
    - intros [] d1 ->. split; [done|]. intros [x|e] d2 ->; by split.
    - intros [x|e] d2 ->; (split; [done|]); by apply Hf. }
  destruct (au_drain au) eqn:Ea.
  - intros [] d1 ->. split; [done|]. apply Hend; [by right|done].
  - apply Hend; auto.
Qed.
End Commit.

(** ** Lemmas: reading *)

Section Accepting.
Context {Validated : Type}.
Context (classification_of : Validated -> string * string) (trail_of : Validated -> string).
Context (principal_of : Validated -> Z).
Context (accepted_trail : BaselineSections -> option string).
Context (change_lines : BaselineSections -> BaselineSections -> result (list string) string).
Context (aead : Aead) (sha256 : bytes -> digest) `{!AeadLaws aead}.
Context (grapheme_extended printable : Z -> bool).
Context (f64_to_string : Z -> string) (from_str : string -> result Json string).
Context (rl : Reloader).
Context (files : PolicySource -> Prop) (baselines : result BaselineSections InvalidFile -> Prop).

Local Notation prog := (Programs.prog (@accept_effect Validated)).
Local Notation acts := (accept_acts principal_of files baselines).
Local Notation pending := (pending sha256 f64_to_string from_str).
Local Notation live_ok := (live_ok aead sha256 rl).

(** The program changes nothing, and its result satisfies [P]. *)
Definition reading {A} (p : prog A) (P : accept_world -> A -> Prop) : Prop :=
  forall w, keeps acts (fun _ => True) p (fun a w' => w' = w /\ P w a) w.

Lemma reading_ret {A} (a : A) (P : accept_world -> A -> Prop) : (forall w, P w a) -> reading (Ret a) P.
Proof. intros H w. by split. Qed.

Lemma reading_vis {A X} (e : accept_effect X) (k : X -> prog A) (R : accept_world -> X -> Prop) P :
  (forall w x w', acts w (Ev _ e x) w' -> w' = w /\ R w x) ->
  (forall x, reading (k x) (fun w a => R w x -> P w a)) -> reading (Vis e k) P.
Proof.
  intros He Hk w x w' H. destruct (He _ _ _ H) as [-> Hx]. split; [done|].
  eapply keeps_mono; [done| |apply Hk]. intros a w1 [-> Ha]. auto.
Qed.

Lemma reading_bind {A B} (p : prog A) (f : A -> prog B) (R : accept_world -> A -> Prop) P :
  reading p R -> (forall a, reading (f a) (fun w b => R w a -> P w b)) -> reading (bind p f) P.
Proof.
  intros Hp Hf w. apply keeps_bind. eapply keeps_mono; [done| |apply Hp]. intros a w1 [-> Ha].
  eapply keeps_mono; [done| |apply Hf]. intros b w2 [-> Hb]. auto.
Qed.

Lemma reading_mono {A} (p : prog A) (P P' : accept_world -> A -> Prop) :
  reading p P -> (forall w a, P w a -> P' w a) -> reading p P'.
Proof. intros Hp H w. eapply keeps_mono; [done| |apply Hp]. intros a w' [-> Ha]. auto. Qed.

(** A read of the live state. *)
Lemma live_reading {X} (e : live_effect X) (R : cells -> X -> Prop) :
  (forall lw x lw', live_acts files lw (Ev _ e x) lw' -> lw' = lw /\ R (lw_cells lw) x) ->
  (forall d, drained e d = d) ->
  forall w x w', acts w (Ev _ (OnLive _ e) x) w' -> w' = w /\ R (lw_cells (aw_live w)) x.
Proof.
  intros He Hd [lw d] x [lw' d'] (Ha & Hdr & _). cbn in Ha, Hdr. rewrite Hd in Hdr. subst d'.
  by destruct (He _ _ _ Ha) as [-> Hx].
Qed.

Lemma outside_live {X} (e : live_effect X) : outside files e ->
  forall lw x lw', live_acts files lw (Ev _ e x) lw' -> lw' = lw /\ True.
Proof. intros He lw x lw' H. split; [by eapply He|done]. Qed.

Lemma blocking_reading {T} (work : prog T) (P : accept_world -> T -> Prop) :
  reading work P -> reading (baseline_blocking work) (fun w r => forall t, r = Ok t -> P w t).
Proof.
  intros Hw. unfold baseline_blocking.
  apply (reading_vis _ _ (fun _ _ => True)); [by intros w x w' ->|]. intros [| |];
    [|by apply reading_ret..]. eapply reading_bind; [done|]. intros t.
  apply (reading_vis _ _ (fun w _ => True)).
  { apply (live_reading Blocking (fun _ _ => True)); [apply outside_live, outside_blocking|done]. }
  intros [|join|]; (apply (reading_vis _ _ (fun _ _ => True)); [by intros w x w' ->|]; intros x;
    apply reading_ret; naive_solver).
Qed.

(** What was read: the set the files hold against the accepted baseline. *)
Lemma read_pending_reading :
  reading (read_pending accepted_trail sha256 f64_to_string from_str) (fun w r =>
    forall state set, r = Ok (state, set) -> state = c_baseline (lw_cells (aw_live w)) /\
      exists file, baselines file /\ set = pending (bs_accepted state) file).
Proof.
  unfold read_pending. apply (reading_vis _ _ (fun w x => x = c_baseline (lw_cells (aw_live w)))).
  { apply (live_reading GetBaseline (fun c x => x = c_baseline c)); [|done].
    intros [d []] x [d' c'] [H Hd]. cbn in H, Hd. destruct H as [-> ->]. by subst. }
  intros state. eapply reading_bind.
  { apply blocking_reading. apply (reading_vis _ _ (fun _ x => baselines x)); [by intros w x w' [-> H]|].
    intros file. instantiate (1 := fun _ f => baselines f). by apply reading_ret. }
  intros [file|why]; apply reading_ret; [|done]. intros w Hf -> ? ? [= <- <-]. split; [done|].
  exists file. split; [by apply Hf|done].
Qed.

(** An early answer is no acceptance. *)
Definition declined (e : fault (@AcceptAnswer BaselineView)) : Prop :=
  forall view, e <> Refused (AcceptView view None).

Lemma named_reading hash :
  reading (named_set accepted_trail sha256 f64_to_string from_str hash) (fun w r =>
    match r with
    | Ok (state, set, plan) => state = c_baseline (lw_cells (aw_live w)) /\
        (exists file, baselines file /\ pending (bs_accepted state) file = Some set) /\
        decide_accept (Some set) hash = Ok plan
    | Err e => declined e
    end).
Proof.
  unfold named_set. eapply reading_bind; [apply read_pending_reading|]. intros [[state current]|why].
  2: { by apply reading_ret. }
  destruct (decide_accept current hash) as [plan|r] eqn:E.
  - destruct current as [set|]; [|by apply reading_ret]. apply reading_ret.
    intros w H. destruct (H _ _ eq_refl) as (-> & file & Hf & Hs). split; [done|].
    split; [|done]. by exists file.
  - destruct current as [set|]; destruct (refused_view r _); by apply reading_ret.
Qed.

Lemma proposal_reading state set plan : reading (checked_proposal state set plan)
  (fun _ r => match r with Ok _ => True | Err e => declined e end).
Proof.
  unfold checked_proposal. eapply reading_bind.
  { apply blocking_reading. instantiate (1 := fun _ _ => True).
    apply (reading_vis _ _ (fun _ _ => True)); [by intros w x w' ->|]. intros v. by apply reading_ret. }
  intros [[v|cause]|why]; by apply reading_ret.
Qed.

(** ** Lemmas: committing *)

(** The live state once [next] is committed as the baseline [b]. *)
Record standing (lw0 : live_world) (next : Graph) (b : BaselineState) (lw : live_world) : Prop := {
  sd_held : exists d, holds aead sha256 (rl_key rl) (lw_disk lw) next d;
  sd_floor : w_floor (lw_disk lw) = g_revision next;
  sd_persisted : c_persisted (lw_cells lw) = next;
  sd_revision : c_revision (lw_cells lw) = g_revision next;
  sd_snapshot : c_snapshot (lw_cells lw) = c_snapshot (lw_cells lw0);
  sd_source : c_source (lw_cells lw) = c_source (lw_cells lw0);
  sd_baseline : c_baseline (lw_cells lw) = b }.

Lemma standing_still lw0 next b lw lw' : still lw lw' -> standing lw0 next b lw -> standing lw0 next b lw'.
Proof.
  intros [[Hs Hf] [sy Hc]] [[d Hh] ? ? ? ? ? ?]. destruct lw as [dk []], lw' as [dk' c']. cbn in *. subst c'.
  constructor; cbn in *; try congruence. exists d. by eapply holds_same.
Qed.

Lemma standing_principal lw0 next b lw p : standing lw0 next b lw -> standing lw0 next b (with_principal lw p).
Proof. intros []. by constructor. Qed.

Lemma standing_ok lw0 next b lw stored baseline revision :
  live_ok lw0 -> extract (c_persisted (lw_cells lw0)) = Ok stored ->
  build (x_layer stored) baseline (x_sync stored) (vo_persisted (rl_vocabulary rl))
    (vo_digest (rl_vocabulary rl)) revision POperator = Ok next ->
  standing lw0 next b lw -> live_ok lw.
Proof.
  intros Hw Hx Hb [? ? Hp Hr Hn Hs ?]. constructor; rewrite ?Hp, ?Hr, ?Hn, ?Hs; try done.
  destruct (lo_serves _ _ _ _ Hw) as (g0 & Hg & Hsv). exists g0. split; [|done]. by econstructor.
Qed.

(** One effect on the live state, answered by the cells. *)
Ltac accept_step :=
  let x := fresh "x" in let dk := fresh "dk" in let c := fresh "c" in let d := fresh "d" in
  let H := fresh "H" in let Hk := fresh "Hk" in let Hd := fresh "Hd" in
  intros x [[dk c] d] H; destruct H as ([H Hk] & Hd & _); cbn in H, Hk, Hd; subst dk d;
  first [subst c | destruct H as [-> ->]].

Ltac ret_step := match goal with |- keeps _ _ (Ret ?x) ?Q ?w => change (Q x w) end; cbn beta iota.

Lemma emit_undraining rec : undraining (emit rec).
Proof. by split. Qed.
Lemma mirror_undraining g : undraining (publish_live_mirror sha256 g).
Proof.
  split; [done|]. intros [text|e]; cbn.
  - split; [done|]. intros [u|e]; cbn; (split; [done|]); intros m; cbn; [done|].
    split; [done|]. intros u. cbn. split; [done|]. by intros [].
  - split; [done|]. intros m. cbn. split; [done|]. intros []. cbn. split; [done|]. by intros [].
Qed.

Lemma emit_standing rec lw0 next b lw d : standing lw0 next b lw ->
  keeps acts (fun _ => True) (on_live (emit rec))
    (fun _ w => standing lw0 next b (aw_live w) /\ c_principal (lw_cells (aw_live w)) = c_principal (lw_cells lw) /\
       aw_drain w = d) (mkAccept lw d).
Proof.
  intros Hs. eapply keeps_mono; [done| |eapply keeps_on_live; [apply emit_undraining|apply emit_still, still_refl]].
  intros r [lw' d'] [H ->]. cbn in *. split; [by eapply standing_still|]. split; [|done].
  by rewrite (ca_principal _ _ (still_calm _ _ H)).
Qed.

Lemma mirror_standing g lw0 next b lw d : standing lw0 next b lw ->
  keeps acts (fun _ => True) (on_live (publish_live_mirror sha256 g))
    (fun _ w => standing lw0 next b (aw_live w) /\ c_principal (lw_cells (aw_live w)) = c_principal (lw_cells lw) /\
       aw_drain w = d) (mkAccept lw d).
Proof.
  intros Hs. eapply keeps_mono; [done| |eapply keeps_on_live; [apply mirror_undraining|apply mirror_still, still_refl]].
  intros r [lw' d'] [H ->]. cbn in *. split; [by eapply standing_still|]. split; [|done].
  by rewrite (ca_principal _ _ (still_calm _ _ H)).
Qed.

Lemma republish_standing uid lw0 next b lw d : standing lw0 next b lw ->
  keeps acts (fun _ => True) (republish_principal_admin uid)
    (fun _ w => standing lw0 next b (aw_live w) /\ c_principal (lw_cells (aw_live w)) = c_principal (lw_cells lw) /\
       aw_drain w = d) (mkAccept lw d).
Proof.
  intros Hs. unfold republish_principal_admin. destruct lw as [dk0 [g0 r0 s0 p0 src0 sy0 i0 b0]].
  accept_step. split; [done|]. destruct (is_some _); [done|]. do 2 (accept_step; split; [done|]).
  destruct (identity_record_fields _) as [[res reason] posture]. apply keeps_bind.
  eapply keeps_mono; [done| |apply emit_standing; destruct Hs; by constructor].
  by intros r w (H1 & H2 & H3).
Qed.

(** How the baseline is applied. *)
Definition applied_as (restart : bool) (v : Validated) (p0 : Z) (r : result string string) (w : accept_world)
  : Prop :=
  if restart then is_ok r = true /\ aw_drain w = Handler.Applied /\ c_principal (lw_cells (aw_live w)) = p0
  else if is_ok r then aw_drain w = Serving /\ c_principal (lw_cells (aw_live w)) = principal_of v
  else aw_drain w = Handler.Applied.

Lemma apply_standing (restart : bool) v c lw0 next b lw : standing lw0 next b lw ->
  let d := if restart then Handler.Applied else Serving in
  keeps acts (fun _ => True) (apply_accepted principal_of (negb restart) v c)
    (fun r w => standing lw0 next b (aw_live w) /\ applied_as restart v (c_principal (lw_cells lw)) r w)
    (mkAccept lw d).
Proof.
  intros Hs d. unfold apply_accepted, applied_as. destruct restart; cbn [negb]; [done|]. subst d.
  assert (forall e lw1, standing lw0 next b lw1 -> keeps acts (fun _ => True)
    (let# _ := SetDrain Handler.Applied in Ret (Err e : result string string))
    (fun r w => standing lw0 next b (aw_live w) /\ if is_ok r then aw_drain w = Serving /\
       c_principal (lw_cells (aw_live w)) = principal_of v else aw_drain w = Handler.Applied)
    (mkAccept lw1 Serving)) as Hfail by (intros e lw1 H1 [] w ->; by split).
  pose proof (standing_principal _ _ _ _ (principal_of v) Hs) as Hp.
  destruct lw as [dk0 [g0 r0 s0 p0 src0 sy0 i0 b0]]. accept_step. split; [done|]. apply keeps_bind.
  destruct (co_durability_error c) as [e|]; [by apply Hfail|].
  destruct (co_checkpoint_error c) as [e|]; [by apply Hfail|].
  intros [[]|e] w Hi; cbn in Hi; (split; [done|]); ret_step.
  - destruct Hi as [->|[? _]]; [|done]. apply keeps_bind. destruct (negb _); [|done].
    eapply keeps_mono; [done| |apply republish_standing, Hp]. by intros [] w (H1 & H2 & H3).
  - by destruct Hi as [->|[_ ->]]; apply Hfail.
Qed.

(** ** Lemmas: the accept *)

(** An accept that ended before it committed. *)
Record unaccepted (w w' : accept_world) : Prop := {
  un_calm : calm (aw_live w) (aw_live w');
  un_baseline : c_baseline (lw_cells (aw_live w')) = c_baseline (lw_cells (aw_live w)) }.

Lemma unaccepted_refl w : unaccepted w w.
Proof. split; [apply calm_refl|done]. Qed.

(** What the guarded part of an accept leaves when it committed. *)
Record held_to (w : accept_world) (hash : string) (s : Settled) (v : Validated)
    (file : result BaselineSections InvalidFile) (plan : AcceptPlan) (stored : Extracted)
    (baseline : BaselineLayer) (next : Graph) (w' : accept_world) : Prop := {
  ht_file : baselines file;
  ht_set : pending (bs_accepted (c_baseline (lw_cells (aw_live w)))) file = Some (se_set s);
  ht_named : decide_accept (Some (se_set s)) hash = Ok plan;
  ht_accepted : se_accepted s = bs_accepted (c_baseline (lw_cells (aw_live w)));
  ht_stored : extract (c_persisted (lw_cells (aw_live w))) = Ok stored;
  ht_sections : bl_sections baseline = ap_proposed plan;
  ht_built : build (x_layer stored) (Some baseline) (x_sync stored) (vo_persisted (rl_vocabulary rl))
    (vo_digest (rl_vocabulary rl)) (saturating_succ (c_revision (lw_cells (aw_live w)))) POperator = Ok next;
  ht_later : (w_floor (lw_disk (aw_live w)) < g_revision next)%Z;
  ht_revision : se_revision s = g_revision next;
  ht_standing : standing (aw_live w) next (mkBaselineState (ap_proposed plan) None) (aw_live w');
  ht_applied : applied_as (is_restart (ap_apply plan)) v (c_principal (lw_cells (aw_live w))) (se_applied s) w' }.

Lemma accept_graph_Ok state plan v stored revision next :
  accept_graph classification_of trail_of accepted_trail sha256 grapheme_extended printable f64_to_string rl
    state plan v stored revision = Ok next ->
  exists baseline, bl_sections baseline = ap_proposed plan /\
    build (x_layer stored) (Some baseline) (x_sync stored) (vo_persisted (rl_vocabulary rl))
      (vo_digest (rl_vocabulary rl)) (saturating_succ revision) POperator = Ok next.
Proof.
  unfold accept_graph. destruct (classification_of v) as [system ceiling]. intros H.
  destruct (build _ _ _ _ _ _ _) as [g|[]] eqn:E; try done. injection H as <-. eexists. split; [|exact E]. done.
Qed.

Lemma accept_graph_Err state plan v stored revision e :
  accept_graph classification_of trail_of accepted_trail sha256 grapheme_extended printable f64_to_string rl
    state plan v stored revision = Err e -> declined e.
Proof.
  unfold accept_graph. destruct (classification_of v) as [system ceiling]. intros H.
  destruct (build _ _ _ _ _ _ _) as [g|[]]; try done; by injection H as <-.
Qed.

Lemma commit_accepted_keeps set plan next lw :
  keeps acts (fun _ => True)
    (commit_accepted aead sha256 grapheme_extended printable f64_to_string from_str rl set plan next)
    (fun r w' => match r with
     | Ok c => (exists d, holds aead sha256 (rl_key rl) (lw_disk (aw_live w')) next d) /\
         co_revision c = g_revision next /\ w_floor (lw_disk (aw_live w')) = g_revision next /\
         (w_floor (lw_disk lw) < g_revision next)%Z /\ lw_cells (aw_live w') = lw_cells lw /\
         aw_drain w' = if is_restart (ap_apply plan) then Handler.Applied else Serving
     | Err e => unaccepted (mkAccept lw Serving) w' /\ aw_drain w' ∈ [Serving; Failed; Begun] /\ declined e
     end) (mkAccept lw Serving).
Proof.
  unfold commit_accepted. apply keeps_bind. destruct lw as [dk c].
  eapply keeps_mono; [done| |apply keeps_stored; [apply transition_holds|apply transition_drains]].
  intros [co|[|e]] [[dk' c'] d'] (Hq & Hc & Hd); cbn in Hq, Hc, Hd; subst c'; cbn beta iota.
  - destruct Hq as (Hh & Hrev & Hfl & Hlt). split; [by eexists|]. by split_and!.
  - split; [split; [by constructor|done]|]. cbn. split; [|done]. destruct Hd as [->| ->]; set_solver.
  - unfold commit_failed. destruct c as [g0 r0 s0 p0 src0 sy0 i0 b0]. accept_step. split; [done|].
    assert (forall d, unaccepted (mkAccept (mkLiveWorld dk (mkCells g0 r0 s0 p0 src0 sy0 i0 b0)) Serving)
      (mkAccept (mkLiveWorld dk' (mkCells g0 r0 s0 p0 src0 (set_stale sy0 true) i0 b0)) d)) as Hu
      by (intros d; split; [by constructor|done]).
    intros d1 w1 H1. cbn in H1. destruct H1 as [-> ->]. split; [done|]. cbn [aw_drain]. case_bool_decide as Hb.
    + intros [] w2 ->. split; [done|]. split; [done|]. cbn. split; [set_solver|done].
    + split; [done|]. cbn. split; [|done]. destruct Hd as [->|?]; [set_solver|done].
Qed.

Lemma accept_held_keeps hash lw : live_ok lw ->
  keeps acts (fun _ => True)
    (accept_held classification_of trail_of principal_of accepted_trail aead sha256 grapheme_extended printable
       f64_to_string from_str rl hash)
    (fun r w' => match r with
     | Ok s => exists v file plan stored baseline next,
         held_to (mkAccept lw Serving) hash s v file plan stored baseline next w'
     | Err e => unaccepted (mkAccept lw Serving) w' /\ aw_drain w' ∈ [Serving; Failed; Begun] /\ declined e
     end) (mkAccept lw Serving).
Proof.
  intros Hw. assert (forall e, declined e -> unaccepted (mkAccept lw Serving) (mkAccept lw Serving) /\
    Serving ∈ [Serving; Failed; Begun] /\ declined e) as Hsame by (intros e He; split; [apply unaccepted_refl|]; split; [left|done]).
  unfold accept_held. apply keeps_try. eapply keeps_mono; [done| |apply named_reading].
  intros [[[state set] plan]|e] w1 [-> Hn]; [|by apply Hsame]. destruct Hn as (-> & (file & Hf & Hset) & Hpl).
  apply keeps_try. eapply keeps_mono; [done| |apply proposal_reading]. intros [v|e] w1 [-> Hv]; [|by apply Hsame].
  destruct lw as [dk [g0 r0 s0 p0 src0 sy0 i0 b0]]. accept_step. split; [done|].
  destruct (extract g0) as [stored|e] eqn:Ex; [|by apply Hsame]. cbn [try_bind bind]. accept_step. split; [done|].
  destruct (accept_graph _ _ _ _ _ _ _ _ _ _ _ _ _) as [next|e] eqn:Eg; [|apply Hsame; by eapply accept_graph_Err].
  cbn [try_bind bind]. apply accept_graph_Ok in Eg as (baseline & Hbs & Hb).
  apply keeps_bind. apply (keeps_mono _ (fun _ => True) _ _ (fun _ w => w = mkAccept (mkLiveWorld dk
    (mkCells g0 r0 s0 p0 src0 sy0 i0 b0)) Serving)); [done| |by destruct (is_restart _); [|intros t w1 ->]].
  intros held w1 ->. destruct held; cbn [negb]; [|by apply Hsame].
  apply keeps_try. eapply keeps_mono; [done| |apply commit_accepted_keeps]. intros [c|e] w2 H2; [|done].
  destruct w2 as [[dk2 c2] d2]. destruct H2 as ([dg Hh] & Hrev & Hfl & Hlt & Hc2 & Hd2). cbn in Hh, Hfl, Hlt, Hc2, Hd2.
  subst c2 d2. do 3 (accept_step; split; [done|]).
  assert (standing (mkLiveWorld dk (mkCells g0 r0 s0 p0 src0 sy0 i0 b0)) next (mkBaselineState (ap_proposed plan) None)
    (mkLiveWorld dk2 (mkCells next (co_revision c) s0 p0 src0 sy0 i0 (mkBaselineState (ap_proposed plan) None)))) as Hst
    by (constructor; cbn; eauto).
  apply keeps_bind. eapply keeps_mono; [done| |apply apply_standing, Hst].
  intros applied [lw3 d3] [H3 Ha]. apply keeps_bind. eapply keeps_mono; [done| |apply mirror_standing, H3].
  intros [] [lw4 d4] (H4 & Hp4 & Hd4). ret_step. cbn in Hd4. subst d4.
  exists v, file, plan, stored, baseline, next. constructor; cbn; try done.
  unfold applied_as in *. cbn in *. by rewrite Hp4.
Qed.

Lemma settle_keeps s lw0 next b lw d : standing lw0 next b lw ->
  keeps acts (fun _ => True) (settle change_lines s)
    (fun a w => standing lw0 next b (aw_live w) /\
       c_principal (lw_cells (aw_live w)) = c_principal (lw_cells lw) /\
       exists view, a = AcceptView view None /\
         ((is_ok (se_applied s) = true /\ bv_apply view = apply_name (se_set s) /\ aw_drain w = d) \/
          (bv_apply view = "restart" /\
           (aw_drain w = if decide (d = Serving) then Handler.Applied else d) \/
           (is_ok (se_applied s) = false /\ bv_apply view = "restart" /\ aw_drain w = d))))
    (mkAccept lw d).
Proof.
  intros Hs. unfold settle. destruct (match se_applied s with Ok _ => _ | Err _ => _ end) as [[res reason] posture].
  apply keeps_bind. eapply keeps_mono; [done| |apply emit_standing, Hs].
  intros emitted [lw1 d1] (H1 & Hp & Hd). cbn in H1, Hp, Hd. subst d1. apply keeps_bind.
  destruct emitted as [[]|e]; cbn [is_ok]; ret_step || idtac.
  - split; [done|]. split; [done|]. eexists. split; [done|]. destruct (se_applied s) as [how|e]; cbn; [by left|].
    right. by right.
  - intros d1 w1 Hg. cbn in Hg. destruct Hg as [-> ->]. split; [done|]. cbn [aw_drain].
    rewrite orb_true_r. case_bool_decide as Hb.
    + subst d. intros [] w2 ->. split; [done|]. ret_step. split; [done|]. split; [done|]. eexists. split; [done|].
      right. left. by rewrite decide_True.
    + ret_step. split; [done|]. split; [done|]. eexists. split; [done|]. right. left. by rewrite decide_False.
Qed.

Lemma decide_accept_Ok current hash plan : decide_accept current hash = Ok plan ->
  exists set, current = Some set /\ ps_hash set = hash /\
    ps_state set = PValid (ap_proposed plan) (ap_apply plan) (ap_sections plan).
Proof.
  unfold decide_accept. destruct (negb _); [done|]. destruct current as [p|]; [|done]. cbn.
  destruct (String.eqb_spec hash (ps_hash p)) as [->|]; [|done]. cbn. destruct (ps_state p) as [pr ap se|] eqn:E; [|done].
  intros H. injection H as <-. by exists p.
Qed.

Lemma apply_name_valid set plan :
  ps_state set = PValid (ap_proposed plan) (ap_apply plan) (ap_sections plan) ->
  apply_name set = if is_restart (ap_apply plan) then "restart" else "live".
Proof. unfold apply_name, pending_class. intros ->. by destruct (ap_apply plan). Qed.

(** How an accept that was answered as accepted stands. *)
Definition in_effect (v : Validated) (view : BaselineView) (w : accept_world) : Prop :=
  bv_apply view = "live" /\ aw_drain w = Serving /\ c_principal (lw_cells (aw_live w)) = principal_of v \/
  bv_apply view = "restart" /\ aw_drain w = Handler.Applied.

(** The guard leaves no drain at [Begun]. *)
Lemma drop_keeps w : keeps acts (fun _ => True) (drop_guard false)
  (fun _ w' => w' = mkAccept (aw_live w) (if decide (aw_drain w = Begun) then Failed else aw_drain w)) w.
Proof.
  destruct w as [lw d]. intros d1 w1 Hg. cbn in Hg. destruct Hg as [-> ->]. split; [done|]. cbn [aw_drain aw_live].
  case_bool_decide as Hb; cbn [andb].
  - intros [] w2 ->. split; [done|]. ret_step. by rewrite decide_True.
  - ret_step. by rewrite decide_False.
Qed.

Lemma accept_named_keeps hash w : live_ok (aw_live w) ->
  keeps acts (fun _ => True)
    (accept_named classification_of trail_of principal_of accepted_trail change_lines aead sha256
       grapheme_extended printable f64_to_string from_str rl hash)
    (fun a w' => match a with
     | Ok (AcceptView view None) => exists s v file plan stored baseline next w1,
         held_to w hash s v file plan stored baseline next w1 /\
         standing (aw_live w) next (mkBaselineState (ap_proposed plan) None) (aw_live w') /\
         in_effect v view w'
     | _ => unaccepted w w' /\ (aw_drain w' = aw_drain w \/ aw_drain w = Serving /\ aw_drain w' = Failed)
     end) w.
Proof.
  intros Hw. destruct w as [lw d]. cbn in Hw. unfold accept_named.
  pose proof (unaccepted_refl (mkAccept lw d)) as Hu.
  intros turn [lw1 d1] (Ht & Hd & _). cbn in Ht, Hd. apply outside_turn in Ht as ->. subst d1. split; [done|].
  destruct turn; cbn [negb]; [|by split; [|left]].
  intros stopping [lw1 d1] (Ht & Hd & Hst). cbn in Ht, Hd, Hst. apply outside_stopping in Ht as ->. subst d1.
  split; [done|]. destruct stopping; [by split; [|left]|].
  assert (d = Serving) as -> by (destruct (decide (d = Serving)); [done|by specialize (Hst ltac:(done))]).
  apply keeps_bind. eapply keeps_mono; [done| |by apply accept_held_keeps]. intros held w1 H1.
  apply keeps_bind. eapply keeps_mono; [done| |apply drop_keeps]. intros [] w2 ->.
  destruct held as [s|e].
  - destruct H1 as (v & file & plan & stored & baseline & next & H1). apply keeps_bind.
    pose proof (ht_standing _ _ _ _ _ _ _ _ _ _ H1) as Hs. pose proof (ht_applied _ _ _ _ _ _ _ _ _ _ H1) as Ha.
    destruct (decide_accept_Ok _ _ _ (ht_named _ _ _ _ _ _ _ _ _ _ H1)) as (set & [= <-] & _ & Hps).
    apply apply_name_valid in Hps.
    eapply keeps_mono; [done| |apply settle_keeps, Hs]. intros a w3 (H3 & Hp3 & view & -> & Hv). ret_step.
    exists s, v, file, plan, stored, baseline, next, w1. split; [done|]. split; [done|].
    unfold applied_as in Ha. unfold in_effect. rewrite Hps in Hv. rewrite Hp3. cbn [aw_live].
    destruct (is_restart (ap_apply plan)).
    + destruct Ha as (Ha & Hd & _). rewrite Hd in Hv. right. destruct Hv as [(_ & ? & ?)|[[? ?]|(? & ? & ?)]]; [done|by split|congruence].
    + destruct (is_ok (se_applied s)) eqn:Eok.
      * destruct Ha as [Ha1 Ha2]. rewrite Ha1 in Hv. rewrite Ha2. destruct Hv as [(_ & ? & ?)|[[? ?]|(? & _)]]; [by left|by right|congruence].
      * rewrite Ha in Hv. right. destruct Hv as [(? & _)|[[? ?]|(_ & ? & ?)]]; [congruence|by split..].
  - destruct H1 as ([Hc Hb] & Hd & Hdec). cbn in Hc, Hb.
    set (d' := if decide (aw_drain w1 = Begun) then Failed else aw_drain w1).
    assert (unaccepted (mkAccept lw Serving) (mkAccept (aw_live w1) d') /\
      (d' = Serving \/ Serving = Serving /\ d' = Failed)) as Hend.
    { split; [by split|]. unfold d'. set_unfold. destruct (aw_drain w1); (repeat case_decide); naive_solver. }
    destruct e as [|answer]; ret_step; [done|].
    destruct answer as [view [c|]|]; [done| |done]. by destruct (Hdec view).
Qed.

Lemma held_later w hash s v file plan stored baseline next w1 : live_ok (aw_live w) ->
  held_to w hash s v file plan stored baseline next w1 ->
  g_revision next = (c_revision (lw_cells (aw_live w)) + 1)%Z.
Proof.
  intros Hw H. pose proof (ht_later _ _ _ _ _ _ _ _ _ _ H) as Hl. rewrite (lo_floor _ _ _ _ Hw) in Hl.
  rewrite (build_revision _ _ _ _ _ _ _ _ (ht_built _ _ _ _ _ _ _ _ _ _ H)) in *. by apply saturating_later.
Qed.

Lemma held_ok w hash s v file plan stored baseline next w1 b lw : live_ok (aw_live w) ->
  held_to w hash s v file plan stored baseline next w1 -> standing (aw_live w) next b lw -> live_ok lw.
Proof. intros Hw []. by eapply standing_ok. Qed.

(** ** Lemmas: sequences of calls *)

(** From a state in order to one in order, at no earlier a revision. *)
Definition advances {A} (p : prog A) : Prop :=
  forall w, live_ok (aw_live w) -> keeps acts (fun _ => True) p
    (fun _ w' => live_ok (aw_live w') /\
       (c_revision (lw_cells (aw_live w)) <= c_revision (lw_cells (aw_live w')))%Z) w.

Lemma advances_ret {A} (a : A) : advances (Ret a).
Proof. intros w Hw. split; [done|]. lia. Qed.

Lemma advances_bind {A B} (p : prog A) (f : A -> prog B) :
  advances p -> (forall a, advances (f a)) -> advances (bind p f).
Proof.
  intros Hp Hf w Hw. apply keeps_bind. eapply keeps_mono; [done| |by apply Hp].
  intros a w' [Hw' Hr]. eapply keeps_mono; [done| |by apply Hf]. intros b w2 [? ?]. split; [done|]. lia.
Qed.

Lemma live_advances {A} (p : Programs.prog live_effect A) :
  advancing aead sha256 rl files p -> advances (on_live p).
Proof.
  intros Hp w Hw. pose proof (keeps_live_call principal_of files baselines p _ w (Hp (aw_live w) Hw)) as H.
  exact H.
Qed.

Lemma reading_advances {A} (p : prog A) P : reading p P -> advances p.
Proof. intros Hp w Hw. eapply keeps_mono; [done| |apply Hp]. intros a w' [-> _]. split; [done|]. lia. Qed.

Lemma accept_advances hash :
  advances (accept_named classification_of trail_of principal_of accepted_trail change_lines aead sha256
       grapheme_extended printable f64_to_string from_str rl hash).
Proof.
  intros w Hw. eapply keeps_mono; [done| |by apply accept_named_keeps]. intros a w' H.
  assert (unaccepted w w' -> live_ok (aw_live w') /\
    (c_revision (lw_cells (aw_live w)) <= c_revision (lw_cells (aw_live w')))%Z) as Hun.
  { intros [Hc _]. split; [eapply calm_ok; eassumption|]. rewrite (ca_revision _ _ Hc). lia. }
  destruct a as [[view [c|]|reply why]|[|[]]]; [apply Hun, H| |apply Hun, H..].
  destruct H as (s & v & file & plan & stored & baseline & next & w1 & Hh & Hs & _).
  split; [by eapply held_ok|]. pose proof (held_later _ _ _ _ _ _ _ _ _ _ Hw Hh). rewrite (sd_revision _ _ _ _ Hs). lia.
Qed.
End Accepting.

(** ** Theorems *)

(** C12: an accept does exactly what was named, or nothing. From a state in order and with
    [file] in the files: answered as accepted, the named hash is the hash of the one set
    the file proposes against the accepted baseline; its sections are the accepted
    baseline now, in memory and in the stored graph, which keeps the identity layer and the
    sync base and moved to the next revision; the snapshot and the source that decide are
    untouched; and the reply says what happens next: [live] when the new principal is
    installed and the daemon serves on, [restart] when it drains to restart. Any other
    answer leaves the store, what decides and the accepted baseline as they were, and
    never leaves the drain where the daemon would refuse for ever. *)
Theorem accept_exact {Validated : Type} (classification_of : Validated -> string * string)
    (trail_of : Validated -> string) (principal_of : Validated -> Z)
    (accepted_trail : BaselineSections -> option string)
    (change_lines : BaselineSections -> BaselineSections -> result (list string) string)
    (aead : Aead) (sha256 : bytes -> digest) (L : AeadLaws aead) (grapheme_extended printable : Z -> bool)
    (f64 : Z -> string) (from_str : string -> result Json string) (rl : Reloader)
    (files : PolicySource -> Prop) (file : result BaselineSections InvalidFile) (hash : string)
    (w w' : accept_world) (tr : list (event (@accept_effect Validated)))
    (a : result (@AcceptAnswer BaselineView) (fault Empty_set)) (Hw : live_ok aead sha256 rl (aw_live w))
    (Hrun : runs (accept_named classification_of trail_of principal_of accepted_trail change_lines aead sha256
                    grapheme_extended printable f64 from_str rl hash) tr a)
    (Hre : reaches (accept_acts principal_of files (eq file)) w tr w') :
  let c := lw_cells (aw_live w) in
  let c' := lw_cells (aw_live w') in
  match a with
  | Ok (AcceptView view None) =>
      exists set proposed apply sections v stored baseline,
        pending sha256 f64 from_str (bs_accepted (c_baseline c)) file = Some set /\ ps_hash set = hash /\
        ps_state set = PValid proposed apply sections /\
        c_baseline c' = mkBaselineState proposed None /\ live_ok aead sha256 rl (aw_live w') /\
        c_revision c' = (c_revision c + 1)%Z /\ extract (c_persisted c) = Ok stored /\
        bl_sections baseline = proposed /\
        build (x_layer stored) (Some baseline) (x_sync stored) (vo_persisted (rl_vocabulary rl))
          (vo_digest (rl_vocabulary rl)) (c_revision c') POperator = Ok (c_persisted c') /\
        c_snapshot c' = c_snapshot c /\ c_source c' = c_source c /\ in_effect principal_of v view w'
  | _ =>
      calm (aw_live w) (aw_live w') /\ c_baseline c' = c_baseline c /\
      (aw_drain w' = aw_drain w \/ aw_drain w = Serving /\ aw_drain w' = Failed)
  end.
Proof.
  intros c c'.
  pose proof (accept_named_keeps classification_of trail_of principal_of accepted_trail change_lines aead sha256
    grapheme_extended printable f64 from_str rl files (eq file) hash w Hw) as Hk.
  pose proof (keeps_runs _ _ _ _ _ _ _ _ Hk Hrun Hre) as H. cbn beta in H.
  destruct a as [[view [co|]|reply why]|[|[]]]; try (destruct H as [[] ?]; done).
  destruct H as (s & v & file' & plan & stored & baseline & next & w1 & Hh & Hs & He).
  assert (live_ok aead sha256 rl (aw_live w')) as Hok by (eapply held_ok; eassumption).
  assert (g_revision next = c_revision c + 1)%Z as Hl by (eapply held_later; eassumption).
  pose proof (decide_accept_Ok _ _ _ (ht_named _ _ _ _ _ _ _ _ _ _ _ _ _ _ _ _ _ Hh)) as (set & [= <-] & Hha & Hps).
  destruct Hh as [<- Hset _ _ Hx Hb Hbu _ _ _ _]. destruct Hs as [_ _ Hp Hr Hn Hsr Hba].
  exists (se_set s), (ap_proposed plan), (ap_apply plan), (ap_sections plan), v, stored, baseline.
  subst c c'. rewrite Hp, Hr. pose proof (build_revision _ _ _ _ _ _ _ _ Hbu) as Hbr. rewrite <-Hbr in Hbu.
  split_and!; done.
Qed.

(** ** Sequences of calls *)

(** What may take the turn, or reads the files. *)
Inductive kernel_call := KLive (c : live_call) | KShow | KAccept (hash : string).

Section Calls.
Context {Validated : Type}.
Context (classification_of : Validated -> string * string) (trail_of : Validated -> string).
Context (principal_of : Validated -> Z).
Context (accepted_trail : BaselineSections -> option string).
Context (change_lines : BaselineSections -> BaselineSections -> result (list string) string).
Context (aead : Aead) (sha256 : bytes -> digest).
Context (grapheme_extended printable : Z -> bool).
Context (f64_to_string : Z -> string) (from_str : string -> result Json string).
Context (nfc : string -> string) (gc : Z -> GeneralCategory).
Context (rl : Reloader).

Local Notation prog := (Programs.prog (@accept_effect Validated)).

Definition kernel_call_prog (c : kernel_call) : prog unit :=
  match c with
  | KLive c =>
      on_live (call aead sha256 grapheme_extended printable f64_to_string from_str nfc gc rl c)
  | KShow =>
      let* _ := show accepted_trail change_lines sha256 f64_to_string from_str in Ret tt
  | KAccept hash =>
      let* _ := accept_named classification_of trail_of principal_of accepted_trail change_lines aead sha256
                  grapheme_extended printable f64_to_string from_str rl hash in Ret tt
  end.

Fixpoint kernel_calls (l : list kernel_call) : prog unit :=
  match l with [] => Ret tt | c :: l' => let* _ := kernel_call_prog c in kernel_calls l' end.

Lemma kernel_calls_advance `{!AeadLaws aead} files baselines l :
  advances principal_of aead sha256 rl files baselines (kernel_calls l).
Proof.
  induction l as [|c l IH]; [apply advances_ret|]. apply advances_bind; [|done].
  destruct c as [c| |hash]; cbn [kernel_call_prog].
  - apply live_advances. by apply call_advances.
  - apply advances_bind; [|intros; apply advances_ret]. apply advances_bind; [|intros; apply advances_ret].
    eapply reading_advances, read_pending_reading.
  - apply advances_bind; [by apply accept_advances|intros; apply advances_ret].
Qed.
End Calls.

(** C11: whatever takes the turn, in whatever order, and however it ends, reloads,
    containments, releases, the kernel's own containments and accepted baselines leave the
    live state in order: the store holds the persisted graph, the revision and the floor
    are its, the installed snapshot is compiled over the installed source from it, or from
    the graph it was rebuilt from when baselines were accepted; and the revision never
    goes back. *)
Theorem live_state_in_order {Validated : Type} (classification_of : Validated -> string * string)
    (trail_of : Validated -> string) (principal_of : Validated -> Z)
    (accepted_trail : BaselineSections -> option string)
    (change_lines : BaselineSections -> BaselineSections -> result (list string) string)
    (aead : Aead) (sha256 : bytes -> digest) (L : AeadLaws aead) (grapheme_extended printable : Z -> bool)
    (f64 : Z -> string) (from_str : string -> result Json string) (nfc : string -> string)
    (gc : Z -> GeneralCategory) (rl : Reloader) (files : PolicySource -> Prop)
    (baselines : result BaselineSections InvalidFile -> Prop) (l : list kernel_call) (w w' : accept_world)
    (tr : list (event (@accept_effect Validated))) (Hw : live_ok aead sha256 rl (aw_live w))
    (Hrun : runs (kernel_calls classification_of trail_of principal_of accepted_trail change_lines aead sha256
                    grapheme_extended printable f64 from_str nfc gc rl l) tr tt)
    (Hre : reaches (accept_acts principal_of files baselines) w tr w') :
  live_ok aead sha256 rl (aw_live w') /\
  (c_revision (lw_cells (aw_live w)) <= c_revision (lw_cells (aw_live w')))%Z.
Proof.
  pose proof (kernel_calls_advance classification_of trail_of principal_of accepted_trail change_lines aead sha256
    grapheme_extended printable f64 from_str nfc gc rl files baselines l w Hw) as Hk.
  exact (keeps_runs _ _ _ _ _ _ _ _ Hk Hrun Hre).
Qed.

(** ** Witnesses *)

(** A file that names a principal, against the demo's accepted baseline. *)
Definition accept_demo_file : BaselineSections := {["core" := "{}"; "principal" := "{}"]}.
Definition accept_demo_hash : string :=
  match pending demo_sha demo_f64 live_demo_read (bl_sections demo_baseline) (Ok accept_demo_file) with
  | Some set => ps_hash set
  | None => ""
  end.

(** A validated proposal is its principal. *)
Definition accept_respond (file : PolicySource) (X : Type) (w : accept_world) (e : @accept_effect Z X)
  : X * accept_world :=
  match e in accept_effect X return X * accept_world with
  | OnLive X e =>
      let '(x, lw) := live_respond file X (aw_live w) e in
      (match e in live_effect X return X -> X with
       | Stopping => fun _ => negb (bool_decide (aw_drain w = Serving))
       | _ => fun x => x
       end x, mkAccept lw (drained e (aw_drain w)))
  | GetDrain => (aw_drain w, w)
  | SetDrain d => (tt, mkAccept (aw_live w) d)
  | BeginCheck => (Admit, w)
  | CheckSucceeded => (tt, w)
  | CheckTimedOut => (RemainsClosed, w)
  | ReadBaseline _ => (Ok accept_demo_file, w)
  | CheckProposal _ _ => (Ok 1000%Z, w)
  | TakeLiveTurn => (true, w)
  | InstallLive v => (Ok tt, mkAccept (with_principal (aw_live w) v) (aw_drain w))
  end.

Definition accept_demo_world : accept_world := mkAccept (live_demo_world live_demo_roles) Serving.
Definition accept_demo_run :=
  simulate (accept_respond (live_demo_source live_demo_roles))
    (accept_named (fun _ => ("US", "U")) (fun _ => "") (fun p => p) (fun _ => None) (fun _ _ => Ok []) demo_aead
       demo_sha no_table all_printable demo_f64 live_demo_read live_demo_reloader accept_demo_hash)
    accept_demo_world.

Lemma accept_respond_acts file (Hf : loaded file) X w (e : accept_effect X) x w' :
  accept_respond file X w e = (x, w') -> accept_acts (fun p => p) (eq file) (eq (Ok accept_demo_file)) w (Ev _ e x) w'.
Proof.
  destruct w as [lw d]. destruct e as [X e| | | | | | | | |]; cbn [accept_respond aw_live aw_drain].
  2-10: intros H; injection H as <- <-; by try left.
  destruct (live_respond file X lw e) as [y lw'] eqn:E. pose proof (live_respond_acts file Hf X lw e y lw' E) as Ha.
  intros H. injection H as <- <-. split; [destruct e; try exact Ha; destruct lw as [? []]; by injection E as <- <-|].
  split; [done|]. destruct e; try exact I.
  intros Hd. cbn in *. by rewrite bool_decide_eq_false_2.
Qed.

Lemma accept_simulated {A} (p : Programs.prog accept_effect A) file w : loaded file ->
  let run := simulate (accept_respond file) p w in
  runs p (snd (fst run)) (fst (fst run)) /\
  reaches (accept_acts (fun p => p) (eq file) (eq (Ok accept_demo_file))) w (snd (fst run)) (snd run).
Proof.
  intros Hf run. destruct run as [[a tr] w'] eqn:E.
  exact (simulate_runs _ (accept_respond file) (accept_respond_acts file Hf) p w a tr w' E).
Qed.

(** The named file is the baseline, at revision 2 and with its principal. *)
Lemma accept_exact_witness :
  c_baseline (lw_cells (aw_live (snd accept_demo_run))) = mkBaselineState accept_demo_file None /\
  c_revision (lw_cells (aw_live (snd accept_demo_run))) = 2%Z /\
  live_ok demo_aead demo_sha live_demo_reloader (aw_live (snd accept_demo_run)).
Proof.
  destruct (accept_simulated (accept_named (fun _ => ("US", "U")) (fun _ => "") (fun p => p) (fun _ => None)
    (fun _ _ => Ok []) demo_aead demo_sha no_table all_printable demo_f64 live_demo_read live_demo_reloader
    accept_demo_hash) _ accept_demo_world live_demo_file) as [Hrun Hre].
  change (simulate _ _ _) with accept_demo_run in Hrun, Hre.
  assert (match fst (fst accept_demo_run) with Ok (AcceptView _ None) => true | _ => false end = true) as E
    by (vm_compute; reflexivity).
  assert (match pending demo_sha demo_f64 live_demo_read (bl_sections demo_baseline) (Ok accept_demo_file) with
    | Some set => match ps_state set with PValid p _ _ => bool_decide (p = accept_demo_file) | _ => false end
    | None => false end = true) as Hp by (vm_compute; reflexivity).
  pose proof (accept_exact (fun _ => ("US", "U")) (fun _ => "") (fun p => p) (fun _ => None) (fun _ _ => Ok [])
    demo_aead demo_sha demo_aead_laws no_table all_printable demo_f64 live_demo_read live_demo_reloader
    _ _ accept_demo_hash accept_demo_world _ _ _ live_demo_before Hrun Hre) as H.
  destruct (fst (fst accept_demo_run)) as [[view [|]|]|]; try discriminate E. cbv zeta in H.
  destruct H as (set & proposed & apply & sections & v & stored & baseline & Hset & _ & Hst & Hb & Hok & Hr & _).
  change (bs_accepted _) with (bl_sections demo_baseline) in Hset. rewrite Hset, Hst in Hp.
  rewrite (bool_decide_eq_true_1 _ Hp) in Hb. split_and!; [exact Hb|exact Hr|exact Hok].
Defined.

Definition kernel_demo_calls : list kernel_call :=
  [KLive (CContain live_demo_request); KLive CReload; KShow; KAccept accept_demo_hash;
   KLive (CKernelContain 7 "again")].
Definition kernel_demo_run :=
  simulate (accept_respond (live_demo_source live_demo_roles))
    (kernel_calls (fun _ => ("US", "U")) (fun _ => "") (fun p => p) (fun _ => None) (fun _ _ => Ok []) demo_aead
       demo_sha no_table all_printable demo_f64 live_demo_read (fun s => s) (fun _ => GOther) live_demo_reloader
       kernel_demo_calls) accept_demo_world.

Lemma live_state_in_order_witness :
  live_ok demo_aead demo_sha live_demo_reloader (aw_live (snd kernel_demo_run)) /\
  (1 <= c_revision (lw_cells (aw_live (snd kernel_demo_run))))%Z.
Proof.
  destruct (accept_simulated (kernel_calls (fun _ => ("US", "U")) (fun _ => "") (fun p => p) (fun _ => None)
    (fun _ _ => Ok []) demo_aead demo_sha no_table all_printable demo_f64 live_demo_read (fun s => s)
    (fun _ => GOther) live_demo_reloader kernel_demo_calls) _ accept_demo_world live_demo_file) as [Hrun Hre].
  destruct (fst (fst (simulate _ _ _))) in Hrun.
  exact (live_state_in_order (fun _ => ("US", "U")) (fun _ => "") (fun p => p) (fun _ => None) (fun _ _ => Ok [])
    demo_aead demo_sha demo_aead_laws no_table all_printable demo_f64 live_demo_read (fun s => s) (fun _ => GOther)
    live_demo_reloader _ _ kernel_demo_calls accept_demo_world _ _ live_demo_before Hrun Hre).
Defined.
