(* ===== verification/Mutation.v ===== *)
(** * The mutation path: [crates/maknae-kernel/src/mutation.rs]

    A filesystem verb: the delegated descriptor is verified, every path it would
    touch is decided from one snapshot, the intent is recorded, and only then is
    the client granted the attempt; its reports go through [MutationExchange],
    each recorded before it is acknowledged. What the descriptor's verification
    ([maknae-io]) and the home resolver answer are effects. *)
From stdpp Require Import base list strings gmap.
From Stdlib Require Import ZArith Lia Ascii.
From S2P Require Import Prelude Programs RustStr RustSlice RustNet Seam Config Classification Ceiling PathGlob.
From S2P Require Import AuthzPolicy Decide Graph GraphFormat Wire Operands MutationExchange Providers.
From S2P Require Import Handler Egress Breaker Session Workers AuditRecords Effects.
Open Scope nat_scope.

Definition MAX_WORKERS : nat := 16.
Definition READ_PAGE_MAX_BYTES : Z := 65536.

(** ** Preparation *)

Record PreparedMutation := mkPrepared {
  pm_scope : MutationScope; pm_paths : list string; pm_kind : FsOperation }.

Definition verb_path (verb : Verb) : option string :=
  match verb with
  | FsWrite path _ _ _ | FsDelete path _ | FsMkdir path _ _ | Read path _ _ => Some path
  | _ => None
  end.

Definition normal (component : string) : bool :=
  negb (is_empty component) && negb (String.eqb component ".") && negb (String.eqb component "..")
  && negb (contains_char slash component) && negb (contains_char nul component).

Definition checked_path (path : string) : result unit string :=
  if (MAX_MUTATION_PATH_BYTES <? str_len path)%Z || contains_char nul path
  then Err "mutation path limit or NUL"
  else lexical_pregate path.

(** [Path] equality: the components, with a root and without [.] (but for a
    leading one). *)
Definition path_parts (s : string) : bool * list string :=
  let absolute := starts_with "/" s in
  let no_dot := List.filter (fun c => negb (String.eqb c ".")) in
  (absolute,
   match comps s with
   | c :: rest => if negb absolute && String.eqb c "." then c :: no_dot rest else no_dot (c :: rest)
   | [] => []
   end).
Definition same_path (a b : string) : bool := bool_decide (path_parts a = path_parts b).

(** [PathBuf::push] of a relative component. *)
Definition push (path component : string) : string :=
  if is_empty path || ends_with "/" path then path +:+ component else path +:+ "/" +:+ component.

(** [slice.ends_with(suffix)]. *)
Definition slice_ends_with (l suffix : list string) : bool :=
  (length suffix <=? length l) && bool_decide (drop (length l - length suffix) l = suffix).

(** The object verbs: the refusal's text, the operation and its effect. *)
Definition object_verb (verb : Verb) : option (string * FsOperation * ReportedEffect) :=
  match verb with
  | Read _ _ _ => Some ("read evidence refused", FsRead, ReadFile)
  | FsWrite _ _ Existing _ => Some ("replacement evidence refused", WriteExisting, ReplacedFile)
  | _ => None
  end.

(** Before the descriptor is looked at. *)
Definition prepare_gate (verb : Verb) (fd : bool) (home : string) (lane : Lane) : result string string :=
  let? asked := ok_or (verb_path verb) "not a mutation" in
  let? _ := checked_path asked in
  if match lane with LaneLocal => false | _ => true end
  then Err "mutation requires local subject execution"
  else if same_path home "/" then Err (home_reason Unresolvable)
  else if fd then Ok asked
  else Err (match verb with Read _ _ _ => "read descriptor missing" | _ => "mutation descriptor missing" end).

Definition prepare_object (refused : string) (kind : FsOperation) (effect : ReportedEffect)
    (verified : result (option string) string) : result PreparedMutation string :=
  let? path := map_err (fun e => refused +:+ ": " +:+ e) verified in
  let? path := ok_or path "non-UTF-8 object path" in
  let? _ := checked_path path in
  Ok (mkPrepared (Exact path effect) [path] kind).

(** The components below the verified directory. *)
Definition components_of (verb : Verb) (asked : string) : result (list string) string :=
  match verb with
  | FsMkdir _ parents components =>
      if (length components =? 0) || (MAX_MUTATION_DEPTH <? Z.of_nat (length components))%Z
         || (negb parents && negb (length components =? 1))
      then Err "invalid mkdir suffix length"
      else if existsb (fun c => negb (normal c)) components then Err "invalid mkdir component"
      else if negb (slice_ends_with (drop 1 (split_char slash asked)) components)
      then Err "mkdir suffix does not match requested path"
      else Ok components
  | _ =>
      match last (comps asked) with
      | Some leaf => if normal leaf then Ok [leaf] else Err "missing normal leaf"
      | None => Err "missing normal leaf"
      end
  end.

(** The loop that builds the paths, from the directory down. *)
Fixpoint push_all (current : option string) (components : list string) : result (list string) string :=
  match components with
  | [] => Ok []
  | c :: components' =>
      let? p := ok_or ((fun cur => push cur c) <$> current) "non-UTF-8 namespace path" in
      let? _ := checked_path p in
      let? rest := push_all (Some p) components' in
      Ok (p :: rest)
  end.

Definition scope_of_verb (verb : Verb) (home : string) (paths : list string) (root : string)
  : result (FsOperation * MutationScope) string :=
  match verb with
  | FsWrite _ _ CreateExclusive _ => Ok (WriteCreate, Exact root CreatedFile)
  | FsDelete _ recursive =>
      if same_path root home then Err "cannot delete confinement root"
      else if recursive then Ok (DeleteTree, RecursiveDelete root)
      else Ok (DeleteEntry, Exact root DeletedEntry)
  | FsMkdir _ parents _ =>
      Ok (Mkdir, if parents then Directories paths else Exact root CreatedDirectory)
  | _ => Err "invalid mutation operation"
  end.

Definition prepare_directory (verb : Verb) (asked home : string)
    (verified : result (option string) string) : result PreparedMutation string :=
  let? directory := map_err (fun e => "namespace location evidence refused: " +:+ e) verified in
  let? components := components_of verb asked in
  let? paths := push_all directory components in
  let? root := ok_or (last paths) "missing mutation path" in
  let? (kind, scope) := scope_of_verb verb home paths root in
  Ok (mkPrepared scope paths kind).

(** ** The decision *)

Definition mutation_request (verb : Verb) (uid : Z) (home : string) (kind : FsOperation) (path : string)
  : Request :=
  let r := build_authz_request verb uid (Some home) LaneLocal None in
  mkRequest (subject r) (<["path" := AStr path]> (resource r)) (action r)
    (<[CONTEXT_FS_OPERATION := AStr (fs_as_str kind)]> (context r)).

Definition mutation_requests (p : PreparedMutation) (verb : Verb) (uid : Z) (home : string) : list Request :=
  map (mutation_request verb uid home (pm_kind p)) (pm_paths p).

Definition DecidedBy : Type := option string * option RuleCitation.

(** Reason, path and who decided. *)
Definition AuthorizeErr : Type := string * string * DecidedBy.

Fixpoint authorize_paths (decided : DecidedBy) (l : list (string * Decided))
  : result DecidedBy AuthorizeErr :=
  match l with
  | [] => Ok decided
  | (path, d) :: l' =>
      match finalize (combine [d_verdict d]) with
      | DPermit obligations =>
          match discharge_plan obligations with
          | Ok _ => authorize_paths (d_role d, d_rule d) l'
          | Err _ => Err ("unhonorable mutation obligation", path, (d_role d, None))
          end
      | DDeny reason => Err (reason, path, (d_role d, d_rule d))
      end
  end.

Definition object_label (policy_name : string) (req : Request) : option string :=
  policy ← select policy_name;
  match resolve_level policy (label_of req) with Ok level => Some (l_name level) | Err _ => None end.

(** The authorizer as one batch met it: it answers that batch so. *)
Definition batch_answer (answer : outcome (list Decided)) : Authorizer :=
  mkAuthorizer (fun _ => Panicked) (fun _ => answer) Panicked Panicked.

Definition authorize (p : PreparedMutation) (reqs : list Request) (answer : outcome (list Decided))
    (policy_name : string) : result (DecidedBy * string) AuthorizeErr :=
  let all := guarded_decide_cited_all (batch_answer answer) reqs in
  let? decided := authorize_paths (None, None) (zip (pm_paths p) all) in
  let path := default "" (last (pm_paths p)) in
  let? label := ok_or (req ← last reqs; object_label policy_name req)
                  ("object label unresolved", path, (fst decided, None)) in
  Ok (decided, label).

(** ** Records *)

Definition mutation_meta (seq : Z) (phase : MutationPhase) (origin : MutationOrigin)
    (status : MutationStatus) : MutationAudit :=
  mkMutationAudit None [] None None seq phase origin status None None [] None.

Definition intent_record (rec : AuditRecord) (content_length : option Z) (kind : FsOperation)
    (paths : list string) (label : string) (requested : option PageRequest) : AuditRecord :=
  let rec := with_outcome rec "permit" "authorized; intent alone does not establish execution" "authorized" in
  with_mutation rec (ar_seq rec)
    (mkMutationAudit (Some kind) paths (Some label) requested (ar_seq rec) PhIntent KernelObserved
       MsIntentOnly content_length None [] None).

Definition completion (intent : AuditRecord) (seq : Z) (status : MutationStatus) : AuditRecord :=
  with_mutation
    (with_outcome intent (ar_result intent)
       "kernel-observed mutation outcome; authorization is separate from effect" (ar_posture intent))
    seq (mutation_meta (ar_seq intent) PhCompletion KernelObserved status).

Definition finish_status (o : ReportedFinish) : MutationStatus :=
  match o with
  | FSuccess => MsReportedSuccess
  | FOsRefused => MsReportedOsRefused
  | FPartial => MsReportedPartial
  | FLimitReached => MsReportedLimitReached
  | FPathChanged => MsReportedPathChanged
  | FUnsupportedName => MsReportedUnsupportedName
  | FDurabilityUnknown => MsReportedDurabilityUnknown
  end.

(** The record of a validated report, and whether it is terminal. *)
Definition report_record (intent : AuditRecord) (seq : Z) (report : MutationReport) : AuditRecord * bool :=
  let rec := with_outcome intent (ar_result intent)
               "authenticated client report; effects not independently observed" (ar_posture intent) in
  match report with
  | Batch _ first_index effects =>
      (with_mutation rec seq
         (mkMutationAudit None [] None None (ar_seq intent) PhProgress ClientReported MsReportedProgress
            None (Some first_index) effects None), false)
  | Finished _ next_index outcome stopped_at =>
      (with_mutation rec seq
         (mkMutationAudit None [] None None (ar_seq intent) PhCompletion ClientReported
            (finish_status outcome) None (Some next_index) [] stopped_at), true)
  end.

(** ** The handler *)

Section Handler.
Context {CV SV JV BV KV : Type}.
Local Notation prog := (Programs.prog (@Effects.effect CV SV JV BV KV)).
Context (en : @Env CV SV JV BV KV).
Local Notation uid := (sf_uid (en_session en)).
Local Notation lane := (sf_lane (en_session en)).

Definition refuse_mutation (rec : AuditRecord) (reason : string) : prog unit :=
  let# appended := Emit (with_outcome rec "deny" reason "unauthorized") in
  if appended : bool then
    match en_encode_response en (RErr Unauthorized "not authorized") with
    | Some len =>
        if (len <=? ATTEMPT_RESPONSE_MAX)%Z
        then let# _ := WriteFrame Attempt (RErr Unauthorized "not authorized") in Ret tt
        else Ret tt
    | None => Ret tt
    end
  else Ret tt.

Definition incomplete (intent : AuditRecord) (reason : string) : prog unit :=
  let# seq := NextSeq in
  let rec := completion intent seq MsIncomplete in
  let# _ := Emit (with_outcome rec (ar_result rec) reason (ar_posture rec)) in
  Ret tt.

Definition ACK_UNDELIVERED : string := "mutation acknowledgment not delivered; effects unknown".

(** The report loop: [None] is the loop still wanting to go on when the fuel is
    out. *)
Fixpoint report_loop (fuel : nat) (intent : AuditRecord) (x : Exchange) : prog (option unit) :=
  match fuel with
  | O => Ret None
  | S fuel' =>
      let# read := ReadReport (en_attempt_request_max en) in
      match read with
      | None =>
          let* _ := incomplete intent "mutation report missing or malformed; effects unknown" in Ret (Some tt)
      | Some report =>
          match validate_report x report with
          | Err _ =>
              let* _ := incomplete intent "mutation report rejected; effects unknown" in Ret (Some tt)
          | Ok (x, pending) =>
              let# seq := NextSeq in
              let '(rec, terminal) := report_record intent seq report in
              let# appended := Emit rec in
              if negb appended then
                let* _ := incomplete intent "mutation report not recorded; effects unknown" in Ret (Some tt)
              else
                match acknowledge x pending with
                | Err _ => let* _ := incomplete intent ACK_UNDELIVERED in Ret (Some tt)
                | Ok (x, ack) =>
                    if negb (en_encode_ack en ack) then
                      let* _ := incomplete intent ACK_UNDELIVERED in Ret (Some tt)
                    else
                      let# delivered := WriteAck ack in
                      if negb delivered then
                        let* _ := incomplete intent ACK_UNDELIVERED in Ret (Some tt)
                      else if terminal : bool then Ret (Some tt)
                      else report_loop fuel' intent x
                end
          end
      end
  end.

(** One report more than the effects left to report. *)
Definition report_fuel (x : Exchange) : nat :=
  S (Z.to_nat (ml_max_effects (x_limits x) - x_next_index x)).

Definition attempt_limits (scope : MutationScope) : MutationLimits :=
  mkLimits MAX_MUTATION_EFFECTS MAX_MUTATION_DEPTH (en_read_timeout_ms en)
    (if is_read scope then READ_PAGE_MAX_BYTES else 0).

Definition begin_attempt (id : MutationId) (scope : MutationScope) (read_page : option PageRequest)
  : result Exchange ReportError :=
  match read_page with
  | Some page => begin_paged 0 id scope (attempt_limits scope) page
  | None => begin_exchange 0 id scope (attempt_limits scope)
  end.

Definition grant_fits (g : MutationGrant) : bool :=
  match en_encode_response en (ROk (PMutationAttempt g)) with
  | Some len => (len <=? en_attempt_response_max en)%Z
  | None => false
  end.

Definition attempt (intent : AuditRecord) (scope : MutationScope) (label : string)
    (read_page : option PageRequest) : prog (option unit) :=
  let id := mkId (ar_session_id intent) (ar_seq intent) in
  let grant := mkGrant id scope (attempt_limits scope) label in
  let not_delivered :=
    let* _ := incomplete intent "attempt grant not delivered; no effect authorized" in Ret (Some tt) in
  match begin_attempt id scope read_page with
  | Err _ => not_delivered
  | Ok x =>
      if negb (grant_fits grant) then not_delivered
      else
        let# delivered := WriteGrant grant in
        if negb delivered then not_delivered else report_loop (report_fuel x) intent x
  end.

(** [prepare], with the descriptor's verification as an effect. *)
Definition prepare (verb : Verb) (fd : bool) (home : string) : prog (result PreparedMutation string) :=
  match prepare_gate verb fd home lane with
  | Err why => Ret (Err why)
  | Ok asked =>
      match object_verb verb with
      | Some (refused, kind, effect) =>
          let# verified := VerifyObject home uid in
          Ret (prepare_object refused kind effect verified)
      | None =>
          let# verified := VerifyDirectory home uid in
          Ret (prepare_directory verb asked home verified)
      end
  end.

(** The blocking worker: preparation, then the decision of every path. *)
Definition worker (verb : Verb) (home : string)
  : prog (result (PreparedMutation * result (DecidedBy * string) AuthorizeErr) string) :=
  let# fd := TakeFd in
  let* prepared := prepare verb fd home in
  match prepared with
  | Err why => Ret (Err why)
  | Ok p =>
      let reqs := mutation_requests p verb uid home in
      let# answer := DecideCitedAll reqs in
      Ret (Ok (p, authorize p reqs answer (en_policy_name en)))
  end.

Definition requested_if (asked decided : string) : option string :=
  if String.eqb asked decided then None else Some asked.

(** The permitted intent, recorded, and the attempt. *)
Definition commit_and_attempt (verb : Verb) (rec : AuditRecord) (p : PreparedMutation) (label : string)
  : prog (option unit) :=
  let requested := match verb with Read _ _ page => page | _ => None end in
  let read_page := match verb with Read _ _ page => Some (default WHOLE_FILE page) | _ => None end in
  let length_ := match verb with FsWrite _ n _ _ => Some n | _ => None end in
  let intent := intent_record rec length_ (pm_kind p) (pm_paths p) label requested in
  let# committed := Emit intent in
  if committed : bool then attempt intent (pm_scope p) label read_page else Ret (Some tt).

(** [handle]: the connection is consumed. *)
Definition mutate (verb : Verb) (rec : AuditRecord) (home : result string HomeUnavailable)
  : prog (option unit) :=
  match verb_path verb with
  | None => Ret (Some tt)
  | Some asked =>
      let rec := with_object rec (Some asked) None in
      let refused rec reason := let* _ := refuse_mutation rec reason in Ret (Some tt) in
      match home with
      | Err cause => refused rec (home_reason cause)
      | Ok home =>
          let# busy := TryAdmit uid in
          match busy with
          | Some BusyRequester => refused rec "mutation worker budget exhausted for this requester"
          | Some BusyGlobal => refused rec "mutation worker budget exhausted"
          | None =>
              let* done := worker verb home in
              let# joined := WorkerJoined in
              if negb joined then refused rec "mutation preparation or policy timed out/failed"
              else
                match done with
                | Err reason => refused rec reason
                | Ok (p, decision) =>
                    let decided := default "" (last (pm_paths p)) in
                    let rec := with_object rec (Some decided) (requested_if asked decided) in
                    let '(role, rule) := match decision with Ok (by_, _) => by_ | Err (_, _, by_) => by_ end in
                    let rec := with_decider rec role rule in
                    match decision with
                    | Err (reason, denied, _) =>
                        refused (with_object rec (Some denied) (requested_if asked denied)) reason
                    | Ok (_, label) => commit_and_attempt verb rec p label
                    end
                end
          end
      end
  end.
End Handler.

(** ** Lemmas: preparation *)

Lemma checked_path_Ok p : checked_path p = Ok tt ->
  (str_len p <= MAX_MUTATION_PATH_BYTES)%Z /\ contains_char nul p = false /\ canonical_violation p = None.
Proof.
  unfold checked_path. destruct (Z.ltb_spec MAX_MUTATION_PATH_BYTES (str_len p)); [done|].
  destruct (contains_char nul p) eqn:Hn; [done|]. simpl. intros Hp. by apply pregate_canonical in Hp.
Qed.

Lemma checked_canonical p : checked_path p = Ok tt -> canonical_path p = Ok tt.
Proof.
  intros (Hl & Hn & Hv)%checked_path_Ok. unfold canonical_path, canonical_violation, after_slash, starts_with in *.
  destruct (Z.ltb_spec MAX_MUTATION_PATH_BYTES (str_len p)); [lia|]. rewrite Hn in *.
  destruct (strip_prefix "/" p) as [rest|]; [|done]. cbn [is_some negb orb default].
  destruct (String.eqb p "/"); [done|]. apply segment_violation_None, plain_components_iff in Hv.
  simpl. by rewrite Hv.
Qed.

(** A checked path is the root or does not end in a slash. *)
Lemma checked_no_trailing p : checked_path p = Ok tt -> p = "/" \/ p <> "" /\ ends_with "/" p = false.
Proof.
  unfold checked_path, lexical_pregate. destruct (_ || _); [done|].
  destruct (strip_prefix "/" p) as [rest|] eqn:E; [|done]. apply strip_prefix_spec in E.
  destruct (String.eqb_spec p "/"); [by left|]. destruct (ends_with "/" p) eqn:Ee; [done|].
  right. split; [|done]. by intros ->.
Qed.

Lemma normal_iff c : normal c = true <->
  segment_canonical c /\ contains_char slash c = false /\ contains_char nul c = false.
Proof.
  unfold normal, segment_canonical. rewrite !andb_true_iff, !negb_true_iff, !String.eqb_neq.
  assert (is_empty c = false <-> c <> "") as -> by (by destruct c). tauto.
Qed.

Lemma below_push a c : checked_path a = Ok tt -> below a (push a c) = Some c.
Proof.
  intros [->|[Hne He]]%checked_no_trailing; [done|]. unfold push. rewrite He.
  assert (is_empty a = false) as -> by (by destruct a). simpl. unfold below.
  destruct (String.eqb_spec a "/") as [->|_]; [done|]. rewrite strip_prefix_app. simpl. done.
Qed.

Lemma push_all_Ok current cs ps :
  push_all current cs = Ok ps -> Forall (fun c => normal c = true) cs ->
  length ps = length cs /\ Forall (fun p => checked_path p = Ok tt) ps /\ nested ps = Ok tt.
Proof.
  intros H Hn. revert current ps H. induction Hn as [|c cs Hc Hn IH]; intros current ps H; simpl in H.
  { by injection H as <-. }
  destruct current as [cur|]; [|done]. simpl in H. unbind H. destruct a. unbind H. injection H as <-.
  destruct (IH _ _ E0) as (Hl & Hf & Hnest). split_and!; [by simpl; f_equal|by constructor|].
  destruct cs as [|c2 cs]; [by injection E0 as <-|]. simpl in E0. unbind E0. destruct a.
  unbind E0. injection E0 as <-. cbn [nested] in Hnest |- *. rewrite below_push by done.
  apply Forall_cons_1 in Hn as [Hc2%normal_iff _]. destruct Hc2 as ([Hne _] & Hs & _).
  cbn [ok_or]. simpl. rewrite Hs. destruct c2; [done|]. exact Hnest.
Qed.

Lemma components_Ok verb asked cs :
  components_of verb asked = Ok cs ->
  Forall (fun c => normal c = true) cs /\ 0 < length cs /\ (Z.of_nat (length cs) <= MAX_MUTATION_DEPTH)%Z /\
  match verb with FsMkdir _ true _ => True | _ => length cs = 1 end.
Proof.
  assert (forall leaf, match leaf with
                  | Some l => if normal l then Ok [l] else Err "missing normal leaf"
                  | None => Err "missing normal leaf"
                  end = Ok cs ->
            Forall (fun c => normal c = true) cs /\ 0 < length cs /\
            (Z.of_nat (length cs) <= MAX_MUTATION_DEPTH)%Z /\ length cs = 1) as Hleaf.
  { intros [l|]; [|done]. destruct (normal l) eqn:El; [|done]. intros [= <-].
    split_and!; [by repeat constructor|simpl; lia|done|done]. }
  unfold components_of. destruct verb; try (intros H; by apply Hleaf in H).
  destruct (Nat.eqb_spec (length components) 0); [done|].
  destruct (Z.ltb_spec MAX_MUTATION_DEPTH (Z.of_nat (length components))); [done|]. cbn [orb].
  destruct (negb parents && _) eqn:Ep; [done|]. destruct (existsb _ components) eqn:Ee; [done|].
  destruct (slice_ends_with _ _); simpl negb; cbv iota; [|done]. intros [= <-].
  split_and!; [|lia|done|].
  - apply Forall_forall. intros c Hc. destruct (normal c) eqn:En; [done|].
    apply not_true_iff_false in Ee. destruct Ee. apply existsb_exists. exists c.
    rewrite En, <-list_elem_of_In. done.
  - destruct parents; [done|]. simpl in Ep. apply negb_false_iff in Ep. by apply Nat.eqb_eq in Ep.
Qed.

(** What preparation gives: at least one path, each checked; a scope that is
    exactly those paths; a read scope exactly for a read. *)
Record prepared_ok (verb : Verb) (p : PreparedMutation) : Prop := {
  pk_paths : pm_paths p <> [];
  pk_checked : Forall (fun q => checked_path q = Ok tt) (pm_paths p);
  pk_scope : match pm_scope p with
             | Exact path _ | RecursiveDelete path => pm_paths p = [path]
             | Directories paths => paths = pm_paths p /\ nested paths = Ok tt /\
                 (Z.of_nat (length paths) <= MAX_MUTATION_DEPTH)%Z
             end;
  pk_read : is_read (pm_scope p) = match verb with Read _ _ _ => true | _ => false end }.

Lemma prepare_object_ok verb refused kind effect verified p :
  object_verb verb = Some (refused, kind, effect) ->
  prepare_object refused kind effect verified = Ok p -> prepared_ok verb p.
Proof.
  intros Hv H. unfold prepare_object in H. unbind H. unbind H. unbind H. destruct a1. injection H as <-.
  split; simpl; [done|by repeat constructor|done|]. destruct verb as []; try done; [by injection Hv as _ _ <-|].
  destruct mode; [|done]. by injection Hv as _ _ <-.
Qed.

Lemma prepare_directory_ok verb asked home verified p :
  prepare_directory verb asked home verified = Ok p -> prepared_ok verb p.
Proof.
  unfold prepare_directory. intros H. unbind H. unbind H. unbind H. unbind H. unbind H. destruct a3 as [kind scope].
  injection H as <-. apply components_Ok in E0 as (Hn & H0 & Hm & Hone).
  apply push_all_Ok in E1 as (Hl & Hc & Hnest); [|done].
  assert (last a1 = Some a2) as Hlast by (by destruct (last a1); [injection E2 as ->|]).
  assert (length a0 = 1 -> a1 = [a2]) as Hsing.
  { intros E1l. rewrite <-Hl in E1l. destruct a1 as [|x [|]]; try done. simpl in Hlast. by injection Hlast as ->. }
  split; simpl; [by intros ->; simpl in Hl; lia|done| |].
  - unfold scope_of_verb in E3. destruct verb; try done.
    + destruct mode; [done|]. injection E3 as <- <-. auto.
    + destruct (same_path a2 home); [done|]. destruct recursive; injection E3 as <- <-; auto.
    + destruct parents; injection E3 as <- <-; auto. rewrite Hl. done.
  - unfold scope_of_verb in E3. destruct verb; try done.
    + destruct mode; [done|]. by injection E3 as <- <-.
    + destruct (same_path a2 home); [done|]. by destruct recursive; injection E3 as <- <-.
    + by destruct parents; injection E3 as <- <-.
Qed.

(** What the verification of a descriptor found: the object it is open on, or the
    directory it holds. *)
Inductive Evidence := ObjectAt (path : string) | DirectoryAt (path : string).

(** The paths that a chain of components names below a directory. *)
Fixpoint descend (dir : string) (components : list string) : list string :=
  match components with [] => [] | c :: rest => push dir c :: descend (push dir c) rest end.

(** What a filesystem verb may be granted on the evidence of its descriptor, whatever
    path it asked for: the verified object itself; an entry of the verified directory
    by the asked leaf; a chain of directories below it. *)
Inductive prepared_from (home : string) : Verb -> Evidence -> PreparedMutation -> Prop :=
| pf_read asked conversation page q :
    prepared_from home (Read asked conversation page) (ObjectAt q) (mkPrepared (Exact q ReadFile) [q] FsRead)
| pf_replace asked len conversation q :
    prepared_from home (FsWrite asked len Existing conversation) (ObjectAt q)
      (mkPrepared (Exact q ReplacedFile) [q] WriteExisting)
| pf_create asked len conversation d leaf :
    last (comps asked) = Some leaf -> normal leaf = true ->
    prepared_from home (FsWrite asked len CreateExclusive conversation) (DirectoryAt d)
      (mkPrepared (Exact (push d leaf) CreatedFile) [push d leaf] WriteCreate)
| pf_delete asked d leaf :
    last (comps asked) = Some leaf -> normal leaf = true -> same_path (push d leaf) home = false ->
    prepared_from home (FsDelete asked false) (DirectoryAt d)
      (mkPrepared (Exact (push d leaf) DeletedEntry) [push d leaf] DeleteEntry)
| pf_delete_tree asked d leaf :
    last (comps asked) = Some leaf -> normal leaf = true -> same_path (push d leaf) home = false ->
    prepared_from home (FsDelete asked true) (DirectoryAt d)
      (mkPrepared (RecursiveDelete (push d leaf)) [push d leaf] DeleteTree)
| pf_mkdir asked d c :
    normal c = true ->
    prepared_from home (FsMkdir asked false [c]) (DirectoryAt d)
      (mkPrepared (Exact (push d c) CreatedDirectory) [push d c] Mkdir)
| pf_mkdir_parents asked d components :
    Forall (fun c => normal c = true) components ->
    prepared_from home (FsMkdir asked true components) (DirectoryAt d)
      (mkPrepared (Directories (descend d components)) (descend d components) Mkdir).

Lemma prepare_object_from verb home refused kind effect verified p :
  object_verb verb = Some (refused, kind, effect) ->
  prepare_object refused kind effect verified = Ok p ->
  exists q, verified = Ok (Some q) /\ prepared_from home verb (ObjectAt q) p.
Proof.
  intros Hv H. unfold prepare_object in H. destruct verified as [[q|]|]; try done. simpl in H. unbind H.
  injection H as <-. exists q. split; [done|]. destruct verb; try done; [|destruct mode; try done];
    injection Hv as <- <- <-; constructor.
Qed.

Lemma push_all_descend d cs ps : push_all (Some d) cs = Ok ps -> ps = descend d cs.
Proof.
  revert d ps. induction cs as [|c cs IH]; intros d ps H; simpl in H; [by injection H as <-|].
  unbind H. unbind H. injection H as <-. simpl. f_equal. by apply IH.
Qed.

Lemma components_of_leaf verb asked cs :
  components_of verb asked = Ok cs ->
  match verb with
  | FsMkdir _ _ components => cs = components
  | _ => exists leaf, last (comps asked) = Some leaf /\ normal leaf = true /\ cs = [leaf]
  end.
Proof.
  destruct verb; unfold components_of;
    try (destruct (last (comps asked)) as [leaf|]; [|done]; destruct (normal leaf) eqn:En; [|done];
         intros [= <-]; by exists leaf).
  destruct (_ || _); [done|]. destruct (existsb _ _); [done|]. destruct (negb _); [done|]. by intros [= <-].
Qed.

Lemma prepare_directory_from verb asked home verified p :
  object_verb verb = None -> verb_path verb = Some asked ->
  prepare_directory verb asked home verified = Ok p ->
  exists d, verified = Ok (Some d) /\ prepared_from home verb (DirectoryAt d) p.
Proof.
  intros Ho Ha H. unfold prepare_directory in H. destruct verified as [found|]; [|done]. simpl in H.
  unbind H. unbind H. unbind H. unbind H. destruct a2 as [kind scope]. injection H as <-.
  pose proof (components_Ok _ _ _ E) as (Hn & H0 & _ & Hone). pose proof (components_of_leaf _ _ _ E) as Hleaf.
  destruct found as [d|]; [|by destruct a; simpl in *; [lia|]]. exists d. split; [done|].
  apply push_all_descend in E0 as ->. unfold scope_of_verb in E2. destruct verb; try done.
  - destruct mode; [done|]. injection E2 as <- <-. injection Ha as ->.
    destruct Hleaf as (leaf & Hl & Hnorm & ->). injection E1 as <-. by constructor.
  - injection Ha as ->. destruct Hleaf as (leaf & Hl & Hnorm & ->). injection E1 as <-.
    destruct (same_path (push d leaf) home) eqn:Eh; [done|]. destruct recursive; injection E2 as <- <-; by constructor.
  - injection E2 as <- <-. subst a. destruct parents; [by constructor|].
    destruct components as [|c [|]]; try done. injection E1 as <-. constructor. by apply Forall_cons in Hn as [? _].
Qed.

Lemma try_map_all_ok {A E} (f : A -> result unit E) l :
  Forall (fun a => f a = Ok tt) l -> is_ok (try_map f l) = true.
Proof. induction 1 as [|a l Ha _ IH]; simpl; [done|]. rewrite Ha. simpl. by destruct (try_map f l). Qed.

(** The exchange opens on every prepared scope, so a grant is never withheld
    for its own scope. *)
Lemma prepared_opens {CV SV JV BV KV} (en : @Env CV SV JV BV KV) verb p id :
  prepared_ok verb p -> (0 < en_read_timeout_ms en)%Z ->
  exists x, begin_attempt en id (pm_scope p)
              (match verb with Read _ _ page => Some (default WHOLE_FILE page) | _ => None end) = Ok x.
Proof.
  intros [Hne Hc Hs Hr] Ht.
  assert (forall page, exists x, open_exchange 0 id (pm_scope p) (attempt_limits en (pm_scope p)) page = Ok x) as Hopen.
  { intros page. unfold open_exchange. cbn [attempt_limits ml_max_effects ml_max_depth ml_deadline_ms ml_max_bytes].
    destruct (Z.eqb_spec (en_read_timeout_ms en) 0); [lia|]. cbn [orb].
    assert (negb ((if is_read (pm_scope p) then READ_PAGE_MAX_BYTES else 0) =? 0)%Z && negb (is_read (pm_scope p))
            = false) as -> by by destruct (is_read (pm_scope p)).
    change ((MAX_MUTATION_EFFECTS =? 0) || (MAX_MUTATION_EFFECTS <? MAX_MUTATION_EFFECTS)
            || (MAX_MUTATION_DEPTH <? MAX_MUTATION_DEPTH) || false)%Z with false. cbv iota.
    destruct (pm_scope p) as [path eff|root|paths].
    - rewrite Hs, Forall_singleton in Hc. rewrite (checked_canonical _ Hc). eauto.
    - rewrite Hs, Forall_singleton in Hc. rewrite (checked_canonical _ Hc). eauto.
    - destruct Hs as (-> & Hn & Hd). destruct (pm_paths p) as [|q qs] eqn:Eq; [done|]. rewrite <-Eq in *.
      destruct (Z.ltb_spec MAX_MUTATION_DEPTH (Z.of_nat (length (pm_paths p)))); [lia|].
      assert (is_ok (try_map canonical_path (pm_paths p)) = true) as Hm.
      { apply try_map_all_ok. eapply Forall_impl; [exact Hc|]. apply checked_canonical. }
      destruct (try_map canonical_path (pm_paths p)); [|done]. simpl. rewrite Hn. eauto. }
  unfold begin_attempt, begin_paged, begin_exchange. destruct verb; try apply Hopen. rewrite Hr. apply Hopen.
Qed.
