(* ===== verification/Agent.v ===== *)
(** * The agent's brain: [crates/maknae-agent]

    Pure parts of the agent loop: the context budget and its meter ([budget.rs]), the
    transcript ([transcript.rs]), the routing of a proposed tool call to a verb
    ([route.rs]), the text a tool's outcome becomes ([render.rs]) and what the wire's
    answers mean to the loop ([plane.rs], [wire.rs]). File content is a string of bytes;
    a file's version is its seven [i64]s as a list. [members] reads the members of a JSON
    object in order, [de_error] is the text serde reports for arguments it refuses,
    [to_json] the printer: third-party, parameters. *)
From stdpp Require Import base list strings gmap.
From Stdlib Require Import ZArith Lia Ascii.
From S2P Require Import Prelude RustStr RustSlice Json Seam Config PathGlob AuthzPolicy Wire Handler Egress Effects.
Open Scope nat_scope.

(** ** The context budget ([budget.rs]) *)

Definition DEFAULT_BYTES_PER_TOKEN : Z := 4.
Definition PREAMBLE_ALLOWANCE_TOKENS : Z := 1536.

Record ContextBudget := mkContext { cb_context_tokens : Z; cb_output_tokens : option Z }.

Definition context_budget_new (context_tokens : Z) (output_tokens : option Z)
  : result ContextBudget string :=
  if (MAX_CONTEXT_TOKENS <? context_tokens)%Z then
    Err ("context_tokens " +:+ dec context_tokens +:+ " is above the " +:+ dec MAX_CONTEXT_TOKENS
           +:+ " ceiling")
  else
    let? prompt_budget :=
      match output_tokens with
      | Some o =>
          if (o =? 0)%Z then Err "output_tokens must be at least 1"
          else Ok (if (o <=? context_tokens)%Z then Some (context_tokens - o)%Z else None)
      | None => Ok (Some context_tokens)
      end in
    let refused := Err ("context_tokens less output_tokens must exceed the "
                          +:+ dec PREAMBLE_ALLOWANCE_TOKENS +:+ "-token preamble allowance") in
    match prompt_budget with
    | Some p =>
        if (PREAMBLE_ALLOWANCE_TOKENS <? p)%Z then Ok (mkContext context_tokens output_tokens)
        else refused
    | None => refused
    end.

(** A [u64] subtraction: it wraps where the difference would be negative. *)
Definition prompt_budget (b : ContextBudget) : Z :=
  ((cb_context_tokens b - default 0%Z (cb_output_tokens b)) mod u64_max)%Z.

Definition prompt_cap (context_tokens : Z) : Z :=
  Z.min (Z.max (Z.min (context_tokens * 6) (u64_max - 1)) 65536) 16777216.

Record Notice := mkNotice { no_percent : Z; no_tokens : Z; no_budget : Z; no_estimated : bool }.
Inductive Gate := GSend (n : option Notice) | GStop.

Record Meter := mkMeter {
  mt_budget : ContextBudget; mt_first : option (Z * Z); mt_last : option (Z * Z);
  mt_warned_80 : bool; mt_warned_95 : bool }.
Definition meter_new (b : ContextBudget) : Meter := mkMeter b None None false false.

Definition meter_record (m : Meter) (bytes_sent : Z) (usage : option Usage) : Meter :=
  match usage with
  | Some u =>
      if (0 <? us_prompt_tokens u)%Z then
        let seen := (bytes_sent, Z.min (us_prompt_tokens u) MAX_CONTEXT_TOKENS) in
        mkMeter (mt_budget m) (Some (default seen (mt_first m))) (Some seen) (mt_warned_80 m) (mt_warned_95 m)
      else m
  | None => m
  end.

Definition ratio (m : Meter) : Z :=
  match mt_first m, mt_last m with
  | Some (bf, tf), Some (bl, tl) =>
      if ((bf <? bl) && (tf <? tl))%Z
      then Z.min (Z.max ((bl - bf) / (tl - tf)) 1) DEFAULT_BYTES_PER_TOKEN
      else DEFAULT_BYTES_PER_TOKEN
  | _, _ => DEFAULT_BYTES_PER_TOKEN
  end.

Definition div_ceil (a b : Z) : Z := ((a + b - 1) / b)%Z.

Definition projected (m : Meter) (bytes_ : Z) : Z * bool :=
  let floor := div_ceil bytes_ DEFAULT_BYTES_PER_TOKEN in
  match mt_last m with
  | Some (bl, tl) => (Z.max (tl + div_ceil (Z.max (bytes_ - bl) 0) (ratio m)) floor, false)
  | None => ((PREAMBLE_ALLOWANCE_TOKENS + floor)%Z, true)
  end.

Definition gate (m : Meter) (bytes_ : Z) : Gate * Meter :=
  let '(tokens, estimated) := projected m bytes_ in
  let budget := prompt_budget (mt_budget m) in
  if (budget <? tokens)%Z then (GStop, m)
  else
    let percent := (tokens * 100 / budget)%Z in
    let notice := mkNotice (percent mod u64_max) (tokens mod u64_max) budget estimated in
    if (95 <=? percent)%Z && negb (mt_warned_95 m) then
      (GSend (Some notice), mkMeter (mt_budget m) (mt_first m) (mt_last m) true true)
    else if (80 <=? percent)%Z && negb (mt_warned_80 m) then
      (GSend (Some notice), mkMeter (mt_budget m) (mt_first m) (mt_last m) true (mt_warned_95 m))
    else (GSend None, m).

(** ** The transcript ([transcript.rs]) *)

Record Transcript := mkTranscript { tr_conversation : string; tr_turns : list TurnOf }.

Definition transcript_new (conversation prompt : string) : Transcript :=
  mkTranscript conversation [TUser [Text prompt]].
Definition push_turn (t : Transcript) (turn : TurnOf) : Transcript :=
  mkTranscript (tr_conversation t) (tr_turns t ++ [turn]).
Definition push_user (t : Transcript) (prompt : string) : Transcript := push_turn t (TUser [Text prompt]).
Definition push_assistant (t : Transcript) (reply : PromptReply) : Transcript :=
  push_turn t (TAssistant (pr_blocks reply) (pr_tool_calls reply) (pr_reasoning reply)).
Definition push_tool_result (t : Transcript) (call_id result_ : string) : Transcript :=
  push_turn t (TTool call_id [Text result_]).

Fixpoint shed_turns (turns : list TurnOf) : option (list TurnOf) :=
  match turns with
  | [] => None
  | TAssistant content calls (Some _) :: rest => Some (TAssistant content calls None :: rest)
  | t :: rest => cons t <$> shed_turns rest
  end.
(** The transcript without its oldest reasoning; [None] when none is left. *)
Definition shed_oldest_reasoning (t : Transcript) : option Transcript :=
  mkTranscript (tr_conversation t) <$> shed_turns (tr_turns t).

Definition block_bytes (b : ContentBlock) : Z := match b with Text t => str_len t | _ => 0 end.
Definition turn_bytes (t : TurnOf) : Z :=
  match t with
  | TUser content | TTool _ content => sum_of block_bytes content
  | TAssistant content calls reasoning =>
      (sum_of block_bytes content + sum_of (fun c => str_len (tc_arguments c)) calls
        + match reasoning with Some r => str_len r | None => 0 end)%Z
  end.
Definition transcript_bytes (t : Transcript) : Z := sum_of turn_bytes (tr_turns t).

(** ** The plane ([plane.rs]) *)

Definition Version : Type := list Z.

Record ReadPage := mkReadPage {
  rp_content : string; rp_level : string; rp_lines : option (Z * Z); rp_complete_line : bool;
  rp_next : option (Z * Z); rp_eof : bool; rp_version : Version; rp_changed : bool }.
Inductive ReadOutcome := ReadContentOf (p : ReadPage) | ReadRefusedOf | ReadUnavailableOf.
Inductive WriteOutcome := WApplied (v : option Version) | WStale | WUnknown | WNotSent.
Inductive ReadBasis := Unread | ReadAt (v : Version).
#[export] Instance ReadBasis_eq_dec : EqDecision ReadBasis.
Proof. solve_decision. Defined.

Definition same_content (a b : Version) : bool := bool_decide (take 5 a = take 5 b).

Inductive PlaneError :=
| FrameTooLarge | PTransport (m : string) | PRefused | PMalformed | PReplyUnusable (d : ReplyDefect)
| PUnavailable.

(** ** The wire's answers ([wire.rs]) *)

Inductive WriteCheck := Unchecked | CheckUnread | CheckRead (v : Version).
Record WireRead := mkWireRead {
  wd_content : string; wd_level : string; wd_lines : option (Z * Z); wd_complete_last : bool;
  wd_next : option (Z * Z); wd_eof : bool; wd_version : Version }.

Section WireOutcomes.
Context {P : Type}.

Inductive WireOutcome :=
| WirePayload (p : P)
| WriteDone (applied stale : bool) (version : option Version)
| ReadDone (read : option WireRead)
| WireRefused (code : ProtoErrCode) (message : string) (armed : bool).

Definition read_outcome (sent : result WireOutcome string) : ReadOutcome :=
  match sent with
  | Ok (ReadDone (Some r)) =>
      ReadContentOf (mkReadPage (wd_content r) (wd_level r) (wd_lines r) (wd_complete_last r)
                       (wd_next r) (wd_eof r) (wd_version r) false)
  | Ok (WireRefused _ _ false) => ReadUnavailableOf
  | Ok (WireRefused Unauthorized _ true) => ReadRefusedOf
  | _ => ReadUnavailableOf
  end.

Definition write_outcome (sent : result WireOutcome string) : WriteOutcome :=
  match sent with
  | Ok (WriteDone true _ version) => WApplied version
  | Ok (WriteDone false true _) => WStale
  | _ => WUnknown
  end.

Definition check_for (basis : ReadBasis) : WriteCheck :=
  match basis with Unread => CheckUnread | ReadAt k => CheckRead k end.

(** [reply_of] is [Payload::PromptReply]; [shown] the debug text of an outcome. *)
Definition prompt_outcome (reply_of : P -> option PromptReply) (shown : WireOutcome -> string)
    (sent : result WireOutcome string) : result PromptReply PlaneError :=
  match sent with
  | Err m => Err (PTransport m)
  | Ok (WireRefused BadRequest _ _) => Err PMalformed
  | Ok (WireRefused (ReplyUnusable d) _ _) => Err (PReplyUnusable d)
  | Ok (WireRefused EgressUnavailable _ _) => Err PUnavailable
  | Ok (WireRefused _ _ _) => Err PRefused
  | Ok other =>
      let surprise := Err (PTransport ("protocol error: unexpected reply to session.prompt: "
                                         +:+ shown other)) in
      match other with
      | WirePayload p => match reply_of p with Some r => Ok r | None => surprise end
      | _ => surprise
      end
  end.
End WireOutcomes.
Arguments WireOutcome : clear implicits.

(** ** Routing ([route.rs]) *)

Inductive ToolRequest :=
| RouteRead (call_id path : string) (page : PageRequest)
| RouteWrite (call_id path content : string).

Inductive RouteError :=
| RUnknownTool (n : string) | BadArguments (m : string) | RArgumentsOverBound (n : Z) | EmptyPath
| RelativePath | MalformedPath | RHomeUnavailable.

Record ReadArgs := mkReadArgs { ra_path : string; ra_offset : Z; ra_limit : Z; ra_column : Z }.
Definition first_line : Z := 1.
Definition default_limit : Z := 2000.
Record WriteArgs := mkWriteArgs { wa_path : string; wa_content : string }.

Section Route.
Context (members : string -> option (list (string * Json))) (de_error : string -> string).

(** What a derived visitor keeps: named fields, each at most once, no others. *)
Definition fields_of (names : list string) (m : list (string * Json)) : option (list (string * Json)) :=
  if forallb (fun kv => bool_decide (fst kv ∈ names)) m && bool_decide (NoDup (map fst m))
  then Some m else None.
Definition field {A} (read : Json -> option A) (m : list (string * Json)) (name : string)
  : option (option A) :=
  match List.find (fun kv => String.eqb (fst kv) name) m with
  | None => Some None
  | Some (_, j) => Some <$> read j
  end.
Definition json_as_u32 (j : Json) : option Z := let! n := json_as_u64 j in try_u32 n.

Definition read_args (m : list (string * Json)) : option ReadArgs :=
  let! m := fields_of ["path"; "offset"; "limit"; "column"] m in
  let! path := field json_as_str m "path" in
  let! offset := field json_as_u64 m "offset" in
  let! limit := field json_as_u32 m "limit" in
  let! column := field json_as_u64 m "column" in
  let! path := path in
  Some (mkReadArgs path (default first_line offset) (default default_limit limit) (default 0%Z column)).
Definition write_args (m : list (string * Json)) : option WriteArgs :=
  let! m := fields_of ["path"; "content"] m in
  let! path := field json_as_str m "path" in
  let! content := field json_as_str m "content" in
  let! path := path in
  let! content := content in
  Some (mkWriteArgs path content).

(** [serde_json::from_str] into a struct. *)
Definition from_args {A} (visit : list (string * Json) -> option A) (args : string) : result A RouteError :=
  ok_or (let! m := members args in visit m) (BadArguments (de_error args)).

Definition require_object (args : string) : result unit RouteError :=
  if starts_with "{" (trim_start args) then Ok tt
  else Err (BadArguments "tool arguments must be a JSON object").

Definition expand_home (p : string) (home : option string) : result string RouteError :=
  if negb (starts_with "~" p) then Ok p
  else
    let? rest :=
      match strip_prefix "~/" p with
      | Some rest => Ok (Some rest)
      | None => if String.eqb p "~" then Ok None else Err RelativePath
      end in
    let? home := ok_or home RHomeUnavailable in
    Ok match rest with Some rest => home +:+ "/" +:+ rest | None => home end.

Definition bad_segment (seg : string) : bool :=
  is_empty seg || String.eqb seg "." || String.eqb seg "..".

Definition routed_path (p : string) (home : option string) : result string RouteError :=
  if is_empty p then Err EmptyPath
  else
    let? p := expand_home p home in
    if (MAX_MUTATION_PATH_BYTES <? str_len p)%Z || contains_char nul p then Err MalformedPath
    else
      match strip_prefix "/" p with
      | None => Err RelativePath
      | Some rest =>
          if String.eqb p "/" then Ok p
          else if existsb bad_segment (split_char slash rest) then Err MalformedPath
          else Ok p
      end.

Definition route (call : ProposedToolCall) (home : option string) : result ToolRequest RouteError :=
  match tc_refused call with
  | Some (ArgumentsOverBound b) => Err (RArgumentsOverBound b)
  | None =>
      let args := tc_arguments call in
      if String.eqb (tc_name call) "read_file" then
        let? _ := require_object args in
        let? a := from_args read_args args in
        let page := mkPage (ra_offset a) (ra_limit a) (ra_column a) in
        if negb (page_request_is_acceptable page)
        then Err (BadArguments "offset and limit must be at least 1")
        else
          let? path := routed_path (ra_path a) home in
          Ok (RouteRead (tc_call_id call) path page)
      else if String.eqb (tc_name call) "write_file" then
        let? _ := require_object args in
        let? a := from_args write_args args in
        let? path := routed_path (wa_path a) home in
        Ok (RouteWrite (tc_call_id call) path (wa_content a))
      else Err (RUnknownTool (tc_name call))
  end.
End Route.

(** ** What the model is told ([render.rs]) *)

Inductive ToolOutcome :=
| ReadContent (p : ReadPage) | ReadRefused | ReadUnavailable | WriteApplied | WriteStale | WriteUnread
| WriteUnknown | WriteNotSent | NotRun | BadCall (why : string).

Definition NOT_AUTHORIZED : string := "Not authorized".
Definition APPLIED : string := "applied".
Definition OUTCOME_UNKNOWN : string := "outcome unknown — the write may have happened: do not retry it, do not assume the previous contents survived, and do not touch that file again".
Definition NOT_WRITTEN_STALE : string :=
  "not written — the file changed since you read it; read it again, then write".
Definition NOT_WRITTEN_UNREAD : string :=
  "not written — the file exists and you have not read it; read it first, then write".
Definition READ_UNAVAILABLE : string := "read unavailable — do not retry".
Definition WRITE_NOT_SENT : string := "tool error: write not sent — content exceeds the frame bound".
Definition NOT_RUN : string := "not run: the loop was stopped".

Section Render.
(** [json_exact]: the printed value, [None] when the printer fails. *)
Context (json_exact : Json -> option string).

Definition page_view (page : ReadPage) : Json :=
  let text := if utf8_valid (rp_content page) then Some (rp_content page) else None in
  let number (n : option Z) := match n with Some n => JPos n | None => JNull end in
  JObj (("content", match text with Some t => JStr t | None => JNull end)
        :: (if is_none text then [("binary", JPos (str_len (rp_content page)))] else [])
        ++ [("label", JObj [("level", JStr (rp_level page)); ("categories", JArr [])]);
            ("first_line", number (fst <$> rp_lines page));
            ("last_line", number (snd <$> rp_lines page));
            ("complete_line", JBool (rp_complete_line page));
            ("next", match rp_next page with
                     | Some (line, column) => JObj [("line", JPos line); ("column", JPos column)]
                     | None => JNull
                     end);
            ("eof", JBool (rp_eof page));
            ("changed", JBool (rp_changed page))]).
Definition page_json (page : ReadPage) : string := default READ_UNAVAILABLE (json_exact (page_view page)).

Definition outcome_body (outcome : ToolOutcome) : string :=
  match outcome with
  | ReadContent page => page_json page
  | ReadRefused => NOT_AUTHORIZED
  | ReadUnavailable => READ_UNAVAILABLE
  | WriteApplied => APPLIED
  | WriteStale => NOT_WRITTEN_STALE
  | WriteUnread => NOT_WRITTEN_UNREAD
  | WriteUnknown => OUTCOME_UNKNOWN
  | WriteNotSent => WRITE_NOT_SENT
  | NotRun => NOT_RUN
  | BadCall why => "tool error: " +:+ why
  end.
Definition render (outcome : ToolOutcome) (steps_remaining : Z) : string :=
  outcome_body outcome +:+ "

steps remaining: " +:+ dec steps_remaining.
End Render.
