(* ===== verification/AgentDrive.v ===== *)
(** * The agent loop: [crates/maknae-agent/src/{drive,session}.rs]

    [step] decides, [drive_session] prompts, routes and renders until an answer or a
    bound, [Session] keeps one conversation over many prompts. The plane, the stop flag
    and the host's listener are effects. The loop over steps recurs on the steps left of
    the budget; the inner loop, which sheds reasoning until the frame fits, on the
    reasonings the transcript holds. *)
From stdpp Require Import base list strings gmap.
From Stdlib Require Import ZArith Lia Ascii.
From S2P Require Import Prelude Programs RustStr RustSlice Json Config Wire Agent.
Open Scope nat_scope.

(** ** Data *)

Record Budget := mkBudget { bu_max_steps : Z; bu_max_tool_calls_per_step : Z }.

Inductive StopReason :=
| StepBudget | TooManyToolCalls (n : Z) | FrameBound | PromptRefused | PromptMalformed
| StopReplyUnusable (d : ReplyDefect) | StopEgressUnavailable | StopTransport (m : string)
| StopContextBudget | Stopped | NothingPending.

Inductive Next := Answer (text : string) | Execute (calls : list ProposedToolCall) | Stop (why : StopReason).
Record Outcome := mkOutcome { ou_answer : option string; ou_stopped : option StopReason; ou_steps_used : Z }.
Inductive LoopEvent := ENotice (n : Notice) | EDiagnostic (d : string) | EAnswered | EStopped (r : StopReason).
Definition Seen : Type := gmap string Version.

Definition text_of (blocks : list ContentBlock) : string :=
  fold_right (fun b s => match b with Text t => t +:+ s | _ => s end) "" blocks.

Definition step (reply : PromptReply) (steps_remaining : Z) (budget : Budget) : Next :=
  match pr_tool_calls reply with
  | [] => Answer (text_of (pr_blocks reply))
  | calls =>
      if (steps_remaining =? 0)%Z then Stop StepBudget
      else if (bu_max_tool_calls_per_step budget <? Z.of_nat (length calls))%Z
      then Stop (TooManyToolCalls (Z.of_nat (length calls)))
      else Execute calls
  end.

(** ** Effects *)

Inductive agent_effect : Type -> Type :=
| LoadStop : agent_effect bool
| PlanePrompt (conversation : string) (turns : list TurnOf) : agent_effect (result PromptReply PlaneError)
| PlaneRead (conversation path : string) (page : PageRequest) : agent_effect ReadOutcome
| PlaneWrite (conversation path content : string) (basis : ReadBasis) : agent_effect WriteOutcome
| TakeDiagnostics : agent_effect (list string)
| EmitEvent (e : LoopEvent) : agent_effect unit.

Local Notation prog := (Programs.prog agent_effect).

Fixpoint emit_all (l : list string) : prog unit :=
  match l with [] => Ret tt | d :: l' => let# _ := EmitEvent (EDiagnostic d) in emit_all l' end.
Definition drain_diagnostics : prog unit := let# l := TakeDiagnostics in emit_all l.

(** ** The loop *)

(** What the loop keeps across steps. *)
Record Conv := mkConv { cv_transcript : Transcript; cv_seen : Seen; cv_meter : Meter }.
Definition with_transcript (c : Conv) (t : Transcript) : Conv := mkConv t (cv_seen c) (cv_meter c).
Definition with_seen (c : Conv) (s : Seen) : Conv := mkConv (cv_transcript c) s (cv_meter c).

Fixpoint reasonings (turns : list TurnOf) : nat :=
  match turns with
  | [] => 0
  | TAssistant _ _ (Some _) :: rest => S (reasonings rest)
  | _ :: rest => reasonings rest
  end.

(** [None]: stopped while shedding. *)
Fixpoint send_prompt (sheds : nat) (t : Transcript)
  : prog (option (result PromptReply PlaneError) * Transcript) :=
  let# sent := PlanePrompt (tr_conversation t) (tr_turns t) in
  let* _ := drain_diagnostics in
  match sent with
  | Err FrameTooLarge =>
      let# stop := LoadStop in
      if stop : bool then Ret (None, t)
      else match sheds, shed_oldest_reasoning t with
           | S n, Some t' => send_prompt n t'
           | _, _ => Ret (Some sent, t)
           end
  | _ => Ret (Some sent, t)
  end.

Definition stop_of (e : PlaneError) : StopReason :=
  match e with
  | FrameTooLarge => FrameBound
  | PRefused => PromptRefused
  | PMalformed => PromptMalformed
  | PReplyUnusable d => StopReplyUnusable d
  | PUnavailable => StopEgressUnavailable
  | PTransport m => StopTransport m
  end.

Section Drive.
Context (members : string -> option (list (string * Json))) (de_error : string -> string).
Context (json_exact : Json -> option string).

Definition in_quotes (s : string) : string := quote +:+ s +:+ quote.
Definition bad_call (e : RouteError) : string :=
  match e with
  | RUnknownTool n => "unknown tool " +:+ n
  | BadArguments m => m
  | RArgumentsOverBound n =>
      "arguments were " +:+ dec n +:+ " bytes, over the " +:+ dec MAX_TOOL_CALL_ARGS_BYTES
        +:+ "-byte limit; nothing was run. A single call cannot carry more than "
        +:+ dec MAX_TOOL_CALL_ARGS_BYTES
        +:+ " bytes; retrying the same content will be refused again."
  | EmptyPath => "empty path"
  | RelativePath => "path must be absolute, or start with ~/ for your home"
  | RHomeUnavailable =>
      "home-relative paths are unavailable in this session; use an absolute path"
  | MalformedPath =>
      "path must be canonical: no empty, " +:+ in_quotes "." +:+ " or " +:+ in_quotes ".."
        +:+ " segments and no trailing " +:+ in_quotes "/" +:+ "; at most "
        +:+ dec MAX_MUTATION_PATH_BYTES +:+ " bytes and no NUL byte"
  end.

Definition run_read (c : Conv) (path : string) (page : PageRequest) : prog (ToolOutcome * Seen) :=
  let# read := PlaneRead (tr_conversation (cv_transcript c)) path page in
  let* _ := drain_diagnostics in
  Ret match read with
      | ReadContentOf p =>
          let changed := match cv_seen c !! path with
                         | Some prev => negb (same_content prev (rp_version p))
                         | None => false
                         end in
          (ReadContent (mkReadPage (rp_content p) (rp_level p) (rp_lines p) (rp_complete_line p)
                          (rp_next p) (rp_eof p) (rp_version p) changed),
           <[path := rp_version p]> (cv_seen c))
      | ReadRefusedOf => (ReadRefused, cv_seen c)
      | ReadUnavailableOf => (ReadUnavailable, cv_seen c)
      end.

Definition basis_of (s : Seen) (path : string) : ReadBasis :=
  match s !! path with Some v => ReadAt v | None => Unread end.

Definition run_write (c : Conv) (path content : string) : prog (ToolOutcome * Seen) :=
  let basis := basis_of (cv_seen c) path in
  let# written := PlaneWrite (tr_conversation (cv_transcript c)) path content basis in
  let* _ := drain_diagnostics in
  Ret match written with
      | WApplied (Some v) => (WriteApplied, <[path := v]> (cv_seen c))
      | WApplied None => (WriteApplied, delete path (cv_seen c))
      | WStale =>
          (match basis with ReadAt _ => WriteStale | Unread => WriteUnread end, delete path (cv_seen c))
      | WUnknown => (WriteUnknown, cv_seen c)
      | WNotSent => (WriteNotSent, cv_seen c)
      end.

Definition run_call (home : option string) (c : Conv) (call : ProposedToolCall)
  : prog (ToolOutcome * Seen) :=
  match route members de_error call home with
  | Err e => Ret (BadCall (bad_call e), cv_seen c)
  | Ok (RouteRead _ path page) => run_read c path page
  | Ok (RouteWrite _ path content) => run_write c path content
  end.

Fixpoint run_calls (home : option string) (steps_remaining : Z) (c : Conv) (calls : list ProposedToolCall)
  : prog Conv :=
  match calls with
  | [] => Ret c
  | call :: rest =>
      let answer outcome :=
        push_tool_result (cv_transcript c) (tc_call_id call) (render json_exact outcome steps_remaining) in
      let# stop := LoadStop in
      if stop : bool then run_calls home steps_remaining (with_transcript c (answer NotRun)) rest
      else
        let* done := run_call home c call in
        run_calls home steps_remaining (with_seen (with_transcript c (answer (fst done))) (snd done)) rest
  end.

Definition stopped (why : StopReason) (steps_used : Z) (c : Conv) : prog (Outcome * Conv) :=
  Ret (mkOutcome None (Some why) steps_used, c).

(** [left] is [max_steps - steps_used]. *)
Fixpoint drive_steps (budget : Budget) (home : option string) (left : nat) (steps_used : Z) (c : Conv)
  : prog (Outcome * Conv) :=
  let# stop := LoadStop in
  if stop : bool then stopped Stopped steps_used c
  else
    match left with
    | O => stopped StepBudget steps_used c
    | S left' =>
        let '(g, meter) := gate (cv_meter c) (transcript_bytes (cv_transcript c)) in
        let c := mkConv (cv_transcript c) (cv_seen c) meter in
        match g with
        | GStop => stopped StopContextBudget steps_used c
        | GSend notice =>
            let* _ := match notice with
                      | Some n => let# _ := EmitEvent (ENotice n) in Ret tt
                      | None => Ret tt
                      end in
            let# stop := LoadStop in
            if stop : bool then stopped Stopped steps_used c
            else
              let* sent := send_prompt (reasonings (tr_turns (cv_transcript c))) (cv_transcript c) in
              let t := snd sent in
              let c := with_transcript c t in
              match fst sent with
              | None => stopped Stopped steps_used c
              | Some (Err e) => stopped (stop_of e) steps_used c
              | Some (Ok reply) =>
                  let meter := meter_record (cv_meter c) (transcript_bytes t) (pr_usage reply) in
                  let steps_used := (steps_used + 1)%Z in
                  let c := mkConv (push_assistant t reply) (cv_seen c) meter in
                  let steps_remaining := Z.of_nat left' in
                  match step reply steps_remaining budget with
                  | Answer a => Ret (mkOutcome (Some a) None steps_used, c)
                  | Stop why => stopped why steps_used c
                  | Execute calls =>
                      let* c := run_calls home steps_remaining c calls in
                      drive_steps budget home left' steps_used c
                  end
              end
        end
    end.

Definition drive_session (budget : Budget) (home : option string) (c : Conv) : prog (Outcome * Conv) :=
  drive_steps budget home (Z.to_nat (bu_max_steps budget)) 0 c.

(** ** Sessions ([session.rs]) *)

Record Session := mkSession {
  sn_conv : Conv; sn_budget : Budget; sn_answered : bool; sn_pending : bool; sn_home : option string }.

Definition session_new (conversation first_prompt : string) (budget : Budget) (context : ContextBudget)
    (home : option string) : Session :=
  mkSession (mkConv (transcript_new conversation first_prompt) ∅ (meter_new context)) budget false true home.

(** [Session::prompt]; [None] is [SessionClosed]. *)
Definition session_prompt (s : Session) (text : string) : option Session :=
  if negb (sn_answered s) || sn_pending s then None
  else Some (mkSession (with_transcript (sn_conv s) (push_user (cv_transcript (sn_conv s)) text))
               (sn_budget s) (sn_answered s) true (sn_home s)).

(** [Session::run]. *)
Definition session_run (s : Session) : prog (Outcome * Session) :=
  if negb (sn_pending s) then
    let# _ := EmitEvent (EStopped NothingPending) in
    Ret (mkOutcome None (Some NothingPending) 0, s)
  else
    let* ran := drive_session (sn_budget s) (sn_home s) (sn_conv s) in
    let '(outcome, c) := ran in
    let* _ := match ou_answer outcome, ou_stopped outcome with
              | Some _, _ => let# _ := EmitEvent EAnswered in Ret tt
              | None, Some r => let# _ := EmitEvent (EStopped r) in Ret tt
              | None, None => Ret tt
              end in
    Ret (outcome, mkSession c (sn_budget s) (is_some (ou_answer outcome)) false (sn_home s)).
End Drive.
