(* ===== verification/AgentInvariant.v ===== *)
(** * What the agent loop keeps in step

    The exchange its transcript is, what the session last saw of a file as the history of
    its requests has it, and the weakest precondition of each part of the loop: every
    request it sends is well formed ([well_sent]), and its state stays in step with the
    history ([in_step]). *)
From stdpp Require Import base list strings gmap.
From Stdlib Require Import ZArith Lia Ascii.
From S2P Require Import Prelude Programs RustStr RustSlice Json Seam Config PathGlob AuthzPolicy Wire Handler.
From S2P Require Import Egress Effects Mutation Agent AgentDrive.
Open Scope nat_scope.

Local Notation prog := (Programs.prog agent_effect).
Local Notation event := (Programs.event agent_effect).

(** ** The exchange *)

(** Whose turn it is: the model owes a reply, the loop owes results to calls, or the user
    may speak. *)
Inductive Phase := Opening | Replying | Owing (ids : list string) | Answered.

Definition next_phase (p : Phase) (t : TurnOf) : option Phase :=
  match p, t with
  | (Opening | Answered), TUser _ => Some Replying
  | Replying, TAssistant _ [] _ => Some Answered
  | Replying, TAssistant _ calls _ => Some (Owing (map tc_call_id calls))
  | Owing (id :: ids), TTool id' _ =>
      if String.eqb id id' then Some match ids with [] => Replying | _ => Owing ids end else None
  | _, _ => None
  end.
Fixpoint phase_from (p : Phase) (turns : list TurnOf) : option Phase :=
  match turns with
  | [] => Some p
  | t :: rest => let! p' := next_phase p t in phase_from p' rest
  end.
Definition phase_of (turns : list TurnOf) : option Phase := phase_from Opening turns.

Lemma phase_from_app p l l' :
  phase_from p (l ++ l') = let! p' := phase_from p l in phase_from p' l'.
Proof.
  revert p. induction l as [|t l IH]; intros p; [done|]. simpl. destruct (next_phase p t); [apply IH|done].
Qed.

Lemma phase_push p q l t : phase_of l = Some p -> next_phase p t = Some q -> phase_of (l ++ [t]) = Some q.
Proof. intros Hl Ht. unfold phase_of. rewrite phase_from_app. fold (phase_of l). rewrite Hl. simpl. by rewrite Ht. Qed.

(** ** Shedding *)

Lemma shed_turns_phase p l l' : shed_turns l = Some l' -> phase_from p l' = phase_from p l.
Proof.
  revert p l'. induction l as [|t l IH]; intros p l' H; [done|].
  assert ((exists content calls r, t = TAssistant content calls (Some r) /\ l' = TAssistant content calls None :: l) \/
          exists l1, shed_turns l = Some l1 /\ l' = t :: l1) as [(content & calls & r & -> & ->)|(l1 & E & ->)].
  { destruct t as [?|content calls [r|]|? ?]; simpl in H.
    2: { injection H as <-. left. by exists content, calls, r. }
    all: right; destruct (shed_turns l) as [l1|]; [|done]; injection H as <-; by exists l1. }
  - by destruct p, calls.
  - simpl. destruct (next_phase p t); [by apply IH|done].
Qed.

Lemma shed_turns_count l l' : shed_turns l = Some l' -> reasonings l = S (reasonings l').
Proof.
  revert l'. induction l as [|t l IH]; intros l' H; [done|].
  destruct t as [?|content calls [r|]|? ?]; simpl in *.
  2: { by injection H as <-. }
  all: destruct (shed_turns l) as [l1|]; [|done]; injection H as <-; simpl; by apply IH.
Qed.

Lemma shed_turns_none l : reasonings l = 0 -> shed_turns l = None.
Proof. induction l as [|[?|? ? [?|]|? ?] l IH]; simpl; intros H; try done; by rewrite IH. Qed.

(** A turn the kernel's gates take, but for what a user's turn says: a user's turn is one
    text the user said, any other is within the shape bounds and carries the text its kind
    must. *)
Definition turn_sound (said : list string) (t : TurnOf) : Prop :=
  turn_is_acceptable t = true /\
  match t with
  | TUser content => exists text, text ∈ said /\ content = [Text text]
  | _ => admitted_later t = Ok tt
  end.

Lemma shed_turns_sound said l l' :
  shed_turns l = Some l' -> Forall (turn_sound said) l -> Forall (turn_sound said) l'.
Proof.
  revert l'. induction l as [|t l IH]; intros l' H Hl; [done|]. apply Forall_cons in Hl as [Ht Hl].
  destruct t as [?|content calls [r|]|? ?]; simpl in H.
  2: { injection H as <-. apply Forall_cons. split; [|done]. destruct Ht as [Ha Hb]. split; [|exact Hb].
       simpl in *. by destruct (_ && forallb _ _). }
  all: destruct (shed_turns l) as [l1|]; [|done]; injection H as <-; apply Forall_cons; split; [done|by apply IH].
Qed.

Lemma shed_turns_bytes l l' : shed_turns l = Some l' -> (sum_of turn_bytes l' <= sum_of turn_bytes l)%Z.
Proof.
  revert l'. induction l as [|t l IH]; intros l' H; [done|].
  destruct t as [?|content calls [r|]|? ?]; simpl in H.
  2: { injection H as <-. simpl. unfold str_len. lia. }
  all: destruct (shed_turns l) as [l1|]; [|done]; injection H as <-; specialize (IH _ eq_refl); simpl in *; lia.
Qed.

(** The inner loop's measure is never the reason it ends: it sheds while there is
    reasoning to shed. *)
Lemma send_prompt_unfold t :
  send_prompt (reasonings (tr_turns t)) t =
  (let# sent := PlanePrompt (tr_conversation t) (tr_turns t) in
   let* _ := drain_diagnostics in
   match sent with
   | Err FrameTooLarge =>
       let# stop := LoadStop in
       if stop : bool then Ret (None, t)
       else match shed_oldest_reasoning t with
            | Some t' => send_prompt (reasonings (tr_turns t')) t'
            | None => Ret (Some sent, t)
            end
   | _ => Ret (Some sent, t)
   end).
Proof.
  unfold shed_oldest_reasoning.
  destruct (shed_turns (tr_turns t)) as [l'|] eqn:E.
  - pose proof (shed_turns_count _ _ E) as Hn. rewrite Hn. simpl. unfold shed_oldest_reasoning.
    by rewrite E.
  - destruct (reasonings (tr_turns t)); [done|]. simpl. unfold shed_oldest_reasoning. by rewrite E.
Qed.

(** ** Diagnostics *)

(** What draining the diagnostics does. *)
Definition chatter (ev : event) : Prop :=
  match ev_effect ev with TakeDiagnostics | EmitEvent (EDiagnostic _) => True | _ => False end.

Lemma wp_drain {A} allowed (k : prog A) (Q : A -> list event -> Prop) (I : list event -> Prop) h :
  (forall ev h', chatter ev -> allowed h' ev) -> (forall ev h', chatter ev -> I h' -> I (ev :: h')) ->
  (forall h', I h' -> wp allowed k Q h') -> I h -> wp allowed (let* _ := drain_diagnostics in k) Q h.
Proof.
  intros Hall HI Hk Hh. simpl. intros l. split; [by apply Hall|].
  assert (I (Ev _ TakeDiagnostics l :: h)) as H by by apply HI.
  revert H. generalize (Ev _ TakeDiagnostics l :: h). clear h Hh.
  induction l as [|d l IH]; intros h Hh; [by apply Hk|]. intros u. split; [by apply Hall|]. apply IH. by apply HI.
Qed.

(** ** What the session last saw of a file *)

(** From the history, latest first. *)
Fixpoint known (h : list event) (path : string) : ReadBasis :=
  match h with
  | [] => Unread
  | ev :: h' =>
      let other := known h' path in
      match ev_effect ev in agent_effect X return X -> ReadBasis with
      | PlaneRead _ p _ => fun x =>
          match x with
          | ReadContentOf page => if String.eqb p path then ReadAt (rp_version page) else other
          | _ => other
          end
      | PlaneWrite _ p _ _ => fun x =>
          if String.eqb p path then
            match x with
            | WApplied (Some v) => ReadAt v
            | WApplied None | WStale => Unread
            | WUnknown | WNotSent => other
            end
          else other
      | _ => fun _ => other
      end (ev_answer ev)
  end.

(** A reply the kernel's own reply gate lets through. *)
Definition reply_acceptable (r : PromptReply) : bool := is_ok (admitted_reply r).

Lemma reply_sound said r : reply_acceptable r = true ->
  turn_sound said (TAssistant (pr_blocks r) (pr_tool_calls r) (pr_reasoning r)) /\
  forallb proposed_tool_call_is_acceptable (pr_tool_calls r) = true.
Proof.
  unfold reply_acceptable, admitted_reply, turn_sound. cbn [turn_is_acceptable admitted_later].
  destruct (_ && _) eqn:Ee; [done|]. destruct (existsb _ _) eqn:Et; [done|].
  destruct (forallb _ _); [|done]. destruct (reasoning_is_acceptable _); [|done]. intros _. cbn [negb andb].
  assert (List.find (fun b => negb (is_text b)) (pr_blocks r) = None) as ->.
  { destruct (List.find _ _) as [b|] eqn:Ef; [|done]. apply List.find_some in Ef as [Hin Hb].
    apply not_true_iff_false in Et. destruct Et. apply existsb_exists. by exists b. }
  split_and!; [|done|done]. destruct (no_blocks (pr_blocks r)); [|done]. by destruct (pr_tool_calls r).
Qed.

Definition reply_event (ev : event) : Prop :=
  match ev_effect ev in agent_effect X return X -> Prop with
  | PlanePrompt _ _ => fun x => match x with Ok r => reply_acceptable r = true | Err _ => True end
  | _ => fun _ => True
  end (ev_answer ev).
Definition replies_acceptable (h : list event) : Prop := Forall reply_event h.

(** ** The effects the loop performs *)

Definition sendable (path : string) : Prop := Mutation.checked_path path = Ok tt.

Section Requests.
Context (conversation : string) (window : Z) (said : list string).

(** The turns' bytes at the default ratio are within the window. *)
Definition within_window (turns : list TurnOf) : Prop :=
  (sum_of turn_bytes turns <= DEFAULT_BYTES_PER_TOKEN * window)%Z.

(** What may be sent after history [h]. *)
Definition well_sent (h : list event) (ev : event) : Prop :=
  match ev_effect ev with
  | PlanePrompt c turns =>
      c = conversation /\ phase_of turns = Some Replying /\ within_window turns /\
      (replies_acceptable h -> Forall (turn_sound said) turns)
  | PlaneRead c path page => c = conversation /\ sendable path /\ page_request_is_acceptable page = true
  | PlaneWrite c path _ basis => c = conversation /\ sendable path /\ basis = known h path
  | _ => True
  end.

(** The loop's state in phase [p], after [h]. *)
Record in_step (p : Phase) (c : Conv) (h : list event) : Prop := {
  is_conversation : tr_conversation (cv_transcript c) = conversation;
  is_phase : phase_of (tr_turns (cv_transcript c)) = Some p;
  is_acceptable : replies_acceptable h ->
    Forall (turn_sound said) (tr_turns (cv_transcript c));
  is_seen : forall path, basis_of (cv_seen c) path = known h path;
  is_window : prompt_budget (mt_budget (cv_meter c)) = window }.

(** An event that leaves what is known as it was. *)
Definition quiet (ev : event) : Prop :=
  match ev_effect ev with PlaneRead _ _ _ | PlaneWrite _ _ _ _ => False | _ => True end.

Lemma chatter_quiet ev : chatter ev -> quiet ev.
Proof. by destruct ev as [X [| | | | |] x]. Qed.
Lemma chatter_sent h ev : chatter ev -> well_sent h ev.
Proof. by destruct ev as [X [| | | | |] x]. Qed.

Lemma known_quiet ev h path : quiet ev -> known (ev :: h) path = known h path.
Proof. destruct ev as [X [| | | | |] x]; done. Qed.

Lemma in_step_quiet p c ev h : quiet ev -> in_step p c h -> in_step p c (ev :: h).
Proof.
  intros Hq [Hc Hp Ha Hs Hw]. constructor; [done..| | |done].
  - intros Hr. apply Ha. by apply Forall_cons in Hr as [_ Hr].
  - intros path. by rewrite known_quiet.
Qed.

Local Notation wp := (Programs.wp well_sent).

Lemma replies_later ev h : replies_acceptable (ev :: h) -> replies_acceptable h.
Proof. intros H. by apply Forall_cons in H as [_ H]. Qed.

Definition sent_in_step (c : Conv) (r : option (result PromptReply PlaneError) * Transcript) (h : list event) : Prop :=
  in_step Replying (with_transcript c (snd r)) h /\
  match fst r with Some (Ok reply) => replies_acceptable h -> reply_acceptable reply = true | _ => True end.

Lemma sent_in_step_quiet c r ev h : quiet ev -> sent_in_step c r h -> sent_in_step c r (ev :: h).
Proof.
  intros Hq [Hs Hr]. split; [by apply in_step_quiet|]. destruct (fst r) as [[reply|]|]; [|done..].
  intros H. apply Hr. by eapply replies_later.
Qed.

Lemma wp_send_prompt c sheds t h :
  in_step Replying (with_transcript c t) h -> within_window (tr_turns t) -> wp (send_prompt sheds t) (sent_in_step c) h.
Proof.
  revert t h. induction sheds as [|n IH]; intros t h Hi Hw; cbn [send_prompt]; intros sent.
  all: split; [destruct Hi; split_and!; done|].
  all: assert (sent_in_step c (Some sent, t) (Ev _ (PlanePrompt (tr_conversation t) (tr_turns t)) sent :: h)) as Hs
    by (split; [by apply in_step_quiet|]; cbn; destruct sent as [r|]; [|done]; intros H; by apply Forall_cons in H as [H _]).
  all: apply (wp_drain _ _ _ (sent_in_step c (Some sent, t)));
    [intros; by apply chatter_sent|intros ev h' Hq; by apply sent_in_step_quiet, chatter_quiet| |done].
  all: intros h' Hh'; destruct sent as [r|[| | | | |]]; try done.
  all: intros stop; split; [done|]; destruct stop; [split; [apply in_step_quiet; [done|apply Hh']|done]|].
  - by apply sent_in_step_quiet.
  - unfold shed_oldest_reasoning. destruct (shed_turns (tr_turns t)) as [l|] eqn:E; [|by apply sent_in_step_quiet].
    apply IH; [|exact (Z.le_trans _ _ _ (shed_turns_bytes _ _ E) Hw)].
    apply in_step_quiet; [done|]. destruct Hh' as [[Hc Hp Ha Hk Hb] _]. constructor; [done| | |done..].
    + cbn in *. unfold phase_of. by erewrite shed_turns_phase.
    + intros Hr. eapply shed_turns_sound; [exact E|by apply Ha].
Qed.

End Requests.

(** ** Paths *)

Lemma bad_segments segs : existsb bad_segment segs = false <-> pregate_segments segs = Ok tt.
Proof.
  induction segs as [|seg segs IH]; [done|]. simpl. unfold bad_segment at 1.
  destruct (is_empty seg); [done|]. simpl. by destruct (String.eqb seg "." || String.eqb seg "..").
Qed.

Lemma pregate_no_empty segs : pregate_segments segs = Ok tt -> "" ∉ segs.
Proof.
  induction segs as [|seg segs IH]; simpl; [set_solver|]. destruct (is_empty seg) eqn:E; [done|].
  destruct (_ || _); [done|]. intros H [<-|Hin]%elem_of_cons; [done|by apply IH].
Qed.

Lemma routed_absolute q :
  (MAX_MUTATION_PATH_BYTES <? str_len q)%Z || contains_char nul q = false ->
  match strip_prefix "/" q with
  | None => False
  | Some rest => String.eqb q "/" = true \/ existsb bad_segment (split_char slash rest) = false
  end <-> Mutation.checked_path q = Ok tt.
Proof.
  intros Hb. unfold Mutation.checked_path, lexical_pregate. rewrite Hb.
  destruct (strip_prefix "/" q) as [rest|] eqn:Es; [|done]. apply strip_prefix_spec in Es as ->.
  destruct (String.eqb _ "/"); [naive_solver|]. rewrite bad_segments.
  destruct (ends_with "/" ("/" +:+ rest)) eqn:Ee; [|naive_solver].
  split; [|done]. intros [H|H]; [done|]. apply ends_with_slash_segment in Ee. by apply pregate_no_empty in H.
Qed.

Lemma routed_checked p home q : routed_path p home = Ok q -> Mutation.checked_path q = Ok tt.
Proof.
  unfold routed_path. destruct (is_empty p); [done|]. destruct (expand_home p home) as [p'|]; [|done].
  cbv beta iota.
  destruct (_ || _) eqn:Eb; [done|]. pose proof (routed_absolute p' Eb) as Hi.
  destruct (strip_prefix "/" p') as [rest|]; [|done].
  destruct (String.eqb p' "/"); [intros [= <-]; apply Hi; by left|].
  destruct (existsb _ _); [done|]. intros [= <-]. apply Hi. by right.
Qed.

Lemma checked_routed p home : Mutation.checked_path p = Ok tt -> routed_path p home = Ok p.
Proof.
  intros H. assert ((MAX_MUTATION_PATH_BYTES <? str_len p)%Z || contains_char nul p = false) as Eb.
  { unfold Mutation.checked_path in H. by destruct (_ || _). }
  apply (routed_absolute p Eb) in H. unfold routed_path.
  destruct (strip_prefix "/" p) as [rest|] eqn:Es; [|done].
  assert (is_empty p = false /\ expand_home p home = Ok p) as [-> ->]
    by (apply strip_prefix_spec in Es as ->; done).
  cbv beta iota. rewrite Eb, Es. destruct (String.eqb p "/"); [done|]. by destruct H as [H| ->].
Qed.

Section Calls.
Context (conversation : string) (window : Z) (said : list string).
Context (members : string -> option (list (string * Json))) (de_error : string -> string).
Context (json_exact : Json -> option string).
Local Notation wp := (Programs.wp (well_sent conversation window said)).
Local Notation in_step := (in_step conversation window said).

(** ** Tool calls *)

Lemma route_sendable call home :
  match route members de_error call home with
  | Ok (RouteRead _ path page) => sendable path /\ page_request_is_acceptable page = true
  | Ok (RouteWrite _ path _) => sendable path
  | Err _ => True
  end.
Proof.
  unfold route. destruct (tc_refused call) as [[b]|]; [done|].
  destruct (String.eqb _ _); [|destruct (String.eqb _ _); [|done]].
  all: destruct (require_object _) as [u|]; [|done]; cbv beta iota.
  all: destruct (from_args _ _ _ _) as [args|]; [|done]; cbv beta iota zeta.
  - destruct (page_request_is_acceptable _) eqn:Ep; [|done]. cbv beta iota delta [negb].
    destruct (routed_path _ _) eqn:Er; [|done]. split; [by eapply routed_checked|done].
  - destruct (routed_path _ _) eqn:Er; [|done]. by eapply routed_checked.
Qed.

(** What a call leaves: the phase, and what is seen as the history has it. *)
Definition called (p : Phase) (c : Conv) (r : ToolOutcome * Seen) (h : list event) : Prop :=
  in_step p (with_seen c (snd r)) h.

Lemma basis_insert (s : gmap string Version) (path : string) v (q : string) :
  basis_of (<[path := v]> s) q = if String.eqb path q then ReadAt v else basis_of s q.
Proof.
  unfold basis_of, Seen. destruct (String.eqb path q) eqn:E.
  - apply String.eqb_eq in E as ->. by rewrite lookup_insert_eq.
  - apply String.eqb_neq in E. by rewrite lookup_insert_ne.
Qed.
Lemma basis_delete (s : gmap string Version) (path q : string) :
  basis_of (delete path s) q = if String.eqb path q then Unread else basis_of s q.
Proof.
  unfold basis_of, Seen. destruct (String.eqb path q) eqn:E.
  - apply String.eqb_eq in E as ->. by rewrite lookup_delete_eq.
  - apply String.eqb_neq in E. by rewrite lookup_delete_ne.
Qed.

Lemma in_step_seen p c s ev h :
  in_step p c h -> (forall path, basis_of s path = known (ev :: h) path) -> in_step p (with_seen c s) (ev :: h).
Proof.
  intros [Hc Hp Ha _ Hw] Hs. constructor; [done..| |done|done]. intros Hr. apply Ha. by eapply replies_later.
Qed.

(** Once the effect is answered, draining changes nothing. *)
Lemma wp_answered p c (r : ToolOutcome * Seen) h :
  called p c r h -> wp (let* _ := drain_diagnostics in Ret r) (called p c) h.
Proof.
  apply wp_drain; [intros; by apply chatter_sent| |done]. intros ev h' Hc. by apply in_step_quiet, chatter_quiet.
Qed.

Lemma wp_call p home c call h : in_step p c h -> wp (run_call members de_error home c call) (called p c) h.
Proof.
  intros Hi. pose proof (route_sendable call home) as Hr. pose proof (is_conversation _ _ _ _ _ _ Hi) as Hc.
  unfold run_call. destruct (route members de_error call home) as [[id path page|id path content]|e].
  - destruct Hr as [Hp Hg]. intros read. split; [done|]. apply wp_answered, in_step_seen; [done|]. intros q.
    destruct read; cbn; [|apply Hi..]. rewrite basis_insert. by rewrite (is_seen _ _ _ _ _ _ Hi).
  - intros written. split; [split; [done|]; split; [done|apply Hi]|]. apply wp_answered, in_step_seen; [done|].
    intros q. pose proof (is_seen _ _ _ _ _ _ Hi q) as Hq.
    destruct written as [[v|]| | |]; cbn; rewrite ?basis_insert, ?basis_delete, Hq; try done.
    all: by destruct (String.eqb path q).
  - by destruct c.
Qed.

(** The phase with results owed to [calls]. *)
Definition owing (calls : list ProposedToolCall) : Phase :=
  match calls with [] => Replying | _ => Owing (map tc_call_id calls) end.
Definition calls_acceptable (calls : list ProposedToolCall) (h : list event) : Prop :=
  replies_acceptable h -> forallb proposed_tool_call_is_acceptable calls = true.

Lemma calls_later calls ev h : calls_acceptable calls h -> calls_acceptable calls (ev :: h).
Proof. intros H Hr. apply H. by eapply replies_later. Qed.

(** What a tool's result says is never blank. *)
Lemma render_admitted outcome steps : admitted_blocks [Text (render json_exact outcome steps)] = Ok tt.
Proof.
  unfold admitted_blocks. cbn [no_blocks forallb blank_text List.find is_text negb andb].
  assert (contains_char ":" (trim (render json_exact outcome steps)) = true) as Hc.
  { apply trim_keeps; [reflexivity|]. unfold render. rewrite !contains_char_app. by rewrite orb_true_r. }
  by destruct (trim (render json_exact outcome steps)).
Qed.

Lemma push_result call rest c outcome steps h :
  calls_acceptable (call :: rest) h -> in_step (owing (call :: rest)) c h ->
  in_step (owing rest) (with_transcript c (push_tool_result (cv_transcript c) (tc_call_id call) (render json_exact outcome steps))) h.
Proof.
  intros Ha [Hc Hp Hacc Hs Hw]. constructor; [done| | |done..].
  - eapply phase_push; [exact Hp|]. simpl. rewrite String.eqb_refl. by destruct rest.
  - intros Hr. apply Forall_app. split; [by apply Hacc|]. apply Forall_singleton. specialize (Ha Hr).
    split; [|cbn [admitted_later]; by rewrite render_admitted]. simpl in *.
    unfold proposed_tool_call_is_acceptable in Ha. rewrite !andb_true_iff in Ha. rewrite !andb_true_iff. naive_solver.
Qed.

Lemma wp_later_calls {A} calls (p : prog A) Q h :
  calls_acceptable calls h -> wp p Q h -> wp p (fun a h' => Q a h' /\ calls_acceptable calls h') h.
Proof.
  revert h. induction p as [a|X e k IH]; intros h Hc Hp; [done|]. intros x. destruct (Hp x) as [Ha Hk].
  split; [done|]. apply IH; [by apply calls_later|done].
Qed.

Lemma wp_calls home steps calls : forall c h,
  calls_acceptable calls h -> in_step (owing calls) c h ->
  wp (run_calls members de_error json_exact home steps c calls) (in_step Replying) h.
Proof.
  induction calls as [|call rest IH]; intros c h Ha Hi; [done|]. cbn [run_calls]. intros stop. split; [done|].
  assert (forall h', calls_acceptable (call :: rest) h' -> calls_acceptable rest h') as Htl.
  { intros h' H Hr. specialize (H Hr). simpl in H. by apply andb_true_iff in H as [_ H]. }
  apply calls_later with (ev := Ev _ LoadStop stop) in Ha.
  apply in_step_quiet with (ev := Ev _ LoadStop stop) in Hi; [|done]. destruct stop.
  - apply IH; [by apply Htl|]. by apply push_result.
  - apply wp_bind. eapply wp_mono; [|apply wp_later_calls; [exact Ha|apply (wp_call (owing (call :: rest))); exact Hi]].
    intros [o s] h' [Hd Ha']. apply IH; [by apply Htl|]. cbn [fst snd].
    change (with_seen (with_transcript c ?t) s) with (with_transcript (with_seen c s) t).
    by apply (push_result call rest (with_seen c s)).
Qed.

(** ** Runs *)

(** After a run that answered, the user may speak. *)
Definition ran (r : Outcome * Conv) (h : list event) : Prop :=
  exists p, in_step p (snd r) h /\ (is_some (ou_answer (fst r)) = true -> p = Answered).

Lemma ran_stopped p why steps c h : in_step p c h -> wp (stopped why steps c) ran h.
Proof. intros Hi. exists p. by split. Qed.

Lemma push_reply c reply h :
  in_step Replying c h -> (replies_acceptable h -> reply_acceptable reply = true) ->
  forall meter, mt_budget meter = mt_budget (cv_meter c) -> in_step match pr_tool_calls reply with [] => Answered | calls => Owing (map tc_call_id calls) end
    (mkConv (push_assistant (cv_transcript c) reply) (cv_seen c) meter) h.
Proof.
  intros [Hc Hp Hacc Hs Hw] Ha meter Hm. constructor; [done| | |done|by cbn; rewrite Hm].
  - eapply phase_push; [exact Hp|]. simpl. by destruct (pr_tool_calls reply).
  - intros Hr. apply Forall_app. split; [by apply Hacc|]. apply Forall_singleton. by apply reply_sound, Ha.
Qed.

Lemma reply_calls reply h :
  (replies_acceptable h -> reply_acceptable reply = true) -> calls_acceptable (pr_tool_calls reply) h.
Proof. intros Ha Hr. by apply (reply_sound []), Ha. Qed.

Lemma in_step_meter p c meter h :
  mt_budget meter = mt_budget (cv_meter c) -> in_step p c h ->
  in_step p (mkConv (cv_transcript c) (cv_seen c) meter) h.
Proof. intros Hm [Hc Hp Ha Hs Hw]. constructor; [done..|]. cbn. by rewrite Hm. Qed.

Lemma gate_budget m b : mt_budget (snd (gate m b)) = mt_budget m.
Proof.
  unfold gate. destruct (projected m b) as [t e]. destruct (_ <? _)%Z; [done|]. destruct (_ && _); [done|].
  by destruct (_ && _).
Qed.
Lemma record_budget m b u : mt_budget (meter_record m b u) = mt_budget m.
Proof. unfold meter_record. destruct u as [u|]; [|done]. by destruct (_ <? _)%Z. Qed.

Lemma div_ceil_floor b : (b <= 4 * div_ceil b 4)%Z.
Proof. unfold div_ceil. pose proof (Z.div_mod (b + 4 - 1) 4). pose proof (Z.mod_pos_bound (b + 4 - 1) 4). lia. Qed.

(** However little the provider reported, what passes the gate is within the window at
    the default ratio. *)
Lemma gate_window m b n : fst (gate m b) = GSend n -> (b <= 4 * prompt_budget (mt_budget m))%Z.
Proof.
  pose proof (div_ceil_floor b) as Hf. unfold gate.
  assert (div_ceil b 4 <= fst (projected m b))%Z as Hp.
  { unfold projected, DEFAULT_BYTES_PER_TOKEN, PREAMBLE_ALLOWANCE_TOKENS. destruct (mt_last m) as [[bl tl]|]; cbn [fst]; lia. }
  destruct (projected m b) as [t e]. cbn [fst] in Hp. destruct (_ <? t)%Z eqn:E; [done|]. apply Z.ltb_ge in E.
  intros _. lia.
Qed.

Lemma wp_drive budget home left : forall steps c h,
  in_step Replying c h -> wp (drive_steps members de_error json_exact budget home left steps c) ran h.
Proof.
  induction left as [|left IH]; intros steps c h Hi; cbn [drive_steps]; intros stop; split; try done.
  all: apply in_step_quiet with (ev := Ev _ LoadStop stop) in Hi; [|done].
  all: destruct stop; [by eapply ran_stopped|].
  { by eapply ran_stopped. }
  pose proof (gate_budget (cv_meter c) (transcript_bytes (cv_transcript c))) as Hm.
  pose proof (gate_window (cv_meter c) (transcript_bytes (cv_transcript c))) as Hw.
  destruct (gate _ _) as [[notice|] meter]; cbn [fst snd] in *; [|by eapply ran_stopped, in_step_meter].
  specialize (Hw notice eq_refl). rewrite (is_window _ _ _ _ _ _ Hi) in Hw.
  apply in_step_meter with (meter := meter) in Hi; [|done]. set (c1 := mkConv (cv_transcript c) (cv_seen c) meter) in *.
  apply wp_bind. apply wp_mono with (Q := fun _ h' => in_step Replying c1 h').
  2: { destruct notice; [|done]. intros u. split; [done|]. by apply in_step_quiet. }
  intros _ h1 Hi1. intros stop. split; [done|].
  apply in_step_quiet with (ev := Ev _ LoadStop stop) in Hi1; [|done].
  destruct stop; [by eapply ran_stopped|]. apply wp_bind.
  eapply wp_mono; [|by apply (wp_send_prompt conversation window said c1); [destruct Hi1|exact Hw]].
  intros [[[reply|e]|] t] h2 [Hs Hr]; cbn [fst snd] in *; [|by eapply ran_stopped..].
  pose proof (push_reply _ reply h2 Hs Hr (meter_record (cv_meter (with_transcript c1 t)) (transcript_bytes t) (pr_usage reply))
    (record_budget _ _ _)) as Hp.
  pose proof (reply_calls _ _ Hr) as Hc. cbn [cv_transcript with_transcript] in Hp. unfold step.
  destruct (pr_tool_calls reply) as [|call rest]; [by exists Answered|].
  destruct (_ =? 0)%Z; [by eapply ran_stopped|]. destruct (_ <? _)%Z; [by eapply ran_stopped|].
  apply wp_bind. eapply wp_mono; [|by apply wp_calls]. intros c' h' Hi'. by apply IH.
Qed.
End Calls.

(** ** Theorems *)

(** the agent's router and the kernel's write gate take the same paths. A path routes
    as it is exactly when the kernel's gate accepts it; and whatever a path with a leading
    tilde expands to, the gate accepts what is sent. *)
Theorem routed_path_exact (p : string) (home : option string) :
  (routed_path p home = Ok p <-> sendable p) /\ forall q, routed_path p home = Ok q -> sendable q.
Proof.
  split; [split|]; [apply routed_checked|apply checked_routed|]. intros q. apply routed_checked.
Qed.

Lemma routed_path_exact_witness : sendable "/home/u/notes".
Proof. apply (proj2 (routed_path_exact "~/notes" (Some "/home/u"))). vm_compute. reflexivity. Defined.
