(* ===== verification/AgentTheorems.v ===== *)
(** * What the agent loop promises

    Over any sequence of prompts and runs of one session, and whatever the plane answers:
    every prompt it sends is one the kernel's gate on the turns takes unless the user said
    nothing in it, in an exchange whose tool calls are all answered and which fits the
    window; its reads and writes pass the gates on paths and pages; a write says exactly what the session
    last saw of the file; the stop flag is read before every request; a run is bounded. *)
From stdpp Require Import base list strings gmap.
From Stdlib Require Import ZArith Lia Ascii.
From S2P Require Import Prelude Programs RustStr RustSlice Json Seam Config PathGlob AuthzPolicy Wire Handler.
From S2P Require Import Egress Effects Mutation Agent AgentDrive AgentInvariant.
Open Scope nat_scope.

Local Notation prog := (Programs.prog agent_effect).
Local Notation event := (Programs.event agent_effect).

(** ** A session's life *)

Inductive session_call := CallPrompt (text : string) | CallRun.

Section Sessions.
Context (members : string -> option (list (string * Json))) (de_error : string -> string).
Context (json_exact : Json -> option string).
Local Notation session_run := (session_run members de_error json_exact).

(** What the user says in a session. *)
Definition call_texts (l : list session_call) : list string :=
  omap (fun c => match c with CallPrompt text => Some text | CallRun => None end) l.

(** A refused prompt leaves the session as it was. *)
Fixpoint session_calls (l : list session_call) (s : Session) : prog Session :=
  match l with
  | [] => Ret s
  | CallPrompt text :: l' => session_calls l' (default s (session_prompt s text))
  | CallRun :: l' => let* r := session_run s in session_calls l' (snd r)
  end.

Section InStep.
Context (conversation : string) (window : Z) (said : list string).
Local Notation in_step := (in_step conversation window said).
Local Notation wp := (Programs.wp (well_sent conversation window said)).

(** A run is pending on a reply; an answered session waits for the user. *)
Definition session_ok (s : Session) (h : list event) : Prop :=
  exists p, in_step p (sn_conv s) h /\ (sn_pending s = true -> p = Replying) /\
    (sn_answered s = true -> sn_pending s = false -> p = Answered).

Lemma session_prompt_ok s text s' h :
  text ∈ said -> session_prompt s text = Some s' -> session_ok s h -> session_ok s' h.
Proof.
  intros Hsaid. unfold session_prompt. destruct (sn_answered s) eqn:Ea, (sn_pending s) eqn:Ep; try done. simpl.
  intros [= <-] (p & [Hc Hp Ha Hs Hw] & _ & Hans). exists Replying. split; [|done]. specialize (Hans Ea Ep) as ->.
  constructor; [done| | |done..].
  - by eapply phase_push.
  - intros Hr. apply Forall_app. split; [by apply Ha|]. apply Forall_singleton. split; [done|by exists text].
Qed.

Lemma session_run_ok s h : session_ok s h -> wp (session_run s) (fun r => session_ok (snd r)) h.
Proof.
  intros (p & Hi & Hpend & Hans). unfold AgentDrive.session_run. destruct (sn_pending s) eqn:Ep; simpl.
  - specialize (Hpend eq_refl) as ->. apply wp_bind.
    eapply wp_mono; [|by apply (wp_drive conversation window said)]. intros [o c] h' (p & Hi' & Ha). cbn [fst snd] in *.
    assert (session_ok (mkSession c (sn_budget s) (is_some (ou_answer o)) false (sn_home s)) h') as Hok
      by (exists p; split_and!; [done|done|intros H _; by apply Ha]).
    assert (forall e, session_ok (mkSession c (sn_budget s) (is_some (ou_answer o)) false (sn_home s))
      (Ev _ (EmitEvent e) tt :: h')) as He.
    { intros e. destruct Hok as (q & Hq & Hq'). exists q. split; [by apply in_step_quiet|done]. }
    destruct (ou_answer o); [intros []; split; [done|apply He]|].
    destruct (ou_stopped o); [intros []; split; [done|apply He]|done].
  - intros []. split; [done|]. exists p. split; [by apply in_step_quiet|]. by rewrite Ep.
Qed.

Lemma session_calls_ok l :
  (forall text, text ∈ call_texts l -> text ∈ said) ->
  forall s h, session_ok s h -> wp (session_calls l s) session_ok h.
Proof.
  induction l as [|[text|] l IH]; intros Hl s h Hs; [done|..]; cbn [session_calls].
  - apply IH; [intros t Ht; apply Hl; by right|].
    destruct (session_prompt s text) eqn:E; [|done]. eapply session_prompt_ok; [apply Hl; left|done..].
  - apply wp_bind. eapply wp_mono; [|by apply session_run_ok]. intros r h' Hr. by apply IH.
Qed.
End InStep.

Lemma session_new_ok conversation said prompt budget context home :
  prompt ∈ said ->
  session_ok conversation (prompt_budget context) said (session_new conversation prompt budget context home) [].
Proof.
  intros Hsaid. exists Replying. split; [|done]. constructor; [done..| | |done].
  - intros _. apply Forall_singleton. split; [done|by exists prompt].
  - done.
Qed.

Lemma sent_well l conversation prompt budget context home tr pre ev post :
  does (session_calls l (session_new conversation prompt budget context home)) tr ->
  tr = pre ++ ev :: post ->
  well_sent conversation (prompt_budget context) (prompt :: call_texts l) (rev pre) ev.
Proof.
  intros Hd E. rewrite <-(app_nil_r (rev pre)).
  eapply wp_does; [apply session_calls_ok; [|apply session_new_ok; left]|exact Hd|exact E].
  intros text Ht. by right.
Qed.
End Sessions.

(** ** The stop flag *)

Definition plane_call (ev : event) : Prop :=
  match ev_effect ev with PlanePrompt _ _ | PlaneRead _ _ _ | PlaneWrite _ _ _ _ => True | _ => False end.

(** The flag was read, and was not raised, since the latest request. *)
Fixpoint flag_clear (h : list event) : bool :=
  match h with
  | [] => false
  | ev :: h' =>
      match ev_effect ev in agent_effect X return X -> bool with
      | LoadStop => fun raised => negb raised
      | PlanePrompt _ _ | PlaneRead _ _ _ | PlaneWrite _ _ _ _ => fun _ => false
      | TakeDiagnostics | EmitEvent _ => fun _ => flag_clear h'
      end (ev_answer ev)
  end.

Definition checked_first (h : list event) (ev : event) : Prop := plane_call ev -> flag_clear h = true.

Section StopFlag.
Context (members : string -> option (list (string * Json))) (de_error : string -> string).
Context (json_exact : Json -> option string).
Local Notation wp p h := (Programs.wp checked_first p (fun _ _ => True) h).

Lemma chatter_checked h ev : chatter ev -> checked_first h ev.
Proof. destruct ev as [X [| | | | |] x]; intros Hc Hp; by cbn in *. Qed.

Lemma checked_drain {A} (k : prog A) h : (forall h', wp k h') -> wp (let* _ := drain_diagnostics in k) h.
Proof. intros Hk. apply (wp_drain _ _ _ (fun _ => True)); [intros; by apply chatter_checked|done..]. Qed.

Lemma checked_bind {A B} (p : prog A) (f : A -> prog B) h : wp p h -> (forall a h', wp (f a) h') -> wp (bind p f) h.
Proof. intros Hp Hf. apply wp_bind. eapply wp_mono; [|exact Hp]. intros a h' _. apply Hf. Qed.

Lemma checked_load {A} (k : bool -> prog A) h :
  (forall h', wp (k true) h') -> (forall h', flag_clear h' = true -> wp (k false) h') -> wp (let# stop := LoadStop in k stop) h.
Proof. intros Ht Hf [|]; (split; [by intros []|]); [apply Ht|by apply Hf]. Qed.

Lemma checked_send sheds : forall t h, flag_clear h = true -> wp (send_prompt sheds t) h.
Proof.
  induction sheds as [|n IH]; intros t h Hc; cbn [send_prompt]; intros sent; (split; [by intros _|]).
  all: apply checked_drain; intros h'; destruct sent as [r|[| | | | |]]; try done.
  all: apply checked_load; [done|]; intros h1 Hc1.
  { done. }
  destruct (shed_oldest_reasoning t); [by apply IH|done].
Qed.

Lemma checked_call home c call h : flag_clear h = true -> wp (run_call members de_error home c call) h.
Proof.
  intros Hc. unfold run_call. destruct (route members de_error call home) as [[id path page|id path content]|e]; [..|done].
  all: intros x; (split; [by intros _|]); by apply checked_drain.
Qed.

Lemma checked_calls home steps calls : forall c h, wp (run_calls members de_error json_exact home steps c calls) h.
Proof.
  induction calls as [|call rest IH]; intros c h; [done|]. cbn [run_calls].
  apply checked_load; [intros; apply IH|]. intros h' Hc. apply checked_bind; [by apply checked_call|]. intros; apply IH.
Qed.

Lemma checked_drive budget home left : forall steps c h, wp (drive_steps members de_error json_exact budget home left steps c) h.
Proof.
  induction left as [|left IH]; intros steps c h; cbn [drive_steps]; apply checked_load; try done; intros h' _.
  destruct (gate _ _) as [[notice|] meter]; [|done]. apply checked_bind; [by destruct notice; [intros u; split; [intros []|]|]|]. intros _ h1.
  apply checked_load; [done|]. intros h2 Hc. apply checked_bind; [by apply checked_send|].
  intros [[[reply|e]|] t] h3; cbn [fst snd]; try done.
  destruct (step _ _ _); try done. apply checked_bind; [apply checked_calls|]. intros; apply IH.
Qed.

Lemma checked_session l : forall s h, wp (session_calls members de_error json_exact l s) h.
Proof.
  induction l as [|[text|] l IH]; intros s h; [done|..]; cbn [session_calls]; [apply IH|].
  apply checked_bind; [|intros; apply IH]. unfold session_run. destruct (sn_pending s); [|intros u; split; [by intros []|done]].
  apply checked_bind; [apply checked_drive|]. intros [o c] h'. apply checked_bind; [|done].
  destruct (ou_answer o); [intros u; split; [by intros []|done]|].
  destruct (ou_stopped o); [intros u; split; [by intros []|done]|done].
Qed.
End StopFlag.

(** ** What a run costs *)

Definition is_prompt (ev : event) : bool := match ev_effect ev with PlanePrompt _ _ => true | _ => false end.
Definition is_reply (ev : event) : bool :=
  match ev_effect ev in agent_effect X return X -> bool with
  | PlanePrompt _ _ => fun x => match x with Ok _ => true | Err _ => false end
  | _ => fun _ => false
  end (ev_answer ev).
Definition is_tool (ev : event) : bool :=
  match ev_effect ev with PlaneRead _ _ _ | PlaneWrite _ _ _ _ => true | _ => false end.
Definition is_notice (ev : event) : bool :=
  match ev_effect ev with EmitEvent (ENotice _) => true | _ => false end.
Definition count (f : event -> bool) (tr : list event) : nat := length (List.filter f tr).

Lemma count_cons f ev tr : count f (ev :: tr) = (if f ev then 1 else 0) + count f tr.
Proof. unfold count. simpl. by destruct (f ev). Qed.
Lemma count_app f l l' : count f (l ++ l') = count f l + count f l'.
Proof. unfold count. by rewrite List.filter_app, length_app. Qed.
Lemma count_rev f tr : count f (rev tr) = count f tr.
Proof. induction tr as [|ev tr IH]; [done|]. simpl. rewrite count_app, !count_cons, IH. change (count f []) with 0. lia. Qed.

(** The notices still to come. *)
Definition credit (m : Meter) : nat := (if mt_warned_80 m then 0 else 1) + (if mt_warned_95 m then 0 else 1).

Lemma gate_credit m b :
  credit (snd (gate m b)) + match fst (gate m b) with GSend (Some _) => 1 | _ => 0 end <= credit m.
Proof.
  unfold gate. destruct (projected m b) as [t e]. destruct (_ <? _)%Z; [simpl; lia|].
  generalize (t * 100 / prompt_budget (mt_budget m))%Z. intros q.
  unfold credit. destruct m as [b0 f l w80 w95]. cbn [mt_warned_80 mt_warned_95 mt_budget mt_first mt_last].
  destruct (95 <=? q)%Z, (80 <=? q)%Z, w80, w95; cbn; lia.
Qed.
Lemma record_credit m b u : credit (meter_record m b u) = credit m.
Proof. unfold meter_record. destruct u as [u|]; [|done]. by destruct (_ <? _)%Z. Qed.

Section Costs.
Context (members : string -> option (list (string * Json))) (de_error : string -> string).
Context (json_exact : Json -> option string).
Local Notation wp := (Programs.wp (fun _ _ => True)).

(** From [h] to [h']: [prompts] more prompts at most, [replies] more replies, [tools] more
    tool calls at most, [notices] more notices at most. *)
Record spends (h h' : list event) (prompts replies tools notices : nat) : Prop := {
  sp_prompts : count is_prompt h' <= count is_prompt h + prompts;
  sp_replies : count is_reply h' = count is_reply h + replies;
  sp_tools : count is_tool h' <= count is_tool h + tools;
  sp_notices : count is_notice h' <= count is_notice h + notices }.

Lemma spends_refl h : spends h h 0 0 0 0.
Proof. constructor; lia. Qed.
Lemma spends_trans h1 h2 h3 p r t n p' r' t' n' :
  spends h1 h2 p r t n -> spends h2 h3 p' r' t' n' -> spends h1 h3 (p + p') (r + r') (t + t') (n + n').
Proof. intros [????] [????]. constructor; lia. Qed.
Lemma spends_mono h h' p r t n p' t' n' :
  spends h h' p r t n -> p <= p' -> t <= t' -> n <= n' -> spends h h' p' r t' n'.
Proof. intros [????] ???. constructor; lia. Qed.
Lemma spends_nil h p r t n :
  spends [] h p r t n ->
  count is_prompt h <= p /\ count is_reply h = r /\ count is_tool h <= t /\ count is_notice h <= n.
Proof. by intros [????]. Qed.
Lemma spends_event h ev :
  spends h (ev :: h) (if is_prompt ev then 1 else 0) (if is_reply ev then 1 else 0) (if is_tool ev then 1 else 0)
    (if is_notice ev then 1 else 0).
Proof. constructor; rewrite count_cons; lia. Qed.
Lemma spends_then h ev h' p r t n :
  spends (ev :: h) h' p r t n ->
  spends h h' ((if is_prompt ev then 1 else 0) + p) ((if is_reply ev then 1 else 0) + r)
    ((if is_tool ev then 1 else 0) + t) ((if is_notice ev then 1 else 0) + n).
Proof. apply spends_trans, spends_event. Qed.

Lemma spends_drain {A} (k : prog A) (Q : A -> list event -> Prop) h h0 p r t n :
  spends h0 h p r t n -> (forall h', spends h0 h' p r t n -> wp k Q h') ->
  wp (let* _ := drain_diagnostics in k) Q h.
Proof.
  intros Hs Hk. apply (wp_drain _ _ _ (fun h' => spends h0 h' p r t n)); [done| |done|done].
  intros [X e x] h' Hc [????]. constructor; rewrite count_cons; destruct e; try done; by destruct e.
Qed.

Definition sent_cost (t : Transcript) (h : list event) (r : option (result PromptReply PlaneError) * Transcript)
    (h' : list event) : Prop :=
  reasonings (tr_turns (snd r)) <= reasonings (tr_turns t) /\
  spends h h' (1 + reasonings (tr_turns t) - reasonings (tr_turns (snd r)))
    (match fst r with Some (Ok _) => 1 | _ => 0 end) 0 0.

Lemma cost_send sheds : forall t h, wp (send_prompt sheds t) (sent_cost t h) h.
Proof.
  induction sheds as [|n IH]; intros t h; cbn [send_prompt]; intros sent; (split; [done|]).
  all: pose proof (spends_event h (Ev _ (PlanePrompt (tr_conversation t) (tr_turns t)) sent)) as He; cbn in He.
  all: eapply spends_drain; [exact He|]; intros h1 Hs; clear He.
  all: assert (sent_cost t h (Some sent, t) h1) as Hd
    by (split; [done|]; cbn; eapply spends_mono; [by destruct sent|lia..]).
  all: destruct sent as [r|[| | | | |]]; try done; intros stop; (split; [done|]).
  all: assert (spends h (Ev _ LoadStop stop :: h1) 1 0 0 0) as Hl
    by exact (spends_trans _ _ _ _ _ _ _ _ _ _ _ Hs (spends_event h1 (Ev _ LoadStop stop))).
  all: destruct stop; [split; [done|]; cbn; eapply spends_mono; [exact Hl|lia..]|].
  all: assert (sent_cost t h (Some (Err FrameTooLarge), t) (Ev _ LoadStop false :: h1)) as Hd1
    by (split; [done|]; cbn; eapply spends_mono; [exact Hl|lia..]).
  { exact Hd1. }
  unfold shed_oldest_reasoning. destruct (shed_turns (tr_turns t)) as [l|] eqn:E; [|exact Hd1].
  apply shed_turns_count in E. cbn -[send_prompt]. eapply wp_mono; [|apply IH].
  intros [o t'] h' [Hr Hc]; cbn in *. split; [cbn; lia|].
  eapply spends_mono; [exact (spends_trans _ _ _ _ _ _ _ _ _ _ _ Hl Hc)|cbn; lia..].
Qed.

Lemma cost_calls home steps calls : forall c h,
  wp (run_calls members de_error json_exact home steps c calls)
    (fun c' h' => reasonings (tr_turns (cv_transcript c')) = reasonings (tr_turns (cv_transcript c)) /\
       cv_meter c' = cv_meter c /\ spends h h' 0 0 (length calls) 0) h.
Proof.
  assert (forall l id text, reasonings (l ++ [TTool id text]) = reasonings l) as Hpush.
  { intros l id text. induction l as [|[?|? ? [?|]|? ?] l IH]; simpl; [done|try lia; done..]. }
  induction calls as [|call rest IH]; intros c h; [split_and!; [done..|apply spends_refl]|].
  cbn [run_calls]. intros stop. split; [done|].
  pose proof (spends_event h (Ev _ LoadStop stop)) as Hl. destruct stop.
  - eapply wp_mono; [|apply IH]. intros c' h' (Hr & Hm & Hs). cbn in Hr. rewrite Hpush in Hr.
    split_and!; [done..|]. eapply spends_mono; [exact (spends_trans _ _ _ _ _ _ _ _ _ _ _ Hl Hs)|cbn; lia..].
  - apply wp_bind. apply wp_mono with (Q := fun _ h1 => spends (Ev _ LoadStop false :: h) h1 0 0 1 0).
    + intros [o s] h1 Hs1. eapply wp_mono; [|apply IH]. intros c' h' (Hr & Hm & Hs). cbn in Hr. rewrite Hpush in Hr.
      split_and!; [done..|]. eapply spends_mono.
      * exact (spends_trans _ _ _ _ _ _ _ _ _ _ _ Hl (spends_trans _ _ _ _ _ _ _ _ _ _ _ Hs1 Hs)).
      * cbn; lia. * cbn; lia. * cbn; lia.
    + unfold run_call. set (h0 := Ev _ LoadStop false :: h).
      destruct (route members de_error call home) as [[id path page|id path content]|e].
      1,2: intros x; (split; [done|]); eapply spends_drain; [apply spends_event|]; intros h2 Hs; exact Hs.
      eapply spends_mono; [apply spends_refl|lia..].
Qed.

(** What a run from [c] with [left] steps to go costs, [steps] used before it. *)
Definition run_cost (budget : Budget) (left : nat) (steps : Z) (c : Conv) (h : list event) (r : Outcome * Conv)
    (h' : list event) : Prop :=
  let '(o, c') := r in
  exists used : nat,
    ou_steps_used o = (steps + Z.of_nat used)%Z /\ used <= left /\
    is_some (ou_answer o) = is_none (ou_stopped o) /\
    reasonings (tr_turns (cv_transcript c')) <= reasonings (tr_turns (cv_transcript c)) + left /\
    credit (cv_meter c') <= credit (cv_meter c) /\
    spends h h' (2 * left + reasonings (tr_turns (cv_transcript c)) - reasonings (tr_turns (cv_transcript c')))
      used ((left - 1) * Z.to_nat (bu_max_tool_calls_per_step budget))
      (credit (cv_meter c) - credit (cv_meter c')).

Lemma cost_stopped budget left steps c0 h0 why c h :
  reasonings (tr_turns (cv_transcript c)) <= reasonings (tr_turns (cv_transcript c0)) ->
  credit (cv_meter c) <= credit (cv_meter c0) ->
  spends h0 h (left + reasonings (tr_turns (cv_transcript c0)) - reasonings (tr_turns (cv_transcript c))) 0 0
    (credit (cv_meter c0) - credit (cv_meter c)) ->
  wp (stopped why steps c) (run_cost budget left steps c0 h0) h.
Proof.
  intros Hr Hc Hs. exists 0. split_and!; [cbn; lia|lia|done|lia|done|].
  eapply spends_mono; [exact Hs|lia|apply Nat.le_0_l|lia].
Qed.

Lemma reasonings_push l content calls reasoning :
  reasonings (l ++ [TAssistant content calls reasoning]) <= reasonings l + 1.
Proof. induction l as [|[?|? ? [?|]|? ?] l IH]; simpl; [destruct reasoning; simpl; lia|lia..]. Qed.

Lemma cost_drive budget home left : forall steps c h,
  wp (drive_steps members de_error json_exact budget home left steps c) (run_cost budget left steps c h) h.
Proof.
  induction left as [|left IH]; intros steps c h; cbn [drive_steps]; intros stop; (split; [done|]).
  all: pose proof (spends_event h (Ev _ LoadStop stop)) as Hl; cbn in Hl.
  all: destruct stop; [apply cost_stopped; [done..|]; eapply spends_mono; [exact Hl|lia..]|].
  { apply cost_stopped; [done..|]. eapply spends_mono; [exact Hl|lia..]. }
  pose proof (gate_credit (cv_meter c) (transcript_bytes (cv_transcript c))) as Hg.
  destruct (gate _ _) as [[notice|] meter]; cbn [fst snd] in Hg.
  2: { apply cost_stopped; cbn [cv_transcript cv_meter]; [done|lia|]. eapply spends_mono; [exact Hl|lia..]. }
  apply wp_bind. apply wp_mono with (Q := fun _ h' => spends h h' 0 0 0 (credit (cv_meter c) - credit meter)).
  2: { destruct notice as [n|]; [intros u; split; [done|]|]; (eapply spends_mono; [|reflexivity..|]).
       - exact (spends_trans _ _ _ _ _ _ _ _ _ _ _ Hl (spends_event _ (Ev _ (EmitEvent (ENotice n)) u))).
       - cbn. lia.
       - exact Hl.
       - lia. }
  intros _ h1 Hs1 stop. split; [done|].
  assert (spends h (Ev _ LoadStop stop :: h1) 0 0 0 (credit (cv_meter c) - credit meter)) as Hs2.
  { eapply spends_mono; [exact (spends_trans _ _ _ _ _ _ _ _ _ _ _ Hs1 (spends_event h1 (Ev _ LoadStop stop)))|cbn; lia..]. }
  destruct stop; [apply cost_stopped; cbn [cv_transcript cv_meter]; [done|lia|]; eapply spends_mono; [exact Hs2|lia..]|].
  apply wp_bind. eapply wp_mono; [|apply cost_send]. intros [sent t] h3 [Hr3 Hs3]. cbn [fst snd] in *.
  pose proof (spends_trans _ _ _ _ _ _ _ _ _ _ _ Hs2 Hs3) as Hs4. clear Hs1 Hs2 Hs3 Hl.
  destruct sent as [[reply|e]|]; [|apply cost_stopped; cbn [cv_transcript cv_meter with_transcript fst snd] in *; [lia|lia|];
    eapply spends_mono; [exact Hs4|lia..]..].
  cbv zeta. cbn [cv_meter with_transcript cv_transcript cv_seen].
  set (c2 := mkConv _ _ _). pose proof (reasonings_push (tr_turns t) (pr_blocks reply) (pr_tool_calls reply) (pr_reasoning reply)) as Hp.
  assert (reasonings (tr_turns (cv_transcript c2)) <= reasonings (tr_turns t) + 1) as Hp2 by exact Hp.
  assert (credit (cv_meter c2) = credit meter) as Hm2 by apply record_credit. cbn [cv_transcript] in Hr3, Hs4. clear Hp.
  assert (forall o, is_some (ou_answer o) = is_none (ou_stopped o) -> ou_steps_used o = (steps + 1)%Z ->
    run_cost budget (S left) steps c h (o, c2) h3) as Hend.
  { intros o Ho Hu. exists 1. rewrite Hm2. split_and!; [lia|lia|done|lia|lia|]. eapply spends_mono; [exact Hs4|lia..]. }
  unfold step. destruct (pr_tool_calls reply) as [|call rest] eqn:Ec; [by apply Hend|].
  destruct (_ =? 0)%Z eqn:El; [by apply Hend|]. destruct (_ <? Z.of_nat _)%Z eqn:En; [by apply Hend|].
  apply Z.eqb_neq in El. apply Z.ltb_ge in En. apply wp_bind. eapply wp_mono; [|apply cost_calls].
  intros c5 h5 (Hr5 & Hm5 & Hs5). eapply wp_mono; [|apply IH]. intros [o c6] h6 (used & Ho & Hu & He & Hr6 & Hc6 & Hs6).
  rewrite Hm5, Hm2 in Hc6, Hs6. rewrite Hr5 in Hr6, Hs6. exists (S used). split_and!; [lia|lia|done|lia|lia|].
  eapply spends_mono; [exact (spends_trans _ _ _ _ _ _ _ _ _ _ _ Hs4 (spends_trans _ _ _ _ _ _ _ _ _ _ _ Hs5 Hs6))|lia|nia|lia].
Qed.
End Costs.

(** ** The kernel's gate on the turns *)

(** What the user's turns say. *)
Definition user_texts (turns : list TurnOf) : list string :=
  concat (map (fun t => match t with
                        | TUser content => omap (fun b => match b with Text s => Some s | _ => None end) content
                        | _ => []
                        end) turns).

Lemma user_texts_user text turns : user_texts (TUser [Text text] :: turns) = text :: user_texts turns.
Proof. done. Qed.
Lemma user_texts_other t turns : match t with TUser _ => False | _ => True end ->
  user_texts (t :: turns) = user_texts turns.
Proof. by destruct t. Qed.

Lemma sound_said said turns : Forall (turn_sound said) turns -> Forall (fun text => text ∈ said) (user_texts turns).
Proof.
  induction 1 as [|t turns [_ Ht] _ IH]; [by constructor|]. destruct t as [content|? ? ?|? ?].
  - destruct Ht as (text & Hs & ->). rewrite user_texts_user. by constructor.
  - by rewrite user_texts_other.
  - by rewrite user_texts_other.
Qed.

Lemma admitted_text text : admitted_blocks [Text text] = Ok tt <-> is_empty (trim text) = false.
Proof.
  unfold admitted_blocks. cbn [no_blocks forallb blank_text List.find is_text negb andb].
  by destruct (is_empty (trim text)).
Qed.

Lemma sound_rest said turns : Forall (turn_sound said) turns ->
  admitted_rest turns = Ok tt <-> Forall (fun text => is_empty (trim text) = false) (user_texts turns).
Proof.
  induction 1 as [|t turns [_ Ht] _ IH]; [done|]. cbn [admitted_rest]. destruct t as [content|? ? ?|? ?].
  - destruct Ht as (text & _ & ->). rewrite user_texts_user, Forall_cons, <-admitted_text, <-IH.
    cbn [admitted_later]. destruct (admitted_blocks [Text text]) as [[]|]; naive_solver.
  - rewrite user_texts_other, Ht by done. exact IH.
  - rewrite user_texts_other, Ht by done. exact IH.
Qed.

Lemma sound_admitted said turns : phase_of turns = Some Replying -> Forall (turn_sound said) turns ->
  admitted_turns turns = Ok tt <-> Forall (fun text => is_empty (trim text) = false) (user_texts turns).
Proof.
  intros Hp Hs. rewrite <-(sound_rest said) by done. unfold admitted_turns.
  destruct turns as [|first rest]; [done|].
  assert (forallb turn_is_acceptable (first :: rest) = true) as ->.
  { apply forallb_forall. intros t Ht. rewrite Forall_forall in Hs. apply (Hs t). by apply list_elem_of_In. }
  by destruct first as [content|? ? ?|? ?].
Qed.

(** ** Theorems *)

(** C28: every prompt the agent loop sends is one the kernel's gate on the turns takes,
    unless the user said nothing in it. Over any sequence of prompts and runs of a session,
    stopped anywhere: a prompt's turns are an exchange that begins with the user, in which
    every tool call of every assistant turn is answered once, in order, by the tool turns
    right after it, and in which it is the model's turn; its bytes are within the declared
    window at the default ratio, however little the provider reported; and if the replies so
    far passed the kernel's reply gate, its user turns are texts the session was prompted
    with, and [admitted_turns] accepts the turns exactly when none of those texts is blank.
    A read or a write names a path the kernel's lexical gate and its write gate accept, and a
    read an acceptable page. Every request carries the conversation identifier the session
    was made with, as given. *)
Theorem requests_well_formed (members : string -> option (list (string * Json))) (de_error : string -> string)
    (json_exact : Json -> option string) (l : list session_call) (conversation prompt : string) (budget : Budget)
    (context : ContextBudget) (home : option string) (tr pre post : list event) (ev : event)
    (Hd : does (session_calls members de_error json_exact l
                  (session_new conversation prompt budget context home)) tr)
    (E : tr = pre ++ ev :: post) :
  match ev_effect ev with
  | PlanePrompt c turns =>
      c = conversation /\ phase_of turns = Some Replying /\
      (sum_of turn_bytes turns <= DEFAULT_BYTES_PER_TOKEN * prompt_budget context)%Z /\
      (replies_acceptable (rev pre) ->
       Forall (fun text => text ∈ prompt :: call_texts l) (user_texts turns) /\
       (admitted_turns turns = Ok tt <-> Forall (fun text => is_empty (trim text) = false) (user_texts turns)))
  | PlaneRead c path page =>
      c = conversation /\ Mutation.checked_path path = Ok tt /\ page_request_is_acceptable page = true
  | PlaneWrite c path _ _ => c = conversation /\ Mutation.checked_path path = Ok tt
  | _ => True
  end.
Proof.
  pose proof (sent_well members de_error json_exact l _ _ _ _ _ _ _ _ _ Hd E) as H. unfold well_sent in H.
  destruct (ev_effect ev); try done; [|by destruct H as (? & ? & _)].
  destruct H as (Hc & Hp & Hw & Hs). split_and!; [done..|]. intros Hr. specialize (Hs Hr).
  split; [by apply sound_said|by eapply sound_admitted].
Qed.

(** C29: a write says exactly what the session last saw of the file. The basis a write
    carries is the version of the latest read of that path that returned content, or of
    the latest write to it that was applied and read back, and [Unread] when there is none,
    or when a write was applied without a version or refused as stale after it. *)
Theorem write_basis_exact (members : string -> option (list (string * Json))) (de_error : string -> string)
    (json_exact : Json -> option string) (l : list session_call) (conversation prompt : string) (budget : Budget)
    (context : ContextBudget) (home : option string) (tr pre post : list event) (c path content : string)
    (basis : ReadBasis) (answer : WriteOutcome)
    (Hd : does (session_calls members de_error json_exact l
                  (session_new conversation prompt budget context home)) tr)
    (E : tr = pre ++ Ev _ (PlaneWrite c path content basis) answer :: post) :
  basis = known (rev pre) path.
Proof.
  pose proof (sent_well members de_error json_exact l _ _ _ _ _ _ _ _ _ Hd E) as H. by destruct H as (_ & _ & H).
Qed.

(** the stop flag is read before every request. Each prompt, read and write the loop
    sends comes right after a read of the flag that found it clear, with nothing but
    diagnostics and notices between: a raised flag stops everything that has not
    started. *)
Theorem stop_read_before_every_request (members : string -> option (list (string * Json)))
    (de_error : string -> string) (json_exact : Json -> option string) (l : list session_call) (s : Session)
    (tr pre post : list event) (ev : event)
    (Hd : does (session_calls members de_error json_exact l s) tr) (E : tr = pre ++ ev :: post)
    (Hp : plane_call ev) :
  flag_clear (rev pre) = true.
Proof.
  pose proof (wp_does _ _ _ _ _ (checked_session members de_error json_exact l s []) Hd pre ev post E) as H.
  rewrite app_nil_r in H. by apply H.
Qed.

(** C36: a run ends, within its budget. It ends with an answer or with a reason, never both;
    it received exactly as many replies as it reports steps, and no more than the budget
    has; it sent at most twice that many prompts and one for each reasoning it could shed;
    it ran at most [max_tool_calls_per_step] tool calls for each step but the last; and over
    a session's whole life it warns at most twice. *)
Theorem run_bounded (members : string -> option (list (string * Json))) (de_error : string -> string)
    (json_exact : Json -> option string) (s s' : Session) (o : Outcome) (tr : list event)
    (Hr : runs (session_run members de_error json_exact s) tr (o, s')) :
  let steps := Z.to_nat (bu_max_steps (sn_budget s)) in
  is_some (ou_answer o) = is_none (ou_stopped o) /\ ou_steps_used o = Z.of_nat (count is_reply tr) /\
  count is_reply tr <= steps /\
  count is_prompt tr <= 2 * steps + reasonings (tr_turns (cv_transcript (sn_conv s))) /\
  count is_tool tr <= (steps - 1) * Z.to_nat (bu_max_tool_calls_per_step (sn_budget s)) /\
  count is_notice tr + credit (cv_meter (sn_conv s')) <= credit (cv_meter (sn_conv s)) /\
  credit (cv_meter (sn_conv s)) <= 2.
Proof.
  intros steps. assert (credit (cv_meter (sn_conv s)) <= 2) as Hc2.
  { unfold credit. destruct (mt_warned_80 _), (mt_warned_95 _); lia. }
  rewrite <-!(count_rev _ tr).
  unfold session_run in Hr. destruct (sn_pending s); cbn [negb] in Hr.
  2: { apply (wp_runs (fun _ _ => True) _ (fun r h => r = (mkOutcome None (Some NothingPending) 0, s) /\
         spends [] h 0 0 0 0) []) in Hr as [[= -> ->] Hs].
       - rewrite app_nil_r in Hs. apply spends_nil in Hs as (? & -> & ? & ?). split_and!; try done; try lia; by eapply Nat.le_trans, Nat.le_0_l.
       - intros u. split; [done|]. split; [done|]. apply spends_event. }
  apply (wp_runs (fun _ _ => True) _ (fun r h => run_cost (sn_budget s) steps 0 (sn_conv s) [] (fst r, sn_conv (snd r)) h) []) in Hr.
  - rewrite app_nil_r in Hr. destruct Hr as (used & Hu & Hle & He & _ & Hc & Hs).
    apply spends_nil in Hs as (? & -> & ? & ?). cbn [fst snd] in *. split_and!; try done; lia.
  - apply wp_bind. eapply wp_mono; [|apply cost_drive]. intros [o1 c1] h1 H1.
    assert (forall e, (forall n, e <> ENotice n) -> run_cost (sn_budget s) steps 0 (sn_conv s) [] (o1, c1)
      (Ev _ (EmitEvent e) tt :: h1)) as Hev.
    { intros e Hn. destruct H1 as (used & Hu & Hle & He & Hrs & Hc & Hs). exists used. split_and!; try done.
      destruct Hs as [????]. constructor; rewrite count_cons; destruct e; cbn; try done; by destruct (Hn n). }
    destruct (ou_answer o1); [intros []; by split; [|apply Hev]|].
    destruct (ou_stopped o1); [intros []; by split; [|apply Hev]|done].
Qed.

(** ** Witnesses *)

(** A plane that is asked to read a file, then to write it, then answers. *)
Definition agent_demo_members (args : string) : option (list (string * Json)) :=
  if String.eqb args "{r" then Some [("path", JStr "~/notes")]
  else if String.eqb args "{w" then Some [("path", JStr "/home/u/notes"); ("content", JStr "new")]
  else None.
Definition agent_demo_reply (n : nat) : PromptReply :=
  match n with
  | 0 => mkReply [] [mkCall "read_file" "c1" "{r" None] None (Some "because")
  | 1 => mkReply [] [mkCall "write_file" "c2" "{w" None; mkCall "no_such_tool" "c3" "{}" None] None None
  | _ => mkReply [Text "done"] [] None None
  end.
Definition agent_demo_page : ReadPage :=
  mkReadPage "old" "U" (Some (1%Z, 1%Z)) true None true [1; 2; 3; 4; 5; 6; 7]%Z false.
Definition agent_respond (X : Type) (w : nat) (e : agent_effect X) : X * nat :=
  match e in agent_effect X return X * nat with
  | LoadStop => (false, w)
  | PlanePrompt _ _ => (Ok (agent_demo_reply w), S w)
  | PlaneRead _ _ _ => (ReadContentOf agent_demo_page, w)
  | PlaneWrite _ _ _ _ => (WApplied None, w)
  | TakeDiagnostics => (["a line"], w)
  | EmitEvent _ => (tt, w)
  end.
Definition agent_demo_session : Session :=
  session_new "c0" "hello" (mkBudget 4 3) (mkContext 8192 (Some 1024%Z)) (Some "/home/u").
Definition agent_demo_calls : list session_call := [CallRun; CallPrompt "again"; CallRun].
Definition agent_demo :=
  simulate agent_respond
    (session_calls agent_demo_members (fun s => s) (fun _ => None) agent_demo_calls agent_demo_session) 0.

Lemma agent_simulated {A} (p : prog A) w :
  runs p (snd (fst (simulate agent_respond p w))) (fst (fst (simulate agent_respond p w))).
Proof.
  destruct (simulate agent_respond p w) as [[a tr] w'] eqn:E.
  by destruct (simulate_runs (fun _ _ _ => True) agent_respond ltac:(done) p w a tr w' E).
Qed.

(** The first position of an effect in a trace. *)
Fixpoint find_index {A} (f : A -> bool) (l : list A) : nat :=
  match l with [] => 0 | a :: l' => if f a then 0 else S (find_index f l') end.
Definition is_write (ev : event) : bool := match ev_effect ev with PlaneWrite _ _ _ _ => true | _ => false end.
Definition agent_demo_at : nat := find_index is_write (snd (fst agent_demo)).
Definition agent_demo_write : event :=
  Ev _ (PlaneWrite "c0" "/home/u/notes" "new" (ReadAt [1; 2; 3; 4; 5; 6; 7]%Z)) (WApplied None).

Lemma agent_demo_split :
  snd (fst agent_demo) =
    take agent_demo_at (snd (fst agent_demo)) ++ agent_demo_write :: drop (S agent_demo_at) (snd (fst agent_demo)).
Proof. vm_compute. reflexivity. Qed.
Lemma agent_demo_does :
  does (session_calls agent_demo_members (fun s => s) (fun _ => None) agent_demo_calls agent_demo_session)
    (snd (fst agent_demo)).
Proof. eapply runs_does, agent_simulated. Qed.

(** The prompt sent after both results of the second step. *)
Definition agent_demo_prompt : nat := agent_demo_at + 1 + find_index is_prompt (drop (S agent_demo_at) (snd (fst agent_demo))).
Definition prompt_turns (ev : event) : list TurnOf := match ev_effect ev with PlanePrompt _ t => t | _ => [] end.

(** The prompt is one the kernel takes: the session's first prompt is not blank. *)
Lemma requests_well_formed_witness :
  exists ev, snd (fst agent_demo) !! agent_demo_prompt = Some ev /\ length (prompt_turns ev) = 6 /\
    admitted_turns (prompt_turns ev) = Ok tt.
Proof.
  assert (exists c turns x, snd (fst agent_demo) !! agent_demo_prompt = Some (Ev _ (PlanePrompt c turns) x) /\
    length turns = 6 /\ user_texts turns = ["hello"]) as (c & turns & x & E & Hl & Hu)
    by (vm_compute; do 3 eexists; split_and!; reflexivity).
  exists (Ev _ (PlanePrompt c turns) x). split; [exact E|]. split; [exact Hl|].
  pose proof (requests_well_formed agent_demo_members (fun s => s) (fun _ => None) agent_demo_calls "c0" "hello"
    (mkBudget 4 3) (mkContext 8192 (Some 1024%Z)) (Some "/home/u") _ _ _ _ agent_demo_does
    (eq_sym (take_drop_middle _ _ _ E))) as H.
  destruct H as (_ & _ & _ & H). apply H.
  - unfold replies_acceptable. vm_compute. repeat (constructor; [first [exact I|reflexivity]|]). constructor.
  - rewrite Hu. by repeat constructor.
Defined.

Lemma write_basis_exact_witness :
  known (rev (take agent_demo_at (snd (fst agent_demo)))) "/home/u/notes" = ReadAt [1; 2; 3; 4; 5; 6; 7]%Z.
Proof.
  symmetry.
  exact (write_basis_exact agent_demo_members (fun s => s) (fun _ => None) agent_demo_calls "c0" "hello"
    (mkBudget 4 3) (mkContext 8192 (Some 1024%Z)) (Some "/home/u") _ _ _ _ _ _ _ _ agent_demo_does agent_demo_split).
Defined.

Lemma stop_read_before_every_request_witness :
  flag_clear (rev (take agent_demo_at (snd (fst agent_demo)))) = true.
Proof.
  exact (stop_read_before_every_request agent_demo_members (fun s => s) (fun _ => None) agent_demo_calls
    agent_demo_session _ _ _ _ agent_demo_does agent_demo_split I).
Defined.

Definition agent_demo_run :=
  simulate agent_respond (session_run agent_demo_members (fun s => s) (fun _ => None) agent_demo_session) 0.

Lemma run_bounded_witness :
  ou_steps_used (fst (fst (fst agent_demo_run))) = 3%Z /\ count is_reply (snd (fst agent_demo_run)) <= 4 /\
  count is_tool (snd (fst agent_demo_run)) <= 9.
Proof.
  split; [vm_compute; reflexivity|].
  pose proof (agent_simulated (session_run agent_demo_members (fun s => s) (fun _ => None) agent_demo_session) 0) as Hr.
  change (simulate _ _ _) with agent_demo_run in Hr. destruct (fst (fst agent_demo_run)) as [o s'] in Hr.
  destruct (run_bounded agent_demo_members (fun s => s) (fun _ => None) agent_demo_session s' o _ Hr)
    as (_ & _ & Hs & _ & Ht & _).
  split; [exact Hs|exact Ht].
Defined.
