(* ===== verification/Page.v ===== *)
(** * Paged reads: [crates/maknae-io/src/page.rs]

    [read_page] of what a reader delivers: its bytes, then its end or its error. How the
    reader cuts the bytes into buffers is not observable. [stream_pages]
    ([maknae-loop/src/mutation.rs]) puts a file together from its pages; its loop carries
    fuel, and the theorem gives the fuel that is enough. *)
From stdpp Require Import base list strings gmap.
From Stdlib Require Import ZArith Lia Ascii.
From S2P Require Import Prelude Programs RustStr RustSlice Seam Config Wire MutationExchange Agent.
Open Scope nat_scope.

Definition newline : ascii := ascii_of_nat 10.
Definition is_newline (b : ascii) : bool := Ascii.eqb b newline.

Record PageNext := mkNext { pn_line : Z; pn_column : Z }.
Record Page := mkFilePage {
  fp_content : list ascii; fp_start : Z; fp_lines : option (Z * Z); fp_complete_last : bool;
  fp_next : option PageNext; fp_eof : bool }.

(** ** The scan *)

Section Scan.
Context {E : Type}.

(** What is still to be read, and the error the reader ends with, if it does not end. *)
Record Source := mkSource { so_bytes : list ascii; so_error : option E }.

(** [peek] of an exhausted reader. *)
Definition ended (error : option E) : result unit E := match error with None => Ok tt | Some e => Err e end.

(** To the first byte of line [offset]: the rest, the line and the position. *)
Fixpoint skip_lines (offset : Z) (error : option E) (rest : list ascii) (line pos : Z)
  : result (list ascii * Z * Z) E :=
  if (line <? offset)%Z then
    match rest with
    | [] => let? _ := ended error in Ok ([], line, pos)
    | b :: rest' => skip_lines offset error rest' (if is_newline b then line + 1 else line)%Z (pos + 1)%Z
    end
  else Ok (rest, line, pos).

(** To column [column] of the line, or to its end. *)
Fixpoint skip_columns (column : Z) (error : option E) (rest : list ascii) (col pos : Z)
  : result (list ascii * Z * Z) E :=
  if (col <? column)%Z then
    match rest with
    | [] => let? _ := ended error in Ok ([], col, pos)
    | b :: rest' =>
        if is_newline b then Ok (rest, col, pos) else skip_columns column error rest' (col + 1)%Z (pos + 1)%Z
    end
  else Ok (rest, col, pos).

Record Taken := mkTaken { tk_rest : list ascii; tk_content : list ascii; tk_cur : Z; tk_col : Z }.

(** Whole lines and what is left of the cap; [content] is what was taken so far. *)
Fixpoint take_lines (limit : Z) (cap : nat) (error : option E) (rest content : list ascii) (taken cur col : Z)
  : result Taken E :=
  if (taken <? limit)%Z && (length content <? cap) then
    match rest with
    | [] => let? _ := ended error in Ok (mkTaken [] content cur col)
    | b :: rest' =>
        if is_newline b then take_lines limit cap error rest' (content ++ [b]) (taken + 1)%Z (cur + 1)%Z 0
        else take_lines limit cap error rest' (content ++ [b]) taken cur (col + 1)%Z
    end
  else Ok (mkTaken rest content cur col).
End Scan.
Arguments Source : clear implicits.

(** The bytes of a character cut short at the end of [bytes]. *)
Fixpoint tail_of (back : nat) (l : list ascii) : nat :=
  match l with
  | [] => 0
  | b :: l' =>
      if byte_in 128 191 b then tail_of (S back) l'
      else
        let need := if byte_in 192 223 b then 2 else if byte_in 224 239 b then 3
                    else if byte_in 240 247 b then 4 else 1 in
        if back <? need then back else 0
  end.
Definition incomplete_tail (bytes_ : list ascii) : nat := tail_of 1 (take 4 (rev bytes_)).

Definition ends_line (content : list ascii) : bool :=
  match last content with Some b => is_newline b | None => false end.

Definition read_page {E} (r : Source E) (w : PageRequest) (cap : nat) : result Page E :=
  let? (rest, line, pos) := skip_lines (pg_offset_line w) (so_error r) (so_bytes r) 1 0 in
  let reached := (line =? pg_offset_line w)%Z in
  let? (rest, col, pos) :=
    if reached then skip_columns (pg_column w) (so_error r) rest 0 pos else Ok (rest, 0%Z, pos) in
  let start := pos in
  let? t :=
    if reached then take_lines (pg_limit_lines w) cap (so_error r) rest [] 0 line col
    else Ok (mkTaken rest [] line col) in
  let content := tk_content t in
  let tail := if (length content =? cap) && negb (ends_line content) then incomplete_tail content else 0 in
  let trimmed := if tail <? length content then tail else 0 in
  let content := take (length content - trimmed) content in
  let col := (tk_col t - Z.of_nat trimmed)%Z in
  let? eof :=
    if trimmed =? 0 then
      match tk_rest t with [] => let? _ := ended (so_error r) in Ok true | _ => Ok false end
    else Ok false in
  let ends := ends_line content in
  Ok (mkFilePage content start
        (match content with
         | [] => None
         | _ => Some (pg_offset_line w, if ends then (tk_cur t - 1)%Z else tk_cur t)
         end)
        (ends || eof)
        (if eof : bool then None else Some (mkNext (tk_cur t) (if ends then 0%Z else col)))
        eof).

(** ** A file from its pages *)

Record Fetched := mkFetched { fe_content : list ascii; fe_next : option (Z * Z); fe_version : Version }.

Inductive stream_effect : Type -> Type :=
| FetchPage (w : PageRequest) : stream_effect (result (option Fetched) string)
| WriteOut (b : list ascii) : stream_effect (result unit string).

(** [next <= at], on pairs. *)
Definition not_after (next at_ : Z * Z) : bool :=
  (fst next <? fst at_)%Z || ((fst next =? fst at_)%Z && (snd next <=? snd at_)%Z).

(** [None]: out of fuel. *)
Fixpoint stream_from (fuel : nat) (at_ : Z * Z) (version : option Version)
  : prog stream_effect (option (result bool string)) :=
  match fuel with
  | O => Ret None
  | S fuel' =>
      let# fetched := FetchPage (mkPage (fst at_) (u32_max - 1) (snd at_)) in
      match fetched with
      | Err e => Ret (Some (Err e))
      | Ok None => Ret (Some (Ok false))
      | Ok (Some read) =>
          let v := default (fe_version read) version in
          if negb (bool_decide (v = fe_version read))
          then Ret (Some (Err "file changed during the read; stopped"))
          else
            let# written := WriteOut (fe_content read) in
            match written with
            | Err e => Ret (Some (Err ("writing content to stdout: " +:+ e)))
            | Ok _ =>
                match fe_next read with
                | None => Ret (Some (Ok true))
                | Some next =>
                    if not_after next at_ then Ret (Some (Err "read did not advance; stopped"))
                    else stream_from fuel' next (Some v)
                end
            end
      end
  end.
Definition stream_pages (fuel : nat) : prog stream_effect (option (result bool string)) :=
  stream_from fuel (1%Z, 0%Z) None.

(** ** Lemmas: coordinates *)

(** The line and the column a byte leads to. *)
Definition advance (at_ : Z * Z) (b : ascii) : Z * Z :=
  if is_newline b then (fst at_ + 1, 0)%Z else (fst at_, snd at_ + 1)%Z.
Definition advances (at_ : Z * Z) (l : list ascii) : Z * Z := fold_left advance l at_.
(** Where the byte after [l] is. *)
Definition coord (l : list ascii) : Z * Z := advances (1%Z, 0%Z) l.
Definition plain (l : list ascii) : Prop := Forall (fun b => is_newline b = false) l.

Lemma advances_app at_ l l' : advances at_ (l ++ l') = advances (advances at_ l) l'.
Proof. apply fold_left_app. Qed.
Lemma advances_plain at_ l : plain l -> advances at_ l = (fst at_, snd at_ + Z.of_nat (length l))%Z.
Proof.
  intros H. revert at_. induction H as [|b l Hb _ IH]; intros [x y]; [cbn; f_equal; lia|].
  cbn [advances fold_left]. fold (advances (advance (x, y) b) l). rewrite IH. unfold advance. rewrite Hb. cbn. f_equal. lia.
Qed.
Lemma advances_newline at_ l b : is_newline b = true -> advances at_ (l ++ [b]) = (fst (advances at_ l) + 1, 0)%Z.
Proof. intros Hb. rewrite advances_app. cbn. unfold advance. by rewrite Hb. Qed.

Lemma ends_line_snoc l : ends_line l = true -> exists l' b, l = l' ++ [b] /\ is_newline b = true.
Proof.
  unfold ends_line. destruct l as [|b l _] using rev_ind; [done|]. rewrite last_snoc. intros Hb. by exists l, b.
Qed.
Lemma plain_ends l l' : plain l' -> l' <> [] -> ends_line (l ++ l') = false.
Proof.
  intros Hp Hn. destruct l' as [|b l' _] using rev_ind; [done|]. unfold ends_line. rewrite app_assoc, last_snoc.
  apply Forall_app in Hp as [_ Hp]. by inversion Hp.
Qed.

(** The lines before a coordinate, and the columns of its line. *)
Lemma coord_split l : exists l1 l2, l = l1 ++ l2 /\ plain l2 /\ (l1 = [] \/ ends_line l1 = true) /\
  coord l1 = (fst (coord l), 0%Z) /\ snd (coord l) = Z.of_nat (length l2).
Proof.
  induction l as [|b l (l1 & l2 & -> & Hp & He & Hc & Hs)] using rev_ind.
  { exists [], []. split_and!; [done|constructor|by left|done|done]. }
  destruct (is_newline b) eqn:Hb.
  - exists ((l1 ++ l2) ++ [b]), []. split_and!; [by rewrite app_nil_r|constructor|right; unfold ends_line; by rewrite last_snoc|..].
    all: unfold coord; by rewrite advances_newline.
  - exists l1, (l2 ++ [b]). assert (coord ((l1 ++ l2) ++ [b]) = (fst (coord (l1 ++ l2)), snd (coord (l1 ++ l2)) + 1)%Z) as E.
    { unfold coord. rewrite advances_app. cbn. unfold advance. by rewrite Hb. }
    rewrite E. split_and!; [by rewrite app_assoc|apply Forall_app; by split; [|constructor]|done|done|].
    cbn. rewrite length_app, Hs. cbn. lia.
Qed.

Lemma advances_line at_ l : (fst at_ <= fst (advances at_ l))%Z.
Proof.
  revert at_. induction l as [|b l IH]; intros at_; [done|]. cbn. etrans; [|apply IH]. unfold advance.
  destruct (is_newline b); cbn; lia.
Qed.
Lemma advances_lines_length at_ l : (fst (advances at_ l) <= fst at_ + Z.of_nat (length l))%Z.
Proof.
  revert at_. induction l as [|b l IH]; intros at_; [cbn; lia|]. cbn. etrans; [apply IH|]. unfold advance.
  destruct (is_newline b); cbn; lia.
Qed.

Lemma advances_fst x y y' l : fst (advances (x, y) l) = fst (advances (x, y') l).
Proof.
  revert x y y'. induction l as [|b l IH]; intros x y y'; [done|]. cbn. unfold advance. destruct (is_newline b); [done|apply IH].
Qed.

(** ** Lemmas: the scan *)

Section ScanLemmas.
Context {E : Type} (error : option E).

Lemma skip_lines_run offset l1 rest line pos :
  (line <= offset)%Z -> fst (advances (line, 0%Z) l1) = offset -> (l1 = [] \/ ends_line l1 = true) ->
  skip_lines offset error (l1 ++ rest) line pos = Ok (rest, offset, (pos + Z.of_nat (length l1))%Z).
Proof.
  revert line pos. induction l1 as [|b l1 IH]; intros line pos Hle Ho He.
  - cbn in Ho. subst line. rewrite app_nil_l, Z.add_0_r. destruct rest; cbn; by rewrite Z.ltb_irrefl.
  - assert (line < offset)%Z as Hlt.
    { destruct He as [|(l' & b' & El & Hb)%ends_line_snoc]; [done|]. rewrite El in Ho.
      rewrite advances_newline in Ho by done. pose proof (advances_line (line, 0%Z) l'). cbn in *. lia. }
    cbn [app skip_lines]. rewrite (proj2 (Z.ltb_lt _ _) Hlt).
    assert (fst (advances (if is_newline b then line + 1 else line, 0)%Z l1) = offset) as Ho1.
    { cbn in Ho. unfold advance in Ho. destruct (is_newline b); [done|]. by rewrite (advances_fst _ _ 1%Z). }
    rewrite IH; [f_equal; f_equal; cbn [length]; lia| |done|].
    + destruct (is_newline b); lia.
    + destruct He as [|He]; [done|]. destruct l1 as [|c l1]; [by left|right]. exact He.
Qed.

Lemma skip_lines_Ok offset rest line pos rest' line' pos' :
  skip_lines offset error rest line pos = Ok (rest', line', pos') -> (line <= offset)%Z ->
  (line' <= offset /\ line' - line <= pos' - pos)%Z /\ (line = offset -> line' = offset /\ pos' = pos).
Proof.
  revert line pos. induction rest as [|b rest IH]; intros line pos; cbn.
  all: destruct (line <? offset)%Z eqn:El; [|intros [= <- <- <-]; lia]; apply Z.ltb_lt in El.
  - destruct error; cbn; [done|]. intros [= <- <- <-]. lia.
  - intros H Hle. apply IH in H as [H _]; destruct (is_newline b); lia.
Qed.

Lemma skip_columns_run column l rest col pos :
  plain l -> (col + Z.of_nat (length l))%Z = column ->
  skip_columns column error (l ++ rest) col pos = Ok (rest, column, (pos + Z.of_nat (length l))%Z).
Proof.
  intros Hp. revert col pos. induction Hp as [|b l Hb _ IH]; intros col pos Hc.
  - cbn in Hc. rewrite app_nil_l. assert (col = column) as -> by lia. rewrite Z.add_0_r.
    destruct rest; cbn; by rewrite Z.ltb_irrefl.
  - cbn [length] in *. cbn [app skip_columns]. rewrite (proj2 (Z.ltb_lt col column)), Hb, IH by lia.
    f_equal. f_equal. lia.
Qed.

Lemma skip_columns_Ok column rest col pos rest' col' pos' :
  skip_columns column error rest col pos = Ok (rest', col', pos') -> (0 <= column)%Z -> (0 <= col <= column)%Z ->
  (col' <= column /\ pos' - pos = col' - col /\ col <= col')%Z.
Proof.
  revert col pos. induction rest as [|b rest IH]; intros col pos; cbn.
  all: destruct (col <? column)%Z eqn:El; [|intros [= <- <- <-]; lia]; apply Z.ltb_lt in El.
  - destruct error; cbn; [done|]. intros [= <- <- <-]. lia.
  - destruct (is_newline b); [intros [= <- <- <-]; lia|]. intros H H0 Hc. apply IH in H; lia.
Qed.

(** What [take_lines] took. *)
Record taken_ok (limit : Z) (cap : nat) (rest content : list ascii) (taken cur col : Z) (t : Taken)
    (pre : list ascii) : Prop := {
  to_split : rest = pre ++ tk_rest t;
  to_content : tk_content t = content ++ pre;
  to_coord : (tk_cur t, tk_col t) = advances (cur, col) pre;
  to_cap : length (tk_content t) <= cap;
  to_limit : (taken + (tk_cur t - cur) <= limit)%Z;
  to_full : (taken + (tk_cur t - cur) = limit)%Z -> pre = [] \/ ends_line pre = true;
  to_short : (taken + (tk_cur t - cur) < limit)%Z -> length (tk_content t) < cap -> tk_rest t = [] /\ error = None }.

Lemma take_lines_Ok limit cap rest content taken cur col t :
  take_lines limit cap error rest content taken cur col = Ok t -> (taken <= limit)%Z -> length content <= cap ->
  exists pre, taken_ok limit cap rest content taken cur col t pre.
Proof.
  revert content taken cur col. induction rest as [|b rest IH]; intros content taken cur col H Hl Hc; cbn [take_lines] in H.
  - assert (t = mkTaken [] content cur col) as ->.
    { destruct (_ && _); [|by injection H]. destruct error; [done|]. by injection H. }
    exists []. constructor; cbn; rewrite ?app_nil_r; try done; try lia; [by left|]. intros Ht Hlen.
    assert ((taken <? limit)%Z && (length content <? cap) = true) as Eb
      by (apply andb_true_iff; split; [apply Z.ltb_lt|apply Nat.ltb_lt]; lia).
    rewrite Eb in H. destruct error; [done|done].
  - destruct (_ && _) eqn:Eb.
    2: { injection H as <-. exists []. constructor; cbn; rewrite ?app_nil_r; try done; try lia; [by left|].
         apply andb_false_iff in Eb as [E0%Z.ltb_ge|E0%Nat.ltb_ge]; lia. }
    apply andb_true_iff in Eb as [E1%Z.ltb_lt E2%Nat.ltb_lt].
    destruct (is_newline b) eqn:Hb; apply IH in H as (pre & [Hs Hcn Hco Hca Hli Hfu Hsh]);
      rewrite ?length_app; cbn [length]; try lia.
    all: exists (b :: pre); constructor; try done; try lia; [by rewrite Hs|by rewrite Hcn, <-app_assoc| |..].
    all: try (cbn [advances fold_left]; rewrite Hco; unfold advance; by rewrite Hb).
    + intros Hf. right. destruct Hfu as [->|He]; [lia|done|]. destruct pre as [|c pre]; [done|exact He].
    + intros Ht. apply Hsh. lia.
    + intros Hf. right. destruct Hfu as [->|He]; [done| |].
      * exfalso. cbn in Hco. injection Hco as Hcu _. lia.
      * destruct pre as [|c pre]; [done|exact He].
Qed.
End ScanLemmas.

(** ** Lemmas: a character cut short *)

Lemma byte_not_newline lo hi b : 10 < lo -> byte_in lo hi b = true -> is_newline b = false.
Proof.
  intros Hlo Hb. destruct (is_newline b) eqn:E; [|done]. apply Ascii.eqb_eq in E as ->.
  unfold byte_in, newline in Hb. rewrite nat_ascii_embedding in Hb by lia. apply andb_true_iff in Hb as [Hb _].
  apply Nat.leb_le in Hb. lia.
Qed.

Lemma tail_of_spec back l : 1 <= back ->
  tail_of back l = 0 \/ exists j, tail_of back l = back + j /\ j < length l /\ plain (take (S j) l).
Proof.
  revert back. induction l as [|b l IH]; intros back Hb; cbn [tail_of]; [by left|].
  destruct (byte_in 128 191 b) eqn:Ec.
  - destruct (IH (S back)) as [H|(j & H & Hj & Hp)]; [lia|by left|right]. exists (S j). rewrite H.
    split_and!; [lia|cbn; lia|]. cbn [take]. constructor; [|done]. apply (byte_not_newline 128 191); [lia|done].
  - destruct (back <? _) eqn:En; [right|by left]. exists 0. split_and!; [lia|cbn; lia|]. cbn [take].
    constructor; [|rewrite take_0; constructor].
    destruct (byte_in 192 223 b) eqn:E1; [apply (byte_not_newline 192 223); [lia|done]|].
    destruct (byte_in 224 239 b) eqn:E2; [apply (byte_not_newline 224 239); [lia|done]|].
    destruct (byte_in 240 247 b) eqn:E3; [apply (byte_not_newline 240 247); [lia|done]|].
    apply Nat.ltb_lt in En. lia.
Qed.

(** What is cut off is at the end, and holds no newline. *)
Lemma incomplete_tail_spec l :
  incomplete_tail l <= length l /\ plain (drop (length l - incomplete_tail l) l).
Proof.
  unfold incomplete_tail. destruct (tail_of_spec 1 (take 4 (rev l))) as [->|(j & -> & Hj & Hp)]; [lia|..].
  { rewrite Nat.sub_0_r, drop_all. split; [lia|constructor]. }
  rewrite length_take, length_rev in Hj. split; [lia|].
  rewrite take_take, Nat.min_l in Hp by lia.
  replace (drop (length l - (1 + j)) l) with (rev (take (S j) (rev l))).
  - by apply Forall_rev.
  - rewrite firstn_rev, rev_involutive. done.
Qed.

(** ** Lemmas: pages *)

Lemma take_lines_total {E} limit cap rest content taken cur col :
  exists t, take_lines limit cap (@None E) rest content taken cur col = Ok t.
Proof.
  revert content taken cur col. induction rest as [|b rest IH]; intros; cbn [take_lines ended]; destruct (_ && _); eauto.
  destruct (is_newline b); apply IH.
Qed.

(** The bytes of a page, of what was taken. *)
Definition trim_of (cap : nat) (content : list ascii) : nat :=
  let tail := if (length content =? cap) && negb (ends_line content) then incomplete_tail content else 0 in
  if tail <? length content then tail else 0.

Lemma trim_of_spec cap l :
  trim_of cap l <= length l /\ (l <> [] -> trim_of cap l < length l) /\ plain (drop (length l - trim_of cap l) l).
Proof.
  unfold trim_of. destruct (_ && _).
  - destruct (incomplete_tail_spec l) as [Hle Hp]. destruct (_ <? _) eqn:E.
    + apply Nat.ltb_lt in E. by split_and!.
    + rewrite Nat.sub_0_r, drop_all. split_and!; [lia| |constructor]. destruct l; [done|cbn; lia].
  - assert ((if 0 <? length l then 0 else 0) = 0) as -> by (by destruct (0 <? length l)).
    rewrite Nat.sub_0_r, drop_all. split_and!; [lia| |constructor]. destruct l; [done|cbn; lia].
Qed.

(** The coordinates after what is kept. *)
Lemma kept_coord at_ cap l :
  let kept := take (length l - trim_of cap l) l in
  (fst (advances at_ l), if ends_line kept then 0 else snd (advances at_ l) - Z.of_nat (trim_of cap l))%Z =
    if ends_line kept then (fst (advances at_ kept), 0%Z) else advances at_ kept.
Proof.
  intros kept. destruct (trim_of_spec cap l) as (Hle & _ & Hp). set (cut := drop (length l - trim_of cap l) l) in *.
  assert (l = kept ++ cut) as El by (symmetry; apply take_drop).
  assert (length cut = trim_of cap l) as Hc by (unfold cut; rewrite length_drop; lia).
  assert (advances at_ l = (fst (advances at_ kept), snd (advances at_ kept) + Z.of_nat (trim_of cap l))%Z) as ->.
  { transitivity (advances at_ (kept ++ cut)); [by f_equal|]. by rewrite advances_app, advances_plain, Hc. }
  cbn [fst snd]. destruct (ends_line kept); [done|]. destruct (advances at_ kept) as [x y]. cbn. f_equal. lia.
Qed.

Lemma ends_line_column at_ l : ends_line l = true -> snd (advances at_ l) = 0%Z.
Proof. intros (l' & b & -> & Hb)%ends_line_snoc. by rewrite advances_newline. Qed.

Lemma kept_next at_ cap l :
  let kept := take (length l - trim_of cap l) l in
  (fst (advances at_ l), if ends_line kept then 0 else snd (advances at_ l) - Z.of_nat (trim_of cap l))%Z =
    advances at_ kept.
Proof.
  intros kept. etransitivity; [apply kept_coord|]. fold kept. destruct (ends_line kept) eqn:E; [|done].
  rewrite <-(ends_line_column at_ kept E). by destruct (advances at_ kept).
Qed.

(** [read_page] without its skips: the page of what was taken from [start] on. *)
Definition page_of {E} (r : Source E) (w : PageRequest) (cap : nat) (start : Z) (t : Taken) : result Page E :=
  let trimmed := trim_of cap (tk_content t) in
  let content := take (length (tk_content t) - trimmed) (tk_content t) in
  let? eof :=
    if trimmed =? 0 then
      match tk_rest t with [] => let? _ := ended (so_error r) in Ok true | _ => Ok false end
    else Ok false in
  let ends := ends_line content in
  Ok (mkFilePage content start
        (match content with
         | [] => None
         | _ => Some (pg_offset_line w, if ends then (tk_cur t - 1)%Z else tk_cur t)
         end)
        (ends || eof)
        (if eof : bool then None
         else Some (mkNext (tk_cur t) (if ends then 0%Z else (tk_col t - Z.of_nat trimmed)%Z)))
        eof).

(** The page at [k]: [n] bytes, at least one while there are any, and then the next. *)
Record page_at (bs : list ascii) (k cap : nat) (p : Page) : Prop := {
  pa_len : length (fp_content p) <= cap;
  pa_start : fp_start p = Z.of_nat k;
  pa_content : fp_content p = take (length (fp_content p)) (drop k bs);
  pa_bound : k + length (fp_content p) <= length bs;
  pa_more : k < length bs -> 1 <= length (fp_content p);
  pa_eof : fp_eof p = (k + length (fp_content p) =? length bs);
  pa_next : fp_next p =
    if k + length (fp_content p) =? length bs then None
    else let '(line, column) := coord (take (k + length (fp_content p)) bs) in Some (mkNext line column) }.

Lemma read_page_at {E} bs k limit cap :
  k <= length bs -> (1 <= limit)%Z -> 1 <= cap ->
  exists p, read_page (mkSource bs (@None E)) (mkPage (fst (coord (take k bs))) limit (snd (coord (take k bs)))) cap = Ok p /\
    page_at bs k cap p.
Proof.
  intros Hk Hl Hc. destruct (coord_split (take k bs)) as (l1 & l2 & El & Hp & He & Hc1 & Hc2).
  set (at_ := coord (take k bs)) in *. set (rest := drop k bs).
  assert (bs = l1 ++ l2 ++ rest) as Eb by (unfold rest; by rewrite app_assoc, <-El, take_drop).
  destruct (@take_lines_total E limit cap rest [] 0 (fst at_) (snd at_)) as [t Ht].
  assert (length l1 + length l2 = k) as Hlen by (rewrite <-length_app, <-El, length_take; lia).
  assert (read_page (mkSource bs (@None E)) (mkPage (fst at_) limit (snd at_)) cap =
    page_of (mkSource bs (@None E)) (mkPage (fst at_) limit (snd at_)) cap (Z.of_nat k) t) as ->.
  { unfold read_page. cbn [pg_offset_line pg_column pg_limit_lines so_bytes so_error]. rewrite Eb at 1.
    pose proof (advances_line (1%Z, 0%Z) l1) as Hline. fold (coord l1) in Hline. rewrite Hc1 in Hline. cbn [fst] in Hline.
    rewrite skip_lines_run; [|done|by fold (coord l1); rewrite Hc1|done]. cbv beta iota zeta. rewrite Z.eqb_refl.
    rewrite skip_columns_run; [|done|lia]. cbv beta iota zeta. rewrite Ht. cbv beta iota zeta.
    unfold page_of, trim_of. replace (0 + Z.of_nat (length l1) + Z.of_nat (length l2))%Z with (Z.of_nat k) by lia. done. }
  destruct (take_lines_Ok _ _ _ _ _ _ _ _ _ Ht) as (pre & [Hs Hcn Hco Hca _ _ Hsh]); [lia|cbn; lia|].
  cbn [app] in Hcn. destruct (trim_of_spec cap pre) as (Htl & Htn & _). pose proof (kept_next at_ cap pre) as Hn. cbv zeta in Hn.
  set (kept := take (length pre - trim_of cap pre) pre) in *.
  assert (length kept = length pre - trim_of cap pre) as Hkl by (unfold kept; rewrite length_take; lia).
  assert (length bs = k + length pre + length (tk_rest t)) as Hbs.
  { rewrite Eb, !length_app, Hs, length_app. lia. }
  assert (kept = take (length kept) rest) as Hkr.
  { rewrite Hs, take_app_le by lia. rewrite Hkl. done. }
  assert (take (k + length kept) bs = take k bs ++ kept) as Htk.
  { rewrite Hkr at 2. unfold rest. by rewrite <-take_take_drop. }
  set (eof := (trim_of cap pre =? 0) && match tk_rest t with [] => true | _ => false end).
  assert (eof = (k + length kept =? length bs)) as Heof.
  { unfold eof. rewrite Hbs, Hkl. destruct (trim_of cap pre =? 0) eqn:E0; [apply Nat.eqb_eq in E0|apply Nat.eqb_neq in E0].
    - destruct (tk_rest t); symmetry; [apply Nat.eqb_eq|apply Nat.eqb_neq]; cbn; lia.
    - symmetry. apply Nat.eqb_neq. lia. }
  eexists. split.
  { unfold page_of. rewrite Hcn. fold kept. instantiate (1 := mkFilePage kept (Z.of_nat k) _ (ends_line kept || eof)
      (if eof then None else Some (mkNext (tk_cur t) (if ends_line kept then 0 else tk_col t - Z.of_nat (trim_of cap pre))%Z)) eof).
    unfold eof. cbn [so_error ended]. destruct (trim_of cap pre =? 0); [|done]. by destruct (tk_rest t). }
  constructor; cbn [fp_content fp_start fp_eof fp_next]; try done; try lia.
  - rewrite Hcn in Hca. lia.
  - intros Hm. enough (pre <> []) by (specialize (Htn H); lia). intros ->. cbn in Hs. injection Hco as Hcu _.
    rewrite Hcn in Hsh. destruct Hsh as [Hr _]; [lia|cbn; lia|]. rewrite Hr in Hbs. cbn in Hbs. lia.
  - rewrite Heof, Htk. destruct (k + length kept =? length bs); [done|]. unfold coord. rewrite advances_app. fold (coord (take k bs)). fold at_.
    rewrite <-Hn. rewrite <-surjective_pairing in Hco. by rewrite <-Hco.
Qed.

Lemma advances_after at_ l : l <> [] -> not_after (advances at_ l) at_ = false.
Proof.
  assert (forall l at_, (fst at_ < fst (advances at_ l) \/ fst at_ = fst (advances at_ l) /\
    snd (advances at_ l) = snd at_ + Z.of_nat (length l))%Z) as H.
  { clear. intros l. induction l as [|b l IH]; intros at_; [right; cbn; lia|]. cbn [advances fold_left length].
    fold (advances (advance at_ b) l). pose proof (advances_line (advance at_ b) l) as Hl.
    destruct (IH (advance at_ b)) as [Hi|Hi]; unfold advance in *; destruct (is_newline b); cbn in *; lia. }
  intros Hn. assert (1 <= length l) as Hlen by (destruct l; [done|cbn; lia]). unfold not_after.
  destruct (H l at_) as [Hl|[Hl Hc]].
  - apply orb_false_iff. split; [apply Z.ltb_ge; lia|]. apply andb_false_iff. left. apply Z.eqb_neq. lia.
  - apply orb_false_iff. split; [apply Z.ltb_ge; lia|]. apply andb_false_iff. right. apply Z.leb_gt. lia.
Qed.

(** A file that does not change, read in pages of at most [cap] bytes; the world is what
    was written out. *)
Definition page_respond (bs : list ascii) (cap : nat) (version : Version) (X : Type) (out : list ascii)
    (e : stream_effect X) : X * list ascii :=
  match e in stream_effect X return X * list ascii with
  | FetchPage w =>
      (match read_page (mkSource bs (@None Empty_set)) w cap with
       | Ok p => Ok (Some (mkFetched (fp_content p)
                             ((fun n => (pn_line n, pn_column n)) <$> fp_next p) version))
       | Err _ => Ok None
       end, out)
  | WriteOut b => (Ok tt, out ++ b)
  end.

Lemma stream_from_exact bs cap version fuel : forall k v, 1 <= cap -> k <= length bs -> length bs - k < fuel ->
  v = None \/ v = Some version ->
  exists tr, simulate (page_respond bs cap version) (stream_from fuel (coord (take k bs)) v) (take k bs) =
    (Some (Ok true), tr, bs).
Proof.
  induction fuel as [|fuel IH]; intros k v Hc Hk Hf Hv; [lia|].
  destruct (@read_page_at Empty_set bs k (u32_max - 1) cap) as (p & Hp & [_ _ Hcon Hb Hm _ Hn]); [done|done|done|].
  assert (take k bs ++ fp_content p = take (k + length (fp_content p)) bs) as Ht
    by (rewrite Hcon at 1; by rewrite take_take_drop).
  cbn [stream_from simulate page_respond]. rewrite Hp. cbn [fe_version fe_content fe_next].
  assert (default version v = version) as -> by (by destruct Hv as [-> | ->]).
  rewrite bool_decide_eq_true_2 by done. cbn [negb simulate page_respond]. rewrite Hn, Ht.
  destruct (_ =? _) eqn:E.
  - apply Nat.eqb_eq in E. rewrite E, (take_ge bs (length bs)) by done. cbn. by eexists.
  - apply Nat.eqb_neq in E.
    assert (1 <= length (fp_content p)) as H1 by (destruct (decide (k < length bs)); [by apply Hm|lia]).
    set (k' := k + length (fp_content p)) in *.
    assert (coord (take k' bs) = advances (coord (take k bs)) (fp_content p)) as Ha.
    { rewrite <-Ht. unfold coord. by rewrite advances_app. }
    destruct (coord (take k' bs)) as [line column] eqn:Ek. cbn [fmap option_fmap option_map pn_line pn_column].
    rewrite Ha. rewrite advances_after by (intros Hnil; rewrite Hnil in H1; cbn in H1; lia). rewrite <-Ha, <-Ek.
    destruct (IH k' (Some version)) as [tr Htr]; [done|lia|lia|by right|]. rewrite Htr. by eexists.
Qed.

(** A page's claim, from the line it begins on. *)
Lemma page_of_consistent {E} (r : Source E) w cap start col rest t pre p :
  (1 <= pg_offset_line w)%Z -> (1 <= pg_limit_lines w)%Z -> (pg_offset_line w - 1 <= start)%Z ->
  (pg_offset_line w = 1 -> start <= pg_column w)%Z ->
  taken_ok (so_error r) (pg_limit_lines w) cap rest [] 0 (pg_offset_line w) col t pre ->
  page_of r w cap start t = Ok p ->
  let len := Z.of_nat (length (fp_content p)) in
  read_claim_is_consistent w len (Some (mkRange (fp_start p) (fp_start p + len)))
    ((fun l => mkSpan (fst l) (snd l) (fp_complete_last p)) <$> fp_lines p) = true /\
  length (fp_content p) <= cap.
Proof.
  intros Ho Hl Hs H1 [_ Hcn Hco Hca Hli Hfu _] Hp len. cbn [app] in Hcn.
  destruct (trim_of_spec cap pre) as (Htl & Htn & Htp). set (kept := take (length pre - trim_of cap pre) pre).
  assert (fp_content p = kept /\ fp_start p = start /\ fp_lines p = match kept with [] => None
    | _ => Some (pg_offset_line w, if ends_line kept then (tk_cur t - 1)%Z else tk_cur t) end) as (Ec & Es & El).
  { unfold page_of in Hp. rewrite Hcn in Hp. fold kept in Hp.
    destruct (trim_of cap pre =? 0); [destruct (tk_rest t); [destruct (so_error r); [done|]|]|]; cbn in Hp; by injection Hp as <-. }
  assert (length kept <= cap) as Hk by (unfold kept; rewrite length_take, <-Hcn; lia).
  subst len. rewrite Ec, Es, El. split; [|done].
  assert (kept <> [] -> ends_line kept = true -> 1 <= tk_cur t - pg_offset_line w)%Z as Hends.
  { intros _ (l' & b & Ek & Hb)%ends_line_snoc. pose proof (advances_line (pg_offset_line w, col) l') as Hal.
    assert (pre = (l' ++ [b]) ++ drop (length pre - trim_of cap pre) pre) as Epre
      by (rewrite <-Ek; symmetry; apply take_drop).
    rewrite Epre, advances_app, advances_newline in Hco by done.
    pose proof (advances_line (fst (advances (pg_offset_line w, col) l') + 1, 0)%Z (drop (length pre - trim_of cap pre) pre)) as H2.
    rewrite <-Hco in H2. cbn in *. lia. }
  assert (ends_line kept = false -> kept <> [] -> tk_cur t - pg_offset_line w < pg_limit_lines w)%Z as Hopen.
  { intros He Hn. destruct (decide (0 + (tk_cur t - pg_offset_line w) = pg_limit_lines w)%Z) as [Hf|]; [|lia].
    destruct (Hfu Hf) as [Hnil|He']; [unfold kept in Hn; rewrite Hnil in Hn; by destruct Hn|].
    assert (trim_of cap pre = 0) as H0 by (unfold trim_of; rewrite He', andb_false_r; by destruct (_ <? _)).
    unfold kept in He. rewrite H0, Nat.sub_0_r, firstn_all in He. congruence. }
  pose proof (advances_line (pg_offset_line w, col) pre) as Hge. rewrite <-Hco in Hge. cbn in Hge.
  unfold read_claim_is_consistent. cbn [br_start br_end]. rewrite !andb_true_iff, !orb_true_iff.
  split_and!.
  - apply Z.leb_le. lia.
  - apply Z.eqb_eq. lia.
  - destruct (decide (pg_offset_line w = 1)%Z) as [E1|]; [right; apply Z.leb_le; by apply H1|].
    left. by apply negb_true_iff, Z.eqb_neq.
  - right. apply Z.leb_le. lia.
  - destruct kept; [by left|by right].
  - destruct kept as [|b kept'] eqn:Ek; [done|]. cbn [fmap option_fmap option_map ln_first ln_last fst snd].
    rewrite !andb_true_iff. rewrite Z.ltb_lt, Z.eqb_eq, Z.leb_le, Z.ltb_lt.
    destruct (ends_line (b :: kept')) eqn:Ee; [specialize (Hends ltac:(done) eq_refl)|specialize (Hopen eq_refl ltac:(done))].
    all: cbn [length]; lia.
Qed.

(** A page is a claim the kernel accepts. What [read_page] returns for an acceptable
    window, whatever the reader delivers, passes the consistency check of the kernel's
    exchange: the range is as long as the content, begins no earlier than the skipped lines
    allow, and the lines are within the window. *)
Lemma page_claim_ok {E : Type} (r : Source E) (w : PageRequest) (cap : nat) (p : Page)
    (Hw : page_request_is_acceptable w = true) (Hcol : (0 <= pg_column w)%Z) (Hp : read_page r w cap = Ok p) :
  let len := Z.of_nat (length (fp_content p)) in
  read_claim_is_consistent w len (Some (mkRange (fp_start p) (fp_start p + len)))
    ((fun l => mkSpan (fst l) (snd l) (fp_complete_last p)) <$> fp_lines p) = true /\
  length (fp_content p) <= cap.
Proof.
  intros len. unfold page_request_is_acceptable in Hw. apply andb_true_iff in Hw as [Ho%Z.leb_le Hl%Z.leb_le].
  unfold read_page in Hp. destruct (skip_lines _ _ _ _ _) as [[[rest line] pos]|] eqn:E1; [|done].
  apply skip_lines_Ok in E1 as [[Hle Hpos] H1]; [|lia]. cbv beta iota zeta in Hp.
  destruct (line =? pg_offset_line w)%Z eqn:Er.
  - apply Z.eqb_eq in Er. destruct (skip_columns _ _ _ _ _) as [[[rest2 col] pos2]|] eqn:E2; [|done].
    apply skip_columns_Ok in E2 as (Hc & Hpc & Hc0); [|lia|lia]. cbv beta iota zeta in Hp.
    destruct (take_lines _ _ _ _ _ _ _ _) as [t|] eqn:E3; [|done].
    apply take_lines_Ok in E3 as (pre & Ht); [|lia|cbn; lia]. rewrite Er in Ht.
    change (page_of r w cap pos2 t = Ok p) in Hp. eapply page_of_consistent; try eassumption; try lia.
  - apply Z.eqb_neq in Er. change (page_of r w cap pos (mkTaken rest [] line 0) = Ok p) in Hp.
    assert (fp_content p = [] /\ fp_lines p = None /\ fp_start p = pos) as (Ec & El & Es).
    { unfold page_of in Hp. cbn [tk_content tk_rest tk_cur tk_col] in Hp.
      assert (trim_of cap [] = 0) as Ht0 by (destruct (trim_of_spec cap []) as [Ht0 _]; cbn [length] in Ht0; lia).
      rewrite Ht0 in Hp. cbn in Hp. destruct rest; [destruct (so_error r); [done|]|]; cbn in Hp; by injection Hp as <-. }
    subst len. unfold read_claim_is_consistent. rewrite Ec, El, Es. cbn [br_start br_end length fmap option_fmap option_map].
    split; [|lia]. rewrite !andb_true_iff, !orb_true_iff. split_and!; try done.
    + apply Z.leb_le. lia.
    + apply Z.eqb_eq. lia.
    + left. apply negb_true_iff, Z.eqb_neq. intros H. destruct H1; lia.
    + by left.
    + by left.
Qed.

(** ** Theorems *)

(** C35: a file put together from its pages is the file. Whatever the file holds and
    however small the cap, the loop that follows each page's [next] ends, after at most one
    page per byte, and has written out exactly the file's bytes, in order, once. *)
Theorem pages_reassemble (bs : list ascii) (cap fuel : nat) (version : Version) (Hc : 1 <= cap)
    (Hf : length bs < fuel) :
  exists tr, simulate (page_respond bs cap version) (stream_pages fuel) [] = (Some (Ok true), tr, bs).
Proof. apply (stream_from_exact bs cap version fuel 0 None); [done|lia|lia|by left]. Qed.

(** Two lines, with a character of two bytes. *)
Definition page_demo : list ascii := map ascii_of_nat [97; 98; 195; 169; 99; 10; 100; 101; 102].

Lemma pages_reassemble_witness :
  exists tr, simulate (page_respond page_demo 2 []) (stream_pages 20) [] = (Some (Ok true), tr, page_demo).
Proof. apply (pages_reassemble page_demo 2 20 []); [lia|vm_compute; lia]. Defined.
