(* ===== verification/HeldIo.v ===== *)
(** * Descriptor-bound file operations: [crates/maknae-io/src/{mutation,delegated,checks,error,dir}.rs]

    What the client does to the file system in a granted attempt: read a page of a held
    file, replace its bytes, create, make and remove entries of a held directory, each after
    the held descriptor is verified again ([delegated.rs]). The system calls are effects. A
    directory stream is the finite list of entries it will deliver. A write that is
    interrupted is tried again: the loop carries fuel, and [Stalled] is its exhaustion. *)
From stdpp Require Import base list strings gmap.
From Stdlib Require Import ZArith Lia Ascii.
From S2P Require Import Prelude Programs RustStr RustSlice Seam Config PathGlob AuthzPolicy Wire Handler.
From S2P Require Import MutationExchange Effects Mutation Agent ErrorTexts Page.
Open Scope nat_scope.

(** ** Errors ([error.rs], [checks.rs]) *)

(** The numbers are Linux's. *)
Inductive Errno := ENOENT | ENOTDIR | EACCES | EEXIST | ENOTEMPTY | ELOOP | EINTR | EIO | ESTALE | EOther (raw : Z).
Definition errno_raw (e : Errno) : Z :=
  match e with
  | ENOENT => 2 | ENOTDIR => 20 | EACCES => 13 | EEXIST => 17 | ENOTEMPTY => 39 | ELOOP => 40
  | EINTR => 4 | EIO => 5 | ESTALE => 116 | EOther raw => raw
  end.
Inductive IoKind :=
| KNotFound | KNotADirectory | KPermissionDenied | KAlreadyExists | KDirectoryNotEmpty | KOther (raw : Z).

Inductive IoError :=
| DeadlineElapsed (path : string) | InvalidMutationPath (path : string) | MutationPathChanged (path : string)
| StaleBase (path : string) | DifferentFilesystem (path : string) | Symlink (path : string)
| NotRegularFile (path : string) | InsecurePermissions (path : string) (mode : Z)
| NotOwned (path : string) (uid want : Z) | MultiplyLinked (path : string) (nlink : Z)
| TargetTooLarge (path : string) (limit actual : Z) | SizeChanged (path : string) (expected got : Z)
| RelativeAnchor (path : string) | NonUtf8Component (path : string) | RootAnchor
| AnchorEndsInDotDot (path : string) | EscapesAnchor (path : string) | EmptyRemainder
| NoDescendantForRequirement (rel : string) | Io (path : string) (kind : IoKind)
| FdPathUnavailable (kind : IoKind) | AccessBearingDescriptor (path : string) | Locked (path : string)
| PublishedNotDurable (path : string) (kind : IoKind).

Definition kind_of (e : Errno) : IoKind :=
  match e with
  | ENOENT => KNotFound
  | ENOTDIR => KNotADirectory
  | EACCES => KPermissionDenied
  | EEXIST => KAlreadyExists
  | ENOTEMPTY => KDirectoryNotEmpty
  | other => KOther (errno_raw other)
  end.

(** [{kind:?}]. *)
Definition io_kind_text (k : IoKind) : string :=
  match k with
  | KNotFound => "NotFound"
  | KNotADirectory => "NotADirectory"
  | KPermissionDenied => "PermissionDenied"
  | KAlreadyExists => "AlreadyExists"
  | KDirectoryNotEmpty => "DirectoryNotEmpty"
  | KOther raw => "Other { raw: " +:+ int_to_string raw +:+ " }"
  end.

(** Paths are displayed as they are. *)
Definition io_error_text (e : IoError) : string :=
  match e with
  | DeadlineElapsed path => "mutation deadline elapsed: " +:+ path
  | InvalidMutationPath path => "invalid mutation path: " +:+ path
  | MutationPathChanged path => "mutation path changed: " +:+ path
  | StaleBase path => "not the version the write was based on: " +:+ path
  | DifferentFilesystem path => "different filesystem refused: " +:+ path
  | Symlink path => "symlink refused: " +:+ path
  | NotRegularFile path => "not a regular file: " +:+ path
  | InsecurePermissions path mode => "insecure permissions " +:+ octal mode +:+ ": " +:+ path
  | NotOwned path uid want =>
      "owned by " +:+ int_to_string uid +:+ ", require " +:+ int_to_string want +:+ ": " +:+ path
  | MultiplyLinked path nlink => "hard-linked (nlink=" +:+ int_to_string nlink +:+ "): " +:+ path
  | TargetTooLarge path limit actual =>
      "too large (" +:+ int_to_string actual +:+ " bytes, limit " +:+ int_to_string limit +:+ "): " +:+ path
  | SizeChanged path expected got =>
      "size changed under the read (expected " +:+ int_to_string expected +:+ " bytes, got "
        +:+ int_to_string got +:+ "): " +:+ path
  | RelativeAnchor path => "anchor is relative: " +:+ path
  | NonUtf8Component path => "path component is not valid UTF-8: " +:+ path
  | RootAnchor => "anchor is the filesystem root"
  | AnchorEndsInDotDot path => "anchor's final component is `..`: " +:+ path
  | EscapesAnchor path => "escapes the anchor: " +:+ path
  | EmptyRemainder => "empty relative remainder"
  | NoDescendantForRequirement rel => "descendant requirement names no directory: " +:+ rel
  | Io path kind => "io error " +:+ io_kind_text kind +:+ ": " +:+ path
  | FdPathUnavailable kind => "cannot determine the delegated descriptor's path: " +:+ io_kind_text kind
  | AccessBearingDescriptor path => "descriptor confers access beyond location: " +:+ path
  | Locked path => "locked by another holder: " +:+ path
  | PublishedNotDurable path kind =>
      "published, but the directory sync failed (" +:+ io_kind_text kind +:+ "): " +:+ path
  end.

Definition map_errno_no_disambiguation (e : Errno) (path : string) : IoError :=
  match e with ELOOP => Symlink path | _ => Io path (kind_of e) end.
Local Notation io_error := map_errno_no_disambiguation.

Record Stat := mkStat {
  st_dev : Z; st_ino : Z; st_mode : Z; st_nlink : Z; st_uid : Z; st_size : Z;
  st_mtime : Z; st_mtime_nsec : Z; st_ctime : Z; st_ctime_nsec : Z }.
Definition S_IFMT : Z := 61440.
Definition S_IFREG : Z := 32768.
Definition S_IFDIR : Z := 16384.
Definition S_IFLNK : Z := 40960.
Definition file_type (st : Stat) : Z := Z.land (st_mode st) S_IFMT.

(** [stat] is what a stat of the component answers. *)
Definition map_errno (e : Errno) (path : string) (stat : result Stat Errno) : IoError :=
  match e with
  | ELOOP => Symlink path
  | ENOTDIR =>
      match stat with
      | Ok st => if (file_type st =? S_IFLNK)%Z then Symlink path else Io path KNotADirectory
      | Err _ => Io path KNotADirectory
      end
  | _ => Io path (kind_of e)
  end.

Record AnchorRequired := mkAnchorReq { ar_owner : option Z; ar_mode_mask : option Z }.
Definition OS_DAC : AnchorRequired := mkAnchorReq None None.
Record TargetRequired := mkTargetReq {
  tq_owner : option Z; tq_mode_mask : option Z; tq_nlink_exactly_one : bool; tq_regular_file : bool;
  tq_max_bytes : option Z }.
Definition OS_DAC_REGULAR : TargetRequired := mkTargetReq None None false true None.
Definition SINGLE_LINK_REGULAR : TargetRequired := mkTargetReq None None true true None.

Definition check_owner_mode (st : Stat) (path : string) (owner mode_mask : option Z) : result unit IoError :=
  let? _ := match mode_mask with
            | Some mask =>
                if negb (Z.land (st_mode st) mask =? 0)%Z then Err (InsecurePermissions path (st_mode st)) else Ok tt
            | None => Ok tt
            end in
  match owner with
  | Some want => if negb (st_uid st =? want)%Z then Err (NotOwned path (st_uid st) want) else Ok tt
  | None => Ok tt
  end.

Definition check_target (st : Stat) (path : string) (req : TargetRequired) : result unit IoError :=
  let? _ := if tq_regular_file req && negb (file_type st =? S_IFREG)%Z then Err (NotRegularFile path) else Ok tt in
  let? _ := check_owner_mode st path (tq_owner req) (tq_mode_mask req) in
  let? _ := if tq_nlink_exactly_one req && negb (st_nlink st =? 1)%Z
            then Err (MultiplyLinked path (st_nlink st)) else Ok tt in
  match tq_max_bytes req with
  | Some limit =>
      let actual := Z.max (st_size st) 0 in
      if (limit <? actual)%Z then Err (TargetTooLarge path limit actual) else Ok tt
  | None => Ok tt
  end.

(** ** Effects *)

Inductive ReadError := RTimedOut | RErrno (e : Errno).
Inductive Kind := KFile | KDir | KSymlink | KOtherKind.
Record Dirent := mkDirent { de_name : string; de_type : option Kind; de_ino : Z }.
Record Entry := mkEntry { en_name : string; en_kind : Kind; en_ino : Z }.
Record MutationRequired := mkMutationReq { mr_confined_beneath : string; mr_root_required : AnchorRequired }.

Inductive io_effect : Type -> Type :=
| FStat (fd : nat) : io_effect (result Stat Errno)
| ReopenWritable (held : nat) (path : string) : io_effect (result nat Errno)
| ReopenReadable (held : nat) (path : string) : io_effect (result nat Errno)
| FdPath (fd : nat) : io_effect (result string Errno)
| WriteAt (fd : nat) (b : list ascii) (offset : nat) : io_effect (result nat Errno)
| TruncateFd (fd length_ : nat) : io_effect (result unit Errno)
| FsyncFd (fd : nat) : io_effect (result unit Errno)
| ReadHeld (fd : nat) : io_effect (Source ReadError)
| StatPath (path : string) : io_effect (result Stat Errno)
| DeadlinePassed : io_effect bool
| OpenTempExcl (dir : nat) (leaf : string) : io_effect (result nat Errno)
| MkdirAt (dir : nat) (leaf : string) : io_effect (result unit Errno)
| FstatatNofollow (dir : nat) (leaf : string) : io_effect (result Stat Errno)
| RemoveAt (dir : nat) (leaf : string) (directory : bool) : io_effect (result unit Errno)
| OpenMutationDirectoryAt (dir : nat) (leaf : string) : io_effect (result nat Errno)
| OpenDirAt (dir : nat) (name : string) : io_effect (result nat Errno)
| OpenDirHandle (dir : nat) : io_effect (result (list (result Dirent Errno)) Errno).

Local Notation prog := (Programs.prog io_effect).

(** ** Mutations ([mutation.rs]) *)

Inductive EffectState := NoEffect | SApplied | SPartial | DurabilityUnknown.
#[export] Instance EffectState_eq_dec : EqDecision EffectState.
Proof. solve_decision. Defined.
Record MutationFailure := mkFailure { mf_state : EffectState; mf_at : string; mf_source : IoError }.

(** A failure, or the fuel of the write loop. *)
Inductive stall := Failed (f : MutationFailure) | Stalled.
Local Notation io_result A := (result A stall).

Definition failure (at_ : string) (state : EffectState) (source : IoError) : stall :=
  Failed (mkFailure state at_ source).
Definition no_effect (path : string) (e : IoError) : stall := failure path NoEffect e.

(** [map_err] after a system call. *)
Definition sys {A E X} (e : io_effect (result X Errno)) (path : string) (wrap : IoError -> E)
    (k : X -> prog (result A E)) : prog (result A E) :=
  let# r := e in
  match r with Ok x => k x | Err e => Ret (Err (wrap (io_error e path))) end.
Definition map_err {A E F} (f : E -> F) (p : prog (result A E)) : prog (result A F) :=
  let* r := p in Ret match r with Ok a => Ok a | Err e => Err (f e) end.

Record FileVersion := mkVersion {
  fv_dev : Z; fv_ino : Z; fv_size : Z; fv_mtime : Z; fv_mtime_nsec : Z; fv_ctime : Z; fv_ctime_nsec : Z }.
#[export] Instance FileVersion_eq_dec : EqDecision FileVersion.
Proof. solve_decision. Defined.

Definition version_of (s : Stat) : FileVersion :=
  mkVersion (st_dev s) (st_ino s) (st_size s) (st_mtime s) (st_mtime_nsec s) (st_ctime s) (st_ctime_nsec s).
(** [as u64] and [as i64]. *)
Definition as_u64 (z : Z) : Z := (z mod u64_max)%Z.
Definition as_i64 (z : Z) : Z := let u := (z mod u64_max)%Z in if (u <? 2 ^ 63)%Z then u else (u - u64_max)%Z.

Definition version_from_key (k : Version) : FileVersion :=
  mkVersion (as_u64 (nth 0 k 0%Z)) (as_u64 (nth 1 k 0%Z)) (nth 2 k 0%Z) (nth 3 k 0%Z) (nth 4 k 0%Z) (nth 5 k 0%Z)
    (nth 6 k 0%Z).
Definition version_same_content (a b : FileVersion) : bool :=
  ((fv_dev a =? fv_dev b) && (fv_ino a =? fv_ino b) && (fv_size a =? fv_size b) && (fv_mtime a =? fv_mtime b)
   && (fv_mtime_nsec a =? fv_mtime_nsec b))%Z.
Definition version_key (v : FileVersion) : Version :=
  [as_i64 (fv_dev v); as_i64 (fv_ino v); fv_size v; fv_mtime v; fv_mtime_nsec v; fv_ctime v; fv_ctime_nsec v].

Definition valid_leaf (leaf : string) : bool :=
  negb (is_empty leaf) && negb (String.eqb leaf ".") && negb (String.eqb leaf "..")
  && negb (contains_char slash leaf) && negb (contains_char nul leaf) && (str_len leaf <=? 4096)%Z.

Definition io_checked_path (path : string) : result unit IoError :=
  if negb (utf8_valid path) then Err (NonUtf8Component path)
  else if negb (starts_with "/" path) || (4096 <? str_len path)%Z || contains_char nul path
  then Err (InvalidMutationPath path) else Ok tt.

Definition io_same_path (actual expected : string) : result unit IoError :=
  if same_path actual expected then Ok tt else Err (MutationPathChanged expected).
Definition same_object (a b : Stat) : bool := ((st_dev a =? st_dev b) && (st_ino a =? st_ino b))%Z.

(** ** Held files *)

(** The write loop from [offset]: [written] is what is at its front already. *)
Fixpoint replace_bytes (fuel : nat) (fd : nat) (path : string) (check : prog (result unit IoError))
    (offset : nat) (rest : list ascii) : prog (io_result unit) :=
  let state := if offset =? 0 then NoEffect else SPartial in
  match fuel with
  | O => Ret (Err Stalled)
  | S fuel' =>
      match rest with
      | [] =>
          let*? _ := map_err (failure path state) check in
          sys (TruncateFd fd offset) path (failure path state) (fun _ =>
          sys (FsyncFd fd) path (failure path DurabilityUnknown) (fun _ => Ret (Ok tt)))
      | _ =>
          let*? _ := map_err (failure path state) check in
          let# count := WriteAt fd rest offset in
          match count with
          | Err EINTR => replace_bytes fuel' fd path check offset rest
          | Err e => Ret (Err (failure path state (io_error e path)))
          | Ok O => Ret (Err (failure path state (io_error EIO path)))
          | Ok count => replace_bytes fuel' fd path check (offset + count) (drop count rest)
          end
      end
  end.

Definition pin (held : nat) (expected : string) (required : TargetRequired) : prog (io_result Stat) :=
  let*? _ := Ret (match io_checked_path expected with Ok _ => Ok tt | Err e => Err (no_effect expected e) end) in
  sys (FStat held) expected (no_effect expected) (fun pinned =>
  Ret match check_target pinned expected required with Ok _ => Ok pinned | Err e => Err (no_effect expected e) end).

Definition reopen_failure (e : Errno) (expected : string) : stall :=
  failure expected NoEffect match e with ENOENT => MutationPathChanged expected | _ => io_error e expected end.

Definition bound_to (fd : nat) (pinned : Stat) (expected : string) (required : TargetRequired)
  : prog (result unit IoError) :=
  sys (FStat fd) expected id (fun st =>
  let*? _ := Ret (check_target st expected required) in
  if negb (same_object st pinned) then Ret (Err (MutationPathChanged expected))
  else sys (FdPath fd) expected id (fun actual => Ret (io_same_path actual expected))).

Inductive WriteBase := BaseAny | BaseUnread | BaseVersion (v : FileVersion).

Definition replace_held_file (fuel : nat) (held : nat) (expected : string) (b : list ascii) (base : WriteBase)
  : prog (io_result (option FileVersion)) :=
  let*? pinned := pin held expected SINGLE_LINK_REGULAR in
  let# reopened := ReopenWritable held expected in
  match reopened with
  | Err e => Ret (Err (reopen_failure e expected))
  | Ok fd =>
      let check := bound_to fd pinned expected SINGLE_LINK_REGULAR in
      let stale := no_effect expected (StaleBase expected) in
      let*? _ :=
        match base with
        | BaseAny => Ret (Ok tt)
        | BaseUnread => let*? _ := map_err (no_effect expected) check in Ret (Err stale)
        | BaseVersion v =>
            let*? _ := map_err (no_effect expected) check in
            sys (FStat fd) expected (no_effect expected) (fun st =>
            Ret (if version_same_content (version_of st) v then Ok tt else Err stale))
        end in
      let*? _ := replace_bytes fuel fd expected check 0 b in
      let# st := FStat fd in
      Ret (Ok match st with Ok st => Some (version_of st) | Err _ => None end)
  end.

(** A page and the version of the file it was read from. *)
Definition read_held_page (held : nat) (expected : string) (w : PageRequest) (cap : nat)
  : prog (io_result (Page * FileVersion)) :=
  let*? pinned := pin held expected SINGLE_LINK_REGULAR in
  let# reopened := ReopenReadable held expected in
  match reopened with
  | Err e => Ret (Err (reopen_failure e expected))
  | Ok fd =>
      let*? _ := map_err (no_effect expected) (bound_to fd pinned expected SINGLE_LINK_REGULAR) in
      sys (FStat fd) expected (no_effect expected) (fun before =>
      let# reader := ReadHeld fd in
      match read_page reader w cap with
      | Err RTimedOut => Ret (Err (no_effect expected (DeadlineElapsed expected)))
      | Err (RErrno e) => Ret (Err (no_effect expected (io_error e expected)))
      | Ok page =>
          sys (FStat fd) expected (no_effect expected) (fun after =>
          if bool_decide (version_of before = version_of after) then Ret (Ok (page, version_of before))
          else Ret (Err (no_effect expected (MutationPathChanged expected))))
      end)
  end.

(** ** Held directories *)

Record MutationDirectory := mkDirectory {
  md_fd : nat; md_path : string; md_required : MutationRequired; md_device : Z; md_deadline : bool }.

Definition check_root (path : string) : prog (result unit IoError) :=
  let*? _ := Ret (io_checked_path path) in
  sys (StatPath path) path id (fun st =>
  Ret (if negb (file_type st =? S_IFDIR)%Z then Err (io_error ENOTDIR path) else Ok tt)).

Definition ensure_directory (fd : nat) (path : string) : prog (result Stat IoError) :=
  sys (FStat fd) path id (fun st =>
  Ret (if negb (file_type st =? S_IFDIR)%Z then Err (io_error ENOTDIR path)
       else if (st_nlink st =? 0)%Z then Err (MutationPathChanged path)
       else Ok st)).

(** A path's components, its root the first; [strip_prefix] is by components. *)
Definition path_components (s : string) : list string :=
  let '(absolute, parts) := path_parts s in if absolute then "/" :: parts else parts.
Definition beneath (root path : string) : bool :=
  let r := path_components root in bool_decide (take (length r) (path_components path) = r).

Record DelegatedRequired := mkDelegatedReq {
  dr_confined_beneath : string; dr_root_required : AnchorRequired; dr_target : TargetRequired }.
Definition directory_requirements (req : MutationRequired) : DelegatedRequired :=
  mkDelegatedReq (mr_confined_beneath req) (mr_root_required req) (mkTargetReq None None false false None).

Definition verify_delegated (fd : nat) (req : DelegatedRequired) : prog (result string IoError) :=
  let root := dr_confined_beneath req in
  let# path := FdPath fd in
  match path with
  | Err e => Ret (Err (FdPathUnavailable (kind_of e)))
  | Ok path =>
      sys (StatPath root) root id (fun root_st =>
      let*? _ := Ret (check_owner_mode root_st root (ar_owner (dr_root_required req))
                        (ar_mode_mask (dr_root_required req))) in
      if negb (beneath root path) then Ret (Err (EscapesAnchor path))
      else
        sys (FStat fd) path id (fun st =>
        let*? _ := Ret (check_target st path (dr_target req)) in
        Ret (Ok path)))
  end.

Definition verify_mutation_directory (fd : nat) (required : MutationRequired)
  : prog (result MutationDirectory IoError) :=
  let*? _ := check_root (mr_confined_beneath required) in
  let*? path := verify_delegated fd (directory_requirements required) in
  let*? _ := Ret (io_checked_path path) in
  let*? st := ensure_directory fd path in
  Ret (Ok (mkDirectory fd path required (st_dev st) false)).

Definition with_deadline (d : MutationDirectory) : MutationDirectory :=
  mkDirectory (md_fd d) (md_path d) (md_required d) (md_device d) true.

Definition check_deadline (d : MutationDirectory) (path : string) : prog (io_result unit) :=
  if md_deadline d then
    let# passed := DeadlinePassed in
    Ret (if passed : bool then Err (failure path NoEffect (DeadlineElapsed path)) else Ok tt)
  else Ret (Ok tt).

Definition reverify (d : MutationDirectory) (expected : string) : prog (result unit IoError) :=
  let*? _ := Ret (io_same_path (md_path d) expected) in
  let*? _ := check_root (mr_confined_beneath (md_required d)) in
  let*? actual := verify_delegated (md_fd d) (directory_requirements (md_required d)) in
  let*? _ := Ret (io_same_path actual expected) in
  let*? _ := ensure_directory (md_fd d) expected in
  Ret (Ok tt).

Definition child_path (d : MutationDirectory) (leaf : string) : prog (result string IoError) :=
  if negb (valid_leaf leaf) then Ret (Err (InvalidMutationPath (md_path d)))
  else
    let path := push (md_path d) leaf in
    let*? _ := Ret (io_checked_path path) in
    let*? _ := reverify d (md_path d) in
    Ret (Ok path).

(** What [create_exclusive] checks before each write of the new file. *)
Definition created_check (d : MutationDirectory) (fd : nat) (path : string) : prog (result unit IoError) :=
  let*? _ := reverify d (md_path d) in
  sys (FdPath fd) path id (fun actual => Ret (io_same_path actual path)).

Definition create_exclusive (fuel : nat) (d : MutationDirectory) (leaf : string) (b : list ascii)
  : prog (io_result (string * option FileVersion)) :=
  let*? path := map_err (no_effect (md_path d)) (child_path d leaf) in
  let*? _ := check_deadline d path in
  sys (OpenTempExcl (md_fd d) leaf) path (failure path NoEffect) (fun fd =>
  let* result_ := replace_bytes fuel fd path (created_check d fd path) 0 b in
  match result_ with
  | Err (Failed e) =>
      Ret (Err (Failed (mkFailure (if bool_decide (mf_state e = NoEffect) then SPartial else mf_state e)
                          (mf_at e) (mf_source e))))
  | Err Stalled => Ret (Err Stalled)
  | Ok _ =>
      let# st := FStat fd in
      Ret (Ok (path, match st with Ok st => Some (version_of st) | Err _ => None end))
  end).

Definition mkdir_one (d : MutationDirectory) (leaf : string) : prog (io_result string) :=
  let*? path := map_err (no_effect (md_path d)) (child_path d leaf) in
  let*? _ := check_deadline d path in
  sys (MkdirAt (md_fd d) leaf) path (failure path NoEffect) (fun _ => Ret (Ok path)).

Definition remove_entry (d : MutationDirectory) (leaf : string) : prog (io_result string) :=
  let*? path := map_err (no_effect (md_path d)) (child_path d leaf) in
  sys (FstatatNofollow (md_fd d) leaf) path (failure path NoEffect) (fun st =>
  let directory := (file_type st =? S_IFDIR)%Z in
  let*? _ := map_err (no_effect path) (reverify d (md_path d)) in
  let*? _ := check_deadline d path in
  sys (RemoveAt (md_fd d) leaf directory) path (failure path NoEffect) (fun _ => Ret (Ok path))).

Definition open_child_directory (d : MutationDirectory) (leaf : string) : prog (result MutationDirectory IoError) :=
  let*? path := child_path d leaf in
  let# opened := OpenMutationDirectoryAt (md_fd d) leaf in
  match opened with
  | Err ENOTDIR => let# st := FstatatNofollow (md_fd d) leaf in Ret (Err (map_errno ENOTDIR path st))
  | Err e => Ret (Err (map_errno e path (Err e)))
  | Ok fd =>
      let*? child := verify_mutation_directory fd (md_required d) in
      let child := mkDirectory (md_fd child) (md_path child) (md_required child) (md_device child) (md_deadline d) in
      let*? _ := Ret (io_same_path (md_path child) path) in
      Ret (if negb (md_device child =? md_device d)%Z then Err (DifferentFilesystem path) else Ok child)
  end.

Record DirectoryCursor := mkCursor { dc_directory : MutationDirectory; dc_entries : list (result Dirent Errno) }.

Definition cursor (d : MutationDirectory) : prog (result DirectoryCursor IoError) :=
  let*? _ := reverify d (md_path d) in
  sys (OpenDirAt (md_fd d) ".") (md_path d) id (fun fd =>
  let*? directory := verify_mutation_directory fd (md_required d) in
  let*? _ := Ret (io_same_path (md_path directory) (md_path d)) in
  sys (OpenDirHandle (md_fd directory)) (md_path d) id (fun entries => Ret (Ok (mkCursor directory entries)))).

Definition kind_of_mode (mode : Z) : Kind :=
  let fmt := Z.land mode S_IFMT in
  if (fmt =? S_IFREG)%Z then KFile else if (fmt =? S_IFDIR)%Z then KDir
  else if (fmt =? S_IFLNK)%Z then KSymlink else KOtherKind.

Definition classify_entry (ty : option Kind) (dir : nat) (raw : string) (expected_ino : Z)
  : prog (result Kind Errno) :=
  match ty with
  | Some k => Ret (Ok k)
  | None =>
      let# st := FstatatNofollow dir raw in
      match st with
      | Err e => Ret (Err e)
      | Ok st => Ret (if negb (st_ino st =? expected_ino)%Z then Err ESTALE else Ok (kind_of_mode (st_mode st)))
      end
  end.

(** Over the entries still to come; [.] and [..] are passed by. *)
Fixpoint next_of (d : MutationDirectory) (entries : list (result Dirent Errno))
  : prog (result (option Entry * list (result Dirent Errno)) IoError) :=
  match entries with
  | [] => Ret (Ok (None, []))
  | Err e :: _ => Ret (Err (io_error e (md_path d)))
  | Ok entry :: rest =>
      let name := de_name entry in
      if negb (utf8_valid name) then Ret (Err (NonUtf8Component (push (md_path d) name)))
      else if String.eqb name "." || String.eqb name ".." then next_of d rest
      else
        let*? _ := child_path d name in
        let*? kind := map_err (fun e => io_error e (md_path d))
                        (classify_entry (de_type entry) (md_fd d) name (de_ino entry)) in
        Ret (Ok (Some (mkEntry name kind (de_ino entry)), rest))
  end.
Definition next_entry (c : DirectoryCursor) : prog (result (option Entry * DirectoryCursor) IoError) :=
  let*? _ := reverify (dc_directory c) (md_path (dc_directory c)) in
  let*? (name, rest) := next_of (dc_directory c) (dc_entries c) in
  Ret (Ok (name, mkCursor (dc_directory c) rest)).
