(* ===== verification/HeldTheorems.v ===== *)
(** * What a replacement of a held file does

    The world is the file: its bytes, its version, and the descriptor a reopen or a creation
    returned. Nobody else writes it. A successful replacement leaves exactly the new bytes; one that
    reports no effect had none; and it touches the file only on the base it was given. *)
From stdpp Require Import base list strings gmap.
From Stdlib Require Import ZArith Lia Ascii.
From S2P Require Import Prelude Programs RustStr RustSlice Seam Config PathGlob AuthzPolicy Wire Handler.
From S2P Require Import MutationExchange Effects Mutation Agent Page HeldIo.
Open Scope nat_scope.

Local Notation prog := (Programs.prog io_effect).
Local Notation event := (Programs.event io_effect).

(** ** The file *)

(** The descriptor it was opened through, and whether that created it. *)
Record File := mkFile { fl_bytes : list ascii; fl_version : FileVersion; fl_fd : option (bool * nat) }.
Definition fl_created (w : File) : bool := match fl_fd w with Some (created, _) => created | None => false end.

Definition zero : ascii := ascii_of_nat 0.
(** [s] written at [off] of [c]; a gap is zeroes. *)
Definition overlay (off : nat) (s c : list ascii) : list ascii :=
  take off (c ++ replicate off zero) ++ s ++ drop (off + length s) c.
Definition resize_to (n : nat) (c : list ascii) : list ascii := take n (c ++ replicate n zero).

(** What an answered call does to the file: a write puts a front of its bytes in place, a
    failed call changes nothing, a stat of the reopened descriptor tells its version. *)
Definition file_acts (w : File) (ev : event) (w' : File) : Prop :=
  match ev_effect ev in io_effect X return X -> Prop with
  | WriteAt _ b off => fun x =>
      match x with
      | Ok n => n <= length b /\ fl_fd w' = fl_fd w /\
          (n = 0 /\ w' = w \/ 1 <= n /\ fl_bytes w' = overlay off (take n b) (fl_bytes w))
      | Err _ => w' = w
      end
  | TruncateFd _ n => fun x =>
      match x with Ok _ => fl_fd w' = fl_fd w /\ fl_bytes w' = resize_to n (fl_bytes w) | Err _ => w' = w end
  | ReopenWritable _ _ => fun x =>
      match x with Ok fd => w' = mkFile (fl_bytes w) (fl_version w) (Some (false, fd)) | Err _ => w' = w end
  | OpenTempExcl _ _ => fun x =>
      match x with Ok fd => fl_bytes w' = [] /\ fl_fd w' = Some (true, fd) | Err _ => w' = w end
  | FStat fd => fun x =>
      w' = w /\ match x with Ok st => snd <$> fl_fd w = Some fd -> version_of st = fl_version w | Err _ => True end
  | _ => fun _ => w' = w
  end (ev_answer ev).

Local Notation keeps := (Programs.keeps file_acts (fun _ => True)).

(** A program that leaves the file alone. *)
Definition still {A} (p : prog A) : Prop := forall w, keeps p (fun _ w' => w' = w) w.

Lemma still_ret {A} (a : A) : still (Ret a).
Proof. by intros w. Qed.
Lemma still_try {A B E} (p : prog (result A E)) (f : A -> prog (result B E)) :
  still p -> (forall a, still (f a)) -> still (try_bind p f).
Proof.
  intros Hp Hf w. apply keeps_try. eapply keeps_mono; [done| |apply Hp]. intros [a|e] w' ->; [apply Hf|done].
Qed.
Lemma still_map_err {A E F} (f : E -> F) (p : prog (result A E)) : still p -> still (map_err f p).
Proof. intros Hp w. apply keeps_bind. eapply keeps_mono; [done| |apply Hp]. by intros a w' ->. Qed.

Definition quiet_call {X} (e : io_effect X) : Prop :=
  forall w x w', file_acts w (Ev _ e x) w' -> w' = w.
Lemma still_sys {A E X} (e : io_effect (result X Errno)) path (wrap : IoError -> E) (k : X -> prog (result A E)) :
  quiet_call e -> (forall x, still (k x)) -> still (sys e path wrap k).
Proof. intros He Hk w x w' Ha. split; [done|]. apply He in Ha as ->. destruct x; [apply Hk|done]. Qed.

Lemma quiet_stat fd : quiet_call (FStat fd).
Proof. by intros w x w' [-> _]. Qed.
Lemma quiet_path fd : quiet_call (FdPath fd).
Proof. by intros w x w' ->. Qed.

Lemma pin_still held path req : still (pin held path req).
Proof.
  apply still_try; [apply still_ret|]. intros _. apply still_sys; [apply quiet_stat|]. intros st. apply still_ret.
Qed.
Lemma bound_still fd pinned path req : still (bound_to fd pinned path req).
Proof.
  apply still_sys; [apply quiet_stat|]. intros st. apply still_try; [apply still_ret|]. intros _.
  destruct (negb _); [apply still_ret|]. apply still_sys; [apply quiet_path|]. intros; apply still_ret.
Qed.

(** ** The write loop *)

Lemma overlay_split off s c : off <= length c -> overlay off s c = (take off c ++ s) ++ drop (off + length s) c.
Proof. intros Ho. unfold overlay. by rewrite (take_app_le c), <-app_assoc. Qed.
Lemma overlay_front off s c : off <= length c -> take (off + length s) (overlay off s c) = take off c ++ s.
Proof.
  intros Ho. rewrite overlay_split by done. apply take_app_length'. rewrite length_app, length_take. lia.
Qed.
Lemma overlay_length off s c : off <= length c -> off + length s <= length (overlay off s c).
Proof. intros Ho. rewrite overlay_split, !length_app, length_take by done. lia. Qed.

(** From [offset], with the front of the file already written. *)
Definition replaced (b : list ascii) (c0 : list ascii) (r : result unit stall) (w' : File) : Prop :=
  match r with
  | Ok _ => fl_bytes w' = b
  | Err (HeldIo.Failed f) =>
      match mf_state f with
      | NoEffect => fl_bytes w' = c0
      | DurabilityUnknown => fl_bytes w' = b
      | SPartial | SApplied => True
      end
  | Err Stalled => True
  end.

Lemma replace_bytes_keeps fuel fd path check (Hch : still check) : forall offset rest b c0 w,
  take offset (fl_bytes w) ++ rest = b -> offset <= length (fl_bytes w) -> (offset = 0 -> fl_bytes w = c0) ->
  keeps (replace_bytes fuel fd path check offset rest) (fun r w' => replaced b c0 r w' /\ fl_fd w' = fl_fd w) w.
Proof.
  induction fuel as [|fuel IH]; intros offset rest b c0 w Hb Ho H0; cbn [replace_bytes]; [done|].
  set (state := if offset =? 0 then NoEffect else SPartial).
  assert (forall e, replaced b c0 (Err (failure path state e)) w) as Hfail.
  { intros e. unfold state. destruct (offset =? 0) eqn:E; cbn; [|done]. apply Nat.eqb_eq in E. by apply H0. }
  assert (forall k, keeps k (fun r w' => replaced b c0 r w' /\ fl_fd w' = fl_fd w) w ->
    keeps (try_bind (map_err (failure path state) check) (fun _ => k)) (fun r w' => replaced b c0 r w' /\ fl_fd w' = fl_fd w) w) as Hcheck.
  { intros k Hk. apply keeps_try, keeps_bind. eapply keeps_mono; [done| |apply Hch]. intros [u|e] w' ->; [done|]. by split; [apply Hfail|]. }
  destruct rest as [|b0 rest0]; apply Hcheck.
  - intros x w1 Ha. split; [done|]. destruct x as [u|e]; cbn in Ha; [|subst w1; by split; [apply Hfail|]].
    destruct Ha as [Hfd Ha]. intros y w2 Hy. split; [done|]. cbn in Hy. subst w2.
    assert (fl_bytes w1 = b) as Hd.
    { rewrite Ha. unfold resize_to. rewrite take_app_le by done. by rewrite app_nil_r in Hb. }
    by destruct y; cbn.
  - intros x w1 Ha. split; [done|]. destruct x as [[|n]|e]; cbn in Ha.
    + destruct Ha as (_ & Hfd & [[_ ->]|[H1 _]]); [by split; [apply Hfail|]|lia].
    + destruct Ha as (Hn & Hfd & [[? _]|[_ Ha]]); [done|].
      set (s := take (S n) (b0 :: rest0)) in *. assert (length s = S n) as Hs by (unfold s; rewrite length_take; cbn in *; lia).
      rewrite <-Hfd. apply IH.
      * assert (take (offset + S n) (fl_bytes w1) = take offset (fl_bytes w) ++ s) as ->
          by (change (b0 :: take n rest0) with s in Ha; rewrite Ha, <-Hs; by apply overlay_front).
        rewrite <-app_assoc. unfold s. by rewrite take_drop.
      * change (b0 :: take n rest0) with s in Ha. rewrite Ha. rewrite <-Hs. by apply overlay_length.
      * lia.
    + subst w1. destruct e; try (by split; [apply Hfail|]). by apply IH.
Qed.

(** ** Interruptions *)

Definition is_interrupt (ev : event) : bool :=
  match ev_effect ev in io_effect X return X -> bool with
  | WriteAt _ _ _ => fun x => match x with Err EINTR => true | _ => false end
  | _ => fun _ => false
  end (ev_answer ev).
Definition interrupts (tr : list event) : nat := length (List.filter is_interrupt tr).

Lemma interrupts_app l l' : interrupts (l ++ l') = interrupts l + interrupts l'.
Proof. unfold interrupts. by rewrite List.filter_app, length_app. Qed.
Lemma interrupts_rev tr : interrupts (rev tr) = interrupts tr.
Proof. induction tr as [|ev tr IH]; [done|]. cbn [rev]. rewrite interrupts_app, IH. change (ev :: tr) with ([ev] ++ tr). rewrite interrupts_app. lia. Qed.

Local Notation wp := (Programs.wp (fun _ _ => True)).

Lemma wp_grows {A} (p : prog A) h : wp p (fun _ h' => interrupts h <= interrupts h') h.
Proof.
  revert h. induction p as [a|X e k IH]; intros h; [cbn; lia|]. intros x. split; [done|]. eapply wp_mono; [|apply IH].
  intros a h' H. change (Ev X e x :: h) with ([Ev X e x] ++ h) in H. rewrite interrupts_app in H. lia.
Qed.

(** Out of fuel only after more interruptions than it had fuel to spare. *)
Lemma stalled_interrupts fuel fd path check : forall offset rest h,
  wp (replace_bytes fuel fd path check offset rest)
    (fun r h' => r = Err Stalled -> fuel + interrupts h <= length rest + interrupts h') h.
Proof.
  induction fuel as [|fuel IH]; intros offset rest h; cbn [replace_bytes]; [cbn; lia|].
  destruct rest as [|b0 rest0]; apply wp_try, wp_bind; (eapply wp_mono; [|apply wp_grows]); intros [u|e] h1 H1; try (by intros [=]).
  - intros x. split; [done|]. destruct x; [|by intros [=]]. intros y. split; [done|]. destruct y; by intros [=].
  - intros x. split; [done|]. set (ev := Ev _ _ x).
    assert (interrupts (ev :: h1) = (if is_interrupt ev then 1 else 0) + interrupts h1) as Hev.
    { unfold interrupts. cbn [List.filter]. by destruct (is_interrupt ev). }
    destruct x as [[|n]|e]; [by intros [=]|..].
    + eapply wp_mono; [|apply IH]. intros r h' H Hr. specialize (H Hr). rewrite Hev in H. cbn in H.
      rewrite length_drop in H. cbn [length] in *. lia.
    + destruct e; try (by intros [=]). eapply wp_mono; [|apply IH]. intros r h' H Hr. specialize (H Hr). rewrite Hev in H. cbn in *. lia.
Qed.

(** ** Replacing a held file *)

(** What the base asks of the file's version. *)
Definition base_met (base : WriteBase) (v : FileVersion) : Prop :=
  match base with
  | BaseAny => True
  | BaseUnread => False
  | BaseVersion b => version_same_content v b = true
  end.

Definition replace_end (b : list ascii) (base : WriteBase) (w : File) (r : result (option FileVersion) stall) (w' : File) : Prop :=
  (fl_bytes w' <> fl_bytes w -> base_met base (fl_version w)) /\
  match r with
  | Ok v => fl_bytes w' = b /\ base_met base (fl_version w) /\ forall ver, v = Some ver -> ver = fl_version w'
  | Err (HeldIo.Failed f) => mf_state f = NoEffect -> fl_bytes w' = fl_bytes w
  | Err Stalled => True
  end.

Lemma replace_end_none b base w w' e : fl_bytes w' = fl_bytes w -> replace_end b base w (Err e) w'.
Proof. intros H. split; [done|]. by destruct e. Qed.

Lemma replace_met b base w w1 fd fuel expected check (Hch : still check) :
  w1 = mkFile (fl_bytes w) (fl_version w) (Some (false, fd)) -> base_met base (fl_version w) ->
  keeps (let*? _ := replace_bytes fuel fd expected check 0 b in
         let# st := FStat fd in
         Ret (Ok match st with Ok st => Some (version_of st) | Err _ => None end)) (replace_end b base w) w1.
Proof.
  intros -> Hm. apply keeps_try. eapply keeps_mono; [done| |apply (replace_bytes_keeps _ _ _ _ Hch 0 b b (fl_bytes w)); [done|lia|done]].
  intros [u|[f|]] w2 [Hr Hfd]; cbn in Hr, Hfd.
  - intros x w3 [-> Hx]. split; [done|]. split; [done|]. split_and!; [done|done|]. destruct x as [st|]; [|done].
    intros ver [= <-]. apply Hx. by rewrite Hfd.
  - split; [done|]. intros Hn. by rewrite Hn in Hr.
  - by split.
Qed.

(** A part that leaves the file alone and fails only without effect. *)
Definition unharmed {A} (r : result A stall) : Prop :=
  match r with Ok _ => True | Err (HeldIo.Failed f) => mf_state f = NoEffect | Err Stalled => False end.
Definition clean {A} (p : prog (result A stall)) : Prop := forall w, keeps p (fun r w' => w' = w /\ unharmed r) w.

Lemma clean_ret {A} (r : result A stall) : unharmed r -> clean (Ret r).
Proof. by intros H w. Qed.
Lemma clean_map_err {A} path (p : prog (result A IoError)) : still p -> clean (map_err (no_effect path) p).
Proof. intros Hp w. apply keeps_bind. eapply keeps_mono; [done| |apply Hp]. by intros [a|e] w' ->. Qed.
Lemma clean_sys {A X} (e : io_effect (result X Errno)) path (k : X -> prog (result A stall)) :
  quiet_call e -> (forall x, clean (k x)) -> clean (sys e path (no_effect path) k).
Proof. intros He Hk w x w' Ha. split; [done|]. apply He in Ha as ->. destruct x; [apply Hk|done]. Qed.
Lemma clean_try {A B} (p : prog (result A stall)) (f : A -> prog (result B stall)) :
  clean p -> (forall a, clean (f a)) -> clean (try_bind p f).
Proof.
  intros Hp Hf w. apply keeps_try. eapply keeps_mono; [done| |apply Hp]. intros [a|[e|]] w' [-> H]; [apply Hf|done..].
Qed.

Lemma pin_clean held path req : clean (pin held path req).
Proof.
  apply clean_try; [apply clean_ret; by destruct (io_checked_path path)|]. intros _.
  apply clean_sys; [apply quiet_stat|]. intros st. apply clean_ret. by destruct (check_target _ _ _).
Qed.

(** After a clean part that failed, nothing happened. *)
Lemma keeps_clean {A} b base w w1 (p : prog (result A stall)) (k : A -> prog (result (option FileVersion) stall)) :
  fl_bytes w1 = fl_bytes w -> clean p -> (forall a, keeps (k a) (replace_end b base w) w1) ->
  keeps (try_bind p k) (replace_end b base w) w1.
Proof.
  intros Hw Hp Hk. apply keeps_try. eapply keeps_mono; [done| |apply Hp].
  intros [a|[f|]] w' [-> H]; [apply Hk|..]; by apply replace_end_none.
Qed.

Lemma replace_held_keeps fuel held expected b base w :
  keeps (replace_held_file fuel held expected b base) (replace_end b base w) w.
Proof.
  apply keeps_clean; [done|apply pin_clean|]. intros pinned x w1 Ha. split; [done|]. destruct x as [fd|e]; cbn in Ha.
  2: { subst w1. by apply replace_end_none. }
  set (check := bound_to fd pinned expected SINGLE_LINK_REGULAR).
  assert (still check) as Hch by apply bound_still.
  assert (fl_bytes w1 = fl_bytes w) as Hw1 by (by subst w1).
  apply keeps_try. destruct base as [| |v].
  - by apply replace_met.
  - apply keeps_try. eapply keeps_mono; [done| |apply (clean_map_err expected check Hch)].
    intros [u|[f|]] w' [-> H]; by apply replace_end_none.
  - apply keeps_try. eapply keeps_mono; [done| |apply (clean_map_err expected check Hch)].
    intros [u|[f|]] w' [-> H]; [|by apply replace_end_none..]. intros x w2 [-> Hx]. split; [done|].
    destruct x as [st|]; [|by apply replace_end_none]. cbn. destruct (version_same_content (version_of st) v) eqn:E.
    + apply replace_met; [done|done|]. cbn. subst w1. specialize (Hx eq_refl). cbn in Hx. by rewrite <-Hx.
    + by apply replace_end_none.
Qed.

(** ** Creating a file *)

Lemma still_vis {A X} (e : io_effect X) (k : X -> prog A) : quiet_call e -> (forall x, still (k x)) -> still (Vis e k).
Proof. intros He Hk w x w' Ha. split; [done|]. apply He in Ha as ->. apply Hk. Qed.
Lemma quiet_stat_path path : quiet_call (StatPath path).
Proof. by intros w x w' ->. Qed.
#[local] Hint Resolve quiet_stat quiet_path quiet_stat_path still_ret : core.

Lemma verify_delegated_still fd req : still (verify_delegated fd req).
Proof.
  apply still_vis; [done|]. intros [path|e]; [|done]. apply still_sys; [done|]. intros st. apply still_try; [done|]. intros _.
  destruct (negb _); [done|]. apply still_sys; [done|]. intros st'. by apply still_try.
Qed.
Lemma check_root_still path : still (check_root path).
Proof. apply still_try; [done|]. intros _. by apply still_sys. Qed.
Lemma ensure_directory_still fd path : still (ensure_directory fd path).
Proof. by apply still_sys. Qed.
#[local] Hint Resolve verify_delegated_still check_root_still ensure_directory_still : core.

Lemma verify_directory_still fd req : still (verify_mutation_directory fd req).
Proof.
  apply still_try; [done|]. intros _. apply still_try; [done|]. intros path. apply still_try; [done|]. intros _. by apply still_try.
Qed.
Lemma reverify_still d expected : still (reverify d expected).
Proof.
  apply still_try; [done|]. intros _. apply still_try; [done|]. intros _. apply still_try; [done|]. intros actual.
  apply still_try; [done|]. intros _. by apply still_try.
Qed.
#[local] Hint Resolve reverify_still : core.
Lemma child_path_still d leaf : still (child_path d leaf).
Proof. unfold child_path. destruct (negb _); [done|]. apply still_try; [done|]. intros _. by apply still_try. Qed.
Lemma created_check_still d fd path : still (created_check d fd path).
Proof. apply still_try; [done|]. intros _. by apply still_sys. Qed.

(** A new file holds the bytes, or the failure says it may not; a failure without effect
    made none. *)
Definition create_end (b : list ascii) (w : File) (r : result (string * option FileVersion) stall) (w' : File) : Prop :=
  (w' = w \/ fl_created w' = true) /\
  match r with
  | Ok (_, v) => fl_bytes w' = b /\ forall ver, v = Some ver -> ver = fl_version w'
  | Err (HeldIo.Failed f) => mf_state f = NoEffect -> w' = w
  | Err Stalled => True
  end.

Lemma create_exclusive_keeps fuel d leaf b w : keeps (create_exclusive fuel d leaf b) (create_end b w) w.
Proof.
  assert (forall e, create_end b w (Err e) w) as Hnone by (intros e; split; [by left|by destruct e]).
  apply keeps_try, keeps_bind. eapply keeps_mono; [done| |apply child_path_still]. intros [path|e] w' ->; [|apply Hnone].
  apply keeps_try. eapply keeps_mono with (I := fun _ => True) (Q := fun _ w' => w' = w); [done|..].
  2: { unfold check_deadline. destruct (md_deadline d); [|done]. by intros x w' ->. }
  intros [u|e] w' ->; [|apply Hnone]. intros x w1 Ha. split; [done|]. destruct x as [fd|e]; cbn in Ha; [|subst w1; apply Hnone].
  destruct Ha as [Hb Hfd]. apply keeps_bind.
  eapply keeps_mono; [done| |apply (replace_bytes_keeps fuel fd path _ (created_check_still d fd path) 0 b b []); [done|lia|done]].
  assert (forall w2, fl_fd w2 = fl_fd w1 -> fl_created w2 = true) as Hc by (intros w2 H; unfold fl_created; by rewrite H, Hfd).
  intros [u'|[f|]] w2 [Hr H2]; specialize (Hc w2 H2).
  - intros st w3 [-> Hst]. split; [done|]. split; [by right|]. split; [done|]. destruct st as [st|]; [|done].
    intros ver [= <-]. apply Hst. by rewrite H2, Hfd.
  - split; [by right|]. cbn. case_bool_decide as E; [done|]. by intros H.
  - split; [by right|done].
Qed.

(** ** Stale bases *)

Definition fresh (e : IoError) : Prop := match e with StaleBase _ => False | _ => True end.

Lemma io_error_fresh e path : fresh (map_errno_no_disambiguation e path).
Proof. by destruct e. Qed.
Lemma check_target_fresh st path req e : check_target st path req = Err e -> fresh e.
Proof.
  unfold check_target, check_owner_mode. intros H. repeat (case_match; simplify_eq/=; try done).
Qed.
Lemma bound_fresh fd pinned path req : fails fresh (bound_to fd pinned path req).
Proof.
  intros [st|e]; [|apply io_error_fresh]. cbn. destruct (check_target st path req) as [[]|e] eqn:E.
  2: { by apply check_target_fresh in E. }
  cbn. destruct (negb _); [done|]. intros [p|e]; [|apply io_error_fresh]. cbn. unfold io_same_path. by destruct (same_path _ _).
Qed.

(** A failure over a stale base had no effect. *)
Definition stale_harmless (e : stall) : Prop :=
  match e with HeldIo.Failed f => fresh (mf_source f) \/ mf_state f = NoEffect | Stalled => True end.

Lemma replace_bytes_harmless fuel fd path check : fails fresh check -> forall offset rest,
  fails stale_harmless (replace_bytes fuel fd path check offset rest).
Proof.
  intros Hc. induction fuel as [|fuel IH]; intros offset rest; cbn [replace_bytes]; [done|].
  assert (forall st, fails stale_harmless (map_err (failure path st) check)) as Hcheck.
  { intros st. eapply returns_bind; [exact Hc|]. intros [u|e] He; [done|]. by left. }
  destruct rest as [|b0 rest0]; (apply fails_try; [apply Hcheck|]); intros _.
  - intros [u|e]; [|left; apply io_error_fresh]. intros [u'|e]; [done|left; apply io_error_fresh].
  - intros [[|n]|e]; [left; apply io_error_fresh|apply IH|]. destruct e; try (left; apply io_error_fresh). apply IH.
Qed.

Lemma replace_held_harmless fuel held expected b base :
  fails stale_harmless (replace_held_file fuel held expected b base).
Proof.
  assert (forall A (p : prog (result A IoError)), fails stale_harmless (map_err (no_effect expected) p)) as Hne.
  { intros A p. eapply returns_bind with (P := fun _ => True); [by induction p; cbn|]. intros [a|e] _; [done|]. by right. }
  apply fails_try.
  { unfold pin. destruct (io_checked_path expected); cbn; [|by right]. intros [st|e]; cbn; [|by right].
    destruct (check_target _ _ _); [done|by right]. }
  intros pinned [fd|e]; [|right; done]. apply fails_try.
  { destruct base as [| |v]; [done|..]; (apply fails_try; [apply Hne|]); intros _; [by right|].
    intros [st|e]; cbn; [|by right]. destruct (version_same_content _ _); [done|by right]. }
  intros _. apply fails_try; [apply replace_bytes_harmless, bound_fresh|]. intros _ st. done.
Qed.

(** ** The fuel *)

Lemma wp_returns {A} (P : A -> Prop) (p : prog A) h : returns P p -> wp p (fun a h' => P a /\ interrupts h <= interrupts h') h.
Proof.
  revert h. induction p as [a|X e k IH]; intros h Hp; [by split; [|cbn; lia]|]. intros x. split; [done|].
  eapply wp_mono; [|apply IH, Hp]. intros a h' [Ha H]. split; [done|].
  change (Ev X e x :: h) with ([Ev X e x] ++ h) in H. rewrite interrupts_app in H. lia.
Qed.

Definition unstalled {A} (r : result A stall) : Prop := r <> Err Stalled.
Lemma unstalled_map_err {A} f (p : prog (result A IoError)) : (forall e, f e <> Stalled) -> returns unstalled (map_err f p).
Proof.
  intros Hf. apply returns_bind with (P := fun _ => True); [by induction p; cbn|]. intros [a|e] _; [by intros [=]|].
  intros [= H]. by destruct (Hf e).
Qed.

Lemma wp_unstalled {A B} (p : prog (result A stall)) (k : A -> prog (result B stall)) n h :
  returns unstalled p ->
  (forall a h', interrupts h <= interrupts h' ->
     wp (k a) (fun r h'' => r = Err Stalled -> n + interrupts h <= interrupts h'') h') ->
  wp (try_bind p k) (fun r h' => r = Err Stalled -> n + interrupts h <= interrupts h') h.
Proof.
  intros Hp Hk. apply wp_try. eapply wp_mono; [|by apply wp_returns]. intros [a|[f|]] h' [Hs Hi]; [by apply Hk|by intros [=]|done].
Qed.

Lemma pin_unstalled held path req : returns unstalled (pin held path req).
Proof.
  unfold pin. destruct (io_checked_path path); cbn; [|by intros [=]]. intros [st|e]; cbn; [|by intros [=]].
  destruct (check_target _ _ _); by intros [=].
Qed.

Lemma replace_held_stalled fuel held expected b base :
  wp (replace_held_file fuel held expected b base)
    (fun r h' => r = Err Stalled -> fuel <= length b + interrupts h') [].
Proof.
  eapply wp_mono with (Q := fun r h' => r = Err Stalled -> (fuel - length b) + interrupts [] <= interrupts h').
  { intros r h' H Hr. specialize (H Hr). lia. }
  apply wp_unstalled; [apply pin_unstalled|]. intros pinned h1 H1 x. split; [done|].
  set (ev := Ev _ _ x). assert (interrupts h1 <= interrupts (ev :: h1)) as Hev.
  { change (ev :: h1) with ([ev] ++ h1). rewrite interrupts_app. lia. }
  destruct x as [fd|e]; [|by intros [=]]. apply wp_try.
  set (base_check := match base with BaseAny => _ | _ => _ end).
  assert (returns unstalled base_check) as Hb.
  { unfold base_check. destruct base as [| |v]; [by intros [=]|..].
    all: eapply returns_bind; [by apply (unstalled_map_err (no_effect expected))|].
    all: intros [u|f] Hf; [|intros [= ->]; by destruct Hf]. { by intros [=]. }
    cbn. intros [st|e]; cbn; [|by intros [=]]. destruct (version_same_content _ _); by intros [=]. }
  eapply wp_mono; [|by apply wp_returns]. intros [u|f] h2 [Hu H2]; [|intros [= ->]; by destruct Hu].
  apply wp_try. eapply wp_mono; [|apply stalled_interrupts]. intros [v|f] h3 H3.
  - intros y. split; [done|]. by intros [=].
  - intros [= ->]. specialize (H3 eq_refl). change (interrupts []) with 0. lia.
Qed.

(** ** Theorems *)

(** a replacement leaves the bytes it was given, or reports what it left. With nobody
    else writing, and whatever the system calls answer: on success the file holds exactly
    the new bytes and the version returned is its own; a failure that reports no effect had
    none; the file is touched only when it is the version the base names (same device,
    inode, size and mtime), and never when the base is [Unread]; and the loop runs out of
    fuel only after as many interrupted writes as it has fuel beyond one per byte. *)
Theorem replacement_exact (fuel held : nat) (expected : string) (b : list ascii) (base : WriteBase) (w w' : File)
    (tr : list event) (r : result (option FileVersion) stall)
    (Hr : runs (replace_held_file fuel held expected b base) tr r) (Hw : reaches file_acts w tr w') :
  (fl_bytes w' <> fl_bytes w -> base_met base (fl_version w)) /\
  match r with
  | Ok v => fl_bytes w' = b /\ base_met base (fl_version w) /\ forall ver, v = Some ver -> ver = fl_version w'
  | Err (HeldIo.Failed f) => mf_state f = NoEffect -> fl_bytes w' = fl_bytes w
  | Err Stalled => fuel <= length b + interrupts tr
  end.
Proof.
  pose proof (keeps_runs _ _ _ _ _ _ _ _ (replace_held_keeps fuel held expected b base w) Hr Hw) as [H1 H2].
  split; [exact H1|]. destruct r as [v|[f|]]; [exact H2..|].
  pose proof (wp_runs _ _ _ _ _ _ (replace_held_stalled fuel held expected b base) Hr eq_refl) as H.
  by rewrite app_nil_r, interrupts_rev in H.
Qed.

Definition held_stat (size : Z) : Stat := mkStat 1 2 S_IFREG 1 0 size 7 0 7 0.
Definition replacement_trace : list event :=
  [Ev _ (FStat 3) (Ok (held_stat 3)); Ev _ (ReopenWritable 3 "/f") (Ok 4)]
  ++ [Ev _ (FStat 4) (Ok (held_stat 3)); Ev _ (FdPath 4) (Ok "/f"); Ev _ (FStat 4) (Ok (held_stat 3))]
  ++ [Ev _ (FStat 4) (Ok (held_stat 3)); Ev _ (FdPath 4) (Ok "/f");
      Ev _ (WriteAt 4 ["h"%char; "i"%char] 0) (Ok 2)]
  ++ [Ev _ (FStat 4) (Ok (held_stat 3)); Ev _ (FdPath 4) (Ok "/f");
      Ev _ (TruncateFd 4 2) (Ok tt); Ev _ (FsyncFd 4) (Ok tt); Ev _ (FStat 4) (Ok (held_stat 2))].

Lemma replacement_exact_witness :
  exists w' (r : result (option FileVersion) stall),
    reaches file_acts (mkFile (String.list_ascii_of_string "old") (version_of (held_stat 3)) None) replacement_trace w' /\
    r = Ok (Some (version_of (held_stat 2))) /\ fl_bytes w' = String.list_ascii_of_string "hi".
Proof.
  set (w0 := mkFile (String.list_ascii_of_string "old") (version_of (held_stat 3)) None).
  set (w1 := mkFile (String.list_ascii_of_string "old") (version_of (held_stat 3)) (Some (false, 4))).
  set (w2 := mkFile (String.list_ascii_of_string "hid") (version_of (held_stat 3)) (Some (false, 4))).
  set (w3 := mkFile (String.list_ascii_of_string "hi") (version_of (held_stat 2)) (Some (false, 4))).
  assert (reaches file_acts w0 replacement_trace w3) as Hw.
  { eapply (reaches_cons _ _ _ w0); [done|]. eapply (reaches_cons _ _ _ w1); [done|].
    do 5 (eapply (reaches_cons _ _ _ w1); [done|]).
    eapply (reaches_cons _ _ _ w2); [split_and!; [cbn; lia|done|right; split; [lia|reflexivity]]|].
    do 2 (eapply (reaches_cons _ _ _ w2); [done|]).
    eapply (reaches_cons _ _ _ w3); [done|].
    do 2 (eapply (reaches_cons _ _ _ w3); [done|]). apply reaches_nil. }
  assert (runs (replace_held_file 4 3 "/f" (String.list_ascii_of_string "hi") (BaseVersion (version_of (held_stat 3))))
    replacement_trace (Ok (Some (version_of (held_stat 2))))) as Hr.
  { repeat (apply runs_vis || apply runs_ret). }
  exists w3, (Ok (Some (version_of (held_stat 2)))). split_and!; [done..|].
  exact (proj1 (proj2 (replacement_exact _ _ _ _ _ _ _ _ _ Hr Hw))).
Defined.
