(* ===== verification/AuditOpen.v ===== *)
(** * Opening the trail: [crates/maknae-io/src/audit_append.rs] and [sink.rs]

    The parent directory is pinned, the leaf opened or created in it, its inode and its last
    byte checked, file and directory synchronized. The system calls are effects; the text
    of a system error is the standard library's and a parameter. *)
From stdpp Require Import base list strings gmap.
From Stdlib Require Import ZArith Lia Ascii.
From S2P Require Import Prelude Programs RustStr RustSlice Seam Config GraphFormat HeldIo.
From S2P Require Import AuditScan AuditLine AuditGuard AuditMirror AuditSink.
Open Scope nat_scope.

(** [io::Error]: a system error, or one of a kind with a text. *)
Inductive OpenError :=
| OSys (e : Errno)
| OCheck (e : IoError)
| OInvalidInput (msg : string)
| OInvalidData (msg : string)
| OPermissionDenied (msg : string).
Definition is_not_found (e : OpenError) : bool := match e with OSys ENOENT => true | _ => false end.

Inductive AuditOpenKind := OpenExisting | CreateExclusive (mode : Z).

Inductive open_effect : Type -> Type :=
| AbsolutePath (path : string) : open_effect (result string Errno)
| OpenParentByPath (path : string) : open_effect (result nat Errno)
| OpenLeaf (parent : nat) (name : string) (kind : AuditOpenKind) : open_effect (result nat Errno)
| FStatAt (fd : nat) : open_effect (result Stat Errno)
| SeekLast (fd : nat) : open_effect (result unit Errno)
| ReadByte (fd : nat) : open_effect (result ascii Errno)
| FsyncAt (fd : nat) : open_effect (result unit Errno)
| IsAppendOnly (fd : nat) : open_effect (result bool Errno)
| GetEuid : open_effect Z.
Local Notation prog := (Programs.prog open_effect).
Local Notation opened A := (prog (result A OpenError)).

(** A system call and its error. *)
Definition call {X} (e : open_effect (result X Errno)) : opened X :=
  let# r := e in Ret match r with Ok x => Ok x | Err e => Err (OSys e) end.
Definition check (r : result unit IoError) : opened unit :=
  Ret match r with Ok _ => Ok tt | Err e => Err (OCheck e) end.

(** [Path::file_name] of an absolute path, and the path without it. *)
Definition leaf_name (absolute : string) : result string OpenError :=
  match last (comps absolute) with
  | Some ".." | None => Err (OInvalidInput "audit path has no file name")
  | Some name => Ok name
  end.
Definition parent_of (absolute : string) : string :=
  foldr (fun c rest => "/" +:+ c +:+ rest) "/" (removelast (comps absolute)).

Definition pin_parent (path : string) (parent_required : AnchorRequired) : opened (nat * string) :=
  let*? absolute := call (AbsolutePath path) in
  let*? _ := Ret (leaf_name absolute) in
  let parent_path := parent_of absolute in
  let*? parent := call (OpenParentByPath parent_path) in
  let*? st := call (FStatAt parent) in
  let*? _ := check (check_owner_mode st parent_path (ar_owner parent_required) (ar_mode_mask parent_required)) in
  Ret (Ok (parent, absolute)).

(** The leaf: existing, else created exclusively, else existing after a lost race. *)
Definition open_or_create (parent : nat) (name : string) (create_mode : option Z) : opened nat :=
  let# existing := OpenLeaf parent name OpenExisting in
  match existing, create_mode with
  | Ok fd, _ => Ret (Ok fd)
  | Err ENOENT, Some mode =>
      let# created := OpenLeaf parent name (CreateExclusive mode) in
      match created with
      | Ok fd => Ret (Ok fd)
      | Err EEXIST => call (OpenLeaf parent name OpenExisting)
      | Err e => Ret (Err (OSys e))
      end
  | Err e, _ => Ret (Err (OSys e))
  end.

Definition TORN_TEXT : string := "audit file has a torn terminal JSONL line; recovery required".

Definition open_pinned (parent : nat) (name path : string) (required : TargetRequired) (create_mode : option Z)
  : opened nat :=
  let*? file := open_or_create parent name create_mode in
  let*? st := call (FStatAt file) in
  let*? _ := check (check_target st path required) in
  let*? _ :=
    if (0 <? st_size st)%Z then
      let*? _ := call (SeekLast file) in
      let*? byte := call (ReadByte file) in
      Ret (if is_lf byte then Ok tt else Err (OInvalidData TORN_TEXT))
    else Ret (Ok tt) in
  let*? _ := call (FsyncAt file) in
  let*? _ := call (FsyncAt parent) in
  Ret (Ok file).

Definition open_audit_append (path : string) (parent_required : AnchorRequired) (target_required : TargetRequired)
    (create_mode : Z) : opened nat :=
  let*? (parent, absolute) := pin_parent path parent_required in
  let*? name := Ret (leaf_name absolute) in
  open_pinned parent name absolute target_required (Some create_mode).

Definition open_existing_audit_append (path : string) (parent_required : AnchorRequired)
    (target_required : TargetRequired) (require_append_only : bool) : opened nat :=
  let*? (parent, absolute) := pin_parent path parent_required in
  let*? name := Ret (leaf_name absolute) in
  let*? file := open_pinned parent name absolute target_required None in
  if require_append_only then
    let*? only := call (IsAppendOnly file) in
    Ret (if only : bool then Ok file
         else Err (OPermissionDenied (absolute +:+ " is not append-only; prepare it with chattr +a (Linux) or chflags sappnd (macOS) as root")))
  else Ret (Ok file).

(** ** [sink.rs] *)

Inductive Trail := CreateIfMissing | ExistingTrail | PreparedTrail.

Definition trail_target (euid : Z) (single_link : bool) : TargetRequired :=
  mkTargetReq (Some euid) (Some 31%Z) single_link true None.
Definition TRAIL_MODE : Z := 416.

Definition open_trail_under (path : string) (parent : AnchorRequired) (trail : Trail) : opened nat :=
  let# euid := GetEuid in
  match trail with
  | CreateIfMissing => open_audit_append path parent (trail_target euid false) TRAIL_MODE
  | ExistingTrail => open_existing_audit_append path parent (trail_target euid false) false
  | PreparedTrail => open_existing_audit_append path parent (trail_target euid true) true
  end.

Section Errors.
Context (errno_text : Errno -> string).

Definition open_error_text (e : OpenError) : string :=
  match e with
  | OSys e => errno_text e
  | OCheck e => io_error_text e
  | OInvalidInput m | OInvalidData m | OPermissionDenied m => m
  end.

Definition open_audit_file (path : string) (trail : Trail) : prog (result nat AuditError) :=
  let creates := match trail with CreateIfMissing => true | _ => false end in
  let* opened := open_trail_under path OS_DAC trail in
  Ret match opened with
      | Ok fd => Ok fd
      | Err e => if is_not_found e && negb creates then Err (MissingTrail path)
                 else Err (OpenPrimary path (open_error_text e))
      end.
End Errors.

(** ** What an opening establishes *)

Lemma runs_try {A B} (p : opened A) (f : A -> opened B) tr r : runs (try_bind p f) tr r ->
  (exists e, r = Err e /\ runs p tr (Err e)) \/
  (exists a tr1 tr2, tr = tr1 ++ tr2 /\ runs p tr1 (Ok a) /\ runs (f a) tr2 r).
Proof.
  intros H. apply runs_bind in H as (tr1 & tr2 & [a|e] & -> & H1 & H2); [right; by exists a, tr1, tr2|left].
  apply runs_inv in H2 as [-> ->]. exists e. by rewrite app_nil_r.
Qed.

Lemma runs_call {X} (e : open_effect (result X Errno)) tr r : runs (call e) tr r ->
  exists x, tr = [Ev _ e x] /\ r = match x with Ok x => Ok x | Err e => Err (OSys e) end.
Proof. intros H. apply runs_inv in H as (x & tr' & -> & H). apply runs_inv in H as [-> ->]. by exists x. Qed.

(** The file is not created here. *)
Definition creates (ev : Programs.event open_effect) : bool :=
  match ev_effect ev with OpenLeaf _ _ (CreateExclusive _) => true | _ => false end.

(** What was found of the file behind [fd]: its inode as required, no torn last line, and both
    the file and its name durable. *)
Record admitted (required : TargetRequired) (fd : nat) (tr : list (Programs.event open_effect)) : Prop := {
  ad_stat : exists st path, Ev _ (FStatAt fd) (Ok st) ∈ tr /\ check_target st path required = Ok tt /\
    ((st_size st <= 0)%Z \/ Ev _ (ReadByte fd) (Ok lf) ∈ tr);
  ad_synced : Ev _ (FsyncAt fd) (Ok tt) ∈ tr;
  ad_named : exists parent, Ev _ (FsyncAt parent) (Ok tt) ∈ tr }.

Lemma admitted_app required fd tr1 tr tr2 : admitted required fd tr -> admitted required fd (tr1 ++ tr ++ tr2).
Proof.
  intros [(st & path & H1 & H2 & H3) H4 (p & H5)].
  assert (Hin : forall ev, ev ∈ tr -> ev ∈ tr1 ++ tr ++ tr2) by (intros ev ?; rewrite !elem_of_app; by right; left).
  constructor; [exists st, path; split_and!; naive_solver|auto|exists p; auto].
Qed.

Lemma runs_check (r : result unit IoError) tr x : runs (check r) tr (Ok x) -> tr = [] /\ r = Ok tt.
Proof. intros H. apply runs_inv in H as [-> H]. destruct r as [[]|]; [by split|done]. Qed.

Lemma runs_call_Ok {X} (e : open_effect (result X Errno)) tr x : runs (call e) tr (Ok x) -> tr = [Ev _ e (Ok x)].
Proof. intros H. apply runs_call in H as ([y|] & -> & H); [|done]. by injection H as ->. Qed.

Lemma open_pinned_admits parent name path required mode tr fd :
  runs (open_pinned parent name path required mode) tr (Ok fd) -> admitted required fd tr.
Proof.
  intros H. unfold open_pinned in H.
  apply runs_try in H as [(? & ? & _)|(file & tr1 & tr2 & -> & _ & H)]; [done|].
  apply runs_try in H as [(? & ? & _)|(st & tr3 & tr4 & -> & Hst & H)]; [done|]. apply runs_call_Ok in Hst as ->.
  apply runs_try in H as [(? & ? & _)|([] & tr5 & tr6 & -> & Hck & H)]; [done|]. apply runs_check in Hck as [-> Hck].
  apply runs_try in H as [(? & ? & _)|([] & tr7 & tr8 & -> & Hlast & H)]; [done|].
  apply runs_try in H as [(? & ? & _)|([] & tr9 & tr10 & -> & Hs1 & H)]; [done|]. apply runs_call_Ok in Hs1 as ->.
  apply runs_try in H as [(? & ? & _)|([] & tr11 & tr12 & -> & Hs2 & H)]; [done|]. apply runs_call_Ok in Hs2 as ->.
  apply runs_inv in H as [-> E]. injection E as ->. constructor.
  - exists st, path. split_and!; [set_solver|done|]. destruct (Z.ltb_spec 0 (st_size st)) as [Hsz|Hsz]; [right|by left].
    apply runs_try in Hlast as [(? & ? & _)|([] & a1 & a2 & -> & _ & H)]; [done|].
    apply runs_try in H as [(? & ? & _)|(byte & b1 & b2 & -> & Hb & H)]; [done|]. apply runs_call_Ok in Hb as ->.
    apply runs_inv in H as [-> E]. destruct (is_lf byte) eqn:El; [|done]. apply is_lf_spec in El as ->. set_solver.
  - set_solver.
  - exists parent. set_solver.
Qed.

(** No run of a program creates. *)
Definition never_creates {A} (p : prog A) : Prop := forall tr a, runs p tr a -> existsb creates tr = false.

Lemma never_creates_try {A B} (p : opened A) (f : A -> opened B) :
  never_creates p -> (forall a, never_creates (f a)) -> never_creates (try_bind p f).
Proof.
  intros Hp Hf tr r H. apply runs_try in H as [(e & _ & H)|(a & tr1 & tr2 & -> & H1 & H2)]; [by eapply Hp|].
  rewrite existsb_app, (Hp _ _ H1), (Hf _ _ _ H2). done.
Qed.
Lemma never_creates_ret {A} (a : A) : never_creates (Ret a).
Proof. intros tr b H. by apply runs_inv in H as [-> _]. Qed.
Lemma never_creates_call {X} (e : open_effect (result X Errno)) :
  (forall x, creates (Ev _ e x) = false) -> never_creates (call e).
Proof. intros He tr r H. apply runs_call in H as (x & -> & _). cbn. by rewrite He. Qed.

Lemma open_existing_leaf parent name : never_creates (open_or_create parent name None).
Proof.
  intros tr r H. apply runs_inv in H as (x & tr' & -> & H). destruct x as [fd|[]]; by apply runs_inv in H as [-> _].
Qed.

Ltac no_create :=
  repeat first
    [ apply never_creates_try; [|intros ?] | apply never_creates_ret | apply open_existing_leaf
    | (apply never_creates_call; by intros ?) | case_match ].

Lemma open_existing_never_creates path parent required flag :
  never_creates (open_existing_audit_append path parent required flag).
Proof.
  unfold open_existing_audit_append, pin_parent, open_pinned, check. no_create.
Qed.

Lemma admitted_cons required fd ev tr : admitted required fd tr -> admitted required fd (ev :: tr).
Proof. intros H. apply (admitted_app _ _ [ev] _ []) in H. by rewrite app_nil_r in H. Qed.

Lemma open_existing_admits path parent required flag tr fd :
  runs (open_existing_audit_append path parent required flag) tr (Ok fd) ->
  admitted required fd tr /\ (flag = true -> Ev _ (IsAppendOnly fd) (Ok true) ∈ tr).
Proof.
  intros H. unfold open_existing_audit_append in H.
  apply runs_try in H as [(? & ? & _)|([pfd absolute] & a1 & a2 & -> & _ & H)]; [done|].
  apply runs_try in H as [(? & ? & _)|(name & b1 & b2 & -> & _ & H)]; [done|].
  apply runs_try in H as [(? & ? & _)|(file & c1 & c2 & -> & Hp & H)]; [done|]. apply open_pinned_admits in Hp.
  destruct flag.
  - apply runs_try in H as [(? & ? & _)|(only & d1 & d2 & -> & Ho & H)]; [done|]. apply runs_call_Ok in Ho as ->.
    apply runs_inv in H as [-> E]. destruct only; [|done]. injection E as ->. split; [|set_solver].
    apply (admitted_app _ _ (a1 ++ b1) _ [Ev _ (IsAppendOnly file) (Ok true)]) in Hp. by rewrite <-app_assoc in Hp.
  - apply runs_inv in H as [-> E]. injection E as ->. split; [|done].
    apply (admitted_app _ _ (a1 ++ b1) _ []) in Hp. by rewrite <-app_assoc in Hp.
Qed.

(** Opening the trail: only a trail that may be missing is ever created; a descriptor is
    returned only for a regular file of the daemon's own, closed to others, whose last line
    is whole, once the file and its name are durable; a prepared trail also has one link and
    carries the append-only flag. *)
Theorem open_trail_admits (errno_text : Errno -> string) (path : string) (trail : Trail) tr r :
  runs (open_audit_file errno_text path trail) tr r ->
  (trail <> CreateIfMissing -> existsb creates tr = false) /\
  (forall fd, r = Ok fd ->
   exists euid, admitted (trail_target euid (match trail with PreparedTrail => true | _ => false end)) fd tr /\
     (trail = PreparedTrail -> Ev _ (IsAppendOnly fd) (Ok true) ∈ tr)).
Proof.
  intros H. unfold open_audit_file in H. apply runs_bind in H as (tr0 & ? & o & -> & H & Hret).
  apply runs_inv in Hret as [-> ->]. rewrite app_nil_r.
  unfold open_trail_under in H. apply runs_inv in H as (euid & tr1 & -> & H). split.
  - intros Hne. cbn. destruct trail; [done|..]; by eapply open_existing_never_creates.
  - intros fd Hfd. destruct o as [fd'|e]; [|by destruct (is_not_found e && _)]. injection Hfd as ->. exists euid.
    destruct trail.
    + unfold open_audit_append in H.
      apply runs_try in H as [(? & ? & _)|([parent absolute] & a1 & a2 & -> & _ & H)]; [done|].
      apply runs_try in H as [(? & ? & _)|(name & b1 & b2 & -> & Hn & H)]; [done|].
      apply open_pinned_admits in H. split; [|done].
      apply admitted_cons.
      apply (admitted_app _ _ (a1 ++ b1) _ []) in H. rewrite app_nil_r in H. by rewrite <-app_assoc in H.
    + destruct (open_existing_admits _ _ _ _ _ _ H) as [H1 _]. split; [|done]. by apply admitted_cons.
    + destruct (open_existing_admits _ _ _ _ _ _ H) as [H1 H2]. split; [by apply admitted_cons|].
      intros _. right. by apply H2.
Qed.
