(* ===== verification/AuditTheorems.v ===== *)
(** * The audit trail end to end

    What the sink keeps of its file over any interleaving of appends, what of it a crash
    leaves and an opening admits, and what the lookup of the rollback anchor finds in it. *)
From stdpp Require Import base list strings gmap.
From Stdlib Require Import ZArith Lia Ascii.
From S2P Require Import Prelude Programs RustStr RustSlice Seam Config Json GraphFormat Anchor Store StoreWorld.
From S2P Require Import Identity AuditRecords AuditScan AuditLine AuditGuard AuditMirror AuditSink AuditTrail.
Open Scope nat_scope.

(** ** Lines *)

Section Lines.
Context {json_string : string -> string} {json_float : Z -> string} `{!JsonText json_string json_float}.
Local Notation record_text := (record_text json_string json_float).
Local Notation line_bytes := (line_bytes json_string json_float).

Lemma control_free_no_lf s : control_free s -> no_lf (str_bytes s).
Proof.
  unfold control_free, str_bytes. induction s as [|c s IH]; intros H; [by intros ?%elem_of_nil|]. cbn in *.
  apply andb_true_iff in H as [Hc Hs]. intros [E|E]%elem_of_cons; [by subst c|by apply IH].
Qed.

Lemma record_text_no_lf t : no_lf (str_bytes (record_text t)).
Proof. apply control_free_no_lf, write_canonical_clean. Qed.

Lemma split_lf_cons a b : no_lf a -> split_lf (a ++ lf :: b) = a :: split_lf b.
Proof.
  intros Ha. induction a as [|c a IH]; [done|]. apply not_elem_of_cons in Ha as [Hc Ha]. cbn.
  destruct (is_lf c) eqn:E; [by apply is_lf_spec in E|]. by rewrite IH.
Qed.

Lemma split_lf_lines recs : split_lf (concat (map line_bytes recs)) = map (fun t => str_bytes (record_text t)) recs ++ [[]].
Proof.
  induction recs as [|t recs IH]; [done|]. cbn [map concat]. unfold AuditSink.line_bytes at 1.
  rewrite <-app_assoc. cbn [app]. rewrite split_lf_cons by apply record_text_no_lf. by rewrite IH.
Qed.

Lemma newest_find find ls seen : Forall (fun l => nonempty l = true) ls -> fst (newest find ls seen) = List.find find ls.
Proof.
  revert seen. induction ls as [|l ls IH]; intros seen H; [done|]. apply Forall_cons_1 in H as [Hl H].
  cbn [newest]. rewrite Hl. cbn [andb List.find]. destruct (find l) eqn:E; [by destruct ls|].
  destruct ls as [|l' ls]; [done|]. apply IH, H.
Qed.

(** The newest line of a trail of whole records. *)
Lemma newest_line_lines find recs :
  fst (newest_line find (concat (map line_bytes recs))) =
    List.find find (map (fun t => str_bytes (record_text t)) (rev recs)).
Proof.
  unfold newest_line. rewrite split_lf_lines, rev_app_distr. cbn [rev app newest].
  rewrite <-map_rev. destruct recs as [|t recs] using rev_ind; [done|]. rewrite rev_unit. cbn [map].
  apply (newest_find find (_ :: _)). apply (Forall_map (fun t => str_bytes (record_text t)) _ (t :: rev recs)).
  by apply Forall_true.
Qed.
End Lines.

(** ** The sink's trail *)

Section Trail.
Context (json_string : string -> string) (json_float : Z -> string).

(** The line of a call's record. *)
Definition call_line (w : SinkWorld) (i : nat) : bytes :=
  from_option (fun c => line_bytes json_string json_float (cl_record c)) [] (sw_calls w i).
Definition call_lines (w : SinkWorld) (ids : list nat) : bytes := concat (map (call_line w) ids).

(** What the file of a sink opened on [old] holds: the whole lines of the calls in
    [durable], in order, each once, known to be durable, every acknowledged call's among
    them; then, of one other call at most, the beginning of its line, while that call writes
    or once the sink refuses. *)
Record trail_state (old : bytes) (w : SinkWorld) (durable : list nat) (tail : bytes) : Prop := {
  ts_file : sw_file w = old ++ call_lines w durable ++ tail;
  ts_synced : length (old ++ call_lines w durable) <= sw_synced w <= length (sw_file w);
  ts_once : NoDup durable;
  ts_submitted : forall i, i ∈ durable -> sw_calls w i <> None;
  ts_torn : tail = [] \/ exists i, sw_calls w i <> None /\ i ∉ durable /\ tail `prefix_of` call_line w i;
  ts_refusing : tail <> [] -> sw_holder w = None -> sw_failed w = true \/ sw_poisoned w = true;
  ts_acknowledged : forall i c, sw_calls w i = Some c -> cl_run c = CReturned (Ok tt) -> i ∈ durable }.

Lemma call_line_worker w d i : calls_inv json_string json_float w d -> sw_workers w i <> None ->
  sw_calls w i <> None /\ call_line w i = worker_line w i.
Proof.
  intros Hc Hi. destruct (sw_workers w i) as [wk|] eqn:E; [|done].
  destruct (ci_worker _ _ _ _ Hc i wk E) as (c & Hci & Hl). unfold call_line, worker_line. rewrite Hci, E. by split.
Qed.

Lemma sink_inv_state old w d t : sink_inv json_string json_float old w d t -> trail_state old w d t.
Proof.
  intros [Ht Hc]. assert (HL : call_lines w d = lines_of w d).
  { unfold call_lines, lines_of. f_equal. apply map_ext_in. intros i Hi%list_elem_of_In.
    apply (call_line_worker w d i Hc). by apply (ti_known _ _ _ _ Ht). }
  constructor; rewrite ?HL; try apply Ht.
  - intros i Hi. apply (call_line_worker w d i Hc). by apply (ti_known _ _ _ _ Ht).
  - destruct (ti_torn _ _ _ _ Ht) as [->|(i & Hi & Hd & Hp)]; [by left|right]. exists i.
    destruct (call_line_worker w d i Hc Hi) as [H1 H2]. by rewrite H2.
  - intros Hne Hh. destruct (sw_failed w) eqn:Ef; [by left|]. destruct (sw_poisoned w) eqn:Ep; [by right|].
    by destruct Hne; apply (ti_free _ _ _ _ Ht).
  - intros i c Hi Hr. pose proof (ci_call _ _ _ _ Hc i c Hi) as H. rewrite Hr in H. auto.
Qed.

(** C14: The trail under any interleaving of appends: whoever is admitted, gives up or
    panics, and wherever a write stops or a synchronization fails, the file is what it was,
    then whole lines of submitted records, each once, all durable and every acknowledged one
    among them, then at most one torn line; later states only add lines at the end, and once
    the writer has failed the file never changes again. *)
Theorem trail_sound (busy_limit now : Z) (old : bytes) (w w' : SinkWorld) :
  sink_steps json_string json_float busy_limit (sink_opened old now) w ->
  sink_steps json_string json_float busy_limit w w' ->
  (exists durable tail durable' tail',
     trail_state old w durable tail /\ trail_state old w' durable' tail' /\ durable `prefix_of` durable') /\
  (sw_holder w = None -> sw_failed w = true \/ sw_poisoned w = true -> sw_file w' = sw_file w).
Proof.
  intros H1 H2.
  destruct (sink_steps_inv json_string json_float busy_limit old _ _ _ _ (sink_opened_inv _ _ old now) H1) as (d & t & Hi & _).
  destruct (sink_steps_inv json_string json_float busy_limit old _ _ _ _ Hi H2) as (d' & t' & Hi' & Hp).
  split; [exists d, t, d', t'; split_and!; try done; by apply sink_inv_state|].
  intros Hh Hr. eapply (frozen_steps json_string json_float busy_limit old (sw_file w)); [exact Hi| |done].
  split; [done|]. destruct Hr as [Hf|Hp']; [right; split; [done|by left]|by left].
Qed.
End Trail.

(** ** A crash, and the next opening *)

(** The file an opening admits: empty, or ending in a newline. *)
Definition whole (file : bytes) : Prop := file = [] \/ last file = Some lf.

Lemma prefix_of_line (text part : bytes) : no_lf text -> part `prefix_of` text ++ [lf] -> last part = Some lf ->
  part = text ++ [lf].
Proof.
  intros Hno [rest E] Hl. destruct rest as [|c rest] using rev_ind; [by rewrite app_nil_r in E|]. clear IHrest.
  rewrite app_assoc in E. apply app_inj_2 in E as [E _]; [|done]. exfalso. apply Hno. rewrite E.
  apply last_Some in Hl as [l ->]. rewrite <-app_assoc. apply elem_of_app. right. by constructor.
Qed.

Section Crash.
Context (json_string : string -> string) (json_float : Z -> string) `{!JsonText json_string json_float}.
Local Notation call_lines := (call_lines json_string json_float).

(** C15: A crash at any moment, which may lose what was not synchronized: the lines of
    every acknowledged append survive, and a file that the next opening admits is again made
    of whole lines of submitted records, each once. *)
Theorem trail_survives_crash (busy_limit now : Z) (old : bytes) (w : SinkWorld) (n : nat) :
  sink_steps json_string json_float busy_limit (sink_opened old now) w ->
  sw_synced w <= n <= length (sw_file w) ->
  exists durable,
    (forall i c, sw_calls w i = Some c -> cl_run c = CReturned (Ok tt) -> i ∈ durable) /\
    old ++ call_lines w durable `prefix_of` take n (sw_file w) /\
    (whole (take n (sw_file w)) ->
     exists kept, durable `prefix_of` kept /\ NoDup kept /\ (forall i, i ∈ kept -> sw_calls w i <> None) /\
       take n (sw_file w) = old ++ call_lines w kept).
Proof.
  intros Hs Hn.
  destruct (sink_steps_inv json_string json_float busy_limit old _ _ _ _ (sink_opened_inv _ _ old now) Hs) as (d & t & Hi & _).
  destruct (sink_inv_state _ _ _ _ _ _ Hi) as [Hf Hsy Hnd Hsub Htorn _ Hack]. exists d.
  assert (Htake : take n (sw_file w) = (old ++ call_lines w d) ++ take (n - length (old ++ call_lines w d)) t).
  { rewrite Hf, app_assoc, take_app. f_equal. apply take_ge. lia. }
  set (part := take _ t) in Htake. split_and!; [done|by rewrite Htake; apply prefix_app_r|].
  intros Hw. destruct part as [|c part'] eqn:Ep.
  { exists d. split_and!; try done. by rewrite Htake, app_nil_r. }
  destruct Htorn as [->|(i & Hci & Hid & Hp)]; [by unfold part in Ep; rewrite take_nil in Ep|].
  assert (Hlast : last (c :: part') = Some lf).
  { destruct Hw as [Hw|Hw]; rewrite Htake in Hw; [by apply app_eq_nil in Hw as [_ ?]|].
    by rewrite last_app_cons in Hw. }
  unfold call_line in Hp. destruct (sw_calls w i) as [ci|] eqn:Eci; [|done]. cbn in Hp.
  assert (Hline : c :: part' = line_bytes json_string json_float (cl_record ci)).
  { apply prefix_of_line; [apply record_text_no_lf| |done]. rewrite <-Ep. etrans; [|exact Hp].
    exists (drop (n - length (old ++ call_lines w d)) t). unfold part. by rewrite take_drop. }
  exists (d ++ [i]). split_and!.
  - by apply prefix_app_r.
  - apply list.NoDup_app. split_and!; [done| |apply NoDup_singleton]. intros x Hx ->%list_elem_of_singleton. done.
  - intros x [Hx|Hx]%elem_of_app; [auto|]. apply list_elem_of_singleton in Hx as ->. congruence.
  - rewrite Htake, Hline, <-app_assoc. f_equal. unfold AuditTheorems.call_lines. rewrite map_app, concat_app. f_equal.
    cbn. unfold call_line. by rewrite Eci, app_nil_r.
Qed.
End Crash.

(** ** The rollback anchor *)

Definition byte_string (l : bytes) : string := String.string_of_list_ascii l.

Section Anchor.
Context (from_slice : string -> option Json).

(** [production_scan]'s predicate, and what [last_checkpoint] of [run.rs] makes of its result. *)
Definition find_checkpoint (line : bytes) : bool := is_checkpoint from_slice (byte_string line).
Definition anchor_of (s : ScanResult) : option Checkpoint * nat :=
  (let! line := sc_line s in parse_checkpoint from_slice (byte_string line), sc_scanned_bytes s).

(** A reader of [file] behind the sink. *)
Definition reads_file (file : bytes) (ev : Programs.event read_effect) : Prop :=
  match ev_effect ev in read_effect X return X -> Prop with
  | LockForRead => fun _ => True
  | MetadataLen => fun answer => forall n, answer = Ok n -> n = length file
  | @OnScan X e => fun answer => reads file (Ev X e answer)
  end (ev_answer ev).

(** What makes a lookup fail: a poisoned writer, a file without a length, a failed read. *)
Definition read_failed (ev : Programs.event read_effect) : Prop :=
  match ev_effect ev in read_effect X return X -> Prop with
  | LockForRead => fun ok => ok = false
  | MetadataLen => fun answer => exists e, answer = Err e
  | @OnScan X e => fun answer => exists text, failed_with text (Ev X e answer)
  end (ev_answer ev).

Definition window_bytes (find : bytes -> bool) (file : bytes) : nat :=
  windows_for SCAN_WINDOW (length file) (snd (newest_line find file)).

Lemma sink_scan_back_exact find file tr r :
  Forall (reads_file file) tr -> runs (sink_scan_back find) tr r ->
  r = Ok (mkScan (fst (newest_line find file)) (window_bytes find file)) \/
  ((exists e, r = Err (ReadPrimary e)) /\ Exists read_failed tr).
Proof.
  intros Hf Hr. apply runs_inv in Hr as (ok & tr1 & -> & Hr). destruct ok; cbn [negb] in Hr.
  2:{ apply runs_inv in Hr as [-> ->]. right. split; [by eexists|by constructor]. }
  apply runs_inv in Hr as (len & tr2 & -> & Hr). apply Forall_cons_1 in Hf as [_ Hf].
  apply Forall_cons_1 in Hf as [Hlen Hf]. destruct len as [n|e].
  2:{ apply runs_inv in Hr as [-> ->]. right. split; [by eexists|]. apply Exists_cons_tl, Exists_cons_hd. by exists e. }
  cbn in Hlen. rewrite (Hlen n eq_refl) in Hr.
  apply runs_bind in Hr as (tr3 & tr4 & s & -> & Hr & Hret). apply runs_inv in Hret as [-> ->]. rewrite app_nil_r in *.
  apply runs_lift in Hr as (tr' & Hr & ->).
  assert (Hreads : Forall (reads file) tr').
  { rewrite Forall_map in Hf. eapply Forall_impl; [exact Hf|]. by intros [X e x]. }
  destruct (scan_back_exact find SCAN_WINDOW file tr' s) as [->|(e & -> & He)]; try done.
  { unfold SCAN_WINDOW. apply Nat.neq_0_lt_0, Nat.pow_nonzero. lia. }
  - by left.
  - right. split; [by eexists|]. apply Exists_cons_tl, Exists_cons_tl. apply Exists_fmap.
    eapply Exists_impl; [exact He|]. intros [X ev x] H. by exists e.
Qed.

Section Recs.
Context {json_string : string -> string} {json_float : Z -> string} `{!JsonText json_string json_float}.
Local Notation record_text := (record_text json_string json_float).

Lemma byte_string_text s : byte_string (str_bytes s) = s.
Proof. apply String.string_of_list_ascii_of_string. Qed.

(** Among records whose lines parse, the newest line found is that of the newest checkpoint. *)
Lemma find_checkpoint_text recs :
  (forall t, t ∈ recs -> from_slice (record_text t) = Some (sorted_json (to_value t))) ->
  (let! line := List.find find_checkpoint (map (fun t => str_bytes (record_text t)) recs) in
   parse_checkpoint from_slice (byte_string line)) = find_map trail_checkpoint recs.
Proof.
  induction recs as [|t recs IH]; intros Hp; [done|]. cbn [map List.find find_map].
  assert (E : parse_checkpoint from_slice (record_text t) = trail_checkpoint t).
  { unfold parse_checkpoint. rewrite (Hp t) by by constructor. apply checkpoint_of_sorted. }
  unfold find_checkpoint at 1, is_checkpoint. rewrite byte_string_text, E.
  destruct (trail_checkpoint t) as [c|] eqn:Ec.
  - rewrite (checkpoint_line_found t c Ec). cbn. by rewrite byte_string_text.
  - rewrite andb_false_r. apply IH. intros t' Ht'. apply Hp. by right.
Qed.
End Recs.
End Anchor.

Lemma find_map_map {A B} (f : A -> option B) l : find_map f l = find_map (fun o => o) (map f l).
Proof. induction l as [|x l IH]; [done|]. cbn. by destruct (f x). Qed.

Lemma map_boot_checkpoints c seqs trail : length seqs = length trail ->
  map trail_checkpoint (zip_with (boot_record c) seqs trail) = map record_checkpoint trail.
Proof.
  revert trail. induction seqs as [|s seqs IH]; intros [|g trail] Hl; try done. cbn [zip_with map]. injection Hl as Hl.
  by rewrite boot_record_checkpoint, IH.
Qed.

(** C16: The lookup of the rollback anchor: scanning a trail of whole records, through a
    reader that may answer short, finds the checkpoint of the newest record that carries one,
    and none if none does; it fails only with the reader. On the records a store appends this
    is the last checkpoint the store's own theorems speak of. *)
Theorem anchor_lookup_exact (json_string : string -> string) (json_float : Z -> string) (from_slice : string -> option Json)
    (recs : list TrailRecord) tr r :
  JsonText json_string json_float ->
  (forall t, t ∈ recs -> from_slice (record_text json_string json_float t) = Some (sorted_json (to_value t))) ->
  Forall (reads_file (concat (map (line_bytes json_string json_float) recs))) tr ->
  runs (sink_scan_back (find_checkpoint from_slice)) tr r ->
  match r with
  | Ok s =>
      fst (anchor_of from_slice s) = find_map trail_checkpoint (rev recs) /\
      (forall c seqs trail, recs = zip_with (boot_record c) seqs trail -> length seqs = length trail ->
       fst (anchor_of from_slice s) = last_checkpoint trail)
  | Err _ => Exists read_failed tr
  end.
Proof.
  intros Hj Hp Hf Hr. destruct (sink_scan_back_exact _ _ _ _ Hf Hr) as [->|[(e & ->) He]]; [|done].
  assert (E : fst (anchor_of from_slice (mkScan (fst (newest_line (find_checkpoint from_slice)
     (concat (map (line_bytes json_string json_float) recs)))) (window_bytes (find_checkpoint from_slice)
     (concat (map (line_bytes json_string json_float) recs))))) = find_map trail_checkpoint (rev recs)).
  { unfold anchor_of. cbn [fst sc_line]. rewrite newest_line_lines.
    refine (find_checkpoint_text (json_string := json_string) (json_float := json_float) from_slice (rev recs) _).
    intros t Ht. apply Hp. apply list_elem_of_In. apply list_elem_of_In in Ht. by apply in_rev. }
  split; [exact E|]. intros c seqs trail -> Hl. rewrite E. unfold last_checkpoint.
  by rewrite find_map_map, (find_map_map record_checkpoint), !map_rev, map_boot_checkpoints.
Qed.

(** ** A run *)

#[export] Instance demo_json_text : JsonText write_json_string demo_float.
Proof.
  constructor; [|done|].
  - intros s. unfold write_json_string. apply control_free_app. split; [done|]. apply control_free_app. split; [|done].
    induction s as [|c s IH]; [done|]. cbn [json_chars]. apply control_free_app. split; [|done].
    unfold json_char.
    destruct (Nat.eqb_spec (nat_of_ascii c) 34); [done|]. destruct (Nat.eqb_spec (nat_of_ascii c) 92); [done|].
    destruct (Nat.eqb_spec (nat_of_ascii c) 10); [done|]. destruct (Nat.eqb_spec (nat_of_ascii c) 13); [done|].
    destruct (Nat.eqb_spec (nat_of_ascii c) 9); [done|]. destruct (Nat.ltb_spec (nat_of_ascii c) 32).
    + apply control_free_app. split; [done|]. destruct c as [[] [] [] [] [] [] [] []]; try (cbn in *; lia); done.
    + unfold control_free. cbn. rewrite andb_true_r. apply byte_in_spec. pose proof (nat_ascii_bounded c). lia.
  - intros s H. unfold write_json_string. f_equal. f_equal. induction s as [|c s IH]; [done|]. cbn [all_bytes] in H.
    apply andb_true_iff in H as [Hc Hs]. cbn [json_chars]. rewrite (IH Hs). clear -Hc.
    by destruct c as [[] [] [] [] [] [] [] []].
Qed.

Lemma sink_steps_front json_string json_float busy_limit w w1 w2 :
  sink_step json_string json_float busy_limit w w1 -> sink_steps json_string json_float busy_limit w1 w2 ->
  sink_steps json_string json_float busy_limit w w2.
Proof. intros H H'. induction H' as [|w2 w3 _ IH Hs]; [by eapply sks_step; [apply sks_refl|]|by eapply sks_step]. Qed.

Lemma sink_steps_trans json_string json_float busy_limit w w1 w2 :
  sink_steps json_string json_float busy_limit w w1 -> sink_steps json_string json_float busy_limit w1 w2 ->
  sink_steps json_string json_float busy_limit w w2.
Proof. intros H H'. induction H' as [|w2 w3 _ IH Hs]; [done|by eapply sks_step]. Qed.

Section Live.
Context (json_string : string -> string) (json_float : Z -> string) (busy_limit : Z).
Local Notation sink_steps := (sink_steps json_string json_float busy_limit).
Local Notation append_inner := (append_inner json_string json_float).
Context (i : nat).

(** A worker at a stage of its write, in a sink in order. *)
Record working (wk : AppendWorker) (calls : nat -> option Call) (s : Stage) (w : SinkWorld) : Prop := {
  wo_worker : sw_workers w i = Some (at_stage wk s);
  wo_calls : sw_calls w = calls;
  wo_order : s = SStart \/ s = SLocked -> sw_failed w = false /\ sw_poisoned w = false;
  wo_free : s = SStart -> sw_holder w = None;
  wo_synced : sw_synced w <= length (sw_file w) }.

Lemma work_one wk calls s s' w {X} (e : work_effect X) k x w1 :
  working wk calls s w -> residual (aw_line wk) s = Vis e k -> work_acts i X w e x w1 ->
  k x = residual (aw_line wk) s' -> sw_workers w1 = sw_workers w -> sw_calls w1 = sw_calls w ->
  (s' = SLocked -> sw_failed w1 = false /\ sw_poisoned w1 = false) -> s' <> SStart ->
  sw_synced w1 <= length (sw_file w1) ->
  exists w2, sink_steps w w2 /\ working wk calls s' w2.
Proof.
  intros [H1 H2 _ _ _] Hr Hact Hk Hw Hc Ho Hs Hsy. exists (with_worker w1 i (at_stage wk s')). split.
  - eapply sks_step; [apply sks_refl|].
    replace (at_stage wk s') with (mkAppendWorker (aw_line (at_stage wk s)) (aw_attempt (at_stage wk s)) (WRunning (k x)))
      by by rewrite Hk.
    apply (ss_work _ _ _ w i (at_stage wk s) (Vis e k) (k x) w1 H1); [by unfold at_stage; rewrite <-Hr|].
    by exists x.
  - constructor; [apply with_worker_at|cbn; congruence|cbn; naive_solver..].
Qed.

Lemma write_line_completes wk calls w : working wk calls SStart w ->
  exists w', sink_steps w w' /\ working wk calls (SEnd (Ok tt)) w'.
Proof.
  intros H0. destruct (wo_order _ _ _ _ H0 ltac:(by left)) as [Hf Hp]. pose proof (wo_free _ _ _ _ H0 eq_refl) as Hh.
  assert (G1 : exists w1, sink_steps w w1 /\ working wk calls SLocked w1).
  { eapply (work_one wk calls SStart SLocked w _ _ true (with_lock w (sw_failed w) false (Some i))); try done; [|apply H0].
    cbn. by rewrite Hp. }
  destruct G1 as (w1 & S1 & H1). destruct (wo_order _ _ _ _ H1 ltac:(by right)) as [Hf1 _].
  assert (G2 : exists w2, sink_steps w1 w2 /\ working wk calls SFlag w2).
  { eapply (work_one wk calls SLocked SFlag w1 _ _ false w1); try done; apply H1. }
  destruct G2 as (w2 & S2 & H2).
  assert (G3 : exists w3, sink_steps w2 w3 /\ working wk calls SHold w3).
  { eapply (work_one wk calls SFlag SHold w2 _ _ tt); try done; apply H2. }
  destruct G3 as (w3 & S3 & H3).
  assert (G4 : exists w4, sink_steps w3 w4 /\ working wk calls SWrite w4).
  { eapply (work_one wk calls SHold SWrite w3 _ _ tt); try done; apply H3. }
  destruct G4 as (w4 & S4 & H4).
  assert (G5 : exists w5, sink_steps w4 w5 /\ working wk calls SSync w5).
  { eapply (work_one wk calls SWrite SSync w4 _ _ (Ok tt) (with_file w4 (sw_file w4 ++ aw_line wk) (sw_synced w4))); try done.
    - by exists (aw_line wk).
    - cbn. rewrite length_app. pose proof (wo_synced _ _ _ _ H4). lia. }
  destruct G5 as (w5 & S5 & H5).
  assert (G6 : exists w6, sink_steps w5 w6 /\ working wk calls SClear w6).
  { eapply (work_one wk calls SSync SClear w5 _ _ (Ok tt) (with_file w5 (sw_file w5) (length (sw_file w5)))); try done.
    exists (length (sw_file w5)). split_and!; [apply H5|done..]. }
  destruct G6 as (w6 & S6 & H6).
  assert (G7 : exists w7, sink_steps w6 w7 /\ working wk calls (SClose (Ok tt)) w7).
  { eapply (work_one wk calls SClear (SClose (Ok tt)) w6 _ _ tt); try done; apply H6. }
  destruct G7 as (w7 & S7 & H7).
  assert (G8 : exists w8, sink_steps w7 w8 /\ working wk calls (SUnlock (Ok tt)) w8).
  { eapply (work_one wk calls (SClose (Ok tt)) (SUnlock (Ok tt)) w7 _ _ tt); try done; apply H7. }
  destruct G8 as (w8 & S8 & H8).
  assert (G9 : exists w9, sink_steps w8 w9 /\ working wk calls (SEnd (Ok tt)) w9).
  { eapply (work_one wk calls (SUnlock (Ok tt)) (SEnd (Ok tt)) w8 _ _ tt); try done; apply H8. }
  destruct G9 as (w9 & S9 & H9). exists w9. split; [|done].
  do 7 (eapply sink_steps_trans; [done|]). eapply sink_steps_trans; done.
Qed.

(** The sink as an append finds it when nothing is wrong. *)
Record ready (w : SinkWorld) : Prop := {
  re_call : sw_calls w i = None; re_worker : sw_workers w i = None; re_holder : sw_holder w = None;
  re_failed : sw_failed w = false; re_poisoned : sw_poisoned w = false;
  re_synced : sw_synced w <= length (sw_file w);
  re_idle : busy_longer_than (sw_busy w) busy_limit (sw_now w) = false;
  re_admits : exists a, snd (audit_begin_attempt_at (sw_breaker w) (sw_now w)) = AdmitAttempt a }.

Definition in_call (t : TrailRecord) (bound : option Z) (p : prog call_effect written) : Call :=
  mkCall t bound (CRunning p).

Lemma call_one t bound w {X} (e : call_effect X) k x w1 :
  sw_calls w i = Some (in_call t bound (Vis e k)) -> call_acts i X w e x w1 ->
  sink_steps w (with_call w1 i (in_call t bound (k x))).
Proof.
  intros Hi Hact. eapply sks_step; [apply sks_refl|].
  apply (ss_call _ _ _ w i (in_call t bound (Vis e k)) (Vis e k) (k x) w1 Hi); [done|]. by exists x.
Qed.

(** From the worker's success to the caller's. *)
Lemma joined_completes t bound w wk : 
  sw_calls w i = Some (in_call t bound
    (let# joined := AwaitWorker bound in
     match joined, bound with
     | Elapsed, Some b => let# _ := MirrorRecord PWriteUnconfirmed in Ret (Err (unconfirmed b))
     | _, _ =>
         let joined := match joined with
                       | Joined r => r
                       | JoinFailed e => Err (WritePrimary ("blocking write task panicked/was cancelled: " +:+ e))
                       | Elapsed => Err (WritePrimary "")
                       end in
         let# _ := MirrorRecord match joined with Ok _ => POk | Err _ => PWriteFailed end in
         Ret joined
     end)) ->
  sw_workers w i = Some wk -> aw_run wk = WEnded (Some (Ok tt)) ->
  exists w', sink_steps w w' /\ sw_calls w' i = Some (mkCall t bound (CReturned (Ok tt))).
Proof.
  intros Hc Hw Hr. eexists. split; [|apply with_call_at].
  eapply sink_steps_trans; [apply (call_one t bound w _ _ (Joined (Ok tt)) w Hc); split; [done|by exists wk]|].
  eapply sink_steps_trans; [eapply (call_one t bound _ (MirrorRecord POk) (fun _ => Ret (Ok tt)) tt); [apply with_call_at|reflexivity]|].
  eapply sks_step; [apply sks_refl|]. eapply ss_return with (c := in_call t bound (Ret (Ok tt))); [apply with_call_at|done].
Qed.

(** An append to a sink in order can be acknowledged: the interleaving in which it
    is admitted, its worker writes and synchronizes and the caller waits for it leads there. *)
Theorem append_completes t bound w : ready w ->
  exists w', sink_steps w w' /\ sw_calls w' i = Some (mkCall t bound (CReturned (Ok tt))).
Proof.
  intros [H1 H2 H3 H4 H5 H6 H7 [a H8]].
  set (w0 := with_call w i (in_call t bound (append_inner busy_limit t bound))).
  assert (S0 : sink_steps w w0) by (eapply sks_step; [apply sks_refl|by apply ss_begin]).
  pose proof (call_one t bound w0 InstantNow _ (sw_now w) w0 (with_call_at _ _ _) ltac:(by split)) as S1.
  set (w1 := with_call w0 i _) in S1.
  pose proof (call_one t bound w1 (BusyLongerThan busy_limit (sw_now w)) _ false w1 (with_call_at _ _ _) ltac:(by split)) as S2.
  set (w2 := with_call w1 i _) in S2.
  pose proof (call_one t bound w2 (BeginAttempt (sw_now w)) _ (AdmitAttempt a) _ (with_call_at _ _ _)
                (conj (eq_sym H8) eq_refl)) as S3.
  set (w3 := with_call _ i _) in S3.
  pose proof (call_one t bound w3 (SpawnWrite a (line_bytes json_string json_float t)) _ tt _ (with_call_at _ _ _)
                (conj H2 eq_refl)) as S4.
  set (wk := mkAppendWorker (line_bytes json_string json_float t) a (WRunning (write_line (line_bytes json_string json_float t)))) in S4.
  set (w4 := with_call (with_worker w3 i wk) i _) in S4.
  destruct (write_line_completes wk (sw_calls w4) w4) as (w5 & S5 & [G1 G2 _ _ _]).
  { constructor; [apply (with_worker_at w3)|done|done|done|done]. }
  pose proof (ss_end json_string json_float busy_limit w5 i _ (Ok tt) G1 eq_refl) as S6.
  set (w6 := with_worker _ i _) in S6.
  assert (S06 : sink_steps w w6).
  { eapply sks_step; [|exact S6]. do 4 (eapply sink_steps_trans; [eassumption|]). by eapply sink_steps_trans. }
  destruct (joined_completes t bound w6 (mkAppendWorker (aw_line wk) (aw_attempt wk) (WEnded (Some (Ok tt)))))
    as (w7 & S7 & Hw7); [|apply with_worker_at|done|].
  - change (sw_calls w6) with (sw_calls w5). rewrite G2. apply with_call_at.
  - exists w7. split; [by eapply sink_steps_trans|done].
Qed.
End Live.

(** ** The mirror *)

Definition mirror_of (ev : Programs.event call_effect) : option PrimaryOutcome :=
  match ev_effect ev with MirrorRecord p => Some p | _ => None end.
Definition spawn_of (ev : Programs.event call_effect) : option bytes :=
  match ev_effect ev with SpawnWrite _ line => Some line | _ => None end.
Definition refused_primary (p : PrimaryOutcome) : bool :=
  match p with PRefusedBreakerOpen | PRefusedAtCapacity => true | _ => false end.

Lemma refuse_append_mirror t now what primary why tr r :
  runs (refuse_append t now what primary why) tr r ->
  omap mirror_of tr = [primary] /\ omap spawn_of tr = [] /\ r = Err (WritePrimary why).
Proof.
  intros H. apply runs_inv in H as (log & tr1 & -> & H). destruct log; cbn [bind] in H.
  - apply runs_inv in H as (? & tr2 & -> & H). apply runs_inv in H as (? & tr3 & -> & H).
    by apply runs_inv in H as [-> ->].
  - apply runs_inv in H as (? & tr2 & -> & H). by apply runs_inv in H as [-> ->].
Qed.

(** Every append that ends, however it ends, left exactly one copy in the system log,
    marked with what became of the primary: as written exactly when the append succeeded, as
    refused exactly when no worker was started. *)
Theorem append_mirrored_once (json_string : string -> string) (json_float : Z -> string) (busy_limit : Z)
    (t : TrailRecord) (bound : option Z) tr r :
  runs (append_inner json_string json_float busy_limit t bound) tr r ->
  exists p, omap mirror_of tr = [p] /\ (p = POk <-> r = Ok tt) /\
    omap spawn_of tr = if refused_primary p then [] else [line_bytes json_string json_float t].
Proof.
  intros H. apply runs_inv in H as (now & tr1 & -> & H). apply runs_inv in H as (busy & tr2 & -> & H).
  assert (Href : forall pre what primary why tr', omap mirror_of pre = [] -> omap spawn_of pre = [] ->
            refused_primary primary = true ->
            runs (refuse_append t now what primary why) tr' r ->
            exists p, omap mirror_of (pre ++ tr') = [p] /\ (p = POk <-> r = Ok tt) /\
              omap spawn_of (pre ++ tr') = if refused_primary p then [] else [line_bytes json_string json_float t]).
  { intros pre what primary why tr' H1 H2 H3 Hr. apply refuse_append_mirror in Hr as (Hm & Hs & ->). exists primary.
    rewrite !omap_app, H1, H2, Hm, Hs, H3. split_and!; [done| |done]. by destruct primary. }
  destruct busy; [by refine (Href [Ev _ InstantNow now; Ev _ (BusyLongerThan busy_limit now) true] _ _ _ tr2 eq_refl eq_refl _ H)|].
  apply runs_inv in H as (admitted & tr3 & -> & H).
  set (pre a := [Ev _ InstantNow now; Ev _ (BusyLongerThan busy_limit now) false; Ev _ (BeginAttempt now) a]).
  destruct admitted as [a| |]; [clear Href|by refine (Href (pre _) _ _ _ tr3 eq_refl eq_refl _ H)..].
  apply runs_inv in H as (? & tr4 & -> & H). apply runs_inv in H as (j & tr5 & -> & H).
  destruct j as [[[]|e]|e|]; destruct bound as [b|]; apply runs_inv in H as (? & tr6 & -> & H);
    apply runs_inv in H as [-> ->]; cbn; eexists; split_and!; done.
Qed.

(** ** Witnesses *)

Lemma opened_ready now : ready AUDIT_WRITER_BUSY_REFUSE_AFTER 0 (sink_opened [] now).
Proof. constructor; try done. exists 0%Z. reflexivity. Qed.

Lemma trail_sound_witness : exists w,
  sw_calls w 0 = Some (mkCall mirror_demo_record None (CReturned (Ok tt))) /\
  (exists durable tail durable' tail',
     trail_state write_json_string demo_float [] w durable tail /\
     trail_state write_json_string demo_float [] w durable' tail' /\ durable `prefix_of` durable') /\
  (sw_holder w = None -> sw_failed w = true \/ sw_poisoned w = true -> sw_file w = sw_file w).
Proof.
  destruct (append_completes write_json_string demo_float AUDIT_WRITER_BUSY_REFUSE_AFTER 0 mirror_demo_record None
              (sink_opened [] 0) (opened_ready 0)) as (w & Hs & Hc).
  exists w. split; [exact Hc|].
  exact (trail_sound write_json_string demo_float AUDIT_WRITER_BUSY_REFUSE_AFTER 0 [] w w Hs (sks_refl _ _ _ w)).
Defined.

Lemma trail_survives_crash_witness : exists w,
  sw_calls w 0 = Some (mkCall mirror_demo_record None (CReturned (Ok tt))) /\
  exists durable,
    (forall i c, sw_calls w i = Some c -> cl_run c = CReturned (Ok tt) -> i ∈ durable) /\
    [] ++ call_lines write_json_string demo_float w durable `prefix_of` take (sw_synced w) (sw_file w) /\
    (whole (take (sw_synced w) (sw_file w)) ->
     exists kept, durable `prefix_of` kept /\ NoDup kept /\ (forall i, i ∈ kept -> sw_calls w i <> None) /\
       take (sw_synced w) (sw_file w) = [] ++ call_lines write_json_string demo_float w kept).
Proof.
  destruct (append_completes write_json_string demo_float AUDIT_WRITER_BUSY_REFUSE_AFTER 0 mirror_demo_record None
              (sink_opened [] 0) (opened_ready 0)) as (w & Hs & Hc).
  exists w. split; [exact Hc|].
  apply (trail_survives_crash write_json_string demo_float AUDIT_WRITER_BUSY_REFUSE_AFTER 0 [] w (sw_synced w) Hs).
  destruct (sink_steps_inv _ _ _ [] _ _ _ _ (sink_opened_inv write_json_string demo_float [] 0) Hs) as (d & t & [Ht _] & _).
  split; [done|]. apply (ti_synced _ _ _ _ Ht).
Defined.

(** A trail of a checkpoint and a later request, read a byte at a time. *)
Definition anchor_demo_boot : BootCtx :=
  mkBootCtx "boot" 990 0 (mkContext "2026-08-11T00:00:00.000Z" "h" "/run/maknae/plane.sock" None None (JObj [])).
Definition anchor_demo_checkpoint : TrailRecord :=
  boot_record anchor_demo_boot 1 (mkGraphRecord CHECKPOINT_ACTION "permit" "checkpoint" "authorized"
    (Some (mkGraphAudit 7 (hex (zeroes 32)) "verified" 0))).
Definition anchor_demo_recs : list TrailRecord := [anchor_demo_checkpoint; mirror_demo_record].
Definition anchor_demo_file : bytes := concat (map (line_bytes write_json_string demo_float) anchor_demo_recs).
Definition anchor_demo_parse (s : string) : option Json :=
  if String.eqb s (record_text write_json_string demo_float anchor_demo_checkpoint)
  then Some (sorted_json (to_value anchor_demo_checkpoint))
  else Some (sorted_json (to_value mirror_demo_record)).
Definition anchor_demo_answer (X : Type) (e : read_effect X) : X :=
  match e with
  | LockForRead => true
  | MetadataLen => Ok (length anchor_demo_file)
  | OnScan e => match e with ReadAt offset n => Ok (take n (drop offset anchor_demo_file)) end
  end.

Lemma anchor_lookup_exact_witness :
  find_map trail_checkpoint (rev anchor_demo_recs) = Some (mkCheckpoint 7 (zeroes 32)) /\
  exists tr r, runs (sink_scan_back (find_checkpoint anchor_demo_parse)) tr r /\
  match r with
  | Ok s =>
      fst (anchor_of anchor_demo_parse s) = find_map trail_checkpoint (rev anchor_demo_recs) /\
      (forall c seqs trail, anchor_demo_recs = zip_with (boot_record c) seqs trail -> length seqs = length trail ->
       fst (anchor_of anchor_demo_parse s) = last_checkpoint trail)
  | Err _ => Exists read_failed tr
  end.
Proof.
  split; [vm_compute; reflexivity|].
  pose proof (trace_runs anchor_demo_answer (sink_scan_back (find_checkpoint anchor_demo_parse))) as Hr.
  exists (trace anchor_demo_answer (sink_scan_back (find_checkpoint anchor_demo_parse))).
  exists (outcome_of anchor_demo_answer (sink_scan_back (find_checkpoint anchor_demo_parse))).
  split; [exact Hr|].
  refine (anchor_lookup_exact write_json_string demo_float anchor_demo_parse anchor_demo_recs _ _ demo_json_text _ _ Hr).
  - intros t Ht. apply elem_of_cons in Ht as [->|Ht]; [|apply list_elem_of_singleton in Ht as ->].
    + unfold anchor_demo_parse. by rewrite String.eqb_refl.
    + vm_compute. reflexivity.
  - eapply Forall_impl; [apply (trace_answered anchor_demo_answer)|].
    intros [X e x] H. cbn in H. subst x. destruct e as [| |X e]; [done|by intros n [= <-]|].
    destruct e as [offset n]. intros b [= <-]. by split.
Defined.
