(* ===== verification/Client.v ===== *)
(** * The client's side of a granted attempt: [crates/maknae-loop/src/mutation.rs]

    The subject's process opens its evidence, is granted an attempt, and carries it out: one
    effect at a time, each reported and acknowledged before the next. A blocking task is its
    program followed by how its join ended ([WorkerEnd]). The write loop's fuel is
    [HeldIo]'s; the walk of a recursive deletion and the loop over the steps carry their own,
    and [ClientTheorems] shows it is enough. The encoder is a parameter: the length it gives
    a report, or why it refuses it. *)
From stdpp Require Import base list strings gmap.
From Stdlib Require Import ZArith Lia Ascii.
From S2P Require Import Prelude Programs RustStr RustSlice Seam Config PathGlob AuthzPolicy Wire Handler.
From S2P Require Import MutationExchange Effects Mutation Agent ErrorTexts Page HeldIo.
Open Scope nat_scope.

(** ** Effects *)

(** [std::io::Error] of an open. *)
Record OpenError := mkOpenError { oe_not_found : bool; oe_text : string }.
Inductive JoinEnd := JoinInTime | JoinLost (why : string) | JoinLate.
Inductive ReportAnswer := AckRead (ack : MutationAck) | ReportBroken (why : string) | AckLate.

Inductive client_effect : Type -> Type :=
| OnIo {X : Type} (e : io_effect X) : client_effect X
| OpenPathForDelegation (path : string) : client_effect (result nat OpenError)
| OpenDirectoryForDelegation (path : string) : client_effect (result nat OpenError)
(** Whether the attempt's deadline is representable. *)
| DeadlineRepresentable (ms : Z) : client_effect bool
| WorkerEnd : client_effect JoinEnd
| SendReport (m : MutationReport) : client_effect ReportAnswer
| Diag (line : string) : client_effect unit.

Local Notation prog := (Programs.prog client_effect).
Definition on_io {A} (p : Programs.prog io_effect A) : prog A := lift (@OnIo) p.

(** ** Preparation *)

Definition write_base (check : WriteCheck) : WriteBase :=
  match check with
  | Unchecked => BaseAny
  | CheckUnread => BaseUnread
  | CheckRead k => BaseVersion (version_from_key k)
  end.

Record Prepared := mkPreparedAttempt {
  pa_request : Verb; pa_content_ : option (list ascii); pa_fd : option nat; pa_error : option string;
  pa_components : list string; pa_check : WriteCheck }.

Definition arming_diagnostic (p : Prepared) : option string :=
  (fun e => "maknae: cannot prepare filesystem operation: " +:+ e) <$> pa_error p.

Definition normal (name : string) : bool :=
  negb (is_empty name) && negb (String.eqb name ".") && negb (String.eqb name "..")
  && negb (contains_char slash name) && negb (contains_char nul name)
  && (str_len name <=? MAX_MUTATION_PATH_BYTES)%Z.

Fixpoint drop_blank (l : list string) : list string :=
  match l with
  | [] => []
  | c :: l' => if is_empty c || String.eqb c "." then drop_blank l' else l
  end.
(** [Path::parent] of a path whose last segment is normal: the segments before it, less the
    empty ones and the dots they end with; a root, or a leading dot, stays. *)
Definition path_parent (path : string) : string :=
  match removelast (split_char slash path) with
  | [] => ""
  | first :: rest =>
      match rev (drop_blank (rev rest)) with
      | [] => if is_empty first then "/" else first
      | body => str_join "/" (first :: body)
      end
  end.

Definition INVALID_PATH : OpenError := mkOpenError false "invalid mutation path".
Definition split (path : string) : result (string * string) OpenError :=
  let leaf := default "" (last (split_char slash path)) in
  if (MAX_MUTATION_PATH_BYTES <? str_len path)%Z || contains_char nul path || negb (normal leaf)
  then Err INVALID_PATH
  else
    let parent := path_parent path in
    Ok (if is_empty parent then "." else parent, leaf).

(** The deepest directory that is there, and the components below it, the last first. The
    depth limit ends the loop before the fuel does. *)
Fixpoint open_parents (fuel : nat) (parents : bool) (parent : string) (components : list string)
  : prog (result nat OpenError * list string) :=
  let# opened := OpenDirectoryForDelegation parent in
  match opened with
  | Ok fd => Ret (Ok fd, components)
  | Err e =>
      if negb (parents && oe_not_found e) then Ret (Err e, components)
      else if (MAX_MUTATION_DEPTH <=? Z.of_nat (length components))%Z
      then Ret (Err (mkOpenError false "mkdir depth limit"), components)
      else if negb (utf8_valid parent) then Ret (Err (mkOpenError false "unsupported path name"), components)
      else
        match split parent with
        | Err e => Ret (Err e, components)
        | Ok (next, name) =>
            match fuel with
            | O => Ret (Err e, components)
            | S fuel' => open_parents fuel' parents next (components ++ [name])
            end
        end
  end.

Definition prepared_of (request : Verb) (content : option (list ascii)) (opened : result nat OpenError)
    (components : list string) (check : WriteCheck) : Prepared :=
  match opened with
  | Ok fd => mkPreparedAttempt request content (Some fd) None components check
  | Err e => mkPreparedAttempt request content None (Some (oe_text e)) components check
  end.

Definition prepare_checked (request : Verb) (content : option (list ascii)) (check : WriteCheck)
  : prog (option Prepared) :=
  match request with
  | FsWrite path content_length _ conversation =>
      let request mode := FsWrite path content_length mode conversation in
      match split path with
      | Err e => Ret (Some (prepared_of (request Existing) content (Err e) [] check))
      | Ok (parent, leaf) =>
          let# opened := OpenPathForDelegation path in
          match opened with
          | Err e =>
              if oe_not_found e then
                let# opened := OpenDirectoryForDelegation parent in
                Ret (Some (prepared_of (request CreateExclusive) content opened [leaf] check))
              else Ret (Some (prepared_of (request Existing) content (Err e) [leaf] check))
          | Ok fd => Ret (Some (prepared_of (request Existing) content (Ok fd) [leaf] check))
          end
      end
  | FsDelete path _ =>
      match split path with
      | Err e => Ret (Some (prepared_of request content (Err e) [] check))
      | Ok (parent, leaf) =>
          let# opened := OpenDirectoryForDelegation parent in
          Ret (Some (prepared_of request content opened [leaf] check))
      end
  | FsMkdir path parents _ =>
      let done opened components :=
        let components := rev components in
        Some (prepared_of (FsMkdir path parents components) content opened components check) in
      match split path with
      | Err e => Ret (done (Err e) [])
      | Ok (parent, leaf) =>
          let* r := open_parents (Z.to_nat MAX_MUTATION_DEPTH) parents parent [leaf] in
          Ret (done (fst r) (snd r))
      end
  | Read path _ _ =>
      let# opened := OpenPathForDelegation path in
      Ret (Some (prepared_of request content opened [] check))
  | _ => Ret None
  end.

(** ** The grant *)

Definition mismatch {A} : result A string := Err "mutation grant does not match prepared operation".

(** The path the grant begins with. *)
Definition granted_first (p : Prepared) (g : MutationGrant) : result string string :=
  match pa_request p, mg_scope g with
  | FsWrite _ _ CreateExclusive _, Exact path CreatedFile => Ok path
  | FsDelete _ false, Exact path DeletedEntry => Ok path
  | FsMkdir _ false _, Exact path CreatedDirectory => Ok path
  | FsDelete _ true, RecursiveDelete root => Ok root
  | FsMkdir _ true _, Directories (first :: rest) =>
      if length (first :: rest) =? length (pa_components p) then Ok first else mismatch
  | _, _ => mismatch
  end.

(** Each component pushed onto the parent gives the path granted for it; [paths] are those
    of a scope of directories. *)
Fixpoint components_match (current first : string) (paths : option (list string)) (components : list string)
  : result unit string :=
  match components with
  | [] => Ok tt
  | component :: components' =>
      if negb (normal component) then Err "invalid prepared component"
      else
        let current := push current component in
        let expected := match paths with Some l => default "" (head l) | None => first end in
        let dotted := existsb (fun c => String.eqb c ".." || String.eqb c ".") (path_components current) in
        if negb (String.eqb current expected) || dotted then Err "mutation grant component mismatch"
        else components_match current first (tail <$> paths) components'
  end.

Definition grant_parent (p : Prepared) (g : MutationGrant) : result string string :=
  match pa_fd p with
  | None => Err "namespace grant without prepared directory evidence"
  | Some _ =>
      let? first := granted_first p g in
      match split first with
      | Err e => Err (oe_text e)
      | Ok (parent, leaf) =>
          if negb (starts_with "/" first) || negb (bool_decide (head (pa_components p) = Some leaf))
          then Err "mutation grant does not match prepared leaf"
          else
            let? _ := components_match parent first
                        (match mg_scope g with Directories paths => Some paths | _ => None end)
                        (pa_components p) in
            Ok parent
      end
  end.

Definition grant_object (p : Prepared) (g : MutationGrant) : result string string :=
  match pa_fd p with
  | None => Err "object grant without prepared object evidence"
  | Some _ =>
      let expected := match pa_request p with Read _ _ _ => ReadFile | _ => ReplacedFile end in
      match mg_scope g with
      | Exact path effect =>
          if bool_decide (effect = expected) && starts_with "/" path then Ok path else mismatch
      | _ => mismatch
      end
  end.

Inductive Granted := GrantedObject (path : string) | GrantedParent (path : string).

(** ** The worker *)

Record WalkFrame := mkFrame {
  wf_directory : MutationDirectory; wf_cursor : DirectoryCursor; wf_leaf : string; wf_depth : nat }.
Definition CLIENT_PAGE_MAX : Z := 1048576.

Record PageMeta := mkMeta {
  pm_start : Z; pm_lines : option (Z * Z); pm_complete_last : bool; pm_next : option (Z * Z);
  pm_eof : bool; pm_version : FileVersion }.
Record ReadResult := mkReadResult { rr_content : list ascii; rr_label : string; rr_page : PageMeta }.

(** The walk's stack has its top first. *)
Inductive Work :=
| WRead (held : nat) (path : string) (page : PageRequest)
| WReplace (held : nat) (path : string) (b : list ascii) (check : WriteCheck)
| WCreate (parent : MutationDirectory) (leaf : string) (b : list ascii)
| WDelete (parent : MutationDirectory) (leaf : string) (recursive : bool) (stack : list WalkFrame)
    (pending : option string)
| WMkdir (parent : MutationDirectory) (components : list string) (parents : bool)
| WDone.

Record Worker := mkWorker {
  wk_work : Work; wk_grant : MutationGrant; wk_frame_cap : Z; wk_next_index : Z; wk_seen : gset string;
  wk_content : option (list ascii); wk_page : option PageMeta; wk_stale : bool;
  wk_version : option FileVersion }.

Record Step := mkStep { sp_effect : option EffectEntry; sp_finish : option (ReportedFinish * option string) }.
Definition step_stop (outcome : ReportedFinish) (path : option string) : Step :=
  mkStep None (Some (outcome, path)).

Definition io_finish (e : IoError) : ReportedFinish :=
  match e with
  | NonUtf8Component _ => FUnsupportedName
  | MutationPathChanged _ => FPathChanged
  | StaleBase _ => FPathChanged
  | DeadlineElapsed _ => FLimitReached
  | TargetTooLarge _ _ _ => FLimitReached
  | SizeChanged _ _ _ => FPathChanged
  | _ => FOsRefused
  end.

(** An effect that claims nothing of a read. *)
Definition bare (path : string) (effect : ReportedEffect) : EffectEntry := mkEffect path effect None None None.

Definition error_step (e : MutationFailure) (effect : ReportedEffect) (path : string) : Step :=
  let changed := negb (bool_decide (mf_state e = NoEffect)) in
  let outcome :=
    match mf_state e with
    | DurabilityUnknown => FDurabilityUnknown
    | SPartial | SApplied => FPartial
    | NoEffect => io_finish (mf_source e)
    end in
  mkStep (if changed then Some (bare path effect) else None) (Some (outcome, Some path)).

Definition batch (id : MutationId) (index : Z) (entry : EffectEntry) : MutationReport := Batch id index [entry].
Definition finished (id : MutationId) (index : Z) (outcome : ReportedFinish) (stopped_at : option string)
  : MutationReport := Finished id index outcome stopped_at.

Definition with_work (w : Worker) (work : Work) : Worker :=
  mkWorker work (wk_grant w) (wk_frame_cap w) (wk_next_index w) (wk_seen w) (wk_content w) (wk_page w)
    (wk_stale w) (wk_version w).
Definition with_read (w : Worker) (content : list ascii) (page : PageMeta) : Worker :=
  mkWorker (wk_work w) (wk_grant w) (wk_frame_cap w) (wk_next_index w) (wk_seen w) (Some content) (Some page)
    (wk_stale w) (wk_version w).
Definition with_stale (w : Worker) (stale : bool) : Worker :=
  mkWorker (wk_work w) (wk_grant w) (wk_frame_cap w) (wk_next_index w) (wk_seen w) (wk_content w) (wk_page w)
    stale (wk_version w).
Definition with_version (w : Worker) (version : option FileVersion) : Worker :=
  mkWorker (wk_work w) (wk_grant w) (wk_frame_cap w) (wk_next_index w) (wk_seen w) (wk_content w) (wk_page w)
    (wk_stale w) version.
(** After an effect is reported. *)
Definition with_seen (w : Worker) (path : string) : Worker :=
  mkWorker (wk_work w) (wk_grant w) (wk_frame_cap w) (wk_next_index w + 1)%Z ({[path]} ∪ wk_seen w)
    (wk_content w) (wk_page w) (wk_stale w) (wk_version w).

(** Out of fuel: the write loop's, or the client's own. *)
Inductive stuck := WriteStalled | LoopStuck.

Definition U64_MAX : Z := u64_max - 1.
Definition FINISHES : list ReportedFinish :=
  [FSuccess; FOsRefused; FPartial; FLimitReached; FPathChanged; FUnsupportedName; FDurabilityUnknown].

Section Client.
(** [encode_mutation_report]: how long the report is, or why it cannot be encoded. *)
Context (encode_mutation_report : MutationReport -> result Z string).
(** [read_timeout_ms] of the transport. *)
Context (read_timeout_ms : Z).
(** The write loop's fuel. *)
Context (wfuel : nat).

Definition fits (report : MutationReport) (cap : Z) : bool :=
  match encode_mutation_report report with Ok len => (len <=? cap)%Z | Err _ => false end.

Definition reserve (w : Worker) (path : string) (effect : ReportedEffect) (depth : nat)
  : prog (result string Step) :=
  let id := mg_id (wk_grant w) in
  let limits := mg_limits (wk_grant w) in
  let limit_reached := Ret (Err (step_stop FLimitReached None)) in
  if negb (utf8_valid path) then Ret (Err (step_stop FUnsupportedName None))
  else if (MAX_MUTATION_PATH_BYTES <? str_len path)%Z || (ml_max_depth limits <? Z.of_nat depth)%Z
          || (ml_max_effects limits <=? wk_next_index w)%Z
  then limit_reached
  else
    let# passed := OnIo DeadlinePassed in
    if passed : bool then limit_reached
    else if bool_decide (path ∈ wk_seen w) then Ret (Err (step_stop FPathChanged (Some path)))
    else
      let reading := bool_decide (effect = ReadFile) in
      let entry :=
        mkEffect path effect (if reading then Some U64_MAX else None)
          (if reading then Some (mkRange U64_MAX U64_MAX) else None)
          (if reading then Some (mkSpan U64_MAX U64_MAX false) else None) in
      if negb (fits (batch id (wk_next_index w) entry) (wk_frame_cap w)) then limit_reached
      else if forallb (fun outcome => forallb (fun index =>
                fits (finished id index outcome (Some path)) (wk_frame_cap w))
                [wk_next_index w; (wk_next_index w + 1)%Z]) FINISHES
      then Ret (Ok path) else limit_reached.

(** A reserved effect, or the step that stops. *)
Definition reserving (w : Worker) (path : string) (effect : ReportedEffect) (depth : nat)
    (k : string -> prog (result (Worker * Step) stuck)) : prog (result (Worker * Step) stuck) :=
  let* r := reserve w path effect depth in
  match r with Ok p => k p | Err s => Ret (Ok (w, s)) end.

(** A file system call of the step. *)
Definition performing {A} (p : Programs.prog io_effect (result A stall))
    (k : result A MutationFailure -> prog (result (Worker * Step) stuck)) : prog (result (Worker * Step) stuck) :=
  let* r := on_io p in
  match r with
  | Ok a => k (Ok a)
  | Err (HeldIo.Failed f) => k (Err f)
  | Err Stalled => Ret (Err WriteStalled)
  end.

Definition step_read (w : Worker) (held : nat) (path : string) (page : PageRequest)
  : prog (result (Worker * Step) stuck) :=
  reserving w path ReadFile 1 (fun path =>
  let cap := Z.min (ml_max_bytes (mg_limits (wk_grant w))) CLIENT_PAGE_MAX in
  performing (read_held_page held path page (Z.to_nat cap)) (fun r =>
  match r with
  | Ok (pg, version) =>
      let len := Z.of_nat (length (fp_content pg)) in
      let effect :=
        mkEffect path ReadFile (Some len) (Some (mkRange (fp_start pg) (fp_start pg + len)))
          ((fun l => mkSpan (fst l) (snd l) (fp_complete_last pg)) <$> fp_lines pg) in
      let meta :=
        mkMeta (fp_start pg) (fp_lines pg) (fp_complete_last pg)
          ((fun n => (pn_line n, pn_column n)) <$> fp_next pg) (fp_eof pg) version in
      Ret (Ok (with_read w (fp_content pg) meta, mkStep (Some effect) (Some (FSuccess, None))))
  | Err e => Ret (Ok (w, error_step e ReadFile path))
  end)).

Definition step_replace (w : Worker) (held : nat) (path : string) (b : list ascii) (check : WriteCheck)
  : prog (result (Worker * Step) stuck) :=
  reserving w path ReplacedFile 1 (fun path =>
  performing (replace_held_file wfuel held path b (write_base check)) (fun r =>
  match r with
  | Ok version => Ret (Ok (with_version w version, mkStep (Some (bare path ReplacedFile)) (Some (FSuccess, None))))
  | Err e =>
      Ret (Ok (with_stale w (match mf_source e with StaleBase _ => true | _ => false end),
               error_step e ReplacedFile path))
  end)).

Definition step_create (w : Worker) (parent : MutationDirectory) (leaf : string) (b : list ascii)
  : prog (result (Worker * Step) stuck) :=
  reserving w (push (md_path parent) leaf) CreatedFile 1 (fun path =>
  performing (create_exclusive wfuel parent leaf b) (fun r =>
  match r with
  | Ok (_, version) =>
      Ret (Ok (with_version w version, mkStep (Some (bare path CreatedFile)) (Some (FSuccess, None))))
  | Err e => Ret (Ok (w, error_step e CreatedFile path))
  end)).

Definition already_exists (e : MutationFailure) : bool :=
  match e with mkFailure NoEffect _ (Io _ KAlreadyExists) => true | _ => false end.
Definition not_empty (e : MutationFailure) : bool :=
  match e with mkFailure NoEffect _ (Io _ KDirectoryNotEmpty) => true | _ => false end.

Fixpoint step_mkdir (w : Worker) (parent : MutationDirectory) (components : list string) (parents : bool)
  : prog (result (Worker * Step) stuck) :=
  match components with
  | [] => Ret (Ok (w, step_stop FSuccess None))
  | leaf :: components' =>
      let depth :=
        match mg_scope (wk_grant w) with Directories paths => length paths - length components' | _ => 1 end in
      reserving w (push (md_path parent) leaf) CreatedDirectory depth (fun path =>
      performing (mkdir_one parent leaf) (fun r =>
      match r with
      | Ok _ =>
          let effect := Some (bare path CreatedDirectory) in
          match components' with
          | [] => Ret (Ok (w, mkStep effect (Some (FSuccess, None))))
          | _ =>
              let* opened := on_io (open_child_directory parent leaf) in
              match opened with
              | Ok child => Ret (Ok (with_work w (WMkdir child components' parents), mkStep effect None))
              | Err e => Ret (Ok (w, mkStep effect (Some (io_finish e, Some path))))
              end
          end
      | Err e =>
          if already_exists e && parents then
            let* opened := on_io (open_child_directory parent leaf) in
            match opened with
            | Ok child => step_mkdir w child components' parents
            | Err e => Ret (Ok (w, step_stop (io_finish e) (Some path)))
            end
          else Ret (Ok (w, error_step e CreatedDirectory path))
      end))
  end.

(** What the walk removes next: the directory it is in, its name there, its depth, and
    whether its own frame closes with it. *)
Inductive Target := TStop (s : Step) | TPending (stack : list WalkFrame) (name : string)
  | TRemove (stack : list WalkFrame) (dir : MutationDirectory) (name : string) (depth : nat) (closing : bool).

Definition walk_target (parent : MutationDirectory) (leaf : string) (stack : list WalkFrame)
    (pending : option string) : prog Target :=
  match stack, pending with
  | [], _ => Ret (TRemove stack parent leaf 0 false)
  | top :: _, Some name => Ret (TRemove stack (wf_directory top) name (length stack) false)
  | top :: below, None =>
      let* r := on_io (next_entry (wf_cursor top)) in
      match r with
      | Err e => Ret (TStop (step_stop (io_finish e) None))
      | Ok (Some entry, cursor) =>
          Ret (TPending (mkFrame (wf_directory top) cursor (wf_leaf top) (wf_depth top) :: below) (en_name entry))
      | Ok (None, cursor) =>
          let dir := match below with under :: _ => wf_directory under | [] => parent end in
          Ret (TRemove (mkFrame (wf_directory top) cursor (wf_leaf top) (wf_depth top) :: below) dir
                 (wf_leaf top) (wf_depth top) true)
      end
  end.

Fixpoint step_delete (fuel : nat) (w : Worker) (parent : MutationDirectory) (leaf : string) (recursive : bool)
    (stack : list WalkFrame) (pending : option string) : prog (result (Worker * Step) stuck) :=
  match fuel with
  | O => Ret (Err LoopStuck)
  | S fuel' =>
      let# passed := OnIo DeadlinePassed in
      if passed : bool then Ret (Ok (w, step_stop FLimitReached None))
      else
        let* target := walk_target parent leaf stack pending in
        let pending := match stack with [] => pending | _ => None end in
        match target with
        | TStop s => Ret (Ok (w, s))
        | TPending stack name => step_delete fuel' w parent leaf recursive stack (Some name)
        | TRemove stack dir name depth closing =>
            reserving w (push (md_path dir) name) DeletedEntry depth (fun path =>
            performing (remove_entry dir name) (fun r =>
            match r with
            | Ok _ =>
                let stack := if closing then tail stack else stack in
                let effect := Some (bare path DeletedEntry) in
                match stack with
                | [] => Ret (Ok (w, mkStep effect (Some (FSuccess, None))))
                | _ => Ret (Ok (with_work w (WDelete parent leaf recursive stack pending), mkStep effect None))
                end
            | Err e =>
                if not_empty e && recursive && negb closing then
                  if (ml_max_depth (mg_limits (wk_grant w)) <=? Z.of_nat depth)%Z
                  then Ret (Ok (w, step_stop FLimitReached (Some path)))
                  else
                    let* opened := on_io (let*? child := open_child_directory dir name in
                                          let*? c := cursor child in Ret (Ok (child, c))) in
                    match opened with
                    | Err e => Ret (Ok (w, step_stop (io_finish e) (Some path)))
                    | Ok (child, c) =>
                        step_delete fuel' w parent leaf recursive (mkFrame child c name depth :: stack) pending
                    end
                else Ret (Ok (w, error_step e DeletedEntry path))
            end))
        end
  end.

(** An entry and a directory for every level, and the removal itself. *)
Definition walk_fuel (w : Worker) : nat := 2 * Z.to_nat (ml_max_depth (mg_limits (wk_grant w))) + 4.

Definition worker_step (w : Worker) : prog (result (Worker * Step) stuck) :=
  let w' := with_work w WDone in
  match wk_work w with
  | WDone => Ret (Ok (w', step_stop FSuccess None))
  | WRead held path page => step_read w' held path page
  | WReplace held path b check => step_replace w' held path b check
  | WCreate parent leaf b => step_create w' parent leaf b
  | WMkdir parent components parents => step_mkdir w' parent components parents
  | WDelete parent leaf recursive stack pending => step_delete (walk_fuel w) w' parent leaf recursive stack pending
  end.

(** ** The attempt *)

Inductive client_error := CErr (message : string) | CStuck (s : stuck).
Local Notation attempt_result A := (result A client_error).

(** [report]: the report, and its acknowledgment read back. *)
Definition report (cap : Z) (message : MutationReport) (id : MutationId) (index : Z) : prog (attempt_result unit) :=
  match encode_mutation_report message with
  | Err e => Ret (Err (CErr e))
  | Ok len =>
      if (cap <? len)%Z then Ret (Err (CErr "mutation report exceeds frame limit; no automatic retry"))
      else
        let# answer := SendReport message in
        match answer with
        | AckLate =>
            Ret (Err (CErr "mutation acknowledgment timed out; effects may already have occurred; no automatic retry"))
        | ReportBroken e => Ret (Err (CErr e))
        | AckRead ack =>
            if negb (bool_decide (ak_id ack = id)) || negb (ak_next_index ack =? index)%Z
            then Ret (Err (CErr "mutation acknowledgment correlation mismatch"))
            else Ret (Ok tt)
        end
  end.

(** [{outcome:?}]. *)
Definition finish_text (o : ReportedFinish) : string :=
  match o with
  | FSuccess => "Success"
  | FOsRefused => "OsRefused"
  | FPartial => "Partial"
  | FLimitReached => "LimitReached"
  | FPathChanged => "PathChanged"
  | FUnsupportedName => "UnsupportedName"
  | FDurabilityUnknown => "DurabilityUnknown"
  end.

Definition stop_line (outcome : ReportedFinish) (reading stale : bool) (effects : Z) : option string :=
  match outcome with
  | FSuccess => None
  | _ =>
      if reading then Some ("read not performed: " +:+ finish_text outcome)
      else if stale then None
      else Some ("mutation stopped: " +:+ finish_text outcome +:+ "; " +:+ int_to_string effects
                   +:+ " effect(s) reported")
  end.

Record Attempted := mkAttempted {
  at_success : bool; at_content : option (list ascii); at_page : option PageMeta; at_stale : bool;
  at_version : option FileVersion }.
Record WriteEnd := mkWriteEnd { we_applied : bool; we_stale : bool; we_version : option Version }.

Definition is_reading (p : Prepared) : bool := match pa_request p with Read _ _ _ => true | _ => false end.

Definition granted_of (p : Prepared) (g : MutationGrant) : result Granted string :=
  match pa_request p with
  | FsWrite _ _ Existing _ | Read _ _ _ => let? path := grant_object p g in Ok (GrantedObject path)
  | _ => let? path := grant_parent p g in Ok (GrantedParent path)
  end.

Definition limits_invalid (l : MutationLimits) : bool :=
  ((ml_max_effects l =? 0) || (MAX_MUTATION_EFFECTS <? ml_max_effects l) || (ml_max_depth l =? 0)
   || (MAX_MUTATION_DEPTH <? ml_max_depth l) || (ml_deadline_ms l =? 0))%Z.

(** What the attempt does, from the evidence and the grant. *)
Definition initial_work (p : Prepared) (granted : Granted) : prog (result Work string) :=
  let content := ok_or (pa_content_ p) "write content missing" in
  match pa_fd p with
  | None => Ret (Err "mutation grant without prepared evidence")
  | Some evidence =>
      match granted with
      | GrantedObject path =>
          Ret match pa_request p with
              | Read _ _ page => Ok (WRead evidence path (default WHOLE_FILE page))
              | FsWrite _ _ _ _ => let? b := content in Ok (WReplace evidence path b (pa_check p))
              | _ => Err "unexpected mutation operation"
              end
      | GrantedParent parent_path =>
          let* verified := on_io (verify_mutation_directory evidence (mkMutationReq parent_path OS_DAC)) in
          Ret match verified with
              | Err e => Err (io_error_text e)
              | Ok parent =>
                  let parent := with_deadline parent in
                  if negb (same_path (md_path parent) parent_path)
                  then Err "held mutation directory differs from grant parent"
                  else
                    let leaf := default "" (head (pa_components p)) in
                    match pa_request p with
                    | FsWrite _ _ CreateExclusive _ => let? b := content in Ok (WCreate parent leaf b)
                    | FsDelete _ recursive => Ok (WDelete parent leaf recursive [] None)
                    | FsMkdir _ parents _ => Ok (WMkdir parent (pa_components p) parents)
                    | _ => Err "unexpected mutation operation"
                    end
              end
      end
  end.

(** [timeout_at] of a blocking task that has run. *)
Definition joined {A} (late : string) (k : prog (attempt_result A)) : prog (attempt_result A) :=
  let# ended := WorkerEnd in
  match ended with
  | JoinLate => Ret (Err (CErr late))
  | JoinLost e => Ret (Err (CErr e))
  | JoinInTime => k
  end.
Definition LATE_WORKER : string :=
  "mutation worker exceeded attempt window; a syscall may still complete; no automatic retry".

(** The end of an attempt whose worker finished. *)
Definition finish_attempt (cap : Z) (reading : bool) (w : Worker) (outcome : ReportedFinish) (at_ : option string)
  : prog (attempt_result Attempted) :=
  let id := mg_id (wk_grant w) in
  let outcome := if bool_decide (outcome = FOsRefused) && (0 <? wk_next_index w)%Z then FPartial else outcome in
  let*? _ := report cap (finished id (wk_next_index w) outcome at_) id (wk_next_index w) in
  let result_ :=
    mkAttempted (bool_decide (outcome = FSuccess)) (wk_content w) (wk_page w) (wk_stale w) (wk_version w) in
  match stop_line outcome reading (wk_stale w) (wk_next_index w) with
  | Some line => let# _ := Diag line in Ret (Ok result_)
  | None => Ret (Ok result_)
  end.

Fixpoint attempt_loop (fuel : nat) (cap : Z) (reading : bool) (w : Worker) : prog (attempt_result Attempted) :=
  match fuel with
  | O => Ret (Err (CStuck LoopStuck))
  | S fuel' =>
      let id := mg_id (wk_grant w) in
      let* stepped := worker_step w in
      match stepped with
      | Err s => Ret (Err (CStuck s))
      | Ok (next, step) =>
          joined LATE_WORKER
            (let*? next :=
               match sp_effect step with
               | Some entry =>
                   let message := batch id (wk_next_index next) entry in
                   let next := with_seen next (ef_path entry) in
                   let*? _ := report cap message id (wk_next_index next) in
                   Ret (Ok next)
               | None => Ret (Ok next)
               end in
             match sp_finish step with
             | Some (outcome, at_) => finish_attempt cap reading next outcome at_
             | None => attempt_loop fuel' cap reading next
             end)
      end
  end.

Definition attempt_fuel (g : MutationGrant) : nat := S (Z.to_nat (ml_max_effects (mg_limits g))).

Definition run_attempt (p : Prepared) (g : MutationGrant) (cap : Z) : prog (attempt_result Attempted) :=
  match granted_of p g with
  | Err e => Ret (Err (CErr e))
  | Ok granted =>
      if limits_invalid (mg_limits g) then Ret (Err (CErr "invalid mutation grant limits"))
      else
        let# representable := DeadlineRepresentable (Z.min (ml_deadline_ms (mg_limits g)) read_timeout_ms) in
        if negb representable then Ret (Err (CErr "mutation deadline exceeds monotonic clock range"))
        else
          let# passed := OnIo DeadlinePassed in
          if passed : bool
          then Ret (Err (CErr "mutation attempt expired before grant receipt; no namespace effect started"))
          else if negb (fits (finished (mg_id g) 0 FLimitReached None) cap)
          then Ret (Err (CErr "frame limit cannot hold mutation completion; no effect attempted"))
          else
            let* work := initial_work p granted in
            joined "mutation directory verification timed out; no namespace effect started"
              (match work with
               | Err e => Ret (Err (CErr e))
               | Ok work => attempt_loop (attempt_fuel g) cap (is_reading p)
                              (mkWorker work g cap 0 ∅ None None false None)
               end)
  end.

Definition execute (p : Prepared) (g : MutationGrant) : prog (attempt_result WriteEnd) :=
  let*? a := run_attempt p g ATTEMPT_REQUEST_MAX in
  Ret (Ok (mkWriteEnd (at_success a) (at_stale a) (version_key <$> at_version a))).

Definition execute_read (p : Prepared) (g : MutationGrant) : prog (attempt_result (option ReadResult)) :=
  let*? a := run_attempt p g ATTEMPT_REQUEST_MAX in
  Ret (Ok match at_success a, at_content a, at_page a with
          | true, Some content, Some page => Some (mkReadResult content (mg_label g) page)
          | _, _, _ => None
          end).
End Client.
