(* ===== verification/ClientPaths.v ===== *)
(** * Absolute paths as their components

    A path the kernel writes is its components after a slash each. What the client's
    [split], [push] and path comparison do on such paths, and the exchange's [canonical_path]
    and [below]. *)
From stdpp Require Import base list strings gmap.
From Stdlib Require Import ZArith Lia Ascii.
From S2P Require Import Prelude Programs RustStr RustSlice Seam Config PathGlob AuthzPolicy Decide Wire Handler.
From S2P Require Import Providers MutationExchange Effects Mutation Agent ErrorTexts Page HeldIo Client.
Open Scope nat_scope.

Definition seg (c : string) : Prop := segment_canonical c /\ contains_char slash c = false.
Definition path_of (l : list string) : string := "/" +:+ str_join "/" l.
Definition clean (p : string) (l : list string) : Prop := Forall seg l /\ p = path_of l.

Lemma str_join_app l m : l <> [] -> m <> [] -> str_join "/" (l ++ m) = str_join "/" l +:+ "/" +:+ str_join "/" m.
Proof.
  intros Hl Hm. induction l as [|x l IH]; [done|]. destruct l as [|y l]; [by destruct m|].
  change (str_join "/" ((x :: y :: l) ++ m)) with (x +:+ "/" +:+ str_join "/" ((y :: l) ++ m)).
  rewrite IH by done. change (str_join "/" (x :: y :: l)) with (x +:+ "/" +:+ str_join "/" (y :: l)).
  by rewrite !str_app_assoc.
Qed.

Lemma segs_no_slash l : Forall seg l -> forall x, x ∈ l -> contains_char slash x = false.
Proof. intros H x Hx. by destruct (proj1 (Forall_forall _ _) H x Hx). Qed.

Lemma split_char_path l : Forall seg l -> l <> [] -> split_char slash (path_of l) = "" :: l.
Proof.
  intros Hl Hn. unfold path_of. change ("/" +:+ str_join "/" l) with (String slash (str_join "/" l)).
  cbn [split_char]. rewrite Ascii.eqb_refl. f_equal. apply split_char_join; [done|]. by apply segs_no_slash.
Qed.

Lemma path_of_snoc l c : path_of (l ++ [c]) = if l then "/" +:+ c else path_of l +:+ "/" +:+ c.
Proof. destruct l; [done|]. unfold path_of. by rewrite str_join_app, !str_app_assoc. Qed.

Lemma seg_nonempty c : seg c -> is_empty c = false.
Proof. intros [[H _] _]. by destruct c. Qed.
Lemma filter_segs (f : string -> bool) l : Forall seg l -> (forall c, seg c -> f c = true) -> List.filter f l = l.
Proof.
  intros Hl Hf. induction Hl as [|c l Hc _ IH]; [done|]. cbn. by rewrite Hf, IH.
Qed.

Lemma comps_path l : Forall seg l -> comps (path_of l) = l.
Proof.
  intros Hl. destruct l as [|c l]; [done|]. unfold comps. rewrite split_char_path by done.
  change (List.filter (fun c => negb (is_empty c)) (c :: l) = c :: l). apply filter_segs; [done|]. intros x Hx. by rewrite seg_nonempty.
Qed.

Lemma parts_path l : Forall seg l -> path_parts (path_of l) = (true, l).
Proof.
  intros Hl. unfold path_parts. rewrite comps_path by done. change (starts_with "/" (path_of l)) with true.
  f_equal. destruct l as [|c l]; [done|]. cbn [negb andb]. apply filter_segs; [done|].
  intros x [[_ [Hx _]] _]. apply negb_true_iff. by apply String.eqb_neq.
Qed.

Lemma same_path_clean p q l m : clean p l -> clean q m -> same_path p q = true -> p = q.
Proof.
  intros [Hl ->] [Hm ->] H. unfold same_path in H. rewrite !parts_path in H by done.
  apply bool_decide_eq_true in H. by injection H as ->.
Qed.

Lemma ends_with_slash_join s c : c <> "" -> contains_char slash c = false -> ends_with "/" (s +:+ c) = false.
Proof.
  intros Hn Hs. destruct (ends_with "/" (s +:+ c)) eqn:E; [|done]. apply ends_with_spec in E as [r E].
  apply Providers.no_trailing_slash with (s := s) in Hs; [|done]. by apply strip_suffix_spec in E; rewrite E in Hs.
Qed.

Lemma push_path l c : Forall seg l -> push (path_of l) c = path_of (l ++ [c]).
Proof.
  intros Hl. unfold push. rewrite path_of_snoc. destruct l as [|x l] using rev_ind; [done|]. clear IHl.
  apply Forall_app in Hl as [Hl [[[Hn _] Hs] _]%Forall_cons]. rewrite path_of_snoc.
  assert (ends_with "/" (if l then "/" +:+ x else path_of l +:+ "/" +:+ x) = false) as ->.
  { destruct l; [by apply ends_with_slash_join|]. rewrite <-str_app_assoc. by apply ends_with_slash_join. }
  assert (is_empty (if l then "/" +:+ x else path_of l +:+ "/" +:+ x) = false) as -> by (by destruct l).
  cbn [orb]. destruct (l ++ [x]) eqn:E; [by destruct l|]. done.
Qed.

Lemma clean_push p l c : clean p l -> seg c -> clean (push p c) (l ++ [c]).
Proof.
  intros [Hl ->] Hc. split; [by apply Forall_app; split; [|constructor]|]. by apply push_path.
Qed.

(** ** The exchange's view *)

Lemma canonical_clean p : canonical_path p = Ok tt -> exists l, clean p l.
Proof.
  unfold canonical_path. destruct (_ <? _)%Z; [done|]. destruct (starts_with "/" p) eqn:Es; [|done]. cbn [negb orb].
  destruct (contains_char nul p); [done|]. unfold starts_with in Es. destruct (strip_prefix "/" p) as [r|] eqn:Er; [|done].
  apply strip_prefix_spec in Er as ->. unfold after_slash. rewrite strip_prefix_app. destruct (String.eqb_spec ("/" +:+ r) "/") as [H|_].
  { intros _. exists []. split; [constructor|]. done. }
  cbn [default].
  destruct (plain_components _) eqn:E; [|done]. intros _. apply plain_components_iff in E.
  exists (split_char slash r). split.
  - apply Forall_forall. intros x Hx. split; [by eapply Forall_forall in E|]. by eapply split_char_pieces.
  - unfold path_of. by rewrite join_split_char.
Qed.

Lemma clean_canonical p l : clean p l -> (str_len p <= MAX_MUTATION_PATH_BYTES)%Z -> contains_char nul p = false ->
  canonical_path p = Ok tt.
Proof.
  intros [Hl ->] Hlen Hnul. unfold canonical_path. rewrite (proj2 (Z.ltb_ge _ _)) by done. rewrite Hnul.
  change (starts_with "/" (path_of l)) with true. cbn [negb orb].
  destruct (String.eqb_spec (path_of l) "/"); [done|]. destruct l as [|c l]; [done|].
  assert (after_slash (path_of (c :: l)) = str_join "/" (c :: l)) as ->.
  { unfold after_slash, path_of. by rewrite strip_prefix_app. }
  rewrite split_char_join; [|done|by apply segs_no_slash].
  assert (plain_components (c :: l) = true) as ->; [|done]. apply plain_components_iff.
  eapply Forall_impl; [exact Hl|]. by intros x [Hx _].
Qed.

Lemma below_path r suf : Forall seg r -> suf <> [] -> below (path_of r) (path_of (r ++ suf)) = Some (str_join "/" suf).
Proof.
  intros Hr Hs. unfold below. destruct (String.eqb_spec (path_of r) "/") as [E|Hne].
  - assert (r = []) as -> by (apply (f_equal comps) in E; by rewrite comps_path in E).
    unfold after_slash, path_of. by rewrite strip_prefix_app.
  - assert (r <> []) as Hn by (intros ->; by apply Hne).
    assert (path_of (r ++ suf) = path_of r +:+ "/" +:+ str_join "/" suf) as ->.
    { unfold path_of. by rewrite str_join_app, !str_app_assoc. }
    rewrite strip_prefix_app. cbn [mbind option_bind]. by rewrite strip_prefix_app.
Qed.

(** ** The client's *)

Lemma drop_blank_segs l : Forall seg l -> drop_blank l = l.
Proof.
  intros Hl. destruct Hl as [|c l [[Hn [Hd _]] _] _]; [done|]. cbn. rewrite (proj2 (String.eqb_neq c ".")) by done.
  by destruct c.
Qed.

Lemma parent_path l c : Forall seg l -> seg c -> path_parent (path_of (l ++ [c])) = path_of l.
Proof.
  intros Hl Hc. unfold path_parent. rewrite split_char_path; [|by apply Forall_app; split; [|constructor]|by destruct l].
  change ("" :: l ++ [c]) with (("" :: l) ++ [c]). rewrite removelast_last.
  rewrite drop_blank_segs by (by apply Forall_rev). rewrite rev_involutive. by destruct l.
Qed.

(** The only way [split] succeeds on a clean path. *)
Lemma split_clean first m parent leaf : clean first m -> split first = Ok (parent, leaf) ->
  exists l, m = l ++ [leaf] /\ clean parent l /\ seg leaf.
Proof.
  intros [Hm ->]. destruct m as [|c l _] using rev_ind.
  { done. }
  unfold split. rewrite split_char_path by (done || by destruct l). rewrite app_comm_cons, last_snoc. cbn [default].
  destruct (_ || _); [done|]. apply Forall_app in Hm as [Hl [Hc _]%Forall_cons]. rewrite parent_path by done.
  intros [= <- <-]. exists l. split; [done|]. split; [|done]. done.
Qed.
