(* ===== verification/ClientTheorems.v ===== *)
(** * What an attempt tells the kernel

    The client of [Client], against the kernel's end of the exchange: every report it sends
    is one the exchange accepts, whatever the file system answers. The world is the exchange;
    a refused report marks it. What is assumed of the kernel's path of a descriptor is that
    an absolute one is written as its components. *)
From stdpp Require Import base list strings gmap.
From Stdlib Require Import ZArith Lia Ascii.
From S2P Require Import Prelude Programs RustStr RustSlice Seam Config PathGlob AuthzPolicy Decide Wire Handler.
From S2P Require Import Operands MutationExchange Session Effects Mutation Agent ErrorTexts Page HeldIo Client ClientPaths.
Open Scope nat_scope.

Local Notation prog := (Programs.prog client_effect).
Local Notation event := (Programs.event client_effect).

(** ** The exchange's end *)

Record Peer := mkPeer { pe_x : Exchange; pe_refused : bool }.

Definition io_answer {X} (e : io_effect X) : X -> Prop :=
  match e in io_effect X return X -> Prop with
  | FdPath _ => fun r => match r with Ok p => starts_with "/" p = true -> exists l, clean p l | Err _ => True end
  | _ => fun _ => True
  end.

Definition peer_acts (w : Peer) (ev : event) (w' : Peer) : Prop :=
  match ev_effect ev in client_effect X return X -> Prop with
  | SendReport m => fun answer =>
      match validate_report (pe_x w) m with
      | Err _ => w' = mkPeer (pe_x w) true
      | Ok (x, pending) =>
          pe_refused w' = pe_refused w /\
          match answer with AckRead ack => acknowledge x pending = Ok (pe_x w', ack) | _ => True end
      end
  | OnIo e => fun x => w' = w /\ io_answer e x
  | _ => fun _ => w' = w
  end (ev_answer ev).

Local Notation unrefused := (fun w => pe_refused w = false).
Local Notation keeps := (Programs.keeps peer_acts unrefused).

(** What a file system program returns, under those answers. *)
Fixpoint yields {A} (P : A -> Prop) (p : Programs.prog io_effect A) : Prop :=
  match p with Ret a => P a | Vis e k => forall x, io_answer e x -> yields P (k x) end.

Lemma yields_mono {A} (P Q : A -> Prop) p : (forall a, P a -> Q a) -> yields P p -> yields Q p.
Proof. intros H. induction p as [a|X e k IH]; cbn; [apply H|]. intros Hp x Hx. by apply IH, Hp. Qed.
Lemma yields_bind {A B} (P : A -> Prop) (Q : B -> Prop) p f :
  yields P p -> (forall a, P a -> yields Q (f a)) -> yields Q (bind p f).
Proof. intros Hp Hf. induction p as [a|X e k IH]; cbn in *; [by apply Hf|]. intros x Hx. by apply IH, Hp. Qed.
Lemma yields_any {A} (p : Programs.prog io_effect A) : yields (fun _ => True) p.
Proof. induction p as [a|X e k IH]; cbn; [done|]. intros x _. apply IH. Qed.

(** Of a fallible one: what it returns when it does not fail. *)
Definition gives {A E} (P : A -> Prop) (p : Programs.prog io_effect (result A E)) : Prop :=
  yields (fun r => match r with Ok a => P a | Err _ => True end) p.
Lemma gives_try {A B E} (P : A -> Prop) (Q : B -> Prop) (p : Programs.prog io_effect (result A E)) f :
  gives P p -> (forall a, P a -> gives Q (f a)) -> gives Q (try_bind p f).
Proof. intros Hp Hf. eapply yields_bind; [exact Hp|]. intros [a|e] Ha; [by apply Hf|done]. Qed.
Lemma gives_any {A E} (p : Programs.prog io_effect (result A E)) : gives (fun _ => True) p.
Proof. eapply yields_mono; [|apply yields_any]. by intros []. Qed.
Lemma gives_sys {A E X} (Q : A -> Prop) (e : io_effect (result X Errno)) path (wrap : IoError -> E) k :
  (forall x, io_answer e (Ok x) -> gives Q (k x)) -> gives Q (sys e path wrap k).
Proof. intros Hk [x|e'] Hx; [by apply Hk|done]. Qed.

Lemma keeps_io {A} (P : A -> Prop) p (Q : A -> Peer -> Prop) w :
  unrefused w -> yields P p -> (forall a, P a -> Q a w) -> keeps (on_io p) Q w.
Proof.
  intros Hw Hp HQ. induction p as [a|X e k IH]; [by apply HQ|]. intros x w' [-> Hx]. split; [done|].
  by apply IH, Hp.
Qed.

(** ** Held directories *)

(** A directory's path: components, and no NUL. *)
Definition good (p : string) (l : list string) : Prop := clean p l /\ contains_char nul p = false.
Definition name_ok (c : string) : Prop := seg c /\ contains_char nul c = false.

Lemma valid_leaf_name c : valid_leaf c = true -> name_ok c.
Proof.
  unfold valid_leaf. rewrite !andb_true_iff, !negb_true_iff, !String.eqb_neq. intros [[[[[H1 H2] H3] H4] H5] _].
  split_and!; try done. by destruct c.
Qed.
Lemma good_push p l c : good p l -> name_ok c -> good (push p c) (l ++ [c]).
Proof.
  intros [Hp Hn] [Hc Hcn]. split; [by apply clean_push|]. unfold push.
  destruct (_ || _); rewrite !contains_char_app, Hn, Hcn; done.
Qed.
Lemma good_inj p q l : good p l -> good q l -> p = q.
Proof. intros [[_ ->] _] [[_ ->] _]. done. Qed.
Lemma good_same p q l m : good p l -> good q m -> same_path p q = true -> p = q.
Proof. intros [Hp _] [Hq _]. by eapply same_path_clean. Qed.

Definition held_ok (d : MutationDirectory) : Prop := exists l, good (md_path d) l.

Lemma checked_path_ok p : io_checked_path p = Ok tt -> starts_with "/" p = true /\ contains_char nul p = false.
Proof.
  unfold io_checked_path. destruct (negb (utf8_valid p)); [done|]. destruct (starts_with "/" p); [|done].
  destruct (_ <? _)%Z; [done|]. by destruct (contains_char nul p).
Qed.

Lemma verify_gives fd req : gives held_ok (verify_mutation_directory fd req).
Proof.
  eapply gives_try; [apply gives_any|]. intros _ _.
  eapply gives_try with (P := fun p => starts_with "/" p = true -> exists l, clean p l).
  { intros [p|e] Hp; [|done]. cbn in Hp. apply gives_sys. intros st _. eapply gives_try; [apply gives_any|]. intros _ _.
    destruct (negb _); [done|]. apply gives_sys. intros st' _. eapply gives_try; [apply gives_any|]. by intros _ _. }
  intros p Hp. destruct (io_checked_path p) as [[]|] eqn:E; [|done]. apply checked_path_ok in E as [Hs Hn].
  eapply gives_try; [apply gives_any|]. intros _ _. eapply gives_try; [apply gives_any|]. intros st _.
  cbn in Hp. destruct (Hp Hs) as [l Hl]. by exists l.
Qed.

Lemma child_path_gives d leaf : gives (fun p => p = push (md_path d) leaf /\ name_ok leaf) (child_path d leaf).
Proof.
  unfold child_path. destruct (valid_leaf leaf) eqn:E; [|done]. cbn [negb]. eapply gives_try; [apply gives_any|].
  intros _ _. eapply gives_try; [apply gives_any|]. intros _ _. split; [done|]. by apply valid_leaf_name.
Qed.

Lemma open_child_gives d leaf : held_ok d ->
  gives (fun c => md_path c = push (md_path d) leaf /\ name_ok leaf) (open_child_directory d leaf).
Proof.
  intros [l Hl]. eapply gives_try; [apply child_path_gives|]. intros p [-> Hn] [fd|e] _.
  2: { by destruct e. }
  eapply gives_try; [apply verify_gives|]. intros c [m Hc]. cbn [md_path].
  unfold io_same_path. destruct (same_path _ _) eqn:E; [|done]. cbn. destruct (negb _); [done|]. split; [|done].
  eapply good_same; [exact Hc|by apply good_push|done].
Qed.

Lemma next_entry_gives c :
  gives (fun r => match fst r with Some e => name_ok (en_name e) | None => True end) (next_entry c).
Proof.
  eapply gives_try; [apply gives_any|]. intros _ _.
  eapply gives_try with (P := fun r => match fst r with Some e => name_ok (en_name e) | None => True end).
  - generalize (dc_entries c). intros es. induction es as [|[e|e] es IH]; cbn [next_of]; [done| |done].
    destruct (negb _); [done|]. destruct (_ || _); [apply IH|]. eapply gives_try; [apply child_path_gives|].
    intros _ [_ Hn]. eapply gives_try; [apply gives_any|]. intros k _. done.
  - by intros [[e|] rest] H.
Qed.

(** A read that fails had no effect; one that succeeds returned a page. *)
Lemma read_held_page_yields held path page cap :
  yields (fun r => match r with
                   | Ok (pg, _) => exists src : Source ReadError, read_page src page cap = Ok pg
                   | Err (HeldIo.Failed f) => mf_state f = NoEffect
                   | Err Stalled => True
                   end) (read_held_page held path page cap).
Proof.
  unfold read_held_page. eapply yields_bind with (P := fun r => match r with Err (HeldIo.Failed f) => mf_state f = NoEffect | _ => True end).
  { unfold pin. destruct (io_checked_path path); cbn; [|done]. intros [st|e] _; cbn; [|done]. by destruct (check_target _ _ _). }
  intros [pinned|[f|]] Hf; [|done..]. intros [fd|e] _; [|done].
  eapply yields_bind with (P := fun r => match r with Err (HeldIo.Failed f) => mf_state f = NoEffect | _ => True end).
  { eapply yields_bind; [apply yields_any|]. by intros [u|e] _. }
  intros [u|[f|]] Hu; [|done..]. intros [before|e] _; [|done]. intros src _.
  destruct (read_page src page cap) as [pg|[|e]] eqn:E; [|done..]. intros [after|e] _; [|done]. cbn.
  case_bool_decide; [by exists src|done].
Qed.

(** ** Reports the exchange accepts *)

(** What an opened exchange keeps. *)
Definition scope_canonical (s : MutationScope) : Prop :=
  match s with
  | Exact p _ => canonical_path p = Ok tt
  | RecursiveDelete r => canonical_path r = Ok tt
  | Directories paths => forall p, p ∈ paths -> canonical_path p = Ok tt
  end.

Record live (x : Exchange) : Prop := {
  lv_terminal : x_terminal x = false;
  lv_outstanding : x_outstanding x = false;
  lv_scope : scope_canonical (x_scope x);
  lv_effects : (ml_max_effects (x_limits x) <= MAX_MUTATION_EFFECTS)%Z;
  lv_index : (0 <= x_next_index x)%Z;
  lv_bytes : (0 <= ml_max_bytes (x_limits x))%Z }.

(** The exchange once an effect is acknowledged. *)
Definition acked (x : Exchange) (path : string) : Exchange :=
  mkExchange (x_id x) (x_scope x) (x_limits x) (x_read_page x) (x_owner x) (x_next_index x + 1)%Z
    false false ({[path]} ∪ x_seen x).
Definition closed (x : Exchange) : Exchange :=
  mkExchange (x_id x) (x_scope x) (x_limits x) (x_read_page x) (x_owner x) (x_next_index x)
    false true (x_seen x).

Lemma live_acked x path : live x -> live (acked x path).
Proof. intros [H1 H2 H3 H4 H5]. constructor; cbn; try done. lia. Qed.

Definition root_unseen (x : Exchange) : Prop :=
  match x_scope x with RecursiveDelete root => root ∉ x_seen x | _ => True end.

Record entry_ok (x : Exchange) (e : EffectEntry) : Prop := {
  eo_entry : validate_entry x e = Ok tt;
  eo_fresh : ef_path e ∉ x_seen x;
  eo_index : (x_next_index x < ml_max_effects (x_limits x))%Z;
  eo_root : root_unseen x }.

Lemma batch_accepted x e : live x -> entry_ok x e ->
  exists x' p, validate_report x (batch (x_id x) (x_next_index x) e) = Ok (x', p) /\
    acknowledge x' p = Ok (acked x (ef_path e), mkAck (x_id x) (x_next_index x + 1)%Z).
Proof.
  intros [Ht Ho _ Hm Hi _] [He Hf Hn Hr]. unfold validate_report. rewrite Ht, Ho. cbn [batch report_id report_index].
  rewrite bool_decide_true, Z.eqb_refl by done. cbn [negb]. unfold validate_batch. cbn [length Nat.eqb orb].
  change (MAX_MUTATION_BATCH <? 1) with false. cbn [Z.of_nat Pos.of_succ_nat].
  unfold MAX_MUTATION_EFFECTS in Hm. rewrite (proj2 (Z.ltb_lt _ u32_max)) by (unfold u32_max; lia).
  cbv beta iota zeta. rewrite (proj2 (Z.ltb_ge (ml_max_effects _) _)) by lia. cbn [try_map]. rewrite He. cbv beta iota zeta.
  assert (root_last x [e] = Ok tt) as ->.
  { unfold root_last, root_unseen in *. destruct (x_scope x); [done| |done]. by rewrite bool_decide_false. }
  cbv beta iota zeta. cbn [fresh_paths]. rewrite bool_decide_false by done. cbn [orb].
  rewrite bool_decide_false by (by apply not_elem_of_nil). cbn [app fresh_paths].
  do 2 eexists. split; [done|]. unfold acknowledge. cbn [x_owner pp_owner negb]. rewrite Nat.eqb_refl. cbn [negb].
  cbn [x_id x_scope x_limits x_read_page x_owner pp_next_index pp_terminal pp_paths x_seen]. unfold acked.
  do 3 f_equal. cbn [list_to_set]. set_solver.
Qed.

(** The last step of an attempt is one the exchange would accept. *)
Definition consistent (x : Exchange) : Prop :=
  match x_scope x with
  | Exact _ _ => x_next_index x = 1%Z
  | RecursiveDelete root => root ∈ x_seen x
  | Directories _ => True
  end.
Definition finish_ok (x : Exchange) (o : ReportedFinish) (at_ : option string) : Prop :=
  match at_ with Some p => validate_path x p = Ok tt | None => True end /\ (o = FSuccess -> consistent x).

Lemma finish_accepted x o at_ : live x -> finish_ok x o at_ ->
  exists x' p, validate_report x (finished (x_id x) (x_next_index x) o at_) = Ok (x', p) /\
    acknowledge x' p = Ok (closed x, mkAck (x_id x) (x_next_index x)).
Proof.
  intros [Ht Ho _ _ _ _] [Hp Hc]. unfold validate_report. rewrite Ht, Ho. cbn [finished report_id report_index].
  rewrite bool_decide_true, Z.eqb_refl by done. cbn [negb]. unfold validate_finished.
  assert (match at_ with Some path => validate_path x path | None => Ok tt end = Ok tt) as -> by (by destruct at_).
  cbv beta iota zeta. set (c := match x_scope x with Exact _ _ => _ | _ => _ end).
  assert (bool_decide (o = FSuccess) && negb c = false) as ->.
  { case_bool_decide as E; [|done]. specialize (Hc E). unfold consistent in Hc. subst c. destruct (x_scope x); [|by rewrite bool_decide_true|done].
    by rewrite Hc. }
  do 2 eexists. split; [done|]. unfold acknowledge. cbn [x_owner pp_owner]. rewrite Nat.eqb_refl. cbn [negb].
  cbn [x_id x_scope x_limits x_read_page x_owner pp_next_index pp_terminal pp_paths x_seen]. unfold closed.
  do 3 f_equal. cbn [list_to_set]. set_solver.
Qed.

(** ** The worker and the exchange *)

Record synced (w : Worker) (x : Exchange) : Prop := {
  sy_id : mg_id (wk_grant w) = x_id x;
  sy_scope : mg_scope (wk_grant w) = x_scope x;
  sy_limits : mg_limits (wk_grant w) = x_limits x;
  sy_index : wk_next_index w = x_next_index x;
  sy_seen : wk_seen w = x_seen x }.
#[local] Hint Constructors synced : core.

(** The directory the walk is in. *)
Definition top_dir (parent : MutationDirectory) (stack : list WalkFrame) : MutationDirectory :=
  match stack with under :: _ => wf_directory under | [] => parent end.
(** The components below the root of a recursive deletion. *)
Fixpoint frames (root : list string) (parent : MutationDirectory) (stack : list WalkFrame) : Prop :=
  match stack with
  | [] => True
  | f :: below =>
      frames root parent below /\ wf_depth f = length below /\
      (exists suf, length suf = length below /\ good (md_path (wf_directory f)) (root ++ suf)) /\
      push (md_path (top_dir parent below)) (wf_leaf f) = md_path (wf_directory f)
  end.

(** The directories [components] make below [path]. *)
Fixpoint pushes (path : string) (components : list string) : list string :=
  match components with [] => [] | c :: l => push path c :: pushes (push path c) l end.

(** The walk of a recursive deletion: every frame is a directory below the root, and the
    root itself is still to be removed. *)
Definition walk_ok (parent : MutationDirectory) (leaf : string) (stack : list WalkFrame) (pending : option string)
    (x : Exchange) : Prop :=
  x_scope x = RecursiveDelete (push (md_path parent) leaf) /\ root_unseen x /\
  (Z.of_nat (length stack) <= ml_max_depth (x_limits x))%Z /\
  (exists l, good (md_path parent) l /\ name_ok leaf /\ frames (l ++ [leaf]) parent stack) /\
  match pending with Some name => name_ok name /\ stack <> [] | None => True end.

Definition work_ok (work : Work) (x : Exchange) : Prop :=
  match work with
  | WRead _ path page =>
      x_scope x = Exact path ReadFile /\ x_next_index x = 0%Z /\ x_read_page x = Some page /\
      page_request_is_acceptable page = true /\ (0 <= pg_column page)%Z
  | WReplace _ path _ _ => x_scope x = Exact path ReplacedFile /\ x_next_index x = 0%Z
  | WCreate parent leaf _ => x_scope x = Exact (push (md_path parent) leaf) CreatedFile /\ x_next_index x = 0%Z
  | WMkdir parent components false =>
      exists leaf, components = [leaf] /\ x_scope x = Exact (push (md_path parent) leaf) CreatedDirectory /\
        x_next_index x = 0%Z
  | WMkdir parent components true =>
      held_ok parent /\
      exists paths, x_scope x = Directories paths /\ Forall (.∈ paths) (pushes (md_path parent) components)
  | WDelete parent leaf false stack pending =>
      stack = [] /\ x_scope x = Exact (push (md_path parent) leaf) DeletedEntry /\ x_next_index x = 0%Z
  | WDelete parent leaf true stack pending => walk_ok parent leaf stack pending x
  | WDone => False
  end.

Definition step_good (x : Exchange) (r : result (Worker * Step) stuck) : Prop :=
  match r with
  | Err s => s = WriteStalled
  | Ok (w, st) =>
      synced w x /\
      match sp_effect st with
      | Some e =>
          entry_ok x e /\
          match sp_finish st with
          | Some (o, at_) => finish_ok (acked x (ef_path e)) o at_
          | None => work_ok (wk_work w) (acked x (ef_path e))
          end
      | None => exists o at_, sp_finish st = Some (o, at_) /\ finish_ok x o at_
      end
  end.

Lemma stop_good w x o p : synced w x -> finish_ok x o p -> step_good x (Ok (w, step_stop o p)).
Proof. intros Hw Hf. split; [done|]. by exists o, p. Qed.

Definition reserved (x : Exchange) (path : string) : Prop :=
  validate_path x path = Ok tt /\ path ∉ x_seen x /\ (x_next_index x < ml_max_effects (x_limits x))%Z.

Lemma bare_ok x path effect : reserved x path -> root_unseen x -> effect = expected_effect (x_scope x) ->
  effect <> ReadFile -> entry_ok x (bare path effect).
Proof.
  intros (Hp & Hs & Hi) Hr He Hn. constructor; try done. unfold validate_entry. cbn [bare ef_path ef_effect ef_length ef_range ef_lines].
  rewrite Hp. cbv beta iota zeta. rewrite bool_decide_true by done. cbn [negb]. by rewrite bool_decide_false.
Qed.

Lemma io_finish_not_success e : io_finish e <> FSuccess.
Proof. by destruct e. Qed.

(** A call that failed: its effect, if it had one, and the finish it stops with. *)
Lemma error_good w x e effect path : synced w x -> reserved x path -> root_unseen x ->
  effect = expected_effect (x_scope x) -> (effect = ReadFile -> mf_state e = NoEffect) ->
  step_good x (Ok (w, error_step e effect path)).
Proof.
  intros Hw Hr Hu He Hread. pose proof (proj1 Hr) as Hp. split; [done|]. unfold error_step. cbn [sp_effect sp_finish].
  destruct (mf_state e) eqn:Es; cbn [negb]; [rewrite bool_decide_true by done|rewrite bool_decide_false by done..]; cbn [negb].
  { eexists _, _. split; [done|]. split; [done|]. intros H. by apply io_finish_not_success in H. }
  all: split; [apply bare_ok; [done..|]|by split].
  all: intros H; by specialize (Hread H).
Qed.

(** The only effect of an exact scope ends the attempt. *)
Lemma exact_good w x path effect : synced w x -> reserved x path -> x_scope x = Exact path effect ->
  effect <> ReadFile -> x_next_index x = 0%Z ->
  step_good x (Ok (w, mkStep (Some (bare path effect)) (Some (FSuccess, None)))).
Proof.
  intros Hw Hr Hs He Hi. split; [done|]. split.
  - apply bare_ok; [done| | |done]; unfold root_unseen; by rewrite Hs.
  - split; [done|]. intros _. unfold consistent. cbn [acked x_scope x_next_index]. by rewrite Hs, Hi.
Qed.

(** ** The steps *)

Section Steps.
Context (enc : MutationReport -> result Z string) (wfuel : nat).

(** A step leaves the exchange alone and ends in a good one. *)
Definition good_step (wd : Peer) (p : prog (result (Worker * Step) stuck)) : Prop :=
  keeps p (fun r wd' => wd' = wd /\ step_good (pe_x wd) r) wd.

(** A path the exchange covers once it is within the limits. *)
Definition covered (x : Exchange) (path : string) (depth : nat) : Prop :=
  (str_len path <= MAX_MUTATION_PATH_BYTES)%Z -> (Z.of_nat depth <= ml_max_depth (x_limits x))%Z ->
  validate_path x path = Ok tt.

Lemma reserving_good wd w path effect depth k :
  unrefused wd -> synced w (pe_x wd) -> covered (pe_x wd) path depth ->
  ((Z.of_nat depth <= ml_max_depth (x_limits (pe_x wd)))%Z -> reserved (pe_x wd) path -> good_step wd (k path)) ->
  good_step wd (reserving enc w path effect depth k).
Proof.
  intros Hu Hw Hc Hk. unfold reserving, reserve, good_step. rewrite (sy_limits _ _ Hw), (sy_index _ _ Hw), (sy_seen _ _ Hw).
  assert (forall o p, finish_ok (pe_x wd) o p -> step_good (pe_x wd) (Ok (w, step_stop o p))) as Hstop by (intros; by apply stop_good).
  assert (forall o, o <> FSuccess -> finish_ok (pe_x wd) o None) as Hnone by done.
  destruct (negb (utf8_valid path)); [split; [done|]; by apply Hstop, Hnone|].
  destruct (_ || _) eqn:El; [split; [done|]; by apply Hstop, Hnone|].
  apply orb_false_iff in El as [[Hl%Z.ltb_ge Hd%Z.ltb_ge]%orb_false_iff Hi%Z.leb_gt].
  specialize (Hc Hl Hd). cbn [bind]. intros passed wd' [-> _]. split; [done|].
  destruct passed; [split; [done|]; by apply Hstop, Hnone|]. case_bool_decide as Es.
  { split; [done|]. by apply Hstop. }
  destruct (negb _); [split; [done|]; by apply Hstop, Hnone|].
  destruct (forallb _ _); [|split; [done|]; by apply Hstop, Hnone]. by apply Hk.
Qed.

Lemma performing_good {A} (P : result A stall -> Prop) wd p k :
  unrefused wd -> yields P p ->
  (forall a, P (Ok a) -> good_step wd (k (Ok a))) -> (forall f, P (Err (HeldIo.Failed f)) -> good_step wd (k (Err f))) ->
  good_step wd (performing p k).
Proof.
  intros Hu Hp Hok Herr. unfold performing, good_step. apply keeps_bind. eapply keeps_io; [done|exact Hp|].
  intros [a|[f|]] Ha; [by apply Hok|by apply Herr|done].
Qed.

(** An opened directory, or the step that stops there. *)
Lemma opened_good {A} (P : A -> Prop) wd (p : Programs.prog io_effect (result A IoError)) k :
  unrefused wd -> gives P p -> (forall a, P a -> good_step wd (k (Ok a))) -> (forall e, good_step wd (k (Err e))) ->
  good_step wd (bind (on_io p) k).
Proof.
  intros Hu Hp Hok Herr. apply keeps_bind. eapply keeps_io; [done|exact Hp|]. intros [a|e] Ha; [by apply Hok|apply Herr].
Qed.

Lemma exact_covered x path effect depth : live x -> x_scope x = Exact path effect -> covered x path depth.
Proof.
  intros Hx Hs _ _. unfold validate_path. pose proof (lv_scope _ Hx) as H. rewrite Hs in *. cbn in H. rewrite H. cbv beta iota zeta.
  by rewrite String.eqb_refl.
Qed.
Lemma exact_unseen x path effect : x_scope x = Exact path effect -> root_unseen x.
Proof. intros H. unfold root_unseen. by rewrite H. Qed.
Lemma expected_exact x path effect : x_scope x = Exact path effect -> effect = expected_effect (x_scope x).
Proof. by intros ->. Qed.
#[local] Hint Resolve exact_covered exact_unseen expected_exact : core.

Lemma replace_good wd w held path b check :
  unrefused wd -> synced w (pe_x wd) -> live (pe_x wd) -> work_ok (WReplace held path b check) (pe_x wd) ->
  good_step wd (step_replace enc wfuel w held path b check).
Proof.
  intros Hu Hw Hx [Hs Hi]. apply reserving_good; [done|done|by eauto|]. intros _ Hr.
  eapply performing_good; [done|apply yields_any|..].
  - intros v _. split; [done|]. apply exact_good; try done. by destruct Hw.
  - intros f _. split; [done|]. apply error_good; try done; [by destruct Hw|by eauto..].
Qed.

Lemma create_good wd w parent leaf b :
  unrefused wd -> synced w (pe_x wd) -> live (pe_x wd) -> work_ok (WCreate parent leaf b) (pe_x wd) ->
  good_step wd (step_create enc wfuel w parent leaf b).
Proof.
  intros Hu Hw Hx [Hs Hi]. apply reserving_good; [done|done|by eauto|]. intros _ Hr.
  eapply performing_good; [done|apply yields_any|..].
  - intros [p v] _. split; [done|]. apply exact_good; try done. by destruct Hw.
  - intros f _. split; [done|]. apply error_good; try done; by eauto.
Qed.

Lemma read_good wd w held path page :
  unrefused wd -> synced w (pe_x wd) -> live (pe_x wd) -> work_ok (WRead held path page) (pe_x wd) ->
  good_step wd (step_read enc w held path page).
Proof.
  intros Hu Hw Hx (Hs & Hi & Hp & Ha & Hc). apply reserving_good; [done|done|by eauto|]. intros _ Hr.
  eapply performing_good; [done|apply read_held_page_yields|..].
  - intros [pg v] [src Hsrc]. rewrite (sy_limits _ _ Hw) in Hsrc. split; [done|]. split; [by destruct Hw|]. cbn [sp_effect sp_finish].
    destruct (page_claim_ok _ _ _ _ Ha Hc Hsrc) as [Hcon Hlen]. split.
    + destruct Hr as (H1 & H2 & H3). constructor; [|done|done|by eauto]. unfold validate_entry. cbn [ef_path ef_effect ef_length ef_range ef_lines].
      rewrite H1, Hs, Hp. cbn [expected_effect]. cbv beta iota zeta. rewrite !bool_decide_true by done. cbn [negb ok_or].
      rewrite (proj2 (Z.ltb_ge _ _)) by (pose proof (lv_bytes _ Hx); lia). by rewrite Hcon.
    + split; [done|]. intros _. unfold consistent. cbn [acked x_scope x_next_index]. by rewrite Hs, Hi.
  - intros f Hf. split; [done|]. apply error_good; try done; by eauto.
Qed.

Lemma mkdir_exact_good wd w parent leaf :
  unrefused wd -> synced w (pe_x wd) -> live (pe_x wd) -> work_ok (WMkdir parent [leaf] false) (pe_x wd) ->
  good_step wd (step_mkdir enc w parent [leaf] false).
Proof.
  intros Hu Hw Hx (leaf' & [= <-] & Hs & Hi). apply reserving_good; [done|done|by eauto|]. intros _ Hr.
  eapply performing_good; [done|apply yields_any|..].
  - intros p _. split; [done|]. by apply exact_good.
  - intros f _. rewrite andb_false_r. split; [done|]. apply error_good; try done; by eauto.
Qed.

Lemma directories_covered x paths path depth : live x -> x_scope x = Directories paths -> path ∈ paths -> covered x path depth.
Proof.
  intros Hx Hs Hp _ _. unfold validate_path. pose proof (lv_scope _ Hx) as H. rewrite Hs in *. cbn in H. rewrite H by done.
  cbv beta iota zeta. assert (existsb (String.eqb path) paths = true) as ->; [|done].
  apply existsb_exists. exists path. split; [by apply list_elem_of_In|by apply String.eqb_eq].
Qed.

Lemma mkdir_parents_good wd w : unrefused wd -> synced w (pe_x wd) -> live (pe_x wd) -> forall components parent,
  work_ok (WMkdir parent components true) (pe_x wd) -> good_step wd (step_mkdir enc w parent components true).
Proof.
  intros Hu Hw Hx. induction components as [|leaf rest IH]; intros parent (Hh & paths & Hs & Hp).
  { split; [done|]. apply stop_good; [done|]. split; [done|]. intros _. unfold consistent. by rewrite Hs. }
  cbn [pushes] in Hp. apply Forall_cons in Hp as [Hp Hrest].
  assert (root_unseen (pe_x wd)) as Hru by (unfold root_unseen; by rewrite Hs).
  assert (CreatedDirectory = expected_effect (x_scope (pe_x wd))) as He by (by rewrite Hs).
  assert (forall child, md_path child = push (md_path parent) leaf /\ name_ok leaf -> held_ok child /\
    Forall (.∈ paths) (pushes (md_path child) rest)) as Hchild.
  { intros child [Hc Hn]. destruct Hh as [l Hl]. split; [|by rewrite Hc]. exists (l ++ [leaf]). rewrite Hc. by apply good_push. }
  cbn [step_mkdir]. apply reserving_good; [done|done|by eapply directories_covered|]. intros _ Hr.
  eapply performing_good; [done|apply yields_any|..].
  - intros p _. destruct rest as [|leaf' rest'].
    + split; [done|]. split; [done|]. split; [by apply bare_ok|]. split; [done|]. intros _. unfold consistent. cbn. by rewrite Hs.
    + eapply opened_good; [done|by apply open_child_gives|..].
      * intros child Hc. split; [done|]. destruct (Hchild child Hc). split; [by destruct Hw|]. split; [by apply bare_ok|].
        split; [done|]. by exists paths.
      * intros e. split; [done|]. split; [done|]. split; [by apply bare_ok|]. split; [by apply (proj1 Hr)|].
        intros H. by apply io_finish_not_success in H.
  - intros f _. rewrite andb_true_r. destruct (already_exists f); [|split; [done|]; by apply error_good].
    eapply opened_good; [done|by apply open_child_gives|..].
    + intros child Hc. destruct (Hchild child Hc). apply IH. split; [done|]. by exists paths.
    + intros e. split; [done|]. apply stop_good; [done|]. split; [by apply (proj1 Hr)|].
      intros H. by apply io_finish_not_success in H.
Qed.

Lemma delete_exact_good wd w parent leaf fuel pending :
  unrefused wd -> synced w (pe_x wd) -> live (pe_x wd) -> work_ok (WDelete parent leaf false [] pending) (pe_x wd) ->
  good_step wd (step_delete enc (S fuel) w parent leaf false [] pending).
Proof.
  intros Hu Hw Hx (_ & Hs & Hi) passed wd' [-> _]. split; [done|]. destruct passed.
  { split; [done|]. by apply stop_good. }
  cbn [walk_target bind]. apply reserving_good; [done|done|by eauto|]. intros _ Hr.
  eapply performing_good; [done|apply yields_any|..].
  - intros p _. split; [done|]. by apply exact_good.
  - intros f _. rewrite andb_false_r. split; [done|]. apply error_good; try done; by eauto.
Qed.

(** Whatever lies below the root of a recursive deletion, at its depth. *)
Lemma walk_covered x root r path suf : live x -> x_scope x = RecursiveDelete root -> good root r -> good path (r ++ suf) ->
  covered x path (length suf).
Proof.
  intros Hx Hs Hr [Hp Hn] Hlen Hd. unfold validate_path. rewrite (clean_canonical path (r ++ suf)) by done. cbv beta iota zeta.
  rewrite Hs. destruct (String.eqb_spec path root) as [->|Hne].
  { cbv beta iota zeta. cbn [is_empty]. by rewrite (proj2 (Z.ltb_ge _ _)) by (cbn; lia). }
  assert (suf <> []) as Hsuf. { intros ->. rewrite app_nil_r in Hp. apply Hne. by eapply good_inj. }
  destruct Hr as [[Hrs ->] _], Hp as [Hps ->]. apply Forall_app in Hps as [_ Hsegs]. rewrite below_path by done. cbn [ok_or]. cbv beta iota zeta.
  rewrite split_char_join; [|done|by apply segs_no_slash].
  rewrite (proj2 (Z.ltb_ge _ _)); [done|]. destruct (is_empty _); lia.
Qed.

(** What the walk may do next. *)
Definition target_ok (parent : MutationDirectory) (leaf : string) (stack : list WalkFrame) (pending : option string)
    (x : Exchange) (t : Target) : Prop :=
  match t with
  | TStop st => exists o, o <> FSuccess /\ st = step_stop o None
  | TPending stack' name => pending = None /\ length stack' = length stack /\ walk_ok parent leaf stack' (Some name) x
  | TRemove stack' dir name depth false =>
      stack' = stack /\ dir = top_dir parent stack /\ depth = length stack /\ name_ok name /\ (stack = [] -> name = leaf)
  | TRemove stack' dir name depth true =>
      exists top below, stack' = top :: below /\ walk_ok parent leaf stack' None x /\ dir = top_dir parent below /\
        name = wf_leaf top /\ depth = wf_depth top
  end.

Lemma walk_target_good parent leaf stack pending x wd : unrefused wd -> walk_ok parent leaf stack pending x ->
  keeps (walk_target parent leaf stack pending) (fun t wd' => wd' = wd /\ target_ok parent leaf stack pending x t) wd.
Proof.
  intros Hu (Hs & Hru & Hd & (l & Hl & Hn & Hf) & Hp). destruct stack as [|top below]; [by split_and!|].
  destruct pending as [name|]; [by destruct Hp; split_and!|]. cbn [walk_target]. apply keeps_bind.
  assert (forall c, frames (l ++ [leaf]) parent (mkFrame (wf_directory top) c (wf_leaf top) (wf_depth top) :: below)) as Hf'.
  { intros c. exact Hf. }
  assert (forall c p, match p with Some name => name_ok name | None => True end ->
    walk_ok parent leaf (mkFrame (wf_directory top) c (wf_leaf top) (wf_depth top) :: below) p x) as Hw.
  { intros c p Hname. split_and!; [done..| |by destruct p]. by exists l. }
  eapply keeps_io; [done|apply next_entry_gives|]. intros [[[e|] c]|e] He; (split; [done|]).
  - cbn. split_and!; [done..|]. by apply Hw.
  - cbn. do 2 eexists. split_and!; [done| |done..]. by apply Hw.
  - exists (io_finish e). split; [apply io_finish_not_success|done].
Qed.

Lemma good_root root r p suf : good root r -> good p (r ++ suf) -> p = root <-> suf = [].
Proof.
  intros Hr Hp. split; [|intros ->; rewrite app_nil_r in Hp; by eapply good_inj].
  intros ->. destruct Hr as [[Hr ->] _], Hp as [[Hp E] _]. apply (f_equal comps) in E. rewrite !comps_path in E by done.
  apply (f_equal length) in E. rewrite length_app in E. destruct suf; [done|]. cbn in E. lia.
Qed.

(** A name in the walk's top directory, and a directory whose frame closes. *)
Lemma open_path parent leaf stack pending x name : walk_ok parent leaf stack pending x -> name_ok name ->
  (stack = [] -> name = leaf) ->
  exists l suf, good (md_path parent) l /\ name_ok leaf /\ length suf = length stack /\
    good (push (md_path (top_dir parent stack)) name) ((l ++ [leaf]) ++ suf) /\ held_ok (top_dir parent stack) /\
    frames (l ++ [leaf]) parent stack.
Proof.
  intros (_ & _ & _ & (l & Hl & Hn & Hf) & _) Hname Hleaf. exists l. destruct stack as [|top below].
  - exists []. rewrite app_nil_r, Hleaf by done. split_and!; [done..|by apply good_push|by exists l|done].
  - destruct Hf as (Hb & Hd & (suf & Hlen & Hg) & Hp). exists (suf ++ [name]). rewrite app_assoc, length_app.
    split_and!; [done..|cbn; lia|by apply good_push|by eexists|]. split_and!; [done..| |done]. by exists suf.
Qed.

Lemma close_path parent leaf top below x : walk_ok parent leaf (top :: below) None x ->
  exists l suf, good (md_path parent) l /\ name_ok leaf /\ length suf = wf_depth top /\ wf_depth top = length below /\
    good (push (md_path (top_dir parent below)) (wf_leaf top)) ((l ++ [leaf]) ++ suf) /\ frames (l ++ [leaf]) parent below.
Proof.
  intros (_ & _ & _ & (l & Hl & Hn & Hf & Hd & (suf & Hlen & Hg) & Hp) & _). exists l, suf.
  split_and!; [done..|lia|done| |done]. by rewrite Hp.
Qed.

(** The walk after an entry is removed: over when that was the root. *)
Lemma removed_good w x parent leaf l suf path s :
  synced w x -> reserved x path -> x_scope x = RecursiveDelete (push (md_path parent) leaf) -> root_unseen x ->
  good (md_path parent) l -> name_ok leaf -> good path ((l ++ [leaf]) ++ suf) -> frames (l ++ [leaf]) parent s ->
  (Z.of_nat (length s) <= ml_max_depth (x_limits x))%Z -> (s = [] <-> suf = []) ->
  step_good x (Ok match s with
                  | [] => (w, mkStep (Some (bare path DeletedEntry)) (Some (FSuccess, None)))
                  | _ => (with_work w (WDelete parent leaf true s None), mkStep (Some (bare path DeletedEntry)) None)
                  end).
Proof.
  intros Hw Hr Hs Hu Hl Hn Hp Hf Hd Hsuf. pose proof (good_push _ _ _ Hl Hn) as Hroot.
  pose proof (good_root _ _ _ _ Hroot Hp) as Hpath.
  assert (entry_ok x (bare path DeletedEntry)) as He by (apply bare_ok; [done..|by rewrite Hs|done]).
  destruct s as [|top below].
  - split; [done|]. split; [done|]. split; [done|]. intros _. unfold consistent. cbn [acked x_scope x_seen bare ef_path].
    rewrite Hs, (proj2 Hpath) by (by apply Hsuf). set_solver.
  - split; [by destruct Hw|]. split; [done|]. assert (path <> push (md_path parent) leaf) as Hne.
    { intros E. by apply Hpath, Hsuf in E. }
    split_and!; [done| |done| |done].
    + unfold root_unseen in *. cbn [acked x_scope x_seen bare ef_path]. rewrite Hs in *. set_solver.
    + by exists l.
Qed.

Definition walk_measure (x : Exchange) (stack : list WalkFrame) (pending : option string) : nat :=
  2 * (Z.to_nat (ml_max_depth (x_limits x)) - length stack) + (if pending then 0 else 1).

(** A directory that is exhausted, and is removed from the one above it. *)
Lemma closing_good wd w parent leaf top below k (path := push (md_path (top_dir parent below)) (wf_leaf top)) :
  unrefused wd -> synced w (pe_x wd) -> live (pe_x wd) -> walk_ok parent leaf (top :: below) None (pe_x wd) ->
  (forall f, reserved (pe_x wd) path -> good_step wd (k path (Err f))) ->
  (forall a, k path (Ok a) = Ret (Ok match below with
     | [] => (w, mkStep (Some (bare path DeletedEntry)) (Some (FSuccess, None)))
     | _ => (with_work w (WDelete parent leaf true below None), mkStep (Some (bare path DeletedEntry)) None)
     end)) ->
  good_step wd (reserving enc w path DeletedEntry (wf_depth top)
    (fun path => performing (remove_entry (top_dir parent below) (wf_leaf top)) (k path))).
Proof.
  intros Hu Hw Hx Hok Herr Hk. pose proof Hok as (Hs & Hru & Hd & _ & _).
  destruct (close_path _ _ _ _ _ Hok) as (l & suf & Hl & Hn & Hlen & Hdep & Hg & Hf).
  apply reserving_good; [done|done| |].
  { rewrite <-Hlen. eapply walk_covered; [done|done|by apply good_push|done]. }
  intros Hdm Hr. eapply performing_good; [done|apply yields_any|..]; [|by eauto].
  intros p _. rewrite Hk. split; [done|].
  apply (removed_good w (pe_x wd) parent leaf l suf _ below Hw Hr Hs Hru Hl Hn Hg Hf); [lia|].
  destruct below, suf; cbn in *; split; (done || lia).
Qed.

Lemma delete_walk_good wd w parent leaf : unrefused wd -> synced w (pe_x wd) -> live (pe_x wd) ->
  forall fuel stack pending, walk_ok parent leaf stack pending (pe_x wd) -> walk_measure (pe_x wd) stack pending < fuel ->
  good_step wd (step_delete enc fuel w parent leaf true stack pending).
Proof.
  intros Hu Hw Hx. induction fuel as [|fuel IH]; intros stack pending Hwalk Hm; [lia|].
  intros passed wd' [-> _]. split; [done|]. destruct passed; [split; [done|]; by apply stop_good|].
  assert (match stack with [] => pending | _ => None end = None) as ->.
  { destruct stack; [|done]. destruct Hwalk as (_ & _ & _ & _ & Hp). destruct pending; [|done]. by destruct Hp. }
  pose proof Hwalk as (Hs & Hru & Hd & _ & _).
  assert (DeletedEntry = expected_effect (x_scope (pe_x wd))) as Hexp by (by rewrite Hs).
  apply keeps_bind. eapply keeps_mono; [intros ? H; exact H| |exact (walk_target_good _ _ _ _ _ _ Hu Hwalk)].
  intros [st|stack' name|stack' dir name depth closing] wd' [-> Ht].
  - destruct Ht as (o & Ho & ->). split; [done|]. by apply stop_good.
  - destruct Ht as (-> & Hlen & Hok). apply IH; [done|]. unfold walk_measure in *. rewrite Hlen. lia.
  - destruct closing.
    + destruct Ht as (top & below & -> & Hok & -> & -> & ->).
      apply (closing_good wd w parent leaf top below (fun path r => _)); [done..| |].
      * intros f Hr. rewrite andb_false_r. split; [done|]. by apply error_good.
      * intros a. cbn [tail]. by destruct below.
    + destruct Ht as (-> & -> & -> & Hname & Hleaf).
      destruct (open_path _ _ _ _ _ _ Hwalk Hname Hleaf) as (l & suf & Hl & Hn & Hlen & Hg & Hh & Hf).
      apply reserving_good; [done|done| |].
      { rewrite <-Hlen. eapply walk_covered; [done|done|by apply good_push|done]. }
      intros Hdm Hr. eapply performing_good; [done|apply yields_any|..].
      * intros p _. pose proof (removed_good w (pe_x wd) parent leaf l suf _ stack Hw Hr Hs Hru Hl Hn Hg Hf) as Hgood.
        assert (stack = [] <-> suf = []) as Hb by (destruct stack, suf; cbn in *; split; (done || lia)).
        specialize (Hgood ltac:(lia) Hb). by destruct stack.
      * intros f _. rewrite !andb_true_r. destruct (not_empty f); [|split; [done|]; by apply error_good].
        rewrite (sy_limits _ _ Hw). destruct (Z.leb_spec (ml_max_depth (x_limits (pe_x wd))) (Z.of_nat (length stack))) as [Hle|Hlt].
        { split; [done|]. apply stop_good; [done|]. by split; [apply (proj1 Hr)|]. }
        eapply opened_good with (P := fun r => md_path (fst r) = push (md_path (top_dir parent stack)) name); [done|..].
        { eapply gives_try; [by apply open_child_gives|]. intros child [Hc _]. eapply gives_try; [apply gives_any|]. by intros c _. }
        -- intros [child c] Hc. cbn [fst] in Hc. apply IH.
           ++ split_and!; [done|done|cbn [length]; lia| |done]. exists l. split_and!; [done..|]. cbn [frames].
              split_and!; [done..| |by symmetry]. exists suf. split; [done|].
              change (good (md_path child) ((l ++ [leaf]) ++ suf)). by rewrite Hc.
           ++ unfold walk_measure in *. cbn [length]. lia.
        -- intros e. split; [done|]. apply stop_good; [done|]. split; [by apply (proj1 Hr)|].
           intros H. by apply io_finish_not_success in H.
Qed.

Lemma worker_step_good wd w : unrefused wd -> synced w (pe_x wd) -> live (pe_x wd) -> work_ok (wk_work w) (pe_x wd) ->
  good_step wd (worker_step enc wfuel w).
Proof.
  intros Hu Hw Hx Hok. assert (synced (with_work w WDone) (pe_x wd)) as Hw' by (by destruct Hw). unfold worker_step.
  destruct (wk_work w) as [held path page|held path b check|parent leaf b|parent leaf recursive stack pending|parent components parents|] eqn:Ek.
  - by apply read_good.
  - by apply replace_good.
  - by apply create_good.
  - destruct recursive.
    + apply delete_walk_good; [done..|]. unfold walk_measure, walk_fuel. rewrite (sy_limits _ _ Hw). destruct pending; lia.
    + pose proof Hok as (-> & _). unfold walk_fuel. rewrite Nat.add_comm. by apply delete_exact_good.
  - destruct parents; [by apply mkdir_parents_good|]. pose proof Hok as (leaf & -> & _). by apply mkdir_exact_good.
  - done.
Qed.

Lemma report_keeps cap m id index wd xa (Q : result unit client_error -> Peer -> Prop) :
  unrefused wd ->
  (exists x p, validate_report (pe_x wd) m = Ok (x, p) /\ acknowledge x p = Ok (xa, mkAck id index)) ->
  Q (Ok tt) (mkPeer xa false) -> (forall e w', Q (Err (CErr e)) w') -> keeps (report enc cap m id index) Q wd.
Proof.
  intros Hu (x & p & Hv & Ha) Hok Herr. unfold report. destruct (enc m) as [len|e]; [|apply Herr].
  destruct (cap <? len)%Z; [apply Herr|]. intros answer wd'. unfold peer_acts. cbn [ev_effect ev_answer]. rewrite Hv.
  intros [Hr Hans]. split; [by rewrite Hr|]. destruct answer as [ack|e|]; [|apply Herr..]. rewrite Ha in Hans.
  injection Hans as Hxa <-. cbn [ak_id ak_next_index]. rewrite bool_decide_true, Z.eqb_refl by done. cbn [negb orb].
  destruct wd' as [x' r']. cbn in Hxa, Hr. subst x' r'. by rewrite Hu.
Qed.

Lemma finish_keeps cap reading w x o at_ : synced w x -> live x -> finish_ok x o at_ ->
  keeps (finish_attempt enc cap reading w o at_) (fun r _ => r <> Err (CStuck LoopStuck)) (mkPeer x false).
Proof.
  intros Hw Hx Hf. unfold finish_attempt. rewrite (sy_id _ _ Hw), (sy_index _ _ Hw).
  set (o' := if bool_decide (o = FOsRefused) && (0 <? x_next_index x)%Z then FPartial else o).
  assert (finish_ok x o' at_) as Hf'.
  { subst o'. destruct (bool_decide (o = FOsRefused) && (0 <? x_next_index x)%Z); [|done]. by destruct Hf. }
  apply keeps_try. eapply report_keeps; [done|by apply finish_accepted| |done].
  destruct (stop_line _ _ _ _); [|done]. intros u wd' ->. done.
Qed.

Lemma loop_good cap reading : forall fuel x w, synced w x -> live x -> work_ok (wk_work w) x ->
  Z.to_nat (ml_max_effects (x_limits x) - x_next_index x) < fuel ->
  keeps (attempt_loop enc wfuel fuel cap reading w) (fun r _ => r <> Err (CStuck LoopStuck)) (mkPeer x false).
Proof.
  induction fuel as [|fuel IH]; intros x w Hw Hx Hok Hm; [lia|]. cbn [attempt_loop]. apply keeps_bind.
  eapply keeps_mono; [intros ? H; exact H| |by apply (worker_step_good (mkPeer x false))].
  intros [[next st]|s] wd' [-> Hg]; [|by cbn in Hg; subst s]. destruct Hg as [Hn Hst]. intros ended wd' ->. split; [done|].
  destruct ended; [|done..]. apply keeps_try. rewrite (sy_id _ _ Hw). destruct (sp_effect st) as [e|].
  - destruct Hst as [He Hf]. rewrite (sy_index _ _ Hn). apply keeps_try.
    assert (synced (with_seen next (ef_path e)) (acked x (ef_path e))) as Hs.
    { destruct Hn as [H1 H2 H3 H4 H5]. constructor; cbn; [done..|by rewrite H4|by rewrite H5]. }
    cbn [with_seen wk_next_index]. rewrite (sy_index _ _ Hn).
    eapply report_keeps; [done|by apply batch_accepted| |done]. cbn [try_bind bind Programs.keeps].
    destruct (sp_finish st) as [[o at_]|]; [apply finish_keeps; [done|by apply live_acked|done]|].
    apply IH; [done|by apply live_acked|done|]. cbn. destruct He as [_ _ Hi _]. cbn in Hi. lia.
  - destruct Hst as (o & at_ & -> & Hf). by apply finish_keeps.
Qed.
End Steps.

(** ** The grant *)

Lemma match_directories first components : forall current paths, length paths = length components ->
  components_match current first (Some paths) components = Ok tt -> pushes current components = paths.
Proof.
  induction components as [|c components IH]; intros current paths Hlen H; [by destruct paths; [|discriminate]|].
  destruct paths as [|p paths]; [done|]. cbn [components_match] in H. change (default "" (head (p :: paths))) with p in H.
  destruct (negb (normal c)); [done|].
  destruct (String.eqb_spec (push current c) p) as [Hp|]; [|done]. destruct (existsb _ _); [done|]. cbn [negb orb] in H.
  cbn [pushes]. rewrite Hp in *. f_equal. apply IH; [by injection Hlen|done].
Qed.

Lemma push_longer p c : c <> "" -> String.length p < String.length (push p c).
Proof.
  intros Hc. assert (0 < String.length c) by (destruct c; [done|cbn; lia]).
  assert (forall a b, String.length (a +:+ b) = String.length a + String.length b) as Happ by (induction a; cbn; auto).
  unfold push. destruct (_ || _); rewrite !Happ; cbn; lia.
Qed.

Lemma match_exact current first c rest : components_match current first None (c :: rest) = Ok tt ->
  push current c = first /\ normal c = true /\ rest = [].
Proof.
  cbn [components_match default head]. destruct (normal c) eqn:En; [|done]. cbn [negb].
  destruct (String.eqb_spec (push current c) first) as [Hp|]; [|done]. destruct (existsb _ _); [done|]. cbn [negb orb fmap option_fmap option_map].
  destruct rest as [|d rest]; [done|]. cbn [components_match default head]. destruct (normal d) eqn:Ed; [|done]. cbn [negb].
  destruct (String.eqb_spec (push (push current c) d) first) as [Hq|]; [|done]. exfalso.
  assert (d <> "") as Hd by (intros ->; done). pose proof (push_longer (push current c) d Hd) as Hl. rewrite Hq, Hp in Hl. lia.
Qed.

Lemma normal_name c : Client.normal c = true -> seg c -> name_ok c.
Proof. intros H Hs. split; [done|]. unfold Client.normal in H. rewrite !andb_true_iff, !negb_true_iff in H. tauto. Qed.

Lemma granted_first_scope p g first : granted_first p g = Ok first ->
  match mg_scope g with
  | Exact q _ => first = q
  | RecursiveDelete r => first = r
  | Directories paths => head paths = Some first /\ length paths = length (pa_components p)
  end.
Proof.
  unfold granted_first, mismatch. intros H. repeat case_match; simplify_eq; try done.
  split; [done|]. by apply Nat.eqb_eq.
Qed.

(** What the parent of a granted path is, and the path itself. *)
Lemma granted_parent p g parent : grant_parent p g = Ok parent -> scope_canonical (mg_scope g) ->
  exists first leaf l, granted_first p g = Ok first /\ clean parent l /\ name_ok leaf /\ push parent leaf = first /\
    head (pa_components p) = Some leaf /\
    components_match parent first (match mg_scope g with Directories paths => Some paths | _ => None end)
      (pa_components p) = Ok tt.
Proof.
  unfold grant_parent. destruct (pa_fd p); [|done]. intros H Hc. destruct (granted_first p g) as [first|] eqn:Ef; [|done].
  cbv beta iota zeta in H. destruct (split first) as [[par leaf]|] eqn:Es; [|done]. destruct (_ || _) eqn:Eh; [done|].
  apply orb_false_iff in Eh as [_ Hhead]. apply negb_false_iff, bool_decide_eq_true in Hhead.
  destruct (components_match _ _ _ _) as [[]|] eqn:Em; [|done]. injection H as ->.
  assert (canonical_path first = Ok tt) as Hcan.
  { apply granted_first_scope in Ef. destruct (mg_scope g) as [q e|r|paths]; cbn in Hc; subst; [done..|].
    destruct paths as [|q paths]; [by destruct Ef|]. destruct Ef as [[= ->] _]. apply Hc. left. }
  destruct (canonical_clean _ Hcan) as [m Hm]. destruct (split_clean _ _ _ _ Hm Es) as (l & -> & Hl & Hseg).
  exists first, leaf, l. split_and!; try done.
  - apply normal_name; [|done]. unfold split in Es. destruct (Client.normal (default "" (last (split_char slash first)))) eqn:En;
      [|by rewrite orb_true_r in Es]. destruct (_ || _); [done|]. injection Es as _ <-. done.
  - destruct Hl as [Hls ->]. rewrite push_path by done. by destruct Hm as [_ ->].
Qed.

(** The page a request asks for, as the kernel's exchange has it. *)
Definition asked_page (v : Verb) : option PageRequest :=
  match v with Read _ _ page => Some (default WHOLE_FILE page) | _ => None end.

Record opened (p : Prepared) (g : MutationGrant) (x : Exchange) : Prop := {
  op_id : x_id x = mg_id g;
  op_scope : x_scope x = mg_scope g;
  op_limits : x_limits x = mg_limits g;
  op_index : x_next_index x = 0%Z;
  op_seen : x_seen x = ∅;
  op_live : live x;
  op_depth : (0 <= ml_max_depth (x_limits x))%Z;
  op_page : forall page, asked_page (pa_request p) = Some page ->
    x_read_page x = Some page /\ page_request_is_acceptable page = true /\ (0 <= pg_column page)%Z }.

Lemma object_work_ok p g x path fd : opened p g x -> granted_of p g = Ok (GrantedObject path) ->
  match pa_request p with
  | Read _ _ page => work_ok (WRead fd path (default WHOLE_FILE page)) x
  | FsWrite _ _ _ _ => forall b, work_ok (WReplace fd path b (pa_check p)) x
  | _ => True
  end.
Proof.
  intros Ho Hg. unfold granted_of in Hg. pose proof (op_page _ _ _ Ho) as Hp.
  assert (grant_object p g = Ok path \/ exists q, grant_parent p g = q /\ Ok (GrantedObject path) = (let? path := q in Ok (GrantedParent path)))
    as [Hob|(q & _ & Hq)].
  { destruct (pa_request p); try (right; eexists; split; [done|by symmetry]). 2: destruct mode; [|right; eexists; split; [done|by symmetry]].
    all: left; destruct (grant_object p g); [by injection Hg as ->|done]. }
  2: { by destruct q. }
  unfold grant_object, mismatch in Hob. destruct (pa_fd p); [|done]. destruct (mg_scope g) as [q e| |] eqn:Es; [|done..].
  destruct (bool_decide _) eqn:Ee; [|done]. destruct (starts_with "/" q); [|done]. injection Hob as ->.
  apply bool_decide_eq_true in Ee. pose proof (op_scope _ _ _ Ho) as Hs. rewrite Es in Hs. pose proof (op_index _ _ _ Ho) as Hi.
  destruct (pa_request p); try done; subst e.
  - destruct (Hp _ eq_refl) as (H1 & H2 & H3). by split_and!.
  - by split.
Qed.

(** The work on a held directory whose path is the granted parent. *)
Definition parent_work (p : Prepared) (parent : MutationDirectory) (b : list ascii) : option Work :=
  let leaf := default "" (head (pa_components p)) in
  match pa_request p with
  | FsWrite _ _ CreateExclusive _ => Some (WCreate parent leaf b)
  | FsDelete _ recursive => Some (WDelete parent leaf recursive [] None)
  | FsMkdir _ parents _ => Some (WMkdir parent (pa_components p) parents)
  | _ => None
  end.

Lemma parent_work_ok p g x parent b work : opened p g x -> grant_parent p g = Ok (md_path parent) -> held_ok parent ->
  parent_work p parent b = Some work -> work_ok work x.
Proof.
  intros Ho Hg Hh Hw. pose proof (op_scope _ _ _ Ho) as Hs. pose proof (op_index _ _ _ Ho) as Hi.
  destruct (granted_parent _ _ _ Hg) as (first & leaf & l & Hf & Hl & Hn & Hp & Hhd & Hm).
  { rewrite <-Hs. by apply (lv_scope _ (op_live _ _ _ Ho)). }
  pose proof (granted_first_scope _ _ _ Hf) as Hsc. unfold parent_work in Hw. rewrite Hhd in Hw. cbn [default] in Hw.
  unfold granted_first, mismatch in Hf. rewrite <-Hs in Hf, Hsc, Hm.
  destruct (pa_request p); try done.
  - destruct mode; [done|]. injection Hw as <-. destruct (x_scope x) as [q e| |] eqn:Ex; [|done..]. destruct e; try done.
    injection Hf as ->. split; [|done]. by rewrite Ex, Hp.
  - injection Hw as <-. destruct recursive.
    + destruct (x_scope x) as [q e|root|] eqn:Ex; [by destruct e| |done]. subst root. split_and!; [by rewrite Ex, Hp| |cbn; apply Ho| |done].
      * unfold root_unseen. rewrite Ex, (op_seen _ _ _ Ho). set_solver.
      * exists l. split_and!; [|done|done]. destruct Hh as [l' [_ Hnul]]. by split.
    + destruct (x_scope x) as [q e| |] eqn:Ex; [|done..]. destruct e; try done. injection Hf as ->.
      split_and!; [done|by rewrite Ex, Hp|done].
  - injection Hw as <-. destruct parents.
    + destruct (x_scope x) as [q e| |paths] eqn:Ex; [by destruct e|done|]. split; [done|]. exists paths. split; [done|].
      rewrite (match_directories _ _ _ _ (proj2 Hsc) Hm). by apply Forall_forall.
    + destruct (x_scope x) as [q e| |] eqn:Ex; [|done..]. destruct e; try done. injection Hf as ->.
      destruct (pa_components p) as [|c rest]; [done|]. apply match_exact in Hm as (Hm & _ & ->). exists c. by rewrite Ex, Hm.
Qed.

Lemma initial_work_good p g x granted : opened p g x -> granted_of p g = Ok granted ->
  keeps (initial_work p granted) (fun r wd => wd = mkPeer x false /\ match r with Ok work => work_ok work x | Err _ => True end)
    (mkPeer x false).
Proof.
  intros Ho Hg. unfold initial_work. destruct (pa_fd p) as [fd|] eqn:Efd; [|done]. destruct granted as [path|parent_path].
  - split; [done|]. pose proof (object_work_ok _ _ _ _ fd Ho Hg) as H. destruct (pa_request p); try done.
    destruct (pa_content_ p); [|done]. apply H.
  - assert (grant_parent p g = Ok parent_path) as Hp.
    { unfold granted_of in Hg. destruct (pa_request p); try (by destruct (grant_object p g));
        try (by destruct (grant_parent p g); simplify_eq/=). destruct mode; [by destruct (grant_object p g)|].
      by destruct (grant_parent p g); simplify_eq/=. }
    apply keeps_bind. eapply keeps_io; [done|apply verify_gives|]. intros [parent|e] Hv; [|by split]. split; [done|].
    cbn [with_deadline md_path]. destruct (same_path (md_path parent) parent_path) eqn:Esp; [|done]. cbn [negb].
    assert (md_path parent = parent_path) as Hpath.
    { destruct Hv as [l [Hl _]]. destruct (granted_parent _ _ _ Hp) as (? & ? & m & _ & Hm & _).
      { rewrite <-(op_scope _ _ _ Ho). apply (lv_scope _ (op_live _ _ _ Ho)). }
      by eapply same_path_clean. }
    rewrite <-Hpath in Hp.
    assert (forall b work, parent_work p (with_deadline parent) b = Some work -> work_ok work x) as Hwork.
    { intros b work. by apply parent_work_ok with (g := g). }
    unfold parent_work in Hwork. destruct (pa_request p); try done; [|by apply (Hwork [])..].
    destruct mode; [done|]. destruct (pa_content_ p) as [b|]; [|done]. by apply (Hwork b).
Qed.

(** ** Theorems *)

Section Accepted.
Context {CV SV JV BV KV : Type} (en : @Env CV SV JV BV KV).

Lemma begun_opened p id scope label x :
  begin_attempt en id scope (asked_page (pa_request p)) = Ok x ->
  (forall page, asked_page (pa_request p) = Some page -> page_request_is_acceptable page = true /\ (0 <= pg_column page)%Z) ->
  opened p (mkGrant id scope (attempt_limits en scope) label) x.
Proof.
  intros Hx Hpage.
  assert (exists rp, open_exchange 0 id scope (attempt_limits en scope) rp = Ok x /\
    forall page, asked_page (pa_request p) = Some page -> rp = Some page) as (rp & Ho & Hrp).
  { unfold begin_attempt, begin_paged, begin_exchange in Hx. destruct (asked_page (pa_request p)) as [page|]; [|by eexists].
    destruct (negb (is_read scope)); [done|]. exists (Some page). split; [done|]. by intros ? [= ->]. }
  unfold open_exchange in Ho. destruct (_ || _) eqn:El; [done|]. destruct (_ && _); [done|].
  assert (scope_canonical scope /\ x = mkExchange id scope (attempt_limits en scope) rp 0 0 false false ∅) as [Hc ->].
  { destruct scope as [q e|r|paths]; cbn [scope_canonical].
    - destruct (canonical_path q) as [[]|]; [|done]. by injection Ho as <-.
    - destruct (canonical_path r) as [[]|]; [|done]. by injection Ho as <-.
    - destruct paths as [|q paths]; [done|]. destruct (ml_max_depth (attempt_limits en (Directories (q :: paths))) <? _)%Z; [done|].
      destruct (try_map canonical_path (q :: paths)) as [us|] eqn:Et; [|done]. cbv beta iota zeta in Ho. destruct (nested (q :: paths)); [|done].
      injection Ho as <-. split; [|done]. intros c Hin. apply try_map_Ok in Et. apply list_elem_of_lookup in Hin as [i Hi].
      destruct (Forall2_lookup_l _ _ _ _ _ Et Hi) as ([] & _ & Hu). done. }
  assert (0 <= ml_max_bytes (attempt_limits en scope))%Z as Hb by (unfold attempt_limits, READ_PAGE_MAX_BYTES; cbn [ml_max_bytes]; destruct (is_read scope); lia).
  constructor; try done. intros page Ha. destruct (Hpage page Ha). by rewrite <-(Hrp page Ha).
Qed.

(** C7: the kernel refuses no report of an honest client. Whatever the file system, the
    clock and the acknowledgments answer, every report the client sends for an attempt the
    kernel opened and granted - the effects of a read, a replacement, a creation, a chain of
    directories or a recursive deletion, each numbered, and the finish - is one the exchange
    validates; and the client's own loops end within their fuel. *)
Theorem honest_reports_accepted (enc : MutationReport -> result Z string) (read_timeout_ms : Z) (wfuel : nat)
    (p : Prepared) (id : MutationId) (scope : MutationScope) (label : string) (cap : Z) (x : Exchange)
    (Hx : begin_attempt en id scope (asked_page (pa_request p)) = Ok x)
    (Hpage : forall page, asked_page (pa_request p) = Some page ->
       page_request_is_acceptable page = true /\ (0 <= pg_column page)%Z) :
  let attempt := run_attempt enc read_timeout_ms wfuel p (mkGrant id scope (attempt_limits en scope) label) cap in
  (forall tr w, does attempt tr -> reaches peer_acts (mkPeer x false) tr w -> pe_refused w = false) /\
  (forall tr w r, runs attempt tr r -> reaches peer_acts (mkPeer x false) tr w -> r <> Err (CStuck LoopStuck)).
Proof.
  intros attempt. assert (keeps attempt (fun r _ => r <> Err (CStuck LoopStuck)) (mkPeer x false)) as Hk.
  { pose proof (begun_opened p id scope label x Hx Hpage) as Ho. subst attempt. set (g := mkGrant _ _ _ _) in *.
    unfold run_attempt. destruct (granted_of p g) as [granted|] eqn:Eg; [|done]. destruct (limits_invalid _); [done|].
    intros ok wd ->. split; [done|]. destruct ok; [|done]. intros passed wd [-> _]. split; [done|]. destruct passed; [done|].
    destruct (negb _); [done|]. apply keeps_bind. eapply keeps_mono; [intros ? H; exact H| |by eapply initial_work_good].
    intros work wd [-> Hw]. intros ended wd ->. split; [done|]. destruct ended; [|done..]. destruct work as [work|]; [|done].
    apply loop_good; [|apply (op_live _ _ _ Ho)|done|].
    - destruct Ho. by constructor.
    - unfold attempt_fuel. rewrite (op_limits _ _ _ Ho), (op_index _ _ _ Ho). cbn. lia. }
  split; [intros tr w Hd Hr|intros tr w r Hd Hr].
  - eapply (keeps_does peer_acts unrefused attempt); [|exact Hk|exact Hd|exact Hr]. reflexivity.
  - exact (keeps_runs peer_acts unrefused attempt (fun r _ => r <> Err (CStuck LoopStuck)) _ _ _ _ Hk Hd Hr).
Qed.
End Accepted.

(** ** Witness *)

(** A directory [/home/alice/d] that holds a file [f], deleted with what it holds. *)
Definition demo_dir : Stat := mkStat 1 2 S_IFDIR 2 1000 0 0 0 0 0.
Definition demo_io (seen : gset string) (X : Type) (e : io_effect X) : X :=
  match e in io_effect X return X with
  | FStat _ | StatPath _ | FstatatNofollow _ _ => Ok demo_dir
  | FdPath 3 => Ok "/home/alice"
  | FdPath _ => Ok "/home/alice/d"
  | ReopenWritable _ _ | ReopenReadable _ _ | OpenTempExcl _ _ => Err EACCES
  | WriteAt _ _ _ => Err EIO
  | TruncateFd _ _ | FsyncFd _ | MkdirAt _ _ => Err EIO
  | ReadHeld _ => mkSource [] None
  | DeadlinePassed => false
  | RemoveAt _ leaf _ =>
      if String.eqb leaf "d" && negb (bool_decide ("/home/alice/d/f" ∈ seen)) then Err ENOTEMPTY else Ok tt
  | OpenMutationDirectoryAt _ _ => Ok 4
  | OpenDirAt _ _ => Ok 5
  | OpenDirHandle _ => Ok [Ok (mkDirent "f" (Some KFile) 9)]
  end.
Definition demo_peer (X : Type) (w : Peer) (e : client_effect X) : X * Peer :=
  match e in client_effect X return X * Peer with
  | OnIo e => (demo_io (x_seen (pe_x w)) _ e, w)
  | OpenPathForDelegation _ | OpenDirectoryForDelegation _ => (Ok 3, w)
  | DeadlineRepresentable _ => (true, w)
  | WorkerEnd => (JoinInTime, w)
  | Diag _ => (tt, w)
  | SendReport m =>
      match validate_report (pe_x w) m with
      | Err _ => (ReportBroken "refused", mkPeer (pe_x w) true)
      | Ok (x, pending) =>
          match acknowledge x pending with
          | Ok (x', ack) => (AckRead ack, mkPeer x' (pe_refused w))
          | Err _ => (ReportBroken "closed", w)
          end
      end
  end.

Lemma demo_peer_acts X w (e : client_effect X) x w' : demo_peer X w e = (x, w') -> peer_acts w (Ev _ e x) w'.
Proof.
  destruct e as [X e| | | | |m|]; cbn; try (by intros [= <- <-]).
  - intros [= <- <-]. split; [done|]. destruct e; try done. cbn. destruct fd as [|[|[|[|fd]]]]; cbn; intros _.
    4: exists ["home"; "alice"]. 1-3, 5: exists ["home"; "alice"; "d"]. all: split; [|done]; by repeat constructor.
  - destruct (validate_report (pe_x w) m) as [[x1 p]|]; [|by intros [= <- <-]].
    destruct (acknowledge x1 p) as [[x2 ack]|] eqn:E; intros [= <- <-]; by split.
Qed.

Definition demo_client_env : @Env unit unit unit unit unit :=
  mkEnv (mkSession 1000 (Some "alice") 1 LaneLocal (Checked Active)) None 1048576 65536 tt (fun _ => tt)
    (fun _ => Some 64%Z) (fun _ _ => Some 64%Z) (fun _ => Err "unused") 5000 524288 "US" (fun _ => true)
    (fun s => s) (fun _ => GOther) (fun _ => "0").
Definition demo_deletion : Prepared :=
  mkPreparedAttempt (FsDelete "/home/alice/d" true) None (Some 3) None ["d"] Unchecked.
Definition demo_exchange : Exchange :=
  mkExchange (mkId 1 1) (RecursiveDelete "/home/alice/d") (attempt_limits demo_client_env (RecursiveDelete "/home/alice/d"))
    None 0 0 false false ∅.
Definition demo_attempt : prog (result Attempted client_error) :=
  run_attempt (fun _ => Ok 64%Z) 5000 8 demo_deletion
    (mkGrant (mkId 1 1) (RecursiveDelete "/home/alice/d") (attempt_limits demo_client_env (RecursiveDelete "/home/alice/d"))
       "UNCLASSIFIED") 65536.
Definition demo_run := simulate demo_peer demo_attempt (mkPeer demo_exchange false).

Lemma demo_begun :
  begin_attempt demo_client_env (mkId 1 1) (RecursiveDelete "/home/alice/d") (asked_page (pa_request demo_deletion)) = Ok demo_exchange.
Proof. vm_compute. reflexivity. Qed.
Lemma demo_ends : fst (fst demo_run) = Ok (mkAttempted true None None false None).
Proof. vm_compute. reflexivity. Qed.
Lemma demo_two_effects : x_next_index (pe_x (snd demo_run)) = 2%Z.
Proof. vm_compute. reflexivity. Qed.
Lemma demo_happens : exists tr, runs demo_attempt tr (fst (fst demo_run)) /\ reaches peer_acts (mkPeer demo_exchange false) tr (snd demo_run).
Proof.
  unfold demo_run. generalize demo_attempt. intros p. destruct (simulate demo_peer p (mkPeer demo_exchange false)) as [[r tr] w] eqn:E.
  exists tr. exact (simulate_runs peer_acts demo_peer demo_peer_acts _ _ _ _ _ E).
Qed.

Lemma honest_reports_accepted_witness :
  fst (fst demo_run) = Ok (mkAttempted true None None false None) /\
  x_next_index (pe_x (snd demo_run)) = 2%Z /\ pe_refused (snd demo_run) = false.
Proof.
  split; [exact demo_ends|]. split; [exact demo_two_effects|]. destruct demo_happens as (tr & Hr & Hw).
  revert Hr Hw. generalize (fst (fst demo_run)) (snd demo_run). intros r w Hr Hw.
  refine (proj1 (honest_reports_accepted demo_client_env (fun _ => Ok 64%Z) 5000 8 demo_deletion (mkId 1 1)
    (RecursiveDelete "/home/alice/d") "UNCLASSIFIED" 65536 demo_exchange demo_begun _) tr w _ Hw).
  - done.
  - exact (runs_does demo_attempt tr r Hr).
Defined.
