(* ===== verification/Loop.v ===== *)
(** * The agent's plane over the wire: [crates/maknae-loop/src/{outcome,send,plane}.rs]

    One authenticated connection per verb. The connection, the frames and the key supply are
    effects; the request encoder and the response decoder are parameters. What the loop is
    told ([Agent]'s outcomes) is what [Client]'s attempt came to. *)
From stdpp Require Import base list strings gmap.
From Stdlib Require Import ZArith Lia Ascii.
From S2P Require Import Prelude Programs RustStr RustSlice Seam Config PathGlob AuthzPolicy Wire Providers Handler.
From S2P Require Import GraphFormat MutationExchange Egress Effects Mutation Agent ErrorTexts Page HeldIo Client.
Open Scope nat_scope.

(** ** Waits ([send.rs], [maknae-config/src/transport.rs]) *)

Definition TRANSPORT_TIMEOUT_MS_MAX : Z := 60000.
Definition HOME_RESOLVE_TIMEOUT_MS : Z := 5000.
Definition BLOCKING_STAGE_TIMEOUT_MS : Z := 5000.
Definition CONTAINMENT_REPLY_STAGES : Z := 10.
Definition BASELINE_ACCEPT_REPLY_STAGES : Z := 11.
Definition ADMIN_REPLY_MARGIN_MS : Z := 10000.
Definition GROUP_LOOKUP_TIMEOUT_MS : Z := 5000.
Definition ADMISSION_AUDIT_TIMEOUT_MS : Z := 5000.
Definition PROMPT_REPLY_MARGIN : Z := 40000.
Definition SESSION_CHECKS_MS : Z := 2 * GROUP_LOOKUP_TIMEOUT_MS + ADMISSION_AUDIT_TIMEOUT_MS.

(** The settings the loop reads. *)
Record TransportConfig := mkTransport {
  tc_read_timeout_ms : Z; tc_handshake_timeout_ms : Z; tc_prompt_max_bytes : Z }.

Definition class_wait (class : FrameClass) (t : TransportConfig) : Z :=
  match class with
  | Prompt => EGRESS_DEADLINE_MS_MAX + TRANSPORT_TIMEOUT_MS_MAX + PROMPT_REPLY_MARGIN
  | Attempt => tc_read_timeout_ms t + HOME_RESOLVE_TIMEOUT_MS + SESSION_CHECKS_MS
  | Control => tc_read_timeout_ms t + SESSION_CHECKS_MS
  end.

Definition reply_wait (verb : Verb) (t : TransportConfig) : Z :=
  let waiting stages :=
    (class_wait (frame_class_of verb) t + (stages * BLOCKING_STAGE_TIMEOUT_MS + ADMIN_REPLY_MARGIN_MS))%Z in
  match verb with
  | AdminContain _ _ | AdminRelease _ => waiting CONTAINMENT_REPLY_STAGES
  | AdminBaselineAccept _ => waiting BASELINE_ACCEPT_REPLY_STAGES
  | _ => class_wait (frame_class_of verb) t
  end.

Definition content_write_bound (t : TransportConfig) : Z :=
  tc_read_timeout_ms t + GROUP_LOOKUP_TIMEOUT_MS + ADMISSION_AUDIT_TIMEOUT_MS.
Definition request_write_bound (class : FrameClass) (t : TransportConfig) : Z :=
  match class with Control => tc_read_timeout_ms t | Attempt | Prompt => content_write_bound t end.

Definition ms (n : Z) : string := int_to_string n +:+ "ms".
Definition write_stalled (class : FrameClass) (t : TransportConfig) : string :=
  let bound := ms (request_write_bound class t) in
  match class with
  | Control => "request write to the daemon stalled for " +:+ bound +:+ " (daemon not reading?)"
  | Attempt | Prompt =>
      "request write to the daemon stalled for " +:+ bound +:+ " (read_timeout_ms " +:+ ms (tc_read_timeout_ms t)
        +:+ " + group lookup " +:+ ms GROUP_LOOKUP_TIMEOUT_MS +:+ " + admission audit "
        +:+ ms ADMISSION_AUDIT_TIMEOUT_MS +:+ "); daemon not reading?"
  end.
Definition reply_stalled (class : FrameClass) (wait : Z) : string :=
  match class with
  | Control =>
      "no response from daemon within " +:+ ms wait
        +:+ "; it may be slow admitting the connection or re-checking the session (the session-fact lookups at connect and at the request, or the admission audit)"
  | Attempt | Prompt => "no response from daemon within " +:+ ms wait +:+ " (stalled?)"
  end.

(** ** Sending a verb *)

(** A bounded step of the connection. *)
Inductive Bounded (A : Type) := InTime (a : A) | Broken (why : string) | Elapsed.
Arguments InTime {A} a.
Arguments Broken {A} why.
Arguments Elapsed {A}.

Section Loop.
Context {CV SV JV BV KV : Type}.
Local Notation Payload := (@Effects.Payload CV SV JV BV KV).
Local Notation Response := (@Effects.Response CV SV JV BV KV).

Inductive loop_effect : Type -> Type :=
| OnClient {X : Type} (e : client_effect X) : loop_effect X
| Connect : loop_effect (Bounded unit)
| CloneDescriptor (fd : nat) : loop_effect (result unit string)
| HasArmer : loop_effect bool
| Arm (fd : nat) : loop_effect unit
| WriteRequest (class : FrameClass) (r : WireRequest) : loop_effect (Bounded unit)
| AwaitReply (class : FrameClass) (wait : Z) : loop_effect (Bounded bytes)
| NowUnix : loop_effect (result Z string)
| KeyChoice (conversation : string) (now : Z) : loop_effect (result ProviderChoice string).

Local Notation prog := (Programs.prog loop_effect).
Definition on_client {A} (p : Programs.prog client_effect A) : prog A := lift (@OnClient) p.

(** What one sent verb came back as ([outcome.rs]). *)
Inductive SentOutcome :=
| SPayload (p : Payload)
| SWriteDone (e : WriteEnd)
| SReadDone (read : option ReadResult)
| SRefused (code : ProtoErrCode) (message : string) (armed : bool).

(** [encode_request_zeroizing] under a cap, and [decode_response]. *)
Context (encode_request : WireRequest -> Z -> result unit string).
Context (decode_response : bytes -> result Response string).
Context (encode_mutation_report : MutationReport -> result Z string).
Context (transport : TransportConfig) (wfuel : nat).

Definition request_cap (class : FrameClass) : Z :=
  match class with
  | Control => CONTROL_REQUEST_MAX
  | Attempt => ATTEMPT_REQUEST_MAX
  | Prompt => tc_prompt_max_bytes transport
  end.

(** Arms the descriptor and says whether one was. *)
Definition arm_prepared (prepared : option Prepared) : prog (result bool client_error) :=
  match prepared with
  | None => Ret (Ok true)
  | Some p =>
      let* _ := match arming_diagnostic p with
                | Some line => let# _ := OnClient (Diag line) in Ret tt
                | None => Ret tt
                end in
      let*? fd := match pa_fd p with
                  | None => Ret (Ok None)
                  | Some fd =>
                      let# cloned := CloneDescriptor fd in
                      Ret match cloned with Ok _ => Ok (Some fd) | Err e => Err (CErr e) end
                  end in
      let# armer := HasArmer in
      match fd, armer with
      | Some fd, true => let# _ := Arm fd in Ret (Ok true)
      | _, _ => Ret (Ok false)
      end
  end.

Definition send_request_frame (class : FrameClass) (r : WireRequest) : prog (result unit client_error) :=
  let# written := WriteRequest class r in
  Ret match written with
      | InTime _ => Ok tt
      | Broken e => Err (CErr e)
      | Elapsed => Err (CErr (write_stalled class transport))
      end.
Definition await_reply (class : FrameClass) (wait : Z) : prog (result bytes client_error) :=
  let# reply := AwaitReply class wait in
  Ret match reply with
      | InTime body => Ok body
      | Broken e => Err (CErr e)
      | Elapsed => Err (CErr (reply_stalled class wait))
      end.

Definition text_err {A} (r : result A string) : result A client_error :=
  match r with Ok a => Ok a | Err e => Err (CErr e) end.

(** What a grant is used for. *)
Definition perform (prepared : option Prepared) (g : MutationGrant) : prog (result SentOutcome client_error) :=
  match prepared with
  | None => Ret (Err (CErr "protocol error: mutation grant for an ordinary request"))
  | Some p =>
      let read_timeout := tc_read_timeout_ms transport in
      if is_reading p then
        let*? read := on_client (execute_read encode_mutation_report read_timeout wfuel p g) in
        Ret (Ok (SReadDone read))
      else
        let*? ended := on_client (execute encode_mutation_report read_timeout wfuel p g) in
        Ret (Ok (SWriteDone ended))
  end.

Definition send_verb (request_verb : Verb) (content : option (list ascii)) (check : WriteCheck)
  : prog (result SentOutcome client_error) :=
  let# connected := Connect in
  match connected with
  | Elapsed => Ret (Err (CErr ("TLS handshake to the daemon timed out after " +:+ ms (tc_handshake_timeout_ms transport))))
  | Broken e => Ret (Err (CErr e))
  | InTime _ =>
      let* prepared := on_client (prepare_checked request_verb content check) in
      let*? armed := arm_prepared prepared in
      let verb := match prepared with Some p => pa_request p | None => request_verb end in
      let request := mkWireRequest PROTOCOL_VERSION verb in
      let class := frame_class_of verb in
      let*? _ := Ret (text_err (encode_request request (request_cap class))) in
      let*? _ := send_request_frame class request in
      let*? body := await_reply class (reply_wait verb transport) in
      let*? response := Ret (text_err (decode_response body)) in
      match response with
      | ROk (PMutationAttempt g) => perform prepared g
      | ROk payload => Ret (Ok (SPayload payload))
      | RErr code message => Ret (Ok (SRefused code message armed))
      end
  end.

Definition write_request (path : string) (content : list ascii) (conversation : option string) (content_max : Z)
  : result (Verb * list ascii) string :=
  let len := Z.of_nat (length content) in
  if (content_max <? len)%Z then Err "content exceeds the configured prompt budget"
  else Ok (FsWrite path len Existing conversation, content).

(** ** The outcome *)

Definition wire_outcome (sent : SentOutcome) : WireOutcome Payload :=
  match sent with
  | SPayload p => WirePayload p
  | SWriteDone e => WriteDone (we_applied e) (we_stale e) (we_version e)
  | SReadDone read =>
      ReadDone ((fun r =>
        mkWireRead (String.string_of_list_ascii (rr_content r)) (rr_label r) (pm_lines (rr_page r))
          (pm_complete_last (rr_page r)) (pm_next (rr_page r)) (pm_eof (rr_page r))
          (version_key (pm_version (rr_page r)))) <$> read)
  | SRefused code message armed => WireRefused code message armed
  end.

(** The end of a sent verb, as the loop's outcome functions take it; the client's own fuel
    apart. *)
Definition sent_wire (r : result SentOutcome client_error) : result (result (WireOutcome Payload) string) stuck :=
  match r with
  | Ok sent => Ok (Ok (wire_outcome sent))
  | Err (CErr e) => Ok (Err e)
  | Err (CStuck s) => Err s
  end.

(** ** The plane *)

Record Spare := mkSpare { sp_conversation : string; sp_minted_at : Z; sp_choice : ProviderChoice }.
Definition USER_KEY_WRAP_TTL_SECS : Z := 60.
Definition SPARE_MAX_AGE_SECS : Z := USER_KEY_WRAP_TTL_SECS / 2.

(** The spare is taken whether or not it is used. *)
Definition take_spare (spare : option Spare) (conversation : string) (now : Z) : option Spare :=
  s ← spare;
  if String.eqb (sp_conversation s) conversation && (now <=? sp_minted_at s + SPARE_MAX_AGE_SECS)%Z
  then Some s else None.

Definition frame_fits (verb : Verb) (cap : Z) : bool :=
  match encode_request (mkWireRequest PROTOCOL_VERSION verb) cap with Ok _ => true | Err _ => false end.

(** [prompt]: what it comes to, and the spare it leaves. *)
Definition plane_prompt (reply_of : Payload -> option PromptReply) (shown : WireOutcome Payload -> string)
    (output_tokens : option Z) (spare : option Spare) (conversation : string) (turns : list TurnOf)
  : prog (result (result PromptReply PlaneError * option Spare) stuck) :=
  let verb choice := SessionPrompt conversation turns output_tokens choice in
  let cap := tc_prompt_max_bytes transport in
  if negb (frame_fits (verb None) cap) then Ret (Ok (Err FrameTooLarge, spare))
  else
    let# now := NowUnix in
    match now with
    | Err e => Ret (Ok (Err (PTransport e), spare))
    | Ok now =>
        let* chosen :=
          match take_spare spare conversation now with
          | Some s => Ret (Ok (sp_choice s, sp_minted_at s))
          | None =>
              let# choice := KeyChoice conversation now in
              Ret match choice with Ok c => Ok (c, now) | Err e => Err e end
          end in
        match chosen with
        | Err e => Ret (Ok (Err (PTransport e), None))
        | Ok (choice, minted_at) =>
            let verb := verb (Some choice) in
            if negb (frame_fits verb cap)
            then Ret (Ok (Err FrameTooLarge, Some (mkSpare conversation minted_at choice)))
            else
              let* sent := send_verb verb None Unchecked in
              Ret (let? outcome := sent_wire sent in Ok (prompt_outcome reply_of shown outcome, None))
        end
    end.

Definition plane_read (conversation path : string) (page : PageRequest) : prog (result ReadOutcome stuck) :=
  let* sent := send_verb (Read path (Some conversation) (Some page)) None Unchecked in
  Ret (let? outcome := sent_wire sent in Ok (read_outcome outcome)).

Definition plane_write (write_max : Z) (conversation path : string) (content : list ascii) (basis : ReadBasis)
  : prog (result WriteOutcome stuck) :=
  match write_request path content (Some conversation) write_max with
  | Err _ => Ret (Ok WNotSent)
  | Ok (verb, content) =>
      let* sent := send_verb verb (Some content) (check_for basis) in
      Ret (let? outcome := sent_wire sent in Ok (write_outcome outcome))
  end.
End Loop.
