(* ===== verification/LoopTheorems.v ===== *)
(** * What an agent's write does to the file

    The loop's write, from the request to the outcome the agent is told, over one file
    nobody else writes. What is told is what happened, and a file that was there is
    overwritten only in a version the agent read. *)
From stdpp Require Import base list strings gmap.
From Stdlib Require Import ZArith Lia Ascii.
From S2P Require Import Prelude Programs RustStr RustSlice Seam Config PathGlob AuthzPolicy Wire Providers Handler.
From S2P Require Import GraphFormat MutationExchange Egress Effects Mutation Agent ErrorTexts Page HeldIo HeldTheorems.
From S2P Require Import Client Loop.
Open Scope nat_scope.

(** ** Lifted programs *)

Lemma keeps_lift {E F : Type -> Type} {W A} (f : forall X, E X -> F X) (step : W -> Programs.event E -> W -> Prop)
    (step' : W -> Programs.event F -> W -> Prop) I (p : Programs.prog E A) Q w :
  (forall w X (e : E X) x w', step' w (Ev X (f X e) x) w' -> step w (Ev X e x) w') ->
  Programs.keeps step I p Q w -> Programs.keeps step' I (lift f p) Q w.
Proof.
  intros Hs. revert w. induction p as [a|X e k IH]; intros w Hk; [done|]. intros x w' Hx.
  destruct (Hk x w' (Hs _ _ _ _ _ Hx)). auto.
Qed.

Lemma keeps_returns {E : Type -> Type} {W A} (step : W -> Programs.event E -> W -> Prop) I (p : Programs.prog E A) Q P w :
  Programs.keeps step I p Q w -> returns P p -> Programs.keeps step I p (fun a w' => Q a w' /\ P a) w.
Proof.
  revert w. induction p as [a|X e k IH]; intros w Hk Hp; [done|]. intros x w' Hx. destruct (Hk x w' Hx). split; [done|].
  by apply IH.
Qed.

(** ** The client over a file *)

Definition client_acts (w : File) (ev : Programs.event client_effect) (w' : File) : Prop :=
  match ev_effect ev in client_effect X return X -> Prop with
  | OnIo e => fun x => file_acts w (Ev _ e x) w'
  | _ => fun _ => w' = w
  end (ev_answer ev).
Local Notation keeps := (Programs.keeps client_acts (fun _ => True)).

Definition quiet {A} (p : Programs.prog client_effect A) : Prop := forall w, keeps p (fun _ w' => w' = w) w.

Lemma keeps_on_io {A} (p : Programs.prog io_effect A) Q w :
  Programs.keeps file_acts (fun _ => True) p Q w -> keeps (on_io p) Q w.
Proof. by apply keeps_lift. Qed.
Lemma quiet_io {A} (p : Programs.prog io_effect A) : still p -> quiet (on_io p).
Proof. intros Hp w. apply keeps_on_io, Hp. Qed.

Lemma reserve_quiet enc w path effect depth : quiet (reserve enc w path effect depth).
Proof.
  unfold reserve. intros f. destruct (negb _); [done|]. destruct (_ || _); [done|]. intros passed f' ->. split; [done|].
  destruct passed; [done|]. case_bool_decide; [done|]. destruct (negb _); [done|]. by destruct (forallb _ _).
Qed.

Lemma error_step_finish e effect path : exists o, sp_finish (error_step e effect path) = Some (o, Some path) /\ o <> FSuccess.
Proof.
  unfold error_step. cbn [sp_finish]. eexists. split; [done|]. destruct (mf_state e); [by destruct (mf_source e)|done..].
Qed.

Section Write.
Context (b : list ascii) (base : WriteBase).

(** What may have happened to the file. *)
Definition allowed_change (w w' : File) : Prop :=
  fl_bytes w' <> fl_bytes w -> fl_created w' = true \/ base_met base (fl_version w).

Lemma allowed_refl w : allowed_change w w.
Proof. by intros []. Qed.
#[local] Hint Resolve allowed_refl : core.

Definition step_end (w : File) (r : result (Worker * Step) stuck) (w' : File) : Prop :=
  allowed_change w w' /\
  match r with
  | Ok (wk, st) =>
      exists o at_, sp_finish st = Some (o, at_) /\
        (o = FSuccess -> fl_bytes w' = b /\ forall ver, wk_version wk = Some ver -> ver = fl_version w') /\
        (wk_stale wk = true -> fl_bytes w' = fl_bytes w /\ o <> FSuccess)
  | Err s => s = WriteStalled
  end.

Lemma reserve_stop enc w path effect depth :
  returns (fun r => match r with Ok _ => True | Err st => exists o p, st = step_stop o p /\ o <> FSuccess end)
    (reserve enc w path effect depth).
Proof.
  assert (forall o p, o <> FSuccess -> exists o' p', step_stop o p = step_stop o' p' /\ o' <> FSuccess) as Hst by eauto.
  unfold reserve. destruct (negb _); [by apply Hst|]. destruct (_ || _); [by apply Hst|]. intros [|]; [by apply Hst|].
  case_bool_decide; [by apply Hst|]. destruct (negb _); [by apply Hst|]. destruct (forallb _ _); [done|by apply Hst].
Qed.

Lemma reserving_end enc wk path effect depth k w : wk_stale wk = false ->
  (forall p, keeps (k p) (step_end w) w) -> keeps (reserving enc wk path effect depth k) (step_end w) w.
Proof.
  intros Hs Hk. apply keeps_bind. eapply keeps_mono; [done| |apply keeps_returns; [apply reserve_quiet|apply reserve_stop]].
  intros [p|st] w' [-> Hst]; [apply Hk|]. destruct Hst as (o & p & -> & Ho). split; [done|].
  exists o, p. split_and!; [done|done|]. by rewrite Hs.
Qed.

Lemma replace_step_end enc wfuel wk held path check w :
  write_base check = base -> wk_stale wk = false -> keeps (step_replace enc wfuel wk held path b check) (step_end w) w.
Proof.
  intros Hb Hs. apply reserving_end; [done|]. intros p. apply keeps_bind, keeps_on_io. rewrite Hb.
  eapply keeps_mono; [done| |apply keeps_returns; [apply (replace_held_keeps wfuel held p b base w)|apply replace_held_harmless]].
  intros [v|[f|]] w' [[Hch Hr] Hh]; [|destruct (error_step_finish f ReplacedFile p) as (o & Ho & Hn)|]; (split; [intros H; right; by apply Hch|]).
  - do 2 eexists. split_and!; [done|by destruct Hr as (? & _ & ?)|]. cbn [with_version wk_stale]. by rewrite Hs.
  - do 2 eexists. split_and!; [done|done|]. cbn [with_stale wk_stale]. intros Hst. split; [|done]. apply Hr.
    destruct Hh as [Hf|Hf]; [|done]. by destruct (mf_source f).
  - done.
Qed.

Lemma create_step_end enc wfuel wk parent leaf w :
  wk_stale wk = false -> keeps (step_create enc wfuel wk parent leaf b) (step_end w) w.
Proof.
  intros Hs. apply reserving_end; [done|]. intros p. apply keeps_bind, keeps_on_io.
  eapply keeps_mono; [done| |apply (create_exclusive_keeps wfuel parent leaf b w)].
  assert (forall w', w' = w \/ fl_created w' = true -> allowed_change w w') as Hall.
  { intros w' [-> |H]; [done|]. intros _. by left. }
  intros [[q v]|[f|]] w' [Hch Hr]; [|destruct (error_step_finish f CreatedFile p) as (o & Ho & Hn)|]; (split; [by apply Hall|]).
  - do 2 eexists. split_and!; [done|done|]. cbn [with_version wk_stale]. by rewrite Hs.
  - do 2 eexists. split_and!; [done|done|]. by rewrite Hs.
  - done.
Qed.

(** ** The attempt *)

Definition attempt_end (w : File) (r : result Attempted client_error) (w' : File) : Prop :=
  allowed_change w w' /\
  match r with
  | Ok a =>
      (at_success a = true -> fl_bytes w' = b /\ forall ver, at_version a = Some ver -> ver = fl_version w') /\
      (at_stale a = true -> fl_bytes w' = fl_bytes w /\ at_success a = false)
  | Err e => e <> CStuck LoopStuck
  end.

Lemma report_quiet enc cap m id index : quiet (report enc cap m id index).
Proof.
  intros w. unfold report. destruct (enc m); [|done]. destruct (_ <? _)%Z; [done|]. intros [ack|e|] w' ->; [|done..].
  split; [done|]. by destruct (_ || _).
Qed.

Lemma report_fails enc cap m id index : fails (fun e => e <> CStuck LoopStuck) (report enc cap m id index).
Proof.
  unfold report. destruct (enc m); [|done]. destruct (_ <? _)%Z; [done|]. intros [ack|e|]; [|done..]. by destruct (_ || _).
Qed.
Lemma reported_end enc cap m id index (k : unit -> Programs.prog client_effect (result Attempted client_error)) w w1 :
  allowed_change w w1 -> keeps (k tt) (attempt_end w) w1 -> keeps (try_bind (report enc cap m id index) k) (attempt_end w) w1.
Proof.
  intros Ha Hk. apply keeps_try. eapply keeps_mono; [done| |apply keeps_returns; [apply report_quiet|apply report_fails]].
  intros [[]|e] w' [-> He]; [done|by split].
Qed.

Lemma finish_end enc cap reading wk o at_ w w1 : allowed_change w w1 ->
  (o = FSuccess -> fl_bytes w1 = b /\ forall ver, wk_version wk = Some ver -> ver = fl_version w1) ->
  (wk_stale wk = true -> fl_bytes w1 = fl_bytes w /\ o <> FSuccess) ->
  keeps (finish_attempt enc cap reading wk o at_) (attempt_end w) w1.
Proof.
  intros Ha Ho Hs. unfold finish_attempt. apply reported_end; [done|].
  set (o' := if bool_decide (o = FOsRefused) && (0 <? wk_next_index wk)%Z then FPartial else o).
  assert (o' = FSuccess -> o = FSuccess) as Ho'.
  { subst o'. by destruct (bool_decide (o = FOsRefused) && (0 <? wk_next_index wk)%Z). }
  assert (attempt_end w (Ok (mkAttempted (bool_decide (o' = FSuccess)) (wk_content wk) (wk_page wk) (wk_stale wk) (wk_version wk))) w1) as Hend.
  { split; [done|]. cbn. split.
    - intros H%bool_decide_eq_true. by apply Ho, Ho'.
    - intros H. destruct (Hs H). split; [done|]. apply bool_decide_eq_false. intros E. by apply Ho' in E. }
  destruct (stop_line _ _ _ _); [|done]. by intros x w' ->.
Qed.

Lemma loop_end enc wfuel fuel cap reading wk w : keeps (worker_step enc wfuel wk) (step_end w) w ->
  keeps (attempt_loop enc wfuel (S fuel) cap reading wk) (attempt_end w) w.
Proof.
  intros Hstep. cbn [attempt_loop]. apply keeps_bind.
  eapply keeps_mono; [done| |exact Hstep]. intros [[wk' st]|s] w' [Ha Hr]; [|by split; [|intros [= ->]]].
  destruct Hr as (o & at_ & Hf & Ho & Hs). intros ended w2 ->. split; [done|]. destruct ended; [|done..].
  rewrite Hf. destruct (sp_effect st) as [e|]; [|by apply finish_end].
  apply keeps_try. apply keeps_try. eapply keeps_mono; [done| |apply keeps_returns; [apply report_quiet|apply report_fails]].
  intros [u|er] w2 [-> He]; [|by split]. by apply finish_end.
Qed.

(** A prepared write of [b], checked against [base]. *)
Definition writes (p : Prepared) : Prop :=
  (exists path n mode conv, pa_request p = FsWrite path n mode conv) /\ pa_content_ p = Some b /\ write_base (pa_check p) = base.

Definition write_work (work : Work) : Prop :=
  match work with
  | WReplace _ _ b' check => b' = b /\ write_base check = base
  | WCreate _ _ b' => b' = b
  | _ => False
  end.

Lemma initial_work_quiet p granted : quiet (initial_work p granted).
Proof.
  unfold initial_work. intros w. destruct (pa_fd p); [|done]. destruct granted; [done|]. apply keeps_bind.
  eapply keeps_mono; [done| |apply quiet_io, verify_directory_still]. by intros r w' ->.
Qed.
Lemma initial_work_writes p granted : writes p ->
  returns (fun r => match r with Ok work => write_work work | Err _ => True end) (initial_work p granted).
Proof.
  intros ((path & n & mode & conv & Hq) & Hc & Hb). unfold initial_work. rewrite Hq, Hc. destruct (pa_fd p); [|done].
  destruct granted; [done|]. eapply returns_bind with (P := fun _ => True).
  { generalize (on_io (verify_mutation_directory n0 {| mr_confined_beneath := path0; mr_root_required := OS_DAC |})). intros q.
    by induction q. }
  intros [parent|e] _; [|done]. cbn. destruct (negb _); [done|]. by destruct mode.
Qed.

Lemma run_attempt_end enc ms_ wfuel p g cap w : writes p -> keeps (run_attempt enc ms_ wfuel p g cap) (attempt_end w) w.
Proof.
  intros Hp. unfold run_attempt. destruct (granted_of p g) as [granted|]; [|done]. destruct (limits_invalid _); [done|].
  intros ok w' ->. split; [done|]. destruct ok; [|done]. intros passed w' ->. split; [done|]. destruct passed; [done|].
  destruct (negb _); [done|]. apply keeps_bind.
  eapply keeps_mono; [done| |apply keeps_returns; [apply initial_work_quiet|by apply initial_work_writes]].
  intros work w' [-> Hw]. intros ended w' ->. split; [done|]. destruct ended; [|done..]. destruct work as [work|]; [|done].
  apply loop_end. unfold worker_step. cbn [wk_work]. destruct work; try done.
  - destruct Hw as [-> Hb]. by apply replace_step_end.
  - cbn in Hw. subst b0. by apply create_step_end.
Qed.

Lemma prepare_writes check path n mode conv : write_base check = base ->
  returns (fun o => match o with Some p => writes p | None => False end)
    (prepare_checked (FsWrite path n mode conv) (Some b) check).
Proof.
  intros Hb. assert (forall m opened c, writes (prepared_of (FsWrite path n m conv) (Some b) opened c check)) as H.
  { intros m opened c. unfold prepared_of. destruct opened; (split; [by do 4 eexists|done]). }
  cbn [prepare_checked]. destruct (split path) as [[parent leaf]|]; [|apply H]. intros [fd|e]; [apply H|].
  destruct (oe_not_found e); [|apply H]. intros opened. apply H.
Qed.
Lemma prepare_quiet verb content check : quiet (prepare_checked verb content check).
Proof.
  assert (forall fuel parents parent c, quiet (open_parents fuel parents parent c)) as Ho.
  { induction fuel as [|fuel IH]; intros parents parent c w; cbn [open_parents]; intros [fd|e] w' ->; (split; [done|]); try done.
    all: destruct (negb _); [done|]; destruct (_ <=? _)%Z; [done|]; destruct (negb _); [done|];
         destruct (split parent) as [[next name]|]; [|done]; try done; apply IH. }
  intros w. destruct verb; try done; cbn [prepare_checked].
  - destruct (split path) as [[parent leaf]|]; [|done]. intros [fd|e] w' ->; (split; [done|]); [done|].
    destruct (oe_not_found e); [|done]. by intros opened w' ->.
  - destruct (split path) as [[parent leaf]|]; [|done]. by intros opened w' ->.
  - destruct (split path) as [[parent leaf]|]; [|done]. apply keeps_bind. eapply keeps_mono; [done| |apply Ho]. by intros r w' ->.
Qed.
End Write.

(** ** The loop over a file *)

Definition loop_acts (w : File) (ev : Programs.event loop_effect) (w' : File) : Prop :=
  match ev_effect ev in loop_effect X return X -> Prop with
  | OnClient e => fun x => client_acts w (Ev _ e x) w'
  | _ => fun _ => w' = w
  end (ev_answer ev).

Section Told.
Context {CV SV JV BV KV : Type}.
Local Notation keeps := (Programs.keeps loop_acts (fun _ => True)).
Context (b : list ascii) (base : WriteBase).
Local Notation allowed_change := (allowed_change base).
#[local] Hint Resolve allowed_refl : core.

Lemma keeps_on_client {A} (p : Programs.prog client_effect A) Q w :
  Programs.keeps client_acts (fun _ => True) p Q w -> keeps (on_client p) Q w.
Proof. by apply keeps_lift. Qed.

(** What the end of a sent write says of the file. *)
Definition sent_end (w : File) (r : result (@SentOutcome CV SV JV BV KV) client_error) (w' : File) : Prop :=
  allowed_change w w' /\
  match r with
  | Ok (SWriteDone e) =>
      (we_applied e = true -> fl_bytes w' = b /\ forall k, we_version e = Some k -> k = version_key (fl_version w')) /\
      (we_stale e = true -> fl_bytes w' = fl_bytes w /\ we_applied e = false)
  | Ok _ => True
  | Err e => e <> CStuck LoopStuck
  end.

Lemma perform_end enc t wfuel p g w : writes b base p -> keeps (perform enc t wfuel (Some p) g) (sent_end w) w.
Proof.
  intros Hp. unfold perform. assert (is_reading p = false) as ->.
  { destruct Hp as ((path & n & mode & conv & Hq) & _). unfold is_reading. by rewrite Hq. }
  apply keeps_try, keeps_on_client. apply keeps_try. eapply keeps_mono; [done| |by eapply run_attempt_end].
  intros [a|e] w' [Ha Hr]; [|by split]. split; [done|]. destruct Hr as [H1 H2]. cbn. split; [|done].
  intros Hs. destruct (H1 Hs) as [Hb Hv]. split; [done|]. intros k Hk. apply fmap_Some in Hk as (v & Hk & ->).
  by rewrite (Hv v Hk).
Qed.

(** A step of the connection that may fail with a text. *)
Lemma texts_end {A} (r : result A client_error) (k : A -> Programs.prog loop_effect (result SentOutcome client_error)) w :
  (forall e, r = Err e -> e <> CStuck LoopStuck) -> (forall a, keeps (k a) (sent_end w) w) ->
  keeps (try_bind (Ret r) k) (sent_end w) w.
Proof. intros Hr Hk. destruct r as [a|e]; [apply Hk|]. split; [done|by apply Hr]. Qed.
Lemma text_err_fails {A} (r : result A string) e : text_err r = Err e -> e <> CStuck LoopStuck.
Proof. destruct r; [done|]. by intros [= <-]. Qed.

Lemma arm_prepared_keeps p w :
  keeps (arm_prepared p) (fun r w' => w' = w /\ match r with Err e => e <> CStuck LoopStuck | Ok _ => True end) w.
Proof.
  destruct p as [p|]; [|done]. apply keeps_bind. eapply keeps_mono with (I := fun _ => True) (Q := fun _ w' => w' = w); [done|..].
  2: { destruct (arming_diagnostic p); [|done]. by intros x w' ->. }
  intros _ w' ->. apply keeps_try.
  eapply keeps_mono with (I := fun _ => True)
    (Q := fun r w' => w' = w /\ match r with Err e => e <> CStuck LoopStuck | Ok _ => True end); [done|..].
  2: { destruct (pa_fd p); [|done]. intros x w' ->. split; [done|]. by destruct x. }
  intros [fd|e] w' [-> He]; [|done]. intros x w' ->. split; [done|]. destruct fd, x; try done.
Qed.

Lemma send_write_end encode_request decode_response enc t wfuel path n mode conv check w : write_base check = base ->
  keeps (send_verb encode_request decode_response enc t wfuel (FsWrite path n mode conv) (Some b) check) (sent_end w) w.
Proof.
  intros Hb connected w' ->. split; [done|]. destruct connected; [|by split..]. apply keeps_bind, keeps_on_client.
  eapply keeps_mono; [done| |apply keeps_returns; [apply prepare_quiet|by apply prepare_writes]].
  intros prepared w' [-> Hp]. destruct prepared as [p|]; [|done]. apply keeps_try.
  eapply keeps_mono; [done| |apply arm_prepared_keeps]. intros [armed|e] w' [-> He]; [|by split].
  apply texts_end; [apply text_err_fails|]. intros _. intros written w' ->. split; [done|]. destruct written; [|by split..].
  intros reply w' ->. split; [done|]. destruct reply as [body| |]; [|by split..]. apply texts_end; [apply text_err_fails|].
  intros [payload|code message]; [|by split]. destruct payload; try (by split). by apply perform_end.
Qed.
End Told.

(** ** Theorems *)

(** C8: an agent's write does what the agent is told. Over a file nobody else writes,
    whatever the kernel, the connection and the system calls answer: the file is changed
    only if the write created it or it is the version the agent read (same device, inode,
    size and mtime); told that the write was applied, the file holds exactly its bytes and
    the version told is the file's; told that its view was stale, or that the write was not
    sent, nothing was written; and the only way not to be told is the write loop still being
    interrupted. *)
Theorem agent_write_exact {CV SV JV BV KV : Type} (encode_request : WireRequest -> Z -> result unit string)
    (decode_response : bytes -> result (@Response CV SV JV BV KV) string) (enc : MutationReport -> result Z string)
    (t : TransportConfig) (wfuel : nat) (write_max : Z) (conversation path : string) (content : list ascii)
    (basis : ReadBasis) (old : list ascii) (v : FileVersion) (tr : list (Programs.event loop_effect)) (w : File)
    (r : result WriteOutcome stuck)
    (Hr : runs (plane_write encode_request decode_response enc t wfuel write_max conversation path content basis) tr r)
    (Hw : reaches loop_acts (mkFile old v None) tr w) :
  (fl_bytes w <> old -> fl_created w = true \/
     exists k, basis = ReadAt k /\ version_same_content v (version_from_key k) = true) /\
  match r with
  | Ok (WApplied k) => fl_bytes w = content /\ forall k', k = Some k' -> k' = version_key (fl_version w)
  | Ok WStale | Ok WNotSent => fl_bytes w = old
  | Ok WUnknown => True
  | Err s => s = WriteStalled
  end.
Proof.
  pattern r, w. eapply (keeps_runs loop_acts (fun _ => True)); [|exact Hr|exact Hw]. clear r w tr Hr Hw.
  unfold plane_write, write_request. destruct (_ <? _)%Z; [by split|]. apply keeps_bind.
  eapply keeps_mono; [done| |apply (send_write_end content (write_base (check_for basis))); done].
  intros sent w' [Ha Hs]. split.
  - intros Hne. destruct (Ha Hne) as [Hc|Hc]; [by left|]. destruct basis as [|k]; [done|]. right. by exists k.
  - destruct sent as [[|e| |]|[m|[|]]]; try done. cbn. destruct Hs as [H1 H2].
    destruct (we_applied e); [by destruct (H1 eq_refl)|]. destruct (we_stale e); [by destruct (H2 eq_refl)|done].
Qed.

(** ** Witness *)

(** A file [/f] whose every system call succeeds. *)
Definition stat_of (v : FileVersion) : Stat :=
  mkStat (fv_dev v) (fv_ino v) S_IFREG 1 0 (fv_size v) (fv_mtime v) (fv_mtime_nsec v) (fv_ctime v) (fv_ctime_nsec v).
Definition touched (w : File) (bs : list ascii) : File :=
  let v := fl_version w in
  mkFile bs (mkVersion (fv_dev v) (fv_ino v) (Z.of_nat (length bs)) (fv_mtime v + 1) 0 (fv_ctime v + 1) 0) (fl_fd w).
Definition demo_file (X : Type) (w : File) (e : io_effect X) : X * File :=
  match e in io_effect X return X * File with
  | FStat _ | StatPath _ | FstatatNofollow _ _ => (Ok (stat_of (fl_version w)), w)
  | FdPath _ => (Ok "/f", w)
  | ReopenWritable _ _ => (Ok 4, mkFile (fl_bytes w) (fl_version w) (Some (false, 4)))
  | WriteAt _ b off => (Ok (length b), if b then w else touched w (overlay off b (fl_bytes w)))
  | TruncateFd _ n => (Ok tt, touched w (resize_to n (fl_bytes w)))
  | FsyncFd _ => (Ok tt, w)
  | DeadlinePassed => (false, w)
  | ReadHeld _ => (mkSource [] None, w)
  | ReopenReadable _ _ | OpenTempExcl _ _ | OpenMutationDirectoryAt _ _ | OpenDirAt _ _ => (Err EACCES, w)
  | MkdirAt _ _ | RemoveAt _ _ _ => (Err EACCES, w)
  | OpenDirHandle _ => (Err EACCES, w)
  end.
Definition demo_client (X : Type) (w : File) (e : client_effect X) : X * File :=
  match e in client_effect X return X * File with
  | OnIo e => demo_file _ w e
  | OpenPathForDelegation _ | OpenDirectoryForDelegation _ => (Ok 3, w)
  | DeadlineRepresentable _ => (true, w)
  | WorkerEnd => (JoinInTime, w)
  | SendReport (Batch id i effects) => (AckRead (mkAck id (i + Z.of_nat (length effects))), w)
  | SendReport (Finished id n _ _) => (AckRead (mkAck id n), w)
  | Diag _ => (tt, w)
  end.
Definition demo_loop (X : Type) (w : File) (e : loop_effect X) : X * File :=
  match e in loop_effect X return X * File with
  | OnClient e => demo_client _ w e
  | Connect => (InTime tt, w)
  | CloneDescriptor _ => (Ok tt, w)
  | HasArmer => (true, w)
  | Arm _ => (tt, w)
  | WriteRequest _ _ => (InTime tt, w)
  | AwaitReply _ _ => (InTime [], w)
  | NowUnix => (Ok 0%Z, w)
  | KeyChoice _ _ => (Err "no key", w)
  end.

Lemma demo_file_acts X w (e : io_effect X) x w' : demo_file X w e = (x, w') -> file_acts w (Ev _ e x) w'.
Proof.
  destruct e; cbn; intros [= <- <-]; try done.
  - split; [done|]. intros _. by destruct (fl_version w).
  - destruct b as [|c b]; cbn; [by split_and!; [lia|done|left]|]. split_and!; [lia|done|]. right. split; [lia|]. by rewrite firstn_all.
Qed.
Lemma demo_loop_acts X w (e : loop_effect X) x w' : demo_loop X w e = (x, w') -> loop_acts w (Ev _ e x) w'.
Proof.
  destruct e as [X e| | | | | | | |]; try (by intros [= <- <-]). destruct e as [X e| | | | |m|]; try (by intros [= <- <-]).
  - apply demo_file_acts.
  - destruct m; by intros [= <- <-].
Qed.

Definition demo_version : FileVersion := mkVersion 1 2 3 7 0 7 0.
Definition demo_write : Programs.prog loop_effect (result WriteOutcome stuck) :=
  @plane_write unit unit unit unit unit (fun _ _ => Ok tt)
    (fun _ => Ok (ROk (PMutationAttempt (mkGrant (mkId 1 1) (Exact "/f" ReplacedFile) (mkLimits 4096 128 5000 0) "U"))))
    (fun _ => Ok 64%Z) (mkTransport 5000 5000 65536) 8 4096 "c0" "/f" (String.list_ascii_of_string "hi")
    (ReadAt (version_key demo_version)).
Definition demo_write_run := simulate demo_loop demo_write (mkFile (String.list_ascii_of_string "old") demo_version None).

Lemma demo_write_told : fst (fst demo_write_run) = Ok (WApplied (Some (version_key (fl_version (snd demo_write_run))))).
Proof. vm_compute. reflexivity. Qed.
Lemma demo_write_happens : exists tr, runs demo_write tr (fst (fst demo_write_run)) /\
  reaches loop_acts (mkFile (String.list_ascii_of_string "old") demo_version None) tr (snd demo_write_run).
Proof.
  unfold demo_write_run. generalize demo_write. intros p. destruct (simulate demo_loop p _) as [[r tr] w] eqn:E.
  exists tr. exact (simulate_runs loop_acts demo_loop demo_loop_acts _ _ _ _ _ E).
Qed.

Lemma agent_write_exact_witness :
  exists k, fst (fst demo_write_run) = Ok (WApplied k) /\ fl_bytes (snd demo_write_run) = String.list_ascii_of_string "hi".
Proof.
  eexists. split; [exact demo_write_told|]. destruct demo_write_happens as (tr & Hr & Hw). rewrite demo_write_told in Hr.
  revert Hr Hw. generalize (snd demo_write_run). intros w Hr Hw.
  exact (proj1 (proj2 (agent_write_exact _ _ _ _ _ _ _ _ _ _ _ _ _ _ _ Hr Hw))).
Defined.
