(* ===== verification/Serve.v ===== *)
(** * Serving one request: [handle_with_attempt_caps]

    The kernel's policy enforcement point, [crates/maknae-kernel/src/run.rs]:
    one connection's admission record, its one frame, the revalidation of the
    session, the operand gates, the decision, the discharge of obligations and
    the dispatch of every arm, with the write-ahead discipline of a prompt.

    The function is written as a program over the effects it performs, in the
    order it performs them. What answers an effect (the audit sink, the decision
    point, the Egress Daemon, the clock) is arbitrary. *)
From stdpp Require Import base list strings gmap.
From Stdlib Require Import ZArith Lia Ascii.
From S2P Require Import Prelude Programs RustStr RustSlice RustNet Seam Config PathGlob AuthzPolicy Decide.
From S2P Require Import Graph GraphFormat Wire Operands Providers Handler Egress Breaker Session.
From S2P Require Import Workers AuditRecords Effects Mutation.
Open Scope nat_scope.

Section Serve.
Context {ConfigView StatusView SubjectsView BaselineView ContainmentView : Type}.
Local Notation prog := (Programs.prog (@effect ConfigView StatusView SubjectsView BaselineView ContainmentView)).
Local Notation Payload := (@Payload ConfigView StatusView SubjectsView BaselineView ContainmentView).
Local Notation Response := (@Response ConfigView StatusView SubjectsView BaselineView ContainmentView).
Context (en : @Env ConfigView StatusView SubjectsView BaselineView ContainmentView).
Local Notation session := (en_session en).
Local Notation peer_uri := (en_peer_uri en).
Local Notation prompt_max_bytes := (en_prompt_max_bytes en).
Local Notation attempt_request_max := (en_attempt_request_max en).
Local Notation status_view := (en_status_view en).
Local Notation subject_views := (en_subject_views en).
Local Notation encode_response := (en_encode_response en).
Local Notation encode_response_zeroizing := (en_encode_response_zeroizing en).
Local Notation from_reader := (en_from_reader en).
Local Notation sha256_hex32 := (en_sha256_hex32 en).


Definition make_record (event : string) (seq : Z) (action : string) (object : option string)
    (result_ reason posture : string) : AuditRecord :=
  mkRecord event (sf_uid session) peer_uri None None action object None None None None None
    result_ reason posture
    (sf_session_id session) seq.

(** [emit_request_outcome]: the append's success. *)
Definition emit_request_outcome (user role : option string) (rule : option RuleCitation)
    (action : string) (object : option string) (result_ reason posture : string) : prog bool :=
  let# seq := NextSeq in
  let# ok := Emit (with_identity (make_record "request" seq action object result_ reason posture)
                     user role rule) in
  Ret ok.

(** [emit_request_deny]: appended, and its failure only reported. *)
Definition emit_request_deny (user : option string) (action reason posture : string) : prog unit :=
  let# seq := NextSeq in
  let# _ := Emit (with_identity (make_record "request" seq action None "deny" reason posture)
                    user None None) in
  Ret tt.

Definition close_bounded : prog unit := let# _ := CloseStream in Ret tt.

Definition write_error_bounded (class : FrameClass) (code : ProtoErrCode) (message : string) : prog unit :=
  match encode_response (RErr code message) with
  | Some _ => let# _ := WriteFrame class (RErr code message) in Ret tt
  | None => Ret tt
  end.

(** A refusal: the record, the error only once it is durable, and the close. *)
Definition refuse (class : FrameClass) (user role : option string) (rule : option RuleCitation)
    (action result_ reason posture : string) (code : ProtoErrCode) (message : string) : prog unit :=
  let* appended := emit_request_outcome user role rule action None result_ reason posture in
  let* _ := if may_respond appended then write_error_bounded class code message else Ret tt in
  close_bounded.

Definition deny (class : FrameClass) (user role : option string) (rule : option RuleCitation)
    (action reason : string) : prog unit :=
  refuse class user role rule action "deny" reason "unauthorized" Unauthorized "not authorized".

Definition end_session (class : FrameClass) (user : option string) (action : string) (ending : Ending)
  : prog unit :=
  let* appended := emit_request_outcome user None None action None "deny" (ending_reason ending)
                     (ending_posture ending) in
  let* _ := if may_respond appended then write_error_bounded class Unauthorized "not authorized"
            else Ret tt in
  let# _ := EndSession ending in
  close_bounded.

Definition refuse_oversize_bounded (class : FrameClass) (user role : option string)
    (rule : option RuleCitation) (action : string) : prog unit :=
  let* corrected := emit_request_outcome user role rule action None "permit"
                      "delivery refused: response exceeds the frame limit" "refused-oversize" in
  if may_respond corrected
  then write_error_bounded class TooLarge "response exceeds the configured frame limit" else Ret tt.

Definition refuse_unencodable_bounded (class : FrameClass) (user role : option string)
    (rule : option RuleCitation) (action : string) : prog unit :=
  let* corrected := emit_request_outcome user role rule action None "permit"
                      "delivery failed: response could not be encoded" "unavailable" in
  if may_respond corrected then write_error_bounded class Internal "response encoding failed" else Ret tt.

Definition write_frame_bounded (class : FrameClass) (r : Response) (len : Z)
    (user role : option string) (rule : option RuleCitation) (action : string) : prog unit :=
  if (cap (caps_responses prompt_max_bytes) class <? len)%Z
  then refuse_oversize_bounded class user role rule action
  else let# _ := WriteFrame class r in Ret tt.

Definition request_caps : FrameCaps := mkCaps CONTROL_REQUEST_MAX attempt_request_max prompt_max_bytes.

(** The verb with its containment operands normalised, or the refusal's noun
    and its text. *)
Definition normalised (verb : Verb) : result Verb (string * string) :=
  map_err (fun ne => (ne.1, operand_error_text ne.2)) (normalise_operands (en_nfc en) (en_gc en) verb).

(** The operands the gate refuses: the operand's noun and why. *)
Definition operand_pregate (verb : Verb) : option (string * string) :=
  match verb with
  | SessionPrompt conversation turns output_tokens _ =>
      if match output_tokens with Some n => negb (output_tokens_is_acceptable n) | None => false end
      then Some ("prompt", "reply cap not acceptable")
      else if negb (conversation_id_is_acceptable conversation)
      then Some ("prompt", "conversation identifier not acceptable")
      else match admitted_turns turns with
           | Ok _ => None
           | Err reason => Some ("prompt", reason)
           end
  | FsWrite _ _ _ (Some conversation) =>
      if negb (conversation_id_is_acceptable conversation)
      then Some ("write", "conversation identifier not acceptable") else None
  | Read _ conversation page =>
      if match conversation with Some c => negb (conversation_id_is_acceptable c) | None => false end
      then Some ("read", "conversation identifier not acceptable")
      else match page with
           | Some p => if negb (page_request_is_acceptable p)
                       then Some ("read", "page request not acceptable") else None
           | None => None
           end
  | _ => None
  end.

(** The verdict the request is finalised on, the role and the rule it cites. *)
Definition decide_bounded (req : Request) (admitted_generation : Z)
  : prog (Verdict * option string * option RuleCitation) :=
  let# admission := BeginAttempt AuthzGuard in
  match admission with
  | RefuseOpen => Ret (Deny "authorization decision circuit breaker open", None, None)
  | RefuseAtCapacity => Ret (Deny "authorization decision blocking worker budget exhausted", None, None)
  | Admit =>
      let# decided := DecideCited req in
      match decided with
      | JOk (d, generation) =>
          let# _ := RecordSuccess AuthzGuard in
          if negb (generation =? admitted_generation)%Z
          then Ret (Deny "the live baseline changed between admission and decision", d_role d, None)
          else Ret (combine [d_verdict d], d_role d, d_rule d)
      | JLost =>
          let# _ := RecordSuccess AuthzGuard in
          Ret (Deny "authorization decision failed (join)", None, None)
      | JElapsed =>
          let# _ := RecordTimeout AuthzGuard in
          Ret (Deny "authorization decision timed out", None, None)
      end
  end.

(** The admin arms: the payload to answer with, or [None] once the arm has
    answered and closed. *)
Definition corrected_view (class : FrameClass) (user role : option string) (rule : option RuleCitation)
    (action result_ reason posture : string) (payload : Payload) : prog (option Payload) :=
  let* corrected := emit_request_outcome user role rule action None result_ reason posture in
  if may_respond corrected then Ret (Some payload)
  else let* _ := close_bounded in Ret None.

Definition refused_arm (class : FrameClass) (user role : option string) (rule : option RuleCitation)
    (action reason posture : string) (code : ProtoErrCode) (message : string) : prog (option Payload) :=
  let* _ := refuse class user role rule action "deny" reason posture code message in Ret None.

Definition enumerate_bounded : prog (result (list SubjectBinding) string) :=
  let# admission := BeginAttempt AuthzGuard in
  match admission with
  | RefuseOpen => Ret (Err "enumeration circuit breaker open")
  | RefuseAtCapacity => Ret (Err "enumeration blocking worker budget exhausted")
  | Admit =>
      let# out := EnumerateSubjects in
      match out with
      | JOk (Some v) => let# _ := RecordSuccess AuthzGuard in Ret (Ok v)
      | JOk None => let# _ := RecordSuccess AuthzGuard in Ret (Err "backend does not enumerate bindings")
      | JLost => let# _ := RecordSuccess AuthzGuard in Ret (Err "enumeration failed (join)")
      | JElapsed => let# _ := RecordTimeout AuthzGuard in Ret (Err "enumeration timed out")
      end
  end.

Definition contain_answer (class : FrameClass) (user role : option string) (rule : option RuleCitation)
    (action : string) (answer : ContainAnswer) : prog (option Payload) :=
  match answer with
  | ContainView view None => Ret (Some (PContainment view))
  | ContainView view (Some c) =>
      corrected_view class user role rule action (co_result c) (co_reason c) (co_posture c)
        (PContainment view)
  | ContainDenied why =>
      refused_arm class user role rule action why "unauthorized" Unauthorized "not authorized"
  | ContainUnavailable reply why =>
      refused_arm class user role rule action why "unavailable" Internal reply
  end.

Definition admin_payload (class : FrameClass) (verb : Verb) (user role : option string)
    (rule : option RuleCitation) (view : ConfigView) (permitted : Request) : prog (option Payload) :=
  let action := verb_to_action verb in
  match verb with
  | Ping => Ret (Some PPong)
  | Whoami => Ret (Some (PWhoami peer_uri (sf_uid session)))
  | AdminConfigShow => Ret (Some (PConfigView view))
  | AdminStatus => Ret (Some (PStatus status_view))
  | AdminSubjectList =>
      let* enumerated := enumerate_bounded in
      match enumerated with
      | Ok b => Ret (Some (PSubjectList (subject_views b)))
      | Err why =>
          refused_arm class user role rule action ("binding enumeration unavailable: " +:+ why)
            "unavailable" Internal "binding enumeration unavailable"
      end
  | AdminBaselineShow =>
      let# shown := OpsShow in
      match shown with
      | Ok view => Ret (Some (PBaseline view))
      | Err why =>
          refused_arm class user role rule action ("baseline show unavailable: " +:+ why)
            "unavailable" Internal "baseline show unavailable"
      end
  | AdminBaselineAccept hash =>
      let# answer := OpsAccept hash in
      match answer with
      | AcceptView view None => Ret (Some (PBaseline view))
      | AcceptView view (Some why) =>
          corrected_view class user role rule action "deny" why "unauthorized" (PBaseline view)
      | AcceptUnavailable reply why =>
          refused_arm class user role rule action why "unavailable" Internal reply
      end
  | AdminContain target reason =>
      let# answer := OpsContain target reason permitted in
      contain_answer class user role rule action answer
  | AdminRelease target =>
      let# answer := OpsRelease target permitted in
      contain_answer class user role rule action answer
  | _ => Ret None
  end.

(** Every arm answered with a payload: the permit record first, then the
    payload, then the bounded write. *)
Definition serve_admin (class : FrameClass) (verb : Verb) (user role : option string)
    (rule : option RuleCitation) (view : ConfigView) (permitted : Request) : prog unit :=
  let action := verb_to_action verb in
  let* appended := emit_request_outcome user role rule action None "permit" "authorized" "authorized" in
  if negb (may_respond appended) then close_bounded
  else
    let* payload := admin_payload class verb user role rule view permitted in
    match payload with
    | None => Ret tt
    | Some payload =>
        let response := ROk payload in
        let* _ := match encode_response response with
                  | Some len => write_frame_bounded class response len user role rule action
                  | None => refuse_unencodable_bounded class user role rule action
                  end in
        close_bounded
    end.

(** ** The prompt arm *)

(** Breaker admission, the send and what the breaker is told. *)
Definition send_bounded (intent : AuditRecord) (req : EgressRequest)
  : prog (Joined (result PromptReply EgressFailure)) :=
  let# admission := BeginAttempt EgressGuard in
  match admission with
  | RefuseOpen => let# _ := LogRefusal EgressGuard in Ret (JOk (Err CircuitOpen))
  | RefuseAtCapacity => let# _ := LogRefusal EgressGuard in Ret (JOk (Err KernelAtCapacity))
  | Admit =>
      let# sent := EgressSend intent req in
      let expired := match sent with
                     | JElapsed => true
                     | JOk (Err f) => failure_counts_as_expiry f
                     | _ => false
                     end in
      if expired : bool then let# _ := RecordTimeout EgressGuard in Ret sent
      else let# _ := RecordSuccess EgressGuard in Ret sent
  end.

(** The outcome, the reply to deliver, and whether the failure is unavailability. *)
Definition judge_send (sent : Joined (result PromptReply EgressFailure))
  : SendOutcome * option PromptReply * bool :=
  match sent with
  | JOk (Ok reply) =>
      let n := reply_text_length reply in
      match admitted_reply reply with
      | Err refusal => (LandedUndelivered (Some n) refusal (pr_usage reply), None, false)
      | Ok _ =>
          let '(reply, fits) := shed_reasoning_to_fit reply prompt_max_bytes in
          if fits : bool then (Sent n (pr_usage reply), Some reply, false)
          else (LandedUndelivered (Some n) Oversize (pr_usage reply), None, false)
      end
  | JOk (Err f) => (outcome_for_failure f, None, failure_is_unavailability f)
  | JLost => (SFailed, None, false)
  | JElapsed => (SDeadlineExpired, None, false)
  end.

Definition answer_prompt (class : FrameClass) (outcome : SendOutcome) (reply : option PromptReply)
    (unavailable : bool) (user role : option string) (rule : option RuleCitation) : prog unit :=
  match reply with
  | Some reply =>
      let response := ROk (PPromptReply reply) in
      match encode_response_zeroizing response (reply_capacity reply) with
      | Some len => write_frame_bounded class response len user role rule "session.prompt"
      | None => refuse_unencodable_bounded class user role rule "session.prompt"
      end
  | None =>
      match outcome with
      | LandedUndelivered _ refusal _ =>
          let '(code, message) := refusal_answer refusal in write_error_bounded class code message
      | _ =>
          if unavailable then write_error_bounded class EgressUnavailable EGRESS_UNAVAILABLE_MESSAGE
          else write_error_bounded class Unauthorized "not authorized"
      end
  end.

Definition egress_meta (chosen : AdmittedChoice) (conversation : string) (turns : list TurnOf)
    (output_tokens : option Z) (status : EgressStatus) : EgressAudit :=
  let m := content_measure sha256_hex32 turns in
  mkEgressAudit status (cm_length m) (cm_digest32 m) conversation (Some (ac_model chosen)) None
    output_tokens None None [].

Definition serve_prompt (class : FrameClass) (conversation : string) (turns : list TurnOf)
    (output_tokens : option Z) (admitted : option AdmittedChoice) (user role : option string)
    (rule : option RuleCitation) : prog unit :=
  match admitted with
  | None =>
      deny class user role None "session.prompt"
        "session.prompt reached dispatch without an admitted provider choice"
  | Some chosen =>
      let destination := "provider:" +:+ ap_name (ac_provider chosen) in
      let meta := egress_meta chosen conversation turns output_tokens in
      let# ready := EgressReady in
      if negb ready then
        let# seq := NextSeq in
        let rec := with_egress
                     (with_identity (make_record "request" seq "session.prompt" (Some destination) "deny"
                                       "egress backend not ready" "unavailable") user role None)
                     (meta StBackendUnavailable) in
        let# appended := Emit rec in
        let* _ := if may_respond appended
                  then write_error_bounded class Unauthorized "not authorized" else Ret tt in
        close_bounded
      else
        let# seq := NextSeq in
        let intent := with_egress
                        (with_identity (make_record "request" seq "session.prompt" (Some destination)
                                          "permit" "intent recorded" "authorized") user role rule)
                        (meta StIntentOnly) in
        let# committed := Emit intent in
        if negb committed then close_bounded
        else
          let* sent := send_bounded intent (for_choice chosen destination conversation turns output_tokens) in
          let '(send_outcome, reply, unavailable) := judge_send sent in
          let* _ := match sent with
                    | JOk (Err DeputyAtCapacity) => let# _ := LogRefusal EgressGuard in Ret tt
                    | _ => Ret tt
                    end in
          let# seq := NextSeq in
          let outcome := record_refused_tool_calls (outcome_for intent seq send_outcome) reply in
          let# appended := Emit outcome in
          let* _ := if may_respond appended
                    then answer_prompt class send_outcome reply unavailable user role rule
                    else Ret tt in
          close_bounded
  end.

(** ** Decision and dispatch *)

Definition dispatch (class : FrameClass) (verb : Verb) (user role : option string)
    (rule : option RuleCitation) (view : ConfigView) (admitted : option AdmittedChoice)
    (permitted : Request) : prog unit :=
  let action := verb_to_action verb in
  match dispatch_verb verb with
  | MutationRequested =>
      deny class user role None action "mutation dispatch reached without prepared evidence"
  | NoBehaviour =>
      refuse class user role rule action "permit" "permitted; term not implemented" "not-implemented"
        Unauthorized "not authorized"
  | PromptRequested =>
      match verb with
      | SessionPrompt conversation turns output_tokens _ =>
          serve_prompt class conversation turns output_tokens admitted user role rule
      | _ => Ret tt
      end
  | _ => serve_admin class verb user role rule view permitted
  end.

Definition decide_and_dispatch (class : FrameClass) (verb : Verb) (user : option string)
    (view : ConfigView) (admitted : option AdmittedChoice) (generation : Z) : prog unit :=
  let action := verb_to_action verb in
  let req := build_authz_request verb (sf_uid session) None (sf_lane session) admitted in
  let* decided := decide_bounded req generation in
  let '(verdict, role, rule) := decided in
  match finalize verdict with
  | DDeny reason => deny class user role rule action reason
  | DPermit obligations =>
      match discharge_plan obligations with
      | Err u => deny class user role None action ("unhonorable obligation: " +:+ u)
      | Ok _ => dispatch class verb user role rule view admitted req
      end
  end.

Definition refusal_reason (r : ChoiceRefusal) : string :=
  match r with
  | NoChoice => "session.prompt carries no provider choice"
  | NoProviders => "no model access: no providers are authorized on this host"
  | UnknownProvider => "provider not in the authorized set"
  | ModelNotListed => "model not on the authorized provider's list"
  | UnsafeUsername => "local account has no name usable as a key path segment"
  | MalformedSubpath => "key subpath malformed"
  | MalformedField => "key field malformed"
  end.

(** The provider choice, read against the live registry. *)
Definition admit_request (verb : Verb) (providers : option ProviderAuthority) (user : option string)
  : result (option AdmittedChoice) ChoiceRefusal :=
  match verb with
  | SessionPrompt _ _ _ choice =>
      let '(set, user_prefix) := match providers with
                                 | Some a => (pa_set a, pa_user_prefix a)
                                 | None => ([], "")
                                 end in
      let? a := admit_choice set choice user user_prefix in Ok (Some a)
  | _ => Ok None
  end.

(** After the session stands: the gates, the mutation path, the admission and
    the decision. [verb] is the request's own; the gates run on it, the rest on
    its normalised operands. *)
Definition serve_request (class : FrameClass) (verb : Verb) (user home_dir : option string) : prog unit :=
  let action := verb_to_action verb in
  match (match verb with
         | Read path _ _ => match lexical_pregate path with Err why => Some why | Ok _ => None end
         | _ => None
         end) with
  | Some why =>
      let path := match verb with Read path _ _ => Some path | _ => None end in
      let* appended := emit_request_outcome user None None action path "deny"
                         ("path fails canonical pre-gate: " +:+ why) "unauthorized" in
      let* _ := if may_respond appended then write_error_bounded class BadRequest "malformed path"
                else Ret tt in
      close_bounded
  | None =>
      let refused_operand noun reason :=
        refuse class user None None action "deny"
          (noun +:+ " fails operand pre-gate: " +:+ reason) "unauthorized" BadRequest "invalid request" in
      match normalised verb with
      | Err (noun, reason) => refused_operand noun reason
      | Ok verb =>
          match operand_pregate verb with
          | Some (noun, reason) => refused_operand noun reason
          | None =>
              if is_filesystem_verb verb then
                let# seq := NextSeq in
                let rec := with_identity (make_record "request" seq action None "deny"
                                            "mutation not prepared" "unauthorized") user None None in
                let rec := match verb with
                           | FsWrite _ _ _ c | Read _ c _ => with_conversation rec c
                           | _ => rec
                           end in
                let# home := AdmittedHome (sf_uid session) home_dir in
                let* _ := mutate en verb rec home in
                close_bounded
              else
                let# live := LiveAdmission in
                let '(view, providers, generation) := live in
                match admit_request verb providers user with
                | Err refusal => deny class user None None action (refusal_reason refusal)
                | Ok admitted => decide_and_dispatch class verb user view admitted generation
                end
          end
      end
  end.

(** The session re-decided on facts gathered for this request. *)
Definition revalidate_and_serve (class : FrameClass) (verb : Verb) : prog unit :=
  let action := verb_to_action verb in
  let# expired := IsExpired in
  if expired : bool then end_session class (sf_user session) action Lifetime
  else
    let# facts := GatherFacts (sf_uid session) in
    let '(_, user, home_dir) := admission_facts (fa_membership facts) in
    match revalidate (sf_uid session) (sf_uid session) facts with
    | RDeny cause => end_session class user action (EDenied cause)
    | Continue =>
        let# expired := IsExpired in
        if expired : bool then end_session class user action Lifetime
        else serve_request class verb user home_dir
    end.

Definition class_name (c : FrameClass) : string :=
  match c with Control => "Control" | Attempt => "Attempt" | Prompt => "Prompt" end.

Definition handle_request : prog unit :=
  let user := sf_user session in
  let# seq := NextSeq in
  let# admitted := Emit (with_identity (make_record "connection" seq "connect" None "permit"
                           (admission_reason (sf_account session)) "authorized") user None None) in
  if negb (may_respond admitted) then
    let# _ := EndSession (EDenied (Infrastructure FAudit)) in close_bounded
  else
    let# read := ReadFrame request_caps in
    match read with
    | ReadElapsed | ReadFailed _ =>
        let# mismatched := SenderMismatched in
        if mismatched : bool then end_session Control user "read" (EDenied SenderMismatch)
        else match read with
             | ReadFailed why =>
                 let* _ := emit_request_deny user "read" ("frame read failed: " +:+ why) "unauthorized" in
                 close_bounded
             | _ =>
                 let# _ := EndSession Idle in
                 let* _ := emit_request_deny user "read" "read timeout" "unauthorized" in
                 close_bounded
             end
    | ReadOk class body =>
        match decode_request from_reader body with
        | Err e =>
            let* _ := emit_request_deny user "decode" ("malformed request: " +:+ codec_category e)
                        "unauthorized" in
            close_bounded
        | Ok request =>
            let verb := wr_verb request in
            if negb (admits_class class verb) then
              let* _ := emit_request_deny user "decode"
                          ("frame class mismatch: declared " +:+ class_name class +:+ ", "
                           +:+ verb_to_action verb +:+ " is " +:+ class_name (frame_class_of verb))
                          "unauthorized" in
              close_bounded
            else revalidate_and_serve class verb
        end
    end.

(** ... and the guard dropped at the end, which names a foreign writer as the
    session's ending. *)
Definition handle : prog unit :=
  let* _ := handle_request in
  let# mismatched := SenderMismatched in
  if mismatched : bool then let# _ := EndSession (EDenied SenderMismatch) in Ret tt else Ret tt.
End Serve.
