(* ===== verification/ServePolicy.v ===== *)
(** * When each effect of serving a request is allowed

    What a history of [Serve.handle] shows, and the policy every effect is held
    to: nothing is read before the connection is on record; no frame leaves before
    every append so far has succeeded; nothing is decided before the session is
    re-decided on this request's own facts; nothing is served, changed, granted or
    sent before the decision point permitted it; no prompt leaves and no attempt is
    granted before its intent is on record; no report is acknowledged before it is.
    [MutateTheorems] and [ServeTheorems] prove that the handler keeps to it. *)
From stdpp Require Import base list strings gmap.
From Stdlib Require Import ZArith Lia Ascii.
From S2P Require Import Prelude Programs RustStr RustSlice RustNet Seam Config PathGlob AuthzPolicy Decide.
From S2P Require Import Graph GraphFormat Wire Operands MutationExchange Providers Handler Egress.
From S2P Require Import Breaker Session Workers AuditRecords Effects Mutation Serve.
Open Scope nat_scope.

(** An event of a concrete effect shows nothing that is looked for; an append
    among them is shown to have succeeded. *)
Ltac durable := repeat (first [assumption | apply Forall_cons; split; [exact I || reflexivity|]]).
Ltac neutral_ev := split_and!; reflexivity.

Section Policy.
Context {CV SV JV BV KV : Type}.
Local Notation effect := (@Effects.effect CV SV JV BV KV).
Local Notation prog := (Programs.prog (@Effects.effect CV SV JV BV KV)).
Local Notation Env := (@Env CV SV JV BV KV).
Local Notation event := (Programs.event (@Effects.effect CV SV JV BV KV)).
Local Notation Payload := (@Payload CV SV JV BV KV).

(** ** What a history shows *)

Definition obs_emit (ev : event) : option (AuditRecord * bool) :=
  let 'Ev _ e x := ev in
  match e in Effects.effect X return X -> option (AuditRecord * bool) with
  | Emit rec => fun ok => Some (rec, ok)
  | _ => fun _ => None
  end x.
Definition obs_read (ev : event) : option FrameRead :=
  let 'Ev _ e x := ev in
  match e in Effects.effect X return X -> option FrameRead with
  | ReadFrame _ => fun r => Some r
  | _ => fun _ => None
  end x.
Definition obs_facts (ev : event) : option Facts :=
  let 'Ev _ e x := ev in
  match e in Effects.effect X return X -> option Facts with
  | GatherFacts _ => fun f => Some f
  | _ => fun _ => None
  end x.
Definition obs_live (ev : event) : option (CV * option ProviderAuthority * Z) :=
  let 'Ev _ e x := ev in
  match e in Effects.effect X return X -> option (CV * option ProviderAuthority * Z) with
  | LiveAdmission => fun v => Some v
  | _ => fun _ => None
  end x.
Definition obs_decided (ev : event) : option (Request * Joined (Decided * Z)) :=
  let 'Ev _ e x := ev in
  match e in Effects.effect X return X -> option (Request * Joined (Decided * Z)) with
  | DecideCited req => fun d => Some (req, d)
  | _ => fun _ => None
  end x.

Definition obs_home (ev : event) : option (result string HomeUnavailable) :=
  let 'Ev _ e x := ev in
  match e in Effects.effect X return X -> option (result string HomeUnavailable) with
  | AdmittedHome _ _ => fun r => Some r
  | _ => fun _ => None
  end x.
(** Whether the frame came with a descriptor, and what its verification answered. *)
Definition obs_fd (ev : event) : option bool :=
  let 'Ev _ e x := ev in
  match e in Effects.effect X return X -> option bool with
  | TakeFd => fun fd => Some fd
  | _ => fun _ => None
  end x.
Definition obs_verified (ev : event) : option (string * Z * result (option Evidence) string) :=
  let 'Ev _ e x := ev in
  let found (as_evidence : string -> Evidence) (r : result (option string) string) :=
    match r with Ok path => Ok (as_evidence <$> path) | Err why => Err why end in
  match e in Effects.effect X return X -> option (string * Z * result (option Evidence) string) with
  | VerifyObject home u => fun r => Some (home, u, found ObjectAt r)
  | VerifyDirectory home u => fun r => Some (home, u, found DirectoryAt r)
  | _ => fun _ => None
  end x.
Definition obs_decided_all (ev : event) : option (list Request * outcome (list Decided)) :=
  let 'Ev _ e x := ev in
  match e in Effects.effect X return X -> option (list Request * outcome (list Decided)) with
  | DecideCitedAll reqs => fun d => Some (reqs, d)
  | _ => fun _ => None
  end x.
Definition obs_grant (ev : event) : option (MutationGrant * bool) :=
  let 'Ev _ e x := ev in
  match e in Effects.effect X return X -> option (MutationGrant * bool) with
  | WriteGrant g => fun ok => Some (g, ok)
  | _ => fun _ => None
  end x.

(** The effects an event puts on record. *)
Definition obs_effects (ev : event) : list EffectEntry :=
  match obs_emit ev with
  | Some (rec, true) => match ar_mutation rec with Some m => mu_effects m | None => [] end
  | _ => []
  end.

(** The effects on record, in order. *)
Definition audited (h : list event) : list EffectEntry := concat (map obs_effects (rev h)).

(** Every append attempted so far succeeded. *)
Definition all_durable (h : list event) : Prop :=
  Forall (fun ev => match obs_emit ev with Some (_, ok) => ok = true | None => True end) h.

(** The latest append, of an [event] record, succeeded. *)
Definition on_record (h : list event) (event_ : string) : Prop :=
  exists rec, find_map obs_emit h = Some (rec, true) /\ ar_event rec = event_.

Context (en : Env).
Local Notation uid := (sf_uid (en_session en)).
Local Notation lane := (sf_lane (en_session en)).

(** The session stands on facts gathered for this request; [user] is the name
    they give the peer. *)
Definition revalidated (h : list event) (user : option string) : Prop :=
  exists facts, find_map obs_facts h = Some facts /\ revalidate uid uid facts = Continue /\
                user = (admission_facts (fa_membership facts)).1.2.

(** The verb of the frame that was read, in a class that carries it, its
    operands normalised and past the gates. *)
Definition in_hand (h : list event) (verb : Verb) : Prop :=
  exists class body r, find_map obs_read h = Some (ReadOk class body) /\
    decode_request (en_from_reader en) body = Ok r /\ admits_class class (wr_verb r) = true /\
    normalised en (wr_verb r) = Ok verb /\ operand_pregate verb = None /\
    match verb with Read path _ _ => lexical_pregate path = Ok tt | _ => True end.

(** The request [req] for [verb] and the choice admitted for it, against the
    live values read for this request. *)
Definition asked (h : list event) (verb : Verb) (req : Request) (adm : option AdmittedChoice)
    (generation : Z) : Prop :=
  exists view providers user,
    find_map obs_live h = Some (view, providers, generation) /\ revalidated h user /\
    in_hand h verb /\ admit_request verb providers user = Ok adm /\
    req = build_authz_request verb uid None lane adm.

(** ... and the decision point permitted it, on the generation it was admitted on. *)
Definition authorised (h : list event) (verb : Verb) (req : Request) (adm : option AdmittedChoice) : Prop :=
  exists generation d, asked h verb req adm generation /\
    find_map obs_decided h = Some (req, JOk (d, generation)) /\ permits d = true.

(** The answer each verb gives. *)
Definition answers (verb : Verb) (p : Payload) : Prop :=
  match verb, p with
  | Ping, PPong => True
  | Whoami, PWhoami uri u => uri = en_peer_uri en /\ u = uid
  | AdminConfigShow, PConfigView _ | AdminStatus, PStatus _ | AdminSubjectList, PSubjectList _
  | (AdminBaselineShow | AdminBaselineAccept _), PBaseline _
  | (AdminContain _ _ | AdminRelease _), PContainment _ => True
  | SessionPrompt _ _ _ _, PPromptReply r =>
      admitted_reply r = Ok tt /\ (reply_capacity r <= en_prompt_max_bytes en)%Z
  | _, _ => False
  end.

(** The record an authorised request is served under. *)
Definition permit_on_record (h : list event) (verb : Verb) : Prop :=
  exists rec, find_map obs_emit h = Some (rec, true) /\ ar_event rec = "request" /\
    ar_result rec = "permit" /\ ar_action rec = verb_to_action verb /\ ar_uid rec = uid.

(** What the descriptor of the request was verified to be, beneath the requester's home
    and for the peer's own uid, and that [p] is what the verb may be granted on it. *)
Definition verified_for (h : list event) (verb : Verb) (home : string) (p : PreparedMutation) : Prop :=
  exists found, find_map obs_fd h = Some true /\
    find_map obs_verified h = Some (home, uid, Ok (Some found)) /\ prepared_from home verb found p.

(** A filesystem attempt is permitted: the session stands, the verb is the one in
    hand, the descriptor was verified beneath the requester's home and [p] is what it
    was verified to be, the decision point, asked
    in one batch for every path of [p], permitted every one, and the intent that
    is the latest append says so. *)
Record granted (h : list event) (verb : Verb) (home : string) (p : PreparedMutation)
    (intent : AuditRecord) : Prop := {
  gr_session : exists user, revalidated h user;
  gr_verb : in_hand h verb /\ dispatch_verb verb = MutationRequested;
  gr_home : find_map obs_home h = Some (Ok home);
  gr_prepared : prepared_ok verb p;
  gr_verified : verified_for h verb home p;
  gr_decided : exists answer,
    find_map obs_decided_all h = Some (mutation_requests p verb uid home, answer) /\
    Forall (fun d => permits d = true)
      (guarded_decide_cited_all (batch_answer answer) (mutation_requests p verb uid home));
  gr_intent : find_map obs_emit h = Some (intent, true) /\ ar_event intent = "request" /\
    ar_result intent = "permit" /\ ar_action intent = verb_to_action verb /\ ar_uid intent = uid;
  gr_meta : exists m, ar_mutation intent = Some m /\ mu_phase m = PhIntent /\ mu_status m = MsIntentOnly /\
    mu_authorized_paths m = pm_paths p /\ mu_operation m = Some (pm_kind p) }.

(** The exchange a grant opens. *)
Definition opened (g : MutationGrant) (x : Exchange) : Prop :=
  exists page, open_exchange 0 (mg_id g) (mg_scope g) (mg_limits g) page = Ok x.

(** When each effect may be performed. *)
Definition allowed (h : list event) (ev : event) : Prop :=
  match ev_effect ev with
  | ReadFrame _ => all_durable h /\ on_record h "connection"
  | GatherFacts u => u = uid
  | DecideCited req => all_durable h /\ exists verb adm generation, asked h verb req adm generation
  | AdmittedHome u _ | TryAdmit u => u = uid
  | DecideCitedAll reqs =>
      all_durable h /\ (exists user, revalidated h user) /\
      exists verb home p, in_hand h verb /\ dispatch_verb verb = MutationRequested /\
        find_map obs_home h = Some (Ok home) /\ prepared_ok verb p /\
        reqs = mutation_requests p verb uid home
  | WriteGrant g =>
      all_durable h /\
      exists verb home p intent, granted h verb home p intent /\ mg_scope g = pm_scope p /\
        mg_id g = mkId (sf_session_id (en_session en)) (ar_seq intent) /\
        mg_limits g = attempt_limits en (pm_scope p)
  | WriteAck ack =>
      all_durable h /\
      exists g x0 r, find_map obs_grant h = Some (g, true) /\ opened g x0 /\ exchange_reachable x0 r /\
        ack = mkAck (mg_id g) (x_next_index (rn_x r)) /\ audited h = rn_log r
  | WriteFrame _ (RErr _ _) => all_durable h /\ on_record h "request"
  | WriteFrame _ (ROk p) =>
      all_durable h /\ on_record h "request" /\
      exists verb req adm, authorised h verb req adm /\ answers verb p
  | EnumerateSubjects =>
      all_durable h /\ permit_on_record h AdminSubjectList /\
      exists req adm, authorised h AdminSubjectList req adm
  | OpsShow =>
      all_durable h /\ permit_on_record h AdminBaselineShow /\
      exists req adm, authorised h AdminBaselineShow req adm
  | OpsAccept hash =>
      all_durable h /\ permit_on_record h (AdminBaselineAccept hash) /\
      exists req adm, authorised h (AdminBaselineAccept hash) req adm
  | OpsContain target reason permitted =>
      all_durable h /\ permit_on_record h (AdminContain target reason) /\
      exists adm, authorised h (AdminContain target reason) permitted adm
  | OpsRelease target permitted =>
      all_durable h /\ permit_on_record h (AdminRelease target) /\
      exists adm, authorised h (AdminRelease target) permitted adm
  | EgressSend intent sreq =>
      all_durable h /\ find_map obs_emit h = Some (intent, true) /\
      ar_result intent = "permit" /\ (ea_status <$> ar_egress intent) = Some StIntentOnly /\
      exists conversation turns output_tokens choice req a,
        authorised h (SessionPrompt conversation turns output_tokens choice) req (Some a) /\
        sreq = for_choice a ("provider:" +:+ ap_name (ac_provider a)) conversation turns output_tokens
  | _ => True
  end.

(** ** Lemmas *)

(** An event that answers nothing the facts above look at. *)
Definition neutral (ev : event) : Prop :=
  obs_read ev = None /\ obs_facts ev = None /\ obs_live ev = None /\ obs_decided ev = None.

Lemma asked_cons ev h verb req adm g : neutral ev -> asked h verb req adm g -> asked (ev :: h) verb req adm g.
Proof.
  intros (E1 & E2 & E3 & _) (view & providers & user & Hl & (facts & Hf & Hr) & (class & body & r & Hi) & H).
  exists view, providers, user. split_and!; try apply H.
  - simpl. by rewrite E3.
  - exists facts. simpl. by rewrite E2.
  - exists class, body, r. simpl. by rewrite E1.
Qed.

Lemma authorised_cons ev h verb req adm : neutral ev -> authorised h verb req adm -> authorised (ev :: h) verb req adm.
Proof.
  intros Hn (g & d & Ha & Hd & Hp). exists g, d. split_and!; [by apply asked_cons| |done].
  simpl. destruct Hn as (_ & _ & _ & ->). done.
Qed.

(** Extending a history by events that are neutral and, if appends, succeeded. *)
Definition grown (h h' : list event) : Prop :=
  exists l, h' = l ++ h /\ Forall neutral l /\ all_durable l.

Lemma history_refl h : grown h h.
Proof. exists []. split_and!; [done|constructor..]. Qed.

Lemma grown_cons ev h h' :
  neutral ev -> match obs_emit ev with Some (_, ok) => ok = true | None => True end ->
  grown h h' -> grown h (ev :: h').
Proof.
  intros Hn He (l & -> & Hl & Hd). exists (ev :: l).
  split_and!; [done|by constructor|by constructor].
Qed.

Lemma grown_durable h h' : grown h h' -> all_durable h -> all_durable h'.
Proof. intros (l & -> & _ & Hd) H. by apply Forall_app. Qed.

Lemma grown_authorised h h' verb req adm : grown h h' -> authorised h verb req adm -> authorised h' verb req adm.
Proof.
  intros (l & -> & Hn & _) H. induction Hn as [|ev l Hev _ IH]; [done|]. by apply authorised_cons.
Qed.

End Policy.
