(* ===== verification/MutateTheorems.v ===== *)
(** * The mutation path keeps to the policy

    Every effect of [Mutation.mutate] is allowed by [ServePolicy.allowed] when it
    is performed, from any history in which the session stands and the verb is in
    hand; and the report loop never runs out of fuel. *)
From stdpp Require Import base list strings gmap.
From Stdlib Require Import ZArith Lia Ascii.
From S2P Require Import Prelude Programs RustStr RustSlice RustNet Seam Config PathGlob AuthzPolicy Decide.
From S2P Require Import Graph GraphFormat Wire Operands MutationExchange Providers Handler Egress.
From S2P Require Import Breaker Session Workers AuditRecords Effects Mutation Serve ServePolicy.
Open Scope nat_scope.

Section Mutate.
Context {CV SV JV BV KV : Type}.
Local Notation prog := (Programs.prog (@Effects.effect CV SV JV BV KV)).
Local Notation event := (Programs.event (@Effects.effect CV SV JV BV KV)).
Context (en : @Env CV SV JV BV KV).
Local Notation uid := (sf_uid (en_session en)).
Local Notation wp := (wp (allowed en)).
Local Notation safe p h := (wp p (fun _ _ => True) h).

(** ** Histories *)

Lemma revalidated_cons ev h user : neutral ev -> revalidated en h user -> revalidated en (ev :: h) user.
Proof. intros (_ & E & _) (facts & Hf & ?). exists facts. simpl. by rewrite E. Qed.

Lemma in_hand_cons ev h verb : neutral ev -> in_hand en h verb -> in_hand en (ev :: h) verb.
Proof. intros (E & _) (class & body & r & Hi). exists class, body, r. simpl. by rewrite E. Qed.

(** The session stands, the filesystem verb is in hand, and no effect is on
    record yet. *)
Record standing (h : list event) (verb : Verb) : Prop := {
  sd_durable : all_durable h;
  sd_session : exists user, revalidated en h user;
  sd_verb : in_hand en h verb /\ dispatch_verb verb = MutationRequested;
  sd_quiet : audited h = [] }.

Lemma audited_cons ev (h : list event) : audited (ev :: h) = audited h ++ obs_effects ev.
Proof. unfold audited. simpl. rewrite map_app, concat_app. simpl. by rewrite app_nil_r. Qed.

Lemma standing_cons ev h verb :
  neutral ev -> obs_emit ev = None -> standing h verb -> standing (ev :: h) verb.
Proof.
  intros Hn He [Hd [user Hr] [Hi Hv] Hq]. split.
  - constructor; [by rewrite He|done].
  - exists user. by apply revalidated_cons.
  - split; [by apply in_hand_cons|done].
  - rewrite audited_cons, Hq. unfold obs_effects. by rewrite He.
Qed.

Lemma standing_emit rec h verb :
  ar_mutation rec = None \/ (exists m, ar_mutation rec = Some m /\ mu_effects m = []) ->
  standing h verb -> standing (Ev bool (Emit rec) true :: h) verb.
Proof.
  intros Hm [Hd [user Hr] [Hi Hv] Hq]. split.
  - by constructor.
  - exists user. apply revalidated_cons; [neutral_ev|done].
  - split; [by apply in_hand_cons; [neutral_ev|]|done].
  - rewrite audited_cons, Hq. simpl. unfold obs_effects. simpl. by destruct Hm as [->|(m & -> & ->)].
Qed.

(** ** The loop *)

Lemma safe_incomplete intent reason h : safe (incomplete intent reason) h.
Proof. intros seq. split; [done|]. intros ok. by split. Qed.

Lemma safe_incomplete_then intent reason h :
  safe (bind (incomplete intent reason) (fun _ => Ret (Some tt))) h.
Proof. apply wp_bind. eapply wp_mono; [|apply safe_incomplete]. done. Qed.

Lemma opened_id g x : opened g x -> x_id x = mg_id g.
Proof.
  intros [page H]. unfold open_exchange in H. destruct (_ || _); [done|]. destruct (_ && _); [done|].
  unbind H. by injection H as <-.
Qed.

Lemma exchange_id x0 r : exchange_reachable x0 r -> x_id (rn_x r) = x_id x0.
Proof.
  induction 1 as [|r r' _ IH Hs]; [done|]. rewrite <-IH. destruct Hs as [x log f rep x' p Hv|x p rep log f x' ack Ha|]; simpl.
  - apply validate_report_inv in Hv as (_ & _ & -> & _). done.
  - unfold acknowledge in Ha. destruct (negb _); [done|]. by injection Ha as <- _.
  - done.
Qed.

(** An exchange after the acknowledged reports, and their effects on record. *)
Record exchanging (h : list event) (g : MutationGrant) (x0 x : Exchange) : Prop := {
  xg_durable : all_durable h;
  xg_grant : find_map obs_grant h = Some (g, true);
  xg_opened : opened g x0;
  xg_run : exists finish, exchange_reachable x0 (mkRun x None (audited h) finish) }.

Lemma exchanging_cons ev h g x0 x :
  obs_emit ev = None -> obs_grant ev = None -> exchanging h g x0 x -> exchanging (ev :: h) g x0 x.
Proof.
  intros He Hg [Hd Hgr Ho [finish Hr]]. split; [constructor; [by rewrite He|done]| |done|].
  - simpl. by rewrite Hg.
  - exists finish. rewrite audited_cons. unfold obs_effects. by rewrite He, app_nil_r.
Qed.

Lemma report_record_effects intent seq report rec terminal :
  report_record intent seq report = (rec, terminal) ->
  obs_effects (Ev bool (Emit rec) true : event) = effects_of report.
Proof. unfold report_record, obs_effects. by destruct report; intros [= <- _]. Qed.

Lemma acknowledge_ack x p x' ack : acknowledge x p = Ok (x', ack) -> ack = mkAck (x_id x') (x_next_index x').
Proof. unfold acknowledge. destruct (negb _); [done|]. by intros [= <- <-]. Qed.

Lemma safe_report_loop fuel intent g x0 x h :
  exchanging h g x0 x -> safe (report_loop en fuel intent x) h.
Proof.
  revert x h. induction fuel as [|fuel IH]; intros x h Hx; [done|]. cbn [report_loop].
  intros read. split; [done|]. destruct read as [report|]; [|apply safe_incomplete_then].
  destruct (validate_report x report) as [[x' pending]|] eqn:Eval; [|apply safe_incomplete_then].
  intros seq. split; [done|]. destruct (report_record intent seq report) as [rec terminal] eqn:Er.
  intros appended. split; [done|]. destruct appended; cbn [negb]; [|apply safe_incomplete_then].
  destruct (acknowledge x' pending) as [[x'' ack]|] eqn:Ea; [|apply safe_incomplete_then].
  destruct (negb (en_encode_ack en ack)); [apply safe_incomplete_then|].
  set (h' := Ev bool (Emit rec) true :: _).
  assert (exchanging h' g x0 x'') as Hx'.
  { destruct Hx as [Hd Hg Ho [finish Hr]]. split; [durable|done|done|].
    exists (finish_of report finish). unfold h'. rewrite !audited_cons, (report_record_effects _ _ _ _ _ Er).
    cbn [obs_effects obs_emit]. rewrite !app_nil_r.
    eapply er_step; [eapply er_step; [exact Hr|by apply es_validate]|]. by eapply es_acknowledge. }
  intros delivered. split.
  { destruct Hx' as [Hd Hg Ho [finish Hr]]. split; [done|].
    eexists g, x0, _. split_and!; [done|done|exact Hr| |done].
    apply acknowledge_ack in Ea as ->. rewrite <-(opened_id _ _ Ho), <-(exchange_id _ _ Hr). done. }
  destruct delivered; cbn [negb]; [|apply safe_incomplete_then].
  destruct terminal; [done|]. apply IH. by apply exchanging_cons.
Qed.

(** ** The attempt *)

Lemma begin_attempt_open id scope page x : begin_attempt en id scope page = Ok x ->
  exists pg, open_exchange 0 id scope (attempt_limits en scope) pg = Ok x.
Proof.
  unfold begin_attempt, begin_paged, begin_exchange. destruct page as [pg|]; [|by eexists].
  destruct (negb _); [done|]. by exists (Some pg).
Qed.

Lemma begin_attempt_start id scope page x : begin_attempt en id scope page = Ok x ->
  x_next_index x = 0%Z /\ ml_max_effects (x_limits x) = MAX_MUTATION_EFFECTS.
Proof.
  intros [pg H]%begin_attempt_open. unfold open_exchange in H. destruct (_ || _); [done|].
  destruct (_ && _); [done|]. unbind H. by injection H as <-.
Qed.

Lemma safe_attempt intent verb home p label page h :
  standing h verb -> granted en h verb home p intent ->
  ar_session_id intent = sf_session_id (en_session en) ->
  safe (attempt en intent (pm_scope p) label page) h.
Proof.
  intros Hs Hg Hsid. unfold attempt. set (id := mkId _ _).
  destruct (begin_attempt en id (pm_scope p) page) as [x|] eqn:Eb; [|apply safe_incomplete_then].
  destruct (negb (grant_fits en _)); [apply safe_incomplete_then|]. intros delivered. split.
  { split; [apply Hs|]. exists verb, home, p, intent. unfold id. rewrite Hsid. by split_and!. }
  destruct delivered; cbn [negb]; [|apply safe_incomplete_then].
  eapply (safe_report_loop _ _ (mkGrant id (pm_scope p) (attempt_limits en (pm_scope p)) label) x).
  split; [constructor; [done|apply Hs]|done| |].
  - by apply begin_attempt_open in Eb.
  - exists None. rewrite audited_cons, (sd_quiet _ _ Hs). apply er_begin.
Qed.

(** ** The decision *)

Lemma authorize_paths_Ok l : forall decided decided',
  authorize_paths decided l = Ok decided' -> Forall (fun pd => permits pd.2 = true) l.
Proof.
  induction l as [|[path d] l IH]; intros decided decided' H; [done|]. simpl in H.
  destruct (finalize (combine [d_verdict d])) as [obs|] eqn:Ef; [|done].
  destruct (discharge_plan obs) as [[]|] eqn:Ed; [|done]. constructor; [|by eapply IH].
  simpl. unfold permits, denial. by rewrite Ef, Ed.
Qed.

Lemma authorize_Ok p verb home answer policy r :
  authorize p (mutation_requests p verb uid home) answer policy = Ok r ->
  Forall (fun d => permits d = true)
    (guarded_decide_cited_all (batch_answer answer) (mutation_requests p verb uid home)).
Proof.
  unfold authorize. intros H. unbind H. apply authorize_paths_Ok in E.
  set (all := guarded_decide_cited_all _ _) in *.
  assert (length all = length (pm_paths p)) as Hl.
  { unfold all, mutation_requests. by rewrite guarded_decide_cited_all_length, length_map. }
  clearbody all. clear -Hl E. revert all Hl E. induction (pm_paths p) as [|q qs IH]; intros [|d ds] Hl E; try done.
  simpl in E. apply Forall_cons in E as [Hd E]. constructor; [done|]. apply IH; [simpl in Hl; lia|done].
Qed.

Lemma wp_refuse rec reason (Q : unit -> list event -> Prop) h :
  all_durable h -> ar_event rec = "request" -> (forall h', Q tt h') ->
  wp (refuse_mutation en rec reason) Q h.
Proof.
  intros Hd He HQ appended. split; [done|]. destruct appended; [|apply HQ].
  destruct (en_encode_response en _) as [len|]; [|apply HQ]. destruct (len <=? _)%Z; [|apply HQ].
  intros []. split; [|apply HQ]. split; [by constructor|]. by eexists.
Qed.

Lemma safe_refused rec reason h :
  all_durable h -> ar_event rec = "request" ->
  safe (bind (refuse_mutation en rec reason) (fun _ => Ret (Some tt))) h.
Proof. intros. apply wp_bind. by apply wp_refuse. Qed.

Lemma prepare_gate_Ok verb fd home lane asked :
  prepare_gate verb fd home lane = Ok asked -> verb_path verb = Some asked /\ fd = true.
Proof.
  unfold prepare_gate. intros H. unbind H. unbind H. destruct (match lane with LaneLocal => _ | _ => _ end); [done|].
  destruct (same_path _ _); [done|]. destruct fd; [|done]. injection H as ->. destruct (verb_path verb); [by injection E as ->|done].
Qed.

(** The record a filesystem verb is served under. *)
Record own_record (verb : Verb) (rec : AuditRecord) : Prop := {
  or_event : ar_event rec = "request";
  or_action : ar_action rec = verb_to_action verb;
  or_uid : ar_uid rec = uid;
  or_session : ar_session_id rec = sf_session_id (en_session en);
  or_quiet : ar_mutation rec = None }.

(** What the worker leaves behind: the session still stands, and a permit means
    the whole batch was permitted. *)
Lemma wp_worker verb home h
    (Q : result (PreparedMutation * result (DecidedBy * string) AuthorizeErr) string -> list event -> Prop) :
  standing h verb -> find_map obs_home h = Some (Ok home) ->
  (forall why h', standing h' verb -> Q (Err why) h') ->
  (forall p decision h', standing h' verb -> find_map obs_home h' = Some (Ok home) -> prepared_ok verb p ->
     verified_for en h' verb home p ->
     (forall r, decision = Ok r -> exists answer,
        find_map obs_decided_all h' = Some (mutation_requests p verb uid home, answer) /\
        Forall (fun d => permits d = true)
          (guarded_decide_cited_all (batch_answer answer) (mutation_requests p verb uid home))) ->
     Q (Ok (p, decision)) h') ->
  wp (worker en verb home) Q h.
Proof.
  intros Hs Hh HErr HOk. intros fd. split; [done|].
  set (h1 := Ev bool TakeFd fd :: h).
  assert (standing h1 verb /\ find_map obs_home h1 = Some (Ok home)) as [Hs1 Hh1].
  { split; [by apply standing_cons|done]. }
  assert (forall p h2, standing h2 verb -> find_map obs_home h2 = Some (Ok home) -> prepared_ok verb p ->
    verified_for en h2 verb home p ->
    wp (let# answer := DecideCitedAll (mutation_requests p verb uid home) in
        Ret (Ok (p, authorize p (mutation_requests p verb uid home) answer (en_policy_name en)))) Q h2) as Hdec.
  { intros p h2 Hs2 Hh2 Hp Hv answer. split.
    - split_and!; [apply Hs2..|]. exists verb, home, p. by split_and!; try apply Hs2.
    - apply HOk; [by apply standing_cons|done|done|exact Hv|]. intros r Hr. exists answer. split; [done|].
      by eapply authorize_Ok. }
  apply wp_bind. unfold prepare.
  destruct (prepare_gate verb fd home _) as [asked|why] eqn:Eg; [|by apply HErr].
  apply prepare_gate_Ok in Eg as [Hasked ->].
  destruct (object_verb verb) as [[[refused kind] effect]|] eqn:Eo.
  - intros verified. split; [done|].
    destruct (prepare_object refused kind effect verified) as [p|why] eqn:Ep.
    + apply Hdec; [by apply standing_cons|done|by eapply prepare_object_ok|].
      destruct (prepare_object_from _ home _ _ _ _ _ Eo Ep) as (q & -> & Hf). by exists (ObjectAt q).
    + apply HErr. by apply standing_cons.
  - intros verified. split; [done|].
    destruct (prepare_directory verb asked home verified) as [p|why] eqn:Ep.
    + apply Hdec; [by apply standing_cons|done|by eapply prepare_directory_ok|].
      destruct (prepare_directory_from _ _ home _ _ Eo Hasked Ep) as (d & -> & Hf). by exists (DirectoryAt d).
    + apply HErr. by apply standing_cons.
Qed.

Lemma safe_mutate verb rec home h :
  standing h verb -> find_map obs_home h = Some home -> own_record verb rec ->
  safe (mutate en verb rec home) h.
Proof.
  intros Hs Hh [He Ha Hu Hsid Hq]. unfold mutate. destruct (verb_path verb) as [asked|]; [|done].
  destruct home as [home|cause]; [|by apply safe_refused; [apply Hs|]].
  intros busy. split; [done|].
  assert (standing (Ev _ (TryAdmit uid) busy :: h) verb) as Hs1 by by apply standing_cons.
  destruct busy as [[]|]; [by apply safe_refused; [apply Hs1|]..|].
  apply wp_bind. apply wp_worker; [done|done| |].
  - intros why h' Hs'. intros joined. split; [done|].
    assert (standing (Ev _ WorkerJoined joined :: h') verb) as Hs2 by by apply standing_cons.
    destruct joined; cbn [negb]; by apply safe_refused; [apply Hs2|].
  - intros p decision h' Hs' Hh' Hp Hv Hd. intros joined. split; [done|].
    assert (standing (Ev _ WorkerJoined joined :: h') verb) as Hs2 by by apply standing_cons.
    destruct joined; cbn [negb]; [|by apply safe_refused; [apply Hs2|]].
    destruct (match decision with Ok (by_, _) => by_ | Err (_, _, by_) => by_ end) as [role rule].
    destruct decision as [[by_ label]|[[reason denied] by_]]; [|by apply safe_refused; [apply Hs2|]].
    destruct (Hd _ eq_refl) as (answer & Hall & Hperm). unfold commit_and_attempt. set (intent := intent_record _ _ _ _ _ _).
    intros committed. split; [done|]. destruct committed; [|done].
    apply (safe_attempt _ verb home); [|split|done].
    + apply standing_emit; [|done]. right. by eexists.
    + destruct (sd_session _ _ Hs2) as [user Hr]. exists user. apply revalidated_cons; [neutral_ev|done].
    + split; [apply in_hand_cons; [neutral_ev|]|]; apply Hs2.
    + done.
    + done.
    + exact Hv.
    + by exists answer.
    + by split_and!.
    + by eexists.
Qed.

(** ** The loop ends *)

Local Notation returns p Q h := (Programs.wp (fun _ _ => True) p (fun a _ => Q a) h).

Lemma returns_incomplete_then intent reason h :
  returns (bind (incomplete intent reason) (fun _ => Ret (Some tt)) : prog (option unit)) (fun a => a = Some tt) h.
Proof. intros seq. split; [done|]. intros ok. by split. Qed.

(** An acknowledged batch leaves fewer effects to report. *)
Lemma acknowledged_batch x report x' p x'' ack :
  validate_report x report = Ok (x', p) -> acknowledge x' p = Ok (x'', ack) ->
  x_limits x'' = x_limits x /\
  match report with
  | Batch _ _ _ => (x_next_index x < x_next_index x'' <= ml_max_effects (x_limits x))%Z
  | Finished _ _ _ _ => True
  end.
Proof.
  intros (_ & _ & -> & _ & Hv)%validate_report_inv Ha. unfold acknowledge in Ha.
  destruct (negb _); [done|]. injection Ha as <- _. split; [done|]. destruct report as [id i effects|]; [|done].
  apply validate_batch_ok in Hv as (-> & _ & _ & _ & _ & Hmax & _ & Hne & _). simpl.
  destruct effects; [done|]. simpl in *. lia.
Qed.

Lemma report_loop_ends fuel intent x h :
  (x_next_index x <= ml_max_effects (x_limits x))%Z ->
  Z.to_nat (ml_max_effects (x_limits x) - x_next_index x) < fuel ->
  returns (report_loop en fuel intent x) (fun a => a = Some tt) h.
Proof.
  revert x h. induction fuel as [|fuel IH]; intros x h Hi Hf; [lia|]. cbn [report_loop].
  intros read. split; [done|]. destruct read as [report|]; [|apply returns_incomplete_then].
  destruct (validate_report x report) as [[x' pending]|] eqn:Eval; [|apply returns_incomplete_then].
  intros seq. split; [done|]. destruct (report_record intent seq report) as [rec terminal] eqn:Er.
  intros appended. split; [done|]. destruct appended; cbn [negb]; [|apply returns_incomplete_then].
  destruct (acknowledge x' pending) as [[x'' ack]|] eqn:Ea; [|apply returns_incomplete_then].
  destruct (negb (en_encode_ack en ack)); [apply returns_incomplete_then|].
  intros delivered. split; [done|]. destruct delivered; cbn [negb]; [|apply returns_incomplete_then].
  destruct (acknowledged_batch _ _ _ _ _ _ Eval Ea) as [Hl Hb].
  destruct report; injection Er as <- <-; [|done]. apply IH; rewrite Hl; lia.
Qed.

Lemma mutate_ends verb rec home h : returns (mutate en verb rec home) (fun a => a = Some tt) h.
Proof.
  assert (forall rec reason h,
    returns (bind (refuse_mutation en rec reason) (fun _ => Ret (Some tt)) : prog (option unit))
      (fun a => a = Some tt) h) as Href.
  { intros rec' reason h' appended. split; [done|]. destruct appended; [|done].
    destruct (en_encode_response en _) as [len|]; [|done]. destruct (len <=? _)%Z; [|done]. by intros []. }
  unfold mutate. destruct (verb_path verb) as [asked|]; [|done]. destruct home as [home|cause]; [|apply Href].
  intros busy. split; [done|]. destruct busy as [[]|]; [apply Href..|]. apply wp_bind.
  eapply (wp_mono _ _ (fun _ _ => True)).
  - intros done_ h' _ joined. split; [done|]. destruct joined; cbn [negb]; [|apply Href].
    destruct done_ as [[p decision]|]; [|apply Href].
    destruct (match decision with Ok (by_, _) => by_ | Err (_, _, by_) => by_ end) as [role rule].
    destruct decision as [[by_ label]|[[reason denied] by_]]; [|apply Href].
    intros committed. split; [done|]. destruct committed; [|done]. unfold attempt.
    destruct (begin_attempt en _ _ _) as [x|] eqn:Eb; [|apply returns_incomplete_then].
    destruct (negb (grant_fits en _)); [apply returns_incomplete_then|]. intros delivered. split; [done|].
    destruct delivered; cbn [negb]; [|apply returns_incomplete_then].
    destruct (begin_attempt_start _ _ _ _ Eb) as [Hi Hm].
    apply report_loop_ends; unfold report_fuel; rewrite ?Hi, ?Hm; [done|lia].
  - intros fd. split; [done|]. apply wp_bind. unfold prepare.
    assert (forall r : result PreparedMutation string, forall h,
      returns (match r with
               | Err why => Ret (Err why)
               | Ok p => let# answer := DecideCitedAll (mutation_requests p verb uid home) in
                         Ret (Ok (p, authorize p (mutation_requests p verb uid home) answer (en_policy_name en)))
               end : prog _) (fun _ => True) h) as Hr.
    { intros [p|why] h'; [|done]. intros answer. by split. }
    destruct (prepare_gate verb fd home _); [|done].
    destruct (object_verb verb) as [[[refused kind] effect]|]; intros verified; (split; [done|]); apply Hr.
Qed.
End Mutate.
