(* ===== verification/ServeTheorems.v ===== *)
(** * Serving keeps to the policy

    Every effect of [Serve.handle] is allowed by [ServePolicy.allowed] when it is
    performed, and what every complete run of it has done ([ends_handle]). *)
From stdpp Require Import base list strings gmap.
From Stdlib Require Import ZArith Lia Ascii.
From S2P Require Import Prelude Programs RustStr RustSlice RustNet Seam Config PathGlob AuthzPolicy Decide.
From S2P Require Import Graph GraphFormat Wire Operands MutationExchange Providers Handler Egress.
From S2P Require Import Breaker Session Workers AuditRecords Effects Mutation Serve ServePolicy MutateTheorems.
Open Scope nat_scope.

Section Serving.
Context {CV SV JV BV KV : Type}.
Local Notation effect := (@Effects.effect CV SV JV BV KV).
Local Notation prog := (Programs.prog (@Effects.effect CV SV JV BV KV)).
Local Notation Env := (@Env CV SV JV BV KV).
Local Notation event := (Programs.event (@Effects.effect CV SV JV BV KV)).
Local Notation Payload := (@Payload CV SV JV BV KV).
Context (en : Env).
Local Notation uid := (sf_uid (en_session en)).
Local Notation lane := (sf_lane (en_session en)).
Local Notation allowed := (allowed en).
Local Notation wp := (wp allowed).
Local Notation safe p h := (wp p (fun _ _ => True) h).
Local Notation revalidated := (revalidated en).
Local Notation in_hand := (in_hand en).
Local Notation asked := (asked en).
Local Notation authorised := (authorised en).
Local Notation answers := (answers en).
Local Notation permit_on_record := (permit_on_record en).
Local Notation asked_cons := (asked_cons en).
Local Notation authorised_cons := (authorised_cons en).
Local Notation grown_authorised := (grown_authorised en).

(** ** Records and refusals *)

Lemma safe_any {A} (p : prog A) Q h : wp p Q h -> safe p h.
Proof. by apply wp_mono. Qed.

Lemma wp_emit user role rule action object res reason posture Q h :
  (forall seq ok, let rec := with_identity (make_record en "request" seq action object res reason posture)
                               user role rule in
     Q ok (Ev bool (Emit rec) ok :: Ev Z NextSeq seq :: h)) ->
  wp (emit_request_outcome en user role rule action object res reason posture) Q h.
Proof. intros H seq. split; [done|]. intros ok. split; [done|]. apply H. Qed.

Lemma wp_write_error class code message (Q : unit -> list event -> Prop) h :
  all_durable h -> on_record h "request" -> Q tt h ->
  Q tt (Ev unit (WriteFrame class (RErr code message)) tt :: h) ->
  wp (write_error_bounded en class code message) Q h.
Proof.
  intros Hd Hr H1 H2. unfold write_error_bounded. destruct (en_encode_response en _); [|done].
  intros []. done.
Qed.

Lemma wp_close Q h : Q tt (Ev unit CloseStream tt :: h) -> wp close_bounded Q h.
Proof. intros H []. done. Qed.

Lemma emitted_on_record rec (h : list event) seq :
  ar_event rec = "request" -> on_record (Ev bool (Emit rec) true :: Ev Z NextSeq seq :: h) "request".
Proof. intros H. by exists rec. Qed.

(** An append, then on its success a step that needs the record. *)
Lemma safe_gated user role rule action object res reason posture (k : prog unit) (rest : prog unit) h :
  all_durable h ->
  (forall h', all_durable h' -> on_record h' "request" -> grown h h' -> safe k h') ->
  (forall h', safe rest h') ->
  safe (bind (emit_request_outcome en user role rule action object res reason posture)
         (fun appended => bind (if may_respond appended then k else Ret tt) (fun _ => rest))) h.
Proof.
  intros Hd Hk Hrest. apply wp_bind, wp_emit. intros seq ok rec. apply wp_bind.
  destruct ok; simpl; [|apply Hrest]. eapply wp_mono; [by intros; apply Hrest|].
  apply Hk; [durable|by eapply emitted_on_record|].
  apply grown_cons; [neutral_ev|done|]. apply grown_cons; [neutral_ev|done|apply history_refl].
Qed.

Lemma safe_close h : safe close_bounded h.
Proof. by apply wp_close. Qed.

Lemma safe_error class code message h :
  all_durable h -> on_record h "request" -> safe (write_error_bounded en class code message) h.
Proof. intros. by apply wp_write_error. Qed.

Lemma safe_refuse class user role rule action res reason posture code message h :
  all_durable h -> safe (refuse en class user role rule action res reason posture code message) h.
Proof.
  intros Hd. apply safe_gated; [done| |apply safe_close]. intros. by apply safe_error.
Qed.

Lemma safe_end_session class user action ending h :
  all_durable h -> safe (end_session en class user action ending) h.
Proof.
  intros Hd. apply safe_gated; [done| |].
  - intros. by apply safe_error.
  - intros h' []. split; [done|]. apply safe_close.
Qed.

Lemma safe_request_deny user action reason posture h : safe (emit_request_deny en user action reason posture) h.
Proof. intros seq. split; [done|]. intros ok. by split. Qed.

(** A corrective record on a permitted request, then an error. *)
Lemma safe_corrective user role rule action res reason posture class code message h :
  all_durable h ->
  safe (bind (emit_request_outcome en user role rule action None res reason posture)
         (fun corrected => if may_respond corrected then write_error_bounded en class code message else Ret tt)) h.
Proof.
  intros Hd. apply wp_bind, wp_emit. intros seq ok rec. destruct ok; simpl; [|done].
  apply safe_error; [durable|by eapply emitted_on_record].
Qed.

Lemma safe_write_frame class p len user role rule action verb req adm h :
  all_durable h -> on_record h "request" -> authorised h verb req adm -> answers verb p ->
  safe (write_frame_bounded en class (ROk p) len user role rule action) h.
Proof.
  intros Hd Hr Ha Hp. unfold write_frame_bounded. destruct (_ <? _)%Z.
  - by apply safe_corrective.
  - intros []. split; [|done]. split_and!; [done..|]. by exists verb, req, adm.
Qed.

(** The payload an arm returns, and the history it leaves. *)
Definition payload_ready (verb : Verb) (req : Request) (adm : option AdmittedChoice)
    (payload : option Payload) (h : list event) : Prop :=
  match payload with
  | None => True
  | Some p => all_durable h /\ on_record h "request" /\ authorised h verb req adm /\ answers verb p
  end.

Lemma wp_refused_arm class user role rule action reason posture code message Q h :
  all_durable h -> (forall h', Q None h') ->
  wp (refused_arm en class user role rule action reason posture code message) Q h.
Proof.
  intros Hd HQ. apply wp_bind. eapply wp_mono; [|by apply safe_refuse]. intros [] h' _. apply HQ.
Qed.

Lemma wp_corrected_view class user role rule action res reason posture p verb req adm h :
  all_durable h -> authorised h verb req adm -> answers verb p ->
  wp (corrected_view en class user role rule action res reason posture p) (payload_ready verb req adm) h.
Proof.
  intros Hd Ha Hp. apply wp_bind, wp_emit. intros seq ok rec. destruct ok; simpl.
  - split_and!; [durable|by eapply emitted_on_record| |done].
    apply authorised_cons; [neutral_ev|]. by apply authorised_cons; [neutral_ev|].
  - intros []. by split.
Qed.

Lemma wp_contain_answer class user role rule action answer verb req adm h :
  all_durable h -> on_record h "request" -> authorised h verb req adm ->
  (forall v, answers verb (PContainment v)) ->
  wp (contain_answer en class user role rule action answer) (payload_ready verb req adm) h.
Proof.
  intros Hd Hr Ha Hv. destruct answer as [view [c|]|reply why|why]; simpl contain_answer.
  - by apply wp_corrected_view.
  - done.
  - by apply wp_refused_arm.
  - by apply wp_refused_arm.
Qed.

Lemma wp_enumerate req adm h (Q : result (list SubjectBinding) string -> list event -> Prop) :
  all_durable h -> permit_on_record h AdminSubjectList -> authorised h AdminSubjectList req adm ->
  (forall r h', grown h h' -> find_map obs_emit h' = find_map obs_emit h -> Q r h') ->
  wp enumerate_bounded Q h.
Proof.
  intros Hd Hp Ha HQ.
  assert (forall ev h', neutral ev -> obs_emit ev = None -> grown h h' /\ find_map obs_emit h' = find_map obs_emit h ->
                        grown h (ev :: h') /\ find_map obs_emit (ev :: h') = find_map obs_emit h) as Hstep.
  { intros ev h' Hn He [Hg E]. split; [apply grown_cons; [done|by rewrite He|done]|]. simpl. by rewrite He. }
  assert (grown h h /\ find_map obs_emit h = find_map obs_emit h) as H0 by (split; [apply history_refl|done]).
  intros adm'. split; [done|].
  pose proof (Hstep (Ev _ (BeginAttempt AuthzGuard) adm') h ltac:(neutral_ev) eq_refl H0) as H1.
  destruct adm'; [|by apply HQ; apply H1..].
  intros out. split.
  { split_and!; [durable| |].
    - destruct Hp as (rec & E & ?). exists rec. simpl. by rewrite E.
    - exists req, adm. by apply authorised_cons; [neutral_ev|]. }
  pose proof (Hstep (Ev _ EnumerateSubjects out) _ ltac:(neutral_ev) eq_refl H1) as H2.
  destruct out as [[v|]| |]; intros x; (split; [done|]); apply HQ;
    eapply Hstep; try exact H2; first [neutral_ev|reflexivity].
Qed.

Lemma permit_request h verb : permit_on_record h verb -> on_record h "request".
Proof. intros (rec & E & Hr & _). by exists rec. Qed.

Lemma wp_admin_payload class verb user role rule view req adm h :
  all_durable h -> permit_on_record h verb -> authorised h verb req adm ->
  wp (admin_payload en class verb user role rule view req) (payload_ready verb req adm) h.
Proof.
  intros Hd Hp Ha. pose proof (permit_request _ _ Hp) as Hr.
  assert (forall ev, neutral ev -> obs_emit ev = None ->
            all_durable (ev :: h) /\ on_record (ev :: h) "request" /\ authorised (ev :: h) verb req adm) as Hstep.
  { intros ev Hn He. split_and!; [constructor; [by rewrite He|done]| |by apply authorised_cons].
    destruct Hr as (rec & E & ?). exists rec. simpl. by rewrite He. }
  destruct verb; cbv beta iota zeta delta [admin_payload]; try done.
  - apply wp_bind. eapply wp_enumerate; [done..|]. intros r h' Hg E. destruct r as [b|why].
    + split_and!; [by eapply grown_durable| |by eapply grown_authorised|done].
      destruct Hr as (rec & E' & ?). exists rec. by rewrite E.
    + apply wp_refused_arm; [by eapply grown_durable|done].
  - intros shown. split; [split_and!; [done..|]; by exists req, adm|].
    destruct (Hstep (Ev _ OpsShow shown) ltac:(neutral_ev) eq_refl) as (? & ? & ?).
    destruct shown; [done|]. by apply wp_refused_arm.
  - intros answer. split; [split_and!; [done..|]; by exists req, adm|].
    destruct (Hstep (Ev _ (OpsAccept hash) answer) ltac:(neutral_ev) eq_refl) as (? & ? & ?).
    destruct answer as [v [why|]|reply why]; [by apply wp_corrected_view|done|by apply wp_refused_arm].
  - intros answer. split; [split_and!; [done..|]; by exists adm|].
    destruct (Hstep (Ev _ (OpsContain target reason req) answer) ltac:(neutral_ev) eq_refl) as (? & ? & ?).
    by apply wp_contain_answer.
  - intros answer. split; [split_and!; [done..|]; by exists adm|].
    destruct (Hstep (Ev _ (OpsRelease target req) answer) ltac:(neutral_ev) eq_refl) as (? & ? & ?).
    by apply wp_contain_answer.
Qed.

Lemma safe_serve_admin class verb user role rule view req adm h :
  all_durable h -> authorised h verb req adm ->
  safe (serve_admin en class verb user role rule view req) h.
Proof.
  intros Hd Ha. apply wp_bind, wp_emit. intros seq ok rec. destruct ok; simpl negb; cbv iota; [|apply safe_close].
  apply wp_bind. eapply wp_mono; [|eapply wp_admin_payload].
  - intros [p|] h'; [|done]. intros (Hd' & Hr' & Ha' & Hp'). apply wp_bind.
    eapply wp_mono; [by intros; apply safe_close|]. destruct (en_encode_response en (ROk p)).
    + by eapply safe_write_frame.
    + by apply safe_corrective.
  - durable.
  - by exists rec.
  - apply authorised_cons; [neutral_ev|]. by apply authorised_cons; [neutral_ev|].
Qed.

(** ** The prompt arm *)

Lemma shed_reasoning_ok reply kept cap :
  admitted_reply reply = Ok tt -> shed_reasoning_to_fit reply cap = (kept, true) ->
  admitted_reply kept = Ok tt /\ (reply_capacity kept <= cap)%Z.
Proof.
  unfold shed_reasoning_to_fit. destruct (Z.leb_spec (reply_capacity reply) cap); [by intros ? [= <-]|].
  intros Ha [= <- Hl%Z.leb_le]. split; [|done].
  unfold admitted_reply in *. destruct reply as [b t u r]. simpl in *.
  destruct (_ && _); [done|]. destruct (existsb _ b); [done|].
  by destruct (forallb proposed_tool_call_is_acceptable t).
Qed.

Lemma judge_send_reply sent outcome reply unavailable :
  judge_send en sent = (outcome, Some reply, unavailable) ->
  admitted_reply reply = Ok tt /\ (reply_capacity reply <= en_prompt_max_bytes en)%Z.
Proof.
  unfold judge_send. destruct sent as [[r|f]| |]; [|done..].
  destruct (admitted_reply r) as [[]|] eqn:Ea; [|done].
  destruct (shed_reasoning_to_fit r _) as [kept []] eqn:Es; [|done]. intros [= _ <- _].
  by eapply shed_reasoning_ok.
Qed.

Lemma safe_answer_prompt class outcome reply unavailable user role rule
    conversation turns tokens choice req adm h :
  all_durable h -> on_record h "request" ->
  authorised h (SessionPrompt conversation turns tokens choice) req adm ->
  (forall r, reply = Some r -> admitted_reply r = Ok tt /\ (reply_capacity r <= en_prompt_max_bytes en)%Z) ->
  safe (answer_prompt en class outcome reply unavailable user role rule) h.
Proof.
  intros Hd Hr Ha Hrep. unfold answer_prompt. destruct reply as [r|].
  - destruct (en_encode_response_zeroizing en _ _).
    + eapply safe_write_frame; [done..|]. by apply Hrep.
    + by apply safe_corrective.
  - destruct outcome as [| | | |n refusal u]; try (destruct unavailable; by apply safe_error).
    destruct (refusal_answer refusal). by apply safe_error.
Qed.

Lemma wp_send intent sreq conversation turns tokens choice req a h
    (Q : Joined (result PromptReply EgressFailure) -> list event -> Prop) :
  all_durable h -> find_map obs_emit h = Some (intent, true) -> ar_result intent = "permit" ->
  (ea_status <$> ar_egress intent) = Some StIntentOnly ->
  authorised h (SessionPrompt conversation turns tokens choice) req (Some a) ->
  sreq = for_choice a ("provider:" +:+ ap_name (ac_provider a)) conversation turns tokens ->
  (forall sent h', grown h h' -> Q sent h') ->
  wp (send_bounded intent sreq) Q h.
Proof.
  intros Hd He Hres Hst Ha Hs HQ. intros adm. split; [done|].
  assert (forall ev h', neutral ev -> obs_emit ev = None -> grown h h' -> grown h (ev :: h')) as Hstep.
  { intros ev h' Hn Hev Hg. apply grown_cons; [done|by rewrite Hev|done]. }
  pose proof (Hstep (Ev _ (BeginAttempt EgressGuard) adm) h ltac:(neutral_ev) eq_refl (history_refl h)) as H1.
  destruct adm.
  - intros sent. split.
    { split_and!; [durable|done..|]. exists conversation, turns, tokens, choice, req, a. split; [|done].
      by apply authorised_cons; [neutral_ev|]. }
    pose proof (Hstep (Ev _ (EgressSend intent sreq) sent) _ ltac:(neutral_ev) eq_refl H1) as H2.
    destruct (match sent with JElapsed => true | JOk (Err f) => _ | _ => _ end);
      intros x; (split; [done|]); apply HQ; (apply Hstep; [neutral_ev|done|done]).
  - intros x. split; [done|]. apply HQ. apply Hstep; [neutral_ev|done|done].
  - intros x. split; [done|]. apply HQ. apply Hstep; [neutral_ev|done|done].
Qed.

Lemma outcome_event intent seq o reply :
  ar_event (record_refused_tool_calls (outcome_for intent seq o) reply) = ar_event intent.
Proof.
  assert (ar_event (outcome_for intent seq o) = ar_event intent) as E
    by (unfold outcome_for; by destruct (outcome_fields o) as [[[[? ?] ?] ?] ?]).
  unfold record_refused_tool_calls. by destruct (ar_egress (outcome_for intent seq o)), reply.
Qed.

Lemma safe_serve_prompt class conversation turns tokens choice adm user role rule req h :
  all_durable h -> authorised h (SessionPrompt conversation turns tokens choice) req adm ->
  safe (serve_prompt en class conversation turns tokens adm user role rule) h.
Proof.
  intros Hd Ha. unfold serve_prompt. destruct adm as [chosen|]; [|by apply safe_refuse].
  intros ready. split; [done|]. destruct ready; simpl negb; cbv iota.
  2:{ intros seq. split; [done|]. intros appended. split; [done|]. apply wp_bind.
      destruct appended; simpl may_respond; cbv iota; [|apply safe_close].
      eapply wp_mono; [by intros; apply safe_close|]. apply safe_error; [durable|].
      by eexists. }
  intros seq. split; [done|]. set (intent := with_egress _ _). intros committed. split; [done|].
  destruct committed; simpl negb; cbv iota; [|apply safe_close]. apply wp_bind.
  set (h1 := Ev bool (Emit intent) true :: _).
  assert (grown h h1) as Hg1.
  { repeat (apply grown_cons; [neutral_ev|done|]). apply history_refl. }
  eapply wp_send; [by eapply grown_durable|done|done|done|by eapply grown_authorised|done|].
  intros sent h2 Hg2. destruct (judge_send en sent) as [[o reply] unavailable] eqn:Ej.
  apply wp_bind.
  assert (forall h', grown h1 h' -> safe
    (let# seq := NextSeq in
     let# appended := Emit (record_refused_tool_calls (outcome_for intent seq o) reply) in
     bind (if may_respond appended then answer_prompt en class o reply unavailable user role rule else Ret tt)
          (fun _ => close_bounded)) h') as Hend.
  { intros h' Hg. intros seq'. split; [done|]. intros appended. split; [done|]. apply wp_bind.
    destruct appended; simpl may_respond; cbv iota; [|apply safe_close].
    eapply wp_mono; [by intros; apply safe_close|].
    assert (grown h h') as Hgh.
    { destruct Hg as (l & -> & Hn & Hl), Hg1 as (l1 & E1 & Hn1 & Hl1). exists (l ++ l1).
      split_and!; [by rewrite E1, app_assoc|by apply Forall_app|by apply Forall_app]. }
    eapply safe_answer_prompt.
    - repeat (apply Forall_cons; split; [exact I || reflexivity|]). by eapply grown_durable.
    - eexists. split; [reflexivity|]. by rewrite outcome_event.
    - repeat (apply authorised_cons; [neutral_ev|]). by eapply grown_authorised.
    - intros r ->. by eapply judge_send_reply. }
  destruct sent as [[r|[]]| |]; try (by apply Hend).
  intros x. split; [done|]. apply Hend. by apply grown_cons; [neutral_ev|done|].
Qed.

Lemma safe_dispatch class verb user role rule view adm req h :
  all_durable h -> authorised h verb req adm ->
  safe (dispatch en class verb user role rule view adm req) h.
Proof.
  intros Hd Ha. unfold dispatch.
  destruct (dispatch_verb verb) eqn:Ev; try (by eapply safe_serve_admin); try (by apply safe_refuse).
  destruct verb; try done. by eapply safe_serve_prompt.
Qed.

(** What a bounded decision leaves behind. *)
Lemma wp_decide req generation verb adm h
    (Q : Verdict * option string * option RuleCitation -> list event -> Prop) :
  all_durable h -> asked h verb req adm generation ->
  (forall v role rule h', all_durable h' ->
     (forall obs, finalize v = DPermit obs -> discharge_plan obs = Ok tt -> authorised h' verb req adm) ->
     Q (v, role, rule) h') ->
  wp (decide_bounded req generation) Q h.
Proof.
  intros Hd Ha HQ.
  assert (forall reason role h', all_durable h' -> Q (Deny reason, role, None) h') as Hdeny
    by (intros; apply HQ; done).
  intros admission. split; [done|]. destruct admission; [|apply Hdeny; durable..].
  intros decided. split.
  { split; [durable|]. exists verb, adm, generation. by apply asked_cons; [neutral_ev|]. }
  destruct decided as [[d g]| |]; intros x; (split; [done|]); try (apply Hdeny; durable).
  destruct (Z.eqb_spec g generation) as [->|]; simpl negb; cbv iota; [|apply Hdeny; durable].
  apply HQ; [durable|]. intros obs Hf Hdp. exists generation, d. split_and!.
  - apply asked_cons; [neutral_ev|].
    destruct (asked_cons (Ev _ (BeginAttempt AuthzGuard) Admit) h verb req adm generation ltac:(neutral_ev) Ha)
      as (view & providers & user & Hl & (facts & Hfa & Hr) & (class & body & r & Hi) & H).
    exists view, providers, user. split_and!; try apply H; try done.
    + by exists facts.
    + by exists class, body, r.
  - done.
  - unfold permits, denial. by rewrite Hf, Hdp.
Qed.

Lemma safe_decide class verb user view adm generation h :
  all_durable h ->
  asked h verb (build_authz_request verb uid None lane adm) adm generation ->
  safe (decide_and_dispatch en class verb user view adm generation) h.
Proof.
  intros Hd Ha. apply wp_bind. eapply wp_decide; [done..|]. intros v role rule h' Hd' Hauth.
  destruct (finalize v) as [obs|reason] eqn:Ef; [|by apply safe_refuse].
  destruct (discharge_plan obs) as [[]|] eqn:Edp; [|by apply safe_refuse].
  eapply safe_dispatch; [done|]. by eapply Hauth.
Qed.

Lemma normalised_read v path c page : normalised en v = Ok (Read path c page) -> v = Read path c page.
Proof.
  unfold normalised. destruct v; simpl; try (by intros [= -> -> ->]); try done.
  - destruct (contain_target _ _ target); [|done]. simpl. by destruct (contain_reason _ _ reason).
  - by destruct (contain_target _ _ target).
Qed.

Lemma normalised_action v v' : normalised en v = Ok v' -> verb_to_action v = verb_to_action v'.
Proof.
  unfold normalised. destruct v; simpl; try (by intros [= <-]).
  - destruct (contain_target _ _ target); [|done]. simpl. destruct (contain_reason _ _ reason); [|done].
    by intros [= <-].
  - destruct (contain_target _ _ target); [|done]. by intros [= <-].
Qed.

Lemma safe_serve_request class verb body r user home h :
  all_durable h -> audited h = [] -> revalidated h user ->
  find_map obs_read h = Some (ReadOk class body) ->
  decode_request (en_from_reader en) body = Ok r -> admits_class class (wr_verb r) = true ->
  verb = wr_verb r -> safe (serve_request en class verb user home) h.
Proof.
  intros Hd Hq Hr Hread Hdec Hadm ->. unfold serve_request.
  set (gate := match wr_verb r with Read path _ _ => _ | _ => None end).
  destruct gate as [why|] eqn:Eg.
  { apply safe_gated; [done| |apply safe_close]. intros. by apply safe_error. }
  destruct (normalised en (wr_verb r)) as [verb|[noun reason]] eqn:En; [|by apply safe_refuse].
  destruct (operand_pregate verb) as [[noun reason]|] eqn:Ep; [by apply safe_refuse|].
  assert (in_hand h verb) as Hin.
  { exists class, body, r. split_and!; try done. subst gate. destruct verb as []; try done.
    rewrite (normalised_read _ _ _ _ En) in Eg. by destruct (lexical_pregate path) as [[]|]. }
  clear Eg. unfold is_filesystem_verb. case_bool_decide as Hfs.
  - intros seq. split; [done|]. intros home'. split; [done|]. apply wp_bind.
    eapply wp_mono; [by intros; apply safe_close|]. apply safe_mutate.
    + apply standing_cons; [neutral_ev|done|]. apply standing_cons; [neutral_ev|done|]. split; [done|by exists user|done|done].
    + done.
    + pose proof (normalised_action _ _ En) as Ea. by destruct verb; split.
  - intros [[view providers] generation]. split; [done|].
    destruct (admit_request verb providers user) as [adm|] eqn:Ea.
    2:{ apply safe_refuse. durable. }
    apply safe_decide; [durable|]. exists view, providers, user. split_and!; try done.
Qed.

Lemma safe_revalidate class body r h :
  all_durable h -> audited h = [] -> find_map obs_read h = Some (ReadOk class body) ->
  decode_request (en_from_reader en) body = Ok r -> admits_class class (wr_verb r) = true ->
  safe (revalidate_and_serve en class (wr_verb r)) h.
Proof.
  intros Hd Hq Hread Hdec Hadm expired. split; [done|].
  destruct expired; [apply safe_end_session; durable|]. intros facts. split; [done|].
  destruct (admission_facts (fa_membership facts)) as [[in_group user] home] eqn:Ef.
  destruct (revalidate uid uid facts) eqn:Er; [|apply safe_end_session; durable].
  intros expired. split; [done|]. destruct expired; [apply safe_end_session; durable|].
  eapply safe_serve_request; [durable|by rewrite !audited_cons, Hq| |done..]. exists facts. split_and!; [done..|]. by rewrite Ef.
Qed.

Lemma safe_handle : safe (handle en) [].
Proof.
  assert (forall h, safe (let# mismatched := SenderMismatched in
             if mismatched : bool then let# _ := EndSession (EDenied SenderMismatch) in Ret tt else Ret tt) h) as Hdrop.
  { intros h m. split; [done|]. destruct m; [|done]. by intros []. }
  apply wp_bind. eapply wp_mono; [by intros; apply Hdrop|].
  intros seq. split; [done|]. intros admitted. split; [done|].
  destruct admitted; simpl negb; cbv iota.
  2:{ intros []. split; [done|]. apply safe_close. }
  intros read. split.
  { split; [durable; constructor|]. by eexists. }
  assert (forall h user action reason posture, safe
    (bind (emit_request_deny en user action reason posture) (fun _ => close_bounded)) h) as Hden.
  { intros. apply wp_bind. eapply wp_mono; [by intros; apply safe_close|]. apply safe_request_deny. }
  destruct read as [|why|class body].
  - intros m. split; [done|]. destruct m; [apply safe_end_session; durable; constructor|].
    intros []. split; [done|]. apply Hden.
  - intros m. split; [done|]. destruct m; [apply safe_end_session; durable; constructor|]. apply Hden.
  - destruct (decode_request (en_from_reader en) body) as [r|e] eqn:Ed; [|apply Hden].
    cbv zeta beta. destruct (admits_class class (wr_verb r)) eqn:Ea; cbn [negb]; [|apply Hden].
    eapply safe_revalidate; [durable; constructor|done|done..].
Qed.

(** ** Complete runs *)

(** What a run has done: answers written (a response or a grant), streams
    closed, whether a frame was asked for, whether an append of a record of the request
    was attempted, and whether an intent on record still waits for an append of the
    record of what became of it. Whether the appends succeeded is in the trace
    ([tally_on_record], [tally_settled]). *)
Record Tally := mkTally {
  t_writes : nat; t_closes : nat; t_read : bool; t_accounted : bool; t_open : bool }.

(** A record that announces an effect, and one that says what became of it. *)
Definition opens (rec : AuditRecord) : bool :=
  match ar_mutation rec, ar_egress rec with
  | Some m, _ => match mu_phase m with PhIntent => true | _ => false end
  | None, Some e => match ea_status e with StIntentOnly => true | _ => false end
  | None, None => false
  end.
Definition settles_intent (rec : AuditRecord) : bool :=
  match ar_mutation rec, ar_egress rec with
  | Some m, _ => match mu_phase m with PhCompletion => true | _ => false end
  | None, Some e => match ea_status e with StIntentOnly => false | _ => true end
  | None, None => false
  end.

Definition note (ev : event) (t : Tally) : Tally :=
  match ev_effect ev, obs_emit ev with
  | (WriteFrame _ _ | WriteGrant _), _ =>
      mkTally (S (t_writes t)) (t_closes t) (t_read t) (t_accounted t) (t_open t)
  | CloseStream, _ => mkTally (t_writes t) (S (t_closes t)) (t_read t) (t_accounted t) (t_open t)
  | ReadFrame _, _ => mkTally (t_writes t) (t_closes t) true (t_accounted t) (t_open t)
  | _, Some (rec, ok) =>
      mkTally (t_writes t) (t_closes t) (t_read t) (t_accounted t || String.eqb (ar_event rec) "request")
        (opens rec && ok || t_open t && negb (settles_intent rec))
  | _, _ => t
  end.

Definition tally (tr : list event) : Tally :=
  fold_left (fun t ev => note ev t) tr (mkTally 0 0 false false false).

Ltac tally_fields :=
  cbn [note ev_effect obs_emit t_writes t_closes t_read t_accounted t_open].

Lemma note_request rec ok t :
  ar_event rec = "request" ->
  note (Ev bool (Emit rec) ok) t =
  mkTally (t_writes t) (t_closes t) (t_read t) true (opens rec && ok || t_open t && negb (settles_intent rec)).
Proof. intros He. unfold note. simpl. by rewrite He, orb_true_r. Qed.

(** [Q] holds of what every run from [t] on comes to. *)
Fixpoint ends {A} (p : prog A) (Q : A -> Tally -> Prop) (t : Tally) : Prop :=
  match p with
  | Ret a => Q a t
  | Vis e k => forall x, ends (k x) Q (note (Ev _ e x) t)
  end.

Lemma ends_runs {A} (p : prog A) Q t tr a :
  ends p Q t -> runs p tr a -> Q a (fold_left (fun t ev => note ev t) tr t).
Proof. intros He Hr. revert t He. induction Hr; intros t He; simpl in *; auto. Qed.

Lemma ends_mono {A} (p : prog A) (Q Q' : A -> Tally -> Prop) t :
  (forall a t', Q a t' -> Q' a t') -> ends p Q t -> ends p Q' t.
Proof. intros HQ. revert t. induction p; simpl; auto. Qed.

Lemma ends_bind {A B} (p : prog A) (f : A -> prog B) Q t :
  ends p (fun a => ends (f a) Q) t -> ends (bind p f) Q t.
Proof. revert t. induction p; simpl; auto. Qed.

(** One close, at most one answer, the request accounted for, no intent left open. *)
Definition settled (t : Tally) : Prop :=
  t_closes t = 1 /\ t_writes t <= 1 /\ t_accounted t = true /\ t_open t = false.
Local Notation settles p t := (ends p (fun _ t' => settled t') t).

(** At most one frame more, and nothing closed. *)
Definition wrote (rd : bool) (t : Tally) : Prop := exists w, w <= 1 /\ t = mkTally w 0 rd true false.
Local Notation writes p rd t := (ends p (fun _ t' => wrote rd t') t).

Lemma wrote_0 rd : wrote rd (mkTally 0 0 rd true false).
Proof. by exists 0; split; [lia|]. Qed.
Lemma wrote_1 rd : wrote rd (mkTally 1 0 rd true false).
Proof. by exists 1. Qed.

Lemma settles_close rd t : wrote rd t -> settles close_bounded t.
Proof. intros (w & Hw & ->) []. by split_and!. Qed.

Lemma settles_then_close (p : prog unit) rd t :
  writes p rd t -> settles (bind p (fun _ => close_bounded)) t.
Proof. intros Hp. apply ends_bind. eapply ends_mono; [|exact Hp]. intros ? t' Ht. exact (settles_close rd t' Ht). Qed.

Lemma ends_write_error rd class code message :
  writes (write_error_bounded en class code message) rd (mkTally 0 0 rd true false).
Proof. unfold write_error_bounded. destruct (en_encode_response en _); [intros []; apply wrote_1|apply wrote_0]. Qed.

Lemma ends_emit user role rule action object res reason posture (Q : bool -> Tally -> Prop) w rd rc :
  (forall ok, Q ok (mkTally w 0 rd true false)) ->
  ends (emit_request_outcome en user role rule action object res reason posture) Q (mkTally w 0 rd rc false).
Proof. intros HQ seq ok. cbn. rewrite orb_true_r. apply HQ. Qed.

Lemma settles_gated user role rule action object res reason posture (k rest : prog unit) rd rc :
  writes k rd (mkTally 0 0 rd true false) -> (forall t, wrote rd t -> settles rest t) ->
  settles (bind (emit_request_outcome en user role rule action object res reason posture)
             (fun appended => bind (if may_respond appended then k else Ret tt) (fun _ => rest)))
    (mkTally 0 0 rd rc false).
Proof.
  intros Hk Hr. apply ends_bind, ends_emit. intros ok. apply ends_bind. destruct ok; simpl.
  - eapply ends_mono; [|exact Hk]. intros ? t Ht. by apply Hr.
  - apply Hr, wrote_0.
Qed.

Lemma settles_refuse class user role rule action res reason posture code message rd rc :
  settles (refuse en class user role rule action res reason posture code message) (mkTally 0 0 rd rc false).
Proof. apply settles_gated; [apply ends_write_error|apply settles_close]. Qed.

Lemma settles_end_session class user action ending rd rc :
  settles (end_session en class user action ending) (mkTally 0 0 rd rc false).
Proof.
  apply settles_gated; [apply ends_write_error|]. intros t (w & Hw & ->) []. eapply settles_close. by exists w.
Qed.

Lemma settles_deny user action reason posture rd :
  settles (bind (emit_request_deny en user action reason posture) (fun _ => close_bounded)) (mkTally 0 0 rd false false).
Proof. intros seq ok. by eapply settles_close, wrote_0. Qed.

Lemma ends_corrective user role rule action res reason posture class code message rd rc :
  writes (bind (emit_request_outcome en user role rule action None res reason posture)
           (fun corrected => if may_respond corrected then write_error_bounded en class code message else Ret tt))
    rd (mkTally 0 0 rd rc false).
Proof. apply ends_bind, ends_emit. intros []; [apply ends_write_error|apply wrote_0]. Qed.

Lemma ends_write_frame class r len user role rule action rd :
  writes (write_frame_bounded en class r len user role rule action) rd (mkTally 0 0 rd true false).
Proof.
  unfold write_frame_bounded. destruct (_ <? _)%Z; [apply ends_corrective|]. intros []. apply wrote_1.
Qed.

(** An arm that returns a payload has written nothing; one that returns none
    has settled. *)
Definition arm_done (rd : bool) (payload : option Payload) (t : Tally) : Prop :=
  match payload with Some _ => t = mkTally 0 0 rd true false | None => settled t end.

Lemma ends_refused_arm class user role rule action reason posture code message rd :
  ends (refused_arm en class user role rule action reason posture code message) (arm_done rd) (mkTally 0 0 rd true false).
Proof. apply ends_bind. eapply ends_mono; [|apply settles_refuse]. done. Qed.

Lemma ends_corrected_view class user role rule action res reason posture p rd :
  ends (corrected_view en class user role rule action res reason posture p) (arm_done rd) (mkTally 0 0 rd true false).
Proof. apply ends_bind, ends_emit. intros []; simpl; [done|]. eapply settles_close, wrote_0. Qed.

Lemma ends_contain_answer class user role rule action answer rd :
  ends (contain_answer en class user role rule action answer) (arm_done rd) (mkTally 0 0 rd true false).
Proof.
  destruct answer as [view [c|]|reply why|why]; simpl contain_answer; try done;
    first [apply ends_corrected_view|apply ends_refused_arm].
Qed.

Lemma ends_enumerate t Q : (forall r, Q r t) -> ends enumerate_bounded Q t.
Proof.
  intros HQ adm. destruct adm; [|apply HQ..]. intros out. destruct out as [[v|]| |]; intros x; apply HQ.
Qed.

Lemma ends_admin_payload class verb user role rule view req rd :
  dispatch_verb verb <> PromptRequested -> dispatch_verb verb <> MutationRequested ->
  dispatch_verb verb <> NoBehaviour ->
  ends (admin_payload en class verb user role rule view req) (arm_done rd) (mkTally 0 0 rd true false).
Proof.
  intros H1 H2 H3. destruct verb; try done; cbv beta iota zeta delta [admin_payload]; try reflexivity.
  - apply ends_bind, ends_enumerate. intros [b|why]; [reflexivity|apply ends_refused_arm].
  - intros [v|why]; [reflexivity|apply ends_refused_arm].
  - intros [v [why|]|reply why]; [apply ends_corrected_view|reflexivity|apply ends_refused_arm].
  - intros answer. apply ends_contain_answer.
  - intros answer. apply ends_contain_answer.
Qed.

Lemma settles_admin class verb user role rule view req rd rc :
  dispatch_verb verb <> PromptRequested -> dispatch_verb verb <> MutationRequested ->
  dispatch_verb verb <> NoBehaviour ->
  settles (serve_admin en class verb user role rule view req) (mkTally 0 0 rd rc false).
Proof.
  intros H1 H2 H3. apply ends_bind, ends_emit. intros []; simpl negb; cbv iota.
  2:{ eapply settles_close, wrote_0. }
  apply ends_bind. eapply ends_mono; [|by apply ends_admin_payload]. intros [p|] t Ht; [|done].
  simpl in Ht. subst t. apply (settles_then_close _ rd).
  destruct (en_encode_response en (ROk p)); [apply ends_write_frame|apply ends_corrective].
Qed.

Lemma ends_send intent sreq t Q : (forall sent, Q sent t) -> ends (send_bounded intent sreq) Q t.
Proof.
  intros HQ adm. destruct adm; [|intros x; apply HQ..]. intros sent.
  destruct (match sent with JElapsed => true | JOk (Err f) => _ | _ => _ end); intros x; apply HQ.
Qed.

Lemma ends_answer_prompt class outcome reply unavailable user role rule rd :
  writes (answer_prompt en class outcome reply unavailable user role rule) rd (mkTally 0 0 rd true false).
Proof.
  unfold answer_prompt. destruct reply as [r|].
  - destruct (en_encode_response_zeroizing en _ _); [apply ends_write_frame|apply ends_corrective].
  - destruct outcome as [| | | |n refusal u]; try (destruct unavailable; apply ends_write_error).
    destruct (refusal_answer refusal). apply ends_write_error.
Qed.

Lemma outcome_settles intent seq o reply :
  ar_mutation intent = None -> is_some (ar_egress intent) = true ->
  let rec := record_refused_tool_calls (outcome_for intent seq o) reply in
  opens rec = false /\ settles_intent rec = true.
Proof.
  intros Hm He rec. unfold rec, record_refused_tool_calls, outcome_for, opens, settles_intent.
  destruct (outcome_fields o) as [[[[status n] result_] reason] posture] eqn:Eo. cbn [ar_egress ar_mutation].
  assert (status <> StIntentOnly) as Hs by (by destruct o as [| | | |? [] ?]; injection Eo as <-).
  destruct (ar_egress intent) as [e|]; [|done]. destruct reply; simpl; rewrite Hm; by destruct status.
Qed.

Lemma settles_prompt class conversation turns tokens adm user role rule rd rc :
  settles (serve_prompt en class conversation turns tokens adm user role rule) (mkTally 0 0 rd rc false).
Proof.
  unfold serve_prompt. destruct adm as [chosen|]; [|apply settles_refuse].
  intros ready. destruct ready; simpl negb; cbv iota.
  2:{ intros seq appended. rewrite note_request by done; tally_fields. apply (settles_then_close _ rd).
      destruct appended; [apply ends_write_error|apply wrote_0]. }
  intros seq committed. rewrite note_request by done; tally_fields.
  destruct committed; simpl negb; cbv iota; [|eapply settles_close, wrote_0].
  apply ends_bind, ends_send. intros sent. destruct (judge_send en sent) as [[o reply] unavailable].
  apply ends_bind. eapply (ends_mono _ (fun _ t => t = mkTally 0 0 rd true true)).
  - intros ? t -> seq' appended. rewrite note_request by (by rewrite outcome_event); tally_fields.
    destruct (outcome_settles (with_egress (with_identity (make_record en "request" seq "session.prompt"
      (Some ("provider:" +:+ ap_name (ac_provider chosen))) "permit" "intent recorded" "authorized") user role rule)
      (egress_meta en chosen conversation turns tokens StIntentOnly)) seq' o reply eq_refl eq_refl) as [-> ->].
    apply (settles_then_close _ rd).
    destruct appended; [apply ends_answer_prompt|apply wrote_0].
  - by destruct sent as [[r|[]]| |].
Qed.

Lemma settles_decide class verb user view adm generation rd :
  settles (decide_and_dispatch en class verb user view adm generation) (mkTally 0 0 rd false false).
Proof.
  apply ends_bind.
  assert (forall v, ends (let '(verdict, role, rule) := v in
    match finalize verdict with
    | DDeny reason => deny en class user role rule (verb_to_action verb) reason
    | DPermit obligations =>
        match discharge_plan obligations with
        | Err u => deny en class user role None (verb_to_action verb) ("unhonorable obligation: " +:+ u)
        | Ok _ => dispatch en class verb user role rule view adm
                    (build_authz_request verb uid None lane adm)
        end
    end) (fun _ t' => settled t') (mkTally 0 0 rd false false)) as Hk.
  { intros [[v role] rule]. destruct (finalize v) as [obs|reason]; [|apply settles_refuse].
    destruct (discharge_plan obs); [|apply settles_refuse]. unfold dispatch.
    destruct (dispatch_verb verb) eqn:Ev; try (apply settles_refuse); try (apply settles_admin; congruence).
    destruct verb; try done. apply settles_prompt. }
  intros admission. destruct admission; [|apply Hk..]. intros decided.
  destruct decided as [[d g]| |]; intros x; try apply Hk. destruct (negb _); apply Hk.
Qed.

(** The mutation path: a refusal or a grant, and no intent left open. *)

(** A record derived from one with no egress of its own. *)
Definition plain_record (rec : AuditRecord) : Prop := ar_event rec = "request" /\ ar_egress rec = None.

Lemma ends_incomplete intent reason w rd op :
  w <= 1 -> plain_record intent ->
  ends (bind (incomplete intent reason) (fun _ => Ret (Some tt)) : prog (option unit))
    (fun _ t => wrote rd t) (mkTally w 0 rd true op).
Proof.
  intros Hw [He _] seq ok. rewrite note_request by done; tally_fields. exists w. split; [done|]. by rewrite andb_false_r.
Qed.

Lemma ends_refused rec reason rd rc :
  plain_record rec -> ar_mutation rec = None ->
  ends (bind (refuse_mutation en rec reason) (fun _ => Ret (Some tt)) : prog (option unit))
    (fun _ t => wrote rd t) (mkTally 0 0 rd rc false).
Proof.
  intros [He Hg] Hm appended. rewrite note_request by done; tally_fields.
  assert (opens (with_outcome rec "deny" reason "unauthorized") = false) as ->
    by (unfold opens; simpl; by rewrite Hm, Hg).
  cbn [andb orb]. destruct appended; [|apply wrote_0].
  destruct (en_encode_response en _) as [len|]; [|apply wrote_0]. destruct (len <=? _)%Z; [|apply wrote_0].
  intros []. apply wrote_1.
Qed.

Lemma ends_report_loop fuel intent x rd :
  plain_record intent ->
  (x_next_index x <= ml_max_effects (x_limits x))%Z ->
  Z.to_nat (ml_max_effects (x_limits x) - x_next_index x) < fuel ->
  ends (report_loop en fuel intent x) (fun _ t => wrote rd t) (mkTally 1 0 rd true true).
Proof.
  intros Hp. revert x. induction fuel as [|fuel IH]; intros x Hi Hf; [lia|]. cbn [report_loop].
  intros read. tally_fields. destruct read as [report|]; [|by apply ends_incomplete].
  destruct (validate_report x report) as [[x' pending]|] eqn:Eval; [|by apply ends_incomplete].
  intros seq. tally_fields. destruct (report_record intent seq report) as [rec terminal] eqn:Er.
  intros appended.
  assert (exists op, note (Ev bool (Emit rec) appended) (mkTally 1 0 rd true true) = mkTally 1 0 rd true op /\
                     op = negb terminal) as (op & -> & Hop).
  { unfold report_record in Er. destruct Hp as [He _].
    destruct report; injection Er as <- <-; (rewrite note_request by done); by eexists. }
  destruct appended; cbn [negb]; [|by apply ends_incomplete].
  destruct (acknowledge x' pending) as [[x'' ack]|] eqn:Ea; [|by apply ends_incomplete].
  destruct (negb (en_encode_ack en ack)); [by apply ends_incomplete|].
  intros delivered. tally_fields. destruct delivered; cbn [negb]; [|by apply ends_incomplete].
  destruct (acknowledged_batch _ _ _ _ _ _ Eval Ea) as [Hl Hb]. subst op.
  destruct report; injection Er as <- <-; [|apply wrote_1]. apply IH; rewrite Hl; lia.
Qed.

Lemma ends_attempt intent scope label page rd :
  plain_record intent ->
  ends (attempt en intent scope label page) (fun _ t => wrote rd t) (mkTally 0 0 rd true true).
Proof.
  intros Hp. unfold attempt. destruct (begin_attempt en _ scope page) as [x|] eqn:Eb; [|apply ends_incomplete; [lia|done]].
  destruct (negb (grant_fits en _)); [apply ends_incomplete; [lia|done]|]. intros delivered. tally_fields.
  destruct delivered; cbn [negb]; [|by apply ends_incomplete].
  destruct (begin_attempt_start _ _ _ _ _ Eb) as [Hi Hm].
  apply ends_report_loop; [done|..]; unfold report_fuel; rewrite ?Hi, ?Hm; [done|lia].
Qed.

Lemma ends_worker verb home Q t : (forall r, Q r t) -> ends (worker en verb home) Q t.
Proof.
  intros HQ fd. tally_fields. apply ends_bind. unfold prepare.
  assert (forall r, ends (match r with
               | Err why => Ret (Err why)
               | Ok p => let# answer := DecideCitedAll (mutation_requests p verb uid home) in
                         Ret (Ok (p, authorize p (mutation_requests p verb uid home) answer (en_policy_name en)))
               end) Q t) as Hr.
  { intros [p|why]; [|apply HQ]. intros answer. apply HQ. }
  destruct (prepare_gate verb fd home _); [|apply HQ].
  destruct (object_verb verb) as [[[refused kind] effect]|]; intros verified; apply Hr.
Qed.

Lemma ends_mutate verb rec home rd :
  is_some (verb_path verb) = true -> plain_record rec -> ar_mutation rec = None ->
  ends (mutate en verb rec home) (fun _ t => wrote rd t) (mkTally 0 0 rd false false).
Proof.
  intros Hv Hp Hm. unfold mutate. destruct (verb_path verb) as [asked|]; [|done].
  assert (forall rec' reason, ar_event rec' = ar_event rec -> ar_egress rec' = ar_egress rec ->
    ar_mutation rec' = ar_mutation rec ->
    ends (bind (refuse_mutation en rec' reason) (fun _ => Ret (Some tt)) : prog (option unit))
      (fun _ t => wrote rd t) (mkTally 0 0 rd false false)) as Href.
  { intros rec' reason E1 E2 E3. apply ends_refused; [split; [rewrite E1|rewrite E2]; apply Hp|by rewrite E3]. }
  destruct home as [home|cause]; [|by apply Href].
  intros busy. tally_fields. destruct busy as [[]|]; [by apply Href..|]. apply ends_bind, ends_worker.
  intros done_ joined. tally_fields. destruct joined; cbn [negb]; [|by apply Href].
  destruct done_ as [[p decision]|]; [|by apply Href].
  destruct (match decision with Ok (by_, _) => by_ | Err (_, _, by_) => by_ end) as [role rule].
  destruct decision as [[by_ label]|[[reason denied] by_]]; [|by apply Href].
  intros committed. rewrite note_request by apply Hp; tally_fields.
  destruct committed; [by apply ends_attempt|apply wrote_0].
Qed.

Lemma settles_serve_request class verb user home rd :
  settles (serve_request en class verb user home) (mkTally 0 0 rd false false).
Proof.
  unfold serve_request. destruct (match verb with Read path _ _ => _ | _ => None end).
  { apply settles_gated; [apply ends_write_error|apply settles_close]. }
  destruct (normalised en verb) as [verb'|[noun reason]]; [|apply settles_refuse].
  destruct (operand_pregate verb') as [[noun reason]|]; [apply settles_refuse|].
  unfold is_filesystem_verb. case_bool_decide as Hfs.
  - intros seq home'. tally_fields. apply ends_bind. eapply ends_mono.
    2:{ apply (ends_mutate verb' _ home' rd); by destruct verb'. }
    intros ? t Ht. exact (settles_close rd t Ht).
  - intros [[view providers] generation]. destruct (admit_request verb' providers user).
    + apply settles_decide.
    + apply settles_refuse.
Qed.

(** How every complete run ends. *)
Lemma ends_handle :
  ends (handle en)
    (fun _ t => t_closes t = 1 /\ t_writes t <= 1 /\ (t_read t = true -> t_accounted t = true) /\ t_open t = false)
    (mkTally 0 0 false false false).
Proof.
  apply ends_bind.
  eapply (ends_mono _ (fun _ t => t_closes t = 1 /\ t_writes t <= 1 /\
    (t_read t = true -> t_accounted t = true) /\ t_open t = false)).
  { intros ? t Ht m. destruct m; [intros []|]; exact Ht. }
  intros seq admitted. destruct admitted; simpl negb; cbv iota.
  2:{ intros [] []. by split_and!; simpl; [|lia|..]. }
  intros read. tally_fields.
  apply (ends_mono _ (fun _ t => settled t)); [by intros ? t (? & ? & ? & ?)|].
  destruct read as [|why|class body].
  - intros m. destruct m; [apply settles_end_session|]. intros []. apply settles_deny.
  - intros m. destruct m; [apply settles_end_session|]. apply settles_deny.
  - destruct (decode_request (en_from_reader en) body) as [r|e]; [|apply settles_deny].
    cbv zeta beta. destruct (admits_class class (wr_verb r)); cbn [negb]; [|apply settles_deny].
    intros expired. destruct expired; [apply settles_end_session|]. intros facts.
    destruct (admission_facts (fa_membership facts)) as [[in_group user] home].
    destruct (revalidate uid uid facts); [|apply settles_end_session].
    intros expired. destruct expired; [apply settles_end_session|]. apply settles_serve_request.
Qed.
End Serving.

(** ** What a tally says of its trace *)

Section Tallies.
Context {CV SV JV BV KV : Type}.
Local Notation event := (Programs.event (@Effects.effect CV SV JV BV KV)).

(** The appends of a trace, in order, each with whether it succeeded. *)
Definition appends (tr : list event) : list (AuditRecord * bool) := omap obs_emit tr.

(** A record of the sort asked for is on record; or it was tried, and every append
    of one failed. *)
Definition on_record_or_failed (sort : AuditRecord -> bool) (l : list (AuditRecord * bool)) : Prop :=
  (exists rec, (rec, true) ∈ l /\ sort rec = true) \/
  ((exists rec, (rec, false) ∈ l /\ sort rec = true) /\
   forall rec ok, (rec, ok) ∈ l -> sort rec = true -> ok = false).

Definition is_request (rec : AuditRecord) : bool := String.eqb (ar_event rec) "request".
Definition closes (ev : event) : bool := match ev_effect ev with CloseStream => true | _ => false end.
Definition answers_peer (ev : event) : bool :=
  match ev_effect ev with WriteFrame _ _ | WriteGrant _ => true | _ => false end.
Definition reads_frame (ev : event) : bool := match ev_effect ev with ReadFrame _ => true | _ => false end.

Lemma attempted_on_record sort l :
  (exists rec ok, (rec, ok) ∈ l /\ sort rec = true) -> on_record_or_failed sort l.
Proof.
  intros (rec & ok & Hin & Hs).
  destruct (existsb (fun p => sort p.1 && p.2) l) eqn:E.
  - apply existsb_exists in E as ([r o] & Hr%list_elem_of_In & [Hs' Ho]%andb_true_iff). cbn in Hs', Ho. subst o.
    left. by exists r.
  - right. assert (forall r o, (r, o) ∈ l -> sort r = true -> o = false) as Hall.
    { intros r o Hr Hsr. destruct o; [|done]. apply not_true_iff_false in E. destruct E.
      apply existsb_exists. exists (r, true). rewrite <-list_elem_of_In. simpl. by rewrite Hsr. }
    split; [|exact Hall]. exists rec. by rewrite (Hall rec ok Hin Hs) in Hin.
Qed.

Lemma on_record_durable sort (tr : list event) l after :
  all_durable tr -> appends tr = l ++ after -> on_record_or_failed sort after ->
  exists rec, (rec, true) ∈ after /\ sort rec = true.
Proof.
  intros Hd Happ [H|[(rec & Hin & _) _]]; [done|]. exfalso.
  assert ((rec, false) ∈ appends tr) as Hr by (rewrite Happ; apply elem_of_app; by right).
  unfold appends in Hr. apply list_elem_of_omap in Hr as (ev & Hev & He).
  unfold all_durable in Hd. rewrite Forall_forall in Hd. specialize (Hd ev Hev). by rewrite He in Hd.
Qed.

(** One event's share of a tally. *)
Lemma note_counts (ev : event) t :
  t_closes (note ev t) = (if closes ev then 1 else 0) + t_closes t /\
  t_writes (note ev t) = (if answers_peer ev then 1 else 0) + t_writes t /\
  t_read (note ev t) = reads_frame ev || t_read t /\
  match obs_emit ev with
  | Some (rec, ok) =>
      t_accounted (note ev t) = t_accounted t || is_request rec /\
      t_open (note ev t) = opens rec && ok || t_open t && negb (settles_intent rec)
  | None => t_accounted (note ev t) = t_accounted t /\ t_open (note ev t) = t_open t
  end.
Proof. by destruct ev as [X e x], e. Qed.

Local Notation run_tally tr t := (fold_left (fun t ev => note ev t) tr t).

Lemma tally_counts (tr : list event) t :
  t_closes (run_tally tr t) = length (List.filter closes tr) + t_closes t /\
  t_writes (run_tally tr t) = length (List.filter answers_peer tr) + t_writes t /\
  t_read (run_tally tr t) = existsb reads_frame tr || t_read t.
Proof.
  revert t. induction tr as [|ev tr IH]; intros t; [done|]. cbn [fold_left List.filter existsb].
  destruct (IH (note ev t)) as (-> & -> & ->). destruct (note_counts ev t) as (-> & -> & -> & _).
  destruct (closes ev), (answers_peer ev), (reads_frame ev), (existsb reads_frame tr); simpl; split_and!; try lia; done.
Qed.

Lemma tally_on_record (tr : list event) t :
  t_accounted (run_tally tr t) = true -> t_accounted t = true \/ on_record_or_failed is_request (appends tr).
Proof.
  intros H. destruct (t_accounted t) eqn:E0; [by left|]. right. apply attempted_on_record.
  revert t E0 H. induction tr as [|ev tr IH]; intros t E0 H; [by simpl in H; congruence|]. cbn [fold_left] in H.
  destruct (note_counts ev t) as (_ & _ & _ & Hn). unfold appends. cbn [omap list_omap].
  destruct (obs_emit ev) as [[rec ok]|].
  - destruct Hn as [Ha _]. rewrite E0 in Ha. simpl in Ha. destruct (is_request rec) eqn:Er.
    + exists rec, ok. split; [by constructor|done].
    + destruct (IH (note ev t) Ha H) as (r & o & Hin & Hs). exists r, o. split; [by constructor|done].
  - destruct Hn as [Ha _]. rewrite E0 in Ha. apply (IH (note ev t) Ha H).
Qed.

Lemma tally_settled (tr : list event) t :
  t_open (run_tally tr t) = false ->
  (t_open t = true -> exists rec ok, (rec, ok) ∈ appends tr /\ settles_intent rec = true) /\
  forall before rec after, appends tr = before ++ (rec, true) :: after -> opens rec = true ->
    on_record_or_failed settles_intent after.
Proof.
  revert t. induction tr as [|ev tr IH]; intros t H.
  { simpl in H. split; [congruence|]. intros [|] ? ? [=]. }
  cbn [fold_left] in H. destruct (IH _ H) as [Hopen Hlater]. clear IH H.
  destruct (note_counts ev t) as (_ & _ & _ & Hn). unfold appends in *. cbn [omap list_omap] in *.
  destruct (obs_emit ev) as [[rec ok]|]; destruct Hn as [_ Hn]; rewrite Hn in Hopen; [|done]. split.
  - intros Ht. rewrite Ht in Hopen. destruct (settles_intent rec) eqn:Es; [exists rec, ok; by split; [constructor|]|].
    destruct Hopen as (r & o & Hin & Hs); [by rewrite orb_true_r|]. exists r, o. by split; [constructor|].
  - intros [|first before] rec' after E Ho; injection E as E1 E2.
    + apply attempted_on_record. subst. rewrite Ho in Hopen. by apply Hopen.
    + by eapply Hlater.
Qed.
End Tallies.
