(* ===== verification/ServeGuarantees.v ===== *)
(** * The guarantees of serving a request

    The theorems about [Serve.handle], read off [ServeTheorems.safe_handle] and
    [ServeTheorems.ends_handle], the mutation path included, and their composition with the decision point
    ([Composition.v]) and with the Egress Daemon ([Egress.v]): what holds of
    every event of every trace, whatever answers the effects. *)
From stdpp Require Import base list strings gmap.
From Stdlib Require Import ZArith Lia Ascii.
From S2P Require Import Prelude Programs RustStr RustSlice RustNet Seam Config PathGlob AuthzPolicy Decide.
From S2P Require Import Classification Ceiling Graph GraphFormat Identity Bindings PolicySource Snapshot Composition.
From S2P Require Import Wire Operands MutationExchange Providers Handler Egress Breaker Session Workers.
From S2P Require Import AuditRecords Effects Mutation Serve ServePolicy MutateTheorems ServeTheorems.
Open Scope nat_scope.

Section Guarantees.
Context {CV SV JV BV KV : Type}.
Local Notation effect := (@Effects.effect CV SV JV BV KV).
Local Notation prog := (Programs.prog (@Effects.effect CV SV JV BV KV)).
Local Notation Env := (@Env CV SV JV BV KV).
Local Notation event := (Programs.event (@Effects.effect CV SV JV BV KV)).
Local Notation Ev := (@Ev (@Effects.effect CV SV JV BV KV)).

(** ** Definitions *)

(** On some trace, the handler performs [ev] just after [pre]. *)
Definition performed (en : Env) (pre : list event) (ev : event) : Prop :=
  exists post, does (handle en) (pre ++ ev :: post).

(** One close and at most one response or grant; if a frame was asked for, a record of
    the request on record, unless every append of one failed; and after every intent on
    record the record of what became of it, unless every append of one failed. *)
Record served_once (tr : list event) : Prop := {
  so_closed : length (List.filter closes tr) = 1;
  so_answered : length (List.filter answers_peer tr) <= 1;
  so_recorded : existsb reads_frame tr = true -> on_record_or_failed is_request (appends tr);
  so_settled : forall before rec after, appends tr = before ++ (rec, true) :: after -> opens rec = true ->
    on_record_or_failed settles_intent after }.

(** The verb on whose behalf an effect changes the daemon or reads its state. *)
Definition performs (ev : event) : option Verb :=
  match ev_effect ev with
  | EnumerateSubjects => Some AdminSubjectList
  | OpsShow => Some AdminBaselineShow
  | OpsAccept hash => Some (AdminBaselineAccept hash)
  | OpsContain target reason _ => Some (AdminContain target reason)
  | OpsRelease target _ => Some (AdminRelease target)
  | _ => None
  end.

(** An effect that serves the peer: a payload, an operation, a send or a grant. *)
Definition serves (ev : event) : bool :=
  match ev_effect ev with
  | WriteFrame _ (ROk _) | EgressSend _ _ | WriteGrant _ => true
  | _ => is_some (performs ev)
  end.

(** Every decision in a trace, single or of a batch, is the composed decision
    point's on [snap]. *)
Definition decided_by (snap : Snapshot) (principal : Z) (ceiling : Authorizer) (tr : list event) : Prop :=
  Forall (fun ev =>
    (forall req d g, obs_decided ev = Some (req, JOk (d, g)) ->
       d = composed_decide_cited snap principal ceiling req) /\
    (forall reqs ds, obs_decided_all ev = Some (reqs, Returned ds) ->
       composed_decide_cited_all snap principal ceiling reqs = Some ds)) tr.

(** Every registry a trace reads is one the daemon loaded and booted with [b]. *)
Definition booted_with (url_scheme : string -> result string string) (display : VaultAddrError -> string)
    (b : EgressBounds) (deadline : Z) (tr : list event) : Prop :=
  Forall (fun ev => forall view a g, obs_live ev = Some (view, Some a, g) ->
            exists section, providers_from_section (Some section) = Ok (pa_set a) /\
              pa_user_prefix a = eb_user_prefix b /\
              egress_bounds_boot_gate url_scheme display (pa_set a) (Some b) deadline = Ok tt) tr.

(** From wherever a run of the mutation path has got to, it comes to an end, and no
    run ends for want of fuel. *)
Definition completes (p : prog (option unit)) : Prop :=
  (forall pre, does p pre -> exists tr, runs p (pre ++ tr) (Some tt)) /\
  (forall tr a, runs p tr a -> a = Some tt).

(** ** Lemmas *)

Lemma step_allowed (en : Env) pre ev : performed en pre ev -> allowed en (rev pre) ev.
Proof.
  intros [post Hd]. rewrite <-(app_nil_r (rev pre)). by eapply wp_does; [apply safe_handle|exact Hd|].
Qed.

Lemma rev_elem {A} (a : A) l : a ∈ rev l -> a ∈ l.
Proof. rewrite !list_elem_of_In. apply in_rev. Qed.

Lemma durable_rev (h : list event) : all_durable (rev h) <-> all_durable h.
Proof. unfold all_durable. by rewrite rev_alt, (Forall_reverse _ h). Qed.

Lemma decided_in (h : list event) snap principal ceiling req d g :
  decided_by snap principal ceiling h -> find_map obs_decided (rev h) = Some (req, JOk (d, g)) ->
  d = composed_decide_cited snap principal ceiling req.
Proof.
  intros Hall (ev & Hin & E)%find_map_Some. unfold decided_by in Hall. rewrite Forall_forall in Hall.
  by apply (proj1 (Hall ev (rev_elem _ _ Hin)) _ _ g).
Qed.

Lemma decided_all_in (h : list event) snap principal ceiling reqs ds :
  decided_by snap principal ceiling h -> find_map obs_decided_all (rev h) = Some (reqs, Returned ds) ->
  composed_decide_cited_all snap principal ceiling reqs = Some ds.
Proof.
  intros Hall (ev & Hin & E)%find_map_Some. unfold decided_by in Hall. rewrite Forall_forall in Hall.
  by apply (proj2 (Hall ev (rev_elem _ _ Hin))).
Qed.

(** A grant in the history was itself allowed, when it was written. *)
Lemma grant_in (en : Env) pre ev g :
  performed en pre ev -> find_map obs_grant (rev pre) = Some (g, true) ->
  exists pre', performed en pre' (Ev bool (WriteGrant g) true).
Proof.
  intros [post Hd] (ev' & Hin & E)%find_map_Some. apply rev_elem in Hin.
  destruct ev' as [X e x]. destruct e; try discriminate E. injection E as -> ->.
  apply list_elem_of_split in Hin as (l1 & l2 & ->). exists l1, (l2 ++ ev :: post).
  by rewrite <-app_assoc in Hd.
Qed.

(** What finalises to a denial does not permit. *)
Lemma denied_not_permitted d r : finalize (d_verdict d) = DDeny r -> permits d = false.
Proof. unfold permits, denial. by destruct (d_verdict d) as [| |[]|]. Qed.

(** The decision point permitted a request of this uid for a client's verb: alone,
    or as the first of a batch in which every one was. *)
Definition permitted_some (en : Env) (h : list event) : Prop :=
  (exists verb adm d g, find_map obs_decided h =
     Some (build_authz_request verb (sf_uid (en_session en)) None (sf_lane (en_session en)) adm, JOk (d, g)) /\
     permits d = true) \/
  (exists verb home kind path paths ds d, find_map obs_decided_all h =
     Some (map (mutation_request verb (sf_uid (en_session en)) home kind) (path :: paths), Returned (d :: ds)) /\
     permits d = true).

Lemma serves_permitted (en : Env) h ev : allowed en h ev -> serves ev = true -> permitted_some en h.
Proof.
  assert (forall verb req adm, authorised en h verb req adm -> permitted_some en h) as Hauth.
  { intros verb req adm (g & d & (view & providers & user & _ & _ & _ & _ & ->) & Hd & Hp). left.
    by exists verb, adm, d, g. }
  destruct ev as [X e x]. unfold allowed, serves, performs. cbn [ev_effect].
  destruct e; try done; try (intros H _; by naive_solver).
  - intros (_ & verb & home & p & intent & Hg & _) _. right.
    destruct Hg as [_ _ _ [Hne _ _ _] _ (answer & Hd & Hall) _ _].
    unfold mutation_requests in *. destruct (pm_paths p) as [|path paths]; [done|].
    destruct answer as [ds|]; unfold guarded_decide_cited_all, batch_answer in Hall; simpl in Hall.
    + destruct (Nat.eqb_spec (length ds) (S (length (map (mutation_request verb (sf_uid (en_session en)) home (pm_kind p)) paths))))
        as [El|]; simpl in Hall; [|by apply Forall_cons in Hall as [? _]].
      destruct ds as [|d ds]; [done|]. apply Forall_cons in Hall as [Hp _].
      by exists verb, home, (pm_kind p), path, paths, ds, d.
    + by apply Forall_cons in Hall as [? _].
  - destruct r; [|done]. intros H _. naive_solver.
Qed.

(** A contained uid is permitted nothing, alone or in a batch. *)
Section Contained.
Context (b : GraphBuilder) (compiled0 vocabulary : CompiledSet)
    (persisted : Graph) (policy : AuthzPolicy) (bindings : Bindings) (lookups : Lookups)
    (lookup : string -> result (option Z) Z) (principal : Z) (paths : PolicyPaths)
    (src : PolicySource) (digests : gmap string digest) (snap : Snapshot) (x : Extracted)
    (c : Ceiling) (system : ClassificationPolicy) (d : digest) (en : Env)
    (Hp : assemble b SCHEMA compiled0 = Ok persisted)
    (Hs : from_lookups policy bindings lookups lookup principal paths = Ok src)
    (Hx : extract persisted = Ok x)
    (Hc : compile persisted src vocabulary digests = Ok snap)
    (Hd : digests !! "bindings" = Some d)
    (Hu : (0 <= sf_uid (en_session en) < u32_max)%Z)
    (Hb : bound_to bindings (found lookups) (sf_uid (en_session en)) Adversary \/
          carried_over src x (sf_uid (en_session en))).
Local Notation ceiling := (CeilingAuthorizer c system).

Lemma contained_not_permitted req verb :
  uid_of req = Ok (Some (sf_uid (en_session en))) -> action req = verb_to_action verb ->
  permits (composed_decide_cited snap principal ceiling req) = false.
Proof.
  intros Huid Ha. eapply denied_not_permitted.
  eapply (contained_uid_denied b compiled0 vocabulary persisted policy bindings lookups lookup principal
    paths src digests snap x (sf_uid (en_session en)) req ceiling d); try done.
  rewrite Ha. apply client_not_kernel.
Qed.

Lemma contained_no_permit h : decided_by snap principal ceiling h -> ~ permitted_some en (rev h).
Proof.
  intros Hdec [(verb & adm & dec & g & Hf & Hperm)|(verb & home & kind & path & ps & ds & dec & Hf & Hperm)].
  - rewrite (decided_in _ _ _ _ _ _ _ Hdec Hf) in Hperm.
    by rewrite (contained_not_permitted _ verb (request_uid _ _ _ _ _ Hu) eq_refl) in Hperm.
  - apply (decided_all_in _ _ _ _ _ _ Hdec) in Hf. rewrite composed_all_pointwise in Hf.
    injection Hf as <- _.
    by rewrite (contained_not_permitted (mutation_request verb _ home kind path) verb
                  (request_uid verb _ (Some home) LaneLocal None Hu) eq_refl) in Hperm.
Qed.
End Contained.

(** ** Theorems *)

(** C2: audit, then respond: whenever a frame leaves, every audit append
    attempted so far has succeeded, and the latest is a record of this request. *)
Theorem audit_before_response (en : Env) pre class r x
    (H : performed en pre (Ev unit (WriteFrame class r) x)) :
  all_durable pre /\ on_record (rev pre) "request".
Proof.
  apply step_allowed in H. unfold allowed in H. simpl in H. rewrite <-durable_rev.
  destruct r; naive_solver.
Qed.

(** C3: an answer is a permitted request's: a success frame carries the answer
    of the verb that was read, whose operands passed the gates, for a session
    re-decided on facts gathered for it, with a provider choice admitted against
    the live registry, on a permit of the decision point for exactly that
    request, taken on the generation it was admitted on. *)
Theorem answered_only_if_permitted (en : Env) pre class p x
    (H : performed en pre (Ev unit (WriteFrame class (ROk p)) x)) :
  exists verb req adm, authorised en (rev pre) verb req adm /\ answers en verb p.
Proof. apply step_allowed in H. unfold allowed in H. simpl in H. naive_solver. Qed.

(** C32: an operation runs only once its permit is on record: the bindings are
    enumerated, the baseline shown or accepted and a subject contained or
    released only for a permitted request for that very verb and operand, after
    its permit record was appended, with no append having failed. *)
Theorem performed_only_if_recorded (en : Env) pre ev verb
    (Hv : performs ev = Some verb) (H : performed en pre ev) :
  all_durable pre /\ permit_on_record en (rev pre) verb /\
  exists req adm, authorised en (rev pre) verb req adm.
Proof.
  apply step_allowed in H. rewrite <-durable_rev. destruct ev as [X e x].
  unfold allowed, performs in *. cbn [ev_effect] in *.
  destruct e; try discriminate; injection Hv as <-; naive_solver.
Qed.

(** C4: write-ahead: a prompt leaves for the Egress Daemon only with its intent,
    a permit record whose send status is still intent-only, as the latest append
    and on record, and is the permitted request's own conversation, turns and cap
    for the provider, model, endpoint and key the kernel admitted. *)
Theorem prompt_write_ahead (en : Env) pre intent sreq x
    (H : performed en pre (Ev _ (EgressSend intent sreq) x)) :
  all_durable pre /\ find_map obs_emit (rev pre) = Some (intent, true) /\
  ar_result intent = "permit" /\ (ea_status <$> ar_egress intent) = Some StIntentOnly /\
  exists conversation turns output_tokens choice req a,
    authorised en (rev pre) (SessionPrompt conversation turns output_tokens choice) req (Some a) /\
    sreq = for_choice a ("provider:" +:+ ap_name (ac_provider a)) conversation turns output_tokens.
Proof. apply step_allowed in H. rewrite <-durable_rev. exact H. Qed.

(** C5: no attempt is granted but on the kernel's own decision: a grant leaves only
    with every append so far durable, the session re-decided, the verb the one that
    was read, its descriptor verified beneath the requester's home for the peer's own
    uid, the paths those the verified object or directory gives, not the one that was
    asked for, every one of them permitted in one batch, and the intent, a permit
    record that names exactly those paths, as the latest append; it grants the prepared
    scope, under the intent's own sequence number and the kernel's limits. *)
Theorem granted_only_if_permitted (en : Env) pre g x
    (H : performed en pre (Ev bool (WriteGrant g) x)) :
  all_durable pre /\
  exists verb home p intent, granted en (rev pre) verb home p intent /\ mg_scope g = pm_scope p /\
    mg_id g = mkId (sf_session_id (en_session en)) (ar_seq intent) /\
    mg_limits g = attempt_limits en (pm_scope p).
Proof. apply step_allowed in H. rewrite <-durable_rev. exact H. Qed.

(** C6: record, then acknowledge, within the grant: when an acknowledgment leaves,
    a grant that was permitted was delivered before it, every append so far is
    durable, and the effects on record are exactly as many as the acknowledgment
    counts, no more than granted, no path twice, each on a canonical path of the
    granted scope and of the granted kind. *)
Theorem acknowledged_within_grant (en : Env) pre ack x
    (H : performed en pre (Ev bool (WriteAck ack) x)) :
  all_durable pre /\
  exists g x0 verb p, find_map obs_grant (rev pre) = Some (g, true) /\ opened g x0 /\
    prepared_ok verb p /\ mg_scope g = pm_scope p /\ ak_id ack = mg_id g /\
    ak_next_index ack = Z.of_nat (length (audited (rev pre))) /\
    (Z.of_nat (length (audited (rev pre))) <= MAX_MUTATION_EFFECTS)%Z /\
    NoDup (map ef_path (audited (rev pre))) /\ Forall (entry_ok x0) (audited (rev pre)).
Proof.
  pose proof (step_allowed _ _ _ H) as (Hd & g & x0 & r & Hg & Ho & Hr & -> & ->).
  split; [by apply durable_rev|]. destruct (grant_in _ _ _ _ H Hg) as [pre' H'].
  apply step_allowed in H' as (_ & verb & home & p & intent & Hgr & Hsc & _ & Hlim).
  destruct Ho as [page Ho]. pose proof Ho as (H0 & Hl & _ & Hmax)%open_exchange_inv; [|by rewrite Hlim].
  destruct (exchange_reachable_ok x0 r H0 Hr) as [_ Hix _ Hnd Hbd Hen _ _ _ _].
  exists g, x0, verb, p. split_and!; try done; [by exists page|apply Hgr|]. rewrite Hl in Hbd. lia.
Qed.

(** C13: the mutation path terminates: whatever the client reports, in whatever
    order and however often, and whatever every other effect answers, the fuel of
    the report loop is enough and the handler comes to an end. *)
Theorem mutation_completes (en : Env) (answer : forall X, effect X -> X) verb rec home :
  completes (mutate en verb rec home).
Proof.
  assert (forall tr a, runs (mutate en verb rec home) tr a -> a = Some tt) as Hend.
  { intros tr a Hr. exact (wp_runs _ _ _ _ _ _ (mutate_ends en verb rec home []) Hr). }
  split; [|exact Hend]. intros pre (tr & a & Hr)%(does_extends answer). exists tr.
  by rewrite <-(Hend _ _ Hr).
Qed.

(** order of admission: no frame is read before the connection's own record
    is appended; nothing is put to the decision point, alone or as a batch, before
    the session has been re-decided on facts gathered on this connection for the
    session's own uid; and what is put is what the frame carried, a filesystem
    verb on the paths that were prepared for it. *)
Theorem admission_ordered (en : Env) pre ev (H : performed en pre ev) :
  (forall caps x, ev = Ev FrameRead (ReadFrame caps) x ->
     all_durable pre /\ on_record (rev pre) "connection") /\
  (forall u x, ev = Ev Facts (GatherFacts u) x -> u = sf_uid (en_session en)) /\
  (forall req x, ev = Ev _ (DecideCited req) x ->
     exists verb adm generation, asked en (rev pre) verb req adm generation) /\
  (forall reqs x, ev = Ev _ (DecideCitedAll reqs) x ->
     (exists user, revalidated en (rev pre) user) /\
     exists verb home p, in_hand en (rev pre) verb /\ dispatch_verb verb = MutationRequested /\
       find_map obs_home (rev pre) = Some (Ok home) /\ prepared_ok verb p /\
       reqs = mutation_requests p verb (sf_uid (en_session en)) home).
Proof. apply step_allowed in H. setoid_rewrite <-durable_rev. split_and!; intros * ->; apply H. Qed.

(** C27: serving settles: every complete run closes the stream once and writes at most
    one response or grant; if it asked for a frame, a record of the request is on record,
    and after every intent on record, of a prompt or of a mutation, the record of what
    became of it is on record too, unless that record was tried and every append of one
    failed; so it is when no append of the run failed. *)
Theorem run_settles (en : Env) tr a (H : runs (handle en) tr a) :
  served_once tr /\
  (all_durable tr ->
   (existsb reads_frame tr = true -> exists rec, (rec, true) ∈ appends tr /\ is_request rec = true) /\
   forall before rec after, appends tr = before ++ (rec, true) :: after -> opens rec = true ->
     exists rec', (rec', true) ∈ after /\ settles_intent rec' = true).
Proof.
  pose proof (ends_runs _ _ _ _ _ (ends_handle en) H) as (Hc & Hw & Hr & Ho).
  destruct (tally_counts tr (mkTally 0 0 false false false)) as (Ec & Ew & Er).
  rewrite Ec in Hc. rewrite Ew in Hw. rewrite Er in Hr. cbn in Hc, Hw, Hr. rewrite ?Nat.add_0_r, ?orb_false_r in *.
  assert (served_once tr) as Hs.
  { split; [done|done| |by apply (tally_settled tr _ Ho)].
    intros Hrd. by destruct (tally_on_record tr _ (Hr Hrd)) as [|]. }
  split; [exact Hs|]. intros Hd. split.
  - intros Hrd. apply (on_record_durable _ tr [] _ Hd eq_refl), (so_recorded _ Hs Hrd).
  - intros before rec after E Hop. apply (on_record_durable _ tr (before ++ [(rec, true)]) _ Hd).
    + by rewrite <-app_assoc.
    + by eapply so_settled.
Qed.

(** C1: containment end to end: over any valid load and any well-formed
    persisted graph, a peer whose uid [bindings.yaml] contains, or that was
    contained under a name that no longer resolves, is never served: on no trace
    is it answered with a payload or granted a filesystem attempt, does an
    operation run for it, or does a prompt of its leave. *)
Theorem contained_uid_never_served (b : GraphBuilder) (compiled0 vocabulary : CompiledSet)
    (persisted : Graph) (policy : AuthzPolicy) (bindings : Bindings) (lookups : Lookups)
    (lookup : string -> result (option Z) Z) (principal : Z) (paths : PolicyPaths)
    (src : PolicySource) (digests : gmap string digest) (snap : Snapshot) (x : Extracted)
    (c : Ceiling) (system : ClassificationPolicy) (d : digest) (en : Env) (tr : list event)
    (Hp : assemble b SCHEMA compiled0 = Ok persisted)
    (Hs : from_lookups policy bindings lookups lookup principal paths = Ok src)
    (Hx : extract persisted = Ok x)
    (Hc : compile persisted src vocabulary digests = Ok snap)
    (Hd : digests !! "bindings" = Some d)
    (Hu : (0 <= sf_uid (en_session en) < u32_max)%Z)
    (Hb : bound_to bindings (found lookups) (sf_uid (en_session en)) Adversary \/
          carried_over src x (sf_uid (en_session en)))
    (Hdec : decided_by snap principal (CeilingAuthorizer c system) tr) (Hr : does (handle en) tr) :
  Forall (fun ev => serves ev = false) tr.
Proof.
  apply Forall_forall. intros ev Hin. destruct (serves ev) eqn:Es; [|done]. exfalso.
  apply list_elem_of_split in Hin as (pre & post & ->). apply Forall_app in Hdec as [Hdec _].
  pose proof (serves_permitted _ _ _ (step_allowed _ _ _ (ex_intro _ _ Hr)) Es) as Hperm.
  by eapply contained_no_permit in Hperm.
Qed.

(** C26: the kernel's gates are the daemon's: every prompt that leaves the
    kernel, under a registry it loaded and bounds it booted on, is opened by the
    Egress Daemon under those bounds, on the mount the bounds name and for the
    provider, model, key path and field the kernel put in it. *)
Theorem sent_prompt_accepted (en : Env) url_scheme display b deadline pre intent sreq x
    (Hboot : booted_with url_scheme display b deadline pre)
    (H : performed en pre (Ev _ (EgressSend intent sreq) x)) :
  exists provider, es_destination sreq = "provider:" +:+ provider /\
    deputy_decide (frame_of sreq deadline) b =
    Ok (frame_of sreq deadline,
        mkOpen (es_conversation sreq) provider (es_model sreq) (eb_kv_mount b)
          (es_key_vault_path sreq) (es_key_field sreq)).
Proof.
  apply step_allowed in H. destruct H as (_ & _ & _ & _ & conversation & turns & tokens & choice & req & a & Ha & ->).
  destruct Ha as (g & d & (view & providers & user & Hl & _ & Hin & Hadm & _) & _).
  destruct Hin as (class & body & r & _ & _ & _ & _ & Hgate & _).
  assert (admitted_turns turns = Ok tt /\ conversation_id_is_acceptable conversation = true /\
          forall n, tokens = Some n -> output_tokens_is_acceptable n = true) as (Ht & Hconv & Hn).
  { simpl in Hgate. destruct (match tokens with Some n => _ | None => _ end) eqn:En; [done|].
    destruct (conversation_id_is_acceptable conversation); [|done]. cbn [negb] in Hgate.
    destruct (admitted_turns turns) as [[]|]; [|done]. split_and!; [done..|]. intros n ->.
    by apply negb_false_iff in En. }
  exists (ap_name (ac_provider a)). split; [done|]. simpl in Hadm. destruct providers as [pa|].
  - unbind Hadm. injection Hadm as <-. apply find_map_Some in Hl as (ev & Hev & El).
    unfold booted_with in Hboot. rewrite Forall_forall in Hboot.
    destruct (Hboot ev (rev_elem _ _ Hev) _ _ _ El) as (section & Hset & Hpre & Hbg).
    eapply deputy_accepts_admitted; try done. by rewrite <-Hpre.
  - destruct choice as [c|]; discriminate Hadm.
Qed.
End Guarantees.

(** ** Witnesses *)

(** A peer of a uid that puts one verb, every collaborator answering well and
    the decision point given. *)
Definition demo_env (uid : Z) (verb : Verb) : @Env unit unit unit unit unit :=
  mkEnv (mkSession uid (Some "alice") 1 LaneLocal (Checked Active)) None 1048576 65536 tt (fun _ => tt)
    (fun _ => Some 64%Z) (fun _ _ => Some 64%Z) (fun _ => Ok (mkWireRequest PROTOCOL_VERSION verb))
    5000 524288 "US" (fun _ => true) (fun s => s) demo_gc (fun _ => "0").

Definition demo_authority : ProviderAuthority := mkAuthority demo_providers "maknae/users".

(** The client replaced the file, and says so. *)
Definition demo_replace : Verb := FsWrite "/home/alice/x" 3 Existing None.
Definition demo_report : MutationReport :=
  Batch (mkId 1 1) 0 [mkEffect "/home/alice/x" ReplacedFile None None None].

Definition demo_answer (decide : Request -> Decided) (verb : Verb) (X : Type) (e : @effect unit unit unit unit unit X) : X :=
  match e in effect X return X with
  | NextSeq => 1%Z
  | Emit _ => true
  | ReadFrame _ => ReadOk (frame_class_of verb) []
  | SenderMismatched | IsExpired | LogRefusal _ => false
  | GatherFacts _ => mkFacts (Ok (mkMembership true "alice" "/home/alice")) (Checked Active) true
  | LiveAdmission => (tt, Some demo_authority, 7%Z)
  | BeginAttempt _ => Admit
  | RecordSuccess _ => tt
  | RecordTimeout _ => RemainsClosed
  | DecideCited req => JOk (decide req, 7%Z)
  | EnumerateSubjects => JOk (Some [])
  | OpsShow => Ok tt
  | OpsAccept _ => AcceptView tt None
  | OpsContain _ _ _ | OpsRelease _ _ => ContainView tt None
  | AdmittedHome _ _ => Ok "/home/alice"
  | TryAdmit _ => None
  | TakeFd | WorkerJoined | WriteGrant _ | WriteAck _ => true
  | VerifyObject _ _ | VerifyDirectory _ _ => Ok (verb_path verb)
  | DecideCitedAll reqs => Returned (map decide reqs)
  | ReadReport _ => Some demo_report
  | EgressReady => true
  | EgressSend _ _ => JOk (Ok demo_reply)
  | WriteFrame _ _ => tt
  | EndSession _ => tt
  | CloseStream => tt
  end.

Definition permitting (req : Request) : Decided := mkDecided (Permit [audit_obligation]) (Some "admin") None.
Definition composed (req : Request) : Decided := composed_decide_cited demo_snapshot 1000 demo_pdp req.

Definition demo_event : Type := event (@Effects.effect unit unit unit unit unit).

Definition demo_trace (decide : Request -> Decided) (uid : Z) (verb : Verb) :=
  trace (demo_answer decide verb) (handle (demo_env uid verb)).

Definition demo_prompt : Verb := SessionPrompt "c1" demo_turns (Some 512%Z) (Some demo_choice).

(** The event at a position of a trace, in the shape the theorems take. *)
Lemma demo_at decide uid verb n ev :
  demo_trace decide uid verb !! n = Some ev ->
  performed (demo_env uid verb) (take n (demo_trace decide uid verb)) ev.
Proof.
  intros H. exists (drop (S n) (demo_trace decide uid verb)). rewrite take_drop_middle by done.
  apply trace_does.
Qed.

Lemma audit_before_response_witness :
  exists pre : list demo_event, length pre = 12 /\ all_durable pre /\ on_record (rev pre) "request".
Proof.
  exists (take 12 (demo_trace composed 1000 Ping)). split; [vm_compute; reflexivity|].
  eapply (audit_before_response (demo_env 1000 Ping) _ Control (ROk PPong) tt). apply demo_at.
  vm_compute. reflexivity.
Defined.

Lemma answered_only_if_permitted_witness :
  exists pre verb req adm,
    authorised (demo_env 1000 Ping) (rev pre) verb req adm /\ answers (demo_env 1000 Ping) verb PPong.
Proof.
  exists (take 12 (demo_trace composed 1000 Ping)).
  eapply (answered_only_if_permitted (demo_env 1000 Ping) _ Control PPong tt). apply demo_at.
  vm_compute. reflexivity.
Defined.

Lemma performed_only_if_recorded_witness :
  exists pre : list demo_event, permit_on_record (demo_env 1000 AdminBaselineShow) (rev pre) AdminBaselineShow.
Proof.
  exists (take 12 (demo_trace permitting 1000 AdminBaselineShow)).
  eapply (performed_only_if_recorded (demo_env 1000 AdminBaselineShow) _ (Ev _ OpsShow (Ok tt)) AdminBaselineShow);
    [reflexivity|]. apply demo_at. vm_compute. reflexivity.
Defined.

Lemma demo_sends : exists pre intent sreq x,
  performed (demo_env 1000 demo_prompt) pre (Ev _ (EgressSend intent sreq) x) /\
  pre = take 14 (demo_trace permitting 1000 demo_prompt).
Proof.
  destruct (demo_trace permitting 1000 demo_prompt !! 14) as [ev|] eqn:E; [|vm_compute in E; discriminate].
  pose proof (demo_at _ _ _ _ _ E) as H. vm_compute in E. injection E as <-. eauto 10.
Qed.

Lemma prompt_write_ahead_witness :
  exists (pre : list demo_event) intent, find_map obs_emit (rev pre) = Some (intent, true) /\ ar_result intent = "permit" /\
    (ea_status <$> ar_egress intent) = Some StIntentOnly.
Proof.
  destruct demo_sends as (pre & intent & sreq & x & H & _). exists pre, intent.
  destruct (prompt_write_ahead _ _ _ _ _ H) as (_ & He & Hp & Hs & _). auto.
Defined.

Lemma admission_ordered_witness :
  exists pre : list demo_event, length pre = 2 /\ on_record (rev pre) "connection".
Proof.
  exists (take 2 (demo_trace composed 1000 Ping)). split; [vm_compute; reflexivity|].
  refine (proj2 (proj1 (admission_ordered (demo_env 1000 Ping) _ (Ev _ (ReadFrame _) (ReadOk Control [])) _) _ _ eq_refl)).
  apply demo_at. vm_compute. reflexivity.
Defined.

(** A prompt is sent and answered: its intent is on record, and so is what became of it. *)
Lemma run_settles_witness :
  existsb (fun p => opens p.1 && p.2) (appends (demo_trace permitting 1000 demo_prompt)) = true /\
  served_once (demo_trace permitting 1000 demo_prompt).
Proof.
  split; [vm_compute; reflexivity|].
  exact (proj1 (run_settles (demo_env 1000 demo_prompt) _ _ (trace_runs (demo_answer permitting demo_prompt) _))).
Defined.

Lemma contained_uid_never_served_witness :
  length (demo_trace composed 1001 Ping) = 15 /\
  Forall (fun ev => serves ev = false) (demo_trace composed 1001 Ping).
Proof.
  split; [vm_compute; reflexivity|]. destruct demo_stored_built as [b Hb].
  apply (contained_uid_never_served b demo_compiled demo_vocabulary demo_stored (ps_policy demo_src)
           demo_file_bindings demo_lookups (fun _ => Ok None) 1000 demo_paths demo_src demo_digests
           demo_snapshot demo_extracted demo_ceiling US.BasicPolicy demo_digest (demo_env 1001 Ping)
           (demo_trace composed 1001 Ping) Hb demo_src_ok).
  - vm_compute. reflexivity.
  - exact demo_compiles.
  - reflexivity.
  - split; vm_compute; congruence.
  - left. exists (EUid 1001). split; [|reflexivity].
    eexists _, [EName "mallory"; EUid 1001]. split; [reflexivity|]. split; [reflexivity|].
    right. left.
  - eapply Forall_impl; [apply trace_answered|]. intros [X e x] Hx. simpl in Hx. subst x.
    split; intros *; intros E; destruct e; try discriminate E; injection E as <- <-; [done|].
    by rewrite composed_all_pointwise.
  - apply trace_does.
Defined.

Lemma sent_prompt_accepted_witness :
  exists sreq, is_ok (deputy_decide (frame_of sreq DEFAULT_DEADLINE_MS) demo_bounds) = true.
Proof.
  destruct demo_sends as (pre & intent & sreq & x & H & ->). exists sreq.
  destruct (sent_prompt_accepted (demo_env 1000 demo_prompt) demo_url_scheme demo_display demo_bounds
              DEFAULT_DEADLINE_MS (take 14 (demo_trace permitting 1000 demo_prompt)) intent sreq x)
    as (provider & _ & Hd).
  - apply Forall_take. eapply Forall_impl; [apply trace_answered|]. intros [X e y] Hy view a g E.
    simpl in Hy. subst y. destruct e; try discriminate E. injection E as _ <- _.
    exists demo_section. split_and!; vm_compute; reflexivity.
  - exact H.
  - rewrite Hd. reflexivity.
Defined.

(** The replacement's grant and the acknowledgment of its report. *)
Lemma demo_grants : exists g,
  performed (demo_env 1000 demo_replace) (take 14 (demo_trace permitting 1000 demo_replace))
    (Ev bool (WriteGrant g) true).
Proof.
  destruct (demo_trace permitting 1000 demo_replace !! 14) as [ev|] eqn:E; [|vm_compute in E; discriminate].
  pose proof (demo_at _ _ _ _ _ E) as H. vm_compute in E. injection E as <-. eauto.
Qed.

Lemma granted_only_if_permitted_witness :
  exists verb home p intent,
    granted (demo_env 1000 demo_replace) (rev (take 14 (demo_trace permitting 1000 demo_replace))) verb home p intent /\
    pm_paths p = ["/home/alice/x"].
Proof.
  destruct demo_grants as [g H].
  destruct (granted_only_if_permitted _ _ _ _ H) as (_ & verb & home & p & intent & Hg & _).
  exists verb, home, p, intent. split; [exact Hg|]. destruct (gr_verified _ _ _ _ _ _ Hg) as (found & _ & Hf & Hp).
  vm_compute in Hf. injection Hf as <- <-. inversion Hp; subst; reflexivity.
Defined.

Lemma acknowledged_within_grant_witness :
  let pre := take 18 (demo_trace permitting 1000 demo_replace) in
  length (audited (rev pre)) = 1 /\ exists x0, Forall (entry_ok x0) (audited (rev pre)).
Proof.
  split; [vm_compute; reflexivity|].
  destruct (acknowledged_within_grant (demo_env 1000 demo_replace)
              (take 18 (demo_trace permitting 1000 demo_replace)) (mkAck (mkId 1 1) 1) true)
    as (_ & g & x0 & verb & p & _ & _ & _ & _ & _ & _ & _ & _ & He).
  - apply demo_at. vm_compute. reflexivity.
  - exists x0. exact He.
Defined.
